(* ===== verification/_CoqProject ===== *)
-Q . S2P
Prelude.v
Wire.v
Net.v
Plan.v
Packet.v
Udp.v
Path.v
Reassembly.v
Pool.v
Fifo.v
Datapath.v
DatapathPool.v
DatapathSafety.v
DatapathTheory.v
DnsName.v
DnsMessage.v
DnsPolicy.v
DnsResponse.v
DnsStrip.v
DnsTotal.v
Cache.v
Demux.v
Varint.v
IpText.v
Text.v
Egress.v
Sansio.v
Framed.v
Socks5.v
Vless.v
Shadowsocks.v
ShadowsocksPacket.v
Hysteria2.v
Demote.v
Filter.v
Live.v
Csp.v
Rewrite.v
Mirror.v
Transport.v
Masque.v
Bridge.v
Quic.v
Stack.v
StackTheory.v
Terminate.v
Idle.v
Upstream.v
Origin.v
PacketEgress.v
WireGuard.v
Relay.v
Telemetry.v
Resolver.v
Shell.v
ShellTheory.v
Exchange.v
Rules.v
Session.v
Api.v
Seam.v
Ffi.v
