(* ===== verification/Prelude.v ===== *)
(** * Boreas core, verified

    Boreas is a user-space tunnel.  IP packets arrive from a TUN device; the
    datapath summarises each one, decides from the egress's properties whether it is
    forwarded as a packet, terminated locally, answered or dropped, and queues what
    leaves.  It does no I/O: a shell feeds it packets, replies, timers and path
    changes and polls its queues.  Beside it stand the DNS policy, which rewrites
    upstream replies so that inspected hosts fall back from ECH and HTTP/3; the
    upstream transports that carry queries; the egresses, which are proxy protocols
    over byte streams or datagrams; the interception of TLS connections, which mirrors
    the client's handshake and rewrites responses; and the bounded tables and shared
    connections all of these use.  The public API builds all of it from a configuration,
    and a C boundary offers it to other languages.  The crate is [src/src], the C boundary
    [src/ffi/src]; this library translates their logic to executable definitions and
    proves what makes it correct.

    ** Conventions

    - Machine integers are [Z] with the wrap-around, saturation or checked operation
      of the source written out ([wrap], [saturating_sub], [checked_sub]); bytes are
      [Z] with [byte_ok]; slices are lists; lengths and positions are [nat].
    - A fallible function answers [Res E A]: [Ok], [Err] (Rust's [Result]) or [Panic]
      (a failed index, [expect], division or overflow trap).  Every index of the
      source goes through an accessor that can panic, so "never panics" is proved.
    - An [Instant] is a number of nanoseconds up to [INSTANT_MAX]; a [Duration]
      likewise.  The clock is an argument, and a run under a monotonic clock is a step
      relation ([table_step], [run], [driven], [drive], [copy_step]) or a fold of steps
      ([turn], [exchange_run], [seam_run], [driver_run]).
    - Hash maps are [gmap]; where the order of a [BTreeMap] or [VecDeque] matters it
      is a list.
    - A byte stream is the script of what its polls will answer ([Script],
      [DataEvent], [SocketEvent]): pieces of any sizes, pauses, failures and the end.
      What holds for every script holds however the network splits the bytes.
    - Concurrent tasks are steps of one relation; each access to a lock is one step,
      so a theorem about reachable states covers every interleaving ([Live], [Demux],
      [Origin], [Relay], [Pool], [Exchange], [Seam], [Ffi]).
    - Code of other crates is a class of operations with the laws its documentation
      states, and an instance that shows the laws can hold: etherparse
      ([Etherparse]), octets ([Varint]), the ciphers of Shadowsocks, httparse
      ([HttpParse]), quiche ([Quiche]), smoltcp ([Smoltcp]), the WireGuard tunnel, the filter
      engine ([BrowserEngine]), the decompressors and the HTML rewriter.  What the host or
      the outside answers is a record of answers ([World], [StartWorld]) or the argument of
      a step.

    ** Files and the code they model

    - [Prelude]: results and their monad, checked accessors, machine integers and
      time, the tactics and lemmas the components share.
    - [Wire], [Varint] ([wire.rs]): Reader, Writer, Bounded, the Internet checksum with
      the algebra of ones'-complement sums, and variable-length integers.
    - [Net], [Plan] ([lib.rs]): addresses, endpoints, flow keys; MTUs, path properties
      and chaining, admission, planning, re-planning and routing.
    - [Packet] ([l3/packet.rs]), [Path] ([l3/path.rs]), [Udp] ([l3/udp.rs]),
      [Reassembly] ([l3/reassembly.rs]): parsing and writing packets, MSS clamping and
      Packet Too Big validation, the timer wheel and flow table, fragments.
    - [Pool] ([pool.rs]) and [Fifo] ([fifo.rs]): the buffer budget and the bounded
      memo.
    - [Datapath] ([datapath.rs]): the whole machine as a state and error monad; its
      theorems are in [DatapathPool] (buffer ownership), [DatapathSafety] (no panic,
      bounds, termination) and [DatapathTheory] (interception, path changes, error
      rate).
    - [DnsName], [DnsMessage], [DnsPolicy], [DnsResponse], [DnsStrip]
      ([policy/dns.rs]): names and compression, messages and records, host verdicts,
      rewritten and local replies, and what stripping leaves of an HTTPS record; [DnsTotal]
      shows that any message is handled without a panic.
    - [Cache] ([policy/cache.rs]), [Demux] ([policy/demux.rs]) and [Upstream]
      ([policy/upstream.rs]): cached replies, the multiplexing of queries on one
      connection, and the upstream exchanges with their framing and retries.  [Resolver]
      ([host/shell.rs]) is the task that answers a query from cache, policy or upstream.
    - [Filter] ([policy/filter.rs]), [Rules] ([policy/rules.rs]), [Demote]
      ([policy/demote.rs]): filter lists, the rules for requests and their cosmetic memo,
      and the memory of hosts whose interception failed.
    - [Text], [IpText]: the string operations of the standard library that the code
      uses.
    - [Egress] ([egress/mod.rs]) and [Sansio], [Framed] ([sansio.rs]): targets and
      errors, negotiations and framed streams over protocol machines.
    - [Socks5], [Vless], [Shadowsocks], [ShadowsocksPacket], [Hysteria2], [Masque],
      [Transport], [Origin] ([egress/]): the proxy protocols, the HTTP/2, gRPC and
      WebSocket streams below them, and re-origination through the tunnel.  [Bridge]
      ([bridge.rs]) and [Quic] ([egress/quic.rs]) join the QUIC driver to its streams;
      [PacketEgress] and [WireGuard] ([egress/mod.rs]) are the egresses
      that carry whole packets.
    - [Stack], [StackTheory] ([l4/stream.rs]) and [Terminate] ([l4/terminate.rs]): the
      local TCP stack, its listeners and sockets, and the terminator that serves it.
    - [Relay] ([l4/relay.rs]), [Live] ([live.rs]), [Idle] ([deadline.rs], [idle.rs]):
      datagram associations, shared connections, and waiting.
    - [Telemetry], [Shell], [ShellTheory] ([host/shell.rs]): the sink of telemetry and the
      reactor around the datapath.
    - [Csp], [Rewrite] ([intercept/rewrite.rs]) and [Mirror] ([intercept/mirror.rs],
      [mitm.rs]): content-security policies, response rewriting, ClientHello mirroring.
    - [Session] ([intercept/session.rs]) and [Exchange] ([intercept/exchange.rs]): the
      decision to intercept or splice a connection, and the proxying of its requests.
    - [Api] ([api.rs]): configurations, their checked plan, and what a start builds.
    - [Seam] ([ffi/src/seam.rs]) and [Ffi] ([ffi/src/config.rs], [status.rs],
      [tunnel.rs]): the host's device behind the C boundary, and the boundary's
      configuration, starts, driver, events and buffers.

    ** What the theorems show

    - The datapath: driven by any bytes, replies, timers and path changes, it never
      panics and always returns, keeps its flow table, queues and ready list within
      their bounds, and neither leaks nor duplicates a pool buffer while the shell
      shares the pool.  DNS under interception never escapes to the egress.  What a
      path change does to every live flow is stated exactly, and with it a defect:
      inspected flows on a packet egress are torn down by every path change.
    - Packets: written UDP datagrams, hop-spent, MSS-clamped and rebuilt packets carry
      checksums that verify against the reference ones'-complement sum, and change
      only the fields they name; ICMP errors stay within their RFC bounds and go back to
      the sender.
    - Tables under any run: the flow table never evicts early and evicts late by less
      than a second; the reassembler completes only gap-free, overlap-free datagrams of
      one key; the pool keeps its budget; the memo refines a first-in first-out list.
    - DNS: names round-trip and are read totally from any bytes; responses parse back
      as the client's transaction with the upstream's answers aged and stripped, RDATA
      otherwise byte for byte (so that compression pointers inside it dangle, a defect);
      the cache answers only live replies and evicts in order of arrival; the demultiplexer delivers each reply only to
      the caller that asked; framed and HTTP replies are judged on their bytes alone.
    - Byte streams: SOCKS5, Hysteria2 and HTTP Upgrade negotiations reach the verdict
      of their machine however the bytes are split and keep what follows; Shadowsocks,
      gRPC, HTTP/2 and WebSocket streams deliver exactly what was written.
    - Datagrams: the Shadowsocks replay window, Hysteria2 fragments, VLESS frames and
      CONNECT-IP tunnels deliver only what was sent, once and whole; a Hysteria2 route
      that is full drops, and a CONNECT-IP tunnel moves only as its connection answers.
    - Concurrency: callers share one dial, a port is never leased twice nor lost, the
      relay keeps its limits and accounts for every datagram, an idle copy ends at its
      timeout; the reactor keeps the pool in balance with its queues.
    - Local termination: the stack keeps its ceilings, the terminator's table agrees with
      it, and a bridge loses no byte.
    - Interception: a connection is intercepted only for a named host the policy admits, and
      otherwise spliced with every byte replayed; only admissible requests go upstream, and
      HTTP/3 is steered away exactly where the alternatives are well formed; the hello a server
      sees offers what the client offered; inline styles are permitted exactly when the
      policy is relaxed for them; a rewritten body of data frames is the text its
      compressed bytes stand for.
    - The edges: a start fails only for listed reasons and builds what its plan asks for; over
      the C boundary a failed start accounts for the contexts it was given; the host's
      device passes packets in order and is released once, and is released at all under
      any fair schedule in which the host answers its reads.

    ** Fuel

    Loops that are not structural take fuel, and running out is [Panic], [None] or the
    value that makes the theorem fail, so the theorems include that the fuel is enough.
    A name read visits each (length, position) pair at most once ([read_fuel]); the
    wheel drains at most its 512 buckets; carries fold in three rounds; TCP options,
    SvcParams and IPv6 extension headers consume a byte per round; the id search of
    the demultiplexer tries each of the 65536 ids; [dispatch] and reassembly call each
    other at most once per held datagram and byte ([dispatch_fuel]).  Rounds of a
    reading stream use up an event or a byte each ([read_fuel_of], [h2_weight]); a
    negotiation reads a byte per round and at most [MAX_NEGOTIATION]; the drains of a
    CONNECT-IP tunnel use up what quiche holds ([q_work]).

    ** Not modelled

    Sockets, TUN devices and routes ([host/device.rs], [host/platform.rs]), TLS handshakes
    and the certificate authority ([intercept/ca.rs]), building hyper and QUIC connections
    and the tasks that only move bytes between them (the accept loop of sessions, the
    dialling of origins), the upstream and underlay adapters and stopping in [api.rs], the
    bypass sockets and JNI glue of the C boundary, the release tooling, and the vendored h2
    and quiche: these are input and output, or other projects' code.  Contents of a buffer
    after a failed write, log texts and Display implementations are left out. *)

From stdpp Require Export base gmap sets list strings numbers option fin_maps sorting.
From Stdlib Require Export ZArith Lia.

(** ** Notations *)

Declare Scope boreas_scope.
Delimit Scope boreas_scope with boreas.

(** A Rust byte slice, every element an unsigned 8-bit integer ([byte_ok]). *)
Abbreviation bytes := (list Z).

(** ** Outcomes

    [Ok] and [Err] are Rust's [Result]; [Panic] is a slice index or range out of
    bounds, a failed [expect], or an arithmetic overflow trap.  Every indexing
    operation of the source is written with one of the panicking accessors below,
    so "this never panics" is a theorem and not an assumption. *)

Inductive Res (E A : Type) : Type :=
| Ok (a : A)
| Err (e : E)
| Panic.
Arguments Ok {E A} a.
Arguments Err {E A} e.
Arguments Panic {E A}.

#[global] Instance Res_ret {E} : MRet (Res E) := fun A a => Ok a.
#[global] Instance Res_bind {E} : MBind (Res E) := fun A B f r =>
  match r with
  | Ok a => f a
  | Err e => Err e
  | Panic => Panic
  end.
#[global] Instance Res_fmap {E} : FMap (Res E) := fun A B f r =>
  match r with
  | Ok a => Ok (f a)
  | Err e => Err e
  | Panic => Panic
  end.

(** [Option::ok_or] followed by [?]. *)
Definition ok_or {E A} (e : E) (o : option A) : Res E A :=
  match o with
  | Some a => Ok a
  | None => Err e
  end.

(** [Option::expect], or an indexing expression that panics when absent. *)
Definition or_panic {E A} (o : option A) : Res E A :=
  match o with
  | Some a => Ok a
  | None => Panic
  end.

(** ** Machine integers

    Fixed-width unsigned integers are [Z]; a width is the range its values live
    in, and an operation that can leave it is written with its wrap or its
    saturation.  [usize] positions and lengths are [nat]: they index in-memory
    slices. *)

Definition uint_ok (bits v : Z) : Prop := (0 <= v < 2 ^ bits)%Z.
Abbreviation byte_ok := (uint_ok 8).
Abbreviation u16_ok := (uint_ok 16).
Abbreviation u32_ok := (uint_ok 32).
Abbreviation u64_ok := (uint_ok 64).
Abbreviation bytes_ok := (Forall byte_ok).

Definition wrap (bits v : Z) : Z := (v mod 2 ^ bits)%Z.

Definition U8_MAX : Z := 255.
Definition U16_MAX : Z := 65535.
Definition U32_MAX : Z := 4294967295.
Definition U64_MAX : Z := 18446744073709551615.

(** [uN::checked_add], [uN::checked_sub], [uN::saturating_add],
    [uN::saturating_sub]. *)
Definition checked_add (max a b : Z) : option Z :=
  if (a + b <=? max)%Z then Some (a + b)%Z else None.
Definition checked_sub (a b : Z) : option Z :=
  if (b <=? a)%Z then Some (a - b)%Z else None.
Definition saturating_add (max a b : Z) : Z := Z.min max (a + b).
Definition saturating_sub (a b : Z) : Z := Z.max 0 (a - b).

(** [uN::to_be_bytes] for an N of [n] bytes, and [uN::from_be_bytes]. *)
Fixpoint be_bytes (n : nat) (v : Z) : bytes :=
  match n with
  | O => []
  | S n => (v / 2 ^ (8 * Z.of_nat n) mod 256)%Z :: be_bytes n v
  end.

Definition be_value (bs : bytes) : Z :=
  foldl (fun acc b => acc * 256 + b)%Z 0%Z bs.

(** ** Slices *)

(** [slice.get(a..b)]. *)
Definition get_range {A} (l : list A) (a b : nat) : option (list A) :=
  if (a <=? b) && (b <=? length l) then Some (take (b - a) (drop a l)) else None.

(** [slice.get(a..)] and [slice.get(..b)]. *)
Definition get_from {A} (l : list A) (a : nat) : option (list A) :=
  if a <=? length l then Some (drop a l) else None.
Definition get_to {A} (l : list A) (b : nat) : option (list A) :=
  if b <=? length l then Some (take b l) else None.

(** [l[at..at + xs.len()].copy_from_slice(xs)]: the written slice, [None] where
    Rust panics because the range leaves the slice. *)
Definition splice {A} (at_ : nat) (xs l : list A) : list A :=
  take at_ l ++ xs ++ drop (at_ + length xs) l.

Definition put {A} (at_ : nat) (xs l : list A) : option (list A) :=
  if at_ + length xs <=? length l then Some (splice at_ xs l) else None.

(** [Vec::resize(n, 0)]. *)
Definition vec_resize (n : nat) (l : bytes) : bytes :=
  take n l ++ replicate (n - length l) 0%Z.

(** [slice.iter().any(f)]. *)
Definition any {A} (f : A -> bool) (l : list A) : bool := existsb f l.

(** ** Time

    [Instant] is a count of nanoseconds on the monotonic clock and [Duration] a
    number of nanoseconds.  [Instant::checked_add] fails past the clock's range,
    whose seconds are a signed 64-bit integer. *)

Abbreviation Instant := Z (only parsing).
Abbreviation Duration := Z (only parsing).

Definition NANOS : Z := 1000000000.
Definition INSTANT_MAX : Z := 2 ^ 63 * NANOS - 1.
Definition from_secs (s : Z) : Duration := (s * NANOS)%Z.
Definition instant_checked_add (now : Instant) (d : Duration) : option Instant :=
  checked_add INSTANT_MAX now d.
Definition saturating_duration_since (later earlier : Instant) : Duration :=
  saturating_sub later earlier.
Definition as_secs (d : Duration) : Z := (d / NANOS)%Z.

(** ** Tactics *)

(** Split every boolean comparison of the context and goal into its proposition. *)
Ltac reflect :=
  repeat match goal with
  | H : (_ && _)%bool = true |- _ => apply andb_true_iff in H as [? ?]
  | H : (_ || _)%bool = false |- _ => apply orb_false_iff in H as [? ?]
  | H : negb _ = true |- _ => apply negb_true_iff in H
  | H : negb _ = false |- _ => apply negb_false_iff in H
  | H : (_ <=? _)%Z = true |- _ => apply Z.leb_le in H
  | H : (_ <=? _)%Z = false |- _ => apply Z.leb_gt in H
  | H : (_ <? _)%Z = true |- _ => apply Z.ltb_lt in H
  | H : (_ <? _)%Z = false |- _ => apply Z.ltb_ge in H
  | H : (_ =? _)%Z = true |- _ => apply Z.eqb_eq in H
  | H : (_ =? _)%Z = false |- _ => apply Z.eqb_neq in H
  | H : (_ <=? _)%nat = true |- _ => apply Nat.leb_le in H
  | H : (_ <=? _)%nat = false |- _ => apply Nat.leb_gt in H
  | H : (_ <? _)%nat = true |- _ => apply Nat.ltb_lt in H
  | H : (_ <? _)%nat = false |- _ => apply Nat.ltb_ge in H
  | H : (_ =? _)%nat = true |- _ => apply Nat.eqb_eq in H
  | H : (_ =? _)%nat = false |- _ => apply Nat.eqb_neq in H
  end.

(** Case on the scrutinee of the first [match]/[if] of a hypothesis or the goal. *)
Ltac case_in H :=
  match type of H with
  | context [match ?x with _ => _ end] => destruct x eqn:?
  end.
Ltac case_goal :=
  match goal with
  | |- context [match ?x with _ => _ end] => destruct x eqn:?
  end.

(** Division and modulo by constants, for [lia]. *)
Ltac zdiv_lia := Z.div_mod_to_equations; lia.

Create HintDb boreas discriminated.

(** ** Lemmas on byte strings *)

Lemma byte_ok_mod v : byte_ok (v mod 256)%Z.
Proof. unfold uint_ok. pose proof (Z.mod_pos_bound v 256). lia. Qed.
#[export] Hint Resolve byte_ok_mod : boreas.

Lemma length_be_bytes n v : length (be_bytes n v) = n.
Proof. induction n; simpl; auto. Qed.

Lemma be_bytes_ok n v : bytes_ok (be_bytes n v).
Proof. induction n; simpl; constructor; auto with boreas. Qed.
#[export] Hint Resolve be_bytes_ok : boreas.

Lemma foldl_be_value acc bs :
  foldl (fun acc b => acc * 256 + b)%Z acc bs
  = (acc * 2 ^ (8 * Z.of_nat (length bs)) + be_value bs)%Z.
Proof.
  revert acc. unfold be_value. induction bs as [|b bs IH]; intros acc; simpl.
  { lia. }
  rewrite IH, (IH (0 * 256 + b)%Z).
  replace (8 * Z.of_nat (S (length bs)))%Z with (8 + 8 * Z.of_nat (length bs))%Z by lia.
  rewrite Z.pow_add_r by lia. change (2 ^ 8)%Z with 256%Z. ring.
Qed.

Lemma be_value_cons b bs :
  be_value (b :: bs) = (b * 2 ^ (8 * Z.of_nat (length bs)) + be_value bs)%Z.
Proof. unfold be_value at 1. simpl. apply foldl_be_value. Qed.

Lemma be_value_app xs ys :
  be_value (xs ++ ys) = (be_value xs * 2 ^ (8 * Z.of_nat (length ys)) + be_value ys)%Z.
Proof. unfold be_value at 1. rewrite foldl_app. apply foldl_be_value. Qed.

Lemma be_value_bound bs :
  bytes_ok bs -> (0 <= be_value bs < 2 ^ (8 * Z.of_nat (length bs)))%Z.
Proof.
  induction 1 as [|b bs Hb Hbs IH]; [cbn; lia|].
  rewrite be_value_cons. simpl length.
  replace (8 * Z.of_nat (S (length bs)))%Z with (8 + 8 * Z.of_nat (length bs))%Z by lia.
  rewrite Z.pow_add_r by lia. unfold uint_ok in Hb. change (2 ^ 8)%Z with 256%Z in *. nia.
Qed.

Lemma be_value_be_bytes n v :
  be_value (be_bytes n v) = (v mod 2 ^ (8 * Z.of_nat n))%Z.
Proof.
  induction n as [|n IH]; [cbn; now rewrite Z.mod_1_r|].
  cbn [be_bytes]. rewrite be_value_cons, IH, length_be_bytes.
  replace (8 * Z.of_nat (S n))%Z with (8 * Z.of_nat n + 8)%Z by lia.
  rewrite Z.pow_add_r by lia. change (2 ^ 8)%Z with 256%Z.
  set (p := (2 ^ (8 * Z.of_nat n))%Z).
  assert (0 < p)%Z by (apply Z.pow_pos_nonneg; lia).
  rewrite Z.rem_mul_r by lia. lia.
Qed.

Lemma be_value_be_bytes_small n v :
  (0 <= v < 2 ^ (8 * Z.of_nat n))%Z -> be_value (be_bytes n v) = v.
Proof. intros. rewrite be_value_be_bytes. now apply Z.mod_small. Qed.

Lemma be_bytes_mod n v w :
  (v mod 2 ^ (8 * Z.of_nat n) = w mod 2 ^ (8 * Z.of_nat n))%Z -> be_bytes n v = be_bytes n w.
Proof.
  revert v w. induction n as [|n IH]; intros v w Heq; [done|]. cbn [be_bytes].
  replace (8 * Z.of_nat (S n))%Z with (8 * Z.of_nat n + 8)%Z in Heq by lia.
  rewrite Z.pow_add_r in Heq by lia. change (2 ^ 8)%Z with 256%Z in Heq.
  set (p := (2 ^ (8 * Z.of_nat n))%Z) in *.
  assert (0 < p)%Z as Hp by (apply Z.pow_pos_nonneg; lia).
  rewrite !Z.rem_mul_r in Heq by lia.
  pose proof (Z.mod_pos_bound v p Hp). pose proof (Z.mod_pos_bound w p Hp).
  assert (v / p mod 256 = w / p mod 256 /\ v mod p = w mod p)%Z as [E1 E2].
  { apply (Z.div_mod_unique p); lia. }
  f_equal; [exact E1|]. apply IH. exact E2.
Qed.

Lemma be_bytes_be_value bs :
  bytes_ok bs -> be_bytes (length bs) (be_value bs) = bs.
Proof.
  induction 1 as [|b bs Hb Hbs IH]; [done|].
  cbn [length be_bytes]. pose proof (be_value_bound _ Hbs).
  set (p := (2 ^ (8 * Z.of_nat (length bs)))%Z) in *.
  assert (0 < p)%Z by (apply Z.pow_pos_nonneg; lia).
  rewrite be_value_cons. fold p. f_equal.
  - rewrite Z.div_add_l, Z.div_small by lia. rewrite Z.add_0_r. now apply Z.mod_small.
  - etransitivity; [|exact IH].
    apply be_bytes_mod. fold p. rewrite Z.add_comm, Z.mod_add by lia. done.
Qed.

(** ** Text

    A [str] is its bytes, well-formed UTF-8 as [str::from_utf8] checks it. *)

(** [u8::to_ascii_lowercase]. *)
Definition to_ascii_lowercase (b : Z) : Z := (if (65 <=? b) && (b <=? 90) then b + 32 else b)%Z.

Definition lowercase (b : Z) : Prop := to_ascii_lowercase b = b.

Definition in_range (lo hi b : Z) : bool := ((lo <=? b) && (b <=? hi))%Z.
Definition is_cont : Z -> bool := in_range 0x80 0xbf.

Fixpoint utf8_ok (bs : bytes) : bool :=
  match bs with
  | [] => true
  | a :: bs =>
      if (a <? 0x80)%Z then utf8_ok bs else
      match bs with
      | [] => false
      | b :: bs =>
          if in_range 0xc2 0xdf a then is_cont b && utf8_ok bs else
          match bs with
          | [] => false
          | c :: bs =>
              if (a =? 0xe0)%Z then in_range 0xa0 0xbf b && is_cont c && utf8_ok bs
              else if in_range 0xe1 0xec a || in_range 0xee 0xef a then is_cont b && is_cont c && utf8_ok bs
              else if (a =? 0xed)%Z then in_range 0x80 0x9f b && is_cont c && utf8_ok bs
              else
              match bs with
              | [] => false
              | d :: bs =>
                  if (a =? 0xf0)%Z then in_range 0x90 0xbf b && is_cont c && is_cont d && utf8_ok bs
                  else if in_range 0xf1 0xf3 a then is_cont b && is_cont c && is_cont d && utf8_ok bs
                  else if (a =? 0xf4)%Z then in_range 0x80 0x8f b && is_cont c && is_cont d && utf8_ok bs
                  else false
              end
          end
      end
  end.

Lemma to_ascii_lowercase_idem b : lowercase (to_ascii_lowercase b).
Proof.
  unfold lowercase, to_ascii_lowercase.
  destruct ((65 <=? b) && (b <=? 90))%Z eqn:E; [|by rewrite E].
  reflect. destruct (_ && _) eqn:E'; [|done]. reflect. lia.
Qed.

Lemma to_ascii_lowercase_byte b : byte_ok b -> byte_ok (to_ascii_lowercase b).
Proof. unfold uint_ok, to_ascii_lowercase. destruct (_ && _) eqn:E; reflect; lia. Qed.

(** ** Lemmas on slices *)

Lemma length_splice {A} at_ (xs l : list A) :
  at_ + length xs <= length l -> length (splice at_ xs l) = length l.
Proof. intros. unfold splice. rewrite !length_app, length_take, length_drop. lia. Qed.

Lemma splice_ok at_ xs l : bytes_ok xs -> bytes_ok l -> bytes_ok (splice at_ xs l).
Proof.
  intros. unfold splice. rewrite !Forall_app.
  split_and!; auto using Forall_take, Forall_drop.
Qed.

Lemma lookup_splice {A} at_ (xs l : list A) i :
  at_ + length xs <= length l ->
  splice at_ xs l !! i
  = if decide (at_ <= i < at_ + length xs) then xs !! (i - at_) else l !! i.
Proof.
  intros Hb. unfold splice. case_decide as Hin.
  - rewrite lookup_app_r; rewrite length_take; [|lia].
    rewrite Nat.min_l by lia. apply lookup_app_l. lia.
  - destruct (decide (i < at_)).
    + rewrite lookup_app_l by (rewrite length_take; lia). apply lookup_take_lt. lia.
    + rewrite lookup_app_r; rewrite length_take; [|lia].
      rewrite lookup_app_r by lia. rewrite lookup_drop. f_equal. lia.
Qed.

Lemma put_Some {A} at_ (xs l l' : list A) :
  put at_ xs l = Some l' <-> at_ + length xs <= length l /\ l' = splice at_ xs l.
Proof.
  unfold put. destruct (at_ + length xs <=? length l) eqn:E; reflect.
  - split; [intros [= <-]; auto|intros [_ ->]; auto].
  - split; [done|lia].
Qed.

Lemma put_in_bounds {A} at_ (xs l : list A) :
  at_ + length xs <= length l -> put at_ xs l = Some (splice at_ xs l).
Proof. intros. apply put_Some. auto. Qed.

Lemma get_range_Some {A} (l : list A) a b s :
  get_range l a b = Some s <-> a <= b <= length l /\ s = take (b - a) (drop a l).
Proof.
  unfold get_range. destruct ((a <=? b) && (b <=? length l)) eqn:E.
  - reflect. split; [intros [= <-]; auto|intros [_ ->]; auto].
  - apply andb_false_iff in E as [E|E]; reflect; split; try done; lia.
Qed.

Lemma length_get_range {A} (l : list A) a b s :
  get_range l a b = Some s -> length s = b - a.
Proof.
  intros [Hb ->]%get_range_Some. rewrite length_take, length_drop. lia.
Qed.

Lemma lookup_get_range {A} (l : list A) a b s i :
  get_range l a b = Some s -> i < b - a -> s !! i = l !! (a + i).
Proof.
  intros [Hb ->]%get_range_Some Hi. rewrite lookup_take_lt by lia. apply lookup_drop.
Qed.

Lemma Forall_get_range {A} (P : A -> Prop) (l : list A) a b s :
  get_range l a b = Some s -> Forall P l -> Forall P s.
Proof. intros [_ ->]%get_range_Some ?. now apply Forall_take, Forall_drop. Qed.

Lemma take_drop_split3 {A} (l : list A) a b :
  a <= b -> l = take a l ++ take (b - a) (drop a l) ++ drop b l.
Proof.
  intros. rewrite <- (take_drop a l) at 1. f_equal.
  rewrite <- (take_drop (b - a) (drop a l)) at 1. f_equal.
  rewrite drop_drop. f_equal. lia.
Qed.

(** [l[a..b]] for bounds that hold. *)
Definition slice {A} (a b : nat) (l : list A) : list A := take (b - a) (drop a l).

Lemma get_range_slice {A} (l : list A) a b :
  a <= b <= length l -> get_range l a b = Some (slice a b l).
Proof. intros. by apply get_range_Some. Qed.

Lemma length_slice {A} (l : list A) a b : b <= length l -> length (slice a b l) = b - a.
Proof. intros. unfold slice. rewrite length_take, length_drop. lia. Qed.

Lemma lookup_slice {A} (l : list A) a b i : i < b - a -> slice a b l !! i = l !! (a + i).
Proof. intros. unfold slice. rewrite lookup_take_lt by lia. apply lookup_drop. Qed.

Lemma slice_ok a b l : bytes_ok l -> bytes_ok (slice a b l).
Proof. intros. unfold slice. by apply Forall_take, Forall_drop. Qed.

(** A write outside a slice leaves it; one inside replaces its middle. *)
Lemma slice_splice_disjoint {A} a b at_ (xs l : list A) :
  at_ + length xs <= length l -> b <= at_ \/ at_ + length xs <= a ->
  slice a b (splice at_ xs l) = slice a b l.
Proof.
  intros Hl Hd. apply list_eq. intros i. destruct (decide (i < b - a)).
  - rewrite !lookup_slice, lookup_splice by lia. rewrite decide_False by lia. done.
  - rewrite !lookup_ge_None_2; [done|unfold slice; rewrite length_take; lia..].
Qed.

Lemma slice_splice_inside {A} a b at_ (xs l : list A) :
  a <= at_ -> at_ + length xs <= b -> b <= length l ->
  slice a b (splice at_ xs l) = slice a at_ l ++ xs ++ slice (at_ + length xs) b l.
Proof.
  intros Ha Hb Hl. apply list_eq. intros i. destruct (decide (i < b - a)).
  - rewrite lookup_slice, lookup_splice by lia. case_decide.
    + rewrite lookup_app_r; rewrite length_slice by lia; [|lia].
      rewrite lookup_app_l by lia. f_equal. lia.
    + destruct (decide (i < at_ - a)).
      * rewrite lookup_app_l by (rewrite length_slice; lia). by rewrite lookup_slice by lia.
      * rewrite lookup_app_r; rewrite length_slice by lia; [|lia].
        rewrite lookup_app_r by lia. rewrite lookup_slice by lia. f_equal. lia.
  - rewrite !lookup_ge_None_2; [done| |]; rewrite ?length_app, !length_slice; rewrite ?length_splice; lia.
Qed.

(** A write over the middle of a concatenation. *)
Lemma splice_app_mid {A} (pre old new post : list A) :
  length old = length new -> splice (length pre) new (pre ++ old ++ post) = pre ++ new ++ post.
Proof.
  intros Hl. unfold splice. rewrite take_app_length. f_equal. f_equal.
  rewrite <- Hl, drop_app_ge by lia.
  replace (length pre + length old - length pre)%nat with (length old) by lia.
  apply drop_app_length.
Qed.

Lemma put_mid {A} (pre old new post : list A) at_ :
  at_ = length pre -> length old = length new ->
  put at_ new (pre ++ old ++ post) = Some (pre ++ new ++ post).
Proof.
  intros -> Hl. rewrite put_in_bounds; [by rewrite splice_app_mid|].
  rewrite !length_app. lia.
Qed.
