(* ===== verification/Wire.v ===== *)
(** The byte alphabet of [src/wire.rs]: the bounds-checked [Reader], the
    append-only [Writer], the fixed-capacity [Bounded] cursor and the RFC 1071
    Internet checksum, with the arithmetic of ones'-complement sums that the
    packet writers rely on. *)

From S2P Require Import Prelude.
Open Scope Z_scope.

(** ** Reader

    A cursor [r_at] over [r_bytes].  A failed read returns [None]; no parser of
    the crate reads again from a cursor a read has failed on, so the position
    after a failure is not part of the model. *)

Record Reader := mkReader { r_bytes : bytes; r_at : nat }.

Definition Reader_new (bs : bytes) : Reader := mkReader bs 0.

Definition Reader_at (bs : bytes) (at_ : nat) : option Reader :=
  if (at_ <=? length bs)%nat then Some (mkReader bs at_) else None.

Definition Reader_position (r : Reader) : nat := r_at r.

Definition Reader_rest (r : Reader) : bytes := drop (r_at r) (r_bytes r).

Definition Reader_remaining (r : Reader) : nat := (length (r_bytes r) - r_at r)%nat.

Definition Reader_is_empty (r : Reader) : bool := (Reader_remaining r =? 0)%nat.

Definition Reader_take (r : Reader) (len : nat) : option (bytes * Reader) :=
  taken ← get_to (Reader_rest r) len;
  Some (taken, mkReader (r_bytes r) (r_at r + len)).

(** [first_chunk::<N>] of the rest: the same bounds test as [take]. *)
Definition Reader_array (n : nat) (r : Reader) : option (bytes * Reader) :=
  taken ← get_to (Reader_rest r) n;
  Some (taken, mkReader (r_bytes r) (r_at r + n)).

Definition Reader_skip (r : Reader) (len : nat) : option Reader :=
  snd <$> Reader_take r len.

Definition Reader_uint (n : nat) (r : Reader) : option (Z * Reader) :=
  '(bs, r) ← Reader_array n r; Some (be_value bs, r).

Definition Reader_u8 (r : Reader) : option (Z * Reader) := Reader_uint 1 r.
Definition Reader_u16 (r : Reader) : option (Z * Reader) := Reader_uint 2 r.
Definition Reader_u24 (r : Reader) : option (Z * Reader) := Reader_uint 3 r.
Definition Reader_u32 (r : Reader) : option (Z * Reader) := Reader_uint 4 r.
Definition Reader_u64 (r : Reader) : option (Z * Reader) := Reader_uint 8 r.

Definition Reader_vector_u8 (r : Reader) : option (bytes * Reader) :=
  '(len, r) ← Reader_u8 r; Reader_take r (Z.to_nat len).

Definition Reader_vector_u16 (r : Reader) : option (bytes * Reader) :=
  '(len, r) ← Reader_u16 r; Reader_take r (Z.to_nat len).

(** [Ipv4Addr] and [Ipv6Addr] are their octets. *)
Definition Reader_ipv4 (r : Reader) : option (bytes * Reader) := Reader_array 4 r.
Definition Reader_ipv6 (r : Reader) : option (bytes * Reader) := Reader_array 16 r.

(** ** Writer

    A writer method maps the growing buffer to the buffer with its bytes
    appended.  The length prefixes are the [as] casts of the source: they keep
    the low bits, which is the whole length exactly when it fits. *)

Definition Writer_bytes (value : bytes) (out : bytes) : bytes := out ++ value.
Definition Writer_u8 (value : Z) (out : bytes) : bytes := out ++ [value].
Definition Writer_u16 (value : Z) (out : bytes) : bytes := Writer_bytes (be_bytes 2 value) out.
Definition Writer_u32 (value : Z) (out : bytes) : bytes := Writer_bytes (be_bytes 4 value) out.
Definition Writer_u64 (value : Z) (out : bytes) : bytes := Writer_bytes (be_bytes 8 value) out.

Definition Writer_vector_u8 (value : bytes) (out : bytes) : bytes :=
  Writer_bytes value (Writer_u8 (wrap 8 (Z.of_nat (length value))) out).
Definition Writer_vector_u16 (value : bytes) (out : bytes) : bytes :=
  Writer_bytes value (Writer_u16 (wrap 16 (Z.of_nat (length value))) out).
Definition Writer_vector_u32 (value : bytes) (out : bytes) : bytes :=
  Writer_bytes value (Writer_u32 (wrap 32 (Z.of_nat (length value))) out).

(** ** Bounded: a cursor over a buffer of fixed size with a sticky overflow. *)

Record Bounded := mkBounded { b_out : bytes; b_at : nat; b_overflowed : bool }.

Definition Bounded_at (out : bytes) (at_ : nat) : option Bounded :=
  if (at_ <=? length out)%nat then Some (mkBounded out at_ false) else None.

(** The written buffer and the next position, [None] after any overflow. *)
Definition Bounded_finish (b : Bounded) : option (bytes * nat) :=
  if b_overflowed b then None else Some (b_out b, b_at b).

Definition Bounded_bytes (value : bytes) (b : Bounded) : Bounded :=
  match put (b_at b) value (b_out b) with
  | Some out =>
      if negb (b_overflowed b)
      then mkBounded out (b_at b + length value) false
      else mkBounded (b_out b) (b_at b) true
  | None => mkBounded (b_out b) (b_at b) true
  end.

Definition Bounded_u8 (value : Z) (b : Bounded) : Bounded := Bounded_bytes [value] b.
Definition Bounded_u16 (value : Z) (b : Bounded) : Bounded := Bounded_bytes (be_bytes 2 value) b.
Definition Bounded_u32 (value : Z) (b : Bounded) : Bounded := Bounded_bytes (be_bytes 4 value) b.

Definition Bounded_zeros (count : nat) (b : Bounded) : Bounded :=
  match put (b_at b) (replicate count 0) (b_out b) with
  | Some out =>
      if negb (b_overflowed b)
      then mkBounded out (b_at b + count) false
      else mkBounded (b_out b) (b_at b) true
  | None => mkBounded (b_out b) (b_at b) true
  end.

Definition Bounded_vector_u8 (value : bytes) (b : Bounded) : Bounded :=
  Bounded_bytes value (Bounded_u8 (wrap 8 (Z.of_nat (length value))) b).

(** ** Checksum *)

(** The accumulation loop, at the width of its [u32] accumulator. *)
Fixpoint checksum_words (sum : Z) (bs : bytes) : Z :=
  match bs with
  | [] => sum
  | [high] => wrap 32 (sum + be_value [high; 0])
  | high :: low :: rest => checksum_words (wrap 32 (sum + be_value [high; low])) rest
  end.

(** [while sum >> 16 != 0 { sum = (sum & 0xffff) + (sum >> 16) }]; [fuel] bounds
    the iterations, and [fold_carries_fuel] shows three are enough for a [u32]. *)
Fixpoint fold_carries (fuel : nat) (sum : Z) : Z :=
  match fuel with
  | O => sum
  | S fuel =>
      if Z.shiftr sum 16 =? 0 then sum
      else fold_carries fuel (Z.land sum 65535 + Z.shiftr sum 16)
  end.

Definition checksum (parts : list bytes) : Z :=
  let sum := checksum_words 0 (concat parts) in
  let sum := fold_carries 3 sum in
  Z.lxor (wrap 16 sum) 65535.

(** * Readers and writers *)

Lemma get_to_Some {A} (l s : list A) n :
  get_to l n = Some s <-> (n <= length l)%nat /\ s = take n l.
Proof.
  unfold get_to. destruct (n <=? length l)%nat eqn:E; reflect.
  - split; [intros [= <-]; auto|intros [_ ->]; auto].
  - split; [done|lia].
Qed.

Lemma Reader_take_Some r n bs r' :
  Reader_take r n = Some (bs, r') <->
  (r_at r + n <= length (r_bytes r) \/ n = 0)%nat /\
  bs = take n (drop (r_at r) (r_bytes r)) /\ r' = mkReader (r_bytes r) (r_at r + n).
Proof.
  unfold Reader_take, Reader_rest. split.
  - intros (s & [H ->]%get_to_Some & [= <- <-])%bind_Some.
    rewrite length_drop in H. split_and!; auto. lia.
  - intros (H & -> & ->). apply bind_Some. eexists. split; [|done].
    apply get_to_Some. split; [|done]. rewrite length_drop. lia.
Qed.

(** Reading exactly what lies at the cursor of a message [pre ++ xs ++ post]. *)
Lemma Reader_take_app pre xs post :
  Reader_take (mkReader (pre ++ xs ++ post) (length pre)) (length xs)
  = Some (xs, mkReader (pre ++ xs ++ post) (length pre + length xs)).
Proof.
  apply Reader_take_Some. cbn. split_and!.
  - left. rewrite !length_app. lia.
  - by rewrite drop_app_length, take_app_length.
  - done.
Qed.

Lemma Reader_uint_app n pre v post :
  0 <= v < 2 ^ (8 * Z.of_nat n) ->
  Reader_uint n (mkReader (pre ++ be_bytes n v ++ post) (length pre))
  = Some (v, mkReader (pre ++ be_bytes n v ++ post) (length pre + n)).
Proof.
  intros Hv. unfold Reader_uint.
  change (Reader_array n) with (fun r => Reader_take r n). cbn beta.
  pose proof (Reader_take_app pre (be_bytes n v) post) as H.
  rewrite length_be_bytes in H. rewrite H. cbn.
  by rewrite be_value_be_bytes_small.
Qed.

Lemma Reader_uint_Some n r v r' :
  Reader_uint n r = Some (v, r') ->
  (r_at r + n <= length (r_bytes r) \/ n = 0)%nat /\
  v = be_value (take n (drop (r_at r) (r_bytes r))) /\
  r' = mkReader (r_bytes r) (r_at r + n).
Proof.
  unfold Reader_uint. change (Reader_array n) with (fun r => Reader_take r n). cbn beta.
  intros ([bs r''] & (H & -> & ->)%Reader_take_Some & [= <- <-])%bind_Some. auto.
Qed.

(** A value read from valid bytes fits its width. *)
Lemma Reader_uint_range n r v r' :
  bytes_ok (r_bytes r) -> Reader_uint n r = Some (v, r') ->
  0 <= v < 2 ^ (8 * Z.of_nat n).
Proof.
  intros Hok (Hb & -> & _)%Reader_uint_Some.
  pose proof (be_value_bound (take n (drop (r_at r) (r_bytes r)))) as H.
  rewrite length_take, length_drop in H.
  replace (n `min` (length (r_bytes r) - r_at r))%nat with n in H by lia.
  apply H. by apply Forall_take, Forall_drop.
Qed.

(** ** More bytes behind a cursor *)

Definition Reader_extend (r : Reader) (more : bytes) : Reader := mkReader (r_bytes r ++ more) (r_at r).

Lemma Reader_take_extend r n bs r' more :
  Reader_take r n = Some (bs, r') -> Reader_take (Reader_extend r more) n = Some (bs, Reader_extend r' more).
Proof.
  intros ([Hle| ->] & -> & ->)%Reader_take_Some; apply Reader_take_Some; cbn; rewrite ?length_app.
  - split_and!; [left; lia| |done]. rewrite drop_app_le, take_app_le; [done|rewrite length_drop; lia|lia].
  - by split_and!; [right|..].
Qed.

Lemma Reader_uint_extend n r v r' more :
  Reader_uint n r = Some (v, r') -> Reader_uint n (Reader_extend r more) = Some (v, Reader_extend r' more).
Proof.
  unfold Reader_uint. change (Reader_array n) with (fun r => Reader_take r n). cbn beta.
  intros ([bs r''] & Ht & [= <- <-])%bind_Some. by rewrite (Reader_take_extend _ _ _ _ more Ht).
Qed.

Lemma Reader_vector_u8_extend r bs r' more :
  Reader_vector_u8 r = Some (bs, r') -> Reader_vector_u8 (Reader_extend r more) = Some (bs, Reader_extend r' more).
Proof.
  unfold Reader_vector_u8. intros ([len r''] & Hu & Ht)%bind_Some. unfold Reader_u8 in *.
  rewrite (Reader_uint_extend _ _ _ _ more Hu). cbn. by apply Reader_take_extend.
Qed.

Lemma Reader_vector_u16_extend r bs r' more :
  Reader_vector_u16 r = Some (bs, r') -> Reader_vector_u16 (Reader_extend r more) = Some (bs, Reader_extend r' more).
Proof.
  unfold Reader_vector_u16. intros ([len r''] & Hu & Ht)%bind_Some. unfold Reader_u16 in *.
  rewrite (Reader_uint_extend _ _ _ _ more Hu). cbn. by apply Reader_take_extend.
Qed.

(** A cursor stays inside its bytes, and a read that fails has too few of them. *)
Definition reader_ok (r : Reader) : Prop := (r_at r <= length (r_bytes r))%nat.

Lemma Reader_take_ok r n bs r' :
  reader_ok r -> Reader_take r n = Some (bs, r') ->
  reader_ok r' /\ r_at r' = (r_at r + n)%nat /\ r_bytes r' = r_bytes r /\ length bs = n.
Proof.
  unfold reader_ok. intros Hr (Hle & -> & ->)%Reader_take_Some. cbn. rewrite length_take, length_drop.
  split_and!; (done || lia).
Qed.

Lemma Reader_take_None r n : reader_ok r -> Reader_take r n = None -> (length (r_bytes r) < r_at r + n)%nat.
Proof.
  unfold reader_ok, Reader_take, Reader_rest, get_to. rewrite length_drop. intros Hr.
  destruct (_ <=? _)%nat eqn:E; [done|]. reflect. lia.
Qed.

Lemma Reader_uint_ok n r v r' :
  reader_ok r -> Reader_uint n r = Some (v, r') ->
  reader_ok r' /\ r_at r' = (r_at r + n)%nat /\ r_bytes r' = r_bytes r.
Proof. unfold reader_ok. intros Hr (Hle & _ & ->)%Reader_uint_Some. cbn. split_and!; (done || lia). Qed.

Lemma Reader_uint_None n r : reader_ok r -> Reader_uint n r = None -> (length (r_bytes r) < r_at r + n)%nat.
Proof.
  intros Hr. unfold Reader_uint. change (Reader_array n) with (fun r => Reader_take r n). cbn beta.
  destruct (Reader_take r n) as [[bs r']|] eqn:E; [done|]. intros _. by apply Reader_take_None.
Qed.

(** * Bounded writes *)

Lemma Bounded_bytes_fits value b :
  b_overflowed b = false -> (b_at b + length value <= length (b_out b))%nat ->
  Bounded_bytes value b = mkBounded (splice (b_at b) value (b_out b)) (b_at b + length value) false.
Proof. intros Ho Hb. unfold Bounded_bytes. by rewrite put_in_bounds, Ho. Qed.

Lemma Bounded_bytes_length value b : length (b_out (Bounded_bytes value b)) = length (b_out b).
Proof.
  unfold Bounded_bytes. destruct (put _ _ _) as [out|] eqn:E; [|done].
  apply put_Some in E as [Hb ->].
  destruct (b_overflowed b); cbn; [done|]. by apply length_splice.
Qed.

Lemma Bounded_bytes_overflow value b :
  b_overflowed (Bounded_bytes value b) = false ->
  b_overflowed b = false /\ (b_at b + length value <= length (b_out b))%nat.
Proof.
  unfold Bounded_bytes. destruct (put _ _ _) as [out|] eqn:E; [|done].
  apply put_Some in E as [Hb ->]. destruct (b_overflowed b); done.
Qed.

(** A run of writes: all of them land, in order, exactly when they fit. *)
Definition Bounded_run (chunks : list bytes) (b : Bounded) : Bounded :=
  foldl (fun w chunk => Bounded_bytes chunk w) b chunks.

Lemma splice_splice {A} at_ (xs ys l : list A) :
  (at_ + length xs + length ys <= length l)%nat ->
  splice (at_ + length xs) ys (splice at_ xs l) = splice at_ (xs ++ ys) l.
Proof.
  intros Hl. apply list_eq. intros i.
  rewrite lookup_splice by (rewrite length_splice; lia).
  rewrite lookup_splice by lia. rewrite lookup_splice by (rewrite length_app; lia).
  rewrite length_app. repeat case_decide; try lia; try done.
  - rewrite lookup_app_r by lia. f_equal. lia.
  - rewrite lookup_app_l by lia. done.
Qed.

Lemma splice_nil {A} at_ (l : list A) : (at_ <= length l)%nat -> splice at_ [] l = l.
Proof. intros. unfold splice. cbn. rewrite Nat.add_0_r. apply take_drop. Qed.

Lemma Bounded_run_overflowed chunks out at_ :
  Bounded_finish (Bounded_run chunks (mkBounded out at_ true)) = None.
Proof.
  unfold Bounded_run. revert out at_. induction chunks as [|c chunks IH]; intros; [done|]. cbn [foldl].
  unfold Bounded_bytes at 2. cbn [b_at b_out b_overflowed]. destruct (put _ _ _); apply IH.
Qed.

Lemma Bounded_run_finish chunks out at_ :
  (at_ <= length out)%nat ->
  Bounded_finish (Bounded_run chunks (mkBounded out at_ false))
  = if (at_ + length (concat chunks) <=? length out)%nat
    then Some (splice at_ (concat chunks) out, (at_ + length (concat chunks))%nat) else None.
Proof.
  revert out at_. induction chunks as [|c chunks IH]; intros out at_ Hat.
  { cbn. rewrite Nat.add_0_r, (proj2 (Nat.leb_le _ _)), splice_nil by done. done. }
  unfold Bounded_run. cbn [foldl concat]. fold (Bounded_run chunks).
  unfold Bounded_bytes. cbn [b_at b_out b_overflowed negb]. rewrite length_app.
  destruct (decide (at_ + length c <= length out)%nat) as [Hc|Hc].
  - rewrite put_in_bounds by done. change (foldl _ ?b chunks) with (Bounded_run chunks b).
    rewrite IH by (rewrite length_splice; lia). rewrite length_splice, Nat.add_assoc by done.
    destruct (_ <=? _)%nat eqn:E; reflect; [|done]. by rewrite splice_splice.
  - assert (put at_ c out = None) as ->.
    { destruct (put at_ c out) eqn:E; [|done]. apply put_Some in E. lia. }
    change (foldl _ ?b chunks) with (Bounded_run chunks b). rewrite Bounded_run_overflowed.
    rewrite (proj2 (Nat.leb_gt _ _)) by lia. done.
Qed.

Lemma Bounded_zeros_run count b : Bounded_zeros count b = Bounded_bytes (replicate count 0) b.
Proof. unfold Bounded_zeros, Bounded_bytes. by rewrite length_replicate. Qed.

Lemma Bounded_run_app xs ys b : Bounded_run (xs ++ ys) b = Bounded_run ys (Bounded_run xs b).
Proof. apply foldl_app. Qed.

(** * Ones'-complement arithmetic *)

(** The sum of the 16-bit words of a byte string, the last odd byte padded. *)
Fixpoint word_sum (bs : bytes) : Z :=
  match bs with
  | [] => 0
  | [high] => be_value [high; 0]
  | high :: low :: rest => be_value [high; low] + word_sum rest
  end.

(** The representative RFC 1071 folding ends on: zero only for zero, else the
    residue modulo 65535 in 1..65535. *)
Definition ones_fold (s : Z) : Z := if s =? 0 then 0 else (s - 1) mod 65535 + 1.

Lemma be_value_pair a b : be_value [a; b] = a * 256 + b.
Proof. unfold be_value. cbn. lia. Qed.

(** Induction on a list two elements at a time. *)
Lemma list_pair_ind {A} (P : list A -> Prop) :
  P [] -> (forall x, P [x]) -> (forall x y l, P l -> P (x :: y :: l)) -> forall l, P l.
Proof.
  intros H0 H1 H2. cut (forall l, P l /\ forall x, P (x :: l)); [firstorder|].
  induction l as [|y l [IH1 IH2]]; split; auto.
Qed.

Lemma word_sum_bound bs :
  bytes_ok bs -> 0 <= word_sum bs <= 65535 * ((Z.of_nat (length bs) + 1) / 2).
Proof.
  induction bs as [|x|x y l IH] using list_pair_ind; intros Hok.
  - change ((Z.of_nat (length []) + 1) / 2) with 0. cbn [word_sum]. lia.
  - rewrite Forall_singleton in Hok. unfold uint_ok in Hok. cbn [word_sum length].
    rewrite be_value_pair. change ((Z.of_nat 1 + 1) / 2) with 1. lia.
  - rewrite !Forall_cons in Hok. destruct Hok as (Hx & Hy & Hl). specialize (IH Hl).
    cbn [word_sum length]. rewrite be_value_pair. unfold uint_ok in *.
    replace (Z.of_nat (S (S (length l))) + 1) with ((Z.of_nat (length l) + 1) + 1 * 2) by lia.
    rewrite Z.div_add by lia. lia.
Qed.

Lemma word_sum_app xs ys :
  Nat.Even (length xs) -> word_sum (xs ++ ys) = word_sum xs + word_sum ys.
Proof.
  induction xs as [|x|x y l IH] using list_pair_ind; intros [k Hk]; cbn [length] in Hk.
  - done.
  - lia.
  - cbn [app word_sum]. rewrite IH; [lia|]. exists (k - 1)%nat. lia.
Qed.

Lemma word_sum_pair_pos x y l :
  bytes_ok (x :: y :: l) -> 0 < x -> 0 < word_sum (x :: y :: l).
Proof.
  rewrite !Forall_cons. intros (_ & Hy & Hl) Hx. cbn [word_sum].
  rewrite be_value_pair. pose proof (word_sum_bound l Hl). unfold uint_ok in *. lia.
Qed.

Lemma checksum_words_exact s bs :
  bytes_ok bs -> 0 <= s -> s + word_sum bs < 2 ^ 32 -> checksum_words s bs = s + word_sum bs.
Proof.
  revert s. induction bs as [|x|x y l IH] using list_pair_ind; intros s Hok Hs Hb.
  - cbn. lia.
  - cbn [checksum_words word_sum] in *. rewrite Forall_singleton in Hok.
    unfold wrap. rewrite be_value_pair in *. unfold uint_ok in Hok. apply Z.mod_small. lia.
  - cbn [checksum_words word_sum] in *. rewrite !Forall_cons in Hok.
    destruct Hok as (Hx & Hy & Hl). pose proof (word_sum_bound l Hl).
    rewrite be_value_pair in *. unfold uint_ok in Hx, Hy. unfold wrap.
    rewrite Z.mod_small by lia. rewrite IH by (auto; lia). lia.
Qed.

Lemma fold_step s : Z.land s 65535 + Z.shiftr s 16 = s mod 65536 + s / 65536.
Proof. change 65535 with (Z.ones 16). by rewrite Z.land_ones, Z.shiftr_div_pow2. Qed.

Lemma fold_carries_S fuel s :
  fold_carries (S fuel) s
  = if s / 65536 =? 0 then s else fold_carries fuel (s mod 65536 + s / 65536).
Proof. cbn [fold_carries]. rewrite fold_step. by rewrite Z.shiftr_div_pow2. Qed.

Lemma fold_carries_ones fuel s :
  0 <= s -> fold_carries fuel s <= 65535 -> fold_carries fuel s = ones_fold s.
Proof.
  unfold ones_fold. revert s. induction fuel as [|fuel IH]; intros s Hs.
  - cbn [fold_carries]. intros. destruct (Z.eqb_spec s 0); [done|]. rewrite Z.mod_small; lia.
  - rewrite fold_carries_S. destruct (Z.eqb_spec (s / 65536) 0) as [E|E].
    + intros. destruct (Z.eqb_spec s 0); [done|]. rewrite Z.mod_small; lia.
    + intros Hle. rewrite IH by (zdiv_lia || done).
      destruct (Z.eqb_spec s 0); [zdiv_lia|].
      destruct (Z.eqb_spec (s mod 65536 + s / 65536) 0); [zdiv_lia|].
      f_equal. replace (s - 1) with (s mod 65536 + s / 65536 - 1 + (s / 65536) * 65535) by zdiv_lia.
      by rewrite Z.mod_add by lia.
Qed.

(** Three iterations exhaust the carries of any [u32]: the loop has ended. *)
Lemma fold_carries_fuel s : 0 <= s < 2 ^ 32 -> 0 <= fold_carries 3 s <= 65535.
Proof.
  intros Hs. rewrite !fold_carries_S. cbn [fold_carries].
  repeat (case_goal; reflect; [zdiv_lia|]). zdiv_lia.
Qed.

Lemma lxor_ones16 v : 0 <= v <= 65535 -> Z.lxor v 65535 = 65535 - v.
Proof.
  intros Hv. change 65535 with (Z.ones 16).
  assert (Z.ldiff v (Z.ones 16) = 0) as Hd.
  { destruct (Z.eq_dec v 0) as [->|]; [done|].
    apply Z.ldiff_ones_r_low; [lia|]. apply Z.log2_lt_pow2; lia. }
  rewrite Z.sub_nocarry_ldiff by exact Hd. apply Z.bits_inj'. intros n _.
  apply (f_equal (fun z => Z.testbit z n)) in Hd.
  rewrite Z.ldiff_spec, Z.bits_0 in Hd. rewrite Z.lxor_spec, Z.ldiff_spec.
  by destruct (Z.testbit v n), (Z.testbit (Z.ones 16) n).
Qed.

(** The longest input whose word sum cannot overflow the [u32] accumulator. *)
Definition CHECKSUM_MAX : nat := Z.to_nat 131074.

Lemma ones_fold_range s : 0 <= s -> 0 <= ones_fold s <= 65535.
Proof.
  intros. unfold ones_fold. destruct (s =? 0); [lia|].
  pose proof (Z.mod_pos_bound (s - 1) 65535). lia.
Qed.

(** Folding to all ones is divisibility by 65535 of a nonzero sum. *)
Lemma ones_fold_full s : 0 < s -> ones_fold s = 65535 <-> s mod 65535 = 0.
Proof.
  intros. unfold ones_fold. destruct (Z.eqb_spec s 0); [lia|]. zdiv_lia.
Qed.

Lemma word_sum_no_overflow bs :
  bytes_ok bs -> (length bs <= CHECKSUM_MAX)%nat -> 0 <= word_sum bs < 2 ^ 32.
Proof.
  intros Hok Hlen. pose proof (word_sum_bound bs Hok). unfold CHECKSUM_MAX in Hlen.
  assert ((Z.of_nat (length bs) + 1) / 2 <= 65537) by zdiv_lia. lia.
Qed.

Lemma checksum_eq (parts : list bytes) :
  bytes_ok (concat parts) -> (length (concat parts) <= CHECKSUM_MAX)%nat ->
  checksum parts = 65535 - ones_fold (word_sum (concat parts)).
Proof.
  intros Hok Hlen. pose proof (word_sum_no_overflow _ Hok Hlen).
  unfold checksum. rewrite checksum_words_exact by (auto; lia).
  pose proof (fold_carries_fuel (0 + word_sum (concat parts))).
  rewrite Z.add_0_l in *. unfold wrap. change (2 ^ 16) with 65536.
  rewrite Z.mod_small by lia. rewrite lxor_ones16 by lia.
  by rewrite fold_carries_ones by lia.
Qed.

Lemma checksum_range (parts : list bytes) :
  bytes_ok (concat parts) -> (length (concat parts) <= CHECKSUM_MAX)%nat ->
  0 <= checksum parts <= 65535.
Proof.
  intros Hok Hlen. rewrite checksum_eq by done.
  pose proof (ones_fold_range (word_sum (concat parts))).
  pose proof (word_sum_no_overflow _ Hok Hlen). lia.
Qed.

Lemma word_sum_be16 v : 0 <= v <= 65535 -> word_sum (be_bytes 2 v) = v.
Proof.
  intros. cbn [be_bytes word_sum]. rewrite Z.add_0_r.
  apply (be_value_be_bytes_small 2 v). lia.
Qed.

(** Adding the complement of a folded sum completes it to all ones. *)
Lemma ones_fold_complement s :
  0 <= s -> ones_fold (s + (65535 - ones_fold s)) = 65535.
Proof.
  intros Hs. pose proof (ones_fold_range s Hs). apply ones_fold_full.
  - unfold ones_fold in *. destruct (Z.eqb_spec s 0); lia.
  - unfold ones_fold in *. destruct (Z.eqb_spec s 0); [by subst|]. zdiv_lia.
Qed.

(** RFC 768: a computed zero may be sent as all ones. *)
Lemma ones_fold_escape s : 0 <= s -> ones_fold s = 65535 -> ones_fold (s + 65535) = 65535.
Proof.
  intros Hs Hf. assert (0 < s) by (unfold ones_fold in Hf; destruct (Z.eqb_spec s 0); lia).
  apply ones_fold_full; [lia|]. apply ones_fold_full in Hf; [|lia]. zdiv_lia.
Qed.

(** the Internet checksum of the source, with its 32-bit accumulator and its
    carry-folding loop, is the complement of the ones'-complement sum of the
    16-bit words of the concatenated parts, for every input of up to 131074
    bytes (two more than the largest IP packet needs); within that bound the
    accumulator never overflows. *)
Theorem checksum_correct (parts : list bytes) :
  bytes_ok (concat parts) -> (length (concat parts) <= CHECKSUM_MAX)%nat ->
  checksum parts = 65535 - ones_fold (word_sum (concat parts)).
Proof. apply checksum_eq. Qed.

Lemma checksum_correct_witness :
  checksum [[1; 2; 3]; [4; 5]] = 65535 - ones_fold (word_sum [1; 2; 3; 4; 5]).
Proof.
  apply (checksum_correct [[1; 2; 3]; [4; 5]]).
  - repeat constructor; done.
  - unfold CHECKSUM_MAX. cbn [concat app length]. lia.
Defined.
