(* ===== verification/Net.v ===== *)
(** The vocabulary the layers exchange: addresses, endpoints, flow keys and the
    transport summary of an ingress packet ([src/l3/packet.rs], [src/l3/udp.rs]),
    with decidable equality and countability so that they key finite maps. *)

From S2P Require Import Prelude.
Open Scope Z_scope.

(** [std::net::IpAddr]: the octets of an IPv4 or IPv6 address. *)
Inductive IpAddr :=
| V4 (octets : bytes)
| V6 (octets : bytes).

#[global] Instance IpAddr_eq_dec : EqDecision IpAddr.
Proof. solve_decision. Defined.
#[global] Instance IpAddr_countable : Countable IpAddr.
Proof.
  refine (inj_countable' (fun a => match a with V4 o => inl o | V6 o => inr o end)
            (fun s => match s with inl o => V4 o | inr o => V6 o end) _).
  by intros [].
Defined.

Definition octets (a : IpAddr) : bytes := match a with V4 o | V6 o => o end.

Definition ip_ok (a : IpAddr) : Prop :=
  bytes_ok (octets a) /\ length (octets a) = match a with V4 _ => 4%nat | V6 _ => 16%nat end.

(** [IpAddr::is_unspecified] and [IpAddr::is_loopback]. *)
Definition is_unspecified (a : IpAddr) : bool := forallb (fun b => b =? 0) (octets a).
Definition is_loopback (a : IpAddr) : bool :=
  match a with
  | V4 o => match o with b :: _ => b =? 127 | [] => false end
  | V6 o => bool_decide (o = replicate 15 0 ++ [1])
  end.

(** [InternalEndpoint] and [std::net::SocketAddr]: an address and a port. *)
Record InternalEndpoint := mkEndpoint { address : IpAddr; port : Z }.

#[global] Instance InternalEndpoint_eq_dec : EqDecision InternalEndpoint.
Proof. solve_decision. Defined.
#[global] Instance InternalEndpoint_countable : Countable InternalEndpoint.
Proof.
  refine (inj_countable' (fun e => (address e, port e))
            (fun p => mkEndpoint (fst p) (snd p)) _).
  by intros [].
Defined.

(** What a flow is keyed by: a connection by its four-tuple, a UDP mapping by its
    client endpoint. *)
Inductive FlowKey :=
| Connection (client server : InternalEndpoint)
| Mapping (client : InternalEndpoint).

#[global] Instance FlowKey_eq_dec : EqDecision FlowKey.
Proof. solve_decision. Defined.
#[global] Instance FlowKey_countable : Countable FlowKey.
Proof.
  refine (inj_countable'
            (fun k => match k with Connection c s => inl (c, s) | Mapping c => inr c end)
            (fun s => match s with inl (c, s) => Connection c s | inr c => Mapping c end) _).
  by intros [].
Defined.

Definition FlowKey_client (k : FlowKey) : InternalEndpoint :=
  match k with
  | Connection client _ => client
  | Mapping client => client
  end.

(** ICMP messages by whether an error may answer them. *)
Inductive IcmpClass := IcmpClass_Error | IcmpClass_Informational.

#[global] Instance IcmpClass_eq_dec : EqDecision IcmpClass.
Proof. solve_decision. Defined.

Inductive Transport :=
| Tcp (source_port destination_port : Z)
| Udp (source_port destination_port : Z)
| Icmp (class : IcmpClass)
| Other
| Fragmented.

#[global] Instance Transport_eq_dec : EqDecision Transport.
Proof. solve_decision. Defined.

(** The four values of the two-bit ECN field. *)
Inductive IpEcn := NotEct | Ect1 | Ect0 | CongestionExperienced.

#[global] Instance IpEcn_eq_dec : EqDecision IpEcn.
Proof. solve_decision. Defined.

(** The copyable summary of a parsed packet. *)
Record IngressPacket := mkIngress {
  source : IpAddr;
  destination : IpAddr;
  ecn : IpEcn;
  transport : Transport;
  payload_at : Z;
  payload_len : Z;
}.
