(* ===== verification/Plan.v ===== *)
(** Path composition, flow planning and ingress routing: the pure decisions of
    [src/lib.rs].  An egress reports [PathProperties]; [plan_flow] chooses a
    transport path and a QUIC policy from them, [replan] revises a live flow, and
    [admit]/[route_planned] turn a packet summary into one closed action. *)

From S2P Require Import Prelude Net.
Open Scope Z_scope.

(** ** Sizes *)

Definition MIN_QUIC_MTU : Z := 1200.
Definition HTTPS_PORT : Z := 443.
Definition DNS_PORT : Z := 53.
Definition MIN_IPV6_MTU : Z := 1280.

(** [Mtu] values exist only through [Mtu_new]. *)
Record Mtu := mkMtu { Mtu_get : Z }.

#[global] Instance Mtu_eq_dec : EqDecision Mtu.
Proof. solve_decision. Defined.

Inductive MtuError := BelowMinimum (bytes : Z).

Definition Mtu_new (b : Z) : Res MtuError Mtu :=
  if MIN_IPV6_MTU <=? b then Ok (mkMtu b) else Err (BelowMinimum b).

Record QuicBudget := mkQuicBudget { QuicBudget_get : Z }.

Definition QuicBudget_new (b : Z) : option QuicBudget :=
  if MIN_QUIC_MTU <=? b then Some (mkQuicBudget b) else None.

Definition quic_budget (m : Mtu) : option QuicBudget := QuicBudget_new (Mtu_get m).

Definition admits_quic (m : Mtu) : bool := bool_decide (is_Some (quic_budget m)).

(** ** Egress properties *)

Inductive Accepts := IpPackets | Flows.
Inductive DatagramFidelity := Fidelity_None | Emulated | Native.
Inductive NatBehavior := AddressAndPortDependent | AddressDependent | EndpointIndependent.

#[global] Instance Accepts_eq_dec : EqDecision Accepts.
Proof. solve_decision. Defined.
#[global] Instance DatagramFidelity_eq_dec : EqDecision DatagramFidelity.
Proof. solve_decision. Defined.
#[global] Instance NatBehavior_eq_dec : EqDecision NatBehavior.
Proof. solve_decision. Defined.

(** The derived [Ord] of the two enumerations: declaration order. *)
Definition fidelity_rank (f : DatagramFidelity) : Z :=
  match f with Fidelity_None => 0 | Emulated => 1 | Native => 2 end.
Definition nat_rank (n : NatBehavior) : Z :=
  match n with AddressAndPortDependent => 0 | AddressDependent => 1 | EndpointIndependent => 2 end.
Definition fidelity_min (a b : DatagramFidelity) : DatagramFidelity :=
  if fidelity_rank a <=? fidelity_rank b then a else b.
Definition nat_min (a b : NatBehavior) : NatBehavior :=
  if nat_rank a <=? nat_rank b then a else b.

Record PathProperties := mkPath {
  datagram_fidelity : DatagramFidelity;
  overhead_bytes : Z;
  max_datagram_size : option Z;
  preserves_ecn : bool;
  nat_behavior : NatBehavior;
}.

Inductive ChainError := MixedLayers | OverheadOverflow.

Definition chain (self next : PathProperties) : Res ChainError PathProperties :=
  overhead ← ok_or OverheadOverflow
    (checked_add U16_MAX (overhead_bytes self) (overhead_bytes next));
  Ok {| datagram_fidelity := fidelity_min (datagram_fidelity self) (datagram_fidelity next);
        overhead_bytes := overhead;
        max_datagram_size :=
          match max_datagram_size self, max_datagram_size next with
          | Some l, Some r => Some (Z.min l r)
          | size, None => size
          | None, size => size
          end;
        preserves_ecn := preserves_ecn self && preserves_ecn next;
        nat_behavior := nat_min (nat_behavior self) (nat_behavior next) |}.

(** ** Policies and plans *)

Inductive FilterPolicy := Filter_PassThrough | InspectHttp.
Inductive Inspection := Candidate | Excluded.
Inductive DnsPolicy := Dns_Intercept | Dns_Forward.
Inductive Backstop := Lapsed | Active.

#[global] Instance FilterPolicy_eq_dec : EqDecision FilterPolicy.
Proof. solve_decision. Defined.
#[global] Instance Inspection_eq_dec : EqDecision Inspection.
Proof. solve_decision. Defined.
#[global] Instance DnsPolicy_eq_dec : EqDecision DnsPolicy.
Proof. solve_decision. Defined.
#[global] Instance Backstop_eq_dec : EqDecision Backstop.
Proof. solve_decision. Defined.

Definition Inspection_ALL : list Inspection := [Candidate; Excluded].
Definition Inspection_index (i : Inspection) : nat :=
  match i with Candidate => 0%nat | Excluded => 1%nat end.

Inductive TransportPath :=
| PacketFastPath (inner_mtu : Mtu)
| LocalTermination.

Inductive SteeringReason := InspectionRequired | DatagramFidelityReason | MtuBelowMinimum.

Inductive QuicPolicy :=
| Quic_PassThrough
| SteerToHttp2 (reason : SteeringReason).

#[global] Instance TransportPath_eq_dec : EqDecision TransportPath.
Proof. solve_decision. Defined.
#[global] Instance SteeringReason_eq_dec : EqDecision SteeringReason.
Proof. solve_decision. Defined.
#[global] Instance QuicPolicy_eq_dec : EqDecision QuicPolicy.
Proof. solve_decision. Defined.

Record FlowPlan := mkPlan { plan_transport : TransportPath; quic : QuicPolicy }.

#[global] Instance FlowPlan_eq_dec : EqDecision FlowPlan.
Proof. solve_decision. Defined.

Inductive PlanError :=
| OverheadExceedsPathMtu
| InnerMtu (error : MtuError).

Inductive Replan :=
| Unchanged
| Resteer (reason : SteeringReason) (plan : FlowPlan)
| Teardown.

Inductive IngressAction :=
| Reassemble
| ResolveDns
| DropSteered
| ForwardPacket (plan : FlowPlan)
| OpenStream (plan : FlowPlan)
| OpenDatagram (plan : FlowPlan)
| HandleIcmp (plan : FlowPlan)
| DropUnsupported.

Inductive Admission :=
| Settled (action : IngressAction)
| Planned.

(** ** Operations *)

Definition admit_packet (t : Transport) (dns : DnsPolicy) (backstop : Backstop) : Admission :=
  match t with
  | Fragmented => Settled Reassemble
  | Other => Settled DropUnsupported
  | Udp _ destination_port =>
      if (destination_port =? DNS_PORT) && bool_decide (dns = Dns_Intercept)
      then Settled ResolveDns
      else if (destination_port =? HTTPS_PORT) && bool_decide (backstop = Active)
      then Settled DropSteered
      else Planned
  | Tcp _ _ | Icmp _ => Planned
  end.

Definition route_planned (t : Transport) (plan : FlowPlan) : IngressAction :=
  match plan_transport plan with
  | PacketFastPath _ => ForwardPacket plan
  | LocalTermination =>
      match t with
      | Tcp _ _ => OpenStream plan
      | Udp _ _ => OpenDatagram plan
      | Icmp _ => HandleIcmp plan
      | Other | Fragmented => DropUnsupported
      end
  end.

Definition is_inspected (filter : FilterPolicy) (inspection : Inspection) : bool :=
  bool_decide (filter = InspectHttp) && bool_decide (inspection = Candidate).

Definition plan_flow (filter : FilterPolicy) (inspection : Inspection) (accepts : Accepts)
    (egress : PathProperties) (path_mtu : Mtu) : Res PlanError FlowPlan :=
  let inspected := is_inspected filter inspection in
  transport ← match inspected, accepts with
    | false, IpPackets =>
        inner ← ok_or OverheadExceedsPathMtu
          (checked_sub (Mtu_get path_mtu) (overhead_bytes egress));
        match Mtu_new inner with
        | Ok inner_mtu => Ok (PacketFastPath inner_mtu)
        | Err error => Err (InnerMtu error)
        | Panic => Panic
        end
    | _, _ => Ok LocalTermination
    end;
  let datagram_budget :=
    match transport with
    | PacketFastPath inner_mtu => quic_budget inner_mtu
    | LocalTermination => max_datagram_size egress ≫= QuicBudget_new
    end in
  let quic :=
    if inspected then SteerToHttp2 InspectionRequired
    else if negb (bool_decide (datagram_fidelity egress = Native))
    then SteerToHttp2 DatagramFidelityReason
    else match datagram_budget with
         | None => SteerToHttp2 MtuBelowMinimum
         | Some _ => Quic_PassThrough
         end in
  Ok (mkPlan transport quic).

(** [std::mem::discriminant] of a transport path. *)
Definition on_packet_path (t : TransportPath) : bool :=
  match t with PacketFastPath _ => true | LocalTermination => false end.

Definition replan (current : FlowPlan) (filter : FilterPolicy) (inspection : Inspection)
    (accepts : Accepts) (next : PathProperties) (path_mtu : Mtu) : Res PlanError Replan :=
  let inspected := is_inspected filter inspection in
  let flow_layer :=
    match plan_transport current with
    | PacketFastPath _ => IpPackets
    | LocalTermination => if inspected then accepts else Flows
    end in
  if negb (bool_decide (accepts = flow_layer)) then Ok Teardown else
  next_plan ← plan_flow filter inspection accepts next path_mtu;
  if negb (Bool.eqb (on_packet_path (plan_transport next_plan))
                    (on_packet_path (plan_transport current)))
  then Ok Teardown
  else Ok match quic current, quic next_plan with
          | Quic_PassThrough, SteerToHttp2 reason => Resteer reason next_plan
          | _, _ => Unchanged
          end.

Definition route_ingress (t : Transport) (plan : FlowPlan) (dns : DnsPolicy)
    (backstop : Backstop) : IngressAction :=
  match admit_packet t dns backstop with
  | Settled action => action
  | Planned => route_planned t plan
  end.

(** * Chaining *)

Definition path_ok (p : PathProperties) : Prop :=
  u16_ok (overhead_bytes p) /\ (forall size, max_datagram_size p = Some size -> u16_ok size).

(** [a] promises no more than [b] in any dimension. *)
Definition weaker (a b : PathProperties) : Prop :=
  fidelity_rank (datagram_fidelity a) <= fidelity_rank (datagram_fidelity b) /\
  overhead_bytes b <= overhead_bytes a /\
  (forall size, max_datagram_size b = Some size ->
     exists size', max_datagram_size a = Some size' /\ size' <= size) /\
  (preserves_ecn a = true -> preserves_ecn b = true) /\
  nat_rank (nat_behavior a) <= nat_rank (nat_behavior b).

Lemma fidelity_min_assoc a b c :
  fidelity_min a (fidelity_min b c) = fidelity_min (fidelity_min a b) c.
Proof. by destruct a, b, c. Qed.

Lemma nat_min_assoc a b c : nat_min a (nat_min b c) = nat_min (nat_min a b) c.
Proof. by destruct a, b, c. Qed.

Lemma fidelity_min_le a b :
  fidelity_rank (fidelity_min a b) <= fidelity_rank a /\
  fidelity_rank (fidelity_min a b) <= fidelity_rank b.
Proof. by destruct a, b. Qed.

Lemma nat_min_le a b :
  nat_rank (nat_min a b) <= nat_rank a /\ nat_rank (nat_min a b) <= nat_rank b.
Proof. by destruct a, b. Qed.

Lemma chain_Ok a b c :
  chain a b = Ok c ->
  overhead_bytes c = overhead_bytes a + overhead_bytes b /\
  overhead_bytes c <= U16_MAX /\
  datagram_fidelity c = fidelity_min (datagram_fidelity a) (datagram_fidelity b) /\
  max_datagram_size c = match max_datagram_size a, max_datagram_size b with
                        | Some l, Some r => Some (Z.min l r)
                        | size, None => size
                        | None, size => size
                        end /\
  preserves_ecn c = preserves_ecn a && preserves_ecn b /\
  nat_behavior c = nat_min (nat_behavior a) (nat_behavior b).
Proof.
  unfold chain, checked_add. destruct (_ <=? _) eqn:E; [|done]. reflect.
  intros [= <-]. cbn. split_and!; auto.
Qed.

(** chaining is the weakest-link composition: the chain of two egresses is no
    stronger than either member in fidelity, overhead, datagram ceiling, ECN and
    NAT behaviour; it fails only when the overheads overflow sixteen bits; and it
    is associative, so a chain's properties do not depend on how it is grouped. *)
Theorem chain_weakest_link (a b c : PathProperties) :
  path_ok a -> path_ok b -> path_ok c ->
  (forall ab, chain a b = Ok ab -> weaker ab a /\ weaker ab b /\ path_ok ab) /\
  (chain a b = Err OverheadOverflow <-> U16_MAX < overhead_bytes a + overhead_bytes b) /\
  (chain a b ≫= fun ab => chain ab c) = (chain b c ≫= fun bc => chain a bc).
Proof.
  intros [Ha Ha'] [Hb Hb'] [Hc Hc']. unfold uint_ok in *. split_and!.
  - intros ab (Ho & Hle & Hf & Hm & He & Hn)%chain_Ok. unfold weaker, path_ok, uint_ok.
    pose proof (fidelity_min_le (datagram_fidelity a) (datagram_fidelity b)) as [??].
    pose proof (nat_min_le (nat_behavior a) (nat_behavior b)) as [??].
    rewrite Hf, He, Hn, andb_true_iff, Hm. unfold U16_MAX in *.
    split_and!; try lia; try tauto.
    all: intros size; destruct (max_datagram_size a) as [l|], (max_datagram_size b) as [r|];
      intros [= <-]; try specialize (Ha' _ eq_refl); try specialize (Hb' _ eq_refl);
      eauto with lia; lia.
  - unfold chain, checked_add. destruct (_ <=? _) eqn:E; reflect; cbn.
    + split; [done|lia].
    + done.
  - unfold chain, checked_add, U16_MAX. cbn.
    destruct (overhead_bytes a + overhead_bytes b <=? 65535) eqn:E1; reflect; cbn;
      destruct (overhead_bytes b + overhead_bytes c <=? 65535) eqn:E2; reflect; cbn.
    + rewrite fidelity_min_assoc, nat_min_assoc, andb_assoc, Z.add_assoc.
      destruct (_ <=? _); cbn; [|done].
      do 2 f_equal. destruct (max_datagram_size a), (max_datagram_size b), (max_datagram_size c);
        cbn; f_equal; lia.
    + destruct (_ <=? _) eqn:E3; reflect; [lia|done].
    + destruct (_ <=? _) eqn:E3; reflect; [lia|done].
    + done.
Qed.

Definition sample_path : PathProperties := mkPath Native 60 (Some 1400) true EndpointIndependent.

Lemma sample_path_ok : path_ok sample_path.
Proof. split; [by vm_compute|]. intros size [= <-]. by vm_compute. Qed.

Lemma chain_weakest_link_witness :
  (forall ab, chain sample_path sample_path = Ok ab ->
     weaker ab sample_path /\ weaker ab sample_path /\ path_ok ab) /\
  (chain sample_path sample_path = Err OverheadOverflow <-> U16_MAX < 60 + 60) /\
  (chain sample_path sample_path ≫= fun ab => chain ab sample_path)
  = (chain sample_path sample_path ≫= fun bc => chain sample_path bc).
Proof. apply (chain_weakest_link sample_path sample_path sample_path); apply sample_path_ok. Defined.

(** * Planning *)

(** The QUIC datagram budget a plan leaves: the inner MTU of the packet path, or
    the datagram ceiling a terminating egress declares. *)
Definition quic_room (path : TransportPath) (egress : PathProperties) : option Z :=
  match path with
  | PacketFastPath inner_mtu => Some (Mtu_get inner_mtu)
  | LocalTermination => max_datagram_size egress
  end.

Lemma QuicBudget_new_Some b : is_Some (QuicBudget_new b) <-> MIN_QUIC_MTU <= b.
Proof.
  unfold QuicBudget_new. destruct (_ <=? _) eqn:E; reflect.
  - split; eauto.
  - split; [by intros []|lia].
Qed.

(** The datagram budget a planned path offers QUIC. *)
Definition path_budget (path : TransportPath) (egress : PathProperties) : option QuicBudget :=
  match path with
  | PacketFastPath inner_mtu => quic_budget inner_mtu
  | LocalTermination => max_datagram_size egress ≫= QuicBudget_new
  end.

Lemma path_budget_room path egress :
  is_Some (path_budget path egress) <->
  exists room, quic_room path egress = Some room /\ MIN_QUIC_MTU <= room.
Proof.
  unfold path_budget, quic_budget. destruct path as [m|]; cbn.
  - rewrite QuicBudget_new_Some. naive_solver.
  - destruct (max_datagram_size egress) as [z|]; cbn.
    + rewrite QuicBudget_new_Some. naive_solver.
    + split; [by intros []|naive_solver].
Qed.

Lemma steering_passes (inspected : bool) path egress :
  (if inspected then SteerToHttp2 InspectionRequired
   else if negb (bool_decide (datagram_fidelity egress = Native))
   then SteerToHttp2 DatagramFidelityReason
   else match path_budget path egress with
        | None => SteerToHttp2 MtuBelowMinimum
        | Some _ => Quic_PassThrough
        end) = Quic_PassThrough <->
  inspected = false /\ datagram_fidelity egress = Native /\
  exists room, quic_room path egress = Some room /\ MIN_QUIC_MTU <= room.
Proof.
  rewrite <- path_budget_room. destruct inspected; [naive_solver|].
  destruct (decide (datagram_fidelity egress = Native)).
  - rewrite bool_decide_true by done. cbn. unfold is_Some.
    destruct (path_budget path egress); naive_solver.
  - rewrite bool_decide_false by done. naive_solver.
Qed.

(** The transport a planned flow takes. *)
Definition planned_path (filter : FilterPolicy) (inspection : Inspection) (accepts : Accepts)
    (egress : PathProperties) (path_mtu : Mtu) : TransportPath :=
  if negb (is_inspected filter inspection) && bool_decide (accepts = IpPackets)
  then PacketFastPath (mkMtu (Mtu_get path_mtu - overhead_bytes egress)) else LocalTermination.

Lemma plan_flow_path filter inspection accepts egress path_mtu plan :
  plan_flow filter inspection accepts egress path_mtu = Ok plan ->
  plan_transport plan = planned_path filter inspection accepts egress path_mtu.
Proof.
  unfold plan_flow, planned_path, Mtu_new, checked_sub.
  destruct (is_inspected filter inspection), accepts; cbn [negb andb];
    rewrite ?bool_decide_false, ?bool_decide_true by done; cbn; try (by intros [= <-]).
  destruct (_ <=? Mtu_get _); cbn; [|done].
  destruct (MIN_IPV6_MTU <=? _); cbn; [|done]. by intros [= <-].
Qed.

Lemma plan_flow_no_panic filter inspection accepts egress path_mtu :
  plan_flow filter inspection accepts egress path_mtu <> Panic.
Proof.
  unfold plan_flow, Mtu_new, checked_sub.
  destruct (is_inspected filter inspection), accepts; cbn; try done.
  destruct (_ <=? Mtu_get _); cbn; [|done]. by destruct (MIN_IPV6_MTU <=? _).
Qed.

(** [plan_flow] is total, and its outcome is fully determined: a flow takes
    the packet fast path exactly when it is not inspected and the egress carries
    packets; that path fails exactly when the MTU left after the overhead is
    negative or below the IPv6 minimum (with the error that says which); and QUIC
    passes exactly when the flow is not inspected, the egress keeps datagrams
    native, and the datagram budget reaches RFC 9000's 1200 bytes. *)
Theorem plan_flow_spec filter inspection accepts egress path_mtu :
  let inspected := is_inspected filter inspection in
  let inner := Mtu_get path_mtu - overhead_bytes egress in
  match plan_flow filter inspection accepts egress path_mtu with
  | Ok plan =>
      plan_transport plan
      = (if negb inspected && bool_decide (accepts = IpPackets)
         then PacketFastPath (mkMtu inner) else LocalTermination) /\
      (on_packet_path (plan_transport plan) = true -> MIN_IPV6_MTU <= inner) /\
      (quic plan = Quic_PassThrough <->
       inspected = false /\ datagram_fidelity egress = Native /\
       exists room, quic_room (plan_transport plan) egress = Some room /\ MIN_QUIC_MTU <= room)
  | Err error =>
      inspected = false /\ accepts = IpPackets /\
      (error = OverheadExceedsPathMtu /\ inner < 0 \/
       error = InnerMtu (BelowMinimum inner) /\ 0 <= inner < MIN_IPV6_MTU)
  | Panic => False
  end.
Proof.
  intros inspected inner. unfold plan_flow. fold inspected inner.
  destruct inspected, accepts; cbn [negb andb]; rewrite ?bool_decide_false, ?bool_decide_true by done;
    cbn; try (split_and!; [done|done|];
              first [exact (steering_passes true LocalTermination egress)
                    |exact (steering_passes false LocalTermination egress)]).
  unfold checked_sub, Mtu_new, MIN_IPV6_MTU in *. fold inner.
  destruct (overhead_bytes egress <=? Mtu_get path_mtu) eqn:E; reflect; cbn.
  2: { split_and!; auto. left. split; [done|]. unfold inner. lia. }
  destruct (1280 <=? inner) eqn:E'; reflect; cbn.
  - split_and!; [done|done|]. exact (steering_passes false (PacketFastPath (mkMtu inner)) egress).
  - split_and!; auto. right. split; [done|]. unfold inner in *. lia.
Qed.

(** [replan] never invents a plan: a re-steer carries exactly the plan
    [plan_flow] now makes, on the same transport path, and only for a flow whose
    QUIC was passing; an unchanged flow is one whose path still plans, on the same
    transport, without a new steer; errors are those of planning. *)
Theorem replan_sound current filter inspection accepts next path_mtu :
  match replan current filter inspection accepts next path_mtu with
  | Ok (Resteer reason plan) =>
      plan_flow filter inspection accepts next path_mtu = Ok plan /\
      on_packet_path (plan_transport plan) = on_packet_path (plan_transport current) /\
      quic current = Quic_PassThrough /\ quic plan = SteerToHttp2 reason
  | Ok Unchanged => exists plan,
      plan_flow filter inspection accepts next path_mtu = Ok plan /\
      on_packet_path (plan_transport plan) = on_packet_path (plan_transport current) /\
      (quic current = Quic_PassThrough -> quic plan = Quic_PassThrough)
  | Ok Teardown =>
      (on_packet_path (plan_transport current) = true /\ accepts = Flows) \/
      (on_packet_path (plan_transport current) = false /\
       is_inspected filter inspection = false /\ accepts = IpPackets) \/
      exists plan, plan_flow filter inspection accepts next path_mtu = Ok plan /\
        on_packet_path (plan_transport plan) <> on_packet_path (plan_transport current)
  | Err error => plan_flow filter inspection accepts next path_mtu = Err error
  | Panic => False
  end.
Proof.
  unfold replan.
  destruct (negb (bool_decide _)) eqn:E; reflect.
  { apply bool_decide_eq_false in E. destruct (plan_transport current); cbn.
    - destruct accepts; [done|auto].
    - destruct (is_inspected filter inspection); [done|].
      destruct accepts; [auto|done]. }
  pose proof (plan_flow_no_panic filter inspection accepts next path_mtu).
  destruct (plan_flow filter inspection accepts next path_mtu) as [plan|e|] eqn:Ep;
    cbn; [|done|done].
  destruct (negb (Bool.eqb _ _)) eqn:E'; reflect; cbn.
  - apply Bool.eqb_false_iff in E'. right. right. by exists plan.
  - apply Bool.eqb_prop in E'.
    destruct (quic current) eqn:Eq, (quic plan) eqn:Eq'; cbn.
    2: by split_and!.
    all: exists plan; split_and!; auto; congruence.
Qed.

(** while the egress keeps accepting the layer a flow was planned on, a change
    of its path properties never tears the flow down: [replan] either keeps it,
    re-steers it, or reports that no packet path can be planned any more. *)
Theorem replan_survives_property_change current filter inspection accepts before next path_mtu :
  plan_flow filter inspection accepts before path_mtu = Ok current ->
  replan current filter inspection accepts next path_mtu <> Ok Teardown.
Proof.
  intros Ht%plan_flow_path. unfold replan. rewrite Ht. unfold planned_path.
  destruct (plan_flow filter inspection accepts next path_mtu) as [plan|e|] eqn:E.
  all: try apply plan_flow_path in E; unfold planned_path in *.
  all: destruct (is_inspected filter inspection), accepts; cbn [negb andb] in *;
    rewrite ?bool_decide_false, ?bool_decide_true in * by done; cbn; try done;
    rewrite E; cbn; by repeat case_match.
Qed.

Definition sample_mtu : Mtu := mkMtu 1500.

Lemma replan_survives_property_change_witness :
  plan_flow InspectHttp Excluded IpPackets sample_path sample_mtu
  = Ok (mkPlan (PacketFastPath (mkMtu 1440)) Quic_PassThrough) /\
  replan (mkPlan (PacketFastPath (mkMtu 1440)) Quic_PassThrough) InspectHttp Excluded IpPackets
    (mkPath Emulated 100 None false AddressDependent) sample_mtu <> Ok Teardown.
Proof.
  split; [by vm_compute|].
  apply (replan_survives_property_change _ InspectHttp Excluded IpPackets sample_path).
  by vm_compute.
Defined.

(** * Routing *)

(** A transport carried past admission: neither a fragment nor unsupported, not a
    query answered locally, not a QUIC attempt under the steering backstop. *)
Definition carried (t : Transport) (dns : DnsPolicy) (backstop : Backstop) : Prop :=
  match t with
  | Tcp _ _ | Icmp _ => True
  | Udp _ dport =>
      (dport = DNS_PORT -> dns = Dns_Forward) /\ (dport = HTTPS_PORT -> backstop = Lapsed)
  | Other | Fragmented => False
  end.

Lemma admit_packet_planned t dns backstop :
  admit_packet t dns backstop = Planned <-> carried t dns backstop.
Proof.
  destruct t as [| sp dp | | |]; cbn; try done.
  unfold DNS_PORT, HTTPS_PORT.
  destruct (Z.eqb_spec dp 53), (Z.eqb_spec dp 443), dns, backstop; cbn; naive_solver lia.
Qed.

(** ingress routing is a closed classification.  A fragment is only ever
    reassembled, on every plan; DNS is answered locally only under interception
    and QUIC dropped only under an active backstop; a packet is forwarded exactly
    when it is carried and its plan is the packet path, and otherwise opens the
    flow its own transport names. *)
Theorem route_ingress_spec t plan dns backstop :
  match route_ingress t plan dns backstop with
  | Reassemble => t = Fragmented
  | ResolveDns => dns = Dns_Intercept /\ exists sport, t = Udp sport DNS_PORT
  | DropSteered => backstop = Active /\ exists sport, t = Udp sport HTTPS_PORT
  | ForwardPacket p =>
      p = plan /\ carried t dns backstop /\ on_packet_path (plan_transport plan) = true
  | OpenStream p => p = plan /\ on_packet_path (plan_transport plan) = false /\
      exists sport dport, t = Tcp sport dport
  | OpenDatagram p => p = plan /\ on_packet_path (plan_transport plan) = false /\
      carried t dns backstop /\ exists sport dport, t = Udp sport dport
  | HandleIcmp p => p = plan /\ on_packet_path (plan_transport plan) = false /\
      exists class, t = Icmp class
  | DropUnsupported => t = Other
  end.
Proof.
  unfold route_ingress. destruct (admit_packet t dns backstop) eqn:E.
  - destruct t as [| sp dp | | |]; cbn in E; try (by simplify_eq).
    destruct (Z.eqb_spec dp DNS_PORT), (Z.eqb_spec dp HTTPS_PORT), dns, backstop;
      cbn in E; repeat case_bool_decide; cbn in E; simplify_eq; eauto.
  - apply admit_packet_planned in E as Hc. unfold route_planned.
    destruct (plan_transport plan) eqn:Et; [done|].
    destruct t; cbn in Hc |- *; rewrite ?Et; naive_solver.
Qed.
