(* ===== verification/Packet.v ===== *)
(** IP packets ([src/l3/packet.rs]): the ingress summary, hop spending with the
    incremental RFC 1624 checksum update, generated ICMP errors, and the UDP
    datagram writer with its RFC 768 checksums.

    Header slicing and ICMP serialisation are done by the third-party crate
    [etherparse]; it appears as the class [Etherparse], and what the code relies
    on as [EtherparseLaws]. *)

From S2P Require Import Prelude Net Wire.
Open Scope Z_scope.

(** ** The parser this module is built on *)

(** A subslice of the parsed packet: its offset in the packet and its length. *)
Record Subslice := mkSub { sub_at : nat; sub_len : nat }.

Definition subslice (s : Subslice) (packet : bytes) : bytes :=
  take (sub_len s) (drop (sub_at s) packet).

(** What [etherparse::NetSlice] exposes to this crate. *)
Record Ipv4Slice := mkIpv4 {
  v4_source_addr : bytes;
  v4_destination_addr : bytes;
  v4_ecn : IpEcn;
  v4_ihl : Z;
  v4_protocol : Z;
  v4_identification : Z;
  v4_fragments_offset : Z;
  v4_more_fragments : bool;
  v4_is_payload_fragmented : bool;
  v4_payload : Subslice;
}.

Record FragmentHeader := mkFragmentHeader {
  fh_next_header : Z;
  fh_identification : Z;
  fh_fragment_offset : Z;
  fh_more_fragments : bool;
}.

Record Ipv6Slice := mkIpv6 {
  v6_source_addr : bytes;
  v6_destination_addr : bytes;
  v6_ecn : IpEcn;
  v6_is_payload_fragmented : bool;
  (** The first Fragment header among the extensions. *)
  v6_fragment_header : option FragmentHeader;
}.

Inductive NetSlice :=
| NetIpv4 (ipv4 : Ipv4Slice)
| NetIpv6 (ipv6 : Ipv6Slice)
| NetArp.

Inductive TransportSlice :=
| TcpSlice (source_port destination_port : Z) (payload : Subslice)
| UdpSlice (source_port destination_port : Z) (payload : Subslice)
| Icmpv4Slice (type_u8 : Z) (payload : Subslice)
| Icmpv6Slice (type_u8 : Z) (payload : Subslice)
| IgmpSlice.

Record SlicedPacket := mkSliced {
  sliced_net : option NetSlice;
  sliced_transport : option TransportSlice;
}.

Definition transport_payload (t : TransportSlice) : option Subslice :=
  match t with
  | TcpSlice _ _ p | UdpSlice _ _ p | Icmpv4Slice _ p | Icmpv6Slice _ p => Some p
  | IgmpSlice => None
  end.

(** The ICMP messages this hop asks the builder for. *)
Inductive Icmpv4Type := FragmentationNeeded (next_hop_mtu : Z) | TtlExceededInTransit.
Inductive Icmpv6Type := PacketTooBig (mtu : Z) | HopLimitExceeded.

Inductive IcmpBuilder :=
| BuilderV4 (source destination : bytes) (ttl : Z) (kind : Icmpv4Type)
| BuilderV6 (source destination : bytes) (hop_limit : Z) (kind : Icmpv6Type).

Class Etherparse := {
  SliceError : Type;
  from_ip : bytes -> SliceError + SlicedPacket;
  builder_size : IcmpBuilder -> nat -> nat;
  (** The serialised packet around a payload; [None] is a build error. *)
  builder_write : IcmpBuilder -> bytes -> option bytes;
}.

(** Documented behaviour the crate relies on: payloads are subslices of the
    input, addresses have their family's width, and a built ICMP packet is its
    fixed headers followed by the payload. *)
Class EtherparseLaws `{Etherparse} : Prop := {
  payload_within : forall packet sliced t p,
    from_ip packet = inr sliced -> sliced_transport sliced = Some t ->
    transport_payload t = Some p -> (sub_at p + sub_len p <= length packet)%nat;
  v4_payload_within : forall packet sliced ipv4,
    from_ip packet = inr sliced -> sliced_net sliced = Some (NetIpv4 ipv4) ->
    (sub_at (v4_payload ipv4) + sub_len (v4_payload ipv4) <= length packet)%nat;
  builder_size_v4 : forall s d ttl k n, builder_size (BuilderV4 s d ttl k) n = (28 + n)%nat;
  builder_size_v6 : forall s d ttl k n, builder_size (BuilderV6 s d ttl k) n = (48 + n)%nat;
  builder_write_length : forall b q w,
    builder_write b q = Some w -> length w = builder_size b (length q);
}.

(** ** Classification *)

Definition icmpv4_class (type_u8 : Z) : IcmpClass :=
  if existsb (Z.eqb type_u8) [3; 4; 5; 11; 12]
  then IcmpClass_Error else IcmpClass_Informational.

Definition icmpv6_class (type_u8 : Z) : IcmpClass :=
  if type_u8 <? 128 then IcmpClass_Error else IcmpClass_Informational.

Inductive PacketError `{Etherparse} :=
| Malformed (error : SliceError)
| MissingNetworkLayer
| UnsupportedNetworkLayer
| Oversized.

Definition IngressPacket_payload (p : IngressPacket) (packet : bytes) : option bytes :=
  let at_ := Z.to_nat (payload_at p) in
  get_range packet at_ (at_ + Z.to_nat (payload_len p)).

(** [u16::try_from] of a [usize]. *)
Definition u16_try_from (n : nat) : option Z :=
  if Z.of_nat n <=? U16_MAX then Some (Z.of_nat n) else None.

Section Parsing.
Context `{Etherparse}.

Definition net_summary (net : NetSlice) : Res PacketError (IpAddr * IpAddr * IpEcn * bool) :=
  match net with
  | NetIpv4 ipv4 =>
      Ok (V4 (v4_source_addr ipv4), V4 (v4_destination_addr ipv4), v4_ecn ipv4,
          v4_is_payload_fragmented ipv4)
  | NetIpv6 ipv6 =>
      Ok (V6 (v6_source_addr ipv6), V6 (v6_destination_addr ipv6), v6_ecn ipv6,
          v6_is_payload_fragmented ipv6)
  | NetArp => Err UnsupportedNetworkLayer
  end.

Definition transport_summary (fragmented : bool) (t : option TransportSlice)
  : Transport * option Subslice :=
  if fragmented then (Fragmented, None)
  else match t with
       | Some (TcpSlice sp dp payload) => (Tcp sp dp, Some payload)
       | Some (UdpSlice sp dp payload) => (Udp sp dp, Some payload)
       | Some (Icmpv4Slice ty payload) => (Icmp (icmpv4_class ty), Some payload)
       | Some (Icmpv6Slice ty payload) => (Icmp (icmpv6_class ty), Some payload)
       | Some IgmpSlice | None => (Other, None)
       end.

Definition IngressPacket_parse (packet : bytes) : Res PacketError IngressPacket :=
  sliced ← match from_ip packet with inl e => Err (Malformed e) | inr s => Ok s end;
  net ← ok_or MissingNetworkLayer (sliced_net sliced);
  '(src, dst, ecn, fragmented) ← net_summary net;
  let '(transport, payload) := transport_summary fragmented (sliced_transport sliced) in
  '(at_, len) ← match payload with
    | Some payload =>
        at_ ← ok_or Oversized (u16_try_from (sub_at payload));
        len ← ok_or Oversized (u16_try_from (sub_len payload));
        Ok (at_, len)
    | None => Ok (0, 0)
    end;
  Ok (mkIngress src dst ecn transport at_ len).

End Parsing.

Inductive WriteError := MixedFamilies | PayloadTooLarge | OutputTooSmall | Unquotable.

Definition forbids_fragmentation (packet : bytes) : bool :=
  match packet with
  | [] => false
  | version :: _ =>
      if Z.shiftr version 4 =? 4 then
        match packet !! 6%nat with
        | Some flags => negb (Z.land flags 0x40 =? 0)
        | None => false
        end
      else Z.shiftr version 4 =? 6
  end.

(** ** Hop limit *)

Definition byte_at {E} (packet : bytes) (i : nat) : Res E Z := or_panic (packet !! i).

(** The hops left, [None] for bytes that are not an IP packet, with the packet as
    mutated in place. *)
Definition spend_hop {E} (packet : bytes) : Res E (option Z * bytes) :=
  match packet with
  | [] => Ok (None, packet)
  | version :: _ =>
      if (Z.shiftr version 4 =? 4) && (20 <=? length packet)%nat then
        ttl ← byte_at packet 8;
        let left := saturating_sub ttl 1 in
        if left =? 0 then Ok (Some 0, packet) else
        packet ← or_panic (put 8 [left] packet);
        hi ← byte_at packet 10;
        lo ← byte_at packet 11;
        let check := be_value [hi; lo] + 0x0100 in
        let check := Z.land check 0xffff + Z.shiftr check 16 in
        packet ← or_panic (put 10 (be_bytes 2 (wrap 16 check)) packet);
        Ok (Some left, packet)
      else if (Z.shiftr version 4 =? 6) && (40 <=? length packet)%nat then
        hops ← byte_at packet 7;
        let left := saturating_sub hops 1 in
        packet ← (if 0 <? left then or_panic (put 7 [left] packet) else Ok packet);
        Ok (Some left, packet)
      else Ok (None, packet)
  end.

(** ** Generated ICMP errors *)

Definition MAX_ICMPV4_ERROR : nat := 576.
Definition MAX_ICMPV6_ERROR : nat := 1280.
Definition ICMP_TTL : Z := 64.

Inductive IcmpError := TooBig (next_hop_mtu : Z) | TimeExceeded.

(** Restricts a builder to the output prefix it announced; the written length and
    the output buffer. *)
Definition emit (out : bytes) (len : nat) (written : option bytes) : Res WriteError (nat * bytes) :=
  into ← ok_or OutputTooSmall (get_to out len);
  w ← ok_or OutputTooSmall written;
  if (length w <=? length into)%nat then Ok (len, splice 0 w out) else Err OutputTooSmall.

Section IcmpErrors.
Context `{Etherparse}.

Definition icmp_builder (error : IcmpError) (src dst : IpAddr) : option (IcmpBuilder * nat) :=
  match src, dst with
  | V4 s, V4 d =>
      let kind := match error with
                  | TooBig next_hop_mtu => FragmentationNeeded next_hop_mtu
                  | TimeExceeded => TtlExceededInTransit
                  end in
      Some (BuilderV4 s d ICMP_TTL kind, MAX_ICMPV4_ERROR)
  | V6 s, V6 d =>
      let kind := match error with
                  | TooBig next_hop_mtu => PacketTooBig next_hop_mtu
                  | TimeExceeded => HopLimitExceeded
                  end in
      Some (BuilderV6 s d ICMP_TTL kind, MAX_ICMPV6_ERROR)
  | _, _ => None
  end.

Definition write_icmp_error (out quoted : bytes) (error : IcmpError) : Res WriteError (nat * bytes) :=
  match IngressPacket_parse quoted with
  | Ok parsed =>
      match icmp_builder error (destination parsed) (source parsed) with
      | Some (builder, limit) =>
          if (limit <? builder_size builder 0)%nat then Panic else
          let quote := take (length quoted `min` (limit - builder_size builder 0)) quoted in
          emit out (builder_size builder (length quote)) (builder_write builder quote)
      | None => Err MixedFamilies
      end
  | Err _ => Err Unquotable
  | Panic => Panic
  end.

Definition write_too_big (out quoted : bytes) (next_hop_mtu : Z) : Res WriteError (nat * bytes) :=
  write_icmp_error out quoted (TooBig next_hop_mtu).

Definition write_time_exceeded (out quoted : bytes) : Res WriteError (nat * bytes) :=
  write_icmp_error out quoted TimeExceeded.

End IcmpErrors.

(** ** UDP datagrams *)

Definition IPV4_UDP_HEADER : nat := 20 + 8.
Definition IPV6_UDP_HEADER : nat := 40 + 8.
Definition MAX_IPV4_UDP_PAYLOAD : Z := U16_MAX - 28.
Definition MAX_IPV6_UDP_PAYLOAD : Z := U16_MAX - 8.
Definition UDP_PROTOCOL : Z := 17.

Definition udp_datagram_len (family : IpAddr) (payload_len : nat) : nat :=
  match family with
  | V4 _ => IPV4_UDP_HEADER
  | V6 _ => IPV6_UDP_HEADER
  end + payload_len.

(** The UDP length field: the [as u16] cast of eight plus the payload. *)
Definition udp_len_field (payload : bytes) : Z := wrap 16 (8 + Z.of_nat (length payload)).

Definition transmitted_checksum (sum : Z) : bytes :=
  if sum =? 0 then [0xff; 0xff] else be_bytes 2 sum.

(** [write_udp_header(&mut datagram[at..], ..)]: the header and payload at offset
    [at_] of the datagram.  [copy_from_slice(payload)] panics unless the rest of
    the datagram is exactly as long as the payload. *)
Definition write_udp_header {E} (at_ : nat) (source_port destination_port : Z) (payload : bytes)
    (datagram : bytes) : Res E bytes :=
  datagram ← or_panic (put at_ (be_bytes 2 source_port) datagram);
  datagram ← or_panic (put (at_ + 2) (be_bytes 2 destination_port) datagram);
  datagram ← or_panic (put (at_ + 4) (be_bytes 2 (udp_len_field payload)) datagram);
  datagram ← or_panic (put (at_ + 6) [0; 0] datagram);
  if (at_ + 8 + length payload =? length datagram)%nat
  then or_panic (put (at_ + 8) payload datagram) else Panic.

Definition write_udp_v4 (out : bytes) (src dst : bytes * Z) (payload : bytes)
  : Res WriteError (nat * bytes) :=
  if MAX_IPV4_UDP_PAYLOAD <? Z.of_nat (length payload) then Err PayloadTooLarge else
  let total := (IPV4_UDP_HEADER + length payload)%nat in
  _ ← ok_or OutputTooSmall (get_to out total);
  let datagram := replicate total 0 in
  datagram ← or_panic (put 0 [0x45] datagram);
  datagram ← or_panic (put 2 (be_bytes 2 (wrap 16 (Z.of_nat total))) datagram);
  datagram ← or_panic (put 6 (be_bytes 2 0x4000) datagram);
  datagram ← or_panic (put 8 [64] datagram);
  datagram ← or_panic (put 9 [UDP_PROTOCOL] datagram);
  datagram ← or_panic (put 12 (fst src) datagram);
  datagram ← or_panic (put 16 (fst dst) datagram);
  let header_sum := checksum [take 20 datagram] in
  datagram ← or_panic (put 10 (be_bytes 2 header_sum) datagram);
  datagram ← write_udp_header 20 (snd src) (snd dst) payload datagram;
  let udp_len := udp_len_field payload in
  let sum := checksum [fst src; fst dst; [0; UDP_PROTOCOL]; be_bytes 2 udp_len; drop 20 datagram] in
  datagram ← or_panic (put 26 (transmitted_checksum sum) datagram);
  Ok (total, datagram ++ drop total out).

Definition write_udp_v6 (out : bytes) (src dst : bytes * Z) (payload : bytes)
  : Res WriteError (nat * bytes) :=
  if MAX_IPV6_UDP_PAYLOAD <? Z.of_nat (length payload) then Err PayloadTooLarge else
  let total := (IPV6_UDP_HEADER + length payload)%nat in
  _ ← ok_or OutputTooSmall (get_to out total);
  let datagram := replicate total 0 in
  datagram ← or_panic (put 0 [0x60] datagram);
  let udp_len := udp_len_field payload in
  datagram ← or_panic (put 4 (be_bytes 2 udp_len) datagram);
  datagram ← or_panic (put 6 [UDP_PROTOCOL] datagram);
  datagram ← or_panic (put 7 [64] datagram);
  datagram ← or_panic (put 8 (fst src) datagram);
  datagram ← or_panic (put 24 (fst dst) datagram);
  datagram ← write_udp_header 40 (snd src) (snd dst) payload datagram;
  let sum := checksum [fst src; fst dst; be_bytes 4 udp_len; [0; 0; 0; UDP_PROTOCOL];
                       drop 40 datagram] in
  datagram ← or_panic (put 46 (transmitted_checksum sum) datagram);
  Ok (total, datagram ++ drop total out).

Definition write_udp (out : bytes) (src dst : InternalEndpoint) (payload : bytes)
  : Res WriteError (nat * bytes) :=
  match address src, address dst with
  | V4 s, V4 d => write_udp_v4 out (s, port src) (d, port dst) payload
  | V6 s, V6 d => write_udp_v6 out (s, port src) (d, port dst) payload
  | _, _ => Err MixedFamilies
  end.

(** * Hop spending *)

(** A slice of at least [n] bytes starts with [n] bytes. *)
Ltac split_front l n :=
  lazymatch n with
  | O => idtac
  | S ?m => let b := fresh "b" in
            destruct l as [|b l]; [exfalso; cbn in *; lia|]; split_front l m
  end.

Lemma checksum_zero_iff bs :
  bytes_ok bs -> (length bs <= CHECKSUM_MAX)%nat -> 0 < word_sum bs ->
  checksum [bs] = 0 <-> word_sum bs mod 65535 = 0.
Proof.
  intros Hok Hlen Hpos. rewrite checksum_eq by (cbn; rewrite app_nil_r; done).
  cbn. rewrite app_nil_r. rewrite <- ones_fold_full by done. lia.
Qed.

(** The ones'-complement increment of the stored checksum. *)
Lemma checksum_bump c :
  0 <= c <= 65535 ->
  let c' := wrap 16 (Z.land (c + 0x0100) 0xffff + Z.shiftr (c + 0x0100) 16) in
  0 <= c' <= 65535 /\ c' mod 65535 = (c + 256) mod 65535.
Proof.
  intros Hc. rewrite fold_step. unfold wrap. change (2 ^ 16) with 65536.
  change 0x0100 with 256. zdiv_lia.
Qed.

(** spending a hop on an IPv4 packet never panics, changes only the TTL and
    the checksum field, and keeps the header checksum valid: if the header
    (of any even length from 20 bytes up, options included) verified before, it
    verifies after.  A packet on its last hop is reported with zero hops left and
    not modified at all. *)
Theorem spend_hop_ipv4 {E} packet version ttl header_len :
  bytes_ok packet -> packet !! 0%nat = Some version -> Z.shiftr version 4 = 4 ->
  packet !! 8%nat = Some ttl ->
  (20 <= header_len <= length packet)%nat -> (header_len <= 60)%nat -> Nat.Even header_len ->
  exists packet',
    @spend_hop E packet = Ok (Some (saturating_sub ttl 1), packet') /\
    length packet' = length packet /\
    (forall i, i <> 8%nat -> i <> 10%nat -> i <> 11%nat -> packet' !! i = packet !! i) /\
    (ttl <= 1 -> packet' = packet) /\
    (1 < ttl -> packet' !! 8%nat = Some (ttl - 1)) /\
    (checksum [take header_len packet] = 0 -> checksum [take header_len packet'] = 0).
Proof.
  intros Hok H0 Hver H8 Hlen Hmax Heven.
  split_front packet 12%nat. cbn in H0, H8. injection H0 as ->. injection H8 as ->.
  unfold spend_hop. rewrite Hver. cbn [Z.eqb andb Pos.eqb].
  rewrite (proj2 (Nat.leb_le _ _)) by lia. cbn [lookup list_lookup byte_at or_panic mbind Res_bind].
  unfold byte_at. cbn.
  assert (byte_ok ttl) as Httl by (rewrite !Forall_cons in Hok; tauto). unfold uint_ok in Httl.
  unfold saturating_sub at 1. destruct (Z.max 0 (ttl - 1) =? 0) eqn:E0; reflect.
  { eexists. split; [by rewrite <- E0|]. split_and!; auto. lia. }
  assert (saturating_sub ttl 1 = ttl - 1) as -> by (unfold saturating_sub; lia).
  set (c := be_value [b9; b10]).
  set (c' := wrap 16 (Z.land (c + 0x0100) 0xffff + Z.shiftr (c + 0x0100) 16)).
  assert (byte_ok b9 /\ byte_ok b10) as [Hb9 Hb10] by (rewrite !Forall_cons in Hok; tauto).
  assert (0 <= c <= 65535) as Hc by (unfold c; rewrite be_value_pair; unfold uint_ok in *; lia).
  destruct (checksum_bump c Hc) as [Hc' Hmod]. fold c' in Hc', Hmod.
  exists (version :: b0 :: b1 :: b2 :: b3 :: b4 :: b5 :: b6 :: ttl - 1 :: b8 :: be_bytes 2 c' ++ packet).
  split; [reflexivity|]. cbn [length app be_bytes] in *.
  split_and!; [done| |lia|done|].
  { intros i ???. do 12 (destruct i as [|i]; [by cbn|]). done. }
  destruct header_len as [|[|[|[|[|[|[|[|[|[|[|[|k]]]]]]]]]]]]; try lia.
  assert (Nat.Even k) by (destruct Heven as [m Hm]; exists (m - 6)%nat; lia).
  cbn [take]. set (tl := take k packet).
  assert (bytes_ok tl) as Htl by (apply Forall_take; rewrite !Forall_cons in Hok; tauto).
  pose proof (word_sum_bound tl Htl).
  assert (0 < version).
  { assert (byte_ok version) by (rewrite !Forall_cons in Hok; tauto). unfold uint_ok in *.
    rewrite Z.shiftr_div_pow2 in Hver by lia. zdiv_lia. }
  assert (length tl <= 48)%nat by (unfold tl; rewrite length_take; lia).
  rewrite !Forall_cons in Hok. unfold uint_ok in Hok.
  intros Hsum. apply checksum_zero_iff in Hsum.
  2: { rewrite !Forall_cons. unfold uint_ok. tauto. }
  2: { unfold CHECKSUM_MAX. cbn [length]. lia. }
  2: { cbn [word_sum]. rewrite !be_value_pair. lia. }
  apply checksum_zero_iff.
  - rewrite !Forall_cons. split_and!; try apply byte_ok_mod; try done; unfold uint_ok; lia.
  - unfold CHECKSUM_MAX. cbn [length]. lia.
  - cbn [word_sum]. rewrite !be_value_pair. pose proof (byte_ok_mod (c' / 2 ^ (8 * Z.of_nat 1))).
    pose proof (byte_ok_mod (c' / 2 ^ (8 * Z.of_nat 0))). unfold uint_ok in *. lia.
  - cbn [word_sum] in Hsum |- *. fold c in Hsum.
    change [_ mod 256; _ mod 256] with (be_bytes 2 c').
    rewrite be_value_be_bytes_small by lia. rewrite !be_value_pair in *. zdiv_lia.
Qed.

Definition sample_ipv4_header : bytes :=
  [0x45; 0; 0; 20; 0; 0; 0; 0; 64; 17; 0x8e; 0xa2; 192; 0; 2; 1; 198; 51; 100; 2].

Lemma spend_hop_ipv4_witness :
  checksum [take 20 sample_ipv4_header] = 0 /\
  exists packet',
    @spend_hop Empty_set sample_ipv4_header = Ok (Some 63, packet') /\
    checksum [take 20 packet'] = 0.
Proof.
  split; [by vm_compute|].
  destruct (@spend_hop_ipv4 Empty_set sample_ipv4_header 0x45 64 20) as (p & Hp & _ & _ & _ & _ & Hc).
  - repeat constructor; done.
  - done.
  - done.
  - done.
  - cbn. lia.
  - lia.
  - by exists 10%nat.
  - exists p. split; [exact Hp|]. apply Hc. by vm_compute.
Defined.

(** * UDP datagrams *)

(** The pseudo-header RFC 768 and RFC 8200 sum with a UDP datagram. *)
Definition pseudo_header (src dst : IpAddr) (udp_len : Z) : list bytes :=
  match src with
  | V4 _ => [octets src; octets dst; [0; UDP_PROTOCOL]; be_bytes 2 udp_len]
  | V6 _ => [octets src; octets dst; be_bytes 4 udp_len; [0; 0; 0; UDP_PROTOCOL]]
  end.

Definition same_family (a b : IpAddr) : bool :=
  match a, b with V4 _, V4 _ | V6 _, V6 _ => true | _, _ => false end.

Definition ip_header_len (a : IpAddr) : nat := match a with V4 _ => 20 | V6 _ => 40 end.

Definition max_udp_payload (a : IpAddr) : Z :=
  match a with V4 _ => MAX_IPV4_UDP_PAYLOAD | V6 _ => MAX_IPV6_UDP_PAYLOAD end.

Lemma be_bytes_2 v : exists h l, be_bytes 2 v = [h; l] /\ byte_ok h /\ byte_ok l.
Proof. do 2 eexists. split; [reflexivity|]. split; apply byte_ok_mod. Qed.

(** A UDP checksum field, filled after summing it as zero, verifies and is never
    the all-zero "no checksum" value. *)
Lemma transmitted_checksum_verifies before after c :
  Nat.Even (length before) -> bytes_ok before -> bytes_ok after ->
  (length before + 2 + length after <= CHECKSUM_MAX)%nat ->
  c = checksum [before ++ [0; 0] ++ after] ->
  checksum [before ++ transmitted_checksum c ++ after] = 0 /\
  length (transmitted_checksum c) = 2%nat /\ bytes_ok (transmitted_checksum c) /\
  transmitted_checksum c <> [0; 0].
Proof.
  intros Heven Hb Ha Hlen Hc.
  assert (forall m, length m = 2%nat -> bytes_ok m ->
    bytes_ok (before ++ m ++ after) /\ (length (before ++ m ++ after) <= CHECKSUM_MAX)%nat /\
    word_sum (before ++ m ++ after) = word_sum before + word_sum m + word_sum after) as Hm.
  { intros m Hm Hmok. rewrite !Forall_app, !length_app, Hm. split_and!; auto; [lia|].
    rewrite !word_sum_app; [lia| |done]. rewrite Hm. by exists 1%nat. }
  pose proof (word_sum_bound _ Hb). pose proof (word_sum_bound _ Ha).
  destruct (Hm [0; 0]) as (H1 & H2 & H3); [done|repeat constructor; done|].
  rewrite checksum_eq in Hc by (cbn [concat]; rewrite app_nil_r; done).
  cbn [concat] in Hc. rewrite app_nil_r, H3 in Hc. change (word_sum [0; 0]) with 0 in Hc.
  set (s := word_sum before + 0 + word_sum after) in Hc.
  pose proof (ones_fold_range s ltac:(lia)).
  assert (length (transmitted_checksum c) = 2%nat /\ bytes_ok (transmitted_checksum c) /\
          ones_fold (s + word_sum (transmitted_checksum c)) = 65535 /\
          transmitted_checksum c <> [0; 0]) as (L & O & W & N).
  { unfold transmitted_checksum. destruct (Z.eqb_spec c 0) as [->|Hne].
    - split_and!; [done|repeat constructor; done| |done].
      change (word_sum [255; 255]) with 65535. apply ones_fold_escape; lia.
    - split_and!; [done|apply be_bytes_ok| |].
      + rewrite word_sum_be16 by lia. subst c. apply ones_fold_complement. lia.
      + intros E. apply (f_equal be_value) in E. rewrite be_value_be_bytes_small in E by lia.
        cbn in E. lia. }
  split_and!; try done. destruct (Hm _ L O) as (H5 & H6 & H7).
  rewrite checksum_eq by (cbn [concat]; rewrite app_nil_r; done).
  cbn [concat]. rewrite app_nil_r, H7.
  replace (_ + _ + word_sum after) with (s + word_sum (transmitted_checksum c)) by (unfold s; lia).
  lia.
Qed.

(** The wire layout the writers produce, with the two checksum fields open. *)
Definition udp_layout (sport dport : Z) (check payload : bytes) : bytes :=
  be_bytes 2 sport ++ be_bytes 2 dport ++ be_bytes 2 (udp_len_field payload) ++ check ++ payload.

Definition ipv4_layout (total : Z) (check s d : bytes) : bytes :=
  [0x45; 0] ++ be_bytes 2 (wrap 16 total) ++ [0; 0] ++ be_bytes 2 0x4000 ++ [64; UDP_PROTOCOL] ++
  check ++ s ++ d.

Definition ipv6_layout (udp_len : Z) (s d : bytes) : bytes :=
  [0x60; 0; 0; 0] ++ be_bytes 2 udp_len ++ [UDP_PROTOCOL; 64] ++ s ++ d.

Lemma splice_tail {A} (pre old new : list A) :
  length old = length new -> splice (length pre) new (pre ++ old) = pre ++ new.
Proof.
  intros Hl. unfold splice. rewrite take_app_length, drop_ge by (rewrite length_app; lia).
  by rewrite app_nil_r.
Qed.

Lemma write_udp_header_layout {E} pre sport dport payload :
  @write_udp_header E (length pre) sport dport payload
    (pre ++ replicate (8 + length payload) 0)
  = Ok (pre ++ udp_layout sport dport [0; 0] payload).
Proof.
  unfold write_udp_header, udp_layout.
  set (n := length payload).
  change (replicate (8 + n) 0) with ([0; 0] ++ [0; 0] ++ [0; 0] ++ [0; 0] ++ replicate n 0).
  rewrite put_mid by done. cbn [or_panic mbind Res_bind].
  rewrite (app_assoc pre). rewrite put_mid by (rewrite ?length_app, ?length_be_bytes; cbn; lia).
  cbn [or_panic mbind Res_bind].
  rewrite (app_assoc (pre ++ _)).
  rewrite put_mid by (rewrite ?length_app, ?length_be_bytes; cbn; lia).
  cbn [or_panic mbind Res_bind].
  rewrite (app_assoc ((pre ++ _) ++ _)).
  rewrite put_mid by (rewrite ?length_app, ?length_be_bytes; cbn; lia).
  cbn [or_panic mbind Res_bind].
  rewrite (app_assoc (((pre ++ _) ++ _) ++ _)).
  rewrite (proj2 (Nat.eqb_eq _ _))
    by (rewrite !length_app, !length_be_bytes, length_replicate; cbn; lia).
  rewrite <- (app_nil_r (replicate n 0)).
  rewrite put_mid; [|rewrite ?length_app, ?length_be_bytes; cbn; lia|apply length_replicate].
  cbn [or_panic]. by rewrite app_nil_r, <- !app_assoc.
Qed.

Lemma length_transmitted_checksum c : length (transmitted_checksum c) = 2%nat.
Proof. unfold transmitted_checksum. by destruct (c =? 0). Qed.

(** Filling the checksum field of a datagram laid out behind [pre]. *)
Lemma put_udp_checksum pre sport dport payload c :
  put (length pre + 6) (transmitted_checksum c) (pre ++ udp_layout sport dport [0; 0] payload)
  = Some (pre ++ udp_layout sport dport (transmitted_checksum c) payload).
Proof.
  unfold udp_layout. rewrite !app_assoc, <- (app_assoc _ [0; 0]).
  rewrite put_mid; [by rewrite <- (app_assoc _ (transmitted_checksum c))| |].
  - rewrite !length_app, !length_be_bytes. lia.
  - by rewrite length_transmitted_checksum.
Qed.

(** Normalise a chain of in-place writes on a datagram whose front is concrete. *)
Ltac run_puts :=
  cbn [put splice replicate app length Nat.add Nat.leb take drop or_panic mbind Res_bind be_bytes].

Lemma write_udp_v4_layout out s d sport dport payload :
  length s = 4%nat -> length d = 4%nat ->
  Z.of_nat (length payload) <= MAX_IPV4_UDP_PAYLOAD ->
  (28 + length payload <= length out)%nat ->
  let total := (28 + length payload)%nat in
  let header_sum := checksum [ipv4_layout (Z.of_nat total) [0; 0] s d] in
  let sum := checksum [s; d; [0; UDP_PROTOCOL]; be_bytes 2 (udp_len_field payload);
                       udp_layout sport dport [0; 0] payload] in
  write_udp_v4 out (s, sport) (d, dport) payload
  = Ok (total, (ipv4_layout (Z.of_nat total) (be_bytes 2 header_sum) s d ++
                udp_layout sport dport (transmitted_checksum sum) payload) ++ drop total out).
Proof.
  intros Hs Hd Hmax Hout total header_sum sum. unfold write_udp_v4.
  rewrite (proj2 (Z.ltb_ge _ _)) by lia.
  change (IPV4_UDP_HEADER + length payload)%nat with total.
  unfold get_to. rewrite (proj2 (Nat.leb_le _ _)) by lia. cbn [ok_or mbind Res_bind fst snd].
  destruct s as [|s0 [|s1 [|s2 [|s3 []]]]]; try done.
  destruct d as [|d0 [|d1 [|d2 [|d3 []]]]]; try done.
  change (replicate total 0) with (replicate 20 0 ++ replicate (8 + length payload) 0).
  set (header := ipv4_layout (Z.of_nat total) (be_bytes 2 header_sum) _ _). run_puts.
  match goal with |- context [write_udp_header 20 _ _ _ ?dg] =>
    change dg with (header ++ replicate (8 + length payload) 0) end.
  change (write_udp_header 20) with (@write_udp_header WriteError (length header)).
  rewrite write_udp_header_layout. cbn [mbind Res_bind].
  change (drop 20 (header ++ ?u)) with u. fold sum.
  change 26%nat with (length header + 6)%nat. by rewrite put_udp_checksum.
Qed.

Lemma write_udp_v6_layout out s d sport dport payload :
  length s = 16%nat -> length d = 16%nat ->
  Z.of_nat (length payload) <= MAX_IPV6_UDP_PAYLOAD ->
  (48 + length payload <= length out)%nat ->
  let total := (48 + length payload)%nat in
  let sum := checksum [s; d; be_bytes 4 (udp_len_field payload); [0; 0; 0; UDP_PROTOCOL];
                       udp_layout sport dport [0; 0] payload] in
  write_udp_v6 out (s, sport) (d, dport) payload
  = Ok (total, (ipv6_layout (udp_len_field payload) s d ++
                udp_layout sport dport (transmitted_checksum sum) payload) ++ drop total out).
Proof.
  intros Hs Hd Hmax Hout total sum. unfold write_udp_v6.
  rewrite (proj2 (Z.ltb_ge _ _)) by lia.
  change (IPV6_UDP_HEADER + length payload)%nat with total.
  unfold get_to. rewrite (proj2 (Nat.leb_le _ _)) by lia. cbn [ok_or mbind Res_bind fst snd].
  do 16 (destruct s as [|? s]; [done|]). destruct s; [|done].
  do 16 (destruct d as [|? d]; [done|]). destruct d; [|done].
  change (replicate total 0) with (replicate 40 0 ++ replicate (8 + length payload) 0).
  set (header := ipv6_layout (udp_len_field payload) _ _). run_puts.
  match goal with |- context [write_udp_header 40 _ _ _ ?dg] =>
    change dg with (header ++ replicate (8 + length payload) 0) end.
  change (write_udp_header 40) with (@write_udp_header WriteError (length header)).
  rewrite write_udp_header_layout. cbn [mbind Res_bind].
  change (drop 40 (header ++ ?u)) with u. fold sum.
  change 46%nat with (length header + 6)%nat. by rewrite put_udp_checksum.
Qed.

Lemma checksum_concat parts : checksum parts = checksum [concat parts].
Proof. unfold checksum. cbn [concat]. by rewrite app_nil_r. Qed.

Lemma header_checksum_verifies before after c :
  Nat.Even (length before) -> bytes_ok before -> bytes_ok after ->
  (length before + 2 + length after <= CHECKSUM_MAX)%nat ->
  c = checksum [before ++ [0; 0] ++ after] ->
  checksum [before ++ be_bytes 2 c ++ after] = 0.
Proof.
  intros Heven Hb Ha Hlen Hc.
  destruct (transmitted_checksum_verifies before after c) as (Hv & _); auto.
  unfold transmitted_checksum in Hv. destruct (Z.eqb_spec c 0) as [->|]; [|done].
  exact (eq_sym Hc).
Qed.

Lemma udp_len_field_eq payload :
  Z.of_nat (length payload) <= MAX_IPV6_UDP_PAYLOAD ->
  udp_len_field payload = 8 + Z.of_nat (length payload).
Proof.
  unfold MAX_IPV6_UDP_PAYLOAD, U16_MAX, udp_len_field, wrap. intros.
  change (2 ^ 16) with 65536. rewrite Z.mod_small; lia.
Qed.

(** A packet of either family, [hdr] followed by the UDP part: summed behind an
    even pseudo-header, the filled checksum verifies. *)
Lemma udp_packet_verifies hdr pseudo sport dport payload :
  Nat.Even (length (concat pseudo)) -> bytes_ok (concat pseudo) -> bytes_ok payload ->
  (length (concat pseudo) <= 64)%nat -> Z.of_nat (length payload) <= MAX_IPV6_UDP_PAYLOAD ->
  let c := checksum (pseudo ++ [udp_layout sport dport [0; 0] payload]) in
  let d := hdr ++ udp_layout sport dport (transmitted_checksum c) payload in
  length d = (length hdr + 8 + length payload)%nat /\
  checksum (pseudo ++ [drop (length hdr) d]) = 0 /\
  drop (length hdr) d = udp_layout sport dport (transmitted_checksum c) payload /\
  length (transmitted_checksum c) = 2%nat /\ transmitted_checksum c <> [0; 0].
Proof.
  intros Heven Hp Hok Hlen Hmax c d. unfold MAX_IPV6_UDP_PAYLOAD, U16_MAX in Hmax.
  set (before := concat pseudo ++ be_bytes 2 sport ++ be_bytes 2 dport ++
                 be_bytes 2 (udp_len_field payload)).
  assert (forall m, concat (pseudo ++ [udp_layout sport dport m payload]) = before ++ m ++ payload)
    as Hcat.
  { intros m. unfold before, udp_layout. rewrite concat_app. cbn [concat].
    by rewrite app_nil_r, <- !app_assoc. }
  destruct (transmitted_checksum_verifies before payload c) as (Hv & Hl & _ & Hn).
  - unfold before. rewrite !length_app, !length_be_bytes.
    destruct Heven as [k ->]. exists (k + 3)%nat. lia.
  - unfold before. rewrite !Forall_app. split_and!; auto with boreas.
  - done.
  - unfold before, CHECKSUM_MAX. rewrite !length_app, !length_be_bytes. lia.
  - unfold c. by rewrite checksum_concat, Hcat.
  - unfold d. rewrite drop_app_length. split_and!; try done.
    + unfold udp_layout. rewrite !length_app, !length_be_bytes, Hl. lia.
    + by rewrite checksum_concat, Hcat.
Qed.

Lemma ipv4_layout_verifies total s d :
  length s = 4%nat -> length d = 4%nat -> bytes_ok s -> bytes_ok d ->
  let header_sum := checksum [ipv4_layout total [0; 0] s d] in
  checksum [ipv4_layout total (be_bytes 2 header_sum) s d] = 0.
Proof.
  intros Hs Hd Hsok Hdok header_sum.
  set (front := [0x45; 0] ++ be_bytes 2 (wrap 16 total) ++ [0; 0] ++ be_bytes 2 0x4000 ++
                [64; UDP_PROTOCOL]).
  assert (forall m, ipv4_layout total m s d = front ++ m ++ s ++ d) as Hlay.
  { intros m. unfold ipv4_layout, front. by rewrite <- !app_assoc. }
  rewrite Hlay. apply header_checksum_verifies.
  - by exists 5%nat.
  - unfold front. rewrite !Forall_app. split_and!; auto with boreas; repeat constructor; done.
  - by rewrite Forall_app.
  - unfold CHECKSUM_MAX. rewrite !length_app, Hs, Hd. cbn. lia.
  - unfold header_sum. by rewrite Hlay.
Qed.

(** Side conditions of [udp_packet_verifies] for a concrete pseudo-header of
    [2 * half] bytes. *)
Ltac udp_side half Hsl Hdl :=
  unfold MAX_IPV6_UDP_PAYLOAD, U16_MAX; cbn [concat];
  rewrite ?length_app, ?length_be_bytes, ?Hsl, ?Hdl, ?Forall_app;
  first [ by exists half | done | cbn; lia
        | split_and!; auto with boreas; repeat constructor; done ].

(** a UDP datagram written for two endpoints of one family into a buffer that
    can hold it never panics and is a valid packet: it has the announced length,
    the IPv4 header checksum verifies, the UDP checksum verifies over the
    pseudo-header and is never the "no checksum" value zero, the ports and length
    are the ones asked for, the payload follows verbatim, and the rest of the
    buffer is untouched. *)
Theorem write_udp_correct out src dst payload :
  ip_ok (address src) -> ip_ok (address dst) ->
  same_family (address src) (address dst) = true ->
  bytes_ok payload -> Z.of_nat (length payload) <= max_udp_payload (address src) ->
  (udp_datagram_len (address src) (length payload) <= length out)%nat ->
  let total := udp_datagram_len (address src) (length payload) in
  let hl := ip_header_len (address src) in
  let udp_len := 8 + Z.of_nat (length payload) in
  exists d check,
    write_udp out src dst payload = Ok (total, d ++ drop total out) /\
    length d = total /\
    (hl = 20%nat -> checksum [take 20 d] = 0) /\
    checksum (pseudo_header (address src) (address dst) udp_len ++ [drop hl d]) = 0 /\
    drop hl d = be_bytes 2 (port src) ++ be_bytes 2 (port dst) ++ be_bytes 2 udp_len ++
                check ++ payload /\
    length check = 2%nat /\ check <> [0; 0].
Proof.
  destruct src as [[s|s] sp], dst as [[d|d] dp]; try done.
  all: cbn [address port octets same_family udp_datagram_len ip_header_len max_udp_payload
            write_udp pseudo_header].
  all: unfold ip_ok, MAX_IPV4_UDP_PAYLOAD, MAX_IPV6_UDP_PAYLOAD, IPV4_UDP_HEADER, IPV6_UDP_HEADER,
         U16_MAX; cbn [octets].
  all: intros [Hs Hsl] [Hd Hdl] _ Hok Hmax Hout.
  all: pose proof (udp_len_field_eq payload) as Hlen;
    unfold MAX_IPV6_UDP_PAYLOAD, U16_MAX in Hlen; specialize (Hlen ltac:(lia)).
  - rewrite write_udp_v4_layout by (done || unfold MAX_IPV4_UDP_PAYLOAD, U16_MAX; lia).
    set (hdr := ipv4_layout _ (be_bytes 2 _) s d).
    assert (length hdr = 20%nat) as Hhl.
    { unfold hdr, ipv4_layout. by rewrite !length_app, !length_be_bytes, Hsl, Hdl. }
    destruct (udp_packet_verifies hdr [s; d; [0; UDP_PROTOCOL]; be_bytes 2 (udp_len_field payload)]
                sp dp payload) as (HL & HV & HD & HC & HN); [udp_side 6%nat Hsl Hdl..|].
    rewrite Hhl in *. rewrite <- Hlen. do 2 eexists. split; [reflexivity|].
    split_and!; [exact HL| |exact HV|exact HD|exact HC|exact HN].
    intros _. rewrite <- Hhl, take_app_length. by apply ipv4_layout_verifies.
  - rewrite write_udp_v6_layout by (done || unfold MAX_IPV6_UDP_PAYLOAD, U16_MAX; lia).
    set (hdr := ipv6_layout _ s d).
    assert (length hdr = 40%nat) as Hhl.
    { unfold hdr, ipv6_layout. by rewrite !length_app, !length_be_bytes, Hsl, Hdl. }
    destruct (udp_packet_verifies hdr [s; d; be_bytes 4 (udp_len_field payload); [0; 0; 0; UDP_PROTOCOL]]
                sp dp payload) as (HL & HV & HD & HC & HN); [udp_side 20%nat Hsl Hdl..|].
    rewrite Hhl in *. rewrite <- Hlen. do 2 eexists. split; [reflexivity|].
    split_and!; [exact HL|done|exact HV|exact HD|exact HC|exact HN].
Qed.

Definition sample_client : InternalEndpoint := mkEndpoint (V4 [192; 0; 2; 1]) 50000.
Definition sample_server : InternalEndpoint := mkEndpoint (V4 [198; 51; 100; 2]) 53.

Lemma write_udp_correct_witness :
  exists d check,
    write_udp (replicate 40 7) sample_server sample_client [1; 2; 3]
    = Ok (31%nat, d ++ replicate 9 7) /\
    length d = 31%nat /\ (20%nat = 20%nat -> checksum [take 20 d] = 0) /\
    checksum (pseudo_header (V4 [198; 51; 100; 2]) (V4 [192; 0; 2; 1]) 11 ++ [drop 20 d]) = 0 /\
    drop 20 d = be_bytes 2 53 ++ be_bytes 2 50000 ++ be_bytes 2 11 ++ check ++ [1; 2; 3] /\
    length check = 2%nat /\ check <> [0; 0].
Proof.
  apply (write_udp_correct (replicate 40 7) sample_server sample_client [1; 2; 3]).
  - split; [repeat constructor; done|done].
  - split; [repeat constructor; done|done].
  - done.
  - repeat constructor; done.
  - done.
  - cbn. lia.
Defined.

(** * Generated ICMP errors *)

Section IcmpErrorTheory.
Context `{EtherparseLaws}.

Lemma IngressPacket_parse_no_panic packet : IngressPacket_parse packet <> Panic.
Proof.
  unfold IngressPacket_parse. destruct (from_ip packet) as [|sliced]; cbn; [done|].
  destruct (sliced_net sliced) as [[| |]|]; cbn; try done.
  all: destruct (transport_summary _ _) as [t [p|]]; cbn; [|done].
  all: destruct (u16_try_from (sub_at p)); cbn; [|done].
  all: by destruct (u16_try_from (sub_len p)).
Qed.

Definition v4_error (error : IcmpError) : Icmpv4Type :=
  match error with TooBig mtu => FragmentationNeeded mtu | TimeExceeded => TtlExceededInTransit end.
Definition v6_error (error : IcmpError) : Icmpv6Type :=
  match error with TooBig mtu => PacketTooBig mtu | TimeExceeded => HopLimitExceeded end.

(** The error about a packet from [source] to [destination]: the packet that carries it,
    what it quotes, and its length. *)
Definition error_about (source destination : IpAddr) (error : IcmpError) (quoted : bytes) (builder : IcmpBuilder) (quote : bytes) (len : nat) : Prop :=
  match source, destination with
  | V4 s, V4 d => builder = BuilderV4 d s 64 (v4_error error) /\ quote = take 548 quoted /\
      len = (28 + length quoted `min` 548)%nat /\ (len <= 576)%nat
  | V6 s, V6 d => builder = BuilderV6 d s 64 (v6_error error) /\ quote = take 1232 quoted /\
      len = (48 + length quoted `min` 1232)%nat /\ (len <= 1280)%nat
  | _, _ => False
  end.

Lemma icmp_builder_about error src dst quoted builder limit :
  icmp_builder error dst src = Some (builder, limit) ->
  let quote := take (length quoted `min` (limit - builder_size builder 0)) quoted in
  (builder_size builder 0 <= limit)%nat /\ error_about src dst error quoted builder quote (builder_size builder (length quote)).
Proof.
  assert (forall n, take (length quoted `min` n) quoted = take n quoted) as Hmin.
  { intros n. destruct (decide (n <= length quoted)%nat); [by rewrite Nat.min_r|]. rewrite Nat.min_l by lia. rewrite !take_ge by lia. done. }
  destruct src as [s|s], dst as [d|d]; cbn [icmp_builder]; try done; intros [= <- <-];
    rewrite ?builder_size_v4, ?builder_size_v6, Hmin, length_take; unfold MAX_ICMPV4_ERROR, MAX_ICMPV6_ERROR; cbn [Nat.add Nat.sub];
    (split; [lia|]); split_and!; try done; lia.
Qed.

(** C13: a generated ICMP error never panics.  About an IPv4 packet it is a fragmentation
    needed with the given MTU, or a time exceeded in transit, of at most 576 bytes; about
    an IPv6 packet a packet too big, or a hop limit exceeded, of at most 1280.  It goes
    from the quoted packet's destination back to its source, quotes the longest prefix of
    that packet the bound admits behind the headers of 28 or 48 bytes, and occupies
    exactly the reported length at the front of the output buffer.  It is refused for a
    packet that does not parse, for one whose addresses are of two families, and for a
    buffer it does not fit or a builder that fails. *)
Theorem write_icmp_error_bounded out quoted error :
  match write_icmp_error out quoted error with
  | Ok (len, out') => exists parsed builder quote w,
      IngressPacket_parse quoted = Ok parsed /\
      error_about (source parsed) (destination parsed) error quoted builder quote len /\
      builder_write builder quote = Some w /\ (len <= length out)%nat /\ length w = len /\
      out' = w ++ drop len out
  | Err Unquotable => forall parsed, IngressPacket_parse quoted <> Ok parsed
  | Err MixedFamilies => exists parsed, IngressPacket_parse quoted = Ok parsed /\
      same_family (source parsed) (destination parsed) = false
  | Err _ => exists parsed builder quote len, IngressPacket_parse quoted = Ok parsed /\
      error_about (source parsed) (destination parsed) error quoted builder quote len /\
      ((length out < len)%nat \/ builder_write builder quote = None)
  | Panic => False
  end.
Proof.
  unfold write_icmp_error. pose proof (IngressPacket_parse_no_panic quoted).
  destruct (IngressPacket_parse quoted) as [parsed|e|] eqn:Ep; [|done|done].
  destruct (icmp_builder error (destination parsed) (source parsed)) as [[builder limit]|] eqn:Eb.
  2: { exists parsed. split; [done|]. by destruct (source parsed), (destination parsed). }
  destruct (icmp_builder_about _ _ _ quoted _ _ Eb) as [Hl Ha]. rewrite (proj2 (Nat.ltb_ge _ _)) by done.
  cbn zeta. set (quote := take _ quoted) in *. set (len := builder_size builder (length quote)) in *. unfold emit, get_to.
  destruct (len <=? length out)%nat eqn:Eo; reflect; cbn; [|exists parsed, builder, quote, len; split_and!; auto].
  destruct (builder_write builder quote) as [w|] eqn:Ew; cbn; [|exists parsed, builder, quote, len; split_and!; auto].
  pose proof (builder_write_length _ _ _ Ew) as Hw. fold len in Hw. rewrite Hw, length_take, Nat.min_l, Nat.leb_refl by lia.
  exists parsed, builder, quote, w. split_and!; auto. unfold splice. cbn. by rewrite Hw.
Qed.

End IcmpErrorTheory.

(** * A concrete parser

    An instance of the parser interface for plain IPv4 packets, on which the
    properties that mention [Etherparse] are exercised. *)

Definition sample_from_ip (packet : bytes) : unit + SlicedPacket :=
  match packet with
  | b0 :: _ :: _ :: _ :: id_hi :: id_lo :: fl :: off :: _ :: proto :: _ :: _ ::
    s0 :: s1 :: s2 :: s3 :: d0 :: d1 :: d2 :: d3 :: rest =>
      if negb (b0 =? 0x45) then inl tt else
      let proto := Z.land proto 0xff in
      let offset := be_value [Z.land fl 0x1f; Z.land off 0xff] in
      let more := negb (Z.land fl 0x20 =? 0) in
      let net := NetIpv4 (mkIpv4 [s0; s1; s2; s3] [d0; d1; d2; d3] NotEct 5 proto
                   (be_value [id_hi; id_lo]) offset more (more || negb (offset =? 0))
                   (mkSub 20 (length rest))) in
      let t :=
        match rest with
        | p0 :: p1 :: q0 :: q1 :: _ :: _ :: _ :: _ :: body =>
            if proto =? 17
            then Some (UdpSlice (be_value [p0; p1]) (be_value [q0; q1]) (mkSub 28 (length body)))
            else if proto =? 6
            then Some (TcpSlice (be_value [p0; p1]) (be_value [q0; q1]) (mkSub 28 (length body)))
            else if proto =? 1 then Some (Icmpv4Slice p0 (mkSub 28 (length body)))
            else None
        | _ => None
        end in
      inr (mkSliced (Some net) t)
  | _ => inl tt
  end.

Definition sample_etherparse : Etherparse := {|
  SliceError := unit;
  from_ip := sample_from_ip;
  builder_size b n := match b with BuilderV4 _ _ _ _ => 28 + n | BuilderV6 _ _ _ _ => 48 + n end%nat;
  builder_write b q := Some match b with
    | BuilderV4 s d ttl _ => replicate 28 0 ++ q
    | BuilderV6 s d ttl _ => replicate 48 0 ++ q
    end;
|}.

Lemma sample_etherparse_laws : @EtherparseLaws sample_etherparse.
Proof.
  split.
  - intros packet sliced t p. cbn. unfold sample_from_ip.
    do 20 (destruct packet as [|? packet]; [done|]). case_match; [done|].
    intros [= <-]. cbn.
    do 8 (destruct packet as [|? packet]; [done|]).
    repeat (case_match; [intros [= <-] [= <-]; cbn; lia|]). done.
  - intros packet sliced ipv4. cbn. unfold sample_from_ip.
    do 20 (destruct packet as [|? packet]; [done|]). case_match; [done|].
    intros [= <-] [= <-]. cbn. lia.
  - done.
  - done.
  - intros [] q w [= <-]; cbn; done.
Qed.

(** An IPv4/UDP packet of 29 bytes. *)
Definition sample_udp_packet : bytes := sample_ipv4_header ++ [0xc3; 0x50; 0; 53; 0; 9; 0; 0; 42].

Lemma write_icmp_error_bounded_witness :
  exists len out',
    @write_icmp_error sample_etherparse (replicate 100 0) sample_udp_packet TimeExceeded
    = Ok (len, out') /\ (len <= 576)%nat.
Proof.
  pose proof (@write_icmp_error_bounded sample_etherparse sample_etherparse_laws
                (replicate 100 0) sample_udp_packet TimeExceeded) as H.
  destruct (@write_icmp_error sample_etherparse _ _ _) as [[len out']|e|] eqn:E;
    [|vm_compute in E; done|done].
  exists len, out'. split; [done|].
  destruct H as (parsed & builder & quote & w & Hp & Hb & _).
  vm_compute in Hp. injection Hp as <-. destruct Hb as (_ & _ & _ & Hl). exact Hl.
Defined.
