(* ===== verification/Udp.v ===== *)
(** The flow table of [src/l3/udp.rs]: a hashed timer wheel ([TimerWheel]) that
    hints when a flow may be due, the live flows with their exact deadlines
    ([UdpFlowTable]), and the bounded per-flow datagram queue
    ([DatagramBuffer]). *)

From S2P Require Import Prelude Net.
Open Scope Z_scope.

(** ** Timer wheel *)

Definition WHEEL_BUCKETS : Z := 512.

(** [buckets] is the array of 512 vectors; an entry is its recorded second and
    its key. *)
Record TimerWheel (T : Type) := mkWheel {
  buckets : list (list (Z * T));
  overflow : list (Z * T);
  epoch : Instant;
  drained : Z;
}.
Arguments mkWheel {T}.
Arguments buckets {T}.
Arguments overflow {T}.
Arguments epoch {T}.
Arguments drained {T}.

Section Wheel.
Context {T : Type}.
Implicit Types w : TimerWheel T.

Definition TimerWheel_new (epoch : Instant) : TimerWheel T :=
  mkWheel (replicate (Z.to_nat WHEEL_BUCKETS) []) [] epoch 0.

Definition TimerWheel_second w (deadline : Instant) : Z :=
  Z.min (as_secs (saturating_duration_since deadline (epoch w))) (U64_MAX - 1).

Definition bucket_index (second : Z) : nat := Z.to_nat (second mod WHEEL_BUCKETS).

(** [self.buckets[second % 512].push((second, entry))]. *)
Definition push_bucket (second : Z) (entry : T) (bs : list (list (Z * T))) : list (list (Z * T)) :=
  alter (fun b => b ++ [(second, entry)]) (bucket_index second) bs.

Definition TimerWheel_insert w (deadline : Instant) (entry : T) : TimerWheel T :=
  let second := Z.max (TimerWheel_second w deadline) (drained w) in
  if drained w + WHEEL_BUCKETS <=? second
  then mkWheel (buckets w) (overflow w ++ [(second, entry)]) (epoch w) (drained w)
  else mkWheel (push_bucket second entry (buckets w)) (overflow w) (epoch w) (drained w).

(** One step of [overflow.retain]: the entry is surfaced, filed, or kept. *)
Definition retain_overflow (horizon drained_ : Z)
    (st : list T * list (list (Z * T)) * list (Z * T)) (e : Z * T)
  : list T * list (list (Z * T)) * list (Z * T) :=
  let '(surfaced, bs, kept) := st in
  let '(second, entry) := e in
  if second <=? horizon then (surfaced ++ [entry], bs, kept)
  else if second <? drained_ + WHEEL_BUCKETS then (surfaced, push_bucket second entry bs, kept)
  else (surfaced, bs, kept ++ [(second, entry)]).

(** One entry of a bucket taken for draining. *)
Definition drain_entry (horizon : Z) (st : list T * list (list (Z * T))) (e : Z * T)
  : list T * list (list (Z * T)) :=
  let '(surfaced, bs) := st in
  let '(second, entry) := e in
  if second <=? horizon then (surfaced ++ [entry], bs)
  else (surfaced, push_bucket second entry bs).

(** [while self.drained <= horizon]; the fuel is the number of seconds to drain. *)
Fixpoint drain_loop (fuel : nat) (horizon : Z) (st : list T * list (list (Z * T)) * Z)
  : list T * list (list (Z * T)) * Z :=
  match fuel with
  | O => st
  | S fuel =>
      let '(surfaced, bs, drained_) := st in
      if drained_ <=? horizon then
        let bucket := bucket_index drained_ in
        let taken := default [] (bs !! bucket) in
        let '(surfaced, bs) := foldl (drain_entry horizon) (surfaced, <[bucket := []]> bs) taken in
        drain_loop fuel horizon (surfaced, bs, drained_ + 1)
      else st
  end.

(** The wheel after draining every second up to [now], and [surfaced] extended
    with the keys that may be due. *)
Definition TimerWheel_take_due w (now : Instant) (surfaced : list T) : TimerWheel T * list T :=
  let horizon := TimerWheel_second w now in
  let '(surfaced, bs, kept) :=
    foldl (retain_overflow horizon (drained w)) (surfaced, buckets w, []) (overflow w) in
  let '(surfaced, bs, drained_) :=
    drain_loop (Z.to_nat (horizon + 1 - drained w)) horizon (surfaced, bs, drained w) in
  (mkWheel bs kept (epoch w) drained_, surfaced).

Definition TimerWheel_bucket w (second : Z) : list (Z * T) :=
  default [] (buckets w !! bucket_index second).

Definition TimerWheel_next_due w : option Z :=
  let horizon := drained w + WHEEL_BUCKETS in
  match List.find (fun second => match TimerWheel_bucket w second with [] => false | _ => true end)
          (seqZ (drained w) WHEEL_BUCKETS) with
  | Some second => Some second
  | None => match overflow w with [] => None | _ => Some horizon end
  end.

End Wheel.

(** ** Datagram queue *)

Inductive SendOutcome := Buffered | Dropped.

Record DatagramBuffer (T : Type) := mkBuffer {
  db_capacity : nat;
  db_datagrams : list T;
  db_dropped : Z;
}.
Arguments mkBuffer {T}.
Arguments db_capacity {T}.
Arguments db_datagrams {T}.
Arguments db_dropped {T}.

Section Buffer.
Context {T : Type}.
Implicit Types b : DatagramBuffer T.

Definition DatagramBuffer_new (capacity : nat) : DatagramBuffer T := mkBuffer capacity [] 0.

Definition DatagramBuffer_try_send b (datagram : T) : SendOutcome * DatagramBuffer T :=
  if (length (db_datagrams b) =? db_capacity b)%nat
  then (Dropped, mkBuffer (db_capacity b) (db_datagrams b) (saturating_add U64_MAX (db_dropped b) 1))
  else (Buffered, mkBuffer (db_capacity b) (db_datagrams b ++ [datagram]) (db_dropped b)).

Definition DatagramBuffer_recv b : option T * DatagramBuffer T :=
  match db_datagrams b with
  | [] => (None, b)
  | d :: rest => (Some d, mkBuffer (db_capacity b) rest (db_dropped b))
  end.

Definition DatagramBuffer_is_empty b : bool :=
  match db_datagrams b with [] => true | _ => false end.

Definition DatagramBuffer_len b : nat := length (db_datagrams b).

End Buffer.

(** ** Flow table *)

Definition MIN_IDLE_TIMEOUT : Duration := from_secs 120.

Inductive FlowTableError := IdleTimeoutTooShort | DeadlineOverflow | AtCeiling.

Record EntryState (V : Type) := mkEntry { es_value : V; es_deadline : Instant }.
Arguments mkEntry {V}.
Arguments es_value {V}.
Arguments es_deadline {V}.

(** The scratch vector [surfaced] is empty between calls and is not state. *)
Record UdpFlowTable (K V : Type) `{Countable K} := mkTable {
  idle_timeout : Duration;
  ceiling : nat;
  flows : gmap K (EntryState V);
  wheel : TimerWheel K;
}.
Arguments mkTable {K V _ _}.
Arguments idle_timeout {K V _ _}.
Arguments ceiling {K V _ _}.
Arguments flows {K V _ _}.
Arguments wheel {K V _ _}.

Section Table.
Context {K V : Type} `{Countable K}.
Implicit Types t : UdpFlowTable K V.

Definition UdpFlowTable_new (idle_timeout : Duration) (ceiling : nat) (epoch : Instant)
  : Res FlowTableError (UdpFlowTable K V) :=
  if idle_timeout <? MIN_IDLE_TIMEOUT then Err IdleTimeoutTooShort
  else Ok (mkTable idle_timeout ceiling ∅ (TimerWheel_new epoch)).

Definition UdpFlowTable_len t : nat := size (flows t).
Definition UdpFlowTable_contains t (key : K) : bool := bool_decide (is_Some (flows t !! key)).
Definition UdpFlowTable_get t (key : K) : option V := es_value <$> flows t !! key.

(** Mutation through [get_mut]: the value changes, the deadline does not. *)
Definition UdpFlowTable_update t (key : K) (f : V -> V) : UdpFlowTable K V :=
  mkTable (idle_timeout t) (ceiling t)
    (alter (fun st => mkEntry (f (es_value st)) (es_deadline st)) key (flows t)) (wheel t).

Definition UdpFlowTable_next_deadline t : option Instant :=
  (fun second => epoch (wheel t) + from_secs second) <$> TimerWheel_next_due (wheel t).

(** [retain]: [keep] answers the kept value, [None] to drop the flow. *)
Definition UdpFlowTable_retain t (keep : K -> V -> option V) : nat * UdpFlowTable K V :=
  let kept := map_imap (fun k st => (fun v => mkEntry v (es_deadline st)) <$> keep k (es_value st))
                (flows t) in
  ((size (flows t) - size kept)%nat,
   mkTable (idle_timeout t) (ceiling t) kept (wheel t)).

Definition UdpFlowTable_get_or_insert_with t (key : K) (now : Instant) (create : V)
  : Res FlowTableError (V * UdpFlowTable K V) :=
  deadline ← ok_or DeadlineOverflow (instant_checked_add now (idle_timeout t));
  match flows t !! key with
  | Some st =>
      Ok (es_value st,
          mkTable (idle_timeout t) (ceiling t)
            (<[key := mkEntry (es_value st) deadline]> (flows t)) (wheel t))
  | None =>
      if (ceiling t <=? size (flows t))%nat then Err AtCeiling
      else Ok (create,
               mkTable (idle_timeout t) (ceiling t) (<[key := mkEntry create deadline]> (flows t))
                 (TimerWheel_insert (wheel t) deadline key))
  end.

(** One surfaced key of [expire]: evicted, re-bucketed, or already gone. *)
Definition expire_key (now : Instant)
    (st : gmap K (EntryState V) * TimerWheel K * list V) (key : K)
  : gmap K (EntryState V) * TimerWheel K * list V :=
  let '(fl, w, expired) := st in
  match fl !! key with
  | Some e =>
      if es_deadline e <=? now then (delete key fl, w, expired ++ [es_value e])
      else (fl, TimerWheel_insert w (es_deadline e) key, expired)
  | None => st
  end.

Definition UdpFlowTable_expire t (now : Instant) : list V * UdpFlowTable K V :=
  let '(w, surfaced) := TimerWheel_take_due (wheel t) now [] in
  let '(fl, w, expired) := foldl (expire_key now) (flows t, w, []) surfaced in
  (expired, mkTable (idle_timeout t) (ceiling t) fl w).

End Table.

(** ** The wheel as a multiset of entries

    [wheel_ok] is the invariant of the wheel's layout: every entry of bucket [i]
    lies in the 512-second window that starts at [drained] and hashes to [i], and
    nothing in [overflow] lies before the window. *)

Section WheelFacts.
Context {T : Type}.
Implicit Types (w : TimerWheel T) (bs : list (list (Z * T))) (d h : Z).

Definition entries w : list (Z * T) := concat (buckets w) ++ overflow w.

Definition buckets_ok (d : Z) bs : Prop :=
  length bs = Z.to_nat WHEEL_BUCKETS /\
  forall i b, bs !! i = Some b ->
    Forall (fun e => bucket_index e.1 = i /\ d <= e.1 < d + WHEEL_BUCKETS) b.

Definition wheel_ok w : Prop :=
  0 <= drained w /\ buckets_ok (drained w) (buckets w) /\
  Forall (fun e => drained w <= e.1) (overflow w).

Lemma bucket_index_lt s : (bucket_index s < Z.to_nat WHEEL_BUCKETS)%nat.
Proof.
  unfold bucket_index, WHEEL_BUCKETS. pose proof (Z.mod_pos_bound s 512). lia.
Qed.

Lemma bucket_index_window s d :
  bucket_index s = bucket_index d -> d <= s < d + WHEEL_BUCKETS -> s = d.
Proof.
  unfold bucket_index, WHEEL_BUCKETS. intros E%Z2Nat.inj ?; [zdiv_lia|..];
    apply Z.mod_pos_bound; lia.
Qed.

Lemma concat_alter i (f : list (Z * T) -> list (Z * T)) e bs :
  (forall b, f b ≡ₚ e :: b) -> (i < length bs)%nat -> concat (alter f i bs) ≡ₚ e :: concat bs.
Proof.
  intros Hf. revert i. induction bs as [|b bs IH]; intros [|i] Hi; cbn in *; [lia..| |].
  - now rewrite Hf.
  - rewrite IH by lia. symmetry. apply Permutation_middle.
Qed.

Lemma concat_take_bucket i b bs :
  bs !! i = Some b -> concat bs ≡ₚ b ++ concat (<[i := []]> bs).
Proof.
  revert i. induction bs as [|b' bs IH]; intros [|i] Hi; simplify_eq/=; [done|].
  rewrite (IH i Hi). rewrite !app_assoc. now rewrite (Permutation_app_comm b' b).
Qed.

Lemma push_bucket_perm s (x : T) d bs :
  buckets_ok d bs -> concat (push_bucket s x bs) ≡ₚ (s, x) :: concat bs.
Proof.
  intros [Hlen _]. apply concat_alter.
  - intros b. symmetry. apply Permutation_cons_append.
  - rewrite Hlen. apply bucket_index_lt.
Qed.

Lemma push_bucket_ok s (x : T) d bs :
  d <= s < d + WHEEL_BUCKETS -> buckets_ok d bs -> buckets_ok d (push_bucket s x bs).
Proof.
  intros Hs [Hlen Hb]. unfold push_bucket. split; [now rewrite length_alter|].
  intros i b Hi. rewrite list_lookup_alter in Hi. case_decide as E; [|eauto].
  subst i. destruct (bs !! bucket_index s) as [b'|] eqn:E; simplify_eq/=.
  apply Forall_app; split; [by apply Hb in E|]. constructor; [|constructor]. auto.
Qed.

Lemma buckets_ok_mono d d' bs :
  d <= d' -> Forall (fun e => d' <= e.1) (concat bs) -> buckets_ok d bs -> buckets_ok d' bs.
Proof.
  intros Hd Hall [Hlen Hb]. split; [done|]. intros i b Hi.
  pose proof (Hb i b Hi) as Hbi. rewrite Forall_forall in *. intros e He.
  destruct (Hbi e He) as [? ?]. split; [done|].
  assert (d' <= e.1); [|lia]. apply Hall. apply list_elem_of_In, in_concat.
  exists b. split; apply list_elem_of_In; [|done]. by eapply list_elem_of_lookup_2.
Qed.

Lemma Forall_concat_buckets d bs :
  buckets_ok d bs -> Forall (fun e => d <= e.1) (concat bs).
Proof.
  intros [_ Hb]. apply Forall_concat, Forall_lookup. intros i b Hi.
  eapply Forall_impl; [by apply Hb|]. cbn. lia.
Qed.

Lemma TimerWheel_new_ok e : wheel_ok (@TimerWheel_new T e).
Proof.
  split; [cbn; lia|]. split; [|constructor]. split; [apply length_replicate|].
  intros i b Hi. apply lookup_replicate in Hi as [-> _]. constructor.
Qed.

Lemma entries_new e : entries (@TimerWheel_new T e) = [].
Proof. unfold entries, TimerWheel_new. cbn [buckets overflow]. induction (Z.to_nat WHEEL_BUCKETS); auto. Qed.

Lemma TimerWheel_second_nonneg w i : 0 <= TimerWheel_second w i.
Proof.
  unfold TimerWheel_second, as_secs, saturating_duration_since, saturating_sub, U64_MAX, NANOS.
  zdiv_lia.
Qed.

Lemma TimerWheel_second_mono w i j :
  i <= j -> TimerWheel_second w i <= TimerWheel_second w j.
Proof.
  unfold TimerWheel_second, as_secs, saturating_duration_since, saturating_sub, NANOS. zdiv_lia.
Qed.

(** An insert adds exactly one entry, clamped to the window's start. *)
Lemma TimerWheel_insert_ok w deadline (x : T) :
  wheel_ok w ->
  let w' := TimerWheel_insert w deadline x in
  wheel_ok w' /\ drained w' = drained w /\ epoch w' = epoch w /\
  entries w' ≡ₚ (Z.max (TimerWheel_second w deadline) (drained w), x) :: entries w.
Proof.
  intros (H0 & Hb & Ho). unfold TimerWheel_insert, entries.
  set (s := Z.max _ _). case_goal; reflect; cbn [buckets overflow drained epoch].
  - split_and!; try done.
    + split_and!; cbn; try done. apply Forall_app; split; [done|].
      constructor; [cbn; lia|constructor].
    + rewrite app_assoc. symmetry. apply Permutation_cons_append.
  - split_and!; try done.
    + split_and!; cbn; try done. apply push_bucket_ok; [lia|done].
    + by rewrite (push_bucket_perm s x (drained w)).
Qed.

(** Every entry of a taken bucket is due: nothing is re-filed. *)
Lemma drain_entry_all_due h (l : list (Z * T)) sf bs :
  Forall (fun e => e.1 <= h) l ->
  foldl (drain_entry h) (sf, bs) l = (sf ++ l.*2, bs).
Proof.
  intros Hl. revert sf. induction Hl as [|[s x] l Hs Hl IH]; intros sf; cbn in *.
  { by rewrite app_nil_r. }
  rewrite (proj2 (Z.leb_le _ _) Hs), IH. by rewrite <- app_assoc.
Qed.

Lemma drain_step d h sf bs :
  buckets_ok d bs -> d <= h ->
  let b := default [] (bs !! bucket_index d) in
  let bs' := <[bucket_index d := []]> bs in
  foldl (drain_entry h) (sf, bs') b = (sf ++ b.*2, bs') /\
  Forall (fun e => e.1 <= h) b /\ concat bs ≡ₚ b ++ concat bs' /\ buckets_ok (d + 1) bs'.
Proof.
  intros Hok Hd. pose proof Hok as [Hlen Hb].
  destruct (lookup_lt_is_Some_2 bs (bucket_index d)) as [b Eb].
  { rewrite Hlen. apply bucket_index_lt. }
  rewrite Eb. cbn [default]. pose proof (Hb _ _ Eb) as Hbd.
  assert (Forall (fun e => e.1 <= h) b) as Hdue.
  { eapply Forall_impl; [exact Hbd|]. cbn. intros e [E Hw].
    apply bucket_index_window in E; lia. }
  split_and!; [by apply drain_entry_all_due|done|by apply concat_take_bucket|].
  split; [by rewrite length_insert|]. intros i b' Hi.
  rewrite list_lookup_insert in Hi. case_decide as E.
  { destruct E as [<- _]. injection Hi as <-. constructor. }
  pose proof (Hb _ _ Hi) as Hbi. eapply Forall_impl; [exact Hbi|].
  cbn. intros e [Ee Hw]. split; [done|].
  assert (e.1 <> d) by (intros Eq; apply E; rewrite <- Ee, Eq, Hlen; auto using bucket_index_lt).
  lia.
Qed.

Lemma drain_loop_spec n d h sf bs :
  buckets_ok d bs -> n = Z.to_nat (h + 1 - d) ->
  exists due bs', drain_loop n h (sf, bs, d) = (sf ++ due.*2, bs', Z.max d (h + 1)) /\
    concat bs ≡ₚ due ++ concat bs' /\ Forall (fun e => e.1 <= h) due /\
    buckets_ok (Z.max d (h + 1)) bs'.
Proof.
  revert d sf bs. induction n as [|n IH]; intros d sf bs Hok Hn; cbn [drain_loop].
  { exists [], bs. replace (Z.max d (h + 1)) with d by lia. by rewrite app_nil_r. }
  rewrite (proj2 (Z.leb_le d h)) by lia.
  destruct (drain_step d h sf bs Hok) as (-> & Hdue & Hperm & Hok'); [lia|].
  set (b := default [] _) in *. set (bs1 := <[_ := _]> bs) in *.
  destruct (IH (d + 1) (sf ++ b.*2) bs1 Hok') as (due & bs' & -> & Hp & Hd & Hb); [lia|].
  exists (b ++ due), bs'. replace (Z.max d (h + 1)) with (Z.max (d + 1) (h + 1)) by lia.
  split_and!; [by rewrite fmap_app, app_assoc| |by apply Forall_app|done].
  by rewrite Hperm, Hp, app_assoc.
Qed.

Lemma retain_overflow_spec h d ov sf bs kept :
  buckets_ok d bs -> Forall (fun e => d <= e.1) ov -> Forall (fun e => d <= e.1 /\ h < e.1) kept ->
  exists due filed kept',
    foldl (retain_overflow h d) (sf, bs, kept) ov = (sf ++ due.*2, filed, kept') /\
    buckets_ok d filed /\ concat bs ++ kept ++ ov ≡ₚ due ++ concat filed ++ kept' /\
    Forall (fun e => e.1 <= h) due /\ Forall (fun e => d <= e.1 /\ h < e.1) kept'.
Proof.
  revert sf bs kept. induction ov as [|[s x] ov IH]; intros sf bs kept Hb Ho Hk.
  { exists [], bs, kept. cbn. by rewrite !app_nil_r. }
  inversion_clear Ho as [|? ? Hs Ho']. cbn [foldl retain_overflow]. cbn in Hs.
  destruct (s <=? h) eqn:E1; [|destruct (s <? d + WHEEL_BUCKETS) eqn:E2]; reflect.
  - destruct (IH (sf ++ [x]) bs kept Hb Ho' Hk) as (due & fl & k' & -> & ? & Hp & ? & ?).
    exists ((s, x) :: due), fl, k'. split_and!; try done.
    + by rewrite <- app_assoc.
    + cbn [app]. rewrite <- Hp. rewrite app_assoc. rewrite <- Permutation_middle.
      by rewrite <- app_assoc.
    + by constructor.
  - destruct (IH sf (push_bucket s x bs) kept) as (due & fl & k' & -> & ? & Hp & ? & ?); try done.
    { by apply push_bucket_ok. }
    exists due, fl, k'. split_and!; try done. rewrite <- Hp, (push_bucket_perm s x d bs Hb).
    cbn [app]. rewrite app_assoc, <- Permutation_middle. by rewrite <- app_assoc.
  - destruct (IH sf bs (kept ++ [(s, x)])) as (due & fl & k' & -> & ? & Hp & ? & ?); try done.
    { apply Forall_app; split; [done|]. constructor; [cbn; lia|constructor]. }
    exists due, fl, k'. split_and!; try done. rewrite <- Hp. by rewrite <- app_assoc.
Qed.

(** What [take_due] does to the multiset: it splits off exactly the entries at or
    before [now]'s second. *)
Lemma TimerWheel_take_due_ok w now sf :
  wheel_ok w ->
  let h := TimerWheel_second w now in
  exists w' due, TimerWheel_take_due w now sf = (w', sf ++ due.*2) /\
    wheel_ok w' /\ epoch w' = epoch w /\ drained w' = Z.max (drained w) (h + 1) /\
    entries w ≡ₚ due ++ entries w' /\
    Forall (fun e => e.1 <= h) due /\ Forall (fun e => h < e.1) (entries w').
Proof.
  intros (H0 & Hb & Ho) h. unfold TimerWheel_take_due. fold h.
  destruct (retain_overflow_spec h (drained w) (overflow w) sf (buckets w) [])
    as (due1 & bs1 & kept & -> & Hb1 & Hp1 & Hd1 & Hk); [done|done|constructor|].
  destruct (drain_loop_spec _ (drained w) h (sf ++ due1.*2) bs1 Hb1 eq_refl)
    as (due2 & bs2 & -> & Hp2 & Hd2 & Hb2).
  set (d' := Z.max (drained w) (h + 1)) in *.
  assert (Forall (fun e => d' <= e.1) kept) as Hkd.
  { eapply Forall_impl; [exact Hk|]. cbn. lia. }
  eexists _, (due1 ++ due2). split_and!; cbn [epoch drained].
  - by rewrite fmap_app, app_assoc.
  - split_and!; cbn; [lia|done|done].
  - done.
  - done.
  - unfold entries; cbn [buckets overflow]. cbn in Hp1. rewrite Hp1, Hp2.
    by rewrite <- !app_assoc.
  - by apply Forall_app.
  - unfold entries; cbn [buckets overflow]. apply Forall_app; split.
    + eapply Forall_impl; [by apply Forall_concat_buckets|]. cbn. lia.
    + eapply Forall_impl; [exact Hkd|]. cbn. lia.
Qed.

End WheelFacts.

(** ** The table's invariant *)

Section TableFacts.
Context {K V : Type} `{Countable K}.
Implicit Types (t : UdpFlowTable K V) (w : TimerWheel K) (fl : gmap K (EntryState V)).

(** Every live flow has a wheel entry that surfaces no later than its deadline's
    second, or at the next undrained second. *)
Definition indexed w fl : Prop :=
  forall k e, fl !! k = Some e ->
    exists s, (s, k) ∈ entries w /\ s <= Z.max (TimerWheel_second w (es_deadline e)) (drained w).

Definition flow_values fl : list V := (fun kv : K * EntryState V => es_value kv.2) <$> map_to_list fl.

Lemma TimerWheel_second_epoch w w' i :
  epoch w = epoch w' -> TimerWheel_second w i = TimerWheel_second w' i.
Proof. unfold TimerWheel_second. by intros ->. Qed.

Lemma flow_values_insert k e fl :
  fl !! k = None -> flow_values (<[k := e]> fl) ≡ₚ es_value e :: flow_values fl.
Proof. intros. unfold flow_values. by rewrite map_to_list_insert. Qed.

(** The flows a pass over the surfaced [keys] evicts. *)
Definition due_among (now : Instant) (keys : list K) (kv : K * EntryState V) : Prop :=
  kv.1 ∈ keys /\ es_deadline kv.2 <= now.
#[local] Instance due_among_dec now keys kv : Decision (due_among now keys kv).
Proof. unfold due_among. apply _. Defined.

Lemma due_among_skip now k keys fl :
  (forall e, fl !! k = Some e -> now < es_deadline e) ->
  filter (due_among now (k :: keys)) fl = filter (due_among now keys) fl /\
  filter (fun kv => ~ due_among now (k :: keys) kv) fl
  = filter (fun kv => ~ due_among now keys kv) fl.
Proof.
  intros Hk. unfold due_among. split; apply map_filter_ext; intros k' e He; cbn;
    (destruct (decide (k' = k)) as [->|]; [apply Hk in He|]; set_unfold; lia || naive_solver lia).
Qed.

Lemma due_among_evict now k keys e fl :
  fl !! k = Some e -> es_deadline e <= now ->
  filter (due_among now (k :: keys)) fl
  = <[k := e]> (filter (due_among now keys) (delete k fl)) /\
  filter (fun kv => ~ due_among now (k :: keys) kv) fl
  = filter (fun kv => ~ due_among now keys kv) (delete k fl).
Proof.
  intros Hk Hd. split; apply map_eq; intros k'; apply option_eq; intros e';
    rewrite ?lookup_insert_Some, ?map_lookup_filter_Some, ?lookup_delete_Some;
    unfold due_among; set_unfold; cbn; destruct (decide (k = k')) as [->|]; naive_solver.
Qed.

Lemma expire_keys_spec now keys fl w ex :
  wheel_ok w ->
  exists w' ex',
    foldl (expire_key now) (fl, w, ex) keys
    = (filter (fun kv => ~ due_among now keys kv) fl, w', ex ++ ex') /\
    wheel_ok w' /\ epoch w' = epoch w /\ drained w' = drained w /\
    entries w ⊆ entries w' /\
    (forall k e, k ∈ keys -> fl !! k = Some e -> now < es_deadline e ->
       (Z.max (TimerWheel_second w (es_deadline e)) (drained w), k) ∈ entries w') /\
    ex' ≡ₚ flow_values (filter (due_among now keys) fl).
Proof.
  revert fl w ex. induction keys as [|k keys IH]; intros fl w ex Hok; cbn [foldl].
  { exists w, []. rewrite app_nil_r.
    rewrite (map_filter_id _ fl) by (intros ? ? ?; unfold due_among; set_solver).
    rewrite (proj2 (map_empty_filter (due_among now []) fl)) by (intros ? ? ?; unfold due_among; set_solver).
    split_and!; try done. set_solver. }
  unfold expire_key at 2. destruct (fl !! k) as [e|] eqn:Hk.
  - destruct (es_deadline e <=? now) eqn:Hd; reflect.
    + destruct (due_among_evict now k keys e fl Hk Hd) as [-> ->].
      destruct (IH (delete k fl) w (ex ++ [es_value e]) Hok)
        as (w' & ex' & -> & ? & ? & ? & ? & Hs & Hv).
      exists w', (es_value e :: ex'). split_and!; try done.
      * by rewrite <- app_assoc.
      * intros k' e' Hin He' Hlt. apply Hs; [set_unfold|rewrite lookup_delete_ne|]; naive_solver lia.
      * rewrite flow_values_insert, Hv; [done|].
        rewrite map_lookup_filter, lookup_delete_eq. done.
    + destruct (due_among_skip now k keys fl) as [-> ->]; [naive_solver|].
      destruct (TimerWheel_insert_ok w (es_deadline e) k Hok) as (Hok1 & Hd1 & He1 & Hp1).
      set (w1 := TimerWheel_insert _ _ _) in *.
      destruct (IH fl w1 ex Hok1) as (w' & ex' & -> & ? & ? & ? & Hsub & Hs & Hv).
      exists w', ex'. split_and!; try congruence.
      * intros x Hx. apply Hsub. rewrite Hp1. set_solver.
      * intros k' e' Hin He' Hlt. rewrite <- (TimerWheel_second_epoch w1 w), <- Hd1 by done.
        destruct (decide (k' = k)) as [->|]; [|apply Hs; set_solver].
        apply Hsub. rewrite Hp1, Hk in *. simplify_eq.
        rewrite (TimerWheel_second_epoch w1 w), Hd1 by done. set_solver.
  - destruct (due_among_skip now k keys fl) as [-> ->]; [by rewrite Hk|].
    destruct (IH fl w ex Hok) as (w' & ex' & -> & ? & ? & ? & ? & Hs & Hv).
    exists w', ex'. split_and!; try done. intros k' e' Hin He'. apply Hs; set_solver.
Qed.

(** The invariant of a table whose clock last read [c]. *)
Record table_ok t (c : Instant) : Prop := {
  ok_wheel : wheel_ok (wheel t);
  ok_indexed : indexed (wheel t) (flows t);
  ok_epoch : 0 <= epoch (wheel t) <= c;
  ok_clock : c <= INSTANT_MAX;
  ok_drained : drained (wheel t) <= TimerWheel_second (wheel t) c + 1;
  ok_deadlines : forall k e, flows t !! k = Some e ->
    epoch (wheel t) <= es_deadline e <= c + idle_timeout t /\
    drained (wheel t) - 1 <= TimerWheel_second (wheel t) (es_deadline e);
  ok_ceiling : (size (flows t) <= ceiling t)%nat;
  ok_idle : MIN_IDLE_TIMEOUT <= idle_timeout t;
}.

Lemma table_ok_new idle ceil ep t :
  UdpFlowTable_new idle ceil ep = Ok t -> 0 <= ep <= INSTANT_MAX -> table_ok t ep.
Proof.
  unfold UdpFlowTable_new. case_goal; [done|]. reflect. intros [= <-] Hep.
  split; cbn -[TimerWheel_new]; try done; try lia.
  - apply TimerWheel_new_ok.
  - cbn [epoch TimerWheel_new]. lia.
  - pose proof (TimerWheel_second_nonneg (@TimerWheel_new K ep) ep).
    cbn -[TimerWheel_second] in *. lia.
  - rewrite map_size_empty. lia.
Qed.

Lemma table_ok_clock t c now :
  table_ok t c -> c <= now <= INSTANT_MAX -> table_ok t now.
Proof.
  intros [? ? ? ? ? Hdl ? ?] Hnow.
  pose proof (TimerWheel_second_mono (wheel t) c now). split; try done; try lia.
  intros k e He. destruct (Hdl k e He). lia.
Qed.

(** Dropping flows, or changing values but not deadlines, keeps the invariant. *)
Lemma table_ok_shrink t c fl :
  table_ok t c ->
  (forall k e, fl !! k = Some e ->
     exists e', flows t !! k = Some e' /\ es_deadline e = es_deadline e') ->
  table_ok (mkTable (idle_timeout t) (ceiling t) fl (wheel t)) c.
Proof.
  intros Hok Hfl. destruct Hok as [? Hix ? ? ? Hdl Hce ?]. split; cbn; try done.
  - intros k e (e' & He & ->)%Hfl. eauto.
  - intros k e (e' & He & ->)%Hfl. eauto.
  - etrans; [|exact Hce]. rewrite <- !size_dom. apply subseteq_size.
    intros k. rewrite !elem_of_dom. intros [e (e' & He & _)%Hfl]. by exists e'.
Qed.

Lemma second_of_flow t c now :
  table_ok t c -> c <= now <= INSTANT_MAX ->
  epoch (wheel t) <= now + idle_timeout t /\
  drained (wheel t) - 1 <= TimerWheel_second (wheel t) (now + idle_timeout t).
Proof.
  intros [] ?. unfold MIN_IDLE_TIMEOUT, from_secs, NANOS in *.
  pose proof (TimerWheel_second_mono (wheel t) c (now + idle_timeout t)). lia.
Qed.

Lemma table_ok_get_or_insert t c now key v r t' :
  table_ok t c -> c <= now <= INSTANT_MAX ->
  UdpFlowTable_get_or_insert_with t key now v = Ok (r, t') -> table_ok t' now.
Proof.
  intros Hok Hnow. pose proof (table_ok_clock _ _ _ Hok Hnow) as [? Hix ? ? ? Hdl Hce ?].
  unfold UdpFlowTable_get_or_insert_with, instant_checked_add, checked_add.
  destruct (now + idle_timeout t <=? INSTANT_MAX) eqn:?; [reflect; cbn|done]. destruct (flows t !! key) as [e0|] eqn:Hk.
  - intros [= <- <-]. split; cbn; try done.
    + intros k e [[<- <-]|[? He]]%lookup_insert_Some; cbn; [|eauto].
      destruct (Hix _ _ Hk) as (s & Hs & Hle). exists s. split; [done|].
      destruct (second_of_flow t c now Hok Hnow).
      cbn -[TimerWheel_second] in *. destruct (Hdl _ _ Hk).
      pose proof (TimerWheel_second_mono (wheel t) (es_deadline e0) (now + idle_timeout t)). lia.
    + intros k e [[<- <-]|[? He]]%lookup_insert_Some; [|eauto].
      destruct (second_of_flow t c now Hok Hnow).
      cbn -[TimerWheel_second] in *. lia.
    + rewrite map_size_insert_Some; done.
  - case_goal; [done|reflect]. intros [= <- <-].
    destruct (TimerWheel_insert_ok (wheel t) (now + idle_timeout t) key) as (? & Hd & He & Hp); [done|].
    set (w' := TimerWheel_insert _ _ _) in *.
    assert (forall i, TimerWheel_second w' i = TimerWheel_second (wheel t) i) as Hsec
      by (intros i; by apply TimerWheel_second_epoch).
    split; cbn -[TimerWheel_second]; rewrite ?He, ?Hd, ?Hsec; try done.
    + intros k e [[<- <-]|[? Hke]]%lookup_insert_Some; rewrite Hsec, Hd.
      * eexists. rewrite Hp. split; [by left|]. done.
      * destruct (Hix _ _ Hke) as (s & Hs & Hle). exists s. rewrite Hp. split; [by right|done].
    + intros k e [[<- <-]|[? Hke]]%lookup_insert_Some; rewrite Hsec; [|eauto].
      destruct (second_of_flow t c now Hok Hnow).
      cbn -[TimerWheel_second] in *. lia.
    + rewrite map_size_insert_None by done. lia.
Qed.

(** What one expiry pass leaves, evicts and returns. *)
Lemma UdpFlowTable_expire_ok t c now :
  table_ok t c -> c <= now <= INSTANT_MAX ->
  exists ex t' gone, UdpFlowTable_expire t now = (ex, t') /\ table_ok t' now /\
    flows t = gone ∪ flows t' /\ gone ##ₘ flows t' /\ ex ≡ₚ flow_values gone /\
    map_Forall (fun _ e => es_deadline e <= now) gone /\
    (forall k e, flows t' !! k = Some e -> now < es_deadline e \/
       drained (wheel t) = TimerWheel_second (wheel t) now + 1 /\
       TimerWheel_second (wheel t) now <= TimerWheel_second (wheel t) (es_deadline e)).
Proof.
  intros Hok Hnow. pose proof (table_ok_clock _ _ _ Hok Hnow) as [Hw Hix He ? Hdr Hdl ? ?].
  unfold UdpFlowTable_expire.
  destruct (TimerWheel_take_due_ok (wheel t) now [] Hw)
    as (w1 & due & -> & Hw1 & He1 & Hd1 & Hp & _ & Hlater).
  cbn [app]. set (keys := due.*2). set (h := TimerWheel_second (wheel t) now) in *.
  destruct (expire_keys_spec now keys (flows t) w1 [] Hw1)
    as (w2 & ex & -> & Hw2 & He2 & Hd2 & Hsub & Hre & Hex).
  assert (forall i, TimerWheel_second w2 i = TimerWheel_second (wheel t) i) as Hsec
    by (intros i; apply TimerWheel_second_epoch; congruence).
  (** A flow that was not surfaced is still filed. *)
  assert (forall k s, k ∉ keys -> (s, k) ∈ entries (wheel t) -> (s, k) ∈ entries w1) as Hkept.
  { intros k s Hk. rewrite Hp, elem_of_app. intros [Hin|]; [|done].
    destruct Hk. apply list_elem_of_fmap. by exists (s, k). }
  set (fl' := filter _ (flows t)).
  assert (forall k e, fl' !! k = Some e -> now < es_deadline e \/
    drained (wheel t) = h + 1 /\ h <= TimerWheel_second (wheel t) (es_deadline e)) as Hsurv.
  { intros k e [Hk Hnd]%map_lookup_filter_Some.
    destruct (decide (now < es_deadline e)) as [|Hle]; [by left|right].
    assert (k ∉ keys) as Hnk by (intros Hin; apply Hnd; split; [done|cbn; lia]).
    destruct (Hix _ _ Hk) as (s & Hs & Hsle). apply Hkept in Hs; [|done].
    rewrite Forall_forall in Hlater. apply Hlater in Hs. cbn in Hs.
    pose proof (TimerWheel_second_mono (wheel t) (es_deadline e) now).
    destruct (Hdl _ _ Hk). lia. }
  eexists ex, _, (filter (due_among now keys) (flows t)). split; [done|].
  split_and!; cbn [flows]; try done.
  - split; cbn [wheel flows idle_timeout ceiling]; rewrite ?He2, ?He1, ?Hd2, ?Hd1, ?Hsec; try done; try lia.
    + intros k e Hk. pose proof Hk as [Hk0 Hnd]%map_lookup_filter_Some.
      rewrite Hsec, Hd2. destruct (decide (k ∈ keys)) as [Hin|Hnk].
      * assert (now < es_deadline e) by (apply Z.nle_gt; intros ?; by apply Hnd).
        eexists. split; [by eapply Hre|]. rewrite (TimerWheel_second_epoch w1 (wheel t)) by done. lia.
      * destruct (Hix _ _ Hk0) as (s & Hs & ?). exists s. split; [by apply Hsub, Hkept|]. lia.
    + intros k e Hk. rewrite Hsec. pose proof (Hsurv _ _ Hk).
      apply map_lookup_filter_Some in Hk as [Hk _]. destruct (Hdl _ _ Hk).
      pose proof (TimerWheel_second_mono (wheel t) now (es_deadline e)). lia.
    + etrans; [|done]. apply map_size_filter.
  - symmetry. apply map_filter_union_complement.
  - apply map_disjoint_filter_complement.
  - intros k e [_ [_ ?]]%map_lookup_filter_Some. done.
Qed.

(** ** Runs of a table under a monotonic clock *)

Inductive table_step : UdpFlowTable K V * Instant -> UdpFlowTable K V * Instant -> Prop :=
| step_flow t c now key v r t' :
    c <= now <= INSTANT_MAX ->
    UdpFlowTable_get_or_insert_with t key now v = Ok (r, t') -> table_step (t, c) (t', now)
| step_expire t c now ex t' :
    c <= now <= INSTANT_MAX ->
    UdpFlowTable_expire t now = (ex, t') -> table_step (t, c) (t', now)
| step_retain t c keep n t' :
    UdpFlowTable_retain t keep = (n, t') -> table_step (t, c) (t', c)
| step_update t c key f : table_step (t, c) (UdpFlowTable_update t key f, c).

(** States reached from a table built at [epoch], with the last clock reading. *)
Definition table_reachable t (c : Instant) : Prop :=
  exists idle ceil ep t0, UdpFlowTable_new idle ceil ep = Ok t0 /\ 0 <= ep <= INSTANT_MAX /\
    rtc table_step (t0, ep) (t, c).

Lemma table_step_ok s s' : table_step s s' -> table_ok s.1 s.2 -> table_ok s'.1 s'.2.
Proof.
  intros Hstep Hok. destruct Hstep; cbn in *.
  - by eapply table_ok_get_or_insert.
  - destruct (UdpFlowTable_expire_ok t c now) as (? & ? & ? & E & ? & _); [done..|congruence].
  - unfold UdpFlowTable_retain in *. simplify_eq. apply table_ok_shrink; [done|].
    intros k e. rewrite map_lookup_imap. intros (e0 & -> & Hk)%bind_Some.
    apply fmap_Some in Hk as (v & _ & ->). by exists e0.
  - apply table_ok_shrink; [done|]. intros k e.
    rewrite lookup_alter. case_decide; [|eauto]. intros (e0 & He0 & ->)%fmap_Some.
    exists e0. by subst.
Qed.

Lemma table_reachable_ok t c : table_reachable t c -> table_ok t c.
Proof.
  intros (idle & ceil & ep & t0 & Hnew & Hep & Hrtc).
  apply (rtc_ind_r (fun s => table_ok s.1 s.2) (t0, ep)) in Hrtc; [done| |].
  - by eapply table_ok_new.
  - intros s s' _ Hs. by apply table_step_ok.
Qed.

(** C12: on any run under a monotonic clock, [expire] never evicts early and
    never loses a flow: it splits the live flows into the evicted ones, all due,
    whose values are exactly the returned vector, and the survivors.  A survivor
    is overdue by less than one second, and by nothing at all when no earlier
    pass drained the current second. *)
Theorem expire_exact t c now :
  table_reachable t c -> c <= now <= INSTANT_MAX ->
  let '(expired, t') := UdpFlowTable_expire t now in
  exists gone,
    flows t = gone ∪ flows t' /\ gone ##ₘ flows t' /\ expired ≡ₚ flow_values gone /\
    map_Forall (fun _ e => es_deadline e <= now) gone /\
    map_Forall (fun _ e => now < es_deadline e + NANOS) (flows t') /\
    (drained (wheel t) <= TimerWheel_second (wheel t) now ->
     map_Forall (fun _ e => now < es_deadline e) (flows t')).
Proof.
  intros Hok%table_reachable_ok Hnow.
  destruct (UdpFlowTable_expire_ok t c now) as (ex & t' & gone & -> & _ & Hu & ? & ? & ? & Hs); [done..|].
  exists gone. split_and!; try done.
  - intros k e Hk. destruct (Hs k e Hk) as [|[_ Hsec]]; [unfold NANOS; lia|].
    assert (flows t !! k = Some e) as Hk'.
    { rewrite Hu. by apply lookup_union_Some_r. }
    destruct Hok as [_ _ ? ? _ Hdl _ _]. destruct (Hdl _ _ Hk') as [[] _].
    unfold TimerWheel_second, as_secs, saturating_duration_since, saturating_sub,
      INSTANT_MAX, U64_MAX, NANOS in *. zdiv_lia.
  - intros ? k e Hk. destruct (Hs k e Hk); lia.
Qed.

(** on any run, the table holds at most [ceiling] flows, its wheel keeps its
    512-bucket layout, and every live flow is filed under a second that the wheel
    drains no later than its deadline's. *)
Theorem table_invariant t c :
  table_reachable t c ->
  (UdpFlowTable_len t <= ceiling t)%nat /\ wheel_ok (wheel t) /\
  forall k e, flows t !! k = Some e -> exists s, (s, k) ∈ entries (wheel t) /\
    s <= Z.max (TimerWheel_second (wheel t) (es_deadline e)) (drained (wheel t)).
Proof. intros [? Hix _ _ _ _ ? _]%table_reachable_ok. done. Qed.

(** [get_or_insert_with] on every branch: a deadline past the clock is
    refused; a live flow keeps its value, is refreshed to [now + idle_timeout]
    even at the ceiling, and adds no wheel entry; a new flow is refused at the
    ceiling and otherwise opened with the created value; nothing else changes. *)
Theorem get_or_insert_with_spec t key now v :
  match UdpFlowTable_get_or_insert_with t key now v with
  | Err DeadlineOverflow => INSTANT_MAX < now + idle_timeout t
  | Err AtCeiling => flows t !! key = None /\ (ceiling t <= UdpFlowTable_len t)%nat
  | Err IdleTimeoutTooShort => False
  | Ok (r, t') =>
      flows t' = <[key := mkEntry r (now + idle_timeout t)]> (flows t) /\
      UdpFlowTable_get t' key = Some r /\ ceiling t' = ceiling t /\
      match UdpFlowTable_get t key with
      | Some old => r = old /\ wheel t' = wheel t
      | None => r = v /\ (UdpFlowTable_len t < ceiling t)%nat /\
                UdpFlowTable_len t' = S (UdpFlowTable_len t)
      end
  | Panic => False
  end.
Proof.
  unfold UdpFlowTable_get_or_insert_with, instant_checked_add, checked_add, UdpFlowTable_get,
    UdpFlowTable_len.
  destruct (now + idle_timeout t <=? INSTANT_MAX) eqn:E; reflect; cbn; [|lia].
  destruct (flows t !! key) as [e|] eqn:Hk; cbn -[size].
  { by rewrite lookup_insert_eq. }
  destruct (_ <=? _)%nat eqn:Hf; reflect; [done|]. cbn -[size].
  rewrite lookup_insert_eq, map_size_insert_None by done. done.
Qed.

(** With nothing in [overflow], [next_due] finds the first occupied second. *)
Lemma next_due_bound w s k :
  wheel_ok w -> overflow w = [] -> (s, k) ∈ entries w ->
  exists n, TimerWheel_next_due w = Some n /\ n <= s.
Proof.
  intros (H0 & [Hlen Hb] & _) Ho. unfold entries. rewrite Ho, app_nil_r. intros Hin.
  apply list_elem_of_In, in_concat in Hin as (b & Hbin & Hsb).
  apply list_elem_of_In, list_elem_of_lookup in Hbin as [i Hi].
  apply list_elem_of_In in Hsb. pose proof (Hb _ _ Hi) as Hbi. rewrite Forall_forall in Hbi.
  destruct (Hbi _ Hsb) as [Eidx Hwin]. cbn in Eidx, Hwin.
  unfold TimerWheel_next_due.
  set (p := fun second => match TimerWheel_bucket w second with [] => false | _ => true end).
  assert (p s = true) as Hp.
  { unfold p, TimerWheel_bucket. rewrite Eidx, Hi. cbn. by destruct b; [set_solver|]. }
  assert (forall a n, a <= s < a + n -> exists m, List.find p (seqZ a n) = Some m /\ m <= s) as Hfind.
  { intros a n. remember (Z.to_nat n) as f eqn:Ef. revert a n Ef.
    induction f as [|f IH]; intros a n Ef Hr; [lia|].
    rewrite seqZ_cons by lia. cbn [List.find]. destruct (p a) eqn:Ea; [exists a; split; [done|lia]|].
    destruct (decide (a = s)) as [->|]; [congruence|].
    apply (IH (Z.succ a) (Z.pred n)); lia. }
  destruct (Hfind _ _ Hwin) as (m & -> & ?). by exists m.
Qed.

(** while no entry waits in [overflow], [next_deadline] answers an instant no
    more than one second past the deadline of any live flow. *)
Theorem next_deadline_bound t c k e :
  table_reachable t c -> overflow (wheel t) = [] -> flows t !! k = Some e ->
  exists d, UdpFlowTable_next_deadline t = Some d /\ d <= es_deadline e + NANOS.
Proof.
  intros [Hw Hix ? ? _ Hdl _ _]%table_reachable_ok Ho Hk.
  destruct (Hix _ _ Hk) as (s & Hs & Hle). destruct (Hdl _ _ Hk) as [[] ?].
  destruct (next_due_bound _ _ _ Hw Ho Hs) as (n & Hn & ?).
  unfold UdpFlowTable_next_deadline. rewrite Hn. cbn. eexists. split; [done|].
  unfold TimerWheel_second, as_secs, saturating_duration_since, saturating_sub,
    INSTANT_MAX, U64_MAX, from_secs, NANOS in *. zdiv_lia.
Qed.

End TableFacts.

(** ** A concrete run

    One flow opened at 10 s and another at 70 s on a table built at time zero. *)

Definition sample_table : UdpFlowTable Z Z :=
  mkTable (from_secs 120) 8 ∅ (TimerWheel_new 0).
Definition after_flow (t : UdpFlowTable Z Z) (key now v : Z) : UdpFlowTable Z Z :=
  match UdpFlowTable_get_or_insert_with t key now v with
  | Ok (_, t') => t'
  | _ => t
  end.
Definition two_flows : UdpFlowTable Z Z :=
  after_flow (after_flow sample_table 1 (from_secs 10) 100) 2 (from_secs 70) 200.

Lemma two_flows_reachable : table_reachable two_flows (from_secs 70).
Proof.
  exists (from_secs 120), 8%nat, 0, sample_table. split_and!; [done|done|done|].
  eapply rtc_l; [eapply (step_flow _ 0 (from_secs 10) 1 100)|];
    [unfold from_secs, INSTANT_MAX, NANOS; lia|vm_compute; reflexivity|].
  apply rtc_once. eapply (step_flow _ _ (from_secs 70) 2 200);
    [unfold from_secs, INSTANT_MAX, NANOS; lia|vm_compute; reflexivity].
Qed.

Lemma expire_exact_witness :
  let '(expired, t') := UdpFlowTable_expire two_flows (from_secs 130) in
  exists gone,
    flows two_flows = gone ∪ flows t' /\ gone ##ₘ flows t' /\ expired ≡ₚ flow_values gone /\
    map_Forall (fun _ e => es_deadline e <= from_secs 130) gone /\
    map_Forall (fun _ e => from_secs 130 < es_deadline e + NANOS) (flows t') /\
    (drained (wheel two_flows) <= TimerWheel_second (wheel two_flows) (from_secs 130) ->
     map_Forall (fun _ e => from_secs 130 < es_deadline e) (flows t')).
Proof.
  apply (expire_exact two_flows (from_secs 70) (from_secs 130)); [apply two_flows_reachable|].
  unfold from_secs, INSTANT_MAX, NANOS. lia.
Defined.

Lemma table_invariant_witness :
  (UdpFlowTable_len two_flows <= ceiling two_flows)%nat /\ wheel_ok (wheel two_flows) /\
  forall k e, flows two_flows !! k = Some e -> exists s, (s, k) ∈ entries (wheel two_flows) /\
    s <= Z.max (TimerWheel_second (wheel two_flows) (es_deadline e)) (drained (wheel two_flows)).
Proof. apply (table_invariant two_flows (from_secs 70)). apply two_flows_reachable. Defined.

Example two_flows_expire :
  (UdpFlowTable_expire two_flows (from_secs 130)).1 = [100].
Proof. vm_compute. reflexivity. Qed.

Lemma next_deadline_bound_witness :
  exists d, UdpFlowTable_next_deadline two_flows = Some d /\ d <= from_secs 130 + NANOS.
Proof.
  apply (next_deadline_bound two_flows (from_secs 70) 1 (mkEntry 100 (from_secs 130)));
    [apply two_flows_reachable|vm_compute; reflexivity..].
Defined.

(** A flow opened after a long idle spell, and one expiry pass in that second. *)
Definition idle_then_flow : UdpFlowTable Z Z :=
  (UdpFlowTable_expire (after_flow sample_table 1 (from_secs 10000) 100) (from_secs 10000)).2.

(** with an entry in [overflow] the bound fails: on this run the only live
    flow is due at 10120 s and [next_deadline] answers 10513 s, 393 s late. *)
Theorem next_deadline_late :
  exists t c k e d, table_reachable (V := Z) (K := Z) t c /\ flows t !! k = Some e /\
    c < es_deadline e /\ UdpFlowTable_next_deadline t = Some d /\
    d = es_deadline e + from_secs 393.
Proof.
  exists idle_then_flow, (from_secs 10000), 1, (mkEntry 100 (from_secs 10120)), (from_secs 10513).
  split_and!; [|vm_compute; reflexivity..].
  exists (from_secs 120), 8%nat, 0, sample_table. split_and!; [done|done|done|].
  eapply rtc_l; [eapply (step_flow _ 0 (from_secs 10000) 1 100)|];
    [unfold from_secs, INSTANT_MAX, NANOS; lia|vm_compute; reflexivity|].
  apply rtc_once. eapply (step_expire _ _ (from_secs 10000));
    [unfold from_secs, INSTANT_MAX, NANOS; lia|vm_compute; reflexivity].
Qed.
