(* ===== verification/Path.v ===== *)
(** Path MTU decisions of [src/l3/path.rs]: clamping a TCP SYN's maximum segment
    size in place, and authenticating ICMP Packet Too Big messages against the
    flow table. *)

From S2P Require Import Prelude Wire Net Plan Packet Udp.
Open Scope Z_scope.

(** ** TCP options *)

Definition OPTION_END : Z := 0.
Definition OPTION_NOOP : Z := 1.
Definition OPTION_MSS : Z := 2.
Definition FLAG_SYN : Z := 0x02.

(** [at] is the payload's offset within the segment. *)
Record TcpOption := mkOption { opt_kind : Z; opt_at : nat; opt_value : bytes }.

(** One [next] of the iterator.  Every round consumes a byte, so the number of
    option bytes is fuel enough. *)
Fixpoint next_option (fuel : nat) (reader : Reader) : option (TcpOption * Reader) :=
  match fuel with
  | O => None
  | S fuel =>
      '(kind, reader) ← Reader_u8 reader;
      if kind =? OPTION_END then None
      else if kind =? OPTION_NOOP then next_option fuel reader
      else
        '(len, reader) ← Reader_u8 reader;
        length ← checked_sub len 2;
        let at_ := (20 + Reader_position reader)%nat in
        '(value, reader) ← Reader_take reader (Z.to_nat length);
        Some (mkOption kind at_ value, reader)
  end.

(** The iterator run to its end. *)
Fixpoint collect_options (fuel : nat) (reader : Reader) : list TcpOption :=
  match fuel with
  | O => []
  | S fuel' =>
      match next_option fuel reader with
      | Some (option, reader) => option :: collect_options fuel' reader
      | None => []
      end
  end.

Definition tcp_options (segment : bytes) : list TcpOption :=
  let header_len := (Z.to_nat (Z.shiftr (default 0%Z (segment !! 12%nat)) 4) * 4)%nat in
  let options := default [] (get_range segment 20 header_len) in
  collect_options (S (length options)) (Reader_new options).

Definition mss_above (segment : bytes) (clamp : Z) : option nat :=
  match segment !! 13%nat with
  | None => None
  | Some flags =>
      if Z.land flags FLAG_SYN =? 0 then None
      else
        mss ← List.find (fun o => opt_kind o =? OPTION_MSS) (tcp_options segment);
        '(advertised, _) ← Reader_u16 (Reader_new (opt_value mss));
        if clamp <? advertised then Some (opt_at mss) else None
  end.

(** ** Clamping *)

(** [packet[a..b]], which panics out of range. *)
Definition range {E} (packet : bytes) (a b : nat) : Res E bytes := or_panic (get_range packet a b).

Definition clamp_ipv4 {E} (packet : bytes) (clamp : Z) : Res E (bool * bytes) :=
  first ← byte_at packet 0;
  let ihl := (Z.to_nat (Z.land first 0x0f) * 4)%nat in
  if (ihl <? 20)%nat then Ok (false, packet)
  else if (length packet <? ihl + 20)%nat then Ok (false, packet)
  else
    protocol ← byte_at packet 9;
    if negb (protocol =? 6) then Ok (false, packet) else
    hi ← byte_at packet 2;
    lo ← byte_at packet 3;
    let total := Z.to_nat (be_value [hi; lo]) in
    if (length packet <? total)%nat || (total <? ihl + 20)%nat then Ok (false, packet) else
    segment ← range packet ihl total;
    match (fun at_ => ihl + at_)%nat <$> mss_above segment clamp with
    | None => Ok (false, packet)
    | Some mss_at =>
        packet ← or_panic (put mss_at (be_bytes 2 clamp) packet);
        let tcp_len := wrap 16 (Z.of_nat (total - ihl)) in
        packet ← or_panic (put (ihl + 16) [0; 0] packet);
        source ← range packet 12 16;
        destination ← range packet 16 20;
        segment ← range packet ihl total;
        let sum := checksum [source; destination; [0; 6]; be_bytes 2 tcp_len; segment] in
        packet ← or_panic (put (ihl + 16) (be_bytes 2 sum) packet);
        Ok (true, packet)
    end.

Definition clamp_ipv6 {E} (packet : bytes) (clamp : Z) : Res E (bool * bytes) :=
  if (length packet <? 60)%nat then Ok (false, packet)
  else
    next ← byte_at packet 6;
    if negb (next =? 6) then Ok (false, packet) else
    hi ← byte_at packet 4;
    lo ← byte_at packet 5;
    let payload_len := Z.to_nat (be_value [hi; lo]) in
    let total := (40 + payload_len)%nat in
    if (length packet <? total)%nat then Ok (false, packet) else
    segment ← range packet 40 total;
    match (fun at_ => 40 + at_)%nat <$> mss_above segment clamp with
    | None => Ok (false, packet)
    | Some mss_at =>
        packet ← or_panic (put mss_at (be_bytes 2 clamp) packet);
        packet ← or_panic (put 56 [0; 0] packet);
        source ← range packet 8 24;
        destination ← range packet 24 40;
        segment ← range packet 40 total;
        let sum := checksum [source; destination; be_bytes 4 (wrap 32 (Z.of_nat payload_len));
                             [0; 0; 0; 6]; segment] in
        packet ← or_panic (put 56 (be_bytes 2 sum) packet);
        Ok (true, packet)
    end.

Definition clamp_mss {E} (packet : bytes) (inner_mtu : Mtu) : Res E (bool * bytes) :=
  match packet with
  | [] => Ok (false, packet)
  | version :: _ =>
      if Z.shiftr version 4 =? 4 then clamp_ipv4 packet (saturating_sub (Mtu_get inner_mtu) 40)
      else if Z.shiftr version 4 =? 6 then clamp_ipv6 packet (saturating_sub (Mtu_get inner_mtu) 60)
      else Ok (false, packet)
  end.

(** ** Packet Too Big *)

Record PathUpdate := mkPathUpdate { next_hop_mtu : Z }.

Definition validate_ptb {V} (quoted : IngressPacket) (offered_mtu : Z)
    (flows : UdpFlowTable FlowKey V) : option PathUpdate :=
  if offered_mtu <? MIN_QUIC_MTU then None
  else
    key ← match transport quoted with
          | Udp source_port _ => Some (Mapping (mkEndpoint (source quoted) source_port))
          | Tcp source_port destination_port =>
              Some (Connection (mkEndpoint (source quoted) source_port)
                               (mkEndpoint (destination quoted) destination_port))
          | Icmp _ | Other | Fragmented => None
          end;
    if UdpFlowTable_contains flows key then Some (mkPathUpdate offered_mtu) else None.

(** ** The option scan *)

Lemma next_option_bounds fuel r o r' :
  next_option fuel r = Some (o, r') ->
  (20 + r_at r + 2 <= opt_at o)%nat /\
  (opt_at o + length (opt_value o) = 20 + r_at r')%nat /\
  (r_at r' <= length (r_bytes r))%nat /\ r_bytes r' = r_bytes r /\
  opt_value o = slice (opt_at o - 20) (r_at r') (r_bytes r).
Proof.
  revert r. induction fuel as [|fuel IH]; intros r; cbn [next_option]; [done|].
  intros ([k r1] & (H1 & _ & ->)%Reader_uint_Some & Hn)%bind_Some.
  destruct (k =? OPTION_END); [done|]. destruct (k =? OPTION_NOOP).
  { destruct (IH _ Hn) as (? & ? & ? & ? & ?). cbn in *. split_and!; try done; lia. }
  apply bind_Some in Hn as ([len r2] & (H2 & _ & ->)%Reader_uint_Some & Hn).
  apply bind_Some in Hn as (n & _ & Hn).
  apply bind_Some in Hn as ([v r3] & (H3 & -> & ->)%Reader_take_Some & [= <- <-]).
  cbn [r_at r_bytes opt_at opt_value Reader_position] in *. unfold Reader_position; cbn [r_at].
  assert (length (take (Z.to_nat n) (drop (r_at r + 1 + 1) (r_bytes r))) = Z.to_nat n) as Hl
    by (rewrite length_take, length_drop; lia).
  rewrite Hl. split_and!; try done; try lia.
  unfold slice. do 2 f_equal; lia.
Qed.

(** More fuel than option bytes changes nothing: the scan has reached its end. *)
Lemma next_option_fuel f f' r :
  (Reader_remaining r < f)%nat -> (Reader_remaining r < f')%nat ->
  next_option f r = next_option f' r.
Proof.
  revert f' r. induction f as [|f IH]; intros [|f'] r Hf Hf'; [lia..|]. cbn [next_option].
  destruct (Reader_u8 r) as [[k r1]|] eqn:E; [|done]. cbn.
  apply Reader_uint_Some in E as (H1 & _ & ->).
  destruct (k =? OPTION_END); [done|]. destruct (k =? OPTION_NOOP); [|done].
  unfold Reader_remaining in *. cbn in *. apply IH; cbn; lia.
Qed.

Lemma collect_options_fuel f f' r :
  (Reader_remaining r < f)%nat -> (Reader_remaining r < f')%nat ->
  collect_options f r = collect_options f' r.
Proof.
  revert f' r. induction f as [|f IH]; intros [|f'] r Hf Hf'; [lia..|]. cbn [collect_options].
  rewrite (next_option_fuel (S f) (S f') r) by done.
  destruct (next_option (S f') r) as [[o r']|] eqn:E; [|done]. f_equal.
  apply next_option_bounds in E as (? & ? & ? & Hb & _).
  unfold Reader_remaining in *. apply IH; unfold Reader_remaining; rewrite Hb; lia.
Qed.

(** Every option lies inside the segment, after the fixed header. *)
Lemma tcp_options_bounds segment o :
  o ∈ tcp_options segment ->
  (22 <= opt_at o)%nat /\ (opt_at o + length (opt_value o) <= length segment)%nat /\
  opt_value o = slice (opt_at o) (opt_at o + length (opt_value o)) segment.
Proof.
  unfold tcp_options. set (hl := (_ * 4)%nat).
  destruct (get_range segment 20 hl) as [options|] eqn:E; cbn [default].
  2:{ cbn. set_solver. }
  pose proof (length_get_range _ _ _ _ E) as Hlen. apply get_range_Some in E as [Hb Hopt].
  assert (forall f r, r_bytes r = options -> o ∈ collect_options f r ->
    (22 <= opt_at o)%nat /\ (opt_at o + length (opt_value o) <= 20 + length options)%nat /\
    opt_value o = slice (opt_at o - 20) (opt_at o - 20 + length (opt_value o)) options) as Hin.
  { induction f as [|f IH]; intros r Hr Hin; [set_solver|]. cbn [collect_options] in Hin.
    destruct (next_option (S f) r) as [[o1 r1]|] eqn:En; [|set_solver].
    apply next_option_bounds in En as (? & ? & ? & Hb1 & Hv). rewrite Hr in *.
    apply elem_of_cons in Hin as [->|Hin]; [|by eapply IH].
    split_and!; [lia..|]. rewrite Hv at 1. f_equal. lia. }
  intros (? & ? & Hv)%Hin; [|done]. split_and!; [done|lia|].
  rewrite Hv at 1. apply list_eq. intros i. rewrite Hopt. unfold slice.
  destruct (decide (i < length (opt_value o))%nat).
  - rewrite !lookup_take_lt, !lookup_drop, lookup_take_lt, lookup_drop by lia. f_equal. lia.
  - rewrite !lookup_ge_None_2; [done|rewrite length_take; lia..].
Qed.

(** What a found MSS is: two bytes inside the segment that read above the clamp. *)
Lemma mss_above_Some segment clamp at_ :
  mss_above segment clamp = Some at_ ->
  (22 <= at_)%nat /\ (at_ + 2 <= length segment)%nat /\
  clamp < be_value (slice at_ (at_ + 2) segment).
Proof.
  unfold mss_above. destruct (segment !! _) as [flags|]; [|done]. destruct (_ =? 0); [done|].
  intros (o & [Ho _]%find_some & Hr)%bind_Some. apply list_elem_of_In in Ho.
  apply tcp_options_bounds in Ho as (? & ? & Hv).
  apply bind_Some in Hr as ([v r] & (Hb & -> & _)%Reader_uint_Some & Hc).
  cbn [r_at r_bytes Reader_new drop] in *. destruct (clamp <? _) eqn:E; [|done]. reflect.
  injection Hc as <-. split_and!; [lia..|]. rewrite Hv in E. unfold slice in *.
  rewrite drop_0, take_take in E. replace (2 `min` _)%nat with 2%nat in E by lia.
  replace (opt_at o + 2 - opt_at o)%nat with 2%nat by lia. done.
Qed.

(** ** What a clamp writes *)

(** The pseudo-header the TCP checksum covers, from the packet itself. *)
Definition tcp_pseudo (packet : bytes) (hdr total : nat) : bytes :=
  if Z.shiftr (default 0%Z (packet !! 0%nat)) 4 =? 4
  then slice 12 16 packet ++ slice 16 20 packet ++ [0; 6] ++ be_bytes 2 (Z.of_nat (total - hdr))
  else slice 8 24 packet ++ slice 24 40 packet ++ be_bytes 4 (Z.of_nat (total - hdr)) ++ [0; 0; 0; 6].

(** [packet'] is [packet] with its advertised MSS lowered to [clamp] and the TCP
    checksum made good; [hdr] and [total] delimit the TCP segment. *)
Definition clamped (packet packet' : bytes) (clamp : Z) : Prop :=
  exists hdr total mss_at,
    (20 <= hdr)%nat /\ (hdr + 22 <= mss_at)%nat /\ (mss_at + 2 <= total <= length packet)%nat /\
    clamp < be_value (slice mss_at (mss_at + 2) packet) /\
    slice mss_at (mss_at + 2) packet' = be_bytes 2 clamp /\
    length packet' = length packet /\
    (forall i, ~ (mss_at <= i < mss_at + 2)%nat -> ~ (hdr + 16 <= i < hdr + 18)%nat ->
       packet' !! i = packet !! i) /\
    checksum [tcp_pseudo packet' hdr total ++ slice hdr total packet'] = 0.

(** The two writes and the summing of the zeroed segment, for any even
    pseudo-header of at most 40 bytes. *)
Lemma clamp_writes packet hdr total mss_at clamp pseudo :
  bytes_ok packet -> bytes_ok pseudo -> Nat.Even (length pseudo) -> (length pseudo <= 40)%nat ->
  (hdr + 22 <= mss_at)%nat -> (mss_at + 2 <= total <= length packet)%nat -> Z.of_nat total <= 65575 ->
  let p2 := splice (hdr + 16) [0; 0] (splice mss_at (be_bytes 2 clamp) packet) in
  let sum := checksum [pseudo ++ slice hdr total p2] in
  let p3 := splice (hdr + 16) (be_bytes 2 sum) p2 in
  length p2 = length packet /\ length p3 = length packet /\
  slice mss_at (mss_at + 2) p3 = be_bytes 2 clamp /\
  (forall i, ~ (mss_at <= i < mss_at + 2)%nat -> ~ (hdr + 16 <= i < hdr + 18)%nat ->
     p3 !! i = packet !! i) /\
  (forall a b, (b <= hdr)%nat -> slice a b p2 = slice a b packet /\ slice a b p3 = slice a b packet) /\
  checksum [pseudo ++ slice hdr total p3] = 0.
Proof.
  intros Hok Hpok Heven Hplen Hm Ht Hmax p2 sum p3.
  assert (length (be_bytes 2 clamp) = 2%nat /\ length (be_bytes 2 sum) = 2%nat) as [Lc Ls]
    by (rewrite !length_be_bytes; done).
  set (p1 := splice mss_at (be_bytes 2 clamp) packet) in *.
  assert (length p1 = length packet) as L1 by (apply length_splice; lia).
  assert (length p2 = length packet) as L2 by (unfold p2; rewrite length_splice; cbn; lia).
  assert (length p3 = length packet) as L3 by (unfold p3; rewrite length_splice; lia).
  assert (bytes_ok p1) as Hok1 by (apply splice_ok; auto with boreas).
  assert (forall a b, (b <= hdr + 16 \/ hdr + 18 <= a)%nat -> slice a b p2 = slice a b p1) as E21
    by (intros; unfold p2; apply slice_splice_disjoint; cbn [length]; lia).
  assert (forall a b, (b <= hdr + 16 \/ hdr + 18 <= a)%nat -> slice a b p3 = slice a b p2) as E3
    by (intros; unfold p3; apply slice_splice_disjoint; lia).
  split_and!; [done|done| | | |].
  - rewrite E3, E21 by lia. unfold p1. rewrite slice_splice_inside by lia. rewrite Lc.
    unfold slice. rewrite !Nat.sub_diag. cbn [take app]. by rewrite app_nil_r.
  - intros i H1 H2. unfold p3. rewrite lookup_splice, decide_False by lia.
    unfold p2. rewrite lookup_splice, decide_False by (cbn [length]; lia).
    unfold p1. rewrite lookup_splice, decide_False by lia. done.
  - intros a b Hb. rewrite E3, E21 by lia. unfold p1.
    rewrite slice_splice_disjoint by lia. done.
  - assert (sum = checksum [(pseudo ++ slice hdr (hdr + 16) p1) ++ [0; 0] ++ slice (hdr + 16 + 2) total p1])
      as Hsum by (unfold sum, p2; rewrite slice_splice_inside by (cbn [length]; lia);
                  by rewrite <- app_assoc).
    unfold p3. rewrite slice_splice_inside by lia. rewrite Ls, !E21, app_assoc by lia.
    apply header_checksum_verifies; try done.
    + rewrite length_app, length_slice by lia. destruct Heven as [k ->]. exists (k + 8)%nat. lia.
    + apply Forall_app; auto using slice_ok.
    + by apply slice_ok.
    + rewrite length_app, !length_slice by lia. unfold CHECKSUM_MAX. lia.
Qed.

Lemma byte_at_ok {E} packet i :
  bytes_ok packet -> (i < length packet)%nat ->
  exists b, packet !! i = Some b /\ @byte_at E packet i = Ok b /\ byte_ok b.
Proof.
  intros Hok Hi. destruct (lookup_lt_is_Some_2 packet i Hi) as [b Hb].
  exists b. unfold byte_at. rewrite Hb. split_and!; try done. by eapply Forall_lookup_1.
Qed.

Lemma range_ok {E} (packet : bytes) a b :
  (a <= b <= length packet)%nat -> @range E packet a b = Ok (slice a b packet).
Proof. intros. unfold range. by rewrite get_range_slice. Qed.

Lemma put_ok {E A} at_ (xs l : list A) :
  (at_ + length xs <= length l)%nat -> @or_panic E _ (put at_ xs l) = Ok (splice at_ xs l).
Proof. intros. by rewrite put_in_bounds. Qed.

Lemma mss_found packet hdr total clamp at_ :
  (hdr <= total <= length packet)%nat -> mss_above (slice hdr total packet) clamp = Some at_ ->
  (hdr + 22 <= hdr + at_)%nat /\ (hdr + at_ + 2 <= total)%nat /\
  clamp < be_value (slice (hdr + at_) (hdr + at_ + 2) packet).
Proof.
  intros Hb (H1 & H2 & H3)%mss_above_Some. rewrite length_slice in H2 by lia.
  split_and!; [lia..|]. erewrite (f_equal be_value); [exact H3|].
  apply list_eq. intros i. destruct (decide (i < 2)%nat).
  - rewrite !lookup_slice by lia. f_equal. lia.
  - rewrite !lookup_ge_None_2; [done|unfold slice; rewrite length_take; lia..].
Qed.

Lemma be_value_pair_bound h l : byte_ok h -> byte_ok l -> 0 <= be_value [h; l] <= 65535.
Proof.
  intros Hh Hl. pose proof (be_value_bound [h; l]) as Hb. cbn [length] in Hb.
  change (2 ^ (8 * Z.of_nat 2)) with 65536 in Hb.
  rewrite !Forall_cons in Hb. specialize (Hb ltac:(auto)). lia.
Qed.

Lemma clamp_ipv4_ok {E} packet clamp :
  bytes_ok packet -> (0 < length packet)%nat ->
  Z.shiftr (default 0%Z (packet !! 0%nat)) 4 = 4 ->
  match @clamp_ipv4 E packet clamp with
  | Ok (true, packet') => clamped packet packet' clamp
  | Ok (false, packet') => packet' = packet
  | _ => False
  end.
Proof.
  intros Hok Hne Hver. unfold clamp_ipv4.
  destruct (@byte_at_ok E packet 0 Hok) as (first & _ & -> & _); [lia|].
  cbn [mbind Res_bind fmap option_fmap option_map]. set (ihl := (_ * 4)%nat).
  destruct (ihl <? 20)%nat eqn:E1; [done|]. destruct (_ <? ihl + 20)%nat eqn:E2; [done|]. reflect.
  destruct (@byte_at_ok E packet 9 Hok) as (proto & _ & -> & _); [lia|].
  cbn [mbind Res_bind fmap option_fmap option_map]. destruct (negb _); [done|].
  destruct (@byte_at_ok E packet 2 Hok) as (hi & _ & -> & Hhi); [lia|].
  destruct (@byte_at_ok E packet 3 Hok) as (lo & _ & -> & Hlo); [lia|].
  cbn [mbind Res_bind fmap option_fmap option_map]. pose proof (be_value_pair_bound _ _ Hhi Hlo) as Htot.
  set (total := Z.to_nat _). destruct (_ || _) eqn:E3; [done|]. reflect.
  rewrite range_ok by lia. cbn [mbind Res_bind fmap option_fmap option_map].
  destruct (mss_above _ clamp) as [at_|] eqn:Hmss; [|done].
  apply mss_found in Hmss as (M1 & M2 & M3); [|lia].
  cbn [mbind Res_bind fmap option_fmap option_map].
  set (pseudo := slice 12 16 packet ++ slice 16 20 packet ++ [0; 6] ++
                 be_bytes 2 (Z.of_nat (total - ihl))).
  assert (length pseudo = 12)%nat as Hpl
    by (unfold pseudo; rewrite !length_app, !length_slice, length_be_bytes by lia; done).
  destruct (clamp_writes packet ihl total (ihl + at_) clamp pseudo)
    as (L2 & L3 & Hslot & Hsame & Hhdr & Hsum); try done; try lia.
  { unfold pseudo. rewrite !Forall_app. split_and!; auto using slice_ok, be_bytes_ok.
    repeat constructor; done. }
  { rewrite Hpl. by exists 6%nat. }
  rewrite put_ok by (rewrite length_be_bytes; lia). cbn [mbind Res_bind fmap option_fmap option_map].
  rewrite put_ok by (rewrite length_splice; rewrite ?length_be_bytes; cbn; lia).
  cbn [mbind Res_bind fmap option_fmap option_map]. rewrite !range_ok by lia.
  cbn [mbind Res_bind fmap option_fmap option_map].
  rewrite checksum_concat. unfold wrap. rewrite Z.mod_small by (change (2 ^ 16) with 65536; lia).
  destruct (Hhdr 12%nat 16%nat) as [-> H12]; [lia|]. destruct (Hhdr 16%nat 20%nat) as [-> H16]; [lia|].
  replace (concat _) with (pseudo ++ slice ihl total (splice (ihl + 16) [0; 0]
    (splice (ihl + at_) (be_bytes 2 clamp) packet)))
    by (unfold pseudo; cbn [concat]; by rewrite app_nil_r, <- !app_assoc).
  rewrite put_ok by (rewrite length_be_bytes; lia). cbn [mbind Res_bind fmap option_fmap option_map].
  exists ihl, total, (ihl + at_)%nat. split_and!; try done; try lia.
  unfold tcp_pseudo. rewrite Hsame, Hver by lia. cbn [Z.eqb Pos.eqb]. rewrite H12, H16. exact Hsum.
Qed.

Lemma clamp_ipv6_ok {E} packet clamp :
  bytes_ok packet -> Z.shiftr (default 0%Z (packet !! 0%nat)) 4 = 6 ->
  match @clamp_ipv6 E packet clamp with
  | Ok (true, packet') => clamped packet packet' clamp
  | Ok (false, packet') => packet' = packet
  | _ => False
  end.
Proof.
  intros Hok Hver. unfold clamp_ipv6. destruct (_ <? 60)%nat eqn:E1; [done|]. reflect.
  destruct (@byte_at_ok E packet 6 Hok) as (next & _ & -> & _); [lia|].
  cbn [mbind Res_bind]. destruct (negb _); [done|].
  destruct (@byte_at_ok E packet 4 Hok) as (hi & _ & -> & Hhi); [lia|].
  destruct (@byte_at_ok E packet 5 Hok) as (lo & _ & -> & Hlo); [lia|].
  cbn [mbind Res_bind]. pose proof (be_value_pair_bound _ _ Hhi Hlo) as Htot.
  set (plen := Z.to_nat _) in *. set (total := (40 + plen)%nat).
  destruct (_ <? total)%nat eqn:E3; [done|]. reflect.
  rewrite range_ok by lia. cbn [mbind Res_bind].
  destruct (mss_above _ clamp) as [at_|] eqn:Hmss; [|done].
  apply mss_found in Hmss as (M1 & M2 & M3); [|lia].
  cbn [mbind Res_bind fmap option_fmap option_map].
  set (pseudo := slice 8 24 packet ++ slice 24 40 packet ++
                 be_bytes 4 (Z.of_nat (total - 40)) ++ [0; 0; 0; 6]).
  assert (length pseudo = 40)%nat as Hpl
    by (unfold pseudo; rewrite !length_app, !length_slice, length_be_bytes by lia; done).
  destruct (clamp_writes packet 40 total (40 + at_) clamp pseudo)
    as (L2 & L3 & Hslot & Hsame & Hhdr & Hsum); try done; try lia.
  { unfold pseudo. rewrite !Forall_app. split_and!; auto using slice_ok, be_bytes_ok.
    repeat constructor; done. }
  { rewrite Hpl. by exists 20%nat. }
  change (40 + 16)%nat with 56%nat in *.
  rewrite put_ok by (rewrite length_be_bytes; lia). cbn [mbind Res_bind].
  rewrite put_ok by (rewrite length_splice; rewrite ?length_be_bytes; cbn; lia).
  cbn [mbind Res_bind]. rewrite !range_ok by lia. cbn [mbind Res_bind].
  rewrite checksum_concat. unfold wrap. rewrite Z.mod_small by lia.
  destruct (Hhdr 8%nat 24%nat) as [-> H8]; [lia|]. destruct (Hhdr 24%nat 40%nat) as [-> H24]; [lia|].
  replace (concat _) with (pseudo ++ slice 40 total (splice 56 [0; 0]
    (splice (40 + at_) (be_bytes 2 clamp) packet)))
    by (unfold pseudo; cbn [concat]; replace (total - 40)%nat with plen by lia;
        by rewrite app_nil_r, <- !app_assoc).
  rewrite put_ok by (rewrite length_be_bytes; lia). cbn [mbind Res_bind].
  exists 40%nat, total, (40 + at_)%nat. split_and!; try done; try lia.
  unfold tcp_pseudo. rewrite Hsame, Hver by lia. cbn [Z.eqb Pos.eqb]. rewrite H8, H24. exact Hsum.
Qed.

(** The clamp value of either family. *)
Definition family_clamp (packet : bytes) (inner_mtu : Mtu) : Z :=
  saturating_sub (Mtu_get inner_mtu)
    (if Z.shiftr (default 0%Z (packet !! 0%nat)) 4 =? 4 then 40 else 60).

(** on any bytes, clamping never panics.  It answers [false] only with the
    packet untouched; when it answers [true] the packet differs only in the two
    bytes of the MSS option, lowered from a larger value to the clamp, and in the
    two bytes of the TCP checksum, which then verifies over the pseudo-header. *)
Theorem clamp_mss_correct {E} packet inner_mtu :
  bytes_ok packet ->
  match @clamp_mss E packet inner_mtu with
  | Ok (true, packet') => clamped packet packet' (family_clamp packet inner_mtu)
  | Ok (false, packet') => packet' = packet
  | _ => False
  end.
Proof.
  intros Hok. unfold clamp_mss, family_clamp. destruct packet as [|version rest]; [done|].
  set (packet := version :: rest) in *. change (default 0%Z (packet !! 0%nat)) with version.
  destruct (Z.eqb_spec (Z.shiftr version 4) 4).
  { apply clamp_ipv4_ok; [done|cbn; lia|done]. }
  destruct (Z.eqb_spec (Z.shiftr version 4) 6); [|done]. by apply clamp_ipv6_ok.
Qed.

(** A SYN that advertises 1460 after a no-op, on a path of 1280 bytes. *)
Definition sample_syn : bytes :=
  [69; 0; 0; 48; 0; 0; 64; 0; 64; 6; 0; 0; 10; 0; 0; 2; 192; 0; 2; 7;
   195; 80; 1; 187; 0; 0; 0; 1; 0; 0; 0; 0; 112; 2; 255; 255; 18; 52; 0; 0;
   1; 2; 4; 5; 180; 0; 0; 0].

Lemma clamp_mss_correct_witness :
  bytes_ok sample_syn /\
  match @clamp_mss unit sample_syn (mkMtu 1280) with
  | Ok (true, packet') => clamped sample_syn packet' (family_clamp sample_syn (mkMtu 1280))
  | Ok (false, packet') => packet' = sample_syn
  | _ => False
  end.
Proof.
  assert (bytes_ok sample_syn) as Hok by (repeat constructor; done).
  split; [done|]. apply (clamp_mss_correct sample_syn (mkMtu 1280) Hok).
Defined.

Example clamp_mss_sample :
  (fun r : Res unit (bool * bytes) => match r with Ok (b, p) => Some (b, slice 40 46 p) | _ => None end)
    (clamp_mss sample_syn (mkMtu 1280)) = Some (true, [1; 2; 4; 4; 216; 0]).
Proof. vm_compute. reflexivity. Qed.

(** a Packet Too Big message moves the path only when the offered MTU still
    carries QUIC and the quoted packet is the outbound packet of a live flow: the
    UDP mapping of its source, or the TCP connection of its four-tuple. *)
Theorem validate_ptb_spec {V} quoted offered (table : UdpFlowTable FlowKey V) update :
  validate_ptb quoted offered table = Some update <->
  update = mkPathUpdate offered /\ MIN_QUIC_MTU <= offered /\
  exists key, is_Some (flows table !! key) /\
    match key with
    | Mapping client => exists dport, transport quoted = Udp (port client) dport /\
        address client = source quoted
    | Connection client server => transport quoted = Tcp (port client) (port server) /\
        address client = source quoted /\ address server = destination quoted
    end.
Proof.
  unfold validate_ptb, UdpFlowTable_contains. destruct (offered <? MIN_QUIC_MTU) eqn:E; reflect.
  { split; [done|]. intros (_ & ? & _). lia. }
  destruct (transport quoted) as [sp dp|sp dp| | |]; cbn [mbind option_bind];
    repeat case_bool_decide; split; try done.
  all: try (intros [= <-]; split_and!; [done..|]; eexists; split; [eassumption|]; cbn; eauto).
  all: intros (-> & _ & [[ca cp] [sa sport]|[ca cp]] & Hk & Hm); cbn in Hm;
    naive_solver.
Qed.
