(* ===== verification/Reassembly.v ===== *)
(** Bounded fragment reassembly ([src/l3/reassembly.rs]): parsing a fragment,
    collecting fragments per datagram in a block bitmap, rebuilding the completed
    packet, and the expiry index that bounds the memory.

    [BTreeMap<Instant, Vec<Key>>] is the ordered list of its entries. *)

From S2P Require Import Prelude Wire Net Packet Path.
Open Scope Z_scope.

Definition MAX_DATAGRAM_BYTES : Z := U16_MAX.
Definition BLOCK_BITS : Z := MAX_DATAGRAM_BYTES / 8 + 1.
Definition BITMAP_WORDS : nat := Z.to_nat ((BLOCK_BITS + 63) / 64).
Definition IPV6_FRAGMENT : Z := 44.
Definition IPV6_FRAGMENT_BYTES : nat := 8.
Definition IPV6_HEADER_BYTES : nat := 40.

(** ** Fragments *)

Record Fragment := mkFragment {
  f_source : IpAddr;
  f_destination : IpAddr;
  f_protocol : Z;
  f_identification : Z;
  f_offset : Z;
  f_more : bool;
  f_payload : bytes;
  f_headers : bytes;
  f_next_header_at : option nat;
}.

#[global] Instance Fragment_eq_dec : EqDecision Fragment.
Proof. solve_decision. Defined.

(** The loop of [ipv6_fragment_header]; [at] grows by at least eight a round and
    the round after it leaves the packet fails, so the packet's length is fuel
    enough ([ipv6_header_loop_fuel]). *)
Fixpoint ipv6_header_loop (fuel : nat) (packet : bytes) (next_header_at at_ : nat)
  : option (nat * nat) :=
  match fuel with
  | O => None
  | S fuel =>
      next ← packet !! next_header_at;
      if next =? IPV6_FRAGMENT then
        _ ← get_range packet at_ (at_ + IPV6_FRAGMENT_BYTES);
        Some (next_header_at, at_)
      else
        length ← (if existsb (Z.eqb next) [0; 43; 60] then
                    l ← packet !! (at_ + 1)%nat; Some ((Z.to_nat l + 1) * 8)%nat
                  else if next =? 51 then
                    l ← packet !! (at_ + 1)%nat; Some ((Z.to_nat l + 2) * 4)%nat
                  else None);
        ipv6_header_loop fuel packet at_ (at_ + length)
  end.

Definition ipv6_fragment_header (packet : bytes) : option (nat * nat) :=
  ipv6_header_loop (S (length packet)) packet 6 IPV6_HEADER_BYTES.

Section Parse.
Context `{Etherparse}.

Definition Fragment_parse (packet : bytes) : Res PacketError (option Fragment) :=
  sliced ← match from_ip packet with inl e => Err (Malformed e) | inr s => Ok s end;
  match sliced_net sliced with
  | None => Ok None
  | Some (NetIpv4 ipv4) =>
      if negb (v4_is_payload_fragmented ipv4) then Ok None
      else
        let header_bytes := (Z.to_nat (v4_ihl ipv4) * 4)%nat in
        Ok (Some (mkFragment (V4 (v4_source_addr ipv4)) (V4 (v4_destination_addr ipv4))
          (v4_protocol ipv4) (v4_identification ipv4) (v4_fragments_offset ipv4 * 8)
          (v4_more_fragments ipv4) (subslice (v4_payload ipv4) packet)
          (default [] (get_to packet header_bytes)) None))
  | Some (NetIpv6 ipv6) =>
      if negb (v6_is_payload_fragmented ipv6) then Ok None
      else
        match v6_fragment_header ipv6 with
        | None => Ok None
        | Some header =>
            match ipv6_fragment_header packet with
            | None => Ok None
            | Some (next_header_at, fragment_at) =>
                Ok (Some (mkFragment (V6 (v6_source_addr ipv6)) (V6 (v6_destination_addr ipv6))
                  (fh_next_header header) (fh_identification header)
                  (fh_fragment_offset header * 8) (fh_more_fragments header)
                  (default [] (get_from packet (fragment_at + IPV6_FRAGMENT_BYTES)))
                  (default [] (get_to packet fragment_at)) (Some next_header_at)))
            end
        end
  | Some NetArp => Ok None
  end.

End Parse.

(** ** Rebuilding *)

Definition rebuild {E} (headers : bytes) (next_header_at : option nat) (protocol : Z) (data : bytes)
  : Res E (option bytes) :=
  let packet := headers ++ data in
  match next_header_at with
  | None =>
      if (length packet <? 20)%nat then Ok None else
      first ← byte_at packet 0;
      if negb (Z.shiftr first 4 =? 4) then Ok None else
      match u16_try_from (length packet) with
      | None => Ok None
      | Some total =>
          packet ← or_panic (put 2 (be_bytes 2 total) packet);
          flags ← byte_at packet 6;
          packet ← or_panic (put 6 [Z.land flags 0xc0] packet);
          packet ← or_panic (put 7 [0] packet);
          packet ← or_panic (put 10 [0; 0] packet);
          first ← byte_at packet 0;
          header ← or_panic (get_to packet (Z.to_nat (Z.land first 0x0f) * 4)%nat);
          packet ← or_panic (put 10 (be_bytes 2 (checksum [header])) packet);
          Ok (Some packet)
      end
  | Some next_header_at =>
      if (length packet <? IPV6_HEADER_BYTES)%nat then Ok None else
      first ← byte_at packet 0;
      if negb (Z.shiftr first 4 =? 6) then Ok None else
      match put next_header_at [protocol] packet with
      | None => Ok None
      | Some packet =>
          match u16_try_from (length packet - IPV6_HEADER_BYTES) with
          | None => Ok None
          | Some payload =>
              packet ← or_panic (put 4 (be_bytes 2 payload) packet);
              Ok (Some packet)
          end
      end
  end.

(** ** Pending datagrams *)

Inductive PushOutcome :=
| PushPending
| PushComplete (packet : bytes)
| PushDiscarded.

Record Key := mkKey {
  k_source : IpAddr;
  k_destination : IpAddr;
  k_identification : Z;
  k_protocol : Z;
}.

#[global] Instance Key_eq_dec : EqDecision Key.
Proof. solve_decision. Defined.
#[global] Instance Key_countable : Countable Key.
Proof.
  refine (inj_countable'
    (fun k => (k_source k, k_destination k, k_identification k, k_protocol k))
    (fun '(s, d, i, p) => mkKey s d i p) _).
  by intros [].
Defined.

Record Expiry := mkExpiry { ex_at : Instant; ex_slot : Instant }.

Definition Expiry_filed (at_ : Instant) : Expiry := mkExpiry at_ at_.
Definition Expiry_refresh (at_ : Instant) (e : Expiry) : Expiry := mkExpiry at_ (ex_slot e).
Definition Expiry_refiled (e : Expiry) : option Instant * Expiry :=
  if ex_slot e =? ex_at e then (None, e) else (Some (ex_slot e), mkExpiry (ex_at e) (ex_at e)).

Record Pending := mkPending {
  p_data : bytes;
  p_received : list Z;
  p_received_blocks : Z;
  p_total : option nat;
  p_expiry : Expiry;
  p_poisoned : bool;
  p_headers : bytes;
  p_next_header_at : option nat;
}.

Definition Pending_new (expiry : Expiry) : Pending :=
  mkPending [] (replicate BITMAP_WORDS 0) 0 None expiry false [] None.

Definition block_bit (block : nat) : Z := Z.shiftl 1 (Z.of_nat (block mod 64)).

Definition Pending_block_received {E} (p : Pending) (block : nat) : Res E bool :=
  word ← or_panic (p_received p !! (block / 64)%nat);
  Ok (negb (Z.land word (block_bit block) =? 0)).

(** [(first..=last).any(...)], stopping at the first hit. *)
Fixpoint any_received {E} (p : Pending) (blocks : list nat) : Res E bool :=
  match blocks with
  | [] => Ok false
  | block :: blocks =>
      hit ← Pending_block_received p block;
      if (hit : bool) then Ok true else any_received p blocks
  end.

Fixpoint mark_blocks {E} (words : list Z) (blocks : list nat) : Res E (list Z) :=
  match blocks with
  | [] => Ok words
  | block :: blocks =>
      word ← or_panic (words !! (block / 64)%nat);
      mark_blocks (<[(block / 64)%nat := Z.lor word (block_bit block)]> words) blocks
  end.

(** The inclusive range [first..=last]. *)
Definition block_range (first last : nat) : list nat := seq first (S last - first).

Definition with_data (data : bytes) (p : Pending) : Pending :=
  mkPending data (p_received p) (p_received_blocks p) (p_total p) (p_expiry p) (p_poisoned p)
    (p_headers p) (p_next_header_at p).
Definition with_received (words : list Z) (blocks : Z) (p : Pending) : Pending :=
  mkPending (p_data p) words blocks (p_total p) (p_expiry p) (p_poisoned p)
    (p_headers p) (p_next_header_at p).
Definition with_total (total : option nat) (p : Pending) : Pending :=
  mkPending (p_data p) (p_received p) (p_received_blocks p) total (p_expiry p) (p_poisoned p)
    (p_headers p) (p_next_header_at p).
Definition with_expiry (expiry : Expiry) (p : Pending) : Pending :=
  mkPending (p_data p) (p_received p) (p_received_blocks p) (p_total p) expiry (p_poisoned p)
    (p_headers p) (p_next_header_at p).
Definition with_headers (headers : bytes) (next_header_at : option nat) (p : Pending) : Pending :=
  mkPending (p_data p) (p_received p) (p_received_blocks p) (p_total p) (p_expiry p) (p_poisoned p)
    headers next_header_at.
Definition poison (p : Pending) : Pending :=
  mkPending (p_data p) (p_received p) (p_received_blocks p) (p_total p) (p_expiry p) true
    (p_headers p) (p_next_header_at p).

Definition Pending_mark_received {E} (first_block last_block : nat) (p : Pending) : Res E Pending :=
  words ← mark_blocks (p_received p) (block_range first_block last_block);
  Ok (with_received words (p_received_blocks p + Z.of_nat (last_block - first_block + 1)) p).

Definition div_ceil8 (n : nat) : nat := ((n + 7) / 8)%nat.

Definition Pending_is_complete (p : Pending) : bool :=
  match p_total p with
  | Some total => p_received_blocks p =? Z.of_nat (div_ceil8 total)
  | None => false
  end.

(** What one fragment does to its datagram, from the poison test to the
    completion test. *)
Inductive Verdict := Rejected | Collected | Finished.

Definition f_start (f : Fragment) : nat := Z.to_nat (f_offset f).
Definition f_extent (f : Fragment) : nat := (f_start f + length (f_payload f))%nat.

Definition Pending_accept {E} (f : Fragment) (p : Pending) : Res E (Verdict * Pending) :=
  let offset := f_start f in
  let extent := f_extent f in
  if p_poisoned p then Ok (Rejected, p) else
  if match p_total p with
     | Some total => (negb (f_more f) && negb (extent =? total)%nat) || (total <? extent)%nat
     | None => false
     end
  then Ok (Rejected, poison p) else
  let first_block := (offset / 8)%nat in
  let last_block := ((extent - 1) / 8)%nat in
  overlap ← any_received p (block_range first_block last_block);
  if (overlap : bool) then Ok (Rejected, poison p) else
  let p := if (offset =? 0)%nat then with_headers (f_headers f) (f_next_header_at f) p else p in
  let p := if (length (p_data p) <? extent)%nat then with_data (vec_resize extent (p_data p)) p else p in
  data ← or_panic (put offset (f_payload f) (p_data p));
  p ← Pending_mark_received first_block last_block (with_data data p);
  if negb (f_more f) && (extent <? length (p_data p))%nat then Ok (Rejected, poison p) else
  let p := if negb (f_more f) then with_total (Some extent) p else p in
  Ok (if Pending_is_complete p then Finished else Collected, p).

(** ** The reassembler *)

Abbreviation Index := (list (Instant * list Key)).

(** [expirations.entry(deadline).or_default().push(key)] on the ordered entries. *)
Fixpoint index_push (deadline : Instant) (key : Key) (index : Index) : Index :=
  match index with
  | [] => [(deadline, [key])]
  | (at_, keys) :: rest =>
      if deadline <? at_ then (deadline, [key]) :: index
      else if deadline =? at_ then (at_, keys ++ [key]) :: rest
      else (at_, keys) :: index_push deadline key rest
  end.

(** [Vec::swap_remove]: the last element takes the removed one's place. *)
Definition swap_remove {A} (at_ : nat) (l : list A) : list A :=
  match last l with
  | Some x => take (length l - 1) (<[at_ := x]> l)
  | None => l
  end.

Fixpoint index_forget (deadline : Instant) (key : Key) (index : Index) : Index :=
  match index with
  | [] => []
  | (at_, keys) :: rest =>
      if deadline =? at_ then
        let keys := match list_find (fun candidate => candidate = key) keys with
                    | Some (i, _) => swap_remove i keys
                    | None => keys
                    end in
        match keys with [] => rest | _ => (at_, keys) :: rest end
      else (at_, keys) :: index_forget deadline key rest
  end.

Record Reassembler := mkReassembler {
  r_timeout : Duration;
  r_max_pending : nat;
  r_pending : gmap Key Pending;
  r_expirations : Index;
  r_discarded : Z;
}.

Definition Reassembler_new (timeout : Duration) (max_pending : nat) : Reassembler :=
  mkReassembler timeout max_pending ∅ [] 0.

Definition Reassembler_len (r : Reassembler) : nat := size (r_pending r).

Definition Reassembler_next_deadline (r : Reassembler) : option Instant :=
  fst <$> head (r_expirations r).

Definition with_pending (pending : gmap Key Pending) (r : Reassembler) : Reassembler :=
  mkReassembler (r_timeout r) (r_max_pending r) pending (r_expirations r) (r_discarded r).
Definition with_expirations (index : Index) (r : Reassembler) : Reassembler :=
  mkReassembler (r_timeout r) (r_max_pending r) (r_pending r) index (r_discarded r).

(** [self.discarded = self.discarded.saturating_add(1); return Discarded]. *)
Definition discard (r : Reassembler) : PushOutcome * Reassembler :=
  (PushDiscarded, mkReassembler (r_timeout r) (r_max_pending r) (r_pending r) (r_expirations r)
                    (saturating_add U64_MAX (r_discarded r) 1)).

Definition Reassembler_forget_slot (deadline : Instant) (key : Key) (r : Reassembler) : Reassembler :=
  with_expirations (index_forget deadline key (r_expirations r)) r.

(** One key of a due bucket. *)
Definition expire_slot (now : Instant) (st : gmap Key Pending * list (Instant * Key) * nat) (key : Key)
  : gmap Key Pending * list (Instant * Key) * nat :=
  let '(pending, rebucket, evicted) := st in
  match pending !! key with
  | Some p =>
      if ex_at (p_expiry p) <=? now then (delete key pending, rebucket, S evicted)
      else
        let e := (Expiry_refiled (p_expiry p)).2 in
        (<[key := with_expiry e p]> pending, rebucket ++ [(ex_at e, key)], evicted)
  | None => st
  end.

(** [while first deadline <= now { pop_first }]. *)
Fixpoint expire_buckets (now : Instant) (index : Index)
    (st : gmap Key Pending * list (Instant * Key) * nat)
  : Index * (gmap Key Pending * list (Instant * Key) * nat) :=
  match index with
  | (deadline, keys) :: rest =>
      if deadline <=? now then expire_buckets now rest (foldl (expire_slot now) st keys)
      else (index, st)
  | [] => ([], st)
  end.

Definition Reassembler_expire (r : Reassembler) (now : Instant) : nat * Reassembler :=
  let '(index, (pending, rebucket, evicted)) :=
    expire_buckets now (r_expirations r) (r_pending r, [], 0%nat) in
  let index := foldl (fun index '(deadline, key) => index_push deadline key index) index rebucket in
  (evicted, with_expirations index (with_pending pending r)).

Definition fragment_key (f : Fragment) : Key :=
  mkKey (f_source f) (f_destination f) (f_identification f) (f_protocol f).

(** The tests before the datagram is looked up. *)
Definition unusable (f : Fragment) : bool :=
  match f_payload f with [] => true | _ => false end
  || (MAX_DATAGRAM_BYTES <? Z.of_nat (f_extent f))
  || (f_more f && negb (length (f_payload f) mod 8 =? 0)%nat).

(** [pending.entry(key)] with the index slot of a new datagram, refreshed. *)
Definition pending_entry (key : Key) (deadline : Instant) (r : Reassembler) : Pending * Reassembler :=
  let '(p, r) := match r_pending r !! key with
                 | Some p => (p, r)
                 | None => (Pending_new (Expiry_filed deadline),
                            with_expirations (index_push deadline key (r_expirations r)) r)
                 end in
  (with_expiry (Expiry_refresh deadline (p_expiry p)) p, r).

Definition Reassembler_push {E} (r : Reassembler) (f : Fragment) (now : Instant)
  : Res E (PushOutcome * Reassembler) :=
  if unusable f then Ok (discard r) else
  let key := fragment_key f in
  let full r := (Reassembler_len r =? r_max_pending r)%nat in
  let crowded := negb (bool_decide (is_Some (r_pending r !! key))) && full r in
  let r := if crowded then (Reassembler_expire r now).2 else r in
  if crowded && full r then Ok (discard r) else
  let deadline := default now (instant_checked_add now (r_timeout r)) in
  let '(p, r) := pending_entry key deadline r in
  '(verdict, p) ← Pending_accept f p;
  let r := with_pending (<[key := p]> (r_pending r)) r in
  match verdict with
  | Rejected => Ok (discard r)
  | Collected => Ok (PushPending, r)
  | Finished =>
      let r := with_pending (delete key (r_pending r)) r in
      let r := Reassembler_forget_slot (ex_slot (p_expiry p)) key r in
      let data := take (default 0%nat (p_total p)) (p_data p) in
      rebuilt ← rebuild (p_headers p) (p_next_header_at p) (k_protocol key) data;
      match rebuilt with
      | None => Ok (discard r)
      | Some packet => Ok (PushComplete packet, r)
      end
  end.

(** ** The block bitmap as a set *)

Definition bit (words : list Z) (block : nat) : bool :=
  Z.testbit (default 0%Z (words !! (block / 64)%nat)) (Z.of_nat (block mod 64)).

Lemma land_block_bit w k :
  0 <= k -> negb (Z.land w (Z.shiftl 1 k) =? 0) = Z.testbit w k.
Proof.
  intros Hk. rewrite Z.shiftl_1_l.
  destruct (Z.testbit w k) eqn:E.
  - apply negb_true_iff, Z.eqb_neq. intros H0. apply (f_equal (fun z => Z.testbit z k)) in H0.
    rewrite Z.land_spec, E, Z.pow2_bits_true, Z.bits_0 in H0 by lia. done.
  - apply negb_false_iff, Z.eqb_eq. apply Z.bits_inj'. intros n Hn.
    rewrite Z.land_spec, Z.bits_0, Z.pow2_bits_eqb by lia.
    destruct (Z.eqb_spec k n) as [<-|]; [by rewrite E|apply andb_false_r].
Qed.

Definition block_ok (block : nat) : Prop := (block / 64 < BITMAP_WORDS)%nat.

Lemma block_received_bit {E} p b :
  length (p_received p) = BITMAP_WORDS -> block_ok b ->
  @Pending_block_received E p b = Ok (bit (p_received p) b).
Proof.
  intros Hl Hb. unfold Pending_block_received, bit, block_bit.
  destruct (lookup_lt_is_Some_2 (p_received p) (b / 64)) as [w ->]; [by rewrite Hl|].
  cbn [or_panic mbind Res_bind default]. by rewrite land_block_bit by lia.
Qed.

Lemma any_received_bits {E} p bs :
  length (p_received p) = BITMAP_WORDS -> Forall block_ok bs ->
  @any_received E p bs = Ok (existsb (bit (p_received p)) bs).
Proof.
  intros Hl. induction 1 as [|b bs Hb _ IH]; [done|]. cbn [any_received existsb].
  rewrite block_received_bit by done. cbn [mbind Res_bind]. rewrite IH.
  by destruct (bit _ b).
Qed.

Lemma bit_set words w b c :
  words !! (b / 64)%nat = Some w ->
  bit (<[(b / 64)%nat := Z.lor w (block_bit b)]> words) c = bit words c || bool_decide (c = b).
Proof.
  intros Hw. unfold bit, block_bit. pose proof (lookup_lt_Some _ _ _ Hw) as Hlt.
  rewrite list_lookup_insert. case_decide as E.
  - destruct E as [Eq _]. rewrite <- Eq, Hw. cbn [from_option]; unfold id.
    rewrite Z.lor_spec, Z.shiftl_1_l, Z.pow2_bits_eqb by lia. f_equal.
    apply eq_true_iff_eq. rewrite Z.eqb_eq, bool_decide_eq_true.
    pose proof (Nat.div_mod_eq b 64). pose proof (Nat.div_mod_eq c 64). lia.
  - rewrite bool_decide_false, orb_false_r; [done|]. intros ->. auto.
Qed.

Lemma mark_blocks_bits {E} words bs :
  length words = BITMAP_WORDS -> Forall block_ok bs ->
  exists words', @mark_blocks E words bs = Ok words' /\ length words' = BITMAP_WORDS /\
    forall c, bit words' c = bit words c || bool_decide (c ∈ bs).
Proof.
  intros Hl Hbs. revert words Hl. induction Hbs as [|b bs Hb _ IH]; intros words Hl.
  { exists words. split_and!; try done. intros c. by rewrite orb_false_r. }
  cbn [mark_blocks]. destruct (lookup_lt_is_Some_2 words (b / 64)) as [w Hw]; [by rewrite Hl|].
  rewrite Hw. cbn [or_panic mbind Res_bind].
  destruct (IH (<[(b / 64)%nat := Z.lor w (block_bit b)]> words)) as (words' & -> & ? & Hc).
  { by rewrite length_insert. }
  exists words'. split_and!; try done. intros c. rewrite Hc, bit_set, <- orb_assoc by done.
  f_equal. apply eq_true_iff_eq. rewrite orb_true_iff, !bool_decide_eq_true. set_solver.
Qed.

Lemma bit_new c : bit (replicate BITMAP_WORDS 0) c = false.
Proof.
  unfold bit. destruct (replicate _ _ !! _) as [w|] eqn:E; [|apply Z.bits_0].
  apply lookup_replicate in E as [-> _]. apply Z.bits_0.
Qed.

(** ** What a pending datagram represents *)

Definition f_blocks (f : Fragment) : list nat :=
  block_range (f_start f / 8) ((f_extent f - 1) / 8).

(** A fragment [push] does not refuse outright, with its aligned offset. *)
Record usable (f : Fragment) : Prop := {
  us_payload : (0 < length (f_payload f))%nat;
  us_extent : Z.of_nat (f_extent f) <= MAX_DATAGRAM_BYTES;
  us_aligned : (f_start f mod 8 = 0)%nat;
  us_whole : f_more f = true -> (length (f_payload f) mod 8 = 0)%nat;
}.

(** The datagram holds exactly the fragments [fs], no two sharing a block. *)
Record represents (p : Pending) (fs : list Fragment) : Prop := {
  rep_words : length (p_received p) = BITMAP_WORDS;
  rep_bits : forall b, bit (p_received p) b = true <-> b ∈ concat (f_blocks <$> fs);
  rep_disjoint : NoDup (concat (f_blocks <$> fs));
  rep_count : p_received_blocks p = Z.of_nat (length (concat (f_blocks <$> fs)));
  rep_usable : Forall usable fs;
  rep_data : Forall (fun f => (f_extent f <= length (p_data p))%nat /\
                              slice (f_start f) (f_extent f) (p_data p) = f_payload f) fs;
  rep_total : forall t, p_total p = Some t -> length (p_data p) = t;
  rep_final : Forall (fun f => f_more f = false -> p_total p = Some (f_extent f)) fs;
  rep_headers : Forall (fun f => f_start f = 0%nat ->
    p_headers p = f_headers f /\ p_next_header_at p = f_next_header_at f) fs;
}.

Lemma elem_of_block_range b first last : b ∈ block_range first last <-> (first <= b <= last)%nat.
Proof. unfold block_range. rewrite elem_of_seq. lia. Qed.

Lemma elem_of_f_blocks b f :
  usable f -> b ∈ f_blocks f <-> (f_start f <= 8 * b < f_extent f)%nat.
Proof.
  intros [Hp _ Ha _]. unfold f_blocks. rewrite elem_of_block_range. unfold f_extent in *.
  pose proof (Nat.div_mod_eq (f_start f) 8).
  pose proof (Nat.div_mod_eq (f_start f + length (f_payload f) - 1) 8).
  pose proof (Nat.mod_upper_bound (f_start f + length (f_payload f) - 1) 8). lia.
Qed.

Lemma f_blocks_ok f : usable f -> Forall block_ok (f_blocks f).
Proof.
  intros Hu. apply Forall_forall. intros b Hb. apply elem_of_f_blocks in Hb; [|done].
  pose proof (us_extent f Hu) as He. unfold MAX_DATAGRAM_BYTES, U16_MAX in He.
  unfold block_ok. change BITMAP_WORDS with 128%nat.
  apply Nat.Div0.div_lt_upper_bound. lia.
Qed.

Lemma length_f_blocks f :
  usable f -> (length (f_blocks f) = (f_extent f - 1) / 8 - f_start f / 8 + 1)%nat.
Proof.
  intros [Hp _ _ _]. unfold f_blocks, block_range. rewrite length_seq.
  assert (f_start f / 8 <= (f_extent f - 1) / 8)%nat; [|lia].
  apply Nat.Div0.div_le_mono. unfold f_extent. lia.
Qed.

Lemma represents_new e : represents (Pending_new e) [].
Proof.
  split; cbn [p_received Pending_new p_received_blocks p_data p_total]; try done; try (by constructor).
  intros b. rewrite bit_new. cbn. set_solver.
Qed.

(** ** Accepting one fragment *)

(** Fragments that share no block share no byte. *)
Lemma disjoint_bytes f g :
  usable f -> usable g -> (forall b, b ∈ f_blocks f -> b ∉ f_blocks g) ->
  (f_extent g <= f_start f \/ f_extent f <= f_start g)%nat.
Proof.
  intros Hf Hg Hd. destruct (decide (f_extent g <= f_start f \/ f_extent f <= f_start g)%nat); [done|].
  pose proof (us_aligned f Hf). pose proof (us_aligned g Hg).
  set (m := Nat.max (f_start f) (f_start g)).
  assert (m mod 8 = 0)%nat by (unfold m; destruct (Nat.max_spec (f_start f) (f_start g)) as [[_ ->]|[_ ->]]; done).
  pose proof (Nat.div_mod_eq m 8). destruct (Hd (m / 8)%nat);
    apply elem_of_f_blocks; try done; unfold m, f_extent in *;
    pose proof (us_payload f Hf); pose proof (us_payload g Hg); lia.
Qed.

Definition grown (data : bytes) (extent : nat) : bytes :=
  if (length data <? extent)%nat then vec_resize extent data else data.

Lemma length_grown data n : length (grown data n) = Nat.max (length data) n.
Proof.
  unfold grown, vec_resize. destruct (_ <? _)%nat eqn:E; reflect; [|lia].
  rewrite length_app, length_take, length_replicate. lia.
Qed.

Lemma slice_grown a b data n : (b <= length data)%nat -> slice a b (grown data n) = slice a b data.
Proof.
  intros Hb. unfold grown, vec_resize. destruct (_ <? _)%nat eqn:E; reflect; [|done].
  apply list_eq. intros i. destruct (decide (i < b - a)%nat).
  - rewrite !lookup_slice, lookup_app_l, lookup_take_lt by (rewrite ?length_take; lia). done.
  - rewrite !lookup_ge_None_2; [done|unfold slice; rewrite length_take; lia..].
Qed.

(** Writing a fragment keeps every disjoint fragment's bytes. *)
Lemma write_fragment data f :
  exists data', put (f_start f) (f_payload f) (grown data (f_extent f)) = Some data' /\
    length data' = Nat.max (length data) (f_extent f) /\
    slice (f_start f) (f_extent f) data' = f_payload f /\
    forall a b, (b <= length data)%nat -> (b <= f_start f \/ f_extent f <= a)%nat ->
      slice a b data' = slice a b data.
Proof.
  pose proof (length_grown data (f_extent f)) as Hg. unfold f_extent in *.
  eexists. split; [apply put_in_bounds; lia|]. split_and!.
  - rewrite length_splice; lia.
  - rewrite slice_splice_inside by lia. unfold slice. rewrite !Nat.sub_diag. cbn. by rewrite app_nil_r.
  - intros a b Hb Hd. rewrite slice_splice_disjoint by lia. by apply slice_grown.
Qed.


Lemma concat_blocks_cons f fs : concat (f_blocks <$> f :: fs) = f_blocks f ++ concat (f_blocks <$> fs).
Proof. done. Qed.

Lemma NoDup_f_blocks f : NoDup (f_blocks f).
Proof. apply NoDup_seq. Qed.

(** The state after a fragment that overlaps nothing has been written and marked. *)
Lemma represents_cons p fs f words data :
  represents p fs -> usable f -> (forall b, b ∈ f_blocks f -> b ∉ concat (f_blocks <$> fs)) ->
  length words = BITMAP_WORDS ->
  (forall c, bit words c = bit (p_received p) c || bool_decide (c ∈ f_blocks f)) ->
  (length data = Nat.max (length (p_data p)) (f_extent f))%nat ->
  slice (f_start f) (f_extent f) data = f_payload f ->
  (forall a b, (b <= length (p_data p))%nat -> (b <= f_start f \/ f_extent f <= a)%nat ->
     slice a b data = slice a b (p_data p)) ->
  forall p', p_received p' = words -> p_data p' = data ->
  p_received_blocks p' = p_received_blocks p + Z.of_nat (length (f_blocks f)) ->
  (if (f_start f =? 0)%nat
   then p_headers p' = f_headers f /\ p_next_header_at p' = f_next_header_at f
   else p_headers p' = p_headers p /\ p_next_header_at p' = p_next_header_at p) ->
  (forall t, p_total p' = Some t -> length data = t) ->
  (f_more f = false -> p_total p' = Some (f_extent f)) ->
  (forall t, p_total p = Some t -> p_total p' = Some t) ->
  represents p' (f :: fs).
Proof.
  intros [Rw Rb Rd Rc Ru Rdat Rt Rf Rh] Hf Hdis Hw Hbits Hlen Hmine Hothers p' <- <- Hcount Hhdr Ht Hfin Hkeep.
  assert (forall g, g ∈ fs -> forall b, b ∈ f_blocks f -> b ∉ f_blocks g) as Hsep.
  { intros g Hg b Hb Hbg. apply (Hdis b Hb). apply list_elem_of_In, in_concat.
    exists (f_blocks g). split; apply list_elem_of_In; [|done]. by apply list_elem_of_fmap_2. }
  rewrite Forall_forall in Ru, Rdat, Rf, Rh.
  split; rewrite ?concat_blocks_cons; try done.
  - intros b. rewrite Hbits, orb_true_iff, bool_decide_eq_true, Rb, elem_of_app. tauto.
  - apply NoDup_app. split_and!; [apply NoDup_f_blocks|done|done].
  - rewrite length_app. lia.
  - constructor; [done|]. by apply Forall_forall.
  - constructor; [split; [lia|done]|]. apply Forall_forall. intros g Hg.
    destruct (Rdat g Hg) as [? Hs]. split; [lia|]. rewrite Hothers, Hs; [done|done|].
    apply disjoint_bytes; eauto.
  - constructor; [done|]. apply Forall_forall. eauto.
  - constructor; [intros E0; by rewrite E0 in Hhdr|]. apply Forall_forall. intros g Hg Eg.
    destruct (Nat.eqb_spec (f_start f) 0) as [E0|]; [|destruct Hhdr as [-> ->]; by apply Rh].
    exfalso. destruct (disjoint_bytes f g Hf (Ru g Hg) (Hsep g Hg)) as [?|?];
      pose proof (us_payload f Hf); pose proof (us_payload g (Ru g Hg)); unfold f_extent in *; lia.
Qed.

(** The verdict on one fragment: a poisoned datagram and one whose new fragment
    contradicts it end up poisoned; otherwise the datagram represents one fragment
    more, and is finished exactly when its blocks are all there. *)
Lemma Pending_accept_ok {E} p fs f :
  usable f -> p_poisoned p = true \/ represents p fs ->
  exists v p', @Pending_accept E f p = Ok (v, p') /\ p_expiry p' = p_expiry p /\
    match v with
    | Rejected => p_poisoned p' = true
    | Collected => represents p' (f :: fs) /\ Pending_is_complete p' = false
    | Finished => represents p' (f :: fs) /\ Pending_is_complete p' = true
    end.
Proof.
  intros Hf Hp. unfold Pending_accept.
  destruct (p_poisoned p) eqn:Hpois; [by exists Rejected, p|]. destruct Hp as [|Hrep]; [done|].
  destruct (match p_total p with Some t => _ | None => _ end) eqn:Htot; [by exists Rejected, (poison p)|].
  fold (f_blocks f). rewrite any_received_bits by (apply Hrep || by apply f_blocks_ok).
  cbn [mbind Res_bind]. destruct (existsb _ _) eqn:Hover; [by exists Rejected, (poison p)|].
  set (p1 := if (f_start f =? 0)%nat then _ else p).
  set (p2 := if (length (p_data p1) <? f_extent f)%nat then _ else p1).
  assert (p_data p2 = grown (p_data p) (f_extent f) /\ p_received p2 = p_received p /\
    p_received_blocks p2 = p_received_blocks p /\ p_total p2 = p_total p /\ p_expiry p2 = p_expiry p /\
    (if (f_start f =? 0)%nat
     then p_headers p2 = f_headers f /\ p_next_header_at p2 = f_next_header_at f
     else p_headers p2 = p_headers p /\ p_next_header_at p2 = p_next_header_at p))
    as (Dd & Dw & Dc & Dt & De & Dh).
  { unfold p2, p1, grown. destruct (f_start f =? 0)%nat; cbn [p_data with_headers];
      destruct (_ <? f_extent f)%nat; done. }
  rewrite Dd. destruct (write_fragment (p_data p) f) as (data & -> & Hlen & Hmine & Hothers).
  cbn [or_panic mbind Res_bind]. unfold Pending_mark_received. cbn [p_received with_data]. rewrite Dw.
  fold (f_blocks f).
  destruct (@mark_blocks_bits E (p_received p) (f_blocks f)) as (words & -> & Hwl & Hbits);
    [apply Hrep|by apply f_blocks_ok|].
  cbn [mbind Res_bind]. set (p3 := with_received _ _ _).
  assert (p_data p3 = data /\ p_received p3 = words /\ p_total p3 = p_total p) as (Ed & Ew & Et) by done.
  rewrite Ed. destruct (negb (f_more f) && _) eqn:Hcontra; [by exists Rejected, (poison p3)|].
  set (p4 := if negb (f_more f) then _ else p3).
  assert (represents p4 (f :: fs)) as Hr4.
  { assert (forall b, b ∈ f_blocks f -> b ∉ concat (f_blocks <$> fs)) as Hdis.
    { intros b Hb Hin. apply (rep_bits p fs Hrep) in Hin.
      assert (existsb (bit (p_received p)) (f_blocks f) = true); [|congruence].
      apply existsb_exists. exists b. split; [by apply list_elem_of_In|done]. }
    assert (forall t, p_total p = Some t -> (f_extent f <= t)%nat /\ (f_more f = false -> f_extent f = t)) as Hta.
    { intros t E0. rewrite E0 in Htot. destruct (f_more f); cbn [negb andb orb] in Htot; reflect;
        (split; [lia|]); done. }
    eapply (represents_cons p fs f words data); unfold p4; try done;
      destruct (f_more f); cbn -[Nat.eqb block_range]; rewrite ?Dc; try done.
    - by rewrite length_f_blocks.
    - by rewrite length_f_blocks.
    - intros t. rewrite Dt. intros E0. destruct (Hta t E0).
      rewrite Hlen, (rep_total p fs Hrep t E0). lia.
    - intros t [= <-]. cbn [negb andb] in Hcontra. reflect. lia.
    - by rewrite Dt.
    - intros t E0. destruct (Hta t E0) as [_ ->]; done. }
  destruct (Pending_is_complete p4) eqn:Hc; eexists _, p4; (split; [done|]);
    (split; [unfold p4; destruct (negb _); done|]); done.
Qed.

(** ** Completion *)

(** The accepted fragments tile the datagram: each lies inside it with its bytes in
    place, and every byte belongs to one. *)
Definition tiles (fs : list Fragment) (data : bytes) : Prop :=
  Forall (fun f => (f_extent f <= length data)%nat /\
                   slice (f_start f) (f_extent f) data = f_payload f) fs /\
  forall i, (i < length data)%nat -> exists f, f ∈ fs /\ (f_start f <= i < f_extent f)%nat.

Lemma div_ceil8_lt b t : (8 * b < t)%nat -> (b < div_ceil8 t)%nat.
Proof. intros. unfold div_ceil8. apply Nat.div_le_lower_bound; lia. Qed.

Lemma complete_tiles p fs :
  represents p fs -> Pending_is_complete p = true ->
  exists t, p_total p = Some t /\ length (p_data p) = t /\ tiles fs (p_data p).
Proof.
  intros [_ _ Rd Rc Ru Rdat Rt Rf _]. unfold Pending_is_complete.
  destruct (p_total p) as [t|] eqn:Et; [|done]. intros Hc. reflect.
  exists t. pose proof (Rt t eq_refl) as Hlen. split_and!; [done|done|].
  split; [done|]. rewrite Hlen. intros i Hi. rewrite Forall_forall in Ru, Rdat, Rf.
  assert ((i / 8)%nat ∈ concat (f_blocks <$> fs)) as Hin.
  { assert (incl (seq 0 (div_ceil8 t)) (concat (f_blocks <$> fs))) as Hincl.
    { apply NoDup_length_incl; [by apply NoDup_ListNoDup|rewrite length_seq; lia|].
      intros b (bs & Hbs & Hb)%in_concat. apply list_elem_of_In, list_elem_of_fmap in Hbs as (f & -> & Hf).
      apply list_elem_of_In, elem_of_f_blocks in Hb; [|eauto]. apply in_seq.
      destruct (Rdat f Hf). pose proof (div_ceil8_lt b t). lia. }
    apply list_elem_of_In, Hincl, in_seq. split; [lia|]. rewrite Nat.add_0_l. apply div_ceil8_lt.
    pose proof (Nat.div_mod_eq i 8). lia. }
  apply list_elem_of_In, in_concat in Hin as (bs & Hbs & Hb).
  apply list_elem_of_In, list_elem_of_fmap in Hbs as (f & -> & Hf).
  apply list_elem_of_In, elem_of_f_blocks in Hb; [|eauto]. exists f. split; [done|].
  pose proof (Nat.div_mod_eq i 8). pose proof (Nat.mod_upper_bound i 8).
  destruct (Ru f Hf) as [Hp _ Ha Hw]. destruct (f_more f) eqn:Em.
  - specialize (Hw eq_refl). unfold f_extent in *.
    pose proof (Nat.div_mod_eq (f_start f) 8). pose proof (Nat.div_mod_eq (length (f_payload f)) 8). lia.
  - pose proof (Rf f Hf Em) as Ht. injection Ht as ->. lia.
Qed.

(** ** The expiry index *)

Definition index_pairs (index : Index) : list (Instant * Key) :=
  concat ((fun e : Instant * list Key => pair e.1 <$> e.2) <$> index).

Definition slot_pairs (pending : gmap Key Pending) : list (Instant * Key) :=
  (fun kp : Key * Pending => (ex_slot (p_expiry kp.2), kp.1)) <$> map_to_list pending.

Definition index_sorted (index : Index) : Prop := StronglySorted Z.lt index.*1.

Lemma slot_pairs_insert k p m :
  m !! k = None -> slot_pairs (<[k := p]> m) ≡ₚ (ex_slot (p_expiry p), k) :: slot_pairs m.
Proof. intros. unfold slot_pairs. by rewrite map_to_list_insert. Qed.

Lemma slot_pairs_delete k p m :
  m !! k = Some p -> slot_pairs m ≡ₚ (ex_slot (p_expiry p), k) :: slot_pairs (delete k m).
Proof. intros. unfold slot_pairs. by rewrite <- (map_to_list_delete m k p). Qed.

Lemma slot_pairs_update k p p' m :
  m !! k = Some p -> ex_slot (p_expiry p') = ex_slot (p_expiry p) ->
  slot_pairs (<[k := p']> m) ≡ₚ slot_pairs m.
Proof.
  intros Hk He. rewrite (slot_pairs_delete k p m Hk), <- He, <- insert_delete_eq.
  apply slot_pairs_insert, lookup_delete_eq.
Qed.

Lemma elem_of_slot_pairs d k m :
  (d, k) ∈ slot_pairs m <-> exists p, m !! k = Some p /\ ex_slot (p_expiry p) = d.
Proof.
  unfold slot_pairs. rewrite list_elem_of_fmap. split.
  - intros ([k' p] & [= -> ->] & Hin%elem_of_map_to_list). eauto.
  - intros (p & Hk & <-). exists (k, p). split; [done|]. by apply elem_of_map_to_list.
Qed.

Lemma NoDup_slot_keys m : NoDup (slot_pairs m).*2.
Proof.
  unfold slot_pairs. rewrite <- list_fmap_compose.
  rewrite (list_fmap_ext _ fst); [apply NoDup_fst_map_to_list|]. by intros _ [k p] _.
Qed.

Lemma index_push_pairs d k index : index_pairs (index_push d k index) ≡ₚ (d, k) :: index_pairs index.
Proof.
  induction index as [|[at_ keys] rest IH]; [done|]. cbn [index_push].
  destruct (d <? at_) eqn:E1; [done|]. destruct (d =? at_) eqn:E2; reflect.
  - subst. unfold index_pairs. cbn. rewrite fmap_app. cbn.
    rewrite <- app_assoc. symmetry. apply Permutation_middle.
  - unfold index_pairs in *. cbn. rewrite IH. symmetry. apply Permutation_middle.
Qed.

Lemma index_push_fst d k index x : x ∈ (index_push d k index).*1 <-> x = d \/ x ∈ index.*1.
Proof.
  induction index as [|[at_ keys] rest IH]; [set_solver|]. cbn [index_push].
  destruct (d <? at_) eqn:E1; [set_solver|]. destruct (d =? at_) eqn:E2; reflect; set_solver.
Qed.

Lemma index_push_sorted d k index : index_sorted index -> index_sorted (index_push d k index).
Proof.
  unfold index_sorted. induction index as [|[at_ keys] rest IH]; intros Hs; [repeat constructor|].
  cbn [index_push]. cbn in Hs. apply StronglySorted_inv in Hs as [Hs Hall].
  destruct (d <? at_) eqn:E1; [|destruct (d =? at_) eqn:E2]; reflect; cbn.
  - constructor; [by constructor|]. constructor; [done|]. eapply Forall_impl; [exact Hall|]. cbn. lia.
  - by constructor.
  - constructor; [auto|]. rewrite Forall_forall in *. intros x [->|Hx]%index_push_fst; [lia|auto].
Qed.

Lemma insert_exchange {A} i (x y : A) l : l !! i = Some x -> x :: <[i := y]> l ≡ₚ y :: l.
Proof.
  revert i. induction l as [|z l IH]; intros [|i] Hi; simplify_eq/=; [apply Permutation_swap|].
  rewrite Permutation_swap, (IH i Hi). apply Permutation_swap.
Qed.

Lemma swap_remove_perm {A} i x (l : list A) : l !! i = Some x -> l ≡ₚ x :: swap_remove i l.
Proof.
  intros Hi. pose proof (lookup_lt_Some _ _ _ Hi) as Hlt. unfold swap_remove.
  destruct (last l) as [y|] eqn:Hl; [|by apply last_None in Hl; subst].
  apply last_Some in Hl as [l' ->]. rewrite length_app in *. cbn [length] in *.
  replace (length l' + 1 - 1)%nat with (length l') by lia.
  destruct (decide (i = length l')) as [->|].
  - rewrite take_insert_ge, take_app_length by lia.
    rewrite lookup_app_r, Nat.sub_diag in Hi by lia. injection Hi as ->.
    symmetry. apply Permutation_cons_append.
  - rewrite lookup_app_l in Hi by lia. rewrite take_insert_lt, take_app_length by lia.
    rewrite insert_exchange by done. symmetry. apply Permutation_cons_append.
Qed.

Lemma index_pairs_cons at_ keys rest :
  index_pairs ((at_, keys) :: rest) = (pair at_ <$> keys) ++ index_pairs rest.
Proof. done. Qed.

Lemma elem_of_index_pairs d k index :
  (d, k) ∈ index_pairs index -> d ∈ index.*1.
Proof.
  induction index as [|[at_ keys] rest IH]; [set_solver|]. rewrite index_pairs_cons, elem_of_app.
  intros [(? & [= -> ->] & _)%list_elem_of_fmap|]; set_solver.
Qed.

Lemma index_forget_ok d k index :
  index_sorted index -> (d, k) ∈ index_pairs index ->
  index_pairs index ≡ₚ (d, k) :: index_pairs (index_forget d k index) /\
  sublist (index_forget d k index).*1 index.*1.
Proof.
  unfold index_sorted. induction index as [|[at_ keys] rest IH]; intros Hs Hin; [set_solver|].
  apply StronglySorted_inv in Hs as [Hs Hall]. rewrite Forall_forall in Hall.
  cbn [index_forget]. rewrite index_pairs_cons in Hin |- *. apply elem_of_app in Hin.
  destruct (d =? at_) eqn:E; reflect.
  - subst at_. destruct Hin as [(k' & [= <-] & Hk)%list_elem_of_fmap|Hin].
    2:{ apply elem_of_index_pairs, Hall in Hin. cbn in Hin. lia. }
    destruct (list_find_elem_of (fun c => c = k) keys k Hk eq_refl) as [[i k'] Hf].
    rewrite Hf. apply list_find_Some in Hf as (Hi & -> & _).
    pose proof (swap_remove_perm _ _ _ Hi) as Hp.
    destruct (swap_remove i keys) as [|k1 ks] eqn:Es.
    + split; [by rewrite Hp|]. cbn. by constructor.
    + split; [by rewrite index_pairs_cons, Hp|done].
  - destruct Hin as [(k' & [= ->] & Hk)%list_elem_of_fmap|Hin]; [done|].
    destruct (IH Hs Hin) as [Hp Hsub]. split; [|by constructor].
    rewrite index_pairs_cons, Hp. symmetry. apply Permutation_middle.
Qed.

Lemma sorted_sublist l l' : sublist l l' -> StronglySorted Z.lt l' -> StronglySorted Z.lt l.
Proof.
  induction 1 as [|x l l' Hs IH|x l l' Hs IH]; [done|..]; intros [H1 H2]%StronglySorted_inv; [|auto].
  constructor; [auto|]. rewrite Forall_forall in *. intros y Hy. apply H2.
  by eapply elem_of_submseteq, sublist_submseteq.
Qed.

(** ** One expiry pass *)

(** What becomes of a pending datagram: kept while its bucket is not due,
    otherwise judged by its deadline and filed under it. *)
Definition survive (now : Instant) (p : Pending) : option Pending :=
  if ex_slot (p_expiry p) <=? now then
    if ex_at (p_expiry p) <=? now then None
    else Some (with_expiry (Expiry_filed (ex_at (p_expiry p))) p)
  else Some p.

Lemma refiled_filed e : (Expiry_refiled e).2 = Expiry_filed (ex_at e).
Proof.
  unfold Expiry_refiled, Expiry_filed. destruct e as [a s]; cbn.
  destruct (Z.eqb_spec s a); cbn; [by subst|done].
Qed.

Lemma expire_slots_ok now todo rest pend rb n :
  todo ++ rb ++ rest ≡ₚ slot_pairs pend -> Forall (fun e => e.1 <= now) todo ->
  exists pend' rb' n',
    foldl (expire_slot now) (pend, rb, n) todo.*2 = (pend', rb', n') /\
    rb' ++ rest ≡ₚ slot_pairs pend' /\ (n' + size pend' = n + size pend)%nat /\
    forall k, pend' !! k = if decide (k ∈ todo.*2) then pend !! k ≫= survive now else pend !! k.
Proof.
  revert pend rb n. induction todo as [|[d k] todo IH]; intros pend rb n Hp Hdue.
  { exists pend, rb, n. split_and!; try done. }
  apply Forall_cons in Hdue as [Hd Hdue]. cbn [fst] in Hd.
  assert (NoDup (k :: todo.*2 ++ (rb ++ rest).*2)) as [Hk _]%NoDup_cons.
  { rewrite <- fmap_app, <- (fmap_cons snd (d, k)), app_comm_cons, Hp. apply NoDup_slot_keys. }
  rewrite elem_of_app in Hk.
  destruct (proj1 (elem_of_slot_pairs d k pend)) as (p & Hkp & Hslot); [rewrite <- Hp; set_solver|].
  cbn [fmap list_fmap foldl snd]. unfold expire_slot at 2. rewrite Hkp.
  pose proof (slot_pairs_delete k p pend Hkp) as Hdel. rewrite Hslot in Hdel.
  assert (todo ++ rb ++ rest ≡ₚ slot_pairs (delete k pend)) as Hp'.
  { apply (Permutation_cons_inv (a := (d, k))). by rewrite <- Hdel, <- Hp. }
  destruct (ex_at (p_expiry p) <=? now) eqn:Eat; reflect.
  - destruct (IH (delete k pend) rb (S n) Hp' Hdue) as (pend' & rb' & n' & -> & ? & Hn & Hlk).
    exists pend', rb', n'. split_and!; try done.
    { rewrite <- (insert_delete_id pend k p Hkp), map_size_insert_None by apply lookup_delete_eq. lia. }
    intros k'. rewrite Hlk. destruct (decide (k' = k)) as [->|].
    + rewrite decide_False, lookup_delete_eq, decide_True by (tauto || by left).
      rewrite Hkp. cbn. unfold survive. rewrite Hslot.
      rewrite (proj2 (Z.leb_le d now)), (proj2 (Z.leb_le _ now)) by done. done.
    + rewrite lookup_delete_ne by done. repeat case_decide; set_solver.
  - rewrite refiled_filed. set (p' := with_expiry _ p).
    destruct (IH (<[k := p']> pend) (rb ++ [(ex_at (p_expiry p), k)]) n) as (pend' & rb' & n' & E & ? & Hn & Hlk);
      [|done|].
    { rewrite <- insert_delete_eq, slot_pairs_insert, <- Hp' by apply lookup_delete_eq.
      cbn [p_expiry p' with_expiry Expiry_filed ex_slot].
      rewrite <- !app_assoc, (app_assoc todo), (app_assoc todo). symmetry. apply Permutation_middle. }
    exists pend', rb', n'. split_and!; try done.
    { by rewrite Hn, map_size_insert_Some. }
    intros k'. rewrite Hlk. destruct (decide (k' = k)) as [->|].
    + rewrite decide_False, lookup_insert_eq, decide_True by (tauto || by left).
      rewrite Hkp. cbn. unfold survive. rewrite Hslot.
      rewrite (proj2 (Z.leb_le d now)), (proj2 (Z.leb_gt _ now)) by done. done.
    + rewrite lookup_insert_ne by done. repeat case_decide; set_solver.
Qed.

Lemma expire_buckets_ok now index st :
  index_sorted index ->
  exists todo index', expire_buckets now index st = (index', foldl (expire_slot now) st todo.*2) /\
    index_pairs index = todo ++ index_pairs index' /\ index_sorted index' /\
    Forall (fun e => e.1 <= now) todo /\ Forall (fun e => now < e.1) (index_pairs index').
Proof.
  unfold index_sorted. revert st. induction index as [|[at_ keys] rest IH]; intros st Hs.
  { exists [], []. done. }
  pose proof Hs as [Hs' Hall]%StronglySorted_inv. cbn [expire_buckets].
  destruct (at_ <=? now) eqn:E; reflect.
  - destruct (IH (foldl (expire_slot now) st keys) Hs') as (todo & index' & -> & Hp & ? & ? & ?).
    exists ((pair at_ <$> keys) ++ todo), index'. split_and!; try done.
    + rewrite fmap_app, foldl_app. do 2 f_equal. f_equal.
      rewrite <- list_fmap_compose. symmetry. apply list_fmap_id.
    + by rewrite index_pairs_cons, Hp, app_assoc.
    + apply Forall_app; split; [|done]. apply Forall_fmap, Forall_true. done.
  - exists [], ((at_, keys) :: rest). split_and!; try done.
    apply Forall_forall. intros [d k] Hin%elem_of_index_pairs. cbn in Hin |- *.
    rewrite Forall_forall in Hall. apply elem_of_cons in Hin as [->|Hin]; [done|].
    apply Hall in Hin. cbn in Hin. lia.
Qed.

(** ** Runs of a reassembler *)

(** What parsing guarantees of a fragment: an aligned offset, and for IPv4 a header
    as long as its IHL says. *)
Definition fragment_ok (f : Fragment) : Prop :=
  (f_start f mod 8 = 0)%nat /\
  (f_next_header_at f = None ->
   exists first rest, f_headers f = first :: rest /\
     (Z.to_nat (Z.land first 0x0f) * 4 <= length (f_headers f))%nat).

(** A datagram holds fragments of its own key that were pushed, or is poisoned. *)
Definition pending_ok (log : list Fragment) (key : Key) (p : Pending) : Prop :=
  p_poisoned p = true \/
  exists fs, represents p fs /\ Forall (fun f => fragment_key f = key /\ f ∈ log) fs.

(** The invariant after the pushes of [log], the clock at [c]: at most
    [max_pending] datagrams, an ordered index with exactly one slot for each, and
    no slot later than its deadline. *)
Record reassembler_ok (r : Reassembler) (c : Instant) (log : list Fragment) : Prop := {
  ra_sorted : index_sorted (r_expirations r);
  ra_index : index_pairs (r_expirations r) ≡ₚ slot_pairs (r_pending r);
  ra_bound : (Reassembler_len r <= r_max_pending r)%nat;
  ra_timeout : 0 <= r_timeout r;
  ra_pending : forall k p, r_pending r !! k = Some p -> pending_ok log k p /\
    ex_slot (p_expiry p) <= ex_at (p_expiry p) <= c + r_timeout r;
  ra_log : Forall fragment_ok log;
}.

Lemma pending_ok_mono log log' k p :
  log ⊆ log' -> pending_ok log k p -> pending_ok log' k p.
Proof.
  intros Hsub [?|(fs & ? & Hfs)]; [by left|right]. exists fs. split; [done|].
  eapply Forall_impl; [exact Hfs|]. naive_solver.
Qed.

Lemma pending_ok_expiry log k p e : pending_ok log k p -> pending_ok log k (with_expiry e p).
Proof.
  intros [?|(fs & [] & ?)]; [by left|right]. exists fs. split; [|done]. by split.
Qed.

Lemma Reassembler_expire_ok r c log now :
  reassembler_ok r c log -> c <= now ->
  let r' := (Reassembler_expire r now).2 in
  reassembler_ok r' now log /\ r_pending r' = omap (survive now) (r_pending r) /\
  r_max_pending r' = r_max_pending r /\ r_timeout r' = r_timeout r /\
  ((Reassembler_expire r now).1 + Reassembler_len r' = Reassembler_len r)%nat.
Proof.
  intros [Hs Hix Hb Ht Hp Hl] Hnow. unfold Reassembler_expire.
  destruct (expire_buckets_ok now (r_expirations r) (r_pending r, [], 0%nat) Hs)
    as (todo & index' & -> & Hpairs & Hs' & Hdue & Hlater).
  rewrite Hpairs in Hix.
  destruct (expire_slots_ok now todo (index_pairs index') (r_pending r) [] 0 Hix Hdue)
    as (pend' & rb & n & -> & Hrb & Hn & Hlk). cbn [fst snd].
  set (index2 := foldl _ index' rb).
  assert (forall l ix, index_sorted ix ->
    let ix' := foldl (fun index '(deadline, key) => index_push deadline key index) ix l in
    index_sorted ix' /\ index_pairs ix' ≡ₚ l ++ index_pairs ix) as Hfold.
  { induction l as [|[d k] l IH]; intros ix Hix'; cbn; [done|].
    destruct (IH (index_push d k ix)) as [? Hq]; [by apply index_push_sorted|]. split; [done|].
    rewrite Hq, index_push_pairs. symmetry. apply Permutation_middle. }
  destruct (Hfold rb index' Hs') as [Hs2 Hq2]. fold index2 in Hs2, Hq2.
  assert (pend' = omap (survive now) (r_pending r)) as Hpend.
  { apply map_eq. intros k. rewrite Hlk, lookup_omap. case_decide as Hin; [done|].
    destruct (r_pending r !! k) as [p|] eqn:Hk; [|done]. cbn. unfold survive.
    assert ((ex_slot (p_expiry p), k) ∈ index_pairs index') as Hx.
    { assert ((ex_slot (p_expiry p), k) ∈ slot_pairs (r_pending r)) as Hx by (apply elem_of_slot_pairs; eauto).
      rewrite <- Hix, elem_of_app in Hx. destruct Hx as [Hx|Hx]; [|done].
      destruct Hin. by apply (list_elem_of_fmap_2 snd) in Hx. }
    rewrite Forall_forall in Hlater. apply Hlater in Hx. cbn in Hx.
    by rewrite (proj2 (Z.leb_gt _ now)). }
  cbn [r_pending r_timeout r_max_pending r_expirations with_expirations with_pending].
  assert (size pend' <= size (r_pending r))%nat by lia.
  unfold Reassembler_len in *. cbn [r_pending with_expirations with_pending].
  split_and!; try done; try lia. split; cbn [r_pending r_timeout r_max_pending r_expirations with_expirations with_pending]; try done.
  - by rewrite Hq2.
  - unfold Reassembler_len. cbn. lia.
  - intros k p. rewrite Hpend, lookup_omap. intros (p0 & Hk & Hsv)%bind_Some.
    destruct (Hp k p0 Hk) as [Hok ?]. unfold survive in Hsv.
    destruct (_ <=? now); [destruct (ex_at _ <=? now); [done|]|]; simplify_eq; cbn;
      (split; [auto using pending_ok_expiry|lia]).
Qed.

(** ** Rebuilt packets *)

Lemma take_slice {A} n (l : list A) : take n l = slice 0 n l.
Proof. unfold slice. by rewrite Nat.sub_0_r. Qed.

(** The header fix-ups as writes: total length, cleared fragmentation fields, and a
    checksum summed over the zeroed field. *)
Definition fixed_header (flags : Z) (packet : bytes) : bytes :=
  splice 10 [0; 0] (splice 7 [0] (splice 6 [Z.land flags 0xc0]
    (splice 2 (be_bytes 2 (Z.of_nat (length packet))) packet))).

Lemma fixed_header_ok flags packet :
  (20 <= length packet)%nat ->
  let p := fixed_header flags packet in
  length p = length packet /\
  (forall i, p !! i = if decide (2 <= i < 4)%nat then be_bytes 2 (Z.of_nat (length packet)) !! (i - 2)%nat
             else if decide (i = 6%nat) then Some (Z.land flags 0xc0)
             else if decide (i = 7%nat) then Some 0
             else if decide (10 <= i < 12)%nat then Some 0 else packet !! i).
Proof.
  intros Hlen p. unfold p, fixed_header.
  set (b := be_bytes 2 _). assert (length b = 2%nat) as Hb by apply length_be_bytes.
  assert (length (splice 2 b packet) = length packet) as L1 by (apply length_splice; lia).
  set (p1 := splice 2 b packet) in *.
  assert (length (splice 6 [Z.land flags 0xc0] p1) = length packet) as L2
    by (rewrite length_splice; cbn; lia).
  set (p2 := splice 6 _ p1) in *.
  assert (length (splice 7 [0] p2) = length packet) as L3 by (rewrite length_splice; cbn; lia).
  set (p3 := splice 7 _ p2) in *.
  split; [rewrite length_splice; cbn; lia|]. intros i.
  rewrite lookup_splice by (cbn [length]; lia). cbn [length].
  unfold p3. rewrite lookup_splice by (cbn [length]; lia). cbn [length].
  unfold p2. rewrite lookup_splice by (cbn [length]; lia). cbn [length].
  unfold p1. rewrite lookup_splice by lia. rewrite Hb.
  repeat case_decide; try lia; try done.
  - destruct (i - 10)%nat as [|[|]] eqn:?; [done..|lia].
  - replace (i - 7)%nat with 0%nat by lia. done.
  - replace (i - 6)%nat with 0%nat by lia. done.
Qed.

Lemma byte_at_lookup {E} (l : bytes) i b : l !! i = Some b -> @byte_at E l i = Ok b.
Proof. unfold byte_at. by intros ->. Qed.

Lemma rebuild_v4 {E} headers protocol data first rest :
  headers = first :: rest -> (Z.to_nat (Z.land first 0x0f) * 4 <= length headers)%nat ->
  (20 <= length (headers ++ data))%nat -> Z.shiftr first 4 = 4 ->
  Z.of_nat (length (headers ++ data)) <= U16_MAX ->
  exists flags, (headers ++ data) !! 6%nat = Some flags /\
  let p := fixed_header flags (headers ++ data) in
  @rebuild E headers None protocol data
  = Ok (Some (splice 10 (be_bytes 2 (checksum [take (Z.to_nat (Z.land first 0x0f) * 4) p])) p)).
Proof.
  intros Hh Hihl Hlen Hv Hmax. unfold rebuild.
  assert (length headers <= length (headers ++ data))%nat as Hle by (rewrite length_app; lia).
  set (packet := headers ++ data) in *.
  assert (packet !! 0%nat = Some first) as H0 by (by unfold packet; subst headers).
  destruct (lookup_lt_is_Some_2 packet 6) as [flags Hf]; [lia|]. exists flags. split; [done|].
  destruct (fixed_header_ok flags packet Hlen) as [Lp Hp].
  rewrite (proj2 (Nat.ltb_ge _ _)) by done. rewrite (byte_at_lookup _ _ _ H0).
  cbn [or_panic mbind Res_bind]. rewrite Hv. cbn [Z.eqb Pos.eqb negb].
  unfold u16_try_from. rewrite (proj2 (Z.leb_le _ _)) by done.
  pose proof (length_be_bytes 2 (Z.of_nat (length packet))) as Hb.
  rewrite put_in_bounds by lia. cbn [or_panic mbind Res_bind].
  set (p1 := splice 2 _ packet). assert (length p1 = length packet) as L1 by (apply length_splice; lia).
  assert (p1 !! 6%nat = Some flags) as E6 by (unfold p1; rewrite lookup_splice, decide_False by lia; done).
  rewrite (byte_at_lookup _ _ _ E6). cbn [or_panic mbind Res_bind].
  rewrite (put_in_bounds 6) by (cbn; lia). cbn [or_panic mbind Res_bind].
  set (p2 := splice 6 _ p1). assert (length p2 = length packet) as L2 by (unfold p2; rewrite length_splice; cbn; lia).
  rewrite (put_in_bounds 7) by (cbn; lia). cbn [or_panic mbind Res_bind].
  set (p3 := splice 7 _ p2). assert (length p3 = length packet) as L3 by (unfold p3; rewrite length_splice; cbn; lia).
  rewrite (put_in_bounds 10) by (cbn; lia). cbn [or_panic mbind Res_bind].
  change (splice 10 [0; 0] p3) with (fixed_header flags packet).
  set (p := fixed_header flags packet) in *.
  assert (p !! 0%nat = Some first) as E0 by (rewrite Hp, !decide_False by lia; done).
  rewrite (byte_at_lookup _ _ _ E0). cbn [or_panic mbind Res_bind].
  unfold get_to. rewrite (proj2 (Nat.leb_le _ _)) by lia. cbn [or_panic mbind Res_bind].
  rewrite put_in_bounds by (rewrite length_be_bytes; lia). done.
Qed.

Lemma rebuild_total {E} headers next_header_at protocol data :
  (next_header_at = None -> exists first rest, headers = first :: rest /\
     (Z.to_nat (Z.land first 0x0f) * 4 <= length headers)%nat) ->
  exists o, @rebuild E headers next_header_at protocol data = Ok o.
Proof.
  intros Hh. destruct next_header_at as [nh|].
  - unfold rebuild. set (packet := headers ++ data). destruct (_ <? _)%nat eqn:E1; [by eexists|]. reflect.
    unfold IPV6_HEADER_BYTES in *.
    destruct (lookup_lt_is_Some_2 packet 0) as [first H0]; [lia|].
    rewrite (byte_at_lookup _ _ _ H0). cbn [or_panic mbind Res_bind]. destruct (negb _); [by eexists|].
    destruct (put nh [protocol] packet) as [packet'|] eqn:Ep; [|by eexists].
    apply put_Some in Ep as [Hb ->]. destruct (u16_try_from _) as [len|]; [|by eexists].
    rewrite put_in_bounds; [by eexists|]. rewrite length_splice, length_be_bytes by done. lia.
  - destruct (Hh eq_refl) as (first & rest & Hf & Hihl). clear Hh.
    destruct (decide (20 <= length (headers ++ data))%nat) as [Hlen|Hlen].
    2:{ unfold rebuild. rewrite (proj2 (Nat.ltb_lt _ _)) by lia. by eexists. }
    destruct (Z.eq_dec (Z.shiftr first 4) 4) as [Hv|Hv].
    2:{ unfold rebuild. rewrite (proj2 (Nat.ltb_ge _ _)) by lia. unfold byte_at. subst headers. cbn -[Z.shiftr].
        rewrite (proj2 (Z.eqb_neq _ _)) by done. by eexists. }
    destruct (decide (Z.of_nat (length (headers ++ data)) <= U16_MAX)) as [Hmax|Hmax].
    + destruct (@rebuild_v4 E headers protocol data first rest) as (? & _ & ->); try done. by eexists.
    + unfold rebuild. rewrite (proj2 (Nat.ltb_ge _ _)) by lia. unfold byte_at, u16_try_from.
      rewrite (proj2 (Z.leb_gt _ _)) by lia. subst headers. cbn [app lookup list_lookup or_panic mbind Res_bind].
      destruct (negb _); by eexists.
Qed.

Lemma byte_ok_land a b : byte_ok a -> byte_ok (Z.land a (Z.of_N b)).
Proof.
  unfold uint_ok. intros Ha. assert (0 <= Z.land a (Z.of_N b)) by (apply Z.land_nonneg; lia).
  split; [done|]. destruct (Z.eq_dec (Z.land a (Z.of_N b)) 0) as [->|]; [lia|].
  apply Z.log2_lt_pow2; [lia|]. eapply Z.le_lt_trans; [apply Z.log2_land; lia|].
  apply Z.min_lt_iff. left. destruct (Z.eq_dec a 0) as [->|]; [cbn; lia|]. apply Z.log2_lt_pow2; lia.
Qed.

(** an IPv4 datagram rebuilt from the headers of its first fragment and the
    reassembled data is the same packet with its Total Length set to its size, its
    More Fragments flag and offset cleared, and a header checksum that verifies;
    the data follows the header unchanged. *)
Theorem rebuild_ipv4_correct {E} headers protocol data first rest :
  headers = first :: rest -> length headers = (Z.to_nat (Z.land first 0x0f) * 4)%nat ->
  (20 <= length headers)%nat -> Z.shiftr first 4 = 4 -> bytes_ok (headers ++ data) ->
  Z.of_nat (length (headers ++ data)) <= U16_MAX ->
  exists packet, @rebuild E headers None protocol data = Ok (Some packet) /\
    length packet = length (headers ++ data) /\ drop (length headers) packet = data /\
    slice 2 4 packet = be_bytes 2 (Z.of_nat (length packet)) /\
    (forall flags, headers !! 6%nat = Some flags -> slice 6 8 packet = [Z.land flags 0xc0; 0]) /\
    (forall i, (i < length headers)%nat -> i ∉ [2; 3; 6; 7; 10; 11]%nat -> packet !! i = headers !! i) /\
    checksum [take (length headers) packet] = 0.
Proof.
  intros Hh Hihl Hlen Hv Hok Hmax.
  assert (length headers <= length (headers ++ data))%nat as Hle by (rewrite length_app; lia).
  destruct (@rebuild_v4 E headers protocol data first rest) as (flags & Hf & ->); try done; try lia.
  set (p := fixed_header flags (headers ++ data)). rewrite <- Hihl.
  set (c := checksum [take (length headers) p]).
  destruct (fixed_header_ok flags (headers ++ data)) as [Lp Hp]; [lia|]. fold p in Lp, Hp.
  pose proof (length_be_bytes 2 c) as Lc.
  assert (forall i, ~ (10 <= i < 12)%nat -> splice 10 (be_bytes 2 c) p !! i = p !! i) as Hsame
    by (intros; rewrite lookup_splice, decide_False by lia; done).
  exists (splice 10 (be_bytes 2 c) p). rewrite length_splice by lia. split_and!; try done.
  - apply list_eq. intros i. rewrite lookup_drop, Hsame, Hp, !decide_False by lia.
    rewrite lookup_app_r by lia. f_equal. lia.
  - rewrite slice_splice_disjoint by lia. rewrite Lp. apply list_eq. intros [|[|i]].
    1,2: rewrite lookup_slice, Hp by lia; done.
    rewrite !lookup_ge_None_2; [done|rewrite length_be_bytes; lia|unfold slice; rewrite length_take; lia].
  - intros fl Hfl. rewrite lookup_app_l in Hf by lia. rewrite Hfl in Hf. injection Hf as ->.
    rewrite slice_splice_disjoint by lia. apply list_eq. intros [|[|i]].
    1,2: rewrite lookup_slice, Hp by lia; done.
    rewrite !lookup_ge_None_2; [done|cbn; lia|unfold slice; rewrite length_take; lia].
  - intros i Hi Hni. assert (i <> 2 /\ i <> 3 /\ i <> 6 /\ i <> 7 /\ i <> 10 /\ i <> 11)%nat by set_solver.
    rewrite Hsame, Hp, !decide_False by lia. by rewrite lookup_app_l by lia.
  - rewrite take_slice, slice_splice_inside by lia. rewrite Lc.
    assert (bytes_ok p) as Hpok.
    { assert (byte_ok (Z.land flags 0xc0)) by (apply (byte_ok_land _ 192); by eapply Forall_lookup_1 in Hok).
      unfold p, fixed_header. repeat apply splice_ok; auto with boreas; by repeat (constructor; [done|]). }
    apply header_checksum_verifies; auto using slice_ok.
    + rewrite length_slice by lia. by exists 5%nat.
    + rewrite !length_slice by lia. unfold CHECKSUM_MAX, U16_MAX in *. lia.
    + unfold c. do 2 f_equal. rewrite take_slice.
      etransitivity; [|apply (slice_splice_inside 0 (length headers) 10 [0; 0] p); cbn [length]; lia].
      f_equal. apply list_eq. intros i. rewrite lookup_splice by (cbn [length]; lia). cbn [length].
      case_decide; [|done]. rewrite Hp, !decide_False, decide_True by lia.
      destruct (i - 10)%nat as [|[|]] eqn:?; [done..|lia].
Qed.

(** ** Pushing a fragment *)

Lemma usable_of f : unusable f = false -> fragment_ok f -> usable f.
Proof.
  unfold unusable. intros Hu [Ha _]. rewrite !orb_false_iff, andb_false_iff in Hu.
  destruct Hu as [[H1 H2] H3]. reflect. split; try done.
  - destruct (f_payload f); [done|cbn; lia].
  - intros Em. destruct H3 as [H3|H3]; [congruence|]. by reflect.
Qed.

Lemma reassembler_ok_log r c now log log' :
  reassembler_ok r c log -> c <= now -> log ⊆ log' -> Forall fragment_ok log' ->
  reassembler_ok r now log'.
Proof.
  intros [? ? ? ? Hp ?] ? ? ?. split; try done. intros k p Hk. destruct (Hp k p Hk).
  split; [by eapply pending_ok_mono|lia].
Qed.

Lemma reassembler_ok_discard r c log :
  reassembler_ok r c log -> reassembler_ok (discard r).2 c log.
Proof. by intros []. Qed.

Lemma pending_entry_ok r c log now key :
  reassembler_ok r c log -> c <= now ->
  let deadline := now + r_timeout r in
  let '(p, r1) := pending_entry key deadline r in
  r_pending r1 = r_pending r /\ r_max_pending r1 = r_max_pending r /\ r_timeout r1 = r_timeout r /\
  index_sorted (r_expirations r1) /\ pending_ok log key p /\
  (forall p', p_expiry p' = p_expiry p ->
     index_pairs (r_expirations r1) ≡ₚ slot_pairs (<[key := p']> (r_pending r))) /\
  ex_slot (p_expiry p) <= ex_at (p_expiry p) <= now + r_timeout r.
Proof.
  intros [Hs Hix _ Ht Hp _] Hnow deadline. unfold pending_entry.
  destruct (r_pending r !! key) as [p|] eqn:Hk.
  - destruct (Hp _ _ Hk) as [? ?]. split_and!; try done; try (cbn; lia).
    + by apply pending_ok_expiry.
    + intros p' Hp'. rewrite (slot_pairs_update key p) by (try done; by rewrite Hp'). done.
  - cbn [r_pending r_max_pending r_timeout r_expirations with_expirations].
    split_and!; try done; try (cbn; lia).
    + by apply index_push_sorted.
    + right. exists []. split; [|done]. apply (represents_new (Expiry_filed deadline)).
    + intros p' Hp'. rewrite index_push_pairs, slot_pairs_insert, Hix, Hp' by done. done.
Qed.

(** What a completed packet is made of: fragments of one datagram that were pushed,
    tiling its data, behind the headers of the one at offset zero. *)
Definition completed {E} (log : list Fragment) (f : Fragment) (packet : bytes) : Prop :=
  exists fs data first, f ∈ fs /\
    Forall (fun g => fragment_key g = fragment_key f /\ g ∈ log) fs /\ tiles fs data /\
    first ∈ fs /\ f_start first = 0%nat /\
    @rebuild E (f_headers first) (f_next_header_at first) (f_protocol f) data = Ok (Some packet).

(** A finished datagram rebuilds without panicking, into a [completed] packet. *)
Lemma finish_ok {E} log f p fs :
  represents p (f :: fs) -> Pending_is_complete p = true -> Forall fragment_ok log ->
  Forall (fun g => fragment_key g = fragment_key f /\ g ∈ log) (f :: fs) ->
  exists o, @rebuild E (p_headers p) (p_next_header_at p) (f_protocol f)
              (take (default 0%nat (p_total p)) (p_data p)) = Ok o /\
    forall packet, o = Some packet -> @completed E log f packet.
Proof.
  intros Hrep Hc Hlog Hkeys.
  destruct (complete_tiles p _ Hrep Hc) as (t & Ht & Hlen & Htiles). rewrite Ht. cbn [default].
  rewrite take_ge by (cbn; lia). destruct Htiles as [Hin Hcover].
  destruct Hrep as [_ _ _ _ Ru Rdat _ _ Rh].
  assert (0 < length (p_data p))%nat as Hpos.
  { apply Forall_cons in Rdat as [[He _] _]. apply Forall_cons in Ru as [[? _ _ _] _].
    unfold f_extent in He. lia. }
  destruct (Hcover 0%nat Hpos) as (first & Hf & Hstart).
  rewrite Forall_forall in Rh. destruct (Rh first Hf) as [-> ->]; [lia|].
  rewrite Forall_forall in Hlog, Hkeys. destruct (Hkeys first Hf) as [_ Hfl].
  destruct (Hlog first Hfl) as [_ Hhdr].
  destruct (@rebuild_total E (f_headers first) (f_next_header_at first) (f_protocol f) (p_data p) Hhdr)
    as [o Ho].
  exists o. split; [done|]. intros packet ->. exists (f :: fs), (p_data p), first.
  split_and!; try done; [by left|by apply Forall_forall|lia].
Qed.

Lemma store_ok r1 c log key p :
  index_sorted (r_expirations r1) ->
  index_pairs (r_expirations r1) ≡ₚ slot_pairs (<[key := p]> (r_pending r1)) ->
  (size (<[key := p]> (r_pending r1)) <= r_max_pending r1)%nat -> 0 <= r_timeout r1 ->
  (forall k p, r_pending r1 !! k = Some p -> pending_ok log k p /\
     ex_slot (p_expiry p) <= ex_at (p_expiry p) <= c + r_timeout r1) ->
  pending_ok log key p -> ex_slot (p_expiry p) <= ex_at (p_expiry p) <= c + r_timeout r1 ->
  Forall fragment_ok log ->
  reassembler_ok (with_pending (<[key := p]> (r_pending r1)) r1) c log.
Proof.
  intros ? ? ? ? Hall ? ? ?. split; try done.
  intros k p'. cbn. intros [[<- <-]|[_ Hk]]%lookup_insert_Some; [done|by apply Hall].
Qed.

Lemma remove_ok r c log key p :
  reassembler_ok r c log -> r_pending r !! key = Some p ->
  reassembler_ok (Reassembler_forget_slot (ex_slot (p_expiry p)) key
                    (with_pending (delete key (r_pending r)) r)) c log.
Proof.
  intros [Hs Hix Hb Ht Hp Hl] Hk.
  destruct (index_forget_ok (ex_slot (p_expiry p)) key (r_expirations r) Hs) as [Hperm Hsub].
  { rewrite Hix. apply elem_of_slot_pairs. eauto. }
  split; cbn [r_pending r_expirations r_timeout r_max_pending with_pending with_expirations
              Reassembler_forget_slot]; try done.
  - unfold index_sorted. by eapply sorted_sublist.
  - apply (Permutation_cons_inv (a := (ex_slot (p_expiry p), key))).
    by rewrite <- Hperm, Hix, (slot_pairs_delete key p).
  - unfold Reassembler_len in *. etrans; [|exact Hb]. apply map_subseteq_size, delete_subseteq.
  - intros k p' [_ Hk']%lookup_delete_Some. by apply Hp.
Qed.

(** The capacity test of a push: room for a datagram of this key afterwards. *)
Lemma crowded_ok r c log now key :
  reassembler_ok r c log -> c <= now ->
  let full r := (Reassembler_len r =? r_max_pending r)%nat in
  let crowded := negb (bool_decide (is_Some (r_pending r !! key))) && full r in
  let r1 := if crowded then (Reassembler_expire r now).2 else r in
  reassembler_ok r1 now log /\ r_timeout r1 = r_timeout r /\
  (crowded && full r1 = false -> forall p, (size (<[key := p]> (r_pending r1)) <= r_max_pending r1)%nat).
Proof.
  intros Hok Hnow full crowded r1.
  assert (forall r0, reassembler_ok r0 now log ->
    (size (r_pending r0) < r_max_pending r0)%nat \/ is_Some (r_pending r0 !! key) ->
    forall p, (size (<[key := p]> (r_pending r0)) <= r_max_pending r0)%nat) as Hroom.
  { intros r0 [_ _ Hb _ _ _] Hr p. unfold Reassembler_len in Hb.
    destruct (r_pending r0 !! key) as [p0|] eqn:Hk.
    - rewrite map_size_insert_Some by eauto. done.
    - destruct Hr as [?|[? ?]]; [|done]. rewrite map_size_insert_None by done. lia. }
  assert (reassembler_ok r1 now log /\ r_timeout r1 = r_timeout r) as [Hok1 Ht1].
  { unfold r1. destruct crowded.
    - destruct (Reassembler_expire_ok r c log now Hok Hnow) as (? & _ & _ & ? & _). done.
    - split; [|done]. eapply reassembler_ok_log; try done. apply Hok. }
  split_and!; try done. intros Hfull. apply Hroom; [done|].
  pose proof (ra_bound _ _ _ Hok1) as Hb1. unfold r1, full, Reassembler_len in *.
  destruct crowded eqn:Ec.
  - cbn [andb] in Hfull. reflect. left. lia.
  - unfold crowded in Ec. apply andb_false_iff in Ec as [Ec|Ec].
    + right. apply negb_false_iff, bool_decide_eq_true in Ec. done.
    + unfold full, Reassembler_len in Ec. reflect. left. lia.
Qed.

Lemma Reassembler_push_ok {E} r c log f now :
  reassembler_ok r c log -> c <= now -> now + r_timeout r <= INSTANT_MAX -> fragment_ok f ->
  exists out r', @Reassembler_push E r f now = Ok (out, r') /\ reassembler_ok r' now (f :: log) /\
    match out with
    | PushComplete packet => @completed E (f :: log) f packet
    | _ => True
    end.
Proof.
  intros Hok Hnow Hmax Hf. unfold Reassembler_push.
  assert (reassembler_ok r c (f :: log)) as Hok'.
  { eapply reassembler_ok_log; [done|lia|set_solver|]. constructor; [done|apply Hok]. }
  destruct (unusable f) eqn:Hu.
  { do 2 eexists. split; [done|]. split; [|done]. apply reassembler_ok_discard.
    eapply reassembler_ok_log; [done|lia|done|apply Hok']. }
  pose proof (usable_of f Hu Hf) as Hus. set (key := fragment_key f).
  destruct (crowded_ok r c (f :: log) now key Hok' Hnow) as (Hok1 & Ht1 & Hroom).
  cbv zeta. set (crowded := negb _ && _) in *.
  set (r1 := if crowded then _ else r) in *.
  destruct (crowded && _) eqn:Hfull.
  { do 2 eexists. split; [done|]. split; [by apply reassembler_ok_discard|done]. }
  specialize (Hroom eq_refl). unfold instant_checked_add, checked_add.
  rewrite (proj2 (Z.leb_le _ _)) by lia. cbn [default from_option id].
  pose proof (pending_entry_ok r1 now (f :: log) now key Hok1 ltac:(lia)) as Hentry. cbv zeta in Hentry.
  destruct (pending_entry key (now + r_timeout r1) r1) as [p r2].
  destruct Hentry as (Epend & Emax & Etime & Hs2 & Hpok & Hix2 & Hexp).
  assert (exists fs, (p_poisoned p = true \/ represents p fs) /\
            Forall (fun g => fragment_key g = key /\ g ∈ f :: log) fs) as (fs & Hp & Hfs).
  { destruct Hpok as [?|(fs & ? & ?)]; [exists []; split; [by left|constructor]|exists fs; auto]. }
  destruct (@Pending_accept_ok E p fs f Hus Hp) as (v & p' & -> & Hexp' & Hv).
  cbn [mbind Res_bind].
  assert (reassembler_ok (with_pending (<[key := p']> (r_pending r2)) r2) now (f :: log)) as Hok3.
  { apply store_ok; rewrite ?Epend, ?Emax, ?Etime, ?Hexp'; try done;
      [by apply Hix2|apply (ra_timeout _ _ _ Hok1)|apply (ra_pending _ _ _ Hok1)| |
       apply (ra_log _ _ _ Hok1)].
    destruct v; [by left|..]; right; exists (f :: fs); (split; [by apply Hv|]);
        (constructor; [split; [done|by left]|done]). }
  destruct v.
  - do 2 eexists. split; [done|]. split; [by apply reassembler_ok_discard|done].
  - do 2 eexists. split; [done|]. done.
  - destruct Hv as [Hrep Hc].
    destruct (@finish_ok E (f :: log) f p' fs Hrep Hc) as (o & Ho & Hcompl); [apply Hok1| |].
    { constructor; [split; [done|by left]|done]. }
    change (k_protocol key) with (f_protocol f). rewrite Ho. cbn [mbind Res_bind].
    pose proof (remove_ok _ now (f :: log) key p' Hok3 (lookup_insert_eq _ _ _)) as Hok4.
    cbn [r_pending with_pending] in Hok4 |- *.
    destruct o as [packet|]; do 2 eexists; (split; [done|]); (split; [|by auto]).
    + exact Hok4.
    + by apply reassembler_ok_discard.
Qed.

(** ** Runs

    Pushes of parsed fragments and expiry passes, the clock never going back and
    never within [timeout] of its end. *)

Inductive run : Reassembler -> Instant -> list Fragment -> Prop :=
| run_new timeout max_pending c : 0 <= timeout -> run (Reassembler_new timeout max_pending) c []
| run_push r c log f now out r' :
    run r c log -> c <= now -> now + r_timeout r <= INSTANT_MAX -> fragment_ok f ->
    @Reassembler_push unit r f now = Ok (out, r') -> run r' now (f :: log)
| run_expire r c log now : run r c log -> c <= now -> run (Reassembler_expire r now).2 now log.

Lemma run_ok r c log : run r c log -> reassembler_ok r c log.
Proof.
  induction 1 as [timeout max c Ht|r c log f now out r' _ IH ? ? ? Hpush|r c log now _ IH ?].
  - split; cbn; try done; try (by constructor). unfold Reassembler_len. cbn [r_pending Reassembler_new].
    rewrite map_size_empty. lia.
  - destruct (@Reassembler_push_ok unit r c log f now) as (? & ? & E & ? & _); try done. congruence.
  - by eapply Reassembler_expire_ok.
Qed.

(** C33: on any run a push never panics, and a packet it completes is built from
    pushed fragments of one datagram only: they lie inside the data with their
    bytes in place, leave no gap, and the packet is the data behind the headers of
    the fragment at offset zero. *)
Theorem push_reassembles r c log f now :
  run r c log -> c <= now -> now + r_timeout r <= INSTANT_MAX -> fragment_ok f ->
  match @Reassembler_push unit r f now with
  | Ok (PushComplete packet, _) => @completed unit (f :: log) f packet
  | Ok _ => True
  | _ => False
  end.
Proof.
  intros Hrun%run_ok ? ? ?.
  destruct (@Reassembler_push_ok unit r c log f now) as (out & r' & -> & _ & Hout); try done.
Qed.

(** on any run at most [max_pending] datagrams are held, the expiry index holds
    exactly one slot for each of them, and [next_deadline] is no later than any
    datagram's deadline. *)
Theorem reassembler_bounded r c log :
  run r c log ->
  (Reassembler_len r <= r_max_pending r)%nat /\
  index_pairs (r_expirations r) ≡ₚ slot_pairs (r_pending r) /\
  map_Forall (fun _ p => exists d, Reassembler_next_deadline r = Some d /\ d <= ex_at (p_expiry p))
    (r_pending r).
Proof.
  intros [Hs Hix Hb _ Hp _]%run_ok. split_and!; try done. intros k p Hk.
  assert ((ex_slot (p_expiry p), k) ∈ index_pairs (r_expirations r)) as Hin%elem_of_index_pairs.
  { rewrite Hix. apply elem_of_slot_pairs. eauto. }
  destruct (Hp k p Hk) as [_ [Hle _]]. unfold Reassembler_next_deadline, index_sorted in *.
  destruct (r_expirations r) as [|[d keys] rest]; [set_solver|]. exists d. split; [done|].
  apply StronglySorted_inv in Hs as [_ Hall]. rewrite Forall_forall in Hall.
  apply elem_of_cons in Hin as [E|Hin]; [cbn in E; lia|]. apply Hall in Hin. cbn in Hin. lia.
Qed.

(** on any run an expiry pass evicts exactly the datagrams whose deadline has
    arrived, counts them, and leaves the others' fragments and deadlines alone. *)
Theorem reassembler_expire_exact r c log now :
  run r c log -> c <= now ->
  let '(evicted, r') := Reassembler_expire r now in
  (evicted + Reassembler_len r' = Reassembler_len r)%nat /\
  forall k, match r_pending r !! k with
            | Some p => if ex_at (p_expiry p) <=? now then r_pending r' !! k = None
                        else exists e, r_pending r' !! k = Some (with_expiry e p) /\
                                       ex_at e = ex_at (p_expiry p)
            | None => r_pending r' !! k = None
            end.
Proof.
  intros Hrun%run_ok Hnow.
  destruct (Reassembler_expire_ok r c log now Hrun Hnow) as (_ & Hpend & _ & _ & Hn).
  destruct (Reassembler_expire r now) as [evicted r']. cbn [fst snd] in *. split; [done|].
  intros k. rewrite Hpend, lookup_omap. destruct (r_pending r !! k) as [p|] eqn:Hk; [|done].
  destruct (ra_pending _ _ _ Hrun k p Hk) as [_ [Hle _]]. cbn. unfold survive.
  destruct (ex_at (p_expiry p) <=? now) eqn:Ea; reflect.
  - by rewrite (proj2 (Z.leb_le _ now)) by lia.
  - destruct (ex_slot (p_expiry p) <=? now); [by exists (Expiry_filed (ex_at (p_expiry p)))|].
    exists (p_expiry p). by destruct p.
Qed.

(** ** A concrete run: two fragments of an IPv4 datagram, out of order *)

Definition sample_headers : bytes :=
  [69; 0; 0; 28; 0; 7; 32; 0; 64; 17; 0; 0; 10; 0; 0; 2; 192; 0; 2; 7].
Definition sample_first : Fragment :=
  mkFragment (V4 [10; 0; 0; 2]) (V4 [192; 0; 2; 7]) 17 7 0 true [1; 2; 3; 4; 5; 6; 7; 8] sample_headers None.
Definition sample_last : Fragment :=
  mkFragment (V4 [10; 0; 0; 2]) (V4 [192; 0; 2; 7]) 17 7 8 false [9; 10; 11] sample_headers None.
Definition sample_reassembler : Reassembler := Reassembler_new (from_secs 30) 4.
Definition after_last : Reassembler :=
  match @Reassembler_push unit sample_reassembler sample_last 5 with
  | Ok (_, r) => r
  | _ => sample_reassembler
  end.

Lemma sample_fragments_ok : fragment_ok sample_first /\ fragment_ok sample_last.
Proof.
  split; (split; [done|]); intros _; do 2 eexists; (split; [done|]); vm_compute; lia.
Qed.

Lemma after_last_run : run after_last 5 [sample_last].
Proof.
  eapply (run_push sample_reassembler 0 [] sample_last 5 PushPending); [by constructor|done| | |].
  - by vm_compute.
  - apply sample_fragments_ok.
  - vm_compute. reflexivity.
Qed.

Lemma push_reassembles_witness :
  match @Reassembler_push unit after_last sample_first 6 with
  | Ok (PushComplete packet, _) => @completed unit [sample_first; sample_last] sample_first packet
  | Ok _ => True
  | _ => False
  end.
Proof.
  apply (push_reassembles after_last 5 [sample_last] sample_first 6);
    [apply after_last_run|done|by vm_compute|apply sample_fragments_ok].
Defined.

Lemma reassembler_bounded_witness :
  (Reassembler_len after_last <= r_max_pending after_last)%nat /\
  index_pairs (r_expirations after_last) ≡ₚ slot_pairs (r_pending after_last) /\
  map_Forall (fun _ p => exists d, Reassembler_next_deadline after_last = Some d /\ d <= ex_at (p_expiry p))
    (r_pending after_last).
Proof. apply (reassembler_bounded after_last 5 [sample_last]). apply after_last_run. Defined.

Lemma reassembler_expire_exact_witness :
  let '(evicted, r') := Reassembler_expire after_last (from_secs 31) in
  (evicted + Reassembler_len r' = Reassembler_len after_last)%nat /\
  forall k, match r_pending after_last !! k with
            | Some p => if ex_at (p_expiry p) <=? from_secs 31 then r_pending r' !! k = None
                        else exists e, r_pending r' !! k = Some (with_expiry e p) /\
                                       ex_at e = ex_at (p_expiry p)
            | None => r_pending r' !! k = None
            end.
Proof.
  apply (reassembler_expire_exact after_last 5 [sample_last] (from_secs 31)); [apply after_last_run|].
  unfold from_secs, NANOS. lia.
Defined.

Lemma rebuild_ipv4_correct_witness :
  exists packet, @rebuild unit sample_headers None 17 [1; 2; 3] = Ok (Some packet) /\
    length packet = length (sample_headers ++ [1; 2; 3]) /\
    drop (length sample_headers) packet = [1; 2; 3] /\
    slice 2 4 packet = be_bytes 2 (Z.of_nat (length packet)) /\
    (forall flags, sample_headers !! 6%nat = Some flags -> slice 6 8 packet = [Z.land flags 0xc0; 0]) /\
    (forall i, (i < length sample_headers)%nat -> i ∉ [2; 3; 6; 7; 10; 11]%nat ->
       packet !! i = sample_headers !! i) /\
    checksum [take (length sample_headers) packet] = 0.
Proof.
  eapply (rebuild_ipv4_correct sample_headers 17 [1; 2; 3] 69); try reflexivity.
  - repeat constructor; done.
  - done.
Defined.

Example push_completes_sample :
  (match @Reassembler_push unit after_last sample_first 6 with
   | Ok (PushComplete packet, r) => Some (drop 20 packet, slice 2 4 packet, Reassembler_len r)
   | _ => None
   end) = Some ([1; 2; 3; 4; 5; 6; 7; 8; 9; 10; 11], [0; 31], 0%nat).
Proof. vm_compute. reflexivity. Qed.

(** ** Parsing *)

(** More fuel than the packet has bytes changes nothing: each round reads the
    packet at a cursor that has moved past the last one. *)
Lemma ipv6_header_loop_fuel packet f f' nh at_ :
  (nh < at_)%nat -> (length packet - nh < f)%nat -> (length packet - nh < f')%nat ->
  ipv6_header_loop f packet nh at_ = ipv6_header_loop f' packet nh at_.
Proof.
  revert f' nh at_. induction f as [|f IH]; intros [|f'] nh at_ Hlt Hf Hf'; [lia..|].
  cbn [ipv6_header_loop]. destruct (packet !! nh) as [next|] eqn:En; [|done].
  apply lookup_lt_Some in En. cbn [mbind option_bind]. destruct (next =? IPV6_FRAGMENT); [done|].
  assert (forall len, (8 <= len)%nat ->
    ipv6_header_loop f packet at_ (at_ + len) = ipv6_header_loop f' packet at_ (at_ + len)) as Hnext
    by (intros; apply IH; lia).
  destruct (existsb _ _); [|destruct (next =? 51); [|done]];
    (destruct (packet !! (at_ + 1)%nat); [|done]); cbn [mbind option_bind]; apply Hnext; lia.
Qed.

(** What the header parser guarantees of an IPv4 or IPv6 fragment. *)
Class FragmentLaws `{Etherparse} : Prop := {
  v4_header_within : forall packet sliced ipv4,
    from_ip packet = inr sliced -> sliced_net sliced = Some (NetIpv4 ipv4) ->
    exists first rest, packet = first :: rest /\ v4_ihl ipv4 = Z.land first 0x0f /\
      5 <= v4_ihl ipv4 /\ (Z.to_nat (v4_ihl ipv4) * 4 <= length packet)%nat;
  v4_offset_range : forall packet sliced ipv4,
    from_ip packet = inr sliced -> sliced_net sliced = Some (NetIpv4 ipv4) ->
    0 <= v4_fragments_offset ipv4 < 2 ^ 13;
  v6_offset_range : forall packet sliced ipv6 header,
    from_ip packet = inr sliced -> sliced_net sliced = Some (NetIpv6 ipv6) ->
    v6_fragment_header ipv6 = Some header -> 0 <= fh_fragment_offset header < 2 ^ 13;
}.

Lemma aligned8 v : 0 <= v -> (Z.to_nat (v * 8) mod 8 = 0)%nat.
Proof. intros. rewrite Z2Nat.inj_mul by lia. apply Nat.Div0.mod_mul. Qed.

(** Every parsed fragment is one [push] accepts the invariant of, and its offset
    fits the source's 16-bit field. *)
Lemma Fragment_parse_ok `{FragmentLaws} packet f :
  Fragment_parse packet = Ok (Some f) -> fragment_ok f /\ u16_ok (f_offset f).
Proof.
  unfold Fragment_parse, uint_ok. destruct (from_ip packet) as [e|sliced] eqn:Hs; [done|].
  cbn [mbind Res_bind]. destruct (sliced_net sliced) as [[ipv4|ipv6|]|] eqn:Hn; try done.
  - destruct (negb _); [done|]. intros [= <-].
    destruct (v4_header_within _ _ _ Hs Hn) as (first & rest & Hp & Hihl & H5 & Hlen).
    pose proof (v4_offset_range _ _ _ Hs Hn).
    split; [split; [apply aligned8; lia|]|cbn; lia]. intros _. cbn [f_headers].
    unfold get_to. rewrite (proj2 (Nat.leb_le _ _)) by done. cbn [from_option]. unfold id.
    rewrite Hihl in *. exists first. rewrite length_take, Hp.
    destruct (Z.to_nat (Z.land first 15)) as [|n] eqn:En; [lia|].
    cbn [Nat.mul Nat.add take]. eexists. split; [done|]. rewrite <- Hp. lia.
  - destruct (negb _); [done|]. destruct (v6_fragment_header ipv6) as [header|] eqn:Hh; [|done].
    destruct (ipv6_fragment_header packet) as [[nh at_]|]; [|done]. intros [= <-].
    pose proof (v6_offset_range _ _ _ _ Hs Hn Hh).
    split; [split; [apply aligned8; lia|done]|cbn; lia].
Qed.
