(* ===== verification/Pool.v ===== *)
(** The bounded buffer pool ([src/pool.rs]).  Each operation is one critical
    section of the pool's mutex, so a concurrent execution is a sequence of
    operations on the pool and its outstanding loans. *)

From S2P Require Import Prelude.
Open Scope Z_scope.

(** [slice_size] and [capacity] are configuration; [free], [live] and [exhausted]
    are the state behind the mutex. *)
Record BufferPool := mkPool {
  slice_size : nat;
  pool_capacity : nat;
  free : list bytes;
  live : nat;
  exhausted : Z;
}.

Definition BufferPool_new (slice_size capacity : nat) : BufferPool :=
  mkPool slice_size capacity [] 0 0.

(** A loan is its bytes. *)
Abbreviation Pooled := bytes.

(** [Vec::pop]: the last element. *)
Definition vec_pop {A} (l : list A) : option (A * list A) :=
  x ← last l; Some (x, take (length l - 1) l).

Definition BufferPool_reserve (p : BufferPool) (len : nat) : option Pooled * BufferPool :=
  if (slice_size p <? len)%nat then (None, p)
  else
    match vec_pop (free p) with
    | Some (buffer, rest) =>
        (Some buffer, mkPool (slice_size p) (pool_capacity p) rest (live p) (exhausted p))
    | None =>
        if (pool_capacity p <=? live p)%nat then
          (None, mkPool (slice_size p) (pool_capacity p) (free p) (live p)
                   (saturating_add U64_MAX (exhausted p) 1))
        else (Some [], mkPool (slice_size p) (pool_capacity p) (free p) (S (live p)) (exhausted p))
    end.

Definition BufferPool_take (p : BufferPool) (bs : bytes) : option Pooled * BufferPool :=
  let '(pooled, p) := BufferPool_reserve p (length bs) in
  ((fun buffer => buffer ++ bs) <$> pooled, p).

Definition BufferPool_take_zeroed (p : BufferPool) (len : nat) : option Pooled * BufferPool :=
  let '(pooled, p) := BufferPool_reserve p len in
  (vec_resize len <$> pooled, p).

(** [capacity - live + free.len()], a trap when the subtraction underflows. *)
Definition BufferPool_available {E} (p : BufferPool) : Res E nat :=
  if (live p <=? pool_capacity p)%nat then Ok (pool_capacity p - live p + length (free p))%nat
  else Panic.

Definition Pooled_resize (p : BufferPool) (buffer : Pooled) (len : nat) : bool * Pooled :=
  if (slice_size p <? len)%nat then (false, buffer) else (true, vec_resize len buffer).

(** [Drop]: the cleared allocation returns to the cache. *)
Definition Pooled_drop (p : BufferPool) (buffer : Pooled) : BufferPool :=
  mkPool (slice_size p) (pool_capacity p) (free p ++ [[]]) (live p) (exhausted p).

(** ** Executions *)

(** A pool and the loans that are out. *)
Abbreviation PoolState := (BufferPool * list Pooled)%type.

Inductive pool_step : PoolState -> PoolState -> Prop :=
| pool_take p loans bs r p' :
    BufferPool_take p bs = (r, p') ->
    pool_step (p, loans) (p', option_list r ++ loans)
| pool_take_zeroed p loans len r p' :
    BufferPool_take_zeroed p len = (r, p') ->
    pool_step (p, loans) (p', option_list r ++ loans)
| pool_resize p before buffer after len ok buffer' :
    Pooled_resize p buffer len = (ok, buffer') ->
    pool_step (p, before ++ buffer :: after) (p, before ++ buffer' :: after)
| pool_drop p before buffer after :
    pool_step (p, before ++ buffer :: after) (Pooled_drop p buffer, before ++ after).

Definition pool_reachable (slice capacity : nat) (s : PoolState) : Prop :=
  rtc pool_step (BufferPool_new slice capacity, []) s.

Record pool_ok (slice capacity : nat) (s : PoolState) : Prop := {
  po_slice : slice_size s.1 = slice;
  po_capacity : pool_capacity s.1 = capacity;
  po_count : (length (free s.1) + length s.2 = live s.1)%nat;
  po_bound : (live s.1 <= capacity)%nat;
  po_free : Forall (fun b => b = []) (free s.1);
  po_loans : Forall (fun b => (length b <= slice)%nat) s.2;
}.

Lemma vec_pop_Some {A} (l : list A) x rest : vec_pop l = Some (x, rest) -> l = rest ++ [x].
Proof.
  unfold vec_pop. destruct (last l) as [y|] eqn:E; [|done]. cbn. intros [= -> <-].
  apply last_Some in E as [l' ->]. rewrite length_app. cbn.
  by rewrite Nat.add_sub, take_app_length.
Qed.

Lemma length_vec_resize n l : length (vec_resize n l) = n.
Proof. unfold vec_resize. rewrite length_app, length_take, length_replicate. lia. Qed.

(** What a reservation does: an empty buffer while the budget lasts. *)
Lemma reserve_ok slice capacity p loans len :
  pool_ok slice capacity (p, loans) ->
  match BufferPool_reserve p len with
  | (Some buffer, p') => buffer = [] /\ (len <= slice)%nat /\ (length loans < capacity)%nat /\
      forall b, (length b <= slice)%nat -> pool_ok slice capacity (p', b :: loans)
  | (None, p') => ((slice < len)%nat \/ length loans = capacity) /\ pool_ok slice capacity (p', loans)
  end.
Proof.
  intros [Hs Hc Hn Hb Hf Hl]. cbn [fst snd] in *. unfold BufferPool_reserve. subst.
  destruct (_ <? len)%nat eqn:E; reflect; [split; [by left|by split]|].
  destruct (vec_pop (free p)) as [[buffer rest]|] eqn:Ep.
  - apply vec_pop_Some in Ep. rewrite Ep, Forall_app in Hf. destruct Hf as [Hf [-> _]%Forall_cons].
    rewrite Ep, length_app in Hn. cbn in Hn. split_and!; [done|done|lia|].
    intros b Hbl. split; cbn; try done; try lia. by constructor.
  - assert (free p = []) as Ef.
    { unfold vec_pop in Ep. destruct (last (free p)) eqn:El; [done|]. by apply last_None. }
    rewrite Ef in *. cbn in Hn. destruct (_ <=? live p)%nat eqn:Ec; reflect.
    + split; [right; lia|]. split; cbn; try done; by rewrite Ef.
    + split_and!; [done|done|lia|]. intros b Hbl. split; cbn; rewrite ?Ef; try done; cbn; try lia.
      by constructor.
Qed.

Lemma pool_step_ok slice capacity s s' :
  pool_step s s' -> pool_ok slice capacity s -> pool_ok slice capacity s'.
Proof.
  intros Hstep Hok. destruct Hstep as [p loans bs r p' H|p loans len r p' H|p bf b af len ok b' H|p bf b af].
  - unfold BufferPool_take in H. pose proof (reserve_ok _ _ _ _ (length bs) Hok) as Hr.
    destruct (BufferPool_reserve p (length bs)) as [[buffer|] p1]; simplify_eq/=; [|apply Hr].
    destruct Hr as (-> & ? & _ & Hb). by apply Hb.
  - unfold BufferPool_take_zeroed in H. pose proof (reserve_ok _ _ _ _ len Hok) as Hr.
    destruct (BufferPool_reserve p len) as [[buffer|] p1]; simplify_eq/=; [|apply Hr].
    destruct Hr as (-> & ? & _ & Hb). apply Hb. by rewrite length_vec_resize.
  - destruct Hok as [? ? Hn ? ? Hl]. cbn [fst snd] in *. split; cbn [fst snd]; try done.
    + rewrite length_app in *. cbn in *. lia.
    + rewrite Forall_app, Forall_cons in Hl |- *. destruct Hl as (? & ? & ?). split_and!; try done.
      unfold Pooled_resize in H. destruct (_ <? len)%nat eqn:E; simplify_eq; [done|].
      rewrite length_vec_resize. reflect. lia.
  - destruct Hok as [? ? Hn ? Hf Hl]. cbn [fst snd] in *. split; cbn; try done.
    + rewrite !length_app in *. cbn in *. lia.
    + apply Forall_app. split; [done|]. by constructor.
    + rewrite Forall_app, Forall_cons in Hl. apply Forall_app. tauto.
Qed.

Lemma pool_reachable_ok slice capacity s : pool_reachable slice capacity s -> pool_ok slice capacity s.
Proof.
  intros Hr. apply (rtc_ind_r (pool_ok slice capacity) (BufferPool_new slice capacity, [])) in Hr; [done| |].
  - split; cbn; try done; try lia; constructor.
  - intros s1 s2 _ Hs. by apply pool_step_ok.
Qed.

(** ** Loans *)

(** The pool [p] accounts for exactly the loans [l]. *)
Definition accounts (slice capacity : nat) (p : BufferPool) (l : list Pooled) : Prop :=
  pool_ok slice capacity (p, l).

#[global] Instance accounts_perm slice capacity p : Proper ((≡ₚ) ==> iff) (accounts slice capacity p).
Proof.
  assert (forall l l', l ≡ₚ l' -> pool_ok slice capacity (p, l) -> pool_ok slice capacity (p, l')) as Hone.
  { intros l l' Hl [? ? Hn ? ? Hf]. split; try done; cbn [fst snd] in *; by rewrite <- Hl. }
  intros l l' Hl. split; apply Hone; [done|by symmetry].
Qed.

Lemma accounts_step slice capacity p l p' l' :
  pool_step (p, l) (p', l') -> accounts slice capacity p l -> accounts slice capacity p' l'.
Proof. apply pool_step_ok. Qed.

Lemma accounts_drop slice capacity p b l :
  accounts slice capacity p (b :: l) -> accounts slice capacity (Pooled_drop p b) l.
Proof. apply (accounts_step slice capacity p ([] ++ b :: l) (Pooled_drop p b) ([] ++ l)). constructor. Qed.

Lemma accounts_replace slice capacity p b b' l :
  (length b' <= length b)%nat -> accounts slice capacity p (b :: l) -> accounts slice capacity p (b' :: l).
Proof.
  intros Hb [? ? Hn ? ? Hf]. cbn [fst snd] in *. split; try done; cbn [fst snd].
  apply Forall_cons in Hf as [? ?]. constructor; [lia|done].
Qed.

(** A reservation of nothing is an empty buffer, while there are buffers. *)
Lemma accounts_take_zeroed slice capacity p l :
  accounts slice capacity p l ->
  match BufferPool_take_zeroed p 0 with
  | (Some b, p') => b = [] /\ accounts slice capacity p' ([] :: l)
  | (None, p') => accounts slice capacity p' l
  end.
Proof.
  intros Hp. unfold BufferPool_take_zeroed. pose proof (reserve_ok _ _ _ _ 0 Hp) as Hr.
  destruct (BufferPool_reserve p 0) as [[b|] p']; cbn; [|apply Hr]. destruct Hr as (-> & _ & _ & Hb).
  split; [done|]. apply Hb. cbn. lia.
Qed.

Lemma accounts_resized slice capacity p b b' l :
  (length b' <= slice)%nat -> accounts slice capacity p (b :: l) -> accounts slice capacity p (b' :: l).
Proof.
  intros Hb [? ? Hn ? ? Hf]. cbn [fst snd] in *. split; try done; cbn [fst snd].
  apply Forall_cons in Hf as [? ?]. by constructor.
Qed.

(** Moving a loan from outside to the end of a queue. *)
Lemma snoc_loan (xs ys L : list Pooled) b : ((xs ++ [b]) ++ ys) ++ L ≡ₚ (xs ++ ys) ++ b :: L.
Proof.
  rewrite <- !app_assoc. cbn [app]. f_equiv. rewrite (Permutation_middle ys L b). done.
Qed.

(** Other holders of the pool leave the loans [frame] alone. *)
Lemma accounts_frame slice capacity p l p' l' frame :
  pool_step (p, l) (p', l') -> accounts slice capacity p (frame ++ l) -> accounts slice capacity p' (frame ++ l').
Proof.
  intros Hstep Hp. inversion Hstep as [? ? bs r ? H|? ? len r ? H|? bf b af len ok b' H|? bf b af]; subst.
  - rewrite Permutation_app_swap_app. eapply accounts_step; [by eapply Pool.pool_take|done].
  - rewrite Permutation_app_swap_app. eapply accounts_step; [by eapply Pool.pool_take_zeroed|done].
  - rewrite app_assoc in Hp |- *. eapply accounts_step; [by eapply Pool.pool_resize|done].
  - rewrite app_assoc in Hp |- *. eapply accounts_step; [by eapply Pool.pool_drop|done].
Qed.

(** however operations interleave, allocated buffers are the cached ones and
    the loans, never more than [capacity]; every loan fits its slice; [available]
    never traps and counts exactly the loans still possible; and a datagram is
    refused only when it is too large or every buffer is on loan. *)
Theorem pool_budget slice capacity p loans :
  pool_reachable slice capacity (p, loans) ->
  (length (free p) + length loans = live p)%nat /\ (live p <= capacity)%nat /\
  Forall (fun b => (length b <= slice)%nat) loans /\
  @BufferPool_available unit p = Ok (capacity - length loans)%nat /\
  forall bs, match (BufferPool_take p bs).1 with
             | Some loan => loan = bs /\ (length bs <= slice)%nat /\ (length loans < capacity)%nat
             | None => (slice < length bs)%nat \/ length loans = capacity
             end.
Proof.
  intros Hok%pool_reachable_ok. pose proof Hok as [Hs Hc Hn Hb Hf Hl]. cbn [fst snd] in *.
  split_and!; try done.
  - unfold BufferPool_available. rewrite Hc, (proj2 (Nat.leb_le _ _)) by done. f_equal. lia.
  - intros bs. unfold BufferPool_take. pose proof (reserve_ok _ _ _ _ (length bs) Hok) as Hr.
    destruct (BufferPool_reserve p (length bs)) as [[buffer|] p']; cbn.
    + destruct Hr as (-> & ? & ? & _). done.
    + apply Hr.
Qed.

Lemma pool_budget_witness :
  (length (free (mkPool 4 2 [] 1 0)) + length [[7; 8]] = live (mkPool 4 2 [] 1 0))%nat /\
  (live (mkPool 4 2 [] 1 0) <= 2)%nat /\
  Forall (fun b : bytes => (length b <= 4)%nat) [[7; 8]] /\
  @BufferPool_available unit (mkPool 4 2 [] 1 0) = Ok (2 - length [[7; 8]])%nat /\
  forall bs, match (BufferPool_take (mkPool 4 2 [] 1 0) bs).1 with
             | Some loan => loan = bs /\ (length bs <= 4)%nat /\ (length [[7; 8]] < 2)%nat
             | None => (4 < length bs)%nat \/ length [[7; 8]] = 2%nat
             end.
Proof.
  apply (pool_budget 4 2 (mkPool 4 2 [] 1 0) [[7; 8]]).
  apply rtc_once. by eapply (pool_take _ _ [7; 8] (Some [7; 8])).
Defined.
