(* ===== verification/Fifo.v ===== *)
(** The bounded memo ([src/fifo.rs]): a map that forgets its oldest entry at
    capacity.  It refines an ordered association list. *)

From S2P Require Import Prelude.
Open Scope Z_scope.

Record BoundedFifo (K V : Type) `{Countable K} := mkFifo {
  fifo_entries : gmap K V;
  fifo_order : list K;
  fifo_capacity : nat;
}.
Arguments mkFifo {K V _ _}.
Arguments fifo_entries {K V _ _}.
Arguments fifo_order {K V _ _}.
Arguments fifo_capacity {K V _ _}.

Section Fifo.
Context {K V : Type} `{Countable K}.
Implicit Types (f : BoundedFifo K V) (l : list (K * V)).

Definition BoundedFifo_new (capacity : nat) : BoundedFifo K V := mkFifo ∅ [] capacity.

Definition BoundedFifo_get f (key : K) : option V := fifo_entries f !! key.

Definition BoundedFifo_insert f (key : K) (value : V) : BoundedFifo K V :=
  match fifo_entries f !! key with
  | Some _ => mkFifo (<[key := value]> (fifo_entries f)) (fifo_order f) (fifo_capacity f)
  | None =>
      let '(entries, order) :=
        if (fifo_capacity f <=? size (fifo_entries f))%nat then
          match fifo_order f with
          | oldest :: rest => (delete oldest (fifo_entries f), rest)
          | [] => (fifo_entries f, [])
          end
        else (fifo_entries f, fifo_order f) in
      mkFifo (<[key := value]> entries) (order ++ [key]) (fifo_capacity f)
  end.

(** [make] is the value it would compute. *)
Definition BoundedFifo_get_or_insert_with f (key : K) (make : V) : V * BoundedFifo K V :=
  match fifo_entries f !! key with
  | Some existing => (existing, f)
  | None => (make, BoundedFifo_insert f key make)
  end.

Definition BoundedFifo_clear f : BoundedFifo K V := mkFifo ∅ [] (fifo_capacity f).

(** ** The memo as an ordered association list, oldest first *)

Definition memo_find (key : K) l : option V := snd <$> List.find (fun e => bool_decide (e.1 = key)) l.

Definition memo_insert (capacity : nat) (key : K) (value : V) l : list (K * V) :=
  if memo_find key l then (fun e => if bool_decide (e.1 = key) then (key, value) else e) <$> l
  else (if (capacity <=? length l)%nat then tail l else l) ++ [(key, value)].

(** [f] holds exactly the entries of [l], in eviction order. *)
Record fifo_refines f l : Prop := {
  fr_order : fifo_order f = l.*1;
  fr_nodup : NoDup l.*1;
  fr_entries : fifo_entries f = list_to_map l;
  fr_bound : (length l <= fifo_capacity f)%nat;
  fr_capacity : (0 < fifo_capacity f)%nat;
}.

Lemma memo_find_map key l : memo_find key l = (list_to_map l : gmap K V) !! key.
Proof.
  unfold memo_find. induction l as [|[k v] l IH]; [done|]. cbn.
  case_bool_decide as E.
  - subst. by rewrite lookup_insert_eq.
  - by rewrite lookup_insert_ne, IH.
Qed.

Lemma replace_entries key value l :
  (((fun e => if bool_decide (e.1 = key) then (key, value) else e) <$> l) : list (K * V)).*1 = l.*1.
Proof.
  rewrite <- list_fmap_compose. apply list_fmap_ext. intros _ [k v] _. cbn.
  by case_bool_decide; subst.
Qed.

Lemma fifo_refines_new capacity :
  (0 < capacity)%nat -> fifo_refines (BoundedFifo_new capacity) [].
Proof. intros. split; cbn; try done; [constructor|lia]. Qed.

Lemma size_list_to_map l : NoDup l.*1 -> size (list_to_map l : gmap K V) = length l.
Proof.
  induction l as [|[k v] l IH]; [intros _; apply map_size_empty|].
  cbn [fmap list_fmap fst]. intros [Hk Hn]%NoDup_cons. cbn [list_to_map foldr uncurry].
  rewrite map_size_insert_None; [by rewrite IH|]. by apply not_elem_of_list_to_map_1.
Qed.

Lemma list_to_map_snoc k v l :
  k ∉ l.*1 -> (list_to_map (l ++ [(k, v)]) : gmap K V) = <[k := v]> (list_to_map l).
Proof.
  intros Hk. rewrite list_to_map_app. cbn. rewrite insert_empty.
  symmetry. rewrite insert_union_singleton_r; [done|]. by apply not_elem_of_list_to_map_1.
Qed.

Lemma list_to_map_replace key value l :
  is_Some ((list_to_map l : gmap K V) !! key) ->
  (list_to_map ((fun e => if bool_decide (e.1 = key) then (key, value) else e) <$> l) : gmap K V)
  = <[key := value]> (list_to_map l).
Proof.
  intros Hs. apply map_eq. intros k. destruct (decide (k = key)) as [->|Hne].
  - rewrite lookup_insert_eq. revert Hs. induction l as [|[k v] l IH]; cbn; [intros [? ?]; done|].
    case_bool_decide; cbn; subst; [intros _; by rewrite lookup_insert_eq|].
    rewrite !lookup_insert_ne by done. done.
  - rewrite lookup_insert_ne by done. clear Hs. induction l as [|[k' v] l IH]; [done|]. cbn.
    case_bool_decide; cbn; subst.
    + by rewrite !lookup_insert_ne.
    + destruct (decide (k = k')) as [->|]; [by rewrite !lookup_insert_eq|by rewrite !lookup_insert_ne].
Qed.

Lemma fifo_refines_insert f l key value :
  fifo_refines f l ->
  fifo_refines (BoundedFifo_insert f key value) (memo_insert (fifo_capacity f) key value l).
Proof.
  intros [Ho Hn He Hb Hc]. unfold BoundedFifo_insert, memo_insert. rewrite memo_find_map, He.
  destruct ((list_to_map l : gmap K V) !! key) as [v0|] eqn:Hk.
  - split; cbn; rewrite ?replace_entries, ?length_fmap; try done.
    rewrite list_to_map_replace; [done|by rewrite Hk].
  - rewrite size_list_to_map, Ho by done. apply not_elem_of_list_to_map_2 in Hk.
    destruct (fifo_capacity f <=? length l)%nat eqn:Ef; reflect.
    + destruct l as [|[k v] l]; [cbn in *; lia|]. cbn [fmap list_fmap fst tail] in *.
      apply NoDup_cons in Hn as [Hk' Hn]. apply not_elem_of_cons in Hk as [Hne Hk].
      split; cbn [fifo_order fifo_entries fifo_capacity]; rewrite ?fmap_app; try done.
      * apply NoDup_app. split_and!; [done|set_solver|by apply NoDup_singleton].
      * rewrite list_to_map_snoc by done. cbn. rewrite delete_insert_id; [done|].
        by apply not_elem_of_list_to_map_1.
      * rewrite length_app. cbn in *. lia.
    + split; cbn [fifo_order fifo_entries fifo_capacity]; rewrite ?fmap_app, ?Ho; try done.
      * apply NoDup_app. split_and!; [done|set_solver|by apply NoDup_singleton].
      * by rewrite list_to_map_snoc.
      * rewrite length_app. cbn. lia.
Qed.

(** An entry outlives an insertion of another key while fewer than a capacity of entries follow it. *)
Lemma fifo_outlives f before key value after key' value' :
  fifo_refines f (before ++ (key, value) :: after) -> key' <> key -> (S (length after) < fifo_capacity f)%nat ->
  exists before' after', fifo_refines (BoundedFifo_insert f key' value') (before' ++ (key, value) :: after') /\ (length after' <= S (length after))%nat.
Proof.
  intros Hr Hne Hroom. pose proof (fifo_refines_insert _ _ key' value' Hr) as Hi. unfold memo_insert in Hi.
  destruct (memo_find key' _) as [v0|].
  - rewrite fmap_app, fmap_cons in Hi. cbn [fst] in Hi. rewrite bool_decide_false in Hi by congruence. eexists _, _. split; [exact Hi|].
    rewrite length_fmap. lia.
  - destruct before as [|e before].
    + rewrite (proj2 (Nat.leb_gt _ _)) in Hi by (cbn; lia). exists [], (after ++ [(key', value')]). split; [exact Hi|].
      rewrite length_app. cbn. lia.
    + cbn [app tail] in Hi. destruct (_ <=? _)%nat.
      * exists before, (after ++ [(key', value')]). rewrite <- app_assoc in Hi. split; [exact Hi|]. rewrite length_app. cbn. lia.
      * exists (e :: before), (after ++ [(key', value')]). cbn [app] in *. rewrite <- app_assoc in Hi. split; [exact Hi|].
        rewrite length_app. cbn. lia.
Qed.

Lemma fifo_capacity_insert f key value : fifo_capacity (BoundedFifo_insert f key value) = fifo_capacity f.
Proof. unfold BoundedFifo_insert. repeat case_match; done. Qed.

(** The operations a memo sees. *)
Inductive FifoOp := FifoInsert (key : K) (value : V) | FifoMemo (key : K) (make : V) | FifoClear.

Definition fifo_run f (op : FifoOp) : BoundedFifo K V :=
  match op with
  | FifoInsert key value => BoundedFifo_insert f key value
  | FifoMemo key make => (BoundedFifo_get_or_insert_with f key make).2
  | FifoClear => BoundedFifo_clear f
  end.

Definition memo_run (capacity : nat) l (op : FifoOp) : list (K * V) :=
  match op with
  | FifoInsert key value => memo_insert capacity key value l
  | FifoMemo key make => if memo_find key l then l else memo_insert capacity key make l
  | FifoClear => []
  end.

Lemma fifo_refines_run f l op :
  fifo_refines f l ->
  fifo_refines (fifo_run f op) (memo_run (fifo_capacity f) l op) /\
  fifo_capacity (fifo_run f op) = fifo_capacity f.
Proof.
  intros Hr. pose proof (fifo_capacity_insert f) as Hcap.
  destruct op as [k v|k v|]; cbn [fifo_run memo_run].
  - split; [by apply fifo_refines_insert|apply Hcap].
  - unfold BoundedFifo_get_or_insert_with. rewrite memo_find_map, (fr_entries _ _ Hr).
    destruct (_ !! k); cbn; [done|]. split; [by apply fifo_refines_insert|apply Hcap].
  - split; [|done]. destruct Hr. split; cbn; try done; [constructor|lia].
Qed.

(** C38: after any operations the memo is its specification: an association list
    of at most [capacity] entries from which a new key drops the oldest and a
    replaced key keeps its place; lookups agree, and the two collections of the
    implementation stay in step. *)
Theorem fifo_refinement capacity ops :
  (0 < capacity)%nat ->
  let f := foldl fifo_run (BoundedFifo_new capacity) ops in
  let l := foldl (memo_run capacity) [] ops in
  (length l <= capacity)%nat /\ fifo_order f = l.*1 /\ size (fifo_entries f) = length l /\
  forall key, BoundedFifo_get f key = memo_find key l.
Proof.
  intros Hc.
  assert (forall f l, fifo_refines f l -> fifo_capacity f = capacity ->
    let f' := foldl fifo_run f ops in let l' := foldl (memo_run capacity) l ops in
    fifo_refines f' l' /\ fifo_capacity f' = capacity) as Hrun.
  { induction ops as [|op ops IH]; intros f l Hr Hcap; [done|]. cbn.
    destruct (fifo_refines_run f l op Hr) as [Hr' Hcap']. rewrite Hcap in *. by apply IH. }
  destruct (Hrun _ _ (fifo_refines_new capacity Hc) eq_refl) as [[Ho Hn He Hb _] Hcap].
  cbv zeta. rewrite Hcap in Hb. split_and!; try done.
  - rewrite He. by apply size_list_to_map.
  - intros key. unfold BoundedFifo_get. by rewrite He, memo_find_map.
Qed.

End Fifo.

Lemma fifo_refinement_witness :
  let ops := [FifoInsert 1 10; FifoInsert 2 20; FifoInsert 1 11; FifoMemo 3 30] in
  let f := foldl fifo_run (BoundedFifo_new 2) ops in
  let l := foldl (memo_run 2) [] ops in
  l = [(2, 20); (3, 30)] /\
  (length l <= 2)%nat /\ fifo_order f = l.*1 /\ size (fifo_entries f) = length l /\
  forall key : Z, BoundedFifo_get f key = memo_find key l.
Proof.
  split; [reflexivity|].
  apply (fifo_refinement 2 [FifoInsert 1 10; FifoInsert 2 20; FifoInsert 1 11; FifoMemo 3 30]). lia.
Defined.
