(* ===== verification/Datapath.v ===== *)
(** The datapath ([src/datapath.rs]): the sans-IO state machine that classifies
    packets, plans and opens flows, reassembles, forwards and answers, over the
    flow table, the reassembler, the buffer pool and the packet writers.

    Every operation is a computation in a state and error monad; a [Pooled] that
    leaves scope returns to the pool where Rust's drop returns it. *)

From stdpp Require Import sorting.
From S2P Require Import Prelude Wire Net Plan Packet Udp Path Reassembly Pool.
Open Scope Z_scope.

Inductive Side := Tunnel | Egress.

#[global] Instance Side_eq_dec : EqDecision Side.
Proof. solve_decision. Defined.

Definition across (s : Side) : Side := match s with Tunnel => Egress | Egress => Tunnel end.

Inductive Ingress := Borrowed (bs : bytes) | Owned (pooled : Pooled).

Definition Ingress_bytes (i : Ingress) : bytes := match i with Borrowed bs | Owned bs => bs end.

Record Transmit := mkTransmit { to_ : Side; tx_bytes : Pooled }.

Inductive FlowEvent :=
| StreamOpened (client : InternalEndpoint)
| DatagramOpened (client : InternalEndpoint)
| DatagramDropped (client : InternalEndpoint)
| ReassemblyDiscarded
| Resteered (reason : SteeringReason)
| FlowTornDown (client : InternalEndpoint)
| TransmitDropped
| QuicSteered
| PathReported (mtu : Mtu)
| HopsExhausted.

(** ** The ICMP budget *)

Definition ICMP_ERRORS_PER_SECOND : Z := 100.

Record IcmpBudget := mkBudget { tokens : Z; refilled : Instant }.

Definition IcmpBudget_new (now : Instant) : IcmpBudget := mkBudget ICMP_ERRORS_PER_SECOND now.

Definition IcmpBudget_take (b : IcmpBudget) (now : Instant) : bool * IcmpBudget :=
  let b := if from_secs 1 <=? saturating_duration_since now (refilled b)
           then mkBudget ICMP_ERRORS_PER_SECOND now else b in
  if tokens b =? 0 then (false, b) else (true, mkBudget (tokens b - 1) (refilled b)).

(** ** Inspected addresses *)

Record InspectedAddresses := mkInspected {
  ia_window : Duration;
  ia_capacity : nat;
  ia_until : gmap IpAddr Instant;
  ia_earliest : option Instant;
}.

Definition InspectedAddresses_new (window : Duration) (capacity : nat) : InspectedAddresses :=
  mkInspected window capacity ∅ None.

Definition admit_address (deadline : Instant) (st : InspectedAddresses * nat) (address : IpAddr)
  : InspectedAddresses * nat :=
  let '(ia, refused) := st in
  if negb (bool_decide (is_Some (ia_until ia !! address))) && (ia_capacity ia <=? size (ia_until ia))%nat
  then (ia, S refused)
  else (mkInspected (ia_window ia) (ia_capacity ia) (<[address := deadline]> (ia_until ia))
          (Some (match ia_earliest ia with Some soonest => Z.min soonest deadline | None => deadline end)),
        refused).

(** The addresses refused, with the state. *)
Definition InspectedAddresses_admit (ia : InspectedAddresses) (addresses : list IpAddr) (now : Instant)
  : nat * InspectedAddresses :=
  match instant_checked_add now (ia_window ia) with
  | None => (length addresses, ia)
  | Some deadline =>
      let '(ia, refused) := foldl (admit_address deadline) (ia, 0%nat) addresses in (refused, ia)
  end.

Definition InspectedAddresses_live (ia : InspectedAddresses) (address : IpAddr) (now : Instant) : bool :=
  match ia_until ia !! address with Some deadline => now <? deadline | None => false end.

Definition option_min (a : option Instant) (b : Instant) : option Instant :=
  Some (match a with Some a => Z.min a b | None => b end).

Definition InspectedAddresses_expire (ia : InspectedAddresses) (now : Instant) : InspectedAddresses :=
  if match ia_earliest ia with None => true | Some earliest => now <? earliest end then ia else
  let until := filter (fun kv => now < kv.2) (ia_until ia) in
  mkInspected (ia_window ia) (ia_capacity ia) until
    (foldl option_min None (snd <$> map_to_list until)).

Definition InspectedAddresses_next_deadline (ia : InspectedAddresses) : option Instant := ia_earliest ia.

(** ** Origination ports ([src/egress/origin.rs]) *)

Record OriginationPorts := mkPorts { ports_start : Z; ports_end : Z }.
Inductive PortRangeError := RangeEmpty | IncludesZero.

Definition OriginationPorts_new (start end_ : Z) : Res PortRangeError OriginationPorts :=
  if start =? 0 then Err IncludesZero else
  if end_ <=? start then Err RangeEmpty else Ok (mkPorts start end_).

Definition OriginationPorts_contains (p : OriginationPorts) (port : Z) : bool :=
  (ports_start p <=? port) && (port <? ports_end p).

(** ** State *)

Record Limits := mkLimits {
  l_reassembly_timeout : Duration;
  l_max_pending_reassemblies : nat;
  l_flow_idle_timeout : Duration;
  l_max_flows : nat;
  l_datagram_buffer_capacity : nat;
  l_inspection_window : Duration;
  l_max_inspected_addresses : nat;
  l_inspected_ports : list Z;
  l_origination_ports : option OriginationPorts;
}.

Record DnsQuery := mkQuery {
  dq_client : InternalEndpoint;
  dq_resolver : InternalEndpoint;
  dq_payload : Pooled;
}.

(** [std::net::SocketAddr] is an address and a port. *)
Record Outbound := mkOutbound {
  ob_client : InternalEndpoint;
  ob_target : InternalEndpoint;
  ob_payload : Pooled;
}.

Record FlowState := mkFlow {
  fs_plan : FlowPlan;
  fs_buffer : DatagramBuffer (InternalEndpoint * Pooled);
}.

Record Datapath := mkDatapath {
  dp_filter : FilterPolicy;
  dp_dns : DnsPolicy;
  dp_accepts : Accepts;
  dp_egress : PathProperties;
  dp_path_mtu : Mtu;
  dp_plans : list (Res PlanError FlowPlan);
  dp_inspected_ports : list Z;
  dp_origination_ports : option OriginationPorts;
  dp_pool : BufferPool;
  dp_datagram_buffer_capacity : nat;
  dp_reassembler : Reassembler;
  dp_inspected : InspectedAddresses;
  dp_flows : UdpFlowTable FlowKey FlowState;
  dp_events : list FlowEvent;
  dp_transmits : list Transmit;
  dp_queries : list DnsQuery;
  dp_terminate : list Pooled;
  dp_ready : list FlowKey;
  dp_icmp : IcmpBudget;
}.

(** The fields the operations write. *)
Definition set_pool (pool : BufferPool) (d : Datapath) : Datapath :=
  mkDatapath (dp_filter d) (dp_dns d) (dp_accepts d) (dp_egress d) (dp_path_mtu d) (dp_plans d)
    (dp_inspected_ports d) (dp_origination_ports d) pool (dp_datagram_buffer_capacity d) (dp_reassembler d)
    (dp_inspected d) (dp_flows d) (dp_events d) (dp_transmits d) (dp_queries d) (dp_terminate d) (dp_ready d)
    (dp_icmp d).
Definition set_reassembler (r : Reassembler) (d : Datapath) : Datapath :=
  mkDatapath (dp_filter d) (dp_dns d) (dp_accepts d) (dp_egress d) (dp_path_mtu d) (dp_plans d)
    (dp_inspected_ports d) (dp_origination_ports d) (dp_pool d) (dp_datagram_buffer_capacity d) r
    (dp_inspected d) (dp_flows d) (dp_events d) (dp_transmits d) (dp_queries d) (dp_terminate d) (dp_ready d)
    (dp_icmp d).
Definition set_inspected (i : InspectedAddresses) (d : Datapath) : Datapath :=
  mkDatapath (dp_filter d) (dp_dns d) (dp_accepts d) (dp_egress d) (dp_path_mtu d) (dp_plans d)
    (dp_inspected_ports d) (dp_origination_ports d) (dp_pool d) (dp_datagram_buffer_capacity d)
    (dp_reassembler d) i (dp_flows d) (dp_events d) (dp_transmits d) (dp_queries d) (dp_terminate d) (dp_ready d)
    (dp_icmp d).
Definition set_flows (fl : UdpFlowTable FlowKey FlowState) (d : Datapath) : Datapath :=
  mkDatapath (dp_filter d) (dp_dns d) (dp_accepts d) (dp_egress d) (dp_path_mtu d) (dp_plans d)
    (dp_inspected_ports d) (dp_origination_ports d) (dp_pool d) (dp_datagram_buffer_capacity d)
    (dp_reassembler d) (dp_inspected d) fl (dp_events d) (dp_transmits d) (dp_queries d) (dp_terminate d)
    (dp_ready d) (dp_icmp d).
Definition set_events (e : list FlowEvent) (d : Datapath) : Datapath :=
  mkDatapath (dp_filter d) (dp_dns d) (dp_accepts d) (dp_egress d) (dp_path_mtu d) (dp_plans d)
    (dp_inspected_ports d) (dp_origination_ports d) (dp_pool d) (dp_datagram_buffer_capacity d)
    (dp_reassembler d) (dp_inspected d) (dp_flows d) e (dp_transmits d) (dp_queries d) (dp_terminate d)
    (dp_ready d) (dp_icmp d).
Definition set_transmits (t : list Transmit) (d : Datapath) : Datapath :=
  mkDatapath (dp_filter d) (dp_dns d) (dp_accepts d) (dp_egress d) (dp_path_mtu d) (dp_plans d)
    (dp_inspected_ports d) (dp_origination_ports d) (dp_pool d) (dp_datagram_buffer_capacity d)
    (dp_reassembler d) (dp_inspected d) (dp_flows d) (dp_events d) t (dp_queries d) (dp_terminate d)
    (dp_ready d) (dp_icmp d).
Definition set_queries (q : list DnsQuery) (d : Datapath) : Datapath :=
  mkDatapath (dp_filter d) (dp_dns d) (dp_accepts d) (dp_egress d) (dp_path_mtu d) (dp_plans d)
    (dp_inspected_ports d) (dp_origination_ports d) (dp_pool d) (dp_datagram_buffer_capacity d)
    (dp_reassembler d) (dp_inspected d) (dp_flows d) (dp_events d) (dp_transmits d) q (dp_terminate d)
    (dp_ready d) (dp_icmp d).
Definition set_terminate (t : list Pooled) (d : Datapath) : Datapath :=
  mkDatapath (dp_filter d) (dp_dns d) (dp_accepts d) (dp_egress d) (dp_path_mtu d) (dp_plans d)
    (dp_inspected_ports d) (dp_origination_ports d) (dp_pool d) (dp_datagram_buffer_capacity d)
    (dp_reassembler d) (dp_inspected d) (dp_flows d) (dp_events d) (dp_transmits d) (dp_queries d) t
    (dp_ready d) (dp_icmp d).
Definition set_ready (r : list FlowKey) (d : Datapath) : Datapath :=
  mkDatapath (dp_filter d) (dp_dns d) (dp_accepts d) (dp_egress d) (dp_path_mtu d) (dp_plans d)
    (dp_inspected_ports d) (dp_origination_ports d) (dp_pool d) (dp_datagram_buffer_capacity d)
    (dp_reassembler d) (dp_inspected d) (dp_flows d) (dp_events d) (dp_transmits d) (dp_queries d)
    (dp_terminate d) r (dp_icmp d).
Definition set_icmp (b : IcmpBudget) (d : Datapath) : Datapath :=
  mkDatapath (dp_filter d) (dp_dns d) (dp_accepts d) (dp_egress d) (dp_path_mtu d) (dp_plans d)
    (dp_inspected_ports d) (dp_origination_ports d) (dp_pool d) (dp_datagram_buffer_capacity d)
    (dp_reassembler d) (dp_inspected d) (dp_flows d) (dp_events d) (dp_transmits d) (dp_queries d)
    (dp_terminate d) (dp_ready d) b.

(** ** The monad *)

Section Datapath.
Context `{Etherparse}.

Inductive DatapathError :=
| DP_Malformed (error : PacketError)
| DP_Plan (error : PlanError)
| DP_FlowTable (error : FlowTableError)
| DP_Write (error : WriteError)
| DP_Vacuous.

(** A method on [&mut self] that may fail: the state survives an error. *)
Definition DP (A : Type) : Type := Datapath -> Res DatapathError A * Datapath.

#[global] Instance DP_ret : MRet DP := fun A a d => (Ok a, d).
#[global] Instance DP_bind : MBind DP := fun A B f m d =>
  match m d with
  | (Ok a, d) => f a d
  | (Err e, d) => (Err e, d)
  | (Panic, d) => (Panic, d)
  end.

Definition get : DP Datapath := fun d => (Ok d, d).
Definition modify (f : Datapath -> Datapath) : DP unit := fun d => (Ok tt, f d).
Definition fail {A} (e : DatapathError) : DP A := fun d => (Err e, d).
Definition panic {A} : DP A := fun d => (Panic, d).

(** The [?] operator with its conversion. *)
Definition lift {E A} (conv : E -> DatapathError) (r : Res E A) : DP A := fun d =>
  (match r with Ok a => Ok a | Err e => Err (conv e) | Panic => Panic end, d).

(** A call that can only panic. *)
Definition run {A} (r : Res DatapathError A) : DP A := fun d => (r, d).

Definition push_event (e : FlowEvent) : DP unit := modify (fun d => set_events (dp_events d ++ [e]) d).
Definition push_transmit (to : Side) (bs : Pooled) : DP unit :=
  modify (fun d => set_transmits (dp_transmits d ++ [mkTransmit to bs]) d).

Definition pool_take (bs : bytes) : DP (option Pooled) := fun d =>
  let '(r, pool) := BufferPool_take (dp_pool d) bs in (Ok r, set_pool pool d).
Definition pool_take_zeroed (len : nat) : DP (option Pooled) := fun d =>
  let '(r, pool) := BufferPool_take_zeroed (dp_pool d) len in (Ok r, set_pool pool d).
Definition drop_pooled (bs : Pooled) : DP unit := modify (fun d => set_pool (Pooled_drop (dp_pool d) bs) d).

(** An owned packet that was not moved returns its slice. *)
Definition drop_ingress (i : Ingress) : DP unit :=
  match i with Borrowed _ => mret tt | Owned bs => drop_pooled bs end.

(** [body] with the ingress dropped when it returns, on every path. *)
Definition dropping {A} (i : Ingress) (body : DP A) : DP A := fun d =>
  let '(r, d) := body d in (r, (drop_ingress i d).2).

Definition into_pooled (i : Ingress) : DP (option Pooled) :=
  match i with Borrowed bs => pool_take bs | Owned pooled => mret (Some pooled) end.

(** ** Construction *)

Definition plans_for (filter : FilterPolicy) (accepts : Accepts) (egress : PathProperties) (path_mtu : Mtu)
  : list (Res PlanError FlowPlan) :=
  (fun inspection => plan_flow filter inspection accepts egress path_mtu) <$> Inspection_ALL.

(** The loop that refuses a configuration with an invalid plan. *)
Fixpoint check_plans (plans : list (Res PlanError FlowPlan)) : Res DatapathError unit :=
  match plans with
  | [] => Ok tt
  | Ok _ :: plans => check_plans plans
  | Err e :: _ => Err (DP_Plan e)
  | Panic :: _ => Panic
  end.

(** [Vec::dedup]. *)
Fixpoint dedup (l : list Z) : list Z :=
  match l with
  | x :: (y :: _) as l' => if x =? y then dedup l' else x :: dedup l'
  | _ => l
  end.

(** [flows_now] and [icmp_now] are the two readings of the clock. *)
Definition Datapath_new (filter : FilterPolicy) (dns : DnsPolicy) (accepts : Accepts) (egress : PathProperties)
    (path_mtu : Mtu) (limits : Limits) (pool : BufferPool) (flows_now icmp_now : Instant)
  : Res DatapathError Datapath :=
  if bool_decide (filter = InspectHttp) && bool_decide (dns = Dns_Forward) && bool_decide (accepts = IpPackets)
  then Err DP_Vacuous else
  let plans := plans_for filter accepts egress path_mtu in
  _ ← check_plans plans;
  let inspected_ports := dedup (merge_sort Z.le (l_inspected_ports limits)) in
  flows ← match UdpFlowTable_new (l_flow_idle_timeout limits) (l_max_flows limits) flows_now with
          | Ok t => Ok t | Err e => Err (DP_FlowTable e) | Panic => Panic
          end;
  Ok (mkDatapath filter dns accepts egress path_mtu plans inspected_ports (l_origination_ports limits) pool
        (l_datagram_buffer_capacity limits)
        (Reassembler_new (l_reassembly_timeout limits) (l_max_pending_reassemblies limits))
        (InspectedAddresses_new (l_inspection_window limits) (l_max_inspected_addresses limits))
        flows [] [] [] [] [] (IcmpBudget_new icmp_now)).

(** ** Classification *)

Definition key_of (packet : IngressPacket) : option FlowKey :=
  match transport packet with
  | Tcp source_port destination_port =>
      Some (Connection (mkEndpoint (source packet) source_port)
              (mkEndpoint (destination packet) destination_port))
  | Udp source_port _ => Some (Mapping (mkEndpoint (source packet) source_port))
  | Icmp _ | Other | Fragmented => None
  end.

(** The cached plan; the array has one slot per verdict. *)
Definition plan_of (d : Datapath) (inspection : Inspection) : Res PlanError FlowPlan :=
  match dp_plans d !! Inspection_index inspection with Some plan => plan | None => Panic end.

(** [binary_search(&port).is_err()] on the sorted ports. *)
Definition port_absent (port : Z) (ports : list Z) : bool := negb (existsb (Z.eqb port) ports).

Definition inspection (d : Datapath) (packet : IngressPacket) (from : Side) (now : Instant) : Inspection :=
  match transport packet with
  | Tcp source_port destination_port =>
      if match dp_origination_ports d with
         | Some ports => OriginationPorts_contains ports source_port
         | None => false
         end
      then Excluded
      else if negb (bool_decide (from = Tunnel)) || negb (bool_decide (dp_filter d = InspectHttp))
              || port_absent destination_port (dp_inspected_ports d)
              || negb (InspectedAddresses_live (dp_inspected d) (destination packet) now)
      then Excluded
      else Candidate
  | _ => Excluded
  end.

(** ** Generated packets *)

Definition icmp_take (now : Instant) : DP bool := fun d =>
  let '(granted, budget) := IcmpBudget_take (dp_icmp d) now in (Ok granted, set_icmp budget d).

(** [write] fills the reply and answers its length. *)
Definition answer_with (write : bytes -> Res WriteError (nat * bytes)) : DP bool :=
  d ← get;
  reply ← pool_take_zeroed (slice_size (dp_pool d));
  match reply with
  | None => push_event TransmitDropped;; mret false
  | Some reply =>
      match write reply with
      | Ok (len, reply) =>
          d ← get;
          let '(shrunk, reply) := Pooled_resize (dp_pool d) reply len in
          if (shrunk : bool) then push_transmit Tunnel reply;; mret true else panic
      | Err _ => push_event TransmitDropped;; drop_pooled reply;; mret false
      | Panic => panic
      end
  end.

Definition report_too_big (buf : bytes) (inner_mtu : Mtu) (now : Instant) : DP unit :=
  granted ← icmp_take now;
  if (granted : bool) then
    answered ← answer_with (fun reply => write_too_big reply buf (Mtu_get inner_mtu));
    if (answered : bool) then push_event (PathReported inner_mtu) else mret tt
  else mret tt.

Definition forward (i : Ingress) (to : Side) (clamp : option Mtu) (quoting_allowed : bool) (now : Instant)
  : DP unit :=
  pooled ← into_pooled i;
  match pooled with
  | None => push_event TransmitDropped
  | Some bs =>
      '(hops, bs) ← run (spend_hop bs);
      if bool_decide (hops = Some 0) then
        push_event HopsExhausted;;
        (if bool_decide (to = Egress) && quoting_allowed then
           granted ← icmp_take now;
           if (granted : bool) then
             answer_with (fun reply => write_time_exceeded reply bs);; mret tt
           else mret tt
         else mret tt);;
        drop_pooled bs
      else
        bs ← match clamp with
             | Some inner_mtu => '(_, bs) ← run (clamp_mss bs inner_mtu); mret bs
             | None => mret bs
             end;
        push_transmit to bs
  end.

(** ** Flows *)

Definition open_flow (key : FlowKey) (plan : FlowPlan) (now : Instant) : DP bool :=
  d ← get;
  let existed := UdpFlowTable_contains (dp_flows d) key in
  let create := mkFlow plan (DatagramBuffer_new (dp_datagram_buffer_capacity d)) in
  '(_, flows) ← lift DP_FlowTable (UdpFlowTable_get_or_insert_with (dp_flows d) key now create);
  modify (set_flows flows);;
  mret (negb existed).

Definition capture_for_termination (i : Ingress) : DP unit :=
  pooled ← into_pooled i;
  match pooled with
  | Some packet => modify (fun d => set_terminate (dp_terminate d ++ [packet]) d)
  | None => push_event TransmitDropped
  end.

(** [packet.payload(buf).and_then(|bytes| self.pool.take(bytes))]. *)
Definition take_payload (packet : IngressPacket) (buf : bytes) : DP (option Pooled) :=
  match IngressPacket_payload packet buf with
  | Some bs => pool_take bs
  | None => mret None
  end.

Definition capture_datagram (packet : IngressPacket) (buf : bytes) (client : FlowKey) : DP unit :=
  match transport packet with
  | Udp _ destination_port =>
      let target := mkEndpoint (destination packet) destination_port in
      payload ← take_payload packet buf;
      match payload with
      | None => push_event TransmitDropped
      | Some payload =>
          d ← get;
          match UdpFlowTable_get (dp_flows d) client with
          | None => push_event TransmitDropped;; drop_pooled payload
          | Some flow =>
              let was_idle := DatagramBuffer_is_empty (fs_buffer flow) in
              let '(outcome, buffer) := DatagramBuffer_try_send (fs_buffer flow) (target, payload) in
              modify (fun d => set_flows (UdpFlowTable_update (dp_flows d) client
                                            (fun flow => mkFlow (fs_plan flow) buffer)) d);;
              match outcome with
              | Dropped => drop_pooled payload;; push_event (DatagramDropped (FlowKey_client client))
              | Buffered =>
                  if was_idle then modify (fun d => set_ready (dp_ready d ++ [client]) d) else mret tt
              end
          end
      end
  | _ => mret tt
  end.

Definition intercept_dns (packet : IngressPacket) (buf : bytes) : DP unit :=
  match transport packet with
  | Udp source_port destination_port =>
      payload ← take_payload packet buf;
      match payload with
      | None => push_event TransmitDropped
      | Some payload =>
          modify (fun d => set_queries (dp_queries d ++
            [mkQuery (mkEndpoint (source packet) source_port)
               (mkEndpoint (destination packet) destination_port) payload]) d)
      end
  | _ => mret tt
  end.

(** ** Dispatch *)

(** What admission and planning make of a packet. *)
Definition decide_action (packet : IngressPacket) (from : Side) (now : Instant) : DP IngressAction :=
  d ← get;
  let backstop :=
    match from with
    | Tunnel => if InspectedAddresses_live (dp_inspected d) (destination packet) now then Active else Lapsed
    | Egress => Lapsed
    end in
  match admit_packet (transport packet) (dp_dns d) backstop with
  | Settled action => mret action
  | Planned =>
      let kept :=
        if bool_decide (from = Tunnel)
        then key ← key_of packet; fs_plan <$> UdpFlowTable_get (dp_flows d) key
        else None in
      plan ← match kept with
             | Some plan => mret plan
             | None => lift DP_Plan (plan_of d (inspection d packet from now))
             end;
      mret (route_planned (transport packet) plan)
  end.

Definition is_icmp_error (t : Transport) : bool := bool_decide (t = Icmp IcmpClass_Error).

(** The arms of the [match action]; [on_fragment] is the one that can come back. *)
Definition perform (on_fragment : bytes -> Side -> Instant -> DP unit)
    (packet : IngressPacket) (i : Ingress) (from : Side) (now : Instant) (action : IngressAction) : DP unit :=
  let buf := Ingress_bytes i in
  match action with
  | Reassemble => dropping i (on_fragment buf from now)
  | ResolveDns => dropping i (intercept_dns packet buf)
  | DropSteered => dropping i (push_event QuicSteered)
  | ForwardPacket plan =>
      let quoting_allowed := negb (is_icmp_error (transport packet)) in
      match plan_transport plan with
      | PacketFastPath inner_mtu =>
          if bool_decide (from = Tunnel) && negb (is_icmp_error (transport packet))
             && (Mtu_get inner_mtu <? Z.of_nat (length buf))
          then dropping i (report_too_big buf inner_mtu now)
          else forward i (across from) (Some inner_mtu) quoting_allowed now
      | LocalTermination => forward i (across from) None quoting_allowed now
      end
  | OpenStream plan =>
      match key_of packet with
      | None => drop_ingress i
      | Some key => fun d =>
          match open_flow key plan now d with
          | (Ok opened, d) =>
              ((if (opened : bool) then push_event (StreamOpened (FlowKey_client key)) else mret tt);;
               (if bool_decide (from = Tunnel) then capture_for_termination i else drop_ingress i)) d
          | (Err e, d) => (Err e, (drop_ingress i d).2)
          | (Panic, d) => (Panic, d)
          end
      end
  | OpenDatagram plan =>
      dropping i
        match key_of packet with
        | None => mret tt
        | Some key =>
            opened ← open_flow key plan now;
            (if (opened : bool) then push_event (DatagramOpened (FlowKey_client key)) else mret tt);;
            (if bool_decide (from = Tunnel) then capture_datagram packet buf key else mret tt)
        end
  | HandleIcmp _ => forward i (across from) None false now
  | DropUnsupported => drop_ingress i
  end.

(** [dispatch] and [on_fragment] call each other: a datagram that completes may
    itself be a fragment.  A completion takes a datagram off the reassembler, or
    strips the Fragment header of a lone IPv6 fragment, so the fuel [dispatch] starts
    with is enough: [call_safe] shows that it never runs out. *)
Fixpoint dispatch_loop (fuel : nat) (packet : IngressPacket) (i : Ingress) (from : Side) (now : Instant)
  : DP unit :=
  match fuel with
  | O => panic
  | S fuel => fun d =>
      match decide_action packet from now d with
      | (Ok action, d) =>
          perform (fun buf from now =>
            fragment ← lift DP_Malformed (Fragment_parse buf);
            match fragment with
            | None => mret tt
            | Some fragment =>
                d ← get;
                '(outcome, reassembler) ← run (Reassembler_push (dp_reassembler d) fragment now);
                modify (set_reassembler reassembler);;
                match outcome with
                | PushPending => mret tt
                | PushDiscarded => push_event ReassemblyDiscarded
                | PushComplete datagram =>
                    packet ← lift DP_Malformed (IngressPacket_parse datagram);
                    dispatch_loop fuel packet (Borrowed datagram) from now
                end
            end) packet i from now action d
      | (Err e, d) => (Err e, (drop_ingress i d).2)
      | (Panic, d) => (Panic, d)
      end
  end.

(** No rebuilt packet is this long: a 40-byte header and a 16-bit payload length. *)
Definition REBUILT_BOUND : nat := Z.to_nat 65576.

Definition dispatch_fuel (r : Reassembler) (buf : bytes) : nat := (Reassembler_len r * REBUILT_BOUND + length buf)%nat.

Definition dispatch (packet : IngressPacket) (i : Ingress) (from : Side) (now : Instant) : DP unit := fun d =>
  dispatch_loop (S (dispatch_fuel (dp_reassembler d) (Ingress_bytes i))) packet i from now d.

Definition dispatch_from_egress (packet : IngressPacket) (i : Ingress) (now : Instant) : DP unit :=
  if bool_decide (transport packet = Fragmented) then dropping i (push_event ReassemblyDiscarded)
  else dispatch packet i Egress now.

(** ** Entry points *)

Definition on_tun_packet (buf : bytes) (now : Instant) : DP unit :=
  packet ← lift DP_Malformed (IngressPacket_parse buf);
  dispatch packet (Borrowed buf) Tunnel now.

(** A packet that does not parse is dropped with the error. *)
Definition parse_owned (packet : Pooled) (k : IngressPacket -> DP unit) : DP unit :=
  match IngressPacket_parse packet with
  | Ok parsed => k parsed
  | Err e => drop_pooled packet;; fail (DP_Malformed e)
  | Panic => panic
  end.

Definition on_tun_owned (packet : Pooled) (now : Instant) : DP unit :=
  parse_owned packet (fun parsed => dispatch parsed (Owned packet) Tunnel now).

Definition on_egress_packet (buf : bytes) (now : Instant) : DP unit :=
  packet ← lift DP_Malformed (IngressPacket_parse buf);
  dispatch_from_egress packet (Borrowed buf) now.

Definition on_egress_owned (packet : Pooled) (now : Instant) : DP unit :=
  parse_owned packet (fun parsed => dispatch_from_egress parsed (Owned packet) now).

(** ** Queues *)

Definition poll_query : DP (option DnsQuery) := fun d =>
  match dp_queries d with
  | [] => (Ok None, d)
  | q :: rest => (Ok (Some q), set_queries rest d)
  end.

Definition poll_terminate : DP (option Pooled) := fun d =>
  match dp_terminate d with
  | [] => (Ok None, d)
  | p :: rest => (Ok (Some p), set_terminate rest d)
  end.

Definition poll_transmit : DP (option Transmit) := fun d =>
  match dp_transmits d with
  | [] => (Ok None, d)
  | t :: rest => (Ok (Some t), set_transmits rest d)
  end.

Definition poll_event : DP (option FlowEvent) := fun d =>
  match dp_events d with
  | [] => (Ok None, d)
  | e :: rest => (Ok (Some e), set_events rest d)
  end.

(** The [while let] over the ready list: stale keys are skipped, the first flow
    with a datagram gives one and queues again behind the others. *)
Fixpoint poll_ready (ready : list FlowKey) (d : Datapath) : option Outbound * Datapath :=
  match ready with
  | [] => (None, set_ready [] d)
  | client :: ready =>
      match UdpFlowTable_get (dp_flows d) client with
      | None => poll_ready ready d
      | Some flow =>
          let '(received, buffer) := DatagramBuffer_recv (fs_buffer flow) in
          match received with
          | None => poll_ready ready d
          | Some (target, payload) =>
              let flows := UdpFlowTable_update (dp_flows d) client (fun flow => mkFlow (fs_plan flow) buffer) in
              let ready := if DatagramBuffer_is_empty buffer then ready else ready ++ [client] in
              (Some (mkOutbound (FlowKey_client client) target payload), set_ready ready (set_flows flows d))
          end
      end
  end.

Definition poll_datagram : DP (option Outbound) := fun d =>
  let '(out, d) := poll_ready (dp_ready d) d in (Ok out, d).

(** ** Replies *)

(** A UDP packet of [payload] from [source] to [client], queued for the tunnel;
    [false] when the pool had no slice for it. *)
Definition transmit_udp (src client : InternalEndpoint) (payload : bytes) : DP bool :=
  let len := udp_datagram_len (address src) (length payload) in
  taken ← pool_take_zeroed len;
  match taken with
  | None => push_event TransmitDropped;; mret false
  | Some bs =>
      match write_udp bs src client payload with
      | Ok (_, bs) => push_transmit Tunnel bs;; mret true
      | Err e => drop_pooled bs;; fail (DP_Write e)
      | Panic => panic
      end
  end.

Definition deliver_datagram (client peer : InternalEndpoint) (payload : bytes) (now : Instant) : DP SendOutcome :=
  let key := Mapping client in
  d ← get;
  if negb (UdpFlowTable_contains (dp_flows d) key) then mret Dropped else
  plan ← lift DP_Plan (plan_of d Excluded);
  let create := mkFlow plan (DatagramBuffer_new (dp_datagram_buffer_capacity d)) in
  '(_, flows) ← lift DP_FlowTable (UdpFlowTable_get_or_insert_with (dp_flows d) key now create);
  modify (set_flows flows);;
  sent ← transmit_udp peer client payload;
  mret (if (sent : bool) then Buffered else Dropped).

Definition answer_dns (client resolver : InternalEndpoint) (response : bytes) : DP unit :=
  transmit_udp resolver client response;; mret tt.

Definition inspect_addresses (addresses : list IpAddr) (now : Instant) : DP unit :=
  modify (fun d =>
    let '(refused, inspected) := InspectedAddresses_admit (dp_inspected d) addresses now in
    set_events (dp_events d ++ replicate refused TransmitDropped) (set_inspected inspected d)).

(** ** Path changes and time *)

(** The closure of [retain]: the kept state and the event it pushes. *)
Definition replan_flow (filter : FilterPolicy) (accepts : Accepts) (next : PathProperties) (path_mtu : Mtu)
    (key : FlowKey) (state : FlowState) : option FlowState * list FlowEvent :=
  match replan (fs_plan state) filter Excluded accepts next path_mtu with
  | Ok Unchanged => (Some state, [])
  | Ok (Resteer reason plan) => (Some (mkFlow plan (fs_buffer state)), [Resteered reason])
  | Ok Teardown | Err _ | Panic => (None, [FlowTornDown (FlowKey_client key)])
  end.

(** The slices a flow's queue holds. *)
Definition flow_loans (state : FlowState) : list Pooled := snd <$> db_datagrams (fs_buffer state).

Definition drop_all (loans : list Pooled) (pool : BufferPool) : BufferPool := foldl Pooled_drop pool loans.

(** [retain] visits the flows in the table's own order. *)
Definition on_path_change (accepts : Accepts) (next : PathProperties) : DP unit :=
  modify (fun d =>
    let replanned key state := replan_flow (dp_filter d) accepts next (dp_path_mtu d) key state in
    let visited := map_to_list (flows (dp_flows d)) in
    let events := concat ((fun '(key, st) => (replanned key (es_value st)).2) <$> visited) in
    let dropped := concat ((fun '(key, st) => match (replanned key (es_value st)).1 with
                                              | Some _ => [] | None => flow_loans (es_value st)
                                              end) <$> visited) in
    let flows := (UdpFlowTable_retain (dp_flows d) (fun key state => (replanned key state).1)).2 in
    mkDatapath (dp_filter d) (dp_dns d) accepts next (dp_path_mtu d)
      (plans_for (dp_filter d) accepts next (dp_path_mtu d))
      (dp_inspected_ports d) (dp_origination_ports d) (drop_all dropped (dp_pool d))
      (dp_datagram_buffer_capacity d) (dp_reassembler d) (dp_inspected d) flows (dp_events d ++ events)
      (dp_transmits d) (dp_queries d) (dp_terminate d) (dp_ready d) (dp_icmp d)).

Definition poll_timeout (d : Datapath) : option Instant :=
  foldl option_min None
    (omap id [Reassembler_next_deadline (dp_reassembler d); UdpFlowTable_next_deadline (dp_flows d);
              InspectedAddresses_next_deadline (dp_inspected d)]).

Definition on_timeout (now : Instant) : DP unit :=
  modify (fun d =>
    let d := set_reassembler (Reassembler_expire (dp_reassembler d) now).2 d in
    let d := set_inspected (InspectedAddresses_expire (dp_inspected d) now) d in
    let '(expired, flows) := UdpFlowTable_expire (dp_flows d) now in
    set_pool (drop_all (concat (flow_loans <$> expired)) (dp_pool d)) (set_flows flows d)).

End Datapath.
