(* ===== verification/DatapathPool.v ===== *)
(** Buffer ownership in the datapath: whatever it is asked to do, every slice of
    the pool is free, on loan to its caller, or in exactly one of its queues. *)

From stdpp Require Import sorting.
From S2P Require Import Prelude Wire Net Plan Packet Udp Path Reassembly Pool Datapath.
Open Scope Z_scope.

(** ** Loans *)

Lemma accounts_drop_all slice capacity bs p l :
  accounts slice capacity p (bs ++ l) -> accounts slice capacity (drop_all bs p) l.
Proof.
  unfold drop_all. revert p. induction bs as [|b bs IH]; intros p Hp; [done|]. cbn.
  by apply IH, accounts_drop.
Qed.

(** ** Writers keep the length of their buffer *)

Lemma Res_bind_Ok {E A B} (r : Res E A) (f : A -> Res E B) b :
  (r ≫= f) = Ok b -> exists a, r = Ok a /\ f a = Ok b.
Proof. destruct r as [a| |]; [|done|done]. by exists a. Qed.

Lemma or_panic_put {E A} at_ (xs l l' : list A) :
  @or_panic E _ (put at_ xs l) = Ok l' -> length l' = length l.
Proof.
  unfold put. destruct (_ <=? _)%nat eqn:Ep; [|done]. intros [= <-]. apply Nat.leb_le in Ep.
  by rewrite length_splice.
Qed.

(** Walks down a successful chain of writes, one bind or branch at a time. *)
Ltac write_chain :=
  repeat match goal with
  | Hb : (_ ≫= _) = Ok _ |- _ => apply Res_bind_Ok in Hb as (? & ? & Hb)
  | Hp : or_panic (put _ _ _) = Ok _ |- _ => apply or_panic_put in Hp
  | Hi : (if ?b then _ else _) = Ok _ |- _ => destruct b eqn:?
  | Hm : match ?o with Some _ => _ | None => _ end = Ok _ |- _ => destruct o eqn:?
  | Hk : Ok _ = Ok _ |- _ => injection Hk as ?; subst
  | Hx : Err _ = Ok _ |- _ => done
  | Hx : Panic = Ok _ |- _ => done
  end.

Lemma spend_hop_length {E} bs hops bs' : @spend_hop E bs = Ok (hops, bs') -> length bs' = length bs.
Proof. unfold spend_hop. intros Hs. destruct bs as [|v rest]; write_chain; congruence. Qed.

Lemma clamp_mss_length {E} bs mtu b bs' : @clamp_mss E bs mtu = Ok (b, bs') -> length bs' = length bs.
Proof.
  unfold clamp_mss, clamp_ipv4, clamp_ipv6. intros Hs. destruct bs as [|v rest]; write_chain; congruence.
Qed.

(** The in-place rewriters have no error of their own. *)
Ltac no_error :=
  repeat match goal with
  | |- Ok _ <> Err _ => done
  | |- Panic <> Err _ => done
  | |- (@or_panic _ _ ?o ≫= _) <> Err _ => destruct o; cbn [or_panic mbind Res_bind]; [|done]
  | |- (byte_at _ _ ≫= _) <> Err _ => unfold byte_at at 1
  | |- (range _ _ _ ≫= _) <> Err _ => unfold range at 1
  | |- ((if ?b then _ else _) ≫= _) <> Err _ => destruct b
  | |- (Ok _ ≫= _) <> Err _ => cbn [mbind Res_bind]
  | |- (if ?b then _ else _) <> Err _ => destruct b
  | |- match ?o with Some _ => _ | None => _ end <> Err _ => destruct o
  | |- _ => progress cbv zeta
  end.

Lemma spend_hop_no_error {E} bs (e : E) : spend_hop bs <> Err e.
Proof. unfold spend_hop. destruct bs; no_error. Qed.

Lemma clamp_mss_no_error {E} bs mtu (e : E) : clamp_mss bs mtu <> Err e.
Proof. unfold clamp_mss, clamp_ipv4, clamp_ipv6. destruct bs; no_error. Qed.

Lemma write_udp_header_length {E} at_ sp dp payload bs bs' :
  @write_udp_header E at_ sp dp payload bs = Ok bs' -> length bs' = length bs.
Proof. unfold write_udp_header. intros Hs. write_chain; congruence. Qed.

Lemma write_udp_length out src dst payload n out' :
  write_udp out src dst payload = Ok (n, out') -> length out' = length out.
Proof.
  unfold write_udp, write_udp_v4, write_udp_v6. intros Hs.
  destruct (address src), (address dst); try done; write_chain;
    repeat match goal with Hw : write_udp_header _ _ _ _ _ = Ok _ |- _ => apply write_udp_header_length in Hw end;
    repeat match goal with Hg : ok_or _ (get_to _ _) = Ok _ |- _ =>
      unfold get_to in Hg; destruct (_ <=? length out)%nat eqn:Hle in Hg; [|done]; apply Nat.leb_le in Hle end;
    rewrite length_app, length_drop; rewrite !length_replicate in *;
    unfold IPV4_UDP_HEADER, IPV6_UDP_HEADER in *; lia.
Qed.

Lemma write_icmp_error_length `{Etherparse} out quoted error n out' :
  write_icmp_error out quoted error = Ok (n, out') -> length out' = length out /\ (n <= length out)%nat.
Proof.
  unfold write_icmp_error, emit. destruct (IngressPacket_parse quoted) as [parsed| |]; [|done|done].
  destruct (icmp_builder error (destination parsed) (source parsed)) as [[builder limit]|]; [|done].
  intros Hs. write_chain.
  match goal with Hg : ok_or _ (get_to out ?len) = Ok ?into |- _ =>
    unfold get_to in Hg; destruct (len <=? length out)%nat eqn:Hle; [|done]; injection Hg as <- end.
  apply Nat.leb_le in Hle, Heqb0. rewrite length_take in Heqb0. split; [rewrite length_splice; lia|lia].
Qed.

(** ** The loans of a table *)

Abbreviation FlowTable := (UdpFlowTable FlowKey FlowState).

Definition entries_loans (es : list (FlowKey * EntryState FlowState)) : list Pooled :=
  concat ((fun e => flow_loans (es_value e.2)) <$> es).

Definition table_loans (m : gmap FlowKey (EntryState FlowState)) : list Pooled :=
  entries_loans (map_to_list m).

#[global] Instance entries_loans_perm : Proper ((≡ₚ) ==> (≡ₚ)) entries_loans.
Proof.
  intros xs ys H. unfold entries_loans. induction H as [|x xs ys _ IH|x y xs|xs ys zs _ IH1 _ IH2]; cbn.
  - done.
  - by rewrite IH.
  - rewrite !app_assoc. f_equiv. apply Permutation_app_comm.
  - by rewrite IH1.
Qed.

Lemma table_loans_insert_None m k e :
  m !! k = None -> table_loans (<[k := e]> m) ≡ₚ flow_loans (es_value e) ++ table_loans m.
Proof. intros Hk. unfold table_loans. by rewrite map_to_list_insert. Qed.

Lemma table_loans_lookup m k e :
  m !! k = Some e -> table_loans m ≡ₚ flow_loans (es_value e) ++ table_loans (delete k m).
Proof.
  intros Hk. rewrite <- (insert_delete_id m k e Hk) at 1. apply table_loans_insert_None, lookup_delete_eq.
Qed.

(** Storing another value under a key. *)
Lemma table_loans_insert_Some m k e e' :
  m !! k = Some e ->
  flow_loans (es_value e) ++ table_loans (<[k := e']> m) ≡ₚ flow_loans (es_value e') ++ table_loans m.
Proof.
  intros Hk. rewrite <- insert_delete_eq, table_loans_insert_None by apply lookup_delete_eq.
  rewrite (table_loans_lookup m k e Hk). rewrite !app_assoc. f_equiv. apply Permutation_app_comm.
Qed.

Lemma get_or_insert_loans (t t' : FlowTable) key now create v :
  flow_loans create = [] -> UdpFlowTable_get_or_insert_with t key now create = Ok (v, t') ->
  table_loans (flows t') ≡ₚ table_loans (flows t).
Proof.
  intros Hc. unfold UdpFlowTable_get_or_insert_with. destruct (instant_checked_add _ _) as [deadline|]; [|done].
  cbn [ok_or mbind Res_bind]. destruct (flows t !! key) as [st|] eqn:E.
  - intros [= <- <-]. cbn [flows]. pose proof (table_loans_insert_Some _ _ _ (mkEntry (es_value st) deadline) E) as Hi.
    cbn [es_value] in Hi. by apply Permutation_app_inv_l in Hi.
  - destruct (_ <=? _)%nat; [done|]. intros [= <- <-]. cbn [flows].
    rewrite table_loans_insert_None by done. cbn [es_value]. by rewrite Hc.
Qed.

Lemma update_loans (t : FlowTable) key flow f :
  UdpFlowTable_get t key = Some flow ->
  flow_loans flow ++ table_loans (flows (UdpFlowTable_update t key f))
  ≡ₚ flow_loans (f flow) ++ table_loans (flows t).
Proof.
  unfold UdpFlowTable_get, UdpFlowTable_update. cbn [flows].
  destruct (flows t !! key) as [st|] eqn:E; [|done]. cbn. intros [= <-].
  rewrite (alter_alt_Some _ _ _ _ E). apply (table_loans_insert_Some _ _ _ (mkEntry _ _) E).
Qed.

Lemma retain_loans (t : FlowTable) keep :
  (forall k v v', keep k v = Some v' -> flow_loans v' = flow_loans v) ->
  concat ((fun '(key, st) => match keep key (es_value st) with Some _ => [] | None => flow_loans (es_value st) end)
            <$> map_to_list (flows t)) ++ table_loans (flows (UdpFlowTable_retain t keep).2)
  ≡ₚ table_loans (flows t).
Proof.
  intros Hkeep. unfold UdpFlowTable_retain. cbn [snd flows]. generalize (flows t). clear t.
  intros m. induction m as [|k st m Hk IH] using map_ind.
  { rewrite map_imap_empty. unfold table_loans. by rewrite !map_to_list_empty. }
  rewrite table_loans_insert_None, <- IH by done. rewrite map_to_list_insert by done. cbn [fmap list_fmap concat].
  destruct (keep k (es_value st)) as [v'|] eqn:Ek.
  - rewrite (map_imap_insert_Some _ _ _ _ (mkEntry v' (es_deadline st))) by (by rewrite Ek).
    rewrite table_loans_insert_None by (rewrite map_lookup_imap, Hk; done).
    cbn [es_value]. rewrite (Hkeep _ _ _ Ek). cbn [app]. rewrite !app_assoc. f_equiv. apply Permutation_app_comm.
  - rewrite map_imap_insert_None by (by rewrite Ek). rewrite delete_id by (by rewrite map_lookup_imap, Hk).
    by rewrite app_assoc.
Qed.

Lemma expire_key_loans now fl w expired key :
  let '(fl', _, expired') := expire_key now (fl, w, expired) key in
  concat (flow_loans <$> expired') ++ table_loans fl' ≡ₚ concat (flow_loans <$> expired) ++ table_loans fl.
Proof.
  cbn. destruct (fl !! key) as [e|] eqn:E; [|done]. destruct (_ <=? now); [|done].
  rewrite fmap_app, concat_app. cbn. rewrite app_nil_r, (table_loans_lookup fl key e E).
  by rewrite <- app_assoc.
Qed.

Lemma expire_loans (t : FlowTable) now :
  let '(expired, t') := UdpFlowTable_expire t now in
  concat (flow_loans <$> expired) ++ table_loans (flows t') ≡ₚ table_loans (flows t).
Proof.
  unfold UdpFlowTable_expire. destruct (TimerWheel_take_due _ _ _) as [w surfaced].
  assert (forall ks fl w expired, let '(fl', _, expired') := foldl (expire_key now) (fl, w, expired) ks in
    concat (flow_loans <$> expired') ++ table_loans fl' ≡ₚ concat (flow_loans <$> expired) ++ table_loans fl) as Hall.
  { induction ks as [|k ks IH]; intros fl w0 expired; cbn [foldl]; [reflexivity|].
    pose proof (expire_key_loans now fl w0 expired k) as Hk.
    destruct (expire_key now (fl, w0, expired) k) as [[fl1 w1] expired1].
    specialize (IH fl1 w1 expired1). destruct (foldl _ _ ks) as [[fl2 w2] expired2]. by rewrite IH. }
  specialize (Hall surfaced (flows t) w []). destruct (foldl _ _ surfaced) as [[fl' w'] expired]. exact Hall.
Qed.

(** Taking dropped loans out of the tables. *)
Lemma drop_loans (xs ys zs dropped kept L : list Pooled) :
  (xs ++ ys ++ zs ++ dropped ++ kept) ++ L ≡ₚ dropped ++ (xs ++ ys ++ zs ++ kept) ++ L.
Proof.
  rewrite <- !app_assoc. rewrite (Permutation_app_swap_app zs dropped), (Permutation_app_swap_app ys dropped).
  apply Permutation_app_swap_app.
Qed.

(** ** Ownership *)

(** Every loan inside the datapath. *)
Definition held (d : Datapath) : list Pooled :=
  (tx_bytes <$> dp_transmits d) ++ (dq_payload <$> dp_queries d) ++ dp_terminate d ++
  table_loans (flows (dp_flows d)).

Section Ownership.
Context `{Etherparse} (slice capacity : nat).
Implicit Types (L : list Pooled) (d : Datapath).

(** The pool accounts for the datapath's loans and the loans [L] held outside. *)
Definition owns L d : Prop := accounts slice capacity (dp_pool d) (held d ++ L).

#[global] Instance owns_perm : Proper ((≡ₚ) ==> eq ==> iff) owns.
Proof. intros L L' HL d _ <-. unfold owns. by rewrite HL. Qed.

(** [m] takes the outside loans from [L] to [L' a], or to [R] on an error. *)
Definition moves {A} L (m : DP A) (L' : A -> list Pooled) R : Prop :=
  forall d, owns L d ->
  match m d with
  | (Ok a, d') => owns (L' a) d'
  | (Err _, d') => owns R d'
  | (Panic, _) => True
  end.

Lemma moves_ret {A} (a : A) L R : moves L (mret a) (fun _ => L) R.
Proof. by intros d. Qed.

Lemma moves_pure {A} (a : A) (M : A -> list Pooled) R : moves (M a) (mret a) M R.
Proof. by intros d. Qed.

Lemma moves_bind {A B} L (m : DP A) (f : A -> DP B) M N R :
  moves L m M R -> (forall a, moves (M a) (f a) N R) -> moves L (m ≫= f) N R.
Proof.
  intros Hm Hf d Hd. specialize (Hm d Hd). unfold mbind, DP_bind.
  destruct (m d) as [[a|e|] d']; [|done|done]. by apply Hf.
Qed.

Lemma moves_seq {A B} L (m : DP A) (m' : DP B) M N R :
  moves L m (fun _ => M) R -> moves M m' N R -> moves L (m;; m') N R.
Proof. intros Hm Hm'. by eapply moves_bind. Qed.

Lemma moves_perm {A} L L1 (m : DP A) M M1 R R1 :
  L ≡ₚ L1 -> (forall a, M1 a ≡ₚ M a) -> R1 ≡ₚ R -> moves L1 m M1 R1 -> moves L m M R.
Proof.
  intros HL HM HR Hm d Hd. rewrite HL in Hd. specialize (Hm d Hd).
  destruct (m d) as [[a|e|] d']; [by rewrite <- HM|by rewrite <- HR|done].
Qed.

Lemma moves_get L R : moves L get (fun _ => L) R.
Proof. by intros d. Qed.

Lemma moves_modify f L L' R :
  (forall d, dp_pool (f d) = dp_pool d) -> (forall d, held (f d) ++ L' ≡ₚ held d ++ L) ->
  moves L (modify f) (fun _ => L') R.
Proof. intros Hp Hh d Hd. unfold owns in *. cbn. rewrite Hp. by rewrite (Hh d). Qed.

Lemma moves_lift {E A} (conv : E -> DatapathError) (r : Res E A) L : moves L (lift conv r) (fun _ => L) L.
Proof. intros d Hd. unfold lift. by destruct r. Qed.

Lemma moves_fail {A} e L M : moves L (@fail _ A e) M L.
Proof. by intros d. Qed.

Lemma moves_panic {A} L M R : moves L (@panic _ A) M R.
Proof. by intros d. Qed.

Lemma moves_push_event e L R : moves L (push_event e) (fun _ => L) R.
Proof. by apply moves_modify. Qed.

Lemma moves_push_transmit to bs L R : moves (bs :: L) (push_transmit to bs) (fun _ => L) R.
Proof.
  apply moves_modify; [done|]. intros d. unfold held. cbn [dp_transmits dp_queries dp_terminate dp_flows set_transmits].
  rewrite fmap_app. apply snoc_loan.
Qed.

Lemma moves_take bs L R : moves L (pool_take bs) (fun r => option_list r ++ L) R.
Proof.
  intros d Hd. unfold pool_take. destruct (BufferPool_take _ bs) as [r pool] eqn:E.
  unfold owns in *. cbn [dp_pool held dp_transmits dp_queries dp_terminate dp_flows set_pool].
  rewrite (Permutation_app_comm (option_list r)), app_assoc.
  rewrite Permutation_app_comm. eapply accounts_step; [by eapply (Pool.pool_take _ _ bs)|exact Hd].
Qed.

Lemma moves_take_zeroed n L R : moves L (pool_take_zeroed n) (fun r => option_list r ++ L) R.
Proof.
  intros d Hd. unfold pool_take_zeroed. destruct (BufferPool_take_zeroed _ n) as [r pool] eqn:E.
  unfold owns in *. cbn [dp_pool held dp_transmits dp_queries dp_terminate dp_flows set_pool].
  rewrite (Permutation_app_comm (option_list r)), app_assoc.
  rewrite Permutation_app_comm. eapply accounts_step; [by eapply (Pool.pool_take_zeroed _ _ n)|exact Hd].
Qed.

Lemma moves_drop bs L R : moves (bs :: L) (drop_pooled bs) (fun _ => L) R.
Proof.
  intros d Hd. unfold drop_pooled, modify, owns in *. cbn [dp_pool held dp_transmits dp_queries dp_terminate dp_flows set_pool].
  apply accounts_drop. by rewrite Permutation_middle.
Qed.

(** The loan an ingress carries. *)
Definition loans (i : Ingress) : list Pooled := match i with Borrowed _ => [] | Owned bs => [bs] end.

Lemma moves_drop_ingress i L R : moves (loans i ++ L) (drop_ingress i) (fun _ => L) R.
Proof. destruct i; [apply moves_ret|apply moves_drop]. Qed.

Lemma drop_ingress_owns i L d : owns (loans i ++ L) d -> owns L (drop_ingress i d).2.
Proof.
  intros Hd. pose proof (moves_drop_ingress i L L d Hd) as H0. by destruct i.
Qed.

Lemma moves_dropping {A} i (body : DP A) L :
  moves (loans i ++ L) body (fun _ => loans i ++ L) (loans i ++ L) -> moves (loans i ++ L) (dropping i body) (fun _ => L) L.
Proof.
  intros Hb d Hd. specialize (Hb d Hd). unfold dropping. destruct (body d) as [[a|e|] d'];
    [by apply drop_ingress_owns..|done].
Qed.

Lemma moves_into_pooled i L R : moves (loans i ++ L) (into_pooled i) (fun r => option_list r ++ L) R.
Proof. destruct i as [bs|bs]; cbn [loans app into_pooled]; [apply moves_take|]. by intros d. Qed.

(** A loan's bytes may be rewritten within its slice. *)
Lemma owns_rewrite bs bs' L d : (length bs' <= length bs)%nat -> owns (bs :: L) d -> owns (bs' :: L) d.
Proof.
  intros Hb Hd. unfold owns in *. rewrite <- Permutation_middle in Hd |- *. by eapply accounts_replace.
Qed.

Lemma moves_run {A} L (M : A -> list Pooled) (r : Res DatapathError A) R :
  (forall a, r = Ok a -> forall d, owns L d -> owns (M a) d) -> (forall e, r <> Err e) -> moves L (run r) M R.
Proof.
  intros Hm He d Hd. unfold run. destruct r as [a|e|]; [by apply Hm|by destruct (He e)|done].
Qed.

Lemma moves_rewrite {A} bs bs' L (m : DP A) M R :
  (length bs' <= length bs)%nat -> moves (bs' :: L) m M R -> moves (bs :: L) m M R.
Proof.
  intros Hb Hm d Hd. apply Hm. by eapply owns_rewrite.
Qed.

(** ** Operations *)

Lemma moves_icmp_take now L R : moves L (icmp_take now) (fun _ => L) R.
Proof. intros d Hd. unfold icmp_take. by destruct (IcmpBudget_take _ _). Qed.

Lemma moves_answer_with write L R :
  (forall bs n bs', write bs = Ok (n, bs') -> length bs' = length bs /\ (n <= length bs)%nat) ->
  moves L (answer_with write) (fun _ => L) R.
Proof.
  intros Hw. unfold answer_with. eapply moves_bind; [apply moves_get|]. intros d0.
  eapply moves_bind; [apply moves_take_zeroed|]. intros [reply|]; cbn [option_list app].
  2:{ eapply moves_seq; [apply moves_push_event|]. apply moves_ret. }
  destruct (write reply) as [[len reply']|e|] eqn:Ew; [|..|apply moves_panic].
  - destruct (Hw _ _ _ Ew) as [Hl Hn]. eapply moves_bind; [apply moves_get|]. intros d1.
    unfold Pooled_resize. destruct (_ <? len)%nat; [apply moves_panic|].
    eapply (moves_rewrite _ (vec_resize len reply')); [rewrite length_vec_resize; lia|].
    eapply moves_seq; [apply moves_push_transmit|]. apply moves_ret.
  - eapply moves_seq; [apply moves_push_event|].
    eapply moves_seq; [apply moves_drop|]. apply moves_ret.
Qed.

Lemma moves_report_too_big buf mtu now L R : moves L (report_too_big buf mtu now) (fun _ => L) R.
Proof.
  unfold report_too_big. eapply moves_bind; [apply moves_icmp_take|]. intros [|]; [|apply moves_ret].
  eapply moves_bind; [apply moves_answer_with; intros bs n bs'; apply write_icmp_error_length|].
  intros [|]; [apply moves_push_event|apply moves_ret].
Qed.

Lemma moves_forward i to clamp quoting now L R : moves (loans i ++ L) (forward i to clamp quoting now) (fun _ => L) R.
Proof.
  unfold forward. eapply moves_bind; [apply moves_into_pooled|].
  intros [bs|]; cbn [option_list app]; [|apply moves_push_event].
  eapply moves_bind; [apply (moves_run _ (fun '(_, bs1) => bs1 :: L))|intros [hops bs1]].
  { intros [hops bs1] E d. apply owns_rewrite. rewrite (spend_hop_length _ _ _ E). done. }
  { apply spend_hop_no_error. }
  destruct (bool_decide (hops = Some 0)).
  - eapply moves_seq; [apply moves_push_event|].
    eapply moves_seq; [|apply moves_drop].
    destruct (_ && _); [|apply moves_ret]. eapply moves_bind; [apply moves_icmp_take|]. intros [|]; [|apply moves_ret].
    eapply moves_seq; [apply moves_answer_with; intros bs2 n bs'; apply write_icmp_error_length|].
    apply moves_ret.
  - eapply (moves_bind _ _ _ (fun bs2 => bs2 :: L)); [|intros bs2; apply moves_push_transmit].
    destruct clamp as [mtu|]; [|apply (moves_pure bs1 (fun bs2 => bs2 :: L))].
    eapply moves_bind; [apply (moves_run _ (fun '(_, bs2) => bs2 :: L))|intros [? bs2]; apply (moves_pure bs2 (fun bs2 => bs2 :: L))].
    + intros [c bs2] E d. apply owns_rewrite. rewrite (clamp_mss_length _ _ _ _ E). done.
    + apply clamp_mss_no_error.
Qed.

(** The state a computation reads is the one it runs in. *)
Lemma moves_reads {A} L (f : Datapath -> DP A) M R :
  (forall d, owns L d -> match f d d with
                         | (Ok a, d') => owns (M a) d'
                         | (Err _, d') => owns R d'
                         | (Panic, _) => True
                         end) -> moves L (get ≫= f) M R.
Proof. intros Hf d Hd. apply (Hf d Hd). Qed.

Lemma owns_set_flows fl L d :
  table_loans (flows fl) ≡ₚ table_loans (flows (dp_flows d)) -> owns L d -> owns L (set_flows fl d).
Proof.
  intros Hfl. unfold owns, held. cbn [dp_pool dp_transmits dp_queries dp_terminate dp_flows set_flows].
  by rewrite Hfl.
Qed.

Lemma moves_open_flow key plan now L : moves L (open_flow key plan now) (fun _ => L) L.
Proof.
  apply moves_reads. intros d Hd. unfold mbind, DP_bind, lift.
  destruct (UdpFlowTable_get_or_insert_with _ _ _ _) as [[v t']| |] eqn:E;
    cbn [modify mret DP_ret]; [|done|done].
  apply owns_set_flows; [|done]. by eapply get_or_insert_loans; [|exact E].
Qed.

Lemma moves_capture_for_termination i L R :
  moves (loans i ++ L) (capture_for_termination i) (fun _ => L) R.
Proof.
  unfold capture_for_termination. eapply moves_bind; [apply moves_into_pooled|].
  intros [bs|]; [|apply moves_push_event]. apply moves_modify; [done|]. intros d. unfold held.
  cbn [dp_transmits dp_queries dp_terminate dp_flows set_terminate]. change (option_list (Some bs) ++ L) with (bs :: L).
  rewrite !(app_assoc (tx_bytes <$> _)). rewrite !app_assoc. apply snoc_loan.
Qed.

Lemma moves_take_payload packet buf L R :
  moves L (take_payload packet buf) (fun r => option_list r ++ L) R.
Proof. unfold take_payload. destruct (IngressPacket_payload _ _); [apply moves_take|by intros d]. Qed.

Lemma moves_intercept_dns packet buf L R : moves L (intercept_dns packet buf) (fun _ => L) R.
Proof.
  unfold intercept_dns. destruct (transport packet); try apply moves_ret.
  eapply moves_bind; [apply moves_take_payload|]. intros [bs|]; [|apply moves_push_event].
  apply moves_modify; [done|]. intros d. unfold held.
  cbn [dp_transmits dp_queries dp_terminate dp_flows set_queries]. change (option_list (Some bs) ++ L) with (bs :: L).
  rewrite fmap_app.  rewrite !app_assoc. rewrite <- !(app_assoc _ (dp_terminate d)). apply snoc_loan.
Qed.

(** A queue takes a datagram, or leaves it to be dropped. *)
Lemma capture_owns target payload L d client flow :
  UdpFlowTable_get (dp_flows d) client = Some flow ->
  owns (payload :: L) d ->
  let '(outcome, buffer) := DatagramBuffer_try_send (fs_buffer flow) (target, payload) in
  owns (match outcome with Buffered => L | Dropped => payload :: L end)
    (set_flows (UdpFlowTable_update (dp_flows d) client (fun flow => mkFlow (fs_plan flow) buffer)) d).
Proof.
  intros Hg Hd. unfold DatagramBuffer_try_send.
  pose proof (fun buffer => update_loans _ _ _ (fun flow => mkFlow (fs_plan flow) buffer) Hg) as Hu.
  destruct (_ =? _)%nat.
  - apply owns_set_flows; [|done]. specialize (Hu (mkBuffer (db_capacity (fs_buffer flow)) (db_datagrams (fs_buffer flow))
      (saturating_add U64_MAX (db_dropped (fs_buffer flow)) 1))). by apply Permutation_app_inv_l in Hu.
  - match goal with |- owns _ (set_flows (UdpFlowTable_update _ _ (fun _ => mkFlow _ ?b)) _) => specialize (Hu b) end.
    unfold owns, held in *. cbn [dp_pool dp_transmits dp_queries dp_terminate dp_flows set_flows] in *.
    unfold flow_loans at 1 2 in Hu. cbn [fs_buffer db_datagrams] in Hu. rewrite fmap_app, <- app_assoc in Hu.
    apply Permutation_app_inv_l in Hu. cbn [fmap list_fmap snd app] in Hu. rewrite Hu.
    rewrite !app_assoc in *. rewrite <- Permutation_middle in Hd.
    by rewrite <- (Permutation_middle _ (table_loans _) payload).
Qed.

Lemma moves_capture_datagram packet buf client L R : moves L (capture_datagram packet buf client) (fun _ => L) R.
Proof.
  unfold capture_datagram. destruct (transport packet); try apply moves_ret.
  eapply moves_bind; [apply moves_take_payload|]. intros [payload|]; [|apply moves_push_event].
  cbn [option_list app]. apply moves_reads. intros d Hd.
  destruct (UdpFlowTable_get (dp_flows d) client) as [flow|] eqn:Eg.
  2:{ revert d Hd Eg. intros d Hd _. eapply moves_seq; [apply moves_push_event|apply moves_drop|done]. }
  pose proof (capture_owns (mkEndpoint (destination packet) destination_port) payload L d client flow Eg Hd) as Hc.
  destruct (DatagramBuffer_try_send _ _) as [outcome buffer]. unfold mbind at 1, DP_bind at 1, modify at 1.
  cbn [app]. set (d1 := set_flows _ d) in *. destruct outcome.
  - destruct (DatagramBuffer_is_empty _); [|by apply moves_ret]. eapply (moves_modify _ L L R); done.
  - eapply moves_seq; [apply moves_drop|apply moves_push_event|done].
Qed.

Lemma moves_event_if (b : bool) e L R : moves L (if b then push_event e else mret tt) (fun _ => L) R.
Proof. destruct b; [apply moves_push_event|apply moves_ret]. Qed.

Lemma moves_perform on_fragment packet i from now action L :
  (forall buf from now L, moves L (on_fragment buf from now) (fun _ => L) L) ->
  moves (loans i ++ L) (perform on_fragment packet i from now action) (fun _ => L) L.
Proof.
  intros Hf. destruct action as [| | |plan|plan|plan|plan|]; cbn [perform].
  - apply moves_dropping, Hf.
  - apply moves_dropping, moves_intercept_dns.
  - apply moves_dropping, moves_push_event.
  - destruct (plan_transport plan) as [mtu|]; [|apply moves_forward].
    destruct (_ && _); [apply moves_dropping, moves_report_too_big|apply moves_forward].
  - destruct (key_of packet) as [key|]; [|apply moves_drop_ingress]. intros d Hd.
    pose proof (moves_open_flow key plan now _ d Hd) as Ho.
    destruct (open_flow key plan now d) as [[opened|e|] d1]; [|by apply drop_ingress_owns|done].
    revert d1 Ho. eapply moves_seq; [apply moves_event_if|].
    destruct (bool_decide _); [apply moves_capture_for_termination|apply moves_drop_ingress].
  - apply moves_dropping. destruct (key_of packet) as [key|]; [|apply moves_ret].
    eapply moves_bind; [apply moves_open_flow|]. intros opened. eapply moves_seq; [apply moves_event_if|].
    destruct (bool_decide _); [apply moves_capture_datagram|apply moves_ret].
  - apply moves_forward.
  - apply moves_drop_ingress.
Qed.

Lemma decide_action_state packet from now d : (decide_action packet from now d).2 = d.
Proof.
  unfold decide_action, mbind, DP_bind, get. destruct (admit_packet _ _ _); [done|].
  destruct (if bool_decide _ then _ else _) as [plan|]; [done|].
  unfold lift. by destruct (plan_of _ _).
Qed.

Lemma moves_dispatch_loop fuel : forall packet i from now L,
  moves (loans i ++ L) (dispatch_loop fuel packet i from now) (fun _ => L) L.
Proof.
  induction fuel as [|fuel IH]; intros packet i from now L; [apply moves_panic|]. cbn [dispatch_loop]. intros d Hd.
  pose proof (decide_action_state packet from now d) as Hs.
  destruct (decide_action packet from now d) as [[action|e|] d1]; cbn [snd] in Hs; subst d1;
    [|by apply drop_ingress_owns|done].
  revert d Hd. apply moves_perform. clear -IH. intros buf from now L.
  eapply moves_bind; [apply moves_lift|]. intros [fragment|]; [|apply moves_ret]. apply moves_reads. intros d Hd.
  unfold mbind at 1, DP_bind at 1, run. destruct (Reassembler_push _ _ _) as [[outcome r']|e|]; [|done|done].
  assert (owns L (set_reassembler r' d)) as Hd' by exact Hd. revert Hd'. unfold mbind at 1, DP_bind at 1, modify at 1.
  generalize (set_reassembler r' d). clear d Hd. destruct outcome as [|datagram|].
  - apply moves_ret.
  - eapply moves_bind; [apply moves_lift|]. intros packet. apply (IH packet (Borrowed datagram)).
  - apply moves_push_event.
Qed.

Lemma moves_dispatch packet i from now L : moves (loans i ++ L) (dispatch packet i from now) (fun _ => L) L.
Proof. intros d. unfold dispatch. apply moves_dispatch_loop. Qed.

Lemma moves_dispatch_from_egress packet i now L :
  moves (loans i ++ L) (dispatch_from_egress packet i now) (fun _ => L) L.
Proof.
  unfold dispatch_from_egress. destruct (bool_decide _); [apply moves_dropping, moves_push_event|apply moves_dispatch].
Qed.

Lemma moves_parse_owned packet k L :
  (forall parsed, moves (packet :: L) (k parsed) (fun _ => L) L) -> moves (packet :: L) (parse_owned packet k) (fun _ => L) L.
Proof.
  intros Hk. unfold parse_owned. destruct (IngressPacket_parse packet); [apply Hk| |apply moves_panic].
  eapply moves_seq; [apply moves_drop|apply moves_fail].
Qed.

Lemma moves_transmit_udp src client payload L : moves L (transmit_udp src client payload) (fun _ => L) L.
Proof.
  unfold transmit_udp. eapply moves_bind; [apply moves_take_zeroed|]. intros [bs|]; cbn [option_list app].
  2:{ eapply moves_seq; [apply moves_push_event|apply moves_ret]. }
  destruct (write_udp bs src client payload) as [[n bs']|e|] eqn:Ew; [| |apply moves_panic].
  - eapply (moves_rewrite _ bs'); [by rewrite (write_udp_length _ _ _ _ _ _ Ew)|].
    eapply moves_seq; [apply moves_push_transmit|apply moves_ret].
  - eapply moves_seq; [apply moves_drop|apply moves_fail].
Qed.

Lemma moves_deliver_datagram client peer payload now L :
  moves L (deliver_datagram client peer payload now) (fun _ => L) L.
Proof.
  apply moves_reads. intros d Hd. destruct (negb _); [done|]. unfold mbind at 1, DP_bind at 1, lift at 1.
  destruct (plan_of d Excluded) as [plan| |]; [|done|done]. unfold mbind at 1, DP_bind at 1, lift at 1.
  destruct (UdpFlowTable_get_or_insert_with _ _ _ _) as [[v t']| |] eqn:E; [|done|done].
  assert (owns L (set_flows t' d)) as Hd' by (apply owns_set_flows; [by eapply get_or_insert_loans; [|exact E]|done]).
  revert Hd'. unfold mbind at 1, DP_bind at 1, modify at 1. generalize (set_flows t' d). clear d Hd E.
  eapply moves_bind; [apply moves_transmit_udp|]. intros sent. apply moves_ret.
Qed.

Lemma replan_flow_loans filter accepts next mtu key state state' :
  (replan_flow filter accepts next mtu key state).1 = Some state' -> flow_loans state' = flow_loans state.
Proof. unfold replan_flow. repeat case_match; cbn; intros; simplify_eq; done. Qed.

Lemma moves_on_path_change accepts next L R : moves L (on_path_change accepts next) (fun _ => L) R.
Proof.
  intros d Hd. unfold on_path_change, modify, owns, held in *.
  cbn [dp_pool dp_transmits dp_queries dp_terminate dp_flows]. apply accounts_drop_all.
  rewrite <- (retain_loans (dp_flows d)
    (fun key state => (replan_flow (dp_filter d) accepts next (dp_path_mtu d) key state).1)) in Hd
    by (intros; by eapply replan_flow_loans).
  by rewrite drop_loans in Hd.
Qed.

Lemma moves_on_timeout now L R : moves L (on_timeout now) (fun _ => L) R.
Proof.
  intros d Hd. unfold on_timeout, modify. pose proof (expire_loans (dp_flows d) now) as He.
  cbn [dp_flows set_reassembler set_inspected]. destruct (UdpFlowTable_expire _ _) as [expired t'].
  unfold owns, held in *. cbn [dp_pool dp_transmits dp_queries dp_terminate dp_flows set_pool set_flows
    set_reassembler set_inspected]. apply accounts_drop_all. rewrite <- He in Hd. by rewrite drop_loans in Hd.
Qed.

(** ** Polling: a queue's front leaves for the caller *)

Lemma moves_poll_transmit L R :
  moves L poll_transmit (fun r => match r with Some t => tx_bytes t :: L | None => L end) R.
Proof.
  intros d Hd. unfold poll_transmit. destruct (dp_transmits d) as [|t rest] eqn:E; [done|].
  unfold owns, held in *. cbn [dp_pool dp_transmits dp_queries dp_terminate dp_flows set_transmits].
  rewrite E in Hd. rewrite <- Permutation_middle. exact Hd.
Qed.

Lemma moves_poll_query L R :
  moves L poll_query (fun r => match r with Some q => dq_payload q :: L | None => L end) R.
Proof.
  intros d Hd. unfold poll_query. destruct (dp_queries d) as [|q rest] eqn:E; [done|].
  unfold owns, held in *. cbn [dp_pool dp_transmits dp_queries dp_terminate dp_flows set_queries].
  rewrite E in Hd. rewrite <- Permutation_middle. cbn [fmap list_fmap] in Hd. cbn [app] in Hd.
  by rewrite <- Permutation_middle in Hd.
Qed.

Lemma moves_poll_terminate L R :
  moves L poll_terminate (fun r => match r with Some p => p :: L | None => L end) R.
Proof.
  intros d Hd. unfold poll_terminate. destruct (dp_terminate d) as [|p rest] eqn:E; [done|].
  unfold owns, held in *. cbn [dp_pool dp_transmits dp_queries dp_terminate dp_flows set_terminate].
  rewrite E in Hd. rewrite <- Permutation_middle. rewrite !app_assoc in Hd |- *. cbn [app] in Hd.
  rewrite <- !app_assoc in Hd. cbn [app] in Hd. rewrite <- !app_assoc. rewrite <- !Permutation_middle in Hd. done.
Qed.

Lemma poll_ready_owns ready L d :
  owns L d ->
  let '(out, d') := poll_ready ready d in
  owns (match out with Some o => ob_payload o :: L | None => L end) d'.
Proof.
  revert d. induction ready as [|client ready IH]; intros d Hd; cbn [poll_ready]; [exact Hd|].
  destruct (UdpFlowTable_get (dp_flows d) client) as [flow|] eqn:Eg; [|by apply IH].
  unfold DatagramBuffer_recv. destruct (db_datagrams (fs_buffer flow)) as [|[target payload] rest] eqn:Eb; [by apply IH|].
  match goal with |- context [mkFlow _ ?b] => set (buffer := b) end.
  pose proof (update_loans _ _ _ (fun flow => mkFlow (fs_plan flow) buffer) Eg) as Hu.
  unfold owns, held in *. cbn [dp_pool dp_transmits dp_queries dp_terminate dp_flows set_flows set_ready ob_payload].
  unfold flow_loans at 1 2 in Hu. cbn [fs_buffer] in Hu. rewrite Eb in Hu. cbn [buffer db_datagrams fmap list_fmap snd app] in Hu.
  rewrite Permutation_middle in Hu. apply Permutation_app_inv_l in Hu. fold buffer in Hu. rewrite <- Hu in Hd.
  rewrite <- Permutation_middle. rewrite !app_assoc in Hd |- *. by rewrite <- (Permutation_middle _ _ payload) in Hd.
Qed.

End Ownership.

(** ** Runs *)

Section Runs.
Context `{Etherparse}.

(** The public methods that change state. *)
Inductive Call :=
| OnTunPacket (buf : bytes) (now : Instant)
| OnTunOwned (packet : Pooled) (now : Instant)
| OnEgressPacket (buf : bytes) (now : Instant)
| OnEgressOwned (packet : Pooled) (now : Instant)
| PollQuery
| PollDatagram
| DeliverDatagram (client peer : InternalEndpoint) (payload : bytes) (now : Instant)
| PollTerminate
| InspectAddresses (addresses : list IpAddr) (now : Instant)
| AnswerDns (client resolver : InternalEndpoint) (response : bytes)
| OnPathChange (accepts : Accepts) (next : PathProperties)
| PollTransmit
| PollEvent
| OnTimeout (now : Instant).

(** The loans a call takes from its caller. *)
Definition given (c : Call) : list Pooled :=
  match c with OnTunOwned packet _ | OnEgressOwned packet _ => [packet] | _ => [] end.

(** A call, answering the loans it hands to its caller. *)
Definition call (c : Call) : DP (list Pooled) :=
  match c with
  | OnTunPacket buf now => on_tun_packet buf now;; mret []
  | OnTunOwned packet now => on_tun_owned packet now;; mret []
  | OnEgressPacket buf now => on_egress_packet buf now;; mret []
  | OnEgressOwned packet now => on_egress_owned packet now;; mret []
  | PollQuery => r ← poll_query; mret (option_list (dq_payload <$> r))
  | PollDatagram => r ← poll_datagram; mret (option_list (ob_payload <$> r))
  | DeliverDatagram client peer payload now => deliver_datagram client peer payload now;; mret []
  | PollTerminate => r ← poll_terminate; mret (option_list r)
  | InspectAddresses addresses now => inspect_addresses addresses now;; mret []
  | AnswerDns client resolver response => answer_dns client resolver response;; mret []
  | OnPathChange accepts next => on_path_change accepts next;; mret []
  | PollTransmit => r ← poll_transmit; mret (option_list (tx_bytes <$> r))
  | PollEvent => poll_event;; mret []
  | OnTimeout now => on_timeout now;; mret []
  end.

(** The datapath and the loans its shell holds: a call that returns, or the shell
    taking from or returning to the shared pool. *)
Inductive dp_step : Datapath * list Pooled -> Datapath * list Pooled -> Prop :=
| step_call c d L L' r d' :
    L ≡ₚ given c ++ L' -> call c d = (r, d') -> r <> Panic ->
    dp_step (d, L) (d', match r with Ok out => out | _ => [] end ++ L')
| step_take d L bs r pool :
    BufferPool_take (dp_pool d) bs = (r, pool) -> dp_step (d, L) (set_pool pool d, option_list r ++ L)
| step_take_zeroed d L n r pool :
    BufferPool_take_zeroed (dp_pool d) n = (r, pool) -> dp_step (d, L) (set_pool pool d, option_list r ++ L)
| step_drop d L b L' :
    L ≡ₚ b :: L' -> dp_step (d, L) (set_pool (Pooled_drop (dp_pool d) b) d, L').

Lemma moves_call slice capacity c L :
  moves slice capacity (given c ++ L) (call c) (fun out => out ++ L) L.
Proof.
  destruct c; cbn [given call app]; try (eapply (moves_seq _ _ _ _ _ L); [|by intros d]).
  - eapply moves_bind; [apply moves_lift|]. intros packet. apply (moves_dispatch _ _ packet (Borrowed buf) Tunnel now L).
  - apply moves_parse_owned. intros parsed. apply (moves_dispatch _ _ parsed (Owned packet)).
  - eapply moves_bind; [apply moves_lift|]. intros packet. apply (moves_dispatch_from_egress _ _ packet (Borrowed buf) now L).
  - apply moves_parse_owned. intros parsed. apply (moves_dispatch_from_egress _ _ parsed (Owned packet)).
  - eapply moves_bind; [apply moves_poll_query|]. intros [q|]; by intros d.
  - eapply moves_bind.
    + intros d Hd. unfold poll_datagram. pose proof (poll_ready_owns slice capacity (dp_ready d) L d Hd) as Hp.
      destruct (poll_ready _ d) as [out d']. exact Hp.
    + intros [o|]; by intros d.
  - apply moves_deliver_datagram.
  - eapply moves_bind; [apply moves_poll_terminate|]. intros [q|]; by intros d.
  - intros d Hd. unfold inspect_addresses, modify. by destruct (InspectedAddresses_admit _ _ _).
  - eapply moves_seq; [apply moves_transmit_udp|apply moves_ret].
  - apply moves_on_path_change.
  - eapply moves_bind; [apply moves_poll_transmit|]. intros [q|]; by intros d.
  - intros d Hd. unfold poll_event. by destruct (dp_events d).
  - apply moves_on_timeout.
Qed.

Lemma dp_step_owns slice capacity d L d' L' :
  dp_step (d, L) (d', L') -> owns slice capacity L d -> owns slice capacity L' d'.
Proof.
  intros Hs Hd. inversion Hs as [c ? ? L1 r ? HL Hc Hr|? ? bs r pool Ht|? ? n r pool Ht|? ? b ? HL]; subst.
  - rewrite HL in Hd. pose proof (moves_call slice capacity c L1 d Hd) as Hm. rewrite Hc in Hm.
    by destruct r.
  - pose proof (moves_take slice capacity bs L [] d Hd) as Hm. unfold pool_take in Hm. by rewrite Ht in Hm.
  - pose proof (moves_take_zeroed slice capacity n L [] d Hd) as Hm. unfold pool_take_zeroed in Hm. by rewrite Ht in Hm.
  - rewrite HL in Hd. exact (moves_drop slice capacity b L' [] d Hd).
Qed.

Lemma new_owns filter dns accepts egress mtu limits slice capacity t1 t2 d :
  Datapath_new filter dns accepts egress mtu limits (BufferPool_new slice capacity) t1 t2 = Ok d ->
  owns slice capacity [] d.
Proof.
  unfold Datapath_new. destruct (_ && _); [done|]. destruct (check_plans _); [|done|done]. cbn [mbind Res_bind].
  unfold UdpFlowTable_new. destruct (_ <? _); [done|]. cbn [mbind Res_bind]. intros [= <-].
  unfold owns, held, accounts. cbn [dp_pool dp_transmits dp_queries dp_terminate dp_flows flows fmap list_fmap app].
  unfold table_loans. rewrite map_to_list_empty. split; cbn; try done; try lia; constructor.
Qed.

(** C2: whatever packets, replies, timers and path changes a datapath is given, and
    whatever its shell does with the shared pool meanwhile, no buffer is lost or
    counted twice: the allocated buffers are the cached ones, those in the
    datapath's queues and those its shell holds; they never exceed the pool's
    capacity, each fits its slice, and the pool offers exactly the rest. *)
Theorem datapath_conserves_buffers filter dns accepts egress mtu limits slice capacity t1 t2 d0 d L :
  Datapath_new filter dns accepts egress mtu limits (BufferPool_new slice capacity) t1 t2 = Ok d0 ->
  rtc dp_step (d0, []) (d, L) ->
  (length (free (dp_pool d)) + length (held d) + length L = live (dp_pool d))%nat /\
  (live (dp_pool d) <= capacity)%nat /\
  Forall (fun bs => (length bs <= slice)%nat) (held d ++ L) /\
  @BufferPool_available unit (dp_pool d) = Ok (capacity - length (held d) - length L)%nat.
Proof.
  intros Hnew Hrun.
  assert (forall s s', rtc dp_step s s' -> owns slice capacity s.2 s.1 -> owns slice capacity s'.2 s'.1) as Hall.
  { intros s s' Hr. induction Hr as [|[d1 L1] [d2 L2] s3 Hstep _ IH]; [done|]. intros H1. apply IH.
    by eapply dp_step_owns. }
  destruct (Hall _ _ Hrun) as [Hs Hc Hn Hb Hf Hl]; [by eapply new_owns|]. cbn [fst snd] in *.
  rewrite length_app in Hn. split_and!; try done; [lia|].
  unfold BufferPool_available. rewrite Hc, (proj2 (Nat.leb_le _ _)) by done. f_equal. lia.
Qed.

End Runs.

Definition sample_limits : Limits :=
  mkLimits (from_secs 30) 16 (from_secs 120) 64 4 (from_secs 60) 16 [443; 80; 443] None.

(** A client's DNS query is captured, and the shell polls it out of the queue. *)
Lemma datapath_conserves_buffers_witness :
  exists d0 d1 d2,
    @Datapath_new sample_etherparse InspectHttp Dns_Intercept Flows sample_path sample_mtu sample_limits
      (BufferPool_new 1500 8) 0 0 = Ok d0 /\
    @call sample_etherparse (OnTunPacket sample_udp_packet 5) d0 = (Ok [], d1) /\ length (held d1) = 1%nat /\
    @call sample_etherparse PollQuery d1 = (Ok [[42]], d2) /\
    (length (free (dp_pool d2)) + length (held d2) + length [[42]] = live (dp_pool d2))%nat /\
    @BufferPool_available unit (dp_pool d2) = Ok 7%nat.
Proof.
  destruct (@Datapath_new sample_etherparse InspectHttp Dns_Intercept Flows sample_path sample_mtu sample_limits
      (BufferPool_new 1500 8) 0 0) as [d0| |] eqn:E0; [|by vm_compute in E0..].
  destruct (@call sample_etherparse (OnTunPacket sample_udp_packet 5) d0) as [r1 d1] eqn:E1.
  destruct (@call sample_etherparse PollQuery d1) as [r2 d2] eqn:E2.
  assert (r1 = Ok [] /\ length (held d1) = 1%nat /\ r2 = Ok [[42]] /\ held d2 = []) as (-> & Hh & -> & Hh2).
  { vm_compute in E0. injection E0 as <-. vm_compute in E1. injection E1 as <- <-.
    vm_compute in E2. injection E2 as <- <-. by vm_compute. }
  assert (rtc (@dp_step sample_etherparse) (d0, []) (d2, [[42]])) as Hrun.
  { eapply rtc_l; [by apply (@step_call sample_etherparse (OnTunPacket sample_udp_packet 5) d0 [] [] (Ok []) d1)|].
    apply rtc_once. by apply (@step_call sample_etherparse PollQuery d1 [] [] (Ok [[42]]) d2). }
  destruct (@datapath_conserves_buffers sample_etherparse InspectHttp Dns_Intercept Flows sample_path sample_mtu
    sample_limits 1500 8 0 0 d0 d2 [[42]] E0 Hrun) as (Hn & _ & _ & Ha).
  exists d0, d1, d2. split_and!; try done. by rewrite Hh2 in Ha.
Defined.
