(* ===== verification/DatapathSafety.v ===== *)
(** The datapath never panics: whatever bytes arrive, no index leaves its slice, the
    mutual recursion of dispatch and reassembly ends, and the flow table, its queues
    and the ready list keep their invariant. *)

From stdpp Require Import sorting.
From S2P Require Import Prelude Wire Net Plan Packet Udp Path Reassembly Pool Datapath DatapathPool.
Open Scope Z_scope.

(** ** Reassembled bytes *)

Lemma put_bytes_ok at_ xs l l' : bytes_ok xs -> bytes_ok l -> put at_ xs l = Some l' -> bytes_ok l'.
Proof. intros Hx Hl (_ & ->)%put_Some. by apply splice_ok. Qed.

Lemma or_panic_put_ok {E} at_ xs l l' :
  bytes_ok xs -> bytes_ok l -> @or_panic E _ (put at_ xs l) = Ok l' -> bytes_ok l'.
Proof. intros Hx Hl. destruct (put at_ xs l) eqn:Ep; [|done]. intros [= <-]. exact (put_bytes_ok _ _ _ _ Hx Hl Ep). Qed.

Lemma vec_resize_ok n l : bytes_ok l -> bytes_ok (vec_resize n l).
Proof.
  intros Hl. unfold vec_resize. apply Forall_app. split; [by apply Forall_take|]. apply Forall_replicate. done.
Qed.

Definition fragment_bytes (f : Fragment) : Prop :=
  bytes_ok (f_payload f) /\ bytes_ok (f_headers f) /\ byte_ok (f_protocol f).

Definition pending_bytes (k : Key) (p : Pending) : Prop :=
  bytes_ok (p_data p) /\ bytes_ok (p_headers p) /\ byte_ok (k_protocol k).

Definition reassembler_bytes (r : Reassembler) : Prop := map_Forall pending_bytes (r_pending r).

Lemma accept_bytes {E} k f p v p' :
  fragment_bytes f -> pending_bytes k p -> @Pending_accept E f p = Ok (v, p') -> pending_bytes k p'.
Proof.
  intros (Hp & Hh & _) (Hd & Hph & Hk). unfold Pending_accept. intros Ha.
  destruct (p_poisoned p); [by write_chain|]. destruct (match p_total p with Some _ => _ | None => _ end); [by write_chain|].
  apply Res_bind_Ok in Ha as (overlap & _ & Ha). destruct overlap; [by write_chain|].
  set (p1 := if (f_start f =? 0)%nat then _ else p) in Ha.
  assert (bytes_ok (p_data p1) /\ bytes_ok (p_headers p1)) as [H1 H2] by (unfold p1; destruct (_ =? _)%nat; done).
  set (p2 := if (length (p_data p1) <? _)%nat then _ else p1) in Ha.
  assert (bytes_ok (p_data p2) /\ bytes_ok (p_headers p2)) as [H3 H4]
    by (unfold p2; destruct (_ <? _)%nat; split; cbn; auto using vec_resize_ok).
  apply Res_bind_Ok in Ha as (data & Hput & Ha). apply or_panic_put_ok in Hput; [|done|done].
  apply Res_bind_Ok in Ha as (p3 & Hmark & Ha).
  assert (p_data p3 = data /\ p_headers p3 = p_headers p2) as [E3 E4].
  { unfold Pending_mark_received in Hmark. apply Res_bind_Ok in Hmark as (words & _ & Hm). by injection Hm as <-. }
  destruct (negb (f_more f) && _); [injection Ha as _ <-|injection Ha as _ <-; destruct (negb (f_more f))];
    unfold pending_bytes; cbn; rewrite E3, E4; done.
Qed.

Lemma rebuild_bytes {E} headers nh protocol data packet :
  bytes_ok headers -> bytes_ok data -> byte_ok protocol -> @rebuild E headers nh protocol data = Ok (Some packet) ->
  bytes_ok packet /\ length packet = (length headers + length data)%nat /\ (length packet < REBUILT_BOUND)%nat.
Proof.
  intros Hh Hd Hp. assert (bytes_ok (headers ++ data)) as Hok by (by apply Forall_app).
  assert (Z.of_nat REBUILT_BOUND = 65576) as HB by (unfold REBUILT_BOUND; by rewrite Z2Nat.id).
  unfold rebuild. destruct nh as [nh|].
  - destruct (_ <? _)%nat; [done|]. intros Hr. apply Res_bind_Ok in Hr as (first & _ & Hr).
    destruct (negb _); [done|]. destruct (put nh [protocol] _) as [p1|] eqn:E1; [|done].
    pose proof (put_bytes_ok _ _ _ _ (Forall_cons_2 _ _ _ Hp (Forall_nil_2 _)) Hok E1) as Hok1. apply put_Some in E1 as [Hb E1].
    assert (length p1 = length (headers ++ data)) as L1 by (rewrite E1, length_splice; done).
    unfold u16_try_from in Hr. destruct (_ <=? U16_MAX) eqn:E16; [|done]. apply Z.leb_le in E16.
    apply Res_bind_Ok in Hr as (p2 & Hput & Hr). injection Hr as <-.
    pose proof (or_panic_put _ _ _ _ Hput) as L2.
    apply or_panic_put_ok in Hput; [|auto with boreas|done].
    unfold U16_MAX, IPV6_HEADER_BYTES in *. rewrite length_app in L1. split_and!; [done|lia|lia].
  - destruct (_ <? _)%nat; [done|]. intros Hr. apply Res_bind_Ok in Hr as (first & _ & Hr).
    destruct (negb _); [done|]. unfold u16_try_from in Hr. destruct (_ <=? U16_MAX) eqn:E16; [|done]. apply Z.leb_le in E16.
    apply Res_bind_Ok in Hr as (p1 & P1 & Hr). apply Res_bind_Ok in Hr as (flags & Hf & Hr).
    apply Res_bind_Ok in Hr as (p2 & P2 & Hr). apply Res_bind_Ok in Hr as (p3 & P3 & Hr).
    apply Res_bind_Ok in Hr as (p4 & P4 & Hr). apply Res_bind_Ok in Hr as (first' & _ & Hr).
    apply Res_bind_Ok in Hr as (header & _ & Hr). apply Res_bind_Ok in Hr as (p5 & P5 & Hr). injection Hr as <-.
    pose proof (or_panic_put _ _ _ _ P1). pose proof (or_panic_put _ _ _ _ P2). pose proof (or_panic_put _ _ _ _ P3).
    pose proof (or_panic_put _ _ _ _ P4). pose proof (or_panic_put _ _ _ _ P5).
    apply or_panic_put_ok in P1; [|auto with boreas|done].
    assert (byte_ok flags) as Hfl.
    { unfold byte_at in Hf. destruct (p1 !! 6%nat) as [b|] eqn:Eb; [|done]. injection Hf as <-. by eapply Forall_lookup_1 in P1. }
    apply or_panic_put_ok in P2; [|constructor; [by apply (byte_ok_land _ 192)|done]|done].
    apply or_panic_put_ok in P3; [|by repeat constructor|done].
    apply or_panic_put_ok in P4; [|by repeat constructor|done].
    apply or_panic_put_ok in P5; [|auto with boreas|done].
    rewrite length_app in *. unfold U16_MAX in *. split_and!; [done|lia|lia].
Qed.

(** A datagram that has its lone fragment: it started at zero and was the last. *)
Lemma lone_fragment {E} f e p' :
  usable f -> @Pending_accept E f (Pending_new e) = Ok (Finished, p') ->
  f_start f = 0%nat /\ f_more f = false /\ p_headers p' = f_headers f /\
  length (take (default 0%nat (p_total p')) (p_data p')) = length (f_payload f).
Proof.
  intros Hu Ha. destruct (@Pending_accept_ok E (Pending_new e) [] f Hu (or_intror (represents_new e)))
    as (v & p1 & Ha' & _ & Hv). rewrite Ha in Ha'. injection Ha' as <- <-. destruct Hv as [Hrep Hc].
  destruct (complete_tiles p' [f] Hrep Hc) as (t & Et & Lt & Htile & Hcover).
  apply Forall_cons in Htile as [[Hx _] _]. pose proof (us_payload f Hu) as Hpos. unfold f_extent in Hx.
  destruct (Hcover 0%nat) as (g & Hg & H0); [lia|]. apply list_elem_of_singleton in Hg as ->.
  destruct (Hcover (length (p_data p') - 1)%nat) as (g & Hg & H1); [lia|]. apply list_elem_of_singleton in Hg as ->.
  assert (f_start f = 0%nat) as Hs by lia.
  pose proof (rep_headers p' [f] Hrep) as Hh. apply Forall_cons in Hh as [Hh _]. destruct (Hh Hs) as [Hh1 _].
  split_and!; [done| |done|].
  - destruct (f_more f) eqn:Em; [|done]. exfalso. clear -Ha Em Et. unfold Pending_accept in Ha. rewrite Em in Ha.
    cbn [p_poisoned Pending_new p_total negb andb] in Ha. apply Res_bind_Ok in Ha as (overlap & _ & Ha).
    destruct overlap; [done|]. apply Res_bind_Ok in Ha as (data & _ & Ha). apply Res_bind_Ok in Ha as (p3 & Hm & Ha).
    unfold Pending_mark_received in Hm. apply Res_bind_Ok in Hm as (words & _ & Hm).
    assert (p_total p3 = None) as E3.
    { injection Hm as <-. cbn. by destruct (f_start f =? 0)%nat; cbn; destruct (_ <? _)%nat. }
    injection Ha as Hv <-. congruence.
  - rewrite Et. cbn [default from_option id]. rewrite length_take, Lt. unfold f_extent in *. lia.
Qed.

Lemma expire_bytes r c log now :
  reassembler_ok r c log -> c <= now -> reassembler_bytes r ->
  let r' := (Reassembler_expire r now).2 in
  reassembler_bytes r' /\ (Reassembler_len r' <= Reassembler_len r)%nat /\ r_timeout r' = r_timeout r /\
  forall k, r_pending r !! k = None -> r_pending r' !! k = None.
Proof.
  intros Hok Hc Hb r'. destruct (Reassembler_expire_ok r c log now Hok Hc) as (_ & Hp & _ & Ht & Hn). fold r' in Hp, Ht, Hn.
  split_and!; [|lia|done|].
  - intros k p. rewrite Hp, lookup_omap. intros (p0 & Hk & Hs)%bind_Some. pose proof (Hb k p0 Hk) as Hpb.
    unfold survive in Hs. repeat case_match; simplify_eq; done.
  - intros k Hk. by rewrite Hp, lookup_omap, Hk.
Qed.

(** What a push does to the table's size, its timeout and its bytes; a packet that
    completes takes a datagram away, or is a lone fragment without its header. *)
Lemma push_progress {E} r c log f now out r' :
  reassembler_ok r c log -> c <= now -> fragment_ok f -> fragment_bytes f -> reassembler_bytes r ->
  @Reassembler_push E r f now = Ok (out, r') ->
  r_timeout r' = r_timeout r /\ reassembler_bytes r' /\
  match out with
  | PushComplete packet =>
      bytes_ok packet /\ (length packet < REBUILT_BOUND)%nat /\
      ((Reassembler_len r' < Reassembler_len r)%nat \/
       (Reassembler_len r' <= Reassembler_len r)%nat /\ f_start f = 0%nat /\ f_more f = false /\
       length packet = (length (f_headers f) + length (f_payload f))%nat)
  | _ => True
  end.
Proof.
  intros Hok Hc Hf Hfb Hb. unfold Reassembler_push. destruct (unusable f) eqn:Hu; [by intros [= <- <-]|].
  pose proof (usable_of f Hu Hf) as Hus. set (key := fragment_key f).
  set (crowded := negb _ && _). set (r1 := if crowded then _ else r).
  assert (reassembler_bytes r1 /\ (Reassembler_len r1 <= Reassembler_len r)%nat /\ r_timeout r1 = r_timeout r /\
    (r_pending r !! key = None -> r_pending r1 !! key = None) /\
    (is_Some (r_pending r1 !! key) -> r_pending r1 = r_pending r)) as (Hb1 & Hl1 & Ht1 & Hn1 & Hsame).
  { unfold r1. destruct crowded eqn:Ec; [|done]. destruct (expire_bytes r c log now Hok Hc Hb) as (? & ? & ? & Hnone).
    split_and!; try done; [apply Hnone|]. intros [p Hp]. unfold crowded in Ec. apply andb_true_iff in Ec as [Ec _].
    apply negb_true_iff, bool_decide_eq_false, eq_None_not_Some in Ec. by rewrite (Hnone _ Ec) in Hp. }
  destruct (crowded && _); [by intros [= <- <-]|]. clearbody r1. clear crowded Hok Hb.
  set (deadline := default now _). destruct (pending_entry key deadline r1) as [p r2] eqn:Ep.
  assert (r_pending r2 = r_pending r1 /\ r_timeout r2 = r_timeout r1 /\ pending_bytes key p /\
    (r_pending r1 !! key = None -> exists e, p = Pending_new e)) as (Ep2 & Et2 & Hpb & Hnew).
  { unfold pending_entry in Ep. destruct (r_pending r1 !! key) as [p0|] eqn:Ek; injection Ep as <- <-; split_and!; try done.
    - exact (Hb1 _ _ Ek).
    - split_and!; [constructor|constructor|apply Hfb].
    - intros _. by eexists. }
  intros Hpush. apply Res_bind_Ok in Hpush as ([v p'] & Ha & Hpush).
  pose proof (accept_bytes key f p v p' Hfb Hpb Ha) as Hpb'.
  assert (reassembler_bytes (with_pending (<[key := p']> (r_pending r2)) r2)) as Hb3.
  { unfold reassembler_bytes. cbn. rewrite Ep2. by apply map_Forall_insert_2. }
  destruct v; [injection Hpush as <- <-; split_and!; cbn; congruence || done..|].
  apply Res_bind_Ok in Hpush as (rebuilt & Hr & Hpush).
  assert (reassembler_bytes (with_pending (delete key (<[key := p']> (r_pending r2))) r2)) as Hb4.
  { unfold reassembler_bytes. cbn. rewrite Ep2. by apply map_Forall_delete, map_Forall_insert_2. }
  destruct rebuilt as [packet|]; injection Hpush as <- <-; (split; [cbn; congruence|]); (split; [exact Hb4|]); [|done].
  destruct Hpb' as (Hd & Hh & Hk).
  destruct (rebuild_bytes _ _ _ _ _ Hh (Forall_take _ _ _ Hd) Hk Hr) as (Hpk & Hlen & Hbound).
  split_and!; [done|done|]. unfold Reassembler_len in *. cbn [r_pending with_pending Reassembler_forget_slot with_expirations].
  rewrite Ep2. destruct (r_pending r1 !! key) as [p0|] eqn:Ek.
  - left. rewrite delete_insert_eq. rewrite (Hsame ltac:(by eexists)) in Ek |- *.
    pose proof (map_size_delete_Some _ _ (ex_intro _ p0 Ek)) as Hsz. 
    assert (size (r_pending r) <> 0)%nat by (apply map_size_ne_0_lookup; eauto). lia.
  - right. destruct (Hnew eq_refl) as [e ->]. destruct (lone_fragment f e p' Hus Ha) as (Hs & Hm & Hhd & Hdl).
    rewrite delete_insert_id by done. split_and!; [done|done|done|]. rewrite Hlen, Hhd. by f_equal.
Qed.

(** ** Parsed fragments *)

(** What the datapath relies on of the header parser: the laws of the components,
    that an IPv4 packet counts as fragmented by its flag or its offset, and that the
    protocol numbers it reads are bytes. *)
Class DatapathLaws `{Etherparse} : Prop := {
  datapath_etherparse :: EtherparseLaws;
  datapath_fragment :: FragmentLaws;
  v4_fragmented : forall packet sliced ipv4,
    from_ip packet = inr sliced -> sliced_net sliced = Some (NetIpv4 ipv4) ->
    v4_is_payload_fragmented ipv4 = v4_more_fragments ipv4 || negb (v4_fragments_offset ipv4 =? 0);
  v4_protocol_byte : forall packet sliced ipv4,
    from_ip packet = inr sliced -> sliced_net sliced = Some (NetIpv4 ipv4) -> byte_ok (v4_protocol ipv4);
  v6_next_header_byte : forall packet sliced ipv6 header,
    from_ip packet = inr sliced -> sliced_net sliced = Some (NetIpv6 ipv6) ->
    v6_fragment_header ipv6 = Some header -> byte_ok (fh_next_header header);
}.

Lemma ipv6_header_loop_within fuel packet nh at_ nh' at' :
  ipv6_header_loop fuel packet nh at_ = Some (nh', at') -> (at' + IPV6_FRAGMENT_BYTES <= length packet)%nat.
Proof.
  revert nh at_. induction fuel as [|fuel IH]; intros nh at_; cbn [ipv6_header_loop]; [done|].
  destruct (packet !! nh) as [next|]; [|done]. cbn [mbind option_bind]. destruct (next =? IPV6_FRAGMENT).
  - unfold get_range. destruct (_ && _) eqn:E; [|done]. cbn. intros [= <- <-]. by reflect.
  - destruct (if existsb _ _ then _ else _) as [len|]; [|done]. cbn. apply IH.
Qed.

(** A parsed fragment's bytes are the packet's, and one that would be alone in its
    datagram is shorter without its Fragment header. *)
Lemma Fragment_parse_bytes `{DatapathLaws} packet f :
  bytes_ok packet -> Fragment_parse packet = Ok (Some f) ->
  fragment_bytes f /\
  (f_start f = 0%nat -> f_more f = false -> (length (f_headers f) + length (f_payload f) < length packet)%nat).
Proof.
  intros Hok. unfold Fragment_parse. destruct (from_ip packet) as [e|sliced] eqn:Hs; [done|].
  cbn [mbind Res_bind]. destruct (sliced_net sliced) as [[ipv4|ipv6|]|] eqn:Hn; try done.
  - destruct (v4_is_payload_fragmented ipv4) eqn:Ef; [|done]. cbn [negb]. intros [= <-].
    rewrite (v4_fragmented _ _ _ Hs Hn) in Ef. pose proof (v4_offset_range _ _ _ Hs Hn).
    split; [|unfold f_start; cbn; intros Hz Hm; rewrite Hm in Ef; cbn in Ef; reflect; lia].
    split_and!; cbn; [unfold subslice; by apply Forall_take, Forall_drop| |by eapply v4_protocol_byte].
    unfold get_to. destruct (_ <=? _)%nat; [by apply Forall_take|constructor].
  - destruct (negb _); [done|]. destruct (v6_fragment_header ipv6) as [header|] eqn:Hh; [|done].
    unfold ipv6_fragment_header.
    destruct (ipv6_header_loop _ packet _ _) as [[nh at_]|] eqn:El; [|done]. intros [= <-].
    apply ipv6_header_loop_within in El. unfold IPV6_FRAGMENT_BYTES in *.
    unfold get_from, get_to. rewrite !(proj2 (Nat.leb_le _ _)) by lia. cbn [default from_option id].
    split; [split_and!; cbn; [by apply Forall_drop|by apply Forall_take|by eapply v6_next_header_byte]|].
    cbn. intros _ _. rewrite length_take, length_drop. lia.
Qed.

(** ** The invariant *)

Section Invariant.
Context (max_flows : nat) (timeout : Duration).

(** A flow of the table is terminated locally, its queue is within its bound, and a
    queue with anything in it is on the ready list. *)
Definition flow_ok (capacity : nat) (ready : list FlowKey) (key : FlowKey) (flow : FlowState) : Prop :=
  plan_transport (fs_plan flow) = LocalTermination /\ db_capacity (fs_buffer flow) = capacity /\
  (length (db_datagrams (fs_buffer flow)) <= capacity)%nat /\ (db_datagrams (fs_buffer flow) <> [] -> key ∈ ready).

Definition flows_ok (capacity : nat) (ready : list FlowKey) (t : FlowTable) : Prop :=
  ceiling t = max_flows /\ (size (flows t) <= max_flows)%nat /\
  map_Forall (fun key st => flow_ok capacity ready key (es_value st)) (flows t).

Record safe (c : Instant) (d : Datapath) : Prop := {
  sf_plans : dp_plans d = plans_for (dp_filter d) (dp_accepts d) (dp_egress d) (dp_path_mtu d);
  sf_reassembler : exists log, reassembler_ok (dp_reassembler d) c log;
  sf_room : c + r_timeout (dp_reassembler d) <= INSTANT_MAX;
  sf_bytes : reassembler_bytes (dp_reassembler d);
  sf_flows : flows_ok (dp_datagram_buffer_capacity d) (dp_ready d) (dp_flows d);
  sf_free : Forall (fun b => b = []) (free (dp_pool d));
  sf_timeout : r_timeout (dp_reassembler d) = timeout;
}.

Lemma reserve_free p n :
  Forall (fun b => b = []) (free p) ->
  let '(r, p') := BufferPool_reserve p n in
  Forall (fun b => b = []) (free p') /\ slice_size p' = slice_size p /\ (forall b, r = Some b -> b = []).
Proof.
  intros Hf. unfold BufferPool_reserve. destruct (_ <? n)%nat; [done|].
  destruct (vec_pop (free p)) as [[b rest]|] eqn:Ep.
  - apply vec_pop_Some in Ep. rewrite Ep, Forall_app, Forall_singleton in Hf. destruct Hf as [Hr ->].
    split_and!; try done. by intros b [= <-].
  - destruct (_ <=? live p)%nat; split_and!; try done. by intros b [= <-].
Qed.

Lemma drop_free p b : Forall (fun b => b = []) (free p) -> Forall (fun b => b = []) (free (Pooled_drop p b)).
Proof. intros Hf. cbn. apply Forall_app. split; [done|by constructor]. Qed.

Lemma drop_all_free bs p : Forall (fun b => b = []) (free p) -> Forall (fun b => b = []) (free (drop_all bs p)).
Proof. unfold drop_all. revert p. induction bs as [|b bs IH]; intros p Hf; cbn; [done|]. by apply IH, drop_free. Qed.

Lemma safe_set_pool c pool d : Forall (fun b => b = []) (free pool) -> safe c d -> safe c (set_pool pool d).
Proof. intros Hf []. by split. Qed.

Lemma safe_set_flows c fl d :
  flows_ok (dp_datagram_buffer_capacity d) (dp_ready d) fl -> safe c d -> safe c (set_flows fl d).
Proof. intros Hf []. by split. Qed.

Lemma flows_ok_insert capacity ready (t t' : FlowTable) key now plan v :
  plan_transport plan = LocalTermination -> flows_ok capacity ready t ->
  UdpFlowTable_get_or_insert_with t key now (mkFlow plan (DatagramBuffer_new capacity)) = Ok (v, t') ->
  flows_ok capacity ready t'.
Proof.
  intros Hp (Hm & Hs & Hf). unfold UdpFlowTable_get_or_insert_with. destruct (instant_checked_add _ _); [|done].
  cbn [ok_or mbind Res_bind]. destruct (flows t !! key) as [st|] eqn:E.
  - intros [= <- <-]. split_and!; cbn; [done|by rewrite map_size_insert_Some|].
    apply map_Forall_insert_2; [|done]. exact (Hf _ _ E).
  - destruct (_ <=? size _)%nat eqn:El; [done|]. apply Nat.leb_gt in El. intros [= <- <-].
    split_and!; cbn; [done|rewrite map_size_insert_None by done; lia|]. apply map_Forall_insert_2; [|done].
    split_and!; cbn; try done; lia.
Qed.

Lemma flows_ok_sub capacity ready (t t' : FlowTable) :
  ceiling t' = ceiling t -> flows t' ⊆ flows t -> flows_ok capacity ready t -> flows_ok capacity ready t'.
Proof.
  intros Hc Hsub (Hm & Hs & Hf). split_and!; [by rewrite Hc|apply map_subseteq_size in Hsub; lia|].
  intros k st Hk. by eapply Hf, lookup_weaken.
Qed.

(** The flow of [key] given another queue, and another ready list. *)
Lemma flows_ok_update capacity ready ready' (t : FlowTable) key flow buffer :
  flows_ok capacity ready t -> UdpFlowTable_get t key = Some flow ->
  db_capacity buffer = capacity -> (length (db_datagrams buffer) <= capacity)%nat ->
  (db_datagrams buffer <> [] -> key ∈ ready') -> (forall k, k <> key -> k ∈ ready -> k ∈ ready') ->
  flows_ok capacity ready' (UdpFlowTable_update t key (fun flow => mkFlow (fs_plan flow) buffer)).
Proof.
  intros (Hm & Hs & Hf) Hg Hc Hl Hr Hrr. unfold UdpFlowTable_get in Hg. destruct (flows t !! key) as [st|] eqn:E; [|done].
  cbn in Hg. injection Hg as <-. unfold UdpFlowTable_update. split_and!; cbn [flows ceiling].
  - done.
  - rewrite (alter_alt_Some _ _ _ _ E), map_size_insert_Some by eauto. done.
  - intros k st' Hk. destruct (decide (k = key)) as [->|Hne].
    + rewrite lookup_alter_eq, E in Hk. cbn in Hk. injection Hk as <-. cbn. split_and!; try done. apply (Hf _ _ E).
    + rewrite lookup_alter_ne in Hk by done. destruct (Hf _ _ Hk) as (? & ? & ? & Hin). split_and!; try done. auto.
Qed.

Lemma flows_ok_ready capacity ready ready' (t : FlowTable) :
  (forall k, k ∈ ready -> k ∈ ready') -> flows_ok capacity ready t -> flows_ok capacity ready' t.
Proof.
  intros Hr (Hm & Hs & Hf). split_and!; [done|done|]. intros k st Hk. destruct (Hf k st Hk) as (? & ? & ? & Hin). split_and!; auto.
Qed.

Lemma expire_sub (t : FlowTable) now :
  let t' := (UdpFlowTable_expire t now).2 in ceiling t' = ceiling t /\ flows t' ⊆ flows t.
Proof.
  unfold UdpFlowTable_expire. destruct (TimerWheel_take_due _ _ _) as [w surfaced].
  assert (forall ks fl w expired, (foldl (@expire_key FlowKey FlowState _ _ now) (fl, w, expired) ks).1.1 ⊆ fl) as Hall.
  { induction ks as [|k ks IH]; intros fl w0 expired; [done|]. cbn [foldl].
    assert ((@expire_key FlowKey FlowState _ _ now (fl, w0, expired) k).1.1 ⊆ fl) as Hk.
    { cbn. destruct (fl !! k); [|done]. destruct (_ <=? now); [apply delete_subseteq|done]. }
    destruct (expire_key now (fl, w0, expired) k) as [[fl1 w1] e1]. etransitivity; [apply IH|exact Hk]. }
  specialize (Hall surfaced (flows t) w []). destruct (foldl _ _ surfaced) as [[fl' w'] expired]. by cbn.
Qed.

(** ** Computations that keep the invariant *)

Section Safety.
Context `{DatapathLaws} (c : Instant).

(** What a computation answers: not a panic, and a safe state. *)
Definition answers_safely {A} (r : Res DatapathError A * Datapath) : Prop :=
  match r with (Panic, _) => False | (_, d) => safe c d end.

Definition guards {A} (m : DP A) : Prop := forall d, safe c d -> answers_safely (m d).

Lemma guards_ret {A} (a : A) : guards (mret a).
Proof. by intros d. Qed.

Lemma guards_bind {A B} (m : DP A) (f : A -> DP B) : guards m -> (forall a, guards (f a)) -> guards (m ≫= f).
Proof.
  intros Hm Hf d Hd. specialize (Hm d Hd). unfold mbind, DP_bind.
  destruct (m d) as [[a|e|] d']; [by apply Hf|done|done].
Qed.

Lemma guards_reads {A} (f : Datapath -> DP A) :
  (forall d, safe c d -> answers_safely (f d d)) -> guards (get ≫= f).
Proof. intros Hf d Hd. by apply Hf. Qed.

Lemma guards_modify f : (forall d, safe c d -> safe c (f d)) -> guards (modify f).
Proof. intros Hf d Hd. by apply Hf. Qed.

Lemma guards_lift {E A} (conv : E -> DatapathError) (r : Res E A) : r <> Panic -> guards (lift conv r).
Proof. intros Hr d Hd. unfold lift. by destruct r. Qed.

Lemma guards_run {A} (r : Res DatapathError A) : r <> Panic -> guards (run r).
Proof. intros Hr d Hd. unfold run. by destruct r. Qed.

Lemma guards_event e : guards (push_event e).
Proof. apply guards_modify. by intros d []. Qed.

Lemma guards_event_if (b : bool) e : guards (if b then push_event e else mret tt).
Proof. destruct b; [apply guards_event|apply guards_ret]. Qed.

Lemma guards_transmit to bs : guards (push_transmit to bs).
Proof. apply guards_modify. by intros d []. Qed.

(** A loan taken holds the bytes it was given. *)
Lemma guards_take_bind {A} bs (f : option Pooled -> DP A) :
  guards (f None) -> guards (f (Some bs)) -> guards (pool_take bs ≫= f).
Proof.
  intros Hn Hs d Hd. unfold mbind, DP_bind, pool_take, BufferPool_take.
  pose proof (reserve_free (dp_pool d) (length bs) (sf_free _ _ Hd)) as Hr.
  destruct (BufferPool_reserve _ _) as [[b|] p']; destruct Hr as (Hf & _ & Hb);
    pose proof (safe_set_pool _ _ _ Hf Hd); [|by apply Hn].
  cbn [fmap option_fmap option_map]. rewrite (Hb b eq_refl). by apply Hs.
Qed.

Lemma guards_drop bs : guards (drop_pooled bs).
Proof. apply guards_modify. intros d Hd. apply safe_set_pool; [|done]. apply drop_free, Hd. Qed.

Lemma guards_drop_ingress i : guards (drop_ingress i).
Proof. destruct i; [apply guards_ret|apply guards_drop]. Qed.

Lemma drop_ingress_safe i d : safe c d -> safe c (drop_ingress i d).2.
Proof. intros Hd. pose proof (guards_drop_ingress i d Hd) as Hg. by destruct i. Qed.

Lemma guards_dropping {A} i (body : DP A) : guards body -> guards (dropping i body).
Proof.
  intros Hb d Hd. specialize (Hb d Hd). unfold dropping. destruct (body d) as [[a|e|] d'];
    [by apply drop_ingress_safe..|done].
Qed.

Lemma guards_icmp_take now : guards (icmp_take now).
Proof. intros d []. unfold icmp_take. by destruct (IcmpBudget_take _ _). Qed.

(** A zeroed loan has the length asked for, and the pool keeps its slice size. *)
Lemma take_zeroed_length p n r p' :
  Forall (fun b => b = []) (free p) -> BufferPool_take_zeroed p n = (r, p') ->
  Forall (fun b => b = []) (free p') /\ slice_size p' = slice_size p /\
  match r with Some bs => length bs = n | None => True end.
Proof.
  intros Hf. unfold BufferPool_take_zeroed. pose proof (reserve_free p n Hf) as Hr.
  destruct (BufferPool_reserve p n) as [[b|] p1]; destruct Hr as (? & ? & _); intros [= <- <-]; split_and!; try done.
  apply length_vec_resize.
Qed.

Lemma guards_answer_with write :
  (forall bs, write bs <> Panic) ->
  (forall bs n bs', write bs = Ok (n, bs') -> length bs' = length bs /\ (n <= length bs)%nat) ->
  guards (answer_with write).
Proof.
  intros Hp Hw. apply guards_reads. intros d Hd. unfold mbind at 1, DP_bind at 1, pool_take_zeroed.
  destruct (BufferPool_take_zeroed _ _) as [r pool] eqn:Et. destruct (take_zeroed_length _ _ _ _ (sf_free _ _ Hd) Et) as (Hf & Hsl & Hlen).
  pose proof (safe_set_pool _ _ _ Hf Hd) as Hd1.
  destruct r as [reply|].
  2:{ exact (guards_bind _ _ (guards_event TransmitDropped) (fun _ => guards_ret false) _ Hd1). }
  destruct (write reply) as [[len reply']|e|] eqn:Ew; [| |by destruct (Hp reply)].
  - destruct (Hw _ _ _ Ew) as [Hl Hn]. unfold mbind at 1, DP_bind at 1, get, Pooled_resize. cbn [dp_pool set_pool].
    rewrite Hsl, (proj2 (Nat.ltb_ge _ _)) by lia.
    exact (guards_bind _ _ (guards_transmit Tunnel _) (fun _ => guards_ret true) _ Hd1).
  - exact (guards_bind _ _ (guards_event TransmitDropped)
      (fun _ => guards_bind _ _ (guards_drop reply) (fun _ => guards_ret false)) _ Hd1).
Qed.

Lemma write_icmp_error_total out quoted error : write_icmp_error out quoted error <> Panic.
Proof.
  unfold write_icmp_error. pose proof (IngressPacket_parse_no_panic quoted).
  destruct (IngressPacket_parse quoted) as [parsed|e|]; [|done|done].
  destruct (icmp_builder error (destination parsed) (source parsed)) as [[builder limit]|] eqn:Eb; [|done].
  destruct (icmp_builder_about _ _ _ quoted _ _ Eb) as [Hl _].
  rewrite (proj2 (Nat.ltb_ge _ _)) by done. unfold emit.
  destruct (get_to _ _); [|done]. cbn [ok_or mbind Res_bind]. destruct (builder_write _ _); [|done].
  cbn [ok_or mbind Res_bind]. by destruct (_ <=? _)%nat.
Qed.

Lemma guards_answer_icmp quoted error : guards (answer_with (fun reply => write_icmp_error reply quoted error)).
Proof.
  apply guards_answer_with; [intros bs; apply write_icmp_error_total|].
  intros bs n bs'. apply write_icmp_error_length.
Qed.

Lemma guards_report_too_big buf mtu now : guards (report_too_big buf mtu now).
Proof.
  apply guards_bind; [apply guards_icmp_take|]. intros [|]; [|apply guards_ret].
  apply guards_bind; [apply guards_answer_icmp|]. intros [|]; [apply guards_event|apply guards_ret].
Qed.

Lemma spend_hop_total bs : @spend_hop DatapathError bs <> Panic.
Proof.
  unfold spend_hop, byte_at, put. destruct bs as [|v rest]; [done|]. set (bs := v :: rest).
  assert (forall l i, (i < length l)%nat -> exists b, @lookup _ Z _ _ i l = Some b) as Hat
    by (intros l i Hi; apply lookup_lt_is_Some_2; lia).
  destruct ((_ =? 4) && _) eqn:E4; [|destruct ((_ =? 6) && _) eqn:E6; [|done]].
  - apply andb_true_iff in E4 as [_ E4]. apply Nat.leb_le in E4.
    destruct (Hat bs 8%nat) as [ttl ->]; [lia|]. cbn [or_panic mbind Res_bind]. destruct (_ =? 0); [done|].
    rewrite (proj2 (Nat.leb_le _ _)) by (cbn [length] in *; lia). cbn [or_panic mbind Res_bind].
    set (bs1 := splice _ _ bs). assert (length bs1 = length bs) as L1 by (apply length_splice; cbn [length] in *; lia).
    destruct (Hat bs1 10%nat) as [hi ->]; [lia|]. destruct (Hat bs1 11%nat) as [lo ->]; [lia|].
    cbn [or_panic mbind Res_bind]. rewrite (proj2 (Nat.leb_le _ _)) by (rewrite length_be_bytes; lia). done.
  - apply andb_true_iff in E6 as [_ E6]. apply Nat.leb_le in E6.
    destruct (Hat bs 7%nat) as [hops ->]; [lia|]. cbn [or_panic mbind Res_bind].
    rewrite (proj2 (Nat.leb_le _ _)) by (cbn [length] in *; lia). by destruct (0 <? _).
Qed.

Lemma saturating_sub_byte b : byte_ok b -> byte_ok (saturating_sub b 1).
Proof. unfold uint_ok, saturating_sub. lia. Qed.

Lemma byte_at_byte {E} bs i b : bytes_ok bs -> @byte_at E bs i = Ok b -> byte_ok b.
Proof.
  intros Hok. unfold byte_at. destruct (bs !! i) as [x|] eqn:Ex; [|done]. intros [= <-]. by eapply Forall_lookup_1 in Hok.
Qed.

Lemma spend_hop_bytes bs hops bs' : bytes_ok bs -> @spend_hop DatapathError bs = Ok (hops, bs') -> bytes_ok bs'.
Proof.
  intros Hok. unfold spend_hop. destruct bs as [|v rest]; [by intros [= <- <-]|].
  destruct ((_ =? 4) && _); [|destruct ((_ =? 6) && _); [|by intros [= <- <-]]]; intros Hs.
  - apply Res_bind_Ok in Hs as (ttl & Ht & Hs). apply byte_at_byte in Ht; [|done].
    destruct (_ =? 0); [by injection Hs as <- <-|].
    apply Res_bind_Ok in Hs as (p1 & P1 & Hs).
    apply or_panic_put_ok in P1; [|by repeat constructor; apply saturating_sub_byte|done].
    apply Res_bind_Ok in Hs as (hi & _ & Hs). apply Res_bind_Ok in Hs as (lo & _ & Hs).
    apply Res_bind_Ok in Hs as (p2 & P2 & Hs). injection Hs as <- <-.
    by apply or_panic_put_ok in P2; [|auto with boreas|].
  - apply Res_bind_Ok in Hs as (ho & Ht & Hs). apply byte_at_byte in Ht; [|done].
    apply Res_bind_Ok in Hs as (p1 & P1 & Hs). injection Hs as <- <-. destruct (0 <? _); [|by injection P1 as <-].
    apply or_panic_put_ok in P1; [done|by repeat constructor; apply saturating_sub_byte|done].
Qed.

Lemma clamp_mss_total bs mtu : bytes_ok bs -> @clamp_mss DatapathError bs mtu <> Panic.
Proof.
  intros Hok. unfold clamp_mss. destruct bs as [|version rest]; [done|]. set (packet := version :: rest) in *.
  destruct (Z.eqb_spec (Z.shiftr version 4) 4) as [E4|].
  { pose proof (@clamp_ipv4_ok DatapathError packet (saturating_sub (Mtu_get mtu) 40) Hok ltac:(cbn; lia) E4) as Hc.
    by destruct (clamp_ipv4 _ _). }
  destruct (Z.eqb_spec (Z.shiftr version 4) 6) as [E6|]; [|done].
  pose proof (@clamp_ipv6_ok DatapathError packet (saturating_sub (Mtu_get mtu) 60) Hok E6) as Hc.
  by destruct (clamp_ipv6 _ _).
Qed.

Lemma guards_into_pooled {A} i (f : option Pooled -> DP A) :
  guards (f None) -> guards (f (Some (Ingress_bytes i))) -> guards (into_pooled i ≫= f).
Proof. intros Hn Hs. destruct i; [by apply guards_take_bind|]. by intros d; apply Hs. Qed.

Lemma guards_forward i to clamp quoting now : bytes_ok (Ingress_bytes i) -> guards (forward i to clamp quoting now).
Proof.
  intros Hok. apply guards_into_pooled; [apply guards_event|]. intros d Hd. unfold mbind at 1, DP_bind at 1, run at 1.
  destruct (spend_hop _) as [[hops bs]|e|] eqn:Es; [|done|by apply spend_hop_total in Es].
  apply spend_hop_bytes in Es; [|done]. revert d Hd. destruct (bool_decide (hops = Some 0)).
  - apply guards_bind; [apply guards_event|intros _]. apply guards_bind; [|intros _; apply guards_drop].
    destruct (_ && _); [|apply guards_ret]. apply guards_bind; [apply guards_icmp_take|]. intros [|]; [|apply guards_ret].
    apply guards_bind; [apply guards_answer_icmp|intros _; apply guards_ret].
  - apply guards_bind; [|intros bs'; apply guards_transmit]. destruct clamp as [mtu|]; [|apply guards_ret].
    apply guards_bind; [by apply guards_run, clamp_mss_total|]. intros [? ?]. apply guards_ret.
Qed.

(** ** Flows *)

Lemma guards_open_flow key plan now : plan_transport plan = LocalTermination -> guards (open_flow key plan now).
Proof.
  intros Hp. apply guards_reads. intros d Hd. unfold mbind, DP_bind, lift.
  destruct (UdpFlowTable_get_or_insert_with _ _ _ _) as [[v t']|e|] eqn:E; cbn [modify mret DP_ret]; [|exact Hd|].
  - apply safe_set_flows; [|done]. eapply flows_ok_insert; [exact Hp|apply Hd|exact E].
  - unfold UdpFlowTable_get_or_insert_with in E. destruct (instant_checked_add _ _); [|done]. cbn in E.
    repeat case_match; done.
Qed.

Lemma guards_take_payload {A} packet buf (f : option Pooled -> DP A) :
  (forall r, guards (f r)) -> guards (take_payload packet buf ≫= f).
Proof.
  intros Hf. unfold take_payload. destruct (IngressPacket_payload _ _); [by apply guards_take_bind|].
  intros d. apply Hf.
Qed.

Lemma guards_capture_for_termination i : guards (capture_for_termination i).
Proof. apply guards_into_pooled; [apply guards_event|]. apply guards_modify. by intros d []. Qed.

Lemma guards_intercept_dns packet buf : guards (intercept_dns packet buf).
Proof.
  unfold intercept_dns. destruct (transport packet); try apply guards_ret.
  apply guards_take_payload. intros [payload|]; [|apply guards_event]. apply guards_modify. by intros d [].
Qed.

Lemma guards_capture_datagram packet buf client : guards (capture_datagram packet buf client).
Proof.
  unfold capture_datagram. destruct (transport packet); try apply guards_ret.
  apply guards_take_payload. intros [payload|]; [|apply guards_event]. apply guards_reads. intros d Hd.
  destruct (UdpFlowTable_get (dp_flows d) client) as [flow|] eqn:Eg.
  2:{ exact (guards_bind _ _ (guards_event TransmitDropped) (fun _ => guards_drop payload) _ Hd). }
  assert (flow_ok (dp_datagram_buffer_capacity d) (dp_ready d) client flow) as (_ & Hc & Hl & Hin).
  { unfold UdpFlowTable_get in Eg. destruct (flows (dp_flows d) !! client) as [st|] eqn:E; [|done].
    cbn in Eg. injection Eg as <-. exact (proj2 (proj2 (sf_flows _ _ Hd)) _ _ E). }
  unfold DatagramBuffer_try_send. destruct (_ =? _)%nat eqn:Efull; reflect; unfold mbind at 1, DP_bind at 1, modify at 1.
  - match goal with |- answers_safely (_ ?d') => assert (safe c d') as Hd' end.
    { apply safe_set_flows; [|done]. eapply flows_ok_update; [apply Hd|exact Eg|..]; cbn; try done. }
    exact (guards_bind _ _ (guards_drop payload) (fun _ => guards_event _) _ Hd').
  - set (fl := UdpFlowTable_update _ _ _).
    assert (flows_ok (dp_datagram_buffer_capacity d) (dp_ready d ++ [client]) fl) as Hfl.
    { eapply flows_ok_update; [apply Hd|exact Eg|..]; cbn; try done; [rewrite length_app; cbn; lia|set_solver|set_solver]. }
    unfold DatagramBuffer_is_empty. destruct (db_datagrams (fs_buffer flow)) as [|x rest] eqn:Eb.
    + destruct Hd. by split.
    + destruct Hd as [? ? ? ? Hfo ?]. split; try done. cbn. eapply flows_ok_ready; [|exact Hfl].
      intros k [Hk|Hk%list_elem_of_singleton]%elem_of_app; [done|]. subst k. by apply Hin.
Qed.

(** ** Dispatch *)

Lemma plan_of_total d ins : safe c d -> plan_of d ins <> Panic.
Proof.
  intros Hd. unfold plan_of. rewrite (sf_plans _ _ Hd). destruct ins; cbn; apply plan_flow_no_panic.
Qed.

(** A flow is opened only under a plan that terminates it here. *)
Definition opens_locally (action : IngressAction) : Prop :=
  match action with OpenStream plan | OpenDatagram plan => plan_transport plan = LocalTermination | _ => True end.

Lemma decide_action_ok packet from now d :
  safe c d ->
  match decide_action packet from now d with
  | (Ok action, d') => d' = d /\ opens_locally action
  | (Err _, d') => d' = d
  | (Panic, _) => False
  end.
Proof.
  intros Hd. unfold decide_action, mbind, DP_bind, get. destruct (admit_packet _ _ _) as [action|] eqn:Ea.
  { split; [done|]. unfold admit_packet in Ea. repeat case_match; simplify_eq; done. }
  assert (forall plan, opens_locally (route_planned (transport packet) plan)) as Hr.
  { intros plan. unfold route_planned. destruct (plan_transport plan) eqn:Ep; [done|]. by destruct (transport packet). }
  destruct (if bool_decide _ then _ else _) as [plan|]; [split; [done|apply Hr]|].
  unfold lift. pose proof (plan_of_total d (inspection d packet from now) Hd) as Hp.
  destruct (plan_of _ _); [split; [done|apply Hr]|done|done].
Qed.

Lemma perform_safe on_fragment packet i from now action d :
  safe c d -> bytes_ok (Ingress_bytes i) -> opens_locally action ->
  (action = Reassemble -> answers_safely (on_fragment (Ingress_bytes i) from now d)) ->
  answers_safely (perform on_fragment packet i from now action d).
Proof.
  intros Hd Hok Hopen Hfrag. destruct action as [| | |plan|plan|plan|plan|]; cbn [perform] in *.
  - specialize (Hfrag eq_refl). unfold dropping. destruct (on_fragment _ from now d) as [[a|e|] d'];
      [by apply drop_ingress_safe..|done].
  - by apply guards_dropping; [apply guards_intercept_dns|].
  - by apply guards_dropping; [apply guards_event|].
  - destruct (plan_transport plan); [|by apply guards_forward].
    destruct (_ && _); [by apply guards_dropping; [apply guards_report_too_big|]|by apply guards_forward].
  - destruct (key_of packet) as [key|]; [|by apply guards_drop_ingress].
    pose proof (guards_open_flow key plan now Hopen d Hd) as Ho.
    destruct (open_flow key plan now d) as [[opened|e|] d']; [|by apply drop_ingress_safe|done].
    revert d' Ho. apply guards_bind; [apply guards_event_if|intros _].
    destruct (bool_decide _); [apply guards_capture_for_termination|apply guards_drop_ingress].
  - apply guards_dropping; [|done]. destruct (key_of packet) as [key|]; [|apply guards_ret].
    apply guards_bind; [by apply guards_open_flow|intros opened]. apply guards_bind; [apply guards_event_if|intros _].
    destruct (bool_decide _); [apply guards_capture_datagram|apply guards_ret].
  - by apply guards_forward.
  - by apply guards_drop_ingress.
Qed.

Lemma Fragment_parse_no_panic packet : Fragment_parse packet <> Panic.
Proof. unfold Fragment_parse. destruct (from_ip packet); [done|]. cbn. repeat case_match; done. Qed.

Lemma dispatch_loop_safe fuel : forall packet i from d,
  safe c d -> bytes_ok (Ingress_bytes i) -> (dispatch_fuel (dp_reassembler d) (Ingress_bytes i) < fuel)%nat ->
  answers_safely (dispatch_loop fuel packet i from c d).
Proof.
  induction fuel as [|fuel IH]; intros packet i from d Hd Hok Hfuel; [lia|]. cbn [dispatch_loop].
  pose proof (decide_action_ok packet from c d Hd) as Ha.
  destruct (decide_action packet from c d) as [[action|e|] d1];
    [destruct Ha as [-> Hopen]|subst d1; by apply drop_ingress_safe|done].
  apply perform_safe; [done|done|done|]. intros _. set (buf := Ingress_bytes i) in *.
  unfold mbind at 1, DP_bind at 1, lift. pose proof (Fragment_parse_no_panic buf).
  destruct (Fragment_parse buf) as [[f|]|e|] eqn:Ef; [|exact Hd|exact Hd|done].
  destruct (Fragment_parse_ok buf f Ef) as [Hfo _]. destruct (Fragment_parse_bytes buf f Hok Ef) as [Hfb Hlone].
  destruct (sf_reassembler _ _ Hd) as [log Hr].
  destruct (@Reassembler_push_ok DatapathError (dp_reassembler d) c log f c Hr ltac:(lia) (sf_room _ _ Hd) Hfo)
    as (out & r' & Hpush & Hr' & _).
  destruct (push_progress _ _ _ _ _ _ _ Hr (Z.le_refl c) Hfo Hfb (sf_bytes _ _ Hd) Hpush) as (Ht & Hb & Hprog).
  assert (safe c (set_reassembler r' d)) as Hd1.
  { destruct Hd. split; try done; cbn; [by eexists|by rewrite Ht..]. }
  unfold mbind at 1, DP_bind at 1, get, mbind at 1, DP_bind at 1, run. rewrite Hpush.
  unfold mbind at 1, DP_bind at 1, modify. destruct out as [|datagram|]; [exact Hd1| |by apply guards_event].
  destruct Hprog as (Hdk & Hbound & Hmeasure). unfold mbind at 1, DP_bind at 1, lift.
  pose proof (IngressPacket_parse_no_panic datagram).
  destruct (IngressPacket_parse datagram) as [packet'|e|]; [|exact Hd1|done].
  apply IH; [exact Hd1|exact Hdk|]. cbn [Ingress_bytes dp_reassembler set_reassembler].
  unfold dispatch_fuel in *. destruct Hmeasure as [Hlt|(Hle & Hs & Hm & Hlen)].
  - clear -Hlt Hbound Hfuel. set (B := REBUILT_BOUND) in *. clearbody B.
    assert (S (Reassembler_len r') * B <= Reassembler_len (dp_reassembler d) * B)%nat by (apply Nat.mul_le_mono_r; lia). lia.
  - specialize (Hlone Hs Hm). clear -Hle Hlen Hlone Hfuel. set (B := REBUILT_BOUND) in *. clearbody B.
    assert (Reassembler_len r' * B <= Reassembler_len (dp_reassembler d) * B)%nat by (apply Nat.mul_le_mono_r; lia). lia.
Qed.

Lemma dispatch_safe packet i from : bytes_ok (Ingress_bytes i) -> guards (dispatch packet i from c).
Proof. intros Hok d Hd. unfold dispatch. apply dispatch_loop_safe; [done|done|lia]. Qed.

Lemma dispatch_from_egress_safe packet i : bytes_ok (Ingress_bytes i) -> guards (dispatch_from_egress packet i c).
Proof.
  intros Hok. unfold dispatch_from_egress. destruct (bool_decide _); [apply guards_dropping, guards_event|].
  by apply dispatch_safe.
Qed.

Lemma parse_owned_safe packet k : (forall parsed, guards (k parsed)) -> guards (parse_owned packet k).
Proof.
  intros Hk. unfold parse_owned. pose proof (IngressPacket_parse_no_panic packet).
  destruct (IngressPacket_parse packet); [apply Hk| |done]. apply guards_bind; [apply guards_drop|by intros _ d].
Qed.

(** ** Replies, path changes and time *)

Lemma write_udp_total out src dst payload :
  ip_ok (address src) -> ip_ok (address dst) ->
  length out = udp_datagram_len (address src) (length payload) -> write_udp out src dst payload <> Panic.
Proof.
  intros [_ Hs] [_ Hd] Hlen. unfold write_udp. destruct src as [[s|s] sp], dst as [[d|d] dp]; try done;
    cbn [address octets port] in *; unfold udp_datagram_len, IPV4_UDP_HEADER, IPV6_UDP_HEADER in Hlen.
  - destruct (MAX_IPV4_UDP_PAYLOAD <? Z.of_nat (length payload)) eqn:E; [unfold write_udp_v4; by rewrite E|].
    apply Z.ltb_ge in E. rewrite write_udp_v4_layout; (done || lia).
  - destruct (MAX_IPV6_UDP_PAYLOAD <? Z.of_nat (length payload)) eqn:E; [unfold write_udp_v6; by rewrite E|].
    apply Z.ltb_ge in E. rewrite write_udp_v6_layout; (done || lia).
Qed.

Lemma guards_transmit_udp src client payload :
  ip_ok (address src) -> ip_ok (address client) -> guards (transmit_udp src client payload).
Proof.
  intros Hs Hc d Hd. unfold transmit_udp, mbind at 1, DP_bind at 1, pool_take_zeroed.
  destruct (BufferPool_take_zeroed _ _) as [r pool] eqn:Et.
  destruct (take_zeroed_length _ _ _ _ (sf_free _ _ Hd) Et) as (Hf & Hsl & Hlen).
  pose proof (safe_set_pool _ _ _ Hf Hd) as Hd1. destruct r as [bs|].
  2:{ exact (guards_bind _ _ (guards_event TransmitDropped) (fun _ => guards_ret false) _ Hd1). }
  pose proof (write_udp_total bs src client payload Hs Hc Hlen) as Hw.
  destruct (write_udp bs src client payload) as [[n bs']|e|]; [| |done].
  - exact (guards_bind _ _ (guards_transmit Tunnel bs') (fun _ => guards_ret true) _ Hd1).
  - exact (guards_bind (drop_pooled bs) (fun _ => @fail _ bool (DP_Write e)) (guards_drop bs) (fun _ d Hd => Hd) _ Hd1).
Qed.

Lemma guards_deliver_datagram client peer payload now :
  ip_ok (address peer) -> ip_ok (address client) -> guards (deliver_datagram client peer payload now).
Proof.
  intros Hp Hc. apply guards_reads. intros d Hd. destruct (negb _) eqn:En; [exact Hd|]. apply negb_false_iff in En.
  unfold mbind at 1, DP_bind at 1, lift at 1. pose proof (plan_of_total d Excluded Hd).
  destruct (plan_of d Excluded) as [plan|e|]; [|exact Hd|done]. unfold mbind at 1, DP_bind at 1, lift at 1.
  destruct (UdpFlowTable_get_or_insert_with _ _ _ _) as [[v t']|e|] eqn:E; [|exact Hd|].
  - unfold mbind at 1, DP_bind at 1, modify at 1.
    assert (safe c (set_flows t' d)) as Hd1.
    { apply safe_set_flows; [|done]. unfold UdpFlowTable_contains in En. apply bool_decide_eq_true in En as [st Hst].
      unfold UdpFlowTable_get_or_insert_with in E. destruct (instant_checked_add _ _); [|done]. cbn in E. rewrite Hst in E.
      injection E as _ <-. destruct (sf_flows _ _ Hd) as (Hm & Hs & Hf). split_and!; cbn; [done|by rewrite map_size_insert_Some|].
      apply map_Forall_insert_2; [|done]. exact (Hf _ _ Hst). }
    exact (guards_bind _ _ (guards_transmit_udp peer client payload Hp Hc) (fun _ => guards_ret _) _ Hd1).
  - unfold UdpFlowTable_get_or_insert_with in E. destruct (instant_checked_add _ _); [|done]. cbn in E.
    repeat case_match; done.
Qed.

(** A replanned flow keeps its queue and stays terminated here. *)
Lemma replan_flow_ok filter accepts next mtu key capacity ready state state' :
  flow_ok capacity ready key state -> (replan_flow filter accepts next mtu key state).1 = Some state' ->
  flow_ok capacity ready key state'.
Proof.
  intros (Hp & Hrest). unfold replan_flow. destruct (replan _ _ _ _ _ _) as [[|reason plan|]|e|] eqn:E; cbn; try done.
  - by intros [= <-].
  - intros [= <-]. split; [|done]. cbn. unfold replan in E. rewrite Hp in E. destruct (negb _); [done|].
    apply Res_bind_Ok in E as (next_plan & _ & E). destruct (negb _) eqn:En; [done|].
    apply negb_false_iff, eqb_true_iff in En. cbn in En.
    destruct (quic _), (quic next_plan); simplify_eq. by destruct (plan_transport plan).
Qed.

Lemma guards_on_path_change accepts next : guards (on_path_change accepts next).
Proof.
  apply guards_modify. intros d [Hpl Hr Hroom Hb (Hm & Hs & Hf) Hfree]. split; try done; cbn [dp_flows dp_ready dp_pool dp_datagram_buffer_capacity].
  2:{ by apply drop_all_free. }
  unfold UdpFlowTable_retain. cbn [snd]. split_and!; cbn [flows ceiling]; [done| |].
  - etransitivity; [|exact Hs]. rewrite <- !size_dom. apply subseteq_size, dom_imap_subseteq.
  - intros k st. rewrite map_lookup_imap. intros (st0 & Hk & Hst)%bind_Some.
    destruct ((replan_flow _ _ _ _ k (es_value st0)).1) as [state'|] eqn:E; [|done]. cbn in Hst. injection Hst as <-.
    cbn. eapply replan_flow_ok; [exact (Hf _ _ Hk)|exact E].
Qed.

Lemma guards_on_timeout : guards (on_timeout c).
Proof.
  apply guards_modify. intros d [Hpl [log Hr] Hroom Hb Hf Hfree]. cbn [dp_flows set_inspected set_reassembler].
  destruct (expire_sub (dp_flows d) c) as [Hc Hsub]. destruct (UdpFlowTable_expire (dp_flows d) c) as [expired t'].
  cbn [snd] in *. destruct (expire_bytes _ _ _ _ Hr (Z.le_refl c) Hb) as (Hb' & _ & Ht & _).
  destruct (Reassembler_expire_ok _ _ _ _ Hr (Z.le_refl c)) as (Hr' & _).
  split; cbn; try done; [by eexists|by rewrite Ht|by eapply flows_ok_sub|by apply drop_all_free|by rewrite Ht].
Qed.

Lemma poll_ready_safe ready d :
  safe c d -> dp_ready d = ready ->
  safe c (poll_ready ready d).2.
Proof.
  intros Hd Hr.
  assert (forall rest d0, safe c d0 -> 
    (forall key st, flows (dp_flows d0) !! key = Some st -> db_datagrams (fs_buffer (es_value st)) <> [] -> key ∈ rest) ->
    safe c (poll_ready rest d0).2) as Hall.
  2:{ apply Hall; [done|]. intros key st Hk Hne. rewrite <- Hr. destruct (sf_flows _ _ Hd) as (_ & _ & Hf).
      destruct (Hf key st Hk) as (_ & _ & _ & Hin). auto. }
  clear. induction rest as [|client rest IH]; intros d Hd Hin; cbn [poll_ready snd].
  { destruct Hd as [? ? ? ? (Hm & Hs & Hf) ?]. split; try done. cbn. split_and!; try done.
    intros k st Hk. destruct (Hf k st Hk) as (? & ? & ? & _). split_and!; try done. by apply (Hin k st). }
  assert (forall flow, UdpFlowTable_get (dp_flows d) client = Some flow -> exists st,
    flows (dp_flows d) !! client = Some st /\ es_value st = flow) as Hget.
  { intros flow. unfold UdpFlowTable_get. destruct (flows (dp_flows d) !! client) as [st|]; [|done].
    intros [= <-]. by exists st. }
  destruct (UdpFlowTable_get (dp_flows d) client) as [flow|] eqn:Eg.
  2:{ apply IH; [done|]. intros k st Hk Hne. pose proof (Hin k st Hk Hne) as Hk'. apply elem_of_cons in Hk' as [->|?]; [|done].
      unfold UdpFlowTable_get in Eg. by rewrite Hk in Eg. }
  destruct (Hget flow eq_refl) as (st & Hst & Est).
  unfold DatagramBuffer_recv. destruct (db_datagrams (fs_buffer flow)) as [|[target payload] more] eqn:Eb.
  { apply IH; [done|]. intros k st' Hk Hne. pose proof (Hin k st' Hk Hne) as Hk'. apply elem_of_cons in Hk' as [->|?]; [|done].
    assert (st' = st) as -> by congruence. by rewrite Est, Eb in Hne. }
  cbn [snd]. destruct Hd as [? ? ? ? Hfo ?]. split; try done. cbn [dp_ready dp_flows set_ready set_flows dp_datagram_buffer_capacity].
  assert (flows_ok (dp_datagram_buffer_capacity d) (client :: rest) (dp_flows d)) as Hfo'.
  { destruct Hfo as (Hm & Hs & Hf). split_and!; try done. intros k st' Hk. destruct (Hf k st' Hk) as (? & ? & ? & _).
    split_and!; try done. by apply (Hin k st'). }
  destruct (proj2 (proj2 Hfo) _ _ Hst) as (_ & Hcap & Hlen & _). rewrite Est, ?Eb in *. cbn [length] in Hlen.
  eapply flows_ok_update; [exact Hfo'|exact Eg|done|cbn; lia| |]; unfold DatagramBuffer_is_empty; cbn [db_datagrams].
  - destruct more; [done|]. set_solver.
  - intros k Hne Hk. apply elem_of_cons in Hk as [->|Hk]; [done|]. destruct more; set_solver.
Qed.
End Safety.
End Invariant.

(** ** Runs *)

Section Runs.
Context `{DatapathLaws}.

(** The bytes and addresses of a call are what their Rust types hold. *)
Definition call_typed (k : Call) : Prop :=
  match k with
  | OnTunPacket bs _ | OnTunOwned bs _ | OnEgressPacket bs _ | OnEgressOwned bs _ => bytes_ok bs
  | DeliverDatagram client peer _ _ => ip_ok (address client) /\ ip_ok (address peer)
  | AnswerDns client resolver _ => ip_ok (address client) /\ ip_ok (address resolver)
  | _ => True
  end.

(** The time a call is given, if it is. *)
Definition call_time (k : Call) : option Instant :=
  match k with
  | OnTunPacket _ now | OnTunOwned _ now | OnEgressPacket _ now | OnEgressOwned _ now
  | DeliverDatagram _ _ _ now | InspectAddresses _ now | OnTimeout now => Some now
  | _ => None
  end.

(** The clock may read [now] after [c]: it does not go back, and it is not within a
    reassembly timeout of the end of time. *)
Definition clock_after (d : Datapath) (c now : Instant) : Prop :=
  c <= now /\ now + r_timeout (dp_reassembler d) <= INSTANT_MAX.

Lemma safe_later max_flows timeout c now d : safe max_flows timeout c d -> clock_after d c now -> safe max_flows timeout now d.
Proof.
  intros [? [log Hr] ? ? ? ?] [Hc Hroom]. split; try done. exists log.
  eapply reassembler_ok_log; [exact Hr|done|done|apply Hr].
Qed.

(** A call at [now] does not panic and keeps the invariant. *)
Lemma call_safe max_flows timeout now k d :
  safe max_flows timeout now d -> call_typed k -> (forall t, call_time k = Some t -> t = now) ->
  answers_safely max_flows timeout now (call k d).
Proof.
  intros Hd Ht Hnow. revert d Hd.
  assert (forall {A B} (m : DP A) (b : B), guards max_flows timeout now m -> guards max_flows timeout now (m;; mret b)) as Hseq
    by (intros A B m b Hm; apply guards_bind; [exact Hm|intros ?; apply guards_ret]).
  destruct k; cbn [call call_typed call_time] in *; try (rewrite (Hnow _ eq_refl)); try apply Hseq.
  - apply guards_bind; [apply guards_lift, IngressPacket_parse_no_panic|intros packet; by apply dispatch_safe].
  - apply parse_owned_safe. intros parsed. by apply dispatch_safe.
  - apply guards_bind; [apply guards_lift, IngressPacket_parse_no_panic|intros packet; by apply dispatch_from_egress_safe].
  - apply parse_owned_safe. intros parsed. by apply dispatch_from_egress_safe.
  - apply guards_bind; [|intros r; apply guards_ret]. intros d []. unfold poll_query. by destruct (dp_queries d).
  - apply guards_bind; [|intros r; apply guards_ret]. intros d Hd. unfold poll_datagram.
    pose proof (poll_ready_safe max_flows timeout now (dp_ready d) d Hd eq_refl) as Hp. by destruct (poll_ready _ d).
  - destruct Ht. by apply guards_deliver_datagram.
  - apply guards_bind; [|intros r; apply guards_ret]. intros d []. unfold poll_terminate. by destruct (dp_terminate d).
  - apply guards_modify. intros d []. by destruct (InspectedAddresses_admit _ _ _).
  - destruct Ht. apply guards_bind; [by apply guards_transmit_udp|intros _; apply guards_ret].
  - apply guards_on_path_change.
  - apply guards_bind; [|intros r; apply guards_ret]. intros d []. unfold poll_transmit. by destruct (dp_transmits d).
  - intros d []. unfold poll_event. by destruct (dp_events d).
  - apply guards_on_timeout.
Qed.

(** The states of a datapath that its shell drives with a clock that never goes
    back, sharing its pool. *)
Inductive driven (d0 : Datapath) : Datapath -> Instant -> Prop :=
| driven_new c : c + r_timeout (dp_reassembler d0) <= INSTANT_MAX -> driven d0 d0 c
| driven_call d c now k r d' :
    driven d0 d c -> clock_after d c now -> call_typed k -> (forall t, call_time k = Some t -> t = now) ->
    call k d = (r, d') -> driven d0 d' now
| driven_pool d c l pool l' :
    driven d0 d c -> pool_step (dp_pool d, l) (pool, l') -> driven d0 (set_pool pool d) c.

Lemma pool_step_free p l p' l' :
  pool_step (p, l) (p', l') -> Forall (fun b => b = []) (free p) -> Forall (fun b => b = []) (free p').
Proof.
  intros Hs Hf. inversion Hs as [? ? bs r ? Ht|? ? n r ? Ht|? ? ? ? ? ? ? Ht|? ? b ?]; subst; [| |done|by apply drop_free].
  - unfold BufferPool_take in Ht. pose proof (reserve_free p (length bs) Hf) as Hr.
    destruct (BufferPool_reserve p _) as [b p1]. destruct Hr as [? _]. by injection Ht as _ <-.
  - unfold BufferPool_take_zeroed in Ht. pose proof (reserve_free p n Hf) as Hr.
    destruct (BufferPool_reserve p _) as [b p1]. destruct Hr as [? _]. by injection Ht as _ <-.
Qed.

Lemma new_safe filter dns accepts egress mtu limits slice capacity t1 t2 d c :
  Datapath_new filter dns accepts egress mtu limits (BufferPool_new slice capacity) t1 t2 = Ok d ->
  0 <= l_reassembly_timeout limits -> c + r_timeout (dp_reassembler d) <= INSTANT_MAX -> safe (l_max_flows limits) (l_reassembly_timeout limits) c d.
Proof.
  unfold Datapath_new. destruct (_ && _); [done|]. destruct (check_plans _); [|done|done]. cbn [mbind Res_bind].
  unfold UdpFlowTable_new. destruct (_ <? _); [done|]. cbn [mbind Res_bind]. intros [= <-] Ht Hroom.
  split; try done; cbn [dp_reassembler dp_flows dp_pool dp_datagram_buffer_capacity dp_ready].
  - exists []. apply run_ok. by constructor.
  - split_and!; cbn; [done|rewrite map_size_empty; lia|apply map_Forall_empty].
Qed.

Lemma driven_safe max_flows timeout d0 d c :
  (forall c, c + r_timeout (dp_reassembler d0) <= INSTANT_MAX -> safe max_flows timeout c d0) ->
  driven d0 d c -> safe max_flows timeout c d.
Proof.
  intros Hzero Hd. induction Hd as [c Hc|d c now k r d' _ IH Hc Ht Hn Hk|d c l pool l' _ IH Hp]; [by apply Hzero| |].
  - pose proof (call_safe max_flows timeout now k d (safe_later _ _ _ _ _ IH Hc) Ht Hn) as Hs. rewrite Hk in Hs. by destruct r.
  - apply safe_set_pool; [|done]. eapply pool_step_free; [exact Hp|apply IH].
Qed.

(** The states of a datapath made with [limits] on a fresh pool and driven so. *)
Definition reached (limits : Limits) (d : Datapath) (c : Instant) : Prop :=
  exists filter dns accepts egress mtu slice capacity t1 t2 d0,
    Datapath_new filter dns accepts egress mtu limits (BufferPool_new slice capacity) t1 t2 = Ok d0 /\
    0 <= l_reassembly_timeout limits /\ driven d0 d c.

Lemma reached_safe limits d c : reached limits d c -> safe (l_max_flows limits) (l_reassembly_timeout limits) c d.
Proof.
  intros (filter & dns & accepts & egress & mtu & slice & capacity & t1 & t2 & d0 & Hnew & Ht & Hd).
  eapply driven_safe; [intros; by eapply new_safe|exact Hd].
Qed.

(** C1: driven by any well-typed calls at times that never go back, a datapath
    never panics: no index leaves its slice, no in-place rewrite overruns, and
    dispatch and reassembly, which call each other, always return.  At every point
    the table holds at most [max_flows] flows, every one of them terminated here and
    with a queue within its bound, and no flow with queued datagrams is missing from
    the ready list. *)
Theorem datapath_never_panics limits d c now k :
  reached limits d c -> clock_after d c now -> call_typed k -> (forall t, call_time k = Some t -> t = now) ->
  (call k d).1 <> Panic /\
  let d' := (call k d).2 in
  (UdpFlowTable_len (dp_flows d') <= l_max_flows limits)%nat /\
  map_Forall (fun key st =>
    let queue := db_datagrams (fs_buffer (es_value st)) in
    plan_transport (fs_plan (es_value st)) = LocalTermination /\
    (length queue <= dp_datagram_buffer_capacity d')%nat /\ (queue <> [] -> key ∈ dp_ready d'))
    (flows (dp_flows d')).
Proof.
  intros Hs%reached_safe Hc Hk Hn.
  pose proof (call_safe _ _ now k d (safe_later _ _ _ _ _ Hs Hc) Hk Hn) as Hcall. unfold answers_safely in Hcall.
  destruct (call k d) as [r d']. cbn [fst snd].
  assert (safe (l_max_flows limits) (l_reassembly_timeout limits) now d' /\ r <> Panic) as [Hs' Hr] by (by destruct r).
  destruct (sf_flows _ _ _ _ Hs') as (_ & Hsz & Hf). split_and!; try done.
  eapply map_Forall_impl; [exact Hf|]. intros key st (? & ? & ? & ?). done.
Qed.

End Runs.

(** ** A run *)

Lemma sample_fragment_laws : @FragmentLaws sample_etherparse.
Proof.
  split; intros packet sliced ip; cbn; unfold sample_from_ip;
    do 20 (destruct packet as [|? packet]; [done|]); (destruct (negb _) eqn:E45; [done|]);
    intros; simplify_eq/=; apply negb_false_iff, Z.eqb_eq in E45; subst.
  - do 2 eexists. split_and!; [done|done|done|lia].
  - unfold be_value. cbn. rewrite (Z.land_ones _ 5), (Z.land_ones _ 8) by lia.
    pose proof (Z.mod_pos_bound z5 (2 ^ 5)). pose proof (Z.mod_pos_bound z6 (2 ^ 8)). lia.
Qed.

Lemma sample_datapath_laws : @DatapathLaws sample_etherparse.
Proof.
  split; [apply sample_etherparse_laws|apply sample_fragment_laws| | |];
    intros packet sliced ip; cbn; unfold sample_from_ip;
    do 20 (destruct packet as [|? packet]; [done|]); (destruct (negb _); [done|]); intros; simplify_eq/=; [done|].
  rewrite (Z.land_ones _ 8) by lia. apply Z.mod_pos_bound. lia.
Qed.

(** A datapath that captured a DNS query answers it to the client. *)
Lemma datapath_never_panics_witness :
  exists d0 d1,
    @Datapath_new sample_etherparse InspectHttp Dns_Intercept Flows sample_path sample_mtu sample_limits
      (BufferPool_new 1500 8) 0 0 = Ok d0 /\
    @call sample_etherparse (OnTunPacket sample_udp_packet 5) d0 = (Ok [], d1) /\
    (@call sample_etherparse (AnswerDns sample_client sample_server [1; 2]) d1).1 <> Panic /\
    (UdpFlowTable_len (dp_flows (@call sample_etherparse (AnswerDns sample_client sample_server [1%Z; 2%Z]) d1).2) <= 64)%nat.
Proof.
  destruct (@Datapath_new sample_etherparse InspectHttp Dns_Intercept Flows sample_path sample_mtu sample_limits
      (BufferPool_new 1500 8) 0 0) as [d0| |] eqn:E0; [|by vm_compute in E0..].
  destruct (@call sample_etherparse (OnTunPacket sample_udp_packet 5) d0) as [r1 d1] eqn:E1.
  assert (r1 = Ok [] /\ r_timeout (dp_reassembler d0) = r_timeout (dp_reassembler d1) /\
    r_timeout (dp_reassembler d0) = from_secs 30) as (-> & Ht & Ht0).
  { vm_compute in E0. injection E0 as <-. vm_compute in E1. injection E1 as <- <-. by vm_compute. }
  assert (clock_after d0 0 5) as Hc by (split; [done|by rewrite Ht0; vm_compute]).
  assert (@driven sample_etherparse d0 d1 5) as Hd.
  { eapply (@driven_call sample_etherparse d0 d0 0 5 (OnTunPacket sample_udp_packet 5)); [|exact Hc| |by intros t [= <-]|exact E1].
    - apply driven_new. by rewrite Ht0; vm_compute.
    - repeat constructor; done. }
  destruct (@datapath_never_panics sample_etherparse sample_datapath_laws sample_limits d1 5 5
    (AnswerDns sample_client sample_server [1; 2])) as (Hp & Hl & _);
    [by do 10 eexists; split_and!; [exact E0|done|exact Hd]|split; [done|rewrite <- Ht, Ht0; by vm_compute]|by repeat constructor|done|].
  exists d0, d1. by split_and!.
Defined.
