(* ===== verification/DatapathTheory.v ===== *)
(** The datapath's promises to its shell: intercepted DNS, path changes and the
    rate of generated errors, for [src/src/datapath.rs]. *)
From S2P Require Import Prelude Wire Net Plan Packet Udp Path Reassembly Pool Datapath DatapathPool DatapathSafety.
Open Scope Z_scope.

(** * The ICMP budget *)

(** How many of the takes at [times] a budget grants. *)
Fixpoint icmp_grants (b : IcmpBudget) (times : list Instant) : Z :=
  match times with
  | [] => 0
  | now :: times =>
      let '(granted, b) := IcmpBudget_take b now in
      (if granted then 1 else 0) + icmp_grants b times
  end.

Lemma icmp_grants_bound T times : forall b,
  0 <= tokens b <= ICMP_ERRORS_PER_SECOND -> refilled b <= T -> Forall (fun t => t <= T) times ->
  icmp_grants b times <= tokens b + ICMP_ERRORS_PER_SECOND * ((T - refilled b) / from_secs 1).
Proof.
  unfold ICMP_ERRORS_PER_SECOND.
  assert (0 < from_secs 1) as Hsec by done.
  induction times as [|now times IH]; intros b Hb HT Hts; cbn [icmp_grants].
  { assert (0 <= (T - refilled b) / from_secs 1) by (apply Z.div_pos; lia). lia. }
  apply Forall_cons in Hts as [Hnow Hts]. unfold IcmpBudget_take, ICMP_ERRORS_PER_SECOND in *.
  destruct (from_secs 1 <=? _) eqn:E; reflect; cbn [tokens].
  - specialize (IH (mkBudget 99 now)). cbn [tokens refilled] in IH. cbn [Z.eqb].
    assert (((T - now) + 1 * from_secs 1) / from_secs 1 <= (T - refilled b) / from_secs 1) as Hd.
    { apply Z.div_le_mono; [done|]. unfold saturating_duration_since, saturating_sub in E. lia. }
    rewrite Z.div_add in Hd by lia. specialize (IH ltac:(lia) ltac:(lia) Hts).
    change (mkBudget (100 - 1) _) with (mkBudget 99 now). lia.
  - destruct (tokens b =? 0) eqn:Ez; reflect; [by apply IH|].
    specialize (IH (mkBudget (tokens b - 1) (refilled b))). cbn [tokens refilled] in IH.
    specialize (IH ltac:(lia) HT Hts). lia.
Qed.

(** whatever the times errors are asked for, a budget made at [start] grants at
    most a hundred by any time within its first second, and a hundred more for each
    whole second that has passed. *)
Theorem icmp_budget_rate start T times :
  start <= T -> Forall (fun t => t <= T) times ->
  icmp_grants (IcmpBudget_new start) times <= ICMP_ERRORS_PER_SECOND * (1 + (T - start) / from_secs 1).
Proof.
  intros Hs Ht. pose proof (icmp_grants_bound T times (IcmpBudget_new start)) as H.
  cbn [tokens refilled IcmpBudget_new] in H. specialize (H ltac:(done) Hs Ht). lia.
Qed.

Lemma icmp_budget_rate_witness :
  icmp_grants (IcmpBudget_new 0) (replicate 300 5) = 100 /\
  icmp_grants (IcmpBudget_new 0) (replicate 300 5) <= ICMP_ERRORS_PER_SECOND * (1 + (5 - 0) / from_secs 1).
Proof.
  split; [by vm_compute|]. apply (icmp_budget_rate 0 5 (replicate 300 5)); [done|]. by repeat constructor.
Defined.

(** * DNS interception *)

Section Dns.
Context `{DatapathLaws}.

(** A parsed packet's payload is within its bytes. *)
Lemma udp_payload_within buf packet sp dp :
  IngressPacket_parse buf = Ok packet -> transport packet = Udp sp dp ->
  exists payload, IngressPacket_payload packet buf = Some payload.
Proof.
  unfold IngressPacket_parse. destruct (from_ip buf) as [|sliced] eqn:Hs; [done|]. cbn [mbind Res_bind].
  intros (net & _ & Hp)%Res_bind_Ok Ht.
  apply Res_bind_Ok in Hp as ([[[src dst] ecn] fragmented] & _ & Hp). unfold transport_summary in Hp.
  destruct fragmented; [injection Hp as <-; done|].
  destruct (sliced_transport sliced) as [t|] eqn:Et; [|injection Hp as <-; done].
  destruct t as [? ? p|? ? p|? p|? p|]; [..|injection Hp as <-; done];
    unfold u16_try_from in Hp; (destruct (Z.of_nat (sub_at p) <=? U16_MAX); [|done]);
    (destruct (Z.of_nat (sub_len p) <=? U16_MAX); [|done]); injection Hp as <-; try done.
  pose proof (payload_within _ _ _ p Hs Et eq_refl) as Hw.
  unfold IngressPacket_payload, get_range. cbn [payload_at payload_len]. rewrite !Nat2Z.id.
  rewrite !(proj2 (Nat.leb_le _ _)) by lia. by eexists.
Qed.

(** Only a fragment comes back to dispatch. *)
Lemma dispatch_decided packet i from now d action :
  decide_action packet from now d = (Ok action, d) -> action <> Reassemble ->
  dispatch packet i from now d = perform (fun _ _ _ => mret tt) packet i from now action d.
Proof. intros Ha Hr. unfold dispatch. cbn [dispatch_loop]. rewrite Ha. by destruct action. Qed.

Lemma take_copies p bs r p' :
  Forall (fun b => b = []) (free p) -> BufferPool_take p bs = (r, p') -> forall copy, r = Some copy -> copy = bs.
Proof.
  intros Hf. unfold BufferPool_take. pose proof (reserve_free p (length bs) Hf) as Hr.
  destruct (BufferPool_reserve p (length bs)) as [[b|] p1]; destruct Hr as (_ & _ & Hb); intros [= <- <-] copy [= <-].
  by rewrite (Hb b eq_refl).
Qed.

(** with DNS interception on, a query from the tunnel to port 53 never leaves
    through the egress and opens no flow.  It is queued for the resolver with its
    client, the resolver it was sent to and its exact payload, unless the pool has no
    slice that holds the payload: then it is counted as dropped. *)
Theorem dns_query_intercepted limits d c buf now packet source_port :
  reached limits d c -> dp_dns d = Dns_Intercept ->
  IngressPacket_parse buf = Ok packet -> transport packet = Udp source_port DNS_PORT ->
  exists d' payload, on_tun_packet buf now d = (Ok tt, d') /\
  dp_transmits d' = dp_transmits d /\ dp_flows d' = dp_flows d /\ IngressPacket_payload packet buf = Some payload /\
  let query := mkQuery (mkEndpoint (source packet) source_port) (mkEndpoint (destination packet) DNS_PORT) payload in
  if bool_decide (is_Some (BufferPool_take (dp_pool d) payload).1)
  then dp_queries d' = dp_queries d ++ [query] /\ dp_events d' = dp_events d
  else dp_queries d' = dp_queries d /\ dp_events d' = dp_events d ++ [TransmitDropped].
Proof.
  intros Hs%reached_safe Hdns Hp Ht. destruct (udp_payload_within _ _ _ _ Hp Ht) as [payload Hpay].
  pose proof (sf_free _ _ _ _ Hs) as Hfree.
  assert (decide_action packet Tunnel now d = (Ok ResolveDns, d)) as Ha.
  { unfold decide_action, mbind, DP_bind, get. rewrite Ht, Hdns. reflexivity. }
  unfold on_tun_packet, mbind, DP_bind, lift. rewrite Hp, (dispatch_decided _ _ _ _ _ _ Ha) by done.
  cbn [perform Ingress_bytes]. unfold dropping, intercept_dns, take_payload, mbind, DP_bind, pool_take. rewrite Ht, Hpay.
  destruct (BufferPool_take (dp_pool d) payload) as [[copy|] pool] eqn:Et; cbn.
  - pose proof (take_copies _ _ _ _ Hfree Et copy eq_refl) as ->.
    eexists _, payload. rewrite Et, bool_decide_true by (by eexists). done.
  - eexists _, payload. rewrite Et, bool_decide_false by (cbn; by intros []). done.
Qed.
End Dns.

(** A fresh datapath is reached. *)
Lemma sample_reached dns accepts d0 :
  @Datapath_new sample_etherparse InspectHttp dns accepts sample_path sample_mtu sample_limits
    (BufferPool_new 1500 8) 0 0 = Ok d0 ->
  @reached sample_etherparse sample_limits d0 0.
Proof.
  intros E. do 10 eexists. split_and!; [exact E|done|]. apply driven_new.
  unfold Datapath_new in E. destruct (_ && _); [done|]. destruct (check_plans _); [|done|done].
  cbn [mbind Res_bind] in E. unfold UdpFlowTable_new in E. destruct (_ <? _); [done|]. injection E as <-. by vm_compute.
Qed.

Lemma dns_query_intercepted_witness :
  exists d0 d',
    @Datapath_new sample_etherparse InspectHttp Dns_Intercept IpPackets sample_path sample_mtu sample_limits
      (BufferPool_new 1500 8) 0 0 = Ok d0 /\
    @on_tun_packet sample_etherparse sample_udp_packet 5 d0 = (Ok tt, d') /\
    dp_transmits d' = [] /\ dp_queries d' = [mkQuery (mkEndpoint (V4 [192; 0; 2; 1]) 50000) (mkEndpoint (V4 [198; 51; 100; 2]) 53) [42]].
Proof.
  destruct (@Datapath_new sample_etherparse InspectHttp Dns_Intercept IpPackets sample_path sample_mtu sample_limits
      (BufferPool_new 1500 8) 0 0) as [d0| |] eqn:E0; [|by vm_compute in E0..].
  destruct (@IngressPacket_parse sample_etherparse sample_udp_packet) as [packet| |] eqn:Ep; [|by vm_compute in Ep..].
  destruct (@dns_query_intercepted sample_etherparse sample_datapath_laws sample_limits d0 0 sample_udp_packet 5
    packet 50000) as (d' & payload & Hc & Ht & Hf & Hp & Hq);
    [by eapply sample_reached|vm_compute in E0; by injection E0 as <-|exact Ep|vm_compute in Ep; by injection Ep as <-|].
  exists d0, d'. split_and!; [done|done|..]; vm_compute in E0; injection E0 as <-; vm_compute in Ep; injection Ep as <-.
  - by rewrite Ht.
  - vm_compute in Hp. injection Hp as <-. rewrite bool_decide_true in Hq by (vm_compute; by eexists). by rewrite (proj1 Hq).
Defined.

(** * Path changes *)

Section PathChange.
Context `{DatapathLaws}.

(** What a live flow becomes when the plan for its traffic becomes [next_plan]. *)
Definition resteered (next_plan : FlowPlan) (flow : FlowState) : FlowState * list FlowEvent :=
  match quic (fs_plan flow), quic next_plan with
  | Quic_PassThrough, SteerToHttp2 reason => (mkFlow next_plan (fs_buffer flow), [Resteered reason])
  | _, _ => (flow, [])
  end.

Lemma replan_flow_flows filter next mtu next_plan key state :
  plan_flow filter Excluded Flows next mtu = Ok next_plan -> plan_transport (fs_plan state) = LocalTermination ->
  replan_flow filter Flows next mtu key state = (Some (resteered next_plan state).1, (resteered next_plan state).2).
Proof.
  intros Hn Hp.
  assert (plan_transport next_plan = LocalTermination) as Ht.
  { unfold plan_flow, is_inspected in Hn. destruct filter; cbn in Hn; by injection Hn as <-. }
  unfold replan_flow, replan, resteered. rewrite Hp, Hn. 
  assert (is_inspected filter Excluded = false) as -> by (by destruct filter).
  cbn [negb bool_decide mbind Res_bind]. rewrite bool_decide_true by done. cbn [negb]. rewrite Ht.
  destruct (quic (fs_plan state)), (quic next_plan); reflexivity.
Qed.

Lemma replan_flow_packets filter next mtu key state :
  plan_transport (fs_plan state) = LocalTermination ->
  replan_flow filter IpPackets next mtu key state = (None, [FlowTornDown (FlowKey_client key)]).
Proof. intros Hp. unfold replan_flow, replan, is_inspected. rewrite Hp. destruct filter; reflexivity. Qed.

Lemma concat_fmap_singleton {A B} (f : A -> list B) (g : A -> B) l :
  (forall x, x ∈ l -> f x = [g x]) -> concat (f <$> l) = g <$> l.
Proof.
  induction l as [|x l IH]; intros Hl; [done|]. cbn. rewrite (Hl x) by left. cbn. f_equal. apply IH. intros y Hy. apply Hl. by right.
Qed.

(** after a path change the datapath plans for the new egress.  On an egress that
    carries flows every live flow survives with its queue and its deadline; exactly
    the flows that passed QUIC and no longer may adopt the new plan, each with the
    event that says why.  On an egress that carries packets no flow survives, and
    each one's end is reported once, to its client. *)
Theorem path_change_spec limits d c accepts next :
  reached limits d c ->
  exists d' events, on_path_change accepts next d = (Ok tt, d') /\
  dp_accepts d' = accepts /\ dp_egress d' = next /\ dp_events d' = dp_events d ++ events /\
  (forall verdict, plan_of d' verdict = plan_flow (dp_filter d) verdict accepts next (dp_path_mtu d)) /\
  match accepts with
  | Flows =>
      exists next_plan, plan_flow (dp_filter d) Excluded Flows next (dp_path_mtu d) = Ok next_plan /\
      flows (dp_flows d') =
        (fun st => mkEntry (resteered next_plan (es_value st)).1 (es_deadline st)) <$> flows (dp_flows d) /\
      events = concat ((fun kst => (resteered next_plan (es_value kst.2)).2) <$> map_to_list (flows (dp_flows d)))
  | IpPackets =>
      flows (dp_flows d') = ∅ /\
      events = (fun kst => FlowTornDown (FlowKey_client kst.1)) <$> map_to_list (flows (dp_flows d))
  end.
Proof.
  intros Hs%reached_safe. destruct (sf_flows _ _ _ _ Hs) as (_ & _ & Hf).
  assert (forall k st, flows (dp_flows d) !! k = Some st -> plan_transport (fs_plan (es_value st)) = LocalTermination) as Hlocal
    by (intros k st Hk; apply (Hf k st Hk)).
  unfold on_path_change, modify. do 2 eexists. split; [reflexivity|]. cbn [dp_accepts dp_egress dp_events dp_flows].
  split_and!; [done|done|reflexivity|by intros []|]. unfold UdpFlowTable_retain. cbn [snd flows].
  destruct accepts.
  - split.
    + apply map_eq. intros k. rewrite map_lookup_imap, lookup_empty. destruct (flows _ !! k) as [st|] eqn:Ek; [|done].
      cbn. by rewrite (replan_flow_packets _ _ _ k (es_value st) (Hlocal _ _ Ek)).
    + rewrite (concat_fmap_singleton _ (fun kst => FlowTornDown (FlowKey_client kst.1))); [done|].
      intros [k st] Ek%elem_of_map_to_list. by rewrite (replan_flow_packets _ _ _ k _ (Hlocal _ _ Ek)).
  - destruct (plan_flow (dp_filter d) Excluded Flows next (dp_path_mtu d)) as [next_plan| |] eqn:En;
      [|by unfold plan_flow, is_inspected in En; destruct (dp_filter d)..].
    exists next_plan. split_and!; [done| |].
    + apply map_eq. intros k. rewrite map_lookup_imap, lookup_fmap. destruct (flows _ !! k) as [st|] eqn:Ek; [|done].
      cbn. by rewrite (replan_flow_flows _ _ _ _ k _ En (Hlocal _ _ Ek)).
    + f_equal. apply list_fmap_ext. intros _ [k st] Ek%list_elem_of_lookup_2%elem_of_map_to_list.
      by rewrite (replan_flow_flows _ _ _ _ k _ En (Hlocal _ _ Ek)).
Qed.

(** a path change announced for an egress that carries packets ends every flow
    of an inspecting datapath, even when nothing about the egress has changed,
    although [replan], asked about them as the inspected flows such an egress leaves
    to be terminated here, would have kept or re-steered each of them. *)
Theorem path_change_drops_inspected limits d c next :
  reached limits d c -> dp_filter d = InspectHttp ->
  flows (dp_flows (on_path_change IpPackets next d).2) = ∅ /\
  map_Forall (fun _ st => exists answer, answer <> Teardown /\
      replan (fs_plan (es_value st)) InspectHttp Candidate IpPackets next (dp_path_mtu d) = Ok answer)
    (flows (dp_flows d)).
Proof.
  intros Hs%reached_safe Hfilter. destruct (sf_flows _ _ _ _ Hs) as (_ & _ & Hf). split.
  - apply map_eq. intros k. cbn. rewrite map_lookup_imap, lookup_empty.
    destruct (flows _ !! k) as [st|] eqn:Ek; [|done]. destruct (Hf k st Ek) as [Hp _]. cbn.
    by rewrite (replan_flow_packets _ _ _ k (es_value st) Hp).
  - intros k st Ek. destruct (Hf k st Ek) as [Hp _]. unfold replan. rewrite Hp.
    destruct (quic (fs_plan (es_value st))) eqn:Eq; cbn; rewrite ?Hp, ?Eq; eexists; (split; [|reflexivity]); done.
Qed.
End PathChange.

(** A TCP segment from 192.0.2.1:50000 to port 443 of 198.51.100.2. *)
Definition sample_tcp_packet : bytes :=
  take 9 sample_ipv4_header ++ [6] ++ drop 10 sample_ipv4_header ++ [0xc3; 0x50; 1; 0xbb; 0; 0; 0; 0; 42].

(** A datapath with one inspected stream on an egress that carries packets. *)
Definition sample_inspecting (d0 : Datapath) : Datapath :=
  (@call sample_etherparse (OnTunPacket sample_tcp_packet 5)
     (@call sample_etherparse (InspectAddresses [V4 [198; 51; 100; 2]] 4) d0).2).2.

Lemma sample_inspecting_reached dns accepts d0 :
  @Datapath_new sample_etherparse InspectHttp dns accepts sample_path sample_mtu sample_limits
    (BufferPool_new 1500 8) 0 0 = Ok d0 ->
  r_timeout (dp_reassembler (@call sample_etherparse (InspectAddresses [V4 [198; 51; 100; 2]] 4) d0).2) = from_secs 30 ->
  r_timeout (dp_reassembler d0) = from_secs 30 ->
  @reached sample_etherparse sample_limits (sample_inspecting d0) 5.
Proof.
  intros E Ht1 Ht0. do 10 eexists. split_and!; [exact E|done|]. unfold sample_inspecting.
  destruct (call (InspectAddresses _ _) d0) as [r1 d1] eqn:E1. cbn [snd] in *.
  destruct (call (OnTunPacket _ _) d1) as [r2 d2] eqn:E2. cbn [snd].
  eapply (@driven_call sample_etherparse d0 d1 4 5 (OnTunPacket sample_tcp_packet 5)); [|split; [done|]| |by intros t [= <-]|exact E2].
  - eapply (@driven_call sample_etherparse d0 d0 0 4 (InspectAddresses [V4 [198; 51; 100; 2]] 4)); [|split; [done|]|done|by intros t [= <-]|exact E1];
      [apply driven_new|]; rewrite Ht0; by vm_compute.
  - rewrite Ht1. by vm_compute.
  - repeat constructor; done.
Qed.

Lemma path_change_spec_witness :
  exists d0 d' events,
    @Datapath_new sample_etherparse InspectHttp Dns_Intercept IpPackets sample_path sample_mtu sample_limits
      (BufferPool_new 1500 8) 0 0 = Ok d0 /\
    @on_path_change sample_etherparse IpPackets sample_path (sample_inspecting d0) = (Ok tt, d') /\
    flows (dp_flows d') = ∅ /\ dp_events d' = dp_events (sample_inspecting d0) ++ events /\
    events = [FlowTornDown (mkEndpoint (V4 [192; 0; 2; 1]) 50000)].
Proof.
  destruct (@Datapath_new sample_etherparse InspectHttp Dns_Intercept IpPackets sample_path sample_mtu sample_limits
      (BufferPool_new 1500 8) 0 0) as [d0| |] eqn:E0; [|by vm_compute in E0..].
  destruct (@path_change_spec sample_etherparse sample_datapath_laws sample_limits (sample_inspecting d0) 5 IpPackets sample_path)
    as (d' & events & Hc & _ & _ & He & _ & Hf & Hev);
    [by eapply sample_inspecting_reached; [exact E0|..]; vm_compute in E0; injection E0 as <-|].
  exists d0, d', events. split_and!; [done|done|done|done|]. rewrite Hev. vm_compute in E0. injection E0 as <-. by vm_compute.
Defined.

Lemma path_change_drops_inspected_witness :
  exists d0,
    @Datapath_new sample_etherparse InspectHttp Dns_Intercept IpPackets sample_path sample_mtu sample_limits
      (BufferPool_new 1500 8) 0 0 = Ok d0 /\
    size (flows (dp_flows (sample_inspecting d0))) = 1%nat /\ dp_egress (sample_inspecting d0) = sample_path /\
    flows (dp_flows (@on_path_change sample_etherparse IpPackets sample_path (sample_inspecting d0)).2) = ∅.
Proof.
  destruct (@Datapath_new sample_etherparse InspectHttp Dns_Intercept IpPackets sample_path sample_mtu sample_limits
      (BufferPool_new 1500 8) 0 0) as [d0| |] eqn:E0; [|by vm_compute in E0..].
  destruct (@path_change_drops_inspected sample_etherparse sample_datapath_laws sample_limits (sample_inspecting d0) 5 sample_path)
    as [Hf _]; [by eapply sample_inspecting_reached; [exact E0|..]; vm_compute in E0; injection E0 as <-|
                by vm_compute in E0; injection E0 as <-|].
  exists d0. split_and!; [done|..|exact Hf]; vm_compute in E0; injection E0 as <-; by vm_compute.
Defined.
