(* ===== verification/DnsName.v ===== *)
(** Domain names of [src/policy/dns.rs]: normalisation of presentation text, the
    bounded decoder of compressed wire names, the encoder, and the suffixes that
    host rules match.

    A [Name] is its normalised bytes ([Name::as_bytes]), labels joined with dots;
    the fixed array behind it holds nothing else. *)

From S2P Require Import Prelude Wire.
Open Scope Z_scope.

Definition MAX_NAME_CHARS : nat := 253.
Definition MAX_LABEL_LEN : nat := 63.
Definition DOT : Z := 46.

Inductive DnsError :=
| Truncated | ReservedLabel | ForwardPointer | NameTooLong | SeparatorInLabel | NotAQuery | NoQuestion
| MultipleQuestions (count : Z) | CompressedQuestion | SvcParamsOutOfOrder | EmptyAlpnIdentifier
| OutputTooSmall.

#[global] Instance DnsError_eq_dec : EqDecision DnsError.
Proof. solve_decision. Defined.

Abbreviation Name := bytes.

Definition Name_ROOT : Name := [].
Definition Name_is_root (n : Name) : bool := match n with [] => true | _ => false end.

(** [slice::split] on a separator byte: always at least one piece. *)
Fixpoint split_on (sep : Z) (l : bytes) : list bytes :=
  match l with
  | [] => [[]]
  | b :: l =>
      if b =? sep then [] :: split_on sep l
      else match split_on sep l with
           | piece :: pieces => (b :: piece) :: pieces
           | [] => [[b]]
           end
  end.

(** [str::strip_suffix('.')]. *)
Definition strip_dot (text : bytes) : bytes :=
  match last text with
  | Some b => if b =? DOT then take (length text - 1) text else text
  | None => text
  end.

Definition Name_parse (text : bytes) : option Name :=
  let trimmed := strip_dot text in
  if (MAX_NAME_CHARS <? length trimmed)%nat then None
  else if negb (Name_is_root trimmed) &&
          any (fun label => match label with [] => true | _ => (MAX_LABEL_LEN <? length label)%nat end)
            (split_on DOT trimmed)
  then None
  else Some (to_ascii_lowercase <$> trimmed).

Definition Name_wire_len (n : Name) : nat := if Name_is_root n then 1 else length n + 2.

(** [Name::suffixes]: each step drops through the next dot, so the length is fuel
    enough. *)
Fixpoint suffixes_from (fuel : nat) (suffix : bytes) : list bytes :=
  match fuel with
  | O => []
  | S fuel =>
      suffix :: match list_find (fun b => b = DOT) suffix with
                | Some (dot, _) => suffixes_from fuel (drop (S dot) suffix)
                | None => []
                end
  end.

Definition Name_suffixes (n : Name) : list bytes :=
  if Name_is_root n then [] else suffixes_from (S (length n)) n.

(** The decoding loop.  Exhausted fuel is a [Panic], so that "no panic" includes
    termination. *)
Fixpoint read_loop (fuel : nat) (message : bytes) (name : Name) (reader : Reader) (consumed : option nat)
  : Res DnsError (Name * nat) :=
  match fuel with
  | O => Panic
  | S fuel =>
      let cursor := Reader_position reader in
      '(length_, reader) ← ok_or Truncated (Reader_u8 reader);
      if Z.land length_ 0xc0 =? 0 then
        if length_ =? 0 then Ok (name, default (Reader_position reader) consumed)
        else
          '(label, reader) ← ok_or Truncated (Reader_take reader (Z.to_nat length_));
          if any (Z.eqb DOT) label then Err SeparatorInLabel else
          let separator := if Name_is_root name then 0%nat else 1%nat in
          if (MAX_NAME_CHARS <? length name + separator + length label)%nat then Err NameTooLong else
          let name := if (separator =? 1)%nat then name ++ [DOT] else name in
          read_loop fuel message (name ++ (to_ascii_lowercase <$> label)) reader consumed
      else if Z.land length_ 0xc0 =? 0xc0 then
        '(low, reader) ← ok_or Truncated (Reader_u8 reader);
        let target := Z.to_nat (be_value [Z.land length_ 0x3f; low]) in
        if (cursor <=? target)%nat then Err ForwardPointer else
        let consumed := Some (default (Reader_position reader) consumed) in
        reader ← ok_or Truncated (Reader_at message target);
        read_loop fuel message name reader consumed
      else Err ReservedLabel
  end.

Definition read_fuel (message : bytes) : nat := ((S MAX_NAME_CHARS) * (length message + 2))%nat.

(** The decoded name and the bytes it occupies at its original position. *)
Definition Name_read (message : bytes) (at_ : nat) : Res DnsError (Name * nat) :=
  reader ← ok_or Truncated (Reader_at message at_);
  '(name, end_) ← read_loop (read_fuel message) message [] reader None;
  if (at_ <=? end_)%nat then Ok (name, (end_ - at_)%nat) else Panic.

(** The written buffer and the position after the name. *)
Definition Name_write (n : Name) (out : bytes) (at_ : nat) : Res DnsError (bytes * nat) :=
  writer ← ok_or OutputTooSmall (Bounded_at out at_);
  let writer := if Name_is_root n then writer
                else foldl (fun w label => Bounded_vector_u8 label w) writer (split_on DOT n) in
  ok_or OutputTooSmall (Bounded_finish (Bounded_u8 0 writer)).

(** ** Names as labels *)

Fixpoint join (ls : list bytes) : bytes :=
  match ls with
  | [] => []
  | [l] => l
  | l :: ls => l ++ DOT :: join ls
  end.

Record label_ok (l : bytes) : Prop := {
  lo_len : (1 <= length l <= MAX_LABEL_LEN)%nat;
  lo_bytes : bytes_ok l;
  lo_nodot : DOT ∉ l;
  lo_lower : Forall lowercase l;
}.

(** What every [Name] satisfies. *)
Definition name_ok (n : Name) : Prop :=
  (length n <= MAX_NAME_CHARS)%nat /\ exists ls, n = join ls /\ Forall label_ok ls.

Lemma to_ascii_lowercase_dot b : to_ascii_lowercase b = DOT -> b = DOT.
Proof. unfold to_ascii_lowercase, DOT. destruct (_ && _) eqn:E; reflect; lia. Qed.

Lemma lowered_label_ok l :
  (1 <= length l <= MAX_LABEL_LEN)%nat -> bytes_ok l -> DOT ∉ l ->
  label_ok (to_ascii_lowercase <$> l).
Proof.
  intros Hlen Hok Hdot. split.
  - by rewrite length_fmap.
  - apply Forall_fmap. eapply Forall_impl; [exact Hok|]. apply to_ascii_lowercase_byte.
  - intros (b & E & Hb)%list_elem_of_fmap. symmetry in E. apply to_ascii_lowercase_dot in E. by subst.
  - apply Forall_fmap, Forall_true. intros. apply to_ascii_lowercase_idem.
Qed.

Lemma join_snoc ls l : ls <> [] -> join (ls ++ [l]) = join ls ++ DOT :: l.
Proof.
  intros Hne. induction ls as [|x ls IH]; [done|]. destruct ls as [|y ls]; [done|].
  cbn [app join] in *. rewrite IH by done. by rewrite <- app_assoc.
Qed.

Lemma split_on_nodot l : DOT ∉ l -> split_on DOT l = [l].
Proof.
  induction l as [|b l IH]; [done|]. intros Hn. apply not_elem_of_cons in Hn as [Hb Hl].
  cbn. rewrite (proj2 (Z.eqb_neq _ _)) by done. by rewrite IH.
Qed.

Lemma split_on_app l rest : DOT ∉ l -> split_on DOT (l ++ DOT :: rest) = l :: split_on DOT rest.
Proof.
  induction l as [|b l IH]; [done|]. intros Hn. apply not_elem_of_cons in Hn as [Hb Hl].
  cbn [app split_on]. rewrite (proj2 (Z.eqb_neq _ _)) by done. by rewrite IH.
Qed.

Lemma split_on_join ls : ls <> [] -> Forall label_ok ls -> split_on DOT (join ls) = ls.
Proof.
  intros Hne Hok. induction Hok as [|l ls Hl Hls IH]; [done|]. destruct ls as [|l' ls].
  - cbn. apply split_on_nodot, Hl.
  - change (join (l :: l' :: ls)) with (l ++ DOT :: join (l' :: ls)).
    rewrite split_on_app by apply Hl. by rewrite IH.
Qed.

Lemma join_root ls : Forall label_ok ls -> join ls = [] <-> ls = [].
Proof.
  intros Hok. split; [|by intros ->]. destruct Hok as [|l ls [Hlen _ _ _] _]; [done|].
  destruct l; [cbn in Hlen; lia|]. destruct ls; done.
Qed.

(** ** Decoding *)

Lemma label_prefix b : byte_ok b -> Z.land b 0xc0 = 0 -> b < 64.
Proof.
  intros Hb Hz.
  assert (forallb (fun b => negb (Z.land b 0xc0 =? 0) || (b <? 64)) (seqZ 0 256) = true) as Hall
    by reflexivity.
  rewrite forallb_forall in Hall. specialize (Hall b). unfold uint_ok in Hb.
  rewrite Hz in Hall. cbn in Hall. apply Z.ltb_lt, Hall, list_elem_of_In, elem_of_seqZ. lia.
Qed.

Lemma name_ok_push name label :
  name_ok name -> bytes_ok label -> (1 <= length label <= MAX_LABEL_LEN)%nat -> DOT ∉ label ->
  let name' := (if Name_is_root name then name else name ++ [DOT]) ++ (to_ascii_lowercase <$> label) in
  (length name' <= MAX_NAME_CHARS)%nat -> name_ok name'.
Proof.
  intros [_ (ls & -> & Hls)] Hok Hlen Hdot name' Hmax. split; [done|].
  exists (ls ++ [to_ascii_lowercase <$> label]). split.
  - unfold name'. destruct ls as [|l ls]; [done|].
    assert (join (l :: ls) <> []) as Hne by (rewrite join_root by done; done).
    rewrite join_snoc by done. destruct (join (l :: ls)); [done|]. cbn [Name_is_root].
    by rewrite <- app_assoc.
  - apply Forall_app. split; [done|]. constructor; [|done]. by apply lowered_label_ok.
Qed.

(** The loop terminates, stays inside the message, and yields a normalised name:
    a label adds to the name and a pointer moves strictly back, so
    [(253 - length name, cursor)] decreases lexicographically. *)
Lemma read_loop_ok fuel message name reader consumed lo :
  bytes_ok message -> r_bytes reader = message -> (r_at reader <= length message)%nat -> name_ok name ->
  ((MAX_NAME_CHARS - length name) * (length message + 2) + r_at reader + 1 <= fuel)%nat ->
  (lo <= default (r_at reader) consumed <= length message)%nat ->
  match read_loop fuel message name reader consumed with
  | Ok (n, e) => name_ok n /\ (lo <= e <= length message)%nat
  | Err _ => True
  | Panic => False
  end.
Proof.
  intros Hmsg. revert name reader consumed.
  induction fuel as [|fuel IH]; intros name reader consumed Hr Hat Hn Hfuel Hlo;
    [rewrite Nat.add_1_r in Hfuel; by apply Nat.nle_succ_0 in Hfuel|]. cbn [read_loop].
  destruct (Reader_u8 reader) as [[b r1]|] eqn:E1; [|done]. cbn [ok_or mbind Res_bind].
  assert (byte_ok b) as Hb.
  { apply (Reader_uint_range 1 reader b r1); [by rewrite Hr|done]. }
  apply Reader_uint_Some in E1 as (H1 & _ & ->). rewrite Hr in *.
  destruct (Z.eqb_spec (Z.land b 0xc0) 0) as [Hland|_].
  - destruct (Z.eqb_spec b 0) as [_|Hb0].
    { split; [done|]. destruct consumed; cbn in *; lia. }
    destruct (Reader_take _ (Z.to_nat b)) as [[label r2]|] eqn:E2; [|done]. cbn [ok_or mbind Res_bind].
    apply Reader_take_Some in E2 as (H2 & -> & ->). cbn [r_at r_bytes] in *.
    set (label := take _ _). destruct (any _ label) eqn:Ed; [done|].
    assert (length label = Z.to_nat b) as Hll
      by (unfold label; rewrite length_take, length_drop; unfold uint_ok in Hb; lia).
    pose proof (label_prefix b Hb Hland) as H64. unfold uint_ok in Hb.
    destruct (_ <? _)%nat eqn:Et; [done|]. reflect.
    apply IH; cbn [r_bytes r_at]; try done; try lia.
    + assert (DOT ∉ label) as Hdot.
      { intros Hin. assert (any (Z.eqb DOT) label = true); [|congruence].
        apply existsb_exists. exists DOT. split; [by apply list_elem_of_In|apply Z.eqb_refl]. }
      replace (if ((if Name_is_root name then 0 else 1) =? 1)%nat then name ++ [DOT] else name) with (if Name_is_root name then name else name ++ [DOT])
        by (by destruct name).
      apply name_ok_push; try done.
      * unfold label. by apply Forall_take, Forall_drop.
      * rewrite Hll. unfold MAX_LABEL_LEN. lia.
      * rewrite length_app, length_fmap. destruct name; cbn [Name_is_root length] in *;
          rewrite ?length_app; cbn [length]; lia.
    + rewrite length_app, length_fmap. unfold MAX_NAME_CHARS in *.
      destruct name; cbn [Name_is_root Nat.eqb length] in *; rewrite ?length_app; cbn [length] in *; nia.
    + destruct consumed; cbn in *; lia.
  - destruct (Z.eqb_spec (Z.land b 0xc0) 0xc0); [|done].
    destruct (Reader_u8 _) as [[low r2]|] eqn:E2; [|done]. cbn [ok_or mbind Res_bind].
    apply Reader_uint_Some in E2 as (H2 & _ & ->). cbn [r_at r_bytes Reader_position] in *.
    set (target := Z.to_nat _). unfold Reader_position; cbn [r_at].
    destruct (_ <=? target)%nat eqn:Et; [done|]. reflect.
    unfold Reader_at. destruct (target <=? _)%nat eqn:Eb; [|done]. cbn [ok_or mbind Res_bind]. reflect.
    apply IH; cbn [r_bytes r_at default from_option id]; try done; try lia.
    destruct consumed; cbn in *; lia.
Qed.

Lemma Name_read_ok message at_ :
  bytes_ok message ->
  match Name_read message at_ with
  | Ok (n, consumed) => name_ok n /\ (at_ + consumed <= length message)%nat
  | Err _ => True
  | Panic => False
  end.
Proof.
  intros Hmsg. unfold Name_read, Reader_at. destruct (at_ <=? length message)%nat eqn:Ea; [|done]. reflect.
  cbn [ok_or mbind Res_bind].
  pose proof (read_loop_ok (read_fuel message) message [] (mkReader message at_) None at_) as Hl.
  cbn [r_bytes r_at default from_option id length] in Hl.
  specialize (Hl Hmsg eq_refl Ea).
  destruct (read_loop _ _ _ _ _) as [[n e]| |].
  - cbn [mbind Res_bind]. destruct Hl as [? ?]; [split; [cbn; lia|by exists []]|unfold read_fuel, MAX_NAME_CHARS; lia|lia|].
    rewrite (proj2 (Nat.leb_le _ _)) by lia. split; [done|lia].
  - done.
  - apply Hl; [split; [cbn; lia|by exists []]|unfold read_fuel, MAX_NAME_CHARS; lia|lia].
Qed.

(** ** Round trip *)

Definition label_chunks (l : bytes) : list bytes := [[Z.of_nat (length l)]; l].

(** The uncompressed wire form. *)
Definition encode (ls : list bytes) : bytes := concat (concat (label_chunks <$> ls)) ++ [0].

Lemma encode_cons l ls : encode (l :: ls) = (Z.of_nat (length l) :: l) ++ encode ls.
Proof. unfold encode. cbn. by rewrite <- app_assoc. Qed.

Lemma Reader_u8_app pre b post :
  byte_ok b ->
  Reader_u8 (mkReader (pre ++ b :: post) (length pre)) = Some (b, mkReader (pre ++ b :: post) (length pre + 1)).
Proof.
  intros Hb. pose proof (Reader_uint_app 1 pre b post) as H. unfold uint_ok in Hb.
  assert (be_bytes 1 b = [b]) as E.
  { cbn. rewrite Z.div_1_r, Z.mod_small by lia. done. }
  rewrite E in H. apply H. cbn. lia.
Qed.

Lemma lowered_fixed l : Forall lowercase l -> to_ascii_lowercase <$> l = l.
Proof. induction 1 as [|b l Hb _ IH]; [done|]. cbn. by rewrite Hb, IH. Qed.

Lemma join_push done_ l :
  Forall label_ok done_ ->
  (if Name_is_root (join done_) then join done_ else join done_ ++ [DOT]) ++ l = join (done_ ++ [l]).
Proof.
  intros Hd. destruct done_ as [|d done_]; [done|].
  assert (join (d :: done_) <> []) as Hne by (rewrite join_root by done; done).
  rewrite join_snoc by done. destruct (join (d :: done_)); [done|]. cbn [Name_is_root].
  by rewrite <- app_assoc.
Qed.

Lemma join_length_mono ls ls' : (length (join ls) <= length (join (ls ++ ls')))%nat.
Proof.
  induction ls as [|l ls IH]; [cbn; lia|]. destruct ls as [|l2 ls].
  - destruct ls' as [|x ls']; [done|]. change (join (([l] ++ x :: ls'))) with (l ++ DOT :: join (x :: ls')).
    rewrite length_app. cbn. lia.
  - change (join (l :: l2 :: ls)) with (l ++ DOT :: join (l2 :: ls)).
    change (join ((l :: l2 :: ls) ++ ls')) with (l ++ DOT :: join ((l2 :: ls) ++ ls')).
    rewrite !length_app. cbn [length]. lia.
Qed.

Lemma read_loop_encode ls done_ pre post fuel :
  Forall label_ok done_ -> Forall label_ok ls ->
  (length (join (done_ ++ ls)) <= MAX_NAME_CHARS)%nat -> (length ls < fuel)%nat ->
  let message := pre ++ encode ls ++ post in
  read_loop fuel message (join done_) (mkReader message (length pre)) None
  = Ok (join (done_ ++ ls), (length pre + length (encode ls))%nat).
Proof.
  intros Hd Hls. revert done_ pre fuel Hd. induction Hls as [|l ls Hl Hls IH];
    intros done_ pre [|fuel] Hd Hmax Hf; try (cbn in Hf; lia); cbv zeta.
  - unfold encode. cbn [fmap list_fmap concat app read_loop].
    rewrite Reader_u8_app by done. cbn. by rewrite app_nil_r.
  - rewrite encode_cons, <- app_assoc. cbn [app read_loop].
    assert (1 <= length l <= 63)%nat as Hlen by apply Hl.
    rewrite Reader_u8_app by (unfold uint_ok; lia). cbn [ok_or mbind Res_bind].
    assert (Z.land (Z.of_nat (length l)) 0xc0 = 0) as ->.
    { assert (forallb (fun b => Z.land b 0xc0 =? 0) (seqZ 0 64) = true) as Hall by reflexivity.
      rewrite forallb_forall in Hall. apply Z.eqb_eq, Hall, list_elem_of_In, elem_of_seqZ. lia. }
    cbn [Z.eqb]. rewrite (proj2 (Z.eqb_neq _ _)) by lia. rewrite Nat2Z.id.
    set (b := Z.of_nat (length l)).
    replace (pre ++ b :: l ++ encode ls ++ post) with ((pre ++ [b]) ++ l ++ encode ls ++ post)
      by (by rewrite <- app_assoc).
    replace (length pre + 1)%nat with (length (pre ++ [b])) by (rewrite length_app; done).
    rewrite Reader_take_app. cbn [ok_or mbind Res_bind].
    assert (any (Z.eqb DOT) l = false) as ->.
    { apply not_true_iff_false. intros (x & Hx & Ex)%existsb_exists. apply Z.eqb_eq in Ex. subst x.
      apply (lo_nodot l Hl). by apply list_elem_of_In. }
    rewrite lowered_fixed by apply Hl.
    replace (if ((if Name_is_root (join done_) then 0 else 1) =? 1)%nat then join done_ ++ [DOT] else join done_)
      with (if Name_is_root (join done_) then join done_ else join done_ ++ [DOT]) by (by destruct (join done_)).
    rewrite (join_push done_ l) by done.
    assert ((length (join (done_ ++ [l])) <= MAX_NAME_CHARS)%nat) as Hm.
    { etrans; [apply (join_length_mono _ ls)|]. by rewrite <- app_assoc. }
    rewrite (proj2 (Nat.ltb_ge _ _)).
    2:{ rewrite <- (join_push done_ l Hd), length_app in Hm.
        destruct (join done_); cbn [Name_is_root length] in *; rewrite ?length_app in *; cbn [length] in *; lia. }
    replace (length (pre ++ [b]) + length l)%nat with (length ((pre ++ [b]) ++ l)) by (rewrite length_app; done).
    replace ((pre ++ [b]) ++ l ++ encode ls ++ post) with (((pre ++ [b]) ++ l) ++ encode ls ++ post)
      by (by rewrite <- !app_assoc).
    rewrite IH; [|apply Forall_app; split; [done|by constructor]|by rewrite <- app_assoc|cbn in Hf; lia].
    rewrite <- app_assoc. do 2 f_equal. rewrite !length_app. cbn. rewrite length_app. lia.
Qed.

Lemma length_encode_join ls :
  Forall label_ok ls -> length (encode ls) = Name_wire_len (join ls).
Proof.
  unfold Name_wire_len. induction 1 as [|l ls Hl Hls IH]; [done|].
  rewrite encode_cons, length_app, IH. pose proof (lo_len l Hl). destruct ls as [|l2 ls].
  - cbn [join Name_is_root length]. destruct l; cbn [length] in *; [lia|]. cbn. lia.
  - change (join (l :: l2 :: ls)) with (l ++ DOT :: join (l2 :: ls)).
    assert (join (l2 :: ls) <> []) as Hne by (rewrite join_root by done; done).
    destruct (join (l2 :: ls)) as [|x xs]; [done|]. cbn [Name_is_root].
    destruct l; [cbn in *; lia|]. cbn [Name_is_root app length]. rewrite length_app. cbn. lia.
Qed.

Lemma length_join_labels ls : Forall label_ok ls -> (length ls <= length (join ls) + 1)%nat.
Proof.
  induction 1 as [|l ls Hl Hls IH]; [cbn; lia|]. pose proof (lo_len l Hl). destruct ls as [|l2 ls].
  - cbn. lia.
  - change (join (l :: l2 :: ls)) with (l ++ DOT :: join (l2 :: ls)). rewrite length_app.
    cbn [length] in *. lia.
Qed.

(** Reading the uncompressed form of a name anywhere in a message. *)
Lemma Name_read_encode pre ls post :
  Forall label_ok ls -> (length (join ls) <= MAX_NAME_CHARS)%nat ->
  Name_read (pre ++ encode ls ++ post) (length pre) = Ok (join ls, Name_wire_len (join ls)).
Proof.
  intros Hls Hmax. unfold Name_read, Reader_at.
  rewrite (proj2 (Nat.leb_le _ _)) by (rewrite length_app; lia). cbn [ok_or mbind Res_bind].
  pose proof (read_loop_encode ls [] pre post (read_fuel (pre ++ encode ls ++ post))) as Hr.
  cbn [join app] in Hr. rewrite Hr; [|constructor|done|done|].
  - cbn [mbind Res_bind]. rewrite (proj2 (Nat.leb_le _ _)) by lia.
    rewrite length_encode_join by done. do 2 f_equal. lia.
  - pose proof (length_join_labels ls Hls). unfold read_fuel, MAX_NAME_CHARS in *. lia.
Qed.

Lemma vector_run ls b :
  Forall label_ok ls ->
  foldl (fun w label => Bounded_vector_u8 label w) b ls = Bounded_run (concat (label_chunks <$> ls)) b.
Proof.
  intros Hls. revert b. induction Hls as [|l ls Hl Hls IH]; intros b; [done|].
  cbn [foldl fmap list_fmap concat]. rewrite IH, Bounded_run_app. f_equal.
  unfold Bounded_vector_u8, Bounded_u8, wrap. pose proof (lo_len l Hl) as [_ Hle].
  unfold MAX_LABEL_LEN in Hle. rewrite Z.mod_small by (change (2 ^ 8) with 256; lia). done.
Qed.

(** Writing a name is writing its uncompressed form. *)
Lemma Name_write_encode ls out at_ :
  Forall label_ok ls ->
  Name_write (join ls) out at_
  = if (at_ + length (encode ls) <=? length out)%nat
    then Ok (splice at_ (encode ls) out, (at_ + length (encode ls))%nat) else Err OutputTooSmall.
Proof.
  intros Hls. unfold Name_write, Bounded_at.
  assert (0 < length (encode ls))%nat as Hpos by (unfold encode; rewrite length_app; cbn; lia).
  destruct (at_ <=? length out)%nat eqn:Ea; reflect; cbn [ok_or mbind Res_bind].
  2:{ rewrite (proj2 (Nat.leb_gt _ _)) by lia. done. }
  replace (if Name_is_root (join ls) then _ else _)
    with (Bounded_run (concat (label_chunks <$> ls)) (mkBounded out at_ false)).
  - unfold Bounded_u8.
    change (Bounded_bytes [0] ?b) with (Bounded_run [[0]] b). rewrite <- Bounded_run_app.
    rewrite Bounded_run_finish by done. rewrite concat_app. cbn [concat]. rewrite app_nil_r.
    fold (encode ls). destruct (_ <=? _)%nat; done.
  - destruct ls as [|l ls]; [done|].
    assert (join (l :: ls) <> []) as Hne by (rewrite join_root by done; done).
    destruct (Name_is_root (join (l :: ls))) eqn:Er; [by destruct (join (l :: ls))|].
    by rewrite split_on_join, vector_run.
Qed.

(** C36: on any message and offset, decoding a name terminates without panicking
    (pointer loops included), consumes only bytes of the message, and yields a
    normalised name: at most 253 bytes of lower-case labels of 1 to 63 bytes. *)
Theorem name_read_total message at_ :
  bytes_ok message ->
  match Name_read message at_ with
  | Ok (n, consumed) => name_ok n /\ (at_ + consumed <= length message)%nat
  | Err _ => True
  | Panic => False
  end.
Proof. apply Name_read_ok. Qed.

(** A label followed by a pointer back to itself. *)
Lemma name_read_total_witness :
  bytes_ok [1; 97; 192; 0] /\
  Name_read [1; 97; 192; 0] 0 = Err NameTooLong /\
  match Name_read [1; 97; 192; 0] 0 with
  | Ok (n, consumed) => name_ok n /\ (0 + consumed <= 4)%nat
  | Err _ => True
  | Panic => False
  end.
Proof.
  assert (bytes_ok [1; 97; 192; 0]) as Hok by (repeat constructor; done).
  split; [done|]. split; [vm_compute; reflexivity|].
  apply (name_read_total [1; 97; 192; 0] 0 Hok).
Defined.

(** a written name reads back as itself: writing a normalised name succeeds
    exactly when its wire form fits, changes nothing outside it, and decoding at
    that position returns the name and its wire length. *)
Theorem name_roundtrip n out at_ :
  name_ok n ->
  match Name_write n out at_ with
  | Ok (out', end_) =>
      end_ = (at_ + Name_wire_len n)%nat /\ length out' = length out /\
      (forall i, (i < at_ \/ end_ <= i)%nat -> out' !! i = out !! i) /\
      Name_read out' at_ = Ok (n, Name_wire_len n)
  | Err e => e = OutputTooSmall /\ (length out < at_ + Name_wire_len n)%nat
  | Panic => False
  end.
Proof.
  intros [Hmax (ls & -> & Hls)]. rewrite Name_write_encode by done.
  pose proof (length_encode_join ls Hls) as Hlen. rewrite Hlen.
  destruct (_ <=? _)%nat eqn:E; reflect; [|done]. split_and!; [done|rewrite length_splice; lia| |].
  - intros i Hi. rewrite lookup_splice, decide_False by lia. done.
  - unfold splice. assert (length (take at_ out) = at_) as Ha by (rewrite length_take; lia).
    rewrite <- Ha at 3. by apply Name_read_encode.
Qed.

Definition sample_name : Name := [97; 46; 98; 99].
Definition sample_out : bytes := replicate 10 7.

Lemma name_roundtrip_witness :
  name_ok sample_name /\
  match Name_write sample_name sample_out 2 with
  | Ok (out', end_) =>
      end_ = (2 + Name_wire_len sample_name)%nat /\ length out' = length (sample_out) /\
      (forall i, (i < 2 \/ end_ <= i)%nat -> out' !! i = sample_out !! i) /\
      Name_read out' 2 = Ok (sample_name, Name_wire_len sample_name)
  | Err e => e = OutputTooSmall /\ (length (sample_out) < 2 + Name_wire_len sample_name)%nat
  | Panic => False
  end.
Proof.
  assert (name_ok sample_name) as Hok.
  { split; [unfold MAX_NAME_CHARS; cbn; lia|]. exists [[97]; [98; 99]]. split; [done|].
    repeat (constructor; [split; [unfold MAX_LABEL_LEN; cbn; lia|repeat constructor; done|set_solver|repeat constructor; done]|]).
    constructor. }
  split; [done|]. apply (name_roundtrip sample_name sample_out 2 Hok).
Defined.

(** ** Presentation text *)

Lemma join_split l : join (split_on DOT l) = l.
Proof.
  induction l as [|b l IH]; [done|]. cbn [split_on]. destruct (Z.eqb_spec b DOT) as [->|Hb].
  - destruct (split_on DOT l) as [|p ps] eqn:E; [by destruct l; cbn in E; repeat case_match|].
    change (join ([] :: p :: ps)) with (DOT :: join (p :: ps)). by rewrite IH.
  - destruct (split_on DOT l) as [|p ps]; [cbn in IH; by subst|].
    destruct ps; cbn in *; by rewrite IH.
Qed.

Lemma split_nodot l : Forall (fun p => DOT ∉ p) (split_on DOT l).
Proof.
  induction l as [|b l IH]; [repeat constructor; set_solver|]. cbn [split_on].
  destruct (Z.eqb_spec b DOT); [constructor; [set_solver|done]|].
  destruct (split_on DOT l) as [|p ps]; [repeat constructor; set_solver|].
  inversion_clear IH. constructor; [|done]. set_solver.
Qed.

Lemma split_bytes_ok l : bytes_ok l -> Forall (fun p => bytes_ok p) (split_on DOT l).
Proof.
  induction 1 as [|b l Hb Hl IH]; [repeat constructor|]. cbn [split_on].
  destruct (b =? DOT); [by constructor|]. destruct (split_on DOT l) as [|p ps]; [constructor; [by constructor|done]|].
  inversion_clear IH. constructor; [by constructor|done].
Qed.

Definition lower (l : bytes) : bytes := to_ascii_lowercase <$> l.

Lemma lower_join ls :
  lower (join ls) = join (lower <$> ls).
Proof.
  induction ls as [|l ls IH]; [done|]. destruct ls as [|l2 ls]; [done|].
  change (join (l :: l2 :: ls)) with (l ++ DOT :: join (l2 :: ls)).
  unfold lower at 1. rewrite fmap_app. change (to_ascii_lowercase <$> DOT :: ?x) with (DOT :: lower x).
  by rewrite IH.
Qed.

(** Accepted text is a normalised name. *)
Lemma Name_parse_ok text n : bytes_ok text -> Name_parse text = Some n -> name_ok n.
Proof.
  intros Hok. unfold Name_parse. set (trimmed := strip_dot text).
  assert (bytes_ok trimmed) as Ht.
  { unfold trimmed, strip_dot. destruct (last text); [|done]. destruct (_ =? _); [by apply Forall_take|done]. }
  destruct (_ <? _)%nat eqn:E1; [done|]. destruct (_ && _) eqn:E2; [done|]. intros [= <-]. reflect.
  split; [by rewrite length_fmap|].
  destruct trimmed as [|b tr] eqn:Etr; [by exists []|]. rewrite <- Etr in *.
  assert (negb (Name_is_root trimmed) = true) as Hnr by (by rewrite Etr). rewrite Hnr in E2. cbn [andb] in E2.
  exists (lower <$> split_on DOT trimmed). split.
  { by rewrite <- lower_join, join_split. }
  apply Forall_fmap, Forall_forall. intros p Hp.
  pose proof (split_nodot trimmed) as Hd. pose proof (split_bytes_ok trimmed Ht) as Hb.
  rewrite Forall_forall in Hd, Hb. apply lowered_label_ok; [|by apply Hb|by apply Hd].
  apply not_true_iff_false in E2. unfold any in E2. rewrite existsb_exists in E2.
  destruct p as [|x p].
  - destruct E2. exists []. split; [by apply list_elem_of_In|done].
  - destruct (decide (MAX_LABEL_LEN < length (x :: p))%nat) as [Hlt|]; [|cbn [length] in *; lia].
    destruct E2. exists (x :: p). split; [by apply list_elem_of_In|]. by apply Nat.ltb_lt.
Qed.

(** ** Suffixes *)

Lemma suffixes_from_spec fuel n s :
  (length n < fuel)%nat ->
  s ∈ suffixes_from fuel n <-> s = n \/ exists p, n = p ++ DOT :: s.
Proof.
  revert n. induction fuel as [|fuel IH]; intros n Hf; [lia|]. cbn [suffixes_from]. rewrite elem_of_cons.
  destruct (list_find _ n) as [[i b]|] eqn:Ef.
  - apply list_find_Some in Ef as (Hi & -> & Hfirst).
    pose proof (lookup_lt_Some _ _ _ Hi). rewrite IH by (rewrite length_drop; lia).
    assert (n = take i n ++ DOT :: drop (S i) n) as Hn by (symmetry; by apply take_drop_middle).
    split; intros [->|H']; [by left| |by left|].
    + destruct H' as [->|[p Hp]]; right; [by exists (take i n)|].
      exists (take i n ++ DOT :: p). rewrite <- app_assoc. cbn. by rewrite <- Hp.
    + right. destruct H' as [p Hp].
      assert (i <= length p)%nat as Hip.
      { destruct (decide (i <= length p)%nat); [done|].
        exfalso. apply (Hfirst (length p) DOT); [|lia|done]. rewrite Hp, lookup_app_r, Nat.sub_diag by lia. done. }
      destruct (decide (i = length p)) as [->|].
      * left. rewrite Hp at 1. rewrite drop_app_ge by lia.
        replace (S (length p) - length p)%nat with 1%nat by lia. done.
      * right. exists (drop (S i) p). rewrite Hp. rewrite drop_app_le by lia. done.
  - apply list_find_None in Ef. split; [intros [->|H']; [by left|set_solver]|].
    intros [->|[p ->]]; [by left|]. exfalso. rewrite Forall_forall in Ef. apply (Ef DOT); set_solver.
Qed.

(** The suffixes of a name are the name and what follows each dot. *)
Lemma Name_suffixes_spec n s :
  s ∈ Name_suffixes n <-> n <> [] /\ (s = n \/ exists p, n = p ++ DOT :: s).
Proof.
  unfold Name_suffixes. destruct n as [|b n]; cbn [Name_is_root]; [set_solver|].
  rewrite suffixes_from_spec by (cbn; lia). naive_solver.
Qed.

(** They come longest first. *)
Lemma Name_suffixes_sorted n :
  StronglySorted (fun s s' => length s' < length s)%nat (Name_suffixes n).
Proof.
  unfold Name_suffixes. destruct (Name_is_root n); [constructor|].
  assert (forall fuel m, (length m < fuel)%nat ->
    StronglySorted (fun s s' => length s' < length s)%nat (suffixes_from fuel m)) as Hs; [|apply Hs; lia].
  induction fuel as [|fuel IH]; intros m Hf; [lia|]. cbn [suffixes_from].
  destruct (list_find _ m) as [[i b]|] eqn:Ef; [|repeat constructor].
  apply list_find_Some in Ef as (Hi & _ & _). pose proof (lookup_lt_Some _ _ _ Hi).
  assert (length (drop (S i) m) < fuel)%nat by (rewrite length_drop; lia).
  constructor; [by apply IH|]. apply Forall_forall. intros s Hs.
  apply suffixes_from_spec in Hs; [|done]. rewrite length_drop in *.
  destruct Hs as [->|[p Hp]]; [rewrite length_drop; lia|].
  apply (f_equal length) in Hp. rewrite length_drop, length_app in Hp. cbn in Hp. lia.
Qed.
