(* ===== verification/DnsMessage.v ===== *)
(** DNS messages of [src/policy/dns.rs]: the parser of headers and questions, the
    walk over resource records, and the SvcParams of HTTPS and SVCB records. *)

From S2P Require Import Prelude Wire DnsName.
Open Scope Z_scope.

Definition HEADER_BYTES : nat := 12.
Definition ANCOUNT_AT : nat := 6.

(** ** Types and codes *)

Inductive RecordType := RT_A | RT_Aaaa | RT_Https | RT_Svcb | RT_Other (value : Z).

#[global] Instance RecordType_eq_dec : EqDecision RecordType.
Proof. solve_decision. Defined.
#[global] Instance RecordType_countable : Countable RecordType.
Proof.
  refine (inj_countable
    (fun t => match t with RT_A => (0, 0) | RT_Aaaa => (1, 0) | RT_Https => (2, 0) | RT_Svcb => (3, 0)
                         | RT_Other v => (4, v) end)
    (fun '(t, v) => Some (if t =? 0 then RT_A else if t =? 1 then RT_Aaaa else if t =? 2 then RT_Https
                          else if t =? 3 then RT_Svcb else RT_Other v)) _).
  by intros [].
Defined.

Definition RecordType_from_wire (value : Z) : RecordType :=
  if value =? 1 then RT_A else if value =? 28 then RT_Aaaa else if value =? 64 then RT_Svcb
  else if value =? 65 then RT_Https else RT_Other value.

Definition RecordType_to_wire (t : RecordType) : Z :=
  match t with
  | RT_A => 1 | RT_Aaaa => 28 | RT_Svcb => 64 | RT_Https => 65
  | RT_Other other => other
  end.

Definition carries_svc_params (t : RecordType) : bool :=
  match t with RT_Https | RT_Svcb => true | _ => false end.

Definition FLAG_RESPONSE : Z := 0x8000.
Definition FLAG_RECURSION_DESIRED : Z := 0x0100.
Definition FLAG_RECURSION_AVAILABLE : Z := 0x0080.
Definition FLAG_TRUNCATED : Z := 0x0200.
Definition FLAG_AUTHENTIC_DATA : Z := 0x0020.
Definition FLAG_CHECKING_DISABLED : Z := 0x0010.
Definition OPCODE_MASK : Z := 0x7800.
Definition OPT : Z := 41.
Definition RCODE_MASK : Z := 0x000f.

Inductive Rcode := NoError | FormatError | ServerFailure | NameError | Rcode_Other (value : Z).

#[global] Instance Rcode_eq_dec : EqDecision Rcode.
Proof. solve_decision. Defined.

Definition Rcode_from_wire (value : Z) : Rcode :=
  let code := Z.land value RCODE_MASK in
  if code =? 0 then NoError else if code =? 1 then FormatError else if code =? 2 then ServerFailure
  else if code =? 3 then NameError else Rcode_Other code.

Definition Rcode_to_wire (r : Rcode) : Z :=
  match r with
  | NoError => 0 | FormatError => 1 | ServerFailure => 2 | NameError => 3
  | Rcode_Other other => Z.land other RCODE_MASK
  end.

(** ** Messages *)

Record Question := mkQuestion { q_name : Name; q_qtype : RecordType; q_qclass : Z }.

#[global] Instance Question_eq_dec : EqDecision Question.
Proof. solve_decision. Defined.

Record ResourceRecord := mkRecord {
  rr_name : Name;
  rr_rtype : RecordType;
  rr_class : Z;
  rr_ttl : Z;
  rr_rdata : bytes;
}.

Record Message := mkMessage {
  m_bytes : bytes;
  m_id : Z;
  m_flags : Z;
  m_answer_count : Z;
  m_authority_count : Z;
  m_additional_count : Z;
  m_question : Question;
  m_question_bytes : bytes;
  m_answers_at : nat;
}.

Definition Message_parse (bs : bytes) : Res DnsError Message :=
  '(id, reader) ← ok_or Truncated (Reader_u16 (Reader_new bs));
  '(flags, reader) ← ok_or Truncated (Reader_u16 reader);
  '(question_count, reader) ← ok_or Truncated (Reader_u16 reader);
  '(answer_count, reader) ← ok_or Truncated (Reader_u16 reader);
  '(authority_count, reader) ← ok_or Truncated (Reader_u16 reader);
  '(additional_count, reader) ← ok_or Truncated (Reader_u16 reader);
  if negb (Z.land flags OPCODE_MASK =? 0) then Err NotAQuery else
  if question_count =? 0 then Err NoQuestion else
  if negb (question_count =? 1) then Err (MultipleQuestions question_count) else
  let question_at := Reader_position reader in
  '(name, name_len) ← Name_read bs question_at;
  if negb (name_len =? Name_wire_len name)%nat then Err CompressedQuestion else
  reader ← ok_or Truncated (Reader_skip reader name_len);
  '(qtype, reader) ← ok_or Truncated (Reader_u16 reader);
  '(qclass, reader) ← ok_or Truncated (Reader_u16 reader);
  question_bytes ← or_panic (get_range bs question_at (Reader_position reader));
  Ok (mkMessage bs id flags answer_count authority_count additional_count
        (mkQuestion name (RecordType_from_wire qtype) qclass) question_bytes (Reader_position reader)).

Definition Message_rcode (m : Message) : Rcode := Rcode_from_wire (m_flags m).
Definition flag_set (m : Message) (flag : Z) : bool := negb (Z.land (m_flags m) flag =? 0).
Definition is_response (m : Message) : bool := flag_set m FLAG_RESPONSE.
Definition is_truncated (m : Message) : bool := flag_set m FLAG_TRUNCATED.
Definition recursion_desired (m : Message) : bool := flag_set m FLAG_RECURSION_DESIRED.
Definition authentic_data (m : Message) : bool := flag_set m FLAG_AUTHENTIC_DATA.
Definition checking_disabled (m : Message) : bool := flag_set m FLAG_CHECKING_DISABLED.

(** ** Records *)

(** One record and the cursor after it; a failed read leaves the cursor. *)
Definition Answers_read (message : bytes) (cursor : nat) : Res DnsError (ResourceRecord * nat) :=
  '(name, name_len) ← Name_read message cursor;
  reader ← ok_or Truncated (Reader_at message (cursor + name_len));
  '(rtype, reader) ← ok_or Truncated (Reader_u16 reader);
  '(class, reader) ← ok_or Truncated (Reader_u16 reader);
  '(ttl, reader) ← ok_or Truncated (Reader_u32 reader);
  '(rdata, reader) ← ok_or Truncated (Reader_vector_u16 reader);
  Ok (mkRecord name (RecordType_from_wire rtype) class ttl rdata, Reader_position reader).

(** Everything the iterator yields: it goes on after an error. *)
Fixpoint Answers_items (remaining : nat) (message : bytes) (cursor : nat)
  : list (Res DnsError ResourceRecord) :=
  match remaining with
  | O => []
  | S remaining =>
      match Answers_read message cursor with
      | Ok (record, cursor) => Ok record :: Answers_items remaining message cursor
      | Err e => Err e :: Answers_items remaining message cursor
      | Panic => [Panic]
      end
  end.

(** [Answers::end]. *)
Fixpoint Answers_end (remaining : nat) (message : bytes) (cursor : nat) : Res DnsError nat :=
  match remaining with
  | O => Ok cursor
  | S remaining =>
      '(_, cursor) ← Answers_read message cursor;
      Answers_end remaining message cursor
  end.

Definition Message_answers (m : Message) : list (Res DnsError ResourceRecord) :=
  Answers_items (Z.to_nat (m_answer_count m)) (m_bytes m) (m_answers_at m).

Definition Message_authority (m : Message) : list (Res DnsError ResourceRecord) :=
  let at_ := match Answers_end (Z.to_nat (m_answer_count m)) (m_bytes m) (m_answers_at m) with
             | Ok at_ => at_
             | _ => length (m_bytes m)
             end in
  Answers_items (Z.to_nat (m_authority_count m)) (m_bytes m) at_.

Definition Message_udp_payload_size (m : Message) : option Z :=
  remaining ← checked_add U16_MAX (m_answer_count m) (m_authority_count m);
  additional_at ← match Answers_end (Z.to_nat remaining) (m_bytes m) (m_answers_at m) with
                  | Ok at_ => Some at_
                  | _ => None
                  end;
  let records := Answers_items (Z.to_nat (m_additional_count m)) (m_bytes m) additional_at in
  head (omap (fun record => match record with
                            | Ok record => if RecordType_to_wire (rr_rtype record) =? OPT
                                           then Some (rr_class record) else None
                            | _ => None
                            end) records).

(** ** Service parameters *)

Definition SVCPARAM_ECH : Z := 5.
Definition SVCPARAM_ALPN : Z := 1.
Definition SVCPARAM_NO_DEFAULT_ALPN : Z := 2.

Abbreviation Range := (nat * nat)%type.

Record SvcParam := mkParam { sp_key : Z; sp_value : bytes; sp_at : Range }.

(** Skipping the uncompressed TargetName behind the priority. *)
Fixpoint target_loop (fuel : nat) (rdata : bytes) (cursor : nat) : Res DnsError nat :=
  match fuel with
  | O => Panic
  | S fuel =>
      length_ ← ok_or Truncated (rdata !! cursor);
      if negb (Z.land length_ 0xc0 =? 0) then Err ReservedLabel else
      let cursor := (cursor + (1 + Z.to_nat length_))%nat in
      if length_ =? 0 then Ok cursor else target_loop fuel rdata cursor
  end.

(** The cursor at which [svc_params] starts its walk. *)
Definition svc_params (rdata : bytes) : Res DnsError nat :=
  if (length rdata <? 2)%nat then Err Truncated else
  cursor ← target_loop (S (length rdata)) rdata 2;
  if (length rdata <? cursor)%nat then Err Truncated else Ok cursor.

Definition SvcParams_read (rdata : bytes) (cursor : nat) (previous : option Z) : Res DnsError SvcParam :=
  reader ← ok_or Truncated (Reader_at rdata cursor);
  '(key, reader) ← ok_or Truncated (Reader_u16 reader);
  '(value, reader) ← ok_or Truncated (Reader_vector_u16 reader);
  let end_ := Reader_position reader in
  if match previous with Some previous => key <=? previous | None => false end
  then Err SvcParamsOutOfOrder
  else Ok (mkParam key value (cursor, end_)).

(** [for param in svc_params(rdata)? { let param = param?; body }]: each round
    advances the cursor, so the length is fuel enough. *)
Fixpoint params_loop {S_ : Type} (fuel : nat) (rdata : bytes) (cursor : nat) (previous : option Z)
    (body : S_ -> SvcParam -> Res DnsError S_) (state : S_) : Res DnsError S_ :=
  match fuel with
  | O => Panic
  | S fuel =>
      if (length rdata <=? cursor)%nat then Ok state else
      param ← SvcParams_read rdata cursor previous;
      state ← body state param;
      params_loop fuel rdata (sp_at param).2 (Some (sp_key param)) body state
  end.

Definition for_params {S_ : Type} (rdata : bytes) (body : S_ -> SvcParam -> Res DnsError S_) (state : S_)
  : Res DnsError S_ :=
  cursor ← svc_params rdata;
  params_loop (S (length rdata)) rdata cursor None body state.

Definition ech_param (rdata : bytes) : Res DnsError (option Range) :=
  for_params rdata
    (fun found param => Ok (if sp_key param =? SVCPARAM_ECH then Some (sp_at param) else found)) None.

Definition H3 : bytes := [104; 51].

(** [identifier == b"h3" || identifier.starts_with(b"h3-")]. *)
Definition is_h3 (identifier : bytes) : bool :=
  bool_decide (identifier = H3) || bool_decide (take 3 identifier = H3 ++ [45]).

Fixpoint alpn_loop (fuel : nat) (value : bytes) (cursor : nat) : Res DnsError bool :=
  match fuel with
  | O => Panic
  | S fuel =>
      if (length value <=? cursor)%nat then Ok false else
      length_ ← or_panic (value !! cursor);
      if length_ =? 0 then Err EmptyAlpnIdentifier else
      let length_ := Z.to_nat length_ in
      identifier ← ok_or Truncated (get_range value (cursor + 1) (cursor + 1 + length_));
      if is_h3 identifier then Ok true else alpn_loop fuel value (cursor + (1 + length_))
  end.

Definition alpn_offers_h3 (value : bytes) : Res DnsError bool := alpn_loop (S (length value)) value 0.

(** One parameter of the scan of [h3_alpn_param]; the guard of the first arm runs
    only for its key. *)
Definition h3_body (found : option Range) (param : SvcParam) : Res DnsError (option Range) :=
  if sp_key param =? SVCPARAM_ALPN then
    offers ← alpn_offers_h3 (sp_value param);
    Ok (if (offers : bool) then Some (sp_at param) else found)
  else if sp_key param =? SVCPARAM_NO_DEFAULT_ALPN then
    Ok ((fun range : Range => (range.1, (sp_at param).2)) <$> found)
  else Ok found.

Definition h3_alpn_param (rdata : bytes) : Res DnsError (option Range) := for_params rdata h3_body None.

(** ** Uncompressed names are local

    [Message::parse] compares the bytes a question name occupies with the wire
    length of what it decodes to.  A name read through a pointer always fails that
    test, so an accepted question stands on its own bytes and can be echoed. *)

(** Wire bytes of the labels of a name, without the terminator. *)
Definition enc_len (n : Name) : nat := if Name_is_root n then 0 else S (length n).

Lemma wire_len_enc n : Name_wire_len n = S (enc_len n).
Proof. unfold Name_wire_len, enc_len. destruct (Name_is_root n); lia. Qed.

Definition pushed (name label : bytes) : bytes :=
  (if ((if Name_is_root name then 0 else 1) =? 1)%nat then name ++ [DOT] else name)
  ++ (to_ascii_lowercase <$> label).

Lemma enc_len_pushed name label :
  (0 < length label)%nat -> enc_len (pushed name label) = (enc_len name + 1 + length label)%nat.
Proof.
  intros Hl. unfold enc_len, pushed. destruct name as [|b name]; cbn [Name_is_root Nat.eqb app].
  - destruct label; cbn [fmap list_fmap Name_is_root length] in *; [lia|]. rewrite length_fmap. lia.
  - cbn [app Name_is_root length]. rewrite !length_app, length_fmap. cbn. lia.
Qed.

Lemma read_loop_grows fuel message name reader consumed n e :
  bytes_ok message -> r_bytes reader = message ->
  read_loop fuel message name reader consumed = Ok (n, e) ->
  (n = name \/ (enc_len name + 2 <= enc_len n)%nat) /\
  match consumed with Some c => e = c | None => (r_at reader < e)%nat end.
Proof.
  intros Hok. revert name reader consumed. induction fuel as [|fuel IH]; intros name reader consumed Hr; [done|].
  cbn [read_loop]. destruct (Reader_u8 reader) as [[b r1]|] eqn:E1; [|done]. cbn [ok_or mbind Res_bind].
  assert (byte_ok b) as Hb by (apply (Reader_uint_range 1 reader b r1); [by rewrite Hr|done]).
  unfold uint_ok in Hb. apply Reader_uint_Some in E1 as (_ & _ & ->). destruct (_ =? 0).
  - destruct (Z.eqb_spec b 0) as [_|Hb0].
    { intros [= <- <-]. split; [by left|]. destruct consumed; cbn; [done|lia]. }
    destruct (Reader_take _ _) as [[label r2]|] eqn:E2; [|done]. cbn [ok_or mbind Res_bind].
    apply Reader_take_Some in E2 as (Hb2 & Hlabel & ->). cbn [r_at r_bytes] in *.
    assert (length label = Z.to_nat b) as Hlen by (rewrite Hlabel, length_take, length_drop; lia).
    destruct (any _ label); [done|]. destruct (_ <? _)%nat eqn:Et; [done|]. fold (pushed name label).
    intros [Hn He]%IH; [|done]. cbn [r_at] in *.
    split; [|destruct consumed; lia]. right.
    pose proof (enc_len_pushed name label ltac:(lia)). destruct Hn as [->|Hn]; lia.
  - destruct (_ =? 0xc0); [|done].
    destruct (Reader_u8 _) as [[low r2]|] eqn:E2; [|done]. cbn [ok_or mbind Res_bind].
    apply Reader_uint_Some in E2 as (_ & _ & ->). cbn [r_at r_bytes] in *.
    destruct (_ <=? _)%nat; [done|]. unfold Reader_at. destruct (_ <=? _)%nat; [|done].
    cbn [ok_or mbind Res_bind]. intros [Hn ->]%IH; [|done]. split; [done|].
    destruct consumed; cbn; unfold Reader_position; cbn; lia.
Qed.

Lemma slice_cons {A} a b (l : list A) x :
  l !! a = Some x -> (a < b)%nat -> slice a b l = x :: slice (S a) b l.
Proof.
  intros Hx Hb. unfold slice. rewrite (drop_S l x a Hx).
  replace (b - a)%nat with (S (b - S a)) by lia. done.
Qed.

Lemma slice_app {A} a m b (l : list A) :
  (a <= m <= b)%nat -> slice a b l = slice a m l ++ slice m b l.
Proof.
  intros Hm. unfold slice. replace (b - a)%nat with ((m - a) + (b - m))%nat by lia.
  rewrite <- (take_take_drop (drop a l)). f_equal. rewrite drop_drop. do 2 f_equal. lia.
Qed.

Lemma Reader_u8_lookup message c b r :
  Reader_u8 (mkReader message c) = Some (b, r) -> message !! c = Some b /\ r = mkReader message (c + 1).
Proof.
  intros (H1 & Hbv & ->)%Reader_uint_Some. cbn [r_at r_bytes] in *. split; [|done].
  destruct (lookup_lt_is_Some_2 message c) as [b' Hc]; [lia|].
  rewrite (drop_S message b' c Hc) in Hbv. cbn in Hbv. rewrite Hc. f_equal. unfold be_value in Hbv. cbn in Hbv. rewrite take_0 in Hbv. cbn in Hbv. lia.
Qed.

(** A pointer-free reading depends on the bytes it consumes alone. *)
Lemma read_loop_local fuel message name c n e :
  bytes_ok message -> read_loop fuel message name (mkReader message c) None = Ok (n, e) ->
  (e - c + enc_len name = S (enc_len n))%nat ->
  (e <= length message)%nat /\
  forall pre post fuel', (enc_len n < fuel' + enc_len name)%nat ->
    let m' := pre ++ slice c e message ++ post in
    read_loop fuel' m' name (mkReader m' (length pre)) None = Ok (n, (length pre + (e - c))%nat).
Proof.
  intros Hok. revert name c. induction fuel as [|fuel IH]; intros name c; [done|].
  intros Hread Hlen. pose proof (read_loop_grows _ _ _ (mkReader message c) _ _ _ Hok eq_refl Hread) as [_ Hlt].
  cbn [r_at] in Hlt. cbn [read_loop] in Hread.
  destruct (Reader_u8 _) as [[b r1]|] eqn:E1; [|done]. cbn [ok_or mbind Res_bind] in Hread.
  assert (byte_ok b) as Hb by (by apply (Reader_uint_range 1 _ b r1) in E1).
  apply Reader_u8_lookup in E1 as [Hc ->]. pose proof (lookup_lt_Some _ _ _ Hc) as Hcl.
  destruct (Z.land b 0xc0 =? 0) eqn:El.
  - destruct (b =? 0) eqn:E0.
    { injection Hread as <- <-. cbn [default from_option id Reader_position r_at] in *.
      unfold Reader_position in *. cbn [r_at] in *. split; [lia|].
      intros pre post [|fuel'] Hf; [lia|]. cbv zeta. rewrite (slice_cons c _ message b Hc) by lia.
      cbn [app read_loop]. rewrite Reader_u8_app by done. cbn [ok_or mbind Res_bind].
      rewrite El, E0. cbn. do 2 f_equal. lia. }
    destruct (Reader_take _ _) as [[label r2]|] eqn:E2; [|done]. cbn [ok_or mbind Res_bind] in Hread.
    apply Reader_take_Some in E2 as (H2 & Hlabel & ->). cbn [r_at r_bytes] in *.
    unfold uint_ok in Hb. reflect.
    assert (length label = Z.to_nat b) as Hll by (rewrite Hlabel, length_take, length_drop; lia).
    destruct (any _ label) eqn:Ed; [done|]. destruct (_ <? _)%nat eqn:Et; [done|].
    fold (pushed name label) in Hread.
    pose proof (read_loop_grows _ _ _ (mkReader message _) _ _ _ Hok eq_refl Hread) as [Hgrow Hlt2].
    cbn [r_at] in Hlt2.
    pose proof (enc_len_pushed name label ltac:(lia)) as Hpush.
    destruct (IH _ _ Hread) as [Hemax Hloc]; [lia|]. split; [done|].
    intros pre post [|fuel'] Hf; [destruct Hgrow as [->|]; lia|]. cbv zeta.
    rewrite (slice_cons c e message b Hc) by lia.
    rewrite (slice_app (S c) (c + 1 + Z.to_nat b) e message) by lia.
    assert (slice (S c) (c + 1 + Z.to_nat b) message = label) as ->.
    { rewrite Hlabel. unfold slice. f_equal; [lia|]. f_equal. lia. }
    cbn [app]. rewrite <- app_assoc. cbn [read_loop].
    rewrite Reader_u8_app by done. cbn [ok_or mbind Res_bind]. rewrite (proj2 (Z.eqb_eq _ _) El).
    rewrite (proj2 (Z.eqb_neq b 0)) by done. rewrite <- Hll.
    set (tail_ := slice (c + 1 + length label) e message ++ post).
    replace (pre ++ b :: label ++ tail_) with ((pre ++ [b]) ++ label ++ tail_) by (by rewrite <- app_assoc).
    replace (length pre + 1)%nat with (length (pre ++ [b])) by (rewrite length_app; done).
    rewrite Reader_take_app. cbn [ok_or mbind Res_bind]. rewrite Ed, Et.
    fold (pushed name label).
    specialize (Hloc ((pre ++ [b]) ++ label) post fuel' ltac:(destruct Hgrow as [->|]; lia)). cbv zeta in Hloc.
    rewrite <- Hll in Hloc. fold tail_ in Hloc.
    rewrite <- (app_assoc (pre ++ [b]) label) in Hloc.
    replace (length (pre ++ [b]) + length label)%nat with (length ((pre ++ [b]) ++ label)) by (rewrite length_app; done).
    rewrite Hloc. do 2 f_equal. rewrite !length_app. cbn [length]. lia.
  - destruct (_ =? 0xc0); [|done]. destruct (Reader_u8 _) as [[low r2]|] eqn:E2; [|done].
    cbn [ok_or mbind Res_bind] in Hread. apply Reader_u8_lookup in E2 as [_ ->].
    destruct (_ <=? _)%nat; [done|]. unfold Reader_at in Hread. destruct (_ <=? _)%nat; [|done].
    cbn [ok_or mbind Res_bind] in Hread.
    apply (read_loop_grows _ _ _ (mkReader message _)) in Hread as [Hn He]; [|done|done].
    cbn in He. unfold Reader_position in He. cbn in He. exfalso. destruct Hn as [->|]; lia.
Qed.

Lemma Name_read_local bs at_ n :
  bytes_ok bs -> Name_read bs at_ = Ok (n, Name_wire_len n) ->
  (at_ + Name_wire_len n <= length bs)%nat /\
  forall pre post,
    Name_read (pre ++ slice at_ (at_ + Name_wire_len n) bs ++ post) (length pre) = Ok (n, Name_wire_len n).
Proof.
  intros Hok Hread. pose proof (Name_read_ok bs at_ Hok) as Hn. rewrite Hread in Hn.
  destruct Hn as [[Hmax _] Hle]. split; [done|]. intros pre post.
  unfold Name_read in Hread. unfold Reader_at in Hread.
  destruct (at_ <=? length bs)%nat eqn:Ea; [|done]. cbn [ok_or mbind Res_bind] in Hread.
  destruct (read_loop _ _ _ _ _) as [[n' e]| |] eqn:Hl; [|done|done]. cbn [mbind Res_bind] in Hread.
  destruct (at_ <=? e)%nat eqn:Ee; [|done]. reflect. injection Hread as -> He.
  assert (e = at_ + Name_wire_len n)%nat as -> by lia.
  destruct (read_loop_local _ _ _ _ _ _ Hok Hl) as [_ Hloc].
  { rewrite wire_len_enc. cbn. lia. }
  unfold Name_read, Reader_at. rewrite (proj2 (Nat.leb_le _ _)) by (rewrite length_app; lia).
  cbn [ok_or mbind Res_bind]. rewrite Hloc.
  - cbn [mbind Res_bind]. rewrite (proj2 (Nat.leb_le _ _)) by lia. do 2 f_equal. lia.
  - unfold read_fuel, enc_len, MAX_NAME_CHARS in *. destruct (Name_is_root n); lia.
Qed.

Lemma Reader_u16_app pre v post :
  u16_ok v ->
  Reader_u16 (mkReader (pre ++ be_bytes 2 v ++ post) (length pre))
  = Some (v, mkReader (pre ++ be_bytes 2 v ++ post) (length pre + 2)).
Proof. intros Hv. apply (Reader_uint_app 2 pre v post). exact Hv. Qed.

(** Header fields followed by anything. *)
Definition header_bytes (id flags qd an ns ar : Z) : bytes :=
  be_bytes 2 id ++ be_bytes 2 flags ++ be_bytes 2 qd ++ be_bytes 2 an ++ be_bytes 2 ns ++ be_bytes 2 ar.

Lemma length_header_bytes id flags qd an ns ar : length (header_bytes id flags qd an ns ar) = 12%nat.
Proof. done. Qed.

(** A big-endian field at the cursor reads back, and the rest follows. *)
Lemma parse_fields bs k v rest :
  u16_ok v -> drop k bs = be_bytes 2 v ++ rest -> (k <= length bs)%nat ->
  Reader_u16 (mkReader bs k) = Some (v, mkReader bs (k + 2)) /\ drop (k + 2) bs = rest.
Proof.
  intros Hv Hd Hk. assert (bs = take k bs ++ be_bytes 2 v ++ rest) as E by (by rewrite <- Hd, take_drop).
  assert (length (take k bs) = k) as Lk by (rewrite length_take; lia). split.
  - pose proof (Reader_u16_app (take k bs) v rest Hv) as H. rewrite <- E, Lk in H. done.
  - rewrite <- drop_drop, Hd. change 2%nat with (length (be_bytes 2 v)). apply drop_app_length.
Qed.

Lemma Reader_uint_inv n bs k v r :
  (0 < n)%nat -> bytes_ok bs -> Reader_uint n (mkReader bs k) = Some (v, r) ->
  0 <= v < 2 ^ (8 * Z.of_nat n) /\ (k + n <= length bs)%nat /\ be_bytes n v = slice k (k + n) bs /\
  r = mkReader bs (k + n).
Proof.
  intros Hn Hok E. assert (0 <= v < 2 ^ (8 * Z.of_nat n)) as Hv by (by apply Reader_uint_range in E).
  apply Reader_uint_Some in E as (Hk & -> & ->). cbn [r_bytes r_at] in *.
  split_and!; [lia|lia|lia| |done].
  replace (slice k (k + n) bs) with (take n (drop k bs)) by (unfold slice; f_equal; lia).
  assert (length (take n (drop k bs)) = n) as L by (rewrite length_take, length_drop; lia).
  rewrite <- L at 1. apply be_bytes_be_value. by apply Forall_take, Forall_drop.
Qed.

Lemma Reader_u16_inv bs k v r :
  bytes_ok bs -> Reader_u16 (mkReader bs k) = Some (v, r) ->
  u16_ok v /\ (k + 2 <= length bs)%nat /\ be_bytes 2 v = slice k (k + 2) bs /\ r = mkReader bs (k + 2).
Proof. intros Hok. apply Reader_uint_inv; [lia|done]. Qed.

(** What an accepted message is: a twelve-byte header, then a question whose bytes
    read back as the same question wherever they are put. *)
Lemma Message_parse_ok bs m :
  bytes_ok bs -> Message_parse bs = Ok m ->
  m_bytes m = bs /\ name_ok (q_name (m_question m)) /\
  u16_ok (m_id m) /\ u16_ok (m_flags m) /\ u16_ok (m_answer_count m) /\
  bytes_ok (m_question_bytes m) /\
  m_answers_at m = (12 + length (m_question_bytes m))%nat /\ (m_answers_at m <= length bs)%nat /\
  exists qname qtype qclass,
    m_question_bytes m = qname ++ be_bytes 2 qtype ++ be_bytes 2 qclass /\
    u16_ok qtype /\ u16_ok qclass /\
    m_question m = mkQuestion (q_name (m_question m)) (RecordType_from_wire qtype) qclass /\
    length qname = Name_wire_len (q_name (m_question m)) /\
    forall pre post, Name_read (pre ++ qname ++ post) (length pre)
                     = Ok (q_name (m_question m), Name_wire_len (q_name (m_question m))).
Proof.
  intros Hok. unfold Message_parse, Reader_new.
  destruct (Reader_u16 _) as [[id r1]|] eqn:E1; [|done]. cbn [ok_or mbind Res_bind].
  apply Reader_u16_inv in E1 as (R1 & _ & _ & ->); [|done].
  destruct (Reader_u16 _) as [[flags r2]|] eqn:E2; [|done]. cbn [ok_or mbind Res_bind].
  apply Reader_u16_inv in E2 as (R2 & _ & _ & ->); [|done].
  destruct (Reader_u16 _) as [[qd r3]|] eqn:E3; [|done]. cbn [ok_or mbind Res_bind].
  apply Reader_u16_inv in E3 as (_ & _ & _ & ->); [|done].
  destruct (Reader_u16 _) as [[an r4]|] eqn:E4; [|done]. cbn [ok_or mbind Res_bind].
  apply Reader_u16_inv in E4 as (R4 & _ & _ & ->); [|done].
  destruct (Reader_u16 _) as [[ns r5]|] eqn:E5; [|done]. cbn [ok_or mbind Res_bind].
  apply Reader_u16_inv in E5 as (_ & _ & _ & ->); [|done].
  destruct (Reader_u16 _) as [[ar r6]|] eqn:E6; [|done]. cbn [ok_or mbind Res_bind].
  apply Reader_u16_inv in E6 as (_ & H6 & _ & ->); [|done]. cbn [Nat.add] in *.
  destruct (negb (_ =? 0)); [done|]. destruct (qd =? 0); [done|]. destruct (negb (qd =? 1)); [done|].
  unfold Reader_position. cbn [r_at].
  destruct (Name_read bs 12) as [[n len]| |] eqn:En; [|done|done]. cbn [mbind Res_bind].
  destruct (negb _) eqn:Ew; [done|]. reflect. subst len.
  destruct (Name_read_local bs 12 n Hok En) as [Hle Hloc].
  pose proof (Name_read_ok bs 12 Hok) as Hn. rewrite En in Hn. destruct Hn as [Hn _].
  set (w := Name_wire_len n) in *. unfold Reader_skip.
  destruct (Reader_take _ w) as [[qname r7]|] eqn:E7; [|done]. cbn [fmap option_fmap option_map ok_or mbind Res_bind snd].
  apply Reader_take_Some in E7 as (_ & _ & ->). cbn [r_bytes r_at].
  destruct (Reader_u16 _) as [[qtype r8]|] eqn:E8; [|done]. cbn [ok_or mbind Res_bind].
  apply Reader_u16_inv in E8 as (R8 & H8 & V8 & ->); [|done].
  destruct (Reader_u16 _) as [[qclass r9]|] eqn:E9; [|done]. cbn [ok_or mbind Res_bind].
  apply Reader_u16_inv in E9 as (R9 & H9 & V9 & ->); [|done].
  cbn [r_bytes r_at]. rewrite get_range_slice by lia. cbn [or_panic mbind Res_bind].
  intros [= <-]. cbn [m_bytes m_id m_flags m_answer_count m_question m_question_bytes m_answers_at q_name].
  rewrite length_slice by lia. split_and!; try done; try lia; [by apply slice_ok|].
  exists (slice 12 (12 + w) bs), qtype, qclass. split_and!; try done.
  - rewrite V8, V9, <- !slice_app by lia. done.
  - rewrite length_slice by lia. lia.
Qed.

(** Parsing a message laid out around an uncompressed question. *)
Lemma Message_parse_echo id flags an qname n qtype qclass rest :
  u16_ok id -> u16_ok flags -> u16_ok an -> Z.land flags OPCODE_MASK = 0 ->
  u16_ok qtype -> u16_ok qclass -> length qname = Name_wire_len n ->
  (forall pre post, Name_read (pre ++ qname ++ post) (length pre) = Ok (n, Name_wire_len n)) ->
  let qb := qname ++ be_bytes 2 qtype ++ be_bytes 2 qclass in
  let bs := header_bytes id flags 1 an 0 0 ++ qb ++ rest in
  Message_parse bs = Ok (mkMessage bs id flags an 0 0 (mkQuestion n (RecordType_from_wire qtype) qclass)
                           qb (12 + length qb)).
Proof.
  intros Hid Hfl Han Hop Hqt Hqc Hlen Hread qb bs. unfold Message_parse, Reader_new.
  assert (length bs = 12 + length qb + length rest)%nat as Lbs
    by (unfold bs; rewrite !length_app, length_header_bytes; lia).
  assert (length qb = Name_wire_len n + 4)%nat as Lqb
    by (unfold qb; rewrite !length_app, !length_be_bytes; lia).
  set (tail_ := qb ++ rest) in *.
  destruct (parse_fields bs 0 id (be_bytes 2 flags ++ be_bytes 2 1 ++ be_bytes 2 an ++ be_bytes 2 0 ++ be_bytes 2 0 ++ tail_) Hid)
    as [-> D1]; [unfold bs, header_bytes; by rewrite <- !app_assoc|lia|]. cbn [ok_or mbind Res_bind Nat.add].
  destruct (parse_fields bs 2 flags _ Hfl D1) as [-> D2]; [lia|]. cbn [ok_or mbind Res_bind Nat.add].
  destruct (parse_fields bs 4 1 _ ltac:(done) D2) as [-> D3]; [lia|]. cbn [ok_or mbind Res_bind Nat.add].
  destruct (parse_fields bs 6 an _ Han D3) as [-> D4]; [lia|]. cbn [ok_or mbind Res_bind Nat.add].
  destruct (parse_fields bs 8 0 _ ltac:(done) D4) as [-> D5]; [lia|]. cbn [ok_or mbind Res_bind Nat.add].
  destruct (parse_fields bs 10 0 _ ltac:(done) D5) as [-> D6]; [lia|]. cbn [ok_or mbind Res_bind Nat.add].
  rewrite Hop. cbn [Z.eqb Pos.eqb negb]. unfold Reader_position. cbn [r_at Nat.add].
  assert (bs = header_bytes id flags 1 an 0 0 ++ qname ++ (be_bytes 2 qtype ++ be_bytes 2 qclass ++ rest)) as Ebs
    by (unfold bs, tail_, qb; by rewrite <- !app_assoc).
  pose proof (Hread (header_bytes id flags 1 an 0 0) (be_bytes 2 qtype ++ be_bytes 2 qclass ++ rest)) as Hn.
  rewrite <- Ebs, length_header_bytes in Hn. rewrite Hn. cbn [mbind Res_bind].
  rewrite Nat.eqb_refl. cbn [negb]. unfold Reader_skip.
  assert (Reader_take (mkReader bs 12) (Name_wire_len n) = Some (qname, mkReader bs (12 + Name_wire_len n))) as ->.
  { pose proof (Reader_take_app (header_bytes id flags 1 an 0 0) qname (be_bytes 2 qtype ++ be_bytes 2 qclass ++ rest)) as Ht.
    rewrite <- Ebs, Hlen, length_header_bytes in Ht. done. }
  cbn [fmap option_fmap option_map snd ok_or mbind Res_bind].
  destruct (parse_fields bs (12 + Name_wire_len n) qtype (be_bytes 2 qclass ++ rest) Hqt) as [-> D7]; [|lia|].
  { rewrite Ebs, <- drop_drop, (drop_app_length' (header_bytes id flags 1 an 0 0)) by done.
    rewrite drop_app_length' by done. done. }
  cbn [ok_or mbind Res_bind]. destruct (parse_fields bs _ qclass _ Hqc D7) as [-> _]; [lia|].
  cbn [ok_or mbind Res_bind r_at]. rewrite get_range_slice by lia. cbn [or_panic mbind Res_bind].
  assert (slice 12 (12 + Name_wire_len n + 2 + 2) bs = qb) as ->.
  { unfold slice, bs, tail_. rewrite (drop_app_length' (header_bytes id flags 1 an 0 0)) by done.
    apply take_app_length'. lia. }
  do 2 f_equal. lia.
Qed.

(** ** Records on the wire *)

Lemma uint_field n bs k v rest :
  (0 < n)%nat -> 0 <= v < 2 ^ (8 * Z.of_nat n) -> drop k bs = be_bytes n v ++ rest -> (k <= length bs)%nat ->
  Reader_uint n (mkReader bs k) = Some (v, mkReader bs (k + n)) /\ drop (k + n) bs = rest /\
  (k + n <= length bs)%nat.
Proof.
  intros Hn Hv Hd Hk. assert (bs = take k bs ++ be_bytes n v ++ rest) as E by (by rewrite <- Hd, take_drop).
  assert (length (take k bs) = k) as Lk by (rewrite length_take; lia). split_and!.
  - pose proof (Reader_uint_app n (take k bs) v rest Hv) as H. rewrite <- E, Lk in H. done.
  - rewrite <- drop_drop, Hd. rewrite drop_app_length' by (by rewrite length_be_bytes). done.
  - apply (f_equal length) in E. rewrite !length_app, length_be_bytes in E. lia.
Qed.

Lemma bytes_field bs k xs rest :
  drop k bs = xs ++ rest -> (k <= length bs)%nat ->
  Reader_take (mkReader bs k) (length xs) = Some (xs, mkReader bs (k + length xs)).
Proof.
  intros Hd Hk. assert (bs = take k bs ++ xs ++ rest) as E by (by rewrite <- Hd, take_drop).
  assert (length (take k bs) = k) as Lk by (rewrite length_take; lia).
  pose proof (Reader_take_app (take k bs) xs rest) as H. rewrite <- E, Lk in H. done.
Qed.

Lemma from_to_wire w : RecordType_from_wire (RecordType_to_wire (RecordType_from_wire w)) = RecordType_from_wire w.
Proof.
  unfold RecordType_from_wire.
  destruct (w =? 1) eqn:E1; [done|]. destruct (w =? 28) eqn:E2; [done|].
  destruct (w =? 64) eqn:E3; [done|]. destruct (w =? 65) eqn:E4; [done|].
  cbn [RecordType_to_wire]. by rewrite E1, E2, E3, E4.
Qed.

(** Ranges of a record that came off the wire. *)
Record record_ok (r : ResourceRecord) : Prop := {
  ro_name : name_ok (rr_name r);
  ro_type : RecordType_from_wire (RecordType_to_wire (rr_rtype r)) = rr_rtype r;
  ro_type_range : u16_ok (RecordType_to_wire (rr_rtype r));
  ro_class : u16_ok (rr_class r);
  ro_ttl : u32_ok (rr_ttl r);
  ro_rdata : bytes_ok (rr_rdata r);
}.

Definition wire_record (ls : list bytes) (r : ResourceRecord) (data : bytes) : bytes :=
  encode ls ++ be_bytes 2 (RecordType_to_wire (rr_rtype r)) ++ be_bytes 2 (rr_class r) ++
  be_bytes 4 (rr_ttl r) ++ be_bytes 2 (Z.of_nat (length data)) ++ data.

Lemma Answers_read_wire pre ls r data post :
  record_ok r -> rr_name r = join ls -> Forall label_ok ls -> Z.of_nat (length data) <= U16_MAX ->
  Answers_read (pre ++ wire_record ls r data ++ post) (length pre)
  = Ok (mkRecord (rr_name r) (rr_rtype r) (rr_class r) (rr_ttl r) data,
        (length pre + length (wire_record ls r data))%nat).
Proof.
  intros [[Hmax _] Ht Htr Hc Httl _] Hname Hls Hlen. unfold U16_MAX in Hlen.
  unfold Answers_read, Reader_vector_u16, Reader_u32, Reader_u16. set (bs := pre ++ _ ++ post).
  set (body := be_bytes 2 (RecordType_to_wire (rr_rtype r)) ++ be_bytes 2 (rr_class r) ++
    be_bytes 4 (rr_ttl r) ++ be_bytes 2 (Z.of_nat (length data)) ++ data ++ post).
  assert (bs = pre ++ encode ls ++ body) as Ebs
    by (unfold bs, wire_record, body; by rewrite <- !app_assoc).
  assert (Name_read bs (length pre) = Ok (rr_name r, Name_wire_len (rr_name r))) as ->
    by (rewrite Ebs, Hname; apply Name_read_encode; [done|by rewrite <- Hname]).
  cbn [mbind Res_bind]. pose proof (length_encode_join ls Hls) as Hel. rewrite <- Hname in Hel.
  rewrite <- Hel. set (k := (length pre + length (encode ls))%nat).
  assert (k <= length bs)%nat as Hk by (rewrite Ebs, !length_app; lia).
  unfold Reader_at. rewrite (proj2 (Nat.leb_le _ _)) by done. cbn [ok_or mbind Res_bind].
  assert (drop k bs = body) as D0.
  { rewrite Ebs. unfold k. rewrite <- drop_drop, drop_app_length, drop_app_length. done. }
  destruct (uint_field 2 bs k _ _ ltac:(lia) Htr D0 Hk) as (-> & D1 & K1). cbn [ok_or mbind Res_bind].
  destruct (uint_field 2 bs _ _ _ ltac:(lia) Hc D1 K1) as (-> & D2 & K2). cbn [ok_or mbind Res_bind].
  destruct (uint_field 4 bs _ _ _ ltac:(lia) Httl D2 K2) as (-> & D3 & K3). cbn [ok_or mbind Res_bind].
  destruct (uint_field 2 bs (k + 2 + 2 + 4) (Z.of_nat (length data)) (data ++ post) ltac:(lia)) as (-> & D4 & K4);
    [change (2 ^ (8 * Z.of_nat 2)) with 65536; lia|done|done|]. cbn [mbind option_bind].
  rewrite Nat2Z.id, (bytes_field bs _ data post D4 K4). cbn [ok_or mbind Res_bind].
  rewrite Ht. do 2 f_equal. unfold Reader_position, k, wire_record. cbn [r_at].
  rewrite !length_app, !length_be_bytes. lia.
Qed.

(** A record read from a message has wire ranges, and reading moves forward inside
    the message. *)
Lemma Answers_read_ok bs cursor :
  bytes_ok bs ->
  match Answers_read bs cursor with
  | Ok (r, next) => record_ok r /\ (next <= length bs)%nat /\ Z.of_nat (length (rr_rdata r)) <= U16_MAX
  | Err _ => True
  | Panic => False
  end.
Proof.
  intros Hok. unfold Answers_read. pose proof (Name_read_ok bs cursor Hok) as Hn.
  destruct (Name_read bs cursor) as [[n len]| |]; [|done|done]. destruct Hn as [Hn _]. cbn [mbind Res_bind].
  unfold Reader_at. destruct (_ <=? _)%nat; [|done]. cbn [ok_or mbind Res_bind].
  destruct (Reader_u16 _) as [[ty r1]|] eqn:E1; [|done]. cbn [ok_or mbind Res_bind].
  apply Reader_u16_inv in E1 as (R1 & _ & _ & ->); [|done].
  destruct (Reader_u16 _) as [[cl r2]|] eqn:E2; [|done]. cbn [ok_or mbind Res_bind].
  apply Reader_u16_inv in E2 as (R2 & _ & _ & ->); [|done].
  destruct (Reader_u32 _) as [[ttl r3]|] eqn:E3; [|done]. cbn [ok_or mbind Res_bind].
  apply Reader_uint_inv in E3 as (R3 & _ & _ & ->); [|lia|done].
  unfold Reader_vector_u16. destruct (Reader_u16 _) as [[dl r4]|] eqn:E4; [|done]. cbn [mbind option_bind].
  apply Reader_u16_inv in E4 as (R4 & H4 & _ & ->); [|done].
  destruct (Reader_take _ _) as [[data r5]|] eqn:E5; [|done]. cbn [ok_or mbind Res_bind].
  apply Reader_take_Some in E5 as (H5 & Hdata & ->). cbn [r_bytes r_at] in *. unfold uint_ok in *.
  split_and!.
  - split; cbn; unfold uint_ok; try done; [apply from_to_wire| |].
    + unfold RecordType_from_wire. destruct (ty =? 1); [done|]. destruct (ty =? 28); [done|].
      destruct (ty =? 64); [done|]. by destruct (ty =? 65).
    + subst data. by apply Forall_take, Forall_drop.
  - unfold Reader_position. cbn. lia.
  - cbn. subst data. rewrite length_take. unfold U16_MAX. lia.
Qed.

(** The items of a section of well-formed records, one after the other. *)
Lemma Answers_items_wire pre (rs : list (list bytes * ResourceRecord * bytes)) post :
  Forall (fun '(ls, r, data) => record_ok r /\ rr_name r = join ls /\ Forall label_ok ls /\
            Z.of_nat (length data) <= U16_MAX) rs ->
  Answers_items (length rs) (pre ++ concat ((fun '(ls, r, data) => wire_record ls r data) <$> rs) ++ post) (length pre)
  = (fun '(_, r, data) => Ok (mkRecord (rr_name r) (rr_rtype r) (rr_class r) (rr_ttl r) data)) <$> rs.
Proof.
  intros Hrs. revert pre. induction Hrs as [|[[ls r] data] rs (Hr & Hn & Hl & Hd) _ IH]; intros pre; [done|].
  cbn [length Answers_items fmap list_fmap concat]. rewrite <- app_assoc.
  rewrite Answers_read_wire by done. f_equal.
  rewrite app_assoc, <- length_app. apply IH.
Qed.
