(* ===== verification/DnsPolicy.v ===== *)
(** Host rules of [src/policy/dns.rs]: exceptions, blocking and inspection indexed
    by suffix, and the plan of an intercepted query. *)

From S2P Require Import Prelude DnsName DnsMessage.
Open Scope Z_scope.

Inductive HostVerdict := Blocked | Allowed | Inspected.

#[global] Instance HostVerdict_eq_dec : EqDecision HostVerdict.
Proof. solve_decision. Defined.

Record Judgment := mkJudgment { j_verdict : HostVerdict; j_matched : option Name }.

Record HostPolicy := mkHostPolicy {
  hp_allowed : gset bytes;
  hp_blocked : gset bytes;
  hp_inspected : gset bytes;
}.

Definition HostPolicy_new : HostPolicy := mkHostPolicy ∅ ∅ ∅.

(** The set with the parsed name added, and whether it was. *)
Definition HostPolicy_insert (set : gset bytes) (name : bytes) : bool * gset bytes :=
  match Name_parse name with
  | Some parsed => if Name_is_root parsed then (false, set) else (true, {[ parsed ]} ∪ set)
  | None => (false, set)
  end.

Definition HostPolicy_block (p : HostPolicy) (name : bytes) : bool * HostPolicy :=
  let '(added, set) := HostPolicy_insert (hp_blocked p) name in
  (added, mkHostPolicy (hp_allowed p) set (hp_inspected p)).
Definition HostPolicy_allow (p : HostPolicy) (name : bytes) : bool * HostPolicy :=
  let '(added, set) := HostPolicy_insert (hp_allowed p) name in
  (added, mkHostPolicy set (hp_blocked p) (hp_inspected p)).
Definition HostPolicy_inspect (p : HostPolicy) (name : bytes) : bool * HostPolicy :=
  let '(added, set) := HostPolicy_insert (hp_inspected p) name in
  (added, mkHostPolicy (hp_allowed p) (hp_blocked p) set).

Record RuleCounts := mkCounts { rc_allowed : nat; rc_blocked : nat; rc_inspected : nat }.

Definition HostPolicy_len (p : HostPolicy) : RuleCounts :=
  mkCounts (size (hp_allowed p)) (size (hp_blocked p)) (size (hp_inspected p)).

Definition HostPolicy_is_empty (p : HostPolicy) : bool :=
  bool_decide (hp_allowed p = ∅) && bool_decide (hp_blocked p = ∅) && bool_decide (hp_inspected p = ∅).

Definition HostPolicy_insert_name (p : HostPolicy) (verdict : HostVerdict) (name : Name) : HostPolicy :=
  match verdict with
  | Allowed => mkHostPolicy ({[ name ]} ∪ hp_allowed p) (hp_blocked p) (hp_inspected p)
  | Blocked => mkHostPolicy (hp_allowed p) ({[ name ]} ∪ hp_blocked p) (hp_inspected p)
  | Inspected => mkHostPolicy (hp_allowed p) (hp_blocked p) ({[ name ]} ∪ hp_inspected p)
  end.

(** The loop over the suffixes: an exception returns at once, the first rule of
    either other kind is remembered. *)
Fixpoint judge_loop (p : HostPolicy) (decided : option Judgment) (suffixes : list bytes) : Judgment :=
  match suffixes with
  | [] => default (mkJudgment Allowed None) decided
  | suffix :: suffixes =>
      if bool_decide (suffix ∈ hp_allowed p) then mkJudgment Allowed (Some suffix) else
      let decided :=
        match decided with
        | Some _ => decided
        | None =>
            if bool_decide (suffix ∈ hp_blocked p) then Some (mkJudgment Blocked (Some suffix))
            else if bool_decide (suffix ∈ hp_inspected p) then Some (mkJudgment Inspected (Some suffix))
            else None
        end in
      judge_loop p decided suffixes
  end.

Definition HostPolicy_judge (p : HostPolicy) (name : Name) : Judgment :=
  judge_loop p None (Name_suffixes name).

Inductive EchPolicy := EchPreserve | EchStrip.
Inductive AlpnPolicy := AlpnPreserve | StripH3.

#[global] Instance EchPolicy_eq_dec : EqDecision EchPolicy.
Proof. solve_decision. Defined.
#[global] Instance AlpnPolicy_eq_dec : EqDecision AlpnPolicy.
Proof. solve_decision. Defined.

Definition ech_policy (verdict : HostVerdict) : EchPolicy :=
  match verdict with Inspected => EchStrip | Allowed | Blocked => EchPreserve end.
Definition alpn_policy (verdict : HostVerdict) : AlpnPolicy :=
  match verdict with Inspected => StripH3 | Allowed | Blocked => AlpnPreserve end.

Record AnswerPolicy := mkAnswerPolicy { ap_ech : EchPolicy; ap_alpn : AlpnPolicy }.

Definition AnswerPolicy_steers (p : AnswerPolicy) : bool :=
  match ap_alpn p with StripH3 => true | AlpnPreserve => false end.

Definition answer_policy (verdict : HostVerdict) : AnswerPolicy :=
  mkAnswerPolicy (ech_policy verdict) (alpn_policy verdict).

Inductive QueryPlan :=
| Refuse (rule : Name)
| Forward (policy : AnswerPolicy).

Definition plan_query (question : Question) (policy : HostPolicy) : QueryPlan :=
  let judgment := HostPolicy_judge policy (q_name question) in
  match j_verdict judgment with
  | Blocked => Refuse (default Name_ROOT (j_matched judgment))
  | verdict => Forward (answer_policy verdict)
  end.

(** ** What a judgment means *)

(** [rule] covers [name]: it is the name or one of its parents. *)
Definition covers (rule : bytes) (name : Name) : Prop :=
  name <> [] /\ (rule = name \/ exists p, name = p ++ DOT :: rule).

(** [rule] is the most specific member of [set] that covers [name]. *)
Definition most_specific (set : gset bytes) (name : Name) (rule : bytes) : Prop :=
  rule ∈ set /\ covers rule name /\
  forall other, other ∈ set -> covers other name -> (length other <= length rule)%nat.

Definition unmatched (set : gset bytes) (name : Name) : Prop := forall rule, rule ∈ set -> ~ covers rule name.

Section Judge.
Context (p : HostPolicy).

(** The loop on any list of suffixes, longest first. *)
Definition judge_spec (decided : option Judgment) (suffixes : list bytes) (j : Judgment) : Prop :=
  (exists s, j = mkJudgment Allowed (Some s) /\ s ∈ suffixes /\ s ∈ hp_allowed p /\
     forall s', s' ∈ suffixes -> s' ∈ hp_allowed p -> (length s' <= length s)%nat) \/
  (forall s, s ∈ suffixes -> s ∉ hp_allowed p) /\
  match decided with
  | Some d => j = d
  | None =>
      (exists s, s ∈ suffixes /\ s ∈ hp_blocked p ∪ hp_inspected p /\
         (forall s', s' ∈ suffixes -> s' ∈ hp_blocked p ∪ hp_inspected p -> (length s' <= length s)%nat) /\
         j = mkJudgment (if bool_decide (s ∈ hp_blocked p) then Blocked else Inspected) (Some s)) \/
      (forall s, s ∈ suffixes -> s ∉ hp_blocked p ∪ hp_inspected p) /\ j = mkJudgment Allowed None
  end.

Lemma judge_loop_ok decided suffixes :
  StronglySorted (fun s s' => length s' < length s)%nat suffixes ->
  judge_spec decided suffixes (judge_loop p decided suffixes).
Proof.
  intros Hs. revert decided. induction Hs as [|s suffixes Hs IH Hlt]; intros decided; cbn [judge_loop].
  { right. split; [set_solver|]. destruct decided; [done|]. right. split; [set_solver|done]. }
  rewrite Forall_forall in Hlt. case_bool_decide as Ha.
  { left. exists s. split_and!; [done|set_solver|done|].
    intros s' [->|Hin]%elem_of_cons _; [lia|]. apply Hlt in Hin. lia. }
  match goal with |- judge_spec _ _ (judge_loop _ ?d _) => set (d' := d) end.
  destruct (IH d') as [(s0 & -> & Hin & Hal & Hmax)|[Hno Hd]].
  { left. exists s0. split_and!; [done|set_solver|done|].
    intros s' [->|Hin']%elem_of_cons ?; [done|by apply Hmax]. }
  right. split; [set_solver|]. destruct decided as [d|]; [done|].
  destruct (decide (s ∈ hp_blocked p ∪ hp_inspected p)) as [Hin|Hin].
  - left. exists s. split_and!; [set_solver|done| |].
    + intros s' [->|Hin']%elem_of_cons _; [lia|]. apply Hlt in Hin'. lia.
    + assert (d' = Some (mkJudgment (if bool_decide (s ∈ hp_blocked p) then Blocked else Inspected) (Some s)))
        as Hd' by (unfold d'; repeat case_bool_decide; try done; set_solver).
      by rewrite Hd' in *.
  - assert (d' = None) as Hd' by (unfold d'; rewrite !bool_decide_false by set_solver; done).
    rewrite Hd' in *. clear d' Hd'.
    destruct Hd as [(s1 & Hin1 & Hm & Hmax & Hj)|[Hno' Hj]].
    + left. exists s1. split_and!; [set_solver|done| |done].
      intros s' [->|Hin']%elem_of_cons ?; [done|by apply Hmax].
    + right. split; [set_solver|done].
Qed.

End Judge.

(** C37: the verdict on a name is the documented precedence, decided by suffix
    matching on whole labels: an exception that covers the name wins whatever its
    specificity; otherwise the most specific of all blocking and inspection rules
    decides, blocking first when both name it; otherwise the name is allowed. *)
Theorem judge_correct p name :
  match HostPolicy_judge p name with
  | mkJudgment Allowed (Some rule) => most_specific (hp_allowed p) name rule
  | mkJudgment Blocked (Some rule) =>
      unmatched (hp_allowed p) name /\
      most_specific (hp_blocked p ∪ hp_inspected p) name rule /\ rule ∈ hp_blocked p
  | mkJudgment Inspected (Some rule) =>
      unmatched (hp_allowed p) name /\
      most_specific (hp_blocked p ∪ hp_inspected p) name rule /\ rule ∉ hp_blocked p
  | mkJudgment Allowed None =>
      unmatched (hp_allowed p) name /\ unmatched (hp_blocked p ∪ hp_inspected p) name
  | mkJudgment _ None => False
  end.
Proof.
  unfold HostPolicy_judge.
  destruct (judge_loop_ok p None (Name_suffixes name) (Name_suffixes_sorted name))
    as [(s & -> & Hin & Ha & Hmax)|[Hno Hd]].
  { split_and!; [done|by apply Name_suffixes_spec|]. intros o ? ?. apply Hmax; [|done].
    by apply Name_suffixes_spec. }
  assert (unmatched (hp_allowed p) name) as Hun.
  { intros r Hr Hc. apply (Hno r); [by apply Name_suffixes_spec|done]. }
  destruct Hd as [(s & Hin & Hm & Hmax & ->)|[Hno' ->]].
  - assert (most_specific (hp_blocked p ∪ hp_inspected p) name s) as Hms.
    { split_and!; [done|by apply Name_suffixes_spec|]. intros o ? ?. apply Hmax; [|done].
      by apply Name_suffixes_spec. }
    by case_bool_decide.
  - split; [done|]. intros r Hr Hc. apply (Hno' r); [by apply Name_suffixes_spec|done].
Qed.

(** a query leaves the device exactly when its name is not blocked; a refused
    one names the rule that blocked it, and ECH and HTTP/3 are stripped from the
    answers exactly of inspected names. *)
Theorem plan_query_correct question p :
  let judgment := HostPolicy_judge p (q_name question) in
  match plan_query question p with
  | Refuse rule => j_verdict judgment = Blocked /\ j_matched judgment = Some rule /\ rule ∈ hp_blocked p
  | Forward policy =>
      j_verdict judgment <> Blocked /\
      (ap_ech policy = EchStrip <-> j_verdict judgment = Inspected) /\
      (ap_alpn policy = StripH3 <-> j_verdict judgment = Inspected) /\
      AnswerPolicy_steers policy = bool_decide (j_verdict judgment = Inspected)
  end.
Proof.
  unfold plan_query.
  assert (match HostPolicy_judge p (q_name question) with
          | mkJudgment Blocked m => exists s, m = Some s /\ s ∈ hp_blocked p | _ => True end) as Hb.
  { unfold HostPolicy_judge.
    destruct (judge_loop_ok p None _ (Name_suffixes_sorted (q_name question)))
      as [(s & -> & _)|[_ [(s & _ & _ & _ & ->)|[_ ->]]]]; try done.
    case_bool_decide; [by exists s|done]. }
  destruct (HostPolicy_judge p (q_name question)) as [[] m]; cbn; try (split_and!; done).
  destruct Hb as (s & -> & Hs). done.
Qed.
