(* ===== verification/DnsResponse.v ===== *)
(** Responses of [src/policy/dns.rs]: the rewriting of an upstream reply under the
    client's transaction with ECH and HTTP/3 parameters removed, and the replies
    written locally.  A writer answers the buffer it wrote and the message length;
    what a failed writer leaves in the buffer is not part of the model. *)

From S2P Require Import Prelude Wire Net DnsName DnsMessage DnsPolicy.
Open Scope Z_scope.

Inductive Upstream := Do53 | DoT | DoH | DoQ.

Inductive Provenance :=
| Provenance_Policy
| Provenance_Upstream (upstream : Upstream)
| Provenance_Cached (upstream : Upstream).

Inductive EchOutcome := EchAbsent | EchPreserved | EchStripped (count : Z).
Inductive AlpnOutcome := AlpnAbsent | AlpnPreserved | AlpnSteered (count : Z).

Record Resolution := mkResolution {
  res_name : Name;
  res_qtype : RecordType;
  res_rcode : Rcode;
  res_answers : Z;
  res_provenance : Provenance;
  res_rule : option Name;
  res_ech : EchOutcome;
  res_alpn : AlpnOutcome;
}.

(** ** RDATA with removals *)

(** The three parts, in wire order. *)
Abbreviation Rdata := (list bytes).

Definition Rdata_verbatim (bs : bytes) : Rdata := [bs; []; []].

Definition Rdata_without (bs : bytes) (cut : Range) : option Rdata :=
  before ← get_to bs cut.1;
  after ← get_from bs cut.2;
  Some [before; after; []].

Definition Rdata_without_both (bs : bytes) (first second : Range) : option Rdata :=
  if (second.1 <? first.2)%nat then None else
  before ← get_to bs first.1;
  between ← get_range bs first.2 second.1;
  after ← get_from bs second.2;
  Some [before; between; after].

Definition Rdata_without_all (bs : bytes) (first second : option Range) : option Rdata :=
  match first, second with
  | None, None => Some (Rdata_verbatim bs)
  | Some only, None | None, Some only => Rdata_without bs only
  | Some left_, Some right_ =>
      if (left_.1 <=? right_.1)%nat then Rdata_without_both bs left_ right_
      else Rdata_without_both bs right_ left_
  end.

Definition Rdata_len (r : Rdata) : nat := sum_list (length <$> r).

(** ** Writers *)

Definition write_header_and_question (out : bytes) (query : Message) (flags : Z)
  : Res DnsError (bytes * nat) :=
  writer ← ok_or OutputTooSmall (Bounded_at out 0);
  let writer := Bounded_u16 (m_id query) writer in
  let writer := Bounded_u16 flags writer in
  let writer := Bounded_u16 1 writer in
  let writer := Bounded_zeros 6 writer in
  let writer := Bounded_bytes (m_question_bytes query) writer in
  ok_or OutputTooSmall (Bounded_finish writer).

Definition write_record (out : bytes) (at_ : nat) (record : ResourceRecord) (rdata : Rdata)
  : Res DnsError (bytes * nat) :=
  length_ ← (if Z.of_nat (Rdata_len rdata) <=? U16_MAX then Ok (Z.of_nat (Rdata_len rdata))
             else Err OutputTooSmall);
  '(out, at_) ← Name_write (rr_name record) out at_;
  writer ← ok_or OutputTooSmall (Bounded_at out at_);
  let writer := Bounded_u16 (RecordType_to_wire (rr_rtype record)) writer in
  let writer := Bounded_u16 (rr_class record) writer in
  let writer := Bounded_u32 (rr_ttl record) writer in
  let writer := Bounded_u16 length_ writer in
  let writer := foldl (fun w part => Bounded_bytes part w) writer rdata in
  ok_or OutputTooSmall (Bounded_finish writer).

Record Rewritten := mkRewritten { rw_len : nat; rw_answers : Z; rw_ech : EchOutcome; rw_alpn : AlpnOutcome }.

(** What the answer loop has done so far. *)
Record AnswerLoop := mkLoop {
  al_out : bytes;
  al_cursor : nat;
  al_answers : Z;
  al_ech_seen : bool;
  al_ech_stripped : Z;
  al_h3_seen : bool;
  al_h3_stripped : Z;
}.

Definition option_keep {A} (keep : bool) (o : option A) : option A := if keep then o else None.
Definition count_some {A} (o : option A) : Z := match o with Some _ => 1 | None => 0 end.
Definition seen {A} (o : option A) : bool := match o with Some _ => true | None => false end.

(** One answer: its parameters found, the cuts the policy asks for, its TTL aged. *)
Definition write_answer (policy : AnswerPolicy) (age : Z) (st : AnswerLoop) (answer : ResourceRecord)
  : Res DnsError AnswerLoop :=
  '(ech_at, h3_at) ← (if carries_svc_params (rr_rtype answer) then
                        ech ← ech_param (rr_rdata answer);
                        h3 ← h3_alpn_param (rr_rdata answer);
                        Ok (ech, h3)
                      else Ok (None, None));
  let ech_cut := option_keep (bool_decide (ap_ech policy = EchStrip)) ech_at in
  let h3_cut := option_keep (bool_decide (ap_alpn policy = StripH3)) h3_at in
  rdata ← ok_or Truncated (Rdata_without_all (rr_rdata answer) h3_cut ech_cut);
  let aged := mkRecord (rr_name answer) (rr_rtype answer) (rr_class answer)
                (saturating_sub (rr_ttl answer) age) (rr_rdata answer) in
  '(out, cursor) ← write_record (al_out st) (al_cursor st) aged rdata;
  Ok (mkLoop out cursor (al_answers st + 1)
        (al_ech_seen st || seen ech_at) (al_ech_stripped st + count_some ech_cut)
        (al_h3_seen st || seen h3_at) (al_h3_stripped st + count_some h3_cut)).

(** [for answer in upstream.answers() { let answer = answer?; ... }]. *)
Fixpoint write_answers (policy : AnswerPolicy) (age : Z) (st : AnswerLoop)
    (answers : list (Res DnsError ResourceRecord)) : Res DnsError AnswerLoop :=
  match answers with
  | [] => Ok st
  | answer :: answers =>
      answer ← answer;
      st ← write_answer policy age st answer;
      write_answers policy age st answers
  end.

Definition flag_if (b : bool) (flag flags : Z) : Z := if b then Z.lor flags flag else flags.

Definition response_flags (query upstream : Message) : Z :=
  let flags := Z.lor (Z.lor FLAG_RESPONSE FLAG_RECURSION_AVAILABLE) (Rcode_to_wire (Message_rcode upstream)) in
  let flags := flag_if (recursion_desired query) FLAG_RECURSION_DESIRED flags in
  let flags := flag_if (checking_disabled query) FLAG_CHECKING_DISABLED flags in
  let flags := flag_if (authentic_data upstream) FLAG_AUTHENTIC_DATA flags in
  flag_if (is_truncated upstream) FLAG_TRUNCATED flags.

Definition write_response_aged (out : bytes) (query upstream : Message) (policy : AnswerPolicy) (age : Z)
  : Res DnsError (bytes * Rewritten) :=
  '(out, cursor) ← write_header_and_question out query (response_flags query upstream);
  st ← write_answers policy age (mkLoop out cursor 0 false 0 false 0) (Message_answers upstream);
  ancount ← ok_or OutputTooSmall (Bounded_at (al_out st) ANCOUNT_AT);
  '(out, _) ← ok_or OutputTooSmall (Bounded_finish (Bounded_u16 (al_answers st) ancount));
  Ok (out, mkRewritten (al_cursor st) (al_answers st)
             (if al_ech_seen st then
                if al_ech_stripped st =? 0 then EchPreserved else EchStripped (al_ech_stripped st)
              else EchAbsent)
             (if al_h3_seen st then
                if al_h3_stripped st =? 0 then AlpnPreserved else AlpnSteered (al_h3_stripped st)
              else AlpnAbsent)).

Definition write_response (out : bytes) (query upstream : Message) (policy : AnswerPolicy)
  : Res DnsError (bytes * Rewritten) := write_response_aged out query upstream policy 0.

(** [slice::first_chunk::<N>]. *)
Definition first_chunk (n : nat) (bs : bytes) : option bytes := get_to bs n.

Fixpoint answer_addresses (answers : list (Res DnsError ResourceRecord)) (out : list IpAddr)
  : Res DnsError (list IpAddr) :=
  match answers with
  | [] => Ok out
  | answer :: answers =>
      answer ← answer;
      let out := match rr_rtype answer with
                 | RT_A => match first_chunk 4 (rr_rdata answer) with
                           | Some octets => out ++ [V4 octets] | None => out end
                 | RT_Aaaa => match first_chunk 16 (rr_rdata answer) with
                              | Some octets => out ++ [V6 octets] | None => out end
                 | _ => out
                 end in
      answer_addresses answers out
  end.

Definition local_flags (query : Message) (extra : Z) : Z :=
  flag_if (recursion_desired query) FLAG_RECURSION_DESIRED
    (Z.lor (Z.lor FLAG_RESPONSE FLAG_RECURSION_AVAILABLE) extra).

Definition write_truncated (out : bytes) (query : Message) : Res DnsError (bytes * nat) :=
  write_header_and_question out query (local_flags query FLAG_TRUNCATED).
Definition write_refusal (out : bytes) (query : Message) : Res DnsError (bytes * nat) :=
  write_header_and_question out query (local_flags query (Rcode_to_wire NameError)).
Definition write_failure (out : bytes) (query : Message) : Res DnsError (bytes * nat) :=
  write_header_and_question out query (local_flags query (Rcode_to_wire ServerFailure)).

Definition write_format_error (out query : bytes) : Res DnsError (bytes * nat) :=
  id ← ok_or Truncated (first_chunk 2 query);
  flags ← ok_or Truncated (get_range query 2 4);
  let flags := Z.lor (Z.lor (Z.land (be_value flags) FLAG_RECURSION_DESIRED) FLAG_RESPONSE)
                 (Rcode_to_wire FormatError) in
  writer ← ok_or OutputTooSmall (Bounded_at out 0);
  ok_or OutputTooSmall
    (Bounded_finish (Bounded_zeros (HEADER_BYTES - 4) (Bounded_u16 flags (Bounded_bytes id writer)))).

(** ** What the writers write *)

Lemma write_header_run out query flags :
  let w := header_bytes (m_id query) flags 1 0 0 0 ++ m_question_bytes query in
  write_header_and_question out query flags
  = if (length w <=? length out)%nat then Ok (splice 0 w out, length w) else Err OutputTooSmall.
Proof.
  intros w. unfold write_header_and_question, Bounded_at. cbn [Nat.leb ok_or mbind Res_bind].
  rewrite Bounded_zeros_run. unfold Bounded_u16.
  change (Bounded_bytes (m_question_bytes query) _)
    with (Bounded_run [be_bytes 2 (m_id query); be_bytes 2 flags; be_bytes 2 1; replicate 6 0;
                       m_question_bytes query] (mkBounded out 0 false)).
  rewrite Bounded_run_finish by lia.
  replace (concat _) with w by (unfold w, header_bytes; cbn [concat]; by rewrite app_nil_r, <- !app_assoc).
  cbn [Nat.add]. destruct (_ <=? _)%nat; done.
Qed.

Lemma write_record_run out at_ r rdata ls :
  rr_name r = join ls -> Forall label_ok ls -> (at_ <= length out)%nat ->
  let w := wire_record ls r (concat rdata) in
  write_record out at_ r rdata
  = if (Z.of_nat (length (concat rdata)) <=? U16_MAX) && (at_ + length w <=? length out)%nat
    then Ok (splice at_ w out, (at_ + length w)%nat) else Err OutputTooSmall.
Proof.
  intros Hn Hls Hat w. unfold write_record.
  assert (Rdata_len rdata = length (concat rdata)) as ->.
  { unfold Rdata_len. clear. induction rdata as [|x l IH]; [done|]. cbn. rewrite length_app. by rewrite IH. }
  destruct (Z.of_nat _ <=? U16_MAX) eqn:E16; [|done]. cbn [mbind Res_bind andb].
  rewrite Hn, Name_write_encode by done.
  set (rest := be_bytes 2 (RecordType_to_wire (rr_rtype r)) ++ be_bytes 2 (rr_class r) ++
    be_bytes 4 (rr_ttl r) ++ be_bytes 2 (Z.of_nat (length (concat rdata))) ++ concat rdata).
  assert (w = encode ls ++ rest) as Hw by done. rewrite Hw, length_app.
  destruct (at_ + length (encode ls) <=? length out)%nat eqn:E1; reflect; cbn [mbind Res_bind].
  2:{ rewrite (proj2 (Nat.leb_gt _ _)) by lia. done. }
  unfold Bounded_at. rewrite length_splice, (proj2 (Nat.leb_le _ _)) by lia. cbn [ok_or mbind Res_bind].
  unfold Bounded_u16, Bounded_u32.
  change (foldl _ ?b rdata) with (Bounded_run rdata b).
  set (b0 := mkBounded _ _ false).
  change (Bounded_run rdata _) with
    (Bounded_run rdata (Bounded_run [be_bytes 2 (RecordType_to_wire (rr_rtype r)); be_bytes 2 (rr_class r);
       be_bytes 4 (rr_ttl r); be_bytes 2 (Z.of_nat (length (concat rdata)))] b0)).
  rewrite <- Bounded_run_app. unfold b0. rewrite Bounded_run_finish by (rewrite length_splice; lia).
  assert (concat ([be_bytes 2 (RecordType_to_wire (rr_rtype r)); be_bytes 2 (rr_class r);
       be_bytes 4 (rr_ttl r); be_bytes 2 (Z.of_nat (length (concat rdata)))] ++ rdata) = rest) as ->
    by (rewrite concat_app; cbn [concat]; unfold rest; by rewrite app_nil_r, <- !app_assoc).
  rewrite length_splice, Nat.add_assoc by lia. destruct (_ <=? _)%nat eqn:E2; reflect; [|done].
  cbn [ok_or]. by rewrite splice_splice by lia.
Qed.

Lemma take_splice0 {A} (w out : list A) : (length w <= length out)%nat -> take (length w) (splice 0 w out) = w.
Proof. intros. unfold splice. rewrite take_0. cbn [app]. apply take_app_length. Qed.

(** ** Flags *)

Lemma rcode_roundtrip y : Rcode_to_wire (Rcode_from_wire y) = Z.land y RCODE_MASK.
Proof.
  unfold Rcode_from_wire. destruct (Z.eqb_spec (Z.land y RCODE_MASK) 0) as [->|]; [done|].
  destruct (Z.eqb_spec (Z.land y RCODE_MASK) 1) as [->|]; [done|].
  destruct (Z.eqb_spec (Z.land y RCODE_MASK) 2) as [->|]; [done|].
  destruct (Z.eqb_spec (Z.land y RCODE_MASK) 3) as [->|]; [done|].
  cbn [Rcode_to_wire]. rewrite <- Z.land_assoc. done.
Qed.

Lemma rcode_of_flags flags y : Z.land flags RCODE_MASK = Z.land y RCODE_MASK ->
  Rcode_from_wire flags = Rcode_from_wire y.
Proof. unfold Rcode_from_wire. by intros ->. Qed.

Lemma rcode_range y : 0 <= Z.land y RCODE_MASK < 16.
Proof.
  change RCODE_MASK with (Z.ones 4). rewrite Z.land_ones by lia. apply Z.mod_pos_bound. lia.
Qed.

(** Every response flag word is a sixteen-bit standard query response that carries
    its code and the bits it was given. *)
Lemma response_word rd cd ad tc code :
  0 <= code < 16 ->
  let flags := flag_if tc FLAG_TRUNCATED (flag_if ad FLAG_AUTHENTIC_DATA (flag_if cd FLAG_CHECKING_DISABLED
    (flag_if rd FLAG_RECURSION_DESIRED (Z.lor (Z.lor FLAG_RESPONSE FLAG_RECURSION_AVAILABLE) code)))) in
  u16_ok flags /\ Z.land flags OPCODE_MASK = 0 /\ Z.land flags RCODE_MASK = code /\
  negb (Z.land flags FLAG_RESPONSE =? 0) = true /\ negb (Z.land flags FLAG_RECURSION_DESIRED =? 0) = rd /\
  negb (Z.land flags FLAG_TRUNCATED =? 0) = tc.
Proof.
  intros Hc.
  assert (forall b : bool, forallb (fun code => 
    let flags := flag_if tc FLAG_TRUNCATED (flag_if ad FLAG_AUTHENTIC_DATA (flag_if cd FLAG_CHECKING_DISABLED
      (flag_if rd FLAG_RECURSION_DESIRED (Z.lor (Z.lor FLAG_RESPONSE FLAG_RECURSION_AVAILABLE) code)))) in
    (0 <=? flags) && (flags <? 2 ^ 16) && (Z.land flags OPCODE_MASK =? 0) && (Z.land flags RCODE_MASK =? code) &&
    eqb (negb (Z.land flags FLAG_RESPONSE =? 0)) true && eqb (negb (Z.land flags FLAG_RECURSION_DESIRED =? 0)) rd &&
    eqb (negb (Z.land flags FLAG_TRUNCATED =? 0)) tc) (seqZ 0 16) = true) as Hall
    by (intros _; destruct rd, cd, ad, tc; reflexivity).
  specialize (Hall true). rewrite forallb_forall in Hall. specialize (Hall code).
  assert (In code (seqZ 0 16)) as Hin by (apply list_elem_of_In, elem_of_seqZ; lia).
  specialize (Hall Hin). cbv zeta in Hall |- *. unfold uint_ok. rewrite !andb_true_iff, !eqb_true_iff in Hall.
  destruct Hall as [[[[[[H1 H2] H3] H4] H5] H6] H7].
  apply Z.leb_le in H1. apply Z.ltb_lt in H2. apply Z.eqb_eq in H3, H4. done.
Qed.

(** ** Local replies *)

(** [reply] answers [query]: its transaction and its question, with nothing else. *)
Definition echoes (query reply : Message) : Prop :=
  m_id reply = m_id query /\ m_question reply = m_question query /\
  m_question_bytes reply = m_question_bytes query /\ is_response reply = true /\
  recursion_desired reply = recursion_desired query.

Lemma header_reply bs query flags an rest :
  bytes_ok bs -> Message_parse bs = Ok query -> u16_ok flags -> u16_ok an -> Z.land flags OPCODE_MASK = 0 ->
  let m := header_bytes (m_id query) flags 1 an 0 0 ++ m_question_bytes query ++ rest in
  Message_parse m = Ok (mkMessage m (m_id query) flags an 0 0 (m_question query)
                          (m_question_bytes query) (12 + length (m_question_bytes query))).
Proof.
  intros Hok Hparse Hf Han Hop m.
  destruct (Message_parse_ok bs query Hok Hparse) as
    (_ & _ & Hid & _ & _ & _ & _ & _ & qname & qtype & qclass & Eqb & Hqt & Hqc & Eq & Hlen & Hread).
  pose proof (Message_parse_echo (m_id query) flags an qname (q_name (m_question query)) qtype qclass rest
    Hid Hf Han Hop Hqt Hqc Hlen Hread) as Hp. cbv zeta in Hp. rewrite <- Eqb, <- Eq in Hp. exact Hp.
Qed.

Lemma local_flags_word query extra :
  local_flags query extra
  = flag_if (recursion_desired query) FLAG_RECURSION_DESIRED
      (Z.lor (Z.lor FLAG_RESPONSE FLAG_RECURSION_AVAILABLE) extra).
Proof. done. Qed.

(** A reply written from a flag word that is a response of [code]. *)
Lemma local_reply bs query out flags code :
  bytes_ok bs -> Message_parse bs = Ok query ->
  u16_ok flags -> Z.land flags OPCODE_MASK = 0 -> Z.land flags RCODE_MASK = Rcode_to_wire code ->
  Rcode_from_wire (Rcode_to_wire code) = code ->
  negb (Z.land flags FLAG_RESPONSE =? 0) = true ->
  negb (Z.land flags FLAG_RECURSION_DESIRED =? 0) = recursion_desired query ->
  match write_header_and_question out query flags with
  | Ok (out', len) => exists reply, Message_parse (take len out') = Ok reply /\ echoes query reply /\
      Message_rcode reply = code /\ Message_answers reply = [] /\
      is_truncated reply = negb (Z.land flags FLAG_TRUNCATED =? 0)
  | Err e => e = OutputTooSmall /\ (length out < 12 + length (m_question_bytes query))%nat
  | Panic => False
  end.
Proof.
  intros Hok Hparse Hf Hop Hcode Hrt Hresp Hrd. rewrite write_header_run.
  set (w := header_bytes _ _ _ _ _ _ ++ _).
  assert (length w = 12 + length (m_question_bytes query))%nat as Lw
    by (unfold w; rewrite length_app, length_header_bytes; done).
  destruct (_ <=? _)%nat eqn:E; reflect; [|split; [done|lia]].
  rewrite take_splice0 by done. unfold w. rewrite <- (app_nil_r (m_question_bytes query)).
  rewrite (header_reply bs query flags 0 [] Hok Hparse Hf ltac:(done) Hop).
  eexists. split; [done|]. unfold echoes. split_and!; try done.
  { unfold is_response, flag_set. cbn [m_flags]. by apply negb_true_iff, Z.eqb_neq. }
  unfold Message_rcode. cbn [m_flags]. transitivity (Rcode_from_wire (Rcode_to_wire code)); [|done].
  apply rcode_of_flags. by rewrite Hcode, <- rcode_roundtrip, Hrt.
Qed.

(** a refusal, a failure and a truncated reply never panic, fail only for a
    buffer shorter than header and question, and parse back as a response to the
    client's own transaction and question, with no answers and the code they stand
    for. *)
Theorem local_replies_echo bs query out :
  bytes_ok bs -> Message_parse bs = Ok query ->
  Forall (fun '(written, code, truncated) =>
    match written with
    | Ok (out', len) => exists reply, Message_parse (take len out') = Ok reply /\ echoes query reply /\
        Message_rcode reply = code /\ Message_answers reply = [] /\ is_truncated reply = truncated
    | Err e => e = OutputTooSmall /\ (length out < 12 + length (m_question_bytes query))%nat
    | Panic => False
    end)
    [(write_refusal out query, NameError, false); (write_failure out query, ServerFailure, false);
     (write_truncated out query, NoError, true)].
Proof.
  intros Hok Hparse.
  assert (forall extra code (tc : bool), extra = (if tc then FLAG_TRUNCATED else Rcode_to_wire code) ->
    (tc = true -> code = NoError) -> Rcode_from_wire (Rcode_to_wire code) = code -> 0 <= Rcode_to_wire code < 16 ->
    match write_header_and_question out query (local_flags query extra) with
    | Ok (out', len) => exists reply, Message_parse (take len out') = Ok reply /\ echoes query reply /\
        Message_rcode reply = code /\ Message_answers reply = [] /\ is_truncated reply = tc
    | Err e => e = OutputTooSmall /\ (length out < 12 + length (m_question_bytes query))%nat
    | Panic => False
    end) as Hall.
  { intros extra code tc Hx Htc Hrt Hr.
    pose proof (response_word (recursion_desired query) false false tc (Rcode_to_wire code) Hr) as Hw.
    assert (local_flags query extra = flag_if tc FLAG_TRUNCATED (flag_if false FLAG_AUTHENTIC_DATA
      (flag_if false FLAG_CHECKING_DISABLED (flag_if (recursion_desired query) FLAG_RECURSION_DESIRED
        (Z.lor (Z.lor FLAG_RESPONSE FLAG_RECURSION_AVAILABLE) (Rcode_to_wire code)))))) as Ef.
    { unfold local_flags. subst extra. destruct tc; [rewrite (Htc eq_refl)|]; by destruct (recursion_desired query). }
    rewrite <- Ef in Hw. destruct Hw as (H1 & H2 & H3 & H4 & H5 & H6).
    pose proof (local_reply bs query out _ code Hok Hparse H1 H2 H3 Hrt H4 H5) as Hl. by rewrite H6 in Hl. }
  repeat constructor.
  - by apply Hall.
  - by apply Hall.
  - by apply (Hall _ NoError true).
Qed.

(** ** Rewritten replies *)

(** The RDATA an answer is written with: its own bytes less the policy's cuts. *)
Definition answer_rdata (policy : AnswerPolicy) (answer : ResourceRecord) : Res DnsError bytes :=
  '(ech_at, h3_at) ← (if carries_svc_params (rr_rtype answer) then
                        ech ← ech_param (rr_rdata answer);
                        h3 ← h3_alpn_param (rr_rdata answer);
                        Ok (ech, h3)
                      else Ok (None, None));
  let ech_cut := option_keep (bool_decide (ap_ech policy = EchStrip)) ech_at in
  let h3_cut := option_keep (bool_decide (ap_alpn policy = StripH3)) h3_at in
  rdata ← ok_or Truncated (Rdata_without_all (rr_rdata answer) h3_cut ech_cut);
  Ok (concat rdata).

Definition aged (age : Z) (r : ResourceRecord) : ResourceRecord :=
  mkRecord (rr_name r) (rr_rtype r) (rr_class r) (saturating_sub (rr_ttl r) age) (rr_rdata r).

Lemma aged_ok age r : 0 <= age -> record_ok r -> record_ok (aged age r).
Proof.
  intros Ha []. split; try done. unfold aged, saturating_sub, uint_ok in *. cbn in *. lia.
Qed.

(** What has been written: the whole of [w], at the start of the buffer. *)
Definition holds (out w : bytes) (st : AnswerLoop) : Prop :=
  al_out st = splice 0 w out /\ al_cursor st = length w /\ (length w <= length out)%nat.

Lemma write_answer_ok policy age out w st answer st' ls :
  holds out w st -> rr_name answer = join ls -> Forall label_ok ls ->
  write_answer policy age st answer = Ok st' ->
  exists data, answer_rdata policy answer = Ok data /\ Z.of_nat (length data) <= U16_MAX /\
    holds out (w ++ wire_record ls (aged age answer) data) st' /\ al_answers st' = al_answers st + 1.
Proof.
  intros (Ho & Hc & Hw) Hn Hls. unfold write_answer, answer_rdata.
  destruct (if carries_svc_params _ then _ else _) as [[e h]| |]; [|done|done]. cbn [mbind Res_bind].
  destruct (Rdata_without_all _ _ _) as [rdata|]; [|done]. cbn [ok_or mbind Res_bind].
  fold (aged age answer). rewrite Ho, Hc.
  rewrite (write_record_run _ _ _ _ ls) by (try done; rewrite length_splice; lia).
  destruct (_ && _) eqn:E; [|done]. reflect. rewrite length_splice in * by lia.
  cbn [mbind Res_bind]. intros [= <-]. exists (concat rdata). split_and!; try done.
  split; cbn [al_out al_cursor].
  - rewrite <- (splice_splice 0) by lia. done.
  - rewrite length_app. done.
Qed.

Lemma Answers_items_ok remaining bs cursor :
  bytes_ok bs ->
  Forall (fun item => match item with Ok r => record_ok r | Err _ => True | Panic => False end)
    (Answers_items remaining bs cursor).
Proof.
  intros Hok. revert cursor. induction remaining as [|n IH]; intros cursor; cbn [Answers_items]; [constructor|].
  pose proof (Answers_read_ok bs cursor Hok) as Hr.
  destruct (Answers_read bs cursor) as [[r next]| |]; [|constructor; [done|apply IH]|done].
  constructor; [apply Hr|apply IH].
Qed.

(** A written answer: what it was, the labels of its name and its new RDATA. *)
Definition written_as (policy : AnswerPolicy) (age : Z) (a : ResourceRecord)
    (e : list bytes * ResourceRecord * bytes) : Prop :=
  let '(ls, r, data) := e in
  r = aged age a /\ rr_name r = join ls /\ Forall label_ok ls /\ record_ok r /\
  answer_rdata policy a = Ok data /\ Z.of_nat (length data) <= U16_MAX.

Lemma write_answers_ok policy age out w st items st' :
  0 <= age -> holds out w st ->
  Forall (fun item => match item with Ok r => record_ok r | Err _ => True | Panic => False end) items ->
  write_answers policy age st items = Ok st' ->
  exists answers rs, items = Ok <$> answers /\ Forall2 (written_as policy age) answers rs /\
    holds out (w ++ concat ((fun '(ls, r, data) => wire_record ls r data) <$> rs)) st' /\
    al_answers st' = al_answers st + Z.of_nat (length answers).
Proof.
  intros Hage. revert w st. induction items as [|item items IH]; intros w st Hh Hok Hw; cbn [write_answers] in Hw.
  { injection Hw as <-. exists [], []. cbn. rewrite app_nil_r, Z.add_0_r. done. }
  apply Forall_cons in Hok as [Hitem Hok]. destruct item as [a| |]; [|done|done]. cbn [mbind Res_bind] in Hw.
  destruct (write_answer policy age st a) as [st1| |] eqn:E1; [|done|done]. cbn [mbind Res_bind] in Hw.
  destruct (ro_name a Hitem) as [_ (ls & Hn & Hls)].
  destruct (write_answer_ok policy age out w st a st1 ls Hh Hn Hls E1) as (data & Hd & Hlen & Hh1 & Hcount).
  destruct (IH _ _ Hh1 Hok Hw) as (answers & rs & -> & Hf & Hh' & Hcount').
  exists (a :: answers), ((ls, aged age a, data) :: rs). split_and!; try done.
  - constructor; [|done]. split_and!; try done. by apply aged_ok.
  - cbn [fmap list_fmap concat]. by rewrite app_assoc.
  - cbn [length]. lia.
Qed.

Lemma patch_ancount id flags an body out :
  (length (header_bytes id flags 1 0 0 0 ++ body) <= length out)%nat ->
  splice 6 (be_bytes 2 an) (splice 0 (header_bytes id flags 1 0 0 0 ++ body) out)
  = splice 0 (header_bytes id flags 1 an 0 0 ++ body) out.
Proof.
  intros Hl. rewrite length_app, length_header_bytes in Hl.
  set (pre := be_bytes 2 id ++ be_bytes 2 flags ++ be_bytes 2 1).
  set (post := be_bytes 2 0 ++ be_bytes 2 0 ++ body).
  assert (forall v, header_bytes id flags 1 v 0 0 ++ body = pre ++ be_bytes 2 v ++ post) as E
    by (intros; unfold header_bytes, pre, post; by rewrite <- !app_assoc).
  rewrite !E. unfold splice at 2. rewrite take_0. cbn [app Nat.add]. rewrite <- !app_assoc.
  unfold splice at 2. rewrite take_0. cbn [app Nat.add]. rewrite <- !app_assoc.
  change 6%nat with (length pre). rewrite splice_app_mid by done. rewrite !length_app. done.
Qed.

Lemma length_Answers_items n bs cursor :
  Forall (fun item => item <> Panic) (Answers_items n bs cursor) -> length (Answers_items n bs cursor) = n.
Proof.
  revert cursor. induction n as [|n IH]; intros cursor; cbn [Answers_items]; [done|].
  destruct (Answers_read bs cursor) as [[r next]|e|].
  - intros [_ H]%Forall_cons. cbn. by rewrite IH.
  - intros [_ H]%Forall_cons. cbn. by rewrite IH.
  - intros [H _]%Forall_cons. done.
Qed.

(** An answer in the reply: the upstream's, aged and with its parameters cut. *)
Definition rewritten_as (policy : AnswerPolicy) (age : Z) (a r : ResourceRecord) : Prop :=
  rr_name r = rr_name a /\ rr_rtype r = rr_rtype a /\ rr_class r = rr_class a /\
  rr_ttl r = Z.max 0 (rr_ttl a - age) /\ answer_rdata policy a = Ok (rr_rdata r).

Lemma written_rewritten policy age answers rs :
  Forall2 (written_as policy age) answers rs ->
  Forall2 (rewritten_as policy age) answers
    ((fun '(_, r, data) => mkRecord (rr_name r) (rr_rtype r) (rr_class r) (rr_ttl r) data) <$> rs) /\
  Forall (fun '(ls, r, data) => record_ok r /\ rr_name r = join ls /\ Forall label_ok ls /\
            Z.of_nat (length data) <= U16_MAX) rs.
Proof.
  induction 1 as [|a [[ls r] data] answers rs Hw _ [IH1 IH2]]; [by repeat constructor|].
  destruct Hw as (-> & Hn & Hls & Hok & Hd & Hlen). split; constructor; try done.
Qed.

Lemma response_flags_word query upstream :
  let flags := response_flags query upstream in
  u16_ok flags /\ Z.land flags OPCODE_MASK = 0 /\
  Z.land flags RCODE_MASK = Z.land (m_flags upstream) RCODE_MASK /\
  negb (Z.land flags FLAG_RESPONSE =? 0) = true /\
  negb (Z.land flags FLAG_RECURSION_DESIRED =? 0) = recursion_desired query /\
  negb (Z.land flags FLAG_TRUNCATED =? 0) = is_truncated upstream.
Proof.
  pose proof (response_word (recursion_desired query) (checking_disabled query) (authentic_data upstream)
    (is_truncated upstream) (Z.land (m_flags upstream) RCODE_MASK) (rcode_range _)) as Hword.
  cbv zeta in Hword |- *. unfold response_flags, Message_rcode. rewrite rcode_roundtrip. exact Hword.
Qed.

Definition wire_answers (rs : list (list bytes * ResourceRecord * bytes)) : bytes :=
  concat ((fun '(ls, r, data) => wire_record ls r data) <$> rs).

(** The items of a parsed message: none panics, and there are as many as it counts. *)
Lemma Message_answers_items bs m :
  bytes_ok bs -> Message_parse bs = Ok m ->
  u16_ok (m_answer_count m) /\ length (Message_answers m) = Z.to_nat (m_answer_count m) /\
  Forall (fun item => match item with Ok r => record_ok r | Err _ => True | Panic => False end) (Message_answers m).
Proof.
  intros Hok Hp. destruct (Message_parse_ok bs m Hok Hp) as (Hb & _ & _ & _ & Hcount & _).
  unfold Message_answers. rewrite Hb.
  pose proof (Answers_items_ok (Z.to_nat (m_answer_count m)) bs (m_answers_at m) Hok) as Hitems.
  split_and!; [done| |done]. apply length_Answers_items. eapply Forall_impl; [exact Hitems|]. by intros [].
Qed.

(** The bytes of a written response. *)
Lemma write_response_bytes ubs query upstream out policy age out' rw :
  bytes_ok ubs -> Message_parse ubs = Ok upstream -> 0 <= age ->
  write_response_aged out query upstream policy age = Ok (out', rw) ->
  exists answers rs,
    Message_answers upstream = Ok <$> answers /\ rw_answers rw = Z.of_nat (length answers) /\
    Forall2 (written_as policy age) answers rs /\ (rw_len rw <= length out)%nat /\ length out' = length out /\
    take (rw_len rw) out' = header_bytes (m_id query) (response_flags query upstream) 1 (rw_answers rw) 0 0 ++
                            m_question_bytes query ++ wire_answers rs.
Proof.
  intros Hu Pu Hage. unfold write_response_aged. set (flags := response_flags query upstream).
  rewrite write_header_run.
  set (w0 := header_bytes _ _ _ _ _ _ ++ _). destruct (_ <=? _)%nat eqn:E0; [|done]. apply Nat.leb_le in E0.
  cbn [mbind Res_bind]. destruct (Message_answers_items ubs upstream Hu Pu) as (_ & _ & Hitems).
  destruct (write_answers _ _ _ _) as [st| |] eqn:Ew; [|done|done]. cbn [mbind Res_bind].
  apply (write_answers_ok policy age out w0) in Ew as (answers & rs & Ha & Hf & (Ho & Hc & Hlen) & Hn);
    [|done|done|done].
  fold (wire_answers rs) in Ho, Hc, Hlen. cbn [al_answers] in Hn. rewrite Z.add_0_l in Hn.
  assert (w0 ++ wire_answers rs = header_bytes (m_id query) flags 1 0 0 0 ++ (m_question_bytes query ++ wire_answers rs))
    as Ebody by (unfold w0; by rewrite <- app_assoc).
  rewrite Ebody in *. unfold Bounded_at, ANCOUNT_AT.
  assert (6 + 2 <= length (al_out st))%nat as H6.
  { rewrite Ho, length_splice by lia. rewrite length_app, length_header_bytes in Hlen. lia. }
  rewrite (proj2 (Nat.leb_le _ _)) by lia. cbn [ok_or mbind Res_bind]. unfold Bounded_u16.
  rewrite Bounded_bytes_fits by (cbn [b_at b_out b_overflowed]; rewrite ?length_be_bytes; done).
  cbn [Bounded_finish b_overflowed b_out b_at ok_or mbind Res_bind]. rewrite Ho, patch_ancount by lia.
  intros [= <- <-]. cbn [rw_len rw_answers]. rewrite Hc. exists answers, rs. split_and!; try done.
  { rewrite length_splice; [done|]. rewrite length_app, length_header_bytes in Hlen. cbn [length]. lia. }
  rewrite <- (take_splice0 (header_bytes (m_id query) flags 1 (al_answers st) 0 0 ++ _) out) by done. done.
Qed.

(** What a written response reads back as. *)
Lemma response_reads_back qbs ubs query upstream out policy age out' rw :
  bytes_ok qbs -> bytes_ok ubs -> Message_parse qbs = Ok query -> Message_parse ubs = Ok upstream ->
  0 <= age -> write_response_aged out query upstream policy age = Ok (out', rw) ->
  exists answers rewritten reply,
    Message_answers upstream = Ok <$> answers /\ rw_answers rw = Z.of_nat (length answers) /\
    Message_parse (take (rw_len rw) out') = Ok reply /\ echoes query reply /\
    Message_rcode reply = Message_rcode upstream /\ is_truncated reply = is_truncated upstream /\
    Message_answers reply = Ok <$> rewritten /\ Forall2 (rewritten_as policy age) answers rewritten.
Proof.
  intros Hq Hu Pq Pu Hage Hw.
  destruct (write_response_bytes _ _ _ _ _ _ _ _ Hu Pu Hage Hw) as (answers & rs & Ha & Hn & Hf & _ & _ & ->).
  destruct (Message_answers_items ubs upstream Hu Pu) as (Hcount & Hcnt & _).
  rewrite Ha, length_fmap in Hcnt. destruct (response_flags_word query upstream) as (F1 & F2 & F3 & F4 & F5 & F6).
  set (flags := response_flags query upstream) in *. rewrite Hn.
  assert (u16_ok (Z.of_nat (length answers))) as Han by (unfold uint_ok in *; lia).
  destruct (written_rewritten policy age answers rs Hf) as [Hrw Hrs].
  eexists answers, _, _. split; [done|]. split; [done|].
  split; [apply (header_reply qbs query flags _ _ Hq Pq F1 Han F2)|].
  split; [by unfold echoes, is_response, recursion_desired, flag_set; split_and!|].
  split; [by unfold Message_rcode; cbn [m_flags]; apply rcode_of_flags|].
  split; [by unfold is_truncated, flag_set|]. split; [|exact Hrw].
  unfold Message_answers. cbn [m_bytes m_answer_count m_answers_at]. rewrite Nat2Z.id.
  rewrite (Forall2_length _ _ _ Hf), app_assoc.
  replace (12 + length (m_question_bytes query))%nat
    with (length (header_bytes (m_id query) flags 1 (Z.of_nat (length rs)) 0 0 ++ m_question_bytes query))
    by (by rewrite length_app).
  pose proof (Answers_items_wire (header_bytes (m_id query) flags 1 (Z.of_nat (length rs)) 0 0 ++ m_question_bytes query)
    rs [] Hrs) as Hws. rewrite app_nil_r in Hws. unfold wire_answers. rewrite Hws.
  rewrite <- list_fmap_compose. apply list_fmap_ext. by intros _ [[? ?] ?] _.
Qed.

(** The bytes of a record without service parameters are kept. *)
Lemma answer_rdata_plain policy a data :
  carries_svc_params (rr_rtype a) = false -> answer_rdata policy a = Ok data -> data = rr_rdata a.
Proof.
  intros Hc. unfold answer_rdata. rewrite Hc. cbn [mbind Res_bind]. unfold option_keep, Rdata_without_all. repeat case_bool_decide; cbn;
    rewrite ?app_nil_r; by intros [= <-].
Qed.

(** C34: a written response parses back, within its reported length, as a response
    to the client's transaction and question, with the upstream's code and
    truncation.  It has one record for each answer of the upstream, in order: the
    owner name and type are the upstream's, read through its compression pointers,
    the TTL is counted down by the age, and the RDATA is, as bytes, the upstream's
    less the policy's cuts, for a record without service parameters unchanged.  So
    what the RDATA says is kept where it stands on its own; a name in it that the
    upstream compressed keeps a pointer into the upstream's message, which
    [compressed_rdata_dangles] shows to be lost. *)
Theorem response_roundtrip qbs ubs query upstream out policy age out' rw :
  bytes_ok qbs -> bytes_ok ubs -> Message_parse qbs = Ok query -> Message_parse ubs = Ok upstream ->
  0 <= age -> write_response_aged out query upstream policy age = Ok (out', rw) ->
  exists answers rewritten reply,
    Message_answers upstream = Ok <$> answers /\ rw_answers rw = Z.of_nat (length answers) /\
    Message_parse (take (rw_len rw) out') = Ok reply /\ echoes query reply /\
    Message_rcode reply = Message_rcode upstream /\ is_truncated reply = is_truncated upstream /\
    Message_answers reply = Ok <$> rewritten /\ Forall2 (rewritten_as policy age) answers rewritten /\
    Forall2 (fun a r => carries_svc_params (rr_rtype a) = false -> rr_rdata r = rr_rdata a) answers rewritten.
Proof.
  intros Hq Hu Pq Pu Hage Hw. destruct (response_reads_back _ _ _ _ _ _ _ _ _ Hq Hu Pq Pu Hage Hw)
    as (answers & rewritten & reply & H1 & H2 & H3 & H4 & H5 & H6 & H7 & H8).
  exists answers, rewritten, reply. split_and!; try done. eapply Forall2_impl; [exact H8|].
  intros a r (_ & _ & _ & _ & Hr) Hc. by eapply answer_rdata_plain.
Qed.

(** A query for the A records of [a.b], and its upstream answer of one address with
    a TTL of five minutes. *)
Definition example_question : bytes := [1; 97; 1; 98; 0; 0; 1; 0; 1].
Definition example_query : bytes := [18; 52; 1; 0; 0; 1; 0; 0; 0; 0; 0; 0] ++ example_question.
Definition example_upstream : bytes :=
  [0; 7; 129; 128; 0; 1; 0; 1; 0; 0; 0; 0] ++ example_question ++
  [192; 12; 0; 1; 0; 1; 0; 0; 1; 44; 0; 4; 1; 2; 3; 4].

Definition parsed (bs : bytes) : Message :=
  match Message_parse bs with Ok m => m | _ => mkMessage [] 0 0 0 0 0 (mkQuestion [] RT_A 0) [] 0 end.

Lemma response_roundtrip_witness :
  exists out' rw answers rewritten reply,
    write_response_aged (replicate 64 0) (parsed example_query) (parsed example_upstream)
      (mkAnswerPolicy EchStrip StripH3) 60 = Ok (out', rw) /\
    Message_parse (take (rw_len rw) out') = Ok reply /\ m_id reply = 0x1234 /\
    Message_answers reply = Ok <$> rewritten /\
    Forall2 (rewritten_as (mkAnswerPolicy EchStrip StripH3) 60) answers rewritten /\
    Message_answers reply = [Ok (mkRecord [97; 46; 98] RT_A 1 240 [1; 2; 3; 4])].
Proof.
  destruct (write_response_aged (replicate 64 0) (parsed example_query) (parsed example_upstream)
      (mkAnswerPolicy EchStrip StripH3) 60) as [[out' rw]| |] eqn:E; [|by vm_compute in E..].
  destruct (response_roundtrip example_query example_upstream (parsed example_query) (parsed example_upstream)
    (replicate 64 0) (mkAnswerPolicy EchStrip StripH3) 60 out' rw)
    as (answers & rewritten & reply & H1 & H2 & H3 & H4 & _ & _ & H5 & H6 & _);
    [repeat constructor; lia|repeat constructor; lia|by vm_compute|by vm_compute|lia|exact E|].
  exists out', rw, answers, rewritten, reply. split_and!; [done|exact H3|by destruct H4 as [-> _]|exact H5|exact H6|].
  vm_compute in E. injection E as <- <-. vm_compute in H3. injection H3 as <-. by vm_compute.
Defined.

(** Two aliases, the second of which names its target by a pointer into the first: the
    upstream's message says [z.xy], and the reply, whose owner names are written out, has
    the same bytes where they name nothing. *)
Definition chain_upstream : bytes :=
  [0; 7; 129; 128; 0; 1; 0; 2; 0; 0; 0; 0] ++ example_question ++
  [192; 12; 0; 5; 0; 1; 0; 0; 1; 44; 0; 4; 2; 120; 121; 0] ++ [192; 33; 0; 5; 0; 1; 0; 0; 1; 44; 0; 4; 1; 122; 192; 33].

Example compressed_rdata_dangles :
  Name_read chain_upstream 49 = Ok ([122; 46; 120; 121], 4%nat) /\
  exists out' rw,
    write_response_aged (replicate 128 0) (parsed example_query) (parsed chain_upstream) (mkAnswerPolicy EchStrip StripH3) 0 = Ok (out', rw) /\
    drop (rw_len rw - 4) (take (rw_len rw) out') = drop 49 chain_upstream /\
    Name_read (take (rw_len rw) out') (rw_len rw - 4) = Err Truncated.
Proof. split; [by vm_compute|]. eexists _, _. split; [vm_compute; reflexivity|]. by vm_compute. Qed.

Lemma local_replies_echo_witness :
  exists out' len reply,
    write_refusal (replicate 64 0) (parsed example_query) = Ok (out', len) /\
    Message_parse (take len out') = Ok reply /\ Message_rcode reply = NameError /\
    m_question reply = mkQuestion [97; 46; 98] RT_A 1.
Proof.
  pose proof (local_replies_echo example_query (parsed example_query) (replicate 64 0)) as H.
  specialize (H ltac:(repeat constructor; lia) ltac:(by vm_compute)).
  apply Forall_cons in H as [H _]. destruct (write_refusal _ _) as [[out' len]| |] eqn:E; [|by vm_compute in E..].
  destruct H as (reply & Hp & (_ & Hq & _) & Hc & _). exists out', len, reply. split_and!; try done.
Defined.
