(* ===== verification/DnsStrip.v ===== *)
(** What stripping leaves of an HTTPS or SVCB record: the parameters of its RDATA
    as a strictly increasing list, and the removal of the [ech] and HTTP/3 [alpn]
    parameters by [write_response_aged] as a filter of that list. *)

From S2P Require Import Prelude Wire DnsName DnsMessage DnsPolicy DnsResponse.
Open Scope Z_scope.

(** ** Parameters on the wire *)

Abbreviation KeyValue := (Z * bytes)%type.

Definition wire_param (kv : KeyValue) : bytes :=
  be_bytes 2 kv.1 ++ be_bytes 2 (Z.of_nat (length kv.2)) ++ kv.2.

Definition wire_params (kvs : list KeyValue) : bytes := concat (wire_param <$> kvs).

Definition kv_ok (kv : KeyValue) : Prop := u16_ok kv.1 /\ Z.of_nat (length kv.2) <= U16_MAX.

(** Keys above [previous] and strictly increasing. *)
Fixpoint increasing (previous : option Z) (kvs : list KeyValue) : Prop :=
  match kvs with
  | [] => True
  | kv :: kvs => match previous with Some p => p < kv.1 | None => True end /\ increasing (Some kv.1) kvs
  end.

(** The parameters at their places, the first at [at_]. *)
Fixpoint place (at_ : nat) (kvs : list KeyValue) : list SvcParam :=
  match kvs with
  | [] => []
  | kv :: kvs =>
      let end_ := (at_ + length (wire_param kv))%nat in
      mkParam kv.1 kv.2 (at_, end_) :: place end_ kvs
  end.

(** A fallible left fold. *)
Fixpoint res_foldl {E A B} (f : A -> B -> Res E A) (a : A) (l : list B) : Res E A :=
  match l with
  | [] => Ok a
  | b :: l => a ← f a b; res_foldl f a l
  end.

Lemma length_wire_param kv : length (wire_param kv) = (4 + length kv.2)%nat.
Proof. unfold wire_param. rewrite !length_app, !length_be_bytes. lia. Qed.

Lemma wire_params_app xs ys : wire_params (xs ++ ys) = wire_params xs ++ wire_params ys.
Proof. unfold wire_params. by rewrite fmap_app, concat_app. Qed.

Lemma SvcParams_read_inv rdata cursor previous p :
  bytes_ok rdata -> SvcParams_read rdata cursor previous = Ok p ->
  exists kv, kv_ok kv /\ drop cursor rdata = wire_param kv ++ drop (sp_at p).2 rdata /\
    p = mkParam kv.1 kv.2 (cursor, (cursor + length (wire_param kv))%nat) /\
    (cursor + length (wire_param kv) <= length rdata)%nat /\
    match previous with Some q => q < kv.1 | None => True end.
Proof.
  intros Hok. unfold SvcParams_read, Reader_at. destruct (cursor <=? _)%nat eqn:Ec; [|done]. reflect.
  cbn [ok_or mbind Res_bind]. destruct (Reader_u16 _) as [[key r1]|] eqn:E1; [|done]. cbn [ok_or mbind Res_bind].
  apply Reader_u16_inv in E1 as (R1 & H1 & V1 & ->); [|done].
  unfold Reader_vector_u16. destruct (Reader_u16 _) as [[len r2]|] eqn:E2; [|done]. cbn [mbind option_bind].
  apply Reader_u16_inv in E2 as (R2 & H2 & V2 & ->); [|done].
  destruct (Reader_take _ _) as [[value r3]|] eqn:E3; [|done]. cbn [ok_or mbind Res_bind].
  apply Reader_take_Some in E3 as (H3 & Hv & ->). cbn [r_bytes r_at Reader_position] in *.
  unfold uint_ok in R2. assert (length value = Z.to_nat len) as Lv by (rewrite Hv, length_take, length_drop; lia).
  destruct (match previous with Some _ => _ | None => _ end) eqn:Ep; [done|]. intros [= <-].
  exists (key, value). unfold Reader_position. cbn [fst snd sp_at r_at]. rewrite length_wire_param. cbn [snd].
  split_and!.
  - split; [done|]. cbn. unfold U16_MAX. lia.
  - unfold wire_param. cbn [fst snd]. rewrite V1, Lv, Z2Nat.id, V2 by lia.
    assert (value = slice (cursor + 2 + 2) (cursor + 2 + 2 + Z.to_nat len) rdata) as ->
      by (rewrite Hv; unfold slice; f_equal; lia).
    rewrite <- !slice_app by lia. unfold slice.
    rewrite <- (take_drop (cursor + 2 + 2 + Z.to_nat len - cursor) (drop cursor rdata)) at 1.
    rewrite drop_drop. do 2 f_equal. lia.
  - do 2 f_equal. lia.
  - lia.
  - destruct previous; [|done]. by reflect.
Qed.

(** A finished walk: the bytes are a list of parameters, and the body folded it. *)
Lemma params_loop_inv {S_} fuel rdata cursor previous (body : S_ -> SvcParam -> Res DnsError S_) s s' :
  bytes_ok rdata -> (cursor <= length rdata)%nat ->
  params_loop fuel rdata cursor previous body s = Ok s' ->
  exists kvs, drop cursor rdata = wire_params kvs /\ Forall kv_ok kvs /\ increasing previous kvs /\
    res_foldl body s (place cursor kvs) = Ok s'.
Proof.
  intros Hok. revert cursor previous s. induction fuel as [|fuel IH]; intros cursor previous s Hc; [done|].
  cbn [params_loop]. destruct (_ <=? cursor)%nat eqn:E; reflect.
  { intros [= <-]. exists []. rewrite drop_ge by lia. done. }
  destruct (SvcParams_read _ _ _) as [p| |] eqn:Ep; [|done|done]. cbn [mbind Res_bind].
  destruct (SvcParams_read_inv _ _ _ _ Hok Ep) as (kv & Hkv & Hd & -> & Hle & Hinc). cbn [sp_at sp_key snd] in *.
  destruct (body s _) as [s1| |] eqn:Eb; [|done|done]. cbn [mbind Res_bind].
  intros (kvs & Hk & Hall & Hinc' & Hf)%IH; [|done].
  exists (kv :: kvs). split_and!; [|by constructor|done|].
  - rewrite Hd, Hk. done.
  - cbn [place res_foldl]. by rewrite Eb.
Qed.

(** The walk over a laid-out list is the fold over its placed parameters. *)
Lemma params_loop_wire {S_} fuel pre kvs previous (body : S_ -> SvcParam -> Res DnsError S_) s :
  Forall kv_ok kvs -> increasing previous kvs -> (length kvs < fuel)%nat ->
  params_loop fuel (pre ++ wire_params kvs) (length pre) previous body s
  = res_foldl body s (place (length pre) kvs).
Proof.
  intros Hok. revert fuel pre previous s. induction Hok as [|kv kvs [Hk Hl] Hok IH];
    intros [|fuel] pre previous s Hinc Hf; try (cbn in Hf; lia).
  { cbn. rewrite app_nil_r, (proj2 (Nat.leb_le _ _)) by lia. done. }
  set (rdata := pre ++ wire_params (kv :: kvs)). destruct Hinc as [Hprev Hinc].
  assert (rdata = (pre ++ wire_param kv) ++ wire_params kvs) as E
    by (unfold rdata, wire_params; cbn [fmap list_fmap concat]; by rewrite app_assoc).
  pose proof (length_wire_param kv) as Lw.
  cbn [params_loop]. rewrite (proj2 (Nat.leb_gt _ _)) by (rewrite E, !length_app; lia).
  assert (SvcParams_read rdata (length pre) previous
    = Ok (mkParam kv.1 kv.2 (length pre, (length pre + length (wire_param kv))%nat))) as ->.
  { unfold SvcParams_read, Reader_vector_u16, Reader_u16, Reader_at.
    assert (length pre <= length rdata)%nat as K0 by (unfold rdata; rewrite length_app; lia).
    rewrite (proj2 (Nat.leb_le _ _)) by done. cbn [ok_or mbind Res_bind].
    assert (drop (length pre) rdata
      = be_bytes 2 kv.1 ++ be_bytes 2 (Z.of_nat (length kv.2)) ++ kv.2 ++ wire_params kvs) as D0
      by (unfold rdata; rewrite drop_app_length; unfold wire_params, wire_param;
          cbn [fmap list_fmap concat]; by rewrite <- !app_assoc).
    destruct (uint_field 2 rdata _ _ _ ltac:(lia) Hk D0 K0) as (-> & D1 & K1). cbn [ok_or mbind Res_bind].
    destruct (uint_field 2 rdata (length pre + 2) (Z.of_nat (length kv.2)) (kv.2 ++ wire_params kvs) ltac:(lia))
      as (-> & D2 & K2); [unfold U16_MAX in Hl; change (2 ^ (8 * Z.of_nat 2)) with 65536; lia|done|done|].
    cbn [mbind option_bind]. rewrite Nat2Z.id, (bytes_field rdata _ kv.2 _ D2 K2). cbn [ok_or mbind Res_bind].
    unfold Reader_position. cbn [r_at].
    replace (match previous with Some q => kv.1 <=? q | None => false end) with false
      by (destruct previous; [|done]; symmetry; apply Z.leb_gt; lia).
    do 3 f_equal. rewrite Lw. lia. }
  cbn [mbind Res_bind place res_foldl]. destruct (body s _) as [s1| |]; [|done|done].
  cbn [mbind Res_bind sp_at sp_key snd]. rewrite E, <- length_app. apply IH; [done|cbn in Hf; lia].
Qed.


(** ** Lists of parameters *)

Lemma res_foldl_app {E A B} (f : A -> B -> Res E A) a l1 l2 :
  res_foldl f a (l1 ++ l2) = (a ← res_foldl f a l1; res_foldl f a l2).
Proof. revert a. induction l1 as [|b l1 IH]; intros a; cbn; [done|]. destruct (f a b); cbn; auto. Qed.

(** A stretch whose parameters leave the state alone. *)
Lemma res_foldl_skip {A} (f : A -> SvcParam -> Res DnsError A) a (P : KeyValue -> Prop) at_ kvs :
  (forall kv r, P kv -> f a (mkParam kv.1 kv.2 r) = Ok a) -> Forall P kvs ->
  res_foldl f a (place at_ kvs) = Ok a.
Proof. intros Hf Hall. revert at_. induction Hall as [|kv kvs H Hall IH]; intros at_; cbn [place res_foldl];
  [done|]. rewrite Hf by done. apply IH. Qed.

Lemma place_app at_ xs ys : place at_ (xs ++ ys) = place at_ xs ++ place (at_ + length (wire_params xs)) ys.
Proof.
  revert at_. induction xs as [|kv xs IH]; intros at_; cbn [place app wire_params fmap list_fmap concat length].
  - by rewrite Nat.add_0_r.
  - rewrite IH, length_app, Nat.add_assoc. done.
Qed.

Lemma increasing_weaken p kvs : increasing p kvs -> increasing None kvs.
Proof. destruct kvs; [done|]. by intros [_ ?]. Qed.

Lemma increasing_above p kvs : increasing (Some p) kvs -> Forall (fun kv => p < kv.1) kvs.
Proof.
  revert p. induction kvs as [|kv kvs IH]; intros p; [by constructor|]. intros [H Hi]. constructor; [done|].
  eapply Forall_impl; [by apply IH|]. cbn. lia.
Qed.

Lemma increasing_filter p (P : KeyValue -> Prop) `{forall kv, Decision (P kv)} kvs :
  increasing p kvs -> increasing p (filter P kvs).
Proof.
  revert p. induction kvs as [|kv kvs IH]; intros p Hi; [done|]. destruct Hi as [Hp Hi].
  rewrite filter_cons. case_decide; [by split; auto|]. apply IH in Hi.
  destruct (filter P kvs) as [|kv' kvs'] eqn:E; [done|]. destruct Hi as [Hlt Hi]. split; [|done].
  destruct p; [lia|done].
Qed.

(** An increasing list around one key. *)
Lemma increasing_split p kvs t :
  increasing p kvs ->
  exists xs o ys, kvs = xs ++ o ++ ys /\ Forall (fun kv => kv.1 < t) xs /\
    (o = [] \/ exists v, o = [(t, v)]) /\ Forall (fun kv => t < kv.1) ys /\ increasing None ys.
Proof.
  revert p. induction kvs as [|[k v] kvs IH]; intros p Hi.
  { exists [], [], []. split_and!; auto. }
  destruct Hi as [_ Hi]. cbn [fst] in Hi. pose proof (increasing_above _ _ Hi) as Ha.
  destruct (Z.lt_trichotomy k t) as [Hk|[->|Hk]].
  - destruct (IH _ Hi) as (xs & o & ys & -> & ? & ? & ? & ?). exists ((k, v) :: xs), o, ys.
    split_and!; auto.
  - exists [], [(t, v)], kvs. split_and!; eauto using increasing_weaken.
  - exists [], [], ((k, v) :: kvs). split_and!; auto; [|done].
    constructor; [done|]. eapply Forall_impl; [done|]. cbn. lia.
Qed.

(** ** The list a record carries *)

Definition svc_values (rdata : bytes) : Res DnsError (list KeyValue) :=
  for_params rdata (fun acc param => Ok (acc ++ [(sp_key param, sp_value param)])) [].

Lemma values_fold acc at_ kvs :
  res_foldl (fun acc param => Ok (acc ++ [(sp_key param, sp_value param)])) acc (place at_ kvs)
  = @Ok DnsError _ (acc ++ kvs).
Proof.
  revert acc at_. induction kvs as [|[k v] kvs IH]; intros acc at_; cbn; [by rewrite app_nil_r|].
  rewrite IH. by rewrite <- app_assoc.
Qed.

(** The target name decides on the bytes it occupies alone. *)
Lemma target_loop_local fuel rdata cursor c :
  bytes_ok rdata -> target_loop fuel rdata cursor = Ok c -> (c <= length rdata)%nat ->
  (cursor < c)%nat /\
  forall rest fuel', (c <= fuel' + cursor)%nat -> target_loop fuel' (take c rdata ++ rest) cursor = Ok c.
Proof.
  intros Hok. revert cursor. induction fuel as [|fuel IH]; intros cursor; [done|]. cbn [target_loop].
  destruct (rdata !! cursor) as [b|] eqn:Eb; [|done]. cbn [ok_or mbind Res_bind].
  destruct (negb _) eqn:El; [done|]. intros H Hc.
  assert (0 <= b < 256) as Hb by (by eapply (Forall_lookup_1 _ _ _ _ Hok)).
  assert (cursor < c)%nat as Hlt.
  { destruct (b =? 0); [injection H; lia|]. apply IH in H as [? _]; lia. }
  split; [done|]. intros rest [|fuel'] Hf; [lia|]. cbn [target_loop].
  pose proof (lookup_lt_Some _ _ _ Eb).
  rewrite lookup_app_l by (rewrite length_take; lia). rewrite lookup_take_lt by lia.
  rewrite Eb. cbn [ok_or mbind Res_bind]. rewrite El.
  destruct (b =? 0); [done|]. apply IH in H as [? H]; [|done]. apply H. lia.
Qed.

Lemma svc_params_head rdata c :
  bytes_ok rdata -> svc_params rdata = Ok c ->
  (c <= length rdata)%nat /\ forall rest, svc_params (take c rdata ++ rest) = Ok c.
Proof.
  intros Hok. unfold svc_params. destruct (_ <? 2)%nat eqn:E2; [done|]. reflect.
  destruct (target_loop _ _ _) as [c'| |] eqn:Et; [|done|done]. cbn [mbind Res_bind].
  destruct (_ <? c')%nat eqn:Ec; [done|]. intros [= <-]. reflect. split; [done|]. intros rest.
  destruct (target_loop_local _ _ _ _ Hok Et ltac:(done)) as [Hlt Hloc].
  rewrite (proj2 (Nat.ltb_ge _ _)) by (rewrite length_app, length_take; lia).
  rewrite Hloc by (rewrite length_app, length_take; lia). cbn [mbind Res_bind].
  by rewrite (proj2 (Nat.ltb_ge _ _)) by (rewrite length_app, length_take; lia).
Qed.

(** A record that walks is its head and its parameters, and walking another list
    behind the same head is folding that list. *)
Lemma for_params_inv {S_} rdata (body : S_ -> SvcParam -> Res DnsError S_) s s' :
  bytes_ok rdata -> for_params rdata body s = Ok s' ->
  exists head kvs, rdata = head ++ wire_params kvs /\ Forall kv_ok kvs /\ increasing None kvs /\
    forall S' (body' : S' -> SvcParam -> Res DnsError S') s kvs', Forall kv_ok kvs' -> increasing None kvs' ->
      for_params (head ++ wire_params kvs') body' s = res_foldl body' s (place (length head) kvs').
Proof.
  intros Hok. unfold for_params. destruct (svc_params rdata) as [c| |] eqn:Ec; [|done|done]. cbn [mbind Res_bind].
  destruct (svc_params_head _ _ Hok Ec) as [Hle Hhead].
  intros (kvs & Hd & Hall & Hinc & _)%params_loop_inv; [|done|done].
  exists (take c rdata), kvs. split_and!; [|done|done|].
  { rewrite <- Hd. by rewrite take_drop. }
  intros S' body' s0 kvs' Hall' Hinc'. rewrite Hhead. cbn [mbind Res_bind].
  assert (length (take c rdata) = c) as Lc by (rewrite length_take; lia).
  set (head := take c rdata) in *. rewrite <- Lc. apply params_loop_wire; [done|done|].
  rewrite length_app. assert (length kvs' <= length (wire_params kvs'))%nat; [|lia].
  clear. induction kvs' as [|kv kvs' IH]; [done|]. unfold wire_params in *.
  cbn [fmap list_fmap concat length]. rewrite length_app, length_wire_param. lia.
Qed.

(** ** What the policy removes *)

(** Whether the record's [alpn] offers HTTP/3. *)
Definition offers_h3 (kvs : list KeyValue) : bool :=
  existsb (fun kv => (kv.1 =? SVCPARAM_ALPN)
                     && match alpn_offers_h3 kv.2 with Ok b => b | _ => false end) kvs.

(** A parameter the policy lets through. *)
Definition kept (policy : AnswerPolicy) (kvs : list KeyValue) (kv : KeyValue) : bool :=
  negb (bool_decide (ap_ech policy = EchStrip) && (kv.1 =? SVCPARAM_ECH))
  && negb (bool_decide (ap_alpn policy = StripH3) && offers_h3 kvs
           && ((kv.1 =? SVCPARAM_ALPN) || (kv.1 =? SVCPARAM_NO_DEFAULT_ALPN))).

(** The place of a stretch of parameters, when it has any. *)
Definition span (at_ : nat) (kvs : list KeyValue) : option Range :=
  match kvs with [] => None | _ => Some (at_, (at_ + length (wire_params kvs))%nat) end.

(** The stretches of a parameter list: what stands before [alpn], [alpn] itself,
    [no-default-alpn], what stands between it and [ech], [ech], and the rest. *)
Record layout (kvs a o1 o2 m e z : list KeyValue) : Prop := mkLayout {
  lay_eq : kvs = a ++ o1 ++ o2 ++ m ++ e ++ z;
  lay_a : Forall (fun kv => kv.1 < 1) a;
  lay_o1 : o1 = [] \/ exists v, o1 = [(1, v)];
  lay_o2 : o2 = [] \/ exists v, o2 = [(2, v)];
  lay_m : Forall (fun kv => 2 < kv.1 < 5) m;
  lay_e : e = [] \/ exists v, e = [(5, v)];
  lay_z : Forall (fun kv => 5 < kv.1) z;
}.

Lemma layout_exists kvs : increasing None kvs -> exists a o1 o2 m e z, layout kvs a o1 o2 m e z.
Proof.
  intros (a & o1 & r & -> & Ha & Ho1 & Hr & Hi)%(increasing_split _ _ 1).
  apply (increasing_split _ _ 2) in Hi as (b & o2 & r2 & -> & Hb & Ho2 & Hr2 & Hi).
  apply (increasing_split _ _ 5) in Hi as (m & e & z & -> & Hm & He & Hz & _).
  destruct b as [|kv b].
  2:{ apply Forall_cons in Hr as [? _]. apply Forall_cons in Hb as [? _]. lia. }
  exists a, o1, o2, m, e, z. split; try done. apply Forall_app in Hr2 as [Hr2 _].
  rewrite Forall_forall in *. intros kv Hkv. specialize (Hr2 _ Hkv). specialize (Hm _ Hkv). cbn in *. lia.
Qed.

(** The stretch in the middle decides: the body skips what is around it. *)
Lemma res_foldl_mid {A} (f : A -> SvcParam -> Res DnsError A) s at_ (P : KeyValue -> Prop) xs mid ys :
  (forall s kv r, P kv -> f s (mkParam kv.1 kv.2 r) = Ok s) -> Forall P xs -> Forall P ys ->
  res_foldl f s (place at_ (xs ++ mid ++ ys)) = res_foldl f s (place (at_ + length (wire_params xs)) mid).
Proof.
  intros Hf Hx Hy. rewrite !place_app, !res_foldl_app, (res_foldl_skip f s P); [|auto|done]. cbn [mbind Res_bind].
  rewrite res_foldl_app. destruct (res_foldl f s (place _ mid)) as [s'| |]; [|done|done]. cbn [mbind Res_bind].
  apply (res_foldl_skip f s' P); auto.
Qed.

Lemma Forall_opt {P : KeyValue -> Prop} l k :
  (l = [] \/ exists v, l = [(k, v)]) -> (forall v, P (k, v)) -> Forall P l.
Proof. intros [->|[v ->]] H; auto. Qed.

Lemma ech_fold at_ kvs a o1 o2 m e z :
  layout kvs a o1 o2 m e z ->
  res_foldl (fun found param => Ok (if sp_key param =? SVCPARAM_ECH then Some (sp_at param) else found)) None
    (place at_ kvs)
  = @Ok DnsError _ (span (at_ + length (wire_params (a ++ o1 ++ o2 ++ m))) e).
Proof.
  intros [E Ha Ho1 Ho2 Hm He Hz].
  replace kvs with ((a ++ o1 ++ o2 ++ m) ++ e ++ z) by (rewrite E; by rewrite <- !app_assoc).
  rewrite (res_foldl_mid _ _ _ (fun kv => kv.1 <> 5)).
  - destruct He as [->|[v ->]]; cbn; [done|]. by rewrite app_nil_r.
  - intros s kv r H. cbn. by rewrite (proj2 (Z.eqb_neq _ _)).
  - rewrite !Forall_app. split_and!; [|by eapply Forall_opt|by eapply Forall_opt|];
      (eapply Forall_impl; [done|]); cbn; lia.
  - eapply Forall_impl; [done|]. cbn. lia.
Qed.

Lemma h3_fold at_ kvs a o1 o2 m e z r :
  layout kvs a o1 o2 m e z -> res_foldl h3_body None (place at_ kvs) = Ok r ->
  r = if offers_h3 kvs then span (at_ + length (wire_params a)) (o1 ++ o2) else None.
Proof.
  intros [E Ha Ho1 Ho2 Hm He Hz].
  assert (forall kv : KeyValue, kv.1 <> 1 /\ kv.1 <> 2 -> (kv.1 =? SVCPARAM_ALPN)
     && match alpn_offers_h3 kv.2 with Ok b => b | _ => false end = false) as Hno
    by (intros kv [Hk _]; apply andb_false_intro1; by apply Z.eqb_neq).
  assert (Forall (fun kv => kv.1 <> 1 /\ kv.1 <> 2) a /\ Forall (fun kv => kv.1 <> 1 /\ kv.1 <> 2) (m ++ e ++ z))
    as [Fa Fz].
  { rewrite !Forall_app. split_and!; [| |by eapply Forall_opt|]; (eapply Forall_impl; [done|]); cbn; lia. }
  assert (offers_h3 kvs = offers_h3 (o1 ++ o2)) as ->.
  { rewrite E. unfold offers_h3. rewrite !existsb_app.
    assert (forall l, Forall (fun kv => kv.1 <> 1 /\ kv.1 <> 2) l -> existsb (fun kv => (kv.1 =? SVCPARAM_ALPN)
     && match alpn_offers_h3 kv.2 with Ok b => b | _ => false end) l = false) as Hl
     by (intros l Hl; induction Hl; cbn [existsb]; [done|]; rewrite Hno; done).
    rewrite (Hl a Fa). rewrite <- !existsb_app. rewrite (app_assoc o1), existsb_app, (Hl _ Fz).
    by rewrite orb_false_r. }
  replace kvs with (a ++ (o1 ++ o2) ++ m ++ e ++ z) by (rewrite E; by rewrite <- !app_assoc).
  rewrite (res_foldl_mid _ _ _ (fun kv => kv.1 <> 1 /\ kv.1 <> 2)); [|clear|done|done].
  2:{ intros s kv r [H1 H2]. unfold h3_body. cbn. by rewrite !(proj2 (Z.eqb_neq _ _)). }
  clear - Ho1 Ho2. destruct Ho1 as [->|[v ->]], Ho2 as [->|[w ->]]; cbn -[alpn_offers_h3 Nat.add];
    try destruct (alpn_offers_h3 v) as [[]| |]; cbn -[Nat.add]; intros; simplify_eq; try done;
    rewrite ?app_nil_r, ?length_app; cbn; do 2 f_equal; lia.
Qed.

(** ** The cuts *)

Definition nonempty {A} (l : list A) : bool := match l with [] => false | _ => true end.

Lemma without_all_cut (A X B Y C : bytes) (hx hy : bool) :
  let second := (length A + length X + length B)%nat in
  exists parts,
    Rdata_without_all (A ++ X ++ B ++ Y ++ C)
      (if hx then Some (length A, (length A + length X)%nat) else None)
      (if hy then Some (second, (second + length Y)%nat) else None) = Some parts /\
    concat parts = A ++ (if hx then [] else X) ++ B ++ (if hy then [] else Y) ++ C.
Proof.
  cbv zeta. set (bs := A ++ X ++ B ++ Y ++ C).
  assert (length bs = length A + length X + length B + length Y + length C)%nat as L
    by (unfold bs; rewrite !length_app; lia).
  assert (bs = (A ++ X ++ B) ++ Y ++ C /\ bs = (A ++ X) ++ B ++ Y ++ C /\ bs = (A ++ X ++ B ++ Y) ++ C) as (E1 & E2 & E3)
    by (unfold bs; by rewrite <- !app_assoc).
  assert (take (length A) bs = A) as T1 by apply take_app_length.
  assert (take (length A + length X + length B) bs = A ++ X ++ B) as T2
    by (rewrite E1; apply take_app_length'; rewrite !length_app; lia).
  assert (drop (length A + length X) bs = B ++ Y ++ C) as D1
    by (rewrite E2; apply drop_app_length'; rewrite !length_app; lia).
  assert (drop (length A + length X + length B + length Y) bs = C) as D2
    by (rewrite E3; apply drop_app_length'; rewrite !length_app; lia).
  unfold Rdata_without_all, Rdata_without, Rdata_without_both, get_to, get_from, get_range.
  destruct hx, hy; cbn [fst snd]; rewrite ?(proj2 (Nat.leb_le _ _)) by lia;
    rewrite ?(proj2 (Nat.ltb_ge _ _)) by lia; cbn [mbind option_bind andb]; eexists; (split; [done|]);
    cbn [concat Rdata_verbatim]; rewrite ?T1, ?T2, ?D1, ?D2, ?app_nil_r; rewrite <- ?app_assoc; try done.
  cbn [app]. do 2 f_equal. apply take_app_length'. lia.
Qed.

Lemma keep_span (keep : bool) at_ kvs :
  option_keep keep (span at_ kvs)
  = if keep && nonempty kvs then Some (at_, (at_ + length (wire_params kvs))%nat) else None.
Proof. by destruct keep, kvs. Qed.

Lemma drop_nonempty (cut : bool) kvs :
  (if cut && nonempty kvs then [] else wire_params kvs) = wire_params (if cut then [] else kvs).
Proof. by destruct cut, kvs. Qed.

Lemma filter_keep_all (P : KeyValue -> bool) (l : list KeyValue) : (forall kv, kv ∈ l -> P kv = true) -> filter P l = l.
Proof.
  intros H. induction l as [|kv l IH]; [done|]. rewrite filter_cons, (H kv) by left. cbn. f_equal. apply IH.
  intros kv' Hin. apply H. by right.
Qed.

(** The filter takes whole stretches away. *)
Lemma filter_layout policy kvs a o1 o2 m e z :
  layout kvs a o1 o2 m e z ->
  let ch := bool_decide (ap_alpn policy = StripH3) && offers_h3 kvs in
  let ce := bool_decide (ap_ech policy = EchStrip) in
  filter (kept policy kvs) kvs
  = a ++ (if ch then [] else o1 ++ o2) ++ m ++ (if ce then [] else e) ++ z.
Proof.
  intros [E Ha Ho1 Ho2 Hm He Hz] ch ce.
  assert (forall kv, kept policy kvs kv
     = negb (ce && (kv.1 =? 5)) && negb (ch && ((kv.1 =? 1) || (kv.1 =? 2)))) as K
    by (intros kv; unfold kept, ch, ce; by rewrite ?andb_assoc).
  set (P := kept policy kvs) in *. clearbody P ch ce. rewrite E, !filter_app. clear E.
  assert (forall k (l : list KeyValue), (l = [] \/ exists v, l = [(k, v)]) -> filter P l = if P (k, []) then l else []) as Opt.
  { intros k l [->|[v ->]]; [by destruct (P _)|]. assert (P (k, v) = P (k, [])) as Pk by (by rewrite !K).
    rewrite <- Pk. rewrite filter_cons. by destruct (P (k, v)). }
  rewrite !Forall_forall in *.
  assert (forall l : list KeyValue, (forall kv, kv ∈ l -> kv.1 <> 1 /\ kv.1 <> 2 /\ kv.1 <> 5) -> filter P l = l) as Keep.
  { intros l Hl. apply filter_keep_all. intros kv (H1 & H2 & H5)%Hl. rewrite K.
    rewrite !(proj2 (Z.eqb_neq _ _)) by done. by rewrite !andb_false_r. }
  rewrite (Keep a) by (intros kv ?%Ha; lia). rewrite (Keep m) by (intros kv ?%Hm; lia).
  rewrite (Keep z) by (intros kv ?%Hz; lia).
  rewrite (Opt 1 o1), (Opt 2 o2), (Opt 5 e), !K by done. by destruct ch, ce; cbn; rewrite <- ?app_assoc.
Qed.

(** A filtered list has nothing left for a second pass to find. *)
Lemma ech_none_left policy kvs at_ :
  ap_ech policy = EchStrip ->
  res_foldl (fun found param => Ok (if sp_key param =? SVCPARAM_ECH then Some (sp_at param) else found)) None
    (place at_ (filter (kept policy kvs) kvs)) = @Ok DnsError _ None.
Proof.
  intros Hp. apply (res_foldl_skip _ _ (fun kv => (kv.1 =? SVCPARAM_ECH) = false)).
  - intros kv r H. cbn. by rewrite H.
  - apply Forall_forall. intros kv [H _]%list_elem_of_filter. unfold kept in H.
    rewrite bool_decide_true in H by done. by destruct (kv.1 =? SVCPARAM_ECH).
Qed.

Lemma h3_none_left policy kvs at_ r0 :
  ap_alpn policy = StripH3 -> increasing None kvs -> res_foldl h3_body None (place at_ kvs) = Ok r0 ->
  res_foldl h3_body None (place at_ (filter (kept policy kvs) kvs)) = Ok None.
Proof.
  intros Hp Hinc H0.
  assert (forall kv, kv ∈ kvs -> kv.1 = SVCPARAM_ALPN -> exists b, alpn_offers_h3 kv.2 = Ok b) as Hall.
  { clear Hinc Hp. revert H0. generalize (@None Range). revert at_.
    induction kvs as [|kv kvs IH]; intros at_ found Hf kv' Hin Hk; [by apply elem_of_nil in Hin|].
    cbn [place res_foldl] in Hf. destruct (h3_body _ _) as [f'| |] eqn:Eb; [|done|done]. cbn [mbind Res_bind] in Hf.
    apply elem_of_cons in Hin as [->|Hin]; [|by eapply IH]. unfold h3_body in Eb. cbn [sp_key sp_value] in Eb.
    rewrite Hk in Eb. cbn [Z.eqb SVCPARAM_ALPN Pos.eqb] in Eb. destruct (alpn_offers_h3 _); [eauto|done|done]. }
  apply (res_foldl_skip _ _ (fun kv => kv.1 = SVCPARAM_ALPN -> alpn_offers_h3 kv.2 = Ok false)).
  - intros kv r H. unfold h3_body. cbn [sp_key sp_value sp_at]. destruct (kv.1 =? SVCPARAM_ALPN) eqn:E.
    + apply Z.eqb_eq in E. by rewrite H.
    + by destruct (_ =? SVCPARAM_NO_DEFAULT_ALPN).
  - apply Forall_forall. intros kv [H Hin]%list_elem_of_filter Hk. unfold kept in H.
    rewrite (bool_decide_true (_ = StripH3)) in H by done. rewrite Hk in H.
    destruct (Hall kv Hin Hk) as [[] Hb]; [|done]. exfalso.
    assert (offers_h3 kvs = true) as Ho; [|rewrite Ho in H; by destruct (negb _)].
    apply existsb_exists. exists kv. rewrite <- list_elem_of_In, Hk, Hb. done.
Qed.

(** C35: on a record whose service parameters walk, the cuts of the two scans never
    fail or overlap, and what is written is the head of the record and exactly the
    parameters the policy keeps: all but [ech] when it strips ECH, and all but an
    [alpn] that offers HTTP/3 and its [no-default-alpn] when it steers. A second
    scan of the result finds nothing left to strip. *)
Theorem strip_correct (policy : AnswerPolicy) (rdata : bytes) (ech h3 : option Range) :
  bytes_ok rdata -> ech_param rdata = Ok ech -> h3_alpn_param rdata = Ok h3 ->
  exists parts head kvs,
    Rdata_without_all rdata (option_keep (bool_decide (ap_alpn policy = StripH3)) h3)
      (option_keep (bool_decide (ap_ech policy = EchStrip)) ech) = Some parts /\
    rdata = head ++ wire_params kvs /\ svc_values rdata = Ok kvs /\
    let left_ := filter (kept policy kvs) kvs in
    concat parts = head ++ wire_params left_ /\ svc_values (concat parts) = Ok left_ /\
    (ap_ech policy = EchStrip -> ech_param (concat parts) = Ok None) /\
    (ap_alpn policy = StripH3 -> h3_alpn_param (concat parts) = Ok None).
Proof.
  intros Hok Hech Hh3. unfold ech_param, h3_alpn_param, svc_values in *.
  destruct (for_params_inv _ _ _ _ Hok Hech) as (head & kvs & -> & Hall & Hinc & Hwalk).
  rewrite Hwalk in Hech, Hh3 by done. destruct (layout_exists kvs Hinc) as (a & o1 & o2 & m & e & z & Hlay).
  rewrite (ech_fold _ _ _ _ _ _ _ _ Hlay) in Hech. injection Hech as <-.
  pose proof (h3_fold _ _ _ _ _ _ _ _ _ Hlay Hh3) as ->. pose proof (lay_eq _ _ _ _ _ _ _ Hlay) as Ekvs.
  set (ch := bool_decide (ap_alpn policy = StripH3) && offers_h3 kvs). set (ce := bool_decide (ap_ech policy = EchStrip)).
  destruct (without_all_cut (head ++ wire_params a) (wire_params (o1 ++ o2)) (wire_params m) (wire_params e)
    (wire_params z) (ch && nonempty (o1 ++ o2)) (ce && nonempty e)) as (parts & Hparts & Hcat).
  assert (concat parts = head ++ wire_params (filter (kept policy kvs) kvs)) as Hcat'
    by (rewrite Hcat, (filter_layout policy kvs _ _ _ _ _ _ Hlay), !drop_nonempty, !wire_params_app;
        by rewrite <- !app_assoc).
  assert (Forall kv_ok (filter (kept policy kvs) kvs)) as Hall'
    by (apply Forall_forall; intros kv [_ Hin]%list_elem_of_filter; rewrite Forall_forall in Hall; auto).
  pose proof (increasing_filter _ (fun kv => kept policy kvs kv) _ Hinc) as Hinc'.
  exists parts, head, kvs. cbv zeta. rewrite Hcat', !Hwalk by done. rewrite !values_fold.
  split_and!; try done; [|intros; by apply ech_none_left|intros; by eapply h3_none_left].
  rewrite <- Hparts. f_equal.
  - rewrite Ekvs, !wire_params_app, <- !app_assoc. done.
  - rewrite length_app, <- keep_span. unfold ch.
    by destruct (bool_decide _), (offers_h3 kvs).
  - rewrite <- keep_span. unfold ce. f_equal. f_equal. rewrite !wire_params_app, !length_app. lia.
Qed.

(** HTTPS RDATA with the root target and [alpn = "h3"], [no-default-alpn], [port],
    [ech]: both policies strip it down to the port. *)
Definition example_https : bytes :=
  [0; 1; 0;  0; 1; 0; 3; 2; 104; 51;  0; 2; 0; 0;  0; 3; 0; 2; 1; 187;  0; 5; 0; 1; 9].

Lemma strip_correct_witness :
  exists parts head kvs,
    Rdata_without_all example_https (Some (3, 14)%nat) (Some (20, 25)%nat) = Some parts /\
    example_https = head ++ wire_params kvs /\
    concat parts = head ++ wire_params (filter (kept (mkAnswerPolicy EchStrip StripH3) kvs) kvs) /\
    concat parts = [0; 1; 0; 0; 3; 0; 2; 1; 187] /\ ech_param (concat parts) = Ok None.
Proof.
  destruct (strip_correct (mkAnswerPolicy EchStrip StripH3) example_https (Some (20, 25)%nat) (Some (3, 14)%nat))
    as (parts & head & kvs & Hp & Hr & _ & Hc & _ & He & _); [repeat constructor; lia|by vm_compute|by vm_compute|].
  exists parts, head, kvs. split_and!; [exact Hp|exact Hr|exact Hc| |by apply He].
  vm_compute in Hp. by injection Hp as <-.
Defined.
