(* ===== verification/DnsTotal.v ===== *)
(** The DNS decoders and the response writer are total: no bytes of a client or of an
    upstream make them panic, and every walk over names, records and parameters ends. *)

From S2P Require Import Prelude Wire Net DnsName DnsMessage DnsPolicy DnsResponse DnsStrip.
Open Scope Z_scope.

Lemma bind_no_panic {E A B} (r : Res E A) (f : A -> Res E B) :
  r <> Panic -> (forall a, r = Ok a -> f a <> Panic) -> (r ≫= f) <> Panic.
Proof. destruct r as [a|e|]; [intros _ Hf; by apply Hf|done|done]. Qed.

Lemma ok_or_no_panic {E A} (e : E) (o : option A) : ok_or e o <> Panic.
Proof. by destruct o. Qed.

#[local] Hint Resolve ok_or_no_panic : core.

(** Reading a field leaves the cursor behind it. *)
Lemma u16_field {A} (bs : bytes) k (f : Z * Reader -> Res DnsError A) :
  bytes_ok bs -> (forall v, (k + 2 <= length bs)%nat -> f (v, mkReader bs (k + 2)) <> Panic) ->
  (ok_or Truncated (Reader_u16 (mkReader bs k)) ≫= f) <> Panic.
Proof.
  intros Hok Hf. apply bind_no_panic; [done|]. intros [v r] Hr. destruct (Reader_u16 _) as [[v' r']|] eqn:E; [|done].
  apply Reader_u16_inv in E as (_ & Hl & _ & ->); [|done]. cbn in Hr. injection Hr as <- <-. by apply Hf.
Qed.

Lemma Message_parse_total bs : bytes_ok bs -> Message_parse bs <> Panic.
Proof.
  intros Hok. unfold Message_parse, Reader_new. do 6 (apply u16_field; [done|]; intros ? ?). cbn [Nat.add] in *.
  destruct (negb _); [done|]. destruct (_ =? 0); [done|]. destruct (negb _); [done|]. unfold Reader_position. cbn [r_at].
  apply bind_no_panic; [pose proof (Name_read_ok bs 12 Hok); by destruct (Name_read bs 12)|]. intros [n len] Hn.
  destruct (negb _); [done|]. apply bind_no_panic; [done|]. intros r Hr. unfold Reader_skip in Hr.
  destruct (Reader_take _ len) as [[qname r7]|] eqn:E7; [|done]. apply Reader_take_Some in E7 as (Hle & _ & ->). cbn in Hr. injection Hr as <-.
  cbn [r_bytes r_at] in *. do 2 (apply u16_field; [done|]; intros ? ?). cbn [r_at r_bytes].
  unfold get_range. rewrite (proj2 (Nat.leb_le _ _)), (proj2 (Nat.leb_le _ _)) by lia. done.
Qed.

Lemma target_loop_total fuel rdata : forall cursor, (length rdata - cursor < fuel)%nat -> target_loop fuel rdata cursor <> Panic.
Proof.
  induction fuel as [|fuel IH]; intros cursor Hf; [lia|]. cbn [target_loop]. apply bind_no_panic; [done|]. intros b Hb.
  destruct (rdata !! cursor) as [b'|] eqn:E; [|done]. apply lookup_lt_Some in E. destruct (negb _); [done|]. destruct (b =? 0); [done|]. apply IH. lia.
Qed.

Lemma svc_params_total rdata : svc_params rdata <> Panic.
Proof.
  unfold svc_params. destruct (_ <? 2)%nat; [done|]. apply bind_no_panic; [apply target_loop_total; lia|]. intros c _. by destruct (_ <? c)%nat.
Qed.

Lemma SvcParams_read_total rdata cursor previous : SvcParams_read rdata cursor previous <> Panic.
Proof.
  unfold SvcParams_read. apply bind_no_panic; [done|]. intros r _. do 2 (apply bind_no_panic; [done|]; intros [? ?] _).
  by destruct (match previous with Some _ => _ | None => _ end).
Qed.

Lemma params_loop_total {S_} (body : S_ -> SvcParam -> Res DnsError S_) rdata fuel :
  bytes_ok rdata -> (forall s p, bytes_ok (sp_value p) -> body s p <> Panic) ->
  forall cursor previous s, (length rdata - cursor < fuel)%nat -> params_loop fuel rdata cursor previous body s <> Panic.
Proof.
  intros Hok Hbody. induction fuel as [|fuel IH]; intros cursor previous s Hf; [lia|]. cbn [params_loop].
  destruct (_ <=? cursor)%nat eqn:Ec; [done|]. reflect. apply bind_no_panic; [apply SvcParams_read_total|]. intros p Hp.
  destruct (SvcParams_read_inv _ _ _ _ Hok Hp) as ([k v] & Hkv & Hd & Heq & Hle & _). rewrite Heq. cbn [sp_at snd sp_key].
  rewrite length_wire_param in *. cbn [snd] in *. apply bind_no_panic; [|intros; apply IH; lia]. apply Hbody. cbn.
  assert (bytes_ok (drop cursor rdata)) as Hdk by (by apply Forall_drop). rewrite Hd in Hdk. apply Forall_app in Hdk as [Hdk _].
  unfold wire_param in Hdk. rewrite !Forall_app in Hdk. by destruct Hdk as (_ & _ & ?).
Qed.

Lemma alpn_loop_total fuel value : bytes_ok value -> forall cursor, (length value - cursor < fuel)%nat -> alpn_loop fuel value cursor <> Panic.
Proof.
  intros Hok. induction fuel as [|fuel IH]; intros cursor Hf; [lia|]. cbn [alpn_loop]. destruct (_ <=? cursor)%nat eqn:Ec; [done|]. reflect.
  destruct (lookup_lt_is_Some_2 value cursor Ec) as [b Hb]. rewrite Hb. cbn [or_panic mbind Res_bind]. destruct (b =? 0) eqn:E0; [done|].
  apply bind_no_panic; [done|]. intros identifier _. destruct (is_h3 identifier); [done|]. apply IH. lia.
Qed.

Lemma h3_body_total found p : bytes_ok (sp_value p) -> h3_body found p <> Panic.
Proof.
  intros Hok. unfold h3_body. destruct (_ =? SVCPARAM_ALPN); [|by destruct (_ =? SVCPARAM_NO_DEFAULT_ALPN)].
  apply bind_no_panic; [apply alpn_loop_total; [done|lia]|done].
Qed.

Lemma for_params_total {S_} (body : S_ -> SvcParam -> Res DnsError S_) rdata s :
  bytes_ok rdata -> (forall s p, bytes_ok (sp_value p) -> body s p <> Panic) -> for_params rdata body s <> Panic.
Proof.
  intros Hok Hb. unfold for_params. apply bind_no_panic; [apply svc_params_total|]. intros c _. apply params_loop_total; [done|done|lia].
Qed.

Lemma write_answer_total policy age out w st a :
  holds out w st -> record_ok a -> write_answer policy age st a <> Panic.
Proof.
  intros (Ho & Hc & Hw) Hr. unfold write_answer.
  apply bind_no_panic.
  { destruct (carries_svc_params _); [|done]. apply bind_no_panic; [apply for_params_total; [apply Hr|done]|]. intros ech _.
    apply bind_no_panic; [apply for_params_total; [apply Hr|intros; by apply h3_body_total]|done]. }
  intros [e h] _. apply bind_no_panic; [done|]. intros rdata _. destruct (ro_name a Hr) as [_ (ls & Hn & Hls)]. fold (aged age a).
  rewrite Ho, Hc, (write_record_run _ _ _ _ ls) by (try done; rewrite length_splice; lia).
  destruct (_ && _); [|done]. done.
Qed.

Lemma write_answers_total policy age out items : forall w st,
  0 <= age -> holds out w st ->
  Forall (fun item => match item with Ok r => record_ok r | Err _ => True | Panic => False end) items ->
  write_answers policy age st items <> Panic.
Proof.
  induction items as [|item items IH]; intros w st Hage Hh Hok; [done|]. cbn [write_answers]. apply Forall_cons in Hok as [Hi Hok].
  destruct item as [a| |]; [|done|done]. cbn [mbind Res_bind]. apply bind_no_panic; [by eapply write_answer_total|]. intros st1 H1.
  destruct (ro_name a Hi) as [_ (ls & Hn & Hls)]. destruct (write_answer_ok policy age out w st a st1 ls Hh Hn Hls H1) as (data & _ & _ & Hh1 & _).
  by eapply IH.
Qed.

(** No reply of an upstream makes the rewriting panic. *)
Lemma write_response_total ubs query upstream out policy age :
  bytes_ok ubs -> Message_parse ubs = Ok upstream -> 0 <= age -> write_response_aged out query upstream policy age <> Panic.
Proof.
  intros Hu Pu Hage. unfold write_response_aged. rewrite write_header_run. set (w0 := header_bytes _ _ _ _ _ _ ++ _).
  destruct (_ <=? _)%nat eqn:E0; [|done]. reflect. cbn [mbind Res_bind].
  destruct (Message_answers_items ubs upstream Hu Pu) as (_ & _ & Hitems).
  apply bind_no_panic; [by apply (write_answers_total policy age out _ w0)|]. intros st _. apply bind_no_panic; [done|]. intros an _.
  apply bind_no_panic; [done|]. by intros [? ?] _.
Qed.
