(* ===== verification/Cache.v ===== *)
(** The reply cache ([src/policy/cache.rs]): what a reply's lifetime is, and that
    the bounded cache only ever answers what an unbounded one would. *)

From S2P Require Import Prelude Wire Fifo DnsName DnsMessage DnsResponse.
Open Scope Z_scope.

Definition MIN_TTL : Duration := from_secs 30.
Definition MAX_TTL : Duration := from_secs 3600.
Definition NEGATIVE_TTL : Duration := from_secs 60.
Definition SOA : Z := 6.

Record Cached := mkCached { ca_reply : bytes; ca_admitted : Instant; ca_expires : Instant }.

Abbreviation CacheKey := (Name * RecordType)%type.

Record DnsCache := mkCache { dc_entries : BoundedFifo CacheKey Cached }.

Definition DnsCache_new (capacity : nat) : DnsCache := mkCache (BoundedFifo_new capacity).

(** [expires > now], and the age of what is served. *)
Definition serve (now : Instant) (cached : Cached) : option (bytes * Duration) :=
  if now <? ca_expires cached
  then Some (ca_reply cached, saturating_duration_since now (ca_admitted cached)) else None.

Definition DnsCache_get (c : DnsCache) (name : Name) (qtype : RecordType) (now : Instant)
  : option (bytes * Duration) :=
  BoundedFifo_get (dc_entries c) (name, qtype) ≫= serve now.

(** [slice::last_chunk::<4>]. *)
Definition last_chunk (n : nat) (bs : bytes) : option bytes :=
  if (length bs <? n)%nat then None else Some (drop (length bs - n) bs).

Definition negative_lifetime (message : Message) : Duration :=
  let records := omap (fun r : Res DnsError ResourceRecord => match r with Ok r => Some r | _ => None end)
                   (Message_authority message) in
  default NEGATIVE_TTL
    (soa ← List.find (fun record => RecordType_to_wire (rr_rtype record) =? SOA) records;
     minimum ← last_chunk 4 (rr_rdata soa);
     Some (from_secs (Z.min (rr_ttl soa) (be_value minimum)))).

(** The loop over the answers: [None] where a record fails, else the least TTL. *)
Fixpoint shortest_ttl (records : list (Res DnsError ResourceRecord)) (shortest : option Z)
  : option (option Z) :=
  match records with
  | [] => Some shortest
  | Ok record :: records =>
      shortest_ttl records
        (Some (match shortest with Some ttl => Z.min ttl (rr_ttl record) | None => rr_ttl record end))
  | _ :: _ => None
  end.

Definition clamp (lo hi v : Z) : Z := if v <? lo then lo else if hi <? v then hi else v.

Definition lifetime (message : Message) : option Duration :=
  raw ← match Message_rcode message with
        | NoError =>
            shortest ← shortest_ttl (Message_answers message) None;
            Some (match shortest with
                  | None => negative_lifetime message
                  | Some ttl => from_secs ttl
                  end)
        | NameError => Some (negative_lifetime message)
        | _ => None
        end;
  Some (clamp MIN_TTL MAX_TTL raw).

(** [now + lifetime] panics past the clock's range. *)
Definition DnsCache_admit (c : DnsCache) (name : Name) (qtype : RecordType) (reply : bytes) (now : Instant)
  : Res unit DnsCache :=
  match (message ← match Message_parse reply with Ok m => Some m | _ => None end; lifetime message) with
  | None => Ok c
  | Some lifetime =>
      expires ← or_panic (instant_checked_add now lifetime);
      Ok (mkCache (BoundedFifo_insert (dc_entries c) (name, qtype) (mkCached reply now expires)))
  end.

Definition DnsCache_clear (c : DnsCache) : DnsCache := mkCache (BoundedFifo_clear (dc_entries c)).

(** ** Runs *)

Inductive CacheOp :=
| Admit (name : Name) (qtype : RecordType) (reply : bytes) (now : Instant)
| Clear.

Definition cache_step (c : DnsCache) (op : CacheOp) : Res unit DnsCache :=
  match op with
  | Admit name qtype reply now => DnsCache_admit c name qtype reply now
  | Clear => Ok (DnsCache_clear c)
  end.

Fixpoint cache_run (c : DnsCache) (ops : list CacheOp) : Res unit DnsCache :=
  match ops with
  | [] => Ok c
  | op :: ops => c ← cache_step c op; cache_run c ops
  end.

(** A reply worth keeping, with its lifetime. *)
Definition keeps (reply : bytes) (life : Duration) : Prop :=
  exists m, Message_parse reply = Ok m /\ lifetime m = Some life.

(** The reply last admitted for a key and not cleared since, with its admission. *)
Inductive remembered (name : Name) (qtype : RecordType) (reply : bytes) (at_ : Instant) (life : Duration)
  : list CacheOp -> Prop :=
| remembered_here ops :
    keeps reply life -> remembered name qtype reply at_ life (ops ++ [Admit name qtype reply at_])
| remembered_other ops name' qtype' reply' now' :
    remembered name qtype reply at_ life ops ->
    (name', qtype') <> (name, qtype) \/ (forall life', ~ keeps reply' life') ->
    remembered name qtype reply at_ life (ops ++ [Admit name' qtype' reply' now']).

(** Every entry of the cache is remembered by the history. *)
Definition cache_history (c : DnsCache) (ops : list CacheOp) : Prop :=
  forall name qtype cached, fifo_entries (dc_entries c) !! (name, qtype) = Some cached ->
  exists life, remembered name qtype (ca_reply cached) (ca_admitted cached) life ops /\
    ca_expires cached = ca_admitted cached + life.

Lemma keeps_inv reply :
  match (message ← match Message_parse reply with Ok m => Some m | _ => None end; lifetime message) with
  | None => forall life, ~ keeps reply life
  | Some life => keeps reply life
  end.
Proof.
  destruct (Message_parse reply) as [m| |] eqn:E; cbn [mbind option_bind].
  - destruct (lifetime m) eqn:El; [by exists m|]. intros life (m' & Hm & Hl). congruence.
  - intros life (m' & Hm & _). congruence.
  - intros life (m' & Hm & _). congruence.
Qed.

(** Inserting keeps at most the old entries beside the new one. *)
Lemma fifo_insert_lookup {K V} `{Countable K} (f : BoundedFifo K V) key value k v :
  fifo_entries (BoundedFifo_insert f key value) !! k = Some v ->
  (k = key /\ v = value) \/ (k <> key /\ fifo_entries f !! k = Some v).
Proof.
  intros Hl. destruct (decide (k = key)) as [->|Hne]; [left|right]; (split; [done|]).
  - revert Hl. unfold BoundedFifo_insert. repeat case_match; cbn; rewrite lookup_insert_eq; congruence.
  - revert Hl. unfold BoundedFifo_insert. repeat case_match; cbn; rewrite lookup_insert_ne by done; simplify_eq;
      try done; by intros [_ ?]%lookup_delete_Some.
Qed.

Lemma cache_step_history c ops op c' :
  cache_history c ops -> cache_step c op = Ok c' -> cache_history c' (ops ++ [op]).
Proof.
  intros Hinv. destruct op as [name qtype reply now|]; cbn [cache_step].
  2:{ intros [= <-] n q cached. cbn. by rewrite lookup_empty. }
  unfold DnsCache_admit. pose proof (keeps_inv reply) as Hk.
  destruct (_ ≫= lifetime) as [life|] eqn:El.
  - unfold instant_checked_add, checked_add. destruct (_ <=? _); [|done]. cbn [or_panic mbind Res_bind].
    intros [= <-] n q cached. cbn [dc_entries]. intros [[[= -> ->] ->]|[Hne Hold]]%fifo_insert_lookup.
    + exists life. split; [by constructor|done].
    + destruct (Hinv _ _ _ Hold) as (l & Hr & He). exists l. split; [|done].
      apply remembered_other; [done|]. left. congruence.
  - intros [= <-] n q cached Hold. destruct (Hinv _ _ _ Hold) as (l & Hr & He). exists l.
    split; [|done]. apply remembered_other; [done|by right].
Qed.

Lemma cache_run_history c ops0 ops c' :
  cache_history c ops0 -> cache_run c ops = Ok c' -> cache_history c' (ops0 ++ ops).
Proof.
  revert c ops0. induction ops as [|op ops IH]; intros c ops0 Hinv; cbn [cache_run].
  { intros [= <-]. by rewrite app_nil_r. }
  destruct (cache_step c op) as [c1| |] eqn:E; [|done|done]. cbn [mbind Res_bind]. intros Hr.
  change (op :: ops) with ([op] ++ ops). rewrite app_assoc. eapply IH; [|done]. by eapply cache_step_history.
Qed.

(** ** Lifetimes *)

Lemma clamp_range lo hi v : lo <= hi -> lo <= clamp lo hi v <= hi.
Proof. intros. unfold clamp. destruct (v <? lo) eqn:E; [lia|]. destruct (hi <? v) eqn:E2; reflect; lia. Qed.

Lemma lifetime_range m life : lifetime m = Some life -> MIN_TTL <= life <= MAX_TTL.
Proof.
  unfold lifetime. destruct (match Message_rcode m with NoError => _ | _ => _ end); [|done].
  intros [= <-]. apply clamp_range. done.
Qed.

Lemma shortest_ttl_spec records shortest r :
  shortest_ttl records shortest = Some r ->
  exists rs, records = Ok <$> rs /\
    r = foldl (fun s record => Some (match s with Some t => Z.min t (rr_ttl record) | None => rr_ttl record end))
          shortest rs.
Proof.
  revert shortest. induction records as [|[record| |] records IH]; intros shortest; cbn [shortest_ttl];
    [|intros (rs & -> & ->)%IH|done|done].
  - intros [= <-]. by exists [].
  - by exists (record :: rs).
Qed.

Lemma foldl_min_le (rs : list ResourceRecord) s t :
  foldl (fun s record => Some (match s with Some t => Z.min t (rr_ttl record) | None => rr_ttl record end))
    (Some s) rs = Some t ->
  t <= s /\ Forall (fun r => t <= rr_ttl r) rs /\ (t = s \/ exists r, r ∈ rs /\ t = rr_ttl r).
Proof.
  revert s. induction rs as [|r rs IH]; intros s; cbn [foldl].
  { intros [= ->]. split_and!; [lia|constructor|by left]. }
  intros (H1 & H2 & H3)%IH. split_and!; [lia|constructor; [lia|done]|].
  destruct H3 as [H3|(r' & Hr & Ht)]; [|right; exists r'; by split; [right|]].
  destruct (Z.min_spec s (rr_ttl r)) as [[_ E]|[_ E]]; rewrite E in H3; [by left|].
  right. exists r. by split; [left|].
Qed.

(** A positive reply lives exactly as long as its shortest answer, between the
    two bounds. *)
Lemma lifetime_positive m life :
  lifetime m = Some life -> Message_rcode m = NoError -> Message_answers m <> [] ->
  exists rs t, Message_answers m = Ok <$> rs /\ life = clamp MIN_TTL MAX_TTL (from_secs t) /\
    Forall (fun r => t <= rr_ttl r) rs /\ exists r, r ∈ rs /\ t = rr_ttl r.
Proof.
  unfold lifetime. intros Hl Hrc Hne. rewrite Hrc in Hl. destruct (shortest_ttl _ None) as [s|] eqn:Es; [|done].
  cbn [mbind option_bind] in Hl. injection Hl as <-. apply shortest_ttl_spec in Es as (rs & Hrs & ->).
  destruct rs as [|r rs]; [by rewrite Hrs in Hne|]. cbn [foldl].
  destruct (foldl _ _ rs) as [t|] eqn:Ef.
  2:{ exfalso. clear -Ef. revert Ef. generalize (rr_ttl r). induction rs as [|r' rs IH]; intros z; cbn; [done|eauto]. }
  destruct (foldl_min_le _ _ _ Ef) as (H1 & H2 & H3). exists (r :: rs), t. split_and!; try done.
  - by constructor.
  - destruct H3 as [->|(r' & Hr & ->)]; [exists r; by split; [left|]|exists r'; by split; [right|]].
Qed.

Lemma cache_hit c name qtype reply at_ life now c' :
  keeps reply life -> DnsCache_admit c name qtype reply at_ = Ok c' -> now < at_ + life ->
  DnsCache_get c' name qtype now = Some (reply, Z.max 0 (now - at_)).
Proof.
  intros (m & Hm & Hl). unfold DnsCache_admit. rewrite Hm. cbn [mbind option_bind]. rewrite Hl.
  unfold instant_checked_add, checked_add. destruct (_ <=? _); [|done]. cbn [or_panic mbind Res_bind].
  intros [= <-] Hnow. unfold DnsCache_get, BoundedFifo_get. cbn [dc_entries].
  assert (forall (f : BoundedFifo CacheKey Cached) k v, fifo_entries (BoundedFifo_insert f k v) !! k = Some v) as ->
    by (intros; unfold BoundedFifo_insert; repeat case_match; cbn; by rewrite lookup_insert_eq).
  cbn [mbind option_bind]. unfold serve. cbn [ca_expires ca_reply ca_admitted].
  rewrite (proj2 (Z.ltb_lt _ _)) by lia. done.
Qed.

(** ** How long a reply is kept *)

(** The bounded order of the entries, in every state. *)
Definition cache_refines (c : DnsCache) (capacity : nat) : Prop :=
  fifo_capacity (dc_entries c) = capacity /\ exists l, fifo_refines (dc_entries c) l.

(** An operation adds a reply: the one worth keeping of an admission. *)
Lemma cache_step_entries c op c' :
  cache_step c op = Ok c' ->
  match op with
  | Clear => dc_entries c' = BoundedFifo_clear (dc_entries c)
  | Admit name qtype reply now => (c' = c /\ forall life, ~ keeps reply life) \/
      exists life, keeps reply life /\ dc_entries c' = BoundedFifo_insert (dc_entries c) (name, qtype) (mkCached reply now (now + life))
  end.
Proof.
  destruct op as [name qtype reply now|]; cbn [cache_step]; [|by intros [= <-]]. unfold DnsCache_admit. pose proof (keeps_inv reply) as Hk.
  destruct (_ ≫= lifetime) as [life|]; [|intros [= <-]; by left]. unfold instant_checked_add, checked_add. destruct (_ <=? _); [|done].
  cbn [or_panic mbind Res_bind]. intros [= <-]. right. by exists life.
Qed.

Lemma cache_run_refines capacity ops c c' : cache_refines c capacity -> cache_run c ops = Ok c' -> cache_refines c' capacity.
Proof.
  revert c. induction ops as [|op ops IH]; intros c Hc; cbn [cache_run]; [by intros [= <-]|].
  destruct (cache_step c op) as [c1| |] eqn:E; [|done|done]. cbn [mbind Res_bind]. apply IH. destruct Hc as [Hcap [l Hl]].
  apply cache_step_entries in E. destruct op as [name qtype reply now|].
  - destruct E as [[-> _]|(life & _ & Ee)]; [by split; [|exists l]|]. unfold cache_refines. rewrite Ee, fifo_capacity_insert.
    split; [done|]. eexists. by apply fifo_refines_insert.
  - unfold cache_refines. rewrite E. split; [done|]. exists []. destruct Hl. split; cbn; try done; [constructor|lia].
Qed.

(** What may happen while a key is to be kept: other keys are admitted, or replies not worth keeping. *)
Definition spares (name : Name) (qtype : RecordType) (op : CacheOp) : Prop :=
  match op with
  | Clear => False
  | Admit name' qtype' reply _ => (name', qtype') <> (name, qtype) \/ forall life, ~ keeps reply life
  end.

Lemma cache_keeps name qtype cached more : forall c c' before after,
  Forall (spares name qtype) more -> (length more + length after < fifo_capacity (dc_entries c))%nat ->
  fifo_refines (dc_entries c) (before ++ ((name, qtype), cached) :: after) -> cache_run c more = Ok c' ->
  fifo_entries (dc_entries c') !! (name, qtype) = Some cached.
Proof.
  induction more as [|op more IH]; intros c c' before after Hs Hl Hr; cbn [cache_run].
  { intros [= <-]. rewrite (fr_entries _ _ Hr). apply elem_of_list_to_map_1; [apply (fr_nodup _ _ Hr)|]. set_solver. }
  apply Forall_cons in Hs as [Hop Hs]. cbn [length] in Hl.
  destruct (cache_step c op) as [c1| |] eqn:E; [|done|done]. cbn [mbind Res_bind].
  apply cache_step_entries in E. destruct op as [name' qtype' reply now|]; [|done].
  destruct E as [[-> _]|(life & Hk & Ee)]; [eapply IH; [done| |done]; lia|].
  destruct Hop as [Hne|Hno]; [|by destruct (Hno life)].
  destruct (fifo_outlives _ _ _ _ _ (name', qtype') (mkCached reply now (now + life)) Hr Hne ltac:(lia)) as (before' & after' & Hr' & Hl').
  rewrite <- Ee in Hr'. eapply IH; [done| |exact Hr']. rewrite Ee, fifo_capacity_insert. lia.
Qed.

(** An admission of a key the cache does not hold is the newest. *)
Lemma admitted_newest c capacity name qtype reply at_ life c' :
  cache_refines c capacity -> keeps reply life -> DnsCache_admit c name qtype reply at_ = Ok c' ->
  fifo_entries (dc_entries c) !! (name, qtype) = None ->
  exists before, fifo_refines (dc_entries c') (before ++ [((name, qtype), mkCached reply at_ (at_ + life))]) /\ fifo_capacity (dc_entries c') = capacity.
Proof.
  intros [Hcap [l Hl]] Hk Ha Hn. destruct (cache_step_entries c (Admit name qtype reply at_) c' Ha) as [[_ Hno]|(life' & Hk' & Ee)]; [by destruct (Hno life)|].
  assert (life' = life) as -> by (destruct Hk as (m & Hm & Hl1), Hk' as (m' & Hm' & Hl2); congruence).
  pose proof (fifo_refines_insert _ _ (name, qtype) (mkCached reply at_ (at_ + life)) Hl) as Hi. unfold memo_insert in Hi.
  rewrite memo_find_map, <- (fr_entries _ _ Hl), Hn in Hi. rewrite Ee, fifo_capacity_insert. by eexists.
Qed.

(** C40: whatever the cache answers after any run was the reply last admitted for
    that very name and type since the policy changed; it reports success or a
    missing name, has lived less than the lifetime it was admitted with, and that
    lifetime is at least 30 seconds, at most an hour, and for a positive answer no
    longer than its shortest TTL unless that is under 30 seconds; the age is the
    time since its admission.  A reply worth keeping is answered right after its
    admission for as long as its lifetime; and if the cache did not hold its key, it
    stays answered through any later admissions that are fewer than the capacity, as
    long as the cache is not cleared and no other reply for the key is kept. *)
Theorem cache_correct capacity ops c :
  (0 < capacity)%nat -> cache_run (DnsCache_new capacity) ops = Ok c ->
  (forall name qtype now reply age,
    DnsCache_get c name qtype now = Some (reply, age) ->
    exists at_ life m,
      remembered name qtype reply at_ life ops /\ Message_parse reply = Ok m /\
      (Message_rcode m = NoError \/ Message_rcode m = NameError) /\
      MIN_TTL <= life <= MAX_TTL /\ now < at_ + life /\ age = Z.max 0 (now - at_) /\
      (Message_rcode m = NoError ->
       Forall (fun item => match item with Ok r => life <= Z.max MIN_TTL (from_secs (rr_ttl r)) | _ => False end)
         (Message_answers m))) /\
  (forall name qtype reply at_ life now c',
    keeps reply life -> DnsCache_admit c name qtype reply at_ = Ok c' -> now < at_ + life ->
    DnsCache_get c' name qtype now = Some (reply, Z.max 0 (now - at_)) /\
    forall more c'', fifo_entries (dc_entries c) !! (name, qtype) = None -> Forall (spares name qtype) more -> (length more < capacity)%nat ->
      cache_run c' more = Ok c'' -> DnsCache_get c'' name qtype now = Some (reply, Z.max 0 (now - at_))).
Proof.
  intros Hpos Hrun. split.
  2:{ intros name qtype reply at_ life now c' Hk Ha Hnow. split; [by eapply cache_hit|]. intros more c'' Hn Hs Hl Hmore.
    assert (cache_refines c capacity) as Hc by (eapply cache_run_refines; [|exact Hrun]; split; [done|]; exists []; by apply fifo_refines_new).
    destruct (admitted_newest c capacity name qtype reply at_ life c' Hc Hk Ha Hn) as (before & Hr & Hcap).
    unfold DnsCache_get, BoundedFifo_get. rewrite (cache_keeps name qtype (mkCached reply at_ (at_ + life)) more c' c'' before [] Hs ltac:(cbn [length]; rewrite Hcap; lia) Hr Hmore).
    cbn [mbind option_bind]. unfold serve. cbn [ca_expires ca_reply ca_admitted]. by rewrite (proj2 (Z.ltb_lt _ _)) by lia. }
  intros name qtype now reply age.
  unfold DnsCache_get, BoundedFifo_get.
  destruct (_ !! _) as [cached|] eqn:El; [|done]. cbn [mbind option_bind]. unfold serve.
  destruct (now <? _) eqn:En; [|done]. intros [= <- <-]. reflect.
  assert (cache_history (DnsCache_new capacity) []) as H0 by (intros ???; cbn; by rewrite lookup_empty).
  destruct (cache_run_history _ _ _ _ H0 Hrun _ _ _ El) as (life & Hrem & Hexp). cbn [app] in Hrem.
  assert (keeps (ca_reply cached) life) as (m & Hm & Hlife) by (clear -Hrem; by induction Hrem).
  exists (ca_admitted cached), life, m. pose proof (lifetime_range _ _ Hlife).
  unfold saturating_duration_since, saturating_sub. split_and!; try done; try lia.
  - unfold lifetime in Hlife. destruct (Message_rcode m); try done; [by left|by right].
  - intros Hrc. destruct (decide (Message_answers m = [])) as [->|Hne]; [constructor|].
    destruct (lifetime_positive _ _ Hlife Hrc Hne) as (rs & t & -> & -> & Hall & _).
    apply Forall_fmap. eapply Forall_impl; [exact Hall|]. intros r Hr. cbn.
    unfold clamp, from_secs, MIN_TTL, MAX_TTL, from_secs, NANOS in *.
    destruct (_ <? _) eqn:E1; [lia|]. destruct (_ <? t * _) eqn:E2; reflect; lia.
Qed.

(** The example reply has a TTL of five minutes: it is served at its 299th second
    and not at its 300th. *)
Definition example_run : list CacheOp := [Clear; Admit [97; 46; 98] RT_A example_upstream 0].

Lemma cache_correct_witness :
  exists c, cache_run (DnsCache_new 8) example_run = Ok c /\
    DnsCache_get c [97; 46; 98] RT_A (from_secs 299) = Some (example_upstream, from_secs 299) /\
    DnsCache_get c [97; 46; 98] RT_A (from_secs 300) = None /\
    exists at_ life, remembered [97; 46; 98] RT_A example_upstream at_ life example_run /\
      from_secs 299 < at_ + life.
Proof.
  destruct (cache_run (DnsCache_new 8) example_run) as [c| |] eqn:E; [|by vm_compute in E..].
  assert (DnsCache_get c [97; 46; 98] RT_A (from_secs 299) = Some (example_upstream, from_secs 299)) as Hg
    by (vm_compute in E; injection E as <-; by vm_compute).
  exists c. split_and!; [done|exact Hg|vm_compute in E; injection E as <-; by vm_compute|].
  destruct (proj1 (cache_correct 8 example_run c ltac:(lia) E) _ _ _ _ _ Hg) as (at_ & life & m & H1 & _ & _ & _ & H2 & _).
  exists at_, life. split; [exact H1|exact H2].
Defined.
