(* ===== verification/Demux.v ===== *)
(** The upstream demultiplexer ([src/policy/demux.rs]): the table of queries in
    flight on one connection, the search for a free transaction id, and the driver
    loop as steps over the events its [select!] can pick. *)

From S2P Require Import Prelude Wire DnsName DnsMessage DnsResponse.
Open Scope Z_scope.

Definition MAX_PENDING : nat := 1024.
Definition ID_BYTES : nat := 2.

(** The sending half of a caller's [oneshot] channel is named by the caller; which
    callers have stopped waiting is the environment's to say. *)
Abbreviation Caller := nat (only parsing).
Abbreviation Closed := (gset Caller).

Record Waiter := mkWaiter { w_original : bytes; w_question : Question; w_reply : Caller }.

Record Pending := mkPending { by_id : gmap Z Waiter; next_id : Z }.

Definition is_closed (closed : Closed) (w : Waiter) : bool := bool_decide (w_reply w ∈ closed).

(** [random_id] is the entropy source's two bytes. *)
Definition Pending_new (random_id : Z) : Pending := mkPending ∅ random_id.

Definition Pending_is_empty (p : Pending) : bool := bool_decide (by_id p = ∅).

Definition wrapping_add16 (a b : Z) : Z := (a + b) mod 2 ^ 16.

Definition Pending_sweep (closed : Closed) (p : Pending) : Pending :=
  mkPending (filter (fun kv => is_closed closed kv.2 = false) (by_id p)) (next_id p).

(** [is_none_or(|held| held.reply.is_closed())]. *)
Definition id_free (closed : Closed) (p : Pending) (id : Z) : bool :=
  match by_id p !! id with None => true | Some held => is_closed closed held end.

(** The candidate loop. *)
Fixpoint find_id (fuel : nat) (closed : Closed) (p : Pending) : option (Z * Pending) :=
  match fuel with
  | O => None
  | S fuel =>
      let candidate := next_id p in
      let p := mkPending (by_id p) (wrapping_add16 candidate 1) in
      if id_free closed p candidate then Some (candidate, p) else find_id fuel closed p
  end.

(** One more candidate than there are waiters is enough: [find_id_total]. *)
Definition Pending_admit (closed : Closed) (p : Pending) (waiter : Waiter) : Res unit (option Z * Pending) :=
  let full := (MAX_PENDING <=? size (by_id p))%nat in
  let p := if full then Pending_sweep closed p else p in
  if full && (MAX_PENDING <=? size (by_id p))%nat then Ok (None, p) else
  '(id, p) ← or_panic (find_id (S (size (by_id p))) closed p);
  Ok (Some id, mkPending (<[id := waiter]> (by_id p)) (next_id p)).

Definition Pending_claim (p : Pending) (reply : bytes) : option Waiter * Pending :=
  match Message_parse reply with
  | Ok parsed =>
      if negb (is_response parsed) then (None, p) else
      match by_id p !! m_id parsed with
      | None => (None, p)
      | Some held =>
          if bool_decide (w_question held = m_question parsed)
          then (Some held, mkPending (delete (m_id parsed) (by_id p)) (next_id p))
          else (None, p)
      end
  | _ => (None, p)
  end.

(** ** The driver *)

Record Request := mkRequest { rq_message : bytes; rq_question : Question; rq_reply : Caller }.

(** The part of [Demux::query] before the channel. *)
Definition query (message : bytes) (caller : Caller) : option Request :=
  match Message_parse message with
  | Ok m => Some (mkRequest message (m_question m) caller)
  | _ => None
  end.

Record Drive := mkDrive { d_pending : Pending; d_last_traffic : Instant; d_idle : Duration }.

(** What the [select!] picks, with the time and the callers gone by then. *)
Inductive Event :=
| Asked (request : option Request) (sent : bool)
| Received (reply : option bytes)
| Swept
| Idled.

Inductive Effect :=
| Send (message : bytes)
| Deliver (caller : Caller) (reply : bytes).

Inductive Next := Continue (d : Drive) | Break | Disabled.

(** One turn of the loop: what it does next and what it emits. *)
Definition drive_step (d : Drive) (now : Instant) (closed : Closed) (event : Event)
  : Res unit (Next * list Effect) :=
  match event with
  | Asked None _ => Ok (Break, [])
  | Asked (Some request) sent =>
      b0 ← or_panic (rq_message request !! 0%nat);
      b1 ← or_panic (rq_message request !! 1%nat);
      '(id, pending) ← Pending_admit closed (d_pending d)
                         (mkWaiter [b0; b1] (rq_question request) (rq_reply request));
      match id with
      | None => Ok (Continue (mkDrive pending now (d_idle d)), [])
      | Some id =>
          let message := splice 0 (be_bytes 2 id) (rq_message request) in
          Ok (if sent then Continue (mkDrive pending now (d_idle d)) else Break, [Send message])
      end
  | Received None => Ok (Break, [])
  | Received (Some reply) =>
      let '(claimed, pending) := Pending_claim (d_pending d) reply in
      Ok (Continue (mkDrive pending now (d_idle d)),
          match claimed with
          | Some waiter =>
              if is_closed closed waiter then []
              else [Deliver (w_reply waiter) (splice 0 (w_original waiter) reply)]
          | None => []
          end)
  | Swept => Ok (Continue (mkDrive (Pending_sweep closed (d_pending d)) (d_last_traffic d) (d_idle d)), [])
  | Idled =>
      if Pending_is_empty (d_pending d) && (d_last_traffic d + d_idle d <=? now)
      then Ok (Break, []) else Ok (Disabled, [])
  end.

(** ** The id search *)

Lemma wrapping_add16_0 a : 0 <= a < 2 ^ 16 -> wrapping_add16 a 0 = a.
Proof. intros. unfold wrapping_add16. rewrite Z.add_0_r. by apply Z.mod_small. Qed.

Lemma wrapping_add16_add a i : wrapping_add16 (wrapping_add16 a 1) i = wrapping_add16 a (1 + i).
Proof. unfold wrapping_add16. rewrite Zplus_mod_idemp_l. f_equal. lia. Qed.

Definition candidates (start : Z) (n : nat) : list Z := wrapping_add16 start <$> seqZ 0 (Z.of_nat n).

Lemma candidates_NoDup start n : Z.of_nat n <= 2 ^ 16 -> NoDup (candidates start n).
Proof.
  intros Hn. unfold candidates. apply NoDup_fmap_2_strong; [|apply NoDup_seqZ].
  intros x y Hx%elem_of_seqZ Hy%elem_of_seqZ. unfold wrapping_add16. intros E.
  assert ((x - y) mod 2 ^ 16 = 0) as Hm.
  { replace (x - y) with ((start + x) - (start + y)) by lia. rewrite Zminus_mod, E, Z.sub_diag. done. }
  apply Z.mod_divide in Hm as [k Hk]; [|lia]. assert (k = 0) by nia. lia.
Qed.

Lemma candidates_S start n :
  0 <= start < 2 ^ 16 -> candidates start (S n) = start :: candidates (wrapping_add16 start 1) n.
Proof.
  intros Hs. unfold candidates. rewrite Nat2Z.inj_succ, seqZ_cons by lia.
  cbn [fmap list_fmap]. rewrite wrapping_add16_0 by done. f_equal. rewrite Z.pred_succ.
  change (Z.succ 0) with (0 + 1). rewrite <- (fmap_add_seqZ 1 0), <- list_fmap_compose.
  apply list_fmap_ext. intros _ i _. cbn. symmetry. apply wrapping_add16_add.
Qed.

(** A search fails only after finding every one of its candidates held. *)
Lemma find_id_None fuel closed p :
  0 <= next_id p < 2 ^ 16 -> find_id fuel closed p = None ->
  Forall (fun id => is_Some (by_id p !! id)) (candidates (next_id p) fuel).
Proof.
  revert p. induction fuel as [|fuel IH]; intros p Hp; [constructor|]. cbn [find_id].
  rewrite candidates_S by done. unfold id_free at 1. cbn [by_id].
  destruct (by_id p !! next_id p) as [held|] eqn:E; [|done]. destruct (is_closed closed held); [done|].
  intros H. constructor; [done|]. apply IH in H; [done|]. cbn. apply Z.mod_pos_bound. lia.
Qed.

Lemma find_id_Some fuel closed p id p' :
  0 <= next_id p < 2 ^ 16 -> find_id fuel closed p = Some (id, p') ->
  0 <= id < 2 ^ 16 /\ 0 <= next_id p' < 2 ^ 16 /\ by_id p' = by_id p /\ id_free closed p id = true.
Proof.
  revert p. induction fuel as [|fuel IH]; intros p Hp; [done|]. cbn [find_id].
  assert (0 <= wrapping_add16 (next_id p) 1 < 2 ^ 16) by (apply Z.mod_pos_bound; lia).
  destruct (id_free closed _ _) eqn:E.
  - intros [= <- <-]. cbn [next_id by_id]. split_and!; (lia || done || exact E).
  - intros H'. apply IH in H' as (? & ? & ? & Hf); [|done]. split_and!; (lia || done || exact Hf).
Qed.

(** With fewer waiters than ids the search ends within one candidate more than
    there are waiters. *)
Lemma find_id_total closed p :
  0 <= next_id p < 2 ^ 16 -> Z.of_nat (size (by_id p)) < 2 ^ 16 -> exists r, find_id (S (size (by_id p))) closed p = Some r.
Proof.
  intros Hp Hs. destruct (find_id _ closed p) as [r|] eqn:E; [by exists r|]. exfalso.
  apply find_id_None in E; [|done]. set (cs := candidates _ _) in *.
  assert (NoDup cs) as Hnd by (apply candidates_NoDup; lia).
  assert (list_to_set cs ⊆ dom (by_id p)) as Hsub.
  { intros id Hid%elem_of_list_to_set. apply elem_of_dom. rewrite Forall_forall in E. auto. }
  apply subseteq_size in Hsub. rewrite size_list_to_set, size_dom in Hsub by done.
  unfold cs, candidates in Hsub. rewrite length_fmap, length_seqZ in Hsub. lia.
Qed.

(** ** The table *)

(** At most [MAX_PENDING] waiters, under sixteen-bit ids. *)
Record pending_ok (p : Pending) : Prop := {
  po_size : (size (by_id p) <= MAX_PENDING)%nat;
  po_next : 0 <= next_id p < 2 ^ 16;
  po_ids : map_Forall (fun id _ => 0 <= id < 2 ^ 16) (by_id p);
}.

Lemma sweep_ok closed p : pending_ok p -> pending_ok (Pending_sweep closed p).
Proof.
  intros [Hs Hn Hi]. split; cbn [by_id next_id Pending_sweep]; [|done|].
  - etransitivity; [|exact Hs]. apply map_subseteq_size, map_filter_subseteq.
  - intros id w [Hl _]%map_lookup_filter_Some. exact (Hi id w Hl).
Qed.

Lemma admit_inserts closed p waiter :
  pending_ok p -> (size (by_id p) < MAX_PENDING)%nat ->
  exists id p', ('(id, p) ← or_panic (find_id (S (size (by_id p))) closed p);
                 Ok (Some id, mkPending (<[id := waiter]> (by_id p)) (next_id p))) = @Ok unit _ (Some id, p') /\
    pending_ok p' /\ by_id p' = <[id := waiter]> (by_id p) /\ 0 <= id < 2 ^ 16 /\ id_free closed p id = true /\
    (size (by_id p) < MAX_PENDING)%nat.
Proof.
  intros [Hs Hn Hi] Hlt. destruct (find_id_total closed p Hn) as [[id p'] E]; [unfold MAX_PENDING in *; lia|].
  destruct (find_id_Some _ _ _ _ _ Hn E) as (Hid & Hn' & Hb & Hf). rewrite E. cbn [or_panic mbind Res_bind].
  exists id, (mkPending (<[id := waiter]> (by_id p')) (next_id p')). rewrite Hb. split_and!; try done; try lia.
  split; cbn [by_id next_id]; [|done|by apply map_Forall_insert_2].
  destruct (by_id p !! id) eqn:El; [rewrite map_size_insert_Some|rewrite map_size_insert_None]; (done || lia).
Qed.

(** What [admit] does on each branch. *)
Lemma admit_cases closed p waiter :
  pending_ok p ->
  let swept := if (MAX_PENDING <=? size (by_id p))%nat then Pending_sweep closed p else p in
  (Pending_admit closed p waiter = Ok (None, swept) /\ (size (by_id swept) = MAX_PENDING)%nat /\
     map_Forall (fun _ w => is_closed closed w = false) (by_id swept)) \/
  exists id p', Pending_admit closed p waiter = Ok (Some id, p') /\ pending_ok p' /\
    by_id p' = <[id := waiter]> (by_id swept) /\ 0 <= id < 2 ^ 16 /\ id_free closed swept id = true /\
    (size (by_id swept) < MAX_PENDING)%nat.
Proof.
  intros Hok. cbv zeta. unfold Pending_admit. destruct (MAX_PENDING <=? size (by_id p))%nat eqn:Ef; cbn [andb].
  - pose proof (sweep_ok closed p Hok) as Hok'. set (q := Pending_sweep closed p) in *.
    destruct (MAX_PENDING <=? size (by_id q))%nat eqn:Ef'; reflect.
    + left. split; [done|]. split; [destruct Hok'; lia|]. intros id w [_ Hw]%map_lookup_filter_Some. exact Hw.
    + right. by apply admit_inserts.
  - reflect. right. by apply admit_inserts.
Qed.

(** ** Runs of the driver *)

Record Turn := mkTurn { t_now : Instant; t_closed : Closed; t_event : Event }.

(** The loop over the turns its environment gives it: what it emitted, and its
    state unless it broke off. *)
Fixpoint drive (d : Drive) (turns : list Turn) : Res unit (list Effect * option Drive) :=
  match turns with
  | [] => Ok ([], Some d)
  | t :: turns =>
      '(next, effects) ← drive_step d (t_now t) (t_closed t) (t_event t);
      match next with
      | Break => Ok (effects, None)
      | Continue d => '(rest, last) ← drive d turns; Ok (effects ++ rest, last)
      | Disabled => drive d turns
      end
  end.

Definition requests (turns : list Turn) : list Request :=
  omap (fun t => match t_event t with Asked request _ => request | _ => None end) turns.

Definition delivered (effects : list Effect) : list Caller :=
  omap (fun e => match e with Deliver caller _ => Some caller | _ => None end) effects.

(** The wire reply [wire] answers the query [message]: a response to its question. *)
Definition answers (message wire : bytes) : Prop :=
  exists q r, Message_parse message = Ok q /\ Message_parse wire = Ok r /\
    is_response r = true /\ m_question r = m_question q.

Definition well_asked (r : Request) : Prop := query (rq_message r) (rq_reply r) = Some r.

Definition waits_for (w : Waiter) (r : Request) : Prop :=
  w = mkWaiter (take 2 (rq_message r)) (rq_question r) (rq_reply r).

(** Every waiter stands for one request made so far whose caller has had no reply. *)
Record drive_inv (d : Drive) (asked : list Request) (served : list Caller) : Prop := {
  di_pending : pending_ok (d_pending d);
  di_waits : forall id w, by_id (d_pending d) !! id = Some w -> exists r, r ∈ asked /\ waits_for w r;
  di_once : forall id w, by_id (d_pending d) !! id = Some w -> w_reply w ∉ served;
  di_inj : forall i j v w, by_id (d_pending d) !! i = Some v -> by_id (d_pending d) !! j = Some w ->
           w_reply v = w_reply w -> i = j;
  di_served : served ⊆ rq_reply <$> asked;
}.

(** A table with some of its waiters gone still satisfies the invariant. *)
Lemma drive_inv_sub d asked more served p now :
  drive_inv d asked served -> pending_ok p -> by_id p ⊆ by_id (d_pending d) ->
  drive_inv (mkDrive p now (d_idle d)) (asked ++ more) served.
Proof.
  intros [Hp Hw Ho Hi Hs] Hp' Hsub. split; cbn [d_pending]; try done.
  - intros id w H. destruct (Hw id w) as (r & Hr & ?); [eapply lookup_weaken; eauto|]. exists r. set_solver.
  - intros id w H. eapply Ho, lookup_weaken; eauto.
  - intros i j v w H1 H2. eapply Hi; eapply lookup_weaken; eauto.
  - rewrite fmap_app. set_solver.
Qed.

Lemma well_asked_parses r :
  well_asked r -> exists q, Message_parse (rq_message r) = Ok q /\ rq_question r = m_question q.
Proof.
  unfold well_asked, query. destruct (Message_parse _) as [q| |]; [|done|done].
  intros [= <-]. by exists q.
Qed.

Lemma parsed_has_id bs m : Message_parse bs = Ok m -> exists b0 b1 rest, bs = b0 :: b1 :: rest.
Proof.
  unfold Message_parse, Reader_u16, Reader_array, Reader_take, Reader_new.
  destruct bs as [|b0 [|b1 rest]]; cbn; try done. intros _. by exists b0, b1, rest.
Qed.

(** A request joins the table without disturbing the others. *)
Lemma drive_inv_ask d asked served r closed now id p' :
  let swept := if (MAX_PENDING <=? size (by_id (d_pending d)))%nat then Pending_sweep closed (d_pending d)
               else d_pending d in
  drive_inv d asked served -> rq_reply r ∉ rq_reply <$> asked -> pending_ok p' ->
  by_id p' = <[id := mkWaiter (take 2 (rq_message r)) (rq_question r) (rq_reply r)]> (by_id swept) ->
  drive_inv (mkDrive p' now (d_idle d)) (asked ++ [r]) served.
Proof.
  intros swept Hinv Hfresh Hok Hb.
  assert (by_id swept ⊆ by_id (d_pending d)) as Hsub.
  { unfold swept. destruct (_ <=? _)%nat; [apply map_filter_subseteq|done]. }
  destruct Hinv as [Hp Hw Ho Hi Hs].
  assert (forall i w, by_id swept !! i = Some w -> w_reply w ∈ rq_reply <$> asked) as Hold.
  { intros i w H. destruct (Hw i w) as (r' & Hr & ->); [by eapply lookup_weaken|]. cbn [w_reply].
    by apply list_elem_of_fmap_2. }
  split; cbn [d_pending]; rewrite ?Hb; try done.
  - intros i w [[<- <-]|[_ H]]%lookup_insert_Some; [exists r; split; [set_solver|done]|].
    destruct (Hw i w) as (r' & ? & ?); [by eapply lookup_weaken|]. exists r'. split; [set_solver|done].
  - intros i w [[<- <-]|[_ H]]%lookup_insert_Some; [cbn; set_solver|]. eapply Ho, lookup_weaken; eauto.
  - intros i j v w [[<- <-]|[Hi1 H1]]%lookup_insert_Some [[<- <-]|[Hj H2]]%lookup_insert_Some; try done; cbn.
    + intros E. apply Hold in H2. rewrite <- E in H2. done.
    + intros E. apply Hold in H1. rewrite E in H1. done.
    + eapply Hi; eapply lookup_weaken; eauto.
  - rewrite fmap_app. set_solver.
Qed.

(** A claim takes one waiter whose question the reply answers. *)
Lemma claim_cases p reply w p' :
  Pending_claim p reply = (Some w, p') ->
  exists r id, Message_parse reply = Ok r /\ is_response r = true /\ by_id p !! id = Some w /\
    w_question w = m_question r /\ p' = mkPending (delete id (by_id p)) (next_id p).
Proof.
  unfold Pending_claim. destruct (Message_parse reply) as [r| |] eqn:Ep; [|done|done].
  destruct (is_response r) eqn:Er; [|done]. cbn [negb]. destruct (_ !! _) as [held|] eqn:El; [|done].
  case_bool_decide; [|done]. intros [= <- <-]. by exists r, (m_id r).
Qed.

Lemma claim_None p reply p' : Pending_claim p reply = (None, p') -> p' = p.
Proof. unfold Pending_claim. repeat case_match; congruence. Qed.

Lemma delete_ok p id : pending_ok p -> pending_ok (mkPending (delete id (by_id p)) (next_id p)).
Proof.
  intros [Hs Hn Hi]. split; cbn [by_id next_id]; [|done|by apply map_Forall_delete].
  etransitivity; [|exact Hs]. apply map_subseteq_size, delete_subseteq.
Qed.

(** One reply delivered is one waiter served. *)
Lemma drive_inv_claim d asked served reply w p' now closed :
  drive_inv d asked served -> Pending_claim (d_pending d) reply = (Some w, p') ->
  (forall r, r ∈ asked -> well_asked r) ->
  drive_inv (mkDrive p' now (d_idle d)) asked (served ++ if is_closed closed w then [] else [w_reply w]) /\
  w_reply w ∉ served /\
  exists r, r ∈ asked /\ w_reply w = rq_reply r /\ w_original w = take 2 (rq_message r) /\
    answers (rq_message r) reply.
Proof.
  intros Hinv (r & id & Hp & Hr & Hl & Hq & ->)%claim_cases Hask.
  assert (by_id (mkPending (delete id (by_id (d_pending d))) (next_id (d_pending d))) ⊆ by_id (d_pending d)) as Hsub
    by apply delete_subseteq.
  pose proof (drive_inv_sub d asked [] served _ now Hinv (delete_ok _ id (di_pending _ _ _ Hinv)) Hsub) as Hinv'.
  rewrite app_nil_r in Hinv'.
  destruct Hinv as [_ Hw Ho Hi _]. destruct (Hw _ _ Hl) as (rq & Hrq & Ew).
  unfold waits_for in Ew. subst w. cbn [w_reply w_question w_original] in *.
  assert (rq_reply rq ∉ served) as Hnot by apply (Ho _ _ Hl). split_and!; [|done|].
  2:{ destruct (well_asked_parses rq (Hask rq Hrq)) as (q & Hpq & Eq). exists rq.
      split_and!; try done. exists q, r. split_and!; congruence. }
  destruct (is_closed closed _); [by rewrite app_nil_r|]. destruct Hinv' as [Hp' Hw' Ho' Hi' Hs']. split; try done.
  - intros i v Hv. cbn [d_pending by_id] in Hv. pose proof (Ho' i v Hv) as Hns.
    apply lookup_delete_Some in Hv as [Hne Hv].
    rewrite not_elem_of_app. split; [done|]. intros E%list_elem_of_singleton. apply Hne.
    by apply (Hi _ _ _ _ Hl Hv).
  - intros c Hc. apply elem_of_app in Hc as [Hc|Hc]; [auto|]. apply list_elem_of_singleton in Hc as ->.
    by apply list_elem_of_fmap_2.
Qed.

(** A delivery reaches its own caller: with the id it asked with, and an answer to
    its question received from the transport. *)
Definition rightly_delivered (asked : list Request) (turns : list Turn) (e : Effect) : Prop :=
  match e with
  | Deliver caller reply => exists r wire, r ∈ asked /\ rq_reply r = caller /\
      Received (Some wire) ∈ t_event <$> turns /\ answers (rq_message r) wire /\
      reply = take 2 (rq_message r) ++ drop 2 wire
  | Send message => exists r id, r ∈ asked /\ 0 <= id < 2 ^ 16 /\
      message = be_bytes 2 id ++ drop 2 (rq_message r)
  end.

Lemma swept_sub closed p :
  by_id (if (MAX_PENDING <=? size (by_id p))%nat then Pending_sweep closed p else p) ⊆ by_id p.
Proof. destruct (_ <=? _)%nat; [apply map_filter_subseteq|done]. Qed.

(** What one turn owes: nothing goes to the wrong caller or twice to one. *)
Definition turn_ok (d : Drive) (asked : list Request) (served : list Caller) (t : Turn)
    (step : Res unit (Next * list Effect)) : Prop :=
  let asked := asked ++ requests [t] in
  exists next effects, step = Ok (next, effects) /\
    Forall (rightly_delivered asked [t]) effects /\
    NoDup (delivered effects) /\ (forall c, c ∈ delivered effects -> c ∉ served) /\
    match next with
    | Continue d' => drive_inv d' asked (served ++ delivered effects)
    | Break => True
    | Disabled => effects = [] /\ requests [t] = []
    end.

(** A turn that delivers nothing. *)
Lemma turn_quiet d asked served t next effects :
  Forall (rightly_delivered (asked ++ requests [t]) [t]) effects -> delivered effects = [] ->
  match next with
  | Continue d' => drive_inv d' (asked ++ requests [t]) served
  | Break => True
  | Disabled => effects = [] /\ requests [t] = []
  end -> turn_ok d asked served t (Ok (next, effects)).
Proof.
  intros Hf Hd Hn. exists next, effects. rewrite Hd, app_nil_r. split_and!; try done; [constructor|].
  by intros ? ?%elem_of_nil.
Qed.

Lemma asked_turn d asked served r sent now closed :
  drive_inv d asked served -> well_asked r -> rq_reply r ∉ rq_reply <$> asked ->
  turn_ok d asked served (mkTurn now closed (Asked (Some r) sent)) (drive_step d now closed (Asked (Some r) sent)).
Proof.
  intros Hinv Hr Hfresh. destruct (well_asked_parses r Hr) as (q & Hq & Eq).
  destruct (parsed_has_id _ _ Hq) as (b0 & b1 & rest & Em).
  cbn [drive_step]. rewrite Em. cbn [lookup list_lookup or_panic mbind Res_bind].
  pose proof (di_pending _ _ _ Hinv) as Hp.
  destruct (admit_cases closed (d_pending d) (mkWaiter [b0; b1] (rq_question r) (rq_reply r)) Hp)
    as [(-> & _)|(id & p' & -> & Hp' & Hb & Hid & _)]; cbn [mbind Res_bind].
  - apply turn_quiet; [constructor|done|]. apply (drive_inv_sub d); [done| |apply swept_sub].
    destruct (_ <=? _)%nat; [by apply sweep_ok|done].
  - apply turn_quiet; [|done|].
    + constructor; [|constructor]. exists r, id. split_and!; try lia; [set_solver|].
      rewrite Em. unfold splice. by rewrite take_0.
    + destruct sent; [|done]. eapply drive_inv_ask; [done|done|done|]. by rewrite Em, Hb.
Qed.

Lemma received_turn d asked served reply now closed :
  drive_inv d asked served -> (forall r, r ∈ asked -> well_asked r) ->
  turn_ok d asked served (mkTurn now closed (Received (Some reply)))
    (drive_step d now closed (Received (Some reply))).
Proof.
  intros Hinv Hask. cbn [drive_step]. destruct (Pending_claim _ reply) as [[w|] p'] eqn:Ec.
  2:{ apply claim_None in Ec as ->. apply turn_quiet; [constructor|done|].
      apply (drive_inv_sub d); [done|apply (di_pending _ _ _ Hinv)|done]. }
  destruct (drive_inv_claim d asked served reply w p' now closed Hinv Ec Hask)
    as (Hinv' & Hnew & r & Hr & Ew & Eo & Ha).
  destruct (is_closed closed w); cbn [requests omap list_omap].
  { apply turn_quiet; [constructor|done|]. cbn. by rewrite app_nil_r in Hinv' |- *. }
  do 2 eexists. split; [done|]. cbn [requests omap list_omap t_event delivered]. rewrite app_nil_r. split_and!.
  - constructor; [|constructor]. exists r, reply. split_and!; try done; [by left|].
    rewrite Eo. destruct Ha as (q & _ & Hq & _). destruct (parsed_has_id _ _ Hq) as (b0 & b1 & rest & ->).
    unfold splice. rewrite take_0. done.
  - apply NoDup_singleton.
  - by intros c ->%list_elem_of_singleton.
  - done.
Qed.

Lemma drive_step_ok d asked served t :
  drive_inv d asked served -> (forall r, r ∈ asked ++ requests [t] -> well_asked r) ->
  NoDup (rq_reply <$> asked ++ requests [t]) ->
  turn_ok d asked served t (drive_step d (t_now t) (t_closed t) (t_event t)).
Proof.
  intros Hinv Hask Hnd. destruct t as [now closed event]. cbn [t_now t_closed t_event].
  destruct event as [[r|] sent|[reply|]| |].
  - apply asked_turn; [done|apply Hask; cbn; set_solver|].
    rewrite fmap_app in Hnd. apply NoDup_app in Hnd as (_ & Hdis & _). intros Hin.
    apply (Hdis _ Hin). cbn. by left.
  - by apply turn_quiet.
  - apply received_turn; [done|]. intros r Hr. apply Hask. set_solver.
  - by apply turn_quiet.
  - cbn [drive_step]. apply turn_quiet; [constructor|done|]. apply (drive_inv_sub d); [done| |apply map_filter_subseteq].
    apply sweep_ok, (di_pending _ _ _ Hinv).
  - cbn [drive_step]. destruct (_ && _); by apply turn_quiet.
Qed.

Lemma requests_cons t turns : requests (t :: turns) = requests [t] ++ requests turns.
Proof. unfold requests. cbn. by destruct (match t_event t with Asked _ _ => _ | _ => _ end). Qed.

Lemma delivered_app xs ys : delivered (xs ++ ys) = delivered xs ++ delivered ys.
Proof. apply omap_app. Qed.

Lemma rightly_delivered_mono asked asked' turns turns' e :
  asked ⊆ asked' -> turns ⊆ turns' -> rightly_delivered asked turns e -> rightly_delivered asked' turns' e.
Proof.
  intros Ha Ht. destruct e as [message|caller reply]; cbn.
  - intros (r & id & ? & ? & ?). exists r, id. auto.
  - intros (r & wire & ? & ? & Hin & ?). exists r, wire. split_and!; auto; try tauto.
    apply list_elem_of_fmap in Hin as (t & -> & Hin). by apply list_elem_of_fmap_2, Ht.
Qed.

Lemma drive_ok turns : forall d asked served,
  drive_inv d asked served -> (forall r, r ∈ asked ++ requests turns -> well_asked r) ->
  NoDup (rq_reply <$> asked ++ requests turns) ->
  exists effects last, drive d turns = Ok (effects, last) /\
    Forall (rightly_delivered (asked ++ requests turns) turns) effects /\
    NoDup (delivered effects) /\ (forall c, c ∈ delivered effects -> c ∉ served) /\
    match last with
    | Some d' => exists asked' served', drive_inv d' asked' served'
    | None => True
    end.
Proof.
  induction turns as [|t turns IH]; intros d asked served Hinv Hask Hnd.
  { exists [], (Some d). split_and!; try done; [constructor|by intros ? ?%elem_of_nil|by exists asked, served]. }
  rewrite requests_cons, app_assoc in Hask, Hnd |- *. cbn [drive].
  destruct (drive_step_ok d asked served t) as (next & effs & -> & Hf & Hn & Hs & Hnext); [done|set_solver| |].
  { rewrite fmap_app in Hnd. by apply NoDup_app in Hnd as (? & _ & _). }
  cbn [mbind Res_bind].
  assert (forall r : list Request, asked ++ requests [t] ⊆ (asked ++ requests [t]) ++ r) as Hsub by set_solver.
  assert (Forall (rightly_delivered ((asked ++ requests [t]) ++ requests turns) (t :: turns)) effs) as Hf'.
  { eapply Forall_impl; [exact Hf|]. intros e. apply rightly_delivered_mono; [apply Hsub|set_solver]. }
  destruct next as [d'| |].
  - destruct (IH d' _ _ Hnext Hask Hnd) as (rest & last & -> & Hr & Hnr & Hsr & Hlast). cbn [mbind Res_bind].
    exists (effs ++ rest), last. split; [done|]. rewrite delivered_app. split_and!; [|apply NoDup_app|set_solver|done].
    + apply Forall_app. split; [done|]. eapply Forall_impl; [exact Hr|]. intros e.
      apply rightly_delivered_mono; set_solver.
    + set_solver.
  - exists effs, None. done.
  - destruct Hnext as [-> Er]. rewrite Er in *. rewrite app_nil_r in *.
    destruct (IH d _ _ Hinv Hask Hnd) as (rest & last & -> & Hr & Hnr & Hsr & Hlast).
    exists rest, last. split_and!; try done. eapply Forall_impl; [exact Hr|]. intros e.
    apply rightly_delivered_mono; set_solver.
Qed.

(** C39: whatever the connection receives, in whatever order the driver meets its
    events, it never panics and never fails to find an id; every reply it delivers
    goes to a caller that asked that reply's question, with the caller's own
    transaction id put back and nothing else changed; no caller is answered twice;
    a query goes out under a sixteen-bit id with nothing else changed; and at most
    [MAX_PENDING] queries are held. *)
Theorem demux_delivers random_id start idle turns :
  0 <= random_id < 2 ^ 16 -> (forall r, r ∈ requests turns -> well_asked r) ->
  NoDup (rq_reply <$> requests turns) ->
  exists effects last, drive (mkDrive (Pending_new random_id) start idle) turns = Ok (effects, last) /\
    Forall (rightly_delivered (requests turns) turns) effects /\ NoDup (delivered effects) /\
    match last with Some d => (size (by_id (d_pending d)) <= MAX_PENDING)%nat | None => True end.
Proof.
  intros Hr Hask Hnd.
  assert (drive_inv (mkDrive (Pending_new random_id) start idle) [] []) as Hinv.
  { split; cbn; try done; try (by intros ???; rewrite lookup_empty).
    split; cbn; [rewrite map_size_empty; unfold MAX_PENDING; lia|done|apply map_Forall_empty]. }
  destruct (drive_ok turns _ [] [] Hinv Hask Hnd) as (effects & last & -> & Hf & Hn & _ & Hlast).
  exists effects, last. split_and!; try done. destruct last as [d|]; [|done].
  destruct Hlast as (? & ? & Hd). apply (di_pending _ _ _ Hd).
Qed.

(** admission under a fresh id: it succeeds unless [MAX_PENDING] callers are
    still waiting, takes an id no live waiter holds, and leaves every other live
    waiter in place. *)
Theorem admit_spec closed p waiter :
  (size (by_id p) <= MAX_PENDING)%nat -> 0 <= next_id p < 2 ^ 16 ->
  map_Forall (fun id _ => 0 <= id < 2 ^ 16) (by_id p) ->
  exists id p', Pending_admit closed p waiter = Ok (id, p') /\
    (id = None <-> size (filter (fun kv => is_closed closed kv.2 = false) (by_id p)) = MAX_PENDING) /\
    match id with
    | Some id => by_id p' !! id = Some waiter /\
        (forall held, by_id p !! id = Some held -> is_closed closed held = true) /\
        (forall other held, other <> id -> by_id p !! other = Some held -> is_closed closed held = false ->
           by_id p' !! other = Some held)
    | None => forall other held, by_id p !! other = Some held -> is_closed closed held = false ->
           by_id p' !! other = Some held
    end.
Proof.
  intros Hs Hn Hi. assert (pending_ok p) as Hok by done.
  set (live := filter _ (by_id p)).
  assert (size live <= size (by_id p))%nat as Hle by apply map_subseteq_size, map_filter_subseteq.
  set (swept := if (MAX_PENDING <=? size (by_id p))%nat then Pending_sweep closed p else p).
  assert (forall other held, by_id p !! other = Some held -> is_closed closed held = false ->
    by_id swept !! other = Some held) as Hkeep.
  { intros other held Hl Hc. unfold swept. destruct (_ <=? _)%nat; [|done]. by apply map_lookup_filter_Some. }
  destruct (admit_cases closed p waiter Hok) as [(-> & Hfull & _)|(id & p' & -> & Hp' & Hb & Hid & Hfree & Hlt)].
  - exists None, swept. split_and!; try done. split; [intros _|done]. fold swept in Hfull.
    unfold swept in Hfull. destruct (_ <=? _)%nat eqn:E; [exact Hfull|]. reflect. lia.
  - exists (Some id), p'. fold swept in Hb, Hfree, Hlt. rewrite Hb. split_and!; [done| |by rewrite lookup_insert_eq| |].
    + split; [done|]. intros Hf. unfold swept in Hlt. destruct (_ <=? _)%nat eqn:E; [|reflect; lia].
      unfold Pending_sweep in Hlt. cbn [by_id] in Hlt. fold live in Hlt. lia.
    + intros held Hl. destruct (is_closed closed held) eqn:Ec; [done|]. unfold id_free in Hfree.
      by rewrite (Hkeep _ _ Hl Ec), Ec in Hfree.
    + intros other held Hne Hl Hc. rewrite lookup_insert_ne by done. auto.
Qed.

Definition example_turns : list Turn :=
  [mkTurn 0 ∅ (Asked (query example_query 5) true);
   mkTurn 1 ∅ (Received (Some example_upstream));
   mkTurn 2 ∅ (Received (Some example_upstream))].

Lemma demux_delivers_witness :
  exists effects last,
    drive (mkDrive (Pending_new 7) 0 10) example_turns = Ok (effects, last) /\
    Forall (rightly_delivered (requests example_turns) example_turns) effects /\
    effects = [Send ([0; 7] ++ drop 2 example_query); Deliver 5 ([18; 52] ++ drop 2 example_upstream)].
Proof.
  destruct (demux_delivers 7 0 10 example_turns) as (effects & last & Hd & Hf & _).
  - lia.
  - intros r Hr. vm_compute in Hr. apply list_elem_of_singleton in Hr as ->. by vm_compute.
  - vm_compute. apply NoDup_singleton.
  - exists effects, last. split; [exact Hd|]. split; [exact Hf|]. vm_compute in Hd. by injection Hd as <- <-.
Defined.

Lemma admit_spec_witness :
  exists id p', Pending_admit ∅ (Pending_new 65535) (mkWaiter [0; 1] (mkQuestion [] RT_A 1) 3) = Ok (id, p') /\
    id = Some 65535 /\ next_id p' = 0 /\
    forall other held, other <> 65535 -> by_id (Pending_new 65535) !! other = Some held ->
      is_closed ∅ held = false -> by_id p' !! other = Some held.
Proof.
  destruct (admit_spec ∅ (Pending_new 65535) (mkWaiter [0; 1] (mkQuestion [] RT_A 1) 3)) as (id & p' & Ha & _ & Hm).
  - vm_compute. lia.
  - cbn. lia.
  - apply map_Forall_empty.
  - exists id, p'. split; [exact Ha|]. vm_compute in Ha. injection Ha as <- <-.
    split; [done|]. split; [done|]. apply Hm.
Defined.
