(* ===== verification/Varint.v ===== *)
(** The variable-length integers of [src/wire.rs].  Their encoding belongs to the octets
    crate: it is the class [Varint], and what the parsers rely on of RFC 9000
    section 16 is [VarintLaws]. *)

From S2P Require Import Prelude Wire.
Open Scope Z_scope.

(** [Octets::get_varint] answers the value and the bytes it took. *)
Class Varint := {
  get_varint : bytes -> option (Z * nat);
  put_varint : Z -> bytes;
  varint_len : Z -> nat;
}.

Definition MAX_VAR_INT : Z := 2 ^ 62 - 1.

Class VarintLaws `{Varint} : Prop := {
  varint_roundtrip : forall v more, 0 <= v <= MAX_VAR_INT -> get_varint (put_varint v ++ more) = Some (v, length (put_varint v));
  put_varint_len : forall v, 0 <= v <= MAX_VAR_INT -> length (put_varint v) = varint_len v;
  get_varint_extends : forall bs more v n, get_varint bs = Some (v, n) ->
    0 <= v /\ (n <= length bs)%nat /\ (n <= 8)%nat /\ get_varint (bs ++ more) = Some (v, n);
  get_varint_short : forall bs, get_varint bs = None -> (length bs < 8)%nat;
}.

Section Varints.
Context `{Varint}.

Definition Reader_varint (r : Reader) : option (Z * Reader) :=
  '(value, off) ← get_varint (Reader_rest r); Some (value, mkReader (r_bytes r) (r_at r + off)).

(** The buffer is sized by [varint_len], so [put_varint] fits. *)
Definition Writer_varint (value : Z) (out : bytes) : bytes := out ++ put_varint value.

Definition Writer_vector_varint (value : bytes) (out : bytes) : bytes :=
  Writer_bytes value (Writer_varint (Z.of_nat (length value)) out).

Context `{!VarintLaws}.

Lemma Reader_varint_extend r v r' more :
  reader_ok r -> Reader_varint r = Some (v, r') -> Reader_varint (Reader_extend r more) = Some (v, Reader_extend r' more).
Proof.
  unfold Reader_varint, reader_ok, Reader_rest. intros Hr. cbn [Reader_extend r_bytes r_at]. rewrite drop_app_le by done.
  destruct (get_varint (drop (r_at r) (r_bytes r))) as [[w n]|] eqn:E; [|done]. cbn. intros [= <- <-].
  by destruct (get_varint_extends _ more _ _ E) as (_ & _ & _ & ->).
Qed.

Lemma Reader_varint_ok r v r' :
  reader_ok r -> Reader_varint r = Some (v, r') ->
  0 <= v /\ reader_ok r' /\ r_bytes r' = r_bytes r /\ (r_at r' <= r_at r + 8)%nat.
Proof.
  unfold Reader_varint, reader_ok, Reader_rest. intros Hr.
  destruct (get_varint _) as [[w n]|] eqn:E; [|done]. cbn. intros [= <- <-]. cbn [r_bytes r_at].
  destruct (get_varint_extends _ [] _ _ E) as (? & Hn & ? & _). rewrite length_drop in Hn. split_and!; (done || lia).
Qed.

Lemma Reader_varint_None r : Reader_varint r = None -> (length (r_bytes r) < r_at r + 8)%nat.
Proof.
  unfold Reader_varint, Reader_rest. destruct (get_varint _) as [[w n]|] eqn:E; [done|]. intros _.
  apply get_varint_short in E. rewrite length_drop in E. lia.
Qed.

Lemma Reader_varint_app pre v post :
  0 <= v <= MAX_VAR_INT ->
  Reader_varint (mkReader (pre ++ put_varint v ++ post) (length pre)) =
    Some (v, mkReader (pre ++ put_varint v ++ post) (length pre + length (put_varint v))).
Proof.
  intros Hv. unfold Reader_varint, Reader_rest. cbn [r_bytes r_at]. rewrite drop_app_length, varint_roundtrip by done. done.
Qed.
End Varints.

(** ** RFC 9000 *)

(** The two high bits of the first byte are the logarithm of the length. *)
Definition rfc_len_of (prefix : Z) : nat := match prefix with 0 => 1 | 1 => 2 | 2 => 4 | _ => 8 end.
Definition rfc_len (first : Z) : nat := rfc_len_of (Z.shiftr first 6).

Definition rfc_varint_len (v : Z) : nat :=
  if v <? 2 ^ 6 then 1 else if v <? 2 ^ 14 then 2 else if v <? 2 ^ 30 then 4 else 8.

Definition rfc_prefix (n : nat) : Z := match n with 1%nat => 0 | 2%nat => 1 | 4%nat => 2 | _ => 3 end.

Definition rfc_put (v : Z) : bytes :=
  let n := rfc_varint_len v in be_bytes n (rfc_prefix n * 2 ^ (8 * Z.of_nat n - 2) + v).

Definition rfc_get (bs : bytes) : option (Z * nat) :=
  match bs with
  | [] => None
  | first :: _ =>
      let n := rfc_len first in
      if (n <=? length bs)%nat then Some (be_value (take n bs) mod 2 ^ (8 * Z.of_nat n - 2), n) else None
  end.

Definition rfc9000 : Varint := {| get_varint := rfc_get; put_varint := rfc_put; varint_len := rfc_varint_len |}.

Lemma rfc_varint_len_bound v :
  0 <= v <= MAX_VAR_INT -> v < 2 ^ (8 * Z.of_nat (rfc_varint_len v) - 2) /\
  (rfc_varint_len v = 1 \/ rfc_varint_len v = 2 \/ rfc_varint_len v = 4 \/ rfc_varint_len v = 8)%nat.
Proof.
  unfold rfc_varint_len, MAX_VAR_INT. intros Hv. repeat (destruct (v <? _) eqn:?; reflect; [cbn; lia|]). cbn. lia.
Qed.

(** The first byte tells the length. *)
Lemma rfc_first n p v :
  0 <= v < 2 ^ (8 * Z.of_nat n - 2) -> 0 <= p < 4 -> (0 < n)%nat ->
  exists rest, be_bytes n (p * 2 ^ (8 * Z.of_nat n - 2) + v) = (p * 64 + v / 2 ^ (8 * Z.of_nat n - 8)) :: rest /\
    Z.shiftr (p * 64 + v / 2 ^ (8 * Z.of_nat n - 8)) 6 = p.
Proof.
  intros Hv Hp Hn. destruct n as [|n]; [lia|]. cbn [be_bytes]. set (k := Z.of_nat n) in *.
  replace (8 * Z.of_nat (S n) - 2) with (6 + 8 * k) in * by lia. replace (8 * Z.of_nat (S n) - 8) with (8 * k) by lia.
  rewrite Z.pow_add_r in * by lia. change (2 ^ 6) with 64 in *. set (q := 2 ^ (8 * k)) in *.
  assert (0 < q) by (apply Z.pow_pos_nonneg; lia).
  assert (0 <= v / q < 64) as Hq by (split; [apply Z.div_pos; lia|apply Z.div_lt_upper_bound; lia]).
  exists (be_bytes n (p * (64 * q) + v)). split.
  - f_equal. replace (p * (64 * q) + v) with (p * 64 * q + v) by lia. rewrite Z.div_add_l by lia. apply Z.mod_small. lia.
  - rewrite Z.shiftr_div_pow2 by lia. change (2 ^ 6) with 64. rewrite Z.div_add_l by lia. rewrite Z.div_small by lia. lia.
Qed.

Lemma rfc_put_length v : length (rfc_put v) = rfc_varint_len v.
Proof. apply length_be_bytes. Qed.

#[local] Existing Instance rfc9000.

#[export] Instance rfc9000_laws : VarintLaws.
Proof.
  split; cbn [get_varint put_varint varint_len rfc9000].
  - intros v more Hv. destruct (rfc_varint_len_bound v Hv) as [Hlt Hn]. rewrite rfc_put_length.
    set (n := rfc_varint_len v) in *. assert (0 <= rfc_prefix n < 4) as Hp by (destruct Hn as [->|[->|[->| ->]]]; cbn; lia).
    destruct (rfc_first n (rfc_prefix n) v) as (rest & Hb & Hf); [lia|lia|lia|].
    pose proof (rfc_put_length v) as Hl. unfold rfc_put in *. fold n in Hl |- *. rewrite Hb in *. cbn [app rfc_get].
    unfold rfc_len. rewrite Hf. assert (rfc_len_of (rfc_prefix n) = n) as ->
      by (destruct Hn as [->|[->|[->| ->]]]; done).
    rewrite (proj2 (Nat.leb_le _ _)) by (cbn [length] in *; rewrite length_app; lia). do 2 f_equal.
    replace (take n ((rfc_prefix n * 64 + v / 2 ^ (8 * Z.of_nat n - 8)) :: rest ++ more))
      with (be_bytes n (rfc_prefix n * 2 ^ (8 * Z.of_nat n - 2) + v)).
    + rewrite be_value_be_bytes. replace (8 * Z.of_nat n) with (8 * Z.of_nat n - 2 + 2) at 2 by lia.
      rewrite Z.pow_add_r by lia. set (m := 2 ^ (8 * Z.of_nat n - 2)) in *. change (2 ^ 2) with 4.
      rewrite (Z.mod_small (_ + v) (m * 4)) by nia. by rewrite Z.add_comm, Z.mod_add, Z.mod_small by lia.
    + rewrite Hb. change ((?x :: rest) ++ more) with (x :: rest ++ more).
      change (?x :: rest ++ more) with ((x :: rest) ++ more). by rewrite take_app_length'.
  - intros v _. apply rfc_put_length.
  - intros [|b bs] more v n; cbn [rfc_get app]; [done|]. destruct (_ <=? _)%nat eqn:E; [|done]. reflect. intros [= <- <-].
    split_and!; [apply Z.mod_pos_bound, Z.pow_pos_nonneg; [lia|]| |unfold rfc_len, rfc_len_of; repeat case_match; lia|].
    + unfold rfc_len, rfc_len_of. repeat case_match; lia.
    + done.
    + rewrite (proj2 (Nat.leb_le _ _)) by (cbn [length] in *; rewrite length_app; lia).
      change (b :: bs ++ more) with ((b :: bs) ++ more). by rewrite take_app_le.
  - intros [|b bs]; cbn [rfc_get]; [cbn; lia|]. destruct (_ <=? _)%nat eqn:E; [done|]. reflect. intros _.
    assert (rfc_len b <= 8)%nat by (unfold rfc_len, rfc_len_of; repeat case_match; lia). lia.
Qed.
