(* ===== verification/IpText.v ===== *)
(** The text of addresses, as [std::net] writes and reads it: the [Display] and [FromStr]
    of [IpAddr] and [SocketAddr] that the crate's configuration and protocols use.
    A string is its bytes. *)

From S2P Require Import Prelude Net.
Open Scope Z_scope.

(** ** Writing *)

(** The shortest digits of [v] in [base]; [fuel] of them are enough for 16 bits. *)
Fixpoint digits (fuel : nat) (base v : Z) : bytes :=
  match fuel with
  | O => []
  | S fuel =>
      let digit := let d := v mod base in if d <? 10 then 48 + d else 87 + d in
      if v <? base then [digit] else digits fuel base (v / base) ++ [digit]
  end.

Definition decimal (v : Z) : bytes := digits 5 10 v.
Definition hexadecimal (v : Z) : bytes := digits 4 16 v.

Fixpoint join_text (separator : bytes) (parts : list bytes) : bytes :=
  match parts with
  | [] => []
  | [part] => part
  | part :: parts => part ++ separator ++ join_text separator parts
  end.

Definition DOT : Z := 46.
Definition COLON : Z := 58.

Definition ipv4_text (ip : bytes) : bytes := join_text [DOT] (decimal <$> ip).

Fixpoint segments (ip : bytes) : list Z :=
  match ip with hi :: lo :: ip => be_value [hi; lo] :: segments ip | _ => [] end.

(** The first longest run of zero segments: its start and length. *)
Fixpoint longest_zeros (i : nat) (current longest : nat * nat) (segs : list Z) : nat * nat :=
  match segs with
  | [] => longest
  | seg :: segs =>
      if seg =? 0 then
        let current := ((if (current.2 =? 0)%nat then i else current.1), S current.2) in
        longest_zeros (S i) current (if (longest.2 <? current.2)%nat then current else longest) segs
      else longest_zeros (S i) (0%nat, 0%nat) longest segs
  end.

(** [Ipv6Addr]'s text: a mapped IPv4 address in dots, else the longest run of zeros as
    [::]. *)
Definition ipv6_text (ip : bytes) : bytes :=
  if bool_decide (take 12 ip = replicate 10 0 ++ [255; 255])
  then [COLON; COLON] ++ hexadecimal 0xffff ++ [COLON] ++ ipv4_text (drop 12 ip)
  else
  let segs := segments ip in
  let '(start, len) := longest_zeros 0 (0%nat, 0%nat) (0%nat, 0%nat) segs in
  if (1 <? len)%nat
  then join_text [COLON] (hexadecimal <$> take start segs) ++ [COLON; COLON] ++ join_text [COLON] (hexadecimal <$> drop (start + len) segs)
  else join_text [COLON] (hexadecimal <$> segs).

Definition socket_text (s : InternalEndpoint) : bytes :=
  match address s with
  | V4 ip => ipv4_text ip ++ [COLON] ++ decimal (port s)
  | V6 ip => [91] ++ ipv6_text ip ++ [93; COLON] ++ decimal (port s)
  end.

(** ** Reading *)

(** A reader of a prefix: the value and the rest. *)
Abbreviation Parser A := (bytes -> option (A * bytes)).

Definition digit_of (radix c : Z) : option Z :=
  let v := if (48 <=? c) && (c <=? 57) then c - 48
           else if (97 <=? c) && (c <=? 122) then c - 87
           else if (65 <=? c) && (c <=? 90) then c - 55
           else radix in
  if v <? radix then Some v else None.

(** The digits at the front: their value from [acc], how many, and the rest. *)
Fixpoint read_digits (radix acc : Z) (count : nat) (bs : bytes) : Z * nat * bytes :=
  match bs with
  | c :: rest =>
      match digit_of radix c with
      | Some d => read_digits radix (acc * radix + d) (S count) rest
      | None => (acc, count, bs)
      end
  | [] => (acc, count, bs)
  end.

Definition read_number (radix : Z) (max_digits : option nat) (allow_zero_prefix : bool) (max : Z) : Parser Z := fun bs =>
  let has_leading_zero := match bs with c :: _ => c =? 48 | [] => false end in
  let '(value, count, rest) := read_digits radix 0 0 bs in
  if match max_digits with Some most => (most <? count)%nat | None => false end then None
  else if (count =? 0)%nat then None
  else if negb allow_zero_prefix && has_leading_zero && (1 <? count)%nat then None
  else if value <=? max then Some (value, rest) else None.

Definition read_given_char (c : Z) : Parser unit := fun bs =>
  match bs with b :: rest => if b =? c then Some (tt, rest) else None | [] => None end.

Definition read_separator {A} (sep : Z) (index : nat) (inner : Parser A) : Parser A := fun bs =>
  '(_, bs) ← (if (0 <? index)%nat then read_given_char sep bs else Some (tt, bs)); inner bs.

(** [count] octets from [index] on. *)
Fixpoint read_octets (count index : nat) : Parser bytes := fun bs =>
  match count with
  | O => Some ([], bs)
  | S count =>
      '(octet, bs) ← read_separator DOT index (read_number 10 (Some 3%nat) false 255) bs;
      '(octets, bs) ← read_octets count (S index) bs;
      Some (octet :: octets, bs)
  end.

Definition read_ipv4 : Parser bytes := read_octets 4 0.

(** Up to [count] more groups after [index] of [limit]: the groups, whether they ended in
    an IPv4 address, and the rest. *)
Fixpoint read_groups (count index limit : nat) (bs : bytes) : list Z * bool * bytes :=
  match count with
  | O => ([], false, bs)
  | S count =>
      match (if (index <? limit - 1)%nat then read_separator COLON index read_ipv4 bs else None) with
      | Some (octets, bs) => (segments octets, true, bs)
      | None =>
          match read_separator COLON index (read_number 16 (Some 4%nat) true 65535) bs with
          | Some (group, bs) => let '(groups, ipv4, bs) := read_groups count (S index) limit bs in (group :: groups, ipv4, bs)
          | None => ([], false, bs)
          end
      end
  end.

Definition read_ipv6 : Parser bytes := fun bs =>
  let octets_of (groups : list Z) : bytes := groups ≫= fun g => be_bytes 2 g in
  let '(head, head_ipv4, bs) := read_groups 8 0 8 bs in
  if (length head =? 8)%nat then Some (octets_of head, bs)
  else if (head_ipv4 : bool) then None else
  '(_, bs) ← read_given_char COLON bs;
  '(_, bs) ← read_given_char COLON bs;
  let limit := (8 - (length head + 1))%nat in
  let '(tail, _, bs) := read_groups limit 0 limit bs in
  Some (octets_of (head ++ replicate (8 - length head - length tail) 0 ++ tail), bs).

(** The whole of the text. *)
Definition whole {A} (p : Parser A) (bs : bytes) : option A :=
  '(value, rest) ← p bs; match rest with [] => Some value | _ => None end.

(** [text.parse::<IpAddr>()]. *)
Definition parse_ip (bs : bytes) : option IpAddr :=
  whole (fun bs => match read_ipv4 bs with
                   | Some (octets, rest) => Some (V4 octets, rest)
                   | None => '(octets, rest) ← read_ipv6 bs; Some (V6 octets, rest)
                   end) bs.

Definition read_port : Parser Z := fun bs =>
  '(_, bs) ← read_given_char COLON bs; read_number 10 None true 65535 bs.

Definition read_socket_v4 : Parser InternalEndpoint := fun bs =>
  '(octets, bs) ← read_ipv4 bs; '(port, bs) ← read_port bs; Some (mkEndpoint (V4 octets) port, bs).

(** A scope id is read and not kept: the crate's endpoints have none. *)
Definition read_scope : Parser unit := fun bs =>
  '(_, bs) ← read_given_char 37 bs; '(_, bs) ← read_number 10 None true (2 ^ 32 - 1) bs; Some (tt, bs).

Definition read_socket_v6 : Parser InternalEndpoint := fun bs =>
  '(_, bs) ← read_given_char 91 bs;
  '(octets, bs) ← read_ipv6 bs;
  let bs := match read_scope bs with Some (_, bs) => bs | None => bs end in
  '(_, bs) ← read_given_char 93 bs;
  '(port, bs) ← read_port bs;
  Some (mkEndpoint (V6 octets) port, bs).

(** [text.parse::<SocketAddr>()]. *)
Definition parse_socket (bs : bytes) : option InternalEndpoint :=
  whole (fun bs => match read_socket_v4 bs with Some answer => Some answer | None => read_socket_v6 bs end) bs.

(** ** Checks against known texts *)

Definition text_of (s : String.string) : bytes := (fun b => Z.of_N (Byte.to_N b)) <$> String.list_byte_of_string s.

Example parse_v4_socket : parse_socket (text_of "192.0.2.7:443") = Some (mkEndpoint (V4 [192; 0; 2; 7]) 443).
Proof. vm_compute. reflexivity. Qed.
Example parse_v6_socket : parse_socket (text_of "[2001:db8::1]:53") = Some (mkEndpoint (V6 [32; 1; 13; 184; 0; 0; 0; 0; 0; 0; 0; 0; 0; 0; 0; 1]) 53).
Proof. vm_compute. reflexivity. Qed.
Example parse_mapped : parse_ip (text_of "::ffff:1.2.3.4") = Some (V6 [0; 0; 0; 0; 0; 0; 0; 0; 0; 0; 255; 255; 1; 2; 3; 4]).
Proof. vm_compute. reflexivity. Qed.
Example parse_octal : parse_ip (text_of "127.0.0.01") = None.
Proof. vm_compute. reflexivity. Qed.
Example parse_unspecified : parse_ip (text_of "::") = Some (V6 (replicate 16 0)).
Proof. vm_compute. reflexivity. Qed.
Example write_v6 : ipv6_text [32; 1; 13; 184; 0; 0; 0; 0; 0; 0; 0; 0; 0; 0; 0; 1] = text_of "2001:db8::1".
Proof. vm_compute. reflexivity. Qed.
