(* ===== verification/Text.v ===== *)
(** The string operations of the standard library that the policy code uses, on the
    UTF-8 bytes of a string: whitespace is Unicode's [White_Space], and every pattern
    starts at a byte that starts a character, so looking at bytes from the front meets
    the same matches. *)

From S2P Require Import Prelude IpText.
Open Scope Z_scope.

(** The length of the whitespace character at the front, or zero. *)
Definition ws_len (bs : bytes) : nat :=
  match bs with
  | b0 :: rest =>
      if ((9 <=? b0) && (b0 <=? 13)) || (b0 =? 32) then 1%nat
      else match rest with
      | b1 :: rest =>
          if (b0 =? 0xc2) && ((b1 =? 0x85) || (b1 =? 0xa0)) then 2%nat
          else match rest with
          | b2 :: _ =>
              if ((b0 =? 0xe1) && (b1 =? 0x9a) && (b2 =? 0x80))
                 || ((b0 =? 0xe2) && (b1 =? 0x80) &&
                     (((0x80 <=? b2) && (b2 <=? 0x8a)) || (b2 =? 0xa8) || (b2 =? 0xa9) || (b2 =? 0xaf)))
                 || ((b0 =? 0xe2) && (b1 =? 0x81) && (b2 =? 0x9f))
                 || ((b0 =? 0xe3) && (b1 =? 0x80) && (b2 =? 0x80))
              then 3%nat else 0%nat
          | [] => 0%nat
          end
      | [] => 0%nat
      end
  | [] => 0%nat
  end.

(** Past the whitespace at the front. *)
Fixpoint skip_ws (fuel : nat) (bs : bytes) : bytes :=
  match fuel with
  | O => bs
  | S fuel => match ws_len bs with O => bs | n => skip_ws fuel (drop n bs) end
  end.

Definition trim_start (bs : bytes) : bytes := skip_ws (length bs) bs.

(** Up to the whitespace at the end: the prefix before the first place from which all is
    whitespace. *)
Fixpoint trim_end (bs : bytes) : bytes :=
  match trim_start bs with
  | [] => []
  | _ => match bs with [] => [] | b :: bs => b :: trim_end bs end
  end.

Definition trim (bs : bytes) : bytes := trim_end (trim_start bs).

(** The characters before the first whitespace, and what follows. *)
Fixpoint token (bs : bytes) : bytes * bytes :=
  match bs with
  | [] => ([], [])
  | b :: rest =>
      match ws_len bs with
      | O => let '(t, rest) := token rest in (b :: t, rest)
      | _ => ([], bs)
      end
  end.

Fixpoint split_ws (fuel : nat) (bs : bytes) : list bytes :=
  match fuel with
  | O => []
  | S fuel =>
      match trim_start bs with
      | [] => []
      | bs => let '(t, rest) := token bs in t :: split_ws fuel rest
      end
  end.

Definition split_whitespace (bs : bytes) : list bytes := split_ws (S (length bs)) bs.

Fixpoint starts_with (prefix bs : bytes) : bool :=
  match prefix, bs with
  | [], _ => true
  | p :: prefix, b :: bs => (p =? b) && starts_with prefix bs
  | _ :: _, [] => false
  end.

Definition strip_prefix (prefix bs : bytes) : option bytes :=
  if starts_with prefix bs then Some (drop (length prefix) bs) else None.

Definition strip_suffix1 (c : Z) (bs : bytes) : option bytes :=
  match reverse bs with b :: rest => if b =? c then Some (reverse rest) else None | [] => None end.

Fixpoint contains (pattern bs : bytes) : bool :=
  starts_with pattern bs || match bs with [] => false | _ :: bs => contains pattern bs end.

Definition contains1 (c : Z) (bs : bytes) : bool := existsb (Z.eqb c) bs.

(** [lines]: the pieces that end in a line feed, without it and a carriage return before
    it, and what remains after the last one when there is any. *)
Fixpoint lines_from (line : bytes) (bs : bytes) : list bytes :=
  match bs with
  | [] => match line with [] => [] | _ => [line] end
  | b :: bs =>
      if b =? 10 then default line (strip_suffix1 13 line) :: lines_from [] bs
      else lines_from (line ++ [b]) bs
  end.

Definition lines (bs : bytes) : list bytes := lines_from [] bs.

(** [split(c)]. *)
Fixpoint split_char (c : Z) (bs : bytes) : list bytes :=
  match bs with
  | [] => [[]]
  | b :: rest =>
      if b =? c then [] :: split_char c rest
      else match split_char c rest with piece :: pieces => (b :: piece) :: pieces | [] => [[b]] end
  end.

Definition eq_ignore_ascii_case (a b : bytes) : bool :=
  bool_decide ((to_ascii_lowercase <$> a) = (to_ascii_lowercase <$> b)).

(** [[u8]::trim_ascii]. *)
Definition is_ascii_ws (b : Z) : bool := (b =? 9) || (b =? 10) || (b =? 12) || (b =? 13) || (b =? 32).

Fixpoint trim_ascii_start (bs : bytes) : bytes :=
  match bs with [] => [] | b :: rest => if is_ascii_ws b then trim_ascii_start rest else bs end.

Definition trim_ascii (bs : bytes) : bytes := reverse (trim_ascii_start (reverse (trim_ascii_start bs))).

(** [iter().position(|byte| *byte == c)]. *)
Definition byte_position (c : Z) (bs : bytes) : option nat := fst <$> list_find (fun b => b = c) bs.

(** [str::parse] of an unsigned integer of at most [max]: digits, after at most one plus
    sign. *)
Fixpoint uint_digits (max acc : Z) (bs : bytes) : option Z :=
  match bs with
  | [] => Some acc
  | b :: bs =>
      if (48 <=? b) && (b <=? 57) then
        let acc := acc * 10 + (b - 48) in
        if acc <=? max then uint_digits max acc bs else None
      else None
  end.

Definition parse_uint (max : Z) (bs : bytes) : option Z :=
  match default bs (strip_prefix [43] bs) with
  | [] => None
  | digits => uint_digits max 0 digits
  end.

Example trim_both : trim (text_of "  a b	 ") = text_of "a b".
Proof. vm_compute. reflexivity. Qed.
Example trim_nbsp : trim ([0xc2; 0xa0] ++ text_of "x" ++ [0xe2; 0x80; 0x89]) = text_of "x".
Proof. vm_compute. reflexivity. Qed.
Example split_words : split_whitespace (text_of " 0.0.0.0  a.example ") = [text_of "0.0.0.0"; text_of "a.example"].
Proof. vm_compute. reflexivity. Qed.
Example split_lines : lines (text_of "a" ++ [13; 10] ++ text_of "b" ++ [10; 10]) = [text_of "a"; text_of "b"; []].
Proof. vm_compute. reflexivity. Qed.

(** ** ASCII text

    Where every byte is below 128 whitespace is one byte, and the operations have the
    equations one expects of them. *)

Abbreviation ascii := (Forall (fun b : Z => 0 <= b < 128)).

Definition is_ws (b : Z) : bool := ((9 <=? b) && (b <=? 13)) || (b =? 32).

Lemma ws_len_ascii b bs : ascii (b :: bs) -> ws_len (b :: bs) = if is_ws b then 1%nat else 0%nat.
Proof.
  intros [Hb _]%Forall_cons. unfold ws_len. fold (is_ws b). destruct (is_ws b); [done|].
  destruct bs as [|b1 [|b2 bs]]; [done| |]; rewrite ?(proj2 (Z.eqb_neq b _)) by lia; done.
Qed.

Lemma trim_start_ascii b bs : ascii (b :: bs) -> trim_start (b :: bs) = if is_ws b then trim_start bs else b :: bs.
Proof. intros Ha. unfold trim_start. cbn [length skip_ws]. rewrite ws_len_ascii by done. by destruct (is_ws b). Qed.

Lemma trim_start_empty bs : ascii bs -> trim_start bs = [] <-> Forall (fun b => is_ws b = true) bs.
Proof.
  induction 1 as [|b bs Hb Ha IH]; [done|]. rewrite trim_start_ascii by by constructor. rewrite Forall_cons, <- IH.
  destruct (is_ws b); [naive_solver|]. split; [done|]. by intros [? _].
Qed.

(** What is left has no whitespace in front, and is a tail of the text. *)
Lemma trim_start_suffix bs : ascii bs -> trim_start bs `suffix_of` bs /\
  (forall b rest, trim_start bs = b :: rest -> is_ws b = false).
Proof.
  induction 1 as [|b bs Hb Ha [IHs IHb]]; [done|]. rewrite trim_start_ascii by by constructor.
  destruct (is_ws b) eqn:E; [split; [by apply suffix_cons_r|done]|]. split; [done|]. by intros ? ? [= <- _].
Qed.

Lemma trim_end_cons b bs : trim_end (b :: bs) = match trim_start (b :: bs) with [] => [] | _ => b :: trim_end bs end.
Proof. done. Qed.

Lemma trim_end_prefix bs : trim_end bs `prefix_of` bs.
Proof.
  induction bs as [|b bs IH]; [done|]. rewrite trim_end_cons. case_match; [apply prefix_nil|]. by apply prefix_cons.
Qed.

Lemma ascii_trim_end bs : ascii bs -> ascii (trim_end bs).
Proof. intros Ha. destruct (trim_end_prefix bs) as [k Hk]. rewrite Hk in Ha. by apply Forall_app in Ha as [Ha _]. Qed.

(** Text whose ends are not whitespace. *)
Definition trimmed (bs : bytes) : Prop := trim_start bs = bs /\ trim_end bs = bs.

Lemma trim_end_idem bs : ascii bs -> trim_end (trim_end bs) = trim_end bs.
Proof.
  intros Ha. induction Ha as [|b bs Hb Ha IH]; [done|]. rewrite trim_end_cons. case_match eqn:E; [done|].
  rewrite trim_end_cons, IH. case_match eqn:E'; [|done].
  apply trim_start_empty in E'; [|constructor; [done|by apply ascii_trim_end]].
  apply Forall_cons in E' as [Hw Hrest].
  assert (trim_start (b :: bs) = []) as E0; [|congruence].
  rewrite trim_start_ascii, Hw by by constructor.
  destruct (trim_end bs) as [|c cs] eqn:Et.
  - destruct bs as [|c cs]; [done|]. rewrite trim_end_cons in Et. case_match; done.
  - destruct bs as [|c' cs']; [done|]. pose proof IH as IH'. rewrite trim_end_cons in IH'.
    assert (ascii (c :: cs)) as Hcs by (rewrite <- Et; by apply ascii_trim_end).
    by rewrite (proj2 (trim_start_empty (c :: cs) Hcs) Hrest) in IH'.
Qed.

Lemma trim_trimmed bs : ascii bs -> trimmed (trim bs).
Proof.
  intros Ha. unfold trim. destruct (trim_start_suffix bs Ha) as [Hsuf Hhd].
  assert (ascii (trim_start bs)) as Ha' by (destruct Hsuf as [k Hk]; rewrite Hk in Ha; by apply Forall_app in Ha as [_ Ha]).
  split; [|by apply trim_end_idem]. destruct (trim_start bs) as [|b rest] eqn:E; [done|].
  pose proof (Hhd b rest eq_refl) as Hb. rewrite trim_end_cons.
  rewrite trim_start_ascii, Hb by done. rewrite trim_start_ascii, Hb; [done|].
  apply Forall_cons in Ha' as [? Ha']. constructor; [done|by apply ascii_trim_end].
Qed.

Lemma trim_of_trimmed bs : trimmed bs -> trim bs = bs.
Proof. intros [H1 H2]. unfold trim. by rewrite H1. Qed.

Lemma trim_space bs : ascii bs -> trimmed bs -> trim (32 :: bs) = bs.
Proof. intros Ha Ht. unfold trim. rewrite trim_start_ascii by (constructor; [lia|done]). by apply trim_of_trimmed. Qed.

Lemma trimmed_head bs b rest : ascii bs -> trimmed bs -> bs = b :: rest -> is_ws b = false.
Proof. intros Ha [Ht _] ->. by apply (proj2 (trim_start_suffix (b :: rest) Ha) b rest). Qed.

(** Trimmed text followed by other text that does not end in whitespace is trimmed. *)
Lemma trim_end_app a b : ascii (a ++ b) -> b <> [] -> trim_end b = b -> trim_end (a ++ b) = a ++ b.
Proof.
  intros Ha Hb He. induction a as [|c a IH]; [done|]. cbn [app] in *. rewrite trim_end_cons, IH by (by apply Forall_cons in Ha as [_ Ha]).
  case_match eqn:E; [|done]. apply trim_start_empty in E; [|done]. apply Forall_cons in E as [_ E].
  apply Forall_app in E as [_ E]. apply trim_start_empty in E; [|by apply Forall_cons in Ha as [_ Ha]; apply Forall_app in Ha as [_ Ha]].
  destruct b; [done|]. rewrite trim_end_cons, E in He. done.
Qed.

Lemma trimmed_app a b : ascii (a ++ b) -> trimmed a -> a <> [] -> b <> [] -> trim_end b = b -> trimmed (a ++ b).
Proof.
  intros Ha Ht Hane Hb He. split; [|by apply trim_end_app]. destruct a as [|c a]; [done|].
  assert (is_ws c = false) as Hc by (eapply trimmed_head; [by apply Forall_app in Ha as [Ha _]|done|done]).
  cbn [app]. by rewrite trim_start_ascii, Hc.
Qed.

Lemma trim_end_no_ws bs : ascii bs -> Forall (fun b => is_ws b = false) bs -> trim_end bs = bs.
Proof.
  intros Ha Hw. induction Ha as [|b bs Hb Ha IH]; [done|]. apply Forall_cons in Hw as [Hb' Hw].
  rewrite trim_end_cons, trim_start_ascii, Hb', IH by (done || by constructor). done.
Qed.

(** The words of ASCII text, one byte at a time; [current] is the word being read. *)
Fixpoint words_from (current bs : bytes) : list bytes :=
  let closed := match current with [] => [] | _ => [current] end in
  match bs with
  | [] => closed
  | b :: bs => if is_ws b then closed ++ words_from [] bs else words_from (current ++ [b]) bs
  end.

Lemma words_trim_start bs : ascii bs -> words_from [] (trim_start bs) = words_from [] bs.
Proof.
  induction 1 as [|b bs Hb Ha IH]; [done|]. rewrite trim_start_ascii by by constructor. cbn [words_from].
  by destruct (is_ws b) eqn:E; [|cbn; rewrite E].
Qed.

(** The first word of what [token] reads, and the rest. *)
Lemma token_words bs : ascii bs -> forall current, current <> [] ->
  ascii (token bs).2 /\ (length (token bs).2 <= length bs)%nat /\
  words_from current bs = (current ++ (token bs).1) :: words_from [] (token bs).2.
Proof.
  induction 1 as [|b bs Hb Ha IH]; intros current Hne; [destruct current; [done|]; cbn; by rewrite app_nil_r|].
  cbn [token]. rewrite ws_len_ascii by by constructor. cbn [words_from]. destruct (is_ws b) eqn:E; cbn [fst snd].
  - split_and!; [by constructor|done|]. destruct current; [done|]. cbn [words_from]. by rewrite E, app_nil_r.
  - destruct (IH (current ++ [b])) as (IH1 & IH2 & IH3); [by destruct current|].
    destruct (token bs) as [t rest] eqn:Et; cbn [fst snd length] in *. split_and!; [done|lia|]. by rewrite IH3, <- app_assoc.
Qed.

Lemma split_ws_words fuel : forall bs, ascii bs -> (length bs < fuel)%nat -> split_ws fuel bs = words_from [] bs.
Proof.
  induction fuel as [|fuel IH]; intros bs Ha Hf; [lia|]. cbn [split_ws].
  destruct (trim_start_suffix bs Ha) as [Hsuf Hhd]. rewrite <- words_trim_start by done.
  assert (ascii (trim_start bs)) as Ha' by (destruct Hsuf as [k Hk]; rewrite Hk in Ha; by apply Forall_app in Ha as [_ Ha]).
  apply suffix_length in Hsuf. destruct (trim_start bs) as [|b rest] eqn:E; [done|].
  pose proof (Hhd b rest eq_refl) as Hb. cbn [token words_from]. rewrite ws_len_ascii, Hb by done.
  destruct (token_words rest) with (current := [b]) as (H1 & H2 & H3); [by apply Forall_cons in Ha' as [_ Ha']|done|].
  cbn [app]. rewrite H3. destruct (token rest) as [t r]; cbn [fst snd length] in *. rewrite IH; [done|done|lia].
Qed.

Lemma split_whitespace_words bs : ascii bs -> split_whitespace bs = words_from [] bs.
Proof. intros Ha. apply split_ws_words; [done|lia]. Qed.

Lemma words_app current a w b : is_ws w = true -> words_from current (a ++ w :: b) = words_from current a ++ words_from [] b.
Proof.
  intros Hw. revert current. induction a as [|c a IH]; intros current; cbn [app words_from]; [by rewrite Hw|].
  destruct (is_ws c); [by rewrite IH, app_assoc|apply IH].
Qed.

Lemma words_word current bs : Forall (fun b => is_ws b = false) bs -> current ++ bs <> [] ->
  words_from current bs = [current ++ bs].
Proof.
  intros Hw. revert current. induction Hw as [|b bs Hb Hw IH]; intros current Hne; cbn [words_from].
  - rewrite app_nil_r in *. by destruct current.
  - rewrite Hb, IH by (by destruct current). by rewrite <- app_assoc.
Qed.

Lemma split_whitespace_space a b : ascii (a ++ 32 :: b) ->
  split_whitespace (a ++ 32 :: b) = split_whitespace a ++ split_whitespace b.
Proof.
  intros Ha. pose proof Ha as Ha'. apply Forall_app in Ha' as [Ha1 [_ Ha2]%Forall_cons].
  rewrite !split_whitespace_words by done. by apply words_app.
Qed.

Lemma split_whitespace_word bs : ascii bs -> Forall (fun b => is_ws b = false) bs -> bs <> [] -> split_whitespace bs = [bs].
Proof. intros Ha Hw Hne. rewrite split_whitespace_words by done. by apply (words_word []). Qed.

(** The words of trimmed text start it. *)
Lemma words_nonempty current bs : Exists (fun b => is_ws b = false) bs \/ current <> [] -> words_from current bs <> [].
Proof.
  revert current. induction bs as [|b bs IH]; intros current H; cbn [words_from].
  - destruct H as [H|H]; [by apply Exists_nil in H|by destruct current].
  - destruct (is_ws b) eqn:E.
    + destruct current; [|done]. apply IH. destruct H as [H|H]; [|done]. apply Exists_cons in H as [H|H]; [congruence|by left].
    + apply IH. right. by destruct current.
Qed.

(** ** Splitting what was joined *)

Lemma split_char_none c bs : c ∉ bs -> split_char c bs = [bs].
Proof.
  induction bs as [|b bs IH]; intros Hn; [done|]. apply not_elem_of_cons in Hn as [Hb Hn]. cbn [split_char].
  by rewrite (proj2 (Z.eqb_neq b c)), IH.
Qed.

Lemma split_char_app c a b : c ∉ a -> split_char c (a ++ c :: b) = a :: split_char c b.
Proof.
  induction a as [|x a IH]; intros Hn; cbn [app split_char]; [by rewrite Z.eqb_refl|].
  apply not_elem_of_cons in Hn as [Hx Hn]. by rewrite (proj2 (Z.eqb_neq x c)), IH.
Qed.

Lemma split_char_join c sep parts :
  c ∉ sep -> Forall (fun part => c ∉ part) parts -> parts <> [] ->
  split_char c (join_text (c :: sep) parts) = match parts with [] => [] | part :: parts => part :: ((sep ++.) <$> parts) end.
Proof.
  intros Hs Hp Hne. assert (forall pre, c ∉ pre ->
    split_char c (pre ++ join_text (c :: sep) parts) = match parts with [] => [] | part :: parts => (pre ++ part) :: ((sep ++.) <$> parts) end) as H.
  { induction Hp as [|part parts Hpart Hp IH]; [done|]. intros pre Hpre.
    destruct parts as [|part' parts]; [by rewrite split_char_none by set_solver|].
    change (join_text (c :: sep) (part :: part' :: parts)) with (part ++ c :: sep ++ join_text (c :: sep) (part' :: parts)).
    rewrite app_assoc, split_char_app by set_solver. by rewrite IH by (done || set_solver). }
  specialize (H [] ltac:(set_solver)). done.
Qed.

Lemma split_char_pieces c bs : Forall (fun piece => c ∉ piece /\ (forall b, b ∈ piece -> b ∈ bs)) (split_char c bs).
Proof.
  induction bs as [|b bs IH]; cbn [split_char]; [constructor; [set_solver|done]|].
  assert (Forall (fun piece => c ∉ piece /\ (forall x, x ∈ piece -> x ∈ b :: bs)) (split_char c bs)) as IH'.
  { eapply Forall_impl; [done|]. set_solver. }
  destruct (b =? c) eqn:E; [constructor; [set_solver|done]|]. reflect.
  destruct (split_char c bs) as [|piece pieces]; [constructor; [set_solver|done]|].
  apply Forall_cons in IH' as [[H1 H2] IH']. constructor; [|done]. set_solver.
Qed.
