(* ===== verification/Egress.v ===== *)
(** The vocabulary of the egresses ([src/egress/mod.rs], and [ProxyError] of
    [src/egress/socks5.rs]): names and targets, errors, the replayed prefix of a
    negotiated stream, the padding of a WireGuard packet, and chained egresses.

    A stream is a script of what its polls will answer; [tokio]'s contract is that a
    poll moves at most the room of the caller's buffer, and that moving nothing into a
    buffer with room is the end of the stream. *)

From S2P Require Import Prelude Wire Net Plan Pool.
Open Scope Z_scope.

(** ** Errors *)

(** RFC 1928 section 6 reply codes. *)
Inductive Reply :=
| Succeeded | GeneralFailure | NotAllowed | NetworkUnreachable | HostUnreachable | ConnectionRefused
| TtlExpired | CommandNotSupported | AddressTypeNotSupported | OtherReply (code : Z).

#[global] Instance Reply_eq_dec : EqDecision Reply.
Proof. solve_decision. Defined.

Inductive ProxyError :=
| Version (version : Z)
| Denied (reason : bytes)
| NoAcceptableMethod
| UnexpectedMethod (method : Z)
| AuthFailed
| Refused (reply : Reply)
| Address
| FragmentedDatagram
| Crypto
| Header
| Stale (skew : Z)
| SaltMismatch
| Unframed.

#[global] Instance ProxyError_eq_dec : EqDecision ProxyError.
Proof. solve_decision. Defined.

(** [std::io::ErrorKind]: the kinds the source names ([PeerRefused] is
    [ConnectionRefused]), and the others by a code. *)
Inductive ErrorKind :=
| UnexpectedEof | WriteZero | InvalidData | InvalidInput | ConnectionAborted | PeerRefused | BrokenPipe | TimedOut
| OtherKind (code : Z).

#[global] Instance ErrorKind_eq_dec : EqDecision ErrorKind.
Proof. solve_decision. Defined.

(** [WireGuardError] belongs to the gotatun crate. *)
Inductive EgressError {WireGuardError : Type} :=
| MalformedNetworkPacket
| PoolExhausted
| WireGuard (error : WireGuardError)
| Masque
| Quic
| DatagramsUnsupported
| DatagramTooLarge (required : nat)
| Proxy (error : ProxyError)
| Io (kind : ErrorKind).
Arguments EgressError : clear implicits.

(** ** Names and targets *)

(** A [DomainName] is the bytes of its string. *)
Abbreviation DomainName := bytes.

Inductive DomainNameError := NameEmpty | TooLong (length : nat) | Interior.

Definition DomainName_new (name : bytes) : Res DomainNameError DomainName :=
  match length name with
  | O => Err NameEmpty
  | len =>
      if (255 <? len)%nat then Err (TooLong len)
      else if existsb (Z.eqb 0) name then Err Interior
      else Ok (to_ascii_lowercase <$> name)
  end.

Definition DomainName_wire_len (name : DomainName) : Z := wrap 8 (Z.of_nat (length name)).

(** A [SocketAddr] is an address and a port. *)
Abbreviation SocketAddr := InternalEndpoint.

Inductive Target :=
| Ip (socket : SocketAddr)
| Domain (host : DomainName) (domain_port : Z).

#[global] Instance Target_eq_dec : EqDecision Target.
Proof. solve_decision. Defined.

Definition Target_port (t : Target) : Z :=
  match t with Ip socket => port socket | Domain _ domain_port => domain_port end.

(** The body of an address on the wire, by its family, as a target. *)
Inductive Family := FamilyV4 | FamilyV6 | FamilyDomain.

Definition target_of_body (family : Family) (body : bytes) (port : Z) : Res ProxyError Target :=
  match family with
  | FamilyV4 => '(ip, _) ← ok_or Address (Reader_ipv4 (Reader_new body)); Ok (Ip (mkEndpoint (V4 ip) port))
  | FamilyV6 => '(ip, _) ← ok_or Address (Reader_ipv6 (Reader_new body)); Ok (Ip (mkEndpoint (V6 ip) port))
  | FamilyDomain =>
      let name := Reader_rest (Reader_new body) in
      host ← ok_or Address
        (if utf8_ok name then match DomainName_new name with Ok host => Some host | _ => None end else None);
      Ok (Domain host port)
  end.

(** What the types guarantee of a target's name. *)
Record domain_ok (name : DomainName) : Prop := {
  dn_len : (1 <= length name <= 255)%nat;
  dn_bytes : bytes_ok name;
  dn_utf8 : utf8_ok name = true;
  dn_nonul : 0 ∉ name;
  dn_lower : Forall lowercase name;
}.

Definition target_ok (t : Target) : Prop :=
  u16_ok (Target_port t) /\
  match t with Ip socket => ip_ok (address socket) | Domain host _ => domain_ok host end.

(** ** Byte streams *)

Inductive ReadEvent := Arrives (bs : bytes) | ReadPending | ReadFails (kind : ErrorKind).

#[global] Instance ReadEvent_eq_dec : EqDecision ReadEvent.
Proof. solve_decision. Defined.

(** What the reader of a stream will meet; the end of the script is the end of the
    stream. *)
Abbreviation Script := (list ReadEvent).

Inductive Poll (A : Type) := Ready (a : A) | Failed (kind : ErrorKind) | Waits | Panics.
Arguments Ready {A} a.
Arguments Failed {A} kind.
Arguments Waits {A}.
Arguments Panics {A}.

(** [poll_read] of the inner stream into a buffer with room for [room] bytes. *)
Definition stream_poll_read (s : Script) (room : nat) : Poll bytes * Script :=
  match s with
  | [] => (Ready [], [])
  | ReadPending :: s => (Waits, s)
  | ReadFails kind :: s => (Failed kind, s)
  | Arrives bs :: s =>
      (Ready (take room bs), match drop room bs with [] => s | rest => Arrives rest :: s end)
  end.

(** The bytes a script will deliver before it fails. *)
Fixpoint arriving (s : Script) : bytes :=
  match s with
  | [] => []
  | Arrives bs :: s => bs ++ arriving s
  | ReadPending :: s => arriving s
  | ReadFails _ :: _ => []
  end.

(** No arrival is empty: an empty read is the end. *)
Definition script_ok (s : Script) : Prop := Forall (fun e => e <> Arrives []) s.

(** ** A replayed prefix *)

Inductive Prefixed := Replaying (prefix : bytes) (inner : Script) | Through (inner : Script).

(** [Either::Left] wraps a non-empty prefix, [Either::Right] is the stream itself. *)
Definition Prefixed_new (prefix : bytes) (inner : Script) : Prefixed :=
  match prefix with [] => Through inner | _ => Replaying prefix inner end.

Definition Prefixed_poll_read (p : Prefixed) (room : nat) : Poll bytes * Prefixed :=
  match p with
  | Replaying prefix inner =>
      if negb (length prefix =? 0)%nat then
        let moved := (room `min` length prefix)%nat in
        (Ready (take moved prefix), Replaying (drop moved prefix) inner)
      else
        let '(r, inner) := stream_poll_read inner room in (r, Replaying prefix inner)
  | Through inner => let '(r, inner) := stream_poll_read inner room in (r, Through inner)
  end.

(** ** Egresses *)

(** An egress by the layer it accepts and what it reports. *)
Inductive Egress := Packet (properties : PathProperties) | Stream (properties : PathProperties).

Definition Egress_accepts (e : Egress) : Accepts :=
  match e with Packet _ => IpPackets | Stream _ => Flows end.

Definition Egress_properties (e : Egress) : PathProperties :=
  match e with Packet properties | Stream properties => properties end.

Definition Egress_chain (first next : Egress) : Res ChainError PathProperties :=
  if negb (bool_decide (Egress_accepts first = Egress_accepts next)) then Err MixedLayers
  else chain (Egress_properties first) (Egress_properties next).

(** [strip_padding]: the packet up to the length its IP header declares. *)
Definition strip_padding {E} (packet : bytes) : Res E bytes :=
  declared ← match packet with
    | [] => Ok None
    | first :: _ =>
        if (Z.shiftr first 4 =? 4) && (20 <=? length packet)%nat then
          hi ← or_panic (packet !! 2%nat);
          lo ← or_panic (packet !! 3%nat);
          let header := Z.land first 0x0f * 4 in
          let total := be_value [hi; lo] in
          Ok (if (20 <=? header) && (header <=? total) then Some total else None)
        else if (Z.shiftr first 4 =? 6) && (40 <=? length packet)%nat then
          hi ← or_panic (packet !! 4%nat);
          lo ← or_panic (packet !! 5%nat);
          Ok (Some (40 + be_value [hi; lo]))
        else Ok None
    end;
  Ok (default packet (len ← declared; get_to packet (Z.to_nat len))).

(** * Names *)

Lemma DomainName_new_fixed name : domain_ok name -> DomainName_new name = Ok name.
Proof.
  intros [Hlen _ _ Hnul Hlow]. unfold DomainName_new. destruct (length name) as [|n] eqn:E; [lia|].
  rewrite (proj2 (Nat.ltb_ge _ _)) by lia.
  destruct (existsb _ name) eqn:Ex.
  { apply existsb_exists in Ex as (b & Hb & <-%Z.eqb_eq). by apply list_elem_of_In in Hb. }
  f_equal. clear -Hlow. induction Hlow as [|b name Hb _ IH]; [done|]. cbn. by rewrite Hb, IH.
Qed.

Lemma to_ascii_lowercase_high b : 0x80 <= b -> to_ascii_lowercase b = b.
Proof. intros. unfold to_ascii_lowercase. destruct (_ && _) eqn:E; reflect; lia. Qed.

Lemma to_ascii_lowercase_low b : (to_ascii_lowercase b <? 0x80) = (b <? 0x80).
Proof.
  unfold to_ascii_lowercase. destruct (_ && _) eqn:E; [|done]. reflect.
  rewrite !(proj2 (Z.ltb_lt _ _)) by lia. done.
Qed.

(** * Streams *)

(** A poll loses no byte and its empty answer is the end of the script. *)
Lemma stream_poll_read_ok s room :
  script_ok s -> (0 < room)%nat ->
  match stream_poll_read s room with
  | (Ready bs, s') => script_ok s' /\ arriving s = bs ++ arriving s' /\ (length bs <= room)%nat /\ (bs = [] -> s = []) /\
      (forall kind, ReadFails kind ∈ s' -> ReadFails kind ∈ s)
  | (Waits, s') => s = ReadPending :: s'
  | (Failed kind, s') => s = ReadFails kind :: s'
  | (Panics, _) => False
  end.
Proof.
  intros Hs Hr. destruct s as [|[bs| |kind] s]; cbn; [split_and!; [done|done|lia|done|done]| |done|done].
  apply Forall_cons in Hs as [Hb Hs]. rewrite length_take.
  assert (bs <> []) as Hne by congruence.
  assert (take room bs = [] -> Arrives bs :: s = []) as Heof by (destruct bs, room; (done || lia)).
  pose proof (take_drop room bs) as Htd. destruct (drop room bs) as [|b rest].
  - rewrite app_nil_r in Htd. split_and!; [done|by rewrite Htd|lia|exact Heof|]. intros kind Hk. by right.
  - split_and!; [by constructor|cbn [arriving]; by rewrite (assoc_L (++)), Htd|lia|exact Heof|].
    intros kind [Hk|Hk]%elem_of_cons; [done|]. by right.
Qed.

(** * Addresses on the wire *)

Lemma Reader_extend_new bs more : Reader_new (bs ++ more) = Reader_extend (Reader_new bs) more.
Proof. done. Qed.

Lemma reader_new_ok bs : reader_ok (Reader_new bs).
Proof. unfold reader_ok. cbn. lia. Qed.

Lemma target_of_body_total family body port : target_of_body family body port <> Panic.
Proof.
  destruct family; unfold target_of_body; cbn [mbind].
  - by destruct (Reader_ipv4 _) as [[? ?]|].
  - by destruct (Reader_ipv6 _) as [[? ?]|].
  - by destruct (if utf8_ok _ then _ else _).
Qed.

(** The body of an address: how many bytes there are before it is decided. *)
Definition address_body (family : Family) (reader : Reader) : option (bytes * Reader) :=
  match family with
  | FamilyV4 => Reader_take reader 4
  | FamilyV6 => Reader_take reader 16
  | FamilyDomain => Reader_vector_u8 reader
  end.

Lemma address_body_extend family r bs r' more :
  address_body family r = Some (bs, r') -> address_body family (Reader_extend r more) = Some (bs, Reader_extend r' more).
Proof. destruct family; [apply Reader_take_extend..|apply Reader_vector_u8_extend]. Qed.

Lemma address_body_ok family r bs r' :
  reader_ok r -> address_body family r = Some (bs, r') ->
  reader_ok r' /\ r_bytes r' = r_bytes r /\ (bytes_ok (r_bytes r) -> r_at r' <= r_at r + 256)%nat.
Proof.
  intros Hr. destruct family; cbn [address_body].
  - intros (? & ? & ? & _)%Reader_take_ok; [|done]. split_and!; (done || lia).
  - intros (? & ? & ? & _)%Reader_take_ok; [|done]. split_and!; (done || lia).
  - unfold Reader_vector_u8, Reader_u8. intros ([len r''] & Hu & Ht)%bind_Some.
    pose proof (fun Hb => Reader_uint_range _ _ _ _ Hb Hu) as Hlen. apply Reader_uint_ok in Hu as (Hr' & Hat & Hbs); [|done].
    apply Reader_take_ok in Ht as (? & ? & ? & _); [|done]. split_and!; [done|congruence|]. intros Hb. specialize (Hlen Hb).
    cbn in Hlen. lia.
Qed.

Lemma address_body_None family r :
  reader_ok r -> bytes_ok (r_bytes r) -> address_body family r = None -> (length (r_bytes r) < r_at r + 256)%nat.
Proof.
  intros Hr Hb. destruct family; cbn [address_body].
  - intros ?%Reader_take_None; [|done]. lia.
  - intros ?%Reader_take_None; [|done]. lia.
  - unfold Reader_vector_u8, Reader_u8. destruct (Reader_uint 1 r) as [[len r'']|] eqn:Hu; cbn [mbind option_bind].
    + pose proof (Reader_uint_range _ _ _ _ Hb Hu) as Hlen. apply Reader_uint_ok in Hu as (Hr' & Hat & Hbs); [|done].
      intros Ht%Reader_take_None; [|done]. rewrite Hbs in Ht. cbn in Hlen. lia.
    + intros _. apply Reader_uint_None in Hu; [|done]. lia.
Qed.

Lemma address_body_take family pre ip post n :
  length ip = n -> (family = FamilyV4 /\ n = 4%nat \/ family = FamilyV6 /\ n = 16%nat) ->
  address_body family (mkReader (pre ++ ip ++ post) (length pre)) = Some (ip, mkReader (pre ++ ip ++ post) (length pre + length ip)).
Proof.
  intros Hl Hf. pose proof (Reader_take_app pre ip post) as Ht.
  by destruct Hf as [[-> ->]|[-> ->]]; cbn [address_body]; rewrite <- Hl.
Qed.

Lemma address_body_domain pre host post :
  (length host <= 255)%nat ->
  address_body FamilyDomain (mkReader (pre ++ (wrap 8 (Z.of_nat (length host)) :: host) ++ post) (length pre))
  = Some (host, mkReader (pre ++ (wrap 8 (Z.of_nat (length host)) :: host) ++ post) (length pre + (1 + length host))).
Proof.
  intros Hl. assert (wrap 8 (Z.of_nat (length host)) = Z.of_nat (length host)) as -> by (apply Z.mod_small; lia).
  cbn [address_body]. unfold Reader_vector_u8, Reader_u8. set (len := Z.of_nat (length host)).
  pose proof (Reader_uint_app 1 pre len (host ++ post)) as Hu.
  pose proof (Reader_take_app (pre ++ [len]) host post) as Ht. rewrite length_app in Ht. cbn [length] in Ht.
  rewrite <- (assoc_L (++)) in Ht. cbn [app] in Ht.
  replace (be_bytes 1 len) with [len] in Hu 
    by (cbn; rewrite Z.div_1_r, Z.mod_small; [done|unfold len; lia]).
  cbn [app] in *. rewrite Hu by (unfold len; cbn; lia). cbn [mbind option_bind]. replace (Z.to_nat len) with (length host) by (unfold len; lia). rewrite Ht.
  by rewrite <- Nat.add_assoc.
Qed.

Lemma target_of_ip family ip p n :
  length ip = n -> (family = FamilyV4 /\ n = 4%nat \/ family = FamilyV6 /\ n = 16%nat) ->
  target_of_body family ip p = Ok (Ip (mkEndpoint (match family with FamilyV4 => V4 ip | _ => V6 ip end) p)).
Proof.
  intros Hl [[-> ->]|[-> ->]]; unfold target_of_body, Reader_ipv4, Reader_ipv6, Reader_array, Reader_rest, get_to;
    cbn [Reader_new r_bytes r_at]; rewrite drop_0, Hl; cbn; by rewrite <- Hl, firstn_all.
Qed.

Lemma target_of_domain host p : domain_ok host -> target_of_body FamilyDomain host p = Ok (Domain host p).
Proof.
  intros Hd. unfold target_of_body, Reader_rest. cbn [Reader_new r_bytes r_at]. rewrite drop_0, (dn_utf8 _ Hd).
  by rewrite (DomainName_new_fixed _ Hd).
Qed.
