(* ===== verification/Sansio.v ===== *)
(** Protocol machines and their drivers ([src/sansio.rs]): a one-time negotiation
    driven over a stream that splits its bytes anywhere, and a framed stream over a
    codec.  The two traits are type classes; what the drivers rely on are the laws
    [NegotiationLaws] and [CodecLaws], which each protocol proves of its machine. *)

From S2P Require Import Prelude Wire Net Plan Pool Egress.
Open Scope Z_scope.

Inductive Decoded (T : Type) := Incomplete | Complete (value : T) (consumed : nat).
Arguments Incomplete {T}.
Arguments Complete {T} value consumed.

(** A decoder of a prefix: it never panics, its answers do not depend on what follows,
    and [bound] bytes are enough for one. *)
Record stable {T : Type} (f : bytes -> Res ProxyError (Decoded T)) (bound : nat) : Prop := {
  st_total : forall i, f i <> Panic;
  st_complete : forall i more v n, f i = Ok (Complete v n) -> (n <= length i)%nat /\ f (i ++ more) = Ok (Complete v n);
  st_error : forall i more e, f i = Err e -> f (i ++ more) = Err e;
  st_bound : forall i, bytes_ok i -> (bound <= length i)%nat -> f i <> Ok Incomplete;
}.

(** [advance]: the answer, the machine afterwards, and the output buffer with what the
    machine appended. *)
Class Negotiation (M Out : Type) :=
  advance : M -> bytes -> bytes -> Res ProxyError (Decoded Out) * M * bytes.

Inductive Decode := Framed_ (rest : bytes) | Transparent (rest : bytes).

Definition Decode_rest (d : Decode) : bytes := match d with Framed_ rest | Transparent rest => rest end.

Definition Decode_consumed (d : Decode) (input : bytes) : nat := (length input - length (Decode_rest d))%nat.

Inductive Writes := WritesFramed | WritesVerbatim.

#[global] Instance Writes_eq_dec : EqDecision Writes.
Proof. solve_decision. Defined.

(** [decode] and [encode] answer the codec afterwards and the buffer they appended to;
    [max_payload] of [None] is [usize::MAX]. *)
Class Codec (C : Type) := {
  decode : C -> bytes -> bytes -> Res ProxyError Decode * C * bytes;
  encode : C -> bytes -> bytes -> Res ProxyError unit * C * bytes;
  max_payload : C -> option nat;
  writes : C -> Writes;
}.

(** The trait's default [encode]. *)
Definition unframed {C : Type} (codec : C) (_ out : bytes) : Res ProxyError unit * C * bytes :=
  (Err Unframed, codec, out).

(** ** The negotiation driver *)

Definition NEGOTIATION_CHUNK : nat := 512.
Definition MAX_NEGOTIATION : nat := 16 * 1024.

(** [read().await]: pending polls are waited out. *)
Fixpoint await_read (s : Script) (room : nat) : Res ErrorKind bytes * Script :=
  match s with
  | ReadPending :: s => await_read s room
  | _ =>
      match stream_poll_read s room with
      | (Ready bs, s) => (Ok bs, s)
      | (Failed kind, s) => (Err kind, s)
      | (Waits, s) | (Panics, s) => (Panic, s)
      end
  end.

(** The stream as the driver uses it: what will arrive, the outcome of each
    [write_all] and [flush] ([None] succeeds, as does every write past the list), and
    what was written. *)
Record Wire := mkWire { w_reads : Script; w_faults : list (option ErrorKind); w_sent : bytes }.

Definition wire_write (bs : bytes) (w : Wire) : Res ErrorKind unit * Wire :=
  match w_faults w with
  | Some kind :: faults => (Err kind, mkWire (w_reads w) faults (w_sent w))
  | None :: faults => (Ok tt, mkWire (w_reads w) faults (w_sent w ++ bs))
  | [] => (Ok tt, mkWire (w_reads w) [] (w_sent w ++ bs))
  end.

Section Negotiate.
Context {W M Out : Type} `{Negotiation M Out}.

(** The loop of [negotiate]: every round that goes on reads at least a byte, so it
    makes at most [MAX_NEGOTIATION + 1] rounds. *)
Fixpoint negotiate_loop (fuel : nat) (machine : M) (received : bytes) (w : Wire)
  : Res (EgressError W) (Out * bytes) * M * Wire :=
  match fuel with
  | O => (Panic, machine, w)
  | S fuel =>
      match advance machine received [] with
      | (Err e, machine, _) => (Err (Proxy e), machine, w)
      | (Panic, machine, _) => (Panic, machine, w)
      | (Ok progress, machine, sending) =>
          let '(written, w) :=
            if negb (length sending =? 0)%nat then wire_write sending w else (Ok tt, w) in
          match written with
          | Err kind => (Err (Io kind), machine, w)
          | Panic => (Panic, machine, w)
          | Ok _ =>
              match progress with
              | Complete value consumed =>
                  if (length received <? consumed)%nat then (Err (Proxy Header), machine, w)
                  else (Ok (value, drop consumed received), machine, w)
              | Incomplete =>
                  if (MAX_NEGOTIATION <=? length received)%nat then (Err (Proxy Header), machine, w) else
                  let '(read, reads) := await_read (w_reads w) NEGOTIATION_CHUNK in
                  let w := mkWire reads (w_faults w) (w_sent w) in
                  match read with
                  | Err kind => (Err (Io kind), machine, w)
                  | Panic => (Panic, machine, w)
                  | Ok [] => (Err (Io UnexpectedEof), machine, w)
                  | Ok chunk => negotiate_loop fuel machine (received ++ chunk) w
                  end
              end
          end
      end
  end.

Definition negotiate (machine : M) (w : Wire) : Res (EgressError W) (Out * bytes) * M * Wire :=
  negotiate_loop (S MAX_NEGOTIATION) machine [] w.

End Negotiate.

(** ** Framed streams *)

Definition FRAMED_CHUNK : nat := 16 * 1024.

(** A poll of the inner stream's writer: it accepts up to some bytes, waits or fails;
    past the script it waits. *)
Inductive WriteEvent := AcceptsUpTo (n : nat) | WritePending | WriteFails (kind : ErrorKind).

Record Inner := mkInner { in_reads : Script; in_accepts : list WriteEvent; in_wrote : bytes }.

Definition inner_poll_read (i : Inner) (room : nat) : Poll bytes * Inner :=
  let '(r, s) := stream_poll_read (in_reads i) room in (r, mkInner s (in_accepts i) (in_wrote i)).

Definition inner_poll_write (i : Inner) (buf : bytes) : Poll nat * Inner :=
  match in_accepts i with
  | [] => (Waits, i)
  | WritePending :: rest => (Waits, mkInner (in_reads i) rest (in_wrote i))
  | WriteFails kind :: rest => (Failed kind, mkInner (in_reads i) rest (in_wrote i))
  | AcceptsUpTo n :: rest =>
      let n := (n `min` length buf)%nat in
      (Ready n, mkInner (in_reads i) rest (in_wrote i ++ take n buf))
  end.

Record Framed (C : Type) := mkFramed {
  fr_inner : Inner;
  fr_codec : C;
  fr_coded : bytes;
  fr_coded_at : nat;
  fr_plain : bytes;
  fr_plain_at : nat;
  fr_transparent : bool;
  fr_pending : bytes;
  fr_pending_at : nat;
  fr_taken : nat;
  fr_writes : Writes;
}.
Arguments mkFramed {C}.
Arguments fr_inner {C}. Arguments fr_codec {C}. Arguments fr_coded {C}. Arguments fr_coded_at {C}.
Arguments fr_plain {C}. Arguments fr_plain_at {C}. Arguments fr_transparent {C}. Arguments fr_pending {C}.
Arguments fr_pending_at {C}. Arguments fr_taken {C}. Arguments fr_writes {C}.

Section FramedStream.
Context {C : Type} `{Codec C}.
Implicit Types this : Framed C.

Definition Framed_with_prefix (inner : Inner) (codec : C) (prefix : bytes) : Framed C :=
  mkFramed inner codec prefix 0 [] 0 false [] 0 0 (writes codec).

Definition Framed_new (inner : Inner) (codec : C) : Framed C := Framed_with_prefix inner codec [].

(** The reading half replaced. *)
Definition with_reading this inner codec coded coded_at plain plain_at transparent : Framed C :=
  mkFramed inner codec coded coded_at plain plain_at transparent
    (fr_pending this) (fr_pending_at this) (fr_taken this) (fr_writes this).

Definition Framed_drain this (room : nat) : option (bytes * Framed C) :=
  match get_from (fr_plain this) (fr_plain_at this) with
  | Some ((_ :: _) as held) =>
      let moved := (length held `min` room)%nat in
      let plain_at := (fr_plain_at this + moved)%nat in
      let '(plain, plain_at) :=
        if (plain_at =? length (fr_plain this))%nat then ([], 0%nat) else (fr_plain this, plain_at) in
      Some (take moved held,
            with_reading this (fr_inner this) (fr_codec this) (fr_coded this) (fr_coded_at this)
              plain plain_at (fr_transparent this))
  | _ => None
  end.

(** The reading half with another inner stream. *)
Definition with_inner this inner : Framed C :=
  with_reading this inner (fr_codec this) (fr_coded this) (fr_coded_at this) (fr_plain this) (fr_plain_at this)
    (fr_transparent this).

(** The end of a round: a chunk from the inner stream. *)
Definition read_more this : (Poll bytes * Framed C) + Framed C :=
  match inner_poll_read (fr_inner this) FRAMED_CHUNK with
  | (Ready filled, inner) =>
      if (length filled =? 0)%nat then inl (Ready [], with_inner this inner)
      else inr (with_reading this inner (fr_codec this) (fr_coded this ++ filled) (fr_coded_at this)
                  (fr_plain this) (fr_plain_at this) (fr_transparent this))
  | (Failed kind, inner) => inl (Failed kind, with_inner this inner)
  | (Waits, inner) => inl (Waits, with_inner this inner)
  | (Panics, inner) => inl (Panics, with_inner this inner)
  end.

(** One round of the loop of [poll_read]: an answer, or another round. *)
Definition poll_read_round this (room : nat) : (Poll bytes * Framed C) + Framed C :=
  match Framed_drain this room with
  | Some (bs, this) => inl (Ready bs, this)
  | None =>
      if fr_transparent this && (fr_coded_at this =? length (fr_coded this))%nat then
        let '(r, inner) := inner_poll_read (fr_inner this) room in
        inl (r, with_inner this inner)
      else
      if (fr_coded_at this <? length (fr_coded this))%nat then
        let held := drop (fr_coded_at this) (fr_coded this) in
        match decode (fr_codec this) held (fr_plain this) with
        | (Err _, codec, plain) =>
            inl (Failed InvalidData,
                 with_reading this (fr_inner this) codec (fr_coded this) (fr_coded_at this)
                   plain (fr_plain_at this) (fr_transparent this))
        | (Panic, _, _) => inl (Panics, this)
        | (Ok (Transparent rest), codec, plain) =>
            inr (with_reading this (fr_inner this) codec [] 0 (plain ++ rest) (fr_plain_at this) true)
        | (Ok (Framed_ rest), codec, plain) =>
            let consumed := Decode_consumed (Framed_ rest) held in
            let coded_at := (fr_coded_at this + consumed)%nat in
            let '(coded, coded_at) :=
              if (length (fr_coded this) <=? coded_at * 2)%nat then (drop coded_at (fr_coded this), 0%nat)
              else (fr_coded this, coded_at) in
            let this := with_reading this (fr_inner this) codec coded coded_at plain (fr_plain_at this)
                          (fr_transparent this) in
            if (0 <? consumed)%nat || negb (length plain =? 0)%nat then inr this else read_more this
        end
      else read_more this
  end.

(** Reads move bytes of the script into [coded] and rounds consume them, so this many
    rounds are enough. *)
Definition read_fuel_of this : nat :=
  (2 * length (concat ((fun e => match e with Arrives bs => bs | _ => [] end) <$> in_reads (fr_inner this)))
   + (length (fr_coded this) - fr_coded_at this) + 3)%nat.

Fixpoint poll_read_loop (fuel : nat) this (room : nat) : option (Poll bytes * Framed C) :=
  match fuel with
  | O => None
  | S fuel =>
      match poll_read_round this room with
      | inl answer => Some answer
      | inr this => poll_read_loop fuel this room
      end
  end.

Definition Framed_poll_read this (room : nat) : option (Poll bytes * Framed C) :=
  poll_read_loop (read_fuel_of this) this room.

(** The writing half replaced. *)
Definition with_writing this inner codec pending pending_at taken : Framed C :=
  mkFramed inner codec (fr_coded this) (fr_coded_at this) (fr_plain this) (fr_plain_at this)
    (fr_transparent this) pending pending_at taken (fr_writes this).

(** The [while] of [poll_write] over the polls the inner stream answers. *)
Fixpoint write_pending (polls : nat) this : Poll nat * Framed C :=
  if (fr_pending_at this <? length (fr_pending this))%nat then
    match polls with
    | O => (Waits, this)
    | S polls =>
        let '(r, inner) := inner_poll_write (fr_inner this) (drop (fr_pending_at this) (fr_pending this)) in
        let this' pending_at := with_writing this inner (fr_codec this) (fr_pending this) pending_at (fr_taken this) in
        match r with
        | Ready O => (Failed WriteZero, this' (fr_pending_at this))
        | Ready written => write_pending polls (this' (fr_pending_at this + written)%nat)
        | Failed kind => (Failed kind, this' (fr_pending_at this))
        | Waits => (Waits, this' (fr_pending_at this))
        | Panics => (Panics, this)
        end
    end
  else (Ready (fr_taken this), this).

Definition Framed_poll_write this (buf : bytes) : Poll nat * Framed C :=
  if bool_decide (fr_writes this = WritesVerbatim) then
    let '(r, inner) := inner_poll_write (fr_inner this) buf in
    (r, with_writing this inner (fr_codec this) (fr_pending this) (fr_pending_at this) (fr_taken this))
  else
  let go this := write_pending (S (length (in_accepts (fr_inner this)))) this in
  if (fr_pending_at this =? length (fr_pending this))%nat then
    let take_ := match max_payload (fr_codec this) with
                 | Some most => (length buf `min` most)%nat
                 | None => length buf
                 end in
    if (take_ =? 0)%nat then
      (Ready 0%nat, with_writing this (fr_inner this) (fr_codec this) [] 0 (fr_taken this))
    else
      match encode (fr_codec this) (take take_ buf) [] with
      | (Ok _, codec, pending) => go (with_writing this (fr_inner this) codec pending 0 take_)
      | (Panic, _, _) => (Panics, this)
      | (Err _, codec, pending) =>
          (Failed InvalidData, with_writing this (fr_inner this) codec pending 0 (fr_taken this))
      end
  else go this.

End FramedStream.

(** * What the drivers rely on *)

(** A machine never panics and decides the same however its input is split.  [offered m i] says that [i] extends what the
    machine has consumed.  The first call, with no input, is the driver's. *)
Class NegotiationLaws (M Out : Type) `{Negotiation M Out} := {
  offered : M -> bytes -> Prop;
  offered_extends : forall m i more, offered m i -> bytes_ok more -> offered m (i ++ more);
  advance_total : forall m i, offered m i -> (advance m i []).1.1 <> Panic;
  advance_offered : forall m i m' o, offered m i -> advance m i [] = (Ok Incomplete, m', o) -> offered m' i;
  advance_splits : forall m i more m' o, offered m i -> i <> [] -> advance m i [] = (Ok Incomplete, m', o) ->
    advance m (i ++ more) [] = let '(r, m'', o') := advance m' (i ++ more) [] in (r, m'', o ++ o');
  advance_completes : forall m i more v n m' o, offered m i -> advance m i [] = (Ok (Complete v n), m', o) ->
    (n <= length i)%nat /\ advance m (i ++ more) [] = (Ok (Complete v n), m', o);
  advance_refuses : forall m i more e m' o, offered m i -> i <> [] -> advance m i [] = (Err e, m', o) ->
    exists m'' o', advance m (i ++ more) [] = (Err e, m'', o');
}.

(** A machine that decides within [decides_within] bytes. *)
Class NegotiationBound (M Out : Type) `{NegotiationLaws M Out} := {
  decides_within : nat;
  advance_decides : forall m i, offered m i -> (decides_within <= length i)%nat -> (advance m i []).1.1 <> Ok Incomplete;
}.

Lemma await_read_ok s room :
  script_ok s -> (0 < room)%nat -> (forall kind, ReadFails kind ∉ s) ->
  exists chunk s', await_read s room = (Ok chunk, s') /\ script_ok s' /\ arriving s = chunk ++ arriving s' /\
    (chunk = [] -> arriving s = []) /\ (forall kind, ReadFails kind ∉ s').
Proof.
  intros Hs Hr Hnf. induction s as [|e s IH].
  { by eexists [], []. }
  destruct e as [bs| |kind]; [| |by destruct (Hnf kind); left].
  - pose proof (stream_poll_read_ok (Arrives bs :: s) room Hs Hr) as Hp. cbn [await_read].
    destruct (stream_poll_read (Arrives bs :: s) room) as [[chunk|k| |] s']; try done.
    destruct Hp as (? & ? & _ & Heof & Hk). exists chunk, s'. split_and!; try done.
    + intros ->. by rewrite (Heof eq_refl).
    + intros kind ?%Hk. by apply (Hnf kind).
  - apply Forall_cons in Hs as [_ Hs]. apply IH; [done|]. intros kind Hk. apply (Hnf kind). by right.
Qed.

(** ** Negotiations decide the same however their bytes arrive *)

Section NegotiateTheory.
Context {W M Out : Type} `{NegotiationLaws M Out}.

(** The machine decides on the input before the driver's limit. *)
Definition decided_from (m : M) (received whole : bytes) : Prop :=
  forall p, received `prefix_of` p -> p `prefix_of` whole -> (MAX_NEGOTIATION <= length p)%nat ->
    (advance m p []).1.1 <> Ok Incomplete.

Lemma decided_from_step m m' o received chunk whole :
  offered m received -> received <> [] -> advance m received [] = (Ok Incomplete, m', o) ->
  decided_from m received whole -> decided_from m' (received ++ chunk) whole.
Proof.
  intros Hoff Hne Ha Hd p [more ->] Hp Hl. rewrite <- (assoc_L (++)) in *.
  pose proof (Hd _ (prefix_app_r received received _ ltac:(done)) Hp Hl) as Hr.
  rewrite (advance_splits _ _ _ _ _ Hoff Hne Ha) in Hr. by destruct (advance m' _ []) as [[? ?] ?].
Qed.

Lemma decided_from_bound `{!NegotiationBound M Out} m whole :
  offered m [] -> bytes_ok whole -> (decides_within <= MAX_NEGOTIATION)%nat -> decided_from m [] whole.
Proof.
  intros Hoff Hb Hd p _ [more ->] Hl. apply advance_decides; [|lia]. apply Forall_app in Hb as [Hb _]. by apply (offered_extends m []).
Qed.

(** What a machine makes of the whole of its input, [sent] written already. *)
Definition verdict (answer : Res ProxyError (Decoded Out)) (sent' : bytes) (whole : bytes)
    (r : Res (EgressError W) (Out * bytes) * M * Wire) : Prop :=
  match answer with
  | Ok (Complete value consumed) => exists surplus m w,
      r = (Ok (value, surplus), m, w) /\ surplus ++ arriving (w_reads w) = drop consumed whole /\ w_sent w = sent'
  | Err e => exists m w, r = (Err (Proxy e), m, w)
  | Ok Incomplete => exists m w, r = (Err (Io UnexpectedEof), m, w)
  | Panic => False
  end.

Lemma negotiate_loop_verdict fuel : forall m received w,
  offered m received -> received <> [] -> decided_from m received (received ++ arriving (w_reads w)) ->
  script_ok (w_reads w) -> (forall kind, ReadFails kind ∉ w_reads w) -> w_faults w = [] -> bytes_ok (arriving (w_reads w)) ->
  (MAX_NEGOTIATION < fuel + length received)%nat -> (0 < fuel)%nat ->
  let whole := received ++ arriving (w_reads w) in
  let '(answer, _, o) := advance m whole [] in
  verdict answer (w_sent w ++ o) whole (negotiate_loop fuel m received w).
Proof.
  induction fuel as [|fuel IH]; intros m received w Hoff Hne Hdec Hs Hnf Hft Hbytes Hfuel Hpos; [lia|].
  cbn zeta. cbn [negotiate_loop]. pose proof (advance_total m received Hoff) as Htot.
  destruct (advance m received []) as [[[progress|e|] m'] o] eqn:Ea; [| |done].
  2:{ destruct (advance_refuses _ _ (arriving (w_reads w)) _ _ _ Hoff Hne Ea) as (m'' & o' & ->).
      cbn. by eexists _, _. }
  assert (exists w', (if negb (length o =? 0)%nat then wire_write o w else (Ok tt, w)) = (Ok tt, w') /\
    w_reads w' = w_reads w /\ w_faults w' = [] /\ w_sent w' = w_sent w ++ o) as (w' & -> & Hr & Hf & Hsent).
  { destruct o; cbn; [exists w; by rewrite app_nil_r|]. unfold wire_write. rewrite Hft. by eexists. }
  destruct progress as [|value consumed].
  - destruct (MAX_NEGOTIATION <=? length received)%nat eqn:Emax; reflect.
    { exfalso. apply (Hdec received); [done|by apply prefix_app_r|lia|by rewrite Ea]. }
    rewrite Hr. destruct (await_read_ok (w_reads w) NEGOTIATION_CHUNK Hs) as (chunk & reads & -> & Hs' & Harr & Heof & Hnf');
      [unfold NEGOTIATION_CHUNK; lia|done|].
    destruct chunk as [|b chunk].
    { rewrite (Heof eq_refl), app_nil_r, Ea. by eexists _, _. }
    rewrite (advance_splits _ _ (arriving (w_reads w)) _ _ Hoff Hne Ea), Harr.
    pose proof (advance_offered _ _ _ _ Hoff Ea) as Hoff'.
    specialize (IH m' (received ++ b :: chunk) (mkWire reads (w_faults w') (w_sent w'))). cbn zeta in IH.
    cbn [w_reads w_faults w_sent] in IH. rewrite <- (assoc_L (++)) in IH.
    destruct (advance m' _ []) as [[answer m''] o'].
    rewrite Harr in Hbytes. apply Forall_app in Hbytes as [Hchunk Hreads].
    rewrite Hsent in IH at 1. rewrite (assoc_L (++)). apply IH; try done.
    + by apply offered_extends.
    + by destruct received.
    + rewrite Harr in Hdec. exact (decided_from_step _ _ _ _ _ _ Hoff Hne Ea Hdec).
    + rewrite length_app. cbn [length]. lia.
    + lia.
  - destruct (advance_completes _ _ (arriving (w_reads w)) _ _ _ _ Hoff Ea) as [Hn ->].
    rewrite (proj2 (Nat.ltb_ge _ _)) by done. cbn [verdict]. eexists _, _, _. split; [done|]. rewrite Hr, Hsent. split; [|done].
    by rewrite drop_app_le.
Qed.

(** The driver's first call writes the opening message and waits. *)
Definition opens (m m' : M) (opening : bytes) : Prop :=
  advance m [] [] = (Ok Incomplete, m', opening) /\ offered m' [].

(** Over a stream that delivers its bytes in pieces of any sizes, with any pauses
    between them, a negotiation reaches the verdict its machine reaches on the bytes as a
    whole.  A completed one has written the opening and the machine's messages, and
    its surplus with the unread rest is exactly what follows the reply: no byte of the
    application's is lost.  A stream that ends too early is reported as such. *)
Lemma negotiate_splits m m' opening w :
  opens m m' opening -> decided_from m' [] (arriving (w_reads w)) ->
  script_ok (w_reads w) -> (forall kind, ReadFails kind ∉ w_reads w) -> w_faults w = [] -> bytes_ok (arriving (w_reads w)) ->
  let whole := arriving (w_reads w) in
  match whole with
  | [] => exists m'' w', negotiate m w = (Err (Io UnexpectedEof) : Res (EgressError W) _, m'', w')
  | _ => let '(answer, _, o) := advance m' whole [] in
         verdict answer (w_sent w ++ opening ++ o) whole (negotiate m w)
  end.
Proof.
  intros [Ho Hoff] Hdec Hs Hnf Hft Hbytes. cbn zeta. unfold negotiate. cbn [negotiate_loop]. rewrite Ho.
  assert (exists w', (if negb (length opening =? 0)%nat then wire_write opening w else (Ok tt, w)) = (Ok tt, w') /\
    w_reads w' = w_reads w /\ w_faults w' = [] /\ w_sent w' = w_sent w ++ opening) as (w' & -> & Hr & Hf & Hsent).
  { destruct opening; cbn; [exists w; by rewrite app_nil_r|]. unfold wire_write. rewrite Hft. by eexists. }
  replace (MAX_NEGOTIATION <=? length [])%nat with false by done.
  rewrite Hr. destruct (await_read_ok (w_reads w) NEGOTIATION_CHUNK Hs) as (chunk & reads & -> & Hs' & Harr & Heof & Hnf');
    [unfold NEGOTIATION_CHUNK; lia|done|].
  destruct chunk as [|b chunk]; [rewrite (Heof eq_refl); by eexists _, _|].
  rewrite Harr in Hbytes. apply Forall_app in Hbytes as [Hchunk Hreads]. rewrite Harr. change ((b :: chunk) ++ arriving reads) with (b :: chunk ++ arriving reads).
  pose proof (negotiate_loop_verdict MAX_NEGOTIATION m' (b :: chunk) (mkWire reads (w_faults w') (w_sent w ++ opening))) as Hv.
  cbn zeta in Hv. cbn [w_reads w_faults w_sent] in Hv. rewrite Hsent.
  change ((b :: chunk) ++ arriving reads) with (b :: chunk ++ arriving reads) in Hv.
  destruct (advance m' _ []) as [[answer m''] o]. rewrite <- (assoc_L (++)) in Hv. apply Hv; try done.
  - by apply (offered_extends m' [] (b :: chunk)).
  - rewrite Harr in Hdec. intros p _. apply Hdec. apply prefix_nil.
  - cbn [length]. lia.
  - unfold MAX_NEGOTIATION. lia.
Qed.

(** The stream's side of the above: it delivers its bytes and takes the machine's. *)
Definition delivers (w : Wire) : Prop :=
  script_ok (w_reads w) /\ (forall kind, ReadFails kind ∉ w_reads w) /\ w_faults w = [] /\ bytes_ok (arriving (w_reads w)).

Lemma opens_decided `{!NegotiationBound M Out} m m' opening w :
  opens m m' opening -> (decides_within <= MAX_NEGOTIATION)%nat -> delivers w -> decided_from m' [] (arriving (w_reads w)).
Proof. intros [_ Hoff] Hd (_ & _ & _ & Hb). by apply decided_from_bound. Qed.

(** An answer the machine accepts, with anything behind it. *)
Lemma negotiate_completes m m' opening w answer rest v m'' o :
  opens m m' opening -> decided_from m' [] (arriving (w_reads w)) -> delivers w -> answer <> [] ->
  arriving (w_reads w) = answer ++ rest ->
  advance m' (answer ++ rest) [] = (Ok (Complete v (length answer)), m'', o) ->
  exists surplus m3 w', negotiate m w = (Ok (v, surplus) : Res (EgressError W) _, m3, w') /\
    surplus ++ arriving (w_reads w') = rest /\ w_sent w' = w_sent w ++ opening ++ o.
Proof.
  intros Ho Hdec (Hs & Hnf & Hft & Hb) Hne Harr Ha. pose proof (negotiate_splits m m' opening w Ho Hdec Hs Hnf Hft Hb) as Hv.
  cbn zeta in Hv. rewrite Harr in Hv. destruct (answer ++ rest) as [|b bs] eqn:E; [by destruct answer|].
  rewrite Ha in Hv. cbn [verdict] in Hv. destruct Hv as (surplus & m3 & w' & Hn & Hrest & Hsent).
  exists surplus, m3, w'. split_and!; [done| |done]. by rewrite Hrest, <- E, drop_app_length.
Qed.

(** An answer it refuses. *)
Lemma negotiate_refuses m m' opening w e m'' o :
  opens m m' opening -> decided_from m' [] (arriving (w_reads w)) -> delivers w -> arriving (w_reads w) <> [] ->
  advance m' (arriving (w_reads w)) [] = (Err e, m'', o) ->
  exists m3 w', negotiate m w = (Err (Proxy e) : Res (EgressError W) _, m3, w').
Proof.
  intros Ho Hdec (Hs & Hnf & Hft & Hb) Hne Ha. pose proof (negotiate_splits m m' opening w Ho Hdec Hs Hnf Hft Hb) as Hv.
  cbn zeta in Hv. destruct (arriving (w_reads w)) as [|b bs] eqn:E; [done|]. by rewrite Ha in Hv.
Qed.

(** Such an answer cut short. *)
Lemma negotiate_cut_short m m' opening w answer more v m'' o :
  opens m m' opening -> decided_from m' [] (arriving (w_reads w)) -> delivers w -> bytes_ok more -> more <> [] ->
  arriving (w_reads w) ++ more = answer -> advance m' answer [] = (Ok (Complete v (length answer)), m'', o) ->
  exists m3 w', negotiate m w = (Err (Io UnexpectedEof) : Res (EgressError W) _, m3, w').
Proof.
  intros Ho Hdec (Hs & Hnf & Hft & Hb) Hmb Hmore Harr Ha.
  pose proof (negotiate_splits m m' opening w Ho Hdec Hs Hnf Hft Hb) as Hv. cbn zeta in Hv.
  destruct (arriving (w_reads w)) as [|b bs] eqn:E; [exact Hv|]. destruct Ho as [_ Hoff].
  assert (offered m' (b :: bs)) as Hoff' by (by apply (offered_extends m' [])).
  destruct (advance m' (b :: bs) []) as [[[[|v' n]|e|] m4] o4] eqn:Ea; [exact Hv| | |done]; exfalso.
  - destruct (advance_completes _ _ more _ _ _ _ Hoff' Ea) as [Hn Ha']. rewrite Harr, Ha in Ha'.
    injection Ha' as _ Hl _ _. apply (f_equal length) in Harr. rewrite length_app in Harr. destruct more; [done|]. cbn [length] in Harr, Hn. lia.
  - destruct (advance_refuses _ _ more _ _ _ Hoff' ltac:(done) Ea) as (m5 & o5 & Ha'). by rewrite Harr, Ha in Ha'.
Qed.
End NegotiateTheory.
