(* ===== verification/Framed.v ===== *)
(** The framed stream of [src/sansio.rs] delivers what its codec decodes: reads of any
    size from bytes that arrive in any pieces give the plaintext of the whole, and
    writes accepted in any pieces put the frames of the whole on the wire. *)

From S2P Require Import Prelude Wire Net Plan Pool Egress Sansio.
Open Scope Z_scope.

(** What a codec promises its stream: it appends to the output, answers a suffix of its
    input, changes nothing when it needs more, and decides on a frame the same whatever
    follows it. *)
Class CodecLaws (C : Type) `{Codec C} : Prop := {
  decode_total : forall c input out, (decode c input out).1.1 <> Panic;
  decode_appends : forall c input out,
    decode c input out = let '(r, c', o) := decode c input [] in (r, c', out ++ o);
  decode_suffix : forall c input d c' o, decode c input [] = (Ok d, c', o) -> Decode_rest d `suffix_of` input;
  decode_idle : forall c, exists d c', decode c [] [] = (Ok d, c', []);
  decode_stalls : forall c input c' o, decode c input [] = (Ok (Framed_ input), c', o) -> c' = c /\ o = [];
  decode_frame : forall c input rest c' o more, decode c input [] = (Ok (Framed_ rest), c', o) ->
    (length rest < length input)%nat -> decode c (input ++ more) [] = (Ok (Framed_ (rest ++ more)), c', o);
  decode_transparent : forall c input rest c' o more, decode c input [] = (Ok (Transparent rest), c', o) ->
    decode c (input ++ more) [] = (Ok (Transparent (rest ++ more)), c', o);
  decode_error : forall c input e c' o more, decode c input [] = (Err e, c', o) ->
    exists c'' o', decode c (input ++ more) [] = (Err e, c'', o');
}.

(** ** The plaintext of a coded stream *)

Section Plaintext.
Context {C : Type} `{CodecLaws C}.

(** The reference: decode the whole of the bytes, frame by frame, up to an error or to
    what is not a whole frame. *)
Fixpoint unframe (fuel : nat) (c : C) (input : bytes) : bytes * option ProxyError :=
  match fuel with
  | O => ([], None)
  | S fuel =>
      match decode c input [] with
      | (Ok (Framed_ rest), c', o) =>
          if (length rest <? length input)%nat
          then let '(p, e) := unframe fuel c' rest in (o ++ p, e) else (o, None)
      | (Ok (Transparent rest), _, o) => (o ++ rest, None)
      | (Err e, _, _) => ([], Some e)
      | (Panic, _, _) => ([], None)
      end
  end.

Definition plaintext (c : C) (input : bytes) : bytes * option ProxyError := unframe (S (length input)) c input.

Lemma unframe_enough fuel : forall fuel' c input,
  (length input < fuel)%nat -> (length input < fuel')%nat -> unframe fuel c input = unframe fuel' c input.
Proof.
  induction fuel as [|fuel IH]; intros [|fuel'] c input Hf Hf'; try lia. cbn [unframe].
  destruct (decode c input []) as [[[d|e|] c'] o]; [|done|done]. destruct d as [rest|rest]; [|done].
  destruct (length rest <? length input)%nat eqn:E; [|done]. reflect. rewrite (IH fuel' c' rest); [done|lia|lia].
Qed.

Lemma plaintext_frame c input rest c' o more :
  decode c input [] = (Ok (Framed_ rest), c', o) -> (length rest < length input)%nat ->
  plaintext c (input ++ more) = (o ++ (plaintext c' (rest ++ more)).1, (plaintext c' (rest ++ more)).2).
Proof.
  intros Hd Hlt. unfold plaintext at 1. cbn [unframe]. rewrite (decode_frame _ _ _ _ _ more Hd Hlt).
  rewrite (proj2 (Nat.ltb_lt _ _)) by (rewrite !length_app; lia).
  rewrite (unframe_enough (length (input ++ more)) (S (length (rest ++ more)))) by (rewrite !length_app; lia).
  fold (plaintext c' (rest ++ more)). by destruct (plaintext c' (rest ++ more)).
Qed.

Lemma plaintext_transparent c input rest c' o more :
  decode c input [] = (Ok (Transparent rest), c', o) -> plaintext c (input ++ more) = (o ++ rest ++ more, None).
Proof. intros Hd. unfold plaintext. cbn [unframe]. by rewrite (decode_transparent _ _ _ _ _ more Hd). Qed.

Lemma plaintext_error c input e c' o more :
  decode c input [] = (Err e, c', o) -> plaintext c (input ++ more) = ([], Some e).
Proof.
  intros Hd. destruct (decode_error _ _ _ _ _ more Hd) as (c'' & o' & E). unfold plaintext. cbn [unframe]. by rewrite E.
Qed.

Lemma plaintext_stalled c input c' o : decode c input [] = (Ok (Framed_ input), c', o) -> plaintext c input = ([], None).
Proof.
  intros Hd. unfold plaintext. cbn [unframe]. rewrite Hd. rewrite Nat.ltb_irrefl.
  by destruct (decode_stalls _ _ _ _ Hd) as [_ ->].
Qed.

Lemma plaintext_nil c : plaintext c [] = ([], None).
Proof.
  destruct (decode_idle c) as (d & c' & E). pose proof (decode_suffix _ _ _ _ _ E) as [pre Hpre].
  destruct d as [rest|rest]; cbn in Hpre; (destruct rest; [|by destruct pre]); unfold plaintext; cbn [unframe]; by rewrite E.
Qed.

End Plaintext.

(** ** Reading *)

Section Reading.
Context {C : Type} `{CodecLaws C}.
Implicit Types this : Framed C.

Record reading_ok this : Prop := {
  ro_script : script_ok (in_reads (fr_inner this));
  ro_plain : (fr_plain_at this < length (fr_plain this))%nat \/ fr_plain this = [] /\ fr_plain_at this = 0%nat;
  ro_coded : (fr_coded_at this <= length (fr_coded this))%nat;
  ro_transparent : fr_transparent this = true -> fr_coded this = [];
}.

(** What a stream has still to deliver, and the error it will then report. *)
Definition undelivered this : bytes * option ProxyError :=
  let rest := drop (fr_coded_at this) (fr_coded this) ++ arriving (in_reads (fr_inner this)) in
  let '(p, e) := if fr_transparent this then (rest, None) else plaintext (fr_codec this) rest in
  (drop (fr_plain_at this) (fr_plain this) ++ p, e).

(** The polls of the script that only wait. *)
Definition waits (s : Script) : nat := length (filter (fun e => e = ReadPending) s).

Lemma drain_ok this room :
  reading_ok this -> (0 < room)%nat ->
  match Framed_drain this room with
  | Some (bs, this') => reading_ok this' /\ undelivered this = (bs ++ (undelivered this').1, (undelivered this').2) /\
      bs <> [] /\ fr_inner this' = fr_inner this
  | None => fr_plain this = [] /\ fr_plain_at this = 0%nat
  end.
Proof.
  intros [Hs Hp Hc Ht] Hr. unfold Framed_drain, get_from. destruct Hp as [Hp|[-> ->]]; [|done].
  rewrite (proj2 (Nat.leb_le _ _)) by lia. destruct (drop (fr_plain_at this) (fr_plain this)) as [|b held] eqn:Eh.
  { apply (f_equal length) in Eh. rewrite length_drop in Eh. cbn in Eh. lia. }
  assert (length (b :: held) = length (fr_plain this) - fr_plain_at this)%nat as Hlen by (by rewrite <- Eh, length_drop).
  set (moved := (length (b :: held) `min` room)%nat).
  assert (take moved (b :: held) <> []) as Hne by (unfold moved; intros Hn; apply (f_equal length) in Hn; rewrite length_take in Hn; cbn [length] in Hn; lia).
  assert (moved <= length (b :: held))%nat as Hm by (unfold moved; lia). clearbody moved.
  assert (forall plain plain_at, drop plain_at plain = drop moved (b :: held) ->
    undelivered this = (take moved (b :: held) ++
      (undelivered (with_reading this (fr_inner this) (fr_codec this) (fr_coded this) (fr_coded_at this) plain plain_at
                      (fr_transparent this))).1,
      (undelivered (with_reading this (fr_inner this) (fr_codec this) (fr_coded this) (fr_coded_at this) plain plain_at
                      (fr_transparent this))).2)) as Hu.
  { intros plain plain_at Hd. unfold undelivered.
    cbn [with_reading fr_inner fr_codec fr_coded fr_coded_at fr_plain fr_plain_at fr_transparent].
    rewrite Eh, Hd. destruct (if fr_transparent this then _ else _) as [p e]. cbn [fst snd].
    f_equal. by rewrite (assoc_L (++)), take_drop. }
  destruct (_ =? length (fr_plain this))%nat eqn:E; reflect.
  - split_and!; [split; cbn; auto| |done|done]. apply Hu. rewrite drop_nil, drop_ge; [done|]. lia.
  - split_and!; [split; cbn; auto; left; lia| |done|done]. apply Hu. by rewrite <- Eh, drop_drop.
Qed.

(** A round of the loop: an answer moves bytes from what was undelivered; another
    round leaves it as it was and is nearer to the end. *)
Definition read_measure this : nat :=
  (2 * length (concat ((fun e => match e with Arrives bs => bs | _ => [] end) <$> in_reads (fr_inner this)))
   + (length (fr_coded this) - fr_coded_at this) + (if fr_transparent this then 0 else 1)
   + (if (length (fr_plain this) =? 0)%nat then 1 else 0))%nat.

(** A stream fails only where its script says so. *)
Definition no_new_failure this this' : Prop :=
  forall kind, ReadFails kind ∈ in_reads (fr_inner this') -> ReadFails kind ∈ in_reads (fr_inner this).

Definition answer_ok this (r : Poll bytes) this' : Prop :=
  match r with
  | Ready bs => reading_ok this' /\ undelivered this = (bs ++ (undelivered this').1, (undelivered this').2) /\
      (bs = [] -> undelivered this = ([], None)) /\
      waits (in_reads (fr_inner this')) = waits (in_reads (fr_inner this)) /\ no_new_failure this this'
  | Waits => reading_ok this' /\ undelivered this' = undelivered this /\
      S (waits (in_reads (fr_inner this'))) = waits (in_reads (fr_inner this)) /\ no_new_failure this this'
  | Failed kind =>
      (exists e, kind = InvalidData /\ undelivered this = ([], Some e)) \/
      (exists kind, ReadFails kind ∈ in_reads (fr_inner this))
  | Panics => False
  end.

Lemma arrived_bytes s room :
  script_ok s -> (0 < room)%nat ->
  match stream_poll_read s room with
  | (Ready bs, s') =>
      length (concat ((fun e => match e with Arrives bs => bs | _ => [] end) <$> s))
      = (length bs + length (concat ((fun e => match e with Arrives bs => bs | _ => [] end) <$> s')))%nat /\
      waits s' = waits s
  | _ => True
  end.
Proof.
  intros Hs Hr. destruct s as [|[bs| |kind] s]; cbn; [done| |done|done].
  pose proof (take_drop room bs) as Htd. apply (f_equal length) in Htd. rewrite length_app in Htd.
  rewrite length_app. destruct (drop room bs) as [|b rest] eqn:Ed; cbn [fmap list_fmap concat length] in *;
    rewrite ?length_app; cbn [length]; (split; [lia|done]).
Qed.

Definition round_ok this (r : (Poll bytes * Framed C) + Framed C) : Prop :=
  match r with
  | inl (r, this') => answer_ok this r this'
  | inr this' => reading_ok this' /\ undelivered this' = undelivered this /\ (read_measure this' < read_measure this)%nat /\
      waits (in_reads (fr_inner this')) = waits (in_reads (fr_inner this)) /\ no_new_failure this this'
  end.

(** The polls of the inner stream in a round that needs more. *)
Lemma read_more_ok this :
  reading_ok this -> fr_plain this = [] -> fr_transparent this = false ->
  (exists c' o, decode (fr_codec this) (drop (fr_coded_at this) (fr_coded this)) [] =
     (Ok (Framed_ (drop (fr_coded_at this) (fr_coded this))), c', o)) \/ fr_coded_at this = length (fr_coded this) ->
  round_ok this (read_more this).
Proof.
  intros [Hs Hp Hc Ht] Hpl Htr Hstall.
  assert (0 < FRAMED_CHUNK)%nat as Hroom by (unfold FRAMED_CHUNK; lia).
  unfold read_more, inner_poll_read. pose proof (stream_poll_read_ok _ _ Hs Hroom) as Hread.
  pose proof (arrived_bytes _ _ Hs Hroom) as Harr.
  destruct (stream_poll_read (in_reads (fr_inner this)) FRAMED_CHUNK) as [[filled|kind| |] s'] eqn:Er; [| | |done].
  - destruct Hread as (Hs' & Heq & _ & Heof & Hfails). destruct Harr as [Hlen Hw].
    destruct filled as [|b filled]; cbn [length Nat.eqb].
    + pose proof (Heof eq_refl) as Hnil. rewrite Hnil in Er. injection Er as <-.
      assert (undelivered this = ([], None)) as Hu.
      { unfold undelivered. rewrite Htr, Hpl, drop_nil, Hnil. cbn [arriving]. rewrite app_nil_r.
        destruct Hstall as [(c' & o & Hd)|Hend].
        - by rewrite (plaintext_stalled _ _ _ _ Hd).
        - rewrite drop_ge by lia. by rewrite plaintext_nil. }
      assert (undelivered (with_inner this (mkInner [] (in_accepts (fr_inner this)) (in_wrote (fr_inner this)))) = ([], None)) as Hu'.
      { rewrite <- Hu. unfold undelivered. cbn. by rewrite Hnil. }
      cbn [round_ok answer_ok]. rewrite Hu, Hu', Hnil. split_and!; [by split|done|done|done|].
      intros k Hk. by apply not_elem_of_nil in Hk.
    + split_and!; [split; cbn; auto; [rewrite length_app; lia|by rewrite Htr]| | |done|done].
      * unfold undelivered. cbn [with_reading fr_inner fr_codec fr_coded fr_coded_at fr_plain fr_plain_at fr_transparent in_reads].
        by rewrite drop_app_le, <- (assoc_L (++)), <- Heq by done.
      * unfold read_measure. cbn [with_reading fr_inner fr_codec fr_coded fr_coded_at fr_plain fr_plain_at fr_transparent in_reads].
        rewrite Hlen, length_app. cbn [length]. lia.
  - cbn. right. exists kind. rewrite Hread. by left.
  - cbn. rewrite Hread in *. split_and!; [split; cbn; auto; by apply Forall_cons in Hs as [_ ?]|..].
    + unfold undelivered. cbn. by rewrite Hread.
    + unfold waits. by rewrite filter_cons_True.
    + intros k Hk. rewrite Hread. by right.
Qed.

(** Transparent mode hands over the inner stream's own answer. *)
Lemma transparent_read_ok this room :
  reading_ok this -> (0 < room)%nat -> fr_plain this = [] -> fr_transparent this = true ->
  round_ok this (let '(r, inner) := inner_poll_read (fr_inner this) room in inl (r, with_inner this inner)).
Proof.
  intros [Hs Hp Hc Ht] Hr Hpl Htr. unfold inner_poll_read. pose proof (stream_poll_read_ok _ _ Hs Hr) as Hread.
  pose proof (arrived_bytes _ _ Hs Hr) as Harr.
  assert (forall s', undelivered (with_inner this (mkInner s' (in_accepts (fr_inner this)) (in_wrote (fr_inner this))))
    = (arriving s', None)) as Hu.
  { intros s'. unfold undelivered. cbn. by rewrite Htr, (Ht Htr), Hpl, !drop_nil. }
  assert (undelivered this = (arriving (in_reads (fr_inner this)), None)) as Hu0.
  { unfold undelivered. by rewrite Htr, (Ht Htr), Hpl, !drop_nil. }
  destruct (stream_poll_read (in_reads (fr_inner this)) room) as [[bs|kind| |] s'] eqn:Er; [| | |done]; cbn [round_ok answer_ok].
  - destruct Hread as (Hs' & Heq & _ & Heof & Hf). destruct Harr as [_ Hw]. rewrite Hu, Hu0, Heq.
    split_and!; [by split|done| |done|exact Hf]. intros ->. specialize (Heof eq_refl). rewrite Heof in *. by injection Er as <-.
  - right. exists kind. rewrite Hread. by left.
  - rewrite Hu, Hu0, Hread in *. apply Forall_cons in Hs as [_ Hs]. split_and!; [by split|done|..].
    + unfold waits. cbn [with_inner with_reading fr_inner in_reads]. by rewrite filter_cons_True.
    + intros k Hk. rewrite Hread. by right.
Qed.

(** A decoded frame, or a codec gone transparent. *)
Lemma decoded_round_ok this codec coded coded_at plain transparent :
  reading_ok this -> fr_plain this = [] -> fr_plain_at this = 0%nat ->
  let this' := with_reading this (fr_inner this) codec coded coded_at plain (fr_plain_at this) transparent in
  (coded_at <= length coded)%nat -> (transparent = true -> coded = []) -> undelivered this' = undelivered this ->
  (read_measure this' < read_measure this)%nat -> round_ok this (inr this').
Proof.
  intros [Hs Hp Hc Ht] Hpl Hat this' Hc' Ht' Hu Hm. split_and!; try done; [|by intros k]. split; cbn; auto.
  rewrite Hat. destruct plain; [by right|left; cbn; lia].
Qed.

Lemma round_ok_moved this this' r :
  round_ok this' r -> fr_inner this' = fr_inner this -> undelivered this' = undelivered this ->
  (read_measure this' <= read_measure this)%nat -> round_ok this r.
Proof.
  intros Hr Hi Hu Hm. destruct r as [[[bs|kind| |] t]|t]; cbn in *; unfold no_new_failure in *; rewrite ?Hi, ?Hu in *; try done.
  destruct Hr as (? & ? & ? & ? & ?). split_and!; (done || lia).
Qed.

Lemma poll_read_round_ok this room : reading_ok this -> (0 < room)%nat -> round_ok this (poll_read_round this room).
Proof.
  intros Hok Hr. unfold poll_read_round. pose proof (drain_ok this room Hok Hr) as Hd.
  destruct (Framed_drain this room) as [[bs this']|].
  { destruct Hd as (? & ? & ? & Hi). cbn. unfold no_new_failure. rewrite Hi. by split_and!. }
  destruct Hd as [Hpl Hat]. destruct (fr_transparent this) eqn:Htr; cbn [andb].
  { rewrite (ro_transparent _ Hok Htr). assert (fr_coded_at this = 0)%nat as ->.
    { pose proof (ro_coded _ Hok) as Hc. rewrite (ro_transparent _ Hok Htr) in Hc. cbn in Hc. lia. }
    by apply transparent_read_ok. }
  destruct (fr_coded_at this <? length (fr_coded this))%nat eqn:Ec; reflect.
  2:{ pose proof (ro_coded _ Hok). apply read_more_ok; try done. right. lia. }
  set (held := drop (fr_coded_at this) (fr_coded this)).
  assert (length held = length (fr_coded this) - fr_coded_at this)%nat as Hheld by (unfold held; by rewrite length_drop).
  pose proof (decode_total (fr_codec this) held (fr_plain this)) as Htot. rewrite Hpl in *.
  assert (undelivered this = plaintext (fr_codec this) (held ++ arriving (in_reads (fr_inner this)))) as Hu.
  { unfold undelivered. rewrite Htr, Hpl, drop_nil. by destruct (plaintext _ _). }
  destruct (decode (fr_codec this) held []) as [[[d|e|] codec] plain] eqn:Ed; [| |done].
  2:{ cbn. left. exists e. by rewrite Hu, (plaintext_error _ _ _ _ _ _ Ed). }
  destruct (decode_suffix _ _ _ _ _ Ed) as [pre Hpre].
  assert (length held = length pre + length (Decode_rest d))%nat as Hlen by (by rewrite Hpre, length_app at 1).
  destruct d as [rest|rest]; cbn [Decode_rest] in *.
  - replace (Decode_consumed (Framed_ rest) held) with (length pre) by (unfold Decode_consumed; cbn [Decode_rest]; lia).
    set (at' := (fr_coded_at this + length pre)%nat).
    assert (drop at' (fr_coded this) = rest) as Hrest.
    { unfold at'. rewrite <- drop_drop. fold held. by rewrite Hpre, drop_app_length. }
    assert (exists coded coded_at, (if (length (fr_coded this) <=? at' * 2)%nat then (drop at' (fr_coded this), 0%nat)
      else (fr_coded this, at')) = (coded, coded_at) /\ drop coded_at coded = rest /\ (coded_at <= length coded)%nat /\
      (length coded - coded_at = length rest)%nat) as (coded & coded_at & -> & Hdrop & Hle & Hmin).
    { case_match; eexists _, _; (split; [done|]); rewrite <- Hrest, ?drop_0, ?length_drop; split_and!; first [done|unfold at'; lia]. }
    assert (forall t, undelivered (with_reading this (fr_inner this) t coded coded_at plain (fr_plain_at this) false)
      = (plain ++ (plaintext t (rest ++ arriving (in_reads (fr_inner this)))).1,
         (plaintext t (rest ++ arriving (in_reads (fr_inner this)))).2)) as Hu'.
    { intros t. unfold undelivered. cbn [with_reading fr_inner fr_codec fr_coded fr_coded_at fr_plain fr_plain_at fr_transparent].
      rewrite Hat, Hdrop, drop_0. by destruct (plaintext t _). }
    assert (read_measure (with_reading this (fr_inner this) codec coded coded_at plain (fr_plain_at this) false)
      + length pre <= read_measure this)%nat as Hm.
    { unfold read_measure. cbn [with_reading fr_inner fr_coded fr_coded_at fr_plain fr_transparent].
      rewrite Htr, Hpl, Hmin. cbn [length Nat.eqb]. case_match; lia. }
    destruct pre as [|b pre]; cbn [length Nat.ltb Nat.leb orb] in *.
    + cbn in Hpre. rewrite <- Hpre in *. clear Hpre. destruct (decode_stalls _ _ _ _ Ed) as [-> ->]. cbn [length Nat.eqb negb].
      eapply round_ok_moved; [apply read_more_ok|done| |lia]; try done.
      * destruct Hok. by split; cbn; auto.
      * cbn. left. rewrite Hdrop. by eexists _, _.
      * rewrite Hu', Hu. by destruct (plaintext _ _).
    + apply decoded_round_ok; [done|done|done|done|done| |].
      * rewrite Hu', Hu, (plaintext_frame _ _ _ _ _ _ Ed); [done|]. lia.
      * lia.
  - apply decoded_round_ok; [done|done|done|done|done| |].
    + rewrite Hu, (plaintext_transparent _ _ _ _ _ _ Ed). unfold undelivered. cbn. rewrite Hat. cbn. by rewrite (assoc_L (++)).
    + unfold read_measure. cbn [with_reading fr_inner fr_coded fr_coded_at fr_plain fr_transparent].
      rewrite Htr, Hpl. cbn [length Nat.eqb]. case_match; lia.
Qed.
End Reading.

Section ReadingRuns.
Context {C : Type} `{CodecLaws C}.
Implicit Types this : Framed C.

Lemma poll_read_loop_ok fuel : forall this room,
  reading_ok this -> (0 < room)%nat -> (read_measure this < fuel)%nat ->
  exists r this', poll_read_loop fuel this room = Some (r, this') /\ answer_ok this r this'.
Proof.
  induction fuel as [|fuel IH]; intros this room Hok Hr Hm; [lia|]. cbn [poll_read_loop].
  pose proof (poll_read_round_ok this room Hok Hr) as Hround.
  destruct (poll_read_round this room) as [[r this']|this']; [by eexists _, _|].
  destruct Hround as (Hok' & Hu & Hlt & Hw & Hf). destruct (IH this' room Hok' Hr ltac:(lia)) as (r & t & -> & Ha).
  eexists r, t. split; [done|].
  assert (no_new_failure this' t -> no_new_failure this t) as Hff by (intros Hf' k Hk; by apply Hf, Hf').
  destruct r as [bs|kind| |]; cbn in *; rewrite <- ?Hu, <- ?Hw; [naive_solver| |naive_solver|done].
  destruct Ha as [|[k Hk]]; [by left|]. right. exists k. by apply Hf.
Qed.

(** A poll always answers: [read_fuel_of] rounds are enough. *)
Lemma poll_read_ok this room :
  reading_ok this -> (0 < room)%nat ->
  exists r this', Framed_poll_read this room = Some (r, this') /\ answer_ok this r this'.
Proof.
  intros Hok Hr. apply poll_read_loop_ok; [done|done|]. unfold read_measure, read_fuel_of. repeat case_match; lia.
Qed.

(** A reader that polls with the given rooms until the end: what it read, and whether
    it met the end or an error. *)
Inductive Ended := More | End_ | Broken (kind : ErrorKind).

Fixpoint read_all (rooms : list nat) this : option (bytes * Ended * Framed C) :=
  match rooms with
  | [] => Some ([], More, this)
  | room :: rooms =>
      '(r, this) ← Framed_poll_read this room;
      match r with
      | Ready [] => Some ([], End_, this)
      | Ready bs => '(more, ended, this) ← read_all rooms this; Some (bs ++ more, ended, this)
      | Waits => read_all rooms this
      | Failed kind => Some ([], Broken kind, this)
      | Panics => None
      end
  end.

Lemma read_all_ok rooms : forall this,
  reading_ok this -> Forall (fun room => 0 < room)%nat rooms -> (forall kind, ReadFails kind ∉ in_reads (fr_inner this)) ->
  exists got ended this', read_all rooms this = Some (got, ended, this') /\
  match ended with
  | More => undelivered this = (got ++ (undelivered this').1, (undelivered this').2) /\
      (length rooms <= length got + waits (in_reads (fr_inner this)))%nat
  | End_ => undelivered this = (got, None)
  | Broken kind => kind = InvalidData /\ exists e, undelivered this = (got, Some e)
  end.
Proof.
  induction rooms as [|room rooms IH]; intros this Hok Hrooms Hnf; cbn [read_all].
  { eexists [], More, this. split; [done|]. split; [by destruct (undelivered this)|cbn; lia]. }
  apply Forall_cons in Hrooms as [Hr Hrooms]. destruct (poll_read_ok this room Hok Hr) as (r & t & -> & Ha). cbn.
  destruct r as [bs|kind| |]; cbn in Ha; [| | |done].
  - destruct Ha as (Hok' & Hu & Heof & Hw & Hf). destruct bs as [|b bs].
    { eexists [], End_, t. split; [done|]. by apply Heof. }
    destruct (IH t Hok' Hrooms) as (got & ended & t' & -> & Hg); [intros k Hk; by apply (Hnf k), Hf|].
    eexists _, ended, t'. split; [done|]. rewrite Hu. destruct ended.
    + destruct Hg as [-> Hl]. cbn [fst snd]. rewrite (assoc_L (++)). split; [done|]. rewrite length_app, <- Hw. cbn. lia.
    + by rewrite Hg.
    + destruct Hg as (-> & e & ->). split; [done|]. by eexists.
  - destruct Ha as [(e & -> & Hu)|[k Hk]]; [|by destruct (Hnf k)]. eexists [], _, t. split; [done|]. split; [done|]. by exists e.
  - destruct Ha as (Hok' & Hu & Hw & Hf).
    destruct (IH t Hok' Hrooms) as (got & ended & t' & -> & Hg); [intros k Hk; by apply (Hnf k), Hf|].
    eexists got, ended, t'. split; [done|]. rewrite <- Hu, <- Hw. destruct ended; [|done|done].
    destruct Hg as [? ?]. split; [done|]. cbn. lia.
Qed.

Lemma fresh_reading inner codec prefix :
  script_ok (in_reads inner) ->
  reading_ok (Framed_with_prefix inner codec prefix) /\
  undelivered (Framed_with_prefix inner codec prefix) = plaintext codec (prefix ++ arriving (in_reads inner)).
Proof.
  intros Hs. split; [split; cbn; auto; lia|]. unfold undelivered, Framed_with_prefix.
  cbn [fr_inner fr_codec fr_coded fr_coded_at fr_plain fr_plain_at fr_transparent].
  rewrite !drop_0. by destruct (plaintext codec _).
Qed.

(** Whatever pieces the coded bytes arrive in, and whatever the sizes and timing of
    the reads, a framed stream delivers exactly the plaintext its codec decodes from the
    bytes as a whole, in order: what a reader has got so far is a prefix of it, a reader
    that met the end has all of it, and one that met an error has all that precedes
    the bad frame.  Every poll returns, and each poll that finds the stream not waiting
    makes progress, so a reader that keeps polling gets there. *)
Lemma framed_reads inner codec prefix rooms :
  script_ok (in_reads inner) -> (forall kind, ReadFails kind ∉ in_reads inner) -> Forall (fun room => 0 < room)%nat rooms ->
  let '(whole, error) := plaintext codec (prefix ++ arriving (in_reads inner)) in
  exists got ended this', read_all rooms (Framed_with_prefix inner codec prefix) = Some (got, ended, this') /\
  match ended with
  | More => got `prefix_of` whole /\ (length rooms <= length whole + waits (in_reads inner))%nat
  | End_ => got = whole /\ error = None
  | Broken kind => kind = InvalidData /\ got = whole /\ error <> None
  end.
Proof.
  intros Hs Hnf Hrooms. destruct (fresh_reading inner codec prefix Hs) as [Hok Hu].
  destruct (read_all_ok rooms _ Hok Hrooms Hnf) as (got & ended & this' & Hr & Hg). rewrite Hu in Hg.
  destruct (plaintext codec _) as [whole error]. exists got, ended, this'. split; [done|]. destruct ended.
  - destruct Hg as [[= -> _] Hl]. split; [by eexists|]. rewrite length_app. cbn in Hl. lia.
  - by injection Hg.
  - destruct Hg as (-> & e & [= -> ->]). done.
Qed.
End ReadingRuns.

(** ** Writing *)

(** A codec that frames what it writes takes at least a byte a frame. *)
Class FramesLaws (C : Type) `{Codec C} : Prop := {
  encode_total : forall c payload, (encode c payload []).1.1 <> Panic;
  max_payload_positive : forall c, max_payload c <> Some 0%nat;
}.

Section Writing.
Context {C : Type} `{FramesLaws C}.
Implicit Types this : Framed C.

(** How much of [payload] the next frame carries. *)
Definition frame_len (c : C) (payload : bytes) : nat :=
  match max_payload c with Some most => (length payload `min` most)%nat | None => length payload end.

(** The reference: the payload cut into the largest frames, encoded in order, up to
    an error. *)
Fixpoint frames_loop (fuel : nat) (c : C) (payload : bytes) : bytes * option ProxyError :=
  match fuel, payload with
  | O, _ | _, [] => ([], None)
  | S fuel, _ =>
      let n := frame_len c payload in
      match encode c (take n payload) [] with
      | (Ok _, c, o) => let '(more, e) := frames_loop fuel c (drop n payload) in (o ++ more, e)
      | (Err e, _, _) => ([], Some e)
      | (Panic, _, _) => ([], None)
      end
  end.

Definition frames (c : C) (payload : bytes) : bytes * option ProxyError := frames_loop (length payload) c payload.

Lemma frame_len_ok c payload : payload <> [] -> (0 < frame_len c payload <= length payload)%nat.
Proof.
  intros Hp. unfold frame_len. pose proof (max_payload_positive c). destruct payload; [done|].
  destruct (max_payload c) as [[|most]|]; cbn [length]; (done || lia).
Qed.

Lemma frames_enough fuel : forall fuel' c payload,
  (length payload <= fuel)%nat -> (length payload <= fuel')%nat -> frames_loop fuel c payload = frames_loop fuel' c payload.
Proof.
  induction fuel as [|fuel IH]; intros [|fuel'] c [|b payload] Hf Hf'; try done; cbn in Hf, Hf'; try lia.
  cbn [frames_loop]. pose proof (frame_len_ok c (b :: payload) ltac:(done)) as Hn.
  destruct (encode c _ []) as [[[u|e|] c'] o]; [|done|done].
  rewrite (IH fuel'); [done|rewrite length_drop; cbn [length] in *; lia..].
Qed.

Lemma frames_step c payload c' o u :
  payload <> [] -> encode c (take (frame_len c payload) payload) [] = (Ok u, c', o) ->
  frames c payload = (o ++ (frames c' (drop (frame_len c payload) payload)).1,
                      (frames c' (drop (frame_len c payload) payload)).2).
Proof.
  intros Hp He. unfold frames at 1. destruct payload as [|b payload]; [done|]. cbn [length frames_loop].
  rewrite He. rewrite (frames_enough (length payload) (length (drop (frame_len c (b :: payload)) (b :: payload)))).
  - fold (frames c' (drop (frame_len c (b :: payload)) (b :: payload))). by destruct (frames c' _).
  - pose proof (frame_len_ok c (b :: payload) ltac:(done)). rewrite length_drop. cbn [length]. lia.
  - done.
Qed.

(** The bytes a stream has yet to put on the wire for the unwritten [buf]. *)
Definition unsent this (buf : bytes) : bytes * option ProxyError :=
  if (fr_pending_at this <? length (fr_pending this))%nat then
    let '(more, e) := frames (fr_codec this) (drop (fr_taken this) buf) in
    (drop (fr_pending_at this) (fr_pending this) ++ more, e)
  else frames (fr_codec this) buf.

Record writing_ok this (buf : bytes) : Prop := {
  wo_framed : fr_writes this = WritesFramed;
  wo_pending : (fr_pending_at this <= length (fr_pending this))%nat;
  wo_taken : (fr_pending_at this < length (fr_pending this))%nat -> (0 < fr_taken this <= length buf)%nat;
  wo_accepts : Forall (fun e => e <> AcceptsUpTo 0 /\ forall kind, e <> WriteFails kind) (in_accepts (fr_inner this));
}.

(** [wrote] only grows by what was unsent. *)
Definition write_ok this (buf : bytes) (r : Poll nat) this' : Prop :=
  let wire t b := (in_wrote (fr_inner t) ++ (unsent t b).1, (unsent t b).2) in
  match r with
  | Ready n => (0 < n <= length buf)%nat /\ writing_ok this' (drop n buf) /\ wire this' (drop n buf) = wire this buf /\
      fr_pending_at this' = length (fr_pending this')
  | Waits => writing_ok this' buf /\ wire this' buf = wire this buf
  | Failed kind => kind = InvalidData /\ unsent this buf = ([], (unsent this buf).2) /\ (unsent this buf).2 <> None /\
      in_wrote (fr_inner this') = in_wrote (fr_inner this)
  | Panics => False
  end.

(** The wire once the frame in hand and the frames after it are written. *)
Definition after_frame this (buf : bytes) : bytes :=
  in_wrote (fr_inner this) ++ drop (fr_pending_at this) (fr_pending this) ++ (frames (fr_codec this) (drop (fr_taken this) buf)).1.

Lemma write_pending_ok polls : forall this buf,
  writing_ok this buf -> (length (in_accepts (fr_inner this)) < polls)%nat -> (0 < fr_taken this <= length buf)%nat ->
  match write_pending polls this with
  | (Ready n, t) => n = fr_taken this /\ writing_ok t (drop n buf) /\ fr_codec t = fr_codec this /\
      fr_pending_at t = length (fr_pending t) /\ in_wrote (fr_inner t) ++ (frames (fr_codec t) (drop n buf)).1 = after_frame this buf
  | (Waits, t) => writing_ok t buf /\ fr_codec t = fr_codec this /\ fr_taken t = fr_taken this /\
      (fr_pending_at t < length (fr_pending t))%nat /\ after_frame t buf = after_frame this buf
  | _ => False
  end.
Proof.
  induction polls as [|polls IH]; intros this buf [Hw Hp Ht Ha] Hpolls Htaken; [lia|]. cbn [write_pending].
  destruct (fr_pending_at this <? length (fr_pending this))%nat eqn:E; reflect.
  2:{ split_and!; [done|split; try done; lia|done|lia|]. unfold after_frame. rewrite (drop_ge (fr_pending this)) by lia. done. }
  unfold inner_poll_write. destruct (in_accepts (fr_inner this)) as [|e accepts] eqn:Eacc.
  { by split_and!; [split; cbn; rewrite ?Eacc; try done|..]. }
  apply Forall_cons in Ha as [[He He'] Ha]. destruct e as [n| |kind]; [|by split_and!|by destruct (He' kind)].
  set (rest := drop (fr_pending_at this) (fr_pending this)).
  assert (length rest = length (fr_pending this) - fr_pending_at this)%nat as Hrest by (unfold rest; by rewrite length_drop).
  destruct (n `min` length rest)%nat as [|k] eqn:Ek; [destruct n; [done|lia]|]. set (m := S k) in *.
  match goal with |- context [write_pending polls ?t] => set (this' := t) end.
  assert (after_frame this' buf = after_frame this buf) as Haf.
  { unfold after_frame, this'. cbn [with_writing fr_inner fr_codec fr_pending fr_pending_at fr_taken in_wrote].
    rewrite <- drop_drop. fold rest. rewrite <- (assoc_L (++)). f_equal. by rewrite (assoc_L (++)), take_drop. }
  specialize (IH this' buf). rewrite Haf in IH. apply IH; [split; cbn; try done; lia| |done].
  unfold this'. cbn [with_writing fr_inner in_accepts]. cbn [length] in Hpolls. lia.
Qed.

(** What the writing loop did, seen from before the frame was begun. *)
Lemma frame_written this this' buf r t :
  (0 < fr_taken this' <= length buf)%nat ->
  match r with
  | Ready n => n = fr_taken this' /\ writing_ok t (drop n buf) /\ fr_codec t = fr_codec this' /\
      fr_pending_at t = length (fr_pending t) /\
      in_wrote (fr_inner t) ++ (frames (fr_codec t) (drop n buf)).1 = in_wrote (fr_inner this) ++ (unsent this buf).1
  | Waits => writing_ok t buf /\ fr_codec t = fr_codec this' /\ fr_taken t = fr_taken this' /\
      (fr_pending_at t < length (fr_pending t))%nat /\ after_frame t buf = in_wrote (fr_inner this) ++ (unsent this buf).1
  | _ => False
  end ->
  (unsent this buf).2 = (frames (fr_codec this') (drop (fr_taken this') buf)).2 ->
  write_ok this buf r t.
Proof.
  intros Hn Hr He. destruct r as [n|kind| |]; [|done| |done]; cbn.
  - destruct Hr as (-> & Hok & Hc & Hat & Hw). split_and!; try done; [lia..|].
    unfold unsent at 1 2. rewrite Hat, Nat.ltb_irrefl, Hw, He, Hc. done.
  - destruct Hr as (Hok & Hc & Ht & Hat & Hw). split; [done|].
    unfold unsent at 1 2. rewrite (proj2 (Nat.ltb_lt _ _)) by done. unfold after_frame in Hw.
    rewrite He, <- Hw, Hc, Ht. by destruct (frames (fr_codec this') _).
Qed.

Lemma poll_write_ok this buf :
  writing_ok this buf -> buf <> [] -> write_ok this buf (Framed_poll_write this buf).1 (Framed_poll_write this buf).2.
Proof.
  intros Hok Hbuf. pose proof Hok as [Hw Hp Ht Ha]. unfold Framed_poll_write.
  rewrite bool_decide_false by (by rewrite Hw).
  destruct (_ =? _)%nat eqn:E; reflect.
  - fold (frame_len (fr_codec this) buf). pose proof (frame_len_ok (fr_codec this) buf Hbuf) as Hn.
    rewrite (proj2 (Nat.eqb_neq _ _)) by lia. pose proof (encode_total (fr_codec this) (take (frame_len (fr_codec this) buf) buf)) as Htot.
    assert (unsent this buf = frames (fr_codec this) buf) as Hu by (unfold unsent; by rewrite E, Nat.ltb_irrefl).
    destruct (encode _ _ []) as [[[u|e|] codec] pending] eqn:Ee; [| |done].
    + match goal with |- context [write_pending _ ?t] => set (this' := t) end.
      pose proof (write_pending_ok (S (length (in_accepts (fr_inner this')))) this' buf) as Hwp.
      destruct (write_pending _ this') as [r t]. cbn [fst snd].
      assert (writing_ok this' buf) as Hok' by (split; cbn; try done; lia). specialize (Hwp Hok' ltac:(lia) Hn).
      assert (after_frame this' buf = in_wrote (fr_inner this) ++ (unsent this buf).1) as Haf.
      { rewrite Hu, (frames_step _ _ _ _ _ Hbuf Ee). done. }
      rewrite Haf in Hwp. apply (frame_written this this'); [exact Hn|exact Hwp|]. by rewrite Hu, (frames_step _ _ _ _ _ Hbuf Ee).
    + cbn. rewrite Hu. destruct buf as [|b buf]; [done|]. unfold frames. cbn [length frames_loop]. by rewrite Ee.
  - pose proof (Ht ltac:(lia)) as Htk. pose proof (write_pending_ok (S (length (in_accepts (fr_inner this)))) this buf Hok ltac:(lia) Htk) as Hwp.
    destruct (write_pending _ this) as [r t]. cbn [fst snd].
    assert (unsent this buf = (drop (fr_pending_at this) (fr_pending this) ++ (frames (fr_codec this) (drop (fr_taken this) buf)).1,
      (frames (fr_codec this) (drop (fr_taken this) buf)).2)) as Hu.
    { unfold unsent. rewrite (proj2 (Nat.ltb_lt _ _)) by lia. by destruct (frames (fr_codec this) _). }
    assert (after_frame this buf = in_wrote (fr_inner this) ++ (unsent this buf).1) as Haf by (by rewrite Hu).
    rewrite Haf in Hwp. apply (frame_written this this); [exact Htk|exact Hwp|]. by rewrite Hu.
Qed.

(** Writing a buffer whole, as [write_all] does: polled again after a wait, and from
    where the stream took it after an answer. *)
Fixpoint write_all (polls : nat) this (buf : bytes) : Poll unit * Framed C :=
  match buf, polls with
  | [], _ => (Ready tt, this)
  | _, O => (Waits, this)
  | _, S polls =>
      match Framed_poll_write this buf with
      | (Ready O, this) => (Failed WriteZero, this)
      | (Ready n, this) => write_all polls this (drop n buf)
      | (Waits, this) => write_all polls this buf
      | (Failed kind, this) => (Failed kind, this)
      | (Panics, this) => (Panics, this)
      end
  end.

Lemma write_all_ok polls : forall this buf,
  writing_ok this buf ->
  match write_all polls this buf with
  | (Ready _, this') => (unsent this buf).2 = None /\ in_wrote (fr_inner this') = in_wrote (fr_inner this) ++ (unsent this buf).1
  | (Waits, this') => in_wrote (fr_inner this') `prefix_of` in_wrote (fr_inner this) ++ (unsent this buf).1
  | (Failed kind, this') => kind = InvalidData /\ (unsent this buf).2 <> None /\
      in_wrote (fr_inner this') = in_wrote (fr_inner this) ++ (unsent this buf).1
  | (Panics, _) => False
  end.
Proof.
  assert (forall this, writing_ok this [] -> unsent this [] = ([], None)) as Hnil.
  { intros this [? ? Ht ?]. unfold unsent. destruct (_ <? _)%nat eqn:E; [|done]. reflect. specialize (Ht E). cbn in Ht. lia. }
  induction polls as [|polls IH]; intros this buf Hok.
  { destruct buf as [|b buf]; cbn; [rewrite (Hnil this Hok), app_nil_r; done|]. by apply prefix_app_r. }
  destruct buf as [|b buf]; [cbn; rewrite (Hnil this Hok), app_nil_r; done|]. cbn [write_all].
  set (whole := b :: buf) in *. pose proof (poll_write_ok this whole Hok ltac:(done)) as Hw.
  destruct (Framed_poll_write this whole) as [[n|kind| |] t]; cbn [fst snd write_ok] in Hw; [| | |done].
  - destruct Hw as (Hn & Hok' & [= Hwire He] & _). destruct n as [|n]; [lia|]. specialize (IH t (drop (S n) whole) Hok').
    rewrite <- Hwire, <- He. exact IH.
  - destruct Hw as (-> & Hu & He & ->). rewrite Hu. cbn [fst]. by rewrite app_nil_r.
  - destruct Hw as (Hok' & [= Hwire He]). rewrite <- Hwire, <- He. by apply IH.
Qed.

(** Whatever pieces the connection accepts its bytes in, and wherever it makes the
    writer wait, what a framed stream puts on the wire for a buffer is the buffer cut
    into the largest frames the codec allows and encoded in order: a prefix of that
    while the writer waits, and exactly that when it is done. *)
Lemma framed_writes inner codec buf polls :
  writes codec = WritesFramed ->
  Forall (fun e => e <> AcceptsUpTo 0 /\ forall kind, e <> WriteFails kind) (in_accepts inner) ->
  let '(wire, error) := frames codec buf in
  match write_all polls (Framed_new inner codec) buf with
  | (Ready _, this) => error = None /\ in_wrote (fr_inner this) = in_wrote inner ++ wire
  | (Waits, this) => in_wrote (fr_inner this) `prefix_of` in_wrote inner ++ wire
  | (Failed kind, this) => kind = InvalidData /\ error <> None /\ in_wrote (fr_inner this) = in_wrote inner ++ wire
  | (Panics, _) => False
  end.
Proof.
  intros Hw Ha. pose proof (write_all_ok polls (Framed_new inner codec) buf) as H1.
  change (unsent (Framed_new inner codec) buf) with (frames codec buf) in H1.
  destruct (frames codec buf) as [wire error]. apply H1. split; cbn; try done; lia.
Qed.
End Writing.

(** ** Both ends *)

(** A reader that decodes what a writer encodes, frame by frame. *)
Class CodecPair (E D : Type) `{Codec E, Codec D} := {
  peers : E -> D -> Prop;
  peers_frame : forall e d payload u e' o, peers e d -> payload <> [] ->
    (length payload <= default (length payload) (max_payload e))%nat ->
    encode e payload [] = (Ok u, e', o) ->
    exists d', peers e' d' /\ forall more, plaintext d (o ++ more) = (payload ++ (plaintext d' more).1, (plaintext d' more).2);
}.

Section Ends.
Context {E D : Type} `{Codec E, Codec D, !FramesLaws E, !CodecLaws D, !CodecPair E D}.

Lemma frames_plaintext fuel : forall e d payload,
  peers e d -> (length payload <= fuel)%nat -> (frames_loop fuel e payload).2 = None ->
  plaintext d (frames_loop fuel e payload).1 = (payload, None).
Proof.
  induction fuel as [|fuel IH]; intros e d payload Hpeers Hf Hnone.
  { destruct payload; [|cbn in Hf; lia]. apply plaintext_nil. }
  destruct payload as [|b payload]; [apply plaintext_nil|]. cbn [frames_loop] in *.
  pose proof (frame_len_ok e (b :: payload) ltac:(done)) as Hn. set (n := frame_len e (b :: payload)) in *.
  destruct (encode e (take n (b :: payload)) []) as [[[u|err|] e'] o] eqn:Ee; [|done|].
  2:{ pose proof (encode_total e (take n (b :: payload))) as Ht. by rewrite Ee in Ht. }
  assert (take n (b :: payload) <> []) as Hne by (destruct n; [lia|done]).
  assert (length (take n (b :: payload)) <= default (length (take n (b :: payload))) (max_payload e))%nat as Hmax.
  { rewrite length_take. unfold n, frame_len. destruct (max_payload e); cbn [default]; unfold id; lia. }
  destruct (peers_frame e d _ u e' o Hpeers Hne Hmax Ee) as (d' & Hp' & Hpl).
  specialize (IH e' d' (drop n (b :: payload)) Hp'). rewrite length_drop in IH.
  destruct (frames_loop fuel e' (drop n (b :: payload))) as [more err]. cbn [fst snd] in *.
  rewrite Hpl, IH; [|cbn [length] in *; lia|done]. cbn [fst snd]. by rewrite take_drop.
Qed.

(** Two framed streams over a connection carry a buffer through unchanged: if the
    writer wrote it all, through any pattern of partial writes and waits, and the bytes it
    put on the wire arrive in any pieces, then a reader that reaches the end has read
    exactly that buffer, and one that has not has a prefix of it and no error. *)
Lemma framed_roundtrip e d payload accepts polls this s rooms :
  peers e d -> writes e = WritesFramed ->
  Forall (fun e => e <> AcceptsUpTo 0 /\ forall kind, e <> WriteFails kind) accepts ->
  write_all polls (Framed_new (mkInner [] accepts []) e) payload = (Ready tt, this) ->
  script_ok s -> (forall kind, ReadFails kind ∉ s) -> arriving s = in_wrote (fr_inner this) ->
  Forall (fun room => 0 < room)%nat rooms ->
  exists got ended this', read_all rooms (Framed_new (mkInner s [] []) d) = Some (got, ended, this') /\
  match ended with
  | More => got `prefix_of` payload /\ (length rooms <= length payload + waits s)%nat
  | End_ => got = payload
  | Broken _ => False
  end.
Proof.
  intros Hpeers Hw Ha Hwrite Hs Hnf Harr Hrooms.
  pose proof (framed_writes (mkInner [] accepts []) e payload polls Hw Ha) as Hws.
  assert ((frames e payload).2 = None -> plaintext d (frames e payload).1 = (payload, None)) as Hpl
    by (by apply frames_plaintext).
  destruct (frames e payload) as [wire error]. rewrite Hwrite in Hws. destruct Hws as [-> Hwire]. cbn in Hwire.
  specialize (Hpl eq_refl). cbn [fst] in Hpl.
  destruct (fresh_reading (mkInner s [] []) d [] Hs) as [Hok Hu]. cbn [app in_reads] in Hu. rewrite Harr, Hwire, Hpl in Hu.
  destruct (read_all_ok rooms _ Hok Hrooms Hnf) as (got & ended & this' & Hread & Hg). rewrite Hu in Hg.
  exists got, ended, this'. split; [exact Hread|]. destruct ended.
  - destruct Hg as [[= -> _] Hl]. split; [by eexists|]. rewrite length_app. cbn [Framed_with_prefix fr_inner in_reads] in Hl. lia.
  - by injection Hg.
  - by destruct Hg as (_ & e' & [=]).
Qed.
End Ends.
