(* ===== verification/Socks5.v ===== *)
(** SOCKS5 ([src/egress/socks5.rs]): addresses, datagrams, and the negotiation machine
    of RFC 1928 and RFC 1929. *)

From S2P Require Import Prelude Wire Net Plan Pool Egress Sansio.
Open Scope Z_scope.

Definition VERSION : Z := 5.
Definition AUTH_VERSION : Z := 1.
Definition CMD_CONNECT : Z := 1.
Definition CMD_UDP_ASSOCIATE : Z := 3.
Definition ATYP_IPV4 : Z := 1.
Definition ATYP_DOMAIN : Z := 3.
Definition ATYP_IPV6 : Z := 4.
Definition METHOD_NONE : Z := 0x00.
Definition METHOD_USERPASS : Z := 0x02.
Definition METHOD_UNACCEPTABLE : Z := 0xff.

Definition Reply_from_byte (byte : Z) : Reply :=
  if byte =? 0 then Succeeded
  else if byte =? 1 then GeneralFailure
  else if byte =? 2 then NotAllowed
  else if byte =? 3 then NetworkUnreachable
  else if byte =? 4 then HostUnreachable
  else if byte =? 5 then ConnectionRefused
  else if byte =? 6 then TtlExpired
  else if byte =? 7 then CommandNotSupported
  else if byte =? 8 then AddressTypeNotSupported
  else OtherReply byte.

(** ** Addresses and datagrams *)

Definition encode_address (target : Target) (out : bytes) : bytes :=
  let out :=
    match target with
    | Ip (mkEndpoint (V4 ip) _) => Writer_bytes ip (Writer_u8 ATYP_IPV4 out)
    | Ip (mkEndpoint (V6 ip) _) => Writer_bytes ip (Writer_u8 ATYP_IPV6 out)
    | Domain host _ => Writer_vector_u8 host (Writer_u8 ATYP_DOMAIN out)
    end in
  Writer_u16 (Target_port target) out.

Definition decode_address (bs : bytes) : Res ProxyError (Decoded Target) :=
  match Reader_u8 (Reader_new bs) with
  | None => Ok Incomplete
  | Some (atyp, reader) =>
      '(family, body) ←
        (if atyp =? ATYP_IPV4 then Ok (FamilyV4, Reader_take reader 4)
         else if atyp =? ATYP_IPV6 then Ok (FamilyV6, Reader_take reader 16)
         else if atyp =? ATYP_DOMAIN then Ok (FamilyDomain, Reader_vector_u8 reader)
         else Err Address);
      match body with
      | None => Ok Incomplete
      | Some (body, reader) =>
          match Reader_u16 reader with
          | None => Ok Incomplete
          | Some (port, reader) =>
              target ← target_of_body family body port;
              Ok (Complete target (Reader_position reader))
          end
      end
  end.

(** [out.clear()] comes first, so the buffer's old contents do not matter. *)
Definition encode_datagram (target : Target) (payload : bytes) : bytes :=
  Writer_bytes payload (encode_address target (Writer_bytes [0; 0; 0] [])).

Definition decode_datagram (bs : bytes) : Res ProxyError (Target * bytes) :=
  match Reader_array 3 (Reader_new bs) with
  | Some ([_; _; fragment], reader) =>
      if negb (fragment =? 0) then Err FragmentedDatagram else
      let rest := Reader_rest reader in
      decoded ← decode_address rest;
      match decoded with
      | Incomplete => Err Address
      | Complete value consumed => payload ← or_panic (get_from rest consumed); Ok (value, payload)
      end
  | _ => Err Address
  end.

(** ** The negotiation *)

Record Credentials := mkCredentials { username : bytes; password : bytes }.

Inductive CredentialsError := Username (length : nat) | Password (length : nat).

Definition in_1_255 (n : nat) : bool := (1 <=? n)%nat && (n <=? 255)%nat.

Definition Credentials_new (username password : bytes) : Res CredentialsError Credentials :=
  if negb (in_1_255 (length username)) then Err (Username (length username))
  else if negb (in_1_255 (length password)) then Err (Password (length password))
  else Ok (mkCredentials username password).

Definition encode_greeting (credentials : option Credentials) (out : bytes) : bytes :=
  let out := Writer_u8 VERSION out in
  match credentials with
  | Some _ => Writer_bytes [2; METHOD_NONE; METHOD_USERPASS] out
  | None => Writer_bytes [1; METHOD_NONE] out
  end.

Definition decode_method_selection (bs : bytes) : Res ProxyError (Decoded Z) :=
  match Reader_array 2 (Reader_new bs) with
  | Some ([version; method], _) =>
      if negb (version =? VERSION) then Err (Version version)
      else if method =? METHOD_UNACCEPTABLE then Err NoAcceptableMethod
      else if (method =? METHOD_NONE) || (method =? METHOD_USERPASS) then Ok (Complete method 2)
      else Err (UnexpectedMethod method)
  | _ => Ok Incomplete
  end.

Definition encode_request (command : Z) (target : Target) (out : bytes) : bytes :=
  encode_address target (Writer_u8 0 (Writer_u8 command (Writer_u8 VERSION out))).

Definition decode_reply (bs : bytes) : Res ProxyError (Decoded Target) :=
  match Reader_array 3 (Reader_new bs) with
  | Some ([version; code; _], reader) =>
      if negb (version =? VERSION) then Err (Version version) else
      let reply := Reply_from_byte code in
      if negb (bool_decide (reply = Succeeded)) then Err (Refused reply) else
      decoded ← decode_address (Reader_rest reader);
      match decoded with
      | Incomplete => Ok Incomplete
      | Complete value consumed => Ok (Complete value (3 + consumed)%nat)
      end
  | _ => Ok Incomplete
  end.

Definition encode_credentials (credentials : Credentials) (out : bytes) : bytes :=
  Writer_vector_u8 (password credentials)
    (Writer_vector_u8 (username credentials) (Writer_u8 AUTH_VERSION out)).

Inductive Phase := Selecting | Authenticating | Requesting.

Record Negotiate := mkNegotiate {
  n_credentials : option Credentials;
  n_command : Z;
  n_target : Target;
  n_phase : Phase;
  n_at : nat;
}.

Definition Negotiate_new (credentials : option Credentials) (command : Z) (target : Target) : Negotiate :=
  mkNegotiate credentials command target Selecting 0.

Definition set_phase (m : Negotiate) (phase : Phase) (at_ : nat) : Negotiate :=
  mkNegotiate (n_credentials m) (n_command m) (n_target m) phase at_.

(** The loop of [advance]; a phase only gives way to a later one, so three rounds are
    enough. *)
Fixpoint advance_loop (fuel : nat) (m : Negotiate) (input out : bytes)
  : Res ProxyError (Decoded Target) * Negotiate * bytes :=
  match fuel with
  | O => (Panic, m, out)
  | S fuel =>
      let rest := default [] (get_from input (n_at m)) in
      match n_phase m with
      | Selecting =>
          if (n_at m =? 0)%nat && (length input =? 0)%nat && (length out =? 0)%nat
          then (Ok Incomplete, m, encode_greeting (n_credentials m) out)
          else
          match decode_method_selection rest with
          | Ok (Complete value consumed) =>
              let at_ := (n_at m + consumed)%nat in
              if value =? METHOD_USERPASS then
                match n_credentials m with
                | None => (Err (UnexpectedMethod METHOD_USERPASS), set_phase m Selecting at_, out)
                | Some credentials =>
                    advance_loop fuel (set_phase m Authenticating at_) input (encode_credentials credentials out)
                end
              else advance_loop fuel (set_phase m Requesting at_) input (encode_request (n_command m) (n_target m) out)
          | Ok Incomplete => (Ok Incomplete, m, out)
          | Err e => (Err e, m, out)
          | Panic => (Panic, m, out)
          end
      | Authenticating =>
          match Reader_array 2 (Reader_new rest) with
          | Some ([version; status], _) =>
              if negb (version =? AUTH_VERSION) then (Err (Version version), m, out)
              else if negb (status =? 0) then (Err AuthFailed, m, out)
              else advance_loop fuel (set_phase m Requesting (n_at m + 2)%nat) input
                     (encode_request (n_command m) (n_target m) out)
          | _ => (Ok Incomplete, m, out)
          end
      | Requesting =>
          match decode_reply rest with
          | Ok (Complete value consumed) => (Ok (Complete value (n_at m + consumed)%nat), m, out)
          | Ok Incomplete => (Ok Incomplete, m, out)
          | Err e => (Err e, m, out)
          | Panic => (Panic, m, out)
          end
      end
  end.

#[global] Instance Negotiate_negotiation : Negotiation Negotiate Target := advance_loop 3.

(** Where the relay is: the bound address, or the proxy's when it is unspecified. *)
Definition relay_address (bound proxy : SocketAddr) : SocketAddr :=
  if is_unspecified (address bound) then mkEndpoint (address proxy) (port bound) else bound.

Definition whole_datagram {W} (written expected : nat) : Res (EgressError W) unit :=
  if (written =? expected)%nat then Ok tt else Err (Io WriteZero).

(** The answer of [recv_from] to a relayed datagram for a buffer of [room] bytes. *)
Definition recv_datagram {W} (framed : bytes) (room : nat) : Res (EgressError W) (bytes * Target) :=
  match decode_datagram framed with
  | Ok (from, payload) =>
      if (room <? length payload)%nat then Err (DatagramTooLarge (length payload)) else Ok (payload, from)
  | Err e => Err (Proxy e)
  | Panic => Panic
  end.

(** * Decoders of a prefix *)

(** [decode_address] with its family named. *)
Definition family_of (atyp : Z) : option Family :=
  if atyp =? ATYP_IPV4 then Some FamilyV4
  else if atyp =? ATYP_IPV6 then Some FamilyV6
  else if atyp =? ATYP_DOMAIN then Some FamilyDomain
  else None.

Lemma decode_address_family bs :
  decode_address bs =
  match Reader_u8 (Reader_new bs) with
  | None => Ok Incomplete
  | Some (atyp, reader) =>
      match family_of atyp with
      | None => Err Address
      | Some family =>
          match address_body family reader with
          | None => Ok Incomplete
          | Some (body, reader) =>
              match Reader_u16 reader with
              | None => Ok Incomplete
              | Some (port, reader) =>
                  target ← target_of_body family body port; Ok (Complete target (Reader_position reader))
              end
          end
      end
  end.
Proof.
  unfold decode_address, family_of. destruct (Reader_u8 _) as [[atyp reader]|]; [|done].
  repeat (destruct (atyp =? _); [done|]). done.
Qed.

Lemma decode_address_stable : stable decode_address 260.
Proof.
  split; intros i; rewrite ?decode_address_family.
  - destruct (Reader_u8 _) as [[atyp r1]|]; [|done]. destruct (family_of atyp) as [family|]; [|done].
    destruct (address_body family r1) as [[body r2]|]; [|done]. destruct (Reader_u16 r2) as [[port r3]|]; [|done].
    pose proof (target_of_body_total family body port). by destruct (target_of_body _ _ _).
  - intros more v n. rewrite decode_address_family, Reader_extend_new. unfold Reader_u8, Reader_u16.
    destruct (Reader_uint 1 _) as [[atyp r1]|] eqn:E1; [|done].
    rewrite (Reader_uint_extend _ _ _ _ more E1). apply Reader_uint_ok in E1 as (H1 & _ & B1); [|apply reader_new_ok].
    destruct (family_of atyp) as [family|]; [|done].
    destruct (address_body family r1) as [[body r2]|] eqn:E2; [|done]. rewrite (address_body_extend _ _ _ _ more E2).
    apply address_body_ok in E2 as (H2 & B2 & _); [|done].
    destruct (Reader_uint 2 r2) as [[port r3]|] eqn:E3; [|done]. rewrite (Reader_uint_extend _ _ _ _ more E3).
    apply Reader_uint_ok in E3 as (H3 & _ & B3); [|done].
    destruct (target_of_body family body port) as [t|e|]; [|done|done]. cbn. intros [= <- <-]. split; [|done].
    unfold reader_ok in H3. rewrite B3, B2, B1 in H3. exact H3.
  - intros more e. rewrite decode_address_family, Reader_extend_new. unfold Reader_u8, Reader_u16.
    destruct (Reader_uint 1 _) as [[atyp r1]|] eqn:E1; [|done]. rewrite (Reader_uint_extend _ _ _ _ more E1).
    destruct (family_of atyp) as [family|]; [|done].
    destruct (address_body family r1) as [[body r2]|] eqn:E2; [|done]. rewrite (address_body_extend _ _ _ _ more E2).
    destruct (Reader_uint 2 r2) as [[port r3]|] eqn:E3; [|done]. rewrite (Reader_uint_extend _ _ _ _ more E3).
    by destruct (target_of_body family body port).
  - intros Hb Hlen. unfold Reader_u8, Reader_u16. destruct (Reader_uint 1 _) as [[atyp r1]|] eqn:E1.
    2:{ apply Reader_uint_None in E1; [cbn in E1; lia|apply reader_new_ok]. }
    apply Reader_uint_ok in E1 as (H1 & A1 & B1); [|apply reader_new_ok]. cbn in A1, B1.
    destruct (family_of atyp) as [family|]; [|done]. rewrite <- B1 in Hb.
    destruct (address_body family r1) as [[body r2]|] eqn:E2.
    2:{ apply address_body_None in E2; [|done|done]. rewrite B1 in E2. lia. }
    apply address_body_ok in E2 as (H2 & B2 & A2); [|done]. specialize (A2 Hb).
    destruct (Reader_uint 2 r2) as [[port r3]|] eqn:E3.
    2:{ apply Reader_uint_None in E3; [|done]. rewrite B2, B1 in E3. lia. }
    by destruct (target_of_body family body port).
Qed.

Lemma decode_method_selection_stable : stable decode_method_selection 2.
Proof.
  split.
  - intros [|a [|b i]]; cbn; repeat case_match; done.
  - intros [|a [|b i]] more v n; cbn; [done..|]. repeat case_match; try done. intros [= <- <-]. split; [lia|done].
  - intros [|a [|b i]] more e; cbn; [done..|]. repeat case_match; done.
  - intros [|a [|b i]] _ Hl; cbn in *; [lia..|]. repeat case_match; done.
Qed.

Lemma decode_reply_cons a b c i :
  decode_reply (a :: b :: c :: i) =
  if negb (a =? VERSION) then Err (Version a) else
  if negb (bool_decide (Reply_from_byte b = Succeeded)) then Err (Refused (Reply_from_byte b)) else
  decoded ← decode_address i;
  match decoded with Incomplete => Ok Incomplete | Complete value consumed => Ok (Complete value (3 + consumed)%nat) end.
Proof. done. Qed.

Lemma decode_reply_stable : stable decode_reply 263.
Proof.
  pose proof decode_address_stable as [Ht Hc He Hb]. split.
  - intros [|a [|b [|c i]]]; [done..|]. rewrite decode_reply_cons. specialize (Ht i).
    repeat (case_match; [done|]). by destruct (decode_address i) as [[]| |].
  - intros [|a [|b [|c i]]] more v n; [done..|]. cbn [app]. rewrite !decode_reply_cons.
    repeat (case_match; [done|]). destruct (decode_address i) as [[|t k]|e|] eqn:E; [done| |done|done].
    destruct (Hc i more t k E) as [Hk ->]. cbn. intros [= <- <-]. split; [lia|done].
  - intros [|a [|b [|c i]]] more e; [done..|]. cbn [app]. rewrite !decode_reply_cons.
    repeat (case_match; [done|]). destruct (decode_address i) as [[|t k]|e'|] eqn:E; [done|done| |done].
    rewrite (He i more e' E). done.
  - intros [|a [|b [|c i]]] Hok Hl; [cbn in Hl; lia..|]. rewrite decode_reply_cons.
    repeat (case_match; [done|]). assert (decode_address i <> Ok Incomplete) as Hi.
    { apply Hb; [by do 3 apply Forall_cons in Hok as [_ Hok]|]. cbn in Hl. lia. }
    by destruct (decode_address i) as [[|t k]|e'|].
Qed.

(** * Round trips *)

Lemma Reader_u8_cons b bs : Reader_u8 (Reader_new (b :: bs)) = Some (b, mkReader (b :: bs) 1).
Proof. done. Qed.

Lemma decode_address_wire family atyp wire body p more target :
  family_of atyp = Some family -> u16_ok p ->
  address_body family (mkReader (atyp :: wire ++ be_bytes 2 p ++ more) 1) =
    Some (body, mkReader (atyp :: wire ++ be_bytes 2 p ++ more) (1 + length wire)) ->
  target_of_body family body p = Ok target ->
  decode_address (atyp :: wire ++ be_bytes 2 p ++ more) = Ok (Complete target (1 + length wire + 2)%nat).
Proof.
  intros Hf Hp Hb Ht. rewrite decode_address_family, Reader_u8_cons, Hf, Hb. unfold Reader_u16.
  pose proof (Reader_uint_app 2 (atyp :: wire) p more) as Hu. cbn [length app] in Hu. cbn [Nat.add]. rewrite Hu by done.
  cbn [mbind Res_bind]. by rewrite Ht.
Qed.

Lemma address_roundtrip target more :
  target_ok target ->
  decode_address (encode_address target [] ++ more) = Ok (Complete target (length (encode_address target []))).
Proof.
  intros [Hport Ht]. unfold encode_address, Writer_vector_u8, Writer_u16, Writer_bytes, Writer_u8.
  destruct target as [[[ip|ip] p]|host p]; cbn [Target_port port address app] in *; rewrite <- !(assoc_L (++)); cbn [app].
  - destruct Ht as [_ Hl]. cbn in Hl. rewrite (decode_address_wire FamilyV4 _ ip ip p more (Ip (mkEndpoint (V4 ip) p))); try done.
    + cbn [length]. rewrite length_app, length_be_bytes. repeat f_equal; lia.
    + apply (address_body_take _ [_] _ _ 4); auto.
    + apply (target_of_ip FamilyV4 ip p 4); auto.
  - destruct Ht as [_ Hl]. cbn in Hl. rewrite (decode_address_wire FamilyV6 _ ip ip p more (Ip (mkEndpoint (V6 ip) p))); try done.
    + cbn [length]. rewrite length_app, length_be_bytes. repeat f_equal; lia.
    + apply (address_body_take _ [_] _ _ 16); auto.
    + apply (target_of_ip FamilyV6 ip p 16); auto.
  - set (wire := wrap 8 (Z.of_nat (length host)) :: host).
    change (ATYP_DOMAIN :: wrap 8 (Z.of_nat (length host)) :: host ++ be_bytes 2 p ++ more)
      with (ATYP_DOMAIN :: wire ++ be_bytes 2 p ++ more).
    rewrite (decode_address_wire FamilyDomain _ wire host p more (Domain host p)); try done.
    + unfold wire. cbn [length]. rewrite length_app, length_be_bytes. repeat f_equal; lia.
    + apply (address_body_domain [_]). destruct Ht. lia.
    + by apply target_of_domain.
Qed.

Lemma decode_datagram_cons a b c rest :
  decode_datagram (a :: b :: c :: rest) =
  if negb (c =? 0) then Err FragmentedDatagram else
  decoded ← decode_address rest;
  match decoded with
  | Incomplete => Err Address
  | Complete value consumed => payload ← or_panic (get_from rest consumed); Ok (value, payload)
  end.
Proof. done. Qed.

Lemma datagram_decodes target payload :
  target_ok target -> decode_datagram (encode_datagram target payload) = Ok (target, payload).
Proof.
  intros Ht. unfold encode_datagram, Writer_bytes. cbn [app].
  assert (encode_address target [0; 0; 0] = 0 :: 0 :: 0 :: encode_address target []) as ->.
  { by destruct target as [[[]]|]. }
  cbn [app]. rewrite decode_datagram_cons. cbn [Z.eqb negb]. rewrite (address_roundtrip target payload Ht). cbn [mbind Res_bind].
  unfold get_from. rewrite (proj2 (Nat.leb_le _ _)) by (rewrite length_app; lia). cbn. by rewrite drop_app_length.
Qed.

(** * The negotiation is lawful *)

(** The phases of the loop, each with the ones it can give way to. *)
Definition request_step (m : Negotiate) (rest out : bytes) : Res ProxyError (Decoded Target) * Negotiate * bytes :=
  match decode_reply rest with
  | Ok (Complete value consumed) => (Ok (Complete value (n_at m + consumed)%nat), m, out)
  | Ok Incomplete => (Ok Incomplete, m, out)
  | Err e => (Err e, m, out)
  | Panic => (Panic, m, out)
  end.

Definition auth_step (m : Negotiate) (rest out : bytes) : Res ProxyError (Decoded Target) * Negotiate * bytes :=
  match rest with
  | version :: status :: rest =>
      if negb (version =? AUTH_VERSION) then (Err (Version version), m, out)
      else if negb (status =? 0) then (Err AuthFailed, m, out)
      else request_step (set_phase m Requesting (n_at m + 2)%nat) rest (out ++ encode_request (n_command m) (n_target m) [])
  | _ => (Ok Incomplete, m, out)
  end.

Definition select_step (m : Negotiate) (rest out : bytes) : Res ProxyError (Decoded Target) * Negotiate * bytes :=
  match decode_method_selection rest with
  | Ok (Complete value consumed) =>
      let at_ := (n_at m + consumed)%nat in
      if value =? METHOD_USERPASS then
        match n_credentials m with
        | None => (Err (UnexpectedMethod METHOD_USERPASS), set_phase m Selecting at_, out)
        | Some credentials => auth_step (set_phase m Authenticating at_) (drop consumed rest) (out ++ encode_credentials credentials [])
        end
      else request_step (set_phase m Requesting at_) (drop consumed rest) (out ++ encode_request (n_command m) (n_target m) [])
  | Ok Incomplete => (Ok Incomplete, m, out)
  | Err e => (Err e, m, out)
  | Panic => (Panic, m, out)
  end.

Definition phase_step (m : Negotiate) (rest out : bytes) : Res ProxyError (Decoded Target) * Negotiate * bytes :=
  match n_phase m with
  | Selecting => select_step m rest out
  | Authenticating => auth_step m rest out
  | Requesting => request_step m rest out
  end.

Lemma encode_request_app command target out : encode_request command target out = out ++ encode_request command target [].
Proof.
  unfold encode_request, encode_address, Writer_vector_u8, Writer_u16, Writer_bytes, Writer_u8.
  destruct target as [[[]]|]; by rewrite <- !(assoc_L (++)).
Qed.

Lemma encode_credentials_app credentials out : encode_credentials credentials out = out ++ encode_credentials credentials [].
Proof. unfold encode_credentials, Writer_vector_u8, Writer_bytes, Writer_u8. by rewrite <- !(assoc_L (++)). Qed.

Lemma rest_from (input : bytes) at_ : (at_ <= length input)%nat -> default [] (get_from input at_) = drop at_ input.
Proof. intros. unfold get_from. by rewrite (proj2 (Nat.leb_le _ _)). Qed.

Lemma method_selection_two rest v n : decode_method_selection rest = Ok (Complete v n) -> n = 2%nat /\ (2 <= length rest)%nat.
Proof.
  destruct rest as [|a [|b rest]]; cbn; [done..|]. repeat case_match; try done. intros [= <- <-]. split; [done|lia].
Qed.

Lemma request_loop fuel m input out :
  n_phase m = Requesting -> (n_at m <= length input)%nat ->
  advance_loop (S fuel) m input out = request_step m (drop (n_at m) input) out.
Proof. intros Hp Hat. cbn [advance_loop]. by rewrite Hp, rest_from. Qed.

Lemma auth_loop fuel m input out :
  n_phase m = Authenticating -> (n_at m <= length input)%nat ->
  advance_loop (S (S fuel)) m input out = auth_step m (drop (n_at m) input) out.
Proof.
  intros Hp Hat. remember (S fuel) as f eqn:Hf. cbn [advance_loop]. rewrite Hp, rest_from by done. unfold auth_step.
  destruct (drop (n_at m) input) as [|a [|b rest]] eqn:E; [done..|].
  cbn [Reader_array Reader_rest Reader_new r_bytes r_at drop get_to length Nat.leb mbind option_bind take].
  cbn. destruct (negb (a =? AUTH_VERSION)); [done|]. destruct (negb (b =? 0)); [done|].
  pose proof (f_equal length E) as Hl. rewrite length_drop in Hl. cbn in Hl.
  rewrite Hf, request_loop by (done || cbn; lia). cbn [set_phase n_at]. by rewrite <- drop_drop, E, encode_request_app.
Qed.

(** Past the greeting, the machine is its phases on what it has not consumed. *)
Lemma advance_phases m input out :
  (n_at m <= length input)%nat -> n_phase m <> Selecting \/ input <> [] ->
  advance m input out = phase_step m (drop (n_at m) input) out.
Proof.
  intros Hat Hs. unfold advance, Negotiate_negotiation, phase_step. destruct (n_phase m) eqn:Hp.
  - remember 2%nat as f eqn:Hf. cbn [advance_loop]. rewrite Hp, rest_from by done.
    assert (length input =? 0 = false)%nat as -> by (destruct Hs; [done|]; by destruct input).
    rewrite andb_false_r. cbn [andb]. unfold select_step.
    destruct (decode_method_selection (drop (n_at m) input)) as [[|v n]|e|] eqn:E; [done| |done|done].
    apply method_selection_two in E as [-> Hl]. rewrite length_drop in Hl. rewrite drop_drop. destruct (v =? METHOD_USERPASS).
    + destruct (n_credentials m) as [c|]; [|done]. rewrite Hf, auth_loop by (done || cbn; lia). by rewrite encode_credentials_app.
    + rewrite Hf, request_loop by (done || cbn; lia). by rewrite encode_request_app.
  - by apply auth_loop.
  - by apply request_loop.
Qed.

(** The machine's place in its input. *)
Definition placed (m : Negotiate) : Prop :=
  match n_phase m with Selecting => n_at m = 0 | Authenticating => n_at m = 2 | Requesting => 2 <= n_at m <= 4 end%nat.

(** A step never panics, completes inside what it was given, and answers the same with
    more behind it; one that waits can be resumed where it stopped. *)
Record step_ok (m : Negotiate) (step : bytes -> bytes -> Res ProxyError (Decoded Target) * Negotiate * bytes)
    (bound : nat) : Prop := {
  so_total : forall rest out, (step rest out).1.1 <> Panic;
  so_appends : forall rest out, step rest out = let '(r, m', o) := step rest [] in (r, m', out ++ o);
  so_complete : forall rest v n m' o more, step rest [] = (Ok (Complete v n), m', o) ->
    (n <= n_at m + length rest)%nat /\ step (rest ++ more) [] = (Ok (Complete v n), m', o);
  so_error : forall rest e m' o more, step rest [] = (Err e, m', o) -> exists m'' o', step (rest ++ more) [] = (Err e, m'', o');
  so_waits : forall rest m' o, step rest [] = (Ok Incomplete, m', o) ->
    placed m' /\ (n_at m <= n_at m' <= n_at m + length rest)%nat /\
    forall more, step (rest ++ more) [] =
      let '(r, m'', o') := phase_step m' (drop (n_at m' - n_at m) rest ++ more) [] in (r, m'', o ++ o');
  so_bound : forall rest m' o, bytes_ok rest -> (bound <= length rest)%nat -> step rest [] <> (Ok Incomplete, m', o);
}.

Lemma request_step_ok m : n_phase m = Requesting -> placed m -> step_ok m (request_step m) 263.
Proof.
  intros Hp Hm. pose proof decode_reply_stable as [Ht Hc He Hb]. split; unfold request_step.
  - intros rest out. specialize (Ht rest). by destruct (decode_reply rest) as [[]| |].
  - intros rest out. destruct (decode_reply rest) as [[]| |]; by rewrite app_nil_r.
  - intros rest v n m' o more. destruct (decode_reply rest) as [[|t k]|e|] eqn:E; [done| |done|done].
    destruct (Hc rest more t k E) as [Hk ->]. intros [= <- <- <- <-]. split; [lia|done].
  - intros rest e m' o more. destruct (decode_reply rest) as [[|t k]|e'|] eqn:E; [done|done| |done].
    intros [= <- <- <-]. rewrite (He rest more e' E). by eexists _, _.
  - intros rest m' o. destruct (decode_reply rest) as [[|t k]|e'|] eqn:E; [|done|done|done]. intros [= <- <-].
    split_and!; [done|lia|lia|]. intros more. rewrite Nat.sub_diag, drop_0. unfold phase_step. rewrite Hp. unfold request_step.
    by destruct (decode_reply (rest ++ more)) as [[]| |].
  - intros rest m' o Hr Hl. specialize (Hb rest Hr Hl). by destruct (decode_reply rest) as [[]| |].
Qed.

Lemma prefixed_out {A B : Type} (x : A * B * bytes) (a b : bytes) :
  (let '(r, m, o) := (let '(r, m, o) := x in (r, m, b ++ o)) in (r, m, a ++ o)) = let '(r, m, o) := x in (r, m, (a ++ b) ++ o).
Proof. destruct x as [[r m] o]. by rewrite (assoc_L (++)). Qed.

Lemma step_ok_more m step bound bound' : (bound <= bound')%nat -> step_ok m step bound -> step_ok m step bound'.
Proof. intros Hb [? ? ? ? ? Hbound]. split; try done. intros rest m' o Hr Hl. apply Hbound; [done|lia]. Qed.

(** A step whose opening of [k] bytes either decides, or writes [message] and goes on. *)
Lemma opened_step_ok m k bound (step : bytes -> bytes -> Res ProxyError (Decoded Target) * Negotiate * bytes)
    (short : forall rest out, (length rest < k)%nat -> step rest out = (Ok Incomplete, m, out))
    (long : forall rest, (k <= length rest)%nat ->
       (exists e m', forall more out, step (rest ++ more) out = (Err e, m', out)) \/
       (exists m' next message, step_ok m' next bound /\ n_at m' = (n_at m + k)%nat /\
          (forall rest, phase_step m' rest [] = next rest []) /\
          forall more out, step (rest ++ more) out = next (drop k rest ++ more) (out ++ message))) :
  placed m -> (forall rest, phase_step m rest [] = step rest []) -> step_ok m step (k + bound).
Proof.
  intros Hm Hphase.
  assert (forall rest, (k <= length rest)%nat ->
    (exists e m', forall more out, step (rest ++ more) out = (Err e, m', out)) \/
    (exists m' next message, step_ok m' next bound /\ n_at m' = (n_at m + k)%nat /\
      (forall rest, phase_step m' rest [] = next rest []) /\
      forall more out, step (rest ++ more) out =
        let '(r, m'', o) := next (drop k rest ++ more) [] in (r, m'', (out ++ message) ++ o))) as Hlong.
  { intros rest Hk. destruct (long rest Hk) as [?|(m' & next & msg & Hok & Hat & Hph & Hs)]; [by left|]. right.
    exists m', next, msg. split_and!; try done. intros more out. rewrite Hs. apply (so_appends _ _ _ Hok). }
  assert (forall rest, (k <= length rest)%nat -> step rest = fun out => step (rest ++ []) out) as Hnil.
  { intros. by rewrite app_nil_r. }
  split.
  - intros rest out. destruct (decide (length rest < k)%nat); [by rewrite short|]. rewrite Hnil by lia.
    destruct (Hlong rest) as [(e & m' & Hs)|(m' & next & msg & Hok & _ & _ & Hs)]; [lia|by rewrite Hs|]. rewrite Hs.
    pose proof (so_total _ _ _ Hok (drop k rest ++ []) []). by destruct (next _ _) as [[r ?] ?].
  - intros rest out. destruct (decide (length rest < k)%nat); [by rewrite !short, app_nil_r|]. rewrite Hnil by lia.
    destruct (Hlong rest) as [(e & m' & Hs)|(m' & next & msg & Hok & _ & _ & Hs)]; [lia|by rewrite !Hs, app_nil_r|]. rewrite !Hs.
    by rewrite prefixed_out, app_nil_l.
  - intros rest v n m1 o more. destruct (decide (length rest < k)%nat); [by rewrite short|]. rewrite Hnil by lia.
    destruct (Hlong rest) as [(e & m' & Hs)|(m' & next & msg & Hok & Hat & _ & Hs)]; [lia|by rewrite !Hs|]. rewrite !Hs, app_nil_r.
    destruct (next (drop k rest) []) as [[r m2] o2] eqn:E. intros [= -> -> <-].
    destruct (so_complete _ _ _ Hok _ _ _ _ _ more E) as [Hn ->]. split; [|done]. rewrite length_drop in Hn. lia.
  - intros rest e m1 o more. destruct (decide (length rest < k)%nat); [by rewrite short|]. rewrite Hnil by lia.
    destruct (Hlong rest) as [(e' & m' & Hs)|(m' & next & msg & Hok & Hat & _ & Hs)]; [lia| |]; rewrite !Hs.
    { intros [= <- <- <-]. by eexists _, _. }
    rewrite app_nil_r. destruct (next (drop k rest) []) as [[r m2] o2] eqn:E. intros [= -> -> <-].
    destruct (so_error _ _ _ Hok _ _ _ _ more E) as (m3 & o3 & ->). by eexists _, _.
  - intros rest m1 o. destruct (decide (length rest < k)%nat).
    { rewrite short by done. intros [= <- <-]. split_and!; [done|lia|lia|]. intros more. rewrite Nat.sub_diag, drop_0, Hphase.
      by destruct (step (rest ++ more) []) as [[? ?] ?]. }
    rewrite Hnil by lia.
    destruct (Hlong rest) as [(e' & m' & Hs)|(m' & next & msg & Hok & Hat & Hph & Hs)]; [lia|by rewrite Hs|]. rewrite Hs, app_nil_r.
    destruct (next (drop k rest) []) as [[r m2] o2] eqn:E. intros [= -> -> <-].
    destruct (so_waits _ _ _ Hok _ _ _ E) as (Hpl & Hle & Hw). rewrite length_drop in Hle. split_and!; [done|lia|lia|].
    intros more. rewrite Hs, Hw, drop_drop. replace (k + (n_at m1 - n_at m'))%nat with (n_at m1 - n_at m)%nat by lia.
    by rewrite prefixed_out.
  - intros rest m1 o Hr Hl. rewrite Hnil by lia.
    destruct (Hlong rest) as [(e' & m' & Hs)|(m' & next & msg & Hok & Hat & Hph & Hs)]; [lia|by rewrite Hs|]. rewrite Hs, app_nil_r.
    destruct (next (drop k rest) []) as [[r m2] o2] eqn:E. intros [= -> -> <-].
    eapply (so_bound _ _ _ Hok); [..|exact E]; [by apply Forall_drop|rewrite length_drop; lia].
Qed.

Lemma auth_step_ok m : n_phase m = Authenticating -> placed m -> step_ok m (auth_step m) 265.
Proof.
  intros Hp Hm. apply (opened_step_ok m 2 263); [..|done|intros rest; unfold phase_step; by rewrite Hp].
  - intros [|a [|b rest]] out Hl; cbn in Hl; [done..|lia].
  - intros [|a [|b rest]] Hl; [cbn in Hl; lia..|]. unfold auth_step. cbn [app].
    destruct (negb (a =? AUTH_VERSION)); [left; by eexists _, _|]. destruct (negb (b =? 0)); [left; by eexists _, _|].
    right. exists (set_phase m Requesting (n_at m + 2)%nat), (request_step (set_phase m Requesting (n_at m + 2)%nat)),
      (encode_request (n_command m) (n_target m) []).
    unfold placed in Hm. rewrite Hp in Hm. split_and!; try done. apply request_step_ok; [done|]. unfold placed. cbn. lia.
Qed.

Lemma select_step_ok m : n_phase m = Selecting -> placed m -> step_ok m (select_step m) 267.
Proof.
  intros Hp Hm. apply (opened_step_ok m 2 265); [..|done|intros rest; unfold phase_step; by rewrite Hp].
  - intros [|a [|b rest]] out Hl; cbn in Hl; [done..|lia].
  - intros rest Hl. pose proof decode_method_selection_stable as [Ht Hc He Hb]. unfold placed in Hm. rewrite Hp in Hm.
    destruct (decode_method_selection rest) as [[|v n]|e|] eqn:E; [| | |by destruct (Ht rest)].
    + destruct rest as [|a [|b rest]]; [cbn in Hl; lia..|]. exfalso. revert E. cbn. repeat case_match; done.
    + unfold select_step. pose proof (method_selection_two _ _ _ E) as [-> _].
      assert (forall more, decode_method_selection (rest ++ more) = Ok (Complete v 2)) as Hext by (intros more; by apply (Hc rest more v 2%nat)).
      destruct (v =? METHOD_USERPASS) eqn:Ev; [destruct (n_credentials m) as [c|] eqn:Ecr|].
      * right. exists (set_phase m Authenticating (n_at m + 2)%nat), (auth_step (set_phase m Authenticating (n_at m + 2)%nat)), (encode_credentials c []).
        split_and!; try done; [apply auth_step_ok; [done|unfold placed; cbn; lia]|].
        intros more out. rewrite Hext, Ev. by rewrite drop_app_le.
      * left. eexists _, _. intros more out. by rewrite Hext, Ev.
      * right. exists (set_phase m Requesting (n_at m + 2)%nat), (request_step (set_phase m Requesting (n_at m + 2)%nat)),
          (encode_request (n_command m) (n_target m) []). split_and!; try done.
        -- apply step_ok_more with 263%nat; [lia|]. apply request_step_ok; [done|unfold placed; cbn; lia].
        -- intros more out. rewrite Hext, Ev. by rewrite drop_app_le.
    + left. eexists e, m. intros more out. unfold select_step. by rewrite (He rest more e E).
Qed.

Lemma phase_step_ok m : placed m -> step_ok m (phase_step m) 267.
Proof.
  intros Hm. destruct (n_phase m) eqn:Hp.
  - replace (phase_step m) with (select_step m); [by apply select_step_ok|unfold phase_step; by rewrite Hp].
  - replace (phase_step m) with (auth_step m); [|unfold phase_step; by rewrite Hp].
    apply step_ok_more with 265%nat; [lia|]. by apply auth_step_ok.
  - replace (phase_step m) with (request_step m); [|unfold phase_step; by rewrite Hp].
    apply step_ok_more with 263%nat; [lia|]. by apply request_step_ok.
Qed.

Definition negotiate_offered (m : Negotiate) (i : bytes) : Prop := bytes_ok i /\ (n_at m <= length i)%nat /\ placed m.

Lemma advance_empty m out :
  negotiate_offered m [] -> exists o, advance m [] out = (Ok Incomplete, m, o).
Proof.
  intros (_ & Hat & Hm). unfold placed in Hm. cbn in Hat. unfold advance, Negotiate_negotiation. cbn [advance_loop].
  destruct (n_phase m); [|lia..]. rewrite Hm. destruct out; by eexists.
Qed.

Lemma advance_nonempty m i : negotiate_offered m i -> i <> [] ->
  forall more, advance m (i ++ more) [] = phase_step m (drop (n_at m) i ++ more) [].
Proof.
  intros (_ & Hat & _) Hne more. rewrite advance_phases.
  - by rewrite drop_app_le.
  - rewrite length_app. lia.
  - right. by destruct i.
Qed.

#[global] Instance Negotiate_laws : NegotiationLaws Negotiate Target.
Proof.
  refine {| offered := negotiate_offered |}.
  - intros m i more (Hi & Hat & Hm) Hmore. split_and!; [by apply Forall_app|rewrite length_app; lia|done].
  - intros m i Hoff. destruct (decide (i = [])) as [->|Hne].
    { by destruct (advance_empty m [] Hoff) as [o ->]. }
    rewrite <- (app_nil_r i), advance_nonempty by done. apply (so_total _ _ _ (phase_step_ok m (proj2 (proj2 Hoff)))).
  - intros m i m' o Hoff. destruct (decide (i = [])) as [->|Hne].
    { destruct (advance_empty m [] Hoff) as [o' ->]. by intros [= <- <-]. }
    rewrite <- (app_nil_r i) at 1. rewrite advance_nonempty, app_nil_r by done. destruct Hoff as (Hi & Hat & Hm). intros E.
    destruct (so_waits _ _ _ (phase_step_ok m Hm) _ _ _ E) as (Hp & Hle & _). rewrite length_drop in Hle. split_and!; [done|lia|done].
  - intros m i more m' o Hoff Hne E. rewrite advance_nonempty by done.
    rewrite <- (app_nil_r i), advance_nonempty, app_nil_r in E by done. destruct Hoff as (Hi & Hat & Hm).
    destruct (so_waits _ _ _ (phase_step_ok m Hm) _ _ _ E) as (Hp & Hle & Hw). rewrite length_drop in Hle.
    rewrite Hw, drop_drop, (advance_nonempty m' i); [|split_and!; [done|lia|done]|done].
    by replace (n_at m + (n_at m' - n_at m))%nat with (n_at m') by lia.
  - intros m i more v n m' o Hoff E. destruct (decide (i = [])) as [->|Hne].
    { destruct (advance_empty m [] Hoff) as [o' He]. by rewrite He in E. }
    rewrite advance_nonempty by done. rewrite <- (app_nil_r i), advance_nonempty, app_nil_r in E by done. destruct Hoff as (Hi & Hat & Hm).
    destruct (so_complete _ _ _ (phase_step_ok m Hm) _ _ _ _ _ more E) as [Hn ->]. rewrite length_drop in Hn. split; [lia|done].
  - intros m i more e m' o Hoff Hne E. rewrite advance_nonempty by done.
    rewrite <- (app_nil_r i), advance_nonempty, app_nil_r in E by done.
    by apply (so_error _ _ _ (phase_step_ok m (proj2 (proj2 Hoff))) _ _ _ _ more E).
Defined.

#[global] Instance Negotiate_bound : NegotiationBound Negotiate Target.
Proof.
  refine {| decides_within := 271 |}. intros m i Hoff Hl. destruct (decide (i = [])) as [->|Hne]; [cbn in Hl; lia|].
  rewrite <- (app_nil_r i), advance_nonempty, app_nil_r by done. destruct Hoff as (Hi & Hat & Hm).
  assert (n_at m <= 4)%nat by (unfold placed in Hm; destruct (n_phase m); lia).
  destruct (phase_step m (drop (n_at m) i) []) as [[r m'] o] eqn:E. cbn [fst snd]. intros ->.
  eapply (so_bound _ _ _ (phase_step_ok m Hm)); [..|exact E]; [by apply Forall_drop|rewrite length_drop; lia].
Defined.

(** ** The whole conversation *)

(** What a willing proxy answers, by the method it selects, and what the client sends. *)
Definition proxy_answer (method : Z) (bound : Target) : bytes :=
  [VERSION; method] ++ (if method =? METHOD_USERPASS then [AUTH_VERSION; 0] else []) ++
  [VERSION; 0; 0] ++ encode_address bound [].

Definition client_messages (credentials : option Credentials) (method command : Z) (target : Target) : bytes :=
  encode_greeting credentials [] ++
  match credentials with
  | Some credentials => if method =? METHOD_USERPASS then encode_credentials credentials [] else []
  | None => []
  end ++
  encode_request command target [].

(** A proxy may ask for a password only of a client that offered one. *)
Definition selectable (credentials : option Credentials) (method : Z) : Prop :=
  method = METHOD_NONE \/ method = METHOD_USERPASS /\ credentials <> None.

Lemma Negotiate_opens credentials command target :
  opens (Negotiate_new credentials command target) (Negotiate_new credentials command target) (encode_greeting credentials []).
Proof. split; [by destruct credentials|]. by repeat split; constructor. Qed.

Lemma request_answers m bound rest out :
  target_ok bound ->
  request_step m ([VERSION; 0; 0] ++ encode_address bound [] ++ rest) out =
    (Ok (Complete bound (n_at m + (3 + length (encode_address bound [])))%nat), m, out).
Proof.
  intros Hb. unfold request_step. cbn [app]. rewrite decode_reply_cons. cbn [negb Z.eqb VERSION Z.eq_dec].
  by rewrite (address_roundtrip bound rest Hb).
Qed.

Lemma conversation_advances credentials method command target bound rest :
  selectable credentials method -> target_ok bound ->
  exists m' o, advance (Negotiate_new credentials command target) (proxy_answer method bound ++ rest) [] =
    (Ok (Complete bound (length (proxy_answer method bound))), m', o) /\
  encode_greeting credentials [] ++ o = client_messages credentials method command target.
Proof.
  intros Hsel Hb. rewrite advance_phases; [|cbn; lia|by right]. unfold phase_step, client_messages, proxy_answer.
  cbn [Negotiate_new n_phase n_at drop]. destruct Hsel as [->|[-> Hc]].
  - cbn [Z.eqb METHOD_NONE METHOD_USERPASS app]. unfold select_step. cbn [decode_method_selection Reader_array].
    cbn -[encode_address encode_request request_step].
    rewrite (request_answers (mkNegotiate credentials command target Requesting 2) bound rest _ Hb).
    eexists _, _. split; [done|]. by destruct credentials.
  - destruct credentials as [c|]; [|done]. cbn [Z.eqb METHOD_USERPASS app].
    cbn -[encode_address encode_request request_step].
    rewrite (request_answers (mkNegotiate (Some c) command target Requesting 4) bound rest _ Hb).
    eexists _, _. split; [done|]. done.
Qed.

Lemma proxy_answer_nonempty method bound : proxy_answer method bound <> [].
Proof. done. Qed.

Lemma Negotiate_decides : (decides_within (M := Negotiate) <= MAX_NEGOTIATION)%nat.
Proof. cbn. unfold MAX_NEGOTIATION. lia. Qed.

(** C27: A SOCKS5 negotiation with a willing proxy succeeds however the stream splits the
    proxy's bytes: it answers the bound address, has sent exactly the greeting, the
    credentials where the proxy selected them, and the request, and gives the caller as
    surplus and unread stream exactly the bytes behind the reply. *)
Theorem socks5_connects {W : Type} credentials method command target bound rest w :
  selectable credentials method -> target_ok bound -> delivers w ->
  arriving (w_reads w) = proxy_answer method bound ++ rest ->
  exists surplus m w',
    negotiate (Negotiate_new credentials command target) w = (Ok (bound, surplus) : Res (EgressError W) _, m, w') /\
    surplus ++ arriving (w_reads w') = rest /\
    w_sent w' = w_sent w ++ client_messages credentials method command target.
Proof.
  intros Hsel Hb Hw Harr. destruct (conversation_advances credentials method command target bound rest Hsel Hb) as (m' & o & Ha & <-).
  exact (negotiate_completes _ _ _ w _ rest _ _ _ (Negotiate_opens _ _ _)
    (opens_decided _ _ _ _ (Negotiate_opens _ _ _) Negotiate_decides Hw) Hw (proxy_answer_nonempty _ _) Harr Ha).
Qed.

(** A proxy that closes before its last byte is reported as an unexpected end of the
    stream, wherever in the conversation it stops: never as success or as another
    error. *)
Theorem socks5_cut_short {W : Type} credentials method command target bound more w :
  selectable credentials method -> target_ok bound -> delivers w -> bytes_ok more -> more <> [] ->
  arriving (w_reads w) ++ more = proxy_answer method bound ->
  exists m w', negotiate (Negotiate_new credentials command target) w = (Err (Io UnexpectedEof) : Res (EgressError W) (Target * bytes), m, w').
Proof.
  intros Hsel Hb Hw Hmb Hmore Harr.
  destruct (conversation_advances credentials method command target bound [] Hsel Hb) as (m' & o & Ha & _).
  rewrite app_nil_r in Ha.
  exact (negotiate_cut_short _ _ _ w _ more _ _ _ (Negotiate_opens _ _ _)
    (opens_decided _ _ _ _ (Negotiate_opens _ _ _) Negotiate_decides Hw) Hw Hmb Hmore Harr Ha).
Qed.

(** A proxy that answers a byte at a time, with pauses. *)
Definition dripping (bs : bytes) : Wire := mkWire (bs ≫= fun b => [Arrives [b]; ReadPending]) [] [].

Definition sample_credentials : option Credentials := Some (mkCredentials [117] [112; 119]).
Definition sample_bound : Target := Ip (mkEndpoint (V4 [127; 0; 0; 1]) 1080).
Definition sample_target : Target := Domain [97; 46; 98] 443.

Lemma sample_bound_ok : target_ok sample_bound.
Proof. split; [by split|]. split; [|done]. by repeat constructor. Qed.

Lemma dripping_delivers bs : bytes_ok bs -> delivers (dripping bs) /\ arriving (w_reads (dripping bs)) = bs.
Proof.
  intros Hbs. assert (arriving (w_reads (dripping bs)) = bs) as Harr.
  { clear Hbs. induction bs as [|b bs IH]; [done|]. cbn. cbn in IH. by rewrite IH. }
  split; [|done]. split_and!; [|intros kind|done|by rewrite Harr]; clear; unfold dripping, script_ok; cbn.
  - induction bs; by repeat constructor.
  - intros (b & Hin & _)%list_elem_of_bind. by apply list_elem_of_In in Hin as [|[|]].
Qed.

Lemma socks5_connects_witness :
  exists surplus m w',
    negotiate (Negotiate_new sample_credentials CMD_CONNECT sample_target)
      (dripping (proxy_answer METHOD_USERPASS sample_bound ++ [7; 8])) = (Ok (sample_bound, surplus) : Res (EgressError unit) _, m, w') /\
    surplus ++ arriving (w_reads w') = [7; 8] /\
    w_sent w' = [] ++ client_messages sample_credentials METHOD_USERPASS CMD_CONNECT sample_target.
Proof.
  apply (socks5_connects (W := unit) sample_credentials METHOD_USERPASS CMD_CONNECT sample_target sample_bound [7; 8]
    (dripping (proxy_answer METHOD_USERPASS sample_bound ++ [7; 8]))).
  - by right.
  - exact sample_bound_ok.
  - apply dripping_delivers. by repeat constructor.
  - apply dripping_delivers. by repeat constructor.
Defined.

Lemma socks5_cut_short_witness :
  exists m w', negotiate (Negotiate_new sample_credentials CMD_CONNECT sample_target)
    (dripping [5; 2; 1; 0; 5]) = (Err (Io UnexpectedEof) : Res (EgressError unit) (Target * bytes), m, w').
Proof.
  apply (socks5_cut_short (W := unit) sample_credentials METHOD_USERPASS CMD_CONNECT sample_target sample_bound
    [0; 0; 1; 127; 0; 0; 1; 4; 56] (dripping [5; 2; 1; 0; 5])).
  - by right.
  - exact sample_bound_ok.
  - apply dripping_delivers. by repeat constructor.
  - by repeat constructor.
  - done.
  - reflexivity.
Defined.

(** What a SOCKS5 relay sends for a target comes back from the receiver as the payload
    and the target, for every target the types allow; a payload the caller's buffer has
    no room for is refused with the size it needs, and never truncated. *)
Theorem socks5_datagram {W : Type} target payload room :
  target_ok target ->
  recv_datagram (encode_datagram target payload) room =
    (if (length payload <=? room)%nat then Ok (payload, target) else Err (DatagramTooLarge (length payload))
     : Res (EgressError W) (bytes * Target)).
Proof.
  intros Ht. unfold recv_datagram. rewrite (datagram_decodes target payload Ht). by rewrite Nat.ltb_antisym, if_negb.
Qed.

Lemma socks5_datagram_witness :
  recv_datagram (encode_datagram sample_bound [1; 2; 3]) 3 = (Ok ([1; 2; 3], sample_bound) : Res (EgressError unit) _).
Proof. rewrite (socks5_datagram sample_bound [1; 2; 3] 3 sample_bound_ok). reflexivity. Defined.

(** Two calls without input write the greeting twice. *)
Lemma greeting_repeats credentials command target :
  let m := Negotiate_new credentials command target in
  advance m [] [] = (Ok Incomplete, m, encode_greeting credentials []).
Proof. by destruct credentials. Qed.
