(* ===== verification/Vless.v ===== *)
(** VLESS ([src/egress/vless.rs]): user IDs, addresses, the request, the lazily stripped
    response header, and datagrams framed on a stream. *)

From S2P Require Import Prelude Wire Net Plan Pool Egress Sansio Framed.
Open Scope Z_scope.

Definition VERSION : Z := 0.
Definition COMMAND_TCP : Z := 1.
Definition COMMAND_UDP : Z := 2.
Definition ATYP_IPV4 : Z := 0x01.
Definition ATYP_DOMAIN : Z := 0x02.
Definition ATYP_IPV6 : Z := 0x03.

(** ** User IDs *)

(** Sixteen bytes; [text] is the [char]s of a string. *)
Abbreviation UserId := bytes.
Abbreviation text := (list Z).

Inductive UserIdError := Length (digits : nat) | Digit.

Definition HYPHEN : Z := 45.

(** [char::to_digit(16)]. *)
Definition to_digit16 (c : Z) : option Z :=
  if (48 <=? c) && (c <=? 57) then Some (c - 48)
  else if (97 <=? c) && (c <=? 102) then Some (c - 87)
  else if (65 <=? c) && (c <=? 70) then Some (c - 55)
  else None.

(** The loop of [parse] over the characters that are not hyphens. *)
Fixpoint parse_digits (characters : text) (bs : bytes) (digits : nat) : Res UserIdError (bytes * nat) :=
  match characters with
  | [] => Ok (bs, digits)
  | character :: characters =>
      value ← ok_or Digit (to_digit16 character);
      if (32 <=? digits)%nat then Err (Length (digits + 1)) else
      let shifted := wrap 8 (Z.shiftl value (if (digits mod 2 =? 0)%nat then 4 else 0)) in
      old ← or_panic (bs !! (digits / 2)%nat);
      parse_digits characters (<[(digits / 2)%nat := Z.lor old shifted]> bs) (digits + 1)
  end.

Definition UserId_parse (t : text) : Res UserIdError UserId :=
  '(bs, digits) ← parse_digits (filter (fun c => c <> HYPHEN) t) (replicate 16 0) 0;
  if negb (digits =? 32)%nat then Err (Length digits) else Ok bs.

(** [{:x}] of one nibble, and [{:02x}] of a byte. *)
Definition hex_digit (v : Z) : Z := if v <? 10 then 48 + v else 87 + v.
Definition hex_byte (b : Z) : text := [hex_digit (b / 16); hex_digit (b mod 16)].

Definition UserId_fmt (id : UserId) : text :=
  concat (imap (fun index byte =>
    (if bool_decide (index ∈ [4; 6; 8; 10]%nat) then [HYPHEN] else []) ++ hex_byte byte) id).

(** ** Addresses, requests and responses *)

Definition encode_addr_port (target : Target) (out : bytes) : bytes :=
  let out := Writer_u16 (Target_port target) out in
  match target with
  | Ip (mkEndpoint (V4 ip) _) => Writer_bytes ip (Writer_u8 ATYP_IPV4 out)
  | Ip (mkEndpoint (V6 ip) _) => Writer_bytes ip (Writer_u8 ATYP_IPV6 out)
  | Domain host _ => Writer_vector_u8 host (Writer_u8 ATYP_DOMAIN out)
  end.

Definition decode_addr_port (bs : bytes) : Res ProxyError (Decoded Target) :=
  match '(port, reader) ← Reader_u16 (Reader_new bs); '(atyp, reader) ← Reader_u8 reader; Some (port, atyp, reader) with
  | None => Ok Incomplete
  | Some (port, atyp, reader) =>
      '(family, body) ←
        (if atyp =? ATYP_IPV4 then Ok (FamilyV4, Reader_take reader 4)
         else if atyp =? ATYP_IPV6 then Ok (FamilyV6, Reader_take reader 16)
         else if atyp =? ATYP_DOMAIN then Ok (FamilyDomain, Reader_vector_u8 reader)
         else Err Address);
      match body with
      | None => Ok Incomplete
      | Some (body, reader) =>
          target ← target_of_body family body port;
          Ok (Complete target (Reader_position reader))
      end
  end.

Definition request (user : UserId) (target : Target) (command : Z) (out : bytes) : bytes :=
  encode_addr_port target (Writer_u8 command (Writer_u8 0 (Writer_bytes user (Writer_u8 VERSION out)))).

Definition encode_request (user : UserId) (target : Target) (out : bytes) : bytes :=
  request user target COMMAND_TCP out.

Definition encode_datagram_request (user : UserId) (target : Target) (out : bytes) : bytes :=
  request user target COMMAND_UDP out.

Definition decode_response (bs : bytes) : Res ProxyError (Decoded unit) :=
  match Reader_u8 (Reader_new bs) with
  | None => Ok Incomplete
  | Some (version, reader) =>
      if negb (version =? VERSION) then Err (Version version) else
      match Reader_vector_u8 reader with
      | None => Ok Incomplete
      | Some (_, reader) => Ok (Complete tt (Reader_position reader))
      end
  end.

(** ** The stream *)

Record ResponseHeader := mkResponseHeader { stripped : bool }.

Definition ResponseHeader_decode (this : ResponseHeader) (input out : bytes) : Res ProxyError Decode * ResponseHeader * bytes :=
  if stripped this then (Ok (Transparent input), this, out) else
  match decode_response input with
  | Ok (Complete _ consumed) =>
      let this := mkResponseHeader true in
      match get_from input consumed with
      | None => (Err Header, this, out)
      | Some rest => (Ok (Transparent rest), this, out)
      end
  | Ok Incomplete => (Ok (Framed_ input), this, out)
  | Err e => (Err e, this, out)
  | Panic => (Panic, this, out)
  end.

#[global] Instance ResponseHeader_codec : Codec ResponseHeader := {|
  decode := ResponseHeader_decode;
  encode := unframed;
  max_payload := fun _ => None;
  writes := fun _ => WritesVerbatim;
|}.

(** ** Datagrams *)

Definition LENGTH_PREFIX : nat := 2.
Definition MAX_FRAME : nat := 8192 - LENGTH_PREFIX.
Definition INBOUND_DEPTH : nat := 64.

(** The frame [send_to] writes, or its refusal. *)
Definition send_frame {W} (payload : bytes) : Res (EgressError W) bytes :=
  if (MAX_FRAME <? length payload)%nat then Err (DatagramTooLarge (length payload))
  else Ok (be_bytes 2 (wrap 16 (Z.of_nat (length payload))) ++ payload).

(** The frames at the front of what is held, and the rest of it. *)
Fixpoint take_frames (fuel : nat) (held : bytes) : Res ProxyError (list bytes * bytes) :=
  match fuel with
  | O => Panic
  | S fuel =>
      match Reader_u16 (Reader_new held) with
      | None => Ok ([], held)
      | Some (length_, _) =>
          let len := Z.to_nat length_ in
          if (length held <? LENGTH_PREFIX + len)%nat then Ok ([], held) else
          let payload := take len (drop LENGTH_PREFIX held) in
          '(frames, held) ← take_frames fuel (drop (LENGTH_PREFIX + len) held);
          Ok (if (0 <? len)%nat then payload :: frames else frames, held)
      end
  end.

(** The channel's sender: a full or a closed one drops the datagram. *)
Record Inbound := mkInbound { in_queue : list (bytes * Target); in_closed : bool }.

Definition try_send (i : Inbound) (m : bytes * Target) : Inbound :=
  if in_closed i || (INBOUND_DEPTH <=? length (in_queue i))%nat then i
  else mkInbound (in_queue i ++ [m]) (in_closed i).

(** One read of [read_datagrams]: what is held and whether the header is gone, or the
    end of the task. *)
Definition read_step (held : bytes) (header : bool) (chunk : bytes) : option (bytes * bool * list bytes) :=
  let held := held ++ chunk in
  let frames header held :=
    match take_frames (S (length held)) held with
    | Ok (frames, held) => Some (held, header, frames)
    | _ => None
    end in
  if header then frames true held else
  match decode_response held with
  | Ok (Complete _ consumed) => frames true (drop consumed held)
  | Ok Incomplete => Some (held, false, [])
  | Err _ | Panic => None
  end.

(** What the task gives to [try_send], in order.  [cancel] is how many reads it makes
    before it sees the association dropped. *)
Fixpoint read_datagrams (fuel : nat) (cancel : option nat) (s : Script) (held : bytes) (header : bool) : list bytes :=
  match fuel, cancel with
  | O, _ | _, Some O => []
  | S fuel, _ =>
      match await_read s MAX_FRAME with
      | (Ok [], _) | (Err _, _) | (Panic, _) => []
      | (Ok chunk, s) =>
          match read_step held header chunk with
          | None => []
          | Some (held, header, frames) => frames ++ read_datagrams fuel (pred <$> cancel) s held header
          end
      end
  end.

(** The association's source, for a buffer of [room] bytes: [None] is a channel whose
    senders are gone. *)
Definition recv_reply {W} (received : option (bytes * Target)) (room : nat) : Res (EgressError W) (bytes * Target) :=
  '(payload, from) ← ok_or (Io BrokenPipe) received;
  if (room <? length payload)%nat then Err (DatagramTooLarge (length payload)) else Ok (payload, from).

(** * User IDs *)

Lemma hex_digit_not_hyphen v : 0 <= v < 16 -> hex_digit v <> HYPHEN.
Proof. intros. unfold hex_digit, HYPHEN. destruct (v <? 10) eqn:E; reflect; lia. Qed.

Lemma to_digit16_hex v : 0 <= v < 16 -> to_digit16 (hex_digit v) = Some v.
Proof.
  intros Hv. unfold hex_digit, to_digit16. destruct (v <? 10) eqn:E; reflect.
  - rewrite !(proj2 (Z.leb_le _ _)) by lia. cbn. f_equal. lia.
  - rewrite (proj2 (Z.leb_gt (87 + v) 57)), !(proj2 (Z.leb_le _ _)) by lia. cbn. f_equal. lia.
Qed.

Lemma nibbles b : byte_ok b ->
  wrap 8 (Z.shiftl (b / 16) 4) = b / 16 * 16 /\ Z.lor (b / 16 * 16) (wrap 8 (Z.shiftl (b mod 16) 0)) = b.
Proof.
  intros Hb. unfold uint_ok in Hb. assert (forallb (fun b => (wrap 8 (Z.shiftl (b / 16) 4) =? b / 16 * 16) &&
    (Z.lor (b / 16 * 16) (wrap 8 (Z.shiftl (b mod 16) 0)) =? b)) (seqZ 0 256) = true) as H by (vm_compute; reflexivity).
  rewrite forallb_forall in H. specialize (H b). rewrite <- list_elem_of_In, elem_of_seqZ in H.
  specialize (H ltac:(lia)). by reflect.
Qed.

Lemma parse_digits_hex post : forall pre,
  bytes_ok post -> (length pre + length post <= 16)%nat ->
  parse_digits (concat (hex_byte <$> post)) (pre ++ replicate (length post) 0) (2 * length pre) =
    Ok (pre ++ post, (2 * (length pre + length post))%nat).
Proof.
  induction post as [|b post IH]; intros pre Hb Hl.
  { cbn. by rewrite !Nat.add_0_r. }
  apply Forall_cons in Hb as [Hb Hbs]. cbn [length] in Hl. destruct (nibbles b Hb) as [Hhi Hlo]. unfold uint_ok in Hb.
  cbn [fmap list_fmap concat hex_byte app parse_digits length replicate].
  rewrite !to_digit16_hex by first [apply Z.mod_pos_bound; lia|split; [apply Z.div_pos; lia|apply Z.div_lt_upper_bound; lia]].
  cbn [ok_or mbind Res_bind]. rewrite !(proj2 (Nat.leb_gt _ _)) by lia.
  assert (2 * length pre mod 2 = 0 /\ 2 * length pre / 2 = length pre /\
    (2 * length pre + 1) mod 2 = 1 /\ (2 * length pre + 1) / 2 = length pre)%nat as (-> & -> & -> & ->).
  { rewrite (Nat.mul_comm 2), Nat.Div0.mod_mul, Nat.div_mul, (Nat.add_comm _ 1), Nat.Div0.mod_add, Nat.div_add by lia. done. }
  cbn [Nat.eqb]. rewrite lookup_app_r, Nat.sub_diag by lia. cbn [lookup list_lookup or_panic mbind Res_bind].
  rewrite Hhi, insert_app_r_alt, Nat.sub_diag by lia. cbn [insert list_insert].
  rewrite lookup_app_r, Nat.sub_diag by lia. cbn [lookup list_lookup or_panic mbind Res_bind].
  rewrite insert_app_r_alt, Nat.sub_diag by lia. cbn [insert list_insert]. rewrite Z.lor_0_l, Hlo.
  specialize (IH (pre ++ [b]) Hbs). rewrite length_app, <- !(assoc_L (++)) in IH. cbn [length app] in IH.
  replace (2 * length pre + 1 + 1)%nat with (2 * (length pre + 1))%nat by lia. rewrite IH by lia. do 2 f_equal. lia.
Qed.

Lemma filter_hyphens (sep : nat -> text) (id : bytes) :
  (forall i, Forall (eq HYPHEN) (sep i)) -> bytes_ok id ->
  filter (fun c => c <> HYPHEN) (concat (imap (fun i b => sep i ++ hex_byte b) id)) = concat (hex_byte <$> id).
Proof.
  intros Hsep Hid. revert sep Hsep. induction Hid as [|b id Hb _ IH]; intros sep Hsep; [done|].
  cbn [imap fmap list_fmap concat]. rewrite !filter_app. specialize (IH (fun i => sep (S i)) (fun i => Hsep (S i))).
  unfold compose. rewrite IH. unfold uint_ok in Hb.
  assert (filter (fun c => c <> HYPHEN) (sep 0%nat) = []) as ->.
  { specialize (Hsep 0%nat). induction Hsep as [|c l <- _ IHl]; [done|]. rewrite filter_cons_False; [done|]. intros Hn. by apply Hn. }
  cbn [app]. f_equal. unfold hex_byte. rewrite !filter_cons_True; [done|..]; apply hex_digit_not_hyphen;
    first [apply Z.mod_pos_bound; lia|split; [apply Z.div_pos; lia|apply Z.div_lt_upper_bound; lia]].
Qed.

(** A user ID survives its text form: the canonical 8-4-4-4-12 text of sixteen bytes,
    and the same digits without hyphens, parse back to those bytes. *)
Theorem user_id_roundtrip id :
  bytes_ok id -> length id = 16%nat ->
  UserId_parse (UserId_fmt id) = Ok id /\ UserId_parse (concat (hex_byte <$> id)) = Ok id.
Proof.
  intros Hb Hl. assert (filter (fun c => c <> HYPHEN) (concat (hex_byte <$> id)) = concat (hex_byte <$> id)) as Hplain.
  { pose proof (filter_hyphens (fun _ => []) id) as Hf. cbn [app] in Hf.
    replace (imap (fun _ b => hex_byte b) id) with (hex_byte <$> id) in Hf by (clear; induction id; [done|]; cbn; by f_equal).
    apply Hf; [done|done]. }
  pose proof (parse_digits_hex id [] Hb) as Hp. cbn [length app Nat.add] in Hp. rewrite Hl in Hp. specialize (Hp ltac:(lia)). change (2 * 0)%nat with 0%nat in Hp.
  unfold UserId_parse. split.
  - unfold UserId_fmt. rewrite (filter_hyphens (fun i => if bool_decide (i ∈ [4; 6; 8; 10]%nat) then [HYPHEN] else [])); [|intros i; case_match; by repeat constructor|done].
    by rewrite Hp.
  - by rewrite Hplain, Hp.
Qed.

Lemma user_id_roundtrip_witness :
  UserId_parse (UserId_fmt (seqZ 240 16)) = Ok (seqZ 240 16) /\ UserId_parse (concat (hex_byte <$> seqZ 240 16)) = Ok (seqZ 240 16).
Proof. apply (user_id_roundtrip (seqZ 240 16)); [by repeat constructor|reflexivity]. Defined.

(** * Addresses *)

Definition family_of (atyp : Z) : option Family :=
  if atyp =? ATYP_IPV4 then Some FamilyV4
  else if atyp =? ATYP_IPV6 then Some FamilyV6
  else if atyp =? ATYP_DOMAIN then Some FamilyDomain
  else None.

Lemma decode_addr_port_family bs :
  decode_addr_port bs =
  match Reader_u16 (Reader_new bs) with
  | None => Ok Incomplete
  | Some (port, reader) =>
      match Reader_u8 reader with
      | None => Ok Incomplete
      | Some (atyp, reader) =>
          match family_of atyp with
          | None => Err Address
          | Some family =>
              match address_body family reader with
              | None => Ok Incomplete
              | Some (body, reader) => target ← target_of_body family body port; Ok (Complete target (Reader_position reader))
              end
          end
      end
  end.
Proof.
  unfold decode_addr_port, family_of. destruct (Reader_u16 _) as [[port r1]|]; [|done]. cbn [mbind option_bind].
  destruct (Reader_u8 r1) as [[atyp r2]|]; [|done]. cbn [mbind option_bind]. repeat (destruct (atyp =? _); [done|]). done.
Qed.

Lemma decode_addr_port_wire family atyp wire body p more target :
  family_of atyp = Some family -> u16_ok p ->
  address_body family (mkReader ((be_bytes 2 p ++ [atyp]) ++ wire ++ more) 3) =
    Some (body, mkReader ((be_bytes 2 p ++ [atyp]) ++ wire ++ more) (3 + length wire)) ->
  target_of_body family body p = Ok target ->
  decode_addr_port (be_bytes 2 p ++ atyp :: wire ++ more) = Ok (Complete target (3 + length wire)%nat).
Proof.
  intros Hf Hp Hb Ht. rewrite decode_addr_port_family. rewrite <- (assoc_L (++)) in Hb. cbn [app] in Hb.
  unfold Reader_u16, Reader_u8. pose proof (Reader_uint_app 2 [] p (atyp :: wire ++ more)) as Hu. cbn [app length] in Hu.
  unfold Reader_new. rewrite Hu by done.
  assert (Reader_uint 1 (mkReader (be_bytes 2 p ++ atyp :: wire ++ more) (0 + 2))
    = Some (atyp, mkReader (be_bytes 2 p ++ atyp :: wire ++ more) 3)) as ->.
  { unfold Reader_uint, Reader_array, Reader_rest. cbn [r_bytes r_at be_bytes app Nat.add drop].
    cbn. by rewrite take_0. }
  rewrite Hf, Hb. by rewrite Ht.
Qed.

Lemma addr_port_roundtrip target more :
  target_ok target ->
  decode_addr_port (encode_addr_port target [] ++ more) = Ok (Complete target (length (encode_addr_port target []))).
Proof.
  intros [Hport Ht]. unfold encode_addr_port, Writer_vector_u8, Writer_u16, Writer_bytes, Writer_u8.
  assert (forall wire atyp p, length (be_bytes 2 p ++ atyp :: wire) = 3 + length wire)%nat as Hlen.
  { intros. rewrite length_app, length_be_bytes. cbn. lia. }
  destruct target as [[[ip|ip] p]|host p]; cbn [Target_port port address app] in *; rewrite <- !(assoc_L (++)); cbn [app].
  - destruct Ht as [_ Hl]. cbn in Hl. rewrite Hlen. apply (decode_addr_port_wire FamilyV4 _ ip ip p more); try done.
    + by apply (address_body_take _ (be_bytes 2 p ++ [ATYP_IPV4]) _ _ 4); auto.
    + apply (target_of_ip FamilyV4 ip p 4); auto.
  - destruct Ht as [_ Hl]. cbn in Hl. rewrite Hlen. apply (decode_addr_port_wire FamilyV6 _ ip ip p more); try done.
    + by apply (address_body_take _ (be_bytes 2 p ++ [ATYP_IPV6]) _ _ 16); auto.
    + apply (target_of_ip FamilyV6 ip p 16); auto.
  - rewrite Hlen. set (wire := wrap 8 (Z.of_nat (length host)) :: host).
    apply (decode_addr_port_wire FamilyDomain _ wire host p more); try done.
    + apply (address_body_domain (be_bytes 2 p ++ [ATYP_DOMAIN])). destruct Ht. lia.
    + by apply target_of_domain.
Qed.

(** * The response header *)

Lemma decode_response_stable : stable decode_response 257.
Proof.
  unfold decode_response, Reader_u8. split.
  - intros i. destruct (Reader_uint 1 _) as [[v r]|]; [|done]. case_match; [done|]. by destruct (Reader_vector_u8 r) as [[? ?]|].
  - intros i more v n. rewrite Reader_extend_new. destruct (Reader_uint 1 _) as [[ver r]|] eqn:E1; [|done].
    rewrite (Reader_uint_extend _ _ _ _ more E1). case_match; [done|].
    destruct (Reader_vector_u8 r) as [[a r']|] eqn:E2; [|done]. rewrite (Reader_vector_u8_extend _ _ _ more E2).
    intros [= <- <-]. split; [|done]. apply Reader_uint_ok in E1 as (H1 & _ & B1); [|apply reader_new_ok].
    apply (address_body_ok FamilyDomain) in E2 as (H2 & B2 & _); [|done]. unfold reader_ok in H2. rewrite B2, B1 in H2. exact H2.
  - intros i more e. rewrite Reader_extend_new. destruct (Reader_uint 1 _) as [[ver r]|] eqn:E1; [|done].
    rewrite (Reader_uint_extend _ _ _ _ more E1). case_match; [done|]. by destruct (Reader_vector_u8 r) as [[? ?]|].
  - intros i Hb Hl. destruct (Reader_uint 1 _) as [[ver r]|] eqn:E1.
    2:{ apply Reader_uint_None in E1; [cbn in E1; lia|apply reader_new_ok]. }
    apply Reader_uint_ok in E1 as (H1 & A1 & B1); [|apply reader_new_ok]. cbn in A1, B1. case_match; [done|].
    destruct (Reader_vector_u8 r) as [[a r']|] eqn:E2; [done|].
    rewrite <- B1 in Hb. apply (address_body_None FamilyDomain) in E2; [|done|done]. rewrite B1 in E2. lia.
Qed.

Lemma response_rest input v n : decode_response input = Ok (Complete v n) -> get_from input n = Some (drop n input).
Proof.
  intros E. destruct (st_complete _ _ decode_response_stable input [] v n E) as [Hn _]. unfold get_from. by rewrite (proj2 (Nat.leb_le _ _)).
Qed.

#[global] Instance ResponseHeader_laws : CodecLaws ResponseHeader.
Proof.
  pose proof decode_response_stable as [Ht Hc He Hb].
  split; cbn [decode ResponseHeader_codec]; unfold ResponseHeader_decode; intros [[]]; cbn [stripped].
  - done.
  - intros input out. specialize (Ht input). destruct (decode_response input) as [[]| |]; try done. by destruct (get_from _ _).
  - intros. by rewrite app_nil_r.
  - intros input out. destruct (decode_response input) as [[]| |]; try destruct (get_from _ _); by rewrite app_nil_r.
  - intros input d c' o [= <- _ _]. done.
  - intros input d c' o. destruct (decode_response input) as [[|v n]| |] eqn:E; try done.
    + by intros [= <- _ _].
    + rewrite (response_rest _ _ _ E). intros [= <- _ _]. cbn. apply suffix_drop.
  - by eexists _, _.
  - by eexists _, _.
  - done.
  - intros input c' o. destruct (decode_response input) as [[|v n]| |] eqn:E; try done.
    + by intros [= <- <-].
    + by rewrite (response_rest _ _ _ E).
  - done.
  - intros input rest c' o more. destruct (decode_response input) as [[|v n]| |] eqn:E; try done.
    + intros [= <- _ _]. lia.
    + by rewrite (response_rest _ _ _ E).
  - by intros input rest c' o more [= <- <- <-].
  - intros input rest c' o more. destruct (decode_response input) as [[|v n]| |] eqn:E; try done.
    rewrite (response_rest _ _ _ E). intros [= <- <- <-]. destruct (Hc input more v n E) as [Hn E']. rewrite E', (response_rest _ _ _ E').
    by rewrite drop_app_le.
  - done.
  - intros input e c' o more. destruct (decode_response input) as [[|v n]|e'|] eqn:E; try done.
    + by rewrite (response_rest _ _ _ E).
    + intros [= <- _ _]. rewrite (He input more e' E). by eexists _, _.
Qed.

(** What a server answers before the target's bytes. *)
Definition response (addons : bytes) : bytes := Writer_vector_u8 addons (Writer_u8 VERSION []).

Lemma response_decodes addons more :
  (length addons <= 255)%nat ->
  decode_response (response addons ++ more) = Ok (Complete tt (length (response addons))).
Proof.
  intros Hl. unfold response, Writer_vector_u8, Writer_u8, Writer_bytes, decode_response. cbn [app].
  pose proof (address_body_domain [VERSION] addons more Hl) as Hb. cbn [app length address_body] in Hb.
  change (Reader_u8 (Reader_new ?l)) with (Some (VERSION, mkReader l 1)). cbv beta iota.
  change (negb (VERSION =? VERSION)) with false. cbv iota. rewrite Hb. reflexivity.
Qed.

(** A VLESS stream gives its reader exactly the target's bytes: whatever pieces the
    server's response header and the bytes behind it arrive in, and whatever the sizes
    of the reads, the header is stripped once and no byte of the payload is lost or added:
    a reader that has not met the end has a prefix of it, and one that has got all
    of it. *)
Theorem vless_reads inner addons payload rooms :
  script_ok (in_reads inner) -> (forall kind, ReadFails kind ∉ in_reads inner) -> Forall (fun room => 0 < room)%nat rooms ->
  (length addons <= 255)%nat -> arriving (in_reads inner) = response addons ++ payload ->
  exists got ended this', read_all rooms (Framed_new inner (mkResponseHeader false)) = Some (got, ended, this') /\
  match ended with
  | More => got `prefix_of` payload /\ (length rooms <= length payload + waits (in_reads inner))%nat
  | End_ => got = payload
  | Broken kind => False
  end.
Proof.
  intros Hs Hnf Hrooms Hl Harr. pose proof (framed_reads inner (mkResponseHeader false) [] rooms Hs Hnf Hrooms) as Hr.
  assert (decode (mkResponseHeader false) (response addons) [] = (Ok (Transparent []), mkResponseHeader true, [])) as Hd.
  { cbn [decode ResponseHeader_codec]. unfold ResponseHeader_decode. cbn [stripped]. pose proof (response_decodes addons [] Hl) as Hd. rewrite app_nil_r in Hd.
    rewrite Hd, (response_rest _ _ _ Hd), drop_all. done. }
  cbn [app] in Hr. rewrite Harr, (plaintext_transparent _ _ _ _ _ payload Hd) in Hr. cbn [app] in Hr.
  destruct Hr as (got & ended & this' & Hread & Hg). exists got, ended, this'. split; [exact Hread|].
  destruct ended; [done|by destruct Hg|by destruct Hg as (_ & _ & [])].
Qed.

(** * Datagrams *)

Definition deframe (held : bytes) : Res ProxyError (list bytes * bytes) := take_frames (S (length held)) held.

Lemma take_frames_enough fuel : forall fuel' held,
  (length held < fuel)%nat -> (length held < fuel')%nat -> take_frames fuel held = take_frames fuel' held.
Proof.
  induction fuel as [|fuel IH]; intros [|fuel'] held Hf Hf'; [lia..|]. cbn [take_frames].
  destruct (Reader_u16 _) as [[len r]|]; [|done]. destruct (_ <? _)%nat eqn:E; [done|]. reflect.
  rewrite (IH fuel' (drop (LENGTH_PREFIX + Z.to_nat len) held)); [done|..]; rewrite length_drop; unfold LENGTH_PREFIX in *; lia.
Qed.

(** The first frame and the rest. *)
Lemma deframe_unfold held :
  deframe held =
  match Reader_u16 (Reader_new held) with
  | None => Ok ([], held)
  | Some (length_, _) =>
      let len := Z.to_nat length_ in
      if (length held <? LENGTH_PREFIX + len)%nat then Ok ([], held) else
      '(frames, rest) ← deframe (drop (LENGTH_PREFIX + len) held);
      Ok (if (0 <? len)%nat then take len (drop LENGTH_PREFIX held) :: frames else frames, rest)
  end.
Proof.
  unfold deframe at 1. cbn [take_frames]. destruct (Reader_u16 _) as [[len r]|]; [|done]. cbn zeta.
  destruct (_ <? _)%nat eqn:E; [done|]. reflect. unfold deframe.
  rewrite (take_frames_enough (length held) (S (length (drop (LENGTH_PREFIX + Z.to_nat len) held)))); [done| |lia].
  rewrite length_drop. unfold LENGTH_PREFIX in *. lia.
Qed.

(** More bytes only add frames behind those there already. *)
Lemma deframe_app n : forall held, (length held < n)%nat ->
  exists frames rest, deframe held = Ok (frames, rest) /\ deframe rest = Ok ([], rest) /\
    forall more, deframe (held ++ more) = '(frames', rest') ← deframe (rest ++ more); Ok (frames ++ frames', rest').
Proof.
  induction n as [|n IH]; intros held Hn; [lia|]. rewrite (deframe_unfold held).
  assert (forall more, deframe (held ++ more) = '(frames', rest') ← deframe (held ++ more); Ok ([] ++ frames', rest')) as Hid.
  { intros more. by destruct (deframe (held ++ more)) as [[? ?]| |]. }
  destruct (Reader_u16 (Reader_new held)) as [[len r]|] eqn:E.
  2:{ exists [], held. split_and!; [done|by rewrite deframe_unfold, E|done]. }
  cbn zeta. destruct (_ <? _)%nat eqn:El; reflect.
  { exists [], held. split_and!; [done| |done]. rewrite deframe_unfold, E. cbn zeta. by rewrite (proj2 (Nat.ltb_lt _ _)). }
  destruct (IH (drop (LENGTH_PREFIX + Z.to_nat len) held)) as (fs & rest & -> & Hrest & Hmore).
  { rewrite length_drop. unfold LENGTH_PREFIX in *. lia. }
  eexists _, rest. split; [done|]. split; [done|]. intros more.
  rewrite deframe_unfold, Reader_extend_new. unfold Reader_u16 in *. rewrite (Reader_uint_extend _ _ _ _ more E). cbn zeta.
  rewrite (proj2 (Nat.ltb_ge _ _)) by (rewrite length_app; lia). rewrite (drop_app_le _ _ (LENGTH_PREFIX + Z.to_nat len)), Hmore by lia.
  destruct (deframe (rest ++ more)) as [[fs' rest']| |]; [|done|done]. cbn [mbind Res_bind].
  rewrite (drop_app_le _ _ LENGTH_PREFIX), take_app_le by (rewrite ?length_drop; unfold LENGTH_PREFIX in *; lia).
  by destruct (0 <? Z.to_nat len)%nat.
Qed.

Lemma deframe_ok held : exists frames rest, deframe held = Ok (frames, rest).
Proof. destruct (deframe_app _ held (Nat.lt_succ_diag_r _)) as (fs & rest & -> & _). by eexists _, _. Qed.

(** The datagrams of a stream whose first bytes were [whole]. *)
Definition offers (header : bool) (whole : bytes) : list bytes :=
  let frames bs := match deframe bs with Ok (frames, _) => frames | _ => [] end in
  if header then frames whole else
  match decode_response whole with
  | Ok (Complete _ consumed) => frames (drop consumed whole)
  | _ => []
  end.

(** What is held between reads is no whole frame, and no whole header. *)
Definition settled (held : bytes) (header : bool) : Prop :=
  if header then deframe held = Ok ([], held) else decode_response held = Ok Incomplete.

Lemma read_step_ok held header chunk :
  settled held header ->
  match read_step held header chunk with
  | None => forall more, offers header (held ++ chunk ++ more) = []
  | Some (held', header', frames) => settled held' header' /\
      forall more, offers header (held ++ chunk ++ more) = frames ++ offers header' (held' ++ more)
  end.
Proof.
  intros Hset. unfold read_step. destruct header.
  - fold (deframe (held ++ chunk)). destruct (deframe_app _ (held ++ chunk) (Nat.lt_succ_diag_r _)) as (fs & rest & -> & Hrest & Hmore).
    split; [done|]. intros more. unfold offers. rewrite (assoc_L (++)), Hmore. by destruct (deframe_ok (rest ++ more)) as (? & ? & ->).
  - pose proof decode_response_stable as [Ht Hc He _]. specialize (Ht (held ++ chunk)).
    destruct (decode_response (held ++ chunk)) as [[|v n]|e|] eqn:E; [| | |done].
    + split; [done|]. intros more. cbn [app]. by rewrite (assoc_L (++)).
    + fold (deframe (drop n (held ++ chunk))).
      destruct (deframe_app _ (drop n (held ++ chunk)) (Nat.lt_succ_diag_r _)) as (fs & rest & -> & Hrest & Hmore).
      split; [done|]. intros more. destruct (Hc _ more v n E) as [Hn E']. unfold offers. rewrite (assoc_L (++)), E', drop_app_le, Hmore by done.
      by destruct (deframe_ok (rest ++ more)) as (? & ? & ->).
    + intros more. unfold offers. by rewrite (assoc_L (++)), (He _ more e E).
Qed.

Lemma settled_offers held header : settled held header -> offers header held = [].
Proof. unfold settled, offers. destruct header; by intros ->. Qed.

Lemma MAX_FRAME_eq : Z.of_nat MAX_FRAME = 8190.
Proof. vm_compute. reflexivity. Qed.

Lemma read_datagrams_ok fuel : forall s held header,
  settled held header -> script_ok s -> (forall kind, ReadFails kind ∉ s) -> (length (arriving s) < fuel)%nat ->
  read_datagrams fuel None s held header = offers header (held ++ arriving s).
Proof.
  induction fuel as [|fuel IH]; intros s held header Hset Hs Hnf Hf; [lia|]. cbn [read_datagrams].
  destruct (await_read_ok s MAX_FRAME Hs) as (chunk & s' & -> & Hs' & Harr & Heof & Hnf'); [pose proof MAX_FRAME_eq; lia|done|].
  destruct chunk as [|b chunk].
  { rewrite (Heof eq_refl), app_nil_r. by rewrite settled_offers. }
  pose proof (read_step_ok held header (b :: chunk) Hset) as Hst. rewrite Harr.
  destruct (read_step held header (b :: chunk)) as [[[held' header'] frames]|]; [|by rewrite Hst].
  destruct Hst as [Hset' Hoff]. rewrite Hoff. f_equal. cbn [fmap option_fmap option_map]. apply IH; try done.
  rewrite Harr, length_app in Hf. cbn [length] in Hf. lia.
Qed.

Lemma send_frame_some {W} payload frame :
  send_frame payload = (Ok frame : Res (EgressError W) bytes) ->
  (length payload <= MAX_FRAME)%nat /\ frame = be_bytes 2 (Z.of_nat (length payload)) ++ payload.
Proof.
  unfold send_frame. destruct (_ <? _)%nat eqn:E; [done|]. reflect. intros [= <-]. split; [done|].
  pose proof MAX_FRAME_eq. replace (wrap 16 (Z.of_nat (length payload))) with (Z.of_nat (length payload)); [done|].
  symmetry. apply Z.mod_small. lia.
Qed.

Lemma deframe_frame {W} payload frame more :
  send_frame payload = (Ok frame : Res (EgressError W) bytes) ->
  deframe (frame ++ more) = '(frames, rest) ← deframe more; Ok (if decide (payload <> []) then payload :: frames else frames, rest).
Proof.
  intros [Hl ->]%send_frame_some. rewrite deframe_unfold. unfold Reader_u16.
  pose proof (Reader_uint_app 2 [] (Z.of_nat (length payload)) (payload ++ more)) as Hu. cbn [app length] in Hu.
  rewrite <- (assoc_L (++)). unfold Reader_new. rewrite Hu by (pose proof MAX_FRAME_eq; cbn; lia). cbn zeta. rewrite Nat2Z.id.
  rewrite (proj2 (Nat.ltb_ge _ _)) by (rewrite !length_app, length_be_bytes; unfold LENGTH_PREFIX; lia).
  assert (drop LENGTH_PREFIX (be_bytes 2 (Z.of_nat (length payload)) ++ payload ++ more) = payload ++ more) as Hd by done.
  rewrite <- drop_drop, Hd, drop_app_length, take_app_length. destruct (deframe more) as [[fs rest]| |]; [|done|done].
  cbn [mbind Res_bind]. destruct payload; [by rewrite decide_False by (intros []; done)|by rewrite decide_True].
Qed.

(** Datagrams sent to a VLESS destination are read back one by one: when the peer's
    stream is a response header and the frames [send_to] writes for some payloads, with
    at most an unfinished frame behind them, then in whatever pieces it arrives the reader
    hands over exactly the non-empty payloads, whole and in order. *)
Theorem vless_datagrams {W : Type} addons payloads frames tail s :
  script_ok s -> (forall kind, ReadFails kind ∉ s) -> (length addons <= 255)%nat ->
  Forall2 (fun payload frame => send_frame payload = (Ok frame : Res (EgressError W) bytes)) payloads frames ->
  deframe tail = Ok ([], tail) ->
  arriving s = response addons ++ concat frames ++ tail ->
  read_datagrams (S (length (arriving s))) None s [] false = filter (fun payload => payload <> []) payloads.
Proof.
  intros Hs Hnf Hl Hfs Htail Harr. rewrite read_datagrams_ok; [|done|done|done|lia]. cbn [app]. rewrite Harr.
  unfold offers. rewrite response_decodes, drop_app_length by done.
  assert (deframe (concat frames ++ tail) = Ok (filter (fun payload => payload <> []) payloads, tail)) as ->; [|done].
  clear Harr. induction Hfs as [|p f payloads frames Hf _ IH]; [done|].
  cbn [concat]. rewrite <- (assoc_L (++)), (deframe_frame _ _ _ Hf), IH. cbn [mbind Res_bind].
  destruct (decide (p <> [])) as [Hp|Hp]; [by rewrite filter_cons_True|by rewrite filter_cons_False].
Qed.

(** A response with an addon block split across reads. *)
Definition sample_script : Script := [Arrives [0]; ReadPending; Arrives [2; 9]; Arrives [9; 0; 3; 1]; ReadPending; Arrives [2; 3; 0; 0; 0; 1; 7; 0]].

Lemma sample_script_ok : script_ok sample_script /\ forall kind, ReadFails kind ∉ sample_script.
Proof.
  split; [by repeat constructor|]. intros kind Hk. by repeat (apply elem_of_cons in Hk as [Hk|Hk]; [done|]); apply not_elem_of_nil in Hk.
Qed.

Lemma vless_reads_witness :
  exists got ended this',
    read_all [1; 64; 64; 64; 64; 64; 64]%nat (Framed_new (mkInner sample_script [] []) (mkResponseHeader false)) = Some (got, ended, this') /\
  match ended with
  | More => got `prefix_of` [0; 3; 1; 2; 3; 0; 0; 0; 1; 7; 0] /\ (7 <= length [0; 3; 1; 2; 3; 0; 0; 0; 1; 7; 0] + waits sample_script)%nat
  | End_ => got = [0; 3; 1; 2; 3; 0; 0; 0; 1; 7; 0]
  | Broken kind => False
  end.
Proof.
  apply (vless_reads (mkInner sample_script [] []) [9; 9] [0; 3; 1; 2; 3; 0; 0; 0; 1; 7; 0] [1; 64; 64; 64; 64; 64; 64]%nat).
  - apply sample_script_ok.
  - apply sample_script_ok.
  - by repeat constructor; lia.
  - cbn. lia.
  - reflexivity.
Defined.

Lemma vless_datagrams_witness :
  read_datagrams (S (length (arriving sample_script))) None sample_script [] false = [[1; 2; 3]; [7]].
Proof.
  apply (vless_datagrams (W := unit) [9; 9] [[1; 2; 3]; []; [7]] [[0; 3; 1; 2; 3]; [0; 0]; [0; 1; 7]] [0] sample_script).
  - apply sample_script_ok.
  - apply sample_script_ok.
  - cbn. lia.
  - by repeat constructor.
  - reflexivity.
  - reflexivity.
Defined.
