(* ===== verification/Shadowsocks.v ===== *)
(** Shadowsocks 2022 streams ([src/egress/shadowsocks.rs]): keys and sessions, the
    request, and the codec that seals and opens chunks.

    The ciphers belong to the ring crate and the key derivation to blake3: both are
    the class [Aead], and what the protocol relies on of them is [AeadLaws]. *)

From S2P Require Import Prelude Wire Net Plan Pool Egress Sansio Framed Socks5.
Open Scope Z_scope.

Definition SUBKEY_CONTEXT : bytes := String.list_byte_of_string "shadowsocks 2022 session subkey" ≫= fun b => [Z.of_N (Byte.to_N b)].
Definition TAG : nat := 16.
Definition MAX_CHUNK : nat := Z.to_nat 0xffff.
Definition CLOCK_SKEW_SECONDS : Z := 30.
Definition TYPE_REQUEST : Z := 0.
Definition TYPE_RESPONSE : Z := 1.
Definition MAX_PADDING : Z := 900.

Inductive Method := Aes128Gcm | Aes256Gcm | ChaCha20Poly1305.

#[global] Instance Method_eq_dec : EqDecision Method.
Proof. solve_decision. Defined.

Definition key_len (m : Method) : nat := match m with Aes128Gcm => 16 | Aes256Gcm | ChaCha20Poly1305 => 32 end.
Definition salt_len (m : Method) : nat := key_len m.

(** [seal_in_place_append_tag] and [open_in_place] of a key and a nonce, with no
    associated data, and [blake3::derive_key] of a context and key material. *)
Class Aead := {
  aead_seal : Method -> bytes -> bytes -> bytes -> option bytes;
  aead_open : Method -> bytes -> bytes -> bytes -> option bytes;
  derive_key : bytes -> bytes -> bytes;
}.

Class AeadLaws `{Aead} : Prop := {
  open_sealed : forall m key nonce plain sealed,
    aead_seal m key nonce plain = Some sealed -> aead_open m key nonce sealed = Some plain;
  seal_adds_tag : forall m key nonce plain sealed,
    aead_seal m key nonce plain = Some sealed -> length sealed = (length plain + TAG)%nat;
  derive_key_len : forall context material, length (derive_key context material) = 32%nat;
}.

Record PreSharedKey := mkPreSharedKey { k_bytes : bytes; k_method : Method }.

Inductive KeyError := KeyLength (expected found : nat).

Definition PreSharedKey_new (method : Method) (bs : bytes) : Res KeyError PreSharedKey :=
  if negb (length bs =? key_len method)%nat then Err (KeyLength (key_len method) (length bs))
  else Ok (mkPreSharedKey bs method).

Definition u64_le_bytes (v : Z) : bytes := reverse (be_bytes 8 v).

(** [ours.abs_diff(theirs)]. *)
Definition check_timestamp (theirs ours : Z) : Res ProxyError unit :=
  let skew := Z.abs (ours - theirs) in
  if CLOCK_SKEW_SECONDS <? skew then Err (Stale skew) else Ok tt.

(** The debug assertions on the padding are the callers' to keep. *)
Definition encode_request_body (target : Target) (padding initial : bytes) : bytes :=
  Writer_bytes initial (Writer_vector_u16 padding (encode_address target [])).

Definition encode_request_fixed (now body_len : Z) : bytes :=
  Writer_u16 body_len (Writer_u64 now (Writer_u8 TYPE_REQUEST [])).

Definition decode_response_fixed (plain request_salt : bytes) (now : Z) : Res ProxyError Z :=
  if negb (length plain =? 1 + 8 + length request_salt + 2)%nat then Err Header else
  match '(type, reader) ← Reader_u8 (Reader_new plain); '(stamp, reader) ← Reader_u64 reader; Some (type, stamp, reader) with
  | Some (type, stamp, reader) =>
      if negb (type =? TYPE_RESPONSE) then Err Header else
      check_timestamp stamp now;;
      match Reader_take reader (length request_salt) with
      | Some (echoed, reader) =>
          if bool_decide (echoed = request_salt)
          then '(length_, _) ← ok_or Header (Reader_u16 reader); Ok length_
          else Err SaltMismatch
      | None => Err SaltMismatch
      end
  | None => Err Header
  end.

Section Stream.
Context `{Aead}.

(** [derive_key] answers 32 bytes, so the prefix is in range. *)
Definition subkey (k : PreSharedKey) (salt : bytes) : bytes :=
  take (key_len (k_method k)) (derive_key SUBKEY_CONTEXT (k_bytes k ++ salt)).

Record Session := mkSession { s_method : Method; s_key : bytes; s_counter : Z }.

(** [UnboundKey::new] refuses a key of another length than the algorithm's. *)
Definition Session_new (method : Method) (subkey : bytes) : Res ProxyError Session :=
  if (length subkey =? key_len method)%nat then Ok (mkSession method subkey 0) else Err Crypto.

Definition nonce_of (counter : Z) : bytes := u64_le_bytes counter ++ replicate 4 0.

(** [self.counter += 1]: a release build wraps. *)
Definition next_nonce (s : Session) : bytes * Session :=
  (nonce_of (s_counter s), mkSession (s_method s) (s_key s) (wrap 64 (s_counter s + 1))).

Definition Session_seal (s : Session) (buf : bytes) : Res ProxyError bytes * Session :=
  let '(nonce, s) := next_nonce s in (ok_or Crypto (aead_seal (s_method s) (s_key s) nonce buf), s).

Definition Session_open (s : Session) (buf : bytes) : Res ProxyError bytes * Session :=
  let '(nonce, s) := next_nonce s in (ok_or Crypto (aead_open (s_method s) (s_key s) nonce buf), s).

Inductive ReadState := Salt | FixedHeader | LengthChunk | Payload (length : nat).

(** [sc_clock] is what [now_seconds] answers when the response header is opened. *)
Record StreamCodec := mkStreamCodec {
  sc_writer : Session;
  sc_reader : option Session;
  sc_method : Method;
  sc_key : PreSharedKey;
  sc_request_salt : bytes;
  sc_state : ReadState;
  sc_clock : Z;
}.

Definition needed (this : StreamCodec) : nat :=
  match sc_state this with
  | Salt => salt_len (sc_method this)
  | FixedHeader => 1 + 8 + salt_len (sc_method this) + 2 + TAG
  | LengthChunk => 2 + TAG
  | Payload length => length + TAG
  end.

Definition with_read (this : StreamCodec) (reader : option Session) (state : ReadState) : StreamCodec :=
  mkStreamCodec (sc_writer this) reader (sc_method this) (sc_key this) (sc_request_salt this) state (sc_clock this).

Definition with_writer (this : StreamCodec) (writer : Session) : StreamCodec :=
  mkStreamCodec writer (sc_reader this) (sc_method this) (sc_key this) (sc_request_salt this) (sc_state this) (sc_clock this).

(** A stage of [decode] past its block: the plaintext of the block, by the session
    there must be. *)
Definition opened (this : StreamCodec) (block : bytes) : Res ProxyError bytes * StreamCodec :=
  match sc_reader this with
  | None => (Err Header, this)
  | Some reader =>
      let '(plain, reader) := Session_open reader block in (plain, with_read this (Some reader) (sc_state this))
  end.

Definition stage (this : StreamCodec) (block out : bytes) : Res ProxyError unit * StreamCodec * bytes :=
  match sc_state this with
  | Salt =>
      match Session_new (sc_method this) (subkey (sc_key this) block) with
      | Ok reader => (Ok tt, with_read this (Some reader) FixedHeader, out)
      | Err e => (Err e, this, out)
      | Panic => (Panic, this, out)
      end
  | FixedHeader =>
      let '(plain, this) := opened this block in
      match plain ← plain; decode_response_fixed plain (sc_request_salt this) (sc_clock this) with
      | Ok length => (Ok tt, with_read this (sc_reader this) (Payload (Z.to_nat length)), out)
      | Err e => (Err e, this, out)
      | Panic => (Panic, this, out)
      end
  | LengthChunk =>
      let '(plain, this) := opened this block in
      match plain ← plain; ok_or Header (Reader_u16 (Reader_new plain)) with
      | Ok (length, _) => (Ok tt, with_read this (sc_reader this) (Payload (Z.to_nat length)), out)
      | Err e => (Err e, this, out)
      | Panic => (Panic, this, out)
      end
  | Payload _ =>
      let '(plain, this) := opened this block in
      match plain with
      | Ok plain => (Ok tt, with_read this (sc_reader this) LengthChunk, out ++ plain)
      | Err e => (Err e, this, out)
      | Panic => (Panic, this, out)
      end
  end.

Definition StreamCodec_decode (this : StreamCodec) (input out : bytes) : Res ProxyError Decode * StreamCodec * bytes :=
  if (needed this <=? length input)%nat then
    let '(r, this', out) := stage this (take (needed this) input) out in
    (r;; Ok (Framed_ (drop (needed this) input)), this', out)
  else (Ok (Framed_ input), this, out).

Definition StreamCodec_encode (this : StreamCodec) (payload out : bytes) : Res ProxyError unit * StreamCodec * bytes :=
  let '(length_, writer) := Session_seal (sc_writer this) (Writer_u16 (wrap 16 (Z.of_nat (length payload))) []) in
  match length_ with
  | Ok length_ =>
      let '(sealed, writer) := Session_seal writer payload in
      match sealed with
      | Ok sealed => (Ok tt, with_writer this writer, Writer_bytes sealed (Writer_bytes length_ out))
      | Err e => (Err e, with_writer this writer, out)
      | Panic => (Panic, with_writer this writer, out)
      end
  | Err e => (Err e, with_writer this writer, out)
  | Panic => (Panic, with_writer this writer, out)
  end.

#[global] Instance StreamCodec_codec : Codec StreamCodec := {|
  decode := StreamCodec_decode;
  encode := StreamCodec_encode;
  max_payload := fun _ => Some MAX_CHUNK;
  writes := fun _ => WritesFramed;
|}.

(** What [connect] writes and the codec of the stream it answers.  [salt],
    [length_pick] and [padding] are what the random generator gave, [now] the clock. *)
Definition connect_request (key : PreSharedKey) (target : Target) (now : Z)
    (salt length_pick : bytes) (padding : nat -> bytes) : Res ProxyError (bytes * (Z -> StreamCodec)) :=
  let method := k_method key in
  writer ← Session_new method (subkey key salt);
  let padding_len := 1 + be_value length_pick mod MAX_PADDING in
  let body := encode_request_body target (padding (Z.to_nat padding_len)) [] in
  body_len ← (if Z.of_nat (length body) <=? 0xffff then Ok (Z.of_nat (length body)) else Err Header);
  let '(fixed, writer) := Session_seal writer (encode_request_fixed now body_len) in
  fixed ← fixed;
  let '(sealed_body, writer) := Session_seal writer body in
  sealed_body ← sealed_body;
  Ok (salt ++ fixed ++ sealed_body, fun clock => mkStreamCodec writer None method key salt Salt clock).

(** * The codec is lawful *)

Lemma needed_positive this : (0 < needed this)%nat.
Proof. unfold needed, salt_len, key_len, TAG. destruct (sc_state this); [destruct (sc_method this)|..]; lia. Qed.

Lemma Session_open_total s buf : (Session_open s buf).1 <> Panic.
Proof. unfold Session_open. cbn. by destruct (aead_open _ _ _ _). Qed.

Lemma Session_seal_total s buf : (Session_seal s buf).1 <> Panic.
Proof. unfold Session_seal. cbn. by destruct (aead_seal _ _ _ _). Qed.

Lemma opened_total this block : (opened this block).1 <> Panic.
Proof.
  unfold opened. destruct (sc_reader this) as [reader|]; [|done]. pose proof (Session_open_total reader block).
  by destruct (Session_open reader block).
Qed.

Lemma decode_response_fixed_total plain salt now : decode_response_fixed plain salt now <> Panic.
Proof.
  unfold decode_response_fixed, check_timestamp. case_match; [done|].
  destruct (Reader_u8 _) as [[type r1]|]; [|done]. cbn [mbind option_bind].
  destruct (Reader_u64 r1) as [[stamp r2]|]; [|done]. cbn [mbind option_bind].
  case_match; [done|]. destruct (CLOCK_SKEW_SECONDS <? _); [done|]. cbn [mbind Res_bind]. destruct (Reader_take r2 _) as [[echoed r3]|]; [|done].
  case_match; [|done]. by destruct (Reader_u16 r3) as [[? ?]|].
Qed.

Lemma stage_total this block out : (stage this block out).1.1 <> Panic.
Proof.
  unfold stage. pose proof (opened_total this block) as Ho.
  destruct (sc_state this); [| | |]; try (destruct (opened this block) as [[plain|e|] this'] eqn:E; [|done|done]); cbn.
  - unfold Session_new. by destruct (_ =? _)%nat.
  - pose proof (decode_response_fixed_total plain (sc_request_salt this') (sc_clock this')). by destruct (decode_response_fixed _ _ _).
  - by destruct (Reader_u16 _) as [[? ?]|].
  - done.
Qed.

Lemma stage_appends this block out :
  stage this block out = let '(r, this', o) := stage this block [] in (r, this', out ++ o).
Proof.
  unfold stage. destruct (sc_state this); try destruct (opened this block) as [[plain|e|] this']; cbn; repeat case_match;
    simplify_eq; by rewrite ?app_nil_r.
Qed.

#[global] Instance StreamCodec_laws : CodecLaws StreamCodec.
Proof.
  split; cbn [decode StreamCodec_codec]; unfold StreamCodec_decode.
  - intros c input out. case_match; [|done]. pose proof (stage_total c (take (needed c) input) out) as Ht.
    destruct (stage _ _ _) as [[[[]|e|] c'] o]; done.
  - intros c input out. case_match; [|by rewrite app_nil_r]. rewrite stage_appends. by destruct (stage _ _ []) as [[? ?] ?].
  - intros c input d c' o. case_match; [|by intros [= <- _ _]].
    destruct (stage _ _ _) as [[[[]|e|] c''] o']; try done. intros [= <- _ _]. cbn. apply suffix_drop.
  - intros c. pose proof (needed_positive c). rewrite (proj2 (Nat.leb_gt _ _)) by (cbn; lia). by eexists _, _.
  - intros c input c' o. pose proof (needed_positive c) as Hn. destruct (_ <=? _)%nat eqn:E; [|by intros [= <- <-]]. reflect.
    destruct (stage _ _ _) as [[[[]|e|] c''] o']; try done. intros [= Hd _ _]. apply (f_equal length) in Hd.
    rewrite length_drop in Hd. lia.
  - intros c input rest c' o more. destruct (_ <=? _)%nat eqn:E; [|intros [= <- _ _]; lia]. reflect.
    rewrite (proj2 (Nat.leb_le _ (length (input ++ more)))) by (rewrite length_app; lia). rewrite take_app_le, drop_app_le by done.
    destruct (stage _ _ _) as [[[[]|e|] c''] o']; try done. by intros [= <- <- <-].
  - intros c input rest c' o more. case_match; [|done]. by destruct (stage _ _ _) as [[[[]|e|] c''] o'].
  - intros c input e c' o more. destruct (_ <=? _)%nat eqn:E; [|done]. reflect.
    rewrite (proj2 (Nat.leb_le _ (length (input ++ more)))) by (rewrite length_app; lia). rewrite take_app_le by done.
    destruct (stage _ _ _) as [[[[]|e'|] c''] o']; try done. intros [= <- _ _]. by eexists _, _.
Qed.

#[global] Instance StreamCodec_frames : FramesLaws StreamCodec.
Proof.
  split.
  - intros c payload. cbn [encode StreamCodec_codec]. unfold StreamCodec_encode.
    set (prefix := Writer_u16 _ []). pose proof (Session_seal_total (sc_writer c) prefix) as H1.
    destruct (Session_seal (sc_writer c) prefix) as [[l|e|] w]; [|done|done].
    pose proof (Session_seal_total w payload) as H2. by destruct (Session_seal w payload) as [[p|e|] w'].
  - intros c. cbn [max_payload StreamCodec_codec]. intros Hz. injection Hz as Hz. apply (f_equal Z.of_nat) in Hz. unfold MAX_CHUNK in Hz. lia.
Qed.

(** ** A peer that opens what a writer seals *)

Section Peers.
Context `{!AeadLaws}.

(** One side's reader follows the other's writer. *)
Definition follows (e d : StreamCodec) : Prop :=
  sc_reader d = Some (sc_writer e) /\ sc_state d = LengthChunk.

Lemma sealed_opens s buf sealed s' :
  Session_seal s buf = (Ok sealed, s') -> Session_open s sealed = (Ok buf, s') /\ length sealed = (length buf + TAG)%nat.
Proof.
  unfold Session_seal, Session_open. cbn. destruct (aead_seal _ _ _ buf) as [sealed'|] eqn:E; [|done]. cbn. intros [= -> <-].
  by rewrite (open_sealed _ _ _ _ _ E), (seal_adds_tag _ _ _ _ _ E).
Qed.

(** A block of the length the state asks for is a frame. *)
Lemma stage_frame c block c' o more :
  length block = needed c -> stage c block [] = (Ok tt, c', o) ->
  plaintext c (block ++ more) = (o ++ (plaintext c' more).1, (plaintext c' more).2).
Proof.
  intros Hl Hs. pose proof (needed_positive c).
  apply (plaintext_frame c block [] c' o more); [|cbn; lia]. cbn [decode StreamCodec_codec]. unfold StreamCodec_decode.
  rewrite Hl, Nat.leb_refl, firstn_all2, Hs by lia. cbn. by rewrite drop_ge by lia.
Qed.

(** A sealed payload, under the reader's session. *)
Lemma payload_stage c s n sealed buf s' :
  sc_reader c = Some s -> sc_state c = Payload n -> Session_open s sealed = (Ok buf, s') ->
  stage c sealed [] = (Ok tt, with_read c (Some s') LengthChunk, buf).
Proof. intros Hr Hs Ho. unfold stage, opened. by rewrite Hs, Hr, Ho. Qed.

#[global] Instance StreamCodec_peers : CodecPair StreamCodec StreamCodec.
Proof.
  refine {| peers := follows |}. intros e d payload u e' o [Hr Hs] Hp Hmax. cbn in Hmax. unfold id in Hmax.
  cbn [encode StreamCodec_codec]. unfold StreamCodec_encode.
  assert (wrap 16 (Z.of_nat (length payload)) = Z.of_nat (length payload)) as -> by (apply Z.mod_small; unfold MAX_CHUNK in Hmax; lia).
  set (prefix := Writer_u16 (Z.of_nat (length payload)) []).
  destruct (Session_seal (sc_writer e) prefix) as [[l| |] w1] eqn:E1; [|done|done].
  destruct (Session_seal w1 payload) as [[p| |] w2] eqn:E2; [|done|done]. intros [= <- <- <-].
  apply sealed_opens in E1 as [O1 L1]. apply sealed_opens in E2 as [O2 L2].
  exists (with_read d (Some w2) LengthChunk). split; [done|]. intros more. cbn [Writer_bytes app].
  unfold Writer_bytes. rewrite <- (assoc_L (++)). cbn [app].
  assert (stage d l [] = (Ok tt, with_read d (Some w1) (Payload (length payload)), [])) as S1.
  { unfold stage, opened. rewrite Hs, Hr, O1. cbn [mbind Res_bind]. unfold prefix, Writer_u16, Writer_bytes, Reader_u16, Reader_new.
    pose proof (Reader_uint_app 2 [] (Z.of_nat (length payload)) []) as Hu. rewrite app_nil_r in Hu. cbn [app length] in *.
    rewrite Hu by (unfold MAX_CHUNK in Hmax; cbn; lia). cbn. by rewrite Nat2Z.id. }
  set (d1 := with_read d (Some w1) (Payload (length payload))) in *.
  pose proof (payload_stage d1 w1 _ _ _ _ eq_refl eq_refl O2) as S2.
  assert (length l = needed d) as N1 by (unfold needed; by rewrite Hs). assert (length p = needed d1) as N2 by done.
  by rewrite (stage_frame d l _ _ _ N1 S1), (stage_frame d1 p _ _ _ N2 S2).
Defined.

(** ** A server's response *)

(** The plaintext of the response's fixed header. *)
Definition response_header (stamp : Z) (request_salt : bytes) (first : bytes) : bytes :=
  [TYPE_RESPONSE] ++ be_bytes 8 stamp ++ request_salt ++ be_bytes 2 (Z.of_nat (length first)).

Lemma response_header_decodes stamp salt first now :
  uint_ok 64 stamp -> Z.abs (now - stamp) <= CLOCK_SKEW_SECONDS -> Z.of_nat (length first) <= 0xffff ->
  decode_response_fixed (response_header stamp salt first) salt now = Ok (Z.of_nat (length first)).
Proof.
  intros Hs Hskew Hl. unfold decode_response_fixed, response_header. set (n := Z.of_nat (length first)).
  rewrite (proj2 (Nat.eqb_eq _ _)) by (rewrite !length_app, !length_be_bytes; cbn; lia). cbn [negb].
  pose proof (Reader_uint_app 8 [TYPE_RESPONSE] stamp (salt ++ be_bytes 2 n) Hs) as H8. cbn [app length] in H8.
  change (Reader_u8 (Reader_new ([TYPE_RESPONSE] ++ ?l))) with (Some (TYPE_RESPONSE, mkReader (TYPE_RESPONSE :: l) 1)).
  cbn [mbind option_bind]. unfold Reader_u64. rewrite H8. cbn [mbind option_bind].
  change (negb (TYPE_RESPONSE =? TYPE_RESPONSE)) with false. cbv iota. unfold check_timestamp.
  rewrite (proj2 (Z.ltb_ge _ _)) by lia. cbn [mbind Res_bind].
  pose proof (Reader_take_app (TYPE_RESPONSE :: be_bytes 8 stamp) salt (be_bytes 2 n)) as Ht.
  cbn [length] in Ht. rewrite length_be_bytes in Ht. cbn [app] in Ht. change (1 + 8)%nat with 9%nat. rewrite Ht.
  rewrite bool_decide_true by done. unfold Reader_u16.
  pose proof (Reader_uint_app 2 (TYPE_RESPONSE :: be_bytes 8 stamp ++ salt) n []) as H2. cbn [length app] in H2.
  rewrite length_app, length_be_bytes, app_nil_r, <- (assoc_L (++)) in H2. change (9 + length salt)%nat with (S (8 + length salt)).
  rewrite H2 by (cbn; lia). done.
Qed.

(** The bytes a server answers: its salt, then under its session the header, the first
    payload, and the chunks of the rest as [encode] frames them. *)
Definition response_of (c server : StreamCodec) (stamp : Z) (server_salt first rest : bytes) : Res ProxyError bytes :=
  s ← Session_new (sc_method c) (subkey (sc_key c) server_salt);
  let '(header, s) := Session_seal s (response_header stamp (sc_request_salt c) first) in
  header ← header;
  let '(payload, s) := Session_seal s first in
  payload ← payload;
  let '(chunks, error) := frames (with_writer server s) rest in
  match error with Some e => Err e | None => Ok (server_salt ++ header ++ payload ++ chunks) end.

(** A codec as [connect] leaves it. *)
Record fresh_codec (c : StreamCodec) : Prop := {
  fc_reader : sc_reader c = None;
  fc_state : sc_state c = Salt;
  fc_salt : length (sc_request_salt c) = salt_len (sc_method c);
}.

Lemma response_plaintext c server stamp server_salt first rest whole :
  fresh_codec c -> length server_salt = salt_len (sc_method c) ->
  uint_ok 64 stamp -> Z.abs (sc_clock c - stamp) <= CLOCK_SKEW_SECONDS -> Z.of_nat (length first) <= 0xffff ->
  response_of c server stamp server_salt first rest = Ok whole ->
  plaintext c whole = (first ++ rest, None).
Proof.
  intros [Hr Hs Hsalt] Hl Hstamp Hskew Hlen. unfold response_of.
  destruct (Session_new _ _) as [s0| |] eqn:E0; [|done|done]. cbn [mbind Res_bind].
  destruct (Session_seal s0 _) as [[h| |] s1] eqn:E1; [|done|done]. cbn [mbind Res_bind].
  destruct (Session_seal s1 first) as [[p| |] s2] eqn:E2; [|done|done]. cbn [mbind Res_bind].
  pose proof (frames_plaintext (length rest) (with_writer server s2)) as Hpl. fold (frames (with_writer server s2) rest) in Hpl.
  destruct (frames (with_writer server s2) rest) as [chunks error] eqn:Ef. destruct error; [done|]. intros [= <-].
  apply sealed_opens in E1 as [O1 L1]. apply sealed_opens in E2 as [O2 L2].
  set (c1 := with_read c (Some s0) FixedHeader). set (c2 := with_read c1 (Some s1) (Payload (length first))).
  assert (stage c server_salt [] = (Ok tt, c1, [])) as S0 by (unfold stage; by rewrite Hs, E0).
  assert (stage c1 h [] = (Ok tt, c2, [])) as S1.
  { unfold stage, opened. cbn [c1 with_read sc_state sc_reader]. rewrite O1. cbn [mbind Res_bind with_read sc_request_salt sc_clock].
    rewrite response_header_decodes by done. unfold c2. by rewrite Nat2Z.id. }
  pose proof (payload_stage c2 s1 _ _ _ _ eq_refl eq_refl O2) as S2.
  assert (length server_salt = needed c) as N0 by (unfold needed; by rewrite Hs).
  assert (length h = needed c1) as N1.
  { rewrite L1. unfold response_header, needed. rewrite !length_app, !length_be_bytes, Hsalt. cbn [length c1 with_read sc_state sc_method]. lia. }
  assert (length p = needed c2) as N2 by exact L2.
  rewrite (stage_frame c _ _ _ _ N0 S0), (stage_frame c1 _ _ _ _ N1 S1), (stage_frame c2 _ _ _ _ N2 S2).
  specialize (Hpl (with_read c2 (Some s2) LengthChunk) rest ltac:(done) ltac:(lia)).
  unfold frames in Ef. rewrite Ef in Hpl. cbn [fst snd app] in *. by rewrite Hpl.
Qed.
End Peers.

End Stream.

(** A Shadowsocks stream gives its reader exactly what the server sent: in whatever
    pieces the server's salt, sealed header and sealed chunks arrive, and whatever the
    sizes of the reads, the reader gets the first payload and the chunks behind it, all
    of them when it meets the end and a prefix before, and no error. *)
Theorem shadowsocks_reads `{Aead} `{!AeadLaws} c server stamp server_salt first rest whole inner rooms :
  fresh_codec c -> length server_salt = salt_len (sc_method c) ->
  uint_ok 64 stamp -> Z.abs (sc_clock c - stamp) <= CLOCK_SKEW_SECONDS -> Z.of_nat (length first) <= 0xffff ->
  response_of c server stamp server_salt first rest = Ok whole ->
  script_ok (in_reads inner) -> (forall kind, ReadFails kind ∉ in_reads inner) -> Forall (fun room => 0 < room)%nat rooms ->
  arriving (in_reads inner) = whole ->
  exists got ended this', read_all rooms (Framed_new inner c) = Some (got, ended, this') /\
  match ended with
  | More => got `prefix_of` first ++ rest /\ (length rooms <= length (first ++ rest) + waits (in_reads inner))%nat
  | End_ => got = first ++ rest
  | Broken _ => False
  end.
Proof.
  intros Hc Hl Hst Hsk Hlen Hwhole Hs Hnf Hrooms Harr. pose proof (framed_reads inner c [] rooms Hs Hnf Hrooms) as Hr.
  cbn [app] in Hr. rewrite Harr, (response_plaintext c server stamp server_salt first rest whole) in Hr by done.
  destruct Hr as (got & ended & this' & Hread & Hg). exists got, ended, this'. split; [exact Hread|].
  destruct ended; [done|by destruct Hg|by destruct Hg as (_ & _ & [])].
Qed.

(** ** The wire *)

Lemma nonce_of_inj i j : uint_ok 64 i -> uint_ok 64 j -> nonce_of i = nonce_of j -> i = j.
Proof.
  intros Hi Hj [Hb _]%app_inj_2; [|done]. apply (inj reverse) in Hb. apply (f_equal be_value) in Hb.
  by rewrite !be_value_be_bytes_small in Hb.
Qed.

(** The wire of some chunks under one key from a counter on: each chunk is its sealed length and
    its sealed bytes, and each sealing takes the next counter. *)
Fixpoint sealed_wire `{Aead} (m : Method) (key : bytes) (counter : Z) (chunks : list bytes) : option bytes :=
  match chunks with
  | [] => Some []
  | chunk :: chunks =>
      prefix ← aead_seal m key (nonce_of counter) (be_bytes 2 (Z.of_nat (length chunk)));
      sealed ← aead_seal m key (nonce_of (counter + 1)) chunk;
      rest ← sealed_wire m key (counter + 2) chunks;
      Some (prefix ++ sealed ++ rest)
  end.

Lemma frames_sealed `{Aead} fuel : forall e payload,
  (frames_loop fuel e payload).2 = None -> (length payload <= fuel)%nat ->
  0 <= s_counter (sc_writer e) -> s_counter (sc_writer e) + 2 * Z.of_nat (length payload) < 2 ^ 64 ->
  exists chunks, concat chunks = payload /\ Forall (fun chunk => 1 <= Z.of_nat (length chunk) <= 0xffff) chunks /\
    sealed_wire (s_method (sc_writer e)) (s_key (sc_writer e)) (s_counter (sc_writer e)) chunks = Some (frames_loop fuel e payload).1.
Proof.
  induction fuel as [|fuel IH]; intros e payload Hnone Hf H0 Hc.
  { destruct payload; [|cbn in Hf; lia]. by exists []. }
  destruct payload as [|b payload]; [by exists []|]. cbn [frames_loop] in *.
  pose proof (frame_len_ok e (b :: payload) ltac:(done)) as Hn.
  assert (Z.of_nat (frame_len e (b :: payload)) <= 0xffff) as Hmax.
  { unfold frame_len. cbn [max_payload StreamCodec_codec]. unfold MAX_CHUNK. lia. }
  set (n := frame_len e (b :: payload)) in *. set (chunk := take n (b :: payload)) in *.
  assert (length chunk = n) as Hlen by (unfold chunk; rewrite length_take; lia).
  cbn [encode StreamCodec_codec] in *. unfold StreamCodec_encode, Session_seal, next_nonce in *. cbn zeta in *. cbn [s_counter s_method s_key] in *.
  assert (wrap 16 (Z.of_nat (length chunk)) = Z.of_nat (length chunk)) as Hw by (apply Z.mod_small; lia).
  rewrite Hw in *. cbn [Writer_u16 Writer_bytes app] in *. unfold Writer_u16, Writer_bytes in *. cbn [app] in *.
  assert (wrap 64 (s_counter (sc_writer e) + 1) = s_counter (sc_writer e) + 1) as H1 by (apply Z.mod_small; cbn [length] in Hc; lia).
  assert (wrap 64 (s_counter (sc_writer e) + 1 + 1) = s_counter (sc_writer e) + 2) as H2 by (unfold wrap; rewrite Z.mod_small; cbn [length] in Hc; lia).
  rewrite ?H1, ?H2 in *.
  destruct (aead_seal _ _ (nonce_of (s_counter (sc_writer e))) _) as [prefix|] eqn:E1; [|done]. cbn [ok_or] in *.
  destruct (aead_seal _ _ (nonce_of (s_counter (sc_writer e) + 1)) _) as [sealed|] eqn:E2; [|done]. cbn [ok_or] in *.
  match goal with |- context [frames_loop fuel ?c ?r] => specialize (IH c r); destruct (frames_loop fuel c r) as [more err] eqn:Ef end.
  cbn [fst snd with_writer sc_writer s_counter s_method s_key] in *.
  destruct IH as (chunks & Hcat & Hall & Hwire); [done|rewrite length_drop; cbn [length] in *; lia|lia|rewrite length_drop; cbn [length] in *; lia|].
  exists (chunk :: chunks). split_and!.
  - cbn [concat]. rewrite Hcat. apply take_drop.
  - constructor; [lia|done].
  - cbn [sealed_wire]. rewrite E1. cbn [mbind option_bind]. rewrite E2. cbn [mbind option_bind]. rewrite Hwire. cbn [mbind option_bind].
    by rewrite <- (assoc_L (++)).
Qed.

(** C26: What one end of a Shadowsocks stream writes the other reads.  A buffer written whole,
    through any pattern of partial writes and waits, is on the wire as consecutive chunks
    of at most 0xffff bytes, each its sealed length and its sealed bytes, every sealing under
    the nonce of the next counter, and no two counters have one nonce; and received in
    any pieces, it is read back whole and in order by the session that follows the
    writer's. *)
Theorem shadowsocks_carries `{Aead} `{!AeadLaws} e d payload accepts polls this s rooms :
  follows e d ->
  0 <= s_counter (sc_writer e) -> s_counter (sc_writer e) + 2 * Z.of_nat (length payload) < 2 ^ 64 ->
  Forall (fun e => e <> AcceptsUpTo 0 /\ forall kind, e <> WriteFails kind) accepts ->
  write_all polls (Framed_new (mkInner [] accepts []) e) payload = (Ready tt, this) ->
  script_ok s -> (forall kind, ReadFails kind ∉ s) -> arriving s = in_wrote (fr_inner this) ->
  Forall (fun room => 0 < room)%nat rooms ->
  (exists chunks, concat chunks = payload /\ Forall (fun chunk => 1 <= Z.of_nat (length chunk) <= 0xffff) chunks /\
     sealed_wire (s_method (sc_writer e)) (s_key (sc_writer e)) (s_counter (sc_writer e)) chunks = Some (in_wrote (fr_inner this))) /\
  (forall i j, uint_ok 64 i -> uint_ok 64 j -> nonce_of i = nonce_of j -> i = j) /\
  exists got ended this', read_all rooms (Framed_new (mkInner s [] []) d) = Some (got, ended, this') /\
  match ended with
  | More => got `prefix_of` payload /\ (length rooms <= length payload + waits s)%nat
  | End_ => got = payload
  | Broken _ => False
  end.
Proof.
  intros Hf Hcount Hc Ha Hwrite Hs Hnf Harr Hrooms. split; [|split; [exact nonce_of_inj|by eapply framed_roundtrip]].
  pose proof (framed_writes (mkInner [] accepts []) e payload polls eq_refl Ha) as Hws. rewrite Hwrite in Hws.
  destruct (frames e payload) as [wire error] eqn:Ef. destruct Hws as [-> ->]. cbn [in_wrote app]. unfold frames in Ef.
  destruct (frames_sealed (length payload) e payload) as (chunks & ? & ? & ?); [by rewrite Ef|done|done|done|].
  rewrite Ef in *. by exists chunks.
Qed.

(** ** Nonces *)

(** The nonces of a session's next [k] operations. *)
Fixpoint session_nonces (k : nat) (s : Session) : list bytes :=
  match k with O => [] | S k => let '(nonce, s) := next_nonce s in nonce :: session_nonces k s end.

Lemma session_nonces_range k : forall s nonce,
  0 <= s_counter s -> s_counter s + Z.of_nat k <= 2 ^ 64 -> nonce ∈ session_nonces k s ->
  exists i, s_counter s <= i < s_counter s + Z.of_nat k /\ nonce = nonce_of i.
Proof.
  induction k as [|k IH]; intros s nonce Hp Hk; cbn [session_nonces next_nonce].
  { by intros ?%not_elem_of_nil. }
  intros [->|Hin]%elem_of_cons; [exists (s_counter s); split; [lia|done]|].
  destruct (decide (k = 0%nat)) as [->|Hk0]; [by apply not_elem_of_nil in Hin|].
  assert (wrap 64 (s_counter s + 1) = s_counter s + 1) as Hw by (apply Z.mod_small; lia).
  apply IH in Hin as (i & Hi & ->); cbn [s_counter] in *; rewrite ?Hw in *; [|lia..]. exists i. split; [lia|done].
Qed.

Lemma session_nonces_nodup k : forall s,
  0 <= s_counter s -> s_counter s + Z.of_nat k <= 2 ^ 64 -> NoDup (session_nonces k s).
Proof.
  induction k as [|k IH]; intros s Hp Hk; [by constructor|]. cbn [session_nonces next_nonce].
  destruct (decide (k = 0%nat)) as [->|Hk0]; [apply NoDup_singleton|].
  assert (wrap 64 (s_counter s + 1) = s_counter s + 1) as Hw by (apply Z.mod_small; lia).
  constructor.
  - intros (i & Hi & Hn)%session_nonces_range; cbn [s_counter] in *; rewrite ?Hw in *; [|lia..].
    apply nonce_of_inj in Hn; unfold uint_ok; lia.
  - apply IH; cbn [s_counter]; rewrite Hw; lia.
Qed.

(** A session never seals or opens twice under one nonce: from a new session, the
    nonces of its first 2^64 operations are pairwise distinct. *)
Theorem nonces_distinct method key s k :
  Session_new method key = Ok s -> Z.of_nat k <= 2 ^ 64 -> NoDup (session_nonces k s).
Proof.
  unfold Session_new. case_match; [|done]. intros [= <-] Hk. apply session_nonces_nodup; cbn [s_counter]; lia.
Qed.

(** ** A cipher for the witnesses *)

(** The tag is the nonce, and the plaintext is shifted by the first byte of the key. *)
Definition toy_tag (nonce : bytes) : bytes := take TAG (nonce ++ replicate TAG 0).
Definition toy_shift (key : bytes) : Z := default 0 (head key).

#[local] Instance toy_aead : Aead := {|
  aead_seal := fun _ key nonce plain => Some (((fun b => b + toy_shift key) <$> plain) ++ toy_tag nonce);
  aead_open := fun _ key nonce sealed =>
    if (TAG <=? length sealed)%nat && bool_decide (drop (length sealed - TAG) sealed = toy_tag nonce)
    then Some ((fun b => b - toy_shift key) <$> take (length sealed - TAG) sealed) else None;
  derive_key := fun _ material => take 32 (reverse material ++ replicate 32 0);
|}.

Lemma toy_tag_len nonce : length (toy_tag nonce) = TAG.
Proof. unfold toy_tag. rewrite length_take, length_app, length_replicate. lia. Qed.

#[local] Instance toy_laws : AeadLaws.
Proof.
  split; cbn [aead_seal aead_open derive_key toy_aead].
  - intros m key nonce plain sealed [= <-]. rewrite length_app, length_fmap, toy_tag_len.
    rewrite (proj2 (Nat.leb_le _ _)) by lia. replace (length plain + TAG - TAG)%nat with (length plain) by lia. cbn [andb].
    rewrite drop_app_length', take_app_length', bool_decide_true by (by rewrite ?length_fmap). f_equal.
    rewrite <- list_fmap_compose. induction plain as [|b plain IH]; [done|]. cbn. rewrite IH. f_equal. unfold compose. lia.
  - intros m key nonce plain sealed [= <-]. by rewrite length_app, length_fmap, toy_tag_len.
  - intros context material. rewrite length_take, length_app, length_replicate. lia.
Qed.

Definition toy_key : PreSharedKey := mkPreSharedKey (replicate 16 7) Aes128Gcm.
Definition toy_session : Session := mkSession Aes128Gcm (replicate 16 7) 5.

(** A client that waits for its response at second 1000. *)
Definition toy_client : StreamCodec :=
  mkStreamCodec toy_session None Aes128Gcm toy_key (replicate 16 9) Salt 1000.

Definition toy_response : bytes :=
  match response_of toy_client toy_client 1020 (replicate 16 3) [1; 2; 3] [4; 5] with Ok whole => whole | _ => [] end.

(** The response in pieces of seven bytes. *)
Definition toy_script : Script := (fun i => Arrives (take 7 (drop (i * 7) toy_response))) <$> seq 0 17.

Lemma no_failures (s : Script) :
  forallb (fun e => match e with Arrives (_ :: _) | ReadPending => true | _ => false end) s = true ->
  script_ok s /\ forall kind, ReadFails kind ∉ s.
Proof.
  intros H. rewrite forallb_forall in H. split.
  - apply Forall_forall. intros e He ->. apply list_elem_of_In in He. by specialize (H _ He).
  - intros kind Hk. apply list_elem_of_In in Hk. by specialize (H _ Hk).
Qed.

Lemma shadowsocks_reads_witness :
  exists got ended this',
    read_all (replicate 40 4%nat) (Framed_new (mkInner toy_script [] []) toy_client) = Some (got, ended, this') /\
    match ended with
    | More => got `prefix_of` [1; 2; 3; 4; 5] /\ (40 <= length [1; 2; 3; 4; 5] + waits toy_script)%nat
    | End_ => got = [1; 2; 3; 4; 5]
    | Broken _ => False
    end.
Proof.
  apply (shadowsocks_reads toy_client toy_client 1020 (replicate 16 3) [1; 2; 3] [4; 5] toy_response (mkInner toy_script [] []) (replicate 40 4%nat)).
  - by split.
  - reflexivity.
  - by split.
  - vm_compute. discriminate.
  - vm_compute. discriminate.
  - vm_compute. reflexivity.
  - apply no_failures. vm_compute. reflexivity.
  - apply no_failures. vm_compute. reflexivity.
  - repeat constructor.
  - vm_compute. reflexivity.
Defined.

(** A writer, and the reader that follows it. *)
Definition toy_reader : StreamCodec := with_read toy_client (Some toy_session) LengthChunk.

Definition toy_written : bytes * Framed StreamCodec :=
  let accepts := [AcceptsUpTo 3; WritePending; AcceptsUpTo 30; AcceptsUpTo 64] in
  match write_all 4 (Framed_new (mkInner [] accepts []) toy_client) [10; 20; 30] with
  | (Ready _, this) => (in_wrote (fr_inner this), this)
  | (_, this) => ([], this)
  end.

Lemma shadowsocks_carries_witness :
  exists got ended this',
    read_all [2; 2; 2; 2]%nat (Framed_new (mkInner [Arrives (take 20 toy_written.1); ReadPending; Arrives (drop 20 toy_written.1)] [] []) toy_reader)
      = Some (got, ended, this') /\
    match ended with
    | More => got `prefix_of` [10; 20; 30] /\ (4 <= length [10; 20; 30] + 1)%nat
    | End_ => got = [10; 20; 30]
    | Broken _ => False
    end.
Proof.
  refine (proj2 (proj2 (shadowsocks_carries toy_client toy_reader [10; 20; 30] [AcceptsUpTo 3; WritePending; AcceptsUpTo 30; AcceptsUpTo 64] 4
    toy_written.2 [Arrives (take 20 toy_written.1); ReadPending; Arrives (drop 20 toy_written.1)] [2; 2; 2; 2]%nat _ _ _ _ _ _ _ _ _))).
  - by split.
  - vm_compute. discriminate.
  - vm_compute. reflexivity.
  - by repeat constructor.
  - vm_compute. reflexivity.
  - apply no_failures. vm_compute. reflexivity.
  - apply no_failures. vm_compute. reflexivity.
  - vm_compute. reflexivity.
  - by repeat constructor; lia.
Defined.

Lemma nonces_distinct_witness : NoDup (session_nonces 300 (mkSession Aes128Gcm (replicate 16 7) 0)).
Proof. apply (nonces_distinct Aes128Gcm (replicate 16 7) (mkSession Aes128Gcm (replicate 16 7) 0) 300); [reflexivity|vm_compute; discriminate]. Defined.
