(* ===== verification/ShadowsocksPacket.v ===== *)
(** Shadowsocks 2022 datagrams ([src/egress/shadowsocks.rs]): the two packet formats,
    requests and responses, the replay window, and the receiving loop.

    The packet ciphers belong to the boring crate and are the class [PacketCrypto]. *)

From S2P Require Import Prelude Wire Net Plan Pool Egress Sansio Socks5 Shadowsocks.
Open Scope Z_scope.

Definition SEPARATE_HEADER : nat := 16.
Definition MERGED_NONCE : nat := 24.
Definition PACKET_TO_SERVER : Z := 0.
Definition PACKET_TO_CLIENT : Z := 1.

Definition MAX_PROXIED_DATAGRAM : Z :=
  let framing := Z.of_nat MERGED_NONCE + Z.of_nat TAG + 1 + 8 + 2 in
  let address := 1 + 1 + 255 + 2 in
  wrap 16 (MIN_IPV6_MTU - 48 - framing - address).

(** ** Ciphers *)

Inductive Algorithm := Aes128 | Aes256 | XChaCha20.

Definition algorithm_key_len (a : Algorithm) : nat := match a with Aes128 => 16 | Aes256 | XChaCha20 => 32 end.

(** [AeadCtx::seal_in_place] answers the ciphertext and the tag; [Crypter] without
    padding encrypts and decrypts blocks. *)
Class PacketCrypto := {
  seal_in_place : Algorithm -> bytes -> bytes -> bytes -> option (bytes * bytes);
  open_in_place : Algorithm -> bytes -> bytes -> bytes -> bytes -> option bytes;
  encrypt_block : Method -> bytes -> bytes -> option bytes;
  decrypt_block : Method -> bytes -> bytes -> option bytes;
}.

Class PacketLaws `{PacketCrypto} : Prop := {
  packet_opens : forall a key nonce plain cipher tag,
    seal_in_place a key nonce plain = Some (cipher, tag) -> open_in_place a key nonce cipher tag = Some plain;
  packet_lengths : forall a key nonce plain cipher tag,
    seal_in_place a key nonce plain = Some (cipher, tag) -> length cipher = length plain /\ length tag = TAG;
  block_decrypts : forall m key plain cipher, encrypt_block m key plain = Some cipher -> decrypt_block m key cipher = Some plain;
  block_lengths : forall m key plain cipher, encrypt_block m key plain = Some cipher -> length cipher = length plain;
  unblock_lengths : forall m key cipher plain, decrypt_block m key cipher = Some plain -> length plain = length cipher;
}.

Inductive PacketCipher := Separate (key : PreSharedKey) | Merged (key : bytes).

Record Opened := mkOpened { o_session : bytes; o_packet_id : Z; o_message : bytes }.

(** [AeadCtx::new_default_tag] refuses a key of another length. *)
Definition new_ctx (a : Algorithm) (key : bytes) : Res ProxyError (Algorithm * bytes) :=
  if (length key =? algorithm_key_len a)%nat then Ok (a, key) else Err Crypto.

Definition PacketCipher_new (key : PreSharedKey) : Res ProxyError PacketCipher :=
  match k_method key with
  | Aes128Gcm | Aes256Gcm => Ok (Separate key)
  | ChaCha20Poly1305 => _ ← new_ctx XChaCha20 (k_bytes key); Ok (Merged (k_bytes key))
  end.

Section Cipher.
Context `{Aead, PacketCrypto}.

Definition cipher_aead (this : PacketCipher) (session : bytes) : Res ProxyError (Algorithm * bytes) :=
  match this with
  | Merged _ => Err Crypto
  | Separate key => new_ctx (match k_method key with Aes128Gcm => Aes128 | _ => Aes256 end) (subkey key session)
  end.

Definition block (this : PacketCipher) (run : Method -> bytes -> bytes -> option bytes) (input : bytes) : Res ProxyError bytes :=
  match this with
  | Merged _ => Err Crypto
  | Separate key => ok_or Crypto (run (k_method key) (k_bytes key) input)
  end.

(** [finish] seals what follows [at_] in place and answers the tag. *)
Definition finish (ctx : Algorithm * bytes) (nonce out : bytes) (at_ : nat) : Res ProxyError (bytes * bytes) :=
  '(cipher, tag) ← ok_or Crypto (seal_in_place ctx.1 ctx.2 nonce (drop at_ out));
  Ok (take at_ out ++ cipher, tag).

Definition reveal (ctx : Algorithm * bytes) (nonce body : bytes) : Res ProxyError bytes :=
  if (length body <? TAG)%nat then Err Header else
  let at_ := (length body - TAG)%nat in
  ok_or Crypto (open_in_place ctx.1 ctx.2 nonce (take at_ body) (drop at_ body)).

Definition identify (identity message : bytes) : Res ProxyError Opened :=
  match '(session, reader) ← Reader_array 8 (Reader_new identity); '(packet_id, reader) ← Reader_u64 reader; Some (session, packet_id) with
  | Some (session, packet_id) => Ok (mkOpened session packet_id message)
  | None => Panic
  end.

(** [identity[4..16]]. *)
Definition nonce_window (identity : bytes) : Res ProxyError bytes :=
  or_panic (head ← get_to identity SEPARATE_HEADER; get_from head 4).

(** [random] is the nonce the generator gave for the merged format. *)
Definition PacketCipher_seal (this : PacketCipher) (random session : bytes) (packet_id : Z) (message : bytes) : Res ProxyError bytes :=
  let identity := session ++ be_bytes 8 packet_id in
  match this with
  | Separate _ =>
      sealed ← cipher_aead this session;
      out ← block this encrypt_block identity;
      nonce ← nonce_window identity;
      '(out, tag) ← finish sealed nonce (out ++ message) SEPARATE_HEADER;
      Ok (out ++ tag)
  | Merged key =>
      '(out, tag) ← finish (XChaCha20, key) random (random ++ identity ++ message) MERGED_NONCE;
      Ok (out ++ tag)
  end.

Definition PacketCipher_open (this : PacketCipher) (datagram : bytes) : Res ProxyError Opened :=
  match this with
  | Separate _ =>
      if (length datagram <? SEPARATE_HEADER)%nat then Err Header else
      identity ← block this decrypt_block (take SEPARATE_HEADER datagram);
      nonce ← nonce_window identity;
      session ← or_panic (get_to identity 8);
      key ← cipher_aead this session;
      message ← reveal key nonce (drop SEPARATE_HEADER datagram);
      identify identity message
  | Merged key =>
      if (length datagram <? MERGED_NONCE)%nat then Err Header else
      plain ← reveal (XChaCha20, key) (take MERGED_NONCE datagram) (drop MERGED_NONCE datagram);
      if (length plain <? SEPARATE_HEADER)%nat then Err Header else
      identify (take SEPARATE_HEADER plain) (drop SEPARATE_HEADER plain)
  end.

End Cipher.

(** ** Messages *)

(** [pick] and [noise] are what the random generator gave. *)
Definition padding_for (target : Target) (pick : bytes) (noise : nat -> bytes) : bytes :=
  if negb (Target_port target =? DNS_PORT) then []
  else noise (Z.to_nat (1 + be_value pick mod MAX_PADDING)).

Definition encode_packet_request (target : Target) (now : Z) (payload pick : bytes) (noise : nat -> bytes) : bytes :=
  Writer_bytes payload
    (encode_address target
      (Writer_vector_u16 (padding_for target pick noise) (Writer_u64 now (Writer_u8 PACKET_TO_SERVER [])))).

Definition decode_packet_response (message client_session : bytes) (now : Z) : Res ProxyError (Target * nat) :=
  match '(type, reader) ← Reader_u8 (Reader_new message);
        '(stamp, reader) ← Reader_u64 reader;
        '(session, reader) ← Reader_array 8 reader; Some (type, stamp, session, reader) with
  | None => Err Header
  | Some (type, stamp, session, reader) =>
      if negb (type =? PACKET_TO_CLIENT) then Err Header else
      check_timestamp stamp now;;
      if negb (bool_decide (session = client_session)) then Err SaltMismatch else
      match Reader_vector_u16 reader with
      | None => Err Header
      | Some (_, reader) =>
          let at_ := Reader_position reader in
          decoded ← decode_address (Reader_rest reader);
          match decoded with
          | Complete value consumed => Ok (value, (at_ + consumed)%nat)
          | Incomplete => Err Header
          end
      end
  end.

(** ** The replay window *)

Record Window := mkWindow { highest : option Z; below : Z }.

Definition Window_default : Window := mkWindow None 0.

Definition admit_id (w : Window) (id : Z) : bool * Window :=
  match highest w with
  | None => (true, mkWindow (Some id) (below w))
  | Some high =>
      match checked_sub high id with
      | None =>
          let gap := id - high in
          let below := if gap <? 64 then Z.lor (wrap 64 (Z.shiftl (below w) gap)) (Z.shiftl 1 (gap - 1)) else 0 in
          (true, mkWindow (Some id) below)
      | Some behind =>
          if (behind =? 0) || (64 <? behind) then (false, w) else
          let bit := Z.shiftl 1 (behind - 1) in
          if negb (Z.land (below w) bit =? 0) then (false, w)
          else (true, mkWindow (highest w) (Z.lor (below w) bit))
      end
  end.

(** The current and the previous session. *)
Abbreviation Sessions := (option (bytes * Window) * option (bytes * Window))%type.

Definition held (slot : option (bytes * Window)) (session : bytes) : option Window :=
  '(id, w) ← slot; if bool_decide (id = session) then Some w else None.

(** [window(session).admit(packet_id)]. *)
Definition admit_in (s : Sessions) (session : bytes) (packet_id : Z) : bool * Sessions :=
  match held s.1 session, held s.2 session with
  | Some w, _ => let '(ok, w) := admit_id w packet_id in (ok, (Some (session, w), s.2))
  | None, Some w => let '(ok, w) := admit_id w packet_id in (ok, (s.1, Some (session, w)))
  | None, None => let '(ok, w) := admit_id Window_default packet_id in (ok, (Some (session, w), s.1))
  end.

(** ** Sending and receiving *)

Record PacketRelay := mkPacketRelay { pr_cipher : PacketCipher; pr_session : bytes; pr_next : Z }.

Section Relay.
Context `{Aead, PacketCrypto}.

(** [fetch_add] of an atomic wraps.  The answer is the datagram for the socket. *)
Definition send_packet (r : PacketRelay) (payload : bytes) (target : Target) (now : Z)
    (random pick : bytes) (noise : nat -> bytes) : Res ProxyError bytes * PacketRelay :=
  let message := encode_packet_request target now payload pick noise in
  let r' := mkPacketRelay (pr_cipher r) (pr_session r) (wrap 64 (pr_next r + 1)) in
  (PacketCipher_seal (pr_cipher r) random (pr_session r) (pr_next r) message, r').

(** One datagram of the loop: its payload and sender, or nothing. *)
Definition recv_one (r : PacketRelay) (s : Sessions) (datagram : bytes) (now : Z)
  : Res ProxyError (option (bytes * Target)) * Sessions :=
  match PacketCipher_open (pr_cipher r) datagram with
  | Err _ => (Ok None, s)
  | Panic => (Panic, s)
  | Ok opened =>
      match decode_packet_response (o_message opened) (pr_session r) now with
      | Err _ => (Ok None, s)
      | Panic => (Panic, s)
      | Ok (from, at_) =>
          let '(ok, s) := admit_in s (o_session opened) (o_packet_id opened) in
          if negb ok then (Ok None, s) else
          (payload ← or_panic (get_from (o_message opened) at_); Ok (Some (payload, from)), s)
      end
  end.

(** [recv_from] over the datagrams that arrive and the clock at each; [None] is still
    waiting. *)
Fixpoint recv_packets {W} (r : PacketRelay) (s : Sessions) (arrivals : list (bytes * Z)) (room : nat)
  : option (Res (EgressError W) (bytes * Target)) * Sessions * list (bytes * Z) :=
  match arrivals with
  | [] => (None, s, [])
  | (datagram, now) :: arrivals =>
      match recv_one r s datagram now with
      | (Ok None, s) => recv_packets r s arrivals room
      | (Ok (Some (payload, from)), s) =>
          (Some (if (room <? length payload)%nat then Err (DatagramTooLarge (length payload)) else Ok (payload, from)), s, arrivals)
      | (Err e, s) => (Some (Err (Proxy e)), s, arrivals)
      | (Panic, s) => (Some Panic, s, arrivals)
      end
  end.
End Relay.

(** * Packets open as they were sealed *)

Section CipherTheory.
Context `{Aead, PacketCrypto, !PacketLaws}.

Lemma reveal_sealed ctx nonce plain cipher tag :
  seal_in_place ctx.1 ctx.2 nonce plain = Some (cipher, tag) -> reveal ctx nonce (cipher ++ tag) = Ok plain.
Proof.
  intros Hs. pose proof (packet_lengths _ _ _ _ _ _ Hs) as [_ Ht]. unfold reveal. rewrite length_app, Ht.
  rewrite (proj2 (Nat.ltb_ge _ _)) by lia. replace (length cipher + TAG - TAG)%nat with (length cipher) by lia.
  by rewrite take_app_length, drop_app_length, (packet_opens _ _ _ _ _ _ Hs).
Qed.

Lemma identify_ok session packet_id message :
  length session = 8%nat -> uint_ok 64 packet_id ->
  identify (session ++ be_bytes 8 packet_id) message = Ok (mkOpened session packet_id message).
Proof.
  intros Hl Hid. unfold identify, Reader_array, Reader_rest, get_to. cbn [Reader_new r_bytes r_at].
  rewrite drop_0, length_app, Hl, (proj2 (Nat.leb_le _ _)) by lia. cbn [mbind option_bind].
  rewrite take_app_length' by done. unfold Reader_u64. pose proof (Reader_uint_app 8 session packet_id []) as Hu.
  rewrite app_nil_r, Hl in Hu. cbn [Nat.add]. by rewrite Hu.
Qed.

Lemma nonce_window_ok identity : length identity = 16%nat -> nonce_window identity = Ok (drop 4 identity).
Proof.
  intros Hl. unfold nonce_window, get_to, get_from, SEPARATE_HEADER. rewrite Hl. cbn [Nat.leb mbind option_bind].
  by rewrite firstn_all2, Hl by lia.
Qed.

Lemma packet_opens_sealed cipher random session packet_id message datagram :
  length session = 8%nat -> uint_ok 64 packet_id -> length random = MERGED_NONCE ->
  PacketCipher_seal cipher random session packet_id message = Ok datagram ->
  PacketCipher_open cipher datagram = Ok (mkOpened session packet_id message).
Proof.
  intros Hl Hid Hr. set (identity := session ++ be_bytes 8 packet_id).
  assert (length identity = 16)%nat as Hi by (unfold identity; rewrite length_app, length_be_bytes; lia).
  unfold PacketCipher_seal, PacketCipher_open. fold identity. destruct cipher as [key|key].
  - rewrite (nonce_window_ok _ Hi). destruct (cipher_aead _ session) as [ctx| |] eqn:Ec; [|done|done].
    cbn [mbind Res_bind block]. destruct (encrypt_block _ _ identity) as [header|] eqn:Eb; [|done]. cbn [ok_or mbind Res_bind].
    pose proof (block_lengths _ _ _ _ Eb) as Hh. rewrite Hi in Hh. unfold finish, SEPARATE_HEADER.
    rewrite drop_app_length' by done. destruct (seal_in_place _ _ _ message) as [[c tag]|] eqn:Es; [|done].
    cbn [ok_or mbind Res_bind]. rewrite take_app_length' by done. intros [= <-]. rewrite <- (assoc_L (++)).
    rewrite (proj2 (Nat.ltb_ge _ _)) by (rewrite length_app; lia). rewrite take_app_length', drop_app_length' by done.
    rewrite (block_decrypts _ _ _ _ Eb). cbn [ok_or mbind Res_bind]. rewrite (nonce_window_ok _ Hi). cbn [mbind Res_bind].
    unfold get_to. rewrite Hi. cbn [Nat.leb or_panic mbind Res_bind]. 
    replace (take 8 identity) with session by (unfold identity; by rewrite take_app_length').
    rewrite Ec. cbn [mbind Res_bind]. rewrite (reveal_sealed _ _ _ _ _ Es). cbn [mbind Res_bind]. by apply identify_ok.
  - unfold finish. rewrite drop_app_length', take_app_length' by done.
    destruct (seal_in_place _ _ _ _) as [[c tag]|] eqn:Es; [|done]. cbn [ok_or mbind Res_bind]. intros [= <-]. rewrite <- (assoc_L (++)).
    rewrite (proj2 (Nat.ltb_ge _ _)) by (rewrite length_app; lia). rewrite take_app_length', drop_app_length' by done.
    rewrite (reveal_sealed (XChaCha20, key) _ _ _ _ Es). cbn [mbind Res_bind].
    rewrite (proj2 (Nat.ltb_ge _ _)) by (rewrite length_app; unfold SEPARATE_HEADER; lia).
    rewrite take_app_length', drop_app_length' by done. by apply identify_ok.
Qed.
End CipherTheory.

(** * The window *)

(** The reference: an id is admitted unless it was before, or is more than 64 behind
    the highest. *)
Definition fresh_id (seen : list Z) (id : Z) : bool :=
  negb (bool_decide (id ∈ seen)) && forallb (fun x => x - id <=? 64) seen.

Fixpoint admits (w : Window) (ids : list Z) : list bool :=
  match ids with [] => [] | id :: ids => let '(ok, w) := admit_id w id in ok :: admits w ids end.

Fixpoint admits_fresh (seen : list Z) (ids : list Z) : list bool :=
  match ids with
  | [] => []
  | id :: ids => let ok := fresh_id seen id in ok :: admits_fresh (if ok then id :: seen else seen) ids
  end.

(** No id is exactly 64 ahead of the highest one before it. *)
Fixpoint no_jump_of_64 (seen : list Z) (ids : list Z) : bool :=
  match ids with
  | [] => true
  | id :: ids => negb (bool_decide (id - 64 ∈ seen) && forallb (fun x => x <=? id - 64) seen) &&
                 no_jump_of_64 (if fresh_id seen id then id :: seen else seen) ids
  end.

Record window_ok (w : Window) (seen : list Z) : Prop := {
  wk_none : highest w = None -> seen = [] /\ below w = 0;
  wk_high : forall high, highest w = Some high -> high ∈ seen /\ Forall (fun x => 0 <= x <= high) seen;
  wk_bits : forall high i, highest w = Some high -> 0 <= i -> Z.testbit (below w) i = bool_decide (i < 64 /\ high - 1 - i ∈ seen);
}.

Lemma bit_clear v i : 0 <= i -> (Z.land v (Z.shiftl 1 i) =? 0) = negb (Z.testbit v i).
Proof.
  intros Hi. rewrite Z.shiftl_1_l. destruct (Z.testbit v i) eqn:E; cbn [negb].
  - apply Z.eqb_neq. intros Hz. apply (f_equal (fun x => Z.testbit x i)) in Hz.
    rewrite Z.land_spec, E, Z.pow2_bits_true, Z.bits_0 in Hz by done. done.
  - apply Z.eqb_eq, Z.bits_inj. intros j. rewrite Z.land_spec, Z.bits_0. destruct (decide (j = i)) as [->|Hj]; [by rewrite E|].
    by rewrite Z.pow2_bits_false, andb_false_r.
Qed.

Lemma fresh_id_true seen id : fresh_id seen id = true <-> id ∉ seen /\ Forall (fun x => x - id <= 64) seen.
Proof.
  unfold fresh_id. rewrite andb_true_iff, negb_true_iff, bool_decide_eq_false, Forall_forall, forallb_forall.
  setoid_rewrite Z.leb_le. by setoid_rewrite list_elem_of_In.
Qed.

Lemma testbit_one_at i j : 0 <= i -> 0 <= j -> Z.testbit (Z.shiftl 1 j) i = bool_decide (i = j).
Proof.
  intros Hi Hj. rewrite Z.shiftl_1_l. destruct (decide (i = j)) as [->|Hne].
  - by rewrite Z.pow2_bits_true, bool_decide_true.
  - by rewrite Z.pow2_bits_false, bool_decide_false.
Qed.

(** An id ahead of the highest moves the window. *)
Lemma window_advances w seen high id :
  window_ok w seen -> highest w = Some high -> high < id -> id <> high + 64 ->
  window_ok (mkWindow (Some id) (if id - high <? 64 then Z.lor (wrap 64 (Z.shiftl (below w) (id - high))) (Z.shiftl 1 (id - high - 1)) else 0))
    (id :: seen).
Proof.
  intros [_ Hh Hb] Hhigh Hlt Hjump. destruct (Hh high Hhigh) as [Hin Hall].
  assert (forall x, x ∈ seen -> 0 <= x <= high) as Hle by (by apply Forall_forall).
  split; cbn [highest below]; [done|..].
  - intros ? [= <-]. split; [by left|]. constructor; [specialize (Hle _ Hin); lia|]. eapply Forall_impl; [exact Hall|]. intros ?; cbn; lia.
  - intros ? i [= <-] Hi.
    assert (id - 1 - i ∈ id :: seen <-> id - 1 - i ∈ seen) as Hcons.
    { rewrite elem_of_cons. split; [intros [?|?]; [lia|done]|by right]. }
    destruct (id - high <? 64) eqn:Eg; reflect.
    + rewrite Z.lor_spec, testbit_one_at by lia. unfold wrap. rewrite Z.testbit_mod_pow2 by lia. rewrite Z.shiftl_spec by lia.
      destruct (decide (i < id - high)) as [Hsmall|Hbig].
      * rewrite Z.testbit_neg_r by lia. rewrite andb_false_r. cbn [orb]. apply bool_decide_ext. rewrite Hcons. split.
        -- intros ->. split; [lia|]. by replace (id - 1 - (id - high - 1)) with high by lia.
        -- intros [_ Hin']. specialize (Hle _ Hin'). lia.
      * rewrite (Hb high) by (done || lia). rewrite (bool_decide_false (i = _)) by lia. rewrite orb_false_r.
        replace (high - 1 - (i - (id - high))) with (id - 1 - i) by lia.
        destruct (i <? 64) eqn:E; reflect; cbn [andb]; [|rewrite bool_decide_false; [done|lia]].
        apply bool_decide_ext. rewrite Hcons. split; intros [_ ?]; (split; [lia|done]).
    + rewrite Z.bits_0, bool_decide_false; [done|]. rewrite Hcons. intros [Hi' Hin']. specialize (Hle _ Hin'). lia.
Qed.

(** An id behind it, not seen before, sets its bit. *)
Lemma window_fills w seen high id :
  window_ok w seen -> highest w = Some high -> 0 <= id -> 1 <= high - id <= 64 ->
  window_ok (mkWindow (highest w) (Z.lor (below w) (Z.shiftl 1 (high - id - 1)))) (id :: seen).
Proof.
  intros [_ Hh Hb] Hhigh Hid Hbehind. destruct (Hh high Hhigh) as [Hin Hall].
  split; cbn [highest below]; rewrite Hhigh; [done|..].
  - intros ? [= <-]. split; [by right|]. constructor; [lia|done].
  - intros ? i [= <-] Hi. rewrite Z.lor_spec, (Hb high), testbit_one_at by (done || lia).
    destruct (decide (i = high - id - 1)) as [->|Hne].
    + rewrite (bool_decide_true (high - id - 1 = _)), orb_true_r by done. symmetry. apply bool_decide_eq_true. split; [lia|].
      replace (high - 1 - (high - id - 1)) with id by lia. by left.
    + rewrite (bool_decide_false (i = _)), orb_false_r by done. apply bool_decide_ext. rewrite elem_of_cons.
      split; [intros [? ?]; by split; [|right]|]. intros [? [?|?]]; [lia|done].
Qed.

Lemma admit_step w seen id :
  window_ok w seen -> 0 <= id -> ~ (id - 64 ∈ seen /\ Forall (fun x => x <= id - 64) seen) ->
  (admit_id w id).1 = fresh_id seen id /\
  window_ok (admit_id w id).2 (if fresh_id seen id then id :: seen else seen).
Proof.
  intros Hok Hid Hjump. pose proof Hok as [Hn Hh Hb]. unfold admit_id. destruct (highest w) as [high|] eqn:Ehigh.
  2:{ destruct (Hn eq_refl) as [-> Hz]. split; [done|]. cbn. rewrite Hz. split; cbn; [done|..].
      - intros ? [= <-]. split; [by left|]. by repeat constructor.
      - intros ? i [= <-] Hi. rewrite Z.bits_0, bool_decide_false; [done|]. intros [_ [?|?%not_elem_of_nil]%elem_of_cons]; lia. }
  destruct (Hh high eq_refl) as [Hin Hall]. assert (forall x, x ∈ seen -> 0 <= x <= high) as Hle by (by apply Forall_forall).
  unfold checked_sub. destruct (id <=? high) eqn:Ele; reflect.
  - destruct ((high - id =? 0) || (64 <? high - id)) eqn:Eout.
    + assert (fresh_id seen id = false) as ->; [|done].
      apply not_true_iff_false. rewrite fresh_id_true, Forall_forall. intros [Hnot Hnear]. specialize (Hnear high Hin).
      apply orb_true_iff in Eout as [E|E]; reflect; [|lia]. apply Hnot. by replace id with high by lia.
    + apply orb_false_iff in Eout as [E0 E64]. reflect. rewrite bit_clear, (Hb high) by (done || lia).
      replace (high - 1 - (high - id - 1)) with id by lia. destruct (decide (id ∈ seen)) as [Hs|Hs].
      * rewrite bool_decide_true by (split; [lia|done]). cbn [negb].
        assert (fresh_id seen id = false) as -> by (apply not_true_iff_false; rewrite fresh_id_true; by intros [? _]). done.
      * rewrite bool_decide_false by (by intros [_ ?]). cbn [negb].
        assert (fresh_id seen id = true) as ->.
        { apply fresh_id_true. split; [done|]. eapply Forall_impl; [exact Hall|]. cbn. intros ?; lia. }
        split; [done|]. rewrite <- Ehigh. apply window_fills; (done || lia).
  - assert (fresh_id seen id = true) as ->.
    { apply fresh_id_true. split; [intros ?%Hle; lia|]. eapply Forall_impl; [exact Hall|]. cbn. intros ?; lia. }
    split; [done|]. apply window_advances; try done. intros ->. apply Hjump. replace (high + 64 - 64) with high by lia.
    split; [done|]. eapply Forall_impl; [exact Hall|]. cbn. intros ?; lia.
Qed.

Lemma admits_from w seen ids :
  window_ok w seen -> Forall (fun id => 0 <= id) ids -> no_jump_of_64 seen ids = true -> admits w ids = admits_fresh seen ids.
Proof.
  intros Hok Hids. revert w seen Hok. induction Hids as [|id ids Hid _ IH]; intros w seen Hok Hj; [done|].
  cbn [no_jump_of_64 admits admits_fresh] in *. apply andb_true_iff in Hj as [Hj Hjs].
  destruct (admit_step w seen id Hok Hid) as [He Hok'].
  { apply negb_true_iff, andb_false_iff in Hj. intros [Hin Hall]. destruct Hj as [Hj|Hj].
    - by apply bool_decide_eq_false in Hj.
    - apply not_true_iff_false in Hj. apply Hj, forallb_forall. intros x Hx. rewrite Forall_forall in Hall.
      apply Z.leb_le, Hall. by apply list_elem_of_In. }
  destruct (admit_id w id) as [ok w']. cbn [fst snd] in *. subst ok. f_equal. by apply IH.
Qed.

Lemma window_default_ok : window_ok Window_default [].
Proof. by split. Qed.

(** C30: The replay window admits exactly the packets that are new and at most 64 behind
    the highest seen, each once, as long as no packet is exactly 64 ahead of the highest
    one before it. *)
Theorem window_exact ids :
  Forall (fun id => 0 <= id) ids -> no_jump_of_64 [] ids = true ->
  admits Window_default ids = admits_fresh [] ids.
Proof. apply admits_from, window_default_ok. Qed.

Lemma window_exact_witness :
  admits Window_default [5; 3; 5; 70; 6; 6; 5; 4; 300] = [true; true; false; true; true; false; false; false; true].
Proof. rewrite (window_exact [5; 3; 5; 70; 6; 6; 5; 4; 300]); [reflexivity|by repeat constructor|reflexivity]. Defined.

(** A packet that is exactly 64 ahead makes the window forget the one that was the
    highest, which is still within it: a replay of that packet is admitted again. *)
Theorem window_readmits id :
  0 <= id -> admits Window_default [id; id + 64; id] = [true; true; true] /\ admits_fresh [] [id; id + 64; id] = [true; true; false].
Proof.
  intros Hid. split.
  - unfold admits, admit_id, Window_default. cbn [highest below]. unfold checked_sub.
    rewrite (proj2 (Z.leb_gt (id + 64) id)) by lia. replace (id + 64 - id) with 64 by lia. cbn [Z.ltb Z.compare highest].
    rewrite (proj2 (Z.leb_le id (id + 64))) by lia. by replace (id + 64 - id) with 64 by lia.
  - cbn [admits_fresh]. assert (fresh_id [] id = true) as -> by done.
    assert (fresh_id [id] (id + 64) = true) as ->.
    { apply fresh_id_true. split; [|by repeat constructor; lia]. intros [?|?%not_elem_of_nil]%elem_of_cons; [lia|done]. }
    assert (fresh_id [id + 64; id] id = false) as ->; [|done].
    apply not_true_iff_false. rewrite fresh_id_true. intros [Hn _]. apply Hn. right. by left.
Qed.

Lemma window_readmits_witness :
  admits Window_default [0; 0 + 64; 0] = [true; true; true] /\ admits_fresh [] [0; 0 + 64; 0] = [true; true; false].
Proof. apply (window_readmits 0). reflexivity. Defined.

(** * Replies *)

(** An id just admitted is not admitted again. *)
Lemma admit_twice w id w' : admit_id w id = (true, w') -> admit_id w' id = (false, w').
Proof.
  assert (forall b, admit_id (mkWindow (Some id) b) id = (false, mkWindow (Some id) b)) as Hsame.
  { intros b. unfold admit_id, checked_sub. cbn [highest]. by rewrite Z.leb_refl, Z.sub_diag. }
  unfold admit_id at 1. destruct (highest w) as [high|] eqn:Eh; [|by intros [= <-]].
  unfold checked_sub. destruct (id <=? high) eqn:Ele; [|by intros [= <-]].
  destruct ((high - id =? 0) || (64 <? high - id)) eqn:Eout; [done|].
  destruct (negb _) eqn:Ebit; [done|]. intros [= <-]. unfold admit_id. cbn [highest below]. unfold checked_sub.
  rewrite Ele, Eout. apply orb_false_iff in Eout as [E0 _]. reflect.
  rewrite bit_clear, Z.lor_spec, testbit_one_at, bool_decide_true, orb_true_r by (done || lia). done.
Qed.

Lemma admit_in_twice s session id s' : admit_in s session id = (true, s') -> admit_in s' session id = (false, s').
Proof.
  assert (forall w, held (Some (session, w)) session = Some w) as Hheld by (intros; unfold held; cbn; by rewrite bool_decide_true).
  unfold admit_in at 1. destruct (held s.1 session) as [w|] eqn:E1; [|destruct (held s.2 session) as [w|] eqn:E2].
  - destruct (admit_id w id) as [ok w'] eqn:Ea. intros [= -> <-]. unfold admit_in. cbn [fst snd].
    by rewrite Hheld, (admit_twice _ _ _ Ea).
  - destruct (admit_id w id) as [ok w'] eqn:Ea. intros [= -> <-]. unfold admit_in. cbn [fst snd].
    by rewrite E1, Hheld, (admit_twice _ _ _ Ea).
  - destruct (admit_id Window_default id) as [ok w'] eqn:Ea. intros [= -> <-]. unfold admit_in. cbn [fst snd].
    by rewrite Hheld, (admit_twice _ _ _ Ea).
Qed.

(** What a server seals for a client's session. *)
Definition response_message (stamp : Z) (client_session padding : bytes) (from : Target) (payload : bytes) : bytes :=
  [PACKET_TO_CLIENT] ++ be_bytes 8 stamp ++ client_session ++
  (be_bytes 2 (Z.of_nat (length padding)) ++ padding) ++ encode_address from [] ++ payload.

Lemma Reader_array_app n pre xs post :
  length xs = n -> Reader_array n (mkReader (pre ++ xs ++ post) (length pre)) = Some (xs, mkReader (pre ++ xs ++ post) (length pre + n)).
Proof.
  intros <-. unfold Reader_array, Reader_rest, get_to. cbn [r_bytes r_at]. rewrite drop_app_length, length_app.
  rewrite (proj2 (Nat.leb_le _ _)) by lia. cbn. by rewrite take_app_length.
Qed.

Lemma Reader_vector_u16_app pre xs post :
  Z.of_nat (length xs) <= 0xffff ->
  Reader_vector_u16 (mkReader (pre ++ (be_bytes 2 (Z.of_nat (length xs)) ++ xs) ++ post) (length pre)) =
    Some (xs, mkReader (pre ++ (be_bytes 2 (Z.of_nat (length xs)) ++ xs) ++ post) (length pre + (2 + length xs))).
Proof.
  intros Hl. unfold Reader_vector_u16, Reader_u16. rewrite <- (assoc_L (++)).
  rewrite Reader_uint_app by (cbn; lia). cbn [mbind option_bind]. rewrite Nat2Z.id.
  pose proof (Reader_take_app (pre ++ be_bytes 2 (Z.of_nat (length xs))) xs post) as Ht.
  rewrite length_app, length_be_bytes, <- (assoc_L (++)) in Ht. rewrite Ht. by rewrite Nat.add_assoc.
Qed.

Lemma packet_response_decodes stamp session padding from payload now :
  uint_ok 64 stamp -> Z.abs (now - stamp) <= CLOCK_SKEW_SECONDS -> length session = 8%nat ->
  Z.of_nat (length padding) <= 0xffff -> target_ok from ->
  exists at_, decode_packet_response (response_message stamp session padding from payload) session now = Ok (from, at_) /\
    get_from (response_message stamp session padding from payload) at_ = Some payload.
Proof.
  intros Hst Hskew Hl Hpad Hfrom. set (pad := be_bytes 2 (Z.of_nat (length padding)) ++ padding).
  set (tail := encode_address from [] ++ payload).
  pose proof (Reader_uint_app 8 [PACKET_TO_CLIENT] stamp (session ++ pad ++ tail) Hst) as R8. cbn [app length Nat.add] in R8.
  pose proof (Reader_array_app 8 (PACKET_TO_CLIENT :: be_bytes 8 stamp) session (pad ++ tail) Hl) as Ra.
  cbn [length] in Ra. rewrite length_be_bytes in Ra. cbn [app Nat.add] in Ra.
  pose proof (Reader_vector_u16_app (PACKET_TO_CLIENT :: be_bytes 8 stamp ++ session) padding tail Hpad) as Rv.
  cbn [length] in Rv. rewrite length_app, length_be_bytes, Hl in Rv. fold pad in Rv. cbn [app Nat.add] in Rv. rewrite <- (assoc_L (++)) in Rv.
  assert (drop (S (8 + 8) + (2 + length padding)) (PACKET_TO_CLIENT :: be_bytes 8 stamp ++ session ++ pad ++ tail) = tail) as Hdrop.
  { assert (S (8 + 8) + (2 + length padding) = length (PACKET_TO_CLIENT :: be_bytes 8 stamp ++ session ++ pad))%nat as ->.
    { unfold pad. cbn [length]. rewrite !length_app, !length_be_bytes, Hl. lia. }
    change (PACKET_TO_CLIENT :: ?l) with ([PACKET_TO_CLIENT] ++ l). rewrite !(assoc_L (++)). apply drop_app_length. }
  exists (S (8 + 8) + (2 + length padding) + length (encode_address from []))%nat. split.
  - unfold decode_packet_response, response_message. fold pad tail. cbn [app].
    change (Reader_u8 (Reader_new (PACKET_TO_CLIENT :: ?l))) with (Some (PACKET_TO_CLIENT, mkReader (PACKET_TO_CLIENT :: l) 1)).
    cbn [mbind option_bind]. unfold Reader_u64. rewrite R8. cbn [mbind option_bind]. rewrite Ra. cbn [mbind option_bind].
    change (negb (PACKET_TO_CLIENT =? PACKET_TO_CLIENT)) with false. cbv iota. unfold check_timestamp.
    rewrite (proj2 (Z.ltb_ge _ _)) by lia. cbn [mbind Res_bind]. rewrite bool_decide_true by done. cbn [negb].
    cbn [Nat.add] in Rv. rewrite Rv. unfold Reader_rest, Reader_position. cbn [r_bytes r_at]. cbn [Nat.add] in Hdrop. rewrite Hdrop.
    unfold tail. by rewrite (address_roundtrip from payload Hfrom).
  - unfold response_message. fold pad tail. cbn [app]. unfold get_from.
    rewrite (proj2 (Nat.leb_le _ _)); [rewrite <- drop_drop, Hdrop; unfold tail; by rewrite drop_app_length|].
    apply (f_equal length) in Hdrop. rewrite length_drop in Hdrop. unfold tail in Hdrop. rewrite length_app in Hdrop. fold tail in Hdrop.
    destruct (encode_address from []) eqn:Ea; [by destruct from as [[[]]|]|]. cbn [length] in *. lia.
Qed.

(** A datagram the loop passes over: it does not open, or is no valid response. *)
Definition is_noise `{Aead, PacketCrypto} (r : PacketRelay) (arrival : bytes * Z) : Prop :=
  match PacketCipher_open (pr_cipher r) arrival.1 with
  | Err _ => True
  | Ok opened => exists e, decode_packet_response (o_message opened) (pr_session r) arrival.2 = Err e
  | Panic => False
  end.

Lemma noise_ignored `{Aead, PacketCrypto} {W} r s noise arrivals room :
  Forall (is_noise r) noise ->
  recv_packets (W := W) r s (noise ++ arrivals) room = recv_packets r s arrivals room.
Proof.
  intros Hn. induction Hn as [|[d now] noise Hd _ IH]; [done|]. cbn [app recv_packets]. unfold recv_one, is_noise in *. cbn [fst snd] in Hd.
  destruct (PacketCipher_open _ d) as [opened|e|]; [|exact IH|done]. destruct Hd as [e ->]. exact IH.
Qed.

(** A server's reply reaches the caller through any noise: datagrams that do not
    authenticate or are no valid response leave the receiver as it was, and the first
    reply sealed for this association, with a packet id its session's window admits,
    is answered with its payload and sender; the same datagram replayed is dropped. *)
Theorem reply_delivered `{Aead, PacketCrypto, !PacketLaws} {W : Type}
    r s s' noise later datagram now again random server_session id stamp padding from payload room :
  Forall (is_noise r) noise -> length (pr_session r) = 8%nat -> length server_session = 8%nat -> uint_ok 64 id ->
  length random = MERGED_NONCE -> uint_ok 64 stamp -> Z.abs (now - stamp) <= CLOCK_SKEW_SECONDS ->
  Z.of_nat (length padding) <= 0xffff -> target_ok from ->
  PacketCipher_seal (pr_cipher r) random server_session id (response_message stamp (pr_session r) padding from payload) = Ok datagram ->
  admit_in s server_session id = (true, s') ->
  recv_packets (W := W) r s (noise ++ (datagram, now) :: later) room =
    (Some (if (length payload <=? room)%nat then Ok (payload, from) else Err (DatagramTooLarge (length payload))), s', later) /\
  (Z.abs (again - stamp) <= CLOCK_SKEW_SECONDS -> recv_one r s' datagram again = (Ok None, s')).
Proof.
  intros Hnoise Hcl Hsl Hid Hr Hst Hskew Hpad Hfrom Hseal Hadm.
  pose proof (packet_opens_sealed _ _ _ _ _ _ Hsl Hid Hr Hseal) as Hopen. split.
  - rewrite (noise_ignored r s noise _ room Hnoise). cbn [recv_packets]. unfold recv_one. rewrite Hopen. cbn [o_message o_session o_packet_id].
    destruct (packet_response_decodes stamp (pr_session r) padding from payload now) as (at_ & -> & Hget); try done.
    rewrite Hadm. cbn [negb]. rewrite Hget. cbn [or_panic mbind Res_bind]. by rewrite Nat.ltb_antisym, if_negb.
  - intros Hagain. unfold recv_one. rewrite Hopen. cbn [o_message o_session o_packet_id].
    destruct (packet_response_decodes stamp (pr_session r) padding from payload again) as (at_ & -> & _); try done.
    by rewrite (admit_in_twice _ _ _ _ Hadm).
Qed.

(** * Sizes *)

Lemma encode_address_app target out : encode_address target out = out ++ encode_address target [].
Proof.
  unfold encode_address, Writer_vector_u8, Writer_u16, Writer_bytes, Writer_u8.
  destruct target as [[[]]|]; by rewrite <- !(assoc_L (++)).
Qed.

Lemma encode_address_length target :
  length (encode_address target []) =
    match target with Ip (mkEndpoint (V4 ip) _) | Ip (mkEndpoint (V6 ip) _) => 3 + length ip | Domain host _ => 4 + length host end%nat.
Proof.
  unfold encode_address, Writer_vector_u8, Writer_u16, Writer_bytes, Writer_u8.
  destruct target as [[[]]|]; cbn [app]; rewrite ?length_app; cbn [length]; rewrite ?length_app; cbn; lia.
Qed.

Lemma encode_packet_request_length target now payload pick noise :
  Target_port target <> DNS_PORT ->
  length (encode_packet_request target now payload pick noise) = (11 + length (encode_address target []) + length payload)%nat.
Proof.
  intros Hp. unfold encode_packet_request, padding_for. rewrite (proj2 (Z.eqb_neq _ _)) by done. cbn [negb].
  rewrite encode_address_app. unfold Writer_bytes, Writer_vector_u16, Writer_u16, Writer_u64, Writer_u8, Writer_bytes.
  rewrite !length_app, !length_be_bytes. cbn. lia.
Qed.

Lemma seal_length `{Aead, PacketCrypto, !PacketLaws} cipher random session packet_id message datagram :
  length session = 8%nat -> length random = MERGED_NONCE ->
  PacketCipher_seal cipher random session packet_id message = Ok datagram ->
  length datagram = (length message + TAG + match cipher with Separate _ => 16 | Merged _ => 24 + 16 end)%nat.
Proof.
  intros Hl Hr. unfold PacketCipher_seal, finish. destruct cipher as [key|key].
  - destruct (cipher_aead _ _) as [ctx| |]; [|done|done]. cbn [mbind Res_bind block].
    destruct (encrypt_block _ _ _) as [header|] eqn:Eb; [|done]. cbn [ok_or mbind Res_bind].
    destruct (nonce_window _) as [nonce| |]; [|done|done]. cbn [mbind Res_bind].
    apply block_lengths in Eb. rewrite length_app, length_be_bytes, Hl in Eb. rewrite drop_app_length', take_app_length' by done.
    destruct (seal_in_place _ _ _ _) as [[c tag]|] eqn:Es; [|done]. cbn. intros [= <-].
    apply packet_lengths in Es as [Hc Ht]. rewrite !length_app. lia.
  - rewrite drop_app_length', take_app_length' by done. destruct (seal_in_place _ _ _ _) as [[c tag]|] eqn:Es; [|done]. cbn. intros [= <-].
    apply packet_lengths in Es as [Hc Ht]. rewrite !length_app, ?length_be_bytes in *. unfold MERGED_NONCE in *. lia.
Qed.

(** A payload of at most the advertised size, to any target but a DNS server, fits the
    smallest IPv6 packet in the AES format, headers included. *)
Theorem separate_fits_mtu `{Aead, PacketCrypto, !PacketLaws} key session next target payload now random pick noise datagram r' :
  length session = 8%nat -> length random = MERGED_NONCE -> target_ok target -> Target_port target <> DNS_PORT ->
  Z.of_nat (length payload) <= MAX_PROXIED_DATAGRAM ->
  send_packet (mkPacketRelay (Separate key) session next) payload target now random pick noise = (Ok datagram, r') ->
  48 + Z.of_nat (length datagram) <= MIN_IPV6_MTU.
Proof.
  intros Hl Hr [_ Ht] Hp Hmax Hseal%(f_equal fst). cbn [send_packet fst pr_cipher pr_session pr_next] in Hseal. apply seal_length in Hseal; [|done|done].
  rewrite encode_packet_request_length, encode_address_length in Hseal by done.
  change MAX_PROXIED_DATAGRAM with 922 in Hmax. unfold MIN_IPV6_MTU, TAG in *.
  destruct target as [[[ip|ip] p]|host p]; [destruct Ht as [_ Ht]; cbn in Ht; lia..|]. destruct (dn_len _ Ht). lia.
Qed.

(** In the ChaCha20 format the advertised size does not fit: the session and packet
    ids sealed with the message are not in its budget, so a payload of that size for a
    name of the longest length makes a packet 16 bytes larger than the smallest IPv6
    packet. *)
Theorem merged_exceeds_mtu `{Aead, PacketCrypto, !PacketLaws} key session next host p payload now random pick noise datagram r' :
  length session = 8%nat -> length random = MERGED_NONCE -> length host = 255%nat -> p <> DNS_PORT ->
  Z.of_nat (length payload) = MAX_PROXIED_DATAGRAM ->
  send_packet (mkPacketRelay (Merged key) session next) payload (Domain host p) now random pick noise = (Ok datagram, r') ->
  48 + Z.of_nat (length datagram) = MIN_IPV6_MTU + 16.
Proof.
  intros Hl Hr Hh Hp Hmax Hseal%(f_equal fst). cbn [send_packet fst pr_cipher pr_session pr_next] in Hseal. apply seal_length in Hseal; [|done|done].
  rewrite encode_packet_request_length, encode_address_length in Hseal by done.
  change MAX_PROXIED_DATAGRAM with 922 in Hmax. unfold MIN_IPV6_MTU, TAG in *. lia.
Qed.

(** ** Ciphers for the witnesses *)

(** The tag is the head of the nonce, and a block is reversed. *)
#[local] Instance toy_packets : PacketCrypto := {|
  seal_in_place := fun _ key nonce plain => Some ((fun b => b + toy_shift key) <$> plain, toy_tag nonce);
  open_in_place := fun _ key nonce cipher tag =>
    if bool_decide (tag = toy_tag nonce) then Some ((fun b => b - toy_shift key) <$> cipher) else None;
  encrypt_block := fun _ _ plain => Some (reverse plain);
  decrypt_block := fun _ _ cipher => Some (reverse cipher);
|}.

#[local] Instance toy_packet_laws : PacketLaws.
Proof.
  split; cbn [seal_in_place open_in_place encrypt_block decrypt_block toy_packets].
  - intros a key nonce plain cipher tag [= <- <-]. rewrite bool_decide_true by done. f_equal.
    rewrite <- list_fmap_compose. induction plain as [|b plain IH]; [done|]. cbn. rewrite IH. f_equal. unfold compose. lia.
  - intros a key nonce plain cipher tag [= <- <-]. by rewrite length_fmap, toy_tag_len.
  - intros m key plain cipher [= <-]. by rewrite reverse_involutive.
  - intros m key plain cipher [= <-]. apply length_reverse.
  - intros m key cipher plain [= <-]. apply length_reverse.
Qed.

Definition toy_relay : PacketRelay := mkPacketRelay (Separate toy_key) (replicate 8 1) 0.

Definition toy_reply : bytes :=
  match PacketCipher_seal (H := toy_aead) (pr_cipher toy_relay) (replicate 24 0) (replicate 8 2) 7
    (response_message 1000 (replicate 8 1) [] sample_bound [1; 2; 3]) with Ok d => d | _ => [] end.

Lemma reply_delivered_witness :
  recv_packets (H := toy_aead) (W := unit) toy_relay (None, None) ([([1; 2; 3], 5); (replicate 40 9, 5)] ++ (toy_reply, 1010) :: []) 64 =
    (Some (Ok ([1; 2; 3], sample_bound)), (admit_in (None, None) (replicate 8 2) 7).2, []) /\
  (Z.abs (1020 - 1000) <= CLOCK_SKEW_SECONDS ->
   recv_one (H := toy_aead) toy_relay (admit_in (None, None) (replicate 8 2) 7).2 toy_reply 1020 =
     (Ok None, (admit_in (None, None) (replicate 8 2) 7).2)).
Proof.
  apply (reply_delivered (H := toy_aead) (W := unit) toy_relay (None, None) (admit_in (None, None) (replicate 8 2) 7).2
    [([1; 2; 3], 5); (replicate 40 9, 5)] [] toy_reply 1010 1020 (replicate 24 0) (replicate 8 2) 7 1000 [] sample_bound [1; 2; 3] 64).
  - repeat constructor; vm_compute; done.
  - reflexivity.
  - reflexivity.
  - by split.
  - reflexivity.
  - by split.
  - vm_compute. discriminate.
  - vm_compute. discriminate.
  - exact sample_bound_ok.
  - vm_compute. reflexivity.
  - vm_compute. reflexivity.
Defined.

(** What a relay sends to [target], with no randomness to speak of. *)
Definition toy_sent (cipher : PacketCipher) (target : Target) : bytes :=
  match (send_packet (H := toy_aead) (mkPacketRelay cipher (replicate 8 1) 0) (replicate (Z.to_nat 922) 5) target 1000
           (replicate 24 0) [0; 0] (fun n => replicate n 0)).1 with Ok d => d | _ => [] end.

Lemma separate_fits_mtu_witness : 48 + Z.of_nat (length (toy_sent (Separate toy_key) sample_bound)) <= MIN_IPV6_MTU.
Proof.
  apply (separate_fits_mtu (H := toy_aead) toy_key (replicate 8 1) 0 sample_bound (replicate (Z.to_nat 922) 5) 1000 (replicate 24 0)
    [0; 0] (fun n => replicate n 0) _ (mkPacketRelay (Separate toy_key) (replicate 8 1) 1)).
  - reflexivity.
  - reflexivity.
  - exact sample_bound_ok.
  - vm_compute. discriminate.
  - vm_compute. discriminate.
  - vm_compute. reflexivity.
Defined.

Lemma merged_exceeds_mtu_witness :
  48 + Z.of_nat (length (toy_sent (Merged (replicate 32 7)) (Domain (replicate 255 97) 443))) = MIN_IPV6_MTU + 16.
Proof.
  apply (merged_exceeds_mtu (H := toy_aead) (replicate 32 7) (replicate 8 1) 0 (replicate 255 97) 443 (replicate (Z.to_nat 922) 5) 1000
    (replicate 24 0) [0; 0] (fun n => replicate n 0) _ (mkPacketRelay (Merged (replicate 32 7)) (replicate 8 1) 1)).
  - reflexivity.
  - reflexivity.
  - reflexivity.
  - discriminate.
  - vm_compute. reflexivity.
  - vm_compute. reflexivity.
Defined.
