(* ===== verification/Hysteria2.v ===== *)
(** Hysteria2 ([src/egress/hysteria2.rs]): the stream request and its response, UDP
    messages in fragments, and the hub that routes them to sessions. *)

From stdpp Require Import gmap.
From S2P Require Import Prelude Wire Net Plan Pool Varint IpText Egress Sansio.
Open Scope Z_scope.

Definition FRAME_TCP_REQUEST : Z := 0x401.
Definition MAX_ADDRESS_LEN : Z := 2048.
Definition MAX_MESSAGE_LEN : Z := 2048.
Definition MAX_PADDING_LEN : Z := 4096.
Definition AUTH_PADDING : Z * Z := (256, 2048).
Definition REQUEST_PADDING : Z * Z := (64, 512).

(** ['a'..='z'], ['A'..='Z'], ['0'..='9']. *)
Definition PADDING_ALPHABET : bytes := seqZ 97 26 ++ seqZ 65 26 ++ seqZ 48 10.

(** [choice] and [noise] are what the random generator gave. *)
Definition padding {E} (range : Z * Z) (choice : bytes) (noise : nat -> bytes) : Res E bytes :=
  let span := range.2 - range.1 in
  let length_ := range.1 + be_value choice mod span in
  mapM (fun byte => or_panic (PADDING_ALPHABET !! Z.to_nat (byte mod Z.of_nat (length PADDING_ALPHABET)))) (noise (Z.to_nat length_)).

(** ** The text of a target *)

Definition Target_fmt (t : Target) : bytes :=
  match t with
  | Ip socket => socket_text socket
  | Domain host p => host ++ [COLON] ++ decimal p
  end.

Section Messages.
Context `{Varint}.

(** ** Streams *)

Definition encode_tcp_request (target : Target) (padding out : bytes) : bytes :=
  Writer_vector_varint padding (Writer_vector_varint (Target_fmt target) (Writer_varint FRAME_TCP_REQUEST out)).

Inductive TcpResponse := Accepted | RefusedWith (message : bytes).

Definition decode_tcp_response (bs : bytes) : Res ProxyError (Decoded TcpResponse) :=
  match Reader_u8 (Reader_new bs) with
  | None => Ok Incomplete
  | Some (status, reader) =>
  match Reader_varint reader with
  | None => Ok Incomplete
  | Some (message_len, reader) =>
  if MAX_MESSAGE_LEN <? message_len then Err Header else
  match Reader_take reader (Z.to_nat message_len) with
  | None => Ok Incomplete
  | Some (message, reader) =>
  match Reader_varint reader with
  | None => Ok Incomplete
  | Some (padding_len, reader) =>
  if MAX_PADDING_LEN <? padding_len then Err Header else
  match Reader_skip reader (Z.to_nat padding_len) with
  | None => Ok Incomplete
  | Some reader =>
      if negb (utf8_ok message) then Err Header else
      Ok (Complete (if status =? 0 then Accepted else RefusedWith message) (Reader_position reader))
  end end end end end.

Record OpenStream := mkOpenStream { os_request : option bytes }.

Definition OpenStream_new (target : Target) (padding : bytes) : OpenStream :=
  mkOpenStream (Some (encode_tcp_request target padding [])).

Definition OpenStream_advance (m : OpenStream) (input out : bytes) : Res ProxyError (Decoded unit) * OpenStream * bytes :=
  let out := match os_request m with Some request => out ++ request | None => out end in
  let m := mkOpenStream None in
  match decode_tcp_response input with
  | Ok (Complete (RefusedWith message) _) => (Err (Denied message), m, out)
  | Ok (Complete Accepted consumed) => (Ok (Complete tt consumed), m, out)
  | Ok Incomplete => (Ok Incomplete, m, out)
  | Err e => (Err e, m, out)
  | Panic => (Panic, m, out)
  end.

#[global] Instance OpenStream_negotiation : Negotiation OpenStream unit := OpenStream_advance.

(** ** Datagrams *)

Record UdpMessage := mkUdpMessage {
  um_session : Z;
  um_packet : Z;
  um_fragment : Z;
  um_fragments : Z;
  um_address : bytes;
  um_payload : bytes;
}.

Definition UDP_FIXED : nat := 4 + 2 + 1 + 1.
Definition MAX_DATAGRAM_FRAME : nat := Z.to_nat 1200.

Definition header_len (address : bytes) : nat := UDP_FIXED + varint_len (Z.of_nat (length address)) + length address.

Definition UdpMessage_write (m : UdpMessage) (out : bytes) : bytes :=
  Writer_bytes (um_payload m)
    (Writer_vector_varint (um_address m)
      (Writer_u8 (um_fragments m) (Writer_u8 (um_fragment m) (Writer_u16 (um_packet m) (Writer_u32 (um_session m) out))))).

Definition UdpMessage_read (bs : bytes) : option UdpMessage :=
  '(session, reader) ← Reader_u32 (Reader_new bs);
  '(packet, reader) ← Reader_u16 reader;
  '(fragment, reader) ← Reader_u8 reader;
  '(fragments, reader) ← Reader_u8 reader;
  '(length_, reader) ← Reader_varint reader;
  if (length_ =? 0) || (MAX_MESSAGE_LEN <? length_) then None else
  '(address, reader) ← Reader_take reader (Z.to_nat length_);
  let payload := Reader_rest reader in
  if (length payload =? 0)%nat then None else
  if utf8_ok address then Some (mkUdpMessage session packet fragment fragments address payload) else None.

(** [chunks(budget)] of a positive budget. *)
Fixpoint chunks (fuel budget : nat) (l : bytes) : list bytes :=
  match fuel, l with
  | O, _ | _, [] => []
  | S fuel, _ => take budget l :: chunks fuel budget (drop budget l)
  end.

(** [payload.len().div_ceil(budget)]. *)
Definition div_ceil (a b : nat) : nat := ((a + b - 1) / b)%nat.

Definition fragment (session packet : Z) (address payload : bytes) (frame : nat) : option (list bytes) :=
  if (frame <? header_len address)%nat then None else
  let budget := (frame - header_len address)%nat in
  if (budget =? 0)%nat then None else
  let count := (div_ceil (length payload) budget `max` 1)%nat in
  if (255 <? count)%nat then None else
  Some (imap (fun index chunk =>
      UdpMessage_write (mkUdpMessage session packet (wrap 8 (Z.of_nat index)) (Z.of_nat count) address chunk) [])
    (chunks (length payload) budget payload ++ (if (length payload =? 0)%nat then [[]] else []))).

Record Defragmenter := mkDefragmenter {
  df_packet : Z;
  df_fragments : Z;
  df_held : list (option bytes);
}.

Definition Defragmenter_default : Defragmenter := mkDefragmenter 0 0 [].

Definition Defragmenter_push (d : Defragmenter) (m : UdpMessage) : Res ProxyError (option bytes) * Defragmenter :=
  if um_fragments m <=? 1 then (Ok (Some (um_payload m)), d) else
  if um_fragments m <=? um_fragment m then (Ok None, d) else
  let d := if negb (df_packet d =? um_packet m) || negb (df_fragments d =? um_fragments m)
           then mkDefragmenter (um_packet m) (um_fragments m) (replicate (Z.to_nat (um_fragments m)) None) else d in
  let index := Z.to_nat (um_fragment m) in
  if (length (df_held d) <=? index)%nat then (Panic, d) else
  let d := mkDefragmenter (df_packet d) (df_fragments d) (<[index := Some (um_payload m)]> (df_held d)) in
  if existsb (fun slot => match slot with None => true | Some _ => false end) (df_held d) then (Ok None, d) else
  (Ok (Some (concat (omap id (df_held d)))), mkDefragmenter (df_packet d) 0 []).

End Messages.

(** ** The hub *)

Definition SESSION_DEPTH : nat := 64.

(** A session's channel: what waits in it, and whether its receiver is gone. *)
Record Route := mkRoute { rt_queue : list (bytes * Target); rt_closed : bool }.

Definition route_try_send (r : Route) (m : bytes * Target) : Route :=
  if rt_closed r || (SESSION_DEPTH <=? length (rt_queue r))%nat then r else mkRoute (rt_queue r ++ [m]) (rt_closed r).

(** The routes and the reassembly of the reader task, which are separate in the source:
    the task owns [h_partial]. *)
Record Hub := mkHub {
  h_routes : gmap Z Route;
  h_next : Z;
  h_partial : gmap Z Defragmenter;
}.

Definition Sessions_new : Hub := mkHub ∅ 1 ∅.

Definition Sessions_open (h : Hub) : Z * Hub :=
  (h_next h, mkHub (<[h_next h := mkRoute [] false]> (h_routes h)) (wrap 32 (h_next h + 1)) (h_partial h)).

Definition Sessions_close (h : Hub) (id : Z) : Hub := mkHub (delete id (h_routes h)) (h_next h) (h_partial h).

Section Serve.
Context `{Varint}.

(** One datagram of [Sessions_serve]. *)
Definition serve_one (h : Hub) (datagram : bytes) : Res ProxyError unit * Hub :=
  match UdpMessage_read datagram with
  | None => (Ok tt, h)
  | Some message =>
      let id := um_session message in
      match h_routes h !! id with
      | None => (Ok tt, mkHub (h_routes h) (h_next h) (delete id (h_partial h)))
      | Some route =>
          match parse_socket (um_address message) with
          | None => (Ok tt, h)
          | Some from =>
              let '(whole, d) := Defragmenter_push (default Defragmenter_default (h_partial h !! id)) message in
              let partial := <[id := d]> (h_partial h) in
              match whole with
              | Panic => (Panic, mkHub (h_routes h) (h_next h) partial)
              | Err e => (Err e, mkHub (h_routes h) (h_next h) partial)
              | Ok None => (Ok tt, mkHub (h_routes h) (h_next h) partial)
              | Ok (Some whole) =>
                  (Ok tt, mkHub (<[id := route_try_send route (whole, Ip from)]> (h_routes h)) (h_next h) partial)
              end
          end
      end
  end.

Fixpoint Sessions_serve (h : Hub) (datagrams : list bytes) : Res ProxyError unit * Hub :=
  match datagrams with
  | [] => (Ok tt, h)
  | datagram :: datagrams =>
      match serve_one h datagram with
      | (Ok _, h) => Sessions_serve h datagrams
      | (r, h) => (r, h)
      end
  end.
End Serve.

(** [send_to] of a session: the datagrams it gives the connection; [budget] is what the
    peer takes now, when the connection knows it. *)
Record UdpSession := mkUdpSession { us_id : Z; us_next_packet : Z }.

Definition session_send {W} `{Varint} (s : UdpSession) (payload : bytes) (target : Target) (budget : option nat)
  : Res (EgressError W) (list bytes) * UdpSession :=
  let packet := wrap 16 (us_next_packet s) in
  let s := mkUdpSession (us_id s) (wrap 32 (us_next_packet s + 1)) in
  let frame := match budget with Some budget => (budget `min` MAX_DATAGRAM_FRAME)%nat | None => MAX_DATAGRAM_FRAME end in
  (ok_or (DatagramTooLarge (length payload)) (fragment (us_id s) packet (Target_fmt target) payload frame), s).

(** * Opening a stream *)

Section Opening.
Context `{Varint, !VarintLaws}.

Lemma Reader_skip_extend r n r' more : Reader_skip r n = Some r' -> Reader_skip (Reader_extend r more) n = Some (Reader_extend r' more).
Proof.
  unfold Reader_skip. destruct (Reader_take r n) as [[bs r'']|] eqn:E; [|done]. cbn. intros [= <-].
  by rewrite (Reader_take_extend _ _ _ _ more E).
Qed.

Lemma Reader_skip_ok r n r' :
  reader_ok r -> Reader_skip r n = Some r' -> reader_ok r' /\ r_bytes r' = r_bytes r /\ r_at r' = (r_at r + n)%nat.
Proof.
  unfold Reader_skip. intros Hr. destruct (Reader_take r n) as [[bs r'']|] eqn:E; [|done]. cbn. intros [= <-].
  by apply Reader_take_ok in E as (? & ? & ? & _).
Qed.

Lemma Reader_skip_None r n : reader_ok r -> Reader_skip r n = None -> (length (r_bytes r) < r_at r + n)%nat.
Proof.
  unfold Reader_skip. intros Hr. destruct (Reader_take r n) as [[bs r'']|] eqn:E; [done|]. intros _. by apply Reader_take_None in E.
Qed.

(** What was decided is decided whatever follows. *)
Lemma decode_tcp_response_decided i more :
  decode_tcp_response i <> Ok Incomplete ->
  decode_tcp_response (i ++ more) = decode_tcp_response i /\
  forall v n, decode_tcp_response i = Ok (Complete v n) -> (n <= length i)%nat.
Proof.
  unfold decode_tcp_response, Reader_u8. rewrite Reader_extend_new. destruct (Reader_uint 1 _) as [[st r1]|] eqn:E1; [|done].
  rewrite (Reader_uint_extend _ _ _ _ more E1). apply Reader_uint_ok in E1 as (K1 & _ & B1); [|apply reader_new_ok].
  destruct (Reader_varint r1) as [[ml r2]|] eqn:E2; [|done]. rewrite (Reader_varint_extend _ _ _ more K1 E2).
  apply Reader_varint_ok in E2 as (_ & K2 & B2 & _); [|done]. destruct (MAX_MESSAGE_LEN <? ml); [done|].
  destruct (Reader_take r2 _) as [[msg r3]|] eqn:E3; [|done]. rewrite (Reader_take_extend _ _ _ _ more E3).
  apply Reader_take_ok in E3 as (K3 & _ & B3 & _); [|done].
  destruct (Reader_varint r3) as [[pl r4]|] eqn:E4; [|done]. rewrite (Reader_varint_extend _ _ _ more K3 E4).
  apply Reader_varint_ok in E4 as (_ & K4 & B4 & _); [|done]. destruct (MAX_PADDING_LEN <? pl); [done|].
  destruct (Reader_skip r4 _) as [r5|] eqn:E5; [|done]. rewrite (Reader_skip_extend _ _ _ more E5).
  apply Reader_skip_ok in E5 as (K5 & B5 & _); [|done]. intros _. destruct (negb (utf8_ok msg)); [done|]. split; [done|].
  intros v n [= <- <-]. unfold reader_ok in K5. rewrite B5, B4, B3, B2, B1 in K5. exact K5.
Qed.

Lemma decode_tcp_response_bound i : (Z.to_nat 6161 <= length i)%nat -> bytes_ok i -> decode_tcp_response i <> Ok Incomplete.
Proof.
  intros Hl Hb. unfold decode_tcp_response, Reader_u8. destruct (Reader_uint 1 _) as [[st r1]|] eqn:E1.
  2:{ apply Reader_uint_None in E1; [cbn in E1; lia|apply reader_new_ok]. }
  apply Reader_uint_ok in E1 as (K1 & A1 & B1); [|apply reader_new_ok]. cbn in A1, B1.
  destruct (Reader_varint r1) as [[ml r2]|] eqn:E2; [|apply Reader_varint_None in E2; rewrite B1 in E2; lia].
  apply Reader_varint_ok in E2 as (P2 & K2 & B2 & A2); [|done].
  destruct (MAX_MESSAGE_LEN <? ml) eqn:M; [done|]. reflect. unfold MAX_MESSAGE_LEN in M.
  destruct (Reader_take r2 _) as [[msg r3]|] eqn:E3; [|apply Reader_take_None in E3; [rewrite B2, B1 in E3; lia|done]].
  apply Reader_take_ok in E3 as (K3 & A3 & B3 & _); [|done].
  destruct (Reader_varint r3) as [[pl r4]|] eqn:E4; [|apply Reader_varint_None in E4; rewrite B3, B2, B1 in E4; lia].
  apply Reader_varint_ok in E4 as (P4 & K4 & B4 & A4); [|done].
  destruct (MAX_PADDING_LEN <? pl) eqn:N; [done|]. reflect. unfold MAX_PADDING_LEN in N.
  destruct (Reader_skip r4 _) as [r5|] eqn:E5; [by case_match|].
  apply Reader_skip_None in E5; [|done]. rewrite B4, B3, B2, B1 in E5. lia.
Qed.

Lemma decode_tcp_response_stable : stable decode_tcp_response (Z.to_nat 6161).
Proof.
  split.
  - intros i. unfold decode_tcp_response. repeat (case_match; try done).
  - intros i more v n E. destruct (decode_tcp_response_decided i more) as [-> Hn]; [by rewrite E|]. by split; [apply (Hn v)|].
  - intros i more e E. destruct (decode_tcp_response_decided i more) as [-> _]; by rewrite E.
  - intros i Hb Hl. by apply decode_tcp_response_bound.
Qed.

#[global] Instance OpenStream_laws : NegotiationLaws OpenStream unit.
Proof.
  refine {| offered := fun _ i => bytes_ok i |};
    pose proof decode_tcp_response_stable as [Ht Hc He Hb]; unfold advance, OpenStream_negotiation, OpenStream_advance.
  - intros m i more Hi Hmore. by apply Forall_app.
  - intros m i _. specialize (Ht i). destruct (decode_tcp_response i) as [[|[|msg] n]|e|]; done.
  - done.
  - intros m i more m' o _ _. destruct (decode_tcp_response i) as [[|[|msg] n]|e|]; try done. intros [= <- <-].
    cbn [os_request app]. destruct (decode_tcp_response (i ++ more)) as [[|[|msg] n]|e|]; by rewrite app_nil_r.
  - intros m i more v n m' o _. destruct (decode_tcp_response i) as [[|[|msg] k]|e|] eqn:E; try done. intros [= <- <- <- <-].
    destruct (Hc i more _ _ E) as [Hk ->]. done.
  - intros m i more e m' o _ _. destruct (decode_tcp_response i) as [[|[|msg] k]|e'|] eqn:E; try done.
    + intros [= <- <- <-]. destruct (Hc i more _ _ E) as [_ ->]. by eexists _, _.
    + intros [= <- <- <-]. rewrite (He i more e' E). by eexists _, _.
Defined.

#[global] Instance OpenStream_bound : NegotiationBound OpenStream unit.
Proof.
  refine {| decides_within := Z.to_nat 6161 |}. intros m i Hi Hl. pose proof (st_bound _ _ decode_tcp_response_stable i Hi Hl).
  unfold advance, OpenStream_negotiation, OpenStream_advance. by destruct (decode_tcp_response i) as [[|[|msg] k]|e'|].
Defined.

(** What a server answers. *)
Definition tcp_response (status : Z) (message padding : bytes) : bytes :=
  [status] ++ put_varint (Z.of_nat (length message)) ++ message ++ put_varint (Z.of_nat (length padding)) ++ padding.

Lemma tcp_response_decodes status message padding rest :
  byte_ok status -> utf8_ok message = true ->
  Z.of_nat (length message) <= MAX_MESSAGE_LEN -> Z.of_nat (length padding) <= MAX_PADDING_LEN ->
  decode_tcp_response (tcp_response status message padding ++ rest) =
    Ok (Complete (if status =? 0 then Accepted else RefusedWith message) (length (tcp_response status message padding))).
Proof.
  intros Hst Hutf Hm Hp. unfold MAX_MESSAGE_LEN, MAX_PADDING_LEN, tcp_response in *.
  set (ml := put_varint (Z.of_nat (length message))). set (pl := put_varint (Z.of_nat (length padding))).
  set (whole := ([status] ++ ml ++ message ++ pl ++ padding) ++ rest).
  assert (forall pre post, pre ++ post = whole -> mkReader whole (length pre) = mkReader (pre ++ post) (length pre)) as Hat
    by (by intros pre post ->).
  unfold decode_tcp_response.
  assert (Reader_u8 (Reader_new whole) = Some (status, mkReader whole (length [status]))) as ->.
  { unfold whole, Reader_u8, Reader_uint, Reader_array, Reader_rest. cbn. by rewrite take_0. }
  rewrite (Hat [status] (ml ++ message ++ pl ++ padding ++ rest)) by (unfold whole; by rewrite <- !(assoc_L (++))).
  unfold ml at 1 2. rewrite Reader_varint_app by (unfold MAX_VAR_INT; lia). fold ml.
  rewrite (proj2 (Z.ltb_ge _ _)), Nat2Z.id by (unfold MAX_MESSAGE_LEN; lia).
  pose proof (Reader_take_app ([status] ++ ml) message (pl ++ padding ++ rest)) as Ht. rewrite length_app, <- !(assoc_L (++)) in Ht. rewrite Ht.
  pose proof (Reader_varint_app ([status] ++ ml ++ message) (Z.of_nat (length padding)) (padding ++ rest)) as Hv.
  rewrite !length_app, <- !(assoc_L (++)) in Hv. rewrite <- Nat.add_assoc. fold pl in Hv. rewrite Hv by (unfold MAX_VAR_INT; lia).
  rewrite (proj2 (Z.ltb_ge _ _)), Nat2Z.id by (unfold MAX_PADDING_LEN; lia).
  pose proof (Reader_take_app ([status] ++ ml ++ message ++ pl) padding rest) as Hs. rewrite !length_app, <- !(assoc_L (++)) in Hs.
  unfold Reader_skip. rewrite <- !Nat.add_assoc in *. rewrite Hs. cbn [fmap option_fmap option_map snd]. rewrite Hutf. cbn [negb].
  unfold Reader_position. cbn [r_at]. do 2 f_equal. rewrite !length_app. lia.
Qed.
End Opening.

(** Opening a Hysteria2 stream reaches the server's verdict however its response is
    split: an accepting one gives the caller as surplus and unread stream exactly the
    bytes behind it, the request having been sent once; any other status is a denial
    that carries the server's explanation. *)
Theorem hysteria2_opens {W : Type} `{Varint, !VarintLaws} target pad status message padding rest w :
  byte_ok status -> utf8_ok message = true ->
  Z.of_nat (length message) <= MAX_MESSAGE_LEN -> Z.of_nat (length padding) <= MAX_PADDING_LEN ->
  delivers w -> arriving (w_reads w) = tcp_response status message padding ++ rest ->
  if status =? 0 then
    exists surplus m w', negotiate (OpenStream_new target pad) w = (Ok (tt, surplus) : Res (EgressError W) _, m, w') /\
      surplus ++ arriving (w_reads w') = rest /\ w_sent w' = w_sent w ++ encode_tcp_request target pad []
  else exists m w', negotiate (OpenStream_new target pad) w = (Err (Proxy (Denied message)) : Res (EgressError W) _, m, w').
Proof.
  intros Hst Hutf Hm Hp Hw Harr. pose proof (tcp_response_decodes status message padding rest Hst Hutf Hm Hp) as Hd.
  assert (opens (OpenStream_new target pad) (mkOpenStream None) (encode_tcp_request target pad [])) as Ho by (split; [done|constructor]).
  assert (decided_from (mkOpenStream None) [] (arriving (w_reads w))) as Hdec.
  { eapply opens_decided; [exact Ho| |done]. unfold decides_within, OpenStream_bound. apply Nat2Z.inj_le. vm_compute. discriminate. }
  destruct (status =? 0) eqn:E.
  - destruct (negotiate_completes (W := W) _ _ _ w (tcp_response status message padding) rest tt (mkOpenStream None) [] Ho Hdec Hw)
      as (surplus & m & w' & Hn & Hrest & Hsent); [done|done| |].
    { unfold advance, OpenStream_negotiation, OpenStream_advance. by rewrite Hd. }
    exists surplus, m, w'. rewrite app_nil_r in Hsent. done.
  - apply (negotiate_refuses _ _ _ w _ (mkOpenStream None) [] Ho Hdec Hw); rewrite Harr; [done|].
    unfold advance, OpenStream_negotiation, OpenStream_advance. by rewrite Hd.
Qed.

(** * Messages *)

Record message_ok (m : UdpMessage) : Prop := {
  mk_session : uint_ok 32 (um_session m);
  mk_packet : uint_ok 16 (um_packet m);
  mk_fragment : byte_ok (um_fragment m);
  mk_fragments : byte_ok (um_fragments m);
  mk_address : 1 <= Z.of_nat (length (um_address m)) <= MAX_MESSAGE_LEN;
  mk_utf8 : utf8_ok (um_address m) = true;
  mk_payload : um_payload m <> [];
}.

Lemma byte_be_bytes v : byte_ok v -> be_bytes 1 v = [v].
Proof. intros Hv. cbn. rewrite Z.div_1_r, Z.mod_small; [done|exact Hv]. Qed.

Section MessageTheory.
Context `{Varint, !VarintLaws}.

Lemma UdpMessage_wire m :
  message_ok m ->
  UdpMessage_write m [] = be_bytes 4 (um_session m) ++ be_bytes 2 (um_packet m) ++ be_bytes 1 (um_fragment m) ++ be_bytes 1 (um_fragments m) ++
    put_varint (Z.of_nat (length (um_address m))) ++ um_address m ++ um_payload m.
Proof.
  intros [_ _ Hf Hn _ _ _]. rewrite (byte_be_bytes (um_fragment m)), (byte_be_bytes (um_fragments m)) by done.
  unfold UdpMessage_write, Writer_vector_varint, Writer_varint, Writer_u8, Writer_u16, Writer_u32, Writer_bytes.
  by rewrite <- !(assoc_L (++)).
Qed.

Lemma UdpMessage_roundtrip m : message_ok m -> UdpMessage_read (UdpMessage_write m []) = Some m.
Proof.
  intros Hm. rewrite (UdpMessage_wire m Hm). destruct Hm as [Hs Hp Hf Hn Ha Hu Hpl]. destruct m as [session packet frag frags addr payload].
  cbn [um_session um_packet um_fragment um_fragments um_address um_payload] in *. unfold MAX_MESSAGE_LEN in Ha.
  set (al := put_varint (Z.of_nat (length addr))).
  unfold UdpMessage_read, Reader_u32, Reader_u16, Reader_u8, Reader_new.
  pose proof (Reader_uint_app 4 [] session (be_bytes 2 packet ++ be_bytes 1 frag ++ be_bytes 1 frags ++ al ++ addr ++ payload) Hs) as R1.
  cbn [app length Nat.add] in R1. rewrite R1. cbn [mbind option_bind].
  pose proof (Reader_uint_app 2 (be_bytes 4 session) packet (be_bytes 1 frag ++ be_bytes 1 frags ++ al ++ addr ++ payload) Hp) as R2.
  rewrite length_be_bytes in R2. rewrite R2. cbn [mbind option_bind Nat.add].
  pose proof (Reader_uint_app 1 (be_bytes 4 session ++ be_bytes 2 packet) frag (be_bytes 1 frags ++ al ++ addr ++ payload) Hf) as R3.
  rewrite length_app, !length_be_bytes, <- !(assoc_L (++)) in R3. cbn [Nat.add] in R3. rewrite R3. cbn [mbind option_bind].
  pose proof (Reader_uint_app 1 (be_bytes 4 session ++ be_bytes 2 packet ++ be_bytes 1 frag) frags (al ++ addr ++ payload) Hn) as R4.
  rewrite !length_app, !length_be_bytes, <- !(assoc_L (++)) in R4. cbn [Nat.add] in R4. rewrite R4. cbn [mbind option_bind].
  pose proof (Reader_varint_app (be_bytes 4 session ++ be_bytes 2 packet ++ be_bytes 1 frag ++ be_bytes 1 frags) (Z.of_nat (length addr)) (addr ++ payload)) as R5.
  rewrite !length_app, !length_be_bytes, <- !(assoc_L (++)) in R5. fold al in R5. cbn [Nat.add] in R5.
  rewrite R5 by (unfold MAX_VAR_INT; lia). cbn [mbind option_bind].
  rewrite (proj2 (Z.eqb_neq _ _)), (proj2 (Z.ltb_ge _ _)) by (unfold MAX_MESSAGE_LEN; lia). cbn [orb].
  pose proof (Reader_take_app (be_bytes 4 session ++ be_bytes 2 packet ++ be_bytes 1 frag ++ be_bytes 1 frags ++ al) addr payload) as R6.
  rewrite !length_app, !length_be_bytes, <- !(assoc_L (++)) in R6. cbn [Nat.add] in R6. rewrite Nat2Z.id, R6. cbn [mbind option_bind].
  unfold Reader_rest. cbn [r_bytes r_at].
  assert (drop (8 + length al + length addr) (be_bytes 4 session ++ be_bytes 2 packet ++ be_bytes 1 frag ++ be_bytes 1 frags ++ al ++ addr ++ payload)
    = payload) as Hd.
  { rewrite !(assoc_L (++)). apply drop_app_length'. rewrite !length_app, !length_be_bytes. lia. }
  cbn [Nat.add] in Hd. rewrite Hd. destruct payload; [done|]. cbn [length Nat.eqb]. by rewrite Hu.
Qed.

Lemma UdpMessage_length m :
  message_ok m -> length (UdpMessage_write m []) = (header_len (um_address m) + length (um_payload m))%nat.
Proof.
  intros Hm. rewrite (UdpMessage_wire m Hm). destruct Hm as [_ _ _ _ Ha _ _]. unfold MAX_MESSAGE_LEN in Ha.
  rewrite !length_app, !length_be_bytes, put_varint_len by (unfold MAX_VAR_INT; lia). unfold header_len, UDP_FIXED. lia.
Qed.

(** ** Fragments *)

Lemma chunks_concat fuel budget : forall l, (0 < budget)%nat -> (length l <= fuel)%nat -> concat (chunks fuel budget l) = l.
Proof.
  induction fuel as [|fuel IH]; intros [|b l] Hb Hf; try done; [cbn in Hf; lia|]. cbn [chunks concat].
  rewrite IH; [apply take_drop|done|]. rewrite length_drop. cbn [length] in *. lia.
Qed.

Lemma chunks_sizes fuel budget : forall l, (0 < budget)%nat -> Forall (fun c => c <> [] /\ (length c <= budget)%nat) (chunks fuel budget l).
Proof.
  induction fuel as [|fuel IH]; intros [|b l] Hb; [constructor..|]. cbn [chunks]. constructor; [|by apply IH]. split.
  - destruct budget; [lia|done].
  - rewrite length_take. lia.
Qed.

Lemma chunks_count fuel budget : forall l, (0 < budget)%nat -> (length l <= fuel)%nat -> length (chunks fuel budget l) = div_ceil (length l) budget.
Proof.
  induction fuel as [|fuel IH]; intros l Hb Hf; unfold div_ceil in *.
  { destruct l; [|cbn in Hf; lia]. cbn. symmetry. apply Nat.div_small. lia. }
  destruct l as [|b l]; [cbn; symmetry; apply Nat.div_small; lia|]. cbn [chunks length]. rewrite IH by (rewrite ?length_drop; cbn [length] in *; lia).
  rewrite length_drop. cbn [length]. destruct (decide (S (length l) <= budget)%nat).
  - replace (S (length l) - budget)%nat with 0%nat by lia. rewrite (Nat.div_small (0 + budget - 1)) by lia.
    replace (S (length l) + budget - 1)%nat with (length l + 1 * budget)%nat by lia.
    rewrite Nat.div_add, Nat.div_small by lia. lia.
  - replace (S (length l) + budget - 1)%nat with (S (length l) - budget + budget - 1 + 1 * budget)%nat by lia. rewrite Nat.div_add by lia. lia.
Qed.

(** The messages of a payload in pieces. *)
Definition message_of (session packet : Z) (address : bytes) (pieces : list bytes) (i : nat) : UdpMessage :=
  mkUdpMessage session packet (Z.of_nat i) (Z.of_nat (length pieces)) address (nth i pieces []).

Lemma fragment_pieces session packet address payload frame datagrams :
  fragment session packet address payload frame = Some datagrams -> payload <> [] ->
  exists pieces, concat pieces = payload /\ (1 <= length pieces <= 255)%nat /\
    Forall (fun c => c <> [] /\ (header_len address + length c <= frame)%nat) pieces /\
    datagrams = (fun i => UdpMessage_write (message_of session packet address pieces i) []) <$> seq 0 (length pieces).
Proof.
  unfold fragment. intros Hf Hp. destruct (_ <? _)%nat eqn:E1; [done|]. reflect.
  set (budget := (frame - header_len address)%nat) in *. destruct (budget =? 0)%nat eqn:E2; [done|]. reflect.
  destruct (255 <? _)%nat eqn:E3; [done|]. reflect.
  assert (length payload =? 0 = false)%nat as Hl by (by destruct payload). rewrite Hl, app_nil_r in Hf.
  set (pieces := chunks (length payload) budget payload) in *.
  assert (length pieces = div_ceil (length payload) budget) as Hcount by (apply chunks_count; lia).
  assert (concat pieces = payload) as Hcat by (apply chunks_concat; lia).
  assert (1 <= length pieces)%nat by (destruct pieces; [by rewrite <- Hcat in Hp|cbn; lia]).
  exists pieces. split_and!; [done|lia|lia| |].
  - eapply Forall_impl; [by apply chunks_sizes; lia|]. cbv beta. intros c [? ?]. split; [done|unfold budget in *; lia].
  - injection Hf as <-. replace (div_ceil (length payload) budget `max` 1)%nat with (length pieces) by lia.
    apply list_eq. intros i. rewrite list_lookup_imap, list_lookup_fmap. destruct (decide (i < length pieces)%nat) as [Hi|Hi].
    + rewrite lookup_seq_lt by done. destruct (pieces !! i) as [c|] eqn:Ec; [|apply lookup_ge_None in Ec; lia]. cbn [fmap option_fmap option_map].
      unfold message_of. rewrite (nth_lookup_Some _ _ _ _ Ec). replace (wrap 8 (Z.of_nat i)) with (Z.of_nat i); [done|].
      symmetry. apply Z.mod_small. lia.
    + rewrite !lookup_ge_None_2 by (rewrite ?length_seq; lia). done.
Qed.
End MessageTheory.

(** * Reassembly *)

(** What is held when the pieces in [got] have arrived. *)
Definition held_of (pieces : list bytes) (got : list nat) : list (option bytes) :=
  imap (fun i c => if bool_decide (i ∈ got) then Some c else None) pieces.

Lemma held_of_insert pieces got i :
  (i < length pieces)%nat -> <[i := Some (nth i pieces [])]> (held_of pieces got) = held_of pieces (i :: got).
Proof.
  intros Hi. apply list_eq. intros j. unfold held_of. rewrite list_lookup_imap. destruct (decide (j = i)) as [->|Hne].
  - rewrite list_lookup_insert_eq by (by rewrite length_imap). destruct (pieces !! i) as [c|] eqn:Ec; [|apply lookup_ge_None in Ec; lia].
    cbn. rewrite bool_decide_true by (by left). by rewrite (nth_lookup_Some _ _ _ _ Ec).
  - rewrite list_lookup_insert_ne, list_lookup_imap by done. destruct (pieces !! j); [|done]. cbn. do 2 f_equal.
    rewrite (bool_decide_ext (j ∈ i :: got) (j ∈ got)); [done|]. rewrite elem_of_cons. naive_solver.
Qed.

Lemma held_of_none pieces got :
  existsb (fun slot => match slot with None => true | Some _ => false end) (held_of pieces got) = false <->
  forall i, (i < length pieces)%nat -> i ∈ got.
Proof.
  rewrite <- not_true_iff_false, existsb_exists. split.
  - intros Hn i Hi. destruct (decide (i ∈ got)) as [|Hg]; [done|]. exfalso. apply Hn. exists None. split; [|done].
    apply list_elem_of_In, list_elem_of_lookup. exists i. unfold held_of. rewrite list_lookup_imap.
    destruct (pieces !! i) as [c|] eqn:Ec; [|apply lookup_ge_None in Ec; lia]. cbn. by rewrite bool_decide_false.
  - intros Hall (slot & Hin & Hs). apply list_elem_of_In, list_elem_of_lookup in Hin as [i Hi]. unfold held_of in Hi.
    rewrite list_lookup_imap in Hi. destruct (pieces !! i) as [c|] eqn:Ec; [|done]. cbn in Hi.
    rewrite bool_decide_true in Hi by (apply Hall; by apply lookup_lt_Some in Ec). by injection Hi as <-.
Qed.

Lemma held_of_all pieces got :
  (forall i, (i < length pieces)%nat -> i ∈ got) -> omap id (held_of pieces got) = pieces.
Proof.
  intros Hall. assert (held_of pieces got = Some <$> pieces) as ->.
  { apply list_eq. intros i. unfold held_of. rewrite list_lookup_imap, list_lookup_fmap. destruct (pieces !! i) as [c|] eqn:Ec; [|done].
    cbn. rewrite bool_decide_true; [done|]. apply Hall. by apply lookup_lt_Some in Ec. }
  clear. induction pieces as [|c pieces IH]; [done|]. cbn. by rewrite IH.
Qed.

Fixpoint push_all (d : Defragmenter) (ms : list UdpMessage) : list (Res ProxyError (option bytes)) * Defragmenter :=
  match ms with
  | [] => ([], d)
  | m :: ms => let '(r, d) := Defragmenter_push d m in let '(rs, d) := push_all d ms in (r :: rs, d)
  end.

Section Pushing.
Variables (session packet : Z) (address : bytes) (pieces : list bytes).
Hypothesis several : (2 <= length pieces <= 255)%nat.
Notation message := (message_of session packet address pieces).

(** The pieces in [got] have arrived, or none and something else is held. *)
Definition collecting (d : Defragmenter) (got : list nat) : Prop :=
  (df_packet d = packet /\ df_fragments d = Z.of_nat (length pieces) /\ df_held d = held_of pieces got) \/
  (df_packet d <> packet \/ df_fragments d <> Z.of_nat (length pieces)) /\ got = [].

Definition missing (got : list nat) : bool :=
  existsb (fun slot => match slot with None => true | Some _ => false end) (held_of pieces got).

Lemma push_step d got i :
  collecting d got -> (i < length pieces)%nat ->
  Defragmenter_push d (message i) =
    if missing (i :: got)
    then (Ok None, mkDefragmenter packet (Z.of_nat (length pieces)) (held_of pieces (i :: got)))
    else (Ok (Some (concat pieces)), mkDefragmenter packet 0 []).
Proof using several.
  intros Hd Hi. unfold Defragmenter_push, message_of. cbn [um_fragments um_fragment um_packet um_payload].
  rewrite (proj2 (Z.leb_gt _ 1)), (proj2 (Z.leb_gt _ (Z.of_nat i))) by lia. rewrite !Nat2Z.id.
  set (d1 := if negb _ || negb _ then _ else d).
  assert (d1 = mkDefragmenter packet (Z.of_nat (length pieces)) (held_of pieces got)) as ->.
  { unfold d1. destruct Hd as [(Hp & Hf & Hh)|[Hd ->]].
    - rewrite Hp, Hf, !Z.eqb_refl. cbn. destruct d. cbn in *. by subst.
    - assert (held_of pieces [] = replicate (length pieces) None) as Hnone.
      { unfold held_of. clear. apply list_eq. intros j. rewrite list_lookup_imap. destruct (pieces !! j) eqn:E.
        - rewrite lookup_replicate_2 by (by apply lookup_lt_Some in E). cbn. by rewrite bool_decide_false by (apply not_elem_of_nil).
        - cbn. symmetry. apply lookup_ge_None. rewrite length_replicate. by apply lookup_ge_None in E. }
      rewrite Hnone. destruct Hd as [Hd|Hd].
      + by rewrite (proj2 (Z.eqb_neq _ _) Hd).
      + rewrite (proj2 (Z.eqb_neq _ _) Hd). by rewrite orb_true_r. }
  cbn [df_held df_packet df_fragments]. assert (length (held_of pieces got) = length pieces) as Hlen by apply length_imap.
  rewrite (proj2 (Nat.leb_gt _ _)) by lia. rewrite held_of_insert by done. fold (missing (i :: got)).
  destruct (missing (i :: got)) eqn:Em; [done|]. unfold missing in Em. rewrite held_of_none in Em. by rewrite held_of_all.
Qed.

(** The pieces arrive in any order: the last one gives the whole. *)
Lemma push_rest order : forall d got,
  collecting d got -> order <> [] -> order ++ got ≡ₚ seq 0 (length pieces) ->
  push_all d (message <$> order) =
    (replicate (length order - 1) (Ok None) ++ [Ok (Some (concat pieces))], mkDefragmenter packet 0 []).
Proof using several.
  induction order as [|i order IH]; intros d got Hd Hne Hperm; [done|]. cbn [fmap list_fmap push_all].
  assert (forall j, j ∈ (i :: order) ++ got <-> (j < length pieces)%nat) as Hall.
  { intros j. rewrite Hperm, elem_of_seq. lia. }
  rewrite (push_step d got i Hd) by (apply Hall; by left). destruct order as [|i' order].
  - replace (missing (i :: got)) with false; [done|].
    symmetry. unfold missing. apply held_of_none. intros j Hj. by apply Hall.
  - assert (missing (i :: got) = true) as ->.
    { apply not_false_iff_true. intros Hm. unfold missing in Hm. rewrite held_of_none in Hm.
      assert (i' ∈ i :: got) as Hin by (apply Hm, Hall; right; by left).
      assert (NoDup ((i :: i' :: order) ++ got)) as Hnd by (rewrite Hperm; apply NoDup_seq).
      cbn [app] in Hnd. apply NoDup_cons in Hnd as [H1 Hnd]. apply NoDup_cons in Hnd as [H2 _].
      apply elem_of_cons in Hin as [->|Hin]; [apply H1; by left|]. apply H2. apply elem_of_app. by right. }
    fold (message <$> i' :: order). rewrite (IH _ (i :: got)); [|by left|done|].
    + cbn [length]. replace (S (S (length order)) - 1)%nat with (S (S (length order) - 1)) by lia. done.
    + rewrite <- Hperm. symmetry. apply (Permutation_middle (i' :: order)).
Qed.
End Pushing.

(** * The hub *)

Definition defrag_ok (d : Defragmenter) : Prop :=
  df_fragments d <= 1 \/ length (df_held d) = Z.to_nat (df_fragments d).

Definition hub_ok (h : Hub) : Prop := map_Forall (fun _ d => defrag_ok d) (h_partial h).

Lemma push_ok d m : defrag_ok d -> (exists whole, (Defragmenter_push d m).1 = Ok whole) /\ defrag_ok (Defragmenter_push d m).2.
Proof.
  intros Hd. unfold Defragmenter_push. destruct (um_fragments m <=? 1) eqn:E1; [by split; [eexists|]|].
  destruct (um_fragments m <=? um_fragment m) eqn:E2; [by split; [eexists|]|]. reflect.
  set (d1 := if negb _ || negb _ then _ else d).
  assert (length (df_held d1) = Z.to_nat (um_fragments m) /\ df_fragments d1 = um_fragments m) as [Hlen Hfr].
  { unfold d1. destruct (_ || _) eqn:E; [cbn; by rewrite length_replicate|]. apply orb_false_iff in E as [_ E]. reflect.
    rewrite <- E. split; [|done]. destruct Hd as [Hd|Hd]; [lia|done]. }
  clearbody d1. rewrite (proj2 (Nat.leb_gt _ _)) by lia. cbn [df_held df_packet df_fragments].
  case_match; cbn [fst snd]; (split; [by eexists|]); [right|left; cbn; lia]. cbn. by rewrite length_insert, Hfr.
Qed.

Lemma hub_partial_ok h id : hub_ok h -> defrag_ok (default Defragmenter_default (h_partial h !! id)).
Proof. intros Hh. destruct (h_partial h !! id) as [d|] eqn:E; [exact (Hh id d E)|]. left. cbn. lia. Qed.

Section HubTheory.
Context `{Varint}.

Lemma serve_one_ok h datagram : hub_ok h -> exists h', serve_one h datagram = (Ok tt, h') /\ hub_ok h'.
Proof.
  intros Hh. unfold serve_one. destruct (UdpMessage_read datagram) as [m|]; [|by eexists].
  destruct (h_routes h !! um_session m) as [route|]; [|eexists; split; [done|]; by apply map_Forall_delete].
  destruct (parse_socket _) as [from|]; [|by eexists].
  destruct (push_ok _ m (hub_partial_ok h (um_session m) Hh)) as [[whole Hw] Hd].
  destruct (Defragmenter_push _ m) as [r d]. cbn [fst snd] in *. subst r.
  destruct whole; (eexists; split; [done|]); by apply map_Forall_insert_2.
Qed.

Lemma serve_ok datagrams : forall h, hub_ok h -> exists h', Sessions_serve h datagrams = (Ok tt, h') /\ hub_ok h'.
Proof.
  induction datagrams as [|d datagrams IH]; intros h Hh; [by eexists|]. cbn [Sessions_serve].
  destruct (serve_one_ok h d Hh) as (h' & -> & Hh'). by apply IH.
Qed.

(** What a datagram is to session [id]. *)
Definition message_for (id : Z) (datagram : bytes) : option UdpMessage :=
  m ← UdpMessage_read datagram; if um_session m =? id then Some m else None.

(** The payloads among the answers of a defragmenter. *)
Definition wholes (rs : list (Res ProxyError (option bytes))) : list bytes :=
  omap (fun r => match r with Ok whole => whole | _ => None end) rs.

(** What the hub does to a session depends on that session's messages only. *)
Lemma serve_session id from datagrams : forall h route,
  hub_ok h -> h_routes h !! id = Some route ->
  Forall (fun m => parse_socket (um_address m) = Some from) (omap (message_for id) datagrams) ->
  let '(rs, d) := push_all (default Defragmenter_default (h_partial h !! id)) (omap (message_for id) datagrams) in
  exists h', Sessions_serve h datagrams = (Ok tt, h') /\
    h_routes h' !! id = Some (foldl (fun r whole => route_try_send r (whole, Ip from)) route (wholes rs)) /\
    default Defragmenter_default (h_partial h' !! id) = d.
Proof.
  induction datagrams as [|datagram datagrams IH]; intros h route Hh Hroute Hparse; [by eexists|].
  cbn [Sessions_serve]. destruct (serve_one_ok h datagram Hh) as (h1 & Hone & Hh1). rewrite Hone.
  cbn [omap list_omap] in *. destruct (message_for id datagram) as [m|] eqn:Em.
  - unfold message_for in Em. destruct (UdpMessage_read datagram) as [m'|] eqn:Er; [|done]. cbn in Em.
    destruct (um_session m' =? id) eqn:Eid; [|done]. injection Em as ->. reflect. apply Forall_cons in Hparse as [Hp Hparse].
    unfold serve_one in Hone. rewrite Er, Eid, Hroute, Hp in Hone. cbn [push_all].
    destruct (push_ok _ m (hub_partial_ok h id Hh)) as [[whole Hw] _].
    destruct (Defragmenter_push _ m) as [r d]. cbn [fst] in Hw. subst r.
    set (route1 := match whole with Some p => route_try_send route (p, Ip from) | None => route end).
    assert (h_routes h1 !! id = Some route1 /\ h_partial h1 !! id = Some d) as [Hr1 Hp1].
    { destruct whole; injection Hone as <-; cbn; rewrite ?lookup_insert_eq; done. }
    specialize (IH h1 route1 Hh1 Hr1 Hparse). rewrite Hp1 in IH.
    change (default Defragmenter_default (Some d)) with d in IH. destruct (push_all d _) as [rs d'] eqn:Epush. destruct IH as (h' & Hs & Hr' & Hp').
    exists h'. split_and!; [exact Hs| |exact Hp']. rewrite Hr'. unfold route1. by destruct whole.
  - assert (h_routes h1 !! id = Some route /\ h_partial h1 !! id = h_partial h !! id) as [Hr1 Hp1].
    { unfold message_for in Em. unfold serve_one in Hone. destruct (UdpMessage_read datagram) as [m|]; [|by injection Hone as <-].
      cbn in Em. destruct (um_session m =? id) eqn:Eid; [done|]. reflect.
      destruct (h_routes h !! um_session m) as [other|]; [|injection Hone as <-; cbn; by rewrite lookup_delete_ne].
      destruct (parse_socket _); [|by injection Hone as <-]. destruct (Defragmenter_push _ m) as [r d].
      destruct r as [[whole|]| |]; simplify_eq; cbn; rewrite ?lookup_insert_ne by done; done. }
    specialize (IH h1 route Hh1 Hr1 Hparse). by rewrite Hp1 in IH.
Qed.
End HubTheory.

Lemma omap_filter {A B} (f : A -> option B) (l : list A) : omap f (filter (fun x => is_Some (f x)) l) = omap f l.
Proof.
  induction l as [|x l IH]; [done|]. destruct (f x) as [y|] eqn:E.
  - rewrite filter_cons_True by (by eexists). cbn. by rewrite E, IH.
  - rewrite filter_cons_False by (rewrite E; by intros [? ?]). cbn. by rewrite E, IH.
Qed.

Section Reassembled.
Context `{Varint, !VarintLaws}.

(** The fragments of a payload, in any order, as the messages of its session. *)
Lemma fragments_for id packet address payload frame fragments shuffled :
  uint_ok 32 id -> uint_ok 16 packet -> 1 <= Z.of_nat (length address) <= MAX_MESSAGE_LEN -> utf8_ok address = true -> payload <> [] ->
  fragment id packet address payload frame = Some fragments -> shuffled ≡ₚ fragments ->
  Forall (fun f => length f <= frame)%nat fragments /\
  exists pieces order, concat pieces = payload /\ (1 <= length pieces <= 255)%nat /\ order ≡ₚ seq 0 (length pieces) /\
    omap (message_for id) shuffled = message_of id packet address pieces <$> order.
Proof.
  intros Hid Hpk Ha Hu Hp Hf Hperm. destruct (fragment_pieces _ _ _ _ _ _ Hf Hp) as (pieces & Hcat & Hlen & Hsizes & ->).
  assert (forall i, (i < length pieces)%nat -> message_ok (message_of id packet address pieces i)) as Hok.
  { intros i Hi. destruct (pieces !! i) as [c|] eqn:Ec; [|apply lookup_ge_None in Ec; lia].
    split; cbn; unfold uint_ok; try done; [lia|lia|]. rewrite (nth_lookup_Some _ _ _ _ Ec).
    by apply (Forall_lookup_1 _ _ _ _ Hsizes Ec). }
  split.
  - apply Forall_fmap, Forall_forall. intros i [_ Hi]%elem_of_seq. cbn beta. unfold compose. rewrite UdpMessage_length by (apply Hok; lia).
    destruct (pieces !! i) as [c|] eqn:Ec; [|apply lookup_ge_None in Ec; lia]. cbn [message_of um_address um_payload].
    rewrite (nth_lookup_Some _ _ _ _ Ec). by apply (Forall_lookup_1 _ _ _ _ Hsizes Ec).
  - destruct (Permutation_map_inv _ _ Hperm) as (order & -> & Hord). symmetry in Hord.
    exists pieces, order. split_and!; [done|lia|lia|done|].
    assert (Forall (fun i => i < length pieces)%nat order) as Hin.
    { apply Forall_forall. intros i Hi. rewrite Hord in Hi. apply elem_of_seq in Hi. lia. }
    clear Hord Hperm. induction Hin as [|i order Hi _ IH]; [done|]. cbn [map omap list_omap fmap list_fmap].
    unfold message_for at 1. rewrite UdpMessage_roundtrip by (by apply Hok). cbn [mbind option_bind message_of um_session].
    rewrite Z.eqb_refl. f_equal. exact IH.
Qed.
End Reassembled.

(** C31: A datagram sent in fragments reaches its session whole or not at all: every fragment
    fits the frame, and whatever the order the fragments arrive in, and whatever datagrams
    of other sessions or garbage arrive among them, the hub offers the session's route
    exactly one datagram, with the payload as it was sent and its sender.  The route is
    lossy: it queues the datagram if it is open and holds fewer than 64, and is unchanged
    otherwise.  The session is known to the hub, which for it holds no fragments of
    another datagram under the same packet id; such fragments would be mixed in. *)
Theorem hub_reassembles `{Varint, !VarintLaws} h id route packet address payload frame fragments datagrams from :
  hub_ok h -> uint_ok 32 id -> uint_ok 16 packet -> 1 <= Z.of_nat (length address) <= MAX_MESSAGE_LEN -> utf8_ok address = true ->
  parse_socket address = Some from -> payload <> [] -> fragment id packet address payload frame = Some fragments ->
  h_routes h !! id = Some route ->
  (let d := default Defragmenter_default (h_partial h !! id) in df_packet d <> packet \/ df_fragments d = 0) ->
  filter (fun d => is_Some (message_for id d)) datagrams ≡ₚ fragments ->
  Forall (fun f => length f <= frame)%nat fragments /\
  exists h', Sessions_serve h datagrams = (Ok tt, h') /\
    h_routes h' !! id = Some (if rt_closed route || (64 <=? length (rt_queue route))%nat then route
                              else mkRoute (rt_queue route ++ [(payload, Ip from)]) false).
Proof.
  intros Hh Hid Hpk Ha Hu Hfrom Hp Hfrag Hroute Hd Hperm.
  destruct (fragments_for id packet address payload frame fragments _ Hid Hpk Ha Hu Hp Hfrag Hperm)
    as (Hfit & pieces & order & Hcat & Hlen & Hord & Hms). split; [exact Hfit|]. rewrite omap_filter in Hms.
  pose proof (serve_session id from datagrams h route Hh Hroute) as Hs. rewrite Hms in Hs.
  assert (exists rs d, push_all (default Defragmenter_default (h_partial h !! id)) (message_of id packet address pieces <$> order) = (rs, d) /\
    wholes rs = [payload]) as (rs & d & Hpush & Hwhole).
  { destruct (decide (length pieces = 1%nat)) as [H1|H1].
    - rewrite H1 in Hord. apply Permutation_singleton_r in Hord as ->. cbn [fmap list_fmap push_all Defragmenter_push].
      unfold Defragmenter_push, message_of. cbn [um_fragments um_payload]. rewrite H1. eexists _, _. split; [done|]. cbn.
      destruct pieces as [|c [|]]; [done| |done]. rewrite <- Hcat. cbn. by rewrite app_nil_r.
    - eexists _, _. split.
      + apply push_rest with (got := []); [lia| | |by rewrite app_nil_r].
        * right. split; [|done]. destruct Hd as [?|Hz]; [by left|right; rewrite Hz; lia].
        * intros ->. apply Permutation_nil in Hord. destruct pieces; cbn in *; [lia|done].
      + rewrite Hcat. unfold wholes. rewrite omap_app. cbn. induction (length order - 1)%nat; [done|]. cbn. done. }
  rewrite Hpush in Hs. destruct Hs as (h' & Hserve & Hr & _).
  { apply Forall_fmap, Forall_forall. intros i _. exact Hfrom. }
  exists h'. split; [exact Hserve|]. rewrite Hr, Hwhole. cbn [foldl]. unfold route_try_send.
  change SESSION_DEPTH with 64%nat. by destruct (rt_closed route).
Qed.

(** The states of a hub: sessions are opened and closed, and datagrams arrive. *)
Inductive hub_reaches `{Varint} : Hub -> Prop :=
| hub_new : hub_reaches Sessions_new
| hub_opens h : hub_reaches h -> hub_reaches (Sessions_open h).2
| hub_closes h id : hub_reaches h -> hub_reaches (Sessions_close h id)
| hub_serves h datagram : hub_reaches h -> hub_reaches (serve_one h datagram).2.

Lemma hub_reaches_ok `{Varint} h : hub_reaches h -> hub_ok h.
Proof.
  induction 1 as [|h _ IH|h id _ IH|h d _ IH]; [by apply map_Forall_empty|exact IH|exact IH|].
  by destruct (serve_one_ok h d IH) as (h' & -> & ?).
Qed.

(** No datagram a peer sends can make the hub panic: in every state it reaches, with
    sessions opened and closed at any time, each datagram is handled, every index into
    the held fragments being in range. *)
Theorem hub_never_panics `{Varint} h datagrams :
  hub_reaches h -> (Sessions_serve h datagrams).1 = Ok tt.
Proof. intros Hh%hub_reaches_ok. by destruct (serve_ok datagrams h Hh) as (h' & -> & _). Qed.

(** ** Witnesses, with the integers of RFC 9000 *)

Definition sample_target : Target := Ip (mkEndpoint (V6 (replicate 15 0 ++ [1])) 443).

Example sample_text : Target_fmt sample_target = [91; 58; 58; 49; 93; 58; 52; 52; 51].
Proof. reflexivity. Qed.

Definition response_script : Script :=
  (fun b => Arrives [b]) <$> @tcp_response rfc9000 7 [110; 111] [1; 2; 3].

Lemma hysteria2_opens_witness :
  exists m w', negotiate (H := @OpenStream_negotiation rfc9000) (@OpenStream_new rfc9000 sample_target [120; 120]) (mkWire response_script [] []) =
    (Err (Proxy (Denied [110; 111])) : Res (EgressError unit) _, m, w').
Proof.
  apply (hysteria2_opens (W := unit) (H := rfc9000) sample_target [120; 120] 7 [110; 111] [1; 2; 3] [] (mkWire response_script [] [])).
  - by split.
  - reflexivity.
  - vm_compute. discriminate.
  - vm_compute. discriminate.
  - split_and!.
    + by repeat constructor.
    + intros kind Hk. apply list_elem_of_In in Hk. by repeat (destruct Hk as [Hk|Hk]; [done|]).
    + reflexivity.
    + by repeat constructor.
  - reflexivity.
Defined.

(** A session that waits for replies from one address. *)
Definition sample_address : bytes := socket_text (mkEndpoint (V4 [1; 2; 3; 4]) 53).
Definition sample_hub : Hub := (Sessions_open Sessions_new).2.

(** Five bytes in fragments of two, out of order, among garbage and another session. *)
Definition sample_fragments : list bytes := default [] (@fragment rfc9000 1 9 sample_address [10; 20; 30; 40; 50] 21).
Definition sample_arrivals : list bytes :=
  match sample_fragments with
  | [a; b; c] => [c; [1; 2]; a; default [] (head (default [] (@fragment rfc9000 2 9 sample_address [7] 21))); b]
  | _ => []
  end.

Lemma hub_reassembles_witness :
  Forall (fun f => length f <= 21)%nat sample_fragments /\
  exists h', @Sessions_serve rfc9000 sample_hub sample_arrivals = (Ok tt, h') /\
    h_routes h' !! 1 = Some (mkRoute ([] ++ [([10; 20; 30; 40; 50], Ip (mkEndpoint (V4 [1; 2; 3; 4]) 53))]) false).
Proof.
  apply (hub_reassembles (H := rfc9000) sample_hub 1 (mkRoute [] false) 9 sample_address [10; 20; 30; 40; 50] 21
    sample_fragments sample_arrivals (mkEndpoint (V4 [1; 2; 3; 4]) 53)).
  - by apply map_Forall_empty.
  - by split.
  - by split.
  - split; vm_compute; discriminate.
  - reflexivity.
  - reflexivity.
  - discriminate.
  - vm_compute. reflexivity.
  - vm_compute. reflexivity.
  - right. reflexivity.
  - assert (filter (fun d => is_Some (@message_for rfc9000 1 d)) sample_arrivals =
      match sample_fragments with [a; b; c] => [c; a; b] | _ => [] end) as -> by (vm_compute; reflexivity).
    vm_compute. apply (Permutation_cons_append [_; _]).
Defined.

Lemma hub_never_panics_witness : (@Sessions_serve rfc9000 sample_hub sample_arrivals).1 = Ok tt.
Proof. apply (hub_never_panics (H := rfc9000) sample_hub sample_arrivals). apply hub_opens, hub_new. Defined.
