(* ===== verification/Demote.v ===== *)
(** The interception demotions of [src/policy/demote.rs]: tiers, causes, and the
    per-host table of strikes with its pruning.

    The table behind the lock is one state; a host name is its bytes. *)

From stdpp Require Import gmap.
From S2P Require Import Prelude.
Open Scope Z_scope.

Inductive Tier := Splice | Inspect | Rewrite.

#[global] Instance Tier_eq_dec : EqDecision Tier.
Proof. solve_decision. Defined.

(** The derived order: [Splice < Inspect < Rewrite]. *)
Definition Tier_rank (t : Tier) : Z := match t with Splice => 0 | Inspect => 1 | Rewrite => 2 end.

Inductive InterceptedTier := Intercepted_Inspect | Intercepted_Rewrite.

Definition Tier_TOP : Tier := Rewrite.
Definition InterceptedTier_TOP : InterceptedTier := Intercepted_Rewrite.

Definition Tier_intercepted (t : Tier) : option InterceptedTier :=
  match t with Splice => None | Inspect => Some Intercepted_Inspect | Rewrite => Some Intercepted_Rewrite end.

Definition Tier_meet (a b : Tier) : Tier := if Tier_rank b <? Tier_rank a then b else a.

Inductive Demotion := LeafRejected | UpstreamRefusedProxy | UpstreamUntrusted | ProtocolRefused | RewriteExhausted.

#[global] Instance Demotion_eq_dec : EqDecision Demotion.
Proof. solve_decision. Defined.

Definition Demotion_ALL : list Demotion :=
  [LeafRejected; UpstreamRefusedProxy; UpstreamUntrusted; ProtocolRefused; RewriteExhausted].

Definition Demotion_COUNT : nat := length Demotion_ALL.

Definition Demotion_slot (d : Demotion) : nat :=
  match d with LeafRejected => 0 | UpstreamRefusedProxy => 1 | UpstreamUntrusted => 2 | ProtocolRefused => 3 | RewriteExhausted => 4 end.

Definition Demotion_tier (d : Demotion) : Tier :=
  match d with
  | LeafRejected | UpstreamRefusedProxy | UpstreamUntrusted | ProtocolRefused => Splice
  | RewriteExhausted => Inspect
  end.

Definition Demotion_ttl (d : Demotion) : Duration :=
  let HOUR := 60 * 60 in
  from_secs (match d with
    | LeafRejected | UpstreamRefusedProxy | ProtocolRefused => 12 * HOUR
    | UpstreamUntrusted => 5 * 60
    | RewriteExhausted => HOUR
    end).

Inductive Standing := Unrestricted | Limited (cause : Demotion).

Definition Standing_tier (s : Standing) : Tier :=
  match s with Unrestricted => Tier_TOP | Limited cause => Demotion_tier cause end.

Definition Standing_permits (s : Standing) : InterceptedTier + Demotion :=
  match s with
  | Unrestricted => inl InterceptedTier_TOP
  | Limited cause => match Tier_intercepted (Demotion_tier cause) with Some tier => inl tier | None => inr cause end
  end.

Definition Standing_cause (s : Standing) : option Demotion :=
  match s with Unrestricted => None | Limited cause => Some cause end.

(** ** Classifying failures *)

(** A TLS alert is its code; [TlsError] keeps what the source looks at. *)
Inductive TlsError := NoApplicationProtocol | AlertReceived (alert : Z) | OtherTls.
Inductive Refusal := NoProtocol | Untrusted | Alert (alert : Z).

Definition ALERT_CLOSE_NOTIFY : Z := 0.
Definition ALERT_USER_CANCELED : Z := 90.
Definition ALERT_NO_APPLICATION_PROTOCOL : Z := 120.

(** The same two alerts on both legs: rustls's [CloseNotify] and [UserCanceled] are
    these codes. *)
Definition conclusive_alert (alert : Z) : bool :=
  negb ((alert =? ALERT_CLOSE_NOTIFY) || (alert =? ALERT_USER_CANCELED)).

Definition terminating (tls : TlsError) : option Demotion :=
  match tls with
  | NoApplicationProtocol => Some ProtocolRefused
  | AlertReceived alert =>
      if alert =? ALERT_NO_APPLICATION_PROTOCOL then Some ProtocolRefused
      else if conclusive_alert alert then Some LeafRejected else None
  | OtherTls => None
  end.

Definition originating (refusal : Refusal) : option Demotion :=
  match refusal with
  | NoProtocol => Some ProtocolRefused
  | Untrusted => Some UpstreamUntrusted
  | Alert alert =>
      if alert =? ALERT_NO_APPLICATION_PROTOCOL then Some ProtocolRefused
      else if conclusive_alert alert then Some UpstreamRefusedProxy else None
  end.

(** What an [io::Error] carries: the error of one of the legs, or neither. *)
Inductive Leg := ClientLeg | UpstreamLeg.
Inductive Carried := CarriesTls (tls : TlsError) | CarriesHandshake (refusal : option Refusal) | CarriesOther.

Definition classify (leg : Leg) (error : option Carried) : option Demotion :=
  inner ← error;
  match leg, inner with
  | ClientLeg, CarriesTls tls => terminating tls
  | UpstreamLeg, CarriesHandshake refusal => refusal ← refusal; originating refusal
  | _, _ => None
  end.

(** ** The table *)

Definition STRIKES : Z := 3.
Definition PRUNE_AT : nat := 1024.

Record Strike := mkStrike { st_count : Z; st_expiry : option Instant }.

Definition Strike_default : Strike := mkStrike 0 None.

Abbreviation Expiries := (list Strike).

Definition Expiries_default : Expiries := replicate Demotion_COUNT Strike_default.

Record Table := mkTable { t_hosts : gmap bytes Expiries; t_prune_at : nat }.

Definition Table_default : Table := mkTable ∅ PRUNE_AT.

Definition unlapsed (strike : Strike) (now : Instant) : bool :=
  match st_expiry strike with Some expiry => now <? expiry | None => false end.

Definition live (strike : Strike) (now : Instant) : bool := (STRIKES <=? st_count strike) && unlapsed strike now.

(** [expiries[cause.slot()]]: the array has a slot for every cause. *)
Definition strike_of (expiries : Expiries) (cause : Demotion) : Strike :=
  default Strike_default (expiries !! Demotion_slot cause).

(** [min_by_key] keeps the first of the least. *)
Fixpoint min_tier (causes : list Demotion) : option Demotion :=
  match causes with
  | [] => None
  | cause :: causes =>
      match min_tier causes with
      | Some other => if Tier_rank (Demotion_tier other) <? Tier_rank (Demotion_tier cause) then Some other else Some cause
      | None => Some cause
      end
  end.

Definition standing_of (expiries : Expiries) (now : Instant) : Standing :=
  match min_tier (filter (fun cause => live (strike_of expiries cause) now = true) Demotion_ALL) with
  | Some cause => Limited cause
  | None => Unrestricted
  end.

Definition standing (t : Table) (host : bytes) (now : Instant) : Standing :=
  match t_hosts t !! host with
  | None => Unrestricted
  | Some expiries => standing_of expiries now
  end.

Definition prune (t : Table) (host : bytes) (now : Instant) : Table :=
  if (t_prune_at t <=? size (t_hosts t))%nat && negb (bool_decide (is_Some (t_hosts t !! host))) then
    let hosts := filter (fun '(_, expiries) => existsb (fun strike => unlapsed strike now) expiries = true) (t_hosts t) in
    mkTable hosts (PRUNE_AT `max` (size hosts * 2))
  else t.

(** The strike after one more; the count saturates at [u8::MAX]. *)
Definition struck (strike : Strike) (now : Instant) (expiry : option Instant) : Strike :=
  let count := if negb (unlapsed strike now) then 0 else st_count strike in
  mkStrike (saturating_add 255 count 1) expiry.

Definition record (t : Table) (host : bytes) (cause : Demotion) (now : Instant) : Standing * Table :=
  let expiry := instant_checked_add now (Demotion_ttl cause) in
  let t := prune t host now in
  let expiries := default Expiries_default (t_hosts t !! host) in
  let expiries := <[Demotion_slot cause := struck (strike_of expiries cause) now expiry]> expiries in
  (standing_of expiries now, mkTable (<[host := expiries]> (t_hosts t)) (t_prune_at t)).

(** * What the table answers *)

(** A failure seen: the host, the cause, and when. *)
Abbreviation Evidence := (bytes * Demotion * Instant)%type.

Definition records (events : list Evidence) : Table :=
  foldl (fun t '(host, cause, now) => (record t host cause now).2) Table_default events.

(** The times of a host's failures of one cause, newest first. *)
Definition times (events : list Evidence) (host : bytes) (cause : Demotion) : list Instant :=
  reverse (omap (fun '(h, c, now) => if bool_decide (h = host /\ c = cause) then Some now else None) events).

(** Three failures, each within one lifetime of the one before, the last within one of
    now. *)
Definition conclusive_evidence (ts : list Instant) (ttl : Duration) (now : Instant) : bool :=
  match ts with
  | t3 :: t2 :: t1 :: _ => (now <? t3 + ttl) && (t3 <? t2 + ttl) && (t2 <? t1 + ttl)
  | _ => false
  end.

Definition judged (events : list Evidence) (host : bytes) (now : Instant) : Standing :=
  match min_tier (filter (fun cause => conclusive_evidence (times events host cause) (Demotion_ttl cause) now = true) Demotion_ALL) with
  | Some cause => Limited cause
  | None => Unrestricted
  end.

(** The clock does not run backwards, and no lifetime passes its end. *)
Fixpoint clocked (from : Instant) (events : list Evidence) : Prop :=
  match events with
  | [] => True
  | (_, cause, now) :: events => from <= now /\ now + Demotion_ttl cause <= INSTANT_MAX /\ clocked now events
  end.

(** ** The strikes of one cause *)

Definition strikes_of (ttl : Duration) (ts : list Instant) : Strike :=
  foldr (fun t s => struck s t (Some (t + ttl))) Strike_default ts.

Lemma strikes_of_count ttl ts :
  match ts with
  | [] => True
  | t :: older =>
      st_expiry (strikes_of ttl ts) = Some (t + ttl) /\ 1 <= st_count (strikes_of ttl ts) <= 255 /\
      (2 <= st_count (strikes_of ttl ts) <-> match older with t' :: _ => t < t' + ttl | _ => False end) /\
      (3 <= st_count (strikes_of ttl ts) <-> match older with t' :: t'' :: _ => t < t' + ttl /\ t' < t'' + ttl | _ => False end)
  end.
Proof.
  induction ts as [|t ts IH]; [done|]. unfold strikes_of in *. cbn [foldr]. set (s := foldr _ _ ts) in *. split; [done|].
  unfold struck. cbn [st_count]. unfold saturating_add. destruct ts as [|t' ts].
  { unfold s, unlapsed. cbn. lia. }
  destruct IH as (He & Hc & H2 & H3). unfold unlapsed. rewrite He. destruct (t <? t' + ttl) eqn:E; reflect; cbn [negb].
  - split; [lia|]. split; [split; lia|]. destruct ts as [|t'' ts]; lia.
  - split; [lia|]. split; [split; lia|]. destruct ts as [|t'' ts]; lia.
Qed.

Lemma strikes_of_live ttl ts now : live (strikes_of ttl ts) now = conclusive_evidence ts ttl now.
Proof.
  pose proof (strikes_of_count ttl ts) as Hs. unfold live, unlapsed, STRIKES. destruct ts as [|t3 ts]; [done|].
  destruct Hs as (He & Hc & _ & H3). rewrite He. apply eq_true_iff_eq. rewrite andb_true_iff, Z.leb_le, Z.ltb_lt.
  destruct ts as [|t2 [|t1 ts]]; cbn [conclusive_evidence]; rewrite ?andb_true_iff, ?Z.ltb_lt; intuition (done || lia).
Qed.

(** ** Pruning is invisible *)

(** Two strikes the table cannot tell apart from [now] on. *)
Definition same_from (now : Instant) (s s' : Strike) : Prop :=
  s = s' \/ unlapsed s now = false /\ unlapsed s' now = false.

Lemma unlapsed_later s now later : now <= later -> unlapsed s now = false -> unlapsed s later = false.
Proof. unfold unlapsed. destruct (st_expiry s); [|done]. intros ? ?. reflect. apply Z.ltb_ge. lia. Qed.

Lemma same_from_later now later s s' : now <= later -> same_from now s s' -> same_from later s s'.
Proof. intros Hl [->|[? ?]]; [by left|right]. split; by eapply unlapsed_later. Qed.

Lemma same_from_struck now s s' expiry : same_from now s s' -> struck s now expiry = struck s' now expiry.
Proof. intros [->|[Hs Hs']]; [done|]. unfold struck. by rewrite Hs, Hs'. Qed.

Lemma same_from_live now s s' : same_from now s s' -> live s now = live s' now.
Proof. intros [->|[Hs Hs']]; [done|]. unfold live. by rewrite Hs, Hs', !andb_false_r. Qed.

Definition tracks (t : Table) (seen : bytes -> Demotion -> Strike) (now : Instant) : Prop :=
  forall host, (forall expiries, t_hosts t !! host = Some expiries -> length expiries = Demotion_COUNT) /\
    forall cause, same_from now (strike_of (default Expiries_default (t_hosts t !! host)) cause) (seen host cause).

Lemma tracks_later t seen now later : now <= later -> tracks t seen now -> tracks t seen later.
Proof. intros Hl Ht host. destruct (Ht host) as [Hlen Hs]. split; [done|]. intros cause. by eapply same_from_later. Qed.

Lemma strike_of_default cause now : unlapsed (strike_of Expiries_default cause) now = false.
Proof. by destruct cause. Qed.

Lemma prune_tracks t seen host now : tracks t seen now -> tracks (prune t host now) seen now.
Proof.
  intros Ht. unfold prune. destruct (_ && _); [|done]. intros h. destruct (Ht h) as [Hlen Hs]. cbn [t_hosts].
  destruct (filter _ (t_hosts t) !! h) as [expiries|] eqn:Ef.
  - apply map_lookup_filter_Some in Ef as [Eh _]. rewrite Eh in *. split; [|done]. intros ? [= <-]. by apply Hlen.
  - split; [done|]. intros cause. cbn [default]. apply map_lookup_filter_None in Ef as [Eh|Ef]; [by rewrite Eh in Hs|].
    destruct (t_hosts t !! h) as [expiries|] eqn:Eh; [|exact (Hs cause)]. right. split; [apply strike_of_default|].
    assert (unlapsed (strike_of expiries cause) now = false) as Hlapsed.
    { apply not_true_iff_false. intros Hu. apply (Ef expiries eq_refl). apply existsb_exists. exists (strike_of expiries cause). split; [|done].
      apply list_elem_of_In. unfold strike_of in *. destruct (expiries !! Demotion_slot cause) as [s|] eqn:Es; [|done].
      by apply list_elem_of_lookup_2 in Es. }
    destruct (Hs cause) as [<-|[_ Hseen]]; [|done]. exact Hlapsed.
Qed.

Lemma strike_of_insert expiries cause cause' s :
  length expiries = Demotion_COUNT ->
  strike_of (<[Demotion_slot cause := s]> expiries) cause' = if decide (cause = cause') then s else strike_of expiries cause'.
Proof.
  intros Hl. unfold strike_of. destruct (decide (cause = cause')) as [<-|Hne].
  - rewrite list_lookup_insert_eq; [done|]. rewrite Hl. destruct cause; cbn; lia.
  - rewrite list_lookup_insert_ne; [done|]. destruct cause, cause'; done.
Qed.

(** What was seen, with one failure more. *)
Definition saw (seen : bytes -> Demotion -> Strike) (host : bytes) (cause : Demotion) (now : Instant) (expiry : option Instant)
  : bytes -> Demotion -> Strike :=
  fun h c => if bool_decide (host = h /\ cause = c) then struck (seen h c) now expiry else seen h c.

Lemma record_tracks t seen host cause now :
  tracks t seen now ->
  tracks (record t host cause now).2 (saw seen host cause now (instant_checked_add now (Demotion_ttl cause))) now.
Proof.
  intros Ht%(prune_tracks _ _ host). unfold record. cbn [snd]. set (p := prune t host now) in *.
  assert (length (default Expiries_default (t_hosts p !! host)) = Demotion_COUNT) as Hlen.
  { destruct (Ht host) as [Hl _]. destruct (t_hosts p !! host) as [e|]; [by apply Hl|done]. }
  intros h. cbn [t_hosts]. destruct (decide (host = h)) as [<-|Hne].
  - rewrite lookup_insert_eq. split; [intros ? [= <-]; by rewrite length_insert|]. intros c. cbn [default]. unfold id.
    rewrite strike_of_insert by done. unfold saw. destruct (Ht host) as [_ Hs]. destruct (decide (cause = c)) as [<-|Hc].
    + rewrite bool_decide_true by done. left. by apply same_from_struck.
    + rewrite bool_decide_false by (by intros [_ ?]). apply Hs.
  - rewrite lookup_insert_ne by done. destruct (Ht h) as [Hl Hs]. split; [done|]. intros c. unfold saw.
    rewrite bool_decide_false by (by intros [? _]). apply Hs.
Qed.

Lemma tracks_standing t seen host now :
  tracks t seen now ->
  standing t host now =
    match min_tier (filter (fun cause => live (seen host cause) now = true) Demotion_ALL) with
    | Some cause => Limited cause | None => Unrestricted end.
Proof.
  intros Ht. destruct (Ht host) as [_ Hs]. unfold standing.
  assert (forall expiries, (forall cause, same_from now (strike_of expiries cause) (seen host cause)) ->
    standing_of expiries now = match min_tier (filter (fun cause => live (seen host cause) now = true) Demotion_ALL) with
    | Some cause => Limited cause | None => Unrestricted end) as Hof.
  { intros expiries He. unfold standing_of. rewrite (list_filter_iff _ (fun cause => live (seen host cause) now = true)); [done|].
    intros cause. by rewrite (same_from_live _ _ _ (He cause)). }
  destruct (t_hosts t !! host) as [expiries|]; [by apply Hof|]. rewrite <- (Hof Expiries_default Hs).
  unfold standing_of. rewrite (list_filter_iff _ (fun _ => False)); [|intros cause; by destruct cause]. done.
Qed.

Definition seen_in (events : list Evidence) : bytes -> Demotion -> Strike :=
  fun host cause => strikes_of (Demotion_ttl cause) (times events host cause).

Lemma seen_in_snoc events host cause now h c :
  now + Demotion_ttl cause <= INSTANT_MAX ->
  seen_in (events ++ [(host, cause, now)]) h c = saw (seen_in events) host cause now (instant_checked_add now (Demotion_ttl cause)) h c.
Proof.
  intros Hmax. unfold seen_in, saw, times. rewrite omap_app, reverse_app. cbn [omap list_omap].
  destruct (decide (host = h /\ cause = c)) as [[<- <-]|Hne].
  - rewrite !bool_decide_true by done. cbn [reverse rev_append app strikes_of foldr]. unfold instant_checked_add, checked_add.
    rewrite (proj2 (Z.leb_le _ _)) by done. done.
  - rewrite !bool_decide_false by done. done.
Qed.

Lemma records_tracks events : forall later,
  clocked 0 events -> Forall (fun '(_, _, now) => now <= later) events -> tracks (records events) (seen_in events) later.
Proof.
  induction events as [|[[host cause] now] events IH] using rev_ind; intros later Hc Hl.
  { intros host. split; [done|]. intros cause. right. split; [apply strike_of_default|done]. }
  assert (clocked 0 events /\ Forall (fun '(_, _, t) => t <= now) events /\ now + Demotion_ttl cause <= INSTANT_MAX) as (Hc' & Hl' & Hmax).
  { revert Hc. clear. generalize 0 as from. induction events as [|[[h c] t] events IH]; cbn; intros from; [intros (? & ? & _); done|].
    intros (? & ? & Hc). destruct (IH t Hc) as (? & Hf & ?). split_and!; try done. constructor; [|done].
    clear -Hc. revert t Hc. induction events as [|[[h' c'] t'] events IH]; cbn; intros t Hc; [lia|]. destruct Hc as (? & ? & Hc).
    specialize (IH t' Hc). lia. }
  apply Forall_app in Hl as [_ Hl]. apply Forall_cons in Hl as [Hl _].
  specialize (IH now Hc' Hl'). unfold records in *. rewrite foldl_app. cbn [foldl].
  apply (record_tracks _ _ host cause now) in IH. apply (tracks_later _ _ now later Hl).
  intros h. destruct (IH h) as [Hlen Hs]. split; [done|]. intros c. by rewrite seen_in_snoc.
Qed.

(** C32: The demotion table answers by its evidence: a host is limited by a cause exactly
    when the cause's last three failures there were each within one lifetime of the one
    before and the last is within one of now; of several causes the one with the lowest
    tier counts, and a host with none keeps full interception.  Pruning is never
    visible in an answer.  The failures form a chain: each renews the lifetime of the
    count, so that the first and the last of three may lie almost two lifetimes apart,
    where the comments on [STRIKES] and [record] ask for failures within one lifetime of each
    other ([chained_failures_limit]). *)
Theorem standing_judged events host now :
  clocked 0 events -> Forall (fun '(_, _, time) => time <= now) events ->
  standing (records events) host now = judged events host now.
Proof.
  intros Hc Hl. rewrite (tracks_standing _ _ _ _ (records_tracks events now Hc Hl)). unfold judged, seen_in.
  rewrite (list_filter_iff _ (fun cause => conclusive_evidence (times events host cause) (Demotion_ttl cause) now = true)); [done|].
  intros cause. by rewrite strikes_of_live.
Qed.

Lemma standing_judged_witness :
  standing (records [([97], LeafRejected, from_secs 1); ([97], RewriteExhausted, from_secs 2); ([97], LeafRejected, from_secs 3);
                     ([98], LeafRejected, from_secs 3); ([97], LeafRejected, from_secs 40000)]) [97] (from_secs 50000) = Limited LeafRejected.
Proof.
  rewrite (standing_judged [([97], LeafRejected, from_secs 1); ([97], RewriteExhausted, from_secs 2); ([97], LeafRejected, from_secs 3);
    ([98], LeafRejected, from_secs 3); ([97], LeafRejected, from_secs 40000)] [97] (from_secs 50000)).
  - vm_compute. reflexivity.
  - vm_compute. intuition discriminate.
  - repeat constructor; vm_compute; discriminate.
Defined.

(** Failures at the first second, at nine tenths of the lifetime and at eighteen tenths limit
    a host, though the first is older than a lifetime when the last comes. *)
Example chained_failures_limit :
  let ttl := Demotion_ttl LeafRejected in
  let first := from_secs 1 in let last := first + ttl / 10 * 18 in
  first + ttl < last /\
  standing (records [([97], LeafRejected, first); ([97], LeafRejected, first + ttl / 10 * 9); ([97], LeafRejected, last)]) [97] last = Limited LeafRejected.
Proof. vm_compute. done. Qed.
