(* ===== verification/Filter.v ===== *)
(** Filter lists ([src/policy/filter.rs]): the classification of a line, the names of a
    hosts line, and the compilation of a list into the host policy with its report. *)

From S2P Require Import Prelude Net IpText Text DnsName DnsMessage DnsPolicy.
Open Scope Z_scope.

Inductive Deferred := NeedsUrl | NeedsRequestContext | Cosmetic | HostsMapping | Pattern.

Inductive Rule := RuleBlock (name : Name) | RuleAllow (name : Name) | RuleDeferred (deferred : Deferred) | RuleIgnored.

Inductive RuleError := UnrepresentableHost.

#[global] Instance Deferred_eq_dec : EqDecision Deferred.
Proof. solve_decision. Defined.

(** Counters are [u32] and saturate. *)
Record Deferrals := mkDeferrals {
  needs_url : Z; needs_request_context : Z; cosmetic : Z; hosts_mapping : Z; pattern_ : Z }.

Record ListReport := mkListReport { blocked : Z; allowed : Z; ignored : Z; malformed : Z; deferred : Deferrals }.

Definition sat (a b : Z) : Z := saturating_add U32_MAX a b.

Definition Deferrals_default : Deferrals := mkDeferrals 0 0 0 0 0.
Definition ListReport_default : ListReport := mkListReport 0 0 0 0 Deferrals_default.

Definition Deferrals_total (d : Deferrals) : Z :=
  sat (sat (sat (sat (needs_url d) (needs_request_context d)) (cosmetic d)) (hosts_mapping d)) (pattern_ d).

Definition Deferrals_count (d : Deferrals) (k : Deferred) : Deferrals :=
  match k with
  | NeedsUrl => mkDeferrals (sat (needs_url d) 1) (needs_request_context d) (cosmetic d) (hosts_mapping d) (pattern_ d)
  | NeedsRequestContext => mkDeferrals (needs_url d) (sat (needs_request_context d) 1) (cosmetic d) (hosts_mapping d) (pattern_ d)
  | Cosmetic => mkDeferrals (needs_url d) (needs_request_context d) (sat (cosmetic d) 1) (hosts_mapping d) (pattern_ d)
  | HostsMapping => mkDeferrals (needs_url d) (needs_request_context d) (cosmetic d) (sat (hosts_mapping d) 1) (pattern_ d)
  | Pattern => mkDeferrals (needs_url d) (needs_request_context d) (cosmetic d) (hosts_mapping d) (sat (pattern_ d) 1)
  end.

Definition Deferrals_add (a b : Deferrals) : Deferrals :=
  mkDeferrals (sat (needs_url a) (needs_url b)) (sat (needs_request_context a) (needs_request_context b))
    (sat (cosmetic a) (cosmetic b)) (sat (hosts_mapping a) (hosts_mapping b)) (sat (pattern_ a) (pattern_ b)).

Definition ListReport_merge (a b : ListReport) : ListReport :=
  mkListReport (sat (blocked a) (blocked b)) (sat (allowed a) (allowed b)) (sat (ignored a) (ignored b))
    (sat (malformed a) (malformed b)) (Deferrals_add (deferred a) (deferred b)).

Definition ListReport_lines (r : ListReport) : Z :=
  sat (sat (sat (sat (blocked r) (allowed r)) (ignored r)) (malformed r)) (Deferrals_total (deferred r)).

(** ** Lines *)

Definition EXCEPTION_PREFIX : bytes := text_of "@@".
Definition DOMAIN_ANCHOR : bytes := text_of "||".
Definition SEPARATOR : Z := 94.
Definition OPTIONS : Z := 36.
Definition HASH : Z := 35.
Definition SLASH : Z := 47.
Definition BAR : Z := 124.
Definition STAR : Z := 42.

Definition is_comment (line : bytes) : bool :=
  match line with
  | [] => false
  | first :: rest =>
      if (first =? 33) || (first =? 91) then true
      else if first =? HASH then
        match rest with
        | next :: _ => negb ((next =? 35) || (next =? 64) || (next =? 63) || (next =? 36) || (next =? 37))
        | [] => true
        end
      else false
  end.

(** A host as a rule, unless DNS cannot carry it. *)
Definition block_host (host : bytes) : Res RuleError Rule :=
  match Name_parse host with
  | Some name => if Name_is_root name then Err UnrepresentableHost else Ok (RuleBlock name)
  | None => Err UnrepresentableHost
  end.

Definition is_sink (address : IpAddr) : bool := is_unspecified address || is_loopback address.

Definition hosts_entry (line : bytes) : option (Res RuleError Rule) :=
  match split_whitespace line with
  | first :: tokens =>
      address ← parse_ip first;
      match tokens with
      | host :: _ =>
          if starts_with [HASH] host then Some (Ok RuleIgnored)
          else if negb (is_sink address) then Some (Ok (RuleDeferred HostsMapping))
          else Some (block_host host)
      | [] => None
      end
  | [] => None
  end.

Definition parse_rule (line : bytes) : Res RuleError Rule :=
  let line := trim line in
  if (length line =? 0)%nat || is_comment line then Ok RuleIgnored else
  match hosts_entry line with
  | Some rest => rest
  | None =>
      if contains (text_of "##") line || contains (text_of "#@#") line || contains (text_of "#?#") line || contains (text_of "#$#") line
      then Ok (RuleDeferred Cosmetic) else
      let '(pattern, exception) :=
        match strip_prefix EXCEPTION_PREFIX line with Some rest => (rest, true) | None => (line, false) end in
      match strip_prefix DOMAIN_ANCHOR pattern with
      | None => Ok (RuleDeferred NeedsUrl)
      | Some pattern =>
          if contains1 OPTIONS pattern then Ok (RuleDeferred NeedsRequestContext) else
          let host := default pattern (strip_suffix1 SEPARATOR pattern) in
          if contains1 SLASH host || contains1 BAR host then Ok (RuleDeferred NeedsUrl) else
          if contains1 STAR host || starts_with [SLASH] host then Ok (RuleDeferred Pattern) else
          match Name_parse host with
          | None => Err UnrepresentableHost
          | Some name =>
              if Name_is_root name then Err UnrepresentableHost
              else Ok (if (exception : bool) then RuleAllow name else RuleBlock name)
          end
      end
  end.

Fixpoint take_while {A} (p : A -> bool) (l : list A) : list A :=
  match l with [] => [] | x :: l => if p x then x :: take_while p l else [] end.

(** The rules of a line: its own, and one for each further name of a sink line. *)
Definition hosts_names (line : bytes) : list (Res RuleError Rule) :=
  let tokens := split_whitespace line in
  let sink := match tokens with
              | first :: _ => match parse_ip first with Some address => is_sink address | None => false end
              | [] => false
              end in
  let extra := if sink then block_host <$> take_while (fun t => negb (starts_with [HASH] t)) (drop 2 tokens) else [] in
  parse_rule line :: extra.

(** ** Lists *)

Definition apply_rule (acc : HostPolicy * ListReport) (rule : Res RuleError Rule) : HostPolicy * ListReport :=
  let '(policy, r) := acc in
  match rule with
  | Ok (RuleBlock name) =>
      (HostPolicy_insert_name policy Blocked name,
       mkListReport (sat (blocked r) 1) (allowed r) (ignored r) (malformed r) (deferred r))
  | Ok (RuleAllow name) =>
      (HostPolicy_insert_name policy Allowed name,
       mkListReport (blocked r) (sat (allowed r) 1) (ignored r) (malformed r) (deferred r))
  | Ok (RuleDeferred k) =>
      (policy, mkListReport (blocked r) (allowed r) (ignored r) (malformed r) (Deferrals_count (deferred r) k))
  | Ok RuleIgnored => (policy, mkListReport (blocked r) (allowed r) (sat (ignored r) 1) (malformed r) (deferred r))
  | Err _ | Panic => (policy, mkListReport (blocked r) (allowed r) (ignored r) (sat (malformed r) 1) (deferred r))
  end.

Definition extend_from_list (policy : HostPolicy) (list_ : bytes) : HostPolicy * ListReport :=
  foldl apply_rule (policy, ListReport_default) (lines list_ ≫= hosts_names).

(** * What a list contributes *)

Lemma apply_rules_policy rules : forall p r,
  let p' := (foldl apply_rule (p, r) rules).1 in
  (forall name, name ∈ hp_blocked p' <-> name ∈ hp_blocked p \/ Ok (RuleBlock name) ∈ rules) /\
  (forall name, name ∈ hp_allowed p' <-> name ∈ hp_allowed p \/ Ok (RuleAllow name) ∈ rules) /\
  hp_inspected p' = hp_inspected p.
Proof.
  induction rules as [|rule rules IH]; intros p r; cbn zeta; cbn [foldl].
  { split_and!; [| |done]; intros name; rewrite elem_of_nil; tauto. }
  destruct (apply_rule (p, r) rule) as [p1 r1] eqn:E. destruct (IH p1 r1) as (Hb & Ha & Hi). cbn zeta in *.
  split_and!; [intros name; rewrite Hb|intros name; rewrite Ha|rewrite Hi];
    destruct rule as [[nm|nm|k|]|e|]; injection E as <- <-; cbn [hp_blocked hp_allowed hp_inspected HostPolicy_insert_name];
    rewrite ?elem_of_cons, ?elem_of_union, ?elem_of_singleton; try done; naive_solver.
Qed.

(** Compiling a filter list adds to the policy exactly what its lines say: a name is
    blocked afterwards when it was before or some line's rule blocks it, and allowed
    likewise; inspection is left alone, and applying the list again changes nothing. *)
Theorem extend_exact p list_ :
  let p' := (extend_from_list p list_).1 in
  (forall name, name ∈ hp_blocked p' <-> name ∈ hp_blocked p \/ exists line, line ∈ lines list_ /\ Ok (RuleBlock name) ∈ hosts_names line) /\
  (forall name, name ∈ hp_allowed p' <-> name ∈ hp_allowed p \/ exists line, line ∈ lines list_ /\ Ok (RuleAllow name) ∈ hosts_names line) /\
  hp_inspected p' = hp_inspected p /\
  (extend_from_list p' list_).1 = p'.
Proof.
  cbn zeta. unfold extend_from_list. set (rules := lines list_ ≫= hosts_names).
  assert (forall rule, rule ∈ rules <-> exists line, line ∈ lines list_ /\ rule ∈ hosts_names line) as Hrules.
  { intros rule. unfold rules. rewrite list_elem_of_bind. naive_solver. }
  destruct (apply_rules_policy rules p ListReport_default) as (Hb & Ha & Hi). cbn zeta in *.
  set (p' := (foldl apply_rule (p, ListReport_default) rules).1) in *.
  split_and!; [intros name; by rewrite Hb, Hrules|intros name; by rewrite Ha, Hrules|done|].
  destruct (apply_rules_policy rules p' ListReport_default) as (Hb' & Ha' & Hi'). cbn zeta in *.
  destruct (foldl apply_rule (p', ListReport_default) rules).1 as [a b i], p' as [a0 b0 i0]. cbn in *.
  f_equal; [apply set_eq; intros x; rewrite Ha', Ha; tauto|apply set_eq; intros x; rewrite Hb', Hb; tauto|done].
Qed.

(** ** Reports *)

(** Counters are never negative. *)
Record report_ok (r : ListReport) : Prop := {
  ro_counts : Forall (fun c => 0 <= c <= U32_MAX)
    [blocked r; allowed r; ignored r; malformed r; needs_url (deferred r); needs_request_context (deferred r);
     cosmetic (deferred r); hosts_mapping (deferred r); pattern_ (deferred r)];
}.

Lemma sat_assoc a b c : 0 <= a -> 0 <= b -> 0 <= c -> sat a (sat b c) = sat (sat a b) c.
Proof. unfold sat, saturating_add, U32_MAX. lia. Qed.

Lemma sat_comm a b : sat a b = sat b a.
Proof. unfold sat, saturating_add. lia. Qed.

Lemma sat_0 a : a <= U32_MAX -> sat a 0 = a.
Proof. unfold sat, saturating_add. lia. Qed.

(** The report of one rule. *)
Definition report_of (rule : Res RuleError Rule) : ListReport := (apply_rule (HostPolicy_new, ListReport_default) rule).2.

Ltac report_lia :=
  repeat match goal with H : report_ok _ |- _ => destruct H as [H]; repeat (apply Forall_cons in H as [? H]) end;
  cbn [blocked allowed ignored malformed deferred needs_url needs_request_context cosmetic hosts_mapping pattern_] in *;
  unfold sat, saturating_add, U32_MAX in *; lia.

Lemma merge_assoc a b c :
  report_ok a -> report_ok b -> report_ok c -> ListReport_merge a (ListReport_merge b c) = ListReport_merge (ListReport_merge a b) c.
Proof.
  intros Ha Hb Hc. unfold ListReport_merge, Deferrals_add. cbn [blocked allowed ignored malformed deferred needs_url needs_request_context cosmetic hosts_mapping pattern_].
  f_equal; [| | | |f_equal]; report_lia.
Qed.

Lemma merge_ok a b : report_ok a -> report_ok b -> report_ok (ListReport_merge a b).
Proof. intros Ha Hb. split. repeat constructor; cbn; report_lia. Qed.

Lemma merge_default_r a : report_ok a -> ListReport_merge a ListReport_default = a.
Proof. intros Ha. destruct a as [b a i m [u c co h p]]. unfold ListReport_merge, Deferrals_add. cbn. f_equal; [| | | |f_equal]; report_lia. Qed.

Lemma merge_default_l a : report_ok a -> ListReport_merge ListReport_default a = a.
Proof. intros Ha. destruct a as [b a i m [u c co h p]]. unfold ListReport_merge, Deferrals_add. cbn. f_equal; [| | | |f_equal]; report_lia. Qed.

Lemma report_of_ok rule : report_ok (report_of rule).
Proof. split. destruct rule as [[nm|nm|[]|]|e|]; repeat constructor; cbn; unfold sat, saturating_add, U32_MAX; lia. Qed.

Lemma apply_rule_merges p r rule :
  report_ok r -> (apply_rule (p, r) rule).2 = ListReport_merge r (report_of rule).
Proof.
  intros Hr. destruct r as [b a i m [u c co h pt]].
  destruct rule as [[nm|nm|[]|]|e|]; unfold report_of, apply_rule, ListReport_merge, Deferrals_add, Deferrals_count; cbn; f_equal;
    try (f_equal; report_lia); report_lia.
Qed.

Definition report_rules (rules : list (Res RuleError Rule)) : ListReport :=
  foldr (fun rule r => ListReport_merge (report_of rule) r) ListReport_default rules.

Lemma report_rules_ok rules : report_ok (report_rules rules).
Proof.
  induction rules as [|rule rules IH]; [split; by repeat constructor|]. apply merge_ok; [apply report_of_ok|done].
Qed.

Lemma apply_rules_report rules : forall p r,
  report_ok r -> (foldl apply_rule (p, r) rules).2 = ListReport_merge r (report_rules rules).
Proof.
  induction rules as [|rule rules IH]; intros p r Hr; cbn [foldl report_rules foldr].
  { by rewrite merge_default_r. }
  pose proof (apply_rule_merges p r rule Hr) as Ha. destruct (apply_rule (p, r) rule) as [p1 r1]. cbn [snd] in Ha. subst r1.
  rewrite IH by (apply merge_ok; [done|apply report_of_ok]).
  symmetry. apply merge_assoc; [done|apply report_of_ok|apply report_rules_ok].
Qed.

Lemma merge_comm a b : ListReport_merge a b = ListReport_merge b a.
Proof. unfold ListReport_merge, Deferrals_add. f_equal; [| | | |f_equal]; apply sat_comm. Qed.

(** The counters as a list, and their saturated sum. *)
Definition counts (r : ListReport) : list Z :=
  [blocked r; allowed r; ignored r; malformed r; needs_url (deferred r); needs_request_context (deferred r);
   cosmetic (deferred r); hosts_mapping (deferred r); pattern_ (deferred r)].

Definition total (l : list Z) : Z := foldr Z.add 0 l.

Lemma total_nonneg l : Forall (fun c => 0 <= c <= U32_MAX) l -> 0 <= total l.
Proof. unfold total. induction 1; cbn [foldr]; lia. Qed.

Lemma sat_min a b : 0 <= a -> 0 <= b -> sat (Z.min U32_MAX a) b = Z.min U32_MAX (a + b).
Proof. unfold sat, saturating_add, U32_MAX. lia. Qed.

Lemma lines_total r : report_ok r -> ListReport_lines r = Z.min U32_MAX (total (counts r)).
Proof.
  intros [H]. unfold counts in *. repeat (apply Forall_cons in H as [? H]).
  assert (forall a b, sat a b = Z.min U32_MAX (a + b)) as Hs by done. assert (0 <= U32_MAX) by done.
  set (d := needs_url (deferred r) + needs_request_context (deferred r) + cosmetic (deferred r) + hosts_mapping (deferred r) + pattern_ (deferred r)).
  assert (Deferrals_total (deferred r) = Z.min U32_MAX d) as Hd.
  { unfold Deferrals_total. rewrite (Hs (needs_url _)). by rewrite !sat_min by lia. }
  unfold ListReport_lines. rewrite Hd, (Hs (blocked r)). rewrite !sat_min by (unfold d; lia). cbn [total foldr]. unfold d. lia.
Qed.

Lemma total_zip xs : forall ys, length xs = length ys ->
  Forall (fun c => 0 <= c <= U32_MAX) xs -> Forall (fun c => 0 <= c <= U32_MAX) ys ->
  Z.min U32_MAX (total (zip_with sat xs ys)) = sat (Z.min U32_MAX (total xs)) (Z.min U32_MAX (total ys)).
Proof.
  induction xs as [|x xs IH]; intros [|y ys] Hl Hx Hy; try done. cbn in Hl. injection Hl as Hl.
  apply Forall_cons in Hx as [Hx Hxs]. apply Forall_cons in Hy as [Hy Hys]. specialize (IH ys Hl Hxs Hys).
  pose proof (total_nonneg _ Hxs). pose proof (total_nonneg _ Hys). cbn [zip_with total foldr]. fold (total xs) (total ys) (total (zip_with sat xs ys)).
  unfold sat, saturating_add, U32_MAX in *. lia.
Qed.

Lemma merge_lines a b : report_ok a -> report_ok b -> ListReport_lines (ListReport_merge a b) = sat (ListReport_lines a) (ListReport_lines b).
Proof.
  intros Ha Hb. rewrite !lines_total by (done || by apply merge_ok). destruct Ha as [Ha], Hb as [Hb].
  exact (total_zip (counts a) (counts b) eq_refl Ha Hb).
Qed.

Lemma report_rules_lines rules : ListReport_lines (report_rules rules) = Z.min U32_MAX (Z.of_nat (length rules)).
Proof.
  induction rules as [|rule rules IH]; [done|]. cbn [report_rules foldr length].
  fold (report_rules rules). rewrite merge_lines, IH by (apply report_of_ok || apply report_rules_ok).
  assert (ListReport_lines (report_of rule) = 1) as -> by (by destruct rule as [[nm|nm|[]|]|e|]).
  unfold sat, saturating_add, U32_MAX. lia.
Qed.

Lemma report_rules_app xs ys : report_rules (xs ++ ys) = ListReport_merge (report_rules xs) (report_rules ys).
Proof.
  induction xs as [|rule xs IH].
  - symmetry. apply merge_default_l, report_rules_ok.
  - cbn [app report_rules foldr]. fold (report_rules (xs ++ ys)) (report_rules xs). rewrite IH. apply merge_assoc; [apply report_of_ok|apply report_rules_ok..].
Qed.

Lemma lines_app_from xs : forall line ys, lines_from line (xs ++ 10 :: ys) = lines_from line (xs ++ [10]) ++ lines ys.
Proof.
  induction xs as [|b xs IH]; intros line ys; cbn [app lines_from]; [done|]. destruct (b =? 10); [|apply IH]. cbn [app]. by rewrite IH.
Qed.

Lemma extend_report p list_ : (extend_from_list p list_).2 = report_rules (lines list_ ≫= hosts_names).
Proof.
  unfold extend_from_list. rewrite apply_rules_report by (split; by repeat constructor). apply merge_default_l, report_rules_ok.
Qed.

(** The report of a list accounts for every rule of every line, each once: its
    counters add up to the number of rules, up to where the counters saturate; and a list
    compiled in two parts, in either order, reports the same as the whole. *)
Theorem report_accounts p q xs ys :
  ListReport_lines (extend_from_list p xs).2 = Z.min U32_MAX (Z.of_nat (length (lines xs ≫= hosts_names))) /\
  (extend_from_list p (xs ++ 10 :: ys)).2 = ListReport_merge (extend_from_list p (xs ++ [10])).2 (extend_from_list q ys).2 /\
  (extend_from_list p (xs ++ 10 :: ys)).2 = ListReport_merge (extend_from_list q ys).2 (extend_from_list p (xs ++ [10])).2.
Proof.
  rewrite (merge_comm (extend_from_list q ys).2). rewrite !extend_report, report_rules_lines. split; [done|].
  unfold lines. rewrite lines_app_from, bind_app, report_rules_app. done.
Qed.

(** The words of a comment behind a sink address are blocked: of a hosts line whose
    first word after the address is a comment mark, the line itself is ignored, but each
    word after the mark becomes a block rule, so this line blocks every name under
    [com]. *)
Theorem comment_words_blocked :
  let line := text_of "0.0.0.0 # com" in
  parse_rule line = Ok RuleIgnored /\
  hosts_names line = [Ok RuleIgnored; Ok (RuleBlock (text_of "com"))] /\
  j_verdict (HostPolicy_judge (extend_from_list HostPolicy_new line).1 (text_of "example.com")) = Blocked.
Proof. vm_compute. split_and!; reflexivity. Qed.
