(* ===== verification/Live.v ===== *)
(** The shared connection of [src/live.rs]: callers, the one dial they share, and what
    each of them gets, under any interleaving.

    A dial is a spawned task that writes the state and then reports on its own watch
    channel; a caller holds the channel of the attempt it waits for.  The lock makes
    each access to the state one step. *)

From stdpp Require Import gmap relations.
From S2P Require Import Prelude Egress.
Open Scope nat_scope.

Section Live.
Context {C : Type}.

(** [Opening] holds the receiver of an attempt's channel, named by the attempt. *)
Inductive State := Down | Opening (attempt : nat) | Up (connection : C).

(** A channel: no value yet, the outcome, or a sender that went away without one. *)
Inductive Report := Unreported | Reported (outcome : C + ErrorKind) | Dropped.

(** [l_running] are the dial tasks whose [open] is pending, [l_settled] those that wrote
    the state and have not reported yet, [l_waiting] the callers by the attempt they
    await. *)
Record Live := mkLive {
  l_state : State;
  l_reports : gmap nat Report;
  l_running : gset nat;
  l_settled : gmap nat (C + ErrorKind);
  l_waiting : gmap nat nat;
  l_next : nat;
}.

Definition Live_new : Live := mkLive Down ∅ ∅ ∅ ∅ 0.

Definition peek (l : Live) : option C :=
  match l_state l with Up connection => Some connection | Opening _ | Down => None end.

Definition wait (l : Live) (caller attempt : nat) : Live :=
  mkLive (l_state l) (l_reports l) (l_running l) (l_settled l) (<[caller := attempt]> (l_waiting l)) (l_next l).

(** A new channel, the state that holds its receiver, and the task that dials. *)
Definition spawn_dial (l : Live) : Live :=
  mkLive (Opening (l_next l)) (<[l_next l := Unreported]> (l_reports l)) ({[l_next l]} ∪ l_running l)
    (l_settled l) (l_waiting l) (S (l_next l)).

(** The locked part of [get]: the connection at once, or the attempt [caller] now waits
    for. *)
Definition get_begin (l : Live) (alive : C -> bool) (caller : nat) : option C * Live :=
  match l_state l with
  | Up connection =>
      if alive connection then (Some connection, l) else (None, wait (spawn_dial l) caller (l_next l))
  | Opening attempt => (None, wait l caller attempt)
  | Down => (None, wait (spawn_dial l) caller (l_next l))
  end.

(** A caller that stops waiting cancels only its wait. *)
Definition stop_waiting (l : Live) (caller : nat) : Live :=
  mkLive (l_state l) (l_reports l) (l_running l) (l_settled l) (delete caller (l_waiting l)) (l_next l).

(** The rest of [get]: what a caller is answered once its channel has a value or no
    sender. *)
Definition get_end (l : Live) (caller : nat) : option ((C + ErrorKind) * Live) :=
  attempt ← l_waiting l !! caller;
  match l_reports l !! attempt with
  | Some (Reported outcome) => Some (outcome, stop_waiting l caller)
  | Some Dropped => Some (inr ConnectionAborted, stop_waiting l caller)
  | _ => None
  end.

(** The two steps at the end of [dial]: the state under its lock, then the report. *)
Definition dial_settles (l : Live) (attempt : nat) (outcome : C + ErrorKind) : Live :=
  mkLive (match outcome with inl connection => Up connection | inr _ => Down end) (l_reports l)
    (l_running l ∖ {[attempt]}) (<[attempt := outcome]> (l_settled l)) (l_waiting l) (l_next l).

Definition dial_reports (l : Live) (attempt : nat) (outcome : C + ErrorKind) : Live :=
  mkLive (l_state l) (<[attempt := Reported outcome]> (l_reports l)) (l_running l)
    (delete attempt (l_settled l)) (l_waiting l) (l_next l).

(** A dial whose task ends inside [open] (it panics): the sender goes, the state stays. *)
Definition dial_lost (l : Live) (attempt : nat) : Live :=
  mkLive (l_state l) (<[attempt := Dropped]> (l_reports l)) (l_running l ∖ {[attempt]})
    (l_settled l) (l_waiting l) (l_next l).

Inductive step : Live -> Live -> Prop :=
| step_get l alive caller :
    l_waiting l !! caller = None -> step l (get_begin l alive caller).2
| step_answer l caller answer l' :
    get_end l caller = Some (answer, l') -> step l l'
| step_settle l attempt outcome :
    attempt ∈ l_running l -> step l (dial_settles l attempt outcome)
| step_report l attempt outcome :
    l_settled l !! attempt = Some outcome -> step l (dial_reports l attempt outcome)
| step_lost l attempt :
    attempt ∈ l_running l -> step l (dial_lost l attempt)
| step_stop l caller : step l (stop_waiting l caller).

(** ** What holds in every state *)

(** An attempt's task, its channel and the state agree. *)
Record live_ok (l : Live) : Prop := {
  lo_running attempt : attempt ∈ l_running l -> l_state l = Opening attempt;
  lo_opening attempt : l_state l = Opening attempt -> attempt ∈ l_running l \/ l_reports l !! attempt = Some Dropped;
  lo_pending attempt : attempt ∈ l_running l -> l_settled l !! attempt = None /\ l_reports l !! attempt = Some Unreported;
  lo_settled attempt outcome : l_settled l !! attempt = Some outcome -> l_reports l !! attempt = Some Unreported;
  lo_waiting caller attempt : l_waiting l !! caller = Some attempt ->
    attempt ∈ l_running l \/ is_Some (l_settled l !! attempt) \/
    (exists outcome, l_reports l !! attempt = Some (Reported outcome)) \/ l_reports l !! attempt = Some Dropped;
  lo_up connection : l_state l = Up connection ->
    exists attempt, l_settled l !! attempt = Some (inl connection) \/ l_reports l !! attempt = Some (Reported (inl connection));
  lo_next attempt : is_Some (l_reports l !! attempt) -> attempt < l_next l;
}.

Lemma Live_new_ok : live_ok Live_new.
Proof. split; cbn; try done; try set_solver. intros a [? H]. done. Qed.

Lemma fresh_attempt l : live_ok l ->
  l_reports l !! l_next l = None /\ l_settled l !! l_next l = None /\ l_next l ∉ l_running l.
Proof.
  intros [Hr Ho Hp Hs Hw Hu Hn]. assert (l_reports l !! l_next l = None) as Hf.
  { destruct (l_reports l !! l_next l) eqn:E; [|done]. assert (l_next l < l_next l); [|lia]. apply Hn. by rewrite E. }
  split_and!; [done| |].
  - destruct (l_settled l !! l_next l) eqn:E; [|done]. apply Hs in E. congruence.
  - intros [_ H]%Hp. congruence.
Qed.

Lemma spawn_dial_ok l : live_ok l -> (forall a, l_state l <> Opening a) -> live_ok (spawn_dial l).
Proof.
  intros Hok Hidle. destruct (fresh_attempt l Hok) as (Hf & Hfs & Hfr). destruct Hok as [Hr Ho Hp Hs Hw Hu Hn].
  assert (l_running l = ∅) as Hnone.
  { apply set_eq. intros a. split; [|set_solver]. intros H%Hr. by apply Hidle in H. }
  assert (forall a r, l_reports l !! a = Some r -> <[l_next l := Unreported]> (l_reports l) !! a = Some r) as Hkeep.
  { intros a r H. rewrite lookup_insert_ne; [done|congruence]. }
  split; cbn; rewrite ?Hnone.
  - intros a. rewrite union_empty_r_L, elem_of_singleton. by intros ->.
  - intros a [= <-]. left. set_solver.
  - intros a. rewrite union_empty_r_L, elem_of_singleton. intros ->. by rewrite lookup_insert_eq.
  - intros a o H. eapply Hkeep, Hs, H.
  - intros c a H. apply Hw in H as [H|[H|[[o H]|H]]]; [rewrite Hnone in H; set_solver|by right; left| |].
    + right; right; left. exists o. by apply Hkeep.
    + right; right; right. by apply Hkeep.
  - done.
  - intros a [r H]. destruct (decide (a = l_next l)) as [->|Hne]; [lia|].
    rewrite lookup_insert_ne in H by done. assert (a < l_next l) by (apply Hn; eauto). lia.
Qed.

Lemma wait_ok l caller attempt :
  live_ok l -> attempt ∈ l_running l \/ l_reports l !! attempt = Some Dropped -> live_ok (wait l caller attempt).
Proof.
  intros [Hr Ho Hp Hs Hw Hu Hn] Hin. split; cbn; try done.
  intros c a [[_ <-]|[_ H]]%lookup_insert_Some; [|by apply (Hw c)]. destruct Hin; [by left|by right; right; right].
Qed.

Lemma get_begin_ok l alive caller : live_ok l -> live_ok (get_begin l alive caller).2.
Proof.
  intros Hok. unfold get_begin. destruct (l_state l) as [|attempt|connection] eqn:Es; cbn [snd].
  - apply wait_ok; [|left; cbn; set_solver]. apply spawn_dial_ok; [done|]. by rewrite Es.
  - apply wait_ok; [done|]. by apply (lo_opening l Hok).
  - case_match; [done|]. cbn [snd]. apply wait_ok; [|left; cbn; set_solver]. apply spawn_dial_ok; [done|]. by rewrite Es.
Qed.

Lemma stop_waiting_ok l caller : live_ok l -> live_ok (stop_waiting l caller).
Proof. intros [Hr Ho Hp Hs Hw Hu Hn]. split; cbn; try done. intros c a [_ Hc]%lookup_delete_Some. by apply (Hw c). Qed.

Lemma one_running l a b : live_ok l -> a ∈ l_running l -> b ∈ l_running l -> a = b.
Proof. intros Hok Ha%(lo_running l Hok) Hb%(lo_running l Hok). congruence. Qed.

Lemma dial_settles_ok l attempt outcome :
  attempt ∈ l_running l -> live_ok l -> live_ok (dial_settles l attempt outcome).
Proof.
  intros Hin Hok. assert (l_running l ∖ {[attempt]} = ∅) as Hnone.
  { apply set_eq. intros a. split; [|set_solver]. intros [Ha Hne]%elem_of_difference. destruct Hne. rewrite (one_running l a attempt) by done. set_solver. }
  destruct Hok as [Hr Ho Hp Hs Hw Hu Hn]. destruct (Hp attempt Hin) as [Hps Hpr]. pose proof (Hr _ Hin) as Hst.
  split; cbn; rewrite ?Hnone.
  - set_solver.
  - intros a. by destruct outcome.
  - set_solver.
  - intros a o [[<- _]|[_ H]]%lookup_insert_Some; [done|by eapply Hs].
  - intros c a H. destruct (decide (a = attempt)) as [->|Hne]; [right; left; rewrite lookup_insert_eq; by eexists|].
    rewrite lookup_insert_ne by done. apply Hw in H as [H%Hr|H]; [congruence|by right].
  - intros connection H. destruct outcome; [|done]. injection H as ->. exists attempt. left. by rewrite lookup_insert_eq.
  - done.
Qed.

Lemma dial_reports_ok l attempt outcome :
  l_settled l !! attempt = Some outcome -> live_ok l -> live_ok (dial_reports l attempt outcome).
Proof.
  intros Hset [Hr Ho Hp Hs Hw Hu Hn]. pose proof (Hs _ _ Hset) as Hrep. split; cbn.
  - done.
  - intros a [H|H]%Ho; [by left|right]. rewrite lookup_insert_ne; [done|congruence].
  - intros a Ha. destruct (Hp a Ha) as [H1 H2]. assert (a <> attempt) by congruence.
    by rewrite lookup_delete_ne, lookup_insert_ne.
  - intros a o [Hne H]%lookup_delete_Some. rewrite lookup_insert_ne by done. by eapply Hs.
  - intros c a H. destruct (decide (a = attempt)) as [->|Hne]; [right; right; left; rewrite lookup_insert_eq; by eexists|].
    rewrite lookup_delete_ne, lookup_insert_ne by done. by apply (Hw c).
  - intros connection H. apply Hu in H as [a H]. destruct (decide (a = attempt)) as [->|Hne].
    + exists attempt. right. rewrite lookup_insert_eq. destruct H as [H|H]; congruence.
    + exists a. by rewrite lookup_delete_ne, lookup_insert_ne.
  - intros a H. destruct (decide (a = attempt)) as [->|Hne]; [apply Hn; by rewrite Hrep|].
    rewrite lookup_insert_ne in H by done. by apply Hn.
Qed.

Lemma lost_alone l attempt : live_ok l -> attempt ∈ l_running l -> l_running l ∖ {[attempt]} = ∅.
Proof.
  intros Hok Hin. apply set_eq. intros a. split; [|set_solver]. intros [Ha Hne]%elem_of_difference. destruct Hne.
  rewrite (one_running l a attempt) by done. set_solver.
Qed.

Lemma dial_lost_ok l attempt : attempt ∈ l_running l -> live_ok l -> live_ok (dial_lost l attempt).
Proof.
  intros Hin Hok. pose proof (lost_alone l attempt Hok Hin) as Hnone. destruct Hok as [Hr Ho Hp Hs Hw Hu Hn]. destruct (Hp attempt Hin) as [Hps Hpr].
  assert (forall a r, r <> Unreported -> l_reports l !! a = Some r -> <[attempt := Dropped]> (l_reports l) !! a = Some r) as Hkeep.
  { intros a r Hne H. rewrite lookup_insert_ne; [done|congruence]. }
  split; cbn; rewrite ?Hnone.
  - set_solver.
  - intros a H. right. rewrite (Hr _ Hin) in H. injection H as <-. by rewrite lookup_insert_eq.
  - set_solver.
  - intros a o H. rewrite lookup_insert_ne; [by eapply Hs|congruence].
  - intros c a H. destruct (decide (a = attempt)) as [->|Hne]; [right; right; right; by rewrite lookup_insert_eq|].
    rewrite lookup_insert_ne by done. apply Hw in H as [H|H]; [|by right]. apply Hr in H. rewrite (Hr _ Hin) in H. congruence.
  - intros connection H. rewrite (Hr _ Hin) in H. done.
  - intros a [r [[<- _]|[_ H]]%lookup_insert_Some]; apply Hn; [by rewrite Hpr|by exists r].
Qed.

Lemma get_end_state l caller answer l' : get_end l caller = Some (answer, l') -> l' = stop_waiting l caller.
Proof. unfold get_end. intros (attempt & _ & H)%bind_Some. repeat case_match; by simplify_eq. Qed.

Lemma step_ok l l' : step l l' -> live_ok l -> live_ok l'.
Proof.
  intros Hstep Hok. destruct Hstep as [l alive caller _|l caller answer l' He|l attempt outcome Hin|l attempt outcome Hin|l attempt Hin|l caller].
  - by apply get_begin_ok.
  - apply get_end_state in He as ->. by apply stop_waiting_ok.
  - by apply dial_settles_ok.
  - by apply dial_reports_ok.
  - by apply dial_lost_ok.
  - by apply stop_waiting_ok.
Qed.

Lemma steps_ok l l' : rtc step l l' -> live_ok l -> live_ok l'.
Proof. induction 1; [done|]. eauto using step_ok. Qed.

(** ** After a lost dial *)

Definition stuck_on (l : Live) (attempt : nat) : Prop :=
  l_state l = Opening attempt /\ l_reports l !! attempt = Some Dropped /\ l_running l = ∅ /\ l_settled l !! attempt = None.

Lemma dial_lost_stuck l attempt : live_ok l -> attempt ∈ l_running l -> stuck_on (dial_lost l attempt) attempt.
Proof.
  intros Hok Hin. split_and!; cbn.
  - by apply (lo_running l Hok).
  - by rewrite lookup_insert_eq.
  - by apply lost_alone.
  - by apply (lo_pending l Hok).
Qed.

Lemma get_begin_stuck l attempt alive caller : stuck_on l attempt -> get_begin l alive caller = (None, wait l caller attempt).
Proof. intros (Hs & _). unfold get_begin. by rewrite Hs. Qed.

Lemma step_stuck l l' attempt : step l l' -> stuck_on l attempt -> stuck_on l' attempt.
Proof.
  intros Hstep Hst. destruct Hstep as [l alive caller _|l caller answer l' Hg|l a outcome Hin|l a outcome Hin|l a Hin|l caller].
  - by rewrite (get_begin_stuck l attempt).
  - by apply get_end_state in Hg as ->.
  - destruct Hst as (_ & _ & Hn & _). rewrite Hn in Hin. set_solver.
  - destruct Hst as (Hs & Hr & Hn & He). assert (a <> attempt) by congruence.
    split_and!; cbn; [done| |done|]; [by rewrite lookup_insert_ne|by rewrite lookup_delete_ne].
  - destruct Hst as (_ & _ & Hn & _). rewrite Hn in Hin. set_solver.
  - done.
Qed.

Lemma steps_stuck l l' attempt : rtc step l l' -> stuck_on l attempt -> stuck_on l' attempt.
Proof. induction 1; eauto using step_stuck. Qed.

Lemma stuck_answer l attempt caller alive :
  stuck_on l attempt -> exists l', get_end (get_begin l alive caller).2 caller = Some (inr ConnectionAborted, l').
Proof.
  intros Hst. rewrite (get_begin_stuck l attempt) by done. destruct Hst as (_ & Hr & _). eexists.
  unfold get_end, wait. cbn [snd l_waiting l_reports]. rewrite lookup_insert_eq. cbn. by rewrite Hr.
Qed.

(** ** Answers *)

(** What a waiting caller is answered when its attempt has an outcome. *)
Lemma get_end_reported l caller attempt outcome :
  l_waiting l !! caller = Some attempt -> l_reports l !! attempt = Some (Reported outcome) ->
  get_end l caller = Some (outcome, stop_waiting l caller).
Proof. intros Hw Hr. unfold get_end. rewrite Hw. cbn. by rewrite Hr. Qed.

Lemma get_end_after_report l caller attempt outcome :
  l_waiting l !! caller = Some attempt ->
  get_end (dial_reports l attempt outcome) caller = Some (outcome, stop_waiting (dial_reports l attempt outcome) caller).
Proof. intros Hw. apply (get_end_reported _ _ attempt); [done|]. cbn. by rewrite lookup_insert_eq. Qed.
End Live.

Arguments State : clear implicits.
Arguments Live : clear implicits.

(** C25: Callers share one dial, whatever the interleaving of callers and dial tasks, tasks
    that end inside [open] included: at most one attempt is pending at a time; a waiting
    caller's attempt is still pending, has settled with an outcome the caller is answered
    with as soon as it reports, has reported and the caller is answered its outcome, or
    has ended without one and the caller is answered [ConnectionAborted]; so a caller never
    waits on a channel that will neither report nor close; and a connection handed out
    without a dial was opened by an attempt.  After an attempt that ended without an
    outcome no caller dials again ([lost_dial_sticks]). *)
Theorem live_shares_dial {C : Type} (l : Live C) :
  rtc step Live_new l ->
  (forall a b, a ∈ l_running l -> b ∈ l_running l -> a = b) /\
  (forall caller attempt, l_waiting l !! caller = Some attempt ->
     attempt ∈ l_running l /\ (forall outcome, step l (dial_settles l attempt outcome)) \/
     (exists outcome, step l (dial_reports l attempt outcome) /\
        option_map fst (get_end (dial_reports l attempt outcome) caller) = Some outcome) \/
     (exists outcome, l_reports l !! attempt = Some (Reported outcome) /\
        option_map fst (get_end l caller) = Some outcome) \/
     l_reports l !! attempt = Some Dropped /\ option_map fst (get_end l caller) = Some (inr ConnectionAborted)) /\
  (forall connection, peek l = Some connection ->
     exists attempt, l_settled l !! attempt = Some (inl connection) \/ l_reports l !! attempt = Some (Reported (inl connection))).
Proof.
  intros Hreach. assert (live_ok l) as Hok by (eapply steps_ok; [done|apply Live_new_ok]). split_and!.
  - intros a b. by apply one_running.
  - intros caller attempt Hw. destruct (lo_waiting l Hok _ _ Hw) as [H|[[outcome H]|[[outcome H]|H]]].
    + left. split; [done|]. intros outcome. by constructor.
    + right; left. exists outcome. split; [by constructor|]. by rewrite (get_end_after_report l caller attempt).
    + right; right; left. exists outcome. split; [done|]. by rewrite (get_end_reported l caller attempt outcome).
    + right; right; right. split; [done|]. unfold get_end. rewrite Hw. cbn. by rewrite H.
  - unfold peek. intros connection Hp. apply (lo_up l Hok). destruct (l_state l); congruence.
Qed.

Lemma live_shares_dial_witness :
  let l := dial_settles (get_begin (get_begin Live_new (fun _ => true) 0).2 (fun _ => true) 1).2 0 (inl 7) in
  l_waiting l !! 1 = Some 0 /\ peek l = Some 7 /\
  exists attempt, l_settled l !! attempt = Some (inl 7) \/ l_reports l !! attempt = Some (Reported (inl 7)).
Proof.
  split; [reflexivity|]. split; [reflexivity|].
  eapply (live_shares_dial (dial_settles (get_begin (get_begin Live_new (fun _ => true) 0).2 (fun _ => true) 1).2 0 (inl 7)));
    [|reflexivity].
  eapply rtc_l; [by apply (step_get Live_new (fun _ => true) 0)|].
  eapply rtc_l; [by apply (step_get (get_begin Live_new (fun _ => true) 0).2 (fun _ => true) 1)|].
  apply rtc_once. constructor. vm_compute. reflexivity.
Defined.

(** An attempt whose task ends without an outcome is never replaced: from the moment a
    pending dial is lost, in every later state, whatever the callers and the other tasks
    do, nothing is handed out by [peek], and every call of [get] waits on the lost
    attempt and is answered [ConnectionAborted]; no later caller dials again. *)
Theorem lost_dial_sticks {C : Type} (l l' : Live C) (attempt caller : nat) (alive : C -> bool) :
  rtc step Live_new l -> attempt ∈ l_running l -> rtc step (dial_lost l attempt) l' ->
  peek l' = None /\ l_running (get_begin l' alive caller).2 = ∅ /\
  option_map fst (get_end (get_begin l' alive caller).2 caller) = Some (inr ConnectionAborted).
Proof.
  intros Hreach Hin Hlater. assert (stuck_on l' attempt) as Hst.
  { eapply steps_stuck; [done|]. apply dial_lost_stuck; [|done]. eapply steps_ok; [done|apply Live_new_ok]. }
  split_and!.
  - unfold peek. by destruct Hst as (-> & _).
  - rewrite (get_begin_stuck l' attempt) by done. by destruct Hst as (_ & _ & Hn & _).
  - by destruct (stuck_answer l' attempt caller alive Hst) as [? ->].
Qed.

Lemma lost_dial_sticks_witness :
  let l := (get_begin (Live_new (C := nat)) (fun _ => true) 0).2 in
  option_map fst (get_end (get_begin (dial_lost l 0) (fun _ => true) 1).2 1) = Some (inr ConnectionAborted).
Proof.
  refine (proj2 (proj2 (lost_dial_sticks (get_begin (Live_new (C := nat)) (fun _ => true) 0).2 _ 0 1 (fun _ => true) _ _ _))).
  - apply rtc_once. by apply (step_get Live_new (fun _ => true) 0).
  - vm_compute. reflexivity.
  - apply rtc_refl.
Defined.
