(* ===== verification/Csp.v ===== *)
(** Content-Security-Policy of [src/intercept/rewrite.rs]: whether an inline stylesheet is
    permitted, the policy widened by its hash, and the headers of a response.

    The specification reads a policy as CSP Level 3 does: a list of directives of which
    the first of a name counts, and the directive that governs a style element. *)

From S2P Require Import Prelude IpText Text.
Open Scope Z_scope.

(** [Option::or_else]. *)
Definition or_else {A : Type} (a b : option A) : option A := match a with Some _ => a | None => b end.

(** * One policy *)

Inductive InlineStyle := Granted | Widened (policy : bytes) | Refused.

Definition STYLE_DIRECTIVES : list bytes := [text_of "style-src-elem"; text_of "style-src"].
Definition FALLBACK_DIRECTIVE : bytes := text_of "default-src".

Definition SEMICOLON : Z := 59.

Definition directives_of (policy : bytes) : list bytes :=
  filter (fun directive => directive <> []) (trim <$> split_char SEMICOLON policy).

Definition named (name directive : bytes) : bool :=
  match split_whitespace directive with
  | token :: _ => eq_ignore_ascii_case token name
  | [] => false
  end.

Fixpoint position (directives : list bytes) (name : bytes) : option nat :=
  match directives with
  | [] => None
  | directive :: directives => if named name directive then Some 0%nat else S <$> position directives name
  end.

(** [trim_start_matches] of the quote. *)
Fixpoint trim_quotes (source : bytes) : bytes :=
  match source with
  | b :: rest => if b =? 39 then trim_quotes rest else source
  | [] => []
  end.

(** [str::is_char_boundary]; slicing a string elsewhere panics. *)
Definition is_char_boundary (bs : bytes) (n : nat) : bool :=
  match bs !! n with
  | Some b => negb ((128 <=? b) && (b <? 192))
  | None => (n =? length bs)%nat
  end.

Definition BOUND_PREFIXES : list bytes := [text_of "nonce-"; text_of "sha256-"; text_of "sha384-"; text_of "sha512-"].

Fixpoint any_prefix (prefixes : list bytes) (source : bytes) : Res Empty_set bool :=
  match prefixes with
  | [] => Ok false
  | prefix :: prefixes =>
      if (length prefix <? length source)%nat then
        if negb (is_char_boundary source (length prefix)) then Panic
        else if eq_ignore_ascii_case (take (length prefix) source) prefix then Ok true
        else any_prefix prefixes source
      else any_prefix prefixes source
  end.

Definition is_nonce_or_hash (source : bytes) : Res Empty_set bool := any_prefix BOUND_PREFIXES (trim_quotes source).

Fixpoint any_bound (sources : list bytes) : Res Empty_set bool :=
  match sources with
  | [] => Ok false
  | source :: sources => bound ← is_nonce_or_hash source; if (bound : bool) then Ok true else any_bound sources
  end.

Definition includes (keyword : bytes) (sources : list bytes) : bool :=
  existsb (fun value => eq_ignore_ascii_case value keyword) sources.

Definition permit_inline_style (policy source : bytes) : Res Empty_set InlineStyle :=
  let directives := directives_of policy in
  let governing := (fun index => (index, false)) <$> head (omap (position directives) STYLE_DIRECTIVES) in
  let fallback := (fun index => (index, true)) <$> position directives FALLBACK_DIRECTIVE in
  match or_else governing fallback with
  | None => Ok Granted
  | Some (index, inherited) =>
      directive ← or_panic (directives !! index);
      let sources := drop 1 (split_whitespace directive) in
      if includes (text_of "'none'") sources then Ok Refused else
      if bool_decide (source ∈ sources) then Ok Granted else
      bound ← any_bound sources;
      if negb bound && includes (text_of "'unsafe-inline'") sources then Ok Granted else
      let widened :=
        if (inherited : bool)
        then directives ++ [text_of "style-src" ++ concat ((fun value => 32 :: value) <$> sources) ++ 32 :: source]
        else <[index := directive ++ 32 :: source]> directives in
      Ok (Widened (join_text (text_of "; ") widened))
  end.

(** * What a policy permits *)

(** The sources of the first directive of a name, which is written in lower case. *)
Fixpoint sources_in (directives : list bytes) (name : bytes) : option (list bytes) :=
  match directives with
  | [] => None
  | directive :: directives =>
      match split_whitespace directive with
      | token :: sources => if bool_decide ((to_ascii_lowercase <$> token) = name) then Some sources else sources_in directives name
      | [] => sources_in directives name
      end
  end.

Definition sources_of (policy name : bytes) : option (list bytes) := sources_in (directives_of policy) name.

(** The directive that governs style elements. *)
Definition style_sources (policy : bytes) : option (list bytes) :=
  or_else (or_else (sources_of policy (text_of "style-src-elem")) (sources_of policy (text_of "style-src")))
    (sources_of policy FALLBACK_DIRECTIVE).

(** A nonce or a hash, in quotes. *)
Definition binding (source : bytes) : bool :=
  let source := to_ascii_lowercase <$> trim_quotes source in
  existsb (fun prefix => starts_with prefix source && (length prefix <? length source)%nat) BOUND_PREFIXES.

Definition sources_allow (sources : list bytes) (hash : bytes) : bool :=
  negb (includes (text_of "'none'") sources) &&
  (bool_decide (hash ∈ sources) || includes (text_of "'unsafe-inline'") sources && negb (existsb binding sources)).

Definition allows (policy hash : bytes) : bool :=
  match style_sources policy with None => true | Some sources => sources_allow sources hash end.

(** The directive a widened policy extends or gains. *)
Definition widened_name (policy : bytes) : bytes :=
  match sources_of policy (text_of "style-src-elem") with Some _ => text_of "style-src-elem" | None => text_of "style-src" end.

Example widened_sample :
  permit_inline_style (text_of "default-src 'self'; Style-Src cdn.example 'nonce-x'") (text_of "'sha256-h'") =
  Ok (Widened (text_of "default-src 'self'; Style-Src cdn.example 'nonce-x' 'sha256-h'")).
Proof. vm_compute. reflexivity. Qed.

(** A header value that joins two policies with a comma is read as one: the hash meant for
    the style sources of the first ends up in the script sources of the second. *)
Example comma_joined_policies :
  permit_inline_style (text_of "style-src 'self', script-src 'self'") (text_of "'sha256-h'") =
  Ok (Widened (text_of "style-src 'self', script-src 'self' 'sha256-h'")).
Proof. vm_compute. reflexivity. Qed.

(** A policy with one hash more: it did not permit the stylesheet and now does, the source
    list that governs styles is the old one with the hash appended, every other directive
    and every other stylesheet is as before. *)
Definition widens (source policy policy' : bytes) : Prop :=
  allows policy source = false /\ allows policy' source = true /\
  (forall other, other <> source -> allows policy' other = allows policy other) /\
  (exists sources, style_sources policy = Some sources /\ style_sources policy' = Some (sources ++ [source])) /\
  (forall name, name <> widened_name policy -> sources_of policy' name = sources_of policy name).

(** ** Directives *)

(** A directive as a policy's text yields it. *)
Record clean (directive : bytes) : Prop := {
  cl_ascii : ascii directive;
  cl_trimmed : trimmed directive;
  cl_nonempty : directive <> [];
  cl_whole : SEMICOLON ∉ directive;
}.

Lemma ascii_sub a b : ascii b -> (forall x, x ∈ a -> x ∈ b) -> ascii a.
Proof. rewrite !Forall_forall. naive_solver. Qed.

Lemma trim_sub bs : ascii bs -> forall x, x ∈ trim bs -> x ∈ bs.
Proof.
  intros Ha x Hx. destruct (trim_end_prefix (trim_start bs)) as [k Hk]. destruct (trim_start_suffix bs Ha) as [[k' Hk'] _].
  rewrite Hk', Hk. unfold trim in Hx. set_solver.
Qed.

Lemma directives_clean policy : ascii policy -> Forall clean (directives_of policy).
Proof.
  intros Ha. apply Forall_forall. intros d [Hne Hd]%list_elem_of_filter. apply list_elem_of_fmap in Hd as (piece & -> & Hp).
  pose proof (split_char_pieces SEMICOLON policy) as Hs. rewrite Forall_forall in Hs. destruct (Hs _ Hp) as [Hsemi Hsub].
  assert (ascii piece) as Hap by by eapply ascii_sub. pose proof (trim_sub piece Hap) as Ht.
  split; [by eapply ascii_sub|by apply trim_trimmed|done|by intros ?%Ht].
Qed.

Lemma directives_join directives : Forall clean directives -> directives_of (join_text (text_of "; ") directives) = directives.
Proof.
  intros Hc. unfold directives_of. destruct directives as [|d ds]; [done|].
  change (text_of "; ") with (SEMICOLON :: [32]). rewrite split_char_join; [|set_solver| |done].
  2:{ eapply Forall_impl; [done|]. by intros ? []. }
  apply Forall_cons in Hc as [[Ha Ht Hn _] Hc]. rewrite fmap_cons, trim_of_trimmed by done.
  rewrite filter_cons_True by done. f_equal. clear -Hc. induction Hc as [|d ds [Ha Ht Hn _] Hc IH]; [done|].
  rewrite !fmap_cons. cbn [app]. rewrite trim_space by done. rewrite filter_cons_True by done. f_equal. exact IH.
Qed.

Lemma clean_words d : clean d -> exists token sources, split_whitespace d = token :: sources.
Proof.
  intros [Ha Ht Hne _]. rewrite split_whitespace_words by done.
  destruct (words_from [] d) as [|token sources] eqn:E; [|by eauto]. exfalso. revert E. apply words_nonempty. left.
  destruct d as [|b rest]; [done|]. apply Exists_cons. left. by eapply trimmed_head.
Qed.

(** A source expression: one word that a policy can hold. *)
Record word_ok (word : bytes) : Prop := {
  wo_ascii : ascii word;
  wo_solid : Forall (fun b => is_ws b = false) word;
  wo_nonempty : word <> [];
  wo_whole : SEMICOLON ∉ word;
}.

(** A directive with one more source. *)
Lemma clean_extend d source :
  clean d -> word_ok source ->
  clean (d ++ 32 :: source) /\ split_whitespace (d ++ 32 :: source) = split_whitespace d ++ [source].
Proof.
  intros [Ha Ht Hne Hw] [Has Hws Hsne Hsemi]. assert (ascii (d ++ 32 :: source)) as Hall.
  { apply Forall_app. split; [done|]. constructor; [lia|done]. }
  split; [|by rewrite split_whitespace_space, (split_whitespace_word source) by done].
  assert (trim_end (32 :: source) = 32 :: source) as Hend.
  { change (32 :: source) with ([32] ++ source). apply trim_end_app; [by constructor; [lia|]|done|by apply trim_end_no_ws]. }
  split; [done|by apply trimmed_app|by destruct d|]. apply not_elem_of_app. split; [done|].
  apply not_elem_of_cons. by split.
Qed.

Lemma eq_ignore_lower a b : (to_ascii_lowercase <$> b) = b -> eq_ignore_ascii_case a b = bool_decide ((to_ascii_lowercase <$> a) = b).
Proof. intros Hb. unfold eq_ignore_ascii_case. by rewrite Hb. Qed.

(** The position of a name, and its sources. *)
Lemma sources_position directives name : (to_ascii_lowercase <$> name) = name ->
  match position directives name with
  | Some i => exists d token, directives !! i = Some d /\ split_whitespace d = token :: drop 1 (split_whitespace d) /\
              sources_in directives name = Some (drop 1 (split_whitespace d))
  | None => sources_in directives name = None
  end.
Proof.
  intros Hn. induction directives as [|d ds IH]; [done|]. cbn [position sources_in]. unfold named.
  destruct (split_whitespace d) as [|token sources] eqn:E.
  - destruct (position ds name); [|done]. destruct IH as (d' & t & H1 & H2 & H3). by exists d', t.
  - rewrite eq_ignore_lower by done. destruct (bool_decide _) eqn:B; [exists d, token; by rewrite E|].
    destruct (position ds name); [|done]. destruct IH as (d' & t & H1 & H2 & H3). by exists d', t.
Qed.

(** Sources after the directive at [i] gains one: only its own name sees it. *)
Lemma sources_in_extend directives : forall i d token sources more d' name found,
  directives !! i = Some d -> split_whitespace d = token :: sources -> split_whitespace d' = token :: sources ++ more ->
  position directives found = Some i -> (to_ascii_lowercase <$> found) = found ->
  sources_in (<[i := d']> directives) name =
  if bool_decide (name = found) then Some (sources ++ more) else sources_in directives name.
Proof.
  induction directives as [|d0 ds IH]; intros i d token sources more d' name found Hi Hd Hd' Hp Hf; [done|].
  cbn [position] in Hp. unfold named in Hp. destruct i as [|i].
  - injection Hi as ->. rewrite Hd, eq_ignore_lower in Hp by done. cbn [insert list_insert sources_in]. rewrite Hd, Hd'.
    case_bool_decide as Ht; [|by destruct (position ds found)]. subst found.
    by destruct (decide (name = to_ascii_lowercase <$> token)) as [->|Hne];
      [rewrite !bool_decide_true|rewrite !bool_decide_false by congruence].
  - cbn [insert list_insert sources_in]. destruct (split_whitespace d0) as [|t0 s0] eqn:E0.
    + destruct (position ds found) eqn:Ep; [|done]. injection Hp as ->. by eapply IH.
    + rewrite eq_ignore_lower in Hp by done. case_bool_decide as Ht; [done|].
      destruct (position ds found) eqn:Ep; [|done]. injection Hp as ->.
      destruct (decide ((to_ascii_lowercase <$> t0) = name)) as [Hn|Hn].
      * rewrite !(bool_decide_true (_ = name)) by done. by rewrite bool_decide_false by congruence.
      * rewrite !(bool_decide_false (_ <$> t0 = name)) by done. by eapply IH.
Qed.

Lemma sources_in_app ds ds' name :
  sources_in (ds ++ ds') name = match sources_in ds name with Some s => Some s | None => sources_in ds' name end.
Proof. induction ds as [|d ds IH]; [done|]. cbn. by repeat case_match. Qed.

(** ** Nonces and hashes *)

Lemma starts_with_take prefix bs : (length prefix < length bs)%nat -> starts_with prefix bs = bool_decide (take (length prefix) bs = prefix).
Proof.
  revert bs. induction prefix as [|p prefix IH]; intros [|b bs] Hl; cbn in *; [lia|done|lia|].
  rewrite IH by lia. destruct (decide (p = b)) as [->|Hne].
  - rewrite Z.eqb_refl. rewrite andb_true_l. apply bool_decide_ext. split; [by intros ->|by intros [= ->]].
  - rewrite (proj2 (Z.eqb_neq p b)) by done. rewrite andb_false_l. symmetry. apply bool_decide_false. by intros [= -> _].
Qed.

Lemma any_prefix_ascii prefixes source : ascii source -> Forall (fun prefix => (to_ascii_lowercase <$> prefix) = prefix) prefixes ->
  any_prefix prefixes source = Ok (existsb (fun prefix => starts_with prefix (to_ascii_lowercase <$> source) &&
    (length prefix <? length (to_ascii_lowercase <$> source))%nat) prefixes).
Proof.
  intros Ha Hp. rewrite length_fmap. induction Hp as [|prefix prefixes Hl Hp IH]; [done|]. cbn [any_prefix existsb].
  destruct (length prefix <? length source)%nat eqn:E; [|by rewrite andb_false_r]. reflect.
  rewrite andb_true_r, starts_with_take by by rewrite length_fmap.
  assert (is_char_boundary source (length prefix) = true) as ->.
  { unfold is_char_boundary. destruct (source !! length prefix) as [b|] eqn:Eb; [|by apply lookup_ge_None in Eb; lia].
    rewrite Forall_forall in Ha. destruct (Ha b) as [_ Hb]; [by eapply list_elem_of_lookup_2|].
    by rewrite (proj2 (Z.leb_gt 128 b)). }
  cbn [negb]. rewrite eq_ignore_lower, <- fmap_take by done. by destruct (bool_decide _).
Qed.

Lemma trim_quotes_sub source : forall b, b ∈ trim_quotes source -> b ∈ source.
Proof. induction source as [|b source IH]; cbn [trim_quotes]; [done|]. destruct (b =? 39); set_solver. Qed.

Lemma is_nonce_or_hash_ascii source : ascii source -> is_nonce_or_hash source = Ok (binding source).
Proof.
  intros Ha. unfold is_nonce_or_hash, binding. apply any_prefix_ascii; [|by vm_compute; repeat constructor].
  eapply ascii_sub; [done|apply trim_quotes_sub].
Qed.

Lemma any_bound_ascii sources : Forall ascii sources -> any_bound sources = Ok (existsb binding sources).
Proof.
  induction 1 as [|source sources Ha Hs IH]; [done|]. cbn [any_bound existsb]. rewrite is_nonce_or_hash_ascii by done.
  cbn [mbind Res_bind]. by destruct (binding source).
Qed.

Lemma words_sub bs : forall current, Forall (fun word => forall b, b ∈ word -> b ∈ current ++ bs) (words_from current bs).
Proof.
  induction bs as [|b bs IH]; intros current; cbn [words_from].
  - destruct current; [constructor|]. constructor; [by intros; rewrite app_nil_r|constructor].
  - destruct (is_ws b).
    + apply Forall_app. split; [destruct current; [by apply Forall_nil|apply Forall_singleton; set_solver]|].
      eapply Forall_impl; [apply IH|]. set_solver.
    + eapply Forall_impl; [apply IH|]. set_solver.
Qed.

Lemma words_ascii d : ascii d -> Forall ascii (split_whitespace d).
Proof.
  intros Ha. rewrite split_whitespace_words by done. eapply Forall_impl; [apply (words_sub d [])|].
  intros word Hw. by eapply ascii_sub.
Qed.

(** ** The governing directive *)

Lemma style_names_lower : Forall (fun name => (to_ascii_lowercase <$> name) = name) (FALLBACK_DIRECTIVE :: STYLE_DIRECTIVES).
Proof. vm_compute. repeat constructor. Qed.

(** Where [permit_inline_style] finds the directive, and that it is the governing one. *)
Lemma governing_spec policy :
  let directives := directives_of policy in
  match or_else ((fun i => (i, false)) <$> head (omap (position directives) STYLE_DIRECTIVES))
          ((fun i => (i, true)) <$> position directives FALLBACK_DIRECTIVE) with
  | None => style_sources policy = None
  | Some (i, inherited) =>
      exists d token, directives !! i = Some d /\ split_whitespace d = token :: drop 1 (split_whitespace d) /\
        style_sources policy = Some (drop 1 (split_whitespace d)) /\
        if (inherited : bool)
        then sources_of policy (text_of "style-src-elem") = None /\ sources_of policy (text_of "style-src") = None
        else position directives (widened_name policy) = Some i
  end.
Proof.
  intros directives. pose proof style_names_lower as Hl. unfold STYLE_DIRECTIVES in Hl. rewrite !Forall_cons in Hl. destruct Hl as (Hl0 & Hl1 & Hl2 & _).
  pose proof (sources_position directives _ Hl0) as H0. pose proof (sources_position directives _ Hl1) as H1.
  pose proof (sources_position directives _ Hl2) as H2.
  unfold style_sources, widened_name, sources_of, STYLE_DIRECTIVES. fold directives. clearbody directives.
  set (n0 := FALLBACK_DIRECTIVE) in *. set (n1 := text_of "style-src-elem") in *. set (n2 := text_of "style-src") in *.
  clearbody n0 n1 n2. cbn [omap list_omap].
  destruct (position directives n1) as [i|] eqn:E1; cbn.
  { destruct H1 as (d & t & ? & ? & ->). by exists d, t. }
  rewrite H1. destruct (position directives n2) as [i|] eqn:E2; cbn.
  { destruct H2 as (d & t & ? & ? & ->). by exists d, t. }
  rewrite H2. destruct (position directives n0) as [i|] eqn:E0; cbn.
  { destruct H0 as (d & t & ? & ? & ->). by exists d, t. }
  by rewrite H0.
Qed.

Lemma words_solid bs : forall current, Forall (fun b => is_ws b = false) current ->
  Forall (fun word => Forall (fun b => is_ws b = false) word /\ word <> []) (words_from current bs).
Proof.
  induction bs as [|b bs IH]; intros current Hc; cbn [words_from].
  - destruct current; [by apply Forall_nil|by apply Forall_singleton].
  - destruct (is_ws b) eqn:E; [|apply IH, Forall_app; split; [done|by apply Forall_singleton]].
    apply Forall_app. split; [|by apply IH]. destruct current; [by apply Forall_nil|by apply Forall_singleton].
Qed.

Lemma words_ok d : clean d -> Forall word_ok (split_whitespace d).
Proof.
  intros [Ha _ _ Hs]. rewrite split_whitespace_words by done. apply Forall_forall. intros word Hw.
  pose proof (words_sub d []) as H1. pose proof (words_solid d [] ltac:(done)) as H2. rewrite Forall_forall in H1, H2.
  specialize (H1 word Hw). destruct (H2 word Hw) as [H3 H4]. split; [by eapply ascii_sub|done|done|]. intros ?%H1. done.
Qed.

Lemma clean_extend_all sources : forall d, clean d -> Forall word_ok sources ->
  clean (d ++ concat ((fun value => 32 :: value) <$> sources)) /\
  split_whitespace (d ++ concat ((fun value => 32 :: value) <$> sources)) = split_whitespace d ++ sources.
Proof.
  induction sources as [|source sources IH]; intros d Hd Hs; [by rewrite !app_nil_r|].
  apply Forall_cons in Hs as [Hw Hs]. destruct (clean_extend d source Hd Hw) as [Hc He]. destruct (IH _ Hc Hs) as [IH1 IH2].
  rewrite fmap_cons. cbn [concat]. rewrite app_assoc. split; [done|]. by rewrite IH2, He, <- app_assoc.
Qed.

(** ** Widening *)

Lemma trim_quotes_lower source : (to_ascii_lowercase <$> trim_quotes source) = trim_quotes (to_ascii_lowercase <$> source).
Proof.
  induction source as [|b source IH]; [done|]. cbn [fmap list_fmap trim_quotes].
  assert ((to_ascii_lowercase b =? 39) = (b =? 39)) as ->; [|by destruct (b =? 39)].
  unfold to_ascii_lowercase. destruct (_ && _) eqn:E; [|done]. reflect.
  rewrite (proj2 (Z.eqb_neq b 39)) by lia. apply Z.eqb_neq. lia.
Qed.

Lemma binding_ignores_case a b : eq_ignore_ascii_case a b = true -> binding a = binding b.
Proof. intros H%bool_decide_eq_true. unfold binding. by rewrite !trim_quotes_lower, H. Qed.

Lemma binding_not_keyword source keyword : binding source = true -> binding keyword = false -> eq_ignore_ascii_case source keyword = false.
Proof. intros Hs Hk. destruct (eq_ignore_ascii_case source keyword) eqn:E; [|done]. apply binding_ignores_case in E. congruence. Qed.

Lemma sources_allow_snoc sources source hash :
  binding source = true -> includes (text_of "'none'") sources = false ->
  negb (existsb binding sources) && includes (text_of "'unsafe-inline'") sources = false ->
  sources_allow (sources ++ [source]) hash = bool_decide (hash = source) || sources_allow sources hash.
Proof.
  intros Hb Hn Hu. unfold sources_allow, includes in *. rewrite !existsb_app, Hn. cbn [existsb].
  rewrite !(binding_not_keyword source) by done. rewrite Hb, !orb_false_r, !orb_true_r, andb_false_r, orb_false_r.
  rewrite andb_comm in Hu. rewrite Hu, orb_false_r. cbn. rewrite <- bool_decide_or. apply bool_decide_ext. set_solver.
Qed.

(** Text that is widened reads back as the directives it was widened to. *)
Lemma widened_sources policy index directive token sources source name :
  ascii policy -> word_ok source -> directives_of policy !! index = Some directive ->
  split_whitespace directive = token :: sources -> position (directives_of policy) (widened_name policy) = Some index ->
  sources_of (join_text (text_of "; ") (<[index := directive ++ 32 :: source]> (directives_of policy))) name =
  if bool_decide (name = widened_name policy) then Some (sources ++ [source]) else sources_of policy name.
Proof.
  intros Ha Hs Hi Hd Hp. pose proof (directives_clean policy Ha) as Hc.
  destruct (clean_extend directive source) as [Hc' He]; [by eapply Forall_lookup_1|done|].
  unfold sources_of. rewrite directives_join by by apply Forall_insert.
  eapply sources_in_extend; [done|done|by rewrite He, Hd|done|].
  unfold widened_name. by case_match; vm_compute.
Qed.

Lemma inherited_sources policy directive sources source name :
  ascii policy -> word_ok source -> directive ∈ directives_of policy -> sources = drop 1 (split_whitespace directive) ->
  sources_of policy (text_of "style-src") = None ->
  sources_of (join_text (text_of "; ") (directives_of policy ++
     [text_of "style-src" ++ concat ((fun value => 32 :: value) <$> sources) ++ 32 :: source])) name =
  if bool_decide (name = text_of "style-src") then Some (sources ++ [source]) else sources_of policy name.
Proof.
  intros Ha Hs Hd -> Hnone. pose proof (directives_clean policy Ha) as Hc. rewrite app_assoc.
  destruct (clean_extend_all (drop 1 (split_whitespace directive)) (text_of "style-src")) as [Hc' He'].
  { split; [by apply (bool_decide_unpack _); vm_compute|by split; vm_compute|done|by apply (bool_decide_unpack _); vm_compute]. }
  { apply Forall_drop, words_ok. rewrite Forall_forall in Hc. by apply Hc. }
  destruct (clean_extend _ source Hc' Hs) as [Hc'' He''].
  unfold sources_of in *. rewrite directives_join by (apply Forall_app; split; [done|by apply Forall_singleton]).
  rewrite sources_in_app. cbn [sources_in]. rewrite He'', He'. change (split_whitespace (text_of "style-src")) with [text_of "style-src"].
  cbn [app]. change (to_ascii_lowercase <$> text_of "style-src") with (text_of "style-src").
  destruct (decide (name = text_of "style-src")) as [->|Hn]; [by rewrite Hnone, !bool_decide_true|].
  rewrite !bool_decide_false by congruence. by destruct (sources_in (directives_of policy) name).
Qed.

(** What a policy permits once its governing directive has gained the hash. *)
Lemma widened_allows policy policy' sources source :
  binding source = true -> style_sources policy = Some sources -> includes (text_of "'none'") sources = false ->
  bool_decide (source ∈ sources) = false -> negb (existsb binding sources) && includes (text_of "'unsafe-inline'") sources = false ->
  (forall name, sources_of policy' name = if bool_decide (name = widened_name policy) then Some (sources ++ [source]) else sources_of policy name) ->
  allows policy source = false /\ allows policy' source = true /\
  (forall other, other <> source -> allows policy' other = allows policy other) /\
  style_sources policy' = Some (sources ++ [source]).
Proof.
  intros Hb Hst En Ein Eu Hsrc. assert (style_sources policy' = Some (sources ++ [source])) as Hst'.
  { unfold style_sources. rewrite !Hsrc. unfold widened_name.
    destruct (sources_of policy (text_of "style-src-elem")) eqn:Ee; [by rewrite bool_decide_true|].
    rewrite bool_decide_false by done. by rewrite bool_decide_true. }
  unfold allows. rewrite Hst, Hst'. split_and!; [| |intros other Hne|done].
  - unfold sources_allow. rewrite En, Ein, (andb_comm (includes _ _)), Eu. done.
  - rewrite sources_allow_snoc by done. by rewrite bool_decide_true.
  - rewrite sources_allow_snoc by done. by rewrite bool_decide_false.
Qed.

Lemma permit_spec policy source :
  ascii policy -> word_ok source -> binding source = true ->
  exists verdict, permit_inline_style policy source = Ok verdict /\
  match verdict with
  | Granted => allows policy source = true
  | Refused => allows policy source = false
  | Widened policy' => widens source policy policy'
  end.
Proof.
  intros Ha Hs Hb. pose proof (governing_spec policy) as Hg. unfold permit_inline_style. cbn zeta in *.
  destruct (or_else _ _) as [[index inherited]|]; [|exists Granted; split; [done|]; unfold allows; by rewrite Hg].
  destruct Hg as (directive & token & Hi & Hd & Hst & Hkind). rewrite Hi. cbn [or_panic mbind Res_bind].
  set (sources := drop 1 (split_whitespace directive)) in *.
  assert (clean directive) as Hcl by (by eapply Forall_lookup_1; [apply directives_clean|]).
  destruct (includes (text_of "'none'") sources) eqn:En.
  { exists Refused. split; [done|]. unfold allows. rewrite Hst. unfold sources_allow. by rewrite En. }
  destruct (bool_decide (source ∈ sources)) eqn:Ein.
  { exists Granted. split; [done|]. unfold allows. rewrite Hst. unfold sources_allow. by rewrite En, Ein. }
  rewrite any_bound_ascii by (apply Forall_drop, words_ascii, Hcl). cbn [mbind Res_bind].
  destruct (negb _ && _) eqn:Eu.
  { exists Granted. split; [done|]. unfold allows. rewrite Hst. unfold sources_allow. rewrite En, Ein, (andb_comm (includes _ _)), Eu. done. }
  eexists. split; [done|]. cbv iota. unfold widens. match goal with |- context [allows ?p source = true] => set (policy' := p) end.
  assert (forall name, sources_of policy' name = if bool_decide (name = widened_name policy) then Some (sources ++ [source]) else sources_of policy name) as Hsrc.
  { intros name. subst policy'. destruct inherited.
    - destruct Hkind as [Hk1 Hk2]. unfold widened_name. rewrite Hk1.
      apply (inherited_sources policy directive); [done|done|by eapply list_elem_of_lookup_2|done|done].
    - by eapply widened_sources. }
  destruct (widened_allows policy policy' sources source Hb Hst En Ein Eu Hsrc) as (H1 & H2 & H3 & H4).
  split_and!; [done|done|done|by exists sources|]. intros name Hne. by rewrite Hsrc, bool_decide_false.
Qed.

(** The verdict on an inline stylesheet is exact for every ASCII policy and every hash
    source, and never panics.  [Granted] is given only when the policy permits the
    stylesheet, [Refused] only when it does not.  A widened policy is one that did not
    permit it; read back, the source list that governs styles is the old one with the
    hash appended, every other directive has the sources it had, the stylesheet is now
    permitted, and every other inline stylesheet is permitted exactly when it was. *)
Theorem permit_exact policy source :
  ascii policy -> word_ok source -> binding source = true ->
  exists verdict, permit_inline_style policy source = Ok verdict /\
  match verdict with
  | Granted => allows policy source = true
  | Refused => allows policy source = false
  | Widened policy' => widens source policy policy'
  end.
Proof. apply permit_spec. Qed.

Lemma permit_exact_witness :
  exists verdict, permit_inline_style (text_of "default-src 'self'; img-src *") (text_of "'sha256-h'") = Ok verdict /\
  match verdict with
  | Widened policy' => sources_of policy' (text_of "img-src") = Some [text_of "*"] /\ allows policy' (text_of "'sha256-h'") = true
  | _ => False
  end.
Proof.
  destruct (permit_exact (text_of "default-src 'self'; img-src *") (text_of "'sha256-h'")) as (verdict & Hv & H).
  - by apply (bool_decide_unpack _); vm_compute.
  - split; [by apply (bool_decide_unpack _); vm_compute|by apply (bool_decide_unpack _); vm_compute|done|by apply (bool_decide_unpack _); vm_compute].
  - reflexivity.
  - exists verdict. split; [exact Hv|]. destruct verdict as [|policy'|]; [discriminate H| |vm_compute in Hv; discriminate Hv].
    destruct H as (_ & H2 & _ & _ & H5). split; [|exact H2]. rewrite H5; [reflexivity|vm_compute; discriminate].
Defined.

(** * The headers of a response *)

Definition CSP : bytes := text_of "content-security-policy".

(** The header map of the [http] crate: several values under one lower-case name, in
    order; [to_str] reads a value as text and [from_str] makes one of text. *)
Class HttpHeaders (H : Type) := {
  get_all : H -> bytes -> list bytes;
  remove : H -> bytes -> H;
  append : H -> bytes -> bytes -> H;
  to_str : bytes -> option bytes;
  from_str : bytes -> option bytes;
}.

(** Visible ASCII, and the tab. *)
Definition visible (b : Z) : Prop := b = 9 \/ 32 <= b < 127.
#[global] Instance visible_dec b : Decision (visible b).
Proof. unfold visible. apply _. Defined.

Class HttpHeadersLaws (H : Type) `{HttpHeaders H} : Prop := {
  get_all_remove h name name' : get_all (remove h name) name' = if bool_decide (name = name') then [] else get_all h name';
  get_all_append h name value name' :
    get_all (append h name value) name' = if bool_decide (name = name') then get_all h name' ++ [value] else get_all h name';
  to_str_spec value : to_str value = if bool_decide (Forall visible value) then Some value else None;
  from_str_visible text : Forall visible text -> from_str text = Some text;
}.

Section Headers.
Context {H : Type} `{HttpHeaders H}.

(** The loop over the policies: the rebuilt texts, and whether none refused. *)
Fixpoint relax_all (policies : list bytes) (source : bytes) : Res Empty_set (list bytes * bool) :=
  match policies with
  | [] => Ok ([], true)
  | policy :: policies =>
      verdict ← permit_inline_style policy source;
      '(widened, inject) ← relax_all policies source;
      Ok match verdict with
         | Granted => (policy :: widened, inject)
         | Widened value => (value :: widened, inject)
         | Refused => (policy :: widened, false)
         end
  end.

Definition relax_policy (headers : H) (source : bytes) : Res Empty_set (bool * H) :=
  let policies := omap to_str (get_all headers CSP) in
  if (length policies =? 0)%nat then Ok (true, headers) else
  '(widened, inject) ← relax_all policies source;
  match mapM from_str widened with
  | None => Ok (false, headers)
  | Some rebuilt => Ok (inject, foldl (fun headers value => append headers CSP value) (remove headers CSP) rebuilt)
  end.
End Headers.

(** ** Bytes of a rebuilt policy *)

Lemma join_text_sub sep parts b : b ∈ join_text sep parts -> b ∈ sep \/ exists part, part ∈ parts /\ b ∈ part.
Proof.
  induction parts as [|part parts IH]; [set_solver|]. destruct parts as [|part' parts]; [intros ?; right; exists part; set_solver|].
  change (join_text sep (part :: part' :: parts)) with (part ++ sep ++ join_text sep (part' :: parts)).
  rewrite !elem_of_app. intros [Hb|[Hb|Hb]]; [right; exists part; set_solver|by left|]. destruct (IH Hb) as [?|(q & ? & ?)]; [by left|].
  right. exists q. set_solver.
Qed.

Lemma directives_sub policy directive : ascii policy -> directive ∈ directives_of policy -> forall b, b ∈ directive -> b ∈ policy.
Proof.
  intros Ha [_ Hd]%list_elem_of_filter b Hb. apply list_elem_of_fmap in Hd as (piece & -> & Hp).
  pose proof (split_char_pieces SEMICOLON policy) as Hs. rewrite Forall_forall in Hs. destruct (Hs _ Hp) as [_ Hsub].
  apply Hsub. apply trim_sub; [|done]. by eapply ascii_sub.
Qed.

Lemma visible_ascii bs : Forall visible bs -> ascii bs.
Proof. intros Hv. eapply Forall_impl; [done|]. unfold visible. intros b. lia. Qed.

Lemma sources_sub directive word : ascii directive -> word ∈ split_whitespace directive -> forall b, b ∈ word -> b ∈ directive.
Proof.
  intros Ha. rewrite split_whitespace_words by done. intros Hw. pose proof (words_sub directive []) as H1.
  rewrite Forall_forall in H1. by apply H1.
Qed.

Lemma permit_visible policy source policy' :
  Forall visible policy -> Forall visible source -> permit_inline_style policy source = Ok (Widened policy') -> Forall visible policy'.
Proof.
  intros Hp Hs. pose proof (visible_ascii _ Hp) as Ha. unfold permit_inline_style.
  destruct (or_else _ _) as [[index inherited]|]; [|done]. cbn zeta.
  destruct (directives_of policy !! index) as [directive|] eqn:Ed; [|done]. cbn [or_panic mbind Res_bind].
  assert (directive ∈ directives_of policy) as Hin by by eapply list_elem_of_lookup_2.
  assert (forall d, d ∈ directives_of policy -> Forall visible d) as Hds.
  { intros d Hd. apply Forall_forall. intros b Hb. rewrite Forall_forall in Hp. by eapply Hp, directives_sub. }
  assert (Forall visible (32 :: source)) as Hsp by (constructor; [right; lia|done]).
  case_match; [done|]. case_match; [done|]. destruct (any_bound _) as [bound| |]; cbn [mbind Res_bind]; [|done|done].
  case_match; [done|]. match goal with |- Ok (Widened ?text) = _ -> _ => set (rebuilt := text) end.
  intros [= <-]. subst rebuilt. apply Forall_forall. intros b [Hb|(part & Hpart & Hb)]%join_text_sub.
  { apply (Forall_forall visible (text_of "; ")); [|done]. by apply (bool_decide_unpack _); vm_compute. }
  revert b Hb. apply Forall_forall. destruct inherited.
  - apply elem_of_app in Hpart as [Hpart| ->%list_elem_of_singleton]; [by apply Hds|].
    apply Forall_app. split; [by apply (bool_decide_unpack _); vm_compute|]. apply Forall_app. split; [|done].
    apply Forall_concat, Forall_fmap, Forall_drop, Forall_forall. intros word Hw. constructor; [right; lia|].
    apply Forall_forall. intros b Hb. pose proof (Hds _ Hin) as Hdir.
    apply (Forall_forall visible directive); [done|]. eapply sources_sub; [by apply visible_ascii|done|done].
  - apply list_elem_of_lookup in Hpart as [k Hk]. destruct (decide (k = index)) as [->|Hne].
    + rewrite list_lookup_insert_eq in Hk by (by eapply lookup_lt_Some). injection Hk as <-. apply Forall_app. split; [by apply Hds|done].
    + rewrite list_lookup_insert_ne in Hk by done. apply Hds. by eapply list_elem_of_lookup_2.
Qed.

(** ** Every policy of a response *)

(** A policy after [relax_policy]: as it was, or with the hash more. *)
Definition relaxed (source policy policy' : bytes) : Prop := policy' = policy \/ widens source policy policy'.

Lemma relax_all_spec policies source :
  Forall (Forall visible) policies -> Forall visible source -> word_ok source -> binding source = true ->
  exists widened inject, relax_all policies source = Ok (widened, inject) /\
    Forall2 (relaxed source) policies widened /\ Forall (Forall visible) widened /\
    inject = forallb (fun policy => allows policy source) widened.
Proof.
  intros Hp Hs Hw Hb. induction Hp as [|policy policies Hv Hp (widened & inject & IH & H1 & H2 & H3)]; [by exists [], true|].
  destruct (permit_spec policy source) as (verdict & Hverdict & Hsem); [by apply visible_ascii|done|done|].
  cbn [relax_all]. rewrite Hverdict. cbn [mbind Res_bind]. rewrite IH. cbn [mbind Res_bind]. destruct verdict as [|policy'|].
  - exists (policy :: widened), inject. split_and!; [done|by constructor; [left|]|by constructor|]. cbn. by rewrite Hsem.
  - exists (policy' :: widened), inject. pose proof (permit_visible _ _ _ Hv Hs Hverdict).
    split_and!; [done|by constructor; [right|]|by constructor|]. cbn. destruct Hsem as (_ & -> & _). done.
  - exists (policy :: widened), false. split_and!; [done|by constructor; [left|]|by constructor|]. cbn. by rewrite Hsem.
Qed.

Section HeaderProofs.
Context {H : Type} `{HttpHeaders H, !HttpHeadersLaws H}.

Lemma mapM_from_str values : Forall (Forall visible) values -> mapM from_str values = Some values.
Proof.
  intros Hv. apply mapM_Some. induction Hv; constructor; [by apply from_str_visible|done].
Qed.

Lemma get_all_appends values : forall (headers : H) name name',
  get_all (foldl (fun headers value => append headers name value) headers values) name' =
  if bool_decide (name = name') then get_all headers name' ++ values else get_all headers name'.
Proof.
  induction values as [|value values IH]; intros headers name name'; cbn [foldl]; [case_bool_decide; [by rewrite app_nil_r|done]|].
  rewrite IH, get_all_append. case_bool_decide; [by rewrite <- app_assoc|done].
Qed.

Lemma filter_visible (values : list bytes) : Forall (Forall visible) values -> filter (Forall visible) values = values.
Proof. induction 1 as [|value values Hv Hvs IH]; [done|]. rewrite filter_cons_True by done. by rewrite IH. Qed.

Lemma omap_to_str (values : list bytes) : omap to_str values = filter (Forall visible) values.
Proof.
  induction values as [|value values IH]; [done|]. cbn [omap list_omap]. rewrite to_str_spec.
  destruct (decide (Forall visible value)) as [Hv|Hv].
  - rewrite bool_decide_true, filter_cons_True by done. f_equal. exact IH.
  - rewrite bool_decide_false, filter_cons_False by done. exact IH.
Qed.

Lemma relax_policy_spec (headers : H) source :
  Forall visible source -> word_ok source -> binding source = true ->
  let readable := filter (Forall visible) (get_all headers CSP) in
  exists inject headers', relax_policy headers source = Ok (inject, headers') /\
    (forall name, name <> CSP -> get_all headers' name = get_all headers name) /\
    (readable = [] -> inject = true /\ headers' = headers) /\
    (readable <> [] -> Forall2 (relaxed source) readable (get_all headers' CSP) /\
       Forall (Forall visible) (get_all headers' CSP) /\
       inject = forallb (fun policy => allows policy source) (get_all headers' CSP)).
Proof.
  intros Hs Hw Hb readable. unfold relax_policy. rewrite omap_to_str. fold readable.
  destruct (length readable =? 0)%nat eqn:E; [exists true, headers; split_and!; try done; by destruct readable|]. reflect.
  assert (Forall (Forall visible) readable) as Hv by (apply Forall_forall; intros v [Hv _]%list_elem_of_filter; done).
  destruct (relax_all_spec readable source Hv Hs Hw Hb) as (widened & inject & -> & H1 & H2 & H3).
  cbn [mbind Res_bind]. rewrite mapM_from_str by done. eexists _, _. split; [done|].
  assert (forall name, get_all (foldl (fun headers value => append headers CSP value) (remove headers CSP) widened) name =
    if bool_decide (CSP = name) then widened else get_all headers name) as Hget.
  { intros name. rewrite get_all_appends, get_all_remove. by case_bool_decide. }
  split_and!; [intros name Hne; rewrite Hget; by rewrite bool_decide_false|intros Hr; by rewrite Hr in E|].
  intros _. by rewrite Hget, bool_decide_true.
Qed.
End HeaderProofs.

(** When every policy header is readable text. *)
Lemma relaxed_headers {H : Type} `{HttpHeaders H, !HttpHeadersLaws H} (headers : H) source :
  Forall visible source -> word_ok source -> binding source = true -> Forall (Forall visible) (get_all headers CSP) ->
  exists inject headers', relax_policy headers source = Ok (inject, headers') /\
    (forall name, name <> CSP -> get_all headers' name = get_all headers name) /\
    Forall2 (relaxed source) (get_all headers CSP) (get_all headers' CSP) /\
    inject = forallb (fun policy => allows policy source) (get_all headers' CSP).
Proof.
  intros Hs Hw Hb Hall. destruct (relax_policy_spec headers source Hs Hw Hb) as (inject & headers' & He & Hother & Hnone & Hsome).
  rewrite filter_visible in Hnone, Hsome by done.
  exists inject, headers'. split_and!; [done|done| |]; destruct (get_all headers CSP) as [|p ps] eqn:E.
  - destruct (Hnone eq_refl) as [_ ->]. by rewrite E.
  - by apply Hsome.
  - destruct (Hnone eq_refl) as [-> ->]. by rewrite E.
  - by apply Hsome.
Qed.

(** A header map as the values of each name. *)
Definition sample_header_map : HttpHeaders (gmap bytes (list bytes)) :=
  {| get_all h name := default [] (h !! name);
     remove h name := delete name h;
     append h name value := <[name := default [] (h !! name) ++ [value]]> h;
     to_str value := if bool_decide (Forall visible value) then Some value else None;
     from_str text := if bool_decide (Forall visible text) then Some text else None |}.

#[global] Instance sample_header_map_laws : @HttpHeadersLaws (gmap bytes (list bytes)) sample_header_map.
Proof.
  split; cbn; intros.
  - case_bool_decide as E; [by rewrite E, lookup_delete_eq|by rewrite lookup_delete_ne].
  - case_bool_decide as E; [by rewrite E, lookup_insert_eq|by rewrite lookup_insert_ne].
  - done.
  - by rewrite bool_decide_true.
Qed.

(** A policy header that is not readable text is deleted, not kept: when a response has
    such a policy beside a readable one, the relaxed headers hold as many policies as
    were readable, and the unreadable one is not among them.  The browser then enforces
    less than the site asked for. *)
Theorem relax_drops_policy {H : Type} `{HttpHeaders H, !HttpHeadersLaws H} (headers : H) source policy readable :
  Forall visible source -> word_ok source -> binding source = true ->
  policy ∈ get_all headers CSP -> Exists (fun b => 128 <= b) policy ->
  readable ∈ get_all headers CSP -> Forall visible readable ->
  exists inject headers', relax_policy headers source = Ok (inject, headers') /\
    policy ∉ get_all headers' CSP /\ (length (get_all headers' CSP) < length (get_all headers CSP))%nat.
Proof.
  intros Hs Hw Hb Hp Hbad Hr Hv. destruct (relax_policy_spec headers source Hs Hw Hb) as (inject & headers' & He & _ & _ & Hsome).
  assert (~ Forall visible policy) as Hnv.
  { intros Hvp. apply Exists_exists in Hbad as (b & Hb1 & Hb2). rewrite Forall_forall in Hvp. specialize (Hvp b Hb1). unfold visible in Hvp. lia. }
  destruct Hsome as (H1 & H2 & _).
  { intros Hnil. assert (readable ∈ filter (Forall visible) (get_all headers CSP)) as Hin by by apply list_elem_of_filter.
    rewrite Hnil in Hin. set_solver. }
  exists inject, headers'. split_and!; [done| |].
  - intros Hin. rewrite Forall_forall in H2. by apply Hnv, H2.
  - apply Forall2_length in H1. rewrite <- H1. apply length_filter_lt with policy; [done|done].
Qed.

Lemma relax_drops_policy_witness :
  let headers : gmap bytes (list bytes) := {[ CSP := [text_of "img-src *"; text_of "script-src 'none'; report-uri /r" ++ [0xc3; 0xa9]] ]} in
  exists inject headers', @relax_policy _ sample_header_map headers (text_of "'sha256-h'") = Ok (inject, headers') /\
    text_of "script-src 'none'; report-uri /r" ++ [0xc3; 0xa9] ∉ @get_all _ sample_header_map headers' CSP.
Proof.
  edestruct (@relax_drops_policy _ sample_header_map sample_header_map_laws
    {[ CSP := [text_of "img-src *"; text_of "script-src 'none'; report-uri /r" ++ [0xc3; 0xa9]] ]} (text_of "'sha256-h'")
    (text_of "script-src 'none'; report-uri /r" ++ [0xc3; 0xa9]) (text_of "img-src *")) as (inject & headers' & H1 & H2 & _).
  - by apply (bool_decide_unpack _); vm_compute.
  - split; [by apply (bool_decide_unpack _); vm_compute|by apply (bool_decide_unpack _); vm_compute|done|by apply (bool_decide_unpack _); vm_compute].
  - reflexivity.
  - by apply (bool_decide_unpack _); vm_compute.
  - by apply (bool_decide_unpack _); vm_compute.
  - by apply (bool_decide_unpack _); vm_compute.
  - by apply (bool_decide_unpack _); vm_compute.
  - exists inject, headers'. split; [exact H1|exact H2].
Defined.
