(* ===== verification/Rewrite.v ===== *)
(** HTML rewriting of [src/intercept/rewrite.rs]: which responses are rewritten, the
    content decoders, and the body that streams a document through decoder and rewriter.

    The decompressors, the zstd frame decoder, the HTML rewriter and the encoding labels
    are third-party and are classes of operations. *)

From S2P Require Import Prelude IpText Text Csp.
Open Scope Z_scope.

(** * Rewritability *)

Inductive NotRewritable := NoWholeBody | NotHtml | ContentCoded | UnsupportedCharset.

Inductive Coding := Identity | Gzip | Deflate | Brotli | Zstd_.

#[global] Instance Coding_eq_dec : EqDecision Coding.
Proof. solve_decision. Defined.

Definition is_text (bs : bytes) (s : String.string) : bool := bool_decide (bs = text_of s).

Definition Coding_from_token (token : bytes) : option Coding :=
  let token := to_ascii_lowercase <$> trim token in
  if is_text token "" || is_text token "identity" then Some Identity
  else if is_text token "gzip" || is_text token "x-gzip" then Some Gzip
  else if is_text token "deflate" then Some Deflate
  else if is_text token "br" then Some Brotli
  else if is_text token "zstd" then Some Zstd_
  else None.

(** [trim_matches] of the double quote. *)
Fixpoint strip_leading (c : Z) (bs : bytes) : bytes :=
  match bs with b :: rest => if b =? c then strip_leading c rest else bs | [] => [] end.
Definition trim_matches (c : Z) (bs : bytes) : bytes := reverse (strip_leading c (reverse (strip_leading c bs))).

(** [split_once]. *)
Fixpoint split_once (c : Z) (bs : bytes) : option (bytes * bytes) :=
  match bs with
  | [] => None
  | b :: rest => if b =? c then Some ([], rest) else '(before, after) ← split_once c rest; Some (b :: before, after)
  end.

Definition charset_of (parameter : bytes) : option bytes :=
  '(name, value) ← split_once 61 parameter;
  if eq_ignore_ascii_case (trim name) (text_of "charset") then Some (trim_matches 34 (trim value)) else None.

Definition media_type (value : bytes) : bytes * option bytes :=
  match split_char 59 value with
  | [] => ([], None)
  | media :: parameters => (trim media, head (omap charset_of parameters))
  end.

(** [encoding_rs] labels, kept to encodings lol_html accepts. *)
Class Encodings (E : Type) := { utf_8 : E; for_label : bytes -> option E }.

Record Rewritable (E : Type) := mkRewritable { rw_encoding : E; rw_coding : Coding }.
Arguments mkRewritable {E}.
Arguments rw_encoding {E}.
Arguments rw_coding {E}.

Fixpoint codings (coding : Coding) (tokens : list bytes) : Res NotRewritable Coding :=
  match tokens with
  | [] => Ok coding
  | token :: tokens =>
      match coding, Coding_from_token token with
      | _, None => Err ContentCoded
      | _, Some Identity => codings coding tokens
      | Identity, Some named => codings named tokens
      | _, Some _ => Err ContentCoded
      end
  end.

Definition CONTENT_ENCODING : bytes := text_of "content-encoding".
Definition CONTENT_TYPE : bytes := text_of "content-type".
Definition CONTENT_LENGTH : bytes := text_of "content-length".

Section Rewritability.
Context {H E : Type} `{HttpHeaders H, Encodings E}.

(** [headers.get] is the first value of a name. *)
Definition rewritable (status : Z) (headers : H) : Res NotRewritable (Rewritable E) :=
  if ((100 <=? status) && (status <? 200)) || (status =? 204) || (status =? 304) || (status =? 206) then Err NoWholeBody else
  coding ← codings Identity (omap to_str (get_all headers CONTENT_ENCODING) ≫= split_char 44);
  content_type ← ok_or NotHtml (value ← head (get_all headers CONTENT_TYPE); to_str value);
  let '(media, charset) := media_type content_type in
  if negb (eq_ignore_ascii_case media (text_of "text/html")) then Err NotHtml else
  encoding ← match charset with
             | None => Ok utf_8
             | Some label => ok_or UnsupportedCharset (for_label label)
             end;
  Ok (mkRewritable encoding coding).
End Rewritability.

Lemma codings_total tokens : forall coding, codings coding tokens <> Panic.
Proof. induction tokens as [|token tokens IH]; intros coding; [done|]. cbn. destruct coding, (Coding_from_token token) as [[]|]; by try apply IH. Qed.

Lemma rewritable_total {H E : Type} `{HttpHeaders H, Encodings E} status (headers : H) : rewritable (E := E) status headers <> Panic.
Proof.
  unfold rewritable. case_match; [done|]. pose proof (codings_total (omap to_str (get_all headers CONTENT_ENCODING) ≫= split_char 44) Identity).
  destruct (codings _ _); [|done|done]. cbn [mbind Res_bind]. destruct (head _ ≫= _) as [value|]; cbn; [|done].
  destruct (media_type value) as [media charset]. case_match; [done|]. destruct charset as [label|]; cbn; [|done]. by destruct (for_label label).
Qed.

(** ** Budgets *)

Record StreamBudget := mkStreamBudget { max_memory_bytes : nat; parsing_buffer_bytes : nat }.

Inductive BudgetError := NoCeiling | BufferExceedsCeiling (parsing ceiling : nat).

Definition StreamBudget_new (ceiling parsing : nat) : Res BudgetError StreamBudget :=
  if (ceiling =? 0)%nat then Err NoCeiling
  else if (ceiling <? parsing)%nat then Err (BufferExceedsCeiling parsing ceiling)
  else Ok (mkStreamBudget ceiling parsing).

(** * Content decoding *)

(** A streaming decompressor over a byte vector: [write_all] then the vector, [clear] of
    the vector, and the end of the stream. *)
Class Inflaters := {
  Inflater : Type;
  inflater : Coding -> Inflater;
  inflate : Inflater -> bytes -> option Inflater;
  inflated : Inflater -> bytes;
  inflate_clear : Inflater -> Inflater;
  inflate_finish : Inflater -> option Inflater;
}.

(** The zstd frame decoder: how far one call got and whether it lacked input. *)
Inductive FrameStep := FrameRead (n : nat) | FrameShort | FrameBad.

Class ZstdFrames := {
  ZstdFrame : Type;
  frame_new : ZstdFrame;
  frame_decode : ZstdFrame -> bytes -> FrameStep * ZstdFrame;
  frame_collect : ZstdFrame -> option (bytes * ZstdFrame);
  frame_finished : ZstdFrame -> bool;
}.

Definition ZSTD_STAGING_BYTES : nat := Z.to_nat (128 * 1024 + 3 + 18).
Definition MAX_DECODED_CHUNK_BYTES : nat := Z.to_nat (8 * 1024 * 1024).

Section Decoding.
Context `{Inflaters, ZstdFrames}.

Record Zstd := mkZstd { z_frame : ZstdFrame; z_pending : bytes; z_plain : bytes; z_started : bool }.

Definition Zstd_new : Zstd := mkZstd frame_new [] [] false.

(** The loop of [drain]: what was used, and the decoder, [None] for [Undecodable].  Every
    round but the last uses a byte, so the source's length is enough rounds. *)
Fixpoint zstd_loop (fuel : nat) (z : Zstd) (source : bytes) (used : nat) : Res Empty_set (option (nat * Zstd)) :=
  if (length source <=? used)%nat then Ok (Some (used, z)) else
  match fuel with
  | O => Panic
  | S fuel =>
      let end_ := (length source `min` (used + ZSTD_STAGING_BYTES))%nat in
      slice ← or_panic (get_range source used end_);
      match frame_decode (z_frame z) slice with
      | (FrameShort, frame) => Ok (Some (used, mkZstd frame (z_pending z) (z_plain z) (z_started z)))
      | (FrameBad, _) => Ok None
      | (FrameRead read, frame) =>
          match frame_collect frame with
          | None => Ok None
          | Some (out, frame) =>
              let z := mkZstd frame (z_pending z) (z_plain z ++ out) true in
              if (MAX_DECODED_CHUNK_BYTES <? length (z_plain z))%nat then Ok None
              else if (read =? 0)%nat || (end_ - used <? read)%nat then Ok (Some (used, z))
              else zstd_loop fuel z source (used + read)
          end
      end
  end.

Definition Zstd_drain (z : Zstd) (source : bytes) : Res Empty_set (option (nat * Zstd)) :=
  drained ← zstd_loop (length source) z source 0;
  Ok match drained with
     | Some (used, z) =>
         if z_started z && frame_finished (z_frame z) && (used <? length source)%nat then None else Some (used, z)
     | None => None
     end.

Definition Zstd_push (z : Zstd) (chunk : bytes) : Res Empty_set (option Zstd) :=
  let held := z_pending z ++ chunk in
  drained ← Zstd_drain (mkZstd (z_frame z) [] (z_plain z) (z_started z)) held;
  match drained with
  | None => Ok None
  | Some (used, z) =>
      rest ← or_panic (get_from held used);
      Ok (Some (mkZstd (z_frame z) rest (z_plain z) (z_started z)))
  end.

Inductive Decoder := IdentityDecoder | InflateDecoder (inflater : Inflater) | ZstdDecoder (zstd : Zstd).

Definition Decoder_new (coding : Coding) : Decoder :=
  match coding with
  | Identity => IdentityDecoder
  | Gzip | Deflate | Brotli => InflateDecoder (inflater coding)
  | Zstd_ => ZstdDecoder Zstd_new
  end.

Definition within_chunk (plain : bytes) (d : Decoder) : option (bytes * Decoder) :=
  if (length plain <=? MAX_DECODED_CHUNK_BYTES)%nat then Some (plain, d) else None.

(** The plaintext staged by a chunk; [None] is [Undecodable]. *)
Definition Decoder_decode (d : Decoder) (chunk : bytes) : Res Empty_set (option (bytes * Decoder)) :=
  match d with
  | IdentityDecoder => Ok (Some (chunk, d))
  | InflateDecoder i =>
      Ok match inflate i chunk with
         | Some i => within_chunk (inflated i) (InflateDecoder i)
         | None => None
         end
  | ZstdDecoder z =>
      pushed ← Zstd_push z chunk;
      Ok match pushed with
         | Some z => within_chunk (z_plain z) (ZstdDecoder z)
         | None => None
         end
  end.

Definition Decoder_finish (d : Decoder) : option (bytes * Decoder) :=
  match d with
  | IdentityDecoder => Some ([], d)
  | InflateDecoder i => i ← inflate_finish i; Some (inflated i, InflateDecoder i)
  | ZstdDecoder z =>
      if z_started z && frame_finished (z_frame z) && (length (z_pending z) =? 0)%nat then Some (z_plain z, d) else None
  end.

Definition Decoder_clear (d : Decoder) : Decoder :=
  match d with
  | IdentityDecoder => d
  | InflateDecoder i => InflateDecoder (inflate_clear i)
  | ZstdDecoder z => ZstdDecoder (mkZstd (z_frame z) (z_pending z) [] (z_started z))
  end.
End Decoding.

(** * The rewriting body *)

Inductive RewritingError := MemoryLimitExceeded | ParsingAmbiguity | ContentHandlerError.

(** The HTML rewriter: what a call emits to the sink, and its outcome. *)
Class Rewriters := {
  Rewriter : Type;
  rewriter_write : Rewriter -> bytes -> bytes * (Rewriter + RewritingError);
  rewriter_end : Rewriter -> bytes * option RewritingError;
}.

Definition recoverable (error : RewritingError) : bool :=
  match error with MemoryLimitExceeded | ContentHandlerError => true | ParsingAmbiguity => false end.

Section Body.
Context `{Inflaters, ZstdFrames, Rewriters} {Trailers Fault : Type}.

(** What polling the inner body meets; past the end of the script it has ended. *)
Inductive Frame := FrameData (data : bytes) | FrameTrailers (trailers : Trailers) | FrameFault (fault : Fault) | FramePending.

Inductive Stage := Rewriting_ (rewriter : Rewriter) | Raw | Ended.

Record RewritingBody := mkBody {
  rb_inner : list Frame;
  rb_stage : Stage;
  rb_decoder : Decoder;
  rb_sink : bytes;
  rb_failures : Z;
}.

Definition Body_new (rewriter : Rewriter) (coding : Coding) (inner : list Frame) : RewritingBody :=
  mkBody inner (Rewriting_ rewriter) (Decoder_new coding) [] 0.

(** [drain]: everything in the sink, when there is anything. *)
Definition Body_drain (b : RewritingBody) : option bytes * RewritingBody :=
  match rb_sink b with
  | [] => (None, b)
  | bytes => (Some bytes, mkBody (rb_inner b) (rb_stage b) (rb_decoder b) [] (rb_failures b))
  end.

Definition failed (failures : Z) : Z := wrap 64 (failures + 1).

(** What [rewriter.write] does to stage, sink and failures; [true] is [Truncated]. *)
Definition write_stage (rewriter : Rewriter) (text sink : bytes) (failures : Z) : bool * Stage * bytes * Z :=
  match rewriter_write rewriter text with
  | (out, inl rewriter) => (false, Rewriting_ rewriter, sink ++ out, failures)
  | (out, inr error) =>
      (negb (recoverable error), if recoverable error then Raw else Ended, sink ++ out, failed failures)
  end.

(** [feed]; [true] is [Err(Truncated)]. *)
Definition Body_feed (b : RewritingBody) (data : bytes) : Res Empty_set (bool * RewritingBody) :=
  match rb_stage b with
  | Ended => Ok (false, b)
  | stage =>
      decoded ← Decoder_decode (rb_decoder b) data;
      match decoded with
      | None => Ok (true, mkBody (rb_inner b) Ended (rb_decoder b) (rb_sink b) (failed (rb_failures b)))
      | Some (text, decoder) =>
          let '(truncated, stage, sink, failures) :=
            match stage with
            | Rewriting_ rewriter => write_stage rewriter text (rb_sink b) (rb_failures b)
            | Raw => (false, Raw, rb_sink b ++ text, rb_failures b)
            | Ended => (false, Ended, rb_sink b, rb_failures b)
            end in
          Ok (truncated, mkBody (rb_inner b) stage (Decoder_clear decoder) sink failures)
      end
  end.

(** [finish]. *)
Definition Body_finish (b : RewritingBody) : bool * RewritingBody :=
  match Decoder_finish (rb_decoder b) with
  | None => (true, mkBody (rb_inner b) Ended (rb_decoder b) (rb_sink b) (failed (rb_failures b)))
  | Some (tail, decoder) =>
      let '(truncated, stage, sink, failures) :=
        match tail, rb_stage b with
        | [], stage => (false, stage, rb_sink b, rb_failures b)
        | _, Rewriting_ rewriter => write_stage rewriter tail (rb_sink b) (rb_failures b)
        | _, Raw => (false, Raw, rb_sink b ++ tail, rb_failures b)
        | _, Ended => (false, Ended, rb_sink b, rb_failures b)
        end in
      if (truncated : bool) then (true, mkBody (rb_inner b) stage decoder sink failures) else
      let decoder := Decoder_clear decoder in
      match stage with
      | Rewriting_ rewriter =>
          match rewriter_end rewriter with
          | (out, None) => (false, mkBody (rb_inner b) Ended decoder (sink ++ out) failures)
          | (out, Some error) =>
              (negb (recoverable error), mkBody (rb_inner b) Ended decoder (sink ++ out) (failed failures))
          end
      | Raw | Ended => (false, mkBody (rb_inner b) Ended decoder sink failures)
      end
  end.

Definition is_ended (stage : Stage) : bool := match stage with Ended => true | _ => false end.

Inductive Polled := PolledData (data : bytes) | PolledTrailers (trailers : Trailers) | PolledFault (fault : Fault)
| PolledTruncated | PolledEnd | PolledPending.

Definition Body_with_inner (b : RewritingBody) (inner : list Frame) : RewritingBody :=
  mkBody inner (rb_stage b) (rb_decoder b) (rb_sink b) (rb_failures b).

(** The loop of [poll_frame].  A round takes a frame of the inner body or ends the body,
    so the frames left and two more are enough rounds. *)
Fixpoint poll_frame_loop (fuel : nat) (b : RewritingBody) : Res Empty_set (Polled * RewritingBody) :=
  match fuel with
  | O => Panic
  | S fuel =>
      match Body_drain b with
      | (Some bytes, b) => Ok (PolledData bytes, b)
      | (None, b) =>
          if is_ended (rb_stage b) then Ok (PolledEnd, b) else
          match rb_inner b with
          | [] =>
              match Body_finish b with
              | (true, b) => Ok (PolledTruncated, b)
              | (false, b) => poll_frame_loop fuel b
              end
          | FramePending :: inner => Ok (PolledPending, Body_with_inner b inner)
          | FrameFault fault :: inner => Ok (PolledFault fault, Body_with_inner b inner)
          | FrameTrailers trailers :: inner => Ok (PolledTrailers trailers, Body_with_inner b inner)
          | FrameData data :: inner =>
              fed ← Body_feed (Body_with_inner b inner) data;
              match fed with
              | (true, b) => Ok (PolledTruncated, b)
              | (false, b) => poll_frame_loop fuel b
              end
          end
      end
  end.

Definition poll_frame (b : RewritingBody) : Res Empty_set (Polled * RewritingBody) :=
  poll_frame_loop (length (rb_inner b) + 2) b.

(** A reader that polls until the body ends or fails: what it got, in order. *)
Fixpoint read_body (polls : nat) (b : RewritingBody) : list Polled :=
  match polls with
  | O => []
  | S polls =>
      match poll_frame b with
      | Ok (PolledEnd, _) => [PolledEnd]
      | Ok (PolledTruncated, _) => [PolledTruncated]
      | Ok (PolledFault fault, _) => [PolledFault fault]
      | Ok (polled, b) => polled :: read_body polls b
      | Err _ | Panic => []
      end
  end.
End Body.

(** * What a reader gets *)

(** ** Decoding is total *)

Section DecodingTotal.
Context `{Inflaters, ZstdFrames}.

Lemma zstd_loop_total fuel : forall z source used, (used <= length source)%nat -> (length source - used <= fuel)%nat ->
  exists drained, zstd_loop fuel z source used = Ok drained /\
    (forall used' z', drained = Some (used', z') -> (used' <= length source)%nat).
Proof.
  induction fuel as [|fuel IH]; intros z source used Hu Hf; cbn [zstd_loop].
  - rewrite (proj2 (Nat.leb_le _ _)) by lia. eexists. split; [done|]. by intros ? ? [= <- _].
  - destruct (length source <=? used)%nat eqn:E; [eexists; split; [done|]; by intros ? ? [= <- _]|]. reflect. cbn zeta.
    set (end_ := (length source `min` (used + ZSTD_STAGING_BYTES))%nat).
    assert (get_range source used end_ = Some (take (end_ - used) (drop used source))) as ->.
    { unfold get_range. rewrite (proj2 (Nat.leb_le used end_)), (proj2 (Nat.leb_le end_ (length source))) by lia. done. }
    cbn [or_panic mbind Res_bind]. destruct (frame_decode _ _) as [[read| |] frame].
    + destruct (frame_collect frame) as [[out frame']|]; [|eexists; split; [done|done]].
      case_match; [eexists; split; [done|done]|]. destruct (_ || _) eqn:Er; [eexists; split; [done|]; by intros ? ? [= <- _]|].
      reflect. apply IH; lia.
    + eexists. split; [done|]. by intros ? ? [= <- _].
    + by eexists.
Qed.

Lemma Zstd_push_total z chunk : exists pushed, Zstd_push z chunk = Ok pushed.
Proof.
  unfold Zstd_push, Zstd_drain. set (held := z_pending z ++ chunk).
  destruct (zstd_loop_total (length held) (mkZstd (z_frame z) [] (z_plain z) (z_started z)) held 0) as (drained & -> & Hd); [lia|lia|].
  cbn [mbind Res_bind]. destruct drained as [[used z']|]; [|by eexists]. case_match eqn:E; [|by eexists].
  destruct p as [used0 z0]. case_match; [done|]. injection E as <- <-. specialize (Hd _ _ eq_refl).
  unfold get_from. rewrite (proj2 (Nat.leb_le _ _)) by done. by eexists.
Qed.

Lemma Decoder_decode_total d chunk : exists decoded, Decoder_decode d chunk = Ok decoded.
Proof. destruct d as [|i|z]; [by eexists|by eexists|]. cbn. destruct (Zstd_push_total z chunk) as [pushed ->]. by eexists. Qed.
End DecodingTotal.

(** ** What a content coding stands for

    The text of a whole compressed body, and what the streaming decoders promise of it:
    [inflating i c input output] says that [i], made for [c], was written [input] and has
    given [output] in all; its vector holds the part of [output] written since the last
    [clear].  What was given is the front of the text of every body that starts with what
    was written, a refused byte has no text behind it, and a finished stream has given
    all of its text. *)
Class InflaterLaws `{Inflaters} := {
  inflated_text : Coding -> bytes -> option bytes;
  inflating : Inflater -> Coding -> bytes -> bytes -> Prop;
  inflater_starts coding : inflating (inflater coding) coding [] [] /\ inflated (inflater coding) = [];
  inflate_appends i coding input output chunk i' : inflating i coding input output -> inflate i chunk = Some i' ->
    exists new, inflated i' = inflated i ++ new /\ inflating i' coding (input ++ chunk) (output ++ new);
  inflate_refuses i coding input output chunk rest : inflating i coding input output -> inflate i chunk = None ->
    inflated_text coding (input ++ chunk ++ rest) = None;
  inflating_front i coding input output rest text : inflating i coding input output ->
    inflated_text coding (input ++ rest) = Some text -> output `prefix_of` text;
  inflate_clears i coding input output : inflating i coding input output ->
    inflated (inflate_clear i) = [] /\ inflating (inflate_clear i) coding input output;
  inflate_finishes i coding input output i' : inflating i coding input output -> inflate_finish i = Some i' ->
    exists new, inflated i' = inflated i ++ new /\ inflated_text coding input = Some (output ++ new);
  inflate_unfinished i coding input output : inflating i coding input output -> inflate_finish i = None ->
    inflated_text coding input = None;
}.

(** The same of a zstd frame.  [framing f started input output] says that [f] has used
    [input] and that [output] was collected from it, [started] once a call has succeeded.
    A call that reports no byte, or more bytes than it was given, used none; a call given
    a whole block makes progress, so one that does not lacks the end of its block, unless
    the frame is finished; and a body is one frame. *)
Definition frame_used (read : nat) (slice : bytes) : bytes :=
  if (read =? 0)%nat || (length slice <? read)%nat then [] else take read slice.

Class ZstdLaws `{ZstdFrames} := {
  zstd_text : bytes -> option bytes;
  framing : ZstdFrame -> bool -> bytes -> bytes -> Prop;
  frame_starts : framing frame_new false [] [];
  frame_unstarted f input output : framing f false input output -> zstd_text input = None;
  frame_reads f started input output slice read f1 new f2 : framing f started input output ->
    frame_decode f slice = (FrameRead read, f1) -> frame_collect f1 = Some (new, f2) ->
    framing f2 true (input ++ frame_used read slice) (output ++ new);
  frame_collects f started input output slice read f1 : framing f started input output ->
    frame_decode f slice = (FrameRead read, f1) -> frame_collect f1 <> None;
  frame_stalls f started input output slice read f1 new f2 : framing f started input output -> slice <> [] ->
    frame_decode f slice = (FrameRead read, f1) -> frame_collect f1 = Some (new, f2) ->
    frame_used read slice = [] -> frame_finished f2 = false ->
    (length slice < ZSTD_STAGING_BYTES)%nat /\ zstd_text (input ++ slice) = None;
  frame_lacks f started input output slice f1 : framing f started input output ->
    frame_decode f slice = (FrameShort, f1) ->
    framing f1 started input output /\
    (length slice < ZSTD_STAGING_BYTES)%nat /\ zstd_text (input ++ slice) = None;
  frame_refuses f started input output slice f1 rest : framing f started input output ->
    frame_decode f slice = (FrameBad, f1) -> zstd_text (input ++ slice ++ rest) = None;
  framing_front f started input output rest text : framing f started input output ->
    zstd_text (input ++ rest) = Some text -> output `prefix_of` text;
  frame_ends f input output rest : framing f true input output -> frame_finished f = true ->
    zstd_text (input ++ rest) = match rest with [] => Some output | _ => None end;
  frame_unended f input output : framing f true input output -> frame_finished f = false -> zstd_text input = None;
}.

(** The text of a body under a content coding. *)
Definition plaintext `{InflaterLaws, ZstdLaws} (coding : Coding) (body : bytes) : option bytes :=
  match coding with
  | Identity => Some body
  | Gzip | Deflate | Brotli => inflated_text coding body
  | Zstd_ => zstd_text body
  end.

Section Staging.
Context `{Hinf : Inflaters, Hzst : ZstdFrames, !InflaterLaws, !ZstdLaws}.

(** No text, or one longer than the bound on what a chunk may decode to. *)
Definition refused (coding : Coding) (body : bytes) : Prop :=
  forall text, plaintext coding body = Some text -> (MAX_DECODED_CHUNK_BYTES < length text)%nat.

(** A decoder between two chunks: its staging is empty, and it was given [input] and gave
    [output].  A zstd decoder holds the bytes of [input] its frame has not used, which
    are no whole block. *)
Definition decoding (coding : Coding) (d : Decoder) (input output : bytes) : Prop :=
  match coding, d with
  | Identity, IdentityDecoder => output = input
  | (Gzip | Deflate | Brotli), InflateDecoder i => inflated i = [] /\ inflating i coding input output
  | Zstd_, ZstdDecoder z =>
      z_plain z = [] /\ exists used, input = used ++ z_pending z /\ framing (z_frame z) (z_started z) used output /\
        (z_pending z = [] \/ zstd_text input = None)
  | _, _ => False
  end.

Lemma refused_none coding body : plaintext coding body = None -> refused coding body.
Proof. intros Hn text Ht. congruence. Qed.

Lemma refused_long coding body output : (forall text, plaintext coding body = Some text -> output `prefix_of` text) ->
  (MAX_DECODED_CHUNK_BYTES < length output)%nat -> refused coding body.
Proof. intros Hp Hl text Ht. apply Hp, prefix_length in Ht. lia. Qed.

Lemma decoding_new coding : decoding coding (Decoder_new coding) [] [].
Proof.
  destruct coding; cbn [Decoder_new decoding]; [done| | | |].
  1-3: (destruct (inflater_starts Gzip), (inflater_starts Deflate), (inflater_starts Brotli); by split).
  split; [done|]. exists []. split_and!; [done|apply frame_starts|by left].
Qed.

(** The loop of [drain]: what a decoder uses leaves its frame with the text of it staged,
    and what it does not use is no whole block. *)
Lemma zstd_loop_frames source fuel : forall z used before output, (used <= length source)%nat ->
  framing (z_frame z) (z_started z) (before ++ take used source) (output ++ z_plain z) ->
  match zstd_loop fuel z source used with
  | Ok (Some (used', z')) =>
      (used' <= length source)%nat /\ framing (z_frame z') (z_started z') (before ++ take used' source) (output ++ z_plain z') /\
      (used' = length source \/ z_started z' && frame_finished (z_frame z') = true \/ zstd_text (before ++ source) = None)
  | Ok None => forall rest, refused Zstd_ (before ++ source ++ rest)
  | _ => True
  end.
Proof.
  induction fuel as [|fuel IH]; intros z used before output Hu Hf; cbn [zstd_loop]; (destruct (length source <=? used)%nat eqn:El; reflect;
    [assert (used = length source) as -> by lia; split_and!; [lia|done|by left]|]); [done|].
  set (end_ := (length source `min` (used + ZSTD_STAGING_BYTES))%nat).
  destruct (get_range source used end_) as [slice|] eqn:Eg; [|done]. cbn [or_panic mbind Res_bind].
  pose proof (length_get_range _ _ _ _ Eg) as Hlen. apply get_range_Some in Eg as [Hend Hs].
  assert (take used source ++ slice ++ drop end_ source = source) as Hsplit.
  { rewrite Hs. rewrite <- (take_drop used source) at 4. f_equal. rewrite <- (take_drop (end_ - used) (drop used source)) at 2.
    rewrite drop_drop. do 2 f_equal. lia. }
  assert ((length slice < ZSTD_STAGING_BYTES)%nat -> zstd_text ((before ++ take used source) ++ slice) = None -> zstd_text (before ++ source) = None) as Hlack.
  { intros Hl Ht. assert (end_ = length source) as He by lia. rewrite He, drop_all, app_nil_r in Hsplit. by rewrite <- Hsplit, app_assoc. }
  destruct (frame_decode (z_frame z) slice) as [[read| |] f1] eqn:Ed.
  - destruct (frame_collect f1) as [[new f2]|] eqn:Ec; [|by eapply frame_collects in Ec].
    pose proof (frame_reads _ _ _ _ _ _ _ _ _ Hf Ed Ec) as Hr. rewrite <- !app_assoc in Hr. cbn [z_plain z_frame].
    destruct (MAX_DECODED_CHUNK_BYTES <? length (z_plain z ++ new))%nat eqn:Em; reflect.
    { intros rest. eapply (refused_long _ _ (output ++ z_plain z ++ new)); [|rewrite !length_app in *; lia].
      intros text Ht. eapply (framing_front _ _ _ _ (drop (length (frame_used read slice)) slice ++ drop end_ source ++ rest)); [exact Hr|].
      cbn [plaintext] in Ht. rewrite <- Ht. f_equal. rewrite <- !app_assoc. f_equal. rewrite <- Hsplit at 3. rewrite <- !app_assoc. f_equal.
      rewrite (app_assoc (frame_used _ _)). f_equal. unfold frame_used. case_match eqn:E; [by rewrite drop_0|]. reflect.
      rewrite length_take_le by lia. apply take_drop. }
    destruct ((read =? 0)%nat || (end_ - used <? read)%nat) eqn:Er.
    + assert (frame_used read slice = []) as Hn by (unfold frame_used; by rewrite Hlen, Er).
      rewrite Hn, app_nil_r in Hr. cbn [z_started z_plain z_frame]. split_and!; [lia|done|]. right.
      destruct (frame_finished f2) eqn:Ef; [by left|right]. destruct (frame_stalls _ _ _ _ slice read f1 new f2 Hf) as [Hl Ht]; [|done|done|done|done|by apply Hlack].
      intros ->. cbn [length] in Hlen. subst end_. pose proof (eq_refl : ZSTD_STAGING_BYTES = Z.to_nat 131093). lia.
    + assert (frame_used read slice = take read slice) as Hn by (unfold frame_used; by rewrite Hlen, Er). reflect.
      apply IH; [lia|]. cbn [z_plain z_frame z_started]. rewrite Hn in Hr.
      replace (take (used + read) source) with (take used source ++ take read slice); [done|].
      rewrite Hs, take_take, Nat.min_l by lia. by rewrite take_take_drop.
  - destruct (frame_lacks _ _ _ _ _ _ Hf Ed) as (Hf1 & Hl & Ht). cbn [z_started z_plain z_frame]. split_and!; [lia|done|]. auto.
  - intros rest. apply refused_none. cbn [plaintext]. rewrite <- Hsplit, <- !app_assoc, app_assoc. by eapply frame_refuses.
Qed.

Lemma Zstd_push_frames z chunk input output : decoding Zstd_ (ZstdDecoder z) input output ->
  match Zstd_push z chunk with
  | Ok (Some z') => decoding Zstd_ (Decoder_clear (ZstdDecoder z')) (input ++ chunk) (output ++ z_plain z')
  | Ok None => forall rest, refused Zstd_ ((input ++ chunk) ++ rest)
  | _ => True
  end.
Proof.
  intros (Hp & used & -> & Hf & _). unfold Zstd_push, Zstd_drain. set (held := z_pending z ++ chunk).
  pose proof (zstd_loop_frames held (length held) (mkZstd (z_frame z) [] (z_plain z) (z_started z)) 0 used output) as Hl.
  cbn [z_frame z_started z_plain] in Hl. rewrite Hp, take_0, !app_nil_r in Hl. specialize (Hl ltac:(lia) Hf). rewrite Hp.
  destruct (zstd_loop _ _ _ _) as [[[n z']|]|[]|]; cbn [mbind Res_bind]; [|intros rest; rewrite <- !app_assoc, (app_assoc (z_pending z)); apply Hl|done].
  destruct Hl as (Hn & Hf' & Hend). destruct (z_started z' && frame_finished (z_frame z') && _) eqn:Er; cbn [mbind Res_bind].
  - apply andb_true_iff in Er as [[Hs Hfin]%andb_true_iff Hlt%Nat.ltb_lt]. intros rest. apply refused_none. cbn [plaintext]. rewrite Hs in Hf'.
    pose proof (frame_ends _ _ _ (drop n held ++ rest) Hf' Hfin) as He. rewrite <- !app_assoc, (app_assoc (z_pending z)).
    fold held. rewrite <- (take_drop n held), <- app_assoc, app_assoc, He. by destruct (drop n held) eqn:Ed; [apply (f_equal length) in Ed; rewrite length_drop in Ed; cbn in Ed; lia|].
  - unfold get_from. rewrite (proj2 (Nat.leb_le _ _)) by done. cbn [or_panic mbind Res_bind Decoder_clear decoding z_plain z_pending z_frame z_started].
    split; [done|]. exists (used ++ take n held). rewrite <- !app_assoc, take_drop. split_and!; [done|done|].
    destruct Hend as [->|[Hfin|Ht]]; [left; apply drop_all| |by right]. rewrite Hfin in Er. apply Nat.ltb_ge in Er.
    left. by apply drop_ge.
Qed.

Lemma Decoder_decode_text coding d input output chunk : decoding coding d input output ->
  match Decoder_decode d chunk with
  | Ok (Some (text, d')) => decoding coding (Decoder_clear d') (input ++ chunk) (output ++ text)
  | Ok None => forall rest, refused coding ((input ++ chunk) ++ rest)
  | _ => True
  end.
Proof.
  destruct d as [|i|z]; [by destruct coding; cbn; try done; intros ->| |].
  - intros Hd. assert (inflated i = [] /\ inflating i coding input output /\ (coding = Gzip \/ coding = Deflate \/ coding = Brotli)) as (Hi & Hf & Hc).
    { destruct coding; cbn in Hd; naive_solver. }
    cbn [Decoder_decode]. destruct (inflate i chunk) as [i'|] eqn:E.
    + destruct (inflate_appends _ _ _ _ _ _ Hf E) as (new & Hnew & Hf'). rewrite Hi in Hnew. cbn in Hnew. rewrite Hnew. unfold within_chunk.
      destruct (length new <=? MAX_DECODED_CHUNK_BYTES)%nat eqn:Em; reflect.
      * destruct (inflate_clears _ _ _ _ Hf'). by destruct Hc as [->|[->| ->]].
      * intros rest. apply (refused_long _ _ (output ++ new)); [|rewrite length_app; lia]. intros text Ht.
        apply (inflating_front _ coding _ _ rest text Hf'). by destruct Hc as [->|[->| ->]].
    + intros rest. apply refused_none. pose proof (inflate_refuses _ _ _ _ _ rest Hf E). rewrite <- app_assoc. by destruct Hc as [->|[->| ->]].
  - destruct coding; [done..|]. intros Hd. cbn [Decoder_decode]. pose proof (Zstd_push_frames z chunk input output Hd) as Hp.
    destruct (Zstd_push z chunk) as [[z'|]|[]|]; cbn [mbind Res_bind]; [|done|done]. unfold within_chunk.
    destruct (length (z_plain z') <=? MAX_DECODED_CHUNK_BYTES)%nat eqn:Em; reflect; [done|].
    intros rest. destruct Hp as (_ & used & Hin & Hf & _). cbn [Decoder_clear z_frame z_started z_pending] in *.
    apply (refused_long _ _ (output ++ z_plain z')); [|rewrite length_app; lia]. intros text Ht. cbn [plaintext] in Ht.
    rewrite Hin, <- app_assoc in Ht. by eapply framing_front in Ht.
Qed.

Lemma Decoder_finish_text coding d input output : decoding coding d input output ->
  plaintext coding input = match Decoder_finish d with Some (text, _) => Some (output ++ text) | None => None end.
Proof.
  destruct d as [|i|z]; [by destruct coding; cbn; try done; intros ->; rewrite app_nil_r| |].
  - intros Hd. assert (inflated i = [] /\ inflating i coding input output /\ plaintext coding input = inflated_text coding input) as (Hi & Hf & ->).
    { destruct coding; cbn in Hd; naive_solver. }
    cbn [Decoder_finish]. destruct (inflate_finish i) as [i'|] eqn:E; cbn [mbind option_bind]; [|by eapply inflate_unfinished].
    destruct (inflate_finishes _ _ _ _ _ Hf E) as (new & Hnew & ->). by rewrite Hnew, Hi.
  - destruct coding; [done..|]. intros (Hp & used & -> & Hf & Hstuck). cbn [Decoder_finish plaintext].
    destruct (z_started z) eqn:Es; [destruct (frame_finished (z_frame z)) eqn:Ef|]; cbn [andb].
    + rewrite (frame_ends _ _ _ _ Hf Ef), Hp. by destruct (z_pending z); cbn; rewrite ?app_nil_r.
    + destruct Hstuck as [->|Ht]; [|done]. rewrite app_nil_r. by eapply frame_unended.
    + destruct Hstuck as [Hn|Ht]; [|done]. rewrite Hn, app_nil_r. by eapply frame_unstarted.
Qed.
End Staging.

(** ** A rewriter that changes nothing

    The law of a document no rule matches: what is held back and what comes out are what
    went in, and a graceful bail-out flushes what was held. *)
Class TransparentLaws `{Rewriters} := {
  held_back : Rewriter -> bytes;
  write_conserves r text out r' : rewriter_write r text = (out, inl r') -> held_back r ++ text = out ++ held_back r';
  write_flushes r text out e : rewriter_write r text = (out, inr e) -> recoverable e = true -> out = held_back r ++ text;
  end_flushes r out e : rewriter_end r = (out, e) -> (forall error, e = Some error -> recoverable error = true) -> out = held_back r;
}.

Section Transparent.
Context `{Inflaters, ZstdFrames, Rewriters} `{!TransparentLaws} {Trailers Fault : Type}.
Abbreviation Body := (@RewritingBody _ _ _ Trailers Fault).
Abbreviation Frame_ := (@Frame Trailers Fault).
Abbreviation Polled_ := (@Polled Trailers Fault).

(** What the decoder stages chunk by chunk, which [decoded_text] compares with the text
    of the body. *)
Fixpoint decoded (d : Decoder) (chunks : list bytes) : option bytes :=
  match chunks with
  | [] => fst <$> Decoder_finish d
  | chunk :: chunks =>
      match Decoder_decode d chunk with
      | Ok (Some (text, d)) => (text ++.) <$> decoded (Decoder_clear d) chunks
      | _ => None
      end
  end.

Definition data_of (inner : list Frame_) : list bytes :=
  omap (fun frame => match frame with FrameData data => Some data | _ => None end) inner.

Definition plain_frame (frame : Frame_) : Prop := match frame with FrameData _ | FramePending => True | _ => False end.

Definition held_in (stage : Stage) : bytes := match stage with Rewriting_ r => held_back r | _ => [] end.

(** What a reader is still owed. *)
Definition owed (b : Body) : option bytes :=
  if is_ended (rb_stage b) then Some (rb_sink b)
  else (fun text => rb_sink b ++ held_in (rb_stage b) ++ text) <$> decoded (rb_decoder b) (data_of (rb_inner b)).

Definition polls_left (b : Body) : nat :=
  (length (rb_inner b) + (if is_ended (rb_stage b) then 0 else 1) + match rb_sink b with [] => 0 | _ => 1 end)%nat.

(** A rewriter that never meets ambiguous markup. *)
Definition unambiguous : Prop :=
  (forall r text out e, rewriter_write r text = (out, inr e) -> recoverable e = true) /\
  (forall r out e, rewriter_end r = (out, Some e) -> recoverable e = true).

(** One poll: what it delivers is the front of what was owed. *)
Definition poll_ok (b : Body) (polled : Polled_) (b' : Body) : Prop :=
  match polled with
  | PolledData data => owed b = (data ++.) <$> owed b' /\ (polls_left b' < polls_left b)%nat /\ Forall plain_frame (rb_inner b')
  | PolledPending => owed b' = owed b /\ (polls_left b' < polls_left b)%nat /\ Forall plain_frame (rb_inner b')
  | PolledEnd => owed b = Some []
  | PolledTruncated => unambiguous -> owed b = None
  | _ => False
  end.

Lemma write_stage_owed r text sink failures truncated stage sink' failures' :
  write_stage r text sink failures = (truncated, stage, sink', failures') ->
  if (truncated : bool) then stage = Ended /\ ~ unambiguous
  else is_ended stage = false /\ sink' ++ held_in stage = sink ++ held_back r ++ text.
Proof.
  unfold write_stage. destruct (rewriter_write r text) as [out [r'|e]] eqn:E.
  - intros [= <- <- <- _]. split; [done|]. cbn. rewrite <- app_assoc. f_equal. symmetry. by apply write_conserves.
  - destruct (recoverable e) eqn:Er; intros [= <- <- <- _].
    + split; [done|]. cbn. rewrite app_nil_r. f_equal. by eapply write_flushes.
    + split; [done|]. intros [Hu _]. apply Hu in E. congruence.
Qed.

Lemma feed_owed (b : Body) data inner :
  is_ended (rb_stage b) = false -> rb_inner b = FrameData data :: inner ->
  exists truncated b', Body_feed (Body_with_inner b inner) data = Ok (truncated, b') /\
    if (truncated : bool) then unambiguous -> owed b = None
    else is_ended (rb_stage b') = false /\ rb_inner b' = inner /\ owed b' = owed b.
Proof.
  intros He Hi. destruct (Decoder_decode_total (rb_decoder b) data) as [out Hd]. unfold Body_feed, owed.
  rewrite Hi, He. change (data_of (FrameData data :: inner)) with (data :: data_of inner).
  cbn [Body_with_inner rb_stage rb_decoder rb_inner rb_sink rb_failures decoded]. rewrite Hd.
  destruct (rb_stage b) as [r| |] eqn:Es; [| |done]; cbn [mbind Res_bind];
    (destruct out as [[text d]|]; [|by eexists true, _]).
  - destruct (write_stage r text (rb_sink b) (rb_failures b)) as [[[truncated stage] sink] failures] eqn:Ew.
    eexists _, _. split; [done|]. apply write_stage_owed in Ew. destruct truncated; [intros Hu; by destruct Ew|].
    destruct Ew as [He' Hw]. cbn [rb_stage rb_inner rb_sink rb_decoder]. split_and!; [done|done|]. rewrite He'.
    cbn [held_in]. destruct (decoded (Decoder_clear d) (data_of inner)) as [rest|]; [|done].
    cbn. f_equal. rewrite app_assoc, Hw. by rewrite <- !app_assoc.
  - eexists _, _. split; [done|]. cbn [rb_stage rb_inner rb_sink rb_decoder is_ended held_in]. split_and!; [done|done|].
    destruct (decoded (Decoder_clear d) (data_of inner)) as [rest|]; [|done].
    cbn. by rewrite <- app_assoc.
Qed.

Lemma finish_owed (b : Body) :
  is_ended (rb_stage b) = false -> rb_inner b = [] ->
  let '(truncated, b') := Body_finish b in
  if (truncated : bool) then unambiguous -> owed b = None
  else is_ended (rb_stage b') = true /\ rb_inner b' = [] /\ owed b' = owed b.
Proof.
  intros He Hi. unfold Body_finish, owed. rewrite Hi, He. cbn [data_of omap list_omap decoded].
  destruct (Decoder_finish (rb_decoder b)) as [[tail d]|]; [|done]. cbn [fmap option_fmap option_map fst].
  destruct (match tail, rb_stage b with [], stage => _ | _, _ => _ end) as [[[truncated stage] sink] failures] eqn:E.
  assert (if truncated then ~ unambiguous else is_ended stage = false /\ sink ++ held_in stage = rb_sink b ++ held_in (rb_stage b) ++ tail) as Hw.
  { destruct tail as [|c tail]; [injection E as <- <- <- _; by rewrite !app_nil_r|].
    destruct (rb_stage b) as [r| |] eqn:Es; [| |done].
    - apply write_stage_owed in E. by destruct truncated; [destruct E|].
    - injection E as <- <- <- _. split; [done|]. by rewrite app_nil_r. }
  destruct truncated; [done|]. destruct Hw as [He' Hw]. rewrite <- Hw.
  destruct stage as [r| |]; [|cbn; by rewrite app_nil_r|done].
  destruct (rewriter_end r) as [out [e|]] eqn:Ee.
  - destruct (recoverable e) eqn:Er; cbn [negb].
    + cbn. split_and!; [done|done|]. do 2 f_equal. eapply end_flushes; [done|]. by intros ? [= <-].
    + intros [_ Hu]. apply Hu in Ee. congruence.
  - cbn. split_and!; [done|done|]. do 2 f_equal. by eapply end_flushes.
Qed.

Lemma drain_owed (b : Body) :
  match Body_drain b with
  | (Some data, b') => data <> [] /\ owed b = (data ++.) <$> owed b' /\ (polls_left b' < polls_left b)%nat /\ rb_inner b' = rb_inner b
  | (None, b') => b' = b /\ rb_sink b = []
  end.
Proof.
  unfold Body_drain. destruct (rb_sink b) as [|c sink] eqn:E; [done|]. unfold owed, polls_left. cbn. rewrite E.
  split_and!; [done| |lia|done]. destruct (is_ended _); [cbn; by rewrite app_nil_r|]. by destruct (decoded _ _).
Qed.

Lemma poll_loop_ok inner : forall (b : Body) fuel, rb_inner b = inner -> Forall plain_frame inner ->
  (length inner + (if is_ended (rb_stage b) then 1 else 2) <= fuel)%nat ->
  exists polled b', poll_frame_loop fuel b = Ok (polled, b') /\ poll_ok b polled b'.
Proof.
  induction inner as [|frame inner IH]; intros b fuel Hi Hp Hf; (destruct fuel as [|fuel]; [destruct (is_ended _); cbn in Hf; lia|]);
    cbn [poll_frame_loop]; pose proof (drain_owed b) as Hd; destruct (Body_drain b) as [[data|] b1].
  - destruct Hd as (Hne & Ho & Hm & Hi'). eexists _, _. split; [done|]. split_and!; [done|done|by rewrite Hi', Hi].
  - destruct Hd as [-> Hs]. destruct (is_ended (rb_stage b)) eqn:Ee; [eexists _, _; split; [done|]; cbn; unfold owed; by rewrite Ee, Hs|].
    rewrite Hi. pose proof (finish_owed b Ee Hi) as Hfin. destruct (Body_finish b) as [[] b2]; [by eexists _, _|].
    destruct Hfin as (He2 & Hi2 & Ho2). destruct fuel as [|fuel]; [cbn in Hf; lia|]. cbn [poll_frame_loop].
    pose proof (drain_owed b2) as Hd2. destruct (Body_drain b2) as [[data|] b3].
    + destruct Hd2 as (Hne & Ho & Hm & Hi'). eexists _, _. split; [done|]. split_and!; [congruence| |by rewrite Hi', Hi2].
      assert (polls_left b2 <= polls_left b)%nat; [|lia].
      unfold polls_left. rewrite Hi, Ee, Hs, He2, Hi2. cbn. destruct (rb_sink b2); lia.
    + destruct Hd2 as [-> Hs2]. rewrite He2. eexists _, _. split; [done|]. cbn. rewrite <- Ho2. unfold owed. by rewrite He2, Hs2.
  - destruct Hd as (Hne & Ho & Hm & Hi'). eexists _, _. split; [done|]. split_and!; [done|done|by rewrite Hi', Hi].
  - destruct Hd as [-> Hs]. destruct (is_ended (rb_stage b)) eqn:Ee; [eexists _, _; split; [done|]; cbn; unfold owed; by rewrite Ee, Hs|].
    rewrite Hi. apply Forall_cons in Hp as [Hfr Hp]. destruct frame as [data| | |]; [|done|done|].
    + destruct (feed_owed b data inner Ee Hi) as (truncated & b2 & -> & Ht). cbn [mbind Res_bind].
      destruct truncated; [by eexists _, _|]. destruct Ht as (He2 & Hi2 & Ho2).
      destruct (IH b2 fuel Hi2 Hp) as (polled & b3 & Hl & Hok); [rewrite He2; cbn in Hf; lia|].
      exists polled, b3. split; [done|]. assert (polls_left b2 <= polls_left b)%nat.
      { unfold polls_left. rewrite Hi, Hi2, Ee, He2, Hs. cbn. destruct (rb_sink b2); lia. }
      destruct polled; cbn in *; rewrite <- ?Ho2; try done; destruct Hok as (? & ? & ?); split_and!; (done || lia).
    + eexists _, _. split; [done|]. unfold poll_ok, owed, polls_left. cbn. rewrite Hi, Ee, Hs. split_and!; [done|cbn; lia|done].
Qed.

Definition body_text (polled : list Polled_) : bytes :=
  concat (omap (fun p => match p with PolledData data => Some data | _ => None end) polled).

Lemma read_body_ok polls : forall b : Body, Forall plain_frame (rb_inner b) -> (polls_left b < polls)%nat ->
  exists polled ending, read_body polls b = polled ++ [ending] /\
    (ending = PolledEnd /\ owed b = Some (body_text polled) \/ ending = PolledTruncated /\ (unambiguous -> owed b = None)).
Proof.
  induction polls as [|polls IH]; intros b Hp Hm; [lia|]. cbn [read_body]. unfold poll_frame.
  destruct (poll_loop_ok (rb_inner b) b (length (rb_inner b) + 2)) as (polled & b' & -> & Hok); [done|done|destruct (is_ended _); lia|].
  destruct polled as [data|t|f| | |]; cbn [poll_ok] in Hok; try done.
  - destruct Hok as (Ho & Hl & Hp'). destruct (IH b' Hp' ltac:(lia)) as (polled & ending & -> & Hend).
    exists (PolledData data :: polled), ending. split; [done|]. rewrite Ho.
    destruct Hend as [[-> ->]|[-> Hu]]; [by left|right; split; [done|]]. intros Hun. by rewrite (Hu Hun).
  - exists [], PolledTruncated. by split; [|right].
  - exists [], PolledEnd. by split; [|left].
  - destruct Hok as (Ho & Hl & Hp'). destruct (IH b' Hp' ltac:(lia)) as (polled & ending & -> & Hend).
    exists (PolledPending :: polled), ending. split; [done|]. by rewrite <- Ho.
Qed.

Lemma decoded_text `{!InflaterLaws, !ZstdLaws} coding chunks : forall d input output, decoding coding d input output ->
  match decoded d chunks with
  | Some text => plaintext coding (input ++ concat chunks) = Some (output ++ text)
  | None => refused coding (input ++ concat chunks)
  end.
Proof.
  induction chunks as [|chunk chunks IH]; intros d input output Hd; cbn [decoded concat].
  - rewrite app_nil_r. pose proof (Decoder_finish_text _ _ _ _ Hd) as Hf. destruct (Decoder_finish d) as [[text d']|]; [done|by apply refused_none].
  - pose proof (Decoder_decode_text _ _ _ _ chunk Hd) as Ht. destruct (Decoder_decode_total d chunk) as [out Ho]. rewrite Ho in *.
    rewrite app_assoc. destruct out as [[text d']|]; [|apply Ht]. specialize (IH _ _ _ Ht).
    destruct (decoded (Decoder_clear d') chunks) as [text'|]; [|done]. cbn. by rewrite app_assoc.
Qed.
End Transparent.

(** C28: The streaming plumbing loses, repeats and reorders nothing.  For a document that no
    rule changes, under any content coding, cut into data frames anywhere, with polls that
    find nothing ready anywhere, and with the rewriter bailing out gracefully at any
    point, a reader that polls often enough reaches the end of the body without a panic.
    If the body ends cleanly the reader got exactly the text its whole compressed body
    stands for ([plaintext], stated on the concatenated frames and not through the
    staging); otherwise it was told of the truncation, which without ambiguous markup
    happens only to a body that stands for no text or for more than eight mebibytes of
    it, the bound on what one frame may decode to.  The decompressors are assumed to
    append what a stream stands for, and zstd frames to report what they used.  The
    claim is about bodies of data frames: trailers are passed on at once, ahead of held
    back text ([trailers_overtake]), and a fault of the inner body is passed on as it is. *)
Theorem rewriting_conserves `{Inflaters, ZstdFrames, Rewriters, !InflaterLaws, !ZstdLaws, !TransparentLaws} {Trailers Fault : Type}
    (r : Rewriter) (coding : Coding) (inner : list (@Frame Trailers Fault)) polls :
  held_back r = [] -> Forall plain_frame inner -> (length inner + 1 < polls)%nat ->
  exists polled ending, read_body polls (Body_new r coding inner) = polled ++ [ending] /\
    (ending = PolledEnd /\ plaintext coding (concat (data_of inner)) = Some (body_text polled) \/
     ending = PolledTruncated /\
       (unambiguous -> forall text, plaintext coding (concat (data_of inner)) = Some text -> (MAX_DECODED_CHUNK_BYTES < length text)%nat)).
Proof.
  intros Hh Hp Hl. destruct (read_body_ok polls (Body_new r coding inner)) as (polled & ending & Hr & He); [done|cbn; lia|].
  exists polled, ending. split; [done|]. unfold owed in He. cbn [Body_new rb_stage rb_sink rb_decoder rb_inner is_ended held_in] in He.
  rewrite Hh in He. cbn [app] in He. pose proof (decoded_text coding (data_of inner) _ _ _ (decoding_new coding)) as Hd. cbn [app] in Hd.
  destruct (decoded _ _) as [text|]; cbn in He; destruct He as [[-> Ho]|[-> Hu]]; [left; split; [done|congruence]| |done|right; by split].
  right. split; [done|]. intros Hun. by apply Hu in Hun.
Qed.

(** Trailers overtake the document.  When the rewriter holds back the end of the
    document until it is told of it, a body with trailers yields them before that end:
    the frame that closes an HTTP message is followed by more data. *)
Theorem trailers_overtake `{Inflaters, ZstdFrames, Rewriters} {Trailers Fault : Type}
    (r r' : Rewriter) data first rest (trailers : Trailers) :
  rewriter_write r data = (first, inl r') -> first <> [] -> rewriter_end r' = (rest, None) -> rest <> [] ->
  read_body 4 (Body_new r Identity [FrameData (Fault := Fault) data; FrameTrailers trailers]) =
  [PolledData first; PolledTrailers trailers; PolledData rest; PolledEnd].
Proof.
  intros Hw Hf He Hr. destruct first as [|c first]; [done|]. destruct rest as [|c' rest]; [done|].
  unfold read_body, poll_frame. cbn. unfold write_stage. rewrite Hw. cbn. by rewrite He.
Qed.

(** A rewriter that keeps the last byte back, within a memory limit. *)
Definition sample_rewriters : Rewriters :=
  {| Rewriter := bytes * nat;
     rewriter_write '(held, limit) text :=
       let all := held ++ text in
       if (limit <? length all)%nat then (all, inr MemoryLimitExceeded)
       else (take (length all - 1) all, inl (drop (length all - 1) all, (limit - (length all - 1))%nat));
     rewriter_end '(held, _) := (held, None) |}.

#[global] Instance sample_transparent : @TransparentLaws sample_rewriters.
Proof.
  refine (@Build_TransparentLaws sample_rewriters (fun r : bytes * nat => r.1) _ _ _).
  - intros [held limit] text out r'. cbn. case_match; [done|]. intros [= <- <-]. cbn. by rewrite take_drop.
  - intros [held limit] text out e. cbn. case_match; [|done]. by intros [= <- _].
  - intros [held limit] out e. cbn. by intros [= <- _].
Defined.

Definition no_inflaters : Inflaters :=
  {| Inflater := unit; inflater _ := tt; inflate _ _ := None; inflated _ := []; inflate_clear i := i; inflate_finish _ := None |}.
Definition no_frames : ZstdFrames :=
  {| ZstdFrame := unit; frame_new := tt; frame_decode f _ := (FrameBad, f); frame_collect _ := None; frame_finished _ := false |}.

(** A coding that doubles every byte and ends anywhere. *)
Definition doubled (input : bytes) : bytes := concat ((fun b => [b; b]) <$> input).

Definition sample_inflaters : Inflaters :=
  {| Inflater := bytes; inflater _ := []; inflate staged chunk := Some (staged ++ doubled chunk); inflated staged := staged;
     inflate_clear _ := []; inflate_finish staged := Some staged |}.

Lemma doubled_app a b : doubled (a ++ b) = doubled a ++ doubled b.
Proof. unfold doubled. by rewrite fmap_app, concat_app. Qed.

#[global] Instance sample_inflater_laws : @InflaterLaws sample_inflaters.
Proof.
  refine (@Build_InflaterLaws sample_inflaters (fun _ input => Some (doubled input)) (fun _ _ input output => output = doubled input) _ _ _ _ _ _ _).
  - done.
  - intros i _ input output chunk i' ->. cbn. intros [= <-]. exists (doubled chunk). by rewrite doubled_app.
  - done.
  - intros _ _ input output rest text ->. rewrite doubled_app. intros [= <-]. by apply prefix_app_r.
  - by intros i coding input output ->.
  - intros i _ input output i' ->. cbn. intros [= <-]. exists []. by rewrite !app_nil_r.
  - done.
Defined.

(** Frames of two-byte blocks: [1 b] holds the byte [b] and [0 0] ends the frame. *)
Fixpoint paired (input : bytes) : option bytes :=
  match input with
  | x :: b :: input =>
      if x =? 1 then (cons b) <$> paired input
      else if (x =? 0) && (b =? 0) && (length input =? 0)%nat then Some [] else None
  | _ => None
  end.

Definition sample_zstd : ZstdFrames :=
  {| ZstdFrame := bool * bytes; frame_new := (false, []);
     frame_decode '(ended, out) slice :=
       if (ended : bool) then (FrameRead 0, (ended, out)) else
       match slice with
       | x :: b :: _ =>
           if x =? 1 then (FrameRead 2, (false, out ++ [b]))
           else if (x =? 0) && (b =? 0) then (FrameRead 2, (true, out)) else (FrameBad, (ended, out))
       | _ => (FrameShort, (ended, out))
       end;
     frame_collect '(ended, out) := Some (out, (ended, []));
     frame_finished := fst |}.

(** What a frame of the sample has used and given. *)
Definition pairing (f : bool * bytes) (started : bool) (input output : bytes) : Prop :=
  f.2 = [] /\ (started = false -> f.1 = false /\ input = []) /\
  forall rest, paired (input ++ rest) =
    if f.1 then match rest with [] => Some output | _ => None end else (output ++.) <$> paired rest.

Lemma pairing_read f started input output slice read f1 new f2 : pairing f started input output ->
  @frame_decode sample_zstd f slice = (FrameRead read, f1) -> @frame_collect sample_zstd f1 = Some (new, f2) ->
  pairing f2 true (input ++ frame_used read slice) (output ++ new) /\ (frame_used read slice = [] -> f2.1 = true).
Proof.
  destruct f as [ended out]. intros (Ho & _ & Hp). cbn in Ho, Hp |- *. subst out. destruct ended.
  - intros [= <- <-] [= <- <-]. rewrite !app_nil_r. by split.
  - destruct slice as [|x [|b slice]]; [done|done|]. destruct (x =? 1) eqn:Ex; [|destruct ((x =? 0) && (b =? 0)) eqn:E0; [|done]];
      intros [= <- <-] [= <- <-]; (split; [|done]); (split_and!; [done|done|]); intros rest; cbn; rewrite <- app_assoc, Hp; cbn; rewrite Ex, take_0; cbn [app].
    + destruct (paired rest); cbn; [by rewrite <- app_assoc|done].
    + rewrite E0, app_nil_r. destruct rest; [|done]. cbn. by rewrite app_nil_r.
Qed.

#[global] Instance sample_zstd_laws : @ZstdLaws sample_zstd.
Proof.
  refine (@Build_ZstdLaws sample_zstd paired pairing _ _ _ _ _ _ _ _ _ _).
  - split_and!; [done|done|]. intros rest. cbn. by destruct (paired rest).
  - intros f input output (_ & Hs & Hp). destruct (Hs eq_refl) as [Hf ->]. done.
  - intros f started input output slice read f1 new f2 Hf Hd Hc. by apply (pairing_read f started _ _ _ _ f1).
  - intros f started input output slice read [ended out] _ _. done.
  - intros f started input output slice read f1 new f2 Hf _ Hd Hc Hu He. cbn in He. destruct (pairing_read _ _ _ _ _ _ _ _ _ Hf Hd Hc) as [_ Ht].
    apply Ht in Hu. congruence.
  - intros [ended out] started input output slice f1 Hf. cbn. destruct ended; [done|].
    destruct Hf as (Ho & Hs & Hp). destruct slice as [|x [|b slice]]; [| |repeat case_match; done]; intros [= <-];
      (split_and!; [by split_and!|cbn; unfold ZSTD_STAGING_BYTES; lia|by rewrite Hp]).
  - intros [ended out] started input output slice f1 rest (Ho & Hs & Hp). cbn in Hp |- *. destruct ended; [done|].
    destruct slice as [|x [|b slice]]; [done|done|]. destruct (x =? 1) eqn:Ex; [done|]. destruct ((x =? 0) && (b =? 0)) eqn:E0; [done|].
    intros _. rewrite Hp. cbn. by rewrite Ex, E0.
  - intros [ended out] started input output rest text (Ho & Hs & Hp). rewrite Hp. cbn. destruct ended.
    + destruct rest; [|done]. by intros [= <-].
    + destruct (paired rest); [|done]. cbn. intros [= <-]. by apply prefix_app_r.
  - intros [ended out] input output rest (Ho & Hs & Hp). cbn. intros ->. apply Hp.
  - intros [ended out] input output (Ho & Hs & Hp). cbn. intros ->. specialize (Hp []). by rewrite app_nil_r in Hp.
Defined.

(** A document in two-byte blocks, cut inside a block, with a wait between. *)
Definition sample_frames : list (@Frame unit unit) :=
  [FrameData [1; 60; 1; 112; 1]; FramePending; FrameData [62; 1; 97; 1; 60; 1]; FrameData [47; 1; 112; 1; 62; 0; 0]].

Lemma sample_fits : ~ (MAX_DECODED_CHUNK_BYTES < length (text_of "<p>a</p>"))%nat.
Proof. assert (length (text_of "<p>a</p>") = 8%nat) as -> by done. unfold MAX_DECODED_CHUNK_BYTES. lia. Qed.

Lemma sample_unambiguous : @unambiguous sample_rewriters.
Proof. split; [|by intros [held limit] out e]. intros [held limit] text out e. cbn. case_match; [|done]. by intros [= _ <-]. Qed.

Lemma rewriting_conserves_witness :
  exists polled ending,
    @read_body sample_inflaters sample_zstd sample_rewriters unit unit 6 
      (@Body_new sample_inflaters sample_zstd sample_rewriters unit unit (text_of "", 8%nat) Zstd_ sample_frames) = polled ++ [ending] /\
    ending = PolledEnd /\ body_text polled = text_of "<p>a</p>".
Proof.
  destruct (@rewriting_conserves sample_inflaters sample_zstd sample_rewriters sample_inflater_laws sample_zstd_laws sample_transparent unit unit
    (text_of "", 8%nat) Zstd_ sample_frames 6) as (polled & ending & Hr & He).
  - reflexivity.
  - repeat constructor.
  - cbn. lia.
  - exists polled, ending. split; [exact Hr|]. destruct He as [[-> Hd]|[-> Hu]].
    + split; [reflexivity|]. vm_compute in Hd. by injection Hd as Hd.
    + exfalso. exact (sample_fits (Hu sample_unambiguous _ eq_refl)).
Defined.

Lemma trailers_overtake_witness :
  @read_body no_inflaters no_frames sample_rewriters unit unit 4
    (@Body_new no_inflaters no_frames sample_rewriters unit unit (text_of "", 8%nat) Identity [FrameData (text_of "<p>"); FrameTrailers tt]) =
  [PolledData (text_of "<p"); PolledTrailers tt; PolledData (text_of ">"); PolledEnd].
Proof.
  apply (@trailers_overtake no_inflaters no_frames sample_rewriters unit unit (text_of "", 8%nat) (text_of ">", 6%nat)); done.
Defined.

(** * Hiding rules *)

(** [Ord] of strings: their bytes in order. *)
Fixpoint bytes_leb (a b : bytes) : bool :=
  match a, b with
  | [], _ => true
  | _ :: _, [] => false
  | x :: a, y :: b => (x <? y) || (x =? y) && bytes_leb a b
  end.

Definition bytes_le (a b : bytes) : Prop := bytes_leb a b = true.

#[global] Instance bytes_le_dec : RelDecision bytes_le.
Proof. unfold bytes_le. intros a b. apply _. Defined.

#[global] Instance bytes_le_total : Total bytes_le.
Proof.
  unfold bytes_le. intros a. induction a as [|x a IH]; intros [|y b]; [by left|by left|by right|]. cbn.
  destruct (Z.lt_trichotomy x y) as [Hlt|[->|Hgt]].
  - left. by rewrite (proj2 (Z.ltb_lt x y)).
  - rewrite Z.ltb_irrefl, Z.eqb_refl. apply IH.
  - right. by rewrite (proj2 (Z.ltb_lt y x)).
Qed.

#[global] Instance bytes_le_trans : Transitive bytes_le.
Proof.
  unfold bytes_le. intros a. induction a as [|x a IH]; intros [|y b] [|z c]; cbn; try done.
  rewrite !orb_true_iff, !andb_true_iff, !Z.ltb_lt, !Z.eqb_eq.
  intros [Hxy|[-> Hab]] [Hyz|[-> Hbc]]; [left; lia|left; lia|left; lia|right]. split; [done|by apply (IH b)].
Qed.

#[global] Instance bytes_le_antisymm : AntiSymm eq bytes_le.
Proof.
  unfold bytes_le. intros a. induction a as [|x a IH]; intros [|y b]; cbn; try done.
  rewrite !orb_true_iff, !andb_true_iff, !Z.ltb_lt, !Z.eqb_eq.
  intros [Hxy|[-> Hab]] [Hyx|[Hyx Hba]]; try lia. f_equal. by apply IH.
Qed.

(** The elements of a [BTreeSet], in order. *)
Definition btree_set (l : list bytes) : list bytes := merge_sort bytes_le (remove_dups l).

Lemma btree_set_ext l l' : (forall x, x ∈ l <-> x ∈ l') -> btree_set l = btree_set l'.
Proof.
  intros Hl. apply (StronglySorted_unique bytes_le); [by apply (StronglySorted_merge_sort bytes_le)|by apply (StronglySorted_merge_sort bytes_le)|].
  unfold btree_set. rewrite !merge_sort_Permutation. apply NoDup_Permutation; [apply NoDup_remove_dups|apply NoDup_remove_dups|].
  intros x. by rewrite !elem_of_remove_dups.
Qed.

(** Selector parsing, SHA-256 and base64. *)
Class Styling := {
  Selector : Type;
  parse_selector : bytes -> option Selector;
  sha256 : bytes -> bytes;
  base64 : bytes -> bytes;
}.

Record HidingRules `{Styling} := mkHidingRules { hr_selector : Selector; hr_style : bytes; hr_source : bytes; hr_count : nat }.

Definition HidingRules_compile `{Styling} (selectors : list bytes) : option HidingRules :=
  let ordered := btree_set selectors in
  if (length ordered =? 0)%nat then None else
  let list_ := join_text (text_of ",") ordered in
  selector ← parse_selector list_;
  let style := list_ ++ text_of "{display:none!important}" in
  let source := text_of "'sha256-" ++ base64 (sha256 style) ++ text_of "'" in
  Some (mkHidingRules _ selector style source (length ordered)).

(** * Applying them to a response *)

Section Apply.
Context {H E : Type} `{HttpHeaders H, Encodings E, Styling}.

(** The response's new headers, its coding and whether the style is injected; [None]
    passes the response through as it is. *)
Definition Rewriting_apply (rules : option HidingRules) (status : Z) (headers : H) : Res Empty_set (option (H * Rewritable E * bool)) :=
  match rules with
  | None => Ok None
  | Some rules =>
      match rewritable status headers with
      | Err _ => Ok None
      | Panic => Panic
      | Ok rewritable =>
          '(inject, headers) ← relax_policy headers (hr_source rules);
          let headers := remove headers CONTENT_LENGTH in
          let headers := if bool_decide (rw_coding rewritable = Identity) then headers else remove headers CONTENT_ENCODING in
          Ok (Some (headers, rewritable, inject))
      end
  end.
End Apply.

(** Base64 of a digest is a word of its alphabet. *)
Definition base64_char (b : Z) : Prop := 65 <= b <= 90 \/ 97 <= b <= 122 \/ 48 <= b <= 57 \/ b = 43 \/ b = 47 \/ b = 61.

Class StylingLaws `{Styling} : Prop := {
  base64_alphabet bs : Forall base64_char (base64 bs);
  base64_nonempty bs : bs <> [] -> base64 bs <> [];
  sha256_nonempty bs : sha256 bs <> [];
}.

Section Rules.
Context `{Styling, !StylingLaws}.

Lemma base64_visible bs : Forall visible (base64 bs).
Proof. eapply Forall_impl; [apply base64_alphabet|]. unfold base64_char, visible. intros b. lia. Qed.

Lemma hash_source_ok digest : Forall base64_char digest -> digest <> [] ->
  let source := text_of "'sha256-" ++ digest ++ text_of "'" in
  Forall visible source /\ word_ok source /\ binding source = true.
Proof.
  intros Hc Hne source. assert (Forall visible source) as Hall.
  { apply Forall_app. split; [by apply (bool_decide_unpack _); vm_compute|]. apply Forall_app. split.
    - eapply Forall_impl; [done|]. unfold base64_char, visible. intros b. lia.
    - by apply (bool_decide_unpack _); vm_compute. }
  split_and!; [done| |].
  - split; [by apply visible_ascii| |done|].
    + apply Forall_app. split; [by apply (bool_decide_unpack _); vm_compute|]. apply Forall_app.
      split; [|by apply (bool_decide_unpack _); vm_compute]. eapply Forall_impl; [exact Hc|]. unfold base64_char, is_ws. intros b Hb.
      rewrite (proj2 (Z.leb_gt b 13)), (proj2 (Z.eqb_neq b 32)) by lia. by rewrite andb_false_r.
    + unfold source. rewrite !not_elem_of_app.
      split_and!; [by apply (bool_decide_unpack _); vm_compute| |by apply (bool_decide_unpack _); vm_compute].
      intros Hin. rewrite Forall_forall in Hc. apply Hc in Hin. unfold base64_char, SEMICOLON in Hin. lia.
  - unfold binding. change (trim_quotes source) with (text_of "sha256-" ++ digest ++ text_of "'").
    rewrite fmap_app. destruct digest; done.
Qed.

(** The source of compiled rules is a hash source a policy can hold. *)
Lemma compiled_source selectors rules : HidingRules_compile selectors = Some rules ->
  Forall visible (hr_source rules) /\ word_ok (hr_source rules) /\ binding (hr_source rules) = true.
Proof.
  unfold HidingRules_compile. cbn zeta. case_match; [done|]. intros (selector & _ & Heq)%bind_Some.
  injection Heq as <-. apply hash_source_ok; [apply base64_alphabet|apply base64_nonempty, sha256_nonempty].
Qed.

Lemma compile_ext selectors selectors' : (forall x, x ∈ selectors <-> x ∈ selectors') ->
  HidingRules_compile selectors = HidingRules_compile selectors'.
Proof. intros Hs. unfold HidingRules_compile. by rewrite (btree_set_ext selectors selectors'). Qed.
End Rules.

(** A rewritten response is consistent, from the filter selectors to the headers.  With
    rules compiled from any selectors, and readable policies, applying them never panics;
    a response that is not rewritten keeps its headers; one that is has no
    [Content-Length], has no [Content-Encoding] unless the body was not coded, keeps
    every header but these and its policies, each policy is as before or gains the hash
    of exactly this stylesheet, and the style is injected exactly when every policy then
    permits it.  The rules depend only on the set of selectors. *)
Theorem apply_consistent {H E : Type} `{HttpHeaders H, !HttpHeadersLaws H, Encodings E, Styling, !StylingLaws}
    selectors selectors' rules status (headers : H) :
  HidingRules_compile selectors = Some rules -> (forall x, x ∈ selectors <-> x ∈ selectors') ->
  Forall (Forall visible) (get_all headers CSP) ->
  HidingRules_compile selectors' = Some rules /\
  exists applied, Rewriting_apply (E := E) (Some rules) status headers = Ok applied /\
  match applied with
  | None => exists why, rewritable (E := E) status headers = Err why
  | Some (headers', rewritable_, inject) =>
      rewritable status headers = Ok rewritable_ /\
      get_all headers' CONTENT_LENGTH = [] /\
      (rw_coding rewritable_ <> Identity -> get_all headers' CONTENT_ENCODING = []) /\
      (forall name, name ∉ [CSP; CONTENT_LENGTH; CONTENT_ENCODING] -> get_all headers' name = get_all headers name) /\
      Forall2 (relaxed (hr_source rules)) (get_all headers CSP) (get_all headers' CSP) /\
      inject = forallb (fun policy => allows policy (hr_source rules)) (get_all headers' CSP)
  end.
Proof.
  intros Hc Hs Hv. split; [by rewrite <- (compile_ext selectors selectors')|].
  destruct (compiled_source _ _ Hc) as (Hv' & Hw & Hb). unfold Rewriting_apply.
  assert (rewritable (E := E) status headers <> Panic) as Hp by apply rewritable_total.
  destruct (rewritable status headers) as [r|why|] eqn:Er; [|exists None; split; [done|by exists why]|done].
  destruct (relaxed_headers headers (hr_source rules) Hv' Hw Hb Hv) as (inject & headers' & -> & Hother & Hrel & Hinj).
  cbn [mbind Res_bind]. eexists. split; [done|]. cbn.
  set (cut := remove headers' CONTENT_LENGTH).
  set (final := if bool_decide (rw_coding r = Identity) then cut else remove cut CONTENT_ENCODING).
  assert (forall name, name <> CONTENT_LENGTH -> name <> CONTENT_ENCODING -> get_all final name = get_all headers' name) as Hkeep.
  { intros name Hn1 Hn2. subst final cut. case_bool_decide; rewrite ?get_all_remove, ?(bool_decide_false (CONTENT_ENCODING = name)),
      ?(bool_decide_false (CONTENT_LENGTH = name)) by congruence; done. }
  split_and!.
  - done.
  - subst final cut. case_bool_decide; rewrite !get_all_remove; [by rewrite bool_decide_true|].
    rewrite bool_decide_false by done. by rewrite bool_decide_true.
  - intros Hne. subst final. rewrite bool_decide_false by done. by rewrite get_all_remove, bool_decide_true.
  - intros name Hn. rewrite Hkeep by set_solver. apply Hother. set_solver.
  - by rewrite Hkeep.
  - by rewrite Hkeep.
Qed.

(** Samples: one encoding, every selector parses, a digest of one byte. *)
Definition sample_encodings : Encodings unit := {| utf_8 := tt; for_label _ := None |}.
Definition sample_styling : Styling :=
  {| Selector := bytes; parse_selector s := Some s; sha256 _ := [7]; base64 bs := (fun _ => 66) <$> bs |}.

#[global] Instance sample_styling_laws : @StylingLaws sample_styling.
Proof.
  split; cbn; [|by intros []|done]. intros bs. apply Forall_fmap, Forall_forall. intros b _. unfold base64_char. cbn. lia.
Qed.

Definition sample_response : gmap bytes (list bytes) :=
  <[CONTENT_TYPE := [text_of "text/html"]]> (<[CONTENT_ENCODING := [text_of "gzip"]]> (<[CONTENT_LENGTH := [text_of "9"]]>
  {[ CSP := [text_of "style-src 'self'"; text_of "img-src *"] ]})).

Definition sample_rules : @HidingRules sample_styling :=
  mkHidingRules sample_styling (text_of "#x,.ad") (text_of "#x,.ad{display:none!important}") (text_of "'sha256-B'") 2.

Lemma apply_consistent_witness :
  exists applied,
    @Rewriting_apply _ _ sample_header_map sample_encodings sample_styling (Some sample_rules) 200 sample_response = Ok applied /\
    match applied with
    | Some (headers', _, inject) =>
        @get_all _ sample_header_map headers' CONTENT_ENCODING = [] /\
        inject = forallb (fun policy => allows policy (hr_source sample_rules)) (@get_all _ sample_header_map headers' CSP)
    | None => False
    end.
Proof.
  destruct (@apply_consistent _ _ sample_header_map sample_header_map_laws sample_encodings sample_styling sample_styling_laws
    [text_of ".ad"; text_of "#x"; text_of ".ad"] [text_of "#x"; text_of ".ad"] sample_rules 200 sample_response) as (_ & applied & Ha & Hm).
  - vm_compute. reflexivity.
  - intros x. set_solver.
  - by apply (bool_decide_unpack _); vm_compute.
  - exists applied. split; [exact Ha|].
    destruct applied as [[[headers' r] inject]|]; [|destruct Hm as [why Hw]; vm_compute in Hw; discriminate Hw].
    destruct Hm as (Hr & _ & Henc & _ & _ & Hinj). split; [|exact Hinj]. apply Henc. vm_compute in Hr. by injection Hr as <-.
Defined.
