(* ===== verification/Mirror.v ===== *)
(** The mirrored ClientHello of [src/intercept/mirror.rs] and the wires and allowlist of
    [src/intercept/mitm.rs]: what is read from a client's hello, the ALPN offer, the
    session and connector caches, and the refusals a handshake reports.

    BoringSSL's connectors and sessions are type parameters; its error stack is the list
    of the reasons its entries give for the SSL library. *)

From S2P Require Import Prelude Wire IpText Text Egress Demote.
From stdpp Require Import gmap.
Open Scope Z_scope.

(** * Wires *)

Inductive HttpWire := Http1 | Http2.

#[global] Instance HttpWire_eq_dec : EqDecision HttpWire.
Proof. solve_decision. Defined.

Definition Wire_ALL : list HttpWire := [Http2; Http1].

Definition identifier (wire : HttpWire) : bytes := match wire with Http1 => text_of "http/1.1" | Http2 => text_of "h2" end.

Definition from_identifier (name : bytes) : option HttpWire :=
  head (filter (fun wire => identifier wire = name) Wire_ALL).

Definition from_alpn (selected : option bytes) : HttpWire := default Http1 (selected ≫= from_identifier).

(** ** The allowlist *)

Inductive InterceptDecision := Intercept | SpliceHost.

Record InterceptPolicy := mkInterceptPolicy { ip_allow : gset bytes }.

Definition InterceptPolicy_new (hosts : list bytes) : InterceptPolicy :=
  mkInterceptPolicy (list_to_set ((fun host : bytes => to_ascii_lowercase <$> host) <$> hosts)).

Definition InterceptPolicy_decide (p : InterceptPolicy) (host : bytes) : InterceptDecision :=
  let found :=
    if existsb (fun b => (65 <=? b) && (b <=? 90)) host
    then bool_decide ((to_ascii_lowercase <$> host) ∈ ip_allow p)
    else bool_decide (host ∈ ip_allow p) in
  if (found : bool) then Intercept else SpliceHost.

(** * The hello *)

Definition EXTENSION_SERVER_NAME : Z := 0x0000.
Definition EXTENSION_SUPPORTED_GROUPS : Z := 0x000a.
Definition EXTENSION_SIGNATURE_ALGORITHMS : Z := 0x000d.
Definition EXTENSION_COMPRESS_CERTIFICATE : Z := 0x001b.
Definition EXTENSION_ALPN : Z := 0x0010.
Definition HANDSHAKE_CLIENT_HELLO : Z := 0x01.
Definition NAME_TYPE_HOST : Z := 0x00.
Definition BROTLI_ALGORITHM : Z := 2.

Definition is_grease (value : Z) : bool :=
  (Z.shiftr value 8 =? Z.land value 0xff) && (Z.land value 0xf =? 0xa).

Definition group_name (codepoint : Z) : option bytes :=
  if codepoint =? 23 then Some (text_of "P-256")
  else if codepoint =? 24 then Some (text_of "P-384")
  else if codepoint =? 25 then Some (text_of "P-521")
  else if codepoint =? 29 then Some (text_of "X25519")
  else if codepoint =? 0x0202 then Some (text_of "MLKEM1024")
  else if codepoint =? 0x11ec then Some (text_of "X25519MLKEM768")
  else if codepoint =? 0x6399 then Some (text_of "X25519Kyber768Draft00")
  else None.

Record ClientProfile := mkProfile { groups : list bytes; sigalgs : list Z; compression : list Z; grease : bool }.

#[global] Instance ClientProfile_eq_dec : EqDecision ClientProfile.
Proof. solve_decision. Defined.

Definition ClientProfile_default : ClientProfile := mkProfile [] [] [] false.

Definition ClientProfile_chrome : ClientProfile :=
  mkProfile [text_of "X25519MLKEM768"; text_of "X25519"; text_of "P-256"; text_of "P-384"]
    [0x0403; 0x0804; 0x0401; 0x0503; 0x0805; 0x0501; 0x0806; 0x0601] [BROTLI_ALGORITHM] true.

Definition compresses_certificates (p : ClientProfile) : bool := bool_decide (BROTLI_ALGORITHM ∈ compression p).

(** An [Offer] is the wires of the client's ALPN list, in its order. *)
Record Hello := mkHello { h_host : option DomainName; h_profile : ClientProfile; h_alpn : list HttpWire }.

Definition Hello_default : Hello := mkHello None ClientProfile_default [].

(** The loops below read one item per round, and an item is at least a byte. *)
Fixpoint offer_loop (fuel : nat) (reader : Reader) (wires : list HttpWire) : list HttpWire :=
  match fuel with
  | O => wires
  | S fuel =>
      match Reader_vector_u8 reader with
      | None => wires
      | Some (name, reader) =>
          let wires := match from_identifier name with
                       | Some wire => if bool_decide (wire ∈ wires) then wires else wires ++ [wire]
                       | None => wires
                       end in
          offer_loop fuel reader wires
      end
  end.

Definition Offer_read (body : bytes) : list HttpWire :=
  match Reader_vector_u16 (Reader_new body) with
  | None => []
  | Some (list_, _) => offer_loop (length list_) (Reader_new list_) []
  end.

Definition alpn_list (protocols : list bytes) : bytes :=
  protocols ≫= fun protocol => if Z.of_nat (length protocol) <=? 255 then Z.of_nat (length protocol) :: protocol else [].

Definition Offer_encode (wires : list HttpWire) : bytes := alpn_list (identifier <$> wires).

Fixpoint u16s_loop (fuel : nat) (reader : Reader) : list Z :=
  match fuel with
  | O => []
  | S fuel => match Reader_u16 reader with Some (value, reader) => value :: u16s_loop fuel reader | None => [] end
  end.

Definition u16s (body : bytes) : list Z := u16s_loop (length body) (Reader_new body).

Definition codepoints (body : bytes) : list Z :=
  u16s (match Reader_vector_u16 (Reader_new body) with Some (list_, _) => list_ | None => [] end).

Fixpoint server_name_loop (fuel : nat) (names : Reader) : option DomainName :=
  match fuel with
  | O => None
  | S fuel =>
      match Reader_u8 names with
      | None => None
      | Some (name_type, names) =>
          '(name, names) ← Reader_vector_u16 names;
          if name_type =? NAME_TYPE_HOST
          then if utf8_ok name then match DomainName_new name with Ok host => Some host | _ => None end else None
          else server_name_loop fuel names
      end
  end.

Definition server_name (body : bytes) : option DomainName :=
  rest ← get_from body 2; server_name_loop (length rest) (Reader_new rest).

(** The body of the extension loop. *)
Definition read_extension (hello : Hello) (kind : Z) (body : bytes) : Hello :=
  let '(mkHello host (mkProfile gs ss cs g) alpn) := hello in
  let g := g || is_grease kind in
  if kind =? EXTENSION_SERVER_NAME then mkHello (server_name body) (mkProfile gs ss cs g) alpn
  else if kind =? EXTENSION_SUPPORTED_GROUPS then
    mkHello host (mkProfile (omap group_name (codepoints body)) ss cs (g || existsb is_grease (codepoints body))) alpn
  else if kind =? EXTENSION_SIGNATURE_ALGORITHMS then
    mkHello host (mkProfile gs (filter (fun id => is_grease id = false) (codepoints body)) cs (g || existsb is_grease (codepoints body))) alpn
  else if kind =? EXTENSION_ALPN then mkHello host (mkProfile gs ss cs g) (Offer_read body)
  else if kind =? EXTENSION_COMPRESS_CERTIFICATE then
    match Reader_vector_u8 (Reader_new body) with
    | Some (list_, _) => mkHello host (mkProfile gs ss (u16s list_) g) alpn
    | None => mkHello host (mkProfile gs ss cs g) alpn
    end
  else mkHello host (mkProfile gs ss cs g) alpn.

Fixpoint extensions_loop (fuel : nat) (reader : Reader) (hello : Hello) : Hello :=
  match fuel with
  | O => hello
  | S fuel =>
      match Reader_u16 reader with
      | None => hello
      | Some (kind, reader) =>
          match Reader_vector_u16 reader with
          | None => hello
          | Some (body, reader) => extensions_loop fuel reader (read_extension hello kind body)
          end
      end
  end.

Definition hello_extensions (body : bytes) : option bytes :=
  let cursor := Reader_new body in
  '(_, cursor) ← Reader_take cursor 2;
  '(_, cursor) ← Reader_take cursor 32;
  '(_, cursor) ← Reader_vector_u8 cursor;
  '(_, cursor) ← Reader_vector_u16 cursor;
  '(_, cursor) ← Reader_vector_u8 cursor;
  '(extensions, _) ← Reader_vector_u16 cursor;
  Some extensions.

Definition read_hello (record : bytes) : Hello :=
  match Reader_u8 (Reader_new record) with
  | Some (kind, reader) =>
      if negb (kind =? HANDSHAKE_CLIENT_HELLO) then Hello_default else
      match '(length, reader) ← Reader_u24 reader; Reader_take reader (Z.to_nat length) with
      | None => Hello_default
      | Some (body, _) =>
          match hello_extensions body with
          | None => Hello_default
          | Some extensions => extensions_loop (length extensions) (Reader_new extensions) Hello_default
          end
      end
  | None => Hello_default
  end.

(** * Refusals *)

Definition REASON_CERTIFICATE_VERIFY_FAILED : Z := 125.
Definition REASON_NO_APPLICATION_PROTOCOL : Z := 307.
Definition REASON_ALERT_OFFSET : Z := 1000.

Definition refusal_of (reason : Z) : option Refusal :=
  if reason =? REASON_CERTIFICATE_VERIFY_FAILED then Some Untrusted
  else if reason =? REASON_NO_APPLICATION_PROTOCOL then Some NoProtocol
  else if (REASON_ALERT_OFFSET <=? reason) && (reason <? REASON_ALERT_OFFSET + 256) then Some (Alert (reason - REASON_ALERT_OFFSET))
  else None.

(** The stack's entries, each its reason when it is the SSL library's. *)
Definition refusal (stack : list (option Z)) : option Refusal := head (omap (fun reason => reason ≫= refusal_of) stack).

(** * Caches *)

Definition MAX_CACHED_CONNECTORS : nat := 16.
Definition MAX_SESSIONS : nat := 256.

Section Caches.
Context {SslSession SslConnector : Type}.

(** The new-session callback. *)
Definition remember_session (sessions : gmap bytes SslSession) (host : bytes) (session : SslSession) : gmap bytes SslSession :=
  <[host := session]> (if (MAX_SESSIONS <=? size sessions)%nat then ∅ else sessions).

Definition ConnectorKey : Type := (list bytes * list Z * list Z * bool) * bytes.

Definition connector_key (profile : ClientProfile) (alpn : bytes) : ConnectorKey :=
  ((groups profile, sigalgs profile, compression profile, grease profile), alpn).

(** The two locked parts of [connector], before and after the build. *)
Definition connector_cached (connectors : gmap ConnectorKey SslConnector) (profile : ClientProfile) (alpn : bytes) : option SslConnector :=
  connectors !! connector_key profile alpn.

Definition connector_store (connectors : gmap ConnectorKey SslConnector) (profile : ClientProfile) (alpn : bytes) (built : SslConnector)
  : SslConnector * gmap ConnectorKey SslConnector :=
  let connectors := if (MAX_CACHED_CONNECTORS <=? size connectors)%nat then ∅ else connectors in
  match connectors !! connector_key profile alpn with
  | Some existing => (existing, connectors)
  | None => (built, <[connector_key profile alpn := built]> connectors)
  end.
End Caches.

(** * A hello on the wire *)

Definition vec8 (bs : bytes) : bytes := be_bytes 1 (Z.of_nat (length bs)) ++ bs.
Definition vec16 (bs : bytes) : bytes := be_bytes 2 (Z.of_nat (length bs)) ++ bs.
Definition u16_list (values : list Z) : bytes := values ≫= be_bytes 2.

Inductive Extension :=
| ServerName (host : DomainName)
| SupportedGroups (codes : list Z)
| SignatureAlgorithms (codes : list Z)
| Alpn (names : list bytes)
| CompressCertificate (codes : list Z)
| OtherExtension (kind : Z) (body : bytes).

Definition extension_kind (e : Extension) : Z :=
  match e with
  | ServerName _ => EXTENSION_SERVER_NAME
  | SupportedGroups _ => EXTENSION_SUPPORTED_GROUPS
  | SignatureAlgorithms _ => EXTENSION_SIGNATURE_ALGORITHMS
  | Alpn _ => EXTENSION_ALPN
  | CompressCertificate _ => EXTENSION_COMPRESS_CERTIFICATE
  | OtherExtension kind _ => kind
  end.

Definition extension_body (e : Extension) : bytes :=
  match e with
  | ServerName host => vec16 (NAME_TYPE_HOST :: vec16 host)
  | SupportedGroups codes | SignatureAlgorithms codes => vec16 (u16_list codes)
  | Alpn names => vec16 (names ≫= vec8)
  | CompressCertificate codes => vec8 (u16_list codes)
  | OtherExtension _ body => body
  end.

Definition known_kinds : list Z :=
  [EXTENSION_SERVER_NAME; EXTENSION_SUPPORTED_GROUPS; EXTENSION_SIGNATURE_ALGORITHMS; EXTENSION_ALPN; EXTENSION_COMPRESS_CERTIFICATE].

(** What fits the fields of the wire. *)
Definition extension_ok (e : Extension) : Prop :=
  (Z.of_nat (length (extension_body e)) <= 0xffff) /\
  match e with
  | ServerName host => domain_ok host
  | SupportedGroups codes | SignatureAlgorithms codes => Forall u16_ok codes
  | Alpn names => Forall (fun name => (length name <= 255)%nat) names
  | CompressCertificate codes => Forall u16_ok codes /\ (length codes <= 127)%nat
  | OtherExtension kind _ => u16_ok kind /\ kind ∉ known_kinds
  end.

(** What an extension tells: a later one of a kind replaces an earlier one, and GREASE
    anywhere counts. *)
Definition tells (hello : Hello) (e : Extension) : Hello :=
  let '(mkHello host (mkProfile gs ss cs g) alpn) := hello in
  match e with
  | ServerName name => mkHello (Some name) (mkProfile gs ss cs g) alpn
  | SupportedGroups codes => mkHello host (mkProfile (omap group_name codes) ss cs (g || existsb is_grease codes)) alpn
  | SignatureAlgorithms codes =>
      mkHello host (mkProfile gs (filter (fun id => is_grease id = false) codes) cs (g || existsb is_grease codes)) alpn
  | Alpn names => mkHello host (mkProfile gs ss cs g) (reverse (remove_dups (reverse (omap from_identifier names))))
  | CompressCertificate codes => mkHello host (mkProfile gs ss codes g) alpn
  | OtherExtension kind _ => mkHello host (mkProfile gs ss cs (g || is_grease kind)) alpn
  end.

Record HelloWire := mkHelloWire {
  hw_version : bytes; hw_random : bytes; hw_session : bytes; hw_suites : bytes; hw_methods : bytes;
  hw_extensions : list Extension;
}.

Definition extensions_wire (es : list Extension) : bytes :=
  es ≫= fun e => be_bytes 2 (extension_kind e) ++ vec16 (extension_body e).

Definition hello_body (h : HelloWire) : bytes :=
  hw_version h ++ hw_random h ++ vec8 (hw_session h) ++ vec16 (hw_suites h) ++ vec8 (hw_methods h) ++
  vec16 (extensions_wire (hw_extensions h)).

Definition hello_wire (h : HelloWire) : bytes :=
  HANDSHAKE_CLIENT_HELLO :: be_bytes 3 (Z.of_nat (length (hello_body h))) ++ hello_body h.

Record hello_ok (h : HelloWire) : Prop := {
  ho_version : length (hw_version h) = 2%nat;
  ho_random : length (hw_random h) = 32%nat;
  ho_session : (length (hw_session h) <= 255)%nat;
  ho_suites : Z.of_nat (length (hw_suites h)) <= 0xffff;
  ho_methods : (length (hw_methods h) <= 255)%nat;
  ho_extensions : Forall extension_ok (hw_extensions h);
  ho_length : Z.of_nat (length (extensions_wire (hw_extensions h))) <= 0xffff;
}.

(** ** Reading what was written *)

(** A cursor and the bytes before it. *)
Definition at_rest (r : Reader) (rest : bytes) : Prop := reader_ok r /\ Reader_rest r = rest.

Lemma at_rest_new bs : at_rest (Reader_new bs) bs.
Proof. split; [unfold reader_ok; cbn; lia|]. unfold Reader_rest. cbn. apply drop_0. Qed.

Lemma take_rest r xs post : at_rest r (xs ++ post) -> exists r', Reader_take r (length xs) = Some (xs, r') /\ at_rest r' post.
Proof.
  intros [Hok Hr]. unfold Reader_take. rewrite Hr. unfold get_to. rewrite (proj2 (Nat.leb_le _ _)) by (rewrite length_app; lia).
  cbn. rewrite take_app_length. eexists. split; [done|]. unfold at_rest, Reader_rest, reader_ok in *. cbn.
  assert (length (r_bytes r) - r_at r = length (xs ++ post))%nat as Hl by by rewrite <- Hr, length_drop.
  rewrite length_app in Hl. split; [lia|]. by rewrite <- drop_drop, Hr, drop_app_length.
Qed.

Lemma uint_rest n v r post : 0 <= v < 2 ^ (8 * Z.of_nat n) -> at_rest r (be_bytes n v ++ post) ->
  exists r', Reader_uint n r = Some (v, r') /\ at_rest r' post.
Proof.
  intros Hv Hr. destruct (take_rest _ _ _ Hr) as (r' & Ht & Hr'). rewrite length_be_bytes in Ht. exists r'. split; [|done].
  unfold Reader_uint. change (Reader_array n) with (fun r => Reader_take r n). cbn beta. rewrite Ht. cbn.
  by rewrite be_value_be_bytes_small.
Qed.

Lemma vec8_rest bs r post : (length bs <= 255)%nat -> at_rest r (vec8 bs ++ post) ->
  exists r', Reader_vector_u8 r = Some (bs, r') /\ at_rest r' post.
Proof.
  unfold vec8. rewrite <- app_assoc. intros Hl Hr. apply uint_rest in Hr as (r' & Hu & Hr'); [|change (2 ^ (8 * Z.of_nat 1)) with 256; lia].
  destruct (take_rest _ _ _ Hr') as (r'' & Ht & Hr''). exists r''. split; [|done]. unfold Reader_vector_u8, Reader_u8. rewrite Hu. cbn.
  by rewrite Nat2Z.id.
Qed.

Lemma vec16_rest bs r post : Z.of_nat (length bs) <= 0xffff -> at_rest r (vec16 bs ++ post) ->
  exists r', Reader_vector_u16 r = Some (bs, r') /\ at_rest r' post.
Proof.
  unfold vec16. rewrite <- app_assoc. intros Hl Hr. apply uint_rest in Hr as (r' & Hu & Hr'); [|change (2 ^ (8 * Z.of_nat 2)) with 65536; lia].
  destruct (take_rest _ _ _ Hr') as (r'' & Ht & Hr''). exists r''. split; [|done]. unfold Reader_vector_u16, Reader_u16. rewrite Hu. cbn.
  by rewrite Nat2Z.id.
Qed.

(** Nothing left to read. *)
Lemma uint_end n r : (0 < n)%nat -> at_rest r [] -> Reader_uint n r = None.
Proof.
  intros Hn [Hok Hr]. unfold Reader_uint. change (Reader_array n) with (fun r => Reader_take r n). cbn beta.
  unfold Reader_take. rewrite Hr. unfold get_to. by rewrite (proj2 (Nat.leb_gt n (length []))) by (cbn; lia).
Qed.

Lemma u16s_loop_wire values : forall fuel r, Forall u16_ok values -> (length (u16_list values) <= fuel)%nat ->
  at_rest r (u16_list values) -> u16s_loop fuel r = values.
Proof.
  induction values as [|v values IH]; intros fuel r Hv Hf Hr.
  - destruct fuel; [done|]. cbn [u16s_loop]. unfold Reader_u16. by rewrite uint_end by (done || lia).
  - apply Forall_cons in Hv as [Hv Hvs]. change (u16_list (v :: values)) with (be_bytes 2 v ++ u16_list values) in *.
    rewrite length_app, length_be_bytes in Hf. destruct fuel as [|fuel]; [lia|]. cbn [u16s_loop].
    apply uint_rest in Hr as (r' & Hu & Hr'); [|exact Hv]. unfold Reader_u16. rewrite Hu. f_equal. apply IH; [done|lia|done].
Qed.

Lemma u16s_wire values : Forall u16_ok values -> u16s (u16_list values) = values.
Proof. intros Hv. apply u16s_loop_wire; [done|lia|apply at_rest_new]. Qed.

Lemma vec16_new bs : Z.of_nat (length bs) <= 0xffff -> exists r, Reader_vector_u16 (Reader_new (vec16 bs)) = Some (bs, r).
Proof.
  intros Hl. destruct (vec16_rest bs (Reader_new (vec16 bs)) []) as (r & Hr & _); [done|rewrite app_nil_r; apply at_rest_new|].
  by exists r.
Qed.

Lemma vec8_new bs : (length bs <= 255)%nat -> exists r, Reader_vector_u8 (Reader_new (vec8 bs)) = Some (bs, r).
Proof.
  intros Hl. destruct (vec8_rest bs (Reader_new (vec8 bs)) []) as (r & Hr & _); [done|rewrite app_nil_r; apply at_rest_new|].
  by exists r.
Qed.

Lemma codepoints_wire values :
  Forall u16_ok values -> Z.of_nat (length (u16_list values)) <= 0xffff -> codepoints (vec16 (u16_list values)) = values.
Proof. intros Hv Hl. unfold codepoints. destruct (vec16_new _ Hl) as [r ->]. by apply u16s_wire. Qed.

(** ALPN names keep their first places. *)
Definition firsts (wires : list HttpWire) : list HttpWire := reverse (remove_dups (reverse wires)).

Lemma firsts_snoc wires wire : firsts (wires ++ [wire]) = if bool_decide (wire ∈ firsts wires) then firsts wires else firsts wires ++ [wire].
Proof.
  unfold firsts. rewrite reverse_snoc. cbn [remove_dups]. case_decide as Hd.
  - rewrite bool_decide_true; [done|]. by rewrite elem_of_reverse, elem_of_remove_dups.
  - rewrite bool_decide_false by by rewrite elem_of_reverse, elem_of_remove_dups. by rewrite reverse_cons.
Qed.

Lemma offer_loop_wire names : forall fuel r wires, Forall (fun name => (length name <= 255)%nat) names ->
  (length (names ≫= vec8) <= fuel)%nat -> at_rest r (names ≫= vec8) ->
  offer_loop fuel r (firsts wires) = firsts (wires ++ omap from_identifier names).
Proof.
  induction names as [|name names IH]; intros fuel r wires Hn Hf Hr.
  - rewrite app_nil_r. destruct fuel; [done|]. cbn [offer_loop]. unfold Reader_vector_u8, Reader_u8. by rewrite uint_end by (done || lia).
  - apply Forall_cons in Hn as [Hn Hns]. change ((name :: names) ≫= vec8) with (vec8 name ++ (names ≫= vec8)) in *.
    assert (length (vec8 name) = S (length name)) as Hv by (unfold vec8; by rewrite length_app, length_be_bytes).
    rewrite length_app, Hv in Hf. destruct fuel as [|fuel]; [lia|]. cbn [offer_loop].
    apply vec8_rest in Hr as (r' & -> & Hr'); [|done]. cbn [omap list_omap]. destruct (from_identifier name) as [wire|].
    + rewrite <- firsts_snoc, (IH fuel r') by (done || lia). by rewrite <- app_assoc.
    + apply IH; (done || lia).
Qed.

Lemma Offer_read_wire names : Forall (fun name => (length name <= 255)%nat) names -> Z.of_nat (length (names ≫= vec8)) <= 0xffff ->
  Offer_read (vec16 (names ≫= vec8)) = firsts (omap from_identifier names).
Proof.
  intros Hn Hl. unfold Offer_read. destruct (vec16_new _ Hl) as [r ->]. apply (offer_loop_wire names _ _ []); [done|lia|apply at_rest_new].
Qed.

Lemma server_name_wire host : domain_ok host -> server_name (vec16 (NAME_TYPE_HOST :: vec16 host)) = Some host.
Proof.
  intros Hd. unfold server_name, vec16 at 1. unfold get_from. rewrite (proj2 (Nat.leb_le _ _)) by (rewrite length_app, length_be_bytes; lia).
  cbn [mbind option_bind]. rewrite drop_app_length' by by rewrite length_be_bytes. cbn [length server_name_loop].
  pose proof (at_rest_new (NAME_TYPE_HOST :: vec16 host)) as Hr. change (NAME_TYPE_HOST :: vec16 host) with (be_bytes 1 NAME_TYPE_HOST ++ vec16 host) in *.
  apply uint_rest in Hr as (r & Hu & Hr); [|done]. unfold Reader_u8. rewrite Hu.
  rewrite <- (app_nil_r (vec16 host)) in Hr. apply vec16_rest in Hr as (r' & -> & _); [|destruct Hd; lia]. cbn [mbind option_bind].
  by rewrite (dn_utf8 _ Hd), DomainName_new_fixed.
Qed.

Lemma known_not_grease : Forall (fun kind => is_grease kind = false) known_kinds.
Proof. vm_compute. repeat constructor. Qed.

Lemma vec16_bound bs : Z.of_nat (length (vec16 bs)) <= 0xffff -> Z.of_nat (length bs) <= 0xffff.
Proof. unfold vec16. rewrite length_app, length_be_bytes. lia. Qed.

Lemma read_extension_tells hello e : extension_ok e -> read_extension hello (extension_kind e) (extension_body e) = tells hello e.
Proof.
  intros [Hl He]. destruct hello as [host [gs ss cs g] alpn]. destruct e as [name|codes|codes|names|codes|kind body]; cbn [extension_kind extension_body] in *.
  - cbn [read_extension tells]. by rewrite server_name_wire, orb_false_r.
  - apply vec16_bound in Hl. cbn [read_extension tells]. by rewrite codepoints_wire, orb_false_r.
  - apply vec16_bound in Hl. cbn [read_extension tells]. by rewrite codepoints_wire, orb_false_r.
  - apply vec16_bound in Hl. cbn [read_extension tells]. by rewrite Offer_read_wire, orb_false_r.
  - destruct He as [He Hn]. cbn [read_extension tells]. destruct (vec8_new (u16_list codes)) as [r Hr].
    { clear -Hn. assert (length (u16_list codes) = 2 * length codes)%nat as ->; [|lia].
      clear Hn. induction codes as [|c codes IH]; [done|]. change (u16_list (c :: codes)) with (be_bytes 2 c ++ u16_list codes).
      rewrite length_app, length_be_bytes, IH. cbn [length]. lia. }
    rewrite Hr. by rewrite u16s_wire, orb_false_r.
  - destruct He as [_ Hk]. unfold known_kinds in Hk. rewrite !not_elem_of_cons in Hk. destruct Hk as (H1 & H2 & H3 & H4 & H5 & _).
    cbn [read_extension tells]. by rewrite !(proj2 (Z.eqb_neq kind _)) by done.
Qed.

Lemma extensions_loop_wire es : forall fuel r hello, Forall extension_ok es -> (length (extensions_wire es) <= fuel)%nat ->
  at_rest r (extensions_wire es) -> extensions_loop fuel r hello = foldl tells hello es.
Proof.
  induction es as [|e es IH]; intros fuel r hello He Hf Hr.
  - destruct fuel; [done|]. cbn [extensions_loop]. unfold Reader_u16. by rewrite uint_end by (done || lia).
  - apply Forall_cons in He as [He Hes].
    change (extensions_wire (e :: es)) with ((be_bytes 2 (extension_kind e) ++ vec16 (extension_body e)) ++ extensions_wire es) in *.
    rewrite !length_app, length_be_bytes in Hf. destruct fuel as [|fuel]; [lia|]. cbn [extensions_loop]. rewrite <- app_assoc in Hr.
    apply uint_rest in Hr as (r' & Hu & Hr').
    2:{ destruct He as [_ He]. destruct e; cbn; try (vm_compute; split; [discriminate|reflexivity]). apply He. }
    unfold Reader_u16. rewrite Hu. apply vec16_rest in Hr' as (r'' & -> & Hr''); [|apply He].
    rewrite read_extension_tells by done. cbn [foldl]. apply IH; [done|lia|done].
Qed.

Lemma hello_extensions_wire h : hello_ok h -> hello_extensions (hello_body h) = Some (extensions_wire (hw_extensions h)).
Proof.
  intros [Hv Hr Hs Hc Hm _ Hl]. unfold hello_extensions, hello_body. pose proof (at_rest_new (hello_body h)) as H. unfold hello_body in H.
  apply take_rest in H as (r1 & H1 & H). rewrite Hv in H1. rewrite H1. cbn [mbind option_bind].
  apply take_rest in H as (r2 & H2 & H). rewrite Hr in H2. rewrite H2. cbn [mbind option_bind].
  apply vec8_rest in H as (r3 & -> & H); [|done]. cbn [mbind option_bind].
  apply vec16_rest in H as (r4 & -> & H); [|done]. cbn [mbind option_bind].
  apply vec8_rest in H as (r5 & -> & H); [|done]. cbn [mbind option_bind].
  rewrite <- (app_nil_r (vec16 (extensions_wire _))) in H. by apply vec16_rest in H as (r6 & -> & H).
Qed.

Lemma hello_body_bound h : hello_ok h -> Z.of_nat (length (hello_body h)) < 2 ^ 24.
Proof.
  intros [Hv Hr Hs Hc Hm _ Hl]. unfold hello_body, vec8, vec16. rewrite !length_app, !length_be_bytes.
  change (2 ^ 24) with 16777216. lia.
Qed.

Lemma uint_short n r rest : at_rest r rest -> (length rest < n)%nat -> Reader_uint n r = None.
Proof.
  intros [Hok Hr] Hl. unfold Reader_uint. change (Reader_array n) with (fun r => Reader_take r n). cbn beta.
  unfold Reader_take. rewrite Hr. unfold get_to. by rewrite (proj2 (Nat.leb_gt _ _)).
Qed.

Lemma take_short n r rest : at_rest r rest -> (length rest < n)%nat -> Reader_take r n = None.
Proof. intros [Hok Hr] Hl. unfold Reader_take. rewrite Hr. unfold get_to. by rewrite (proj2 (Nat.leb_gt _ _)). Qed.

(** A record that stops before the length its header gives. *)
Lemma read_hello_short h n : hello_ok h -> (n < length (hello_wire h))%nat -> read_hello (take n (hello_wire h)) = Hello_default.
Proof.
  intros Hok Hn. unfold hello_wire in *. destruct n as [|n]; [done|]. cbn [take length] in *. unfold read_hello, Reader_u8.
  pose proof (at_rest_new (HANDSHAKE_CLIENT_HELLO :: take n (be_bytes 3 (Z.of_nat (length (hello_body h))) ++ hello_body h))) as Hr.
  change (HANDSHAKE_CLIENT_HELLO :: ?l) with (be_bytes 1 HANDSHAKE_CLIENT_HELLO ++ l) in Hr at 2.
  apply uint_rest in Hr as (r & -> & Hr); [|done]. cbn [negb Z.eqb Pos.eqb HANDSHAKE_CLIENT_HELLO]. unfold Reader_u24.
  rewrite length_app, length_be_bytes in Hn. destruct (decide (n < 3)%nat) as [Hlt|Hge].
  - rewrite (uint_short 3 r) with (1 := Hr); [done|]. rewrite length_take. lia.
  - rewrite take_app_ge in Hr by (rewrite length_be_bytes; lia). rewrite length_be_bytes in Hr.
    apply uint_rest in Hr as (r' & -> & Hr'); [|split; [lia|]; apply (hello_body_bound h Hok)]. cbn [mbind option_bind].
    rewrite (take_short _ r') with (1 := Hr'); [done|]. rewrite length_take. lia.
Qed.

Lemma read_hello_whole h more : hello_ok h -> read_hello (hello_wire h ++ more) = foldl tells Hello_default (hw_extensions h).
Proof.
  intros Hok. unfold read_hello, hello_wire, Reader_u8. pose proof (at_rest_new (hello_wire h ++ more)) as Hr. unfold hello_wire in Hr.
  cbn [app] in *. rewrite <- app_assoc in *.
  change (HANDSHAKE_CLIENT_HELLO :: ?l) with (be_bytes 1 HANDSHAKE_CLIENT_HELLO ++ l) in Hr at 2.
  apply uint_rest in Hr as (r & -> & Hr); [|done]. cbn [negb Z.eqb Pos.eqb HANDSHAKE_CLIENT_HELLO]. unfold Reader_u24.
  apply uint_rest in Hr as (r' & -> & Hr'); [|split; [lia|]; apply (hello_body_bound h Hok)]. cbn [mbind option_bind].
  destruct (take_rest _ _ _ Hr') as (r'' & Ht & _). rewrite Nat2Z.id, Ht, hello_extensions_wire by done.
  apply extensions_loop_wire; [apply Hok|lia|apply at_rest_new].
Qed.

(** C29: A ClientHello is read exactly.  Whatever follows it in the buffer, the identity read
    from any well-formed hello is what its extensions tell, in their order: the host of
    the last server name, the known groups, the signature algorithms and compression
    codes of the last list of each, the wires of the last ALPN list without repeats, and
    GREASE seen in any extension type or list.  Of a hello cut anywhere nothing is read:
    the identity is empty, never a part of one. *)
Theorem hello_mirrors h more n :
  hello_ok h -> (n < length (hello_wire h))%nat ->
  read_hello (hello_wire h ++ more) = foldl tells Hello_default (hw_extensions h) /\
  read_hello (take n (hello_wire h)) = Hello_default.
Proof. intros Hok Hn. split; [by apply read_hello_whole|by apply read_hello_short]. Qed.

Definition sample_hello : HelloWire :=
  mkHelloWire [3; 3] (replicate 32 9) [1; 2] [0x13; 1] [0]
    [OtherExtension 0x3a3a []; ServerName (text_of "a.example"); SupportedGroups [0x2a2a; 29; 23; 4588];
     Alpn [text_of "h3"; text_of "h2"; text_of "http/1.1"; text_of "h2"]; SignatureAlgorithms [0x0403]; CompressCertificate [2]].

Lemma sample_hello_ok : hello_ok sample_hello.
Proof.
  split; [done|done|cbn; lia|cbn; lia|cbn; lia| |vm_compute; discriminate].
  apply Forall_cons_2; [|apply Forall_cons_2; [|apply Forall_cons_2; [|apply Forall_cons_2; [|apply Forall_cons_2; [|apply Forall_cons_2; [|by apply Forall_nil_2]]]]]];
    (split; [vm_compute; discriminate|]).
  - split; [unfold uint_ok; lia|]. unfold known_kinds. by apply (bool_decide_unpack _); vm_compute.
  - split; [vm_compute; lia| |reflexivity|by apply (bool_decide_unpack _); vm_compute|].
    + vm_compute. repeat (apply Forall_cons_2; [split; [discriminate|reflexivity]|]). by apply Forall_nil_2.
    + repeat (apply Forall_cons_2; [reflexivity|]). by apply Forall_nil_2.
  - repeat (apply Forall_cons_2; [unfold uint_ok; lia|]). by apply Forall_nil_2.
  - repeat (apply Forall_cons_2; [vm_compute; lia|]). by apply Forall_nil_2.
  - repeat (apply Forall_cons_2; [unfold uint_ok; lia|]). by apply Forall_nil_2.
  - split; [|cbn; lia]. repeat (apply Forall_cons_2; [unfold uint_ok; lia|]). by apply Forall_nil_2.
Qed.

Lemma hello_mirrors_witness :
  read_hello (hello_wire sample_hello ++ [7]) =
    mkHello (Some (text_of "a.example"))
      (mkProfile [text_of "X25519"; text_of "P-256"; text_of "X25519MLKEM768"] [0x0403] [2] true) [Http2; Http1] /\
  read_hello (take 60 (hello_wire sample_hello)) = Hello_default.
Proof. apply (hello_mirrors sample_hello [7] 60 sample_hello_ok). vm_compute. lia. Defined.

(** GREASE is exactly the sixteen reserved values. *)
Lemma grease_exact value : u16_ok value ->
  is_grease value = true <-> exists nibble, 0 <= nibble < 16 /\ value = 0x0a0a + nibble * 0x1010.
Proof.
  intros Hv. unfold uint_ok in Hv. unfold is_grease. change 0xff with (Z.ones 8). change 0xf with (Z.ones 4).
  rewrite !Z.land_ones, Z.shiftr_div_pow2, andb_true_iff, !Z.eqb_eq by lia.
  change (2 ^ 8) with 256. change (2 ^ 4) with 16. change (2 ^ 16) with 65536 in Hv. split.
  - intros [H1 H2]. exists (value / 256 / 16). zdiv_lia.
  - intros (nibble & Hn & ->). zdiv_lia.
Qed.

Lemma remove_dups_id (wires : list HttpWire) : NoDup wires -> remove_dups wires = wires.
Proof. induction 1 as [|w wires Hw Hnd IH]; [done|]. cbn [remove_dups]. case_decide; [done|]. by rewrite IH. Qed.

(** An encoded offer is the list of its identifiers, each behind its length. *)
Lemma Offer_encode_wire wires : Offer_encode wires = (identifier <$> wires) ≫= vec8.
Proof.
  unfold Offer_encode, alpn_list. induction wires as [|w wires IH]; [done|]. rewrite fmap_cons.
  change ((identifier w :: (identifier <$> wires)) ≫= vec8) with (vec8 (identifier w) ++ ((identifier <$> wires) ≫= vec8)).
  rewrite <- IH. by destruct w.
Qed.

(** An encoded offer reads back. *)
Lemma offer_roundtrip wires : NoDup wires -> Offer_read (vec16 (Offer_encode wires)) = wires.
Proof.
  intros Hnd. rewrite Offer_encode_wire.
  assert (length wires <= 2)%nat as Hlen.
  { change 2%nat with (length [Http1; Http2]). apply submseteq_length, NoDup_submseteq; [done|]. intros [] _; set_solver. }
  rewrite Offer_read_wire.
  - assert (omap from_identifier (identifier <$> wires) = wires) as ->.
    { clear -wires. induction wires as [|w wires IH]; [done|]. rewrite fmap_cons. cbn [omap list_omap].
      by destruct w; cbn; f_equal. }
    unfold firsts. rewrite remove_dups_id by (by rewrite reverse_Permutation). apply reverse_involutive.
  - apply Forall_fmap, Forall_forall. intros [] _; cbn; lia.
  - destruct wires as [|[] [|[] [|]]]; cbn in *; lia.
Qed.

(** The allowlist ignores case and nothing else. *)
Lemma decide_exact hosts host :
  InterceptPolicy_decide (InterceptPolicy_new hosts) host = Intercept <->
  exists listed, listed ∈ hosts /\ eq_ignore_ascii_case host listed = true.
Proof.
  assert (InterceptPolicy_decide (InterceptPolicy_new hosts) host =
    if bool_decide ((to_ascii_lowercase <$> host) ∈ ip_allow (InterceptPolicy_new hosts)) then Intercept else SpliceHost) as ->.
  { unfold InterceptPolicy_decide. destruct (existsb _ host) eqn:E; [done|]. assert ((to_ascii_lowercase <$> host) = host) as ->; [|done].
    clear -E. induction host as [|b host IH]; [done|]. cbn [existsb] in E. apply orb_false_iff in E as [Eb E].
    rewrite fmap_cons, IH by done. unfold to_ascii_lowercase. by rewrite Eb. }
  unfold eq_ignore_ascii_case. case_bool_decide as Hin; cbn in Hin; rewrite elem_of_list_to_set, list_elem_of_fmap in Hin; split; try done.
  - intros _. destruct Hin as (listed & He & Hl). exists listed. by rewrite bool_decide_true.
  - intros (listed & Hl & He%bool_decide_eq_true). destruct Hin. by exists listed.
Qed.

(** The session cache keeps at most its ceiling of hosts, but a session issued when it
    is full, for a host it already holds as well as for a new one, leaves that session
    alone: every other host's is forgotten, not the oldest only. *)
Theorem full_sessions_forget {SslSession : Type} (sessions : gmap bytes SslSession) host session :
  size sessions = MAX_SESSIONS ->
  remember_session sessions host session !! host = Some session /\
  (forall other, other <> host -> remember_session sessions host session !! other = None) /\
  size (remember_session sessions host session) = 1%nat.
Proof.
  intros Hs. unfold remember_session. rewrite Hs. cbn [Nat.leb MAX_SESSIONS]. split_and!.
  - by rewrite lookup_insert_eq.
  - intros other Hne. by rewrite lookup_insert_ne.
  - by rewrite map_size_insert_None.
Qed.

(** The cache never passes its ceiling. *)
Lemma sessions_bounded {SslSession : Type} (sessions : gmap bytes SslSession) host session :
  (size sessions <= MAX_SESSIONS)%nat -> (size (remember_session sessions host session) <= MAX_SESSIONS)%nat.
Proof.
  intros Hs. unfold remember_session. rewrite map_size_insert. destruct (MAX_SESSIONS <=? size sessions)%nat eqn:E; reflect.
  - rewrite lookup_empty, map_size_empty. unfold MAX_SESSIONS. lia.
  - case_match; cbn; lia.
Qed.

Lemma full_sessions_forget_witness :
  let sessions : gmap bytes nat := list_to_map ((fun n => ([Z.of_nat n], n)) <$> seq 0 256) in
  remember_session sessions [5] 7%nat !! [6] = None.
Proof.
  refine (proj1 (proj2 (full_sessions_forget (list_to_map ((fun n => ([Z.of_nat n], n)) <$> seq 0 256)) [5] 7%nat _)) [6] _).
  - vm_compute. reflexivity.
  - discriminate.
Defined.
