(* ===== verification/Transport.v ===== *)
(** The byte streams of the proxy transports ([src/egress/transport.rs]): gRPC framing
    over HTTP/2 DATA frames, raw HTTP/2, WebSocket messages, and the HTTP Upgrade
    handshake.

    A connection's half is a script of what its polls answer: the h2 and tungstenite
    crates decide what arrives and when, and the streams here only cut and join it.  The
    reading streams share one interface ([PollRead], [ReadLaws]): the bytes a stream
    owes, which any sequence of reads delivers. *)

From S2P Require Import Prelude Wire Net Plan Pool IpText Text Egress Sansio.
Open Scope Z_scope.

(** [io::Error::other]. *)
Definition Other : ErrorKind := OtherKind 0.

(** ** The protobuf varint *)

(** Groups of seven bits, the low ones first; a [u64] has at most ten. *)
Fixpoint put_groups (fuel : nat) (value : Z) (out : bytes) : bytes :=
  match fuel with
  | O => out
  | S fuel =>
      if 0x80 <=? value then put_groups fuel (Z.shiftr value 7) (out ++ [Z.lor (wrap 8 value) 0x80])
      else out ++ [wrap 8 value]
  end.

Definition put_protobuf_varint (value : Z) (out : bytes) : bytes := put_groups 10 value out.

Fixpoint get_groups (index : nat) (value : Z) (bs : bytes) : option (Z * nat) :=
  match bs with
  | [] => None
  | byte :: bs =>
      if (10 <=? index)%nat then None else
      let value := Z.lor value (wrap 64 (Z.shiftl (Z.land byte 0x7f) (Z.of_nat (index * 7)))) in
      if Z.land byte 0x80 =? 0 then Some (value, S index) else get_groups (S index) value bs
  end.

Definition get_protobuf_varint (bs : bytes) : option (Z * nat) := get_groups 0 0 bs.

(** ** gRPC messages *)

Definition GRPC_HEADER_MIN : nat := 6.

Definition encode_grpc_message (payload out : bytes) : bytes :=
  let length_ := put_protobuf_varint (Z.of_nat (length payload)) [] in
  Writer_bytes payload (Writer_bytes length_ (Writer_u8 0x0A
    (Writer_u32 (wrap 32 (Z.of_nat (1 + length length_ + length payload))) (Writer_u8 0 out)))).

Definition decode_grpc_header (head : bytes) : option (nat * nat) :=
  tail ← get_from head GRPC_HEADER_MIN;
  '(len, used) ← get_protobuf_varint tail;
  Some (Z.to_nat len, (GRPC_HEADER_MIN + used)%nat).

(** ** The HTTP/2 stream *)

Inductive Framing := Grpc | Raw.

#[global] Instance Framing_eq_dec : EqDecision Framing.
Proof. solve_decision. Defined.

(** [RecvStream::poll_data]; past the script the body has ended. *)
Inductive DataEvent := Data (bs : bytes) | DataPending | DataFails.

(** [ResponseFuture::poll]; past the script it is pending. *)
Inductive ResponseEvent := ResponsePending | Responds (status : Z) (body : list DataEvent) | ResponseFails.

Inductive Recv := RecvPending (response : list ResponseEvent) | RecvReady (body : list DataEvent) | RecvDone.

(** [SendStream::poll_capacity]; past the script it is pending. *)
Inductive CapacityEvent := Granted (n : nat) | CapacityFails | CapacityClosed | CapacityPending.

(** The sending half: the capacity it will be granted, whether each [send_data] fails
    (none past the list), the capacity reserved, and the DATA frames sent with their
    END_STREAM flags. *)
Record SendStream := mkSend {
  ss_capacity : list CapacityEvent;
  ss_faults : list bool;
  ss_reserved : nat;
  ss_frames : list (bytes * bool);
}.

(** [send_data]. *)
Definition send_data (data : bytes) (end_of_stream : bool) (s : SendStream) : bool * SendStream :=
  match ss_faults s with
  | true :: faults => (false, mkSend (ss_capacity s) faults (ss_reserved s) (ss_frames s))
  | _ => (true, mkSend (ss_capacity s) (tail (ss_faults s)) (ss_reserved s) (ss_frames s ++ [(data, end_of_stream)]))
  end.

(** [hs_released] counts the bytes handed back by [release_capacity]. *)
Record H2Stream := mkH2 {
  hs_send : SendStream;
  hs_recv : Recv;
  hs_framing : Framing;
  hs_pending : bytes;
  hs_remaining : nat;
  hs_head : bytes;
  hs_released : nat;
}.

Definition h2_dial (send : SendStream) (response : list ResponseEvent) (framing : Framing) : H2Stream :=
  mkH2 send (RecvPending response) framing [] 0 [] 0.

Definition reading (this : H2Stream) recv pending remaining head released : H2Stream :=
  mkH2 (hs_send this) recv (hs_framing this) pending remaining head released.

Definition deliverable (this : H2Stream) : nat :=
  match hs_framing this with
  | Raw => length (hs_pending this)
  | Grpc => (hs_remaining this `min` length (hs_pending this))%nat
  end.

(** The loop's middle: undelivered bytes join the header, and a whole header starts a
    message; [split_off] panics past the end of its vector. *)
Definition gather (this : H2Stream) : H2Stream :=
  if bool_decide (hs_framing this = Grpc) && (hs_remaining this =? 0)%nat && negb (length (hs_pending this) =? 0)%nat
  then reading this (hs_recv this) [] (hs_remaining this) (hs_head this ++ hs_pending this) (hs_released this)
  else this.

Definition start_message (this : H2Stream) : option (option H2Stream) :=
  if bool_decide (hs_framing this = Grpc) && (hs_remaining this =? 0)%nat then
    '(len, header) ← decode_grpc_header (hs_head this);
    Some ((fun pending => reading this (hs_recv this) pending len [] (hs_released this)) <$> get_from (hs_head this) header)
  else None.

(** The end of a round, on the response or its body. *)
Definition poll_body (this : H2Stream) (body : list DataEvent) : (Poll bytes * H2Stream) + H2Stream :=
  let at_ rest := reading this (RecvReady rest) (hs_pending this) (hs_remaining this) (hs_head this) (hs_released this) in
  match body with
  | Data data :: rest =>
      let released := (hs_released this + length data)%nat in
      inr (if bool_decide (hs_framing this = Grpc) && (hs_remaining this =? 0)%nat
           then reading this (RecvReady rest) (hs_pending this) (hs_remaining this) (hs_head this ++ data) released
           else reading this (RecvReady rest) data (hs_remaining this) (hs_head this) released)
  | DataFails :: rest => inl (Failed Other, at_ rest)
  | [] => inl (Ready [], this)
  | DataPending :: rest => inl (Waits, at_ rest)
  end.

Definition poll_recv (this : H2Stream) : (Poll bytes * H2Stream) + H2Stream :=
  let with_recv recv := reading this recv (hs_pending this) (hs_remaining this) (hs_head this) (hs_released this) in
  match hs_recv this with
  | RecvReady body => poll_body this body
  | RecvDone => inl (Ready [], this)
  | RecvPending (Responds status body :: _) =>
      if negb (status =? 200) then inl (Failed Other, with_recv RecvDone) else inr (with_recv (RecvReady body))
  | RecvPending (ResponseFails :: _) => inl (Failed Other, with_recv RecvDone)
  | RecvPending (ResponsePending :: rest) => inl (Waits, with_recv (RecvPending rest))
  | RecvPending [] => inl (Waits, this)
  end.

(** One round of the loop of [poll_read]. *)
Definition h2_round (this : H2Stream) (room : nat) : (Poll bytes * H2Stream) + H2Stream :=
  let deliver := deliverable this in
  if (0 <? deliver)%nat then
    let moved := (room `min` deliver)%nat in
    if (0 <? moved)%nat then
      inl (Ready (take moved (hs_pending this)),
           reading this (hs_recv this) (drop moved (hs_pending this)) (hs_remaining this - moved) (hs_head this)
             (hs_released this))
    else inl (Ready [], this)
  else
    let this := gather this in
    match start_message this with
    | Some (Some this) => inr this
    | Some None => inl (Panics, this)
    | None => poll_recv this
    end.

Fixpoint h2_loop (fuel : nat) (this : H2Stream) (room : nat) : option (Poll bytes * H2Stream) :=
  match fuel with
  | O => None
  | S fuel =>
      match h2_round this room with
      | inl answer => Some answer
      | inr this => h2_loop fuel this room
      end
  end.

(** What the rounds of one call use up: an event each, or the bytes of a header. *)
Definition event_weight (e : DataEvent) : nat := match e with Data bs => S (length bs) | _ => 1 end.

Fixpoint body_weight (body : list DataEvent) : nat :=
  match body with [] => 0 | e :: body => event_weight e + body_weight body end.

Definition recv_weight (r : Recv) : nat :=
  match r with
  | RecvReady body => body_weight body
  | RecvPending (Responds _ body :: _) => S (body_weight body)
  | _ => 0
  end.

Definition h2_weight (this : H2Stream) : nat :=
  (length (hs_head this) + length (hs_pending this) + recv_weight (hs_recv this))%nat.

Definition H2Stream_poll_read (this : H2Stream) (room : nat) : option (Poll bytes * H2Stream) :=
  h2_loop (S (h2_weight this)) this room.

Definition sending (this : H2Stream) (send : SendStream) : H2Stream :=
  mkH2 send (hs_recv this) (hs_framing this) (hs_pending this) (hs_remaining this) (hs_head this) (hs_released this).

Definition frame (framing : Framing) (payload : bytes) : bytes :=
  match framing with Raw => payload | Grpc => encode_grpc_message payload [] end.

Definition H2Stream_poll_write (this : H2Stream) (buf : bytes) : Poll nat * H2Stream :=
  let s := hs_send this in
  let s := mkSend (ss_capacity s) (ss_faults s) (length buf) (ss_frames s) in
  let polled := mkSend (tail (ss_capacity s)) (ss_faults s) (ss_reserved s) (ss_frames s) in
  match ss_capacity s with
  | Granted granted :: _ =>
      let moved := (granted `min` length buf)%nat in
      let '(sent, s) := send_data (frame (hs_framing this) (take moved buf)) false polled in
      if sent : bool then (Ready moved, sending this s) else (Failed Other, sending this s)
  | CapacityFails :: _ => (Failed Other, sending this polled)
  | CapacityClosed :: _ => (Failed BrokenPipe, sending this polled)
  | CapacityPending :: _ | [] => (Waits, sending this polled)
  end.

Definition H2Stream_poll_flush (this : H2Stream) : Poll unit * H2Stream := (Ready tt, this).

Definition H2Stream_poll_shutdown (this : H2Stream) : Poll unit * H2Stream :=
  let '(sent, s) := send_data [] true (hs_send this) in
  if sent : bool then (Ready tt, sending this s) else (Failed Other, sending this s).

(** ** The WebSocket stream *)

(** [Stream::poll_next] of the socket; past the script the stream has ended. *)
Inductive SocketEvent := Binary (payload : bytes) | CloseFrame | OtherMessage | SocketFails | SocketPending.

(** [Sink::poll_ready], then [start_send]; past the script a poll is pending. *)
Inductive SinkEvent := SinkReady (accepts : bool) | SinkFails | SinkPending.

Record WebSocketStream := mkSocket {
  ws_events : list SocketEvent;
  ws_sink : list SinkEvent;
  ws_sent : list SocketEvent;
  ws_pending : bytes;
}.

Definition WebSocketStream_new (events : list SocketEvent) (sink : list SinkEvent) : WebSocketStream :=
  mkSocket events sink [] [].

(** The rounds of [poll_read] over the messages: an empty or other message is passed. *)
Fixpoint next_message (events : list SocketEvent) : Poll bytes * list SocketEvent :=
  match events with
  | [] => (Ready [], [])
  | Binary [] :: events => next_message events
  | Binary payload :: events => (Ready payload, events)
  | CloseFrame :: events => (Ready [], events)
  | OtherMessage :: events => next_message events
  | SocketFails :: events => (Failed Other, events)
  | SocketPending :: events => (Waits, events)
  end.

Definition ws_deliver (this : WebSocketStream) (room : nat) : Poll bytes * WebSocketStream :=
  let moved := (room `min` length (ws_pending this))%nat in
  (Ready (take moved (ws_pending this)),
   mkSocket (ws_events this) (ws_sink this) (ws_sent this) (drop moved (ws_pending this))).

Definition WebSocketStream_poll_read (this : WebSocketStream) (room : nat) : Poll bytes * WebSocketStream :=
  if negb (length (ws_pending this) =? 0)%nat then ws_deliver this room else
  let '(r, events) := next_message (ws_events this) in
  let at_ pending := mkSocket events (ws_sink this) (ws_sent this) pending in
  match r with
  | Ready ((_ :: _) as payload) => ws_deliver (at_ payload) room
  | r => (r, at_ [])
  end.

Definition WebSocketStream_poll_write (this : WebSocketStream) (buf : bytes) : Poll nat * WebSocketStream :=
  let at_ sent := mkSocket (ws_events this) (tail (ws_sink this)) sent (ws_pending this) in
  match ws_sink this with
  | SinkReady true :: _ => (Ready (length buf), at_ (ws_sent this ++ [Binary buf]))
  | SinkReady false :: _ | SinkFails :: _ => (Failed Other, at_ (ws_sent this))
  | SinkPending :: _ | [] => (Waits, at_ (ws_sent this))
  end.

(** ** Reading a stream to its end *)

(** [poll_read]; [None] would be a call that does not return. *)
Class PollRead (S : Type) := poll_read : S -> nat -> option (Poll bytes * S).

#[global] Instance H2Stream_reads : PollRead H2Stream := H2Stream_poll_read.
#[global] Instance WebSocketStream_reads : PollRead WebSocketStream := fun this room => Some (WebSocketStream_poll_read this room).

(** A reader that calls [poll_read] with one room after another until a call into a
    buffer with room moves nothing: the bytes it has, and whether it met the end. *)
Fixpoint read_calls {S : Type} `{PollRead S} (rooms : list nat) (s : S) : option (bytes * bool * S) :=
  match rooms with
  | [] => Some ([], false, s)
  | room :: rooms =>
      '(r, s) ← poll_read s room;
      match r with
      | Ready [] => Some ([], true, s)
      | Ready bs => '(more, ended, s) ← read_calls rooms s; Some (bs ++ more, ended, s)
      | Waits => read_calls rooms s
      | Failed _ | Panics => None
      end
  end.

(** What a reading stream promises: it owes some bytes and will pause at most [pauses]
    times more; a read delivers the next of them, at most as many as there is room for,
    and reports the end only when it owes none. *)
Class ReadLaws (S : Type) `{PollRead S} := {
  owes : S -> bytes -> nat -> Prop;
  poll_owes : forall s P pauses room, owes s P pauses -> (0 < room)%nat ->
    exists r s', poll_read s room = Some (r, s') /\
      match r with
      | Ready bs => (length bs <= room)%nat /\ (bs = [] -> P = []) /\ exists P', P = bs ++ P' /\ owes s' P' pauses
      | Waits => exists pauses', pauses = Datatypes.S pauses' /\ owes s' P pauses'
      | Failed _ | Panics => False
      end;
}.

Lemma read_calls_owes {S : Type} `{ReadLaws S} rooms : forall (s : S) P pauses,
  owes s P pauses -> Forall (lt 0) rooms -> (length P + pauses < length rooms)%nat ->
  exists s', read_calls rooms s = Some (P, true, s').
Proof.
  induction rooms as [|room rooms IH]; intros s P pauses Hs Hr Hlen; [cbn in Hlen; lia|].
  apply Forall_cons in Hr as [Hroom Hr]. cbn [read_calls length] in *.
  destruct (poll_owes s P pauses room Hs Hroom) as (r & s' & -> & Hcase). cbn [mbind option_bind].
  destruct r as [bs| | |]; try done.
  - destruct Hcase as (_ & Hend & P' & -> & Hs'). destruct bs as [|b bs].
    { rewrite (Hend eq_refl). by eexists. }
    rewrite length_app in Hlen. cbn [length] in Hlen. destruct (IH s' P' pauses Hs' Hr) as [s'' ->]; [lia|]. by eexists.
  - destruct Hcase as (pauses' & -> & Hs'). apply (IH s' P pauses'); [done..|lia].
Qed.

(** ** The varint *)

Lemma put_groups_out fuel : forall v out, put_groups fuel v out = out ++ put_groups fuel v [].
Proof.
  induction fuel as [|fuel IH]; intros v out; cbn [put_groups]; [by rewrite app_nil_r|].
  destruct (_ <=? _); [|done]. by rewrite IH, (IH _ ([] ++ _)), (assoc_L (++)).
Qed.

Lemma group_more v : Z.land (Z.lor (wrap 8 v) 0x80) 0x7f = v mod 128 /\ (Z.land (Z.lor (wrap 8 v) 0x80) 0x80 =? 0) = false.
Proof.
  rewrite !Z.land_lor_distr_l. split.
  - change (Z.land 0x80 0x7f) with 0. rewrite Z.lor_0_r. change 0x7f with (Z.ones 7). rewrite Z.land_ones by lia.
    unfold wrap. change (2 ^ 7) with 128. change (2 ^ 8) with 256. zdiv_lia.
  - apply Z.eqb_neq. intros [_ H]%Z.lor_eq_0_iff. done.
Qed.

Lemma group_last v : 0 <= v < 128 -> Z.land (wrap 8 v) 0x7f = v /\ Z.land (wrap 8 v) 0x80 = 0.
Proof.
  intros Hv. unfold wrap. change (2 ^ 8) with 256. rewrite Z.mod_small by lia.
  assert (Z.land v 0x7f = v) as E.
  { change 0x7f with (Z.ones 7). rewrite Z.land_ones by lia. apply Z.mod_small. by change (2 ^ 7) with 128. }
  split; [done|]. rewrite <- E, <- Z.land_assoc. apply Z.land_0_r.
Qed.

Lemma lor_shift a x n : 0 <= n -> 0 <= a < 2 ^ n -> Z.lor a (Z.shiftl x n) = a + x * 2 ^ n.
Proof.
  intros Hn Ha. assert (Z.land a (Z.shiftl x n) = 0) as E.
  { rewrite <- (Z.mod_small a (2 ^ n)) by done. rewrite <- Z.land_ones, <- Z.land_assoc, (Z.land_comm (Z.ones n)), Z.land_ones by done.
    by rewrite Z.shiftl_mul_pow2, Z.mod_mul, Z.land_0_r by lia. }
  pose proof (Z.add_lor_land a (Z.shiftl x n)) as H. rewrite E, Z.shiftl_mul_pow2 in * by done. lia.
Qed.

(** The groups of a value, read on from [index] with the lower groups in [acc]. *)
Lemma get_put_groups fuel : forall index v acc more,
  (fuel + index = 10)%nat -> (0 < fuel)%nat -> 0 <= v < 2 ^ (7 * Z.of_nat fuel) ->
  0 <= acc < 2 ^ (7 * Z.of_nat index) -> v * 2 ^ (7 * Z.of_nat index) < 2 ^ 64 ->
  get_groups index acc (put_groups fuel v [] ++ more)
  = Some (acc + v * 2 ^ (7 * Z.of_nat index), (index + length (put_groups fuel v []))%nat).
Proof.
  induction fuel as [|fuel IH]; intros index v acc more Hsum Hpos Hv Hacc Hfit; [lia|].
  set (w := 2 ^ (7 * Z.of_nat index)) in *. assert (0 < w) as Hw by (apply Z.pow_pos_nonneg; lia).
  assert (2 ^ (7 * Z.of_nat (S index)) = w * 128) as Hw' by (unfold w; change 128 with (2 ^ 7); rewrite <- Z.pow_add_r by lia; f_equal; lia).
  cbn [put_groups]. destruct (0x80 <=? v) eqn:E; reflect.
  - rewrite put_groups_out. cbn [app get_groups]. rewrite (proj2 (Nat.leb_gt 10 index)) by (destruct fuel; [cbn in Hv; lia|lia]).
    destruct (group_more v) as [-> ->]. replace (Z.of_nat (index * 7)) with (7 * Z.of_nat index) by lia.
    assert (v mod 128 * w < 2 ^ 64) as Hm by (pose proof (Z.mod_le v 128); nia).
    unfold wrap. rewrite Z.shiftl_mul_pow2, Z.mod_small by (fold w; pose proof (Z.mod_pos_bound v 128); nia).
    rewrite <- Z.shiftl_mul_pow2, lor_shift by (fold w; lia). fold w. rewrite Z.shiftr_div_pow2 by lia. change (2 ^ 7) with 128.
    assert (0 < fuel)%nat as Hf by (destruct fuel; [cbn in Hv; lia|lia]).
    pose proof (Z.div_mod v 128 ltac:(lia)) as Hdm. pose proof (Z.mod_pos_bound v 128 ltac:(lia)) as Hmod.
    rewrite IH; [rewrite Hw'; cbn [length]; f_equal; f_equal; [nia|lia]|lia|done| |rewrite Hw'; nia|rewrite Hw'; nia].
    split; [apply Z.div_pos; lia|]. apply Z.div_lt_upper_bound; [lia|]. change 128 with (2 ^ 7). rewrite <- Z.pow_add_r by lia.
    replace (7 + 7 * Z.of_nat fuel) with (7 * Z.of_nat (S fuel)) by lia. lia.
  - cbn [app get_groups length]. rewrite (proj2 (Nat.leb_gt 10 index)) by lia. destruct (group_last v) as [-> ->]; [lia|].
    replace (Z.of_nat (index * 7)) with (7 * Z.of_nat index) by lia. unfold wrap.
    rewrite Z.shiftl_mul_pow2, Z.mod_small, <- Z.shiftl_mul_pow2, lor_shift by (fold w; nia). fold w. cbn [Z.eqb].
    f_equal. f_equal. lia.
Qed.

Lemma protobuf_varint_roundtrip v more :
  u64_ok v -> get_protobuf_varint (put_protobuf_varint v [] ++ more) = Some (v, length (put_protobuf_varint v [])).
Proof.
  intros Hv. unfold get_protobuf_varint, put_protobuf_varint. unfold uint_ok in Hv.
  rewrite get_put_groups; cbn; [|lia..]. by rewrite Z.mul_1_r.
Qed.

Lemma get_groups_extend bs : forall index acc more v n,
  get_groups index acc bs = Some (v, n) ->
  get_groups index acc (bs ++ more) = Some (v, n) /\ (index < n <= index + length bs)%nat.
Proof.
  induction bs as [|b bs IH]; intros index acc more v n; [done|]. cbn [app get_groups length].
  destruct (10 <=? index)%nat; [done|]. destruct (_ =? 0); [intros [= -> <-]; split; [done|lia]|].
  intros H. destruct (IH _ _ more _ _ H) as [-> ?]. split; [done|lia].
Qed.

(** ** Message headers *)

(** The bytes before the payload. *)
Definition grpc_header (payload : bytes) : bytes :=
  let length_ := put_protobuf_varint (Z.of_nat (length payload)) [] in
  0 :: be_bytes 4 (wrap 32 (Z.of_nat (1 + length length_ + length payload))) ++ 0x0A :: length_.

Lemma encode_grpc_message_header payload : encode_grpc_message payload [] = grpc_header payload ++ payload.
Proof.
  unfold encode_grpc_message, grpc_header, Writer_bytes, Writer_u8, Writer_u32, Writer_bytes. cbn [app].
  by rewrite <- !(assoc_L (++)).
Qed.

(** A payload whose length is a [usize]. *)
Definition fits (payload : bytes) : Prop := Z.of_nat (length payload) < 2 ^ 64.

Lemma decode_encoded payload more :
  fits payload -> decode_grpc_header (grpc_header payload ++ more) = Some (length payload, length (grpc_header payload)).
Proof.
  intros Hfit. unfold decode_grpc_header, grpc_header. cbn zeta.
  set (l := put_protobuf_varint _ []). set (t := be_bytes 4 _).
  assert (length t = 4%nat) as Ht by apply length_be_bytes.
  unfold get_from. rewrite (proj2 (Nat.leb_le _ _)).
  2:{ unfold GRPC_HEADER_MIN. cbn [length app]. rewrite !length_app. cbn [length]. lia. }
  cbn [mbind option_bind].
  replace (drop GRPC_HEADER_MIN ((0 :: t ++ 10 :: l) ++ more)) with (l ++ more).
  2:{ destruct t as [|? [|? [|? [|? [|]]]]]; done. }
  unfold l. rewrite protobuf_varint_roundtrip by (split; [lia|exact Hfit]). cbn [mbind option_bind]. fold l.
  rewrite Nat2Z.id. cbn [length]. rewrite length_app, Ht. done.
Qed.

Lemma decode_grpc_header_extend head more len n :
  decode_grpc_header head = Some (len, n) ->
  decode_grpc_header (head ++ more) = Some (len, n) /\ (0 < n <= length head)%nat.
Proof.
  unfold decode_grpc_header, get_from. destruct (_ <=? length head)%nat eqn:E; [|done]. reflect. cbn [mbind option_bind].
  intros ([v used] & Hg & [= <- <-])%bind_Some. apply (get_groups_extend _ _ _ more) in Hg as [Hg Hn].
  rewrite (proj2 (Nat.leb_le _ _)) by (rewrite length_app; lia). cbn [mbind option_bind].
  rewrite drop_app_le by done. unfold get_protobuf_varint. rewrite Hg. split; [done|]. rewrite length_drop in Hn. unfold GRPC_HEADER_MIN in *. lia.
Qed.

(** A header met at the front of messages is the first message's. *)
Lemma decode_front head rest ps len n :
  Forall fits ps -> head ++ rest = concat (frame Grpc <$> ps) -> decode_grpc_header head = Some (len, n) ->
  exists p ps', ps = p :: ps' /\ len = length p /\ drop n head ++ rest = p ++ concat (frame Grpc <$> ps').
Proof.
  intros Hf Heq Hd. destruct (decode_grpc_header_extend _ rest _ _ Hd) as [Hd' Hn].
  destruct ps as [|p ps]; [destruct head; [cbn in Hn; lia|done]|]. apply Forall_cons in Hf as [Hfit Hf].
  cbn [fmap list_fmap concat frame] in Heq. rewrite encode_grpc_message_header, <- (assoc_L (++)) in Heq.
  rewrite Heq, decode_encoded in Hd' by done.
  assert (len = length p /\ n = length (grpc_header p)) as [-> ->] by (split; congruence). exists p, ps. split_and!; [done..|].
  rewrite <- drop_app_le, Heq by lia. by rewrite drop_app_length.
Qed.

(** ** Every call returns *)

Lemma start_message_spec this :
  match start_message this with
  | Some None => False
  | Some (Some this') => exists len n, decode_grpc_header (hs_head this) = Some (len, n) /\ (0 < n <= length (hs_head this))%nat /\
      hs_framing this = Grpc /\ hs_remaining this = 0%nat /\
      this' = reading this (hs_recv this) (drop n (hs_head this)) len [] (hs_released this)
  | None => hs_framing this = Raw \/ hs_remaining this <> 0%nat \/ decode_grpc_header (hs_head this) = None
  end.
Proof.
  unfold start_message. case_bool_decide as Hf; cbn [andb]; [|left; by destruct (hs_framing this)].
  destruct (_ =? 0)%nat eqn:Er; reflect; [|by right; left].
  destruct (decode_grpc_header (hs_head this)) as [[len n]|] eqn:Ed; [|by right; right]. cbn [mbind option_bind].
  destruct (decode_grpc_header_extend _ [] _ _ Ed) as [_ Hn]. unfold get_from. rewrite (proj2 (Nat.leb_le _ _)) by lia.
  by exists len, n.
Qed.

(** [gather] in every case leaves the bytes in their order. *)
Lemma gather_spec this :
  deliverable this = 0%nat ->
  let this' := gather this in
  hs_pending this' = [] /\ hs_head this' = hs_head this ++ hs_pending this /\ hs_recv this' = hs_recv this /\
  hs_framing this' = hs_framing this /\ hs_remaining this' = hs_remaining this /\ hs_released this' = hs_released this.
Proof.
  unfold deliverable, gather. intros Hd. destruct (hs_pending this) as [|b bs] eqn:Ep.
  { rewrite andb_false_r. by rewrite app_nil_r. }
  destruct (hs_framing this) eqn:Ef; [|cbn in Hd; lia].
  rewrite bool_decide_true by done. destruct (hs_remaining this) eqn:Er; [|cbn in Hd; lia]. done.
Qed.

Lemma h2_round_weight this room :
  match h2_round this room with
  | inr this' => (h2_weight this' < h2_weight this)%nat
  | inl (r, _) => r <> Panics
  end.
Proof.
  unfold h2_round. destruct (0 <? deliverable this)%nat eqn:Ed; reflect; [by destruct (0 <? _)%nat|].
  destruct (gather_spec this ltac:(lia)) as (Hp & Hh & Hrecv & _). pose proof (start_message_spec (gather this)) as Hs.
  assert (h2_weight (gather this) = h2_weight this) as Hw by (unfold h2_weight; rewrite Hp, Hh, Hrecv, length_app; cbn; lia).
  rewrite <- Hw. clear Hw Hh Hrecv Ed. set (g := gather this) in *.
  destruct (start_message g) as [[this'|]|]; [|done|].
  { destruct Hs as (len & n & _ & Hn & _ & _ & ->). unfold h2_weight. cbn. rewrite length_drop. lia. }
  unfold poll_recv, poll_body, h2_weight. rewrite Hp. clear Hs.
  destruct (hs_recv g) as [[|[|status body|] rest]|[|[data| |] rest]|]; cbn; try done.
  - destruct (negb _); [done|]. cbn. lia.
  - destruct (_ && _); cbn; rewrite ?length_app, ?Hp; cbn; lia.
Qed.

Lemma h2_loop_returns fuel : forall this room, (h2_weight this < fuel)%nat -> exists r this', h2_loop fuel this room = Some (r, this') /\ r <> Panics.
Proof.
  induction fuel as [|fuel IH]; intros this room Hf; [lia|]. cbn [h2_loop]. pose proof (h2_round_weight this room) as Hr.
  destruct (h2_round this room) as [[r this']|this']; [by exists r, this'|]. apply IH. lia.
Qed.

(** A call of [poll_read] returns whatever the peer sends, and never panics. *)
Theorem h2_read_returns this room : exists r this', H2Stream_poll_read this room = Some (r, this') /\ r <> Panics.
Proof. apply h2_loop_returns. lia. Qed.

(** ** What an HTTP/2 stream owes *)

(** The bytes of a body that does not fail, and its pauses. *)
Fixpoint body_arrives (body : list DataEvent) : option (bytes * nat) :=
  match body with
  | [] => Some ([], 0%nat)
  | Data bs :: body => '(more, pauses) ← body_arrives body; Some (bs ++ more, pauses)
  | DataPending :: body => '(more, pauses) ← body_arrives body; Some (more, S pauses)
  | DataFails :: _ => None
  end.

Fixpoint response_arrives (response : list ResponseEvent) : option (bytes * nat) :=
  match response with
  | ResponsePending :: response => '(more, pauses) ← response_arrives response; Some (more, S pauses)
  | Responds status body :: _ => if status =? 200 then body_arrives body else None
  | ResponseFails :: _ | [] => None
  end.

Definition recv_arrives (r : Recv) : option (bytes * nat) :=
  match r with
  | RecvPending response => response_arrives response
  | RecvReady body => body_arrives body
  | RecvDone => None
  end.

(** The undelivered bytes and those to come are the rest of a message, [remaining] long,
    and whole messages. *)
Definition in_flight (this : H2Stream) (rest P : bytes) : Prop :=
  match hs_framing this with
  | Raw => hs_head this = [] /\ hs_remaining this = 0%nat /\ hs_pending this ++ rest = P
  | Grpc => (hs_remaining this <> 0%nat -> hs_head this = []) /\
      exists p ps, Forall fits ps /\ hs_head this ++ hs_pending this ++ rest = p ++ concat (frame Grpc <$> ps) /\
        length p = hs_remaining this /\ P = p ++ concat ps
  end.

Definition h2_owes (this : H2Stream) (P : bytes) (pauses : nat) : Prop :=
  exists rest, recv_arrives (hs_recv this) = Some (rest, pauses) /\ in_flight this rest P.

(** What a round's outcome keeps of the debt. *)
Definition round_owes (room : nat) (P : bytes) (pauses : nat) (outcome : (Poll bytes * H2Stream) + H2Stream) : Prop :=
  match outcome with
  | inr this' => h2_owes this' P pauses
  | inl (Ready bs, this') => (length bs <= room)%nat /\ (bs = [] -> P = []) /\ exists P', P = bs ++ P' /\ h2_owes this' P' pauses
  | inl (Waits, this') => exists pauses', pauses = S pauses' /\ h2_owes this' P pauses'
  | inl (Failed _, _) | inl (Panics, _) => False
  end.

Lemma deliver_owes this P pauses moved :
  h2_owes this P pauses -> (0 < moved <= deliverable this)%nat ->
  exists P', P = take moved (hs_pending this) ++ P' /\
    h2_owes (reading this (hs_recv this) (drop moved (hs_pending this)) (hs_remaining this - moved) (hs_head this) (hs_released this)) P' pauses.
Proof.
  intros (rest & Hrecv & Hf) Hm. unfold h2_owes, in_flight, deliverable in *. cbn [reading hs_recv hs_framing hs_pending hs_remaining hs_head].
  destruct (hs_framing this) eqn:E.
  - destruct Hf as (Hh & p & ps & Hps & Hw & Hl & ->). rewrite Hh in * by lia. cbn [app] in *.
    assert (take moved (hs_pending this) = take moved p) as Ht.
    { apply (f_equal (take moved)) in Hw. by rewrite !take_app_le in Hw by lia. }
    exists (drop moved p ++ concat ps). rewrite Ht. split; [by rewrite (assoc_L (++)), take_drop|].
    exists rest. split; [done|]. split; [done|]. exists (drop moved p), ps. split_and!; [done| |rewrite length_drop; lia|done].
    apply (f_equal (drop moved)) in Hw. by rewrite !drop_app_le in Hw by lia.
  - destruct Hf as (Hh & Hr & <-). exists (drop moved (hs_pending this) ++ rest). split; [by rewrite (assoc_L (++)), take_drop|].
    exists rest. split_and!; (done || lia).
Qed.

Lemma gather_owes this P pauses : deliverable this = 0%nat -> h2_owes this P pauses -> h2_owes (gather this) P pauses.
Proof.
  intros Hd (rest & Hrecv & Hf). destruct (gather_spec this Hd) as (Hp & Hh & Hr & Hfr & Hrem & _).
  exists rest. rewrite Hr. split; [done|]. unfold in_flight in *. rewrite Hfr, Hrem, Hp, Hh. unfold deliverable in Hd.
  destruct (hs_framing this).
  - destruct Hf as (Hh0 & p & ps & Hps & Hw & Hl & HP). split.
    { intros Hne. rewrite Hh0 by done. destruct (hs_pending this); [done|cbn in Hd; lia]. }
    exists p, ps. split_and!; [done| |done..]. by rewrite <- Hw, <- (assoc_L (++)).
  - destruct Hf as (-> & -> & <-). by destruct (hs_pending this).
Qed.

(** With nothing to deliver, the end of the body is the end of what is owed. *)
Lemma nothing_owed this P : hs_pending this = [] -> start_message this = None -> in_flight this [] P -> P = [].
Proof.
  intros Hp Hs Hf. pose proof (start_message_spec this) as Hspec. rewrite Hs in Hspec. unfold in_flight in Hf. rewrite Hp in Hf.
  destruct (hs_framing this); [|by destruct Hf as (_ & _ & <-)].
  destruct Hf as (Hh & p & ps & Hps & Hw & Hl & ->). cbn [app] in Hw. rewrite app_nil_r in Hw.
  destruct Hspec as [?|[Hr|Hd]]; [done| |].
  { rewrite Hh in Hw by done. apply (f_equal length) in Hw. rewrite length_app in Hw. cbn [length] in Hw. lia. }
  destruct ps as [|q ps].
  - cbn in Hw |- *. rewrite app_nil_r in *. destruct p as [|b p]; [done|]. rewrite Hh in Hw by (cbn in Hl; lia). done.
  - exfalso. destruct p as [|b p].
    + apply Forall_cons in Hps as [Hq _]. cbn [app fmap list_fmap concat frame] in Hw. 
      rewrite Hw, encode_grpc_message_header, <- (assoc_L (++)), decode_encoded in Hd by done. done.
    + rewrite Hh in Hw by (cbn in Hl; lia). done.
Qed.

Lemma start_owes this this' P pauses :
  hs_pending this = [] -> start_message this = Some (Some this') -> h2_owes this P pauses -> h2_owes this' P pauses.
Proof.
  intros Hp Hs (rest & Hrecv & Hf). pose proof (start_message_spec this) as Hspec. rewrite Hs in Hspec.
  destruct Hspec as (len & n & Hd & Hn & Hfr & Hrem & ->). exists rest. split; [done|].
  unfold in_flight in *. cbn [reading hs_framing hs_pending hs_remaining hs_head]. rewrite Hfr, Hp, Hrem in *.
  destruct Hf as (_ & p & ps & Hps & Hw & Hl & ->). apply length_zero_iff_nil in Hl as ->. cbn [app] in *.
  destruct (decode_front _ _ _ _ _ Hps Hw Hd) as (q & ps' & -> & -> & Hrest). split; [done|].
  apply Forall_cons in Hps as [_ Hps]. by exists q, ps'.
Qed.

Lemma body_owes this body P pauses room :
  hs_recv this = RecvReady body -> hs_pending this = [] -> start_message this = None -> h2_owes this P pauses ->
  round_owes room P pauses (poll_body this body).
Proof.
  intros Hr Hp Hs Ho. pose proof Ho as (rest & Hrecv & Hf). rewrite Hr in Hrecv. cbn [recv_arrives] in Hrecv.
  destruct body as [|[data| |] body]; cbn [body_arrives poll_body round_owes] in *; [| | |done].
  - injection Hrecv as <- <-. rewrite (nothing_owed _ _ Hp Hs Hf) in *. split_and!; [cbn; lia|done|]. by exists [].
  - apply bind_Some in Hrecv as ([more n] & Hb & [= <- <-]). exists more. unfold in_flight in *.
    destruct (hs_framing this) eqn:Ef.
    + rewrite bool_decide_true by done. destruct Hf as (Hh & p & ps & Hps & Hw & Hl & ->). cbn [andb].
      destruct (hs_remaining this =? 0)%nat eqn:Er; reflect; (split; [done|]); cbn [reading hs_framing hs_head hs_remaining hs_pending]; rewrite Ef.
      * split; [done|]. exists p, ps. rewrite Hp in *. cbn [app] in *. split_and!; [done| |done..]. by rewrite <- (assoc_L (++)).
      * split; [done|]. exists p, ps. rewrite Hp in Hw. split_and!; done.
    + rewrite bool_decide_false by done. split; [done|]. cbn [reading hs_framing hs_head hs_remaining hs_pending andb]. rewrite Ef.
      destruct Hf as (? & ? & <-). rewrite Hp. done.
  - apply bind_Some in Hrecv as ([more n] & Hb & [= <- <-]). exists n. split; [done|]. by exists more.
Qed.

Lemma h2_round_owes this P pauses room :
  h2_owes this P pauses -> (0 < room)%nat -> round_owes room P pauses (h2_round this room).
Proof.
  intros Ho Hroom. unfold h2_round. destruct (0 <? deliverable this)%nat eqn:Ed; reflect.
  { rewrite (proj2 (Nat.ltb_lt _ _)) by lia. cbn [round_owes].
    assert (deliverable this <= length (hs_pending this))%nat by (unfold deliverable; destruct (hs_framing this); lia).
    split_and!; [rewrite length_take; lia| |apply deliver_owes; [done|lia]].
    intros Hnil. apply (f_equal length) in Hnil. rewrite length_take in Hnil. cbn [length] in Hnil. lia. }
  destruct (gather_spec this ltac:(lia)) as (Hp & _). apply gather_owes in Ho; [|lia]. revert Hp Ho. generalize (gather this). clear this Ed.
  intros this Hp Ho. pose proof (start_message_spec this) as Hs. destruct (start_message this) as [[this'|]|] eqn:Es; [|done|].
  { cbn [round_owes]. by eapply start_owes. }
  unfold poll_recv. destruct (hs_recv this) as [response|body|] eqn:Er; [|by apply body_owes|].
  - destruct Ho as (rest & Hrecv & Hf). rewrite Er in Hrecv. cbn [recv_arrives] in Hrecv.
    destruct response as [|[|status body|] response]; cbn [response_arrives] in Hrecv; try done.
    + apply bind_Some in Hrecv as ([more n] & Hb & [= <- <-]). exists n. split; [done|]. by exists more.
    + destruct (status =? 200); [|done]. by exists rest.
  - destruct Ho as (rest & Hrecv & _). by rewrite Er in Hrecv.
Qed.

Lemma h2_loop_owes fuel : forall this P pauses room,
  h2_owes this P pauses -> (0 < room)%nat -> (h2_weight this < fuel)%nat ->
  exists answer, h2_loop fuel this room = Some answer /\ round_owes room P pauses (inl answer).
Proof.
  induction fuel as [|fuel IH]; intros this P pauses room Ho Hroom Hf; [lia|]. cbn [h2_loop].
  pose proof (h2_round_weight this room) as Hw. pose proof (h2_round_owes _ _ _ _ Ho Hroom) as Hr.
  destruct (h2_round this room) as [answer|this']; [by exists answer|]. apply IH; [done..|lia].
Qed.

#[global] Instance H2Stream_laws : ReadLaws H2Stream.
Proof.
  refine {| owes := h2_owes |}. intros this P pauses room Ho Hroom.
  destruct (h2_loop_owes (S (h2_weight this)) this P pauses room Ho Hroom) as ([r this'] & Hl & Hr); [lia|].
  exists r, this'. split; [exact Hl|]. destruct r; exact Hr.
Defined.

(** ** What an HTTP/2 stream sends *)

(** A caller of [poll_write]: the bytes its calls accepted, and the stream after them. *)
Fixpoint write_calls (bufs : list bytes) (this : H2Stream) : bytes * H2Stream :=
  match bufs with
  | [] => ([], this)
  | buf :: bufs =>
      let '(r, this) := H2Stream_poll_write this buf in
      let accepted := match r with Ready n => take n buf | _ => [] end in
      let '(more, this) := write_calls bufs this in
      (accepted ++ more, this)
  end.

Definition sent_bytes (this : H2Stream) : bytes := concat (fst <$> ss_frames (hs_send this)).

Lemma write_calls_frames bufs : forall this,
  Forall fits bufs ->
  let '(accepted, this') := write_calls bufs this in
  exists ps, Forall fits ps /\ accepted = concat ps /\ sent_bytes this' = sent_bytes this ++ concat (frame (hs_framing this) <$> ps).
Proof.
  induction bufs as [|buf bufs IH]; intros this Hf; [exists []; cbn; by rewrite app_nil_r|]. apply Forall_cons in Hf as [Hb Hf].
  cbn [write_calls].
  assert (exists ps, Forall fits ps /\ (match (H2Stream_poll_write this buf).1 with Ready n => take n buf | _ => [] end) = concat ps /\
    sent_bytes (H2Stream_poll_write this buf).2 = sent_bytes this ++ concat (frame (hs_framing this) <$> ps) /\
    hs_framing (H2Stream_poll_write this buf).2 = hs_framing this) as (ps & Hps & Ha & Hs & Hfr).
  { unfold H2Stream_poll_write. cbn [ss_capacity ss_faults ss_reserved ss_frames].
    destruct (ss_capacity (hs_send this)) as [|[granted| | |] rest]; try (exists []; split_and!; [constructor|done|by rewrite app_nil_r|done]).
    unfold send_data. cbn [ss_faults]. destruct (ss_faults (hs_send this)) as [|[] faults].
    2:{ exists []. split_and!; [constructor|done|by rewrite app_nil_r|done]. }
    all: exists [take (granted `min` length buf) buf]; cbn [fst snd concat fmap list_fmap]; rewrite !app_nil_r; split_and!; try done.
    all: try (constructor; [|constructor]; unfold fits in *; rewrite length_take; lia).
    all: unfold sent_bytes; cbn; by rewrite fmap_app, concat_app; cbn; rewrite app_nil_r. }
  destruct (H2Stream_poll_write this buf) as [r this1]. cbn [fst snd] in *. specialize (IH this1 Hf). destruct (write_calls bufs this1) as [more this2].
  destruct IH as (ps' & Hps' & -> & Hs'). exists (ps ++ ps'). split_and!; [by apply Forall_app|by rewrite Ha, concat_app|].
  by rewrite Hs', Hs, Hfr, fmap_app, concat_app, (assoc_L (++)).
Qed.

(** C17: gRPC and raw HTTP/2 streams carry bytes.  Whatever a writer's calls accept,
    under any granted capacities, arrives at a reader of the same framing: once the
    DATA frames, re-cut into any pieces with any pauses between them, follow a 200
    response, reads into buffers of any sizes deliver exactly the accepted bytes and
    then the end of the stream. *)
Theorem h2_roundtrip framing send bufs response pauses send' rooms :
  Forall fits bufs -> ss_frames send = [] ->
  let written := write_calls bufs (h2_dial send [] framing) in
  response_arrives response = Some (sent_bytes written.2, pauses) ->
  Forall (lt 0) rooms -> (length written.1 + pauses < length rooms)%nat ->
  exists reader, read_calls rooms (h2_dial send' response framing) = Some (written.1, true, reader).
Proof.
  intros Hf Hfr. cbn zeta. pose proof (write_calls_frames bufs (h2_dial send [] framing) Hf) as Hw.
  destruct (write_calls bufs _) as [accepted writer]. cbn [fst snd]. destruct Hw as (ps & Hps & -> & Hs). unfold sent_bytes in Hs at 2. cbn [h2_dial hs_send hs_framing] in Hs.
  rewrite Hfr in Hs. cbn [fmap list_fmap concat app] in Hs. intros Hr Hrooms Hlen. apply (read_calls_owes rooms _ _ pauses); [|done..].
  exists (sent_bytes writer). split; [done|]. rewrite Hs. unfold in_flight. cbn [h2_dial hs_framing hs_head hs_pending hs_remaining app].
  destruct framing.
  - split; [done|]. by exists [], ps.
  - split_and!; [done..|]. f_equal. clear. induction ps; [done|]. cbn. by f_equal.
Qed.

Lemma h2_roundtrip_witness : exists reader,
  read_calls [3; 1; 7; 2; 4; 4; 1]%nat
    (h2_dial (mkSend [] [] 0 []) [ResponsePending; Responds 200 [Data [0; 0; 0; 0; 5; 10]; DataPending; Data [3; 1; 2; 3; 0; 0; 0]; Data [0; 3; 10; 1; 9]]] Grpc)
  = Some ([1; 2; 3; 9], true, reader).
Proof.
  apply (h2_roundtrip Grpc (mkSend [Granted 3; CapacityPending; Granted 9] [] 0 []) [[1; 2; 3; 4]; [4]; [9]] _ 2).
  - repeat constructor.
  - reflexivity.
  - vm_compute. reflexivity.
  - repeat constructor.
  - vm_compute. lia.
Defined.

(** ** Overlong lengths *)

(** Ten continuation bytes where a message's length starts. *)
Definition overlong (head : bytes) : Prop :=
  exists front groups rest, head = front ++ groups ++ rest /\ length front = GRPC_HEADER_MIN /\
    length groups = 10%nat /\ Forall (fun b => Z.land b 0x80 <> 0) groups.

Lemma get_groups_overlong groups : forall index acc rest,
  Forall (fun b => Z.land b 0x80 <> 0) groups -> (index + length groups = 10)%nat -> get_groups index acc (groups ++ rest) = None.
Proof.
  induction groups as [|b groups IH]; intros index acc rest Hg Hl; cbn [app get_groups length] in *.
  { replace index with 10%nat by lia. by destruct rest. }
  apply Forall_cons in Hg as [Hb Hg]. destruct (10 <=? index)%nat; [done|].
  rewrite (proj2 (Z.eqb_neq _ _)) by done. apply IH; [done|lia].
Qed.

Lemma overlong_undecodable head : overlong head -> decode_grpc_header head = None.
Proof.
  intros (front & groups & rest & -> & Hf & Hg & Hall). unfold decode_grpc_header, get_from.
  destruct (_ <=? _)%nat; [|done]. cbn [mbind option_bind]. rewrite <- Hf, drop_app_length.
  unfold get_protobuf_varint. by rewrite get_groups_overlong by (done || lia).
Qed.

Lemma overlong_extend head more : overlong head -> overlong (head ++ more).
Proof. intros (front & groups & rest & -> & ?). exists front, groups, (rest ++ more). by rewrite <- !(assoc_L (++)). Qed.

(** The bytes that arrive before the body pauses, fails or ends. *)
Fixpoint burst (body : list DataEvent) : bytes :=
  match body with Data bs :: body => bs ++ burst body | _ => [] end.

Lemma overlong_loop fuel : forall this body room,
  hs_framing this = Grpc -> hs_remaining this = 0%nat -> hs_pending this = [] -> overlong (hs_head this) ->
  hs_recv this = RecvReady body -> (length body < fuel)%nat ->
  exists r this', h2_loop fuel this room = Some (r, this') /\ hs_head this' = hs_head this ++ burst body /\
    (forall bs, r = Ready bs -> bs = []).
Proof.
  induction fuel as [|fuel IH]; intros this body room Hf Hrem Hp Ho Hr Hl; [lia|]. cbn [h2_loop]. unfold h2_round, deliverable, gather.
  rewrite Hf, Hrem, Hp. cbn [Nat.min length Nat.ltb Nat.leb Nat.eqb negb]. rewrite andb_false_r.
  unfold start_message. rewrite Hf, Hrem, (overlong_undecodable _ Ho). cbn [mbind option_bind]. rewrite bool_decide_true by done. cbn [andb Nat.eqb].
  unfold poll_recv. rewrite Hr. destruct body as [|[data| |] body]; cbn [poll_body burst].
  - exists (Ready []), this. rewrite app_nil_r. split_and!; [done..|]. by intros bs [= <-].
  - rewrite Hf, Hrem. rewrite bool_decide_true by done. cbn [andb Nat.eqb].
    destruct (IH (reading this (RecvReady body) (hs_pending this) 0 (hs_head this ++ data) (hs_released this + length data)) body room)
      as (r & this' & Hloop & Hh & Hb); [done..| |done|cbn [length] in Hl; lia|].
    { by apply overlong_extend. }
    exists r, this'. split_and!; [done| |done]. rewrite Hh. by rewrite (assoc_L (++)).
  - eexists _, _. split_and!; [done|by rewrite app_nil_r|done].
  - eexists _, _. split_and!; [done|by rewrite app_nil_r|done].
Qed.

Lemma body_weight_length body : (length body <= body_weight body)%nat.
Proof. induction body as [|[] body IH]; cbn; lia. Qed.

(** a length of ten continuation bytes is never rejected.  A reader that meets one
    keeps whatever arrives after it in its header buffer, delivers nothing and reports no
    error, so the buffer grows by all the peer sends. *)
Theorem overlong_hoards this body room :
  hs_framing this = Grpc -> hs_remaining this = 0%nat -> hs_pending this = [] -> overlong (hs_head this) ->
  hs_recv this = RecvReady body ->
  exists r this', H2Stream_poll_read this room = Some (r, this') /\ hs_head this' = hs_head this ++ burst body /\
    (forall bs, r = Ready bs -> bs = []) /\ overlong (hs_head this').
Proof.
  intros Hf Hrem Hp Ho Hr. destruct (overlong_loop (S (h2_weight this)) this body room) as (r & this' & Hl & Hh & Hb); try done.
  { unfold h2_weight. rewrite Hr. cbn [recv_weight]. pose proof (body_weight_length body). lia. }
  exists r, this'. split_and!; [done..|]. rewrite Hh. by apply overlong_extend.
Qed.

Definition hostile_head : bytes := [0; 0; 0; 0; 0; 10] ++ replicate 10 0x80.

Lemma overlong_hoards_witness : exists r this',
  H2Stream_poll_read (mkH2 (mkSend [] [] 0 []) (RecvReady [Data [1; 2]; Data [3]; DataPending]) Grpc [] 0 hostile_head 0) 8 = Some (r, this') /\
  hs_head this' = hostile_head ++ [1; 2; 3] /\ (forall bs, r = Ready bs -> bs = []) /\ overlong (hs_head this').
Proof.
  apply (overlong_hoards (mkH2 (mkSend [] [] 0 []) (RecvReady [Data [1; 2]; Data [3]; DataPending]) Grpc [] 0 hostile_head 0)
    [Data [1; 2]; Data [3]; DataPending] 8); [done..| |done].
  exists [0; 0; 0; 0; 0; 10], (replicate 10 0x80), []. split_and!; [done..|]. repeat constructor; done.
Defined.

(** ** WebSocket messages *)

(** The payload a socket delivers before it closes, and its pauses; nothing follows a
    close frame. *)
Fixpoint ws_arrives (events : list SocketEvent) : option (bytes * nat) :=
  match events with
  | [] | [CloseFrame] => Some ([], 0%nat)
  | Binary payload :: events => '(more, pauses) ← ws_arrives events; Some (payload ++ more, pauses)
  | OtherMessage :: events => ws_arrives events
  | SocketPending :: events => '(more, pauses) ← ws_arrives events; Some (more, S pauses)
  | CloseFrame :: _ | SocketFails :: _ => None
  end.

Definition ws_owes (this : WebSocketStream) (P : bytes) (pauses : nat) : Prop :=
  exists rest, ws_arrives (ws_events this) = Some (rest, pauses) /\ P = ws_pending this ++ rest.

Lemma next_message_arrives events : forall rest pauses,
  ws_arrives events = Some (rest, pauses) ->
  match next_message events with
  | (Ready payload, events') => exists rest', ws_arrives events' = Some (rest', pauses) /\ rest = payload ++ rest' /\ (payload = [] -> rest = [])
  | (Waits, events') => exists pauses', pauses = S pauses' /\ ws_arrives events' = Some (rest, pauses')
  | (Failed _, _) | (Panics, _) => False
  end.
Proof.
  induction events as [|e events IH]; intros rest pauses; [intros [= <- <-]; by exists []|].
  destruct e as [payload| | | |]; cbn [ws_arrives next_message].
  - intros ([more n] & Ha & [= <- <-])%bind_Some. destruct payload as [|b payload]; [by apply IH|]. by exists more.
  - destruct events; [|done]. intros [= <- <-]. by exists [].
  - apply IH.
  - done.
  - intros ([more n] & Ha & [= <- <-])%bind_Some. by exists n.
Qed.

Lemma ws_deliver_owes this rest pauses room :
  ws_arrives (ws_events this) = Some (rest, pauses) -> ws_pending this <> [] -> (0 < room)%nat ->
  let '(r, this') := ws_deliver this room in
  exists bs, r = Ready bs /\ bs <> [] /\ (length bs <= room)%nat /\ exists P', ws_pending this ++ rest = bs ++ P' /\ ws_owes this' P' pauses.
Proof.
  intros Ha Hp Hr. unfold ws_deliver. eexists. split_and!; [done| |rewrite length_take; lia|].
  { destruct (ws_pending this), room; (done || lia). }
  exists (drop (room `min` length (ws_pending this)) (ws_pending this) ++ rest).
  split; [by rewrite (assoc_L (++)), take_drop|]. by exists rest.
Qed.

#[global] Instance WebSocketStream_laws : ReadLaws WebSocketStream.
Proof.
  refine {| owes := ws_owes |}. intros this P pauses room (rest & Ha & ->) Hroom.
  unfold poll_read, WebSocketStream_reads, WebSocketStream_poll_read.
  destruct (ws_pending this) as [|b pending] eqn:Ep; cbn [length Nat.eqb negb].
  - pose proof (next_message_arrives _ _ _ Ha) as Hn. destruct (next_message (ws_events this)) as [[payload| | |] events]; try done.
    + destruct Hn as (rest' & Ha' & -> & Hnil). destruct payload as [|b payload].
      * eexists _, _. split; [done|]. split_and!; [cbn; lia|done|]. exists []. rewrite (Hnil eq_refl) in *. split; [done|].
        exists []. cbn [app] in Hnil. by rewrite (Hnil eq_refl) in Ha'.
      * pose proof (ws_deliver_owes (mkSocket events (ws_sink this) (ws_sent this) (b :: payload)) rest' pauses room Ha' ltac:(done) Hroom) as Hd.
        destruct (ws_deliver _ room) as [r this']. destruct Hd as (bs & -> & Hne & Hl & Hd). by eexists _, _.
    + destruct Hn as (pauses' & -> & Ha'). eexists _, _. split; [done|]. exists pauses'. split; [done|]. by exists rest.
  - pose proof (ws_deliver_owes this rest pauses room Ha ltac:(by rewrite Ep) Hroom) as Hd. rewrite Ep in Hd.
    destruct (ws_deliver this room) as [r this']. destruct Hd as (bs & -> & Hne & Hl & Hd). by eexists _, _.
Defined.

(** A caller of the socket's [poll_write], and the payload of what was sent. *)
Fixpoint ws_write_calls (bufs : list bytes) (this : WebSocketStream) : bytes * WebSocketStream :=
  match bufs with
  | [] => ([], this)
  | buf :: bufs =>
      let '(r, this) := WebSocketStream_poll_write this buf in
      let accepted := match r with Ready n => take n buf | _ => [] end in
      let '(more, this) := ws_write_calls bufs this in
      (accepted ++ more, this)
  end.

Fixpoint ws_payload (events : list SocketEvent) : bytes :=
  match events with [] => [] | Binary payload :: events => payload ++ ws_payload events | _ :: events => ws_payload events end.

Lemma ws_payload_app a b : ws_payload (a ++ b) = ws_payload a ++ ws_payload b.
Proof. induction a as [|[] a IH]; cbn [app ws_payload]; rewrite ?IH, ?(assoc_L (++)); done. Qed.

Lemma ws_write_calls_payload bufs : forall this,
  let '(accepted, this') := ws_write_calls bufs this in ws_payload (ws_sent this') = ws_payload (ws_sent this) ++ accepted.
Proof.
  induction bufs as [|buf bufs IH]; intros this; cbn [ws_write_calls]; [by rewrite app_nil_r|].
  assert (ws_payload (ws_sent (WebSocketStream_poll_write this buf).2) = ws_payload (ws_sent this) ++
    match (WebSocketStream_poll_write this buf).1 with Ready n => take n buf | _ => [] end) as Hw.
  { unfold WebSocketStream_poll_write. destruct (ws_sink this) as [|[[]| |] sink]; cbn; try by rewrite app_nil_r.
    rewrite ws_payload_app, firstn_all. cbn. by rewrite app_nil_r. }
  destruct (WebSocketStream_poll_write this buf) as [r this1]. cbn [fst snd] in Hw. specialize (IH this1).
  destruct (ws_write_calls bufs this1) as [more this2]. by rewrite IH, Hw, (assoc_L (++)).
Qed.

(** A WebSocket stream carries the bytes its writer's calls accept, through empty and
    other messages, pauses and buffers of any size, and ends at the close frame. *)
Theorem ws_roundtrip bufs events sink events' sink' pauses rooms :
  let written := ws_write_calls bufs (WebSocketStream_new events sink) in
  ws_arrives events' = Some (ws_payload (ws_sent written.2), pauses) ->
  Forall (lt 0) rooms -> (length written.1 + pauses < length rooms)%nat ->
  exists reader, read_calls rooms (WebSocketStream_new events' sink') = Some (written.1, true, reader).
Proof.
  cbn zeta. pose proof (ws_write_calls_payload bufs (WebSocketStream_new events sink)) as Hw.
  destruct (ws_write_calls bufs _) as [accepted writer]. cbn [fst snd]. cbn in Hw. rewrite Hw. intros Ha Hr Hl.
  apply (read_calls_owes rooms _ _ pauses); [|done..]. by exists accepted.
Qed.

(** ** The HTTP Upgrade handshake *)

(** [httparse::Response::parse] with room for 32 headers: an error is [None]; a whole
    head has a length, a status code and the headers. *)
Inductive Parsed := Partial | Whole (head : nat) (code : option Z) (headers : list (bytes * bytes)).

Class HttpParse := parse_response : bytes -> option Parsed.

(** The parser looks at bytes from the front and stops at the end of the head, so what it
    decided holds whatever follows. *)
Class HttpParseLaws `{HttpParse} := {
  parse_empty : parse_response [] = Some Partial;
  parse_whole : forall i more head code headers, parse_response i = Some (Whole head code headers) ->
    (head <= length i)%nat /\ parse_response (i ++ more) = Some (Whole head code headers);
  parse_error : forall i more, parse_response i = None -> parse_response (i ++ more) = None;
}.

Record Upgrade := mkUpgrade { up_request : option bytes }.

Definition Upgrade_new (request : bytes) : Upgrade := mkUpgrade (Some request).

Definition upgrade_named (headers : list (bytes * bytes)) (name want : bytes) : bool :=
  existsb (fun '(n, value) => eq_ignore_ascii_case n name && (utf8_ok value && eq_ignore_ascii_case (trim value) want)) headers.

Definition NOT_SWITCHED : bytes := Eval compute in text_of "expected 101, got ".
Definition NO_UPGRADE_HEADERS : bytes := Eval compute in text_of "101 without the upgrade headers".
Definition CONNECTION : bytes := Eval compute in text_of "Connection".
Definition UPGRADE : bytes := Eval compute in text_of "Upgrade".
Definition upgrade_value : bytes := Eval compute in text_of "upgrade".
Definition websocket_value : bytes := Eval compute in text_of "websocket".

Section Upgrading.
Context `{HttpParse}.

Definition Upgrade_advance (m : Upgrade) (input out : bytes) : Res ProxyError (Decoded unit) * Upgrade * bytes :=
  let out := match up_request m with Some request => out ++ request | None => out end in
  let m := mkUpgrade None in
  match parse_response input with
  | None => (Err Header, m, out)
  | Some Partial => (Ok Incomplete, m, out)
  | Some (Whole head code headers) =>
      if negb (bool_decide (code = Some 101)) then (Err (Denied (NOT_SWITCHED ++ decimal (default 0 code))), m, out)
      else if negb (upgrade_named headers CONNECTION upgrade_value) || negb (upgrade_named headers UPGRADE websocket_value)
      then (Err (Denied NO_UPGRADE_HEADERS), m, out)
      else (Ok (Complete tt head), m, out)
  end.

#[global] Instance Upgrade_negotiation : Negotiation Upgrade unit := Upgrade_advance.

Context `{!HttpParseLaws}.

#[global] Instance Upgrade_laws : NegotiationLaws Upgrade unit.
Proof.
  refine {| offered := fun _ i => bytes_ok i |}; unfold advance, Upgrade_negotiation, Upgrade_advance.
  - intros m i more Hi Hmore. by apply Forall_app.
  - intros m i _. destruct (parse_response i) as [[|head code headers]|]; try done. destruct (negb _); [done|]. by destruct (_ || _).
  - done.
  - intros m i more m' o _ _. destruct (parse_response i) as [[|head code headers]|]; try done.
    2:{ destruct (negb _); [done|]. by destruct (_ || _). }
    intros [= <- <-]. cbn [up_request]. destruct (parse_response (i ++ more)) as [[|head code headers]|]; try by rewrite app_nil_r.
    destruct (negb _); [by rewrite app_nil_r|]. destruct (_ || _); by rewrite app_nil_r.
  - intros m i more v n m' o _. destruct (parse_response i) as [[|head code headers]|] eqn:E; try done.
    destruct (parse_whole i more _ _ _ E) as [Hle ->]. destruct (negb (bool_decide _)); [done|]. destruct (_ || _); [done|]. by intros [= <- <- <- <-].
  - intros m i more e m' o _ _. destruct (parse_response i) as [[|head code headers]|] eqn:E; [done| |].
    + destruct (parse_whole i more _ _ _ E) as [_ ->]. destruct (negb (bool_decide _)); [intros [= <- <- <-]; by eexists _, _|].
      destruct (_ || _); [|done]. intros [= <- <- <-]. by eexists _, _.
    + intros [= <- <- <-]. rewrite (parse_error i more E). by eexists _, _.
Defined.

(** The machine is never past the driver's limit with a head that fits it. *)
Lemma upgrade_decided answer rest code headers :
  parse_response answer = Some (Whole (length answer) code headers) -> (length answer <= MAX_NEGOTIATION)%nat ->
  decided_from (mkUpgrade None) [] (answer ++ rest).
Proof.
  intros Ha Hl p _ [more Hp] Hlp. unfold advance, Upgrade_negotiation, Upgrade_advance.
  assert (parse_response p = Some (Whole (length answer) code headers)) as ->.
  { assert (p = answer ++ take (length p - length answer) rest) as ->.
    { apply (f_equal (take (length p))) in Hp. rewrite take_app_length, take_app_ge in Hp by lia. done. }
    by apply (parse_whole _ (take (length p - length answer) rest)) in Ha as [_ ?]. }
  destruct (negb _); [done|]. by destruct (_ || _).
Qed.

(** An HTTP Upgrade over a stream that splits its bytes anywhere: a response head within
    the driver's limit opens the tunnel exactly when its status is 101 and both headers
    are there; the request is written once, and the payload that follows the head is
    kept. *)
Theorem upgrade_opens {W : Type} request answer rest code headers w :
  parse_response answer = Some (Whole (length answer) code headers) -> (length answer <= MAX_NEGOTIATION)%nat ->
  delivers w -> arriving (w_reads w) = answer ++ rest ->
  if bool_decide (code = Some 101) && (upgrade_named headers CONNECTION upgrade_value && upgrade_named headers UPGRADE websocket_value) then
    exists surplus m w', negotiate (Upgrade_new request) w = (Ok (tt, surplus) : Res (EgressError W) _, m, w') /\
      surplus ++ arriving (w_reads w') = rest /\ w_sent w' = w_sent w ++ request
  else exists reason m w', negotiate (Upgrade_new request) w = (Err (Proxy (Denied reason)) : Res (EgressError W) _, m, w').
Proof.
  intros Ha Hl Hw Harr. pose proof (upgrade_decided answer rest code headers Ha Hl) as Hdec. rewrite <- Harr in Hdec.
  assert (answer <> []) as Hne by (intros ->; by rewrite parse_empty in Ha).
  assert (opens (Upgrade_new request) (mkUpgrade None) request) as Ho.
  { split; [|constructor]. unfold advance, Upgrade_negotiation, Upgrade_advance. by rewrite parse_empty. }
  apply (parse_whole _ rest) in Ha as [_ Ha].
  assert (advance (mkUpgrade None) (answer ++ rest) [] = Upgrade_advance (mkUpgrade None) (answer ++ rest) []) as Hadv by done.
  unfold Upgrade_advance in Hadv. rewrite Ha in Hadv. cbn [up_request] in Hadv.
  destruct (bool_decide (code = Some 101)); cbn [negb andb] in *.
  2:{ eexists. eapply negotiate_refuses; [exact Ho|exact Hdec|exact Hw| |]; rewrite Harr; [by destruct answer|exact Hadv]. }
  destruct (upgrade_named headers CONNECTION upgrade_value && upgrade_named headers UPGRADE websocket_value) eqn:En.
  - apply andb_true_iff in En as [E1 E2]. rewrite E1, E2 in Hadv. cbn [negb orb] in Hadv.
    destruct (negotiate_completes (W := W) _ _ _ w answer rest _ _ _ Ho Hdec Hw Hne Harr Hadv) as (surplus & m & w' & Hn & Hr & Hs).
    exists surplus, m, w'. by rewrite app_nil_r in Hs.
  - rewrite <- negb_andb, En in Hadv. cbn [negb] in Hadv.
    eexists. eapply negotiate_refuses; [exact Ho|exact Hdec|exact Hw| |]; rewrite Harr; [by destruct answer|exact Hadv].
Qed.
End Upgrading.

(** [normalise_path] and the [Host] of a request. *)
Definition normalise_path (path : bytes) : bytes := if starts_with [47] path then path else 47 :: path.

Record ProxyHeaders := mkProxyHeaders { h_host : option bytes; h_extra : list (bytes * bytes) }.

Definition host_or (headers : ProxyHeaders) (fallback : bytes) : bytes := default fallback (h_host headers).
