(* ===== verification/Masque.v ===== *)
(** The MASQUE CONNECT-IP egress ([src/egress/masque.rs]): IP packets as HTTP Datagrams
    on one QUIC connection.  The connection and its HTTP/3 layer belong to the quiche
    crate: they are the class [Quiche], and what the egress relies on is [QuicheLaws],
    that the loops draining it come to an end. *)

From S2P Require Import Prelude Wire Net Plan Pool Varint IpText Text Egress.
Open Scope Z_scope.

(** ** Datagrams *)

Definition IP_PACKET_CONTEXT : Z := 0.
Definition MASQUE_OVERHEAD_BYTES : Z := 40 + 8 + 1 + 20 + 4 + 16 + 3 + 5.
Definition PREFIX_BYTES : nat := 5.

Section Datagrams.
Context `{Varint}.

(** The buffer is cleared first. *)
Definition encode_ip_datagram (flow_id : Z) (packet : bytes) : bytes :=
  Writer_bytes packet (Writer_varint IP_PACKET_CONTEXT (Writer_varint flow_id [])).

Definition decode_ip_datagram (datagram : bytes) (expected_flow_id : Z) : option bytes :=
  '(flow, reader) ← Reader_varint (Reader_new datagram);
  if negb (flow =? expected_flow_id) then None else
  '(context, reader) ← Reader_varint reader;
  if negb (context =? IP_PACKET_CONTEXT) then None else
  let packet := Reader_rest reader in
  if negb (length packet =? 0)%nat then Some packet else None.
End Datagrams.

(** ** The tunnel *)

Inductive CloseReason := RefusedStatus (status : Z) | ConnectionClosed | Malformed.

Inductive TunnelState :=
| Connecting
| Requested (flow_id : Z)
| Established (flow_id : Z)
| Closed (reason : CloseReason).

(** [conn.send] and [h3.poll]. *)
Inductive Sends := Written (bs : bytes) | SendsDone | SendsFail.

Inductive H3Event := Headers (fields : list (bytes * bytes)) | Finished | BodyData | OtherEvent.

Inductive Polls := Event_ (stream_id : Z) (event : H3Event) | PollsDone | PollsFail.

(** A connection with its HTTP/3 layer; [q_send] and [q_dgram_recv] write at most as
    many bytes as the buffer they are given. *)
Class Quiche (Q : Type) := {
  q_send : nat -> Q -> Sends * Q;
  q_recv : bytes -> Q -> bool * Q;
  q_on_timeout : Q -> Q;
  q_is_closed : Q -> bool;
  q_is_established : Q -> bool;
  q_with_transport : Q -> bool * Q;
  q_send_request : list (bytes * bytes) -> Q -> option Z * Q;
  q_poll : Q -> Polls * Q;
  q_recv_body : Z -> nat -> Q -> bool * Q;
  q_dgram_recv : nat -> Q -> option bytes * Q;
  q_dgram_send : bytes -> Q -> bool * Q;
  q_dgram_max_writable_len : Q -> option nat;
  q_timeout_instant : Q -> option Instant;
}.

(** What quiche holds for its user, so that every drain ends. *)
Class QuicheLaws (Q : Type) `{Quiche Q} := {
  q_work : Q -> nat;
  q_send_works : forall size q bs q', q_send size q = (Written bs, q') -> (q_work q' < q_work q)%nat /\ (length bs <= size)%nat;
  q_poll_works : forall q stream event q', q_poll q = (Event_ stream event, q') -> (q_work q' < q_work q)%nat;
  q_recv_body_works : forall stream size q ok q', q_recv_body stream size q = (ok, q') ->
    (q_work q' <= q_work q)%nat /\ (ok = true -> (q_work q' < q_work q)%nat);
  q_dgram_recv_works : forall size q bs q', q_dgram_recv size q = (Some bs, q') -> (q_work q' < q_work q)%nat /\ (length bs <= size)%nat;
}.

Record MasqueConfig := mkMasqueConfig {
  mc_authority : bytes;
  mc_path : bytes;
  mc_protocol : bytes;
  mc_nat_behavior : NatBehavior;
}.

Inductive EgressEmit := ToNetwork (pooled : Pooled) | ToTunnel (pooled : Pooled).

(** [me_h3] says whether the HTTP/3 connection is there; [me_scratch] is the length of
    the scratch buffer. *)
Record MasqueEgress (Q : Type) := mkMasque {
  me_conn : Q;
  me_h3 : bool;
  me_state : TunnelState;
  me_config : MasqueConfig;
  me_pool : BufferPool;
  me_scratch : nat;
  me_fast_path_packets : Z;
}.
Arguments mkMasque {Q}. Arguments me_conn {Q}. Arguments me_h3 {Q}. Arguments me_state {Q}. Arguments me_config {Q}.
Arguments me_pool {Q}. Arguments me_scratch {Q}. Arguments me_fast_path_packets {Q}.

Definition METHOD : bytes := Eval compute in text_of ":method".
Definition CONNECT : bytes := Eval compute in text_of "CONNECT".
Definition PROTOCOL : bytes := Eval compute in text_of ":protocol".
Definition SCHEME : bytes := Eval compute in text_of ":scheme".
Definition HTTPS : bytes := Eval compute in text_of "https".
Definition AUTHORITY : bytes := Eval compute in text_of ":authority".
Definition PATH : bytes := Eval compute in text_of ":path".
Definition CAPSULE_PROTOCOL : bytes := Eval compute in text_of "capsule-protocol".
Definition CAPSULES : bytes := Eval compute in text_of "?1".
Definition STATUS : bytes := Eval compute in text_of ":status".

Definition connect_fields (config : MasqueConfig) : list (bytes * bytes) :=
  [(METHOD, CONNECT); (PROTOCOL, mc_protocol config); (SCHEME, HTTPS); (AUTHORITY, mc_authority config);
   (PATH, mc_path config); (CAPSULE_PROTOCOL, CAPSULES)].

(** The status of a response, as the first [:status] field has it. *)
Definition response_status (fields : list (bytes * bytes)) : option Z :=
  '(_, value) ← find (fun '(name, _) => bool_decide (name = STATUS)) fields;
  if utf8_ok value then parse_uint U16_MAX value else None.

Definition on_headers (state : TunnelState) (fields : list (bytes * bytes)) : TunnelState :=
  let requested := match state with Requested flow_id => Some flow_id | _ => None end in
  match response_status fields, requested with
  | Some status, Some flow_id =>
      if (200 <=? status) && (status <? 300) then Established flow_id else Closed (RefusedStatus status)
  | Some status, None => Closed (RefusedStatus status)
  | None, _ => Closed Malformed
  end.

Section Masque.
Context {W Q : Type} `{Quiche Q, Varint}.
Implicit Types self : MasqueEgress Q.

Definition MasqueEgress_new (conn : Q) (config : MasqueConfig) (pool : BufferPool) (max_packet : nat) : MasqueEgress Q :=
  mkMasque conn false Connecting config pool max_packet 0.

Definition with_conn self conn : MasqueEgress Q :=
  mkMasque conn (me_h3 self) (me_state self) (me_config self) (me_pool self) (me_scratch self) (me_fast_path_packets self).
Definition with_state self state : MasqueEgress Q :=
  mkMasque (me_conn self) (me_h3 self) state (me_config self) (me_pool self) (me_scratch self) (me_fast_path_packets self).
Definition with_pool self pool : MasqueEgress Q :=
  mkMasque (me_conn self) (me_h3 self) (me_state self) (me_config self) pool (me_scratch self) (me_fast_path_packets self).

(** The answer, the egress and the emissions; running out of fuel is [Panic]. *)
Abbreviation Outcome := (Res (EgressError W) unit * MasqueEgress Q * list EgressEmit)%type.

Fixpoint drain_send_loop (fuel : nat) self (out : list EgressEmit) : Outcome :=
  match fuel with
  | O => (Panic, self, out)
  | S fuel =>
      let '(sent, conn) := q_send (me_scratch self) (me_conn self) in
      let self := with_conn self conn in
      match sent with
      | Written bs =>
          let '(pooled, pool) := BufferPool_take (me_pool self) bs in
          let self := with_pool self pool in
          match pooled with
          | None => (Err PoolExhausted, self, out)
          | Some pooled => drain_send_loop fuel self (out ++ [ToNetwork pooled])
          end
      | SendsDone => (Ok tt, self, out)
      | SendsFail => (Ok tt, with_state self (Closed ConnectionClosed), out)
      end
  end.

(** [while h3.recv_body(..).is_ok() {}]. *)
Fixpoint discard_body (fuel : nat) (stream_id : Z) (size : nat) (conn : Q) : option Q :=
  match fuel with
  | O => None
  | S fuel =>
      match q_recv_body stream_id size conn with
      | (true, conn) => discard_body fuel stream_id size conn
      | (false, conn) => Some conn
      end
  end.

(** Rounds of [poll_h3]; [body_fuel] bounds the bodies it discards. *)
Fixpoint poll_h3_loop (fuel body_fuel : nat) self : Res (EgressError W) unit * MasqueEgress Q :=
  match fuel with
  | O => (Panic, self)
  | S fuel =>
      let '(polled, conn) := q_poll (me_conn self) in
      let self := with_conn self conn in
      match polled with
      | Event_ _ (Headers fields) => poll_h3_loop fuel body_fuel (with_state self (on_headers (me_state self) fields))
      | Event_ _ Finished => poll_h3_loop fuel body_fuel (with_state self (Closed ConnectionClosed))
      | Event_ stream_id BodyData =>
          match discard_body body_fuel stream_id (me_scratch self) conn with
          | Some conn => poll_h3_loop fuel body_fuel (with_conn self conn)
          | None => (Panic, self)
          end
      | Event_ _ OtherEvent => poll_h3_loop fuel body_fuel self
      | PollsDone => (Ok tt, self)
      | PollsFail => (Ok tt, with_state self (Closed ConnectionClosed))
      end
  end.

Fixpoint drain_datagrams_loop (fuel : nat) (flow_id : Z) self (out : list EgressEmit) : Outcome :=
  match fuel with
  | O => (Panic, self, out)
  | S fuel =>
      let '(received, conn) := q_dgram_recv (me_scratch self) (me_conn self) in
      let self := with_conn self conn in
      match received with
      | None => (Ok tt, self, out)
      | Some datagram =>
          match decode_ip_datagram datagram flow_id with
          | None => drain_datagrams_loop fuel flow_id self out
          | Some packet =>
              let '(pooled, pool) := BufferPool_take (me_pool self) packet in
              let self := with_pool self pool in
              match pooled with
              | Some pooled => drain_datagrams_loop fuel flow_id self (out ++ [ToTunnel pooled])
              | None => (Ok tt, self, out)
              end
          end
      end
  end.
End Masque.

Section MasqueOperations.
Context {W Q : Type} `{QuicheLaws Q, Varint}.
Implicit Types self : MasqueEgress Q.

Abbreviation Outcome := (Res (EgressError W) unit * MasqueEgress Q * list EgressEmit)%type.

(** The drains, with fuel for all that quiche holds. *)
Definition drain_send self (out : list EgressEmit) : Outcome := drain_send_loop (S (q_work (me_conn self))) self out.

Definition poll_h3 self : Res (EgressError W) unit * MasqueEgress Q :=
  if me_h3 self then poll_h3_loop (S (q_work (me_conn self))) (S (q_work (me_conn self))) self else (Ok tt, self).

Definition drain_datagrams self (out : list EgressEmit) : Outcome :=
  match me_state self with
  | Established flow_id => drain_datagrams_loop (S (q_work (me_conn self))) flow_id self out
  | _ => (Ok tt, self, out)
  end.

(** The CONNECT request, once the handshake is done. *)
Definition send_connect self : Res (EgressError W) unit * MasqueEgress Q :=
  if me_h3 self then (Ok tt, self) else
  let '(ready, conn) := q_with_transport (me_conn self) in
  let self := with_conn self conn in
  if negb ready then (Err Masque, self) else
  let '(stream, conn) := q_send_request (connect_fields (me_config self)) (me_conn self) in
  let self := with_conn self conn in
  match stream with
  | None => (Err Masque, self)
  | Some stream_id =>
      (Ok tt, mkMasque (me_conn self) true (Requested (stream_id / 4)) (me_config self) (me_pool self) (me_scratch self)
                (me_fast_path_packets self))
  end.

Definition advance_tunnel self (out : list EgressEmit) : Outcome :=
  if q_is_closed (me_conn self) then (Ok tt, with_state self (Closed ConnectionClosed), out)
  else if negb (q_is_established (me_conn self)) then (Ok tt, self, out)
  else
  match send_connect self with
  | (Ok _, self) =>
      match poll_h3 self with
      | (Ok _, self) => drain_datagrams self out
      | (r, self) => (r, self, out)
      end
  | (r, self) => (r, self, out)
  end.

(** The end of the handlers: [self.advance(out)?; self.drain_send(out)]. *)
Definition advance_and_drain self (out : list EgressEmit) : Outcome :=
  match advance_tunnel self out with
  | (Ok _, self, out) => drain_send self out
  | outcome => outcome
  end.

Definition handle_tun_packet self (packet : bytes) (out : list EgressEmit) : Outcome :=
  let '(counted, self) :=
    match me_state self with
    | Established flow_id =>
        let '(sent, conn) := q_dgram_send (encode_ip_datagram flow_id packet) (me_conn self) in
        let count := if sent : bool then checked_add U64_MAX (me_fast_path_packets self) 1 else Some (me_fast_path_packets self) in
        (count, with_conn self conn)
    | _ => (Some (me_fast_path_packets self), self)
    end in
  match counted with
  | None => (Panic, self, out)
  | Some count =>
      drain_send (mkMasque (me_conn self) (me_h3 self) (me_state self) (me_config self) (me_pool self) (me_scratch self) count) out
  end.

Definition handle_network_packet self (datagram : bytes) (out : list EgressEmit) : Outcome :=
  let '(parsed, conn) := q_recv datagram (me_conn self) in
  let self := with_conn self conn in
  if negb parsed then (Err MalformedNetworkPacket, self, out) else advance_and_drain self out.

Definition tick self (out : list EgressEmit) : Outcome :=
  advance_and_drain (with_conn self (q_on_timeout (me_conn self))) out.

Definition Masque_properties self : PathProperties :=
  let max_datagram_size :=
    len ← q_dgram_max_writable_len (me_conn self);
    let size := Z.of_nat (len - PREFIX_BYTES) in
    if size <=? U16_MAX then Some size else None in
  mkPath Native MASQUE_OVERHEAD_BYTES max_datagram_size false (mc_nat_behavior (me_config self)).
End MasqueOperations.

(** ** Executions *)

Inductive MasqueOp := TunPacket (packet : bytes) | NetworkPacket (datagram : bytes) | Tick.

(** The status of a response: the text of its first [:status] field, as a number. *)
Definition answers (fields : list (bytes * bytes)) (status : Z) : Prop :=
  exists before value after, fields = before ++ (STATUS, value) :: after /\ STATUS ∉ before.*1 /\
    utf8_ok value = true /\ parse_uint U16_MAX value = Some status.

(** Uses of a connection that leave the tunnel's state alone. *)
Inductive quiet {Q : Type} `{Quiche Q} : Q -> Q -> Prop :=
| quiet_send size q sent q' : q_send size q = (sent, q') -> sent <> SendsFail -> quiet q q'
| quiet_recv datagram q parsed q' : q_recv datagram q = (parsed, q') -> quiet q q'
| quiet_timeout q : quiet q (q_on_timeout q)
| quiet_transport q ready q' : q_with_transport q = (ready, q') -> quiet q q'
| quiet_unsent fields q q' : q_send_request fields q = (None, q') -> quiet q q'
| quiet_done q q' : q_poll q = (PollsDone, q') -> quiet q q'
| quiet_data q stream q' : q_poll q = (Event_ stream BodyData, q') -> quiet q q'
| quiet_other q stream q' : q_poll q = (Event_ stream OtherEvent, q') -> quiet q q'
| quiet_body stream size q ok q' : q_recv_body stream size q = (ok, q') -> quiet q q'
| quiet_dgram_recv size q received q' : q_dgram_recv size q = (received, q') -> quiet q q'
| quiet_dgram_send datagram q sent q' : q_dgram_send datagram q = (sent, q') -> quiet q q'.

(** How a tunnel moves: its connection, whether its CONNECT was sent, and its state, each
    move with the answer of the connection that makes it.  The request is sent once, with
    the fields of the configuration; a response is judged by its status; and a tunnel
    that has sent its request leaves [Closed] no more. *)
Inductive tunnel_move {Q : Type} `{Quiche Q} (config : MasqueConfig) : Q * bool * TunnelState -> Q * bool * TunnelState -> Prop :=
| move_quiet q q' h3 state : quiet q q' -> tunnel_move config (q, h3, state) (q', h3, state)
| move_request q q' state stream_id : (state = Connecting \/ exists reason, state = Closed reason) ->
    q_send_request (connect_fields config) q = (Some stream_id, q') ->
    tunnel_move config (q, false, state) (q', true, Requested (stream_id / 4))
| move_accept q q' stream fields flow_id status : q_poll q = (Event_ stream (Headers fields), q') ->
    answers fields status -> 200 <= status < 300 ->
    tunnel_move config (q, true, Requested flow_id) (q', true, Established flow_id)
| move_refuse q q' stream fields state status : q_poll q = (Event_ stream (Headers fields), q') ->
    answers fields status -> ((forall flow_id, state <> Requested flow_id) \/ ~ 200 <= status < 300) ->
    tunnel_move config (q, true, state) (q', true, Closed (RefusedStatus status))
| move_malformed q q' stream fields state : q_poll q = (Event_ stream (Headers fields), q') -> (forall status, ~ answers fields status) ->
    tunnel_move config (q, true, state) (q', true, Closed Malformed)
| move_finished q q' stream state : q_poll q = (Event_ stream Finished, q') ->
    tunnel_move config (q, true, state) (q', true, Closed ConnectionClosed)
| move_poll_fails q q' state : q_poll q = (PollsFail, q') -> tunnel_move config (q, true, state) (q', true, Closed ConnectionClosed)
| move_send_fails size q q' h3 state : q_send size q = (SendsFail, q') -> tunnel_move config (q, h3, state) (q', h3, Closed ConnectionClosed)
| move_closed q h3 state : q_is_closed q = true -> tunnel_move config (q, h3, state) (q, h3, Closed ConnectionClosed).

Lemma response_status_answers fields status : response_status fields = Some status <-> answers fields status.
Proof.
  unfold response_status, answers. induction fields as [|[name value] fields IH]; cbn [find].
  { split; [done|]. by intros ([|] & ? & ? & ? & _). }
  case_bool_decide as Hn; cbn [mbind option_bind].
  - subst name. split.
    + intros Hs. destruct (utf8_ok value) eqn:Eu; [|done]. exists [], value, fields. split_and!; [done|apply not_elem_of_nil|done|done].
    + intros ([|[n v] before] & value' & after & Heq & Hno & Hu & Hp); cbn in Heq; simplify_eq; [by rewrite Hu|]. cbn in Hno. set_solver.
  - rewrite IH. split.
    + intros (before & value' & after & -> & Hno & Hu & Hp). exists ((name, value) :: before), value', after. split_and!; [done| |done|done].
      cbn. apply not_elem_of_cons. split; [congruence|done].
    + intros ([|[n v] before] & value' & after & Heq & Hno & Hu & Hp); cbn in Heq; simplify_eq. cbn in Hno. apply not_elem_of_cons in Hno as [_ Hno].
      by exists before, value', after.
Qed.

Section MasqueTheory.
Context {W Q : Type} `{QuicheLaws Q, Varint}.
Implicit Types self : MasqueEgress Q.

Definition masque_step self (op : MasqueOp) : Res (EgressError W) unit * MasqueEgress Q * list EgressEmit :=
  match op with
  | TunPacket packet => handle_tun_packet self packet []
  | NetworkPacket datagram => handle_network_packet self datagram []
  | Tick => tick self []
  end.

(** A shell that calls the egress with one operation after another, an error or not;
    a panic ends the run. *)
Fixpoint masque_run self (ops : list MasqueOp) : option (MasqueEgress Q * list EgressEmit) :=
  match ops with
  | [] => Some (self, [])
  | op :: ops =>
      match masque_step self op with
      | (Panic, _, _) => None
      | (_, self, out) => '(self, more) ← masque_run self ops; Some (self, out ++ more)
      end
  end.

(** The part of the state the lifecycle is about. *)
Definition phase_of self : Q * bool * TunnelState := (me_conn self, me_h3 self, me_state self).

Abbreviation moves self := (rtc (tunnel_move (me_config self))).

(** What every loop keeps: it answers, moves the state by the rules, and only a tunnel
    that is established delivers packets. *)
Definition moved {A : Type} self (r : Res (EgressError W) A) self' : Prop :=
  r <> Panic /\ moves self (phase_of self) (phase_of self') /\ me_config self' = me_config self /\
  me_fast_path_packets self' = me_fast_path_packets self.

(** A move after which the rest is moved. *)
Lemma moved_after {A : Type} self self1 (r : Res (EgressError W) A) self' :
  moved self1 r self' -> tunnel_move (me_config self) (phase_of self) (phase_of self1) -> me_config self1 = me_config self ->
  me_fast_path_packets self1 = me_fast_path_packets self -> moved self r self'.
Proof. intros (Hp & Hms & Hc' & Hf') Hm Hc Hf. rewrite Hc in Hms. split_and!; [done|by eapply rtc_l|congruence|congruence]. Qed.

Lemma moved_once {A : Type} self (r : Res (EgressError W) A) self' :
  r <> Panic -> tunnel_move (me_config self) (phase_of self) (phase_of self') -> me_config self' = me_config self ->
  me_fast_path_packets self' = me_fast_path_packets self -> moved self r self'.
Proof. intros Hr Hm Hc Hf. split_and!; [done|by apply rtc_once|done|done]. Qed.

Lemma drain_send_loop_moved fuel : forall self out,
  (q_work (me_conn self) < fuel)%nat ->
  let '(r, self', out') := drain_send_loop (W := W) fuel self out in
  moved self r self' /\ exists sent, out' = out ++ (ToNetwork <$> sent).
Proof.
  induction fuel as [|fuel IH]; intros self out Hf; [lia|]. cbn [drain_send_loop].
  destruct (q_send (me_scratch self) (me_conn self)) as [sent conn] eqn:Es. destruct sent as [bs| |].
  - pose proof (quiet_send _ _ _ _ Es ltac:(done)) as Hq. apply q_send_works in Es as [Hw _]. destruct (BufferPool_take _ bs) as [[pooled|] pool].
    + specialize (IH (with_pool (with_conn self conn) pool) (out ++ [ToNetwork pooled])).
      destruct (drain_send_loop fuel _ _) as [[r self'] out']. destruct IH as [Hm [sent ->]]; [cbn; lia|].
      split; [eapply moved_after; [exact Hm|by apply move_quiet|done|done]|].
      exists (pooled :: sent). by rewrite <- (assoc_L (++)).
    + split; [apply moved_once; [done|by apply move_quiet|done|done]|]. exists []. by rewrite app_nil_r.
  - split; [apply moved_once; [done|apply move_quiet; by eapply quiet_send|done|done]|]. exists []. by rewrite app_nil_r.
  - split; [|exists []; by rewrite app_nil_r]. apply moved_once; [done|by eapply move_send_fails|done|done].
Qed.

Lemma discard_body_spec fuel : forall stream size conn,
  (q_work conn < fuel)%nat ->
  exists conn', discard_body fuel stream size conn = Some conn' /\ (q_work conn' <= q_work conn)%nat /\ rtc quiet conn conn'.
Proof.
  induction fuel as [|fuel IH]; intros stream size conn Hf; [lia|]. cbn [discard_body].
  destruct (q_recv_body stream size conn) as [ok conn'] eqn:E. pose proof (quiet_body _ _ _ _ _ E) as Hq.
  apply q_recv_body_works in E as [Hle Hlt].
  destruct ok; [|exists conn'; split_and!; [done|done|by apply rtc_once]]. specialize (Hlt eq_refl).
  destruct (IH stream size conn') as (conn'' & -> & ? & ?); [lia|]. exists conn''. split_and!; [done|lia|by eapply rtc_l].
Qed.

Lemma quiet_moves config h3 state q q' : rtc quiet q q' -> rtc (tunnel_move config) (q, h3, state) (q', h3, state).
Proof. induction 1 as [|q q1 q' Hq _ IH]; [done|]. eapply rtc_l; [by apply move_quiet|done]. Qed.

Lemma on_headers_moves config q q' stream state fields : q_poll q = (Event_ stream (Headers fields), q') ->
  tunnel_move config (q, true, state) (q', true, on_headers state fields).
Proof.
  intros Hp. unfold on_headers. destruct (response_status fields) as [status|] eqn:Es.
  - apply response_status_answers in Es. destruct state as [|flow_id|flow_id|reason].
    1, 3, 4: (eapply move_refuse; [done|done|by left]).
    destruct (_ && _) eqn:E; reflect; [eapply move_accept; [done|done|lia]|].
    eapply move_refuse; [done|done|right]. destruct (200 <=? status) eqn:E1, (status <? 300) eqn:E2; reflect; try done; lia.
  - eapply move_malformed; [done|]. intros status Ha%response_status_answers. congruence.
Qed.

Lemma poll_h3_loop_moved fuel : forall body_fuel self,
  me_h3 self = true -> (q_work (me_conn self) < fuel)%nat -> (fuel <= body_fuel)%nat ->
  let '(r, self') := poll_h3_loop (W := W) fuel body_fuel self in moved self r self' /\ me_h3 self' = true.
Proof.
  induction fuel as [|fuel IH]; intros body_fuel self Hh Hf Hb; [lia|]. cbn [poll_h3_loop].
  destruct (q_poll (me_conn self)) as [polled conn] eqn:Ep. destruct polled as [stream event| |].
  2:{ split; [|done]. apply moved_once; [done|apply move_quiet; by apply quiet_done|done|done]. }
  2:{ split; [|done]. apply moved_once; [done| |done|done]. unfold phase_of. rewrite Hh. cbn. rewrite Hh. by apply move_poll_fails. }
  assert (forall self1, me_h3 self1 = true -> (q_work (me_conn self1) < fuel)%nat ->
    moves self (phase_of self) (phase_of self1) -> me_config self1 = me_config self -> me_fast_path_packets self1 = me_fast_path_packets self ->
    let '(r, self') := poll_h3_loop (W := W) fuel body_fuel self1 in moved self r self' /\ me_h3 self' = true) as Hgo.
  { intros self1 Hh1 Hw1 Hm1 Hc1 Hf1. specialize (IH body_fuel self1 Hh1 ltac:(lia) ltac:(lia)).
    destruct (poll_h3_loop fuel body_fuel self1) as [r self']. destruct IH as [(Hp & Hm & Hc & Hf') Hh']. split; [|done].
    rewrite Hc1 in Hm. split_and!; [done|by etrans|congruence|congruence]. }
  pose proof (q_poll_works _ _ _ _ Ep) as Hw. destruct event as [fields| | |].
  - apply Hgo; [done|cbn; lia| |done|done]. apply rtc_once. unfold phase_of. cbn. rewrite Hh. by eapply on_headers_moves.
  - apply Hgo; [done|cbn; lia| |done|done]. apply rtc_once. unfold phase_of. cbn. rewrite Hh. by eapply move_finished.
  - cbn [with_conn me_scratch]. destruct (discard_body_spec body_fuel stream (me_scratch self) conn) as (conn' & -> & Hw' & Hq); [lia|].
    apply Hgo; [done|cbn; lia| |done|done]. eapply rtc_l; [apply move_quiet; by eapply quiet_data|]. by apply quiet_moves.
  - apply Hgo; [done|cbn; lia| |done|done]. apply rtc_once, move_quiet. by eapply quiet_other.
Qed.

Lemma drain_datagrams_loop_moved fuel : forall flow_id self out,
  (q_work (me_conn self) < fuel)%nat ->
  let '(r, self', out') := drain_datagrams_loop (W := W) fuel flow_id self out in
  moved self r self' /\ me_state self' = me_state self /\ exists packets, out' = out ++ (ToTunnel <$> packets).
Proof.
  induction fuel as [|fuel IH]; intros flow_id self out Hf; [lia|]. cbn [drain_datagrams_loop].
  destruct (q_dgram_recv (me_scratch self) (me_conn self)) as [received conn] eqn:Ed.
  assert (tunnel_move (me_config self) (phase_of self) (phase_of (with_conn self conn))) as Hq by (apply move_quiet; by eapply quiet_dgram_recv).
  destruct received as [datagram|].
  2:{ split_and!; [by apply moved_once|done|]. exists []. by rewrite app_nil_r. }
  apply q_dgram_recv_works in Ed as [Hw _]. destruct (decode_ip_datagram datagram flow_id) as [packet|].
  2:{ specialize (IH flow_id (with_conn self conn) out). destruct (drain_datagrams_loop fuel flow_id _ _) as [[r self'] out'].
      destruct IH as (Hm & Hs & Hout); [cbn; lia|]. split_and!; [|done|done]. by eapply moved_after; [exact Hm|exact Hq|..]. }
  destruct (BufferPool_take _ packet) as [[pooled|] pool].
  2:{ split_and!; [by apply moved_once|done|]. exists []. by rewrite app_nil_r. }
  specialize (IH flow_id (with_pool (with_conn self conn) pool) (out ++ [ToTunnel pooled])).
  destruct (drain_datagrams_loop fuel flow_id _ _) as [[r self'] out']. destruct IH as (Hm & Hs & packets & ->); [cbn; lia|].
  split_and!; [by eapply moved_after; [exact Hm|exact Hq|..]|exact Hs|]. exists (pooled :: packets). by rewrite <- (assoc_L (++)).
Qed.

(** An established tunnel has sent its request. *)
Definition phase_ok (p : Q * bool * TunnelState) : Prop := p.1.2 = false -> match p.2 with Requested _ | Established _ => False | _ => True end.
Definition tunnel_ok self : Prop := phase_ok (phase_of self).

Lemma tunnel_moves_ok config p q : rtc (tunnel_move config) p q -> phase_ok p -> phase_ok q.
Proof. induction 1 as [|p q r Hpq _ IH]; [done|]. intros Hp. apply IH. by destruct Hpq. Qed.

(** What an operation does: it answers, moves the state, counts at most one packet and
    that only on an established tunnel, and delivers packets only if it came by
    [Established]. *)
Definition came_by_established self : Prop := exists q flow_id, moves self (phase_of self) (q, true, Established flow_id).
Definition delivers_established self (out : list EgressEmit) : Prop := forall p, ToTunnel p ∈ out -> came_by_established self.

Lemma came_after self self1 : moves self (phase_of self) (phase_of self1) -> me_config self1 = me_config self ->
  came_by_established self1 -> came_by_established self.
Proof. intros Hm Hc (q & f & Hf). rewrite Hc in Hf. exists q, f. by etrans. Qed.

Lemma send_connect_moved self :
  tunnel_ok self ->
  let '(r, self') := send_connect (W := W) self in moved self r self' /\ (forall x, r = Ok x -> me_h3 self' = true).
Proof.
  intros Hok. unfold send_connect. destruct (me_h3 self) eqn:Hh; [by repeat split|].
  destruct (q_with_transport (me_conn self)) as [ready conn] eqn:Et.
  assert (tunnel_move (me_config self) (phase_of self) (phase_of (with_conn self conn))) as Hq by (apply move_quiet; by eapply quiet_transport).
  destruct ready; cbn [negb]; [|split; [by apply moved_once|done]].
  cbn [with_conn me_config me_conn]. destruct (q_send_request _ conn) as [[stream|] conn'] eqn:Er; (split; [|done]);
    (eapply (moved_after _ (with_conn self conn)); [|exact Hq|done|done]); apply moved_once; try done; unfold phase_of; cbn; rewrite Hh.
  - apply (move_request (me_config self)); [|done]. unfold tunnel_ok, phase_ok, phase_of in Hok. cbn in Hok. specialize (Hok Hh).
    destruct (me_state self); try done; [by left|right; by eexists].
  - apply move_quiet. by eapply quiet_unsent.
Qed.

Lemma advance_tunnel_moved self out :
  tunnel_ok self ->
  let '(r, self', out') := advance_tunnel (W := W) self out in
  moved self r self' /\ exists packets, out' = out ++ (ToTunnel <$> packets) /\ delivers_established self (ToTunnel <$> packets).
Proof.
  intros Hok. assert (exists packets, out = out ++ (ToTunnel <$> packets) /\ delivers_established self (ToTunnel <$> packets)) as Hnone.
  { exists []. rewrite app_nil_r. split; [done|]. intros p Hp. by apply not_elem_of_nil in Hp. }
  unfold advance_tunnel. destruct (q_is_closed _) eqn:Ecl.
  { split; [|done]. apply moved_once; [done|by apply move_closed|done|done]. }
  destruct (negb _); [by repeat split|]. pose proof (send_connect_moved self Hok) as Hc.
  destruct (send_connect self) as [r self1]. destruct Hc as [(Hp1 & Hm1 & Hc1 & Hf1) Hh1]. destruct r as [[]| |]; [|by repeat split|done].
  specialize (Hh1 _ eq_refl). unfold poll_h3. rewrite Hh1.
  pose proof (poll_h3_loop_moved (S (q_work (me_conn self1))) (S (q_work (me_conn self1))) self1 Hh1 ltac:(lia) ltac:(lia)) as Hpoll.
  destruct (poll_h3_loop _ _ self1) as [r self2]. destruct Hpoll as [(Hp2 & Hm2 & Hc2 & Hf2) Hh2]. rewrite Hc1 in Hm2, Hc2.
  assert (moves self (phase_of self) (phase_of self2)) as Hm by (by etrans).
  assert (forall r' : Res (EgressError W) unit, r' <> Panic -> moved self r' self2) as Hmv by (intros; split_and!; [done|done|done|congruence]).
  destruct r as [[]| |]; [|by split; [apply Hmv|]|done]. unfold drain_datagrams.
  destruct (me_state self2) as [|f|f|reason] eqn:Es; try (by split; [apply Hmv|]).
  pose proof (drain_datagrams_loop_moved (S (q_work (me_conn self2))) f self2 out ltac:(lia)) as Hd.
  destruct (drain_datagrams_loop _ f self2 out) as [[r self3] out']. destruct Hd as ((Hp3 & Hm3 & Hc3 & Hf3) & Hs3 & packets & ->).
  rewrite Hc2 in Hm3, Hc3. split; [split_and!; [done|by etrans|done|congruence]|]. exists packets. split; [done|]. intros p _.
  exists (me_conn self2), f. unfold phase_of in Hm at 2. by rewrite Hh2, Es in Hm.
Qed.

Definition stepped self (r : Res (EgressError W) unit) self' (out : list EgressEmit) : Prop :=
  r <> Panic /\ moves self (phase_of self) (phase_of self') /\ me_config self' = me_config self /\ delivers_established self out /\
  (me_fast_path_packets self' = me_fast_path_packets self \/
   me_fast_path_packets self' = me_fast_path_packets self + 1 /\ exists flow_id, me_state self = Established flow_id).

Lemma advance_and_drain_stepped self :
  tunnel_ok self -> let '(r, self', out) := advance_and_drain (W := W) self [] in stepped self r self' out.
Proof.
  intros Hok. unfold advance_and_drain. pose proof (advance_tunnel_moved self [] Hok) as Ha.
  destruct (advance_tunnel self []) as [[r self1] out]. destruct Ha as ((Hp1 & Hm1 & Hc1 & Hf1) & packets & -> & Hd).
  destruct r as [[]| |]; [|by split_and!; [..|left]|done]. unfold drain_send.
  pose proof (drain_send_loop_moved (S (q_work (me_conn self1))) self1 ([] ++ (ToTunnel <$> packets)) ltac:(lia)) as Hs.
  destruct (drain_send_loop _ self1 _) as [[r self2] out']. destruct Hs as ((Hp2 & Hm2 & Hc2 & Hf2) & sent & ->). rewrite Hc1 in Hm2, Hc2.
  split_and!; [done|by etrans|done| |left; congruence]. intros p [Hp|(x & ? & _)%list_elem_of_fmap]%elem_of_app; [by apply (Hd p)|done].
Qed.

(** A quiet use of the connection before an operation. *)
Lemma stepped_after self conn r self' out : quiet (me_conn self) conn -> stepped (with_conn self conn) r self' out -> stepped self r self' out.
Proof.
  intros Hq (Hp & Hm & Hc & Hd & Hf). assert (moves self (phase_of self) (phase_of (with_conn self conn))) as Hfirst by (by apply rtc_once, move_quiet).
  split_and!; [done|by etrans|done| |done]. intros p Hin. by eapply came_after, Hd.
Qed.

Lemma masque_step_stepped self op :
  tunnel_ok self -> me_fast_path_packets self < U64_MAX ->
  let '(r, self', out) := masque_step self op in stepped self r self' out.
Proof.
  intros Hok Hfast. destruct op as [packet|datagram|]; cbn [masque_step].
  - unfold handle_tun_packet.
    assert (forall conn count, rtc quiet (me_conn self) conn ->
      (count = me_fast_path_packets self \/ count = me_fast_path_packets self + 1 /\ exists flow_id, me_state self = Established flow_id) ->
      let '(r, self', out) := drain_send (W := W) (mkMasque conn (me_h3 self) (me_state self) (me_config self) (me_pool self)
        (me_scratch self) count) [] in stepped self r self' out) as Hdrain.
    { intros conn count Hq Hc. unfold drain_send. set (self2 := mkMasque _ _ _ _ _ _ _).
      pose proof (drain_send_loop_moved (S (q_work (me_conn self2))) self2 [] ltac:(lia)) as Hs.
      destruct (drain_send_loop _ self2 []) as [[r self'] out]. destruct Hs as ((Hp & Hm & Hc' & Hf) & sent & ->).
      apply (quiet_moves (me_config self) (me_h3 self) (me_state self)) in Hq.
      split_and!; [done|by etrans|done| |by rewrite Hf]. by intros p (x & ? & _)%list_elem_of_fmap. }
    destruct (me_state self) as [|f|f|reason] eqn:Es; try (rewrite <- Es in *; apply Hdrain; [done|by left]).
    destruct (q_dgram_send _ _) as [sent conn] eqn:Ed. assert (rtc quiet (me_conn self) conn) as Hq by (apply rtc_once; by eapply quiet_dgram_send).
    cbn [with_conn me_conn me_h3 me_state me_config me_pool me_scratch]. rewrite Es.
    destruct sent; [|apply Hdrain; [done|by left]].
    unfold checked_add. rewrite (proj2 (Z.leb_le _ _)) by lia. apply Hdrain; [done|]. right. split; [done|]. by exists f.
  - unfold handle_network_packet. destruct (q_recv datagram (me_conn self)) as [parsed conn] eqn:Er. pose proof (quiet_recv _ _ _ _ Er) as Hq.
    destruct parsed; cbn [negb].
    + pose proof (advance_and_drain_stepped (with_conn self conn) Hok) as Ha. destruct (advance_and_drain _ _) as [[r self'] out].
      by eapply stepped_after.
    + split_and!; [done|by apply rtc_once, move_quiet|done| |by left]. intros p Hp. by apply not_elem_of_nil in Hp.
  - pose proof (advance_and_drain_stepped (with_conn self (q_on_timeout (me_conn self))) Hok) as Ha. unfold tick.
    destruct (advance_and_drain _ _) as [[r self'] out]. eapply stepped_after; [apply quiet_timeout|done].
Qed.

Lemma masque_run_stepped ops : forall self,
  tunnel_ok self -> me_fast_path_packets self + Z.of_nat (length ops) <= U64_MAX ->
  exists self' out, masque_run self ops = Some (self', out) /\ tunnel_ok self' /\
    moves self (phase_of self) (phase_of self') /\ delivers_established self out /\
    (me_fast_path_packets self' <> me_fast_path_packets self -> came_by_established self).
Proof.
  induction ops as [|op ops IH]; intros self Hok Hfast; cbn [masque_run].
  { exists self, []. split_and!; [done..| |done]. intros p Hp. by apply not_elem_of_nil in Hp. }
  cbn [length] in Hfast. pose proof (masque_step_stepped self op Hok ltac:(lia)) as Hs.
  destruct (masque_step self op) as [[r self1] out1]. destruct Hs as (Hp & Hm & Hcfg & Hd & Hc).
  assert (tunnel_ok self1) as Hok1 by (by eapply tunnel_moves_ok).
  destruct (IH self1 Hok1) as (self2 & out2 & Hrun & Hok2 & Hm2 & Hd2 & Hc2); [destruct Hc as [->|[-> _]]; lia|].
  exists self2, (out1 ++ out2). split_and!; [destruct r; [by rewrite Hrun..|done]|done|rewrite Hcfg in Hm2; by etrans| |].
  - intros p [Hin|Hin]%elem_of_app; [by apply (Hd p)|]. by eapply came_after, Hd2.
  - intros Hne. destruct (decide (me_fast_path_packets self2 = me_fast_path_packets self1)) as [Heq|Hne2].
    + destruct Hc as [?|[_ [f Hf]]]; [congruence|]. exists (me_conn self), f. unfold tunnel_ok, phase_ok, phase_of in *. cbn in Hok. rewrite Hf in *.
      destruct (me_h3 self) eqn:Hh; [done|]. by destruct (Hok eq_refl).
    + by eapply came_after, Hc2.
Qed.
End MasqueTheory.

(** ** A connection by its script *)

(** What a connection will give: QUIC packets, HTTP/3 events, body reads and datagrams;
    [sq_sent] is what was given to it as datagrams. *)
Record ScriptedQuic := mkScripted {
  sq_packets : list bytes;
  sq_events : list (Z * H3Event);
  sq_bodies : nat;
  sq_datagrams : list bytes;
  sq_sent : list bytes;
  sq_max : option nat;
}.

Definition scripted_datagram (size : nat) (q : ScriptedQuic) : option bytes * ScriptedQuic :=
  match sq_datagrams q with
  | d :: rest =>
      if (length d <=? size)%nat
      then (Some d, mkScripted (sq_packets q) (sq_events q) (sq_bodies q) rest (sq_sent q) (sq_max q))
      else (None, q)
  | [] => (None, q)
  end.

Definition scripted_send (size : nat) (q : ScriptedQuic) : Sends * ScriptedQuic :=
  match sq_packets q with
  | p :: rest =>
      if (length p <=? size)%nat
      then (Written p, mkScripted rest (sq_events q) (sq_bodies q) (sq_datagrams q) (sq_sent q) (sq_max q))
      else (SendsFail, q)
  | [] => (SendsDone, q)
  end.

#[export] Instance scripted_quiche : Quiche ScriptedQuic := {|
  q_send := scripted_send;
  q_recv := fun _ q => (true, q);
  q_on_timeout := id;
  q_is_closed := fun _ => false;
  q_is_established := fun _ => true;
  q_with_transport := fun q => (true, q);
  q_send_request := fun _ q => (Some 0, q);
  q_poll := fun q =>
    match sq_events q with
    | (stream, event) :: rest => (Event_ stream event, mkScripted (sq_packets q) rest (sq_bodies q) (sq_datagrams q) (sq_sent q) (sq_max q))
    | [] => (PollsDone, q)
    end;
  q_recv_body := fun _ _ q =>
    match sq_bodies q with
    | S n => (true, mkScripted (sq_packets q) (sq_events q) n (sq_datagrams q) (sq_sent q) (sq_max q))
    | O => (false, q)
    end;
  q_dgram_recv := scripted_datagram;
  q_dgram_send := fun d q => (true, mkScripted (sq_packets q) (sq_events q) (sq_bodies q) (sq_datagrams q) (sq_sent q ++ [d]) (sq_max q));
  q_dgram_max_writable_len := sq_max;
  q_timeout_instant := fun _ => Some 0;
|}.

#[export] Instance scripted_quiche_laws : QuicheLaws ScriptedQuic.
Proof.
  refine {| q_work := fun q => (length (sq_packets q) + length (sq_events q) + sq_bodies q + length (sq_datagrams q))%nat |}.
  - intros size q bs q'. cbn. unfold scripted_send. destruct (sq_packets q) as [|p rest]; [done|].
    destruct (_ <=? _)%nat eqn:E; reflect; [|done]. intros [= <- <-]. cbn. split; [lia|done].
  - intros q stream event q'. cbn. destruct (sq_events q) as [|[s e] rest]; [done|]. intros [= <- <- <-]. cbn. lia.
  - intros stream size q ok q'. cbn. destruct (sq_bodies q) eqn:E; intros [= <- <-]; [rewrite E; split; [lia|done]|]. cbn. lia.
  - intros size q bs q'. cbn. unfold scripted_datagram. destruct (sq_datagrams q) as [|d rest]; [done|].
    destruct (_ <=? _)%nat eqn:E; reflect; [|done]. intros [= <- <-]. cbn. split; [lia|done].
Defined.

Section MasqueClaims.
Context {W Q : Type} `{QuicheLaws Q, Varint}.
Implicit Types self : MasqueEgress Q.

Lemma moves_closed config q reason p : rtc (tunnel_move config) (q, true, Closed reason) p -> exists q' reason', p = (q', true, Closed reason').
Proof.
  intros Hm. remember (q, true, Closed reason) as start eqn:Es. revert q reason Es.
  induction Hm as [|x y z Hxy _ IH]; intros q reason ->; [by do 2 eexists|]. inversion Hxy; subst; by eapply IH.
Qed.

(** a CONNECT-IP tunnel that closed after its request stays closed.  Whatever
    packets, datagrams and ticks follow, every call returns, the state is [Closed]
    throughout, no packet of a peer reaches the client and none of the client's is counted
    as carried. *)
Theorem masque_closed_final self reason ops :
  me_h3 self = true -> me_state self = Closed reason -> me_fast_path_packets self + Z.of_nat (length ops) <= U64_MAX ->
  exists self' out, masque_run (W := W) self ops = Some (self', out) /\
    me_h3 self' = true /\ (exists reason', me_state self' = Closed reason') /\ (forall p, ToTunnel p ∉ out) /\
    me_fast_path_packets self' = me_fast_path_packets self.
Proof.
  intros Hh Hst Hfast. assert (tunnel_ok self) as Hok by (intros Hf; cbn in Hf; congruence).
  destruct (masque_run_stepped (W := W) ops self Hok Hfast) as (self' & out & Hrun & _ & Hm & Hd & Hc).
  assert (phase_of self = (me_conn self, true, Closed reason)) as Hph by (unfold phase_of; by rewrite Hh, Hst).
  assert (~ came_by_established self) as Hno by (intros (q & f & Hf); rewrite Hph in Hf; by apply moves_closed in Hf as (q' & reason' & ?)).
  rewrite Hph in Hm. apply moves_closed in Hm as (q' & reason' & Hend). injection Hend as _ Hh' Hst'.
  exists self', out. split_and!; [done|done|by exists reason'|by intros p Hp; destruct Hno; eapply Hd|].
  destruct (decide (me_fast_path_packets self' = me_fast_path_packets self)); [done|by destruct Hno; apply Hc].
Qed.

(** C21: a new tunnel.  Every call of any run returns, and the tunnel moves only as its
    connection answers: a CONNECT with the configured fields, sent once, takes it to
    [Requested] with the quarter of the stream id the connection gave; a response whose
    [:status] is from 200 to 299 takes [Requested] to [Established] of the same flow; any
    other response, a finished stream, and a connection that is closed or fails take it
    to [Closed], which a tunnel that has sent its request does not leave.  (A failed send
    before the request does not end it: [early_close_reopens].)  A packet reaches the
    client, and one of the client's is counted as carried, only if the tunnel came by
    [Established]. *)
Theorem masque_lifecycle conn config pool max_packet ops :
  Z.of_nat (length ops) <= U64_MAX ->
  exists self out, masque_run (W := W) (MasqueEgress_new conn config pool max_packet) ops = Some (self, out) /\
    rtc (tunnel_move config) (conn, false, Connecting) (me_conn self, me_h3 self, me_state self) /\
    (me_h3 self = false -> match me_state self with Requested _ | Established _ => False | _ => True end) /\
    ((exists p, ToTunnel p ∈ out) \/ me_fast_path_packets self <> 0 ->
     exists q flow_id, rtc (tunnel_move config) (conn, false, Connecting) (q, true, Established flow_id)).
Proof.
  intros Hops. destruct (masque_run_stepped (W := W) ops (MasqueEgress_new conn config pool max_packet)) as (self & out & Hrun & Hok & Hm & Hd & Hc).
  - done.
  - cbn. lia.
  - exists self, out. split_and!; [done|exact Hm|exact Hok|]. intros [[p Hp]|Hne]; [by apply (Hd p)|by apply Hc].
Qed.

(** ** Delivered packets *)

(** All the datagrams a connection holds, and the connection without them. *)
Fixpoint datagrams_of (fuel : nat) (size : nat) (conn : Q) : list bytes * Q :=
  match fuel with
  | O => ([], conn)
  | S fuel =>
      match q_dgram_recv size conn with
      | (Some d, conn) => let '(ds, conn) := datagrams_of fuel size conn in (d :: ds, conn)
      | (None, conn) => ([], conn)
      end
  end.

Lemma pool_take_ok slice capacity p loans bs :
  pool_ok slice capacity (p, loans) -> (length bs <= slice)%nat -> (length loans < capacity)%nat ->
  exists p', BufferPool_take p bs = (Some bs, p') /\ pool_ok slice capacity (p', bs :: loans).
Proof.
  intros Hok Hl Hc. unfold BufferPool_take. pose proof (reserve_ok _ _ _ _ (length bs) Hok) as Hr.
  destruct (BufferPool_reserve p (length bs)) as [[buffer|] p'].
  - destruct Hr as (-> & _ & _ & Hr). exists p'. split; [done|]. by apply Hr.
  - destruct Hr as [[?|?] _]; lia.
Qed.

(** The packets of the flow among some datagrams. *)
Definition packets_of (flow_id : Z) (ds : list bytes) : list bytes := omap (fun d => decode_ip_datagram d flow_id) ds.

Lemma drain_datagrams_loop_exact fuel flow_id : forall self out slice capacity loans,
  (q_work (me_conn self) < fuel)%nat -> pool_ok slice capacity (me_pool self, loans) ->
  let '(ds, conn) := datagrams_of fuel (me_scratch self) (me_conn self) in
  let packets := packets_of flow_id ds in
  Forall (fun p => length p <= slice)%nat packets -> (length loans + length packets <= capacity)%nat ->
  exists pool, drain_datagrams_loop (W := W) fuel flow_id self out
      = (Ok tt, with_pool (with_conn self conn) pool, out ++ (ToTunnel <$> packets)) /\
    pool_ok slice capacity (pool, reverse packets ++ loans).
Proof.
  induction fuel as [|fuel IH]; intros self out slice capacity loans Hf Hpool; [lia|]. cbn [datagrams_of drain_datagrams_loop].
  destruct (q_dgram_recv (me_scratch self) (me_conn self)) as [[d|] conn] eqn:Ed.
  2:{ cbn. intros _ _. exists (me_pool self). rewrite app_nil_r. by destruct self. }
  apply q_dgram_recv_works in Ed as [Hw _].
  destruct (datagrams_of fuel (me_scratch self) conn) as [ds conn'] eqn:Eds. cbn zeta. unfold packets_of. cbn [omap list_omap]. fold (packets_of flow_id ds).
  destruct (decode_ip_datagram d flow_id) as [packet|] eqn:Edec.
  - intros [Hl Hls]%Forall_cons Hcap. cbn [length] in Hcap.
    destruct (pool_take_ok slice capacity (me_pool self) loans packet Hpool Hl ltac:(lia)) as (pool & Ht & Hpool').
    cbn [with_conn me_pool]. rewrite Ht.
    specialize (IH (with_pool (with_conn self conn) pool) (out ++ [ToTunnel packet]) slice capacity (packet :: loans)).
    cbn [with_pool with_conn me_conn me_scratch me_pool] in IH. rewrite Eds in IH.
    destruct IH as (pool' & -> & Hp); [lia|done|done|cbn [length]; lia|]. exists pool'. rewrite <- (assoc_L (++)). split; [done|].
    by rewrite reverse_cons, <- (assoc_L (++)).
  - intros Hls Hcap. specialize (IH (with_conn self conn) out slice capacity loans). cbn [with_conn me_conn me_scratch me_pool] in IH.
    rewrite Eds in IH. destruct IH as (pool' & -> & Hp); [lia|done..|]. by exists pool'.
Qed.

(** an established tunnel delivers to the client exactly the packets of its flow and
    context among the datagrams the connection holds, whole and in order, leaving none
    behind, while the pool has a buffer for each; they become the pool's loans. *)
Theorem masque_delivers self flow_id slice capacity loans out :
  me_state self = Established flow_id -> pool_ok slice capacity (me_pool self, loans) ->
  let held := datagrams_of (S (q_work (me_conn self))) (me_scratch self) (me_conn self) in
  let packets := packets_of flow_id held.1 in
  Forall (fun p => length p <= slice)%nat packets -> (length loans + length packets <= capacity)%nat ->
  exists pool, drain_datagrams (W := W) self out
      = (Ok tt, with_pool (with_conn self held.2) pool, out ++ (ToTunnel <$> packets)) /\
    pool_ok slice capacity (pool, reverse packets ++ loans).
Proof.
  intros Hs Hpool. cbn zeta. unfold drain_datagrams. rewrite Hs.
  pose proof (drain_datagrams_loop_exact (S (q_work (me_conn self))) flow_id self out slice capacity loans ltac:(lia) Hpool) as Hd.
  by destruct (datagrams_of _ _ _) as [ds conn].
Qed.

(** ** Sizes *)

Context `{!VarintLaws}.

Lemma masque_roundtrip flow_id packet :
  0 <= flow_id <= MAX_VAR_INT -> packet <> [] -> decode_ip_datagram (encode_ip_datagram flow_id packet) flow_id = Some packet.
Proof.
  intros Hf Hp. unfold decode_ip_datagram, encode_ip_datagram, Writer_bytes, Writer_varint, IP_PACKET_CONTEXT. cbn [app].
  pose proof (Reader_varint_app [] flow_id (put_varint 0 ++ packet) Hf) as Hread. cbn [app length Nat.add] in Hread.
  unfold Reader_new. rewrite <- (assoc_L (++)), Hread. cbn [mbind option_bind]. rewrite Z.eqb_refl. cbn [negb].
  rewrite (Reader_varint_app (put_varint flow_id) 0 packet) by (unfold MAX_VAR_INT; lia). cbn [mbind option_bind negb Z.eqb].
  unfold Reader_rest. cbn [r_at r_bytes]. rewrite (assoc_L (++)), <- length_app, drop_app_length. by destruct packet.
Qed.

(** the datagram size the egress reports is one its connection takes.  For a flow of
    at most 30 bits, every packet of at most that many bytes makes a datagram within
    what quiche can write, and the datagram reads back as the packet. *)
Theorem masque_fits self flow_id packet size :
  max_datagram_size (Masque_properties self) = Some size -> 0 <= flow_id < 2 ^ 30 -> packet <> [] ->
  (forall v, varint_len v = rfc_varint_len v) ->
  Z.of_nat (length packet) <= size ->
  exists len, q_dgram_max_writable_len (me_conn self) = Some len /\
    (length (encode_ip_datagram flow_id packet) <= len)%nat /\
    decode_ip_datagram (encode_ip_datagram flow_id packet) flow_id = Some packet.
Proof.
  unfold Masque_properties. cbn [max_datagram_size]. intros Hs Hf Hp Hlen Hfit.
  apply bind_Some in Hs as (len & Hq & Hs). destruct (_ <=? U16_MAX); [|done]. injection Hs as <-. unfold PREFIX_BYTES in Hfit.
  assert (0 <= flow_id <= MAX_VAR_INT) as Hvar by (unfold MAX_VAR_INT; lia).
  exists len. split_and!; [done| |by apply masque_roundtrip].
  unfold encode_ip_datagram, Writer_bytes, Writer_varint, IP_PACKET_CONTEXT. cbn [app]. rewrite !length_app, !put_varint_len by (unfold MAX_VAR_INT; lia).
  rewrite !Hlen. assert (rfc_varint_len flow_id <= 4)%nat as Hfour.
  { unfold rfc_varint_len. rewrite (proj2 (Z.ltb_lt flow_id (2 ^ 30))) by lia. repeat case_match; lia. }
  change (rfc_varint_len 0) with 1%nat. assert (length packet <> 0)%nat by (by destruct packet). lia.
Qed.
End MasqueClaims.

Definition sample_masque (state : TunnelState) : MasqueEgress ScriptedQuic :=
  mkMasque (mkScripted [[1; 2]; [3]] [(0, Headers [(STATUS, text_of "200")])] 1 [[4; 0; 69; 9]; [5; 0; 69]; [4; 1; 69]; [4; 0; 7]] [] (Some 30%nat))
    true state (mkMasqueConfig [] [47] [] EndpointIndependent) (BufferPool_new 16 8) 16 0.

Lemma masque_closed_final_witness :
  let self := sample_masque (Closed ConnectionClosed) in
  exists self' out, masque_run (W := unit) (H1 := rfc9000) self [Tick; TunPacket [69]; NetworkPacket [1]] = Some (self', out) /\
    me_h3 self' = true /\ (exists reason', me_state self' = Closed reason') /\ (forall p, ToTunnel p ∉ out) /\
    me_fast_path_packets self' = me_fast_path_packets self.
Proof. eapply masque_closed_final; vm_compute; [reflexivity|reflexivity|discriminate]. Defined.

Lemma masque_delivers_witness :
  let self := sample_masque (Established 4) in
  exists pool, drain_datagrams (W := unit) (H1 := rfc9000) self []
      = (Ok tt, with_pool (with_conn self (mkScripted [[1; 2]; [3]] [(0, Headers [(STATUS, text_of "200")])] 1 [] [] (Some 30%nat))) pool,
         [ToTunnel [69; 9]; ToTunnel [7]]) /\
    pool_ok 16 8 (pool, [[7]; [69; 9]]).
Proof.
  cbn zeta. refine (masque_delivers (W := unit) (H1 := rfc9000) (sample_masque (Established 4)) 4 16 8 [] [] _ _ _ _).
  - reflexivity.
  - split; cbn; try done; lia.
  - by apply (bool_decide_unpack _); vm_compute.
  - vm_compute. lia.
Defined.

Lemma masque_fits_witness :
  exists len, q_dgram_max_writable_len (me_conn (sample_masque (Established 4))) = Some len /\
    (length (encode_ip_datagram (H := rfc9000) 4 [69; 0; 0]%Z) <= len)%nat /\
    decode_ip_datagram (H := rfc9000) (encode_ip_datagram (H := rfc9000) 4 [69; 0; 0]) 4 = Some [69; 0; 0].
Proof.
  apply (masque_fits (H1 := rfc9000) (sample_masque (Established 4)) 4 [69; 0; 0] 25);
    [vm_compute; reflexivity|lia|done|done|cbn; lia].
Defined.

(** Pool exhaustion in the middle of a drain: the packet already taken out of quiche is
    dropped with the error. *)
Example drain_send_loses :
  let self := mkMasque (mkScripted [[1]; [2]; [3]] [] 0 [] [] None) true (Established 4) (mkMasqueConfig [] [47] [] EndpointIndependent)
                (BufferPool_new 16 1) 16 0 in
  let '(r, self, out) := drain_send (W := unit) self [] in
  r = Err PoolExhausted /\ out = [ToNetwork [1]] /\ sq_packets (me_conn self) = [[3]].
Proof. vm_compute. done. Qed.

(** A send that fails before the request closes the tunnel, and the next call that finds
    the connection established requests it all the same. *)
Example early_close_reopens :
  let self := with_state (MasqueEgress_new (mkScripted [replicate 20 7] [] 0 [] [] None) (mkMasqueConfig [] [47] [] EndpointIndependent)
                (BufferPool_new 16 1) 16) Connecting in
  let '(_, closed, _) := handle_tun_packet (W := unit) (H1 := rfc9000) self [69] [] in
  let '(_, again, _) := advance_tunnel (W := unit) (H1 := rfc9000) closed [] in
  me_state closed = Closed ConnectionClosed /\ me_state again = Requested 0.
Proof. vm_compute. done. Qed.

Lemma masque_lifecycle_witness :
  exists self out, masque_run (W := unit) (H1 := rfc9000)
      (MasqueEgress_new (me_conn (sample_masque Connecting)) (mkMasqueConfig [] [47] [] EndpointIndependent) (BufferPool_new 16 8) 16)
      [Tick; TunPacket [69]] = Some (self, out) /\
    rtc (tunnel_move (mkMasqueConfig [] [47] [] EndpointIndependent)) (me_conn (sample_masque Connecting), false, Connecting)
      (me_conn self, me_h3 self, me_state self).
Proof.
  destruct (masque_lifecycle (W := unit) (H1 := rfc9000) (me_conn (sample_masque Connecting)) (mkMasqueConfig [] [47] [] EndpointIndependent)
    (BufferPool_new 16 8) 16 [Tick; TunPacket [69]]) as (self & out & Hrun & Hm & _).
  - vm_compute. discriminate.
  - exists self, out. split; [exact Hrun|exact Hm].
Defined.
