(* ===== verification/Bridge.v ===== *)
(** The bridge between a driver and its tasks ([src/bridge.rs]): one bounded channel each
    way, as an asynchronous byte stream on one side and plumbing on the other, with the
    pumps of the QUIC driver ([pump_in], [pump_out] of [src/egress/quic.rs]).

    A channel is its queue and whether each end is alive.  The pumps are given what the
    successive calls into quiche will answer. *)

From S2P Require Import Prelude Wire Net Plan Pool Egress Transport.
Open Scope Z_scope.

Definition CHUNK : nat := 16 * 1024.
Definition DEPTH : nat := 8.

(** [ErrorKind::ConnectionReset]. *)
Definition ConnectionReset : ErrorKind := OtherKind 4.

(** Both halves of one bridge.  [br_in] is queued toward the task, whose sender is alive
    while [br_to_task]; [br_pending] is the reader's tail.  [br_out] is queued toward the
    driver, its sender alive while [br_outbound]; [br_task] and [br_driver] say whether
    the task's stream and the driver's plumbing are still there. *)
Record Bridge := mkBridge {
  br_in : list bytes;
  br_to_task : bool;
  br_reset : bool;
  br_pending : bytes;
  br_task : bool;
  br_out : list bytes;
  br_outbound : bool;
  br_pending_out : option bytes;
  br_finished : bool;
  br_driver : bool;
}.

Definition pair : Bridge := mkBridge [] true false [] true [] true None false true.

(** The inbound half, and the outbound half, replaced. *)
Definition with_in (b : Bridge) in_ to_task reset pending : Bridge :=
  mkBridge in_ to_task reset pending (br_task b) (br_out b) (br_outbound b) (br_pending_out b) (br_finished b) (br_driver b).
Definition with_out (b : Bridge) out outbound pending_out finished : Bridge :=
  mkBridge (br_in b) (br_to_task b) (br_reset b) (br_pending b) (br_task b) out outbound pending_out finished (br_driver b).

(** ** The task's side *)

(** Chunks are received until one is not empty; the sender is gone when the driver dropped
    it or is gone itself. *)
Fixpoint next_chunk (in_ : list bytes) (sender : bool) (reset : bool) : Poll bytes * list bytes :=
  match in_ with
  | [] :: in_ => next_chunk in_ sender reset
  | chunk :: in_ => (Ready chunk, in_)
  | [] => (if sender then Waits else if reset then Failed ConnectionReset else Ready [], [])
  end.

Definition BridgedStream_poll_read (b : Bridge) (room : nat) : Poll bytes * Bridge :=
  let deliver in_ pending :=
    let moved := (room `min` length pending)%nat in
    (Ready (take moved pending), with_in b in_ (br_to_task b) (br_reset b) (drop moved pending)) in
  match br_pending b with
  | _ :: _ => deliver (br_in b) (br_pending b)
  | [] =>
      match next_chunk (br_in b) (br_to_task b && br_driver b) (br_reset b) with
      | (Ready ((_ :: _) as chunk), in_) => deliver in_ chunk
      | (r, in_) => (r, with_in b in_ (br_to_task b) (br_reset b) [])
      end
  end.

Definition BridgedStream_poll_write (b : Bridge) (buf : bytes) : Poll nat * Bridge :=
  if negb (br_outbound b) then (Failed BrokenPipe, b) else
  if (length buf =? 0)%nat then (Ready 0%nat, b) else
  if negb (br_driver b) then (Failed BrokenPipe, b) else
  if (DEPTH <=? length (br_out b))%nat then (Waits, b) else
  let moved := (length buf `min` CHUNK)%nat in
  (Ready moved, with_out b (br_out b ++ [take moved buf]) true (br_pending_out b) (br_finished b)).

Definition BridgedStream_poll_shutdown (b : Bridge) : Poll unit * Bridge :=
  (Ready tt, with_out b (br_out b) false (br_pending_out b) (br_finished b)).

(** Dropping the stream drops its receiver and its sender. *)
Definition BridgedStream_drop (b : Bridge) : Bridge :=
  mkBridge [] (br_to_task b) (br_reset b) [] false (br_out b) false (br_pending_out b) (br_finished b) (br_driver b).

(** ** The driver's side *)

Definition Plumbing_reset (b : Bridge) : Bridge := with_in b (br_in b) false true (br_pending b).

(** [stream_recv]: bytes and whether they are the last, nothing now, or an error. *)
Inductive RecvEvent := RecvBytes (bs : bytes) (fin : bool) | RecvNothing | RecvReset.

(** The loop of [pump_in] and what it leaves; past the answers there is nothing.  The second
    component are the bytes it took from the connection, the third whether it asks the peer
    to stop. *)
Fixpoint pump_in (recvs : list RecvEvent) (b : Bridge) : Bridge * bytes * bool :=
  if negb (br_to_task b) then (b, [], false) else
  if negb (br_task b) then (with_in b (br_in b) false (br_reset b) (br_pending b), [], true) else
  if (DEPTH <=? length (br_in b))%nat then (b, [], false) else
  match recvs with
  | RecvBytes bs fin :: recvs =>
      let b := with_in b (if (0 <? length bs)%nat then br_in b ++ [bs] else br_in b) true (br_reset b) (br_pending b) in
      if fin then (with_in b (br_in b) false (br_reset b) (br_pending b), bs, false)
      else let '(b, more, stop) := pump_in recvs b in (b, bs ++ more, stop)
  | RecvReset :: _ => (Plumbing_reset b, [], false)
  | RecvNothing :: _ | [] => (b, [], false)
  end.

(** [stream_send]: how much it takes, nothing now, or an error. *)
Inductive SendEvent := SendTakes (n : nat) | SendNothing | SendFails.

(** The loop of [pump_out]: the bridge, the bytes the connection took, and whether FIN was
    sent.  Past the answers the connection takes nothing. *)
Fixpoint pump_out (sends : list SendEvent) (b : Bridge) : Bridge * bytes * bool :=
  if br_finished b then (b, [], false) else
  let next :=
    match br_pending_out b, br_out b with
    | Some chunk, out => Some (chunk, out)
    | None, chunk :: out => Some (chunk, out)
    | None, [] => None
    end in
  match next with
  | None =>
      if br_outbound b then (b, [], false)
      else (with_out b [] false None true, [], true)
  | Some (chunk, out) =>
      match sends with
      | SendTakes n :: sends =>
          if (n <? length chunk)%nat
          then (with_out b out (br_outbound b) (Some (drop n chunk)) false, take n chunk, false)
          else
            let '(b, sent, fin) := pump_out sends (with_out b out (br_outbound b) None false) in
            (b, chunk ++ sent, fin)
      | SendFails :: _ => (with_out b out (br_outbound b) None true, [], false)
      | SendNothing :: _ | [] => (with_out b out (br_outbound b) (Some chunk) false, [], false)
      end
  end.

(** ** Executions *)

(** A bridge with what crossed its ends: bytes the task wrote and read, bytes the driver
    took from the connection and gave it, how often FIN was sent, whether the connection
    ended cleanly, and whether a send failed. *)
Record Crossing := mkCrossing {
  cr_wrote : bytes;
  cr_read : bytes;
  cr_came : bytes;
  cr_gave : bytes;
  cr_fins : nat;
  cr_ended : bool;
}.

Definition read_bytes (r : Poll bytes) : bytes := match r with Ready bs => bs | _ => [] end.


Definition accepted_bytes (r : Poll nat) (buf : bytes) : bytes := match r with Ready n => take n buf | _ => [] end.

Inductive cross_step : Bridge * Crossing -> Bridge * Crossing -> Prop :=
| task_reads b c room r b' :
    br_task b = true -> BridgedStream_poll_read b room = (r, b') ->
    cross_step (b, c) (b', mkCrossing (cr_wrote c) (cr_read c ++ read_bytes r) (cr_came c) (cr_gave c) (cr_fins c) (cr_ended c))
| task_writes b c buf r b' :
    br_task b = true -> BridgedStream_poll_write b buf = (r, b') ->
    cross_step (b, c) (b', mkCrossing (cr_wrote c ++ accepted_bytes r buf) (cr_read c) (cr_came c) (cr_gave c) (cr_fins c) (cr_ended c))
| task_shuts b c : br_task b = true -> cross_step (b, c) ((BridgedStream_poll_shutdown b).2, c)
| task_drops b c : br_task b = true -> cross_step (b, c) (BridgedStream_drop b, c)
| driver_pumps_in b c recvs b' came stop :
    br_driver b = true -> pump_in recvs b = (b', came, stop) ->
    cross_step (b, c) (b', mkCrossing (cr_wrote c) (cr_read c) (cr_came c ++ came) (cr_gave c) (cr_fins c)
                        (cr_ended c || (br_to_task b && negb (br_to_task b') && negb (br_reset b') && negb stop)))
| driver_pumps_out b c sends b' gave fin :
    br_driver b = true -> pump_out sends b = (b', gave, fin) ->
    cross_step (b, c) (b', mkCrossing (cr_wrote c) (cr_read c) (cr_came c) (cr_gave c ++ gave)
                        (cr_fins c + if fin : bool then 1 else 0) (cr_ended c))
| driver_drops b c :
    br_driver b = true ->
    cross_step (b, c) (mkBridge (br_in b) (br_to_task b) (br_reset b) (br_pending b) (br_task b) (br_out b) (br_outbound b)
                         (br_pending_out b) (br_finished b) false, c).

Definition crossing_start : Bridge * Crossing := (pair, mkCrossing [] [] [] [] 0 false).

(** The bytes held on the way in, and on the way out. *)
Definition held_in (b : Bridge) : bytes := br_pending b ++ concat (br_in b).
Definition held_out (b : Bridge) : bytes := default [] (br_pending_out b) ++ concat (br_out b).

Record inbound_ok (b : Bridge) (c : Crossing) : Prop := {
  io_depth : (length (br_in b) <= DEPTH)%nat;
  io_chunks : Forall (fun chunk => chunk <> []) (br_in b);
  io_prefix : cr_read c `prefix_of` cr_came c;
  io_whole : br_task b = true -> cr_came c = cr_read c ++ held_in b;
  io_ended : br_task b = true -> br_to_task b = false -> br_reset b = false -> cr_ended c = true;
}.

Record outbound_ok (b : Bridge) (c : Crossing) : Prop := {
  oo_depth : (length (br_out b) <= DEPTH)%nat;
  oo_chunks : Forall (fun chunk => (0 < length chunk <= CHUNK)%nat) (br_out b);
  oo_prefix : cr_gave c `prefix_of` cr_wrote c;
  oo_whole : br_finished b = false -> cr_wrote c = cr_gave c ++ held_out b /\ cr_fins c = 0%nat;
  oo_fin : (cr_fins c <= 1)%nat;
  oo_done : cr_fins c = 1%nat -> cr_wrote c = cr_gave c /\ br_outbound b = false;
  oo_open : br_outbound b = true -> br_task b = true;
}.

Lemma next_chunk_spec in_ sender reset :
  Forall (fun chunk => chunk <> []) in_ ->
  next_chunk in_ sender reset =
    match in_ with
    | chunk :: in_ => (Ready chunk, in_)
    | [] => (if sender then Waits else if reset then Failed ConnectionReset else Ready [], [])
    end.
Proof. by intros [|[|b chunk] in' Hc _]. Qed.

(** A read takes the next held bytes, and reports the end only when none are held and the
    sender is gone. *)
Lemma poll_read_spec b room :
  Forall (fun chunk => chunk <> []) (br_in b) ->
  let '(r, b') := BridgedStream_poll_read b room in
  held_in b = read_bytes r ++ held_in b' /\ (length (br_in b') <= length (br_in b))%nat /\ Forall (fun chunk => chunk <> []) (br_in b') /\
  b' = with_in b (br_in b') (br_to_task b) (br_reset b) (br_pending b') /\
  (r = Ready [] -> (0 < room)%nat -> held_in b = [] /\ br_to_task b && br_driver b = false /\ br_reset b = false).
Proof.
  intros Hall. unfold BridgedStream_poll_read, held_in.
  assert (forall in_ chunk, chunk <> [] -> (length in_ <= length (br_in b))%nat -> Forall (fun chunk => chunk <> []) in_ ->
    br_pending b ++ concat (br_in b) = chunk ++ concat in_ ->
    let moved := (room `min` length chunk)%nat in
    let b' := with_in b in_ (br_to_task b) (br_reset b) (drop moved chunk) in
    br_pending b ++ concat (br_in b) = read_bytes (Ready (take moved chunk)) ++ br_pending b' ++ concat (br_in b') /\
    (length (br_in b') <= length (br_in b))%nat /\ Forall (fun chunk => chunk <> []) (br_in b') /\
    b' = with_in b (br_in b') (br_to_task b) (br_reset b) (br_pending b') /\
    (Ready (take moved chunk) = Ready [] -> (0 < room)%nat ->
       br_pending b ++ concat (br_in b) = [] /\ br_to_task b && br_driver b = false /\ br_reset b = false)) as Hdeliver.
  { intros in_ chunk Hne Hl Hf Heq. cbn. split_and!; [by rewrite Heq, (assoc_L (++)), take_drop|done|done|done|].
    intros [= Hnil] Hroom. apply (f_equal length) in Hnil. rewrite length_take in Hnil. cbn in Hnil. destruct chunk; [done|]. cbn in Hnil. lia. }
  destruct (br_pending b) as [|x pending] eqn:Ep.
  - rewrite next_chunk_spec by done. destruct (br_in b) as [|chunk in_] eqn:Ei.
    + destruct (br_to_task b && br_driver b) eqn:Es; [by split_and!|]. destruct (br_reset b) eqn:Er; by split_and!.
    + apply Forall_cons in Hall as [Hc Hall]. destruct chunk as [|y chunk]; [done|].
      apply (Hdeliver in_ (y :: chunk)); [done|cbn; lia|done|done].
  - apply (Hdeliver (br_in b) (x :: pending)); done.
Qed.

Lemma pump_in_spec recvs : forall b,
  (length (br_in b) <= DEPTH)%nat -> Forall (fun chunk => chunk <> []) (br_in b) ->
  let '(b', came, stop) := pump_in recvs b in
  (length (br_in b') <= DEPTH)%nat /\ Forall (fun chunk => chunk <> []) (br_in b') /\ held_in b' = held_in b ++ came /\
  b' = with_in b (br_in b') (br_to_task b') (br_reset b') (br_pending b') /\ (stop = true -> br_task b = false) /\
  (br_to_task b = false -> br_to_task b' = false /\ br_reset b' = br_reset b) /\ (br_reset b = true -> br_reset b' = true).
Proof.
  induction recvs as [|e recvs IH]; intros b Hl Hall; cbn [pump_in].
  - destruct (br_to_task b) eqn:Et; cbn [negb]; [|by rewrite app_nil_r; destruct b; cbn in *; subst; split_and!].
    destruct (br_task b) eqn:Ek; cbn [negb]; [|by unfold held_in; cbn; rewrite app_nil_r; destruct b; cbn in *; subst; split_and!].
    destruct (_ <=? _)%nat; rewrite app_nil_r; destruct b; cbn in *; subst; by split_and!.
  - destruct (br_to_task b) eqn:Et; cbn [negb]; [|by rewrite app_nil_r; destruct b; cbn in *; subst; split_and!].
    destruct (br_task b) eqn:Ek; cbn [negb]; [|by unfold held_in; cbn; rewrite app_nil_r; destruct b; cbn in *; subst; split_and!].
    destruct (DEPTH <=? _)%nat eqn:Ed; reflect; [rewrite app_nil_r; destruct b; cbn in *; subst; by split_and!|].
    destruct e as [bs fin| |]; [|by rewrite app_nil_r; destruct b; cbn in *; subst; split_and!
                                |by unfold held_in; cbn; rewrite app_nil_r; destruct b; cbn in *; subst; split_and!].
    set (in' := if (0 <? length bs)%nat then br_in b ++ [bs] else br_in b).
    assert ((length in' <= DEPTH)%nat /\ Forall (fun chunk => chunk <> []) in' /\ concat in' = concat (br_in b) ++ bs) as (Hl' & Hall' & Hc').
    { unfold in'. destruct bs as [|x bs]; cbn [length Nat.ltb Nat.leb]; [by rewrite app_nil_r; split_and!; [lia|..]|].
      rewrite length_app, concat_app. cbn. rewrite app_nil_r. split_and!; [lia| |done]. apply Forall_app. split; [done|]. by constructor. }
    destruct fin.
    + cbn [with_in br_in]. unfold held_in. cbn. rewrite Hc', (assoc_L (++)). destruct b; cbn in *; subst. by split_and!.
    + specialize (IH (with_in b in' true (br_reset b) (br_pending b)) Hl' Hall').
      destruct (pump_in recvs _) as [[b' more] stop]. destruct IH as (Hl2 & Hall2 & Hh & Hb & Hs & _ & Hr).
      split_and!; [done|done| |exact Hb|intros Hst; specialize (Hs Hst); cbn in Hs; congruence|done|exact Hr].
      rewrite Hh. unfold held_in. cbn. by rewrite Hc', !(assoc_L (++)).
Qed.

(** What a pass outward does: while it goes on nothing is lost, FIN is sent only after all
    that is held, and a finished half stays as it is. *)
Lemma pump_out_spec sends : forall b,
  let '(b', gave, fin) := pump_out sends b in
  (length (br_out b') <= length (br_out b))%nat /\
  (forall P : bytes -> Prop, Forall P (br_out b) -> Forall P (br_out b')) /\
  b' = with_out b (br_out b') (br_outbound b) (br_pending_out b') (br_finished b') /\
  (br_finished b = true -> b' = b /\ gave = [] /\ fin = false) /\
  (br_finished b = false ->
     gave `prefix_of` held_out b /\ (br_finished b' = false -> held_out b = gave ++ held_out b' /\ fin = false) /\
     (fin = true -> held_out b = gave /\ br_outbound b = false)).
Proof.
  induction sends as [|e sends IH]; intros b; cbn [pump_out]; (destruct (br_finished b) eqn:Ef; [by destruct b; cbn in *; subst; split_and!|]).
  - destruct (br_pending_out b) as [chunk|] eqn:Ep; [|destruct (br_out b) as [|chunk out] eqn:Eo].
    + destruct b; cbn in *; subst. split_and!; try done. intros _. split_and!; [apply prefix_nil|done|done].
    + destruct (br_outbound b) eqn:Eb; destruct b; cbn in *; subst; (split_and!; try done); intros _;
        split_and!; (done || apply prefix_nil).
    + destruct b; cbn in *; subst. split_and!; [lia|by intros P [_ ?]%Forall_cons|done|done|]. intros _. split_and!; [apply prefix_nil|done|done].
  - set (next := match br_pending_out b, br_out b with Some chunk, out => Some (chunk, out) | None, chunk :: out => Some (chunk, out) | None, [] => None end).
    destruct next as [[chunk out]|] eqn:En; unfold next in En.
    2:{ destruct (br_pending_out b) eqn:Ep; [done|]. destruct (br_out b) eqn:Eo; [|done].
        destruct (br_outbound b) eqn:Eb; destruct b; cbn in *; subst; (split_and!; try done); intros _; split_and!; (done || apply prefix_nil). }
    assert ((length out <= length (br_out b))%nat /\ (forall P : bytes -> Prop, Forall P (br_out b) -> Forall P out) /\ held_out b = chunk ++ concat out)
      as (Hl & Hall & Hheld).
    { unfold held_out. destruct (br_pending_out b) as [c|] eqn:Ep; [by injection En as -> ->|]. destruct (br_out b) as [|c o]; [done|].
      injection En as -> ->. split_and!; [cbn; lia|by intros P [_ ?]%Forall_cons|done]. }
    rewrite Hheld. clear next En. destruct e as [n| |].
    + destruct (n <? length chunk)%nat eqn:Elt; reflect.
      * cbn. split_and!; [done|done|by destruct b; cbn in *; subst|done|]. intros _. unfold held_out. cbn.
        split_and!; [exists (drop n chunk ++ concat out); by rewrite (assoc_L (++)), take_drop| |done].
        intros _. split; [by rewrite (assoc_L (++)), take_drop|done].
      * specialize (IH (with_out b out (br_outbound b) None false)). destruct (pump_out sends _) as [[b' gave] fin].
        destruct IH as (Hl' & Hall' & Hb & _ & Hrest). destruct (Hrest eq_refl) as (Hpre & Hgo & Hfin). unfold held_out in Hpre, Hgo, Hfin at 1. cbn in *.
        split_and!; [lia|intros P HP; by apply Hall', Hall|by rewrite Hb at 1|done|]. intros _. split_and!.
        -- destruct Hpre as [k ->]. exists k. by rewrite (assoc_L (++)).
        -- intros Hf. destruct (Hgo Hf) as [-> ->]. by rewrite (assoc_L (++)).
        -- intros Hft. destruct (Hfin Hft) as [-> ?]. done.
    + cbn. split_and!; [done|done|by destruct b; cbn in *; subst|done|]. intros _. split_and!; [apply prefix_nil|done|done].
    + cbn. split_and!; [done|done|by destruct b; cbn in *; subst|done|]. intros _. split_and!; [apply prefix_nil|done|done].
Qed.

Lemma crossing_start_ok : inbound_ok pair (mkCrossing [] [] [] [] 0 false) /\ outbound_ok pair (mkCrossing [] [] [] [] 0 false).
Proof. by split; split; cbn; try done; try lia; constructor. Qed.

(** The other half's steps leave a half as it is. *)
Lemma inbound_ok_out b c out outbound pending_out finished wrote gave fins :
  inbound_ok b c -> inbound_ok (with_out b out outbound pending_out finished) (mkCrossing wrote (cr_read c) (cr_came c) gave fins (cr_ended c)).
Proof. by intros [? ? ? ? ?]; split. Qed.

Lemma outbound_ok_in b c in_ to_task reset pending read came ended :
  outbound_ok b c -> outbound_ok (with_in b in_ to_task reset pending) (mkCrossing (cr_wrote c) read came (cr_gave c) (cr_fins c) ended).
Proof. by intros [? ? ? ? ? ? ?]; split. Qed.

Lemma task_reads_ok b c room :
  inbound_ok b c -> br_task b = true ->
  let '(r, b') := BridgedStream_poll_read b room in
  inbound_ok b' (mkCrossing (cr_wrote c) (cr_read c ++ read_bytes r) (cr_came c) (cr_gave c) (cr_fins c) (cr_ended c)) /\
  exists in_ pending, b' = with_in b in_ (br_to_task b) (br_reset b) pending.
Proof.
  intros [Hd Hc Hp Hw He] Ht. pose proof (poll_read_spec b room Hc) as Hs. destruct (BridgedStream_poll_read b room) as [r b'].
  destruct Hs as (Hh & Hl & Hc' & Hb & _). assert (cr_came c = (cr_read c ++ read_bytes r) ++ held_in b') as Hwhole
    by (rewrite (Hw Ht), Hh; by rewrite (assoc_L (++))).
  split; [|by eexists _, _]. split; cbn; [lia|done|by exists (held_in b')|done|]. rewrite Hb. cbn. apply He.
Qed.

Lemma task_writes_ok b c buf :
  outbound_ok b c -> br_task b = true ->
  let '(r, b') := BridgedStream_poll_write b buf in
  outbound_ok b' (mkCrossing (cr_wrote c ++ accepted_bytes r buf) (cr_read c) (cr_came c) (cr_gave c) (cr_fins c) (cr_ended c)) /\
  exists out, b' = with_out b out (br_outbound b) (br_pending_out b) (br_finished b).
Proof.
  intros [Hd Hc Hp Hw Hf Hdone Ho] Ht. unfold BridgedStream_poll_write.
  assert (forall r, accepted_bytes r buf = [] -> outbound_ok b (mkCrossing (cr_wrote c ++ accepted_bytes r buf) (cr_read c) (cr_came c) (cr_gave c) (cr_fins c) (cr_ended c)) /\
    exists out, b = with_out b out (br_outbound b) (br_pending_out b) (br_finished b)) as Hsame.
  { intros r ->. rewrite app_nil_r. split; [by split|]. exists (br_out b). by destruct b. }
  destruct (br_outbound b) eqn:Eo; cbn [negb]; [|by apply Hsame]. destruct (_ =? 0)%nat eqn:E0; reflect; [by apply Hsame|].
  destruct (negb _); [by apply Hsame|]. destruct (DEPTH <=? _)%nat eqn:Ed; reflect; [by apply Hsame|].
  split; [|by eexists]. cbn [accepted_bytes]. set (chunk := take (length buf `min` CHUNK) buf).
  assert (0 < length chunk <= CHUNK)%nat as Hchunk by (unfold chunk; rewrite length_take; unfold CHUNK; lia).
  split; cbn.
  - rewrite length_app. cbn. lia.
  - apply Forall_app. split; [done|]. by constructor.
  - by apply prefix_app_r.
  - intros Hfin. destruct (Hw Hfin) as [-> ?]. split; [|done]. unfold held_out. cbn. rewrite concat_app. cbn. by rewrite app_nil_r, !(assoc_L (++)).
  - done.
  - intros Hone. by destruct (Hdone Hone).
  - done.
Qed.

Definition crossing_ok (s : Bridge * Crossing) : Prop := inbound_ok s.1 s.2 /\ outbound_ok s.1 s.2.

Lemma pumps_in_ok b c recvs b' came stop :
  inbound_ok b c -> pump_in recvs b = (b', came, stop) ->
  inbound_ok b' (mkCrossing (cr_wrote c) (cr_read c) (cr_came c ++ came) (cr_gave c) (cr_fins c)
    (cr_ended c || (br_to_task b && negb (br_to_task b') && negb (br_reset b') && negb stop))).
Proof.
  intros [Hd Hc Hp Hw He] Hpump. pose proof (pump_in_spec recvs b Hd Hc) as Hs. rewrite Hpump in Hs.
  destruct Hs as (Hd' & Hc' & Hh & Hb & Hstop & Hclosed & Hr). assert (br_task b' = br_task b) as Htask by (by rewrite Hb).
  split; cbn; [done|done|by apply prefix_app_r| |]; rewrite Htask.
  - intros Ht. rewrite Hh, (Hw Ht). by rewrite (assoc_L (++)).
  - intros Ht Hto Hres. destruct (br_to_task b) eqn:Eto.
    + rewrite Hto, Hres. destruct stop; [by rewrite (Hstop eq_refl) in Ht|]. by rewrite orb_true_r.
    + destruct (Hclosed eq_refl) as [_ Hrs]. rewrite (He Ht eq_refl) by congruence. done.
Qed.

Lemma pumps_out_ok b c sends b' gave fin :
  outbound_ok b c -> pump_out sends b = (b', gave, fin) ->
  outbound_ok b' (mkCrossing (cr_wrote c) (cr_read c) (cr_came c) (cr_gave c ++ gave) (cr_fins c + if fin : bool then 1 else 0) (cr_ended c)).
Proof.
  intros [Hd Hc Hp Hw Hf Hdone Ho] Hpump. pose proof (pump_out_spec sends b) as Hs. rewrite Hpump in Hs.
  destruct Hs as (Hl & Hall & Hb & Hfin & Hgo). assert (br_outbound b' = br_outbound b /\ br_task b' = br_task b) as [Hob Htb] by (by rewrite Hb).
  destruct (br_finished b) eqn:Ef.
  - destruct (Hfin eq_refl) as (-> & -> & ->). rewrite app_nil_r, Nat.add_0_r. split; cbn; try done. congruence.
  - destruct (Hgo eq_refl) as (Hpre & Hstill & Hend), (Hw eq_refl) as [Hwrote Hzero].
    split; cbn; rewrite ?Hob, ?Htb, ?Hzero; [lia|by apply Hall| | | | |done].
    + rewrite Hwrote. by apply prefix_app.
    + intros Hf'. destruct (Hstill Hf') as [Hheld ->]. split; [|done]. by rewrite Hwrote, Hheld, (assoc_L (++)).
    + destruct fin; lia.
    + destruct fin; [|done]. intros _. destruct (Hend eq_refl) as [<- ?]. by rewrite Hwrote.
Qed.

Lemma cross_step_ok s s' : cross_step s s' -> crossing_ok s -> crossing_ok s'.
Proof.
  unfold crossing_ok. intros Hs [Hi Ho]. destruct Hs as [b c room r b' Ht Hr|b c buf r b' Ht Hw|b c Ht|b c Ht|b c recvs b' came stop Hd Hp|b c sends b' gave fin Hd Hp|b c Hd];
    cbn [fst snd] in *.
  - pose proof (task_reads_ok b c room Hi Ht) as Hok. rewrite Hr in Hok. destruct Hok as [Hok (in_ & pending & ->)]. split; [done|]. by apply outbound_ok_in.
  - pose proof (task_writes_ok b c buf Ho Ht) as Hok. rewrite Hw in Hok. destruct Hok as [Hok [out ->]]. split; [|done]. by apply inbound_ok_out.
  - cbn. split; [by destruct Hi as [? ? ? ? ?]; split|]. destruct Ho as [? ? ? ? ? Hdone ?]. split; cbn; try done.
    intros Hone. split; [by apply Hdone|done].
  - split; [|destruct Ho as [? ? ? ? ? Hdone ?]; split; cbn; try done; intros Hone; split; [by apply Hdone|done]].
    destruct Hi as [? ? ? ? ?]. split; cbn; try done; try lia.
  - split; [by eapply pumps_in_ok|]. pose proof (pump_in_spec recvs b (io_depth _ _ Hi) (io_chunks _ _ Hi)) as Hs. rewrite Hp in Hs.
    destruct Hs as (_ & _ & _ & -> & _). by apply outbound_ok_in.
  - split; [|by eapply pumps_out_ok]. pose proof (pump_out_spec sends b) as Hs. rewrite Hp in Hs. destruct Hs as (_ & _ & -> & _). by apply inbound_ok_out.
  - destruct Hi as [? ? ? ? ?], Ho as [? ? ? ? ? ? ?]. by split; split.
Qed.

Lemma crossing_reachable_ok s : rtc cross_step crossing_start s -> crossing_ok s.
Proof.
  intros Hrun. assert (crossing_ok crossing_start) as H0 by exact crossing_start_ok. revert H0.
  induction Hrun as [|x y z Hxy _ IH]; [done|]. intros Hx. apply IH. by eapply cross_step_ok.
Qed.

(** C18: a bridged stream under any interleaving of the task's reads, writes, shutdown
    and drop with the driver's passes over a connection that splits, delays or refuses
    bytes as it likes.  What the task reads is a prefix of what came, and while the task is
    there every byte that came was read or is held for it; what the connection was given is
    a prefix of what the task wrote; FIN goes out at most once, after the shutdown and
    after every written byte; a read that reports the end, with the driver there, has
    delivered all that came and the connection had ended cleanly; and each way holds at
    most [DEPTH] chunks, outward of at most [CHUNK] bytes. *)
Theorem bridge_lossless b c :
  rtc cross_step crossing_start (b, c) ->
  cr_read c `prefix_of` cr_came c /\ (br_task b = true -> cr_came c = cr_read c ++ held_in b) /\
  cr_gave c `prefix_of` cr_wrote c /\ (cr_fins c <= 1)%nat /\ (cr_fins c = 1%nat -> cr_gave c = cr_wrote c /\ br_outbound b = false) /\
  (forall room b', br_task b = true -> br_driver b = true -> (0 < room)%nat -> BridgedStream_poll_read b room = (Ready [], b') ->
     cr_read c = cr_came c /\ cr_ended c = true) /\
  (length (br_in b) <= DEPTH)%nat /\ (length (br_out b) <= DEPTH)%nat /\ Forall (fun chunk => (length chunk <= CHUNK)%nat) (br_out b).
Proof.
  intros Hrun. apply crossing_reachable_ok in Hrun as [Hi Ho]. cbn [fst snd] in *. destruct Hi as [Hd Hc Hp Hw He], Ho as [Hd' Hc' Hp' Hw' Hf Hdone Hop].
  split_and!; try done.
  - intros Hone. by destruct (Hdone Hone).
  - intros room b' Ht Hdr Hroom Hr. pose proof (poll_read_spec b room Hc) as Hs. rewrite Hr in Hs. destruct Hs as (_ & _ & _ & _ & Hend).
    destruct (Hend eq_refl Hroom) as (Hnil & Hsender & Hreset). rewrite Hdr, andb_true_r in Hsender.
    split; [|by apply He]. by rewrite (Hw Ht), Hnil, app_nil_r.
  - eapply Forall_impl; [exact Hc'|]. intros chunk [_ Hlen]. exact Hlen.
Qed.

Lemma bridge_lossless_witness :
  let b := mkBridge [] false false [8] true [] false None true true in
  let c := mkCrossing [1; 2] [7] [7; 8] [1; 2] 1 true in
  cr_read c `prefix_of` cr_came c /\ (br_task b = true -> cr_came c = cr_read c ++ held_in b) /\
  cr_gave c `prefix_of` cr_wrote c /\ (cr_fins c <= 1)%nat /\ (cr_fins c = 1%nat -> cr_gave c = cr_wrote c /\ br_outbound b = false) /\
  (forall room b', br_task b = true -> br_driver b = true -> (0 < room)%nat -> BridgedStream_poll_read b room = (Ready [], b') ->
     cr_read c = cr_came c /\ cr_ended c = true) /\
  (length (br_in b) <= DEPTH)%nat /\ (length (br_out b) <= DEPTH)%nat /\ Forall (fun chunk => (length chunk <= CHUNK)%nat) (br_out b).
Proof.
  cbn zeta. apply bridge_lossless. unfold crossing_start.
  eapply rtc_l; [eapply (task_writes _ _ [1; 2]); reflexivity|]. cbn.
  eapply rtc_l; [eapply (driver_pumps_out _ _ [SendTakes 1]); reflexivity|]. cbn.
  eapply rtc_l; [apply task_shuts; reflexivity|]. cbn.
  eapply rtc_l; [eapply (driver_pumps_out _ _ [SendTakes 1]); reflexivity|]. cbn.
  eapply rtc_l; [eapply (driver_pumps_in _ _ [RecvBytes [7; 8] true]); reflexivity|]. cbn.
  eapply rtc_l; [eapply (task_reads _ _ 1); reflexivity|]. cbn. apply rtc_refl.
Defined.

(** ** A stopped stream *)

(** After a send failed, the driver never takes from the task's queue again while it keeps
    the plumbing for the other direction. *)
Lemma pump_out_finished sends b : br_finished b = true -> pump_out sends b = (b, [], false).
Proof. intros Hf. destruct sends; cbn [pump_out]; by rewrite Hf. Qed.

(** A writer whose peer stopped reading is not told: once its queue is full each write
    waits, whatever passes the driver makes. *)
Theorem stopped_writer_waits b sends buf :
  br_finished b = true -> br_outbound b = true -> br_driver b = true -> length (br_out b) = DEPTH -> buf <> [] ->
  let '(b', _, _) := pump_out sends b in BridgedStream_poll_write b' buf = (Waits, b').
Proof.
  intros Hf Ho Hd Hl Hb. rewrite pump_out_finished by done. unfold BridgedStream_poll_write. rewrite Ho, Hd, Hl. cbn [negb].
  by destruct buf.
Qed.

(** ** Bounds *)

(** The tasks' side of a bridge: whatever a task does to the stream it holds. *)
Inductive task_acts : Bridge -> Bridge -> Prop :=
| acts_read b room : task_acts b (BridgedStream_poll_read b room).2
| acts_write b buf : task_acts b (BridgedStream_poll_write b buf).2
| acts_shutdown b : task_acts b (BridgedStream_poll_shutdown b).2
| acts_drop b : task_acts b (BridgedStream_drop b).

Definition bridge_bounded (b : Bridge) : Prop :=
  (length (br_in b) <= DEPTH)%nat /\ Forall (fun chunk => chunk <> []) (br_in b) /\
  (length (br_out b) <= DEPTH)%nat /\ Forall (fun chunk => (length chunk <= CHUNK)%nat) (br_out b).

Lemma pair_bounded : bridge_bounded pair.
Proof. repeat split; cbn; try lia; constructor. Qed.

Lemma pump_in_bounded recvs b : bridge_bounded b -> bridge_bounded (pump_in recvs b).1.1.
Proof.
  intros (Hi & Hc & Ho & Hs). pose proof (pump_in_spec recvs b Hi Hc) as Hp. destruct (pump_in recvs b) as [[b' came] stop].
  destruct Hp as (Hi' & Hc' & _ & Hb & _). cbn [fst]. split_and!; [done|done|by rewrite Hb..].
Qed.

Lemma pump_out_bounded sends b : bridge_bounded b -> bridge_bounded (pump_out sends b).1.1.
Proof.
  intros (Hi & Hc & Ho & Hs). pose proof (pump_out_spec sends b) as Hp. destruct (pump_out sends b) as [[b' gave] fin].
  destruct Hp as (Hl & Hall & Hb & _). cbn [fst]. split_and!; [by rewrite Hb|by rewrite Hb|lia|by apply Hall].
Qed.

Lemma task_acts_bounded b b' : task_acts b b' -> bridge_bounded b -> bridge_bounded b'.
Proof.
  intros Ha (Hi & Hc & Ho & Hs). destruct Ha as [b room|b buf|b|b].
  - pose proof (poll_read_spec b room Hc) as Hp. destruct (BridgedStream_poll_read b room) as [r b']. destruct Hp as (_ & Hl & Hc' & Hb & _).
    cbn [snd]. split_and!; [lia|done|by rewrite Hb..].
  - unfold BridgedStream_poll_write. destruct (negb (br_outbound b)); [done|]. destruct (length buf =? 0)%nat; [done|].
    destruct (negb (br_driver b)); [done|]. destruct (DEPTH <=? length (br_out b))%nat eqn:Ed; [done|]. reflect.
    cbn [snd with_out]. split_and!; [done|done| |]; cbn [br_out].
    + cbn. rewrite length_app. cbn. lia.
    + apply Forall_app. split; [done|]. constructor; [|constructor]. rewrite length_take. lia.
  - done.
  - cbn. split_and!; [cbn; lia|constructor|done|done].
Qed.
