(* ===== verification/Quic.v ===== *)
(** The QUIC driver ([src/egress/quic.rs]): stream ids, the commands of its handles, the
    datagram receiver that is claimed once, and a pass of [service] over its bridges.

    Quiche is what its calls answer: the streams it has readable with what they give, what
    it takes on each stream, the datagrams it holds, and how many streams the peer
    allows. *)

From S2P Require Import Prelude Wire Net Plan Pool IpText Text Egress Transport Bridge.
Open Scope Z_scope.

Definition COMMAND_DEPTH : nat := 16.
Definition DATAGRAM_DEPTH : nat := 256.
Definition FLUSH_BURST : nat := 64.
Definition KEEPALIVE : Duration := from_secs 15.

(** The inbound datagram channel: what waits in it and whether its receiver is alive. *)
Record Datagrams := mkDatagrams { dg_queue : list bytes; dg_alive : bool }.

Record Driver := mkDriver {
  dv_next_stream_id : Z;
  dv_streams : gmap Z Bridge;
  dv_datagrams : option Datagrams;
  dv_budget : nat;
}.

(** A handle's command, and whether it still waits for the reply. *)
Inductive Command := OpenBidi (waits : bool) | SendDatagram (payload : bytes) | Receive (waits : bool).

(** What a command is answered: a stream by its id, a refusal by the dropped reply, the
    datagram receiver or none; [Given] is a payload handed to quiche. *)
Inductive Answer := Opened (id : Z) | NotOpened | Claimed | AlreadyClaimed | Unclaimed | Given (payload : bytes).

Definition dispatch_command (d : Driver) (peer_streams_left : nat) (command : Command) : Answer * Driver :=
  match command with
  | SendDatagram payload => (Given payload, d)
  | Receive waits =>
      match dv_datagrams d with
      | Some _ => (AlreadyClaimed, d)
      | None =>
          if waits : bool
          then (Claimed, mkDriver (dv_next_stream_id d) (dv_streams d) (Some (mkDatagrams [] true)) (dv_budget d))
          else (Unclaimed, d)
      end
  | OpenBidi waits =>
      if (peer_streams_left =? 0)%nat then (NotOpened, d) else
      let id := dv_next_stream_id d in
      if waits : bool
      then (Opened id, mkDriver (id + 4) (<[id := pair]> (dv_streams d)) (dv_datagrams d) (dv_budget d))
      else (NotOpened, mkDriver (id + 4) (dv_streams d) (dv_datagrams d) (dv_budget d))
  end.

(** The [while] over the datagrams quiche holds: what the channel takes, and what quiche
    keeps.  A datagram the channel refuses is lost and ends the loop. *)
Fixpoint drain_to_sink (held : list bytes) (sink : Datagrams) : Datagrams * list bytes :=
  match held with
  | [] => (sink, [])
  | d :: held =>
      if negb (dg_alive sink) || (DATAGRAM_DEPTH <=? length (dg_queue sink))%nat then (sink, held)
      else drain_to_sink held (mkDatagrams (dg_queue sink ++ [d]) true)
  end.

(** The sweep over the readable streams: a bridge is pumped; a stream that has none is
    drained. *)
Definition sweep_readable (readable : list (Z * list RecvEvent)) (streams : gmap Z Bridge) : gmap Z Bridge :=
  foldl (fun streams '(id, recvs) =>
    match streams !! id with
    | Some b => <[id := (pump_in recvs b).1.1]> streams
    | None => streams
    end) streams readable.

Definition service (d : Driver) (dgram_max : option nat) (held : list bytes) (readable : list (Z * list RecvEvent))
    (takes : Z -> list SendEvent) : Driver * list bytes :=
  let '(datagrams, held) :=
    match dv_datagrams d with
    | Some sink => let '(sink, held) := drain_to_sink held sink in (Some sink, held)
    | None => (None, held)
    end in
  let streams := sweep_readable readable (dv_streams d) in
  let streams := map_imap (fun id b => Some (pump_out (takes id) b).1.1) streams in
  let streams := filter (fun kv => br_to_task kv.2 || negb (br_finished kv.2) = true) streams in
  (mkDriver (dv_next_stream_id d) streams datagrams (default 0%nat dgram_max), held).

(** [QuicConnection::datagram_budget]. *)
Definition datagram_budget (d : Driver) : option nat := match dv_budget d with O => None | n => Some n end.

(** The ids of the streams a command opened. *)
Definition opened (a : Answer) : list Z := match a with Opened id => [id] | _ => [] end.

(** A step of the driver, of the task that holds a stream or of the datagrams' claimant,
    labelled with the ids it opened. *)
Inductive driver_step : Driver -> list Z -> Driver -> Prop :=
| driver_commanded d left_ command :
    driver_step d (opened (dispatch_command d left_ command).1) (dispatch_command d left_ command).2
| driver_serviced d dgram_max held readable takes : driver_step d [] (service d dgram_max held readable takes).1
| driver_task d id b b' :
    dv_streams d !! id = Some b -> task_acts b b' ->
    driver_step d [] (mkDriver (dv_next_stream_id d) (<[id := b']> (dv_streams d)) (dv_datagrams d) (dv_budget d))
| driver_claimant d sink queue alive :
    dv_datagrams d = Some sink -> (length queue <= length (dg_queue sink))%nat ->
    driver_step d [] (mkDriver (dv_next_stream_id d) (dv_streams d) (Some (mkDatagrams queue alive)) (dv_budget d)).

(** A run, with the ids opened along it in order. *)
Inductive driver_run (d : Driver) : list Z -> Driver -> Prop :=
| driver_run_nil : driver_run d [] d
| driver_run_snoc ids d1 more d2 : driver_run d ids d1 -> driver_step d1 more d2 -> driver_run d (ids ++ more) d2.

(** ** Sending *)

(** [conn.send] and what the socket does with the packet; past the script there is nothing
    to send. *)
Inductive FlushEvent := FlushSent (packet : bytes) (socket : Res ErrorKind unit) | FlushDone | FlushFails.

(** [flush]: at most [FLUSH_BURST] packets, with the packets the socket took; whether all
    that was ready is out. *)
Fixpoint flush_loop {W} (transient : ErrorKind -> bool) (turns : nat) (events : list FlushEvent) : Res (EgressError W) bool * list bytes :=
  match turns with
  | O => (Ok false, [])
  | S turns =>
      match events with
      | FlushSent packet socket :: events =>
          match socket with
          | Ok _ => let '(r, sent) := flush_loop transient turns events in (r, packet :: sent)
          | Err kind => if transient kind then flush_loop transient turns events else (Err (Io kind), [])
          | Panic => (Panic, [])
          end
      | FlushFails :: _ => (Err Quic, [])
      | FlushDone :: _ | [] => (Ok true, [])
      end
  end.

Definition flush {W} (transient : ErrorKind -> bool) (events : list FlushEvent) : Res (EgressError W) bool * list bytes :=
  flush_loop transient FLUSH_BURST events.

(** ** Authentication *)

Record H3Response := mkH3Response { h3_status : Z; h3_headers : list (bytes * bytes) }.

Definition H3Response_header (response : H3Response) (name : bytes) : option bytes :=
  '(_, value) ← find (fun '(key, _) => bool_decide (key = name)) (h3_headers response);
  if utf8_ok value then Some value else None.

(** What [h3.poll] answers. *)
Inductive H3Event := H3Headers (list_ : list (bytes * bytes)) | H3Other | H3Error.

(** The polling closure of [Handshake::http3]: the first header block with a status that
    parses; [None] when the events run out first. *)
Fixpoint http3_poll (events : list H3Event) : option H3Response :=
  match events with
  | H3Headers list_ :: events =>
      let status :=
        '(_, value) ← find (fun '(key, _) => bool_decide (key = text_of ":status")) list_;
        if utf8_ok value then parse_uint (2 ^ 16 - 1) value else None in
      match status with
      | Some status => Some (mkH3Response status (filter (fun kv => negb (starts_with [58] kv.1) = true) list_))
      | None => http3_poll events
      end
  | H3Other :: events => http3_poll events
  | H3Error :: _ | [] => None
  end.

(** [Handshake::drive]: the driver starts after the authentication's stream. *)
Definition Handshake_drive (next_stream_id : Z) (dgram_max : option nat) : Driver :=
  mkDriver next_stream_id ∅ None (default 0%nat dgram_max).

(** Whether the loop of [Driver::run] goes on after a pass. *)
Definition drives_on {W} (flushed : Res (EgressError W) bool) (closed closing : bool) (d : Driver) : bool :=
  match flushed with
  | Ok _ => negb closed && negb (closing && bool_decide (dv_streams d = ∅))
  | _ => false
  end.

(** Whether the keepalive timer is armed. *)
Definition in_use (d : Driver) : bool := negb (bool_decide (dv_streams d = ∅)) || bool_decide (is_Some (dv_datagrams d)).

(** * The driver stays bounded *)

Definition sink_bounded (d : Driver) : Prop := forall sink, dv_datagrams d = Some sink -> (length (dg_queue sink) <= DATAGRAM_DEPTH)%nat.

Lemma drain_to_sink_bounded held : forall sink, (length (dg_queue sink) <= DATAGRAM_DEPTH)%nat -> (length (dg_queue (drain_to_sink held sink).1) <= DATAGRAM_DEPTH)%nat.
Proof.
  induction held as [|d held IH]; intros sink Hl; cbn [drain_to_sink]; [done|].
  destruct (negb _ || _) eqn:E; [done|]. apply IH. reflect. cbn. rewrite length_app. cbn [length]. lia.
Qed.

Lemma sweep_readable_keeps readable : forall streams,
  map_Forall (fun _ => bridge_bounded) streams ->
  map_Forall (fun _ => bridge_bounded) (sweep_readable readable streams) /\ dom (sweep_readable readable streams) = dom streams.
Proof.
  unfold sweep_readable. induction readable as [|[id recvs] readable IH]; intros streams Hs; cbn [foldl]; [done|].
  destruct (streams !! id) as [b|] eqn:E; [|by apply IH].
  destruct (IH (<[id := (pump_in recvs b).1.1]> streams)) as [Hb Hd].
  - apply map_Forall_insert_2; [|done]. apply pump_in_bounded. by eapply Hs.
  - split; [done|]. rewrite Hd, dom_insert_L. assert (id ∈ dom streams) by (by apply elem_of_dom). set_solver.
Qed.

(** ** Runs of the driver *)

Record driver_ok (start : Z) (ids : list Z) (d : Driver) : Prop := {
  do_next : exists n, 0 <= n /\ dv_next_stream_id d = start + 4 * n;
  do_ids : Forall (fun id => exists n, 0 <= n /\ id = start + 4 * n /\ id < dv_next_stream_id d) ids;
  do_sorted : StronglySorted Z.lt ids;
  do_dom : forall id, is_Some (dv_streams d !! id) -> id ∈ ids;
  do_bounded : map_Forall (fun _ => bridge_bounded) (dv_streams d);
  do_sink : sink_bounded d;
}.

Lemma driver_ok_frame start ids d streams datagrams budget :
  driver_ok start ids d ->
  (forall id, is_Some (streams !! id) -> is_Some (dv_streams d !! id)) -> map_Forall (fun _ => bridge_bounded) streams ->
  (forall sink, datagrams = Some sink -> (length (dg_queue sink) <= DATAGRAM_DEPTH)%nat) ->
  driver_ok start ids (mkDriver (dv_next_stream_id d) streams datagrams budget).
Proof. intros [Hn Hi Hs Hd Hb Hk] Hdom Hb' Hk'. split; cbn; try done. intros id Hid. by apply Hd, Hdom. Qed.

Lemma dispatch_ok start ids d left_ command :
  driver_ok start ids d -> driver_ok start (ids ++ opened (dispatch_command d left_ command).1) (dispatch_command d left_ command).2.
Proof.
  intros Hok. destruct command as [waits|payload|waits]; cbn [dispatch_command].
  - destruct (left_ =? 0)%nat; [by cbn; rewrite app_nil_r|]. destruct Hok as [(n & Hn0 & Hn) Hi Hs Hd Hb Hk].
    assert (exists m, 0 <= m /\ dv_next_stream_id d + 4 = start + 4 * m) as Hnext by (exists (n + 1); lia).
    assert (Forall (fun id => exists n, 0 <= n /\ id = start + 4 * n /\ id < dv_next_stream_id d + 4) ids) as Hids
      by (eapply Forall_impl; [exact Hi|]; intros id (k & ? & ? & ?); exists k; lia).
    destruct waits; cbn [opened fst snd]; [|rewrite app_nil_r; by split].
    split; cbn; [done| | | | |done].
    + apply Forall_app. split; [done|]. constructor; [exists n; lia|constructor].
    + apply StronglySorted_app. split_and!; [|done|by repeat constructor]. intros x y Hx Hy%list_elem_of_singleton. subst y.
      rewrite Forall_forall in Hi. destruct (Hi x Hx) as (k & ? & ? & ?). lia.
    + intros id [b Hb']. apply elem_of_app. destruct (decide (id = dv_next_stream_id d)) as [->|Hne]; [right; by apply list_elem_of_singleton|].
      left. rewrite lookup_insert_ne in Hb' by done. apply Hd. by exists b.
    + apply map_Forall_insert_2; [exact pair_bounded|done].
  - cbn. by rewrite app_nil_r.
  - destruct (dv_datagrams d) as [sink|] eqn:E; [by cbn; rewrite app_nil_r|]. destruct waits; cbn [opened fst snd]; rewrite app_nil_r; [|done].
    apply driver_ok_frame; [done|done|apply Hok|]. intros sink [= <-]. cbn. lia.
Qed.

Lemma service_ok start ids d dgram_max held readable takes :
  driver_ok start ids d -> driver_ok start ids (service d dgram_max held readable takes).1.
Proof.
  intros Hok. destruct (sweep_readable_keeps readable (dv_streams d) (do_bounded _ _ _ Hok)) as [Hb Hdom]. unfold service.
  set (streams := filter _ _).
  assert (forall datagrams, (forall sink, datagrams = Some sink -> (length (dg_queue sink) <= DATAGRAM_DEPTH)%nat) ->
    driver_ok start ids (mkDriver (dv_next_stream_id d) streams datagrams (default 0%nat dgram_max))) as Hwith.
  { intros datagrams Hg. apply driver_ok_frame; [done| | |done].
    - intros id [b Hid]. unfold streams in Hid. apply map_lookup_filter_Some in Hid as [Hid _]. rewrite map_lookup_imap in Hid.
      apply elem_of_dom. rewrite <- Hdom. apply elem_of_dom. by destruct (sweep_readable _ _ !! id).
    - intros id b Hid. unfold streams in Hid. apply map_lookup_filter_Some in Hid as [Hid _]. rewrite map_lookup_imap in Hid.
      destruct (sweep_readable _ _ !! id) as [b0|] eqn:E; cbn in Hid; [|done]. injection Hid as <-. apply pump_out_bounded. by eapply Hb. }
  destruct (dv_datagrams d) as [sink|] eqn:E; [|by apply Hwith].
  pose proof (drain_to_sink_bounded held sink (do_sink _ _ _ Hok _ E)) as Hd.
  destruct (drain_to_sink held sink) as [sink' held']. apply Hwith. by intros ? [= <-].
Qed.

Lemma driver_step_ok start ids d more d' : driver_step d more d' -> driver_ok start ids d -> driver_ok start (ids ++ more) d'.
Proof.
  intros Hs Hok. destruct Hs as [d left_ command|d dgram_max held readable takes|d id b b' Hl Ha|d sink queue alive Hsink Hq]; [by apply dispatch_ok| | |];
    rewrite app_nil_r.
  - by apply service_ok.
  - apply driver_ok_frame; [done| | |apply Hok].
    + intros i. destruct (decide (i = id)) as [->|Hne]; [done|by rewrite lookup_insert_ne].
    + apply map_Forall_insert_2; [|apply Hok]. eapply task_acts_bounded; [done|]. by eapply (do_bounded _ _ _ Hok).
  - apply driver_ok_frame; [done|done|apply Hok|]. intros ? [= <-]. cbn. pose proof (do_sink _ _ _ Hok _ Hsink). lia.
Qed.

Lemma Handshake_drive_ok start m : driver_ok start [] (Handshake_drive start m).
Proof. split; cbn; [exists 0; lia|constructor|constructor|by intros id [b Hb]|by intros id b Hb|done]. Qed.

Lemma driver_run_ok start m ids d : driver_run (Handshake_drive start m) ids d -> driver_ok start ids d.
Proof. intros Hrun. induction Hrun as [|ids d1 more d2 _ IH Hs]; [apply Handshake_drive_ok|]. by eapply driver_step_ok. Qed.

(** whatever commands come, however many streams the peer allows, whatever quiche has
    to read and takes, and whatever the tasks do with their streams: the driver opens each
    stream id once, in increasing order, in steps of four from the first id after the
    authentication; it holds bridges only for ids it opened; each bridge holds at most
    [DEPTH] chunks each way and the datagram queue at most [DATAGRAM_DEPTH]. *)
Theorem driver_bounded start m ids d :
  driver_run (Handshake_drive start m) ids d ->
  StronglySorted Z.lt ids /\ Forall (fun id => start <= id < dv_next_stream_id d /\ (id - start) mod 4 = 0) ids /\
  (forall id, is_Some (dv_streams d !! id) -> id ∈ ids) /\
  map_Forall (fun _ b => (length (br_in b) <= DEPTH)%nat /\ (length (br_out b) <= DEPTH)%nat /\
                         Forall (fun chunk => (length chunk <= CHUNK)%nat) (br_out b)) (dv_streams d) /\
  (forall sink, dv_datagrams d = Some sink -> (length (dg_queue sink) <= DATAGRAM_DEPTH)%nat).
Proof.
  intros Hrun. apply driver_run_ok in Hrun as [Hn Hi Hs Hd Hb Hk]. split_and!; [done| |done| |done].
  - eapply Forall_impl; [exact Hi|]. intros id (n & ? & -> & ?). split; [lia|]. replace (start + 4 * n - start) with (n * 4) by lia. apply Z.mod_mul. lia.
  - intros id b Hid. destruct (Hb id b Hid) as (? & _ & ? & ?). done.
Qed.

Lemma driver_bounded_witness :
  let d := mkDriver 12 {[4 := mkBridge [[1]] true false [] true [] true None false true; 8 := pair]} None 1200 in
  driver_run (Handshake_drive 4 (Some 1200%nat)) [4; 8] d /\ (StronglySorted Z.lt [4; 8] /\ map_Forall (fun _ b => (length (br_in b) <= DEPTH)%nat) (dv_streams d)).
Proof.
  cbn zeta. match goal with |- ?A /\ _ => assert A as Hrun end.
  { eapply (driver_run_snoc _ [4; 8] (mkDriver 12 {[4 := pair; 8 := pair]} None 1200) []).
    - eapply (driver_run_snoc _ [4] (mkDriver 8 {[4 := pair]} None 1200) [8]).
      + eapply (driver_run_snoc _ [] _ [4]); [constructor|]. exact (driver_commanded (Handshake_drive 4 (Some 1200%nat)) 9 (OpenBidi true)).
      + exact (driver_commanded (mkDriver 8 {[4 := pair]} None 1200) 9 (OpenBidi true)).
    - exact (driver_serviced (mkDriver 12 {[4 := pair; 8 := pair]} None 1200) (Some 1200%nat) [] [(4, [RecvBytes [1] false])] (fun _ => [])). }
  split; [exact Hrun|]. destruct (driver_bounded 4 (Some 1200%nat) _ _ Hrun) as (Hs & _ & _ & Hb & _). split; [exact Hs|].
  intros id b Hid. exact (proj1 (Hb id b Hid)).
Defined.

(** ** What the driver does not notice *)

(** A stream is counted against the peer's limit once quiche has created it, which
    [OpenBidi] does not do: with one stream left, two commands in a row are both granted. *)
Example open_bidi_overcommits :
  let '(a, d) := dispatch_command (Handshake_drive 0 None) 1 (OpenBidi true) in
  (a, (dispatch_command d 1 (OpenBidi true)).1) = (Opened 0, Opened 4).
Proof. reflexivity. Qed.

Lemma sweep_readable_other readable id : forall streams,
  ~ id ∈ readable.*1 -> sweep_readable readable streams !! id = streams !! id.
Proof.
  unfold sweep_readable. induction readable as [|[i recvs] readable IH]; intros streams Hni; cbn [foldl]; [done|].
  cbn in Hni. apply not_elem_of_cons in Hni as [Hne Hni]. rewrite IH by done. destruct (streams !! i); [|done]. by rewrite lookup_insert_ne.
Qed.

Lemma pump_out_keeps_in sends b : br_to_task (pump_out sends b).1.1 = br_to_task b /\ br_task (pump_out sends b).1.1 = br_task b.
Proof. pose proof (pump_out_spec sends b) as Hp. destruct (pump_out sends b) as [[b' gave] fin]. destruct Hp as (_ & _ & Hb & _). cbn. by rewrite Hb. Qed.

(** A stream its task dropped is kept for as long as the peer sends nothing on it, however
    many passes are made, so the loop goes on after the last handle is gone and the
    keepalive timer stays armed. *)
Theorem abandoned_stream_kept {W} d id b dgram_max held readable takes :
  dv_streams d !! id = Some b -> br_task b = false -> br_to_task b = true -> ~ id ∈ readable.*1 ->
  let d' := (service d dgram_max held readable takes).1 in
  (exists b', dv_streams d' !! id = Some b' /\ br_task b' = false /\ br_to_task b' = true) /\
  in_use d' = true /\ drives_on (Ok true : Res (EgressError W) bool) false true d' = true.
Proof.
  intros Hb Ht Hto Hni d'. assert (exists b', dv_streams d' !! id = Some b' /\ br_task b' = false /\ br_to_task b' = true) as Hkept.
  { exists (pump_out (takes id) b).1.1. destruct (pump_out_keeps_in (takes id) b) as [-> ->]. split_and!; [|done|done]. subst d'. unfold service.
    destruct (match dv_datagrams d with Some _ => _ | None => _ end) as [g h]. cbn [fst dv_streams].
    apply map_lookup_filter_Some. rewrite map_lookup_imap, sweep_readable_other, Hb by done. split; [done|]. cbn [snd].
    destruct (pump_out_keeps_in (takes id) b) as [-> _]. by rewrite Hto. }
  split; [done|]. destruct Hkept as (b' & Hb' & _). assert (bool_decide (dv_streams d' = ∅) = false) as Hne.
  { apply bool_decide_eq_false. intros Hd. by rewrite Hd, lookup_empty in Hb'. }
  unfold in_use, drives_on. by rewrite Hne.
Qed.
