(* ===== verification/Stack.v ===== *)
(** The local TCP terminator ([src/l4/stream.rs]): listeners, accepted connections and the
    queue device around smoltcp.

    Sockets and the interface that moves them belong to the smoltcp crate: they are the
    class [Smoltcp], and what the terminator relies on is [SmoltcpLaws].  The socket set is
    the map from handles to sockets; looking up a handle that is not there panics. *)

From S2P Require Import Prelude Wire Net Plan Pool.
Open Scope Z_scope.

(** ** The device *)

Record QueueDevice := mkDevice {
  qd_inbound : list Pooled;
  qd_outbound : list Pooled;
  qd_pool : BufferPool;
  qd_mtu : nat;
}.

(** [Device::receive]: the packet and the reply's buffer; a buffer taken for no packet is
    dropped again. *)
Definition Device_receive (d : QueueDevice) : option (Pooled * Pooled) * QueueDevice :=
  match BufferPool_take_zeroed (qd_pool d) 0 with
  | (None, pool) => (None, mkDevice (qd_inbound d) (qd_outbound d) pool (qd_mtu d))
  | (Some buffer, pool) =>
      match qd_inbound d with
      | [] => (None, mkDevice [] (qd_outbound d) (Pooled_drop pool buffer) (qd_mtu d))
      | packet :: inbound => (Some (packet, buffer), mkDevice inbound (qd_outbound d) pool (qd_mtu d))
      end
  end.

Definition Device_transmit (d : QueueDevice) : option Pooled * QueueDevice :=
  let '(buffer, pool) := BufferPool_take_zeroed (qd_pool d) 0 in
  (buffer, mkDevice (qd_inbound d) (qd_outbound d) pool (qd_mtu d)).

(** [QueueTx::consume]: the stack overwrites the resized buffer with [segment]. *)
Definition QueueTx_consume (d : QueueDevice) (buffer : Pooled) (len : nat) (segment : bytes) : QueueDevice :=
  let buffer := (Pooled_resize (qd_pool d) buffer len).2 in
  let buffer := take (length buffer) (segment ++ drop (length segment) buffer) in
  mkDevice (qd_inbound d) (qd_outbound d ++ [buffer]) (qd_pool d) (qd_mtu d).

(** A token that is not consumed, or a received packet after [QueueRx::consume]. *)
Definition loan_dropped (d : QueueDevice) (buffer : Pooled) : QueueDevice :=
  mkDevice (qd_inbound d) (qd_outbound d) (Pooled_drop (qd_pool d) buffer) (qd_mtu d).

Definition reply_with (d : QueueDevice) (buffer : Pooled) (reply : option (nat * bytes)) : QueueDevice :=
  match reply with
  | Some (len, segment) => QueueTx_consume d buffer len segment
  | None => loan_dropped d buffer
  end.

(** What a stack may do with the device: take tokens, and consume a transmit token for at
    most the advertised unit. *)
Definition fits_mtu (d : QueueDevice) (reply : option (nat * bytes)) : Prop :=
  forall len segment, reply = Some (len, segment) -> (len <= qd_mtu d)%nat.

Inductive device_step : QueueDevice -> QueueDevice -> Prop :=
| device_receives d packet buffer d' reply :
    Device_receive d = (Some (packet, buffer), d') -> fits_mtu d reply ->
    device_step d (reply_with (loan_dropped d' packet) buffer reply)
| device_receives_none d d' : Device_receive d = (None, d') -> device_step d d'
| device_transmits d buffer d' reply :
    Device_transmit d = (Some buffer, d') -> fits_mtu d reply -> device_step d (reply_with d' buffer reply)
| device_transmits_none d d' : Device_transmit d = (None, d') -> device_step d d'.

(** ** Sockets *)

(** [smoltcp::socket::tcp::State]. *)
Inductive TcpState :=
| S_Closed | S_Listen | S_SynSent | S_SynReceived | S_Established | S_FinWait1 | S_FinWait2
| S_CloseWait | S_Closing | S_LastAck | S_TimeWait.

#[global] Instance TcpState_eq_dec : EqDecision TcpState.
Proof. solve_decision. Defined.

Inductive RecvError := RecvInvalidState | RecvFinished.

(** A handle is a number; [s_add] is the handle [SocketSet::add] gives, [s_listen] a new
    socket with its buffers and timers that listens on a port, or none when [listen]
    refuses it. *)
Class Smoltcp (S I : Type) := {
  s_listen : nat -> Z -> option S;
  s_state : S -> TcpState;
  s_can_recv : S -> bool;
  s_may_recv : S -> bool;
  s_can_send : S -> bool;
  s_may_send : S -> bool;
  s_recv_slice : nat -> S -> Res RecvError bytes * S;
  s_send_slice : bytes -> S -> option nat * S;
  s_close : S -> S;
  s_abort : S -> S;
  s_remote : S -> option InternalEndpoint;
  s_local : S -> option InternalEndpoint;
  s_add : gmap nat S -> nat;
  i_poll : Z -> I -> QueueDevice -> gmap nat S -> bool * (I * QueueDevice * gmap nat S);
  i_poll_at : Z -> I -> gmap nat S -> option Z;
}.

(** A closed socket that never was a connection has lost its endpoints. *)
Definition never_opened {S I : Type} `{Smoltcp S I} (s : S) : Prop :=
  s_state s = S_Closed -> s_remote s = None \/ s_local s = None.

Class SmoltcpLaws (S I : Type) `{Smoltcp S I} := {
  i_work : I -> QueueDevice -> gmap nat S -> nat;
  s_listen_listens : forall size port s, s_listen size port = Some s -> s_state s = S_Listen;
  s_abort_closes : forall s, s_state (s_abort s) = S_Closed;
  s_add_fresh : forall sockets, sockets !! (s_add sockets) = None;
  s_recv_within : forall room s bs s', s_recv_slice room s = (Ok bs, s') -> (length bs <= room)%nat;
  s_send_within : forall bs s n s', s_send_slice bs s = (Some n, s') -> (n <= length bs)%nat;
  s_no_panic : forall room s, (s_recv_slice room s).1 <> Panic;
  i_poll_dom : forall now i d m, dom (i_poll now i d m).2.2 = dom m;
  i_poll_device : forall now i d m, rtc device_step d (i_poll now i d m).2.1.2;
  i_poll_half_open : forall now i d m h s s',
    m !! h = Some s -> never_opened s -> (i_poll now i d m).2.2 !! h = Some s' -> never_opened s';
  i_poll_closed : forall now i d m h s s',
    m !! h = Some s -> s_state s = S_Closed -> (i_poll now i d m).2.2 !! h = Some s' -> s_state s' = S_Closed;
  i_poll_works : forall now i d m i' d' m',
    i_poll now i d m = (true, (i', d', m')) -> (i_work i' d' m' < i_work i d m)%nat;
}.

(** ** The terminator *)

Record Terminated := mkTerminated { t_id : nat; t_client : InternalEndpoint; t_server : InternalEndpoint }.
Record Ended := mkEnded { e_id : nat; e_reset : bool }.

Inductive StreamError := Unknown | WouldBlock | Closed | Reset.

Record TerminationLimits := mkTerminationLimits { max_sockets : nat; backlog : nat; socket_buffer : nat }.

Inductive TerminationError := SocketsBelowBacklog (ports backlog ceiling : nat).

Record Listener := mkListener { l_handle : nat; l_port : Z }.

Record LocalStack (S I : Type) := mkStack {
  ls_device : QueueDevice;
  ls_iface : I;
  ls_sockets : gmap nat S;
  ls_ports : list Z;
  ls_every_port : bool;
  ls_wanted : gmap Z nat;
  ls_listeners : list Listener;
  ls_limits : TerminationLimits;
  ls_established : gmap nat (InternalEndpoint * InternalEndpoint);
  ls_closing : gset nat;
  ls_accepted : list Terminated;
  ls_closed : list Ended;
  ls_base : Instant;
}.
Arguments mkStack {S I}. Arguments ls_device {S I}. Arguments ls_iface {S I}. Arguments ls_sockets {S I}.
Arguments ls_ports {S I}. Arguments ls_every_port {S I}. Arguments ls_wanted {S I}. Arguments ls_listeners {S I}.
Arguments ls_limits {S I}. Arguments ls_established {S I}. Arguments ls_closing {S I}. Arguments ls_accepted {S I}.
Arguments ls_closed {S I}. Arguments ls_base {S I}.

(** [syn_destination]: the port a TCP SYN opens. *)
Definition syn_destination (packet : bytes) : option Z :=
  first ← packet !! 0%nat;
  tcp_at ←
    match Z.shiftr first 4 with
    | 4 => if bool_decide (packet !! 9%nat = Some 6) then Some (Z.to_nat (Z.land first 15) * 4)%nat else None
    | 6 => if bool_decide (packet !! 6%nat = Some 6) then Some 40%nat else None
    | _ => None
    end;
  header ← get_range packet tcp_at (tcp_at + 14);
  flags ← header !! 13%nat;
  if Z.land flags 0x12 =? 0x02 then Some (be_value (take 2 (drop 2 header))) else None.

Definition handshaking (state : TcpState) : bool := bool_decide (state = S_Listen \/ state = S_SynSent \/ state = S_SynReceived).
Definition ended (state : TcpState) : StreamError := if bool_decide (state = S_Closed) then Reset else Closed.

Section LocalStack.
Context {S I : Type} `{Smoltcp S I}.
Implicit Types st : LocalStack S I.

Definition with_sockets st sockets : LocalStack S I :=
  mkStack (ls_device st) (ls_iface st) sockets (ls_ports st) (ls_every_port st) (ls_wanted st) (ls_listeners st) (ls_limits st)
    (ls_established st) (ls_closing st) (ls_accepted st) (ls_closed st) (ls_base st).
Definition with_device st device : LocalStack S I :=
  mkStack device (ls_iface st) (ls_sockets st) (ls_ports st) (ls_every_port st) (ls_wanted st) (ls_listeners st) (ls_limits st)
    (ls_established st) (ls_closing st) (ls_accepted st) (ls_closed st) (ls_base st).
Definition with_wanted st wanted : LocalStack S I :=
  mkStack (ls_device st) (ls_iface st) (ls_sockets st) (ls_ports st) (ls_every_port st) wanted (ls_listeners st) (ls_limits st)
    (ls_established st) (ls_closing st) (ls_accepted st) (ls_closed st) (ls_base st).
(** The tables of sockets replaced together. *)
Definition with_tables st sockets listeners established closing accepted closed : LocalStack S I :=
  mkStack (ls_device st) (ls_iface st) sockets (ls_ports st) (ls_every_port st) (ls_wanted st) listeners (ls_limits st)
    established closing accepted closed (ls_base st).

Definition socket_count st : nat := (length (ls_listeners st) + size (ls_established st))%nat.

(** [SocketSet::get]. *)
Definition get_socket {E} (sockets : gmap nat S) (h : nat) : Res E S := or_panic (sockets !! h).

Fixpoint count_listening {E} (sockets : gmap nat S) (port : Z) (listeners : list Listener) : Res E nat :=
  match listeners with
  | [] => Ok 0%nat
  | l :: listeners =>
      if l_port l =? port then
        s ← get_socket sockets (l_handle l);
        n ← count_listening sockets port listeners;
        Ok (if bool_decide (s_state s = S_Listen) then Datatypes.S n else n)
      else count_listening sockets port listeners
  end.

Definition listening {E} st (port : Z) : Res E nat := count_listening (ls_sockets st) port (ls_listeners st).

Definition add_listener st (port : Z) : bool * LocalStack S I :=
  if (max_sockets (ls_limits st) <=? socket_count st)%nat then (false, st) else
  match s_listen (socket_buffer (ls_limits st)) port with
  | None => (false, st)
  | Some socket =>
      let handle := s_add (ls_sockets st) in
      (true, with_tables st (<[handle := socket]> (ls_sockets st)) (ls_listeners st ++ [mkListener handle port])
               (ls_established st) (ls_closing st) (ls_accepted st) (ls_closed st))
  end.

Fixpoint add_listeners (n : nat) (port : Z) st : bool * LocalStack S I :=
  match n with
  | O => (true, st)
  | Datatypes.S n =>
      match add_listener st port with
      | (true, st) => add_listeners n port st
      | (false, st) => (false, st)
      end
  end.

Fixpoint replenish_ports {E} (ports : list Z) st : Res E (LocalStack S I) :=
  match ports with
  | [] => Ok st
  | port :: ports =>
      n ← listening st port;
      match add_listeners (backlog (ls_limits st) - n) port st with
      | (true, st) => replenish_ports ports st
      | (false, st) => Ok st
      end
  end.

Definition replenish_listeners {E} st : Res E (LocalStack S I) := replenish_ports (ls_ports st) st.

Definition LocalStack_new (mtu : Mtu) (ports : list Z) (limits : TerminationLimits) (pool : BufferPool) (base : Instant) (iface : I) :
    Res TerminationError (LocalStack S I) :=
  if (max_sockets limits <? length ports * backlog limits)%nat
  then Err (SocketsBelowBacklog (length ports) (backlog limits) (max_sockets limits))
  else
    let carried := (Z.to_nat (Mtu_get mtu) `min` slice_size pool)%nat in
    replenish_listeners
      (mkStack (mkDevice [] [] pool carried) iface ∅ ports false ∅ [] limits ∅ ∅ [] [] base).

Definition terminate_every_port st : LocalStack S I :=
  mkStack (ls_device st) (ls_iface st) (ls_sockets st) (ls_ports st) true (ls_wanted st) (ls_listeners st) (ls_limits st)
    (ls_established st) (ls_closing st) (ls_accepted st) (ls_closed st) (ls_base st).

Definition enqueue st (packet : Pooled) : LocalStack S I :=
  let d := ls_device st in
  with_device st (mkDevice (qd_inbound d ++ [packet]) (qd_outbound d) (qd_pool d) (qd_mtu d)).

Definition LocalStack_push {E} st (packet : Pooled) : Res E (LocalStack S I) :=
  match (if ls_every_port st then syn_destination packet else None) with
  | Some port =>
      if bool_decide (port ∈ ls_ports st) then Ok (enqueue st packet) else
      let wanted := Datatypes.S (default 0%nat (ls_wanted st !! port)) in
      let st := with_wanted st (<[port := wanted]> (ls_wanted st)) in
      n ← listening st port;
      Ok (enqueue (if (n <? wanted)%nat then (add_listener st port).2 else st) packet)
  | None => Ok (enqueue st packet)
  end.

Definition LocalStack_poll_transmit st : option Pooled * LocalStack S I :=
  let d := ls_device st in
  match qd_outbound d with
  | [] => (None, st)
  | packet :: outbound => (Some packet, with_device st (mkDevice (qd_inbound d) outbound (qd_pool d) (qd_mtu d)))
  end.

Definition LocalStack_poll_accept st : option Terminated * LocalStack S I :=
  match ls_accepted st with
  | [] => (None, st)
  | t :: accepted => (Some t, with_tables st (ls_sockets st) (ls_listeners st) (ls_established st) (ls_closing st) accepted (ls_closed st))
  end.

Definition LocalStack_poll_closed st : option Ended * LocalStack S I :=
  match ls_closed st with
  | [] => (None, st)
  | e :: closed => (Some e, with_tables st (ls_sockets st) (ls_listeners st) (ls_established st) (ls_closing st) (ls_accepted st) closed)
  end.

(** ** Harvest *)

(** The [retain] over the listeners: those that stay and the handles that became
    something else. *)
Fixpoint split_listeners {E} (sockets : gmap nat S) (listeners : list Listener) : Res E (list Listener * list nat) :=
  match listeners with
  | [] => Ok ([], [])
  | l :: listeners =>
      s ← get_socket sockets (l_handle l);
      '(kept, converted) ← split_listeners sockets listeners;
      Ok (if bool_decide (s_state s = S_Listen \/ s_state s = S_SynReceived) then (l :: kept, converted)
          else (kept, l_handle l :: converted))
  end.

Fixpoint publish {E} (converted : list nat) st : Res E (LocalStack S I) :=
  match converted with
  | [] => Ok st
  | h :: converted =>
      s ← get_socket (ls_sockets st) h;
      publish converted
        match s_remote s, s_local s with
        | Some client, Some server =>
            with_tables st (ls_sockets st) (ls_listeners st) (<[h := (client, server)]> (ls_established st)) (ls_closing st)
              (ls_accepted st ++ [mkTerminated h client server]) (ls_closed st)
        | _, _ => with_sockets st (delete h (ls_sockets st))
        end
  end.

(** The established handles whose socket is closed; the order of the source's hash map is
    not specified, so it is that of the list given. *)
Fixpoint finished_among {E} (sockets : gmap nat S) (handles : list nat) : Res E (list nat) :=
  match handles with
  | [] => Ok []
  | h :: handles =>
      s ← get_socket sockets h;
      finished ← finished_among sockets handles;
      Ok (if bool_decide (s_state s = S_Closed) then h :: finished else finished)
  end.

Definition reap_socket st (h : nat) : LocalStack S I :=
  with_tables st (delete h (ls_sockets st)) (ls_listeners st) (delete h (ls_established st)) (ls_closing st ∖ {[h]})
    (ls_accepted st) (ls_closed st ++ [mkEnded h (negb (bool_decide (h ∈ ls_closing st)))]).

Definition harvest {E} st : Res E (LocalStack S I) :=
  '(kept, converted) ← split_listeners (ls_sockets st) (ls_listeners st);
  st ← publish converted
         (with_tables st (ls_sockets st) kept (ls_established st) (ls_closing st) (ls_accepted st) (ls_closed st));
  finished ← finished_among (ls_sockets st) (map_to_list (ls_established st)).*1;
  Ok (foldl reap_socket st finished).

(** [LocalStack::now], in milliseconds. *)
Definition smol_now st (now : Instant) : Z := Z.min (saturating_duration_since now (ls_base st) / 1000000) (2 ^ 63 - 1).

Fixpoint poll_loop {E} (fuel : nat) (now : Z) (i : I) (d : QueueDevice) (m : gmap nat S) : Res E (I * QueueDevice * gmap nat S) :=
  match fuel with
  | O => Panic
  | Datatypes.S fuel =>
      match i_poll now i d m with
      | (true, (i, d, m)) => poll_loop fuel now i d m
      | (false, s) => Ok s
      end
  end.

Definition LocalStack_poll_at st (now : Instant) : option Instant :=
  let smol := smol_now st now in
  at_ ← i_poll_at smol (ls_iface st) (ls_sockets st);
  Some (now + Z.max (at_ - smol * 1000) 0 * 1000).

(** ** Streams *)

Definition socket_mut st (id : nat) : Res StreamError S :=
  if bool_decide (is_Some (ls_established st !! id)) then get_socket (ls_sockets st) id else Err Unknown.

Definition store st (id : nat) (s : S) : LocalStack S I := with_sockets st (<[id := s]> (ls_sockets st)).

(** The answer with the stack after it; the bytes come out of the socket. *)
Definition LocalStack_recv st (id room : nat) : Res StreamError bytes * LocalStack S I :=
  match socket_mut st id with
  | Ok s =>
      if s_can_recv s then
        match s_recv_slice room s with
        | (Ok bs, s) => (Ok bs, store st id s)
        | (Err RecvFinished, s) => (Err Closed, store st id s)
        | (Err RecvInvalidState, s) => (Err WouldBlock, store st id s)
        | (Panic, s) => (Panic, store st id s)
        end
      else if s_may_recv s || handshaking (s_state s) then (Err WouldBlock, st) else (Err (ended (s_state s)), st)
  | Err e => (Err e, st)
  | Panic => (Panic, st)
  end.

Definition LocalStack_send st (id : nat) (buf : bytes) : Res StreamError nat * LocalStack S I :=
  match socket_mut st id with
  | Ok s =>
      if negb (s_may_send s) then (Err (if handshaking (s_state s) then WouldBlock else ended (s_state s)), st) else
      match s_send_slice buf s with
      | (Some O, s) => (Err WouldBlock, store st id s)
      | (Some n, s) => (Ok n, store st id s)
      | (None, s) => (Err Closed, store st id s)
      end
  | Err e => (Err e, st)
  | Panic => (Panic, st)
  end.

(** [close] and [abort] share their shape. *)
Definition end_socket (act : S -> S) st (id : nat) : Res StreamError (LocalStack S I) :=
  match socket_mut st id with
  | Ok s =>
      Ok (with_tables st (<[id := act s]> (ls_sockets st)) (ls_listeners st) (ls_established st) ({[id]} ∪ ls_closing st)
            (ls_accepted st) (ls_closed st))
  | Err _ => Ok st
  | Panic => Panic
  end.

Definition LocalStack_close st (id : nat) : Res StreamError (LocalStack S I) := end_socket s_close st id.
Definition LocalStack_abort st (id : nat) : Res StreamError (LocalStack S I) := end_socket s_abort st id.

Definition LocalStack_can_recv {E} st (id : nat) : Res E bool :=
  if bool_decide (is_Some (ls_established st !! id)) then s ← get_socket (ls_sockets st) id; Ok (s_can_recv s) else Ok false.
Definition LocalStack_can_send {E} st (id : nat) : Res E bool :=
  if bool_decide (is_Some (ls_established st !! id)) then s ← get_socket (ls_sockets st) id; Ok (s_can_send s) else Ok false.
End LocalStack.

(** [LocalStack::poll], with fuel for all that smoltcp has to do; running out would be
    [Panic]. *)
Definition LocalStack_poll {E S I : Type} `{SmoltcpLaws S I} (st : LocalStack S I) (now : Instant) : Res E (LocalStack S I) :=
  '(i, d, m) ← poll_loop (Datatypes.S (i_work (ls_iface st) (ls_device st) (ls_sockets st))) (smol_now st now)
                 (ls_iface st) (ls_device st) (ls_sockets st);
  st ← harvest (mkStack d i m (ls_ports st) (ls_every_port st) ∅ (ls_listeners st) (ls_limits st) (ls_established st)
                  (ls_closing st) (ls_accepted st) (ls_closed st) (ls_base st));
  replenish_listeners st.
