(* ===== verification/StackTheory.v ===== *)
(** The terminator's tables and buffers on any run: every handle it looks up is in the
    socket set, sockets stay within the ceiling, and every buffer of the pool is accounted
    for. *)

From S2P Require Import Prelude Wire Net Plan Pool Stack.
Open Scope Z_scope.

(** ** The device *)

(** The pool accounts for the queues and the loans [others] hold; what waits to leave fits
    the advertised unit, which fits a slice. *)
Record device_ok (slice capacity : nat) (others : list Pooled) (d : QueueDevice) : Prop := {
  dk_loans : accounts slice capacity (qd_pool d) ((qd_inbound d ++ qd_outbound d) ++ others);
  dk_mtu : (qd_mtu d <= slice)%nat;
  dk_fits : Forall (fun packet => (length packet <= qd_mtu d)%nat) (qd_outbound d);
}.

Section Device.
Context (slice capacity : nat) (others : list Pooled).

(** A device with a buffer in hand. *)
Definition device_with (buffer : Pooled) (d : QueueDevice) : Prop :=
  accounts slice capacity (qd_pool d) (buffer :: (qd_inbound d ++ qd_outbound d) ++ others) /\ (qd_mtu d <= slice)%nat /\
  Forall (fun packet => (length packet <= qd_mtu d)%nat) (qd_outbound d).

Lemma loan_dropped_ok d buffer : device_with buffer d -> device_ok slice capacity others (loan_dropped d buffer).
Proof. intros (Hl & Hm & Hf). split; cbn; [by apply accounts_drop|done|done]. Qed.

Lemma QueueTx_consume_ok d buffer len segment :
  (len <= qd_mtu d)%nat -> device_with buffer d -> device_ok slice capacity others (QueueTx_consume d buffer len segment).
Proof.
  intros Hlen (Hl & Hm & Hf). unfold QueueTx_consume, Pooled_resize. rewrite (po_slice _ _ _ Hl : slice_size (qd_pool d) = slice).
  destruct (slice <? len)%nat eqn:E; reflect; [lia|]. cbn [snd]. set (out := take _ _).
  assert (length out <= len)%nat as Hout by (subst out; rewrite length_take, length_vec_resize; lia).
  split; cbn; [|done|by apply Forall_app_2; [|constructor]; [done|lia|constructor]].
  eapply (accounts_resized _ _ _ _ out) in Hl; [|lia]. rewrite (app_assoc (qd_inbound d)), <- (app_assoc _ [out]). cbn. by rewrite <- Permutation_middle.
Qed.

Lemma reply_with_ok d buffer reply : fits_mtu d reply -> device_with buffer d -> device_ok slice capacity others (reply_with d buffer reply).
Proof. intros Hfit Hd. destruct reply as [[len segment]|]; cbn; [apply QueueTx_consume_ok; [by eapply Hfit|done]|by apply loan_dropped_ok]. Qed.

Lemma Device_transmit_ok d :
  device_ok slice capacity others d ->
  match Device_transmit d with
  | (Some buffer, d') => device_with buffer d' /\ qd_mtu d' = qd_mtu d
  | (None, d') => device_ok slice capacity others d'
  end.
Proof.
  intros [Hl Hm Hf]. unfold Device_transmit. pose proof (accounts_take_zeroed _ _ _ _ Hl) as Ht.
  destruct (BufferPool_take_zeroed (qd_pool d) 0) as [[b|] pool]; [destruct Ht as [-> Ht]; by split_and!|by split].
Qed.

Lemma Device_receive_ok d :
  device_ok slice capacity others d ->
  match Device_receive d with
  | (Some (packet, buffer), d') => device_with buffer (loan_dropped d' packet) /\ qd_mtu d' = qd_mtu d
  | (None, d') => device_ok slice capacity others d'
  end.
Proof.
  intros [Hl Hm Hf]. unfold Device_receive. pose proof (accounts_take_zeroed _ _ _ _ Hl) as Ht.
  destruct (BufferPool_take_zeroed (qd_pool d) 0) as [[b|] pool]; [destruct Ht as [-> Ht]|by split].
  destruct (qd_inbound d) as [|packet inbound]; [split; cbn; [by apply accounts_drop|done|done]|].
  split; [|done]. split_and!; cbn; [|done|done]. apply accounts_drop. cbn in Ht. by rewrite Permutation_swap.
Qed.

Lemma device_step_ok d d' : device_step d d' -> device_ok slice capacity others d -> device_ok slice capacity others d'.
Proof.
  intros Hs Hd. destruct Hs as [d packet buffer d' reply Hr Hfit|d d' Hr|d buffer d' reply Hr Hfit|d d' Hr].
  - pose proof (Device_receive_ok d Hd) as Hk. rewrite Hr in Hk. destruct Hk as [Hk Hm]. apply reply_with_ok; [|done].
    intros len segment He. cbn. rewrite Hm. by eapply Hfit.
  - pose proof (Device_receive_ok d Hd) as Hk. by rewrite Hr in Hk.
  - pose proof (Device_transmit_ok d Hd) as Hk. rewrite Hr in Hk. destruct Hk as [Hk Hm]. apply reply_with_ok; [|done].
    intros len segment He. rewrite Hm. by eapply Hfit.
  - pose proof (Device_transmit_ok d Hd) as Hk. by rewrite Hr in Hk.
Qed.

Lemma device_steps_ok d d' : rtc device_step d d' -> device_ok slice capacity others d -> device_ok slice capacity others d'.
Proof. intros Hs. induction Hs as [|x y z Hxy _ IH]; [done|]. intros Hx. apply IH. by eapply device_step_ok. Qed.
End Device.

(** ** The tables *)

Section Tables.
Context {S I : Type} `{SmoltcpLaws S I}.
Implicit Types st : LocalStack S I.

Definition handles st : list nat := l_handle <$> ls_listeners st.

(** Every socket of the set is a listener's, a connection's, or one of [moving], the
    handles a harvest has taken from the listeners and not yet settled. *)
Record tables_ok (moving : list nat) st : Prop := {
  tk_dom : forall h, is_Some (ls_sockets st !! h) <-> h ∈ handles st ++ moving \/ is_Some (ls_established st !! h);
  tk_nodup : NoDup (handles st ++ moving);
  tk_disjoint : forall h, h ∈ handles st ++ moving -> ls_established st !! h = None;
  tk_closing : forall h, h ∈ ls_closing st -> is_Some (ls_established st !! h);
  tk_count : (length (handles st ++ moving) + size (ls_established st) <= max_sockets (ls_limits st))%nat;
  tk_half : forall h s, h ∈ handles st ++ moving -> ls_sockets st !! h = Some s -> never_opened s;
}.

(** The parts of a stack a change of listeners leaves as they are. *)
Record same_streams st st' : Prop := {
  ss_device : ls_device st' = ls_device st;
  ss_ports : ls_ports st' = ls_ports st;
  ss_limits : ls_limits st' = ls_limits st;
  ss_established : ls_established st' = ls_established st;
  ss_closing : ls_closing st' = ls_closing st;
  ss_accepted : ls_accepted st' = ls_accepted st;
  ss_closed : ls_closed st' = ls_closed st;
  ss_listeners : ls_listeners st `prefix_of` ls_listeners st';
  ss_sockets : forall h s, ls_sockets st !! h = Some s -> ls_sockets st' !! h = Some s;
}.

Lemma same_streams_refl st : same_streams st st.
Proof. by split. Qed.
Lemma same_streams_trans st1 st2 st3 : same_streams st1 st2 -> same_streams st2 st3 -> same_streams st1 st3.
Proof. intros [] []. split; try congruence; [by etransitivity|auto]. Qed.

Lemma add_listener_ok st port : tables_ok [] st -> tables_ok [] (add_listener st port).2 /\ same_streams st (add_listener st port).2.
Proof.
  intros [Hd Hn Hdj Hc Hk Hh]. unfold add_listener. destruct (_ <=? _)%nat eqn:E; [by split; [split|]|].
  destruct (s_listen _ port) as [s|] eqn:El; [|by split; [split|]]. reflect. cbn [snd].
  pose proof (s_add_fresh (ls_sockets st)) as Hfresh. set (h := s_add (ls_sockets st)) in *.
  split; [|split; cbn; try done; [by eexists|intros h' s' Hs'; rewrite lookup_insert_ne; [done|congruence]]].
  rewrite app_nil_r in *. unfold socket_count in E.
  assert (h ∉ handles st) as Hnew by (intros Hin; assert (is_Some (ls_sockets st !! h)) as [? ?] by (apply Hd; by left); congruence).
  assert (ls_established st !! h = None) as Hne.
  { destruct (ls_established st !! h) as [x|] eqn:Ex; [|done]. assert (is_Some (ls_sockets st !! h)) as [? ?] by (apply Hd; right; by exists x). congruence. }
  split; cbn; unfold handles in *; cbn; rewrite ?app_nil_r, ?fmap_app; cbn.
  - intros h'. rewrite lookup_insert_is_Some', Hd, elem_of_app, list_elem_of_singleton. intuition.
  - apply NoDup_app. split_and!; [done| |by apply NoDup_singleton]. intros x Hx ->%list_elem_of_singleton. done.
  - intros h' [Hin| ->%list_elem_of_singleton]%elem_of_app; [by apply Hdj|done].
  - done.
  - rewrite length_app, length_fmap in *. cbn. lia.
  - intros h' s' [Hin| ->%list_elem_of_singleton]%elem_of_app.
    + rewrite lookup_insert_ne by congruence. by apply Hh.
    + rewrite lookup_insert_eq. intros [= <-]. intros Hcl. apply s_listen_listens in El. congruence.
Qed.

Lemma add_listeners_ok n port : forall st, tables_ok [] st -> tables_ok [] (add_listeners n port st).2 /\ same_streams st (add_listeners n port st).2.
Proof.
  induction n as [|n IH]; intros st Hst; cbn [add_listeners]; [by split|].
  destruct (add_listener_ok st port Hst) as [H1 Hs1]. destruct (add_listener st port) as [[|] st1]; [|done]. cbn [snd] in *.
  destruct (IH st1 H1) as [H2 Hs2]. split; [done|]. by eapply same_streams_trans.
Qed.

(** Looking up the sockets of listeners never panics. *)
Lemma count_listening_total {E} sockets port ls :
  (forall l, l ∈ ls -> is_Some (sockets !! l_handle l)) -> exists n, @count_listening S I _ E sockets port ls = Ok n.
Proof.
  induction ls as [|l ls IH]; intros Hin; [by eexists|]. cbn [count_listening].
  destruct IH as [n Hn]; [intros; apply Hin; by right|]. destruct (l_port l =? port); [|by exists n].
  destruct (Hin l ltac:(by left)) as [s Hs]. unfold get_socket. rewrite Hs. cbn. rewrite Hn. cbn. by eexists.
Qed.

Lemma listener_sockets moving st l : tables_ok moving st -> l ∈ ls_listeners st -> is_Some (ls_sockets st !! l_handle l).
Proof. intros Hst Hl. apply (tk_dom _ _ Hst). left. apply elem_of_app. left. by apply list_elem_of_fmap_2. Qed.

Lemma listening_total {E} moving st port : tables_ok moving st -> exists n, @listening S I _ E st port = Ok n.
Proof. intros Hst. apply count_listening_total. intros l Hl. by eapply listener_sockets. Qed.

Lemma replenish_ports_ok {E} ports : forall st, tables_ok [] st ->
  exists st', @replenish_ports S I _ E ports st = Ok st' /\ tables_ok [] st' /\ same_streams st st'.
Proof.
  induction ports as [|port ports IH]; intros st Hst; cbn [replenish_ports]; [by exists st|].
  destruct (@listening_total E _ st port Hst) as [n ->]. cbn.
  destruct (add_listeners_ok (backlog (ls_limits st) - n) port st Hst) as [H1 Hs1].
  destruct (add_listeners _ port st) as [[|] st1]; cbn [snd] in *; [|by exists st1].
  destruct (IH st1 H1) as (st' & -> & H2 & Hs2). exists st'. split_and!; [done|done|by eapply same_streams_trans].
Qed.

Lemma replenish_ok {E} st : tables_ok [] st -> exists st', @replenish_listeners S I _ E st = Ok st' /\ tables_ok [] st' /\ same_streams st st'.
Proof. apply replenish_ports_ok. Qed.

(** ** Harvest *)

Definition half_open (s : S) : Prop := s_state s = S_Listen \/ s_state s = S_SynReceived.

Lemma split_listeners_spec {E} sockets ls :
  (forall l, l ∈ ls -> is_Some (sockets !! l_handle l)) ->
  exists kept converted, @split_listeners S I _ E sockets ls = Ok (kept, converted) /\
    (l_handle <$> kept) ++ converted ≡ₚ l_handle <$> ls /\ kept `sublist_of` ls /\
    (forall h s, h ∈ converted -> sockets !! h = Some s -> ~ half_open s) /\
    (forall l, l ∈ ls -> (exists s, sockets !! l_handle l = Some s /\ half_open s) -> l ∈ kept).
Proof.
  induction ls as [|l ls IH]; intros Hin; cbn [split_listeners].
  { exists [], []. split_and!; try done; set_solver. }
  destruct IH as (kept & converted & Heq & Hp & Hsub & Hcv & Hkp); [intros; apply Hin; by right|].
  destruct (Hin l ltac:(by left)) as [s Hs]. unfold get_socket. rewrite Hs. cbn. rewrite Heq. cbn.
  case_bool_decide as Hst.
  - exists (l :: kept), converted. split_and!; [done|cbn; by rewrite Hp|by constructor|done|].
    intros l' [->|Hl']%elem_of_cons Hs'; [by left|right; by apply Hkp].
  - exists kept, (l_handle l :: converted). split_and!; [done|cbn; by rewrite <- Permutation_middle, Hp|by constructor| |].
    + intros h s' [->|Hh]%elem_of_cons Hs'; [|by eapply Hcv]. by simplify_eq.
    + intros l' [->|Hl']%elem_of_cons (s' & Hs' & Ho); [by simplify_eq|]. apply Hkp; [done|]. by exists s'.
Qed.

(** What publishing adds: the connections [new], each from one of the converted handles and
    not closed. *)
Record published (converted : list nat) st st' (new : list Terminated) : Prop := {
  pb_device : ls_device st' = ls_device st;
  pb_ports : ls_ports st' = ls_ports st;
  pb_limits : ls_limits st' = ls_limits st;
  pb_listeners : ls_listeners st' = ls_listeners st;
  pb_closing : ls_closing st' = ls_closing st;
  pb_closed : ls_closed st' = ls_closed st;
  pb_accepted : ls_accepted st' = ls_accepted st ++ new;
  pb_ids : (t_id <$> new) `sublist_of` converted;
  pb_new : forall t, t ∈ new -> ls_established st' !! t_id t = Some (t_client t, t_server t);
  pb_live : forall t s, t ∈ new -> ls_sockets st' !! t_id t = Some s -> s_state s <> S_Closed;
  pb_old : forall h, h ∉ t_id <$> new -> ls_established st' !! h = ls_established st !! h;
  pb_sockets : forall h s, ls_sockets st' !! h = Some s -> ls_sockets st !! h = Some s;
}.

Lemma publish_established h converted st client server s :
  tables_ok (h :: converted) st -> ls_sockets st !! h = Some s ->
  tables_ok converted (with_tables st (ls_sockets st) (ls_listeners st) (<[h := (client, server)]> (ls_established st)) (ls_closing st)
     (ls_accepted st ++ [mkTerminated h client server]) (ls_closed st)).
Proof.
  intros [Hd Hn Hdj Hc Hk Hh] Hs. rewrite <- Permutation_middle in Hn. apply NoDup_cons in Hn as [Hnh Hn].
  assert (ls_established st !! h = None) as Hne by (apply Hdj; apply elem_of_app; right; by left).
  split; cbn; unfold handles in *; cbn in *.
  - intros h'. rewrite Hd, lookup_insert_is_Some', !elem_of_app, elem_of_cons. naive_solver.
  - done.
  - intros h' Hin. rewrite lookup_insert_ne by (intros ->; done). apply Hdj. rewrite elem_of_app in *. set_solver.
  - intros h' Hin. rewrite lookup_insert_is_Some'. right. by apply Hc.
  - rewrite map_size_insert_None by done. rewrite length_app in *. cbn in *. lia.
  - intros h' s' Hin. apply Hh. rewrite elem_of_app in *. set_solver.
Qed.

Lemma publish_forgotten h converted st :
  tables_ok (h :: converted) st -> tables_ok converted (with_sockets st (delete h (ls_sockets st))).
Proof.
  intros [Hd Hn Hdj Hc Hk Hh]. rewrite <- Permutation_middle in Hn. apply NoDup_cons in Hn as [Hnh Hn].
  assert (ls_established st !! h = None) as Hne by (apply Hdj; apply elem_of_app; right; by left).
  split; cbn; unfold handles in *; cbn in *.
  - intros h'. rewrite lookup_delete_is_Some, Hd, !elem_of_app, elem_of_cons. split.
    + intros [? ?]. naive_solver.
    + intros Hor. split; [intros <-; destruct Hor as [Hor|[? ?]]; [by apply Hnh, elem_of_app|congruence]|naive_solver].
  - done.
  - intros h' Hin. apply Hdj. rewrite elem_of_app in *. set_solver.
  - done.
  - rewrite length_app in *. cbn in *. lia.
  - intros h' s' Hin [_ Hs]%lookup_delete_Some. apply (Hh h'); [|done]. rewrite elem_of_app in *. set_solver.
Qed.

Lemma publish_ok {E} converted : forall st, tables_ok converted st ->
  exists st' new, @publish S I _ E converted st = Ok st' /\ tables_ok [] st' /\ published converted st st' new.
Proof.
  induction converted as [|h converted IH]; intros st Hst; cbn [publish].
  { exists st, []. split_and!; [done|done|]. split; rewrite ?app_nil_r; try done; set_solver. }
  assert (is_Some (ls_sockets st !! h)) as [s Hs] by (apply (tk_dom _ _ Hst); left; apply elem_of_app; right; by left).
  assert (never_opened s) as Hnever by (eapply (tk_half _ _ Hst h); [apply elem_of_app; right; by left|done]).
  unfold get_socket. rewrite Hs. cbn.
  destruct (s_remote s) as [client|] eqn:Er; [destruct (s_local s) as [server|] eqn:El|].
  2,3: destruct (IH _ (publish_forgotten h converted st Hst)) as (st' & new & Heq & Hok & Hp); exists st', new; split_and!; [done|done|];
       destruct Hp as [? ? ? ? ? ? ? Hids ? ? ? Hsk]; split; cbn in *; try done; [by constructor|];
       intros h' s' Hs'; by apply Hsk in Hs' as [_ ?]%lookup_delete_Some.
  destruct (IH _ (publish_established h converted st client server s Hst Hs)) as (st' & new & Heq & Hok & Hp). exists st', (mkTerminated h client server :: new).
  split_and!; [done|done|]. destruct Hp as [? ? ? ? ? ? Hacc Hids Hnew Hlive Hold Hsk]. cbn in *.
  assert (h ∉ t_id <$> new) as Hfresh.
  { intros Hin. pose proof (elem_of_sublist _ _ _ Hin Hids) as Hcv. pose proof (tk_nodup _ _ Hst) as Hn.
    rewrite <- Permutation_middle in Hn. apply NoDup_cons in Hn as [Hn _]. apply Hn, elem_of_app. by right. }
  split; cbn; try done.
  - by rewrite Hacc, <- app_assoc.
  - by constructor.
  - intros t [->|Hin]%elem_of_cons; [|by apply Hnew]. cbn. rewrite Hold by done. by rewrite lookup_insert_eq.
  - intros t s' [->|Hin]%elem_of_cons Hs'; [|by eapply Hlive]. cbn in Hs'. apply Hsk in Hs'. intros Hcl. simplify_eq.
    destruct (Hnever Hcl); congruence.
  - intros h' Hn. apply not_elem_of_cons in Hn as [Hne Hn]. rewrite Hold by done. by rewrite lookup_insert_ne by done.
Qed.

Lemma finished_among_spec {E} sockets hs :
  (forall h, h ∈ hs -> is_Some (sockets !! h)) ->
  exists finished, @finished_among S I _ E sockets hs = Ok finished /\ finished `sublist_of` hs /\
    (forall h s, h ∈ hs -> sockets !! h = Some s -> (h ∈ finished <-> s_state s = S_Closed) ).
Proof.
  induction hs as [|h hs IH]; intros Hin; cbn [finished_among]; [exists []; split_and!; [done|done|set_solver]|].
  destruct IH as (finished & Heq & Hsub & Hf); [intros; apply Hin; by right|].
  destruct (Hin h ltac:(by left)) as [s Hs]. unfold get_socket. rewrite Hs. cbn. rewrite Heq. cbn.
  assert (forall h' s', h' ∈ hs -> sockets !! h' = Some s' -> (h' ∈ finished <-> s_state s' = S_Closed)) as Hf' by done.
  case_bool_decide as Hst; eexists; (split_and!; [done|by constructor|]); intros h' s' [->|Hh']%elem_of_cons Hs'; simplify_eq.
  - split; [done|]. intros _. by left.
  - rewrite elem_of_cons, (Hf h' s') by done. split; [intros [->|?]; by simplify_eq|auto].
  - destruct (decide (h ∈ hs)) as [Hd|Hd]; [by apply Hf|]. split; [|done]. intros Hfin. by pose proof (elem_of_sublist _ _ _ Hfin Hsub).
  - by apply Hf.
Qed.

(** What reaping leaves. *)
Record reaped (finished : list nat) st st' : Prop := {
  rp_device : ls_device st' = ls_device st;
  rp_ports : ls_ports st' = ls_ports st;
  rp_limits : ls_limits st' = ls_limits st;
  rp_listeners : ls_listeners st' = ls_listeners st;
  rp_accepted : ls_accepted st' = ls_accepted st;
  rp_closed : ls_closed st' = ls_closed st ++ ((fun h => mkEnded h (negb (bool_decide (h ∈ ls_closing st)))) <$> finished);
  rp_gone : forall h, h ∈ finished -> ls_established st' !! h = None;
  rp_stays : forall h, h ∉ finished -> ls_established st' !! h = ls_established st !! h /\ ls_sockets st' !! h = ls_sockets st !! h;
}.

Lemma reap_one h st : tables_ok [] st -> is_Some (ls_established st !! h) -> tables_ok [] (reap_socket st h).
Proof.
  intros [Hd Hn Hdj Hc Hk Hh] He. assert (h ∉ handles st ++ []) as Hnh by (intros Hin; apply Hdj in Hin; rewrite Hin in He; by destruct He).
  split; cbn; unfold handles in *; cbn in *.
  - intros h'. rewrite !lookup_delete_is_Some, Hd. split; [naive_solver|]. intros [Hin|[? ?]]; [|naive_solver]. split; [by intros ->|by left].
  - done.
  - intros h' Hin. rewrite lookup_delete_None. right. by apply Hdj.
  - intros h' [Hin Hne]%elem_of_difference. rewrite lookup_delete_is_Some. split; [set_solver|by apply Hc].
  - rewrite map_size_delete_Some by done. lia.
  - intros h' s' Hin [_ Hs]%lookup_delete_Some. by apply (Hh h').
Qed.

Lemma reap_all finished : forall st,
  tables_ok [] st -> NoDup finished -> (forall h, h ∈ finished -> is_Some (ls_established st !! h)) ->
  tables_ok [] (foldl reap_socket st finished) /\ reaped finished st (foldl reap_socket st finished).
Proof.
  induction finished as [|h finished IH]; intros st Hst Hn He; cbn [foldl].
  { split; [done|]. split; cbn; rewrite ?app_nil_r; try done; set_solver. }
  apply NoDup_cons in Hn as [Hnh Hn]. destruct (IH (reap_socket st h)) as [Hok Hr]; [by apply reap_one; [|apply He; left]|done| |].
  { intros h' Hin. cbn. rewrite lookup_delete_is_Some. split; [by intros ->|apply He; by right]. }
  split; [done|]. destruct Hr as [? ? ? ? ? Hcl Hgone Hstay]. cbn in *. split; try done.
  - rewrite Hcl, <- app_assoc. cbn. do 2 f_equal. apply list_fmap_ext. intros i h' Hi%list_elem_of_lookup_2. f_equal. f_equal.
    apply bool_decide_ext. rewrite elem_of_difference, elem_of_singleton. split; [by intros []|]. intros ?. split; [done|]. by intros ->.
  - intros h' [->|Hin]%elem_of_cons; [|by apply Hgone]. destruct (Hstay h Hnh) as [-> _]. by rewrite lookup_delete_eq.
  - intros h' [Hne Hin]%not_elem_of_cons. destruct (Hstay h' Hin) as [-> ->]. by rewrite !lookup_delete_ne by done.
Qed.

(** ** Poll *)

Lemma stack_poll_loop_ok {E} fuel now : forall i d m, (i_work i d m < fuel)%nat ->
  exists i' d' m', @poll_loop S I _ E fuel now i d m = Ok (i', d', m') /\ dom m' = dom m /\ rtc device_step d d' /\
    (forall h s s', m !! h = Some s -> never_opened s -> m' !! h = Some s' -> never_opened s') /\
    (forall h s s', m !! h = Some s -> s_state s = S_Closed -> m' !! h = Some s' -> s_state s' = S_Closed).
Proof.
  induction fuel as [|fuel IH]; intros i d m Hf; [lia|]. cbn [poll_loop].
  pose proof (i_poll_dom now i d m) as Hdom. pose proof (i_poll_device now i d m) as Hdev. pose proof (i_poll_half_open now i d m) as Hhalf.
  pose proof (i_poll_closed now i d m) as Hcl.
  destruct (i_poll now i d m) as [[|] [[i1 d1] m1]] eqn:E1; cbn [fst snd] in *; [|by exists i1, d1, m1].
  pose proof (i_poll_works _ _ _ _ _ _ _ E1) as Hw. destruct (IH i1 d1 m1) as (i' & d' & m' & -> & Hd' & Hs' & Hh' & Hc'); [lia|].
  assert (forall h s, m !! h = Some s -> exists s1, m1 !! h = Some s1) as Hmid.
  { intros h s Hs. apply elem_of_dom. rewrite Hdom. apply elem_of_dom. by exists s. }
  exists i', d', m'. split_and!; [done|congruence|by etransitivity| |]; intros h s s' Hm Hn Hs2; destruct (Hmid h s Hm) as [s1 Hs1].
  - eapply Hh'; [done| |done]. by eapply Hhalf.
  - eapply Hc'; [done| |done]. by eapply Hcl.
Qed.

(** What a poll did: the connections [new] that came from listeners, and the handles [gone]
    of the connections that ended. *)
Record poll_effect st st' (new : list Terminated) (gone : list nat) : Prop := {
  pe_device : rtc device_step (ls_device st) (ls_device st');
  pe_ports : ls_ports st' = ls_ports st;
  pe_limits : ls_limits st' = ls_limits st;
  pe_accepted : ls_accepted st' = ls_accepted st ++ new;
  pe_closed : ls_closed st' = ls_closed st ++ ((fun h => mkEnded h (negb (bool_decide (h ∈ ls_closing st)))) <$> gone);
  pe_ids : NoDup (t_id <$> new);
  pe_from : forall t, t ∈ new -> t_id t ∈ handles st;
  pe_new : forall t, t ∈ new -> ls_established st' !! t_id t = Some (t_client t, t_server t);
  pe_nodup : NoDup gone;
  pe_gone : forall h, h ∈ gone -> is_Some (ls_established st !! h) /\ ls_established st' !! h = None;
  pe_old : forall h, h ∉ t_id <$> new -> h ∉ gone -> ls_established st' !! h = ls_established st !! h;
  pe_closing : forall h s, is_Some (ls_established st !! h) -> ls_sockets st !! h = Some s -> s_state s = S_Closed -> h ∈ gone;
}.

Lemma harvest_ok {E} st : tables_ok [] st ->
  exists st' new gone, @harvest S I _ E st = Ok st' /\ tables_ok [] st' /\ poll_effect st st' new gone /\ ls_device st' = ls_device st /\
    (forall h s, is_Some (ls_established st' !! h) -> ls_sockets st' !! h = Some s -> s_state s <> S_Closed).
Proof.
  intros Hst. unfold harvest. destruct (@split_listeners_spec E (ls_sockets st) (ls_listeners st)) as (kept & converted & -> & Hp & _ & _ & _);
    [intros l Hl; by eapply listener_sockets|]. cbn.
  set (st0 := with_tables st _ kept _ _ _ _).
  assert (handles st0 ++ converted ≡ₚ handles st ++ []) as Hperm by (rewrite app_nil_r; exact Hp).
  assert (tables_ok converted st0) as Hst0.
  { destruct Hst as [Hd Hn Hdj Hc Hk Hh]. split; [intros h; rewrite Hperm; apply Hd|by rewrite Hperm|intros h; rewrite Hperm; apply Hdj|done| |].
    - by rewrite (Permutation_length Hperm).
    - intros h s Hin. rewrite Hperm in Hin. by apply Hh. }
  destruct (@publish_ok E converted st0 Hst0) as (st1 & new & -> & Hok1 & [? ? ? ? Hcg Hcl Hacc Hids Hnew Hlive Hold Hsk]). cbn in *.
  destruct (@finished_among_spec E (ls_sockets st1) (map_to_list (ls_established st1)).*1) as (gone & -> & Hsub & Hf).
  { intros h [[h' x] [-> Hx%elem_of_map_to_list]]%list_elem_of_fmap. apply (tk_dom _ _ Hok1). right. by exists x. }
  cbn. assert (NoDup gone) as Hgn by (eapply sublist_NoDup; [|exact Hsub]; apply NoDup_fst_map_to_list).
  assert (forall h, h ∈ gone -> is_Some (ls_established st1 !! h)) as Hge.
  { intros h Hh. eapply elem_of_sublist in Hh; [|exact Hsub]. apply list_elem_of_fmap in Hh as ([h' x] & -> & Hx%elem_of_map_to_list). by exists x. }
  destruct (reap_all gone st1 Hok1 Hgn Hge) as [Hok2 [? ? ? ? ? Hcl2 Hgone Hstay]].
  rewrite Hcg, Hcl in Hcl2.
  assert (forall h s, is_Some (ls_established st1 !! h) -> ls_sockets st1 !! h = Some s -> (h ∈ gone <-> s_state s = S_Closed)) as Hclosed.
  { intros h s [x Hx] Hs. apply Hf; [|done]. apply list_elem_of_fmap. exists (h, x). split; [done|]. by apply elem_of_map_to_list. }
  assert (forall t, t ∈ new -> t_id t ∉ gone) as Hkeep.
  { intros t Ht Hg. assert (is_Some (ls_established st1 !! t_id t)) as He by (rewrite Hnew by done; by eexists).
    assert (is_Some (ls_sockets st1 !! t_id t)) as [s Hs] by (apply (tk_dom _ _ Hok1); by right). by eapply Hlive, (Hclosed (t_id t)). }
  assert (forall h, h ∈ t_id <$> new -> h ∈ handles st) as Hfrom.
  { intros h Hh. rewrite <- (app_nil_r (handles st)), <- Hperm. apply elem_of_app. right. by eapply elem_of_sublist. }
  exists (foldl reap_socket st1 gone), new, gone. split_and!; [done|done| |congruence|].
  - split; cbn; try congruence; try done.
    + replace (ls_device (foldl reap_socket st1 gone)) with (ls_device st) by congruence. apply rtc_refl.
    + eapply sublist_NoDup; [|exact Hids]. pose proof (tk_nodup _ _ Hst0) as Hn. by apply NoDup_app in Hn as (_ & _ & ?).
    + intros t Ht. by apply Hfrom, list_elem_of_fmap_2.
    + intros t Ht. rewrite (proj1 (Hstay _ (Hkeep t Ht))). by apply Hnew.
    + intros h Hh. split; [|by apply Hgone]. rewrite <- Hold; [by apply Hge|]. intros (t & -> & Ht)%list_elem_of_fmap. by eapply Hkeep.
    + intros h Hn Hg. rewrite (proj1 (Hstay h Hg)). by apply Hold.
    + intros h s He Hs Hc. assert (is_Some (ls_established st1 !! h)) as He1.
      { rewrite Hold; [done|]. intros Hin. apply Hfrom in Hin. rewrite (tk_disjoint _ _ Hst h) in He by (by rewrite app_nil_r). by destruct He. }
      assert (is_Some (ls_sockets st1 !! h)) as [s1 Hs1] by (apply (tk_dom _ _ Hok1); by right).
      apply (Hclosed h s1); [done|done|]. apply Hsk in Hs1. congruence.
  - intros h s He Hs Hc. destruct (decide (h ∈ gone)) as [Hg|Hg]; [by rewrite Hgone in He; destruct He|].
    destruct (Hstay h Hg) as [He' Hs']. rewrite He' in He. rewrite Hs' in Hs. by apply Hg, (Hclosed h s).
Qed.

Lemma poll_tables st i d m :
  tables_ok [] st -> dom m = dom (ls_sockets st) ->
  (forall h s s', ls_sockets st !! h = Some s -> never_opened s -> m !! h = Some s' -> never_opened s') ->
  tables_ok [] (mkStack d i m (ls_ports st) (ls_every_port st) ∅ (ls_listeners st) (ls_limits st) (ls_established st)
                  (ls_closing st) (ls_accepted st) (ls_closed st) (ls_base st)).
Proof.
  intros [Hd Hn Hdj Hc Hk Hh] Hdom Hhalf. split; try done; unfold handles in *; cbn in *.
  - intros h. by rewrite <- Hd, <- !elem_of_dom, Hdom.
  - intros h s Hin Hs. assert (is_Some (ls_sockets st !! h)) as [s0 Hs0] by (apply elem_of_dom; rewrite <- Hdom; apply elem_of_dom; by exists s).
    eapply Hhalf; [done| |done]. by eapply Hh.
Qed.

Lemma poll_ok {E} st now : tables_ok [] st ->
  exists st' new gone, @LocalStack_poll E S I _ _ st now = Ok st' /\ tables_ok [] st' /\ poll_effect st st' new gone /\
    (forall h s, is_Some (ls_established st' !! h) -> ls_sockets st' !! h = Some s -> s_state s <> S_Closed).
Proof.
  intros Hst. unfold LocalStack_poll.
  destruct (@stack_poll_loop_ok E (Datatypes.S (i_work (ls_iface st) (ls_device st) (ls_sockets st))) (smol_now st now) (ls_iface st) (ls_device st) (ls_sockets st))
    as (i & d & m & -> & Hdom & Hdev & Hhalf & Hcl); [lia|]. cbn [mbind Res_bind].
  set (st0 := mkStack _ _ _ _ _ _ _ _ _ _ _ _ _). assert (tables_ok [] st0) as Hst0 by (by apply poll_tables).
  destruct (@harvest_ok E st0 Hst0) as (st1 & new & gone & -> & Hok1 & [? ? ? ? ? ? ? ? ? ? ? Hgone] & Hdv & Hlive). cbn [mbind Res_bind].
  destruct (@replenish_ok E st1 Hok1) as (st' & -> & Hok' & [Hd' ? ? He' ? ? ? ? Hsk]). exists st', new, gone.
  split_and!; [done|done| |].
  - cbn in *. split; cbn; rewrite ?He'; try congruence; try done.
    intros h s He Hs Hc. assert (is_Some (m !! h)) as [s' Hs'] by (apply elem_of_dom; rewrite Hdom; apply elem_of_dom; by exists s).
    eapply Hgone; [done|done|]. by eapply Hcl.
  - rewrite He'. intros h s He Hs. assert (is_Some (ls_sockets st1 !! h)) as [s1 Hs1] by (apply (tk_dom _ _ Hok1); by right).
    apply (Hlive h s He). pose proof (Hsk h s1 Hs1). congruence.
Qed.

(** ** The backlog *)

Lemma count_listening_mono {E} sockets sockets' port more : forall ls n m,
  (forall l s, l ∈ ls -> sockets !! l_handle l = Some s -> sockets' !! l_handle l = Some s) ->
  @count_listening S I _ E sockets port ls = Ok n -> @count_listening S I _ E sockets' port (ls ++ more) = Ok m -> (n <= m)%nat.
Proof.
  induction ls as [|l ls IH]; intros n m Hs Hn Hm; cbn in *; [simplify_eq; lia|].
  assert (forall l s, l ∈ ls -> sockets !! l_handle l = Some s -> sockets' !! l_handle l = Some s) as Hs' by (intros; apply Hs; [by right|done]).
  destruct (l_port l =? port); [|by eapply IH]. unfold get_socket in *. destruct (sockets !! l_handle l) as [s|] eqn:El; [|done]. cbn in Hn.
  rewrite (Hs l s) in Hm by (done || by left). cbn in Hm.
  destruct (count_listening sockets port ls) as [n'| |] eqn:En; [|done|done]. destruct (count_listening sockets' port (ls ++ more)) as [m'| |] eqn:Em; [|done|done].
  pose proof (IH n' m' Hs' eq_refl eq_refl). cbn in *. destruct (bool_decide _); simplify_eq; lia.
Qed.

Lemma listening_grows {E} st st' port n m :
  same_streams st st' -> @listening S I _ E st port = Ok n -> @listening S I _ E st' port = Ok m -> (n <= m)%nat.
Proof.
  intros [? ? ? ? ? ? ? [more Hl] Hs] Hn Hm. unfold listening in *. rewrite Hl in Hm. eapply count_listening_mono; [|exact Hn|exact Hm].
  intros l s _. apply Hs.
Qed.

Lemma count_listening_app {E} sockets port more : forall ls n m,
  @count_listening S I _ E sockets port ls = Ok n -> @count_listening S I _ E sockets port more = Ok m ->
  @count_listening S I _ E sockets port (ls ++ more) = Ok (n + m)%nat.
Proof.
  induction ls as [|l ls IH]; intros n m Hn Hm; cbn in *; [by simplify_eq|].
  destruct (l_port l =? port); [|by apply IH]. unfold get_socket in *. destruct (sockets !! l_handle l) as [s|]; [|done]. cbn in *.
  destruct (count_listening sockets port ls) as [n'| |] eqn:En; [|done|done]. rewrite (IH n' m eq_refl Hm). cbn in *.
  destruct (bool_decide _); by simplify_eq.
Qed.

Lemma add_listener_counts {E} st port n :
  tables_ok [] st -> @listening S I _ E st port = Ok n -> is_Some (s_listen (socket_buffer (ls_limits st)) port) ->
  match add_listener st port with
  | (true, st') => @listening S I _ E st' port = Ok (Datatypes.S n)
  | (false, st') => (max_sockets (ls_limits st) <= socket_count st')%nat
  end.
Proof.
  intros Hst Hn [s Hs]. unfold add_listener. destruct (_ <=? _)%nat eqn:Emax; reflect; [done|]. rewrite Hs. unfold listening in *. cbn.
  rewrite <- Nat.add_1_r. apply count_listening_app.
  - destruct (@count_listening_total E (<[s_add (ls_sockets st) := s]> (ls_sockets st)) port (ls_listeners st)) as [m Hm].
    { intros l Hl. rewrite lookup_insert_is_Some'. right. by eapply listener_sockets. }
    assert (n <= m)%nat.
    { eapply (@count_listening_mono E _ _ port []); [|exact Hn|rewrite app_nil_r; exact Hm]. intros l s' _ Hl. rewrite lookup_insert_ne; [done|].
      intros Heq. rewrite <- Heq in Hl. by rewrite s_add_fresh in Hl. }
    assert (m <= n)%nat; [|rewrite Hm; f_equal; lia].
    eapply (@count_listening_mono E _ _ port []); [|exact Hm|rewrite app_nil_r; exact Hn]. intros l s' Hl Hl'.
    destruct (listener_sockets _ _ _ Hst Hl) as [s0 Hs0]. rewrite lookup_insert_ne in Hl'; [done|]. intros Heq. rewrite <- Heq in Hs0. by rewrite s_add_fresh in Hs0.
  - cbn. rewrite Z.eqb_refl. unfold get_socket. rewrite lookup_insert_eq. cbn. by rewrite bool_decide_eq_true_2 by (by eapply s_listen_listens).
Qed.

Lemma add_listeners_counts {E} n port : forall st k,
  tables_ok [] st -> @listening S I _ E st port = Ok k -> is_Some (s_listen (socket_buffer (ls_limits st)) port) ->
  match add_listeners n port st with
  | (true, st') => @listening S I _ E st' port = Ok (k + n)%nat
  | (false, st') => (max_sockets (ls_limits st) <= socket_count st')%nat
  end.
Proof.
  induction n as [|n IH]; intros st k Hst Hk Hl; cbn [add_listeners]; [by rewrite Nat.add_0_r|].
  pose proof (add_listener_counts st port k Hst Hk Hl) as H1. destruct (add_listener_ok st port Hst) as [Hok1 Hs1].
  destruct (add_listener st port) as [[|] st1]; [|done]. cbn [snd] in *. pose proof (ss_limits _ _ Hs1) as Hlim.
  specialize (IH st1 _ Hok1 H1). rewrite Hlim in IH. specialize (IH Hl). by rewrite Nat.add_succ_r.
Qed.

(** Replenishing ends with the ceiling reached or a full backlog on every port. *)
Lemma replenish_ports_backlog {E} ports : forall st st',
  tables_ok [] st -> Forall (fun port => is_Some (s_listen (socket_buffer (ls_limits st)) port)) ports ->
  @replenish_ports S I _ E ports st = Ok st' ->
  (max_sockets (ls_limits st) <= socket_count st')%nat \/
  Forall (fun port => exists n, @listening S I _ E st' port = Ok n /\ (backlog (ls_limits st) <= n)%nat) ports.
Proof.
  induction ports as [|port ports IH]; intros st st' Hst Hall Hr; cbn [replenish_ports] in Hr; [right; constructor|].
  apply Forall_cons in Hall as [Hl Hall]. destruct (@listening_total E _ st port Hst) as [k Hk]. rewrite Hk in Hr. cbn [mbind Res_bind] in Hr.
  pose proof (add_listeners_counts (backlog (ls_limits st) - k) port st k Hst Hk Hl) as Hn.
  destruct (add_listeners_ok (backlog (ls_limits st) - k) port st Hst) as [Hok1 Hs1].
  destruct (add_listeners _ port st) as [[|] st1]; cbn [snd] in *; [|left; by simplify_eq].
  pose proof (ss_limits _ _ Hs1) as Hlim. destruct (@replenish_ports_ok E ports st1 Hok1) as (st2 & Heq & Hok2 & Hs2).
  rewrite Heq in Hr. simplify_eq. destruct (IH st1 st' Hok1) as [Hfull|Hport]; [by rewrite Hlim|done|left; by rewrite Hlim in Hfull|].
  right. rewrite Hlim in Hport. constructor; [|done]. destruct (@listening_total E _ st' port Hok2) as [m Hm]. exists m. split; [done|].
  pose proof (listening_grows _ _ _ _ _ Hs2 Hn Hm). lia.
Qed.

(** ** Operations *)

Lemma tables_store moving st id s :
  tables_ok moving st -> is_Some (ls_established st !! id) -> tables_ok moving (store st id s).
Proof.
  intros [Hd Hn Hdj Hc Hk Hh] He. split; unfold handles in *; cbn in *; try done.
  - intros h. rewrite lookup_insert_is_Some', Hd. split; [|naive_solver]. intros [<-|?]; [by right|done].
  - intros h s' Hin. rewrite lookup_insert_ne; [by apply Hh|]. intros <-. apply Hdj in Hin. rewrite Hin in He. by destruct He.
Qed.

(** The same tables, device and counters, whatever [store] changed. *)
Definition only_sockets st st' : Prop := exists sockets, st' = with_sockets st sockets.

Lemma socket_mut_cases moving st id :
  tables_ok moving st -> (exists s, socket_mut st id = Ok s /\ is_Some (ls_established st !! id)) \/ socket_mut st id = Err Unknown.
Proof.
  intros Hst. unfold socket_mut. case_bool_decide as He; [|by right]. left.
  assert (is_Some (ls_sockets st !! id)) as [s Hs] by (apply (tk_dom _ _ Hst); by right). exists s. unfold get_socket. by rewrite Hs.
Qed.

Lemma LocalStack_recv_ok st id room :
  tables_ok [] st ->
  (LocalStack_recv st id room).1 <> Panic /\ tables_ok [] (LocalStack_recv st id room).2 /\ only_sockets st (LocalStack_recv st id room).2.
Proof.
  intros Hst. unfold LocalStack_recv. assert (only_sockets st st) as Hsame by (exists (ls_sockets st); by destruct st).
  destruct (socket_mut_cases _ st id Hst) as [(s & -> & He)| ->]; [|done].
  destruct (s_can_recv s); [|by destruct (_ || _)]. pose proof (s_no_panic room s) as Hnp.
  assert (forall s', tables_ok [] (store st id s') /\ only_sockets st (store st id s')) as Hstore by (intros s'; split; [by apply tables_store|by eexists]).
  destruct (s_recv_slice room s) as [[bs|[]|] s']; (split; [done|apply Hstore]).
Qed.

Lemma LocalStack_send_ok st id buf :
  tables_ok [] st ->
  (LocalStack_send st id buf).1 <> Panic /\ tables_ok [] (LocalStack_send st id buf).2 /\ only_sockets st (LocalStack_send st id buf).2.
Proof.
  intros Hst. unfold LocalStack_send. assert (only_sockets st st) as Hsame by (exists (ls_sockets st); by destruct st).
  destruct (socket_mut_cases _ st id Hst) as [(s & -> & He)| ->]; [|done]. destruct (negb _); [done|].
  assert (forall s', tables_ok [] (store st id s') /\ only_sockets st (store st id s')) as Hstore by (intros s'; split; [by apply tables_store|by eexists]).
  destruct (s_send_slice buf s) as [[[|n]|] s']; (split; [done|apply Hstore]).
Qed.

Lemma end_socket_ok act st id :
  tables_ok [] st ->
  exists st', end_socket act st id = Ok st' /\ tables_ok [] st' /\
    exists sockets closing, st' = with_tables st sockets (ls_listeners st) (ls_established st) closing (ls_accepted st) (ls_closed st).
Proof.
  intros Hst. unfold end_socket. destruct (socket_mut_cases _ st id Hst) as [(s & -> & He)| ->].
  2:{ exists st. split_and!; [done|done|]. exists (ls_sockets st), (ls_closing st). by destruct st. }
  eexists. split_and!; [done| |by eexists _, _]. pose proof (tables_store _ _ id (act s) Hst He) as [Hd Hn Hdj Hc Hk Hh].
  split; try done. cbn. intros h [->%elem_of_singleton|Hin]%elem_of_union; [done|by apply Hc].
Qed.

Lemma LocalStack_push_ok {E} st packet : tables_ok [] st ->
  exists st', @LocalStack_push S I _ E st packet = Ok (enqueue st' packet) /\ tables_ok [] st' /\ same_streams st st'.
Proof.
  intros Hst. unfold LocalStack_push. destruct (if ls_every_port st then _ else _) as [port|]; [|by exists st].
  case_bool_decide; [by exists st|]. set (st1 := with_wanted st _).
  assert (tables_ok [] st1) as Hw1 by (by destruct Hst; split). destruct (@listening_total E _ st1 port Hw1) as [n ->]. cbn [mbind Res_bind].
  destruct (n <? _)%nat; [|by exists st1; split_and!; [| |split]]. destruct (add_listener_ok st1 port Hw1) as [Hw2 Hs2].
  eexists. split_and!; [done|done|]. by destruct Hs2; split.
Qed.

Lemma tables_size st : tables_ok [] st -> size (ls_sockets st) = socket_count st.
Proof.
  intros [Hd Hn Hdj _ _ _]. rewrite app_nil_r in *. unfold socket_count. rewrite <- !size_dom.
  assert (dom (ls_sockets st) = list_to_set (handles st) ∪ dom (ls_established st)) as ->.
  { apply set_eq. intros h. rewrite elem_of_dom, elem_of_union, elem_of_list_to_set, elem_of_dom, Hd. done. }
  rewrite size_union; [by rewrite size_list_to_set by done; unfold handles; rewrite length_fmap|].
  intros h Hh%elem_of_list_to_set He%elem_of_dom. rewrite Hdj in He by done. by destruct He.
Qed.
End Tables.

(** ** Runs *)

Section Runs.
Context {S I : Type} `{SmoltcpLaws S I}.
Implicit Types st : LocalStack S I.

(** A caller's operation on the stack, or another holder's on the shared pool; [others] are
    the loans held outside the stack. *)
Inductive stack_step : LocalStack S I * list Pooled -> LocalStack S I * list Pooled -> Prop :=
| stack_pushes st bf packet af st' :
    @LocalStack_push S I _ Empty_set st packet = Ok st' -> stack_step (st, bf ++ packet :: af) (st', bf ++ af)
| stack_polls st others now st' : @LocalStack_poll Empty_set S I _ _ st now = Ok st' -> stack_step (st, others) (st', others)
| stack_transmits st others packet st' : LocalStack_poll_transmit st = (Some packet, st') -> stack_step (st, others) (st', packet :: others)
| stack_accepts st others : stack_step (st, others) ((LocalStack_poll_accept st).2, others)
| stack_reports st others : stack_step (st, others) ((LocalStack_poll_closed st).2, others)
| stack_receives st others id room : stack_step (st, others) ((LocalStack_recv st id room).2, others)
| stack_sends st others id buf : stack_step (st, others) ((LocalStack_send st id buf).2, others)
| stack_closes st others id st' : LocalStack_close st id = Ok st' -> stack_step (st, others) (st', others)
| stack_aborts st others id st' : LocalStack_abort st id = Ok st' -> stack_step (st, others) (st', others)
| stack_every_port st others : stack_step (st, others) (terminate_every_port st, others)
| stack_pool_moves st others pool' others' :
    pool_step (qd_pool (ls_device st), others) (pool', others') ->
    stack_step (st, others)
      (with_device st (mkDevice (qd_inbound (ls_device st)) (qd_outbound (ls_device st)) pool' (qd_mtu (ls_device st))), others').

Record stack_ok (slice capacity carried : nat) (limits : TerminationLimits) (others : list Pooled) st : Prop := {
  sk_tables : tables_ok [] st;
  sk_device : device_ok slice capacity others (ls_device st);
  sk_mtu : qd_mtu (ls_device st) = carried;
  sk_limits : ls_limits st = limits;
}.

Section Steps.
Context (slice capacity carried : nat) (limits : TerminationLimits).
Abbreviation ok := (stack_ok slice capacity carried limits).

Lemma device_step_mtu d d' : device_step d d' -> qd_mtu d' = qd_mtu d.
Proof.
  assert (forall d d' r, Device_receive d = (r, d') -> qd_mtu d' = qd_mtu d) as Hr.
  { intros d0 d1 r. unfold Device_receive. destruct (BufferPool_take_zeroed _ 0) as [[b|] p]; [|by intros [= <- <-]].
    destruct (qd_inbound d0); by intros [= <- <-]. }
  assert (forall d d' r, Device_transmit d = (r, d') -> qd_mtu d' = qd_mtu d) as Ht.
  { intros d0 d1 r. unfold Device_transmit. destruct (BufferPool_take_zeroed _ 0) as [b p]. by intros [= <- <-]. }
  assert (forall d b reply, qd_mtu (reply_with d b reply) = qd_mtu d) as Hw by (by intros d0 b [[]|]).
  intros Hs. destruct Hs as [? ? ? ? ? H1 ?|? ? H1|? ? ? ? H1 ?|? ? H1]; rewrite ?Hw; cbn; (by eapply Hr) || (by eapply Ht).
Qed.

Lemma tables_frame st st' :
  tables_ok [] st -> ls_sockets st' = ls_sockets st -> ls_listeners st' = ls_listeners st -> ls_established st' = ls_established st ->
  ls_closing st' = ls_closing st -> ls_limits st' = ls_limits st -> tables_ok [] st'.
Proof. intros [Hd Hn Hdj Hc Hk Hh] E1 E2 E3 E4 E5. split; unfold handles; rewrite ?E1, ?E2, ?E3, ?E4, ?E5; done. Qed.

Lemma push_step_ok st bf packet af st' :
  @LocalStack_push S I _ Empty_set st packet = Ok st' -> ok (bf ++ packet :: af) st -> ok (bf ++ af) st'.
Proof.
  intros Hp [Ht [Hl Hm Hf] Hmtu Hlim]. destruct (LocalStack_push_ok (E:=Empty_set) st packet Ht) as (st1 & Heq & Ht1 & Hs).
  rewrite Heq in Hp. simplify_eq. pose proof (ss_device _ _ Hs) as Hd. pose proof (ss_limits _ _ Hs). split; [|split| |]; cbn; rewrite ?Hd; try congruence; try done.
  - by eapply tables_frame.
  - by rewrite snoc_loan, Permutation_middle.
Qed.

Lemma only_sockets_ok others st st' : only_sockets st st' -> tables_ok [] st' -> ok others st -> ok others st'.
Proof. intros [sockets ->] Ht [_ Hd Hm Hl]. by split. Qed.

Lemma end_step_ok others act st id st' : end_socket act st id = Ok st' -> ok others st -> ok others st'.
Proof.
  intros He [Ht Hd Hm Hl]. destruct (end_socket_ok act st id Ht) as (st1 & Heq & Ht1 & (sockets & closing & Hst1)).
  rewrite Heq in He. simplify_eq. by split.
Qed.

Lemma poll_step_ok others st now st' : @LocalStack_poll Empty_set S I _ _ st now = Ok st' -> ok others st -> ok others st'.
Proof.
  intros Hp [Ht Hd Hm Hl]. destruct (poll_ok (E:=Empty_set) st now Ht) as (st1 & new & gone & Heq & Ht1 & Hpe & _).
  assert (st1 = st') as -> by congruence. split; [done|by eapply device_steps_ok; [apply (pe_device _ _ _ _ Hpe)|]| |by rewrite (pe_limits _ _ _ _ Hpe)].
  pose proof (pe_device _ _ _ _ Hpe) as Hdev. rewrite <- Hm. clear -Hdev. induction Hdev as [|x y z Hxy _ IH]; [done|].
  by rewrite IH, (device_step_mtu _ _ Hxy).
Qed.

Lemma stack_step_ok s s' : stack_step s s' -> ok s.2 s.1 -> ok s'.2 s'.1.
Proof.
  intros Hs Hok. destruct Hs as [st bf packet af st' Hp|st others now st' Hp|st others packet st' Hp|st others|st others|st others id room|
    st others id buf|st others id st' Hp|st others id st' Hp|st others|st others pool' others' Hp]; cbn [fst snd] in *.
  - by eapply push_step_ok.
  - by eapply poll_step_ok.
  - destruct Hok as [Ht [Hl Hm Hf] Hmtu Hlim]. unfold LocalStack_poll_transmit in Hp. destruct (qd_outbound (ls_device st)) as [|x outbound] eqn:Eo; [done|].
    simplify_eq. apply Forall_cons in Hf as [Hx Hf]. split; [by eapply tables_frame|split; cbn; [|done|done]|done|done].
    eapply accounts_perm; [|exact Hl]. rewrite <- !app_assoc. cbn. f_equiv. by rewrite <- Permutation_middle.
  - destruct Hok as [Ht Hd Hm Hl]. unfold LocalStack_poll_accept. destruct (ls_accepted st); (split; [by eapply tables_frame|done|done|done]).
  - destruct Hok as [Ht Hd Hm Hl]. unfold LocalStack_poll_closed. destruct (ls_closed st); (split; [by eapply tables_frame|done|done|done]).
  - destruct (LocalStack_recv_ok st id room (sk_tables _ _ _ _ _ _ Hok)) as (_ & Ht & Ho). by eapply only_sockets_ok.
  - destruct (LocalStack_send_ok st id buf (sk_tables _ _ _ _ _ _ Hok)) as (_ & Ht & Ho). by eapply only_sockets_ok.
  - by eapply end_step_ok.
  - by eapply end_step_ok.
  - destruct Hok as [Ht Hd Hm Hl]. split; [by eapply tables_frame|done|done|done].
  - destruct Hok as [Ht [Hla Hma Hf] Hm Hl]. split; [by eapply tables_frame|split; cbn; [|done|done]|done|done]. by eapply accounts_frame.
Qed.

Lemma stack_run_ok s s' : rtc stack_step s s' -> ok s.2 s.1 -> ok s'.2 s'.1.
Proof. intros Hs. induction Hs as [|x y z Hxy _ IH]; [done|]. intros Hx. apply IH. by eapply stack_step_ok. Qed.
End Steps.

Lemma fresh_tables st : ls_sockets st = ∅ -> ls_listeners st = [] -> ls_established st = ∅ -> ls_closing st = ∅ -> tables_ok [] st.
Proof.
  intros E1 E2 E3 E4. split; unfold handles; rewrite ?E1, ?E2, ?E3, ?E4; cbn; [|constructor|set_solver|set_solver|rewrite map_size_empty; lia|set_solver].
  intros h. rewrite !lookup_empty. split; [by intros []|]. by intros [Hin%not_elem_of_nil|[]].
Qed.

Lemma LocalStack_new_ok slice capacity mtu ports limits pool base iface others st :
  accounts slice capacity pool others -> LocalStack_new mtu ports limits pool base iface = Ok st ->
  stack_ok slice capacity (Z.to_nat (Mtu_get mtu) `min` slice) limits others st.
Proof.
  intros Hp. unfold LocalStack_new. destruct (_ <? _)%nat; [done|]. rewrite (po_slice _ _ _ Hp : slice_size pool = slice).
  set (st0 := mkStack _ _ _ _ _ _ _ _ _ _ _ _ _). assert (tables_ok [] st0) as Ht0 by (by apply fresh_tables).
  destruct (replenish_ok (E:=TerminationError) st0 Ht0) as (st1 & -> & Ht1 & Hs). intros [= <-].
  split; [done| |by rewrite (ss_device _ _ Hs)|by rewrite (ss_limits _ _ Hs)]. rewrite (ss_device _ _ Hs). split; cbn; [done|lia|constructor].
Qed.

(** C15: a terminator whose construction succeeded, driven by any sequence of its operations
    over any smoltcp, with a pool other parts of the program share.  No operation panics or
    runs for ever; the sockets alive are exactly the listeners and connections and never
    more than [max_sockets]; a poll leaves no closed socket among the connections; every
    buffer of the pool is free, in one of the device's queues or with another holder; and
    every packet to leave fits the tunnel's MTU and a slice. *)
Theorem stack_bounded slice capacity mtu ports limits pool base iface others0 st0 st others :
  accounts slice capacity pool others0 -> LocalStack_new mtu ports limits pool base iface = Ok st0 ->
  rtc stack_step (st0, others0) (st, others) ->
  (forall packet, exists st', @LocalStack_push S I _ Empty_set st packet = Ok st') /\
  (forall now, exists st', @LocalStack_poll Empty_set S I _ _ st now = Ok st' /\
     forall h s, is_Some (ls_established st' !! h) -> ls_sockets st' !! h = Some s -> s_state s <> S_Closed) /\
  (forall id room, (LocalStack_recv st id room).1 <> Panic) /\ (forall id buf, (LocalStack_send st id buf).1 <> Panic) /\
  (forall id, exists st', LocalStack_close st id = Ok st') /\ (forall id, exists st', LocalStack_abort st id = Ok st') /\
  size (ls_sockets st) = socket_count st /\ (socket_count st <= max_sockets limits)%nat /\
  accounts slice capacity (qd_pool (ls_device st)) ((qd_inbound (ls_device st) ++ qd_outbound (ls_device st)) ++ others) /\
  Forall (fun packet => (length packet <= Z.to_nat (Mtu_get mtu) `min` slice)%nat) (qd_outbound (ls_device st)).
Proof.
  intros Hp Hnew Hrun. pose proof (LocalStack_new_ok _ _ _ _ _ _ _ _ _ _ Hp Hnew) as H0'.
  apply (stack_run_ok _ _ _ _ _ _ Hrun) in H0'. cbn [fst snd] in H0'. destruct H0' as [Ht [Hl Hm Hf] Hmtu Hlim].
  split_and!; [| | | | | | | |done|by rewrite <- Hmtu].
  - intros packet. destruct (LocalStack_push_ok (E:=Empty_set) st packet Ht) as (st' & -> & _). by eexists.
  - intros now. destruct (poll_ok (E:=Empty_set) st now Ht) as (st' & new & gone & -> & _ & _ & Hlive). by exists st'.
  - intros id room. by destruct (LocalStack_recv_ok st id room Ht).
  - intros id buf. by destruct (LocalStack_send_ok st id buf Ht).
  - intros id. destruct (end_socket_ok s_close st id Ht) as (st' & Heq & _). by exists st'.
  - intros id. destruct (end_socket_ok s_abort st id Ht) as (st' & Heq & _). by exists st'.
  - by apply tables_size.
  - pose proof (tk_count _ _ Ht) as Hc. rewrite app_nil_r, Hlim in Hc. unfold handles in Hc. by rewrite length_fmap in Hc.
Qed.
End Runs.

(** ** A scripted smoltcp *)

Module ScriptedTcp.
Record Sock := mkSock {
  sc_state : TcpState;
  sc_rx : bytes;
  sc_room : nat;
  sc_remote : option InternalEndpoint;
  sc_local : option InternalEndpoint;
}.

Definition with_state (s : Sock) (state : TcpState) : Sock := mkSock state (sc_rx s) (sc_room s) (sc_remote s) (sc_local s).

(** A socket the script closes has lost its endpoints. *)
Definition settle (s : Sock) : Sock :=
  if bool_decide (sc_state s = S_Closed) then mkSock S_Closed (sc_rx s) (sc_room s) None None else s.

Definition first_free (m : gmap nat Sock) : nat :=
  default 0%nat (list_find (fun n => m !! n = None) (seq 0 (S (size m))) ≫= fun '(_, n) => Some n).

(** A script of rounds: the sockets that change, or nothing more in this poll. *)
Definition Script : Type := list (option (list (nat * Sock))).

Definition play (changes : list (nat * Sock)) (m : gmap nat Sock) : gmap nat Sock :=
  foldl (fun m '(h, s) =>
    match m !! h with
    | Some old => if bool_decide (sc_state old = S_Closed) then m else <[h := settle s]> m
    | None => m
    end) m changes.

#[export] Instance scripted : Smoltcp Sock Script := {
  s_listen size port := if port =? 0 then None else Some (mkSock S_Listen [] size None None);
  s_state := sc_state;
  s_can_recv s := negb (bool_decide (sc_rx s = []));
  s_may_recv s := bool_decide (sc_state s = S_Established \/ sc_state s = S_FinWait1 \/ sc_state s = S_FinWait2) || negb (bool_decide (sc_rx s = []));
  s_can_send s := bool_decide (sc_state s = S_Established \/ sc_state s = S_CloseWait) && (0 <? sc_room s)%nat;
  s_may_send s := bool_decide (sc_state s = S_Established \/ sc_state s = S_CloseWait);
  s_recv_slice room s := (Ok (take room (sc_rx s)), mkSock (sc_state s) (drop room (sc_rx s)) (sc_room s) (sc_remote s) (sc_local s));
  s_send_slice bs s :=
    let n := (length bs `min` sc_room s)%nat in
    (Some n, mkSock (sc_state s) (sc_rx s) (sc_room s - n) (sc_remote s) (sc_local s));
  s_close s :=
    match sc_state s with
    | S_Established => with_state s S_FinWait1
    | S_CloseWait => with_state s S_LastAck
    | _ => s
    end;
  s_abort s := with_state s S_Closed;
  s_remote := sc_remote;
  s_local := sc_local;
  s_add := first_free;
  i_poll now script d m :=
    match script with
    | Some changes :: script => (true, (script, d, play changes m))
    | None :: script => (false, (script, d, m))
    | [] => (false, ([], d, m))
    end;
  i_poll_at now script m := None;
}.

Lemma first_free_fresh m : m !! first_free m = None.
Proof.
  unfold first_free. destruct (list_find _ _) as [[i n]|] eqn:E; cbn; [by apply list_find_Some in E as (_ & ? & _)|].
  exfalso. apply list_find_None in E.
  assert (list_to_set (seq 0 (S (size m))) ⊆ dom m) as Hsub.
  { intros n Hn%elem_of_list_to_set. rewrite Forall_forall in E. specialize (E n Hn). apply elem_of_dom. by apply not_eq_None_Some. }
  apply subseteq_size in Hsub. rewrite size_list_to_set, length_seq, size_dom in Hsub by apply NoDup_seq. lia.
Qed.

Lemma play_dom changes : forall m, dom (play changes m) = dom m.
Proof.
  unfold play. induction changes as [|[h s] changes IH]; intros m; cbn [foldl]; [done|]. rewrite IH.
  destruct (m !! h) as [old|] eqn:Eh; [|done]. case_bool_decide; [done|]. rewrite dom_insert_L.
  assert (h ∈ dom m) by (apply elem_of_dom; by exists old). set_solver.
Qed.

Lemma play_half_open changes : forall m h s s',
  m !! h = Some s -> never_opened s -> play changes m !! h = Some s' -> never_opened s'.
Proof.
  unfold play. induction changes as [|[i x] changes IH]; intros m h s s' Hm Hn; cbn [foldl]; [by intros ?; simplify_eq|].
  destruct (m !! i) as [old|] eqn:Ei; [|by apply (IH m h s)]. case_bool_decide; [by apply (IH m h s)|]. destruct (decide (i = h)) as [->|Hne].
  - apply (IH _ h (settle x)); [by rewrite lookup_insert_eq|]. intros Hc. unfold settle in *. case_bool_decide as Hx; [by left|by cbn in Hc].
  - apply (IH _ h s); [by rewrite lookup_insert_ne|done].
Qed.

Lemma play_closed changes : forall m h s s',
  m !! h = Some s -> sc_state s = S_Closed -> play changes m !! h = Some s' -> sc_state s' = S_Closed.
Proof.
  unfold play. induction changes as [|[i x] changes IH]; intros m h s s' Hm Hc; cbn [foldl]; [by intros ?; simplify_eq|].
  destruct (m !! i) as [old|] eqn:Ei; [|by apply (IH m h s)]. case_bool_decide as Ho; [by apply (IH m h s)|].
  apply (IH _ h s); [|done]. rewrite lookup_insert_ne; [done|]. intros ->. by simplify_eq.
Qed.

#[export] Instance scripted_laws : SmoltcpLaws Sock Script.
Proof.
  refine {| i_work := fun script _ _ => length script |}.
  - intros size port s. cbn. destruct (port =? 0); [done|]. by intros [= <-].
  - done.
  - exact first_free_fresh.
  - intros room s bs s' [= <- <-]. rewrite length_take. lia.
  - intros bs s n s' [= <- <-]. lia.
  - done.
  - intros now i d m. destruct i as [|[changes|] i]; [done|apply play_dom|done].
  - intros now i d m. destruct i as [|[changes|] i]; apply rtc_refl.
  - intros now i d m h s s'. destruct i as [|[changes|] i]; cbn; [by intros; simplify_eq|by apply play_half_open|by intros; simplify_eq].
  - intros now i d m h s s'. destruct i as [|[changes|] i]; cbn; [by intros; simplify_eq|by apply play_closed|by intros; simplify_eq].
  - intros now i d m i' d' m'. destruct i as [|[changes|] i]; [done| |done]. cbn. intros [= <- <- <-]. lia.
Defined.
End ScriptedTcp.
Export ScriptedTcp.

Definition peer_a : InternalEndpoint := mkEndpoint (V4 [10; 0; 0; 2]) 49152.
Definition peer_b : InternalEndpoint := mkEndpoint (V4 [192; 0; 2; 1]) 443.

(** One connection on the first listener. *)
Definition one_opens : Script := [Some [(0%nat, mkSock S_Established [7] 8 (Some peer_a) (Some peer_b))]; None].

Lemma stack_bounded_witness :
  exists st0 st,
    LocalStack_new (mkMtu 1500) [443] (mkTerminationLimits 3 1 64) (BufferPool_new 2048 4) 0 one_opens = Ok st0 /\
    @LocalStack_poll Empty_set Sock Script _ _ st0 0 = Ok st /\ size (ls_established st) = 1%nat /\
    size (ls_sockets st) = socket_count st /\ (socket_count st <= 3)%nat.
Proof.
  assert (exists st0, LocalStack_new (mkMtu 1500) [443] (mkTerminationLimits 3 1 64) (BufferPool_new 2048 4) 0 one_opens = Ok st0) as [st0 H0].
  { eexists. vm_compute. reflexivity. }
  assert (accounts 2048 4 (BufferPool_new 2048 4) []) as Hp.
  { split; cbn; try done; try lia; constructor. }
  assert (exists st, @LocalStack_poll Empty_set Sock Script _ _ st0 0 = Ok st /\ size (ls_established st) = 1%nat) as (st & H1 & Hs).
  { vm_compute in H0. injection H0 as <-. eexists. split; [vm_compute; reflexivity|vm_compute; reflexivity]. }
  exists st0, st. split; [exact H0|]. split; [exact H1|]. split; [exact Hs|].
  assert (rtc (@stack_step Sock Script _ _) (st0, []) (st, [])) as Hrun by (apply rtc_once; econstructor; exact H1).
  destruct (stack_bounded _ _ _ _ _ _ _ _ _ _ _ _ Hp H0 Hrun) as (_ & _ & _ & _ & _ & _ & Hsize & Hmax & _).
  split; [exact Hsize|exact Hmax].
Defined.

(** ** Listeners *)

Section Listeners.
Context {S I : Type} `{SmoltcpLaws S I}.
Implicit Types st : LocalStack S I.

(** The parts of a poll. *)
Lemma poll_parts {E} st now st' :
  tables_ok [] st -> @LocalStack_poll E S I _ _ st now = Ok st' ->
  exists i d m st1, poll_loop (Datatypes.S (i_work (ls_iface st) (ls_device st) (ls_sockets st))) (smol_now st now)
      (ls_iface st) (ls_device st) (ls_sockets st) = (Ok (i, d, m) : Res E _) /\
    harvest (mkStack d i m (ls_ports st) (ls_every_port st) ∅ (ls_listeners st) (ls_limits st) (ls_established st)
               (ls_closing st) (ls_accepted st) (ls_closed st) (ls_base st)) = (Ok st1 : Res E _) /\
    replenish_listeners st1 = (Ok st' : Res E _) /\ tables_ok [] st1 /\ ls_limits st1 = ls_limits st /\ ls_ports st1 = ls_ports st /\
    dom m = dom (ls_sockets st).
Proof.
  intros Hst. unfold LocalStack_poll.
  destruct (stack_poll_loop_ok (E:=E) (Datatypes.S (i_work (ls_iface st) (ls_device st) (ls_sockets st))) (smol_now st now) (ls_iface st) (ls_device st) (ls_sockets st))
    as (i & d & m & Heq & Hdom & _ & Hhalf & _); [lia|]. rewrite Heq. cbn [mbind Res_bind]. set (st0 := mkStack _ _ _ _ _ _ _ _ _ _ _ _ _).
  assert (tables_ok [] st0) as Hst0 by (by apply poll_tables).
  destruct (harvest_ok (E:=E) st0 Hst0) as (st1 & new & gone & Hh & Hok1 & Hpe & _). rewrite Hh. cbn [mbind Res_bind]. intros Hr.
  exists i, d, m, st1. split_and!; try done; [by apply (pe_limits _ _ _ _ Hpe)|by apply (pe_ports _ _ _ _ Hpe)].
Qed.

(** After a poll either the ceiling is reached or every configured port has its backlog of
    listeners waiting for a SYN. *)
Theorem poll_restores_backlog {E} st now st' :
  tables_ok [] st -> Forall (fun port => is_Some (s_listen (socket_buffer (ls_limits st)) port)) (ls_ports st) ->
  @LocalStack_poll E S I _ _ st now = Ok st' ->
  (max_sockets (ls_limits st) <= socket_count st')%nat \/
  Forall (fun port => exists n, @listening S I _ E st' port = Ok n /\ (backlog (ls_limits st) <= n)%nat) (ls_ports st).
Proof.
  intros Hst Hports Hp. destruct (poll_parts st now st' Hst Hp) as (i & d & m & st1 & _ & _ & Hr & Hok1 & Hl & Hpo & _).
  rewrite <- Hl, <- Hpo in *. by apply (replenish_ports_backlog (ls_ports st1) st1 st').
Qed.

Lemma publish_listeners {E} converted : forall st st', @publish S I _ E converted st = Ok st' -> ls_listeners st' = ls_listeners st.
Proof.
  induction converted as [|h converted IH]; intros st st'; cbn [publish]; [by intros [= <-]|].
  unfold get_socket. destruct (ls_sockets st !! h) as [s|]; [|done]. cbn. intros Hp. apply IH in Hp. rewrite Hp.
  destruct (s_remote s); [destruct (s_local s)|]; done.
Qed.

Lemma reap_listeners finished : forall st, ls_listeners (foldl reap_socket st finished) = ls_listeners st.
Proof. induction finished as [|h finished IH]; intros st; cbn [foldl]; [done|]. by rewrite IH. Qed.

(** A listener that smoltcp leaves waiting stays, on a port of the configuration or not. *)
Theorem idle_listener_stays {E} st now st' l i d m s :
  tables_ok [] st -> l ∈ ls_listeners st ->
  poll_loop (Datatypes.S (i_work (ls_iface st) (ls_device st) (ls_sockets st))) (smol_now st now)
    (ls_iface st) (ls_device st) (ls_sockets st) = (Ok (i, d, m) : Res E _) ->
  m !! l_handle l = Some s -> s_state s = S_Listen ->
  @LocalStack_poll E S I _ _ st now = Ok st' -> l ∈ ls_listeners st'.
Proof.
  intros Hst Hl Heq Hm Hs Hp. destruct (poll_parts st now st' Hst Hp) as (i' & d' & m' & st1 & Heq' & Hh & Hr & Hok1 & _ & _ & Hdom).
  rewrite Heq in Heq'. simplify_eq. destruct (replenish_ok (E:=E) st1 Hok1) as (st2 & Hr2 & _ & Hss). rewrite Hr in Hr2. simplify_eq.
  destruct (ss_listeners _ _ Hss) as [more ->]. apply elem_of_app. left.
  unfold harvest in Hh. cbn in Hh.
  destruct (split_listeners_spec (E:=E) m' (ls_listeners st)) as (kept & converted & Hsp & _ & _ & _ & Hkept).
  { intros l' Hl'. destruct (listener_sockets _ _ l' Hst Hl') as [s0 Hs0]. apply elem_of_dom. rewrite Hdom. apply elem_of_dom. by exists s0. }
  rewrite Hsp in Hh. cbn in Hh. destruct (publish converted _) as [stp| |] eqn:Epub; [|done|done]. cbn in Hh.
  destruct (finished_among _ _) as [fin| |]; [|done|done]. cbn in Hh. assert (st1 = foldl reap_socket stp fin) as -> by congruence.
  rewrite reap_listeners, (publish_listeners _ _ _ Epub). cbn. apply Hkept; [done|]. exists s. split; [done|by left].
Qed.
End Listeners.

(** A SYN for a port, on its shortest IPv4 packet. *)
Definition syn_to (port : Z) : bytes := [0x45] ++ replicate 8 0 ++ [6] ++ replicate 12 0 ++ be_bytes 2 port ++ replicate 9 0 ++ [2].

Example syn_to_seen : syn_destination (syn_to 8001) = Some 8001.
Proof. reflexivity. Qed.

(** Two SYNs to ports outside the configuration, each reset before its handshake ends, so
    smoltcp has both listeners wait again; then one connection to the configured port. *)
Definition scan : Script := [None; None; Some [(0%nat, mkSock S_Established [] 8 (Some peer_a) (Some peer_b))]; None].

Definition scanned : Res Empty_set (LocalStack Sock Script) :=
  match LocalStack_new (mkMtu 1500) [443] (mkTerminationLimits 3 1 64) (BufferPool_new 2048 8) 0 scan with
  | Ok st =>
      st ← LocalStack_push (terminate_every_port st) (syn_to 8001);
      st ← LocalStack_poll st 0;
      st ← LocalStack_push st (syn_to 8002);
      st ← LocalStack_poll st 0;
      LocalStack_poll st 0
  | _ => Panic
  end.

(** With one connection alive and a ceiling of three, the configured port has no listener
    left: those of the two probed ports keep the rest of the budget. *)
Example scan_starves :
  (st ← scanned; n ← listening st 443; Ok (n, size (ls_established st), l_port <$> ls_listeners st)) = Ok (0%nat, 1%nat, [8001; 8002]).
Proof. vm_compute. reflexivity. Qed.
