(* ===== verification/Terminate.v ===== *)
(** The terminator's task ([src/l4/terminate.rs]): a pass publishes new connections, pumps
    every stream both ways, sends what the stack has ready and reports what ended.

    A connection's entry holds its bridge ([Bridge.v]) with the [Terminated] the stream was
    published as.  The queue of accepted connections and the reactor are what they answer:
    [takes] says of each offered connection whether the consumer's queue takes it, and
    [reactor] how many packets are taken before the reactor is gone, if it goes. *)

From S2P Require Import Prelude Wire Net Plan Pool Egress Transport Bridge Stack StackTheory.
Open Scope Z_scope.

(** The entries of the task's table. *)
Abbreviation Conns := (gmap nat (Terminated * Bridge)).

Section Terminate.
Context {S I : Type} `{SmoltcpLaws S I}.
Implicit Types st : LocalStack S I.

Abbreviation Run A := (Res Empty_set A).

(** ** Pumping one stream *)

(** Peer bytes to the task, with the bytes that came; each round queues a chunk, so the
    queue's depth is fuel enough. *)
Fixpoint pump_peer (fuel : nat) st (id : nat) (b : Bridge) : Run (LocalStack S I * Bridge * bytes) :=
  match fuel with
  | O => Panic
  | Datatypes.S fuel =>
      if negb (br_to_task b) || negb (br_task b) || (DEPTH <=? length (br_in b))%nat then Ok (st, b, []) else
      match LocalStack_recv st id CHUNK with
      | (Ok [], st) => Ok (st, b, [])
      | (Ok bs, st) =>
          '(st, b, more) ← pump_peer fuel st id (with_in b (br_in b ++ [bs]) true (br_reset b) (br_pending b));
          Ok (st, b, bs ++ more)
      | (Err WouldBlock, st) => Ok (st, b, [])
      | (Err Closed, st) | (Err Unknown, st) => Ok (st, with_in b (br_in b) false (br_reset b) (br_pending b), [])
      | (Err Reset, st) => Ok (st, Plumbing_reset b, [])
      | (Panic, _) => Panic
      end
  end.

(** Task bytes to the peer, with the bytes that went; each round takes a chunk. *)
Fixpoint pump_task (fuel : nat) st (id : nat) (b : Bridge) : Run (LocalStack S I * Bridge * bytes) :=
  match fuel with
  | O => Panic
  | Datatypes.S fuel =>
      let next :=
        match br_pending_out b, br_out b with
        | Some chunk, out => Some (chunk, out)
        | None, chunk :: out => Some (chunk, out)
        | None, [] => None
        end in
      match next with
      | None =>
          if br_outbound b || br_finished b then Ok (st, b, []) else
          match LocalStack_close st id with
          | Ok st => Ok (st, with_out b [] false None true, [])
          | _ => Panic
          end
      | Some (chunk, out) =>
          match LocalStack_send st id chunk with
          | (Ok written, st) =>
              if (written <? length chunk)%nat
              then Ok (st, with_out b out (br_outbound b) (Some (drop written chunk)) (br_finished b), take written chunk)
              else
                '(st, b, more) ← pump_task fuel st id (with_out b out (br_outbound b) None (br_finished b));
                Ok (st, b, chunk ++ more)
          | (Err WouldBlock, st) => Ok (st, with_out b out (br_outbound b) (Some chunk) (br_finished b), [])
          | (Err _, st) => Ok (st, with_out b out (br_outbound b) None (br_finished b), [])
          | (Panic, _) => Panic
          end
      end
  end.

Definition pump st (id : nat) (b : Bridge) : Run (LocalStack S I * Bridge * bytes * bytes) :=
  '(st, b, came) ← pump_peer (Datatypes.S DEPTH) st id b;
  '(st, b, gave) ← pump_task (Datatypes.S (Datatypes.S (length (br_out b)))) st id b;
  Ok (st, b, came, gave).

(** ** A pass *)

(** [while let Some(terminated) = stack.poll_accept()]. *)
Fixpoint accept_loop (fuel : nat) (takes : list bool) st (conns : Conns) : Run (LocalStack S I * Conns) :=
  match fuel with
  | O => Panic
  | Datatypes.S fuel =>
      match LocalStack_poll_accept st with
      | (None, st) => Ok (st, conns)
      | (Some terminated, st) =>
          if default false (head takes) then accept_loop fuel (tail takes) st (<[t_id terminated := (terminated, pair)]> conns)
          else
            match LocalStack_abort st (t_id terminated) with
            | Ok st => accept_loop fuel (tail takes) st conns
            | _ => Panic
            end
      end
  end.

Fixpoint pump_all (ids : list nat) st (conns : Conns) : Run (LocalStack S I * Conns) :=
  match ids with
  | [] => Ok (st, conns)
  | id :: ids =>
      match conns !! id with
      | None => pump_all ids st conns
      | Some (terminated, b) =>
          '(st, b, _, _) ← pump st id b;
          pump_all ids st (<[id := (terminated, b)]> conns)
      end
  end.

(** What is ready to send, and whether the reactor took it all. *)
Fixpoint transmit_loop (fuel : nat) (reactor : option nat) st : bool * LocalStack S I * list Pooled :=
  match fuel with
  | O => (true, st, [])
  | Datatypes.S fuel =>
      match LocalStack_poll_transmit st with
      | (None, st) => (true, st, [])
      | (Some packet, st) =>
          match reactor with
          | Some O => (false, with_device st (loan_dropped (ls_device st) packet), [])
          | _ => let '(all, st, sent) := transmit_loop fuel (pred <$> reactor) st in (all, st, packet :: sent)
          end
      end
  end.

(** The driver's half of a bridge dropped. *)
Definition Plumbing_drop (b : Bridge) : Bridge :=
  mkBridge (br_in b) (br_to_task b) (br_reset b) (br_pending b) (br_task b) (br_out b) (br_outbound b) (br_pending_out b) (br_finished b) false.

(** [while let Some(ended) = stack.poll_closed()]: the entries that are left, and the
    bridges that ended. *)
Fixpoint closed_loop (fuel : nat) st (conns : Conns) : LocalStack S I * Conns * list (Terminated * Bridge) :=
  match fuel with
  | O => (st, conns, [])
  | Datatypes.S fuel =>
      match LocalStack_poll_closed st with
      | (None, st) => (st, conns, [])
      | (Some e, st) =>
          let ended :=
            match conns !! e_id e with
            | Some (terminated, b) => [(terminated, Plumbing_drop (if e_reset e then Plumbing_reset b else b))]
            | None => []
            end in
          let '(st, conns, more) := closed_loop fuel st (delete (e_id e) conns) in
          (st, conns, ended ++ more)
      end
  end.

(** The pass up to its pumps, the pumps, and the rest. *)
Definition service_front st (conns : Conns) (now : Instant) (takes : list bool) : Run (LocalStack S I * Conns) :=
  st ← LocalStack_poll st now;
  accept_loop (Datatypes.S (length (ls_accepted st))) takes st conns.

Definition service_back st (conns : Conns) (now : Instant) (reactor : option nat) :
    Run (LocalStack S I * Conns * list (Terminated * Bridge) * list Pooled) :=
  st ← LocalStack_poll st now;
  let '(all, st, sent) := transmit_loop (length (qd_outbound (ls_device st))) reactor st in
  if all : bool then
    let '(st, conns, ended) := closed_loop (Datatypes.S (length (ls_closed st))) st conns in Ok (st, conns, ended, sent)
  else Ok (st, conns, [], sent).

Definition terminator_service st (conns : Conns) (now : Instant) (takes : list bool) (now' : Instant) (reactor : option nat) :
    Run (LocalStack S I * Conns * list (Terminated * Bridge) * list Pooled) :=
  '(st, conns) ← service_front st conns now takes;
  '(st, conns) ← pump_all (map_to_list conns).*1 st conns;
  service_back st conns now' reactor.

(** When the loop of [run_terminator] wakes by itself: the stack's deadline, but with no
    buffer to transmit with not before a moment has passed. *)
Definition wake_at st (now : Instant) : Run Instant :=
  let deadline := default (now + 250000000) (LocalStack_poll_at st now) in
  available ← BufferPool_available (qd_pool (ls_device st));
  Ok (if (available =? 0)%nat then Z.max deadline (now + 5000000) else deadline).

(** [take_pending]: every queued packet enters the stack. *)
Fixpoint take_pending (packets : list Pooled) st : Run (LocalStack S I) :=
  match packets with
  | [] => Ok st
  | packet :: packets => st ← LocalStack_push st packet; take_pending packets st
  end.
End Terminate.

(** * Streams and connections stay together *)

Section TerminateTheory.
Context {S I : Type} `{SmoltcpLaws S I}.
Implicit Types st : LocalStack S I.

(** What a pump leaves of a stack: the tables, and every other socket. *)
Record pumped (ids : list nat) st st' : Prop := {
  pu_tables : tables_ok [] st';
  pu_established : ls_established st' = ls_established st;
  pu_accepted : ls_accepted st' = ls_accepted st;
  pu_closed : ls_closed st' = ls_closed st;
  pu_others : forall h, h ∉ ids -> ls_sockets st' !! h = ls_sockets st !! h;
}.

Lemma pumped_refl ids st : tables_ok [] st -> pumped ids st st.
Proof. by split. Qed.

Lemma pumped_trans ids st1 st2 st3 : pumped ids st1 st2 -> pumped ids st2 st3 -> pumped ids st1 st3.
Proof. intros [] [? ? ? ? Ho]. split; try congruence. intros h Hh. rewrite Ho by done. auto. Qed.

Lemma pumped_mono ids ids' st st' : ids ⊆ ids' -> pumped ids st st' -> pumped ids' st st'.
Proof. intros Hsub [? ? ? ? Ho]. split; try done. intros h Hh. apply Ho. set_solver. Qed.

Lemma recv_pumped st id room : tables_ok [] st -> pumped [id] st (LocalStack_recv st id room).2 /\ (LocalStack_recv st id room).1 <> Panic.
Proof.
  intros Hst. destruct (LocalStack_recv_ok st id room Hst) as (Hnp & Ht & [sockets Hs]). split; [|done].
  assert (forall h, h ∉ [id] -> ls_sockets (LocalStack_recv st id room).2 !! h = ls_sockets st !! h) as Ho; [|by rewrite Hs in *; split].
  intros h Hh. apply not_elem_of_cons in Hh as [Hne _]. unfold LocalStack_recv. destruct (socket_mut st id) as [s| |]; [|done|done].
  destruct (s_can_recv s); [|by destruct (_ || _)]. destruct (s_recv_slice room s) as [[bs|[]|] s']; cbn; by rewrite lookup_insert_ne.
Qed.

Lemma send_pumped st id buf : tables_ok [] st -> pumped [id] st (LocalStack_send st id buf).2 /\ (LocalStack_send st id buf).1 <> Panic.
Proof.
  intros Hst. destruct (LocalStack_send_ok st id buf Hst) as (Hnp & Ht & [sockets Hs]). split; [|done].
  assert (forall h, h ∉ [id] -> ls_sockets (LocalStack_send st id buf).2 !! h = ls_sockets st !! h) as Ho; [|by rewrite Hs in *; split].
  intros h Hh. apply not_elem_of_cons in Hh as [Hne _]. unfold LocalStack_send. destruct (socket_mut st id) as [s| |]; [|done|done].
  destruct (negb _); [done|]. destruct (s_send_slice buf s) as [[[|n]|] s']; cbn; by rewrite lookup_insert_ne.
Qed.

Lemma end_pumped act st id : tables_ok [] st -> exists st', end_socket act st id = Ok st' /\ pumped [id] st st'.
Proof.
  intros Hst. destruct (end_socket_ok act st id Hst) as (st' & Heq & Ht & (sockets & closing & Hst')). exists st'. split; [done|].
  assert (forall h, h ∉ [id] -> ls_sockets st' !! h = ls_sockets st !! h) as Ho; [|subst; by split].
  intros h Hh. apply not_elem_of_cons in Hh as [Hne _]. clear Hst'. unfold end_socket in Heq.
  assert (forall x y : LocalStack S I, (Ok x : Res StreamError _) = Ok y -> x = y) as Hinj by congruence.
  destruct (socket_mut st id) as [s|e|]; [| |done]; apply Hinj in Heq; rewrite <- Heq; [|done]. cbn. by rewrite lookup_insert_ne.
Qed.

Lemma recv_within st id room bs st' : LocalStack_recv st id room = (Ok bs, st') -> (length bs <= room)%nat.
Proof.
  unfold LocalStack_recv. destruct (socket_mut st id) as [s| |]; [|done|done]. destruct (s_can_recv s); [|by destruct (_ || _)].
  destruct (s_recv_slice room s) as [[bs'|[]|] s'] eqn:Er; intros [= <- <-]. by eapply s_recv_within.
Qed.

(** Pumping from the peer: it always returns, keeps the tables, and what came is queued for
    the task in order. *)
Lemma pump_peer_ok fuel id : forall st b,
  tables_ok [] st -> bridge_bounded b -> (DEPTH - length (br_in b) < fuel)%nat ->
  exists st' b' came, pump_peer fuel st id b = Ok (st', b', came) /\ pumped [id] st st' /\ bridge_bounded b' /\
    held_in b' = held_in b ++ came /\ b' = with_in b (br_in b') (br_to_task b') (br_reset b') (br_pending b').
Proof.
  induction fuel as [|fuel IH]; intros st b Hst Hb Hf; [lia|]. cbn [pump_peer].
  assert (b = with_in b (br_in b) (br_to_task b) (br_reset b) (br_pending b)) as Hsame by (by destruct b).
  destruct (_ || _ || _) eqn:Eg; [exists st, b, []; rewrite app_nil_r; split_and!; [done|by apply pumped_refl|done|done|done]|].
  destruct (recv_pumped st id CHUNK Hst) as [Hp Hnp]. destruct (LocalStack_recv st id CHUNK) as [r st1] eqn:Er. cbn [fst snd] in *.
  assert (forall b1, bridge_bounded b1 -> held_in b1 = held_in b -> b1 = with_in b (br_in b1) (br_to_task b1) (br_reset b1) (br_pending b1) ->
    exists st' b' came, Ok (st1, b1, []) = (Ok (st', b', came) : Res Empty_set _) /\ pumped [id] st st' /\ bridge_bounded b' /\
    held_in b' = held_in b ++ came /\ b' = with_in b (br_in b') (br_to_task b') (br_reset b') (br_pending b')) as Hend.
  { intros b1 ? Hh ?. exists st1, b1, []. rewrite app_nil_r. by split_and!. }
  destruct r as [[|x bs]|[]|]; try done; try (by apply Hend); try (by apply Hend; [destruct Hb|..]).
  reflect. destruct Hb as (Hi & Hc & Ho & Hs). set (b1 := with_in b _ true _ _).
  destruct (IH st1 b1 (pu_tables _ _ _ Hp)) as (st' & b' & more & -> & Hp' & Hb' & Hh' & Hw').
  - split_and!; cbn; [rewrite length_app; cbn; lia| |done|done]. apply Forall_app. split; [done|]. by constructor.
  - cbn. rewrite length_app. cbn. unfold DEPTH in *. lia.
  - exists st', b', ((x :: bs) ++ more). split_and!; [done|by eapply pumped_trans|done| |by rewrite Hw' at 1].
    rewrite Hh'. unfold held_in. cbn. rewrite concat_app. cbn. by rewrite app_nil_r, <- !app_assoc.
Qed.

(** Pumping to the peer: it always returns and keeps the tables; what went is a prefix of
    what was held. *)
Lemma pump_task_ok fuel id : forall st b,
  tables_ok [] st -> bridge_bounded b -> (length (br_out b) + (if br_pending_out b then 1 else 0) < fuel)%nat ->
  exists st' b' gave, pump_task fuel st id b = Ok (st', b', gave) /\ pumped [id] st st' /\ bridge_bounded b' /\
    gave `prefix_of` held_out b.
Proof.
  induction fuel as [|fuel IH]; intros st b Hst Hb Hf; [lia|]. cbn [pump_task].
  set (next := match br_pending_out b, br_out b with Some chunk, out => Some (chunk, out) | None, chunk :: out => Some (chunk, out) | None, [] => None end).
  destruct Hb as (Hi & Hc & Ho & Hs). destruct next as [[chunk out]|] eqn:En; unfold next in En.
  2:{ destruct (_ || _); [exists st, b, []; split_and!; [done|by apply pumped_refl|done|apply prefix_nil]|].
      destruct (end_pumped s_close st id Hst) as (st1 & Heq & Hp). unfold LocalStack_close. rewrite Heq.
      eexists _, _, []. split_and!; [done|done| |apply prefix_nil]. split_and!; cbn; [done|done|lia|constructor]. }
  assert ((length out + 1 <= length (br_out b) + (if br_pending_out b then 1 else 0))%nat /\ (length out <= DEPTH)%nat /\
    Forall (fun chunk => (length chunk <= CHUNK)%nat) out /\ held_out b = chunk ++ concat out) as (Hlen & Hd & Hall & Hheld).
  { unfold held_out. destruct (br_pending_out b) as [c|] eqn:Ep; [injection En as -> <-; by split_and!|].
    destruct (br_out b) as [|c o]; [done|]. injection En as -> ->. apply Forall_cons in Hs as [_ Hs]. cbn in *. split_and!; [lia|lia|done|done]. }
  assert (forall out_ pending finished, (length out_ <= DEPTH)%nat -> Forall (fun chunk => (length chunk <= CHUNK)%nat) out_ ->
    bridge_bounded (with_out b out_ (br_outbound b) pending finished)) as Hwith by (intros; by split_and!).
  destruct (send_pumped st id chunk Hst) as [Hp Hnp]. destruct (LocalStack_send st id chunk) as [r st1]. cbn [fst snd] in *.
  rewrite Hheld. destruct r as [written|e|]; [|destruct e; eexists _, _, []; (split_and!; [done|done|by apply Hwith|apply prefix_nil])|done].
  destruct (written <? length chunk)%nat eqn:Elt.
  - eexists _, _, _. split_and!; [done|done|by apply Hwith|]. exists (drop written chunk ++ concat out). by rewrite app_assoc, take_drop.
  - destruct (IH st1 (with_out b out (br_outbound b) None (br_finished b))) as (st' & b' & more & -> & Hp' & Hb' & Hpre);
      [apply Hp|by apply Hwith|cbn; lia|]. cbn [mbind Res_bind].
    eexists _, _, _. split_and!; [done|by eapply pumped_trans|done|]. unfold held_out in Hpre. cbn in Hpre. by apply prefix_app.
Qed.

Lemma pump_ok st id b :
  tables_ok [] st -> bridge_bounded b ->
  exists st' b' came gave, pump st id b = Ok (st', b', came, gave) /\ pumped [id] st st' /\ bridge_bounded b'.
Proof.
  intros Hst Hb. unfold pump. destruct (pump_peer_ok (Datatypes.S DEPTH) id st b Hst Hb) as (st1 & b1 & came & -> & Hp1 & Hb1 & _ & _); [lia|].
  cbn [mbind Res_bind].
  destruct (pump_task_ok (Datatypes.S (Datatypes.S (length (br_out b1)))) id st1 b1 (pu_tables _ _ _ Hp1) Hb1) as (st2 & b2 & gave & -> & Hp2 & Hb2 & _);
    [destruct (br_pending_out b1); lia|]. cbn [mbind Res_bind].
  eexists _, _, _, _. split_and!; [done|by eapply pumped_trans|done].
Qed.

(** ** Passes *)

Definition ids_of (ts : list Terminated) : list nat := t_id <$> ts.
Definition gone_of st : list nat := e_id <$> ls_closed st.

(** The connection a handle stands for. *)
Definition stands_for st (t : Terminated) : Prop := ls_established st !! t_id t = Some (t_client t, t_server t).

Definition conns_bounded (conns : Conns) : Prop := map_Forall (fun _ tb => bridge_bounded tb.2) conns.

(** Between passes: nothing is left to report, and the connections are those with a stream
    and those still to be offered. *)
Record in_step st (conns : Conns) : Prop := {
  is_tables : tables_ok [] st;
  is_closed : ls_closed st = [];
  is_streams : forall h t b, conns !! h = Some (t, b) -> t_id t = h /\ stands_for st t;
  is_accepted : forall t, t ∈ ls_accepted st -> stands_for st t /\ conns !! t_id t = None;
  is_once : NoDup (ids_of (ls_accepted st));
  is_all : forall h, is_Some (ls_established st !! h) -> is_Some (conns !! h) \/ h ∈ ids_of (ls_accepted st);
  is_bounded : conns_bounded conns;
}.

(** After the first poll of a pass: what ended is queued and no longer a connection. *)
Record polled st (conns : Conns) : Prop := {
  po_tables : tables_ok [] st;
  po_streams : forall h t b, conns !! h = Some (t, b) -> t_id t = h /\ (h ∉ gone_of st -> stands_for st t);
  po_accepted : forall t, t ∈ ls_accepted st -> (t_id t ∉ gone_of st -> stands_for st t) /\ conns !! t_id t = None;
  po_once : NoDup (ids_of (ls_accepted st));
  po_gone : forall h, h ∈ gone_of st -> ls_established st !! h = None;
  po_all : forall h, is_Some (ls_established st !! h) ->
    is_Some (conns !! h) \/ h ∈ ids_of (ls_accepted st) \/ exists s, ls_sockets st !! h = Some s /\ s_state s = S_Closed /\ conns !! h = None;
  po_bounded : conns_bounded conns;
}.

Lemma listener_apart st h : tables_ok [] st -> h ∈ handles st -> ls_established st !! h = None.
Proof. intros Hst Hh. apply (tk_disjoint _ _ Hst). by rewrite app_nil_r. Qed.

Lemma gone_ids (f : nat -> bool) (gone : list nat) : e_id <$> ((fun h => mkEnded h (f h)) <$> gone) = gone.
Proof. induction gone as [|h gone IH]; [done|]. cbn. by rewrite IH. Qed.

Lemma poll_first st conns st' new gone :
  in_step st conns -> tables_ok [] st' -> poll_effect st st' new gone -> polled st' conns.
Proof.
  intros [Ht Hc Hs Ha Hn Hall Hb] Ht' [? ? ? Hacc Hcl Hids Hfrom Hnew Hng Hgone Hold ?].
  assert (gone_of st' = gone) as Hg by (unfold gone_of; rewrite Hcl, Hc; cbn; apply gone_ids).
  assert (forall h x, ls_established st !! h = Some x -> h ∉ t_id <$> new) as Hapart.
  { intros h x Hx (t & -> & Hin)%list_elem_of_fmap. by rewrite (listener_apart st _ Ht (Hfrom t Hin)) in Hx. }
  assert (forall t, stands_for st t -> t_id t ∉ gone -> stands_for st' t) as Hkeep.
  { intros t Hst Hni. unfold stands_for in *. rewrite Hold; [done| |done]. by eapply Hapart. }
  split; rewrite ?Hg; [done| | | | | |done].
  - intros h t b Hcb. destruct (Hs h t b Hcb) as [<- Hst]. split; [done|]. by apply Hkeep.
  - intros t Hin. rewrite Hacc in Hin. apply elem_of_app in Hin as [Hin|Hin].
    + destruct (Ha t Hin) as [Hst Hno]. split; [by apply Hkeep|done].
    + split; [intros _; by apply Hnew|]. destruct (conns !! t_id t) as [[t' b]|] eqn:E; [|done]. destruct (Hs _ _ _ E) as [Heq Hst].
      unfold stands_for in Hst. rewrite Heq, (listener_apart st _ Ht (Hfrom t Hin)) in Hst. done.
  - rewrite Hacc. unfold ids_of in *. rewrite fmap_app. apply NoDup_app. split_and!; [done| |done].
    intros h (t & -> & Hin)%list_elem_of_fmap. destruct (Ha t Hin) as [Hst _]. by eapply Hapart.
  - intros h Hin. by apply Hgone.
  - intros h He. rewrite Hacc. unfold ids_of in *. rewrite fmap_app. destruct (decide (h ∈ t_id <$> new)) as [Hin|Hni]; [right; left; apply elem_of_app; by right|].
    destruct (decide (h ∈ gone)) as [Hg'|Hg']; [by rewrite (proj2 (Hgone h Hg')) in He; destruct He|].
    rewrite Hold in He by done. destruct (Hall h He) as [?|?]; [by left|right; left; apply elem_of_app; by left].
Qed.

Lemma abort_closes st id st' :
  tables_ok [] st -> is_Some (ls_established st !! id) -> end_socket s_abort st id = Ok st' ->
  exists s, ls_sockets st' !! id = Some s /\ s_state s = S_Closed.
Proof.
  intros Hst He. unfold end_socket, socket_mut. rewrite bool_decide_eq_true_2 by done.
  assert (is_Some (ls_sockets st !! id)) as [s Hs] by (apply (tk_dom _ _ Hst); by right). unfold get_socket. rewrite Hs. cbn [or_panic].
  intros Heq. assert (forall x y : LocalStack S I, (Ok x : Res StreamError _) = Ok y -> x = y) as Hinj by congruence.
  apply Hinj in Heq. rewrite <- Heq. cbn. rewrite lookup_insert_eq. eexists. split; [done|apply s_abort_closes].
Qed.

(** Offering the accepted connections one by one. *)
Lemma accept_loop_ok fuel : forall takes st conns,
  polled st conns -> (length (ls_accepted st) < fuel)%nat ->
  exists st' conns', accept_loop fuel takes st conns = Ok (st', conns') /\ polled st' conns' /\ ls_accepted st' = [] /\
    ls_established st' = ls_established st /\ ls_closed st' = ls_closed st.
Proof.
  induction fuel as [|fuel IH]; intros takes st conns Hp Hf; [lia|]. cbn [accept_loop]. unfold LocalStack_poll_accept.
  destruct (ls_accepted st) as [|t accepted] eqn:Ea; [by exists st, conns|]. destruct Hp as [Ht Hs Ha Hn Hg Hall Hb]. rewrite Ea in *.
  set (st1 := with_tables st _ _ _ _ _ _). cbn in Hf. unfold ids_of in Hn. cbn in Hn. apply NoDup_cons in Hn as [Hnt Hn].
  assert (tables_ok [] st1) as Ht1 by (by eapply tables_frame).
  destruct (Ha t ltac:(by left)) as [Hst Hno].
  destruct (default false (head takes)).
  - destruct (IH (tail takes) st1 (<[t_id t := (t, pair)]> conns)) as (st' & conns' & -> & Hp' & ? & ? & ?); [|cbn; lia|by exists st', conns'].
    split; cbn; try done.
    + intros h t' b. destruct (decide (h = t_id t)) as [->|Hne]; [rewrite lookup_insert_eq; by intros [= <- <-]|]. rewrite lookup_insert_ne by done. apply Hs.
    + intros t' Hin. destruct (Ha t' ltac:(by right)) as [? ?]. split; [done|]. rewrite lookup_insert_ne; [done|]. intros Heq. apply Hnt. rewrite Heq.
      by apply list_elem_of_fmap_2.
    + intros h He. destruct (decide (h = t_id t)) as [->|Hne]; [left; rewrite lookup_insert_eq; by eexists|]. rewrite lookup_insert_ne by done.
      destruct (Hall h He) as [?|[Hin|?]]; [by left| |by right; right]. unfold ids_of in Hin. cbn in Hin. apply elem_of_cons in Hin as [?|?]; [done|]. right; by left.
    + apply map_Forall_insert_2; [exact pair_bounded|done].
  - destruct (end_pumped s_abort st1 (t_id t) Ht1) as (st2 & Heq & [Ht2 He2 Ha2 Hc2 Ho2]). unfold LocalStack_abort. rewrite Heq.
    assert (gone_of st2 = gone_of st) as Hg2 by (unfold gone_of; by rewrite Hc2).
    destruct (IH (tail takes) st2 conns) as (st' & conns' & -> & Hp' & ? & E3 & E4); [|rewrite Ha2; cbn; lia|exists st', conns'; by rewrite E3, E4, He2, Hc2].
    split; unfold stands_for; rewrite ?Hg2, ?He2, ?Ha2; cbn; try done.
    + intros t' Hin. apply Ha. by right.
    + intros h He. destruct (decide (h = t_id t)) as [->|Hne].
      * right; right. destruct (abort_closes st1 _ _ Ht1 He Heq) as (s & ? & ?). by exists s.
      * destruct (Hall h He) as [?|[Hin|(s & Hsk & Hcl & Hcn)]]; [by left| |right; right; exists s; by rewrite Ho2 by set_solver].
        unfold ids_of in Hin. cbn in Hin. apply elem_of_cons in Hin as [?|?]; [done|right; by left].
Qed.

Lemma pumped_polled id st st' conns t b b' :
  polled st conns -> pumped [id] st st' -> conns !! id = Some (t, b) -> bridge_bounded b' -> polled st' (<[id := (t, b')]> conns).
Proof.
  intros [Ht Hs Ha Hn Hg Hall Hb] [Ht' He Hac Hcl Ho] Hid Hbb. assert (gone_of st' = gone_of st) as Hgo by (unfold gone_of; by rewrite Hcl).
  split; unfold stands_for; rewrite ?Hgo, ?He, ?Hac; try done.
  - intros h t' b0. destruct (decide (h = id)) as [->|Hne]; [rewrite lookup_insert_eq; intros [= <- <-]; by apply (Hs _ _ b)|].
    rewrite lookup_insert_ne by done. apply Hs.
  - intros t' Hin. destruct (Ha t' Hin) as [? Hno]. split; [done|]. rewrite lookup_insert_ne; [done|]. intros ->. congruence.
  - intros h Hh. rewrite lookup_insert_is_Some'. destruct (Hall h Hh) as [?|[?|(s & Hsk & Hc & Hno)]]; [left; by right|right; by left|].
    right; right. assert (h <> id) as Hne by congruence. exists s. rewrite Ho by set_solver. by rewrite lookup_insert_ne by done.
  - apply map_Forall_insert_2; [done|done].
Qed.

Lemma pump_all_ok ids : forall st conns,
  polled st conns ->
  exists st' conns', pump_all ids st conns = Ok (st', conns') /\ polled st' conns' /\ ls_accepted st' = ls_accepted st /\ ls_closed st' = ls_closed st.
Proof.
  induction ids as [|id ids IH]; intros st conns Hp; cbn [pump_all]; [by exists st, conns|].
  destruct (conns !! id) as [[t b]|] eqn:Eid; [|by apply IH].
  destruct (pump_ok st id b (po_tables _ _ Hp) (po_bounded _ _ Hp _ _ Eid)) as (st1 & b1 & came & gave & -> & Hpu & Hb1). cbn [mbind Res_bind].
  destruct (IH st1 (<[id := (t, b1)]> conns)) as (st' & conns' & -> & Hp' & Ha' & Hc'); [by eapply pumped_polled|].
  exists st', conns'. rewrite Ha', Hc', (pu_accepted _ _ _ Hpu), (pu_closed _ _ _ Hpu). by split_and!.
Qed.

(** Taking the ended streams out of the table. *)
Definition without (gone : list nat) (conns : Conns) : Conns := foldl (fun conns h => delete h conns) conns gone.

Lemma without_lookup gone : forall (conns : Conns) h, without gone conns !! h = if bool_decide (h ∈ gone) then None else conns !! h.
Proof.
  unfold without. induction gone as [|g gone IH]; intros conns h; cbn [foldl]; [by rewrite bool_decide_eq_false_2 by set_solver|].
  rewrite IH. case_bool_decide as Hin; [by rewrite bool_decide_eq_true_2 by set_solver|].
  destruct (decide (h = g)) as [->|Hne]; [by rewrite lookup_delete_eq, bool_decide_eq_true_2 by set_solver|].
  by rewrite lookup_delete_ne, bool_decide_eq_false_2 by set_solver.
Qed.

Definition drained st : LocalStack S I :=
  with_tables st (ls_sockets st) (ls_listeners st) (ls_established st) (ls_closing st) (ls_accepted st) [].

Lemma closed_loop_spec fuel : forall st conns, (length (ls_closed st) < fuel)%nat ->
  (closed_loop fuel st conns).1 = (drained st, without (gone_of st) conns).
Proof.
  induction fuel as [|fuel IH]; intros st conns Hf; [lia|]. cbn [closed_loop]. unfold LocalStack_poll_closed, gone_of.
  destruct (ls_closed st) as [|e closed] eqn:Ec; [cbn; by destruct st; cbn in *; subst|]. cbn [fmap list_fmap].
  set (st1 := with_tables st _ _ _ _ _ _). cbn in Hf. specialize (IH st1 (delete (e_id e) conns)). cbn in IH. specialize (IH ltac:(lia)).
  destruct (closed_loop fuel st1 _) as [[st' conns'] more]. cbn in *. injection IH as -> ->. done.
Qed.

Lemma transmit_loop_frame fuel : forall reactor st, exists d sent, let '(all, st', sent') := transmit_loop fuel reactor st in
  st' = with_device st d /\ sent' = sent /\ (reactor = None -> all = true).
Proof.
  induction fuel as [|fuel IH]; intros reactor st; cbn [transmit_loop]; [exists (ls_device st), []; by destruct st|].
  unfold LocalStack_poll_transmit. destruct (qd_outbound (ls_device st)) as [|packet outbound]; [exists (ls_device st), []; by destruct st|].
  set (st1 := with_device st _). destruct reactor as [[|n]|]; [by eexists _, []| |].
  - destruct (IH (Some n) st1) as (d & sent & Ht). cbn [fmap option_fmap option_map pred]. destruct (transmit_loop fuel _ st1) as [[all st'] sent'].
    destruct Ht as (-> & -> & _). by eexists _, _.
  - destruct (IH None st1) as (d & sent & Ht). cbn [fmap option_fmap option_map]. destruct (transmit_loop fuel _ st1) as [[all st'] sent'].
    destruct Ht as (-> & -> & Hall). eexists _, _. split_and!; [done|done|by intros _; apply Hall].
Qed.

(** The second poll and the reports bring table and connections in step again. *)
Lemma poll_second st conns st' new gone d :
  polled st conns -> ls_accepted st = [] -> tables_ok [] st' -> poll_effect st st' new gone ->
  in_step (drained (with_device st' d)) (without (gone_of st') conns).
Proof.
  intros [Ht Hs _ _ Hg Hall Hb] Hno Ht' [? ? ? Hacc Hcl Hids Hfrom Hnew Hng Hgone Hold Hclosing].
  assert (gone_of st' = gone_of st ++ gone) as Hgo by (unfold gone_of; rewrite Hcl, fmap_app; f_equal; apply gone_ids).
  rewrite Hno in Hacc. cbn in Hacc.
  assert (forall h x, ls_established st !! h = Some x -> h ∉ t_id <$> new) as Hapart.
  { intros h x Hx (t & -> & Hin)%list_elem_of_fmap. by rewrite (listener_apart st _ Ht (Hfrom t Hin)) in Hx. }
  split; cbn; unfold stands_for, ids_of; cbn; rewrite ?Hacc, ?Hgo; try done.
  - by eapply tables_frame.
  - intros h t b. rewrite without_lookup. case_bool_decide as Hin; [done|]. intros Hcb. rewrite not_elem_of_app in Hin. destruct Hin as [Hn1 Hn2].
    destruct (Hs h t b Hcb) as [<- Hst]. split; [done|]. specialize (Hst Hn1). unfold stands_for in Hst. rewrite Hold; [done| |done]. by eapply Hapart.
  - intros t Hin. split; [by apply Hnew|]. rewrite without_lookup. case_bool_decide as Hin'; [done|]. rewrite not_elem_of_app in Hin'. destruct Hin' as [Hn1 _].
    destruct (conns !! t_id t) as [[t' b]|] eqn:E; [|done]. destruct (Hs _ _ _ E) as [Heq Hst]. specialize (Hst Hn1). unfold stands_for in Hst.
    rewrite Heq, (listener_apart st _ Ht (Hfrom t Hin)) in Hst. done.
  - intros h He. destruct (decide (h ∈ t_id <$> new)) as [|Hni]; [by right|]. left.
    destruct (decide (h ∈ gone)) as [Hg'|Hg']; [by rewrite (proj2 (Hgone h Hg')) in He; destruct He|]. rewrite Hold in He by done.
    assert (h ∉ gone_of st) as Hn1 by (intros Hin; rewrite Hg in He by done; by destruct He).
    rewrite without_lookup, bool_decide_eq_false_2 by (rewrite not_elem_of_app; done).
    destruct (Hall h He) as [?|[Hin|(s & Hsk & Hc & _)]]; [done|rewrite Hno in Hin; by apply not_elem_of_nil in Hin|].
    by apply (Hclosing h s He Hsk) in Hc.
  - intros h tb. rewrite without_lookup. case_bool_decide; [done|]. apply Hb.
Qed.

Lemma service_front_ok st conns now takes :
  in_step st conns -> exists st' conns', service_front st conns now takes = Ok (st', conns') /\ polled st' conns' /\ ls_accepted st' = [].
Proof.
  intros Hin. unfold service_front. destruct (poll_ok (E:=Empty_set) st now (is_tables _ _ Hin)) as (st1 & new & gone & -> & Ht1 & Hpe & _).
  cbn [mbind Res_bind]. pose proof (poll_first _ _ _ _ _ Hin Ht1 Hpe) as Hp1.
  destruct (accept_loop_ok (Datatypes.S (length (ls_accepted st1))) takes st1 conns Hp1) as (st2 & conns2 & -> & Hp2 & Ha2 & _ & _); [lia|].
  by exists st2, conns2.
Qed.

Lemma terminator_service_ok st conns now takes now' reactor :
  in_step st conns ->
  exists st' conns' ended sent, terminator_service st conns now takes now' reactor = Ok (st', conns', ended, sent) /\
    (reactor = None -> in_step st' conns').
Proof.
  intros Hin. unfold terminator_service. destruct (service_front_ok st conns now takes Hin) as (st1 & conns1 & -> & Hp1 & Ha1). cbn [mbind Res_bind].
  destruct (pump_all_ok (map_to_list conns1).*1 st1 conns1 Hp1) as (st2 & conns2 & -> & Hp2 & Ha2 & _). cbn [mbind Res_bind]. rewrite Ha1 in Ha2.
  unfold service_back. destruct (poll_ok (E:=Empty_set) st2 now' (po_tables _ _ Hp2)) as (st3 & new & gone & -> & Ht3 & Hpe & _). cbn [mbind Res_bind].
  destruct (transmit_loop_frame (length (qd_outbound (ls_device st3))) reactor st3) as (d & sent & Htr).
  destruct (transmit_loop _ reactor st3) as [[all st4] sent']. destruct Htr as (-> & -> & Hall).
  destruct all; [|eexists _, _, _, _; split; [done|]; intros Hr; by specialize (Hall Hr)].
  pose proof (closed_loop_spec (Datatypes.S (length (ls_closed (with_device st3 d)))) (with_device st3 d) conns2 ltac:(lia)) as Hcl.
  destruct (closed_loop _ (with_device st3 d) conns2) as [[st5 conns5] ended]. cbn [fst] in Hcl.
  assert (st5 = drained (with_device st3 d) /\ conns5 = without (gone_of st3) conns2) as [-> ->] by (split; [exact (f_equal fst Hcl)|exact (f_equal snd Hcl)]).
  eexists _, _, _, _. split; [done|]. intros _. by eapply poll_second.
Qed.

(** ** Runs *)

(** A pass with the reactor there, a packet from it, whatever the task of a stream does, and
    other holders of the pool. *)
Inductive term_step : LocalStack S I * Conns -> LocalStack S I * Conns -> Prop :=
| term_pass st conns now takes now' st' conns' ended sent :
    terminator_service st conns now takes now' None = Ok (st', conns', ended, sent) -> term_step (st, conns) (st', conns')
| term_push st conns packet st' : @LocalStack_push S I _ Empty_set st packet = Ok st' -> term_step (st, conns) (st', conns)
| term_task st conns h t b b' : conns !! h = Some (t, b) -> task_acts b b' -> term_step (st, conns) (st, <[h := (t, b')]> conns)
| term_pool st conns d : term_step (st, conns) (with_device st d, conns).

Lemma in_step_frame st st' conns :
  in_step st conns -> tables_ok [] st' -> ls_established st' = ls_established st -> ls_accepted st' = ls_accepted st ->
  ls_closed st' = ls_closed st -> in_step st' conns.
Proof. intros [Ht Hc Hs Ha Hn Hall Hb] Ht' E1 E2 E3. split; unfold stands_for in *; rewrite ?E1, ?E2, ?E3; done. Qed.

Lemma term_step_ok s s' : term_step s s' -> in_step s.1 s.2 -> in_step s'.1 s'.2.
Proof.
  intros Hs Hin. destruct Hs as [st conns now takes now' st' conns' ended sent Hp|st conns packet st' Hp|st conns h t b b' Hcb Ha|st conns d]; cbn [fst snd] in *.
  - destruct (terminator_service_ok st conns now takes now' None Hin) as (st1 & conns1 & ended1 & sent1 & Heq & Hok). rewrite Heq in Hp.
    assert (st1 = st' /\ conns1 = conns') as [-> ->] by (split; congruence). by apply Hok.
  - destruct (LocalStack_push_ok (E:=Empty_set) st packet (is_tables _ _ Hin)) as (st1 & Heq & Ht1 & Hss). rewrite Heq in Hp.
    assert (enqueue st1 packet = st') as <- by congruence. destruct Hss. by eapply in_step_frame; [|eapply tables_frame| | |].
  - destruct Hin as [Ht Hc Hs Hac Hn Hall Hb]. split; try done.
    + intros h' t' b0. destruct (decide (h' = h)) as [->|Hne]; [rewrite lookup_insert_eq; intros [= <- <-]; by apply (Hs _ _ b)|].
      rewrite lookup_insert_ne by done. apply Hs.
    + intros t' Hin. destruct (Hac t' Hin) as [? Hno]. split; [done|]. rewrite lookup_insert_ne; [done|]. intros ->. congruence.
    + intros h' He. rewrite lookup_insert_is_Some'. destruct (Hall h' He); [left; by right|by right].
    + apply map_Forall_insert_2; [|done]. eapply task_acts_bounded; [done|]. by eapply (Hb h (t, b)).
  - eapply in_step_frame; [done|eapply tables_frame; [apply Hin|..]|..]; done.
Qed.

Lemma term_run_ok s s' : rtc term_step s s' -> in_step s.1 s.2 -> in_step s'.1 s'.2.
Proof. intros Hs. induction Hs as [|x y z Hxy _ IH]; [done|]. intros Hx. apply IH. by eapply term_step_ok. Qed.

Lemma new_in_step slice capacity others mtu ports limits pool base iface st :
  accounts slice capacity pool others -> LocalStack_new mtu ports limits pool base iface = Ok st -> in_step st ∅.
Proof.
  intros Hp Hnew. pose proof (LocalStack_new_ok _ _ _ _ _ _ _ _ _ _ Hp Hnew) as Hok.
  assert (ls_established st = ∅ /\ ls_accepted st = [] /\ ls_closed st = []) as (He & Ha & Hc).
  { unfold LocalStack_new in Hnew. destruct (_ <? _)%nat; [done|]. set (st0 := mkStack _ _ _ _ _ _ _ _ _ _ _ _ _) in Hnew.
    assert (tables_ok [] st0) as Ht0 by (by apply fresh_tables).
    destruct (replenish_ok (E:=TerminationError) st0 Ht0) as (st1 & Heq & _ & Hss). rewrite Heq in Hnew.
    assert (st1 = st) as -> by congruence. destruct Hss. split_and!; done. }
  split; rewrite ?He, ?Ha, ?Hc; try done; try apply Hok; try set_solver.
  - constructor.
  - intros h. rewrite lookup_empty. by intros [].
Qed.

(** C16: smoltcp reuses the handles of sockets that are gone, and the table of streams is
    keyed by handle.  On any run of passes, packets, task steps and pool use from a new
    terminator: a pass always returns; between passes each stream in the table belongs to
    the live connection it was published as, with its client and server, and every live
    connection has its stream or waits to be offered; and when the pumps of a pass run, a
    handle in the table stands for no connection or for that same one, so no stream is fed
    from or writes to another's connection.  Every queue of every stream keeps its bounds. *)
Theorem terminator_in_step slice capacity others mtu ports limits pool base iface st0 st conns :
  accounts slice capacity pool others -> LocalStack_new mtu ports limits pool base iface = Ok st0 ->
  rtc term_step (st0, ∅) (st, conns) ->
  (forall now takes now' reactor, exists st' conns' ended sent, terminator_service st conns now takes now' reactor = Ok (st', conns', ended, sent)) /\
  (forall h t b, conns !! h = Some (t, b) ->
     t_id t = h /\ ls_established st !! h = Some (t_client t, t_server t) /\ (length (br_in b) <= DEPTH)%nat /\ (length (br_out b) <= DEPTH)%nat) /\
  (forall h, is_Some (ls_established st !! h) -> is_Some (conns !! h) \/ exists t, t ∈ ls_accepted st /\ t_id t = h) /\
  (forall now takes st1 conns1, service_front st conns now takes = Ok (st1, conns1) ->
     forall h t b, conns1 !! h = Some (t, b) ->
       t_id t = h /\ (ls_established st1 !! h = None \/ ls_established st1 !! h = Some (t_client t, t_server t))).
Proof.
  intros Hp Hnew Hrun. pose proof (term_run_ok _ _ Hrun (new_in_step _ _ _ _ _ _ _ _ _ _ Hp Hnew)) as Hin. cbn [fst snd] in Hin. split_and!.
  - intros now takes now' reactor. destruct (terminator_service_ok st conns now takes now' reactor Hin) as (st' & conns' & ended & sent & Heq & _). by exists st', conns', ended, sent.
  - intros h t b Hcb. destruct (is_streams _ _ Hin h t b Hcb) as [<- Hst]. destruct (is_bounded _ _ Hin _ _ Hcb) as (? & _ & ? & _). done.
  - intros h He. destruct (is_all _ _ Hin h He) as [?|(t & -> & Ht)%list_elem_of_fmap]; [by left|]. right. by exists t.
  - intros now takes st1 conns1 Hf. destruct (service_front_ok st conns now takes Hin) as (st2 & conns2 & Heq & Hp2 & _). rewrite Heq in Hf.
    assert (st2 = st1 /\ conns2 = conns1) as [-> ->] by (split; congruence). intros h t b Hcb. destruct (po_streams _ _ Hp2 h t b Hcb) as [<- Hst].
    split; [done|]. destruct (decide (t_id t ∈ gone_of st1)) as [Hg|Hg]; [left; by apply (po_gone _ _ Hp2)|right; by apply Hst].
Qed.
End TerminateTheory.

Lemma terminator_in_step_witness :
  exists st0 st conns ended sent t b,
    LocalStack_new (mkMtu 1500) [443] (mkTerminationLimits 3 1 64) (BufferPool_new 2048 4) 0 one_opens = Ok st0 /\
    terminator_service st0 ∅ 0 [true] 0 None = Ok (st, conns, ended, sent) /\ conns !! 0%nat = Some (t, b) /\ br_in b = [[7]] /\
    ls_established st !! 0%nat = Some (t_client t, t_server t) /\ (length (br_in b) <= DEPTH)%nat.
Proof.
  assert (exists st0, LocalStack_new (mkMtu 1500) [443] (mkTerminationLimits 3 1 64) (BufferPool_new 2048 4) 0 one_opens = Ok st0) as [st0 H0].
  { eexists. vm_compute. reflexivity. }
  assert (accounts 2048 4 (BufferPool_new 2048 4) []) as Hp.
  { split; cbn; try done; try lia; constructor. }
  assert (exists st conns ended sent t b, terminator_service st0 ∅ 0 [true] 0 None = Ok (st, conns, ended, sent) /\
    conns !! 0%nat = Some (t, b) /\ br_in b = [[7]]) as (st & conns & ended & sent & t & b & H1 & Hc & Hb).
  { vm_compute in H0. injection H0 as <-. do 6 eexists. split; [vm_compute; reflexivity|]. split; vm_compute; reflexivity. }
  exists st0, st, conns, ended, sent, t, b. split; [exact H0|]. split; [exact H1|]. split; [exact Hc|]. split; [exact Hb|].
  assert (rtc (@term_step Sock Script _ _) (st0, ∅) (st, conns)) as Hrun by (apply rtc_once; econstructor; exact H1).
  destruct (terminator_in_step _ _ _ _ _ _ _ _ _ _ _ _ Hp H0 Hrun) as (_ & Hs & _).
  destruct (Hs _ _ _ Hc) as (_ & He & Hl & _). split; [exact He|exact Hl].
Defined.

(** ** A reset that reads as an end *)

(** A connection is accepted; in the next pass's first poll the peer has reset it. *)
Definition reset_script : Script :=
  [Some [(0%nat, mkSock S_Established [] 8 (Some peer_a) (Some peer_b))]; None; None;
   Some [(0%nat, mkSock S_Closed [] 8 None None)]; None; None].

Definition first_pass : Res Empty_set (LocalStack Sock Script * Conns) :=
  match LocalStack_new (mkMtu 1500) [443] (mkTerminationLimits 3 1 64) (BufferPool_new 2048 4) 0 reset_script with
  | Ok st => '(st, conns, _, _) ← terminator_service st ∅ 0 [true] 0 None; Ok (st, conns)
  | _ => Panic
  end.

(** The stream between the pumps of the second pass and its reports. *)
Definition between : Res Empty_set (option (Poll bytes)) :=
  '(st, conns) ← first_pass;
  '(st, conns) ← service_front st conns 0 [];
  '(st, conns) ← pump_all (map_to_list conns).*1 st conns;
  Ok ((fun tb : Terminated * Bridge => (BridgedStream_poll_read tb.2 16).1) <$> (conns !! 0%nat)).

(** The stream after that pass. *)
Definition afterwards : Res Empty_set (list (Poll bytes)) :=
  '(st, conns) ← first_pass;
  '(_, _, ended, _) ← (terminator_service st conns 0 [] 0 None : Res Empty_set _);
  Ok ((fun tb : Terminated * Bridge => (BridgedStream_poll_read tb.2 16).1) <$> (ended : list (Terminated * Bridge))).

(** The first poll reaps the connection, so the pump finds its handle unknown and closes the
    stream as if the peer had finished: a task that reads before the report of the reset
    sees a clean end. *)
Example reset_reads_as_end : between = Ok (Some (Ready [])) /\ afterwards = Ok [Failed ConnectionReset].
Proof. split; vm_compute; reflexivity. Qed.
