(* ===== verification/Idle.v ===== *)
(** Waiting: the budgets of [src/deadline.rs], and the copy of [src/idle.rs] that ends
    when neither side has moved a byte for a while.

    Work that takes time is [Timed]: when it ends and with what, or never. *)

From S2P Require Import Prelude Egress.
Open Scope Z_scope.

(** ** Budgets *)

Abbreviation Timed E A := (option (Duration * Res E A)).

(** [tokio::time::timeout]: the work is polled before the timer; the answer comes with
    the time it comes at. *)
Definition timeout {E A} (limit : Duration) (t : Timed E A) : Duration * option (Res E A) :=
  match t with
  | Some (after, r) => if after <=? limit then (after, Some r) else (limit, None)
  | None => (limit, None)
  end.

Inductive Wait := TcpConnect | TlsHandshake | ProxyDial | ClientHandshake.

Definition Wait_budget (wait : Wait) : Duration :=
  from_secs (match wait with TcpConnect => 5 | TlsHandshake | ClientHandshake => 10 | ProxyDial => 15 end).

(** [within], where an error of the caller's type is made from an I/O error. *)
Definition within {E A} (of_io : ErrorKind -> E) (wait : Wait) (work : Timed E A) : Duration * Res E A :=
  match timeout (Wait_budget wait) work with
  | (after, Some finished) => (after, finished)
  | (after, None) => (after, Err (of_io TimedOut))
  end.

(** A wait ends within its budget, with the work's own outcome when that came in time. *)
Lemma within_budget {E A} of_io wait (work : Timed E A) :
  (forall after r, work = Some (after, r) -> 0 <= after) ->
  0 <= (within of_io wait work).1 <= Wait_budget wait /\
  (within of_io wait work).2 =
    match work with
    | Some (after, r) => if after <=? Wait_budget wait then r else Err (of_io TimedOut)
    | None => Err (of_io TimedOut)
    end.
Proof.
  intros Hw. assert (0 <= Wait_budget wait) as Hb by (destruct wait; unfold Wait_budget, from_secs, NANOS; lia).
  unfold within, timeout. destruct work as [[after r]|]; [|done]. specialize (Hw _ _ eq_refl).
  destruct (after <=? Wait_budget wait) eqn:Hle; reflect; cbn; split; (lia || done).
Qed.

(** A dial through an egress has time for its TCP connection and its TLS handshake. *)
Lemma whole_dial_allows_parts : Wait_budget TcpConnect + Wait_budget TlsHandshake <= Wait_budget ProxyDial.
Proof. done. Qed.

(** ** Idle copies *)

Definition TCP_IDLE : Duration := from_secs (2 * 3600 + 4 * 60).

Definition MILLI : Duration := 1000000.

(** The stamp a byte leaves at [now]: whole milliseconds since [base]. *)
Definition touch (base now : Instant) : Z :=
  let millis := (now - base) / MILLI in
  if millis <=? U64_MAX then millis else U64_MAX.

Inductive Ended := Going | ClosedBoth | IdledOut.

(** The loop of [copy_until_idle]: the clock, the stamp both streams share, the stamp the
    timer was armed with, and when a byte last crossed. *)
Record Copy := mkCopy { cp_now : Instant; cp_touched : Z; cp_armed : Z; cp_byte : Instant; cp_ended : Ended }.

Definition Copy_new (base : Instant) : Copy := mkCopy base 0 0 base Going.

(** When the timer armed with a stamp is due. *)
Definition due (base : Instant) (idle : Duration) (stamp : Z) : Instant := base + stamp * MILLI + idle.

(** The timer's branch of the [select!]. *)
Definition timer_fires (now : Instant) (c : Copy) : Copy :=
  if cp_touched c =? cp_armed c then mkCopy now (cp_touched c) (cp_armed c) (cp_byte c) IdledOut
  else mkCopy now (cp_touched c) (cp_touched c) (cp_byte c) Going.

Definition byte_moves (base now : Instant) (c : Copy) : Copy := mkCopy now (touch base now) (cp_armed c) now (cp_ended c).

Section IdleCopy.
Variables (base : Instant) (idle : Duration) (late : Duration).

(** Steps under a clock that only advances, with a timer that fires at most [late] after it
    is due, within the range of a [u64] of milliseconds. *)
Inductive copy_step : Copy -> Copy -> Prop :=
| step_byte c now :
    cp_ended c = Going -> cp_now c <= now <= due base idle (cp_armed c) + late -> (now - base) / MILLI <= U64_MAX ->
    copy_step c (byte_moves base now c)
| step_timer c now :
    cp_ended c = Going -> cp_now c <= now -> due base idle (cp_armed c) <= now <= due base idle (cp_armed c) + late ->
    copy_step c (timer_fires now c)
| step_closed c now :
    cp_ended c = Going -> cp_now c <= now <= due base idle (cp_armed c) + late ->
    copy_step c (mkCopy now (cp_touched c) (cp_armed c) (cp_byte c) ClosedBoth).

Record copy_ok (c : Copy) : Prop := {
  co_byte : base <= cp_byte c <= cp_now c;
  co_stamp : cp_touched c * MILLI <= cp_byte c - base < cp_touched c * MILLI + MILLI;
  co_armed : 0 <= cp_armed c <= cp_touched c;
  co_now : cp_now c <= due base idle (cp_armed c) + late;
  co_idled : cp_ended c = IdledOut -> cp_touched c = cp_armed c /\ due base idle (cp_armed c) <= cp_now c;
}.

Hypothesis Hidle : 0 <= idle.
Hypothesis Hlate : 0 <= late.

Lemma copy_new_ok : copy_ok (Copy_new base).
Proof. split; cbn; unfold due, MILLI; try lia. done. Qed.

Lemma copy_step_ok c c' : copy_step c c' -> copy_ok c -> copy_ok c'.
Proof.
  intros Hs [Hb Ht Ha Hn Hi]. destruct Hs as [c now Hg Ht' Hrange|c now Hg Hle Hdue|c now Hg Ht'].
  - split; cbn; unfold touch, due in *; rewrite ?(proj2 (Z.leb_le _ _)) by done; try lia; try congruence.
    + unfold MILLI in *. zdiv_lia.
    + split; [lia|]. unfold MILLI in *. zdiv_lia.
  - unfold timer_fires. destruct (_ =? _) eqn:E; reflect; split; cbn; unfold due in *; try lia; try congruence.
    unfold MILLI in *. lia.
  - split; cbn; unfold due in *; (lia || congruence).
Qed.

Lemma copy_reachable_ok c : rtc copy_step (Copy_new base) c -> copy_ok c.
Proof.
  intros Hc. assert (copy_ok (Copy_new base)) as Hok by exact copy_new_ok. revert Hok.
  induction Hc as [|x y z Hxy _ IH]; [done|]. intros Hx. apply IH. by eapply copy_step_ok.
Qed.
End IdleCopy.

(** C24: a spliced connection is ended for idleness only after its silence, and then at
    once: whatever the traffic, while the copy runs its silence never exceeds the idle
    timeout by more than the timer's lateness, and a copy that ends with [TimedOut] has
    been silent for the timeout less a millisecond, the granularity of its stamp. *)
Theorem idle_exact base idle late c :
  0 <= idle -> 0 <= late ->
  rtc (copy_step base idle late) (Copy_new base) c ->
  cp_now c - cp_byte c <= idle + late /\ (cp_ended c = IdledOut -> idle - MILLI < cp_now c - cp_byte c).
Proof.
  intros Hi Hl Hc. destruct (copy_reachable_ok base idle late Hi Hl c Hc) as [Hb Ht Ha Hn Hend]. unfold due in *. split.
  - unfold MILLI in *. lia.
  - intros He. destruct (Hend He) as [Heq Hdue]. unfold MILLI in *. lia.
Qed.

Lemma idle_exact_witness :
  let c := timer_fires (from_secs 17) (timer_fires (from_secs 10) (byte_moves 0 (from_secs 7) (Copy_new 0))) in
  cp_ended c = IdledOut /\ cp_now c - cp_byte c <= from_secs 10 + 0 /\ (cp_ended c = IdledOut -> from_secs 10 - MILLI < cp_now c - cp_byte c).
Proof.
  cbn zeta. split; [reflexivity|]. apply (idle_exact 0 (from_secs 10) 0); [done|done|].
  eapply rtc_l; [apply (step_byte _ _ _ _ (from_secs 7)); done|].
  eapply rtc_l; [apply (step_timer _ _ _ _ (from_secs 10)); done|].
  eapply rtc_l; [apply (step_timer _ _ _ _ (from_secs 17)); done|]. apply rtc_refl.
Defined.
