(* ===== verification/Upstream.v ===== *)
(** The DNS upstreams ([src/policy/upstream.rs]): length-prefixed framing, HTTP/1.1
    responses, the exchanges of Do53, DoH and DoQ with their retries, and the pool of
    idle connections.

    A byte stream is the script of its reads.  An exchange that takes time is [Timed]:
    when it answers and what, or never. *)

From S2P Require Import Prelude Wire Net Plan Pool DnsName DnsMessage DnsResponse IpText Text Egress Sansio Idle.
Open Scope Z_scope.

Definition MAX_DNS_MESSAGE : nat := 4096.

(** [bounded] of [src/policy/demux.rs]. *)
Definition bounded (length : nat) : Res ErrorKind nat := if (MAX_DNS_MESSAGE <? length)%nat then Err InvalidData else Ok length.

(** ** Length-prefixed messages *)

(** [io] is what will be read and what was written; a write of the model succeeds. *)
Record Frames := mkFrames { f_reads : Script; f_sent : bytes; f_buffer : bytes }.

Definition Frames_send (f : Frames) (message : bytes) : Res ErrorKind unit * Frames :=
  if U16_MAX <? Z.of_nat (length message) then (Err InvalidInput, f)
  else (Ok tt, mkFrames (f_reads f) (f_sent f ++ be_bytes 2 (Z.of_nat (length message)) ++ message) (f_buffer f)).

(** A whole message at the front of the buffer. *)
Definition Frames_whole (buffer : bytes) : Res ErrorKind (option (bytes * bytes)) :=
  match buffer with
  | high :: low :: rest =>
      len ← bounded (Z.to_nat (be_value [high; low]));
      Ok (if (2 + len <=? length buffer)%nat then Some (take len rest, drop len rest) else None)
  | _ => Ok None
  end.

Definition FRAMES_CHUNK : nat := 2048.

(** Polls of one [recv]: a poll that waits leaves the call to be polled again or
    dropped; its bytes stay in the buffer. *)
Fixpoint Frames_recv_loop (fuel : nat) (f : Frames) : Poll bytes * Frames :=
  match fuel with
  | O => (Panics, f)
  | S fuel =>
      match Frames_whole (f_buffer f) with
      | Err kind => (Failed kind, f)
      | Panic => (Panics, f)
      | Ok (Some (message, rest)) => (Ready message, mkFrames (f_reads f) (f_sent f) rest)
      | Ok None =>
          let '(r, reads) := stream_poll_read (f_reads f) FRAMES_CHUNK in
          match r with
          | Ready [] => (Failed UnexpectedEof, mkFrames reads (f_sent f) (f_buffer f))
          | Ready chunk => Frames_recv_loop fuel (mkFrames reads (f_sent f) (f_buffer f ++ chunk))
          | Failed kind => (Failed kind, mkFrames reads (f_sent f) (f_buffer f))
          | Waits => (Waits, mkFrames reads (f_sent f) (f_buffer f))
          | Panics => (Panics, mkFrames reads (f_sent f) (f_buffer f))
          end
      end
  end.

(** A read that goes on takes a byte at least. *)
Definition Frames_recv (f : Frames) : Poll bytes * Frames := Frames_recv_loop (S (length (arriving (f_reads f)))) f.

(** [read_exact]: reads until the buffer is full. *)
Fixpoint read_exact_loop (fuel want : nat) (s : Script) : Res ErrorKind bytes * Script :=
  match want with
  | O => (Ok [], s)
  | _ =>
      match fuel with
      | O => (Panic, s)
      | S fuel =>
          match await_read s want with
          | (Ok [], s) => (Err UnexpectedEof, s)
          | (Ok chunk, s) =>
              let '(r, s) := read_exact_loop fuel (want - length chunk) s in
              (match r with Ok more => Ok (chunk ++ more) | r => r end, s)
          | (r, s) => (r, s)
          end
      end
  end.

Definition read_exact (want : nat) (s : Script) : Res ErrorKind bytes * Script := read_exact_loop want want s.

Definition read_length_prefixed (s : Script) : Res ErrorKind bytes * Script :=
  match read_exact 2 s with
  | (Ok header, s) =>
      let length := Z.to_nat (be_value header) in
      if (MAX_DNS_MESSAGE <? length)%nat then (Err InvalidData, s) else read_exact length s
  | (r, s) => (r, s)
  end.

(** ** HTTP/1.1 responses *)

Definition MAX_HTTP_HEAD : nat := 8 * 1024.
Definition HTTP_CHUNK : nat := 512.

Definition CRLFCRLF : bytes := [13; 10; 13; 10].

(** [windows(4).position(..)], and the offset past the window. *)
Fixpoint find_head_end (buffer : bytes) : option nat :=
  match buffer with
  | [] => None
  | _ :: rest => if starts_with CRLFCRLF buffer then Some 4%nat else S <$> find_head_end rest
  end.

Definition HTTP_1_1 : bytes := Eval compute in text_of "HTTP/1.1".
Definition HTTP_1_0 : bytes := Eval compute in text_of "HTTP/1.0".
Definition OK_200 : bytes := Eval compute in text_of "200".
Definition CONTENT_LENGTH_NAME : bytes := Eval compute in text_of "content-length".
Definition CONNECTION_NAME : bytes := Eval compute in text_of "connection".
Definition CLOSE_TOKEN : bytes := Eval compute in text_of "close".

Definition status_is_ok (head : bytes) : bool :=
  let line := default [] (list.head (split_char 13 head)) in
  let fields := split_char 32 line in
  let version := default [] (fields !! 0%nat) in
  let status := default [] (fields !! 1%nat) in
  (bool_decide (version = HTTP_1_1) || bool_decide (version = HTTP_1_0)) && bool_decide (status = OK_200).

Definition header_line (name line : bytes) : option bytes :=
  colon ← byte_position 58 line;
  if eq_ignore_ascii_case (take colon line) name then Some (trim_ascii (drop (colon + 1) line)) else None.

Fixpoint find_map {A B} (f : A -> option B) (l : list A) : option B :=
  match l with [] => None | x :: l => match f x with Some y => Some y | None => find_map f l end end.

Definition header (head name : bytes) : option bytes := find_map (header_line name) (tail (split_char 10 head)).

(** [usize]'s maximum. *)
Definition USIZE_MAX : Z := U64_MAX.

Definition content_length (head : bytes) : option nat :=
  value ← header head CONTENT_LENGTH_NAME;
  if utf8_ok value then Z.to_nat <$> parse_uint USIZE_MAX (trim value) else None.

Definition closing (head : bytes) : bool :=
  match header head CONNECTION_NAME with
  | Some value => existsb (fun token => eq_ignore_ascii_case (trim_ascii token) CLOSE_TOKEN) (split_char 44 value)
  | None => false
  end.

(** The [while] that collects the head: the buffer and where the body starts. *)
Fixpoint read_head (fuel : nat) (buffer : bytes) (s : Script) : Res ErrorKind (bytes * nat) * Script :=
  match fuel with
  | O => (Panic, s)
  | S fuel =>
      if (MAX_HTTP_HEAD <? length buffer)%nat then (Err InvalidData, s) else
      match await_read s HTTP_CHUNK with
      | (Ok [], s) => (Err UnexpectedEof, s)
      | (Ok chunk, s) =>
          let buffer := buffer ++ chunk in
          match find_head_end buffer with
          | Some at_ => (Ok (buffer, at_), s)
          | None => read_head fuel buffer s
          end
      | (Err kind, s) => (Err kind, s)
      | (Panic, s) => (Panic, s)
      end
  end.

(** The [loop] that collects a body up to the close. *)
Fixpoint read_to_close (fuel : nat) (body : bytes) (s : Script) : Res ErrorKind bytes * Script :=
  match fuel with
  | O => (Panic, s)
  | S fuel =>
      if (MAX_DNS_MESSAGE <? length body)%nat then (Err InvalidData, s) else
      match await_read s HTTP_CHUNK with
      | (Ok [], s) => (Ok body, s)
      | (Ok chunk, s) => read_to_close fuel (body ++ chunk) s
      | (r, s) => (r, s)
      end
  end.

Definition read_response_body (head body : bytes) (s : Script) : Res ErrorKind (bytes * bool) * Script :=
  match content_length head with
  | Some len =>
      match bounded len with
      | Ok _ =>
          if (len <? length body)%nat then (Err InvalidData, s) else
          match read_exact (len - length body) s with
          | (Ok more, s) => (Ok (body ++ more, negb (closing head)), s)
          | (Err _, s) => (Err UnexpectedEof, s)
          | (Panic, s) => (Panic, s)
          end
      | Err kind => (Err kind, s)
      | Panic => (Panic, s)
      end
  | None =>
      match read_to_close (S (S MAX_DNS_MESSAGE)) body s with
      | (Ok body, s) => (Ok (body, false), s)
      | (Err kind, s) => (Err kind, s)
      | (Panic, s) => (Panic, s)
      end
  end.

(** Each round of the head reads a byte, so [MAX_HTTP_HEAD + 2] of them are enough. *)
Definition read_http_response (s : Script) : Res ErrorKind (bytes * bool) * Script :=
  match read_head (S (S MAX_HTTP_HEAD)) [] s with
  | (Ok (buffer, body_at), s) =>
      match get_to buffer body_at, get_from buffer body_at with
      | Some head, Some body => if status_is_ok head then read_response_body head body s else (Err InvalidData, s)
      | _, _ => (Panic, s)
      end
  | (Err kind, s) => (Err kind, s)
  | (Panic, s) => (Panic, s)
  end.

(** * Framed messages *)

Definition dns_frame (message : bytes) : bytes := be_bytes 2 (Z.of_nat (length message)) ++ message.

Definition acceptable (message : bytes) : Prop := (length message <= MAX_DNS_MESSAGE)%nat.

Lemma dns_frame_length message : length (dns_frame message) = (2 + length message)%nat.
Proof. unfold dns_frame. by rewrite length_app, length_be_bytes. Qed.

(** The front of a buffer that holds a part of some frames. *)
Lemma Frames_whole_front buffer rest ms :
  Forall acceptable ms -> buffer ++ rest = concat (dns_frame <$> ms) ->
  match Frames_whole buffer with
  | Ok (Some (m, left_)) => exists ms', ms = m :: ms' /\ left_ ++ rest = concat (dns_frame <$> ms')
  | Ok None => rest = [] -> ms = []
  | _ => False
  end.
Proof.
  intros Hms Heq. destruct ms as [|m ms].
  { cbn in Heq. apply app_eq_nil in Heq as [-> ->]. done. }
  apply Forall_cons in Hms as [Hm Hms]. cbn [fmap list_fmap concat] in Heq.
  assert (2 <= length (buffer ++ rest))%nat as Hlen by (rewrite Heq, length_app, dns_frame_length; lia).
  destruct buffer as [|high [|low tl]]; cbn [Frames_whole]; [by intros ->; cbn in Hlen; lia|intros ->; cbn in Hlen; lia|].
  unfold dns_frame in Heq at 1. pose proof (length_be_bytes 2 (Z.of_nat (length m))) as Hb.
  pose proof (be_value_be_bytes_small 2 (Z.of_nat (length m))) as Hv.
  destruct (be_bytes 2 (Z.of_nat (length m))) as [|h [|l [|]]]; try done. injection Heq as <- <- Heq.
  rewrite Hv, Nat2Z.id by (unfold acceptable, MAX_DNS_MESSAGE in Hm; cbn; lia).
  unfold bounded. rewrite (proj2 (Nat.ltb_ge _ _)) by exact Hm. cbn [mbind Res_bind].
  cbn [length]. destruct (_ <=? _)%nat eqn:E; reflect.
  - exists ms. assert (take (length m) tl = m) as Ht.
    { apply (f_equal (take (length m))) in Heq. by rewrite take_app_length, take_app_le in Heq by lia. }
    split; [by rewrite Ht|]. apply (f_equal (drop (length m))) in Heq. by rewrite drop_app_length, drop_app_le in Heq by lia.
  - intros ->. apply (f_equal length) in Heq. rewrite app_nil_r, length_app in Heq. lia.
Qed.

Fixpoint script_pauses (s : Script) : nat :=
  match s with [] => 0 | ReadPending :: s => S (script_pauses s) | _ :: s => script_pauses s end.

Lemma stream_poll_read_pauses s room bs s' : stream_poll_read s room = (Ready bs, s') -> script_pauses s' = script_pauses s.
Proof. destruct s as [|[b| |] s]; cbn; [by intros [= _ <-]| |done..]. intros [= _ <-]. by destruct (drop room b). Qed.

(** A connection that will deliver some messages and pause so many times more. *)
Record incoming (f : Frames) (ms : list bytes) (pauses : nat) : Prop := {
  ic_script : script_ok (f_reads f);
  ic_sound : forall kind, ReadFails kind ∉ f_reads f;
  ic_messages : Forall acceptable ms;
  ic_bytes : f_buffer f ++ arriving (f_reads f) = concat (dns_frame <$> ms);
  ic_pauses : script_pauses (f_reads f) = pauses;
}.

Lemma Frames_recv_loop_incoming fuel : forall f ms pauses,
  incoming f ms pauses -> (length (arriving (f_reads f)) < fuel)%nat ->
  match Frames_recv_loop fuel f with
  | (Ready m, f') => exists ms', ms = m :: ms' /\ incoming f' ms' pauses
  | (Waits, f') => exists pauses', pauses = S pauses' /\ incoming f' ms pauses'
  | (Failed kind, _) => kind = UnexpectedEof /\ ms = []
  | (Panics, _) => False
  end.
Proof.
  induction fuel as [|fuel IH]; intros f ms pauses [Hs Hnf Hms Hb Hp] Hf; [lia|]. cbn [Frames_recv_loop].
  pose proof (Frames_whole_front _ _ _ Hms Hb) as Hw. destruct (Frames_whole (f_buffer f)) as [[[m left_]|]| |]; [| |done..].
  { destruct Hw as (ms' & -> & Hb'). apply Forall_cons in Hms as [_ Hms]. exists ms'. by split. }
  pose proof (stream_poll_read_ok (f_reads f) FRAMES_CHUNK Hs ltac:(unfold FRAMES_CHUNK; lia)) as Hr.
  destruct (stream_poll_read (f_reads f) FRAMES_CHUNK) as [[bs|kind| |] reads] eqn:Er; [| | |done].
  - destruct Hr as (Hs' & Harr & _ & Heof & Hk). apply stream_poll_read_pauses in Er. destruct bs as [|b bs].
    { split; [done|]. apply Hw. by rewrite (Heof eq_refl). }
    apply IH; [|cbn [f_reads]; rewrite Harr, length_app in Hf; cbn [length] in Hf; lia].
    split; cbn [f_reads f_buffer]; [done| |done| |congruence].
    + intros kind Hin. by apply (Hnf kind), Hk.
    + by rewrite <- (assoc_L (++)), <- Harr.
  - exfalso. apply (Hnf kind). rewrite Hr. by left.
  - rewrite Hr in *. cbn [script_pauses arriving] in *. exists (script_pauses reads). split; [done|].
    apply Forall_cons in Hs as [_ Hs]. split; try done. intros kind Hin. apply (Hnf kind). by right.
Qed.

(** A driver that calls [recv] and drops the call whenever it waits, as [select!] does:
    the messages it has, and whether the connection ended. *)
Fixpoint recv_calls (calls : nat) (f : Frames) : option (list bytes * bool * Frames) :=
  match calls with
  | O => Some ([], false, f)
  | S calls =>
      match Frames_recv f with
      | (Ready m, f) => '(ms, ended, f) ← recv_calls calls f; Some (m :: ms, ended, f)
      | (Waits, f) => recv_calls calls f
      | (Failed UnexpectedEof, f) => Some ([], true, f)
      | _ => None
      end
  end.

Lemma recv_calls_incoming calls : forall f ms pauses,
  incoming f ms pauses -> (length ms + pauses < calls)%nat -> exists f', recv_calls calls f = Some (ms, true, f').
Proof.
  induction calls as [|calls IH]; intros f ms pauses Hi Hc; [lia|]. cbn [recv_calls]. unfold Frames_recv.
  pose proof (Frames_recv_loop_incoming _ f ms pauses Hi (Nat.lt_succ_diag_r _)) as Hr.
  destruct (Frames_recv_loop _ f) as [[m|kind| |] f']; [| | |done].
  - destruct Hr as (ms' & -> & Hi'). cbn [length] in Hc. destruct (IH f' ms' pauses Hi') as [f'' ->]; [lia|]. by eexists.
  - destruct Hr as [-> ->]. by eexists.
  - destruct Hr as (pauses' & -> & Hi'). by apply (IH f' ms pauses'); [|lia].
Qed.

(** Queries sent on a connection, with what each call answers. *)
Fixpoint send_calls (f : Frames) (messages : list bytes) : Frames :=
  match messages with [] => f | m :: messages => send_calls (Frames_send f m).2 messages end.

Lemma send_calls_sent messages : forall f,
  Forall acceptable messages -> f_sent (send_calls f messages) = f_sent f ++ concat (dns_frame <$> messages).
Proof.
  induction messages as [|m messages IH]; intros f Hm; cbn [send_calls fmap list_fmap concat]; [by rewrite app_nil_r|].
  apply Forall_cons in Hm as [Hm Hms]. rewrite IH by done. unfold Frames_send.
  rewrite (proj2 (Z.ltb_ge _ _)) by (unfold acceptable, MAX_DNS_MESSAGE, U16_MAX in *; lia). cbn [snd f_sent].
  unfold dns_frame at 2. by rewrite <- !(assoc_L (++)).
Qed.

(** messages framed by [send] are received whole, once each and in order, however
    the stream splits their bytes and wherever the receiving call is dropped while it
    waits: the bytes of a dropped call are not lost. *)
Theorem frames_roundtrip messages s sent calls :
  Forall acceptable messages -> script_ok s -> (forall kind, ReadFails kind ∉ s) ->
  arriving s = f_sent (send_calls (mkFrames [] [] []) messages) -> (length messages + script_pauses s < calls)%nat ->
  exists f, recv_calls calls (mkFrames s sent []) = Some (messages, true, f).
Proof.
  intros Hm Hs Hnf Ha Hc. rewrite send_calls_sent in Ha by done. eapply recv_calls_incoming; [|exact Hc]. by split.
Qed.

Lemma frames_roundtrip_witness : exists f,
  recv_calls 7 (mkFrames [Arrives [0]; ReadPending; Arrives [2; 7]; ReadPending; Arrives [8; 0; 0; 0; 1]; ReadPending; Arrives [9]] [] [])
  = Some ([[7; 8]; []; [9]], true, f).
Proof.
  apply (frames_roundtrip [[7; 8]; []; [9]]); [by apply (bool_decide_unpack _); vm_compute|by apply (bool_decide_unpack _); vm_compute| | |].
  - intros kind. repeat (apply not_elem_of_cons; split; [done|]). apply not_elem_of_nil.
  - reflexivity.
  - cbn. lia.
Defined.

(** * HTTP responses *)

Lemma starts_with_app p : forall b more, starts_with p b = true -> starts_with p (b ++ more) = true.
Proof.
  induction p as [|x p IH]; intros [|y b] more; cbn; try done. intros [-> H]%andb_true_iff. by apply IH.
Qed.

Lemma starts_with_front p : forall b more, starts_with p (b ++ more) = true -> (length p <= length b)%nat -> starts_with p b = true.
Proof.
  induction p as [|x p IH]; intros [|y b] more; cbn [starts_with app length]; try done; [lia|].
  intros [-> H]%andb_true_iff Hl. apply (IH b more H). lia.
Qed.

Lemma find_head_end_range b e : find_head_end b = Some e -> (4 <= e <= length b)%nat.
Proof.
  revert e. induction b as [|x b IH]; intros e; [done|]. cbn [find_head_end].
  destruct (starts_with CRLFCRLF (x :: b)) eqn:E.
  - intros [= <-]. destruct b as [|? [|? [|? ?]]]; cbn in E; rewrite ?andb_false_r in E; try done. cbn [length]. lia.
  - intros (e' & He & ->)%fmap_Some. apply IH in He. cbn [length]. lia.
Qed.

(** The end of the head is found as soon as its bytes are there, and not before. *)
Lemma find_head_end_app b more e : find_head_end (b ++ more) = Some e -> (e <= length b)%nat -> find_head_end b = Some e.
Proof.
  revert e. induction b as [|x b IH]; intros e He Hl.
  { apply find_head_end_range in He. cbn in Hl. lia. }
  cbn [app find_head_end] in *. change (x :: b ++ more) with ((x :: b) ++ more) in He.
  destruct (starts_with CRLFCRLF ((x :: b) ++ more)) eqn:E.
  - injection He as <-. by rewrite (starts_with_front _ _ _ E) by exact Hl.
  - destruct (starts_with CRLFCRLF (x :: b)) eqn:E'; [by rewrite (starts_with_app _ _ more E') in E|].
    apply fmap_Some in He as (e' & He & ->). cbn [length] in Hl. by rewrite (IH e' He) by lia.
Qed.

Lemma find_head_end_grows b more e : find_head_end b = Some e -> find_head_end (b ++ more) = Some e.
Proof.
  revert e. induction b as [|x b IH]; intros e; [done|]. cbn [app find_head_end]. change (x :: b ++ more) with ((x :: b) ++ more).
  destruct (starts_with CRLFCRLF (x :: b)) eqn:E; [intros [= <-]; by rewrite (starts_with_app _ _ more E)|].
  intros He. pose proof He as (e' & He' & ->)%fmap_Some. destruct (starts_with CRLFCRLF ((x :: b) ++ more)) eqn:E'.
  - rewrite (starts_with_front _ _ _ E') in E; [done|]. apply find_head_end_range in He'. cbn [length CRLFCRLF]. lia.
  - by rewrite (IH e' He').
Qed.

(** A stream that delivers [whole] and then ends. *)
Record delivering (s : Script) (whole : bytes) : Prop := {
  dl_script : script_ok s;
  dl_sound : forall kind, ReadFails kind ∉ s;
  dl_bytes : arriving s = whole;
}.

Lemma await_read_room s room chunk s' : await_read s room = (Ok chunk, s') -> (length chunk <= room)%nat.
Proof.
  induction s as [|[bs| |kind] s IH]; cbn [await_read]; [by intros [= <- _]; cbn; lia| |done|done].
  cbn [stream_poll_read]. intros [= <- _]. rewrite length_take. lia.
Qed.

Lemma await_delivering s whole room :
  delivering s whole -> (0 < room)%nat ->
  exists chunk s' rest, await_read s room = (Ok chunk, s') /\ delivering s' rest /\ whole = chunk ++ rest /\
    (chunk = [] -> whole = []) /\ (length chunk <= room)%nat.
Proof.
  intros [Hs Hnf <-] Hr. destruct (await_read_ok s room Hs Hr Hnf) as (chunk & s' & Ha & Hs' & Harr & Heof & Hnf').
  exists chunk, s', (arriving s'). split_and!; try done. by eapply await_read_room.
Qed.

Lemma read_exact_delivering fuel : forall want s whole,
  delivering s whole -> (want <= fuel)%nat ->
  if (want <=? length whole)%nat
  then exists s', read_exact_loop fuel want s = (Ok (take want whole), s') /\ delivering s' (drop want whole)
  else exists s', read_exact_loop fuel want s = (Err UnexpectedEof, s').
Proof.
  induction fuel as [|fuel IH]; intros want s whole Hd Hf.
  { replace want with 0%nat by lia. by exists s. }
  destruct want as [|want]; [by exists s|]. cbn [read_exact_loop].
  destruct (await_delivering s whole (S want) Hd ltac:(lia)) as (chunk & s' & rest & -> & Hd' & -> & Heof & Hl).
  destruct chunk as [|b chunk]; [rewrite (Heof eq_refl); by exists s'|].
  specialize (IH (S want - length (b :: chunk))%nat s' rest Hd' ltac:(cbn [length]; lia)).
  rewrite length_app. destruct (_ <=? length rest)%nat eqn:E; reflect; destruct IH as [s'' IH].
  - destruct IH as [-> Hd'']. rewrite (proj2 (Nat.leb_le _ _)) by lia. exists s''.
    rewrite take_app_ge, drop_app_ge by lia. done.
  - rewrite (proj2 (Nat.leb_gt _ _)) by lia. exists s''. by rewrite IH.
Qed.

Lemma read_to_close_delivering fuel : forall body s rest,
  delivering s rest -> (S MAX_DNS_MESSAGE < fuel + length body)%nat -> (0 < fuel)%nat ->
  exists s', read_to_close fuel body s
    = (if (MAX_DNS_MESSAGE <? length (body ++ rest))%nat then Err InvalidData else Ok (body ++ rest), s').
Proof.
  induction fuel as [|fuel IH]; intros body s rest Hd Hf Hpos; [lia|]. cbn [read_to_close].
  destruct (MAX_DNS_MESSAGE <? length body)%nat eqn:E; reflect.
  { rewrite length_app, (proj2 (Nat.ltb_lt _ _)) by lia. by exists s. }
  destruct (await_delivering s rest HTTP_CHUNK Hd ltac:(unfold HTTP_CHUNK; lia)) as (chunk & s' & rest' & -> & Hd' & -> & Heof & _).
  destruct chunk as [|b chunk].
  { rewrite (Heof eq_refl), app_nil_r, (proj2 (Nat.ltb_ge _ _)) by lia. by exists s'. }
  destruct (IH (body ++ b :: chunk) s' rest' Hd') as [s'' ->]; [rewrite length_app; cbn [length]; lia|lia|].
  exists s''. by rewrite <- (assoc_L (++)).
Qed.

Lemma read_head_delivering fuel : forall buffer s rest e,
  delivering s rest -> find_head_end (buffer ++ rest) = Some e -> find_head_end buffer = None -> (e <= MAX_HTTP_HEAD)%nat ->
  (S MAX_HTTP_HEAD < fuel + length buffer)%nat -> (0 < fuel)%nat ->
  exists buffer' s' rest', read_head fuel buffer s = (Ok (buffer', e), s') /\ delivering s' rest' /\
    buffer' ++ rest' = buffer ++ rest /\ (e <= length buffer')%nat.
Proof.
  induction fuel as [|fuel IH]; intros buffer s rest e Hd He Hnone Hmax Hf Hpos; [lia|]. cbn [read_head].
  assert (length buffer < e)%nat as Hlt.
  { destruct (le_lt_dec e (length buffer)) as [Hle|]; [|done]. by rewrite (find_head_end_app _ _ _ He Hle) in Hnone. }
  rewrite (proj2 (Nat.ltb_ge _ _)) by lia.
  destruct (await_delivering s rest HTTP_CHUNK Hd ltac:(unfold HTTP_CHUNK; lia)) as (chunk & s' & rest' & -> & Hd' & -> & Heof & _).
  destruct chunk as [|b chunk].
  { rewrite (Heof eq_refl), app_nil_r in He. congruence. }
  rewrite (assoc_L (++)) in He |- *. set (buffer' := buffer ++ b :: chunk) in *.
  destruct (find_head_end buffer') as [e'|] eqn:E.
  - pose proof (find_head_end_grows _ rest' _ E) as E'. rewrite He in E'. injection E' as <-.
    exists buffer', s', rest'. refine (conj eq_refl (conj Hd' (conj eq_refl _))). apply find_head_end_range in E. lia.
  - apply IH; try done; unfold buffer'; rewrite ?length_app; cbn [length]; lia.
Qed.

(** What a response of [whole] bytes up to the close says, its head ending at [e]. *)
Definition judge_response (whole : bytes) (e : nat) : Res ErrorKind (bytes * bool) :=
  let head := take e whole in
  let body := drop e whole in
  if negb (status_is_ok head) then Err InvalidData else
  match content_length head with
  | Some len =>
      if (MAX_DNS_MESSAGE <? len)%nat then Err InvalidData
      else if (length body <? len)%nat then Err UnexpectedEof
      else Ok (body, negb (closing head))
  | None => if (MAX_DNS_MESSAGE <? length body)%nat then Err InvalidData else Ok (body, false)
  end.

(** C22: a DoH resolver's HTTP/1.1 response is judged on its bytes alone.  However the
    stream splits them, a response whose head is within the limit and whose body is not
    longer than its declared length is accepted exactly when its status is 200 and its
    body is whole and within the accepted message size; the answer is that body, and the
    connection is kept exactly when a length framed the body and no field asked to
    close. *)
Theorem http_response_judged s whole e :
  delivering s whole -> find_head_end whole = Some e -> (e <= MAX_HTTP_HEAD)%nat ->
  (forall len, content_length (take e whole) = Some len -> length (drop e whole) <= len)%nat ->
  (read_http_response s).1 = judge_response whole e.
Proof.
  intros Hd He Hmax Hlen. unfold read_http_response.
  destruct (read_head_delivering (S (S MAX_HTTP_HEAD)) [] s whole e Hd He eq_refl Hmax) as (buffer & s' & rest & -> & Hd' & Hw & Hle); [cbn; lia..|].
  cbn [app] in Hw. unfold get_to, get_from. rewrite !(proj2 (Nat.leb_le _ _)) by done. unfold judge_response.
  replace (take e whole) with (take e buffer) in * by (by rewrite <- Hw, take_app_le).
  replace (drop e whole) with (drop e buffer ++ rest) in * by (by rewrite <- Hw, drop_app_le).
  destruct (status_is_ok (take e buffer)); [|done]. cbn [negb]. unfold read_response_body, bounded.
  destruct (content_length (take e buffer)) as [len|].
  - specialize (Hlen len eq_refl). rewrite length_app in Hlen. destruct (MAX_DNS_MESSAGE <? len)%nat; [done|].
    rewrite (proj2 (Nat.ltb_ge _ _)) by lia. unfold read_exact.
    pose proof (read_exact_delivering (len - length (drop e buffer)) (len - length (drop e buffer)) s' rest Hd' ltac:(lia)) as Hr.
    rewrite length_app. destruct (_ <=? length rest)%nat eqn:E; reflect; destruct Hr as [s'' Hr].
    + destruct Hr as [-> _]. rewrite (proj2 (Nat.ltb_ge _ _)) by lia. cbn [fst]. by rewrite (take_ge rest) by lia.
    + rewrite Hr, (proj2 (Nat.ltb_lt _ _)) by lia. done.
  - destruct (read_to_close_delivering (S (S MAX_DNS_MESSAGE)) (drop e buffer) s' rest Hd') as [s'' ->]; [lia..|].
    by destruct (MAX_DNS_MESSAGE <? _)%nat.
Qed.

Definition sample_doh_response : bytes := Eval compute in
  text_of "HTTP/1.1 200 OK" ++ [13; 10] ++ text_of "Content-Length: 3" ++ [13; 10] ++ text_of "connection: keep-alive" ++ CRLFCRLF ++ [1; 2; 3].

Lemma http_response_judged_witness :
  (read_http_response (ReadPending :: (Arrives <$> [take 5 sample_doh_response; drop 5 sample_doh_response]))).1 = Ok ([1; 2; 3], true).
Proof.
  apply (http_response_judged (ReadPending :: (Arrives <$> [take 5 sample_doh_response; drop 5 sample_doh_response])) sample_doh_response 62).
  - split; [by apply (bool_decide_unpack _); vm_compute| |reflexivity].
    intros kind. repeat (apply not_elem_of_cons; split; [done|]). apply not_elem_of_nil.
  - vm_compute. reflexivity.
  - unfold MAX_HTTP_HEAD. lia.
  - intros len. vm_compute. intros [= <-]. lia.
Defined.

(** * Exchanges *)

(** An exchange started [delay] later. *)
Definition later (delay : Duration) (t : Timed ErrorKind bytes) : Timed ErrorKind bytes := (fun '(after, r) => (delay + after, r)) <$> t.

(** What a round of [on_connection] meets: no connection, or what the query on it
    answers. *)
Inductive Round := NoConnection (kind : ErrorKind) | Queried (outcome : Res ErrorKind bytes).

Fixpoint on_connection_loop (retried : bool) (rounds : list Round) : Res ErrorKind bytes * list Round :=
  match rounds with
  | [] => (Panic, [])
  | NoConnection kind :: rounds => (Err kind, rounds)
  | Queried outcome :: rounds =>
      match outcome with
      | Err ConnectionAborted => if negb retried then on_connection_loop true rounds else (outcome, rounds)
      | _ => (outcome, rounds)
      end
  end.

Definition on_connection (rounds : list Round) : Res ErrorKind bytes * list Round := on_connection_loop false rounds.

(** ** Do53 *)

Definition SOURCE_PORTS : Z := 8.
Definition DEFAULT_UPSTREAM_TIMEOUT : Duration := from_secs 3.
Definition UDP_RETRANSMIT : Duration := from_secs 1.

(** The slot of [over_socket], and the counter after it. *)
Definition over_socket_slot (next : Z) : Z * Z := (next mod SOURCE_PORTS, wrap 64 (next + 1)).

(** [first] and [second] are the exchanges over a socket and the one after it. *)
Definition over_udp (first second : Timed ErrorKind bytes) : Timed ErrorKind bytes :=
  match timeout UDP_RETRANSMIT first with
  | (after, Some outcome) => Some (after, outcome)
  | (after, None) => later after second
  end.

Definition truncated (reply : bytes) : bool :=
  match Message_parse reply with Ok parsed => is_truncated parsed | _ => false end.

Definition Do53_exchange (first second tcp : Timed ErrorKind bytes) : Timed ErrorKind bytes :=
  match over_udp first second with
  | Some (after, Ok reply) =>
      if truncated reply then
        match later after tcp with
        | Some (after, Ok whole) => Some (after, Ok whole)
        | Some (after, Err _) => Some (after, Ok reply)
        | Some (after, Panic) => Some (after, Panic)
        | None => None
        end
      else Some (after, Ok reply)
  | answered => answered
  end.

Definition Do53_query (limit : Duration) (first second tcp : Timed ErrorKind bytes) : Res ErrorKind bytes :=
  match timeout limit (Do53_exchange first second tcp) with
  | (_, Some outcome) => outcome
  | (_, None) => Err TimedOut
  end.

(** ** DoH over HTTP/1.1 *)

Definition DOH_IDLE_CONNECTIONS : nat := 4.

Section Doh.
Context {S : Type}.

(** One request on one connection: the body and whether the connection can carry
    another request. *)
Variable exchange : S -> Res ErrorKind (bytes * bool) * S.

Definition park (idle : list S) (stream : S) : list S :=
  if (length idle <? DOH_IDLE_CONNECTIONS)%nat then idle ++ [stream] else idle.

(** [dials] are the outcomes of the dials to come. *)
Definition dial_next (dials : list (Res ErrorKind S)) : Res ErrorKind S * list (Res ErrorKind S) :=
  match dials with d :: dials => (d, dials) | [] => (Panic, []) end.

Definition over_h1 (idle : list S) (dials : list (Res ErrorKind S)) : Res ErrorKind bytes * list S * list (Res ErrorKind S) :=
  let '(stream, reused, idle, dials) :=
    match vec_pop idle with
    | Some (stream, idle) => (Ok stream, true, idle, dials)
    | None => let '(d, dials) := dial_next dials in (d, false, idle, dials)
    end in
  match stream with
  | Err kind => (Err kind, idle, dials)
  | Panic => (Panic, idle, dials)
  | Ok stream =>
      let '(outcome, stream) := exchange stream in
      let '(answered, stream, dials) :=
        match outcome with
        | Err _ =>
            if reused : bool then
              let '(d, dials) := dial_next dials in
              match d with
              | Ok fresh => let '(outcome, fresh) := exchange fresh in (outcome, fresh, dials)
              | Err kind => (Err kind, stream, dials)
              | Panic => (Panic, stream, dials)
              end
            else (outcome, stream, dials)
        | _ => (outcome, stream, dials)
        end in
      match answered with
      | Ok (body, reusable) => (Ok body, if reusable : bool then park idle stream else idle, dials)
      | Err kind => (Err kind, idle, dials)
      | Panic => (Panic, idle, dials)
      end
  end.

Lemma park_bound idle stream : (length idle <= DOH_IDLE_CONNECTIONS)%nat -> (length (park idle stream) <= DOH_IDLE_CONNECTIONS)%nat.
Proof.
  intros Hl. unfold park. destruct (_ <? _)%nat eqn:E; reflect; [|done]. rewrite length_app. cbn [length]. lia.
Qed.

(** An exchange keeps at most [DOH_IDLE_CONNECTIONS] connections. *)
Lemma over_h1_bound idle dials :
  (length idle <= DOH_IDLE_CONNECTIONS)%nat -> (length (over_h1 idle dials).1.2 <= DOH_IDLE_CONNECTIONS)%nat.
Proof.
  intros Hl. assert (forall stream idle', vec_pop idle = Some (stream, idle') -> (length idle' <= DOH_IDLE_CONNECTIONS)%nat) as Hp.
  { intros stream idle' ->%vec_pop_Some. rewrite length_app in Hl. lia. }
  unfold over_h1. repeat (case_match; simplify_eq/=); eauto using park_bound.
Qed.
End Doh.

(** ** DoQ *)

Definition DNS_ID_BYTES : nat := 2.

(** [opened] is the outcome of the connection and the stream, [wrote] of the writes; [s] is
    what the stream answers.  The result and what was written. *)
Definition Doq_query (message : bytes) (opened wrote : Res ErrorKind unit) (s : Script) : Res ErrorKind bytes * bytes :=
  match get_to message DNS_ID_BYTES with
  | None => (Err InvalidInput, [])
  | Some id =>
      if U16_MAX <? Z.of_nat (length message) then (Err InvalidInput, []) else
      match opened, wrote with
      | Ok _, Ok _ =>
          let sent := be_bytes 2 (Z.of_nat (length message)) ++ [0; 0] ++ drop DNS_ID_BYTES message in
          let '(reply, _) := read_length_prefixed s in
          ((fun reply => default reply (put 0 id reply)) <$> reply, sent)
      | Err kind, _ => (Err kind, [])
      | Ok _, Err kind => (Err kind, [])
      | _, _ => (Panic, [])
      end
  end.

(** ** What the exchanges answer *)

(** A query is tried at most twice, the second time only when the first connection ended
    under it. *)
Lemma on_connection_twice first second rounds :
  on_connection (first :: second :: rounds) =
    match first, second with
    | Queried (Err ConnectionAborted), Queried outcome => (outcome, rounds)
    | Queried (Err ConnectionAborted), NoConnection kind => (Err kind, rounds)
    | Queried outcome, _ => (outcome, second :: rounds)
    | NoConnection kind, _ => (Err kind, second :: rounds)
    end.
Proof.
  unfold on_connection. destruct first as [kind|[|[]|]]; try done. destruct second as [kind|[|[]|]]; done.
Qed.

(** Two sockets in turn are different ones, also where the counter wraps. *)
Lemma over_socket_rotates next :
  0 <= next < 2 ^ 64 -> let '(slot, next') := over_socket_slot next in (over_socket_slot next').1 = (slot + 1) mod SOURCE_PORTS /\
    (over_socket_slot next').1 <> slot.
Proof.
  intros Hn. unfold over_socket_slot, SOURCE_PORTS, wrap. cbn [fst].
  assert (((next + 1) mod 2 ^ 64) mod 8 = (next mod 8 + 1) mod 8) as Hm.
  { change (2 ^ 64) with (8 * 2 ^ 61). rewrite Z.rem_mul_r by lia. rewrite (Z.mul_comm 8), Z.mod_add by lia.
    rewrite Z.mod_mod by lia. by rewrite Zplus_mod_idemp_l. }
  split; [done|]. rewrite Hm. zdiv_lia.
Qed.

Lemma read_length_prefixed_reads s message rest :
  delivering s (dns_frame message ++ rest) -> acceptable message ->
  exists s', read_length_prefixed s = (Ok message, s') /\ delivering s' rest.
Proof.
  intros Hd Hm. unfold read_length_prefixed, read_exact, dns_frame in *. rewrite <- (assoc_L (++)) in Hd.
  pose proof (length_be_bytes 2 (Z.of_nat (length message))) as Hb.
  pose proof (read_exact_delivering 2 2 s _ Hd ltac:(lia)) as H2. rewrite length_app, Hb, (proj2 (Nat.leb_le _ _)) in H2 by lia.
  destruct H2 as (s' & -> & Hd'). rewrite take_app_le, take_ge in * by lia. rewrite drop_app_ge, Hb, drop_0 in Hd' by lia.
  rewrite be_value_be_bytes_small, Nat2Z.id by (unfold acceptable, MAX_DNS_MESSAGE in Hm; cbn; lia).
  rewrite (proj2 (Nat.ltb_ge _ _)) by exact Hm.
  pose proof (read_exact_delivering (length message) (length message) s' _ Hd' ltac:(lia)) as H3.
  rewrite length_app, (proj2 (Nat.leb_le _ _)) in H3 by lia. destruct H3 as (s'' & -> & Hd''). exists s''.
  by rewrite take_app_length, drop_app_length in *.
Qed.

(** DNS over QUIC: what goes out is the query framed with a zero id, and what comes back
    is the resolver's reply under the query's own id. *)
Theorem doq_restores_id message reply rest s :
  (2 <= length message)%nat -> Z.of_nat (length message) <= U16_MAX -> (2 <= length reply)%nat -> acceptable reply -> delivering s (dns_frame reply ++ rest) ->
  Doq_query message (Ok tt) (Ok tt) s = (Ok (take 2 message ++ drop 2 reply), dns_frame ([0; 0] ++ drop 2 message)).
Proof.
  intros Hm Hmax Hr Hacc Hd. unfold Doq_query, get_to, DNS_ID_BYTES. rewrite (proj2 (Nat.leb_le _ _)) by lia.
  rewrite (proj2 (Z.ltb_ge _ _)) by lia.
  destruct (read_length_prefixed_reads s reply rest Hd Hacc) as (s' & -> & _). unfold dns_frame. cbn [fmap Res_fmap].
  unfold put. rewrite length_take, (proj2 (Nat.leb_le _ _)) by lia. cbn [default]. unfold splice. rewrite length_take.
  replace (2 `min` length message)%nat with 2%nat by lia. f_equal. f_equal.
  rewrite length_app, length_drop. cbn [length]. do 2 f_equal. lia.
Qed.

(** A reply in hand is lost when TCP hangs: a truncated UDP reply whose retry over TCP
    does not end within the limit is answered with a timeout, not with the truncated
    reply. *)
Theorem truncated_reply_lost limit after reply second :
  truncated reply = true -> after <= UDP_RETRANSMIT ->
  Do53_query limit (Some (after, Ok reply)) second None = Err TimedOut.
Proof.
  intros Ht Ha. unfold Do53_query, Do53_exchange, over_udp, timeout at 2. rewrite (proj2 (Z.leb_le _ _)) by done.
  by rewrite Ht.
Qed.
