(* ===== verification/Origin.v ===== *)
(** Re-origination through the tunnel ([src/egress/origin.rs]): the ports leased to
    dials and streams under any interleaving, the order of a target's addresses, the race
    of the attempts, and the two effects an egress assembles into. *)

From S2P Require Import Prelude Wire Net Plan Pool Egress Datapath.
Open Scope Z_scope.

(** ** Ports *)

(** [(start..end).rev().collect()]: the lowest port is popped first. *)
Definition Ports_new (range : OriginationPorts) : list Z :=
  reverse (seqZ (ports_start range) (ports_end range - ports_start range)).

(** [take]: the leased port and the free list without it. *)
Definition Ports_take (free : list Z) : option (Z * list Z) := vec_pop free.

(** [Drop] of a lease. *)
Definition PortLease_drop (free : list Z) (port : Z) : list Z := free ++ [port].

Definition OriginationPorts_capacity (range : OriginationPorts) : nat := Z.to_nat (ports_end range - ports_start range).

(** The local address of an attempt. *)
Definition local_for (address : SocketAddr) (port : Z) : SocketAddr :=
  match Net.address address with
  | V4 _ => mkEndpoint (V4 [0; 0; 0; 0]) port
  | V6 _ => mkEndpoint (V6 (replicate 16 0)) port
  end.

(** The dialer as its callers share it: the free list, the attempts that hold a lease with
    the local address they bound, and the streams that hold one. *)
Record Dialer := mkDialer {
  dr_free : list Z;
  dr_attempts : gmap nat Z;
  dr_streams : gmap nat Z;
}.

Definition TunnelledDialer_new (range : OriginationPorts) : Dialer := mkDialer (Ports_new range) ∅ ∅.

(** [dial] by its awaits.  It starts by leasing a port, or is refused; it ends in a stream
    that keeps the lease, or in an error that returns it; an attempt can be aborted while
    it waits; a stream is dropped some time. *)
Inductive dial_step : Dialer -> Dialer -> Prop :=
| dial_starts d attempt port free :
    dr_attempts d !! attempt = None -> Ports_take (dr_free d) = Some (port, free) ->
    dial_step d (mkDialer free (<[attempt := port]> (dr_attempts d)) (dr_streams d))
| dial_refused d : Ports_take (dr_free d) = None -> dial_step d d
| dial_ends d attempt port :
    dr_attempts d !! attempt = Some port ->
    dial_step d (mkDialer (PortLease_drop (dr_free d) port) (delete attempt (dr_attempts d)) (dr_streams d))
| dial_connects d attempt port stream :
    dr_attempts d !! attempt = Some port -> dr_streams d !! stream = None ->
    dial_step d (mkDialer (dr_free d) (delete attempt (dr_attempts d)) (<[stream := port]> (dr_streams d)))
| stream_dropped d stream port :
    dr_streams d !! stream = Some port ->
    dial_step d (mkDialer (PortLease_drop (dr_free d) port) (dr_attempts d) (delete stream (dr_streams d))).

(** All the ports, wherever they are. *)
Definition ports_of (d : Dialer) : list Z :=
  dr_free d ++ (map_to_list (dr_attempts d)).*2 ++ (map_to_list (dr_streams d)).*2.

(** ** Addresses *)

Definition is_ipv6 (a : SocketAddr) : bool := match Net.address a with V6 _ => true | V4 _ => false end.

(** The [loop] over the two iterators. *)
Fixpoint interleave_loop (fuel : nat) (v6 v4 : list SocketAddr) : list SocketAddr :=
  match fuel with
  | O => []
  | S fuel =>
      match v6, v4 with
      | [], [] => []
      | _, _ => option_list (list.head v6) ++ option_list (list.head v4) ++ interleave_loop fuel (tail v6) (tail v4)
      end
  end.

Definition interleaved (addresses : list SocketAddr) : list SocketAddr :=
  let v6 := List.filter is_ipv6 addresses in
  let v4 := List.filter (fun a => negb (is_ipv6 a)) addresses in
  interleave_loop (S (length addresses)) v6 v4.

(** [resolve_all], with what the resolver answers for a name. *)
Definition NotFound : ErrorKind := OtherKind 2.
Definition AddrInUse : ErrorKind := OtherKind 3.

Definition resolve_all {W} (target : Target) (lookup : Res ErrorKind (list SocketAddr)) : Res (EgressError W) (list SocketAddr) :=
  match target with
  | Ip address => Ok [address]
  | Domain _ _ =>
      match lookup with
      | Ok [] => Err (Io NotFound)
      | Ok all => Ok (interleaved all)
      | Err kind => Err (Io kind)
      | Panic => Panic
      end
  end.

Definition resolve {W} (target : Target) (lookup : Res ErrorKind (list SocketAddr)) : Res (EgressError W) SocketAddr :=
  match target with
  | Ip address => Ok address
  | Domain _ _ =>
      match lookup with
      | Ok (a :: _) => Ok a
      | Ok [] => Err (Io NotFound)
      | Err kind => Err (Io kind)
      | Panic => Panic
      end
  end.

(** ** The race *)

Definition ATTEMPT_DELAY : Duration := 250 * 1000000.

(** When attempt [index] ends, if its dial takes [takes]. *)
Definition attempt_ends (index : nat) (takes : Duration) : Instant := ATTEMPT_DELAY * Z.of_nat index + takes.

(** The [while] over the attempts in the order they are joined: a stream, an error, or a
    task that was lost. *)
Fixpoint join_loop {W Stream} (last : EgressError W) (joined : list (option (Res (EgressError W) Stream))) : Res (EgressError W) Stream :=
  match joined with
  | [] => Err last
  | Some (Ok stream) :: _ => Ok stream
  | Some (Err error) :: joined => join_loop error joined
  | Some Panic :: joined | None :: joined => join_loop last joined
  end.

Definition TunnelledDialer_connect {W Stream} (joined : list (option (Res (EgressError W) Stream))) : Res (EgressError W) Stream :=
  join_loop (Io NotFound) joined.

Definition TunnelledDialer_properties : PathProperties := mkPath Fidelity_None 0 None false EndpointIndependent.

(** ** Assembly *)

Definition NoPacketEgress_properties : PathProperties := mkPath Fidelity_None 0 None false EndpointIndependent.
Definition NoPacketEgress_handle {W} (packet : bytes) : Res (EgressError W) unit := Err MalformedNetworkPacket.
Definition NoPacketEgress_tick {W} : Res (EgressError W) unit := Ok tt.

Inductive Packets := NoPacketEgress | GivenPackets (properties : PathProperties).
Inductive Flows := GivenFlows (properties : PathProperties) | Tunnelled (dialer : Dialer) (range : OriginationPorts).

Record Assembly := mkAssembly { as_packets : Packets; as_flows : Flows; as_origination_ports : option OriginationPorts }.

Definition assemble (egress : Egress.Egress) (range : OriginationPorts) : Assembly :=
  match egress with
  | Egress.Stream properties => mkAssembly NoPacketEgress (GivenFlows properties) None
  | Egress.Packet properties => mkAssembly (GivenPackets properties) (Tunnelled (TunnelledDialer_new range) range) (Some range)
  end.

(** * Ports are conserved *)

Lemma vec_pop_None {A} (l : list A) : vec_pop l = None -> l = [].
Proof. unfold vec_pop. destruct (last l) eqn:E; [done|]. intros _. by apply last_None. Qed.

Lemma insert_values (m : gmap nat Z) k v : m !! k = None -> (map_to_list (<[k := v]> m)).*2 ≡ₚ v :: (map_to_list m).*2.
Proof. intros Hk. by rewrite map_to_list_insert. Qed.

Lemma delete_values (m : gmap nat Z) k v : m !! k = Some v -> (map_to_list m).*2 ≡ₚ v :: (map_to_list (delete k m)).*2.
Proof. intros Hk. by rewrite <- (map_to_list_delete m k v Hk). Qed.

Lemma dial_step_conserves d d' : dial_step d d' -> ports_of d' ≡ₚ ports_of d.
Proof.
  unfold ports_of. intros [? attempt port free Ha Hp|? _|? attempt port Ha|? attempt port stream Ha Hs|? stream port Hs];
    cbn [dr_free dr_attempts dr_streams]; unfold PortLease_drop.
  - apply vec_pop_Some in Hp as ->. rewrite insert_values by done. rewrite <- (assoc_L (++)). cbn. solve_Permutation.
  - done.
  - rewrite (delete_values _ _ _ Ha). rewrite <- (assoc_L (++)). cbn. solve_Permutation.
  - rewrite (delete_values _ _ _ Ha), insert_values by done. cbn. solve_Permutation.
  - rewrite (delete_values _ _ _ Hs). rewrite <- (assoc_L (++)). cbn. solve_Permutation.
Qed.

Lemma dial_steps_conserve d d' : rtc dial_step d d' -> ports_of d' ≡ₚ ports_of d.
Proof. induction 1 as [|x y z Hxy _ IH]; [done|]. by rewrite IH, (dial_step_conserves x y). Qed.

Lemma ports_of_new range : ports_of (TunnelledDialer_new range) ≡ₚ seqZ (ports_start range) (ports_end range - ports_start range).
Proof. unfold ports_of, TunnelledDialer_new, Ports_new. cbn. rewrite !map_to_list_empty. cbn. by rewrite app_nil_r, reverse_Permutation. Qed.

(** Those that hold a lease: an attempt or a stream. *)
Inductive Holder := Attempt (n : nat) | LiveStream (n : nat).

#[global] Instance Holder_eq_dec : EqDecision Holder.
Proof. solve_decision. Defined.

Definition leased (d : Dialer) (h : Holder) : option Z :=
  match h with Attempt n => dr_attempts d !! n | LiveStream n => dr_streams d !! n end.

Lemma leased_elem d h port : leased d h = Some port ->
  exists rest, ports_of d ≡ₚ port :: rest /\ (forall h' port', h' <> h -> leased d h' = Some port' -> port' ∈ rest) /\
    (forall port', port' ∈ dr_free d -> port' ∈ rest).
Proof.
  unfold ports_of. destruct h as [n|n]; cbn [leased]; intros Hl.
  - exists (dr_free d ++ (map_to_list (delete n (dr_attempts d))).*2 ++ (map_to_list (dr_streams d)).*2).
    split_and!; [rewrite (delete_values _ _ _ Hl); cbn; solve_Permutation| |set_solver].
    intros [n'|n'] port' Hne Hl'; cbn [leased] in Hl'; rewrite !elem_of_app; right.
    + left. apply list_elem_of_fmap. exists (n', port'). split; [done|]. apply elem_of_map_to_list. by rewrite lookup_delete_ne by congruence.
    + right. apply list_elem_of_fmap. exists (n', port'). split; [done|]. by apply elem_of_map_to_list.
  - exists (dr_free d ++ (map_to_list (dr_attempts d)).*2 ++ (map_to_list (delete n (dr_streams d))).*2).
    split_and!; [rewrite (delete_values _ _ _ Hl); cbn; solve_Permutation| |set_solver].
    intros [n'|n'] port' Hne Hl'; cbn [leased] in Hl'; rewrite !elem_of_app; right.
    + left. apply list_elem_of_fmap. exists (n', port'). split; [done|]. by apply elem_of_map_to_list.
    + right. apply list_elem_of_fmap. exists (n', port'). split; [done|]. apply elem_of_map_to_list. by rewrite lookup_delete_ne by congruence.
Qed.

(** C23: the ports of re-originated connections, under any interleaving of attempts that
    start, fail, are aborted or connect, and of streams that are dropped: a leased port is
    in the range the classifier excludes from inspection, no two holders share a port, none
    is free at the same time, and none is ever lost, so a dial is refused for want of a
    port only when every port of the range is held. *)
Theorem ports_conserved range d :
  ports_start range <= ports_end range -> rtc dial_step (TunnelledDialer_new range) d ->
  (forall h port, leased d h = Some port ->
     OriginationPorts_contains range port = true /\ port ∉ dr_free d /\ (forall h', leased d h' = Some port -> h' = h)) /\
  (length (dr_free d) + size (dr_attempts d) + size (dr_streams d) = OriginationPorts_capacity range)%nat /\
  (Ports_take (dr_free d) = None -> (size (dr_attempts d) + size (dr_streams d) = OriginationPorts_capacity range)%nat).
Proof.
  intros Hr Hd. apply dial_steps_conserve in Hd. rewrite ports_of_new in Hd.
  assert (length (dr_free d) + size (dr_attempts d) + size (dr_streams d) = OriginationPorts_capacity range)%nat as Hcount.
  { apply Permutation_length in Hd. unfold ports_of in Hd. rewrite !length_app, !length_fmap, !length_map_to_list, length_seqZ in Hd.
    unfold OriginationPorts_capacity. lia. }
  split_and!; [|done|].
  - intros h port Hl. destruct (leased_elem d h port Hl) as (rest & Hp & Hothers & Hfree). rewrite Hd in Hp.
    assert (NoDup (port :: rest)) as [Hnot _]%NoDup_cons by (rewrite <- Hp; apply NoDup_seqZ).
    split_and!; [|by intros ?%Hfree|].
    + assert (port ∈ seqZ (ports_start range) (ports_end range - ports_start range)) as Hin%elem_of_seqZ by (rewrite Hp; by left).
      unfold OriginationPorts_contains. apply andb_true_iff. split; [apply Z.leb_le|apply Z.ltb_lt]; lia.
    + intros h' Hl'. destruct (decide (h' = h)) as [?|Hne]; [done|]. by destruct (Hnot (Hothers h' port Hne Hl')).
  - intros Hnone%vec_pop_None. rewrite Hnone in Hcount. cbn in Hcount. lia.
Qed.

Definition sample_ports : OriginationPorts := mkPorts 45000 45002.

Lemma ports_conserved_witness :
  let d := mkDialer [45001] ∅ {[ 7%nat := 45000 ]} in
  (forall h port, leased d h = Some port ->
     OriginationPorts_contains sample_ports port = true /\ port ∉ dr_free d /\ (forall h', leased d h' = Some port -> h' = h)) /\
  (length (dr_free d) + size (dr_attempts d) + size (dr_streams d) = OriginationPorts_capacity sample_ports)%nat /\
  (Ports_take (dr_free d) = None -> (size (dr_attempts d) + size (dr_streams d) = OriginationPorts_capacity sample_ports)%nat).
Proof.
  apply (ports_conserved sample_ports); [cbn; lia|].
  eapply rtc_l; [apply (dial_starts _ 1%nat 45000 [45001]); reflexivity|]. cbn.
  eapply rtc_l; [apply (dial_connects _ 1%nat 45000 7%nat); reflexivity|]. cbn. rewrite delete_insert_id by done. apply rtc_refl.
Defined.

(** * The order of addresses *)

Lemma interleave_loop_families fuel : forall v6 v4,
  (length v6 < fuel)%nat -> (length v4 < fuel)%nat -> Forall (fun a => is_ipv6 a = true) v6 -> Forall (fun a => is_ipv6 a = false) v4 ->
  List.filter is_ipv6 (interleave_loop fuel v6 v4) = v6 /\ List.filter (fun a => negb (is_ipv6 a)) (interleave_loop fuel v6 v4) = v4.
Proof.
  induction fuel as [|fuel IH]; intros v6 v4 H6 H4 F6 F4; [lia|]. cbn [interleave_loop].
  destruct (decide (length v6 + length v4 = 0)%nat) as [Hz|Hnz].
  { by destruct v6, v4; cbn in Hz; try lia. }
  destruct (IH (tail v6) (tail v4)) as [E6 E4].
  1-2: destruct v6, v4; cbn in *; lia.
  { by destruct F6. }
  { by destruct F4. }
  destruct F6 as [|a v6 Ha F6], F4 as [|b v4 Hb F4]; [done|..]; unfold option_list; cbn in *;
    rewrite ?Ha, ?Hb; cbn; rewrite ?Ha, ?Hb; cbn; split; congruence.
Qed.

Lemma interleave_loop_alternates fuel : forall v6 v4 i a,
  (length v6 < fuel)%nat -> (length v4 < fuel)%nat -> Forall (fun a => is_ipv6 a = true) v6 -> Forall (fun a => is_ipv6 a = false) v4 ->
  (i < 2 * (length v6 `min` length v4))%nat -> interleave_loop fuel v6 v4 !! i = Some a -> is_ipv6 a = Nat.even i.
Proof.
  induction fuel as [|fuel IH]; intros v6 v4 i a H6 H4 F6 F4 Hi; [lia|]. cbn [interleave_loop].
  destruct v6 as [|x v6], v4 as [|y v4]; cbn [length Nat.min] in Hi; try lia.
  apply Forall_cons in F6 as [Hx F6], F4 as [Hy F4]. cbn [list.head option_list app tail length] in *.
  destruct i as [|[|i]]; cbn [lookup list_lookup]; [by intros [= <-]..|]. cbn [Nat.even]. apply IH; try done; lia.
Qed.

Lemma filter_length_bound {A} (f : A -> bool) l : (length (List.filter f l) <= length l)%nat.
Proof. induction l as [|x l IH]; cbn; [done|]. destruct (f x); cbn; lia. Qed.

Lemma Forall_filter_true {A} (f : A -> bool) l : Forall (fun a => f a = true) (List.filter f l).
Proof. induction l as [|x l IH]; cbn; [constructor|]. destruct (f x) eqn:E; [by constructor|done]. Qed.

(** The attempts at a name's addresses: each address once, each family in the resolver's
    order, and while both families last they alternate with IPv6 first. *)
Theorem interleaved_order addresses :
  List.filter is_ipv6 (interleaved addresses) = List.filter is_ipv6 addresses /\
  List.filter (fun a => negb (is_ipv6 a)) (interleaved addresses) = List.filter (fun a => negb (is_ipv6 a)) addresses /\
  forall i a, (i < 2 * (length (List.filter is_ipv6 addresses) `min` length (List.filter (fun a => negb (is_ipv6 a)) addresses)))%nat ->
    interleaved addresses !! i = Some a -> is_ipv6 a = Nat.even i.
Proof.
  unfold interleaved. set (v6 := List.filter is_ipv6 addresses). set (v4 := List.filter (fun a => negb (is_ipv6 a)) addresses).
  assert (length v6 <= length addresses)%nat by apply filter_length_bound. assert (length v4 <= length addresses)%nat by apply filter_length_bound.
  assert (Forall (fun a => is_ipv6 a = true) v6) as F6 by apply Forall_filter_true.
  assert (Forall (fun a => is_ipv6 a = false) v4) as F4.
  { eapply Forall_impl; [apply Forall_filter_true|]. intros a. cbn. apply negb_true_iff. }
  destruct (interleave_loop_families (S (length addresses)) v6 v4) as [E6 E4]; [lia..|done|done|].
  split_and!; [done|done|]. intros i a. apply interleave_loop_alternates; (lia || done).
Qed.

(** The race ends with the first attempt that connects, in the order they end. *)
Lemma connect_first {W Stream} (before after : list (option (Res (EgressError W) Stream))) stream :
  Forall (fun j => forall s, j <> Some (Ok s)) before -> TunnelledDialer_connect (before ++ Some (Ok stream) :: after) = Ok stream.
Proof.
  unfold TunnelledDialer_connect. generalize (Io NotFound : EgressError W).
  induction before as [|j before IH]; intros last Hb; [done|]. apply Forall_cons in Hb as [Hj Hb]. cbn [app join_loop].
  destruct j as [[s|error|]|]; [by destruct (Hj s)|by apply IH..].
Qed.

(** The classifier excludes a range exactly when the flows are dialled from it. *)
Lemma assemble_aligned egress range :
  match as_flows (assemble egress range) with
  | Tunnelled dialer range' => as_origination_ports (assemble egress range) = Some range' /\ dialer = TunnelledDialer_new range'
  | GivenFlows _ => as_origination_ports (assemble egress range) = None
  end.
Proof. by destruct egress. Qed.
