(* ===== verification/PacketEgress.v ===== *)
(** The packet egress as the reactor sees it ([PacketEgress] of [src/egress/mod.rs]): a class of
    handlers that append to a list of emissions and take buffers from the pool they share with
    the datapath, with the laws the reactor relies on, and the instances of MASQUE and of the
    placeholder of a flow-only session. *)

From S2P Require Import Prelude Wire Net Plan Pool Varint IpText Text Egress Masque Origin.
Open Scope Z_scope.

Definition emitted (e : EgressEmit) : Pooled := match e with ToNetwork bs | ToTunnel bs => bs end.

Definition is_to_network (e : EgressEmit) : bool := match e with ToNetwork _ => true | ToTunnel _ => false end.

(** A handler's answer: its result, the egress, the pool and the emissions. *)
Abbreviation Handled W E := (Res (EgressError W) unit * E * BufferPool * list EgressEmit)%type.

(** [pe_next_deadline] reads the clock from a place on and answers the next place. *)
Class PacketEgress (W E : Type) := {
  pe_tun : bytes -> E -> BufferPool -> list EgressEmit -> Handled W E;
  pe_network : bytes -> E -> BufferPool -> list EgressEmit -> Handled W E;
  pe_tick : E -> BufferPool -> list EgressEmit -> Handled W E;
  pe_max_network_datagram : E -> nat;
  pe_tick_interval : E -> Duration;
  pe_next_deadline : E -> (nat -> Instant) -> nat -> option Instant * nat;
}.

(** What a handler may do: append emissions of the allowed kind, each a slice it took from
    the pool, and nothing else with the pool.  It panics only when [full]. *)
Definition handles {W E} (allowed : EgressEmit -> bool) (full : E -> Prop) (pool : BufferPool) (out : list EgressEmit)
    (h : Handled W E) : Prop :=
  let '(r, e, pool', out') := h in
  (r = Panic -> full e) /\ Forall (fun b => b = []) (free pool') /\
  exists new, out' = out ++ new /\ Forall allowed new /\ Forall bytes_ok (emitted <$> new) /\
    forall loans, rtc pool_step (pool, loans) (pool', reverse (emitted <$> new) ++ loans).

(** [pe_full]: the count of forwarded packets is at the end of its range. *)
Class PacketEgressLaws (W E : Type) `{PacketEgress W E} := {
  pe_full : E -> Prop;
  pe_tun_ok : forall packet e pool out, Forall (fun b => b = []) (free pool) ->
    handles is_to_network pe_full pool out (pe_tun packet e pool out);
  pe_network_ok : forall datagram e pool out, Forall (fun b => b = []) (free pool) ->
    handles (const true) pe_full pool out (pe_network datagram e pool out);
  pe_tick_ok : forall e pool out, Forall (fun b => b = []) (free pool) ->
    handles (const true) pe_full pool out (pe_tick e pool out);
  pe_clock_forward : forall e clock n, (n <= (pe_next_deadline e clock n).2)%nat;
}.

(** ** Composing handlers *)

(** A pool whose cached buffers are empty answers a take with the bytes it was given. *)
Lemma BufferPool_take_same p bs r p' :
  Forall (fun b => b = []) (free p) -> BufferPool_take p bs = (r, p') ->
  (r = Some bs \/ r = None) /\ Forall (fun b => b = []) (free p').
Proof.
  intros Hf. unfold BufferPool_take, BufferPool_reserve. destruct (_ <? _)%nat; [intros [= <- <-]; split; [by right|done]|].
  destruct (vec_pop (free p)) as [[b rest]|] eqn:Ep.
  - apply vec_pop_Some in Ep. rewrite Ep, Forall_app, Forall_singleton in Hf. destruct Hf as [Hr ->].
    intros [= <- <-]. split; [by left|done].
  - destruct (_ <=? _)%nat; intros [= <- <-]; (split; [by left + by right|done]).
Qed.

Section Handles.
Context {W E : Type} (allowed : EgressEmit -> bool) (full : E -> Prop).
Implicit Types (h : Handled W E).

Lemma handles_none pool out r e :
  Forall (fun b => b = []) (free pool) -> (r = Panic -> full e) -> handles (W := W) allowed full pool out (r, e, pool, out).
Proof.
  intros Hf Hr. split_and!; [exact Hr|exact Hf|]. exists []. rewrite app_nil_r. split_and!; [done|constructor|constructor|].
  intros loans. reflexivity.
Qed.

(** One emission more, if the pool has a slice for it. *)
Lemma handles_take pool out emit r pool1 h :
  BufferPool_take pool (emitted emit) = (r, pool1) -> Forall (fun b => b = []) (free pool) ->
  (forall b, r = Some b -> bytes_ok (emitted emit) /\ allowed emit) ->
  (Forall (fun b => b = []) (free pool1) -> r = Some (emitted emit) \/ r = None ->
   handles allowed full pool1 (out ++ if r then [emit] else []) h) ->
  handles allowed full pool out h.
Proof.
  intros Ht Hf Hb Hh. destruct (BufferPool_take_same _ _ _ _ Hf Ht) as [Hr Hf1]. specialize (Hh Hf1 Hr).
  destruct h as [[[res e] pool'] out']. destruct Hh as (Hp & Hf' & new & -> & Hn & Hbs & Hsteps). split_and!; [exact Hp|exact Hf'|].
  assert (forall loans, pool_step (pool, loans) (pool1, option_list r ++ loans)) as Hstep by (intros loans; by apply (Pool.pool_take pool loans (emitted emit) r)).
  destruct Hr as [->| ->].
  - destruct (Hb _ eq_refl) as [Hok Ha]. exists (emit :: new). split_and!; [by rewrite <- (assoc_L (++))|by constructor|by constructor|].
    intros loans. cbn [fmap list_fmap]. rewrite reverse_cons, <- (assoc_L (++)). eapply rtc_l; [apply Hstep|apply Hsteps].
  - exists new. split_and!; [by rewrite app_nil_r|done|done|]. intros loans. eapply rtc_l; [apply Hstep|apply Hsteps].
Qed.

(** One handler after another. *)
Lemma handles_seq pool out e pool1 out1 h :
  handles (W := W) allowed full pool out (Ok tt, e, pool1, out1) ->
  (Forall (fun b => b = []) (free pool1) -> handles allowed full pool1 out1 h) -> handles allowed full pool out h.
Proof.
  destruct h as [[[r e'] pool'] out']. intros (_ & Hf1 & new1 & -> & Hn1 & Hb1 & Hs1) Hh.
  destruct (Hh Hf1) as (Hr & Hf & new & -> & Hn & Hb & Hs). split_and!; [exact Hr|exact Hf|].
  exists (new1 ++ new). rewrite fmap_app, reverse_app. split_and!; [by rewrite (assoc_L (++))|by apply Forall_app|by apply Forall_app|].
  intros loans. etrans; [apply Hs1|]. rewrite <- (assoc_L (++)). apply Hs.
Qed.
End Handles.

Lemma handles_weaken {W E} (allowed allowed' : EgressEmit -> bool) full pool out (h : Handled W E) :
  (forall e, allowed e -> allowed' e) -> handles allowed full pool out h -> handles allowed' full pool out h.
Proof.
  destruct h as [[[r e] pool'] out']. intros Hsub (Hr & Hf & new & -> & Hn & Hbs & Hsteps). split_and!; [exact Hr|exact Hf|].
  exists new. split_and!; try done. eapply Forall_impl; [exact Hn|]. intros x. apply Hsub.
Qed.

(** ** The placeholder *)

#[export] Instance NoPacketEgress_seam {W} : PacketEgress W unit := {|
  pe_tun := fun packet e pool out => (NoPacketEgress_handle packet, e, pool, out);
  pe_network := fun datagram e pool out => (NoPacketEgress_handle datagram, e, pool, out);
  pe_tick := fun e pool out => (NoPacketEgress_tick, e, pool, out);
  pe_max_network_datagram := fun _ => 1%nat;
  pe_tick_interval := fun _ => from_secs 3600;
  pe_next_deadline := fun _ _ n => (None, n);
|}.

#[export] Instance NoPacketEgress_seam_laws {W} : PacketEgressLaws W unit.
Proof.
  refine {| pe_full := fun _ => False |}; [intros packet e pool out Hf|intros packet e pool out Hf|intros e pool out Hf|by intros];
    by apply handles_none.
Qed.

(** ** MASQUE *)

Definition MASQUE_TICK : Duration := 250 * (NANOS / 1000).

(** quiche writes bytes, and so do the varints. *)
Class QuicheBytes (Q : Type) `{Quiche Q} : Prop := {
  q_send_bytes : forall size q bs q', q_send size q = (Written bs, q') -> bytes_ok bs;
  q_dgram_recv_bytes : forall size q bs q', q_dgram_recv size q = (Some bs, q') -> bytes_ok bs;
}.

Section Masque.
Context {W Q : Type} `{QuicheBytes Q, !QuicheLaws Q, Varint}.
Implicit Types self : MasqueEgress Q.

(** [conn.timeout()] reads the clock, and the deadline is counted from another reading. *)
Definition Masque_next_deadline self (clock : nat -> Instant) (n : nat) : option Instant * nat :=
  match q_timeout_instant (me_conn self) with
  | Some timeout => (Some (clock (S n) + saturating_duration_since timeout (clock n)), S (S n))
  | None => (None, n)
  end.

(** A handler of the egress, in which the pool is a field, with the pool beside it. *)
Definition with_shared (handler : MasqueEgress Q -> list EgressEmit -> Res (EgressError W) unit * MasqueEgress Q * list EgressEmit)
    self (pool : BufferPool) (out : list EgressEmit) : Handled W (MasqueEgress Q) :=
  let '(r, self, out) := handler (with_pool self pool) out in (r, self, me_pool self, out).

#[export] Instance Masque_seam : PacketEgress W (MasqueEgress Q) := {|
  pe_tun := fun packet => with_shared (fun self => handle_tun_packet self packet);
  pe_network := fun datagram => with_shared (fun self => handle_network_packet self datagram);
  pe_tick := with_shared tick;
  pe_max_network_datagram := fun _ => Z.to_nat U16_MAX;
  pe_tick_interval := fun _ => MASQUE_TICK;
  pe_next_deadline := Masque_next_deadline;
|}.

(** [handles] for a handler of the egress as MASQUE has it. *)
Abbreviation masque_handles allowed self out r self' out' :=
  (handles (W := W) allowed (fun e => U64_MAX <= me_fast_path_packets e) (me_pool self) out (r, self', me_pool self', out')).

Lemma drain_send_loop_handles fuel : forall self out,
  (q_work (me_conn self) < fuel)%nat -> Forall (fun b => b = []) (free (me_pool self)) ->
  let '(r, self', out') := drain_send_loop (W := W) fuel self out in masque_handles is_to_network self out r self' out'.
Proof.
  induction fuel as [|fuel IH]; intros self out Hf Hfree; [lia|]. cbn [drain_send_loop].
  destruct (q_send (me_scratch self) (me_conn self)) as [sent conn] eqn:Es. destruct sent as [bs| |]; [|by apply handles_none..].
  pose proof (q_send_bytes _ _ _ _ Es) as Hb. apply q_send_works in Es as [Hw _].
  destruct (BufferPool_take _ bs) as [r pool] eqn:Et.
  assert (forall self1 out1, me_pool self1 = pool -> q_work (me_conn self1) = q_work conn -> Forall (fun b => b = []) (free pool) ->
    let '(r', self', out') := drain_send_loop (W := W) fuel self1 out1 in
    handles (W := W) is_to_network (fun e => U64_MAX <= me_fast_path_packets e) pool out1 (r', self', me_pool self', out')) as Hgo.
  { intros self1 out1 Hp Hq Hfr. rewrite <- Hp in *. apply IH; [lia|done]. }
  destruct r as [pooled|].
  - specialize (Hgo (with_pool (with_conn self conn) pool) (out ++ [ToNetwork pooled]) eq_refl eq_refl).
    destruct (drain_send_loop fuel _ _) as [[r' self'] out']. eapply (handles_take _ _ _ _ (ToNetwork bs)); [exact Et|done|done|].
    intros Hfr [[= ->]|?]; [|done]. by apply Hgo.
  - eapply (handles_take _ _ _ _ (ToNetwork bs)); [exact Et|done|done|]. intros Hfr _. rewrite app_nil_r. by apply handles_none.
Qed.

Lemma poll_h3_loop_pool fuel : forall body_fuel self,
  me_pool (poll_h3_loop (W := W) fuel body_fuel self).2 = me_pool self.
Proof.
  induction fuel as [|fuel IH]; intros body_fuel self; [done|]. cbn [poll_h3_loop].
  destruct (q_poll (me_conn self)) as [[stream [fields| | |]| |] conn]; try (rewrite IH; done); try done.
  destruct (discard_body _ _ _ _); [by rewrite IH|done].
Qed.

Lemma decode_ip_datagram_bytes d flow_id packet : bytes_ok d -> decode_ip_datagram d flow_id = Some packet -> bytes_ok packet.
Proof.
  unfold decode_ip_datagram, Reader_varint. intros Hd Hp.
  apply bind_Some in Hp as ([flow reader] & Hr & Hp). apply bind_Some in Hr as ([v n] & _ & [= _ <-]).
  destruct (negb _); [done|]. apply bind_Some in Hp as ([context reader] & Hr & Hp). apply bind_Some in Hr as ([v' n'] & _ & [= _ <-]).
  destruct (negb _); [done|]. destruct (negb _); [|done]. injection Hp as <-. unfold Reader_rest. by apply Forall_drop.
Qed.

Lemma drain_datagrams_loop_handles fuel flow_id : forall self out,
  (q_work (me_conn self) < fuel)%nat -> Forall (fun b => b = []) (free (me_pool self)) ->
  let '(r, self', out') := drain_datagrams_loop (W := W) fuel flow_id self out in masque_handles (const true) self out r self' out' /\ r = Ok tt.
Proof.
  induction fuel as [|fuel IH]; intros self out Hf Hfree; [lia|]. cbn [drain_datagrams_loop].
  destruct (q_dgram_recv (me_scratch self) (me_conn self)) as [[d|] conn] eqn:Ed; [|split; [by apply handles_none|done]].
  pose proof (q_dgram_recv_bytes _ _ _ _ Ed) as Hd. apply q_dgram_recv_works in Ed as [Hw _].
  destruct (decode_ip_datagram d flow_id) as [packet|] eqn:Edec.
  2:{ specialize (IH (with_conn self conn) out). cbn [with_conn me_conn me_pool] in IH. apply IH; [lia|done]. }
  pose proof (decode_ip_datagram_bytes _ _ _ Hd Edec) as Hb. destruct (BufferPool_take _ packet) as [r pool] eqn:Et. destruct r as [pooled|].
  - specialize (IH (with_pool (with_conn self conn) pool) (out ++ [ToTunnel pooled])). cbn [with_pool with_conn me_conn me_pool] in IH.
    destruct (BufferPool_take_same _ _ _ _ Hfree Et) as [_ Hfr]. specialize (IH ltac:(lia) Hfr).
    destruct (drain_datagrams_loop fuel _ _ _) as [[r' self'] out']. destruct IH as [IH Hr]. split; [|exact Hr].
    eapply (handles_take _ _ _ _ (ToTunnel packet)); [exact Et|done|done|]. intros _ [[= ->]|?]; [exact IH|done].
  - split; [|done]. eapply (handles_take _ _ _ _ (ToTunnel packet)); [exact Et|done|done|]. intros Hfr _. rewrite app_nil_r. by apply handles_none.
Qed.

Lemma send_connect_pool self : me_pool (send_connect (W := W) self).2 = me_pool self /\ (send_connect (W := W) self).1 <> Panic.
Proof.
  unfold send_connect. destruct (me_h3 self); [done|]. destruct (q_with_transport _) as [[] conn]; [|done]. cbn [negb].
  by destruct (q_send_request _ _) as [[stream|] conn'].
Qed.

Lemma poll_h3_pool self : me_pool (poll_h3 (W := W) self).2 = me_pool self /\ (poll_h3 (W := W) self).1 <> Panic.
Proof.
  unfold poll_h3. destruct (me_h3 self) eqn:Eh; [|done]. split; [apply poll_h3_loop_pool|].
  pose proof (poll_h3_loop_moved (W := W) (S (q_work (me_conn self))) (S (q_work (me_conn self))) self Eh ltac:(lia) ltac:(lia)) as Hm.
  destruct (poll_h3_loop _ _ _). by destruct Hm as [[? _] _].
Qed.

Lemma advance_and_drain_handles self out :
  Forall (fun b => b = []) (free (me_pool self)) ->
  let '(r, self', out') := advance_and_drain (W := W) self out in masque_handles (const true) self out r self' out'.
Proof.
  intros Hfree. assert (forall self1 out1, me_pool self1 = me_pool self -> masque_handles (const true) self out (Ok tt) self1 out1 ->
    let '(r, self', out') := drain_send (W := W) self1 out1 in masque_handles (const true) self out r self' out') as Hdrain.
  { intros self1 out1 Hp Hh. unfold drain_send. rewrite <- Hp in *.
    pose proof (drain_send_loop_handles (S (q_work (me_conn self1))) self1 out1 ltac:(lia) Hfree) as Hs.
    destruct (drain_send_loop _ self1 out1) as [[r self'] out']. eapply handles_seq; [exact Hh|]. intros _.
    eapply handles_weaken; [|exact Hs]. done. }
  unfold advance_and_drain, advance_tunnel. destruct (q_is_closed _); [apply Hdrain; [done|by apply handles_none]|].
  destruct (negb _); [apply Hdrain; [done|by apply handles_none]|].
  destruct (send_connect_pool self) as [Hp1 Hn1]. destruct (send_connect self) as [r1 self1]. cbn [fst snd] in *.
  assert (forall (r : Res (EgressError W) unit) self', r <> Panic -> me_pool self' = me_pool self -> masque_handles (const true) self out r self' out) as Hnone.
  { intros r self' Hr ->. by apply handles_none. }
  destruct r1 as [[]|e|]; [|by apply Hnone|done]. destruct (poll_h3_pool self1) as [Hp2 Hn2]. destruct (poll_h3 self1) as [r2 self2]. cbn [fst snd] in *.
  destruct r2 as [[]|e|]; [|apply Hnone; [done|congruence]|done]. assert (me_pool self2 = me_pool self) as Hp by congruence. unfold drain_datagrams.
  destruct (me_state self2) as [|f|f|reason]; [by apply Hdrain, Hnone..| |by apply Hdrain, Hnone].
  pose proof (drain_datagrams_loop_handles (S (q_work (me_conn self2))) f self2 out ltac:(lia)) as Hd. rewrite Hp in Hd.
  specialize (Hd Hfree). destruct (drain_datagrams_loop _ f self2 out) as [[r3 self3] out3]. destruct Hd as [Hd ->].
  unfold drain_send. pose proof (drain_send_loop_handles (S (q_work (me_conn self3))) self3 out3 ltac:(lia)) as Hs.
  destruct (drain_send_loop _ self3 out3) as [[r self'] out']. eapply handles_seq; [exact Hd|]. intros Hf3.
  eapply handles_weaken; [|by apply Hs]. done.
Qed.

#[export] Instance Masque_seam_laws : PacketEgressLaws W (MasqueEgress Q).
Proof.
  refine {| pe_full := fun e => U64_MAX <= me_fast_path_packets e |}.
  - intros packet e pool out Hfree. cbn [pe_tun Masque_seam]. unfold with_shared, handle_tun_packet.
    assert (forall self1 count, me_pool self1 = pool ->
      let '(r, self', out') := drain_send (W := W) (mkMasque (me_conn self1) (me_h3 self1) (me_state self1) (me_config self1) (me_pool self1)
        (me_scratch self1) count) out in
      handles (W := W) is_to_network (fun e => U64_MAX <= me_fast_path_packets e) pool out (r, self', me_pool self', out')) as Hdrain.
    { intros self1 count Hp. unfold drain_send. set (self2 := mkMasque _ _ _ _ _ _ _).
      pose proof (drain_send_loop_handles (S (q_work (me_conn self2))) self2 out ltac:(lia)) as Hs. cbn [self2 me_pool] in Hs. rewrite Hp in Hs.
      exact (Hs Hfree). }
    destruct (me_state (with_pool e pool)) as [|f|f|reason] eqn:Es; try (specialize (Hdrain (with_pool e pool) (me_fast_path_packets e) eq_refl);
      cbn [me_fast_path_packets with_pool]; by destruct (drain_send _ _) as [[r self'] out']).
    destruct (q_dgram_send _ _) as [[] conn].
    + unfold checked_add. destruct (_ <=? U64_MAX) eqn:Ec; reflect.
      * specialize (Hdrain (with_conn (with_pool e pool) conn) (me_fast_path_packets (with_pool e pool) + 1) eq_refl).
        by destruct (drain_send _ _) as [[r self'] out'].
      * apply handles_none; [done|]. intros _. cbn in *. lia.
    + specialize (Hdrain (with_conn (with_pool e pool) conn) (me_fast_path_packets (with_pool e pool)) eq_refl).
      by destruct (drain_send _ _) as [[r self'] out'].
  - intros datagram e pool out Hfree. cbn [pe_network Masque_seam]. unfold with_shared, handle_network_packet.
    destruct (q_recv datagram _) as [[] conn]; cbn [negb]; [|by apply handles_none].
    pose proof (advance_and_drain_handles (with_conn (with_pool e pool) conn) out Hfree) as Ha. by destruct (advance_and_drain _ _) as [[r self'] out'].
  - intros e pool out Hfree. cbn [pe_tick Masque_seam]. unfold with_shared, tick.
    pose proof (advance_and_drain_handles (with_conn (with_pool e pool) (q_on_timeout (me_conn (with_pool e pool)))) out Hfree) as Ha.
    by destruct (advance_and_drain _ _) as [[r self'] out'].
  - intros e clock n. cbn. unfold Masque_next_deadline. destruct (q_timeout_instant _); cbn; lia.
Qed.
End Masque.
