(* ===== verification/WireGuard.v ===== *)
(** The WireGuard egress ([WireGuardEgress] of [src/egress/mod.rs]): what leaves GotaTun becomes
    pooled emissions, and a decrypted packet loses its padding on the way to the datapath.
    GotaTun (the tunnel, its handshake limiter and its buffers) is the class [Gotatun]. *)

From S2P Require Import Prelude Wire Net Plan Pool Varint IpText Text Egress Masque Origin PacketEgress.
Open Scope Z_scope.

Definition WIREGUARD_OVERHEAD_BYTES : Z := 80.
Definition WIREGUARD_TICK : Duration := 250 * (NANOS / 1000).

(** [TunnResult]; [K] is a parsed WireGuard packet ([WgKind]). *)
Inductive TunnResult (K X : Type) :=
| TunnDone
| TunnErr (error : X)
| WriteToNetwork (kind : K)
| WriteToTunnel (packet : bytes).
Arguments TunnDone {K X}. Arguments TunnErr {K X}. Arguments WriteToNetwork {K X}. Arguments WriteToTunnel {K X}.

(** [T] is the tunnel with its limiter, its MTU watcher and its buffers; [wg_buffer] is what
    [packets.get()] hands out. *)
Class Gotatun (T K W : Type) := {
  kind_bytes : K -> bytes;
  wg_buffer : T -> bytes * T;
  wg_outgoing : bytes -> T -> option K * T;
  wg_verify : bytes -> T -> (K + TunnResult K W) * T;
  wg_incoming : K -> T -> TunnResult K W * T;
  wg_queued : T -> list K * T;
  wg_timers : T -> Res W (option K) * T;
  wg_invalid_packet : W -> bool;
}.

(** What GotaTun writes is bytes, and its timers do not panic. *)
Class GotatunLaws (T K W : Type) `{Gotatun T K W} : Prop := {
  kind_bytes_ok : forall k, bytes_ok (kind_bytes k);
  wg_incoming_bytes : forall k t packet t', wg_incoming k t = (WriteToTunnel packet, t') -> bytes_ok packet;
  wg_timers_answer : forall t, (wg_timers t).1 <> Panic;
}.

Record WireGuardEgress (T K : Type) := mkWireGuard { we_tunn : T; we_queued : list K; we_fast_path_packets : Z }.
Arguments mkWireGuard {T K}. Arguments we_tunn {T K}. Arguments we_queued {T K}. Arguments we_fast_path_packets {T K}.

Section WireGuard.
Context {T K W : Type} `{Gotatun T K W}.
Implicit Types (self : WireGuardEgress T K) (pool : BufferPool) (out : list EgressEmit).

Definition WireGuard_new (tunn : T) : WireGuardEgress T K := mkWireGuard tunn [] 0.

Definition with_tunn self (tunn : T) : WireGuardEgress T K := mkWireGuard tunn (we_queued self) (we_fast_path_packets self).

(** The bytes in a recycled buffer, or in a fresh one when they do not fit. *)
Definition stage (bs : bytes) self : bytes * WireGuardEgress T K :=
  let '(buffer, tunn) := wg_buffer (we_tunn self) in
  (if (length buffer <? length bs)%nat then bs else take (length bs) (bs ++ drop (length bs) buffer), with_tunn self tunn).

Definition network_emit (kind : K) pool : Res (EgressError W) EgressEmit * BufferPool :=
  match BufferPool_take pool (kind_bytes kind) with
  | (Some pooled, pool) => (Ok (ToNetwork pooled), pool)
  | (None, pool) => (Err PoolExhausted, pool)
  end.

(** [try_for_each] over the drained queue. *)
Fixpoint emit_all (kinds : list K) self pool out : Handled W (WireGuardEgress T K) :=
  match kinds with
  | [] => (Ok tt, self, pool, out)
  | kind :: kinds =>
      match network_emit kind pool with
      | (Ok emit, pool) => emit_all kinds self pool (out ++ [emit])
      | (Err e, pool) => (Err e, self, pool, out)
      | (Panic, pool) => (Panic, self, pool, out)
      end
  end.

(** The scratch vector comes back empty. *)
Definition flush_queue self pool out : Handled W (WireGuardEgress T K) :=
  let '(queued, tunn) := wg_queued (we_tunn self) in
  emit_all queued (mkWireGuard tunn [] (we_fast_path_packets self)) pool out.

(** [out.push(self.network_emit(kind)?)]. *)
Definition push_emit (kind : K) self pool out : Handled W (WireGuardEgress T K) := emit_all [kind] self pool out.

Definition WireGuard_tun (packet : bytes) self pool out : Handled W (WireGuardEgress T K) :=
  match checked_add U64_MAX (we_fast_path_packets self) 1 with
  | None => (Panic, self, pool, out)
  | Some count =>
      let '(packet, self) := stage packet (mkWireGuard (we_tunn self) (we_queued self) count) in
      let '(kind, tunn) := wg_outgoing packet (we_tunn self) in
      let self := with_tunn self tunn in
      match kind with
      | None => (Ok tt, self, pool, out)
      | Some kind => push_emit kind self pool out
      end
  end.

(** A handler that flushes the queue when its first part succeeded. *)
Definition then_flush (h : Handled W (WireGuardEgress T K)) : Handled W (WireGuardEgress T K) :=
  match h with
  | (Ok _, self, pool, out) => flush_queue self pool out
  | h => h
  end.

Definition WireGuard_network (datagram : bytes) self pool out : Handled W (WireGuardEgress T K) :=
  let '(packet, self) := stage datagram self in
  let '(verified, tunn) := wg_verify packet (we_tunn self) in
  let self := with_tunn self tunn in
  match verified with
  | inr (WriteToNetwork cookie) => push_emit cookie self pool out
  | inr (TunnErr error) => (Err (if wg_invalid_packet error then MalformedNetworkPacket else WireGuard error), self, pool, out)
  | inr (TunnDone | WriteToTunnel _) => (Ok tt, self, pool, out)
  | inl kind =>
      let '(result, tunn) := wg_incoming kind (we_tunn self) in
      let self := with_tunn self tunn in
      then_flush
        match result with
        | TunnDone => (Ok tt, self, pool, out)
        | TunnErr error => (Err (WireGuard error), self, pool, out)
        | WriteToNetwork kind => push_emit kind self pool out
        | WriteToTunnel [] => (Ok tt, self, pool, out)
        | WriteToTunnel packet =>
            match strip_padding packet with
            | Ok stripped =>
                match BufferPool_take pool stripped with
                | (Some pooled, pool) => (Ok tt, self, pool, out ++ [ToTunnel pooled])
                | (None, pool) => (Err PoolExhausted, self, pool, out)
                end
            | Err e => (Err e, self, pool, out)
            | Panic => (Panic, self, pool, out)
            end
        end
  end.

Definition WireGuard_tick self pool out : Handled W (WireGuardEgress T K) :=
  let '(timers, tunn) := wg_timers (we_tunn self) in
  let self := with_tunn self tunn in
  match timers with
  | Ok (Some kind) => then_flush (push_emit kind self pool out)
  | Ok None => flush_queue self pool out
  | Err error => (Err (WireGuard error), self, pool, out)
  | Panic => (Panic, self, pool, out)
  end.

Definition WireGuard_properties : PathProperties := mkPath Native WIREGUARD_OVERHEAD_BYTES None false EndpointIndependent.

#[export] Instance WireGuard_seam : PacketEgress W (WireGuardEgress T K) := {|
  pe_tun := WireGuard_tun;
  pe_network := WireGuard_network;
  pe_tick := WireGuard_tick;
  pe_max_network_datagram := fun _ => Z.to_nat U16_MAX;
  pe_tick_interval := fun _ => WIREGUARD_TICK;
  pe_next_deadline := fun _ _ n => (None, n);
|}.

(** ** Padding *)

(** [bs] is a packet of the length its IP header declares. *)
Definition declared_exactly (bs : bytes) : Prop :=
  match bs with
  | first :: _ =>
      Z.shiftr first 4 = 4 /\ 20 <= Z.land first 0x0f * 4 <= Z.of_nat (length bs) /\ (20 <= length bs)%nat /\ be_value (take 2 (drop 2 bs)) = Z.of_nat (length bs) \/
      Z.shiftr first 4 = 6 /\ (40 <= length bs)%nat /\ 40 + be_value (take 2 (drop 4 bs)) = Z.of_nat (length bs)
  | [] => False
  end.

Lemma two_at (bs more : bytes) n : (n + 2 <= length bs)%nat ->
  exists hi lo, (bs ++ more) !! n = Some hi /\ (bs ++ more) !! S n = Some lo /\ take 2 (drop n bs) = [hi; lo].
Proof.
  intros Hn. destruct (lookup_lt_is_Some_2 bs n) as [hi Hhi]; [lia|]. destruct (lookup_lt_is_Some_2 bs (S n)) as [lo Hlo]; [lia|].
  exists hi, lo. rewrite !lookup_app_l by lia. split_and!; [done|done|].
  rewrite (drop_S _ _ _ Hhi), (drop_S _ _ _ Hlo). done.
Qed.

(** Padding is cut, whatever it holds. *)
Lemma strip_padding_exact {E} packet pad : declared_exactly packet -> @strip_padding E (packet ++ pad) = Ok packet.
Proof.
  intros Hd. assert (forall len, Z.of_nat (length packet) = len ->
    @Ok E bytes (default (packet ++ pad) (len ← Some len; get_to (packet ++ pad) (Z.to_nat len))) = Ok packet) as Hcut.
  { intros len <-. cbn [mbind option_bind]. rewrite Nat2Z.id. unfold get_to. rewrite length_app, (proj2 (Nat.leb_le _ _)) by lia.
    cbn. by rewrite take_app_length. }
  unfold strip_padding. destruct packet as [|first rest]; [done|]. change ((first :: rest) ++ pad) with (first :: (rest ++ pad)) at 1.
  cbn [app] in *. cbv beta iota.
  assert (length (first :: rest ++ pad) = (length (first :: rest) + length pad)%nat) as Hlen by (cbn; rewrite length_app; lia).
  rewrite Hlen. change (first :: rest ++ pad) with ((first :: rest) ++ pad) in *. destruct Hd as [(H4 & Hh & H20 & Hv)|(H6 & H40 & Hv)].
  - rewrite H4, Z.eqb_refl, (proj2 (Nat.leb_le _ _)) by lia. cbn [andb]. destruct (two_at (first :: rest) pad 2) as (hi & lo & Hhi & Hlo & Ht); [lia|].
    rewrite Hhi, Hlo. cbn [or_panic mbind Res_bind]. rewrite Ht in Hv. rewrite Hv.
    rewrite !(proj2 (Z.leb_le _ _)) by lia. cbn [andb]. by apply Hcut.
  - rewrite H6. cbn [Z.eqb Pos.eqb andb]. rewrite (proj2 (Nat.leb_le _ _)) by lia. destruct (two_at (first :: rest) pad 4) as (hi & lo & Hhi & Hlo & Ht); [lia|].
    rewrite Hhi, Hlo. cbn [or_panic mbind Res_bind]. rewrite Ht in Hv. by apply Hcut.
Qed.

(** Whatever the packet, what is left of it is a prefix. *)
Lemma strip_padding_total {E} packet : exists n, @strip_padding E packet = Ok (take n packet).
Proof.
  unfold strip_padding. destruct packet as [|first rest]; [by exists 0%nat|].
  assert (forall declared, exists n, @Ok E bytes (default (first :: rest) (len ← declared; get_to (first :: rest) (Z.to_nat len))) = Ok (take n (first :: rest))) as Hcut.
  { intros [len|]; cbn [mbind option_bind default]; [|exists (length (first :: rest)); by rewrite take_ge].
    unfold get_to. destruct (_ <=? _)%nat; [by exists (Z.to_nat len)|]. exists (length (first :: rest)). by rewrite take_ge. }
  assert (forall i j, (i < length (first :: rest))%nat -> (j < length (first :: rest))%nat -> exists hi lo, (first :: rest) !! i = Some hi /\ (first :: rest) !! j = Some lo) as Hat.
  { intros i j Hi Hj. destruct (lookup_lt_is_Some_2 (first :: rest) i Hi) as [hi ?]. destruct (lookup_lt_is_Some_2 (first :: rest) j Hj) as [lo ?]. eauto. }
  destruct (_ && (20 <=? _)%nat) eqn:E4; reflect; [|destruct (_ && (40 <=? _)%nat) eqn:E6; reflect; [|exact (Hcut None)]].
  - destruct (Hat 2%nat 3%nat) as (hi & lo & -> & ->); [lia..|]. cbn [or_panic mbind Res_bind]. apply Hcut.
  - destruct (Hat 4%nat 5%nat) as (hi & lo & -> & ->); [lia..|]. cbn [or_panic mbind Res_bind]. apply (Hcut (Some _)).
Qed.

Lemma stage_same bs self : (stage bs self).1 = bs.
Proof. unfold stage. destruct (wg_buffer _) as [buffer tunn]. cbn. case_match; [done|]. by rewrite take_app_length. Qed.

(** ** The interface *)

Context `{!GotatunLaws T K W}.

Abbreviation full := (fun self : WireGuardEgress T K => U64_MAX <= we_fast_path_packets self).

Lemma emit_all_handles kinds self : forall pool out,
  Forall (fun b => b = []) (free pool) -> handles is_to_network full pool out (emit_all kinds self pool out).
Proof.
  induction kinds as [|kind kinds IH]; intros pool out Hf; cbn [emit_all]; [by apply handles_none|]. unfold network_emit.
  destruct (BufferPool_take pool (kind_bytes kind)) as [r pool1] eqn:Et.
  eapply (handles_take _ _ _ _ (ToNetwork (kind_bytes kind))); [exact Et|done|intros b _; split; [apply kind_bytes_ok|done]|].
  intros Hf1 [->| ->]; [by apply IH|]. rewrite app_nil_r. by apply handles_none.
Qed.

Lemma any_handles kinds self pool out :
  Forall (fun b => b = []) (free pool) -> handles (const true) full pool out (emit_all kinds self pool out).
Proof. intros Hf. eapply handles_weaken; [|by apply emit_all_handles]. done. Qed.

Lemma then_flush_handles pool out h : handles (const true) full pool out h -> handles (const true) full pool out (then_flush h).
Proof.
  destruct h as [[[r self] pool1] out1]. intros Hh. destruct r as [[]| |]; [|exact Hh..]. cbn [then_flush].
  eapply handles_seq; [exact Hh|]. intros Hf. unfold flush_queue. destruct (wg_queued _) as [queued tunn]. by apply any_handles.
Qed.

#[export] Instance WireGuard_seam_laws : PacketEgressLaws W (WireGuardEgress T K).
Proof.
  refine {| pe_full := full |}; [| | |by intros].
  - intros packet e pool out Hf. cbn [pe_tun WireGuard_seam]. unfold WireGuard_tun, checked_add.
    destruct (_ <=? U64_MAX) eqn:Ec; reflect; [|apply handles_none; [done|intros _; lia]].
    destruct (stage _ _) as [staged self]. destruct (wg_outgoing _ _) as [[kind|] tunn]; [by apply emit_all_handles|by apply handles_none].
  - intros datagram e pool out Hf. cbn [pe_network WireGuard_seam]. unfold WireGuard_network.
    destruct (stage _ _) as [staged self]. destruct (wg_verify _ _) as [[kind|[|error|cookie|packet]] tunn]; try by apply handles_none.
    2:{ by apply any_handles. }
    destruct (wg_incoming kind _) as [result tunn1] eqn:Ei. apply then_flush_handles.
    destruct result as [|error|kind1|packet]; [by apply handles_none..|by apply any_handles|]. apply wg_incoming_bytes in Ei.
    destruct packet as [|first rest]; [by apply handles_none|]. destruct (@strip_padding_total (EgressError W) (first :: rest)) as [n ->].
    destruct (BufferPool_take pool _) as [r pool1] eqn:Et.
    eapply (handles_take _ _ _ _ (ToTunnel (take n (first :: rest)))); [exact Et|done|intros b _; split; [by apply Forall_take|done]|].
    intros Hf1 [->| ->]; [|rewrite app_nil_r]; by apply handles_none.
  - intros e pool out Hf. cbn [pe_tick WireGuard_seam]. unfold WireGuard_tick. pose proof (wg_timers_answer (we_tunn e)) as Hn.
    destruct (wg_timers _) as [[[kind|]|error|] tunn]; [apply then_flush_handles; by apply any_handles| |by apply handles_none|done].
    unfold flush_queue. destruct (wg_queued _) as [queued tunn1]. by apply any_handles.
Qed.

(** ** Both ends *)

(** Two tunnels with a session between them: a data packet of the one is accepted by the
    other and decrypts to the packet with its padding, and taking a buffer changes nothing. *)
Class GotatunPair (paired : T -> T -> Prop) : Prop := {
  paired_buffers : forall a b, paired a b -> paired (wg_buffer a).2 (wg_buffer b).2;
  paired_delivers : forall a b packet k a',
    paired a b -> bytes_ok packet -> wg_outgoing packet a = (Some k, a') ->
    exists k' b1 pad b', wg_verify (kind_bytes k) b = (inl k', b1) /\ wg_incoming k' b1 = (WriteToTunnel (packet ++ pad), b');
}.

Lemma emit_all_appends kinds self pool out :
  let '(_, _, _, out') := emit_all kinds self pool out in exists sent, out' = out ++ (ToNetwork <$> sent).
Proof.
  revert pool out. induction kinds as [|kind kinds IH]; intros pool out; cbn [emit_all]; [exists []; by rewrite app_nil_r|].
  unfold network_emit. destruct (BufferPool_take pool _) as [[b|] pool1]; [|exists []; by rewrite app_nil_r].
  specialize (IH pool1 (out ++ [ToNetwork b])). destruct (emit_all kinds self pool1 _) as [[[r self'] pool'] out'].
  destruct IH as [sent ->]. exists (b :: sent). by rewrite <- (assoc_L (++)).
Qed.

Lemma WireGuard_tun_emits packet self pool out slice capacity loans k tunn :
  we_fast_path_packets self < U64_MAX -> accounts slice capacity pool loans -> (length loans < capacity)%nat ->
  wg_outgoing packet (wg_buffer (we_tunn self)).2 = (Some k, tunn) -> (length (kind_bytes k) <= slice)%nat ->
  exists self' pool', WireGuard_tun packet self pool out = (Ok tt, self', pool', out ++ [ToNetwork (kind_bytes k)]).
Proof.
  intros Hc Hp Hl Ho Hk. unfold WireGuard_tun, checked_add. rewrite (proj2 (Z.leb_le _ _)) by lia.
  set (self0 := mkWireGuard _ _ _). pose proof (stage_same packet self0) as Hs. assert (we_tunn (stage packet self0).2 = (wg_buffer (we_tunn self)).2) as Ht
    by (unfold stage; cbn; by destruct (wg_buffer _)).
  destruct (stage packet self0) as [staged self1]. cbn [fst snd] in *. subst staged. rewrite Ht, Ho. unfold push_emit. cbn [emit_all]. unfold network_emit.
  destruct (pool_take_ok slice capacity pool loans (kind_bytes k) Hp Hk Hl) as (pool' & -> & _). by eexists _, _.
Qed.

Lemma WireGuard_network_delivers datagram self pool out slice capacity loans k tunn packet pad tunn' :
  accounts slice capacity pool loans -> (length loans < capacity)%nat -> (length packet <= slice)%nat -> declared_exactly packet ->
  wg_verify datagram (wg_buffer (we_tunn self)).2 = (inl k, tunn) -> wg_incoming k tunn = (WriteToTunnel (packet ++ pad), tunn') ->
  exists r self' pool' sent, WireGuard_network datagram self pool out = (r, self', pool', out ++ ToTunnel packet :: (ToNetwork <$> sent)).
Proof.
  intros Hp Hl Hs Hd Hv Hi. unfold WireGuard_network. pose proof (stage_same datagram self) as Hst.
  assert (we_tunn (stage datagram self).2 = (wg_buffer (we_tunn self)).2) as Ht by (unfold stage; by destruct (wg_buffer _)).
  destruct (stage datagram self) as [staged self1]. cbn [fst snd] in *. subst staged. rewrite Ht, Hv. cbn [with_tunn we_tunn]. rewrite Hi.
  pose proof (@strip_padding_exact (EgressError W) packet pad Hd) as Hstrip.
  destruct (packet ++ pad) as [|first rest] eqn:Epp; [by destruct packet|]. rewrite Hstrip.
  destruct (pool_take_ok slice capacity pool loans packet Hp Hs Hl) as (pool' & -> & _). cbn [then_flush]. unfold flush_queue.
  destruct (wg_queued _) as [queued tunn1]. pose proof (emit_all_appends queued (mkWireGuard tunn1 [] (we_fast_path_packets
    (with_tunn (with_tunn self1 tunn) tunn'))) pool' (out ++ [ToTunnel packet])) as Ha.
  destruct (emit_all queued _ _ _) as [[[r self'] pool''] out']. destruct Ha as [sent ->].
  exists r, self', pool'', sent. by rewrite <- (assoc_L (++)).
Qed.

(** C19: WireGuard hides its padding.  Between two egresses whose tunnels have a session, an
    IP packet of the length its header declares, given to the one, leaves as one datagram,
    and that datagram, given to the other, arrives for its datapath as exactly the packet,
    whatever padding the tunnel added, before anything the tunnel had queued; both while the
    pools have a slice free. *)
Theorem wireguard_carries paired `{!GotatunPair paired} (a b : WireGuardEgress T K) packet k tunn slice capacity pool loans bpool bloans out bout :
  paired (we_tunn a) (we_tunn b) -> bytes_ok packet -> declared_exactly packet -> (length packet <= slice)%nat ->
  wg_outgoing packet (wg_buffer (we_tunn a)).2 = (Some k, tunn) -> (length (kind_bytes k) <= slice)%nat ->
  we_fast_path_packets a < U64_MAX ->
  accounts slice capacity pool loans -> (length loans < capacity)%nat -> accounts slice capacity bpool bloans -> (length bloans < capacity)%nat ->
  exists a' pool', pe_tun packet a pool out = (Ok tt, a', pool', out ++ [ToNetwork (kind_bytes k)]) /\
    exists r b' bpool' sent, pe_network (kind_bytes k) b bpool bout = (r, b', bpool', bout ++ ToTunnel packet :: (ToNetwork <$> sent)).
Proof.
  intros Hpair Hok Hd Hs Ho Hk Hc Hp Hl Hbp Hbl. destruct (WireGuard_tun_emits packet a pool out slice capacity loans k tunn) as (a' & pool' & Htun); [done..|].
  destruct (paired_delivers _ _ packet k tunn (paired_buffers _ _ Hpair) Hok Ho) as (k' & b1 & pad & b' & Hv & Hi).
  exists a', pool'. split; [exact Htun|]. by eapply WireGuard_network_delivers.
Qed.
End WireGuard.

(** A tunnel that prefixes its packets with the type of a data message and pads with two
    zeroes. *)
Definition masked (bs : bytes) : bytes := (fun b => Z.land b 255) <$> bs.

#[export] Instance plain_gotatun : Gotatun unit bytes unit := {|
  kind_bytes := fun k => 4 :: masked k;
  wg_buffer := fun _ => (replicate 64 0, tt);
  wg_outgoing := fun bs _ => (Some bs, tt);
  wg_verify := fun bs _ => match bs with 4 :: k => (inl k, tt) | _ => (inr (TunnErr tt), tt) end;
  wg_incoming := fun k _ => (WriteToTunnel (masked k ++ [0; 0]), tt);
  wg_queued := fun _ => ([], tt);
  wg_timers := fun _ => (Ok None, tt);
  wg_invalid_packet := fun _ => true;
|}.

Lemma masked_bytes bs : bytes_ok (masked bs).
Proof.
  apply Forall_fmap, Forall_true. intros b. cbn. unfold byte_ok. change 255 with (Z.ones 8); rewrite Z.land_ones by lia. apply Z.mod_pos_bound. lia.
Qed.

Lemma masked_id bs : bytes_ok bs -> masked bs = bs.
Proof.
  induction 1 as [|b bs Hb _ IH]; [done|]. cbn. unfold masked in IH. rewrite IH. f_equal. change 255 with (Z.ones 8); rewrite Z.land_ones by lia. apply Z.mod_small.
  unfold byte_ok in Hb. lia.
Qed.

#[export] Instance plain_gotatun_laws : GotatunLaws unit bytes unit.
Proof.
  split; [intros k; constructor; [unfold byte_ok; lia|apply masked_bytes]| |done].
  intros k t packet t' [= <- <-]. apply Forall_app. split; [apply masked_bytes|repeat constructor; unfold byte_ok; lia].
Qed.

#[export] Instance plain_gotatun_pair : GotatunPair (K := bytes) (W := unit) (fun _ _ : unit => True).
Proof.
  split; [done|]. intros a b packet k a' _ Hok [= <- <-]. exists packet, tt, [0; 0], tt. split; cbn; by rewrite masked_id.
Qed.

(** An IPv4 header alone, 20 bytes long. *)
Definition sample_ip : bytes := [69; 0; 0; 20; 0; 0; 0; 0; 64; 17; 0; 0; 10; 0; 0; 1; 10; 0; 0; 2].

Lemma wireguard_carries_witness :
  let a := WireGuard_new (K := bytes) tt in
  exists a' pool', pe_tun (W := unit) sample_ip a (BufferPool_new 64 4) [] = (Ok tt, a', pool', [ToNetwork (4 :: sample_ip)]) /\
    exists r b' bpool' sent, pe_network (W := unit) (4 :: sample_ip) a (BufferPool_new 64 4) [] = (r, b', bpool', ToTunnel sample_ip :: (ToNetwork <$> sent)).
Proof.
  cbv zeta. assert (bytes_ok sample_ip) as Hok by (repeat constructor; unfold byte_ok; lia).
  assert (accounts 64 4 (BufferPool_new 64 4) []) as Ha by (split; cbn; try done; try lia; constructor).
  change (4 :: sample_ip) with (kind_bytes (T := unit) (W := unit) sample_ip).
  apply (wireguard_carries (W := unit) (fun _ _ => True) (WireGuard_new (K := bytes) tt) (WireGuard_new (K := bytes) tt) sample_ip sample_ip tt 64 4
    (BufferPool_new 64 4) [] (BufferPool_new 64 4) [] [] []); try done; try (cbn; lia).
  left. vm_compute. repeat split; discriminate || lia.
Defined.
