(* ===== verification/Relay.v ===== *)
(** The datagram relay of flow egresses ([src/l4/relay.rs]): the admission of client
    mappings to associations, their bounded queues and what is counted, and the loop that
    serves one association.

    The relay and the association tasks interleave: the relay offers a datagram to a
    channel, a task takes from its own and ends.  A task that ended has closed its
    channel, and only then does the relay forget it. *)

From S2P Require Import Prelude Wire Net Plan Pool Egress Datapath.
Open Scope Z_scope.

Definition ASSOCIATION_DEPTH : nat := 32.

Record RelayLimits := mkRelayLimits { rl_max_associations : nat; rl_idle_timeout : Duration }.

Definition RelayLimits_default : RelayLimits := mkRelayLimits 512 (from_secs 120).

Record RelayCounts := mkCounts { associations_refused : nat; datagrams_dropped : nat; associations_failed : nat }.

Definition RelayCounts_default : RelayCounts := mkCounts 0 0 0.

Definition RelayCounts_add (a b : RelayCounts) : RelayCounts :=
  mkCounts (associations_refused a + associations_refused b) (datagrams_dropped a + datagrams_dropped b)
    (associations_failed a + associations_failed b).

(** ** Admission *)

(** A channel to an association: whose it is, what waits in it, and whether its receiver
    is gone. *)
Record Channel := mkChannel { ch_client : InternalEndpoint; ch_queue : list Outbound; ch_closed : bool }.

(** [rs_live] is the relay's map, naming channels; [rs_channels] every channel there was;
    [rs_pending] the counts not yet reported, [rs_reports] those sent, [rs_lost] those a
    full report channel refused, whose counts are gone. *)
Record RelayState := mkRelay {
  rs_live : gmap InternalEndpoint nat;
  rs_channels : gmap nat Channel;
  rs_next : nat;
  rs_pending : RelayCounts;
  rs_reports : list RelayCounts;
  rs_lost : list RelayCounts;
}.

Definition Relay_new : RelayState := mkRelay ∅ ∅ 0 RelayCounts_default [] [].

Definition channel_closed (s : RelayState) (channel : nat) : bool :=
  match rs_channels s !! channel with Some c => ch_closed c | None => true end.

Definition with_live (s : RelayState) live : RelayState :=
  mkRelay live (rs_channels s) (rs_next s) (rs_pending s) (rs_reports s) (rs_lost s).

(** The client's own association is reaped when it ended, and at the ceiling everyone
    else's too. *)
Definition reap (limits : RelayLimits) (client : InternalEndpoint) (s : RelayState) : RelayState :=
  let s :=
    match rs_live s !! client with
    | Some channel => if channel_closed s channel then with_live s (delete client (rs_live s)) else s
    | None => s
    end in
  if bool_decide (rs_live s !! client = None) && (rl_max_associations limits <=? size (rs_live s))%nat
  then with_live s (filter (fun kv => channel_closed s kv.2 = false) (rs_live s))
  else s.

(** A new association's channel and task. *)
Definition open_association (client : InternalEndpoint) (s : RelayState) : nat * RelayState :=
  (rs_next s,
   mkRelay (<[client := rs_next s]> (rs_live s)) (<[rs_next s := mkChannel client [] false]> (rs_channels s)) (S (rs_next s))
     (rs_pending s) (rs_reports s) (rs_lost s)).

(** [try_send]. *)
Definition offer (channel : nat) (datagram : Outbound) (s : RelayState) : bool * RelayState :=
  match rs_channels s !! channel with
  | Some c =>
      if ch_closed c || (ASSOCIATION_DEPTH <=? length (ch_queue c))%nat then (false, s)
      else (true, mkRelay (rs_live s) (<[channel := mkChannel (ch_client c) (ch_queue c ++ [datagram]) false]> (rs_channels s))
                    (rs_next s) (rs_pending s) (rs_reports s) (rs_lost s))
  | None => (false, s)
  end.

Definition count (c : RelayCounts) (s : RelayState) : RelayState :=
  mkRelay (rs_live s) (rs_channels s) (rs_next s) (RelayCounts_add (rs_pending s) c) (rs_reports s) (rs_lost s).

(** [counts.try_send(take(&mut pending))]; [room] says whether the report channel has a
    place. *)
Definition report (room : bool) (s : RelayState) : RelayState :=
  mkRelay (rs_live s) (rs_channels s) (rs_next s) RelayCounts_default
    (if room then rs_reports s ++ [rs_pending s] else rs_reports s) (if room then rs_lost s else rs_lost s ++ [rs_pending s]).

(** One round of [run_relay] on a datagram.  [due] says whether half a second has passed
    since the last report; a refused client's datagram skips it. *)
Definition relay_datagram (limits : RelayLimits) (datagram : Outbound) (due room : bool) (s : RelayState) : RelayState :=
  let client := ob_client datagram in
  let s := reap limits client s in
  let admitted :=
    match rs_live s !! client with
    | Some channel => Some (channel, s)
    | None => if (rl_max_associations limits <=? size (rs_live s))%nat then None else Some (open_association client s)
    end in
  match admitted with
  | None => count (mkCounts 1 0 0) s
  | Some (channel, s) =>
      let '(sent, s) := offer channel datagram s in
      let s := if sent : bool then s else count (mkCounts 0 1 0) s in
      if due : bool then report room s else s
  end.

(** A task takes a datagram from its channel, and ends. *)
Definition task_takes (channel : nat) (s : RelayState) : option (Outbound * RelayState) :=
  c ← rs_channels s !! channel;
  match ch_queue c with
  | d :: queue =>
      if ch_closed c then None
      else Some (d, mkRelay (rs_live s) (<[channel := mkChannel (ch_client c) queue false]> (rs_channels s)) (rs_next s)
                      (rs_pending s) (rs_reports s) (rs_lost s))
  | [] => None
  end.

Definition task_ends (channel : nat) (s : RelayState) : option RelayState :=
  c ← rs_channels s !! channel;
  if ch_closed c then None
  else Some (mkRelay (rs_live s) (<[channel := mkChannel (ch_client c) [] true]> (rs_channels s)) (rs_next s)
               (rs_pending s) (rs_reports s) (rs_lost s)).

(** ** One association *)

(** What the [select!] of [serve_association] picks: the outcome of sending a datagram it
    took; a datagram from the proxy with whether the reply channel has a place; an
    oversized one; and the ends. *)
Inductive AssociationEvent :=
| Took (datagram : Outbound) (sent : bool)
| QueueGone
| Arrived (payload : bytes) (from : Target) (room : bool)
| TooLarge
| SourceFails
| ShutDown
| Idles.

Record Inbound := mkInbound { ib_client : InternalEndpoint; ib_peer : InternalEndpoint; ib_payload : Pooled }.

Record Serving := mkServing { sv_pool : BufferPool; sv_counts : RelayCounts; sv_sent : list Outbound; sv_delivered : list Inbound }.

Definition drop_one (s : Serving) : Serving :=
  mkServing (sv_pool s) (RelayCounts_add (sv_counts s) (mkCounts 0 1 0)) (sv_sent s) (sv_delivered s).

(** A reply, into a pool slice and the reply channel; a refused delivery returns its
    slice. *)
Definition deliver_reply (client : InternalEndpoint) (payload : bytes) (from : Target) (room : bool) (s : Serving) : Serving :=
  match from with
  | Domain _ _ => drop_one s
  | Ip peer =>
      let '(pooled, pool) := BufferPool_take (sv_pool s) payload in
      match pooled with
      | None => drop_one (mkServing pool (sv_counts s) (sv_sent s) (sv_delivered s))
      | Some pooled =>
          if room then mkServing pool (sv_counts s) (sv_sent s) (sv_delivered s ++ [mkInbound client peer pooled])
          else drop_one (mkServing (Pooled_drop pool pooled) (sv_counts s) (sv_sent s) (sv_delivered s))
      end
  end.

(** A turn of the loop: the state, and whether it goes on. *)
Definition serve_event (client : InternalEndpoint) (s : Serving) (event : AssociationEvent) : Serving * bool :=
  match event with
  | Took datagram true => (mkServing (sv_pool s) (sv_counts s) (sv_sent s ++ [datagram]) (sv_delivered s), true)
  | Took _ false => (drop_one s, true)
  | Arrived payload from room => (deliver_reply client payload from room s, true)
  | TooLarge => (drop_one s, true)
  | QueueGone | SourceFails | ShutDown | Idles => (s, false)
  end.

Fixpoint serve_loop (client : InternalEndpoint) (s : Serving) (events : list AssociationEvent) : Serving * bool :=
  match events with
  | [] => (s, true)
  | event :: events =>
      match serve_event client s event with
      | (s, true) => serve_loop client s events
      | (s, false) => (s, false)
      end
  end.

(** [serve_association]: a refused association counts the datagrams queued for it. *)
Definition serve_association (associated : bool) (client : InternalEndpoint) (queued : nat) (pool : BufferPool)
    (events : list AssociationEvent) : Serving :=
  let start := mkServing pool RelayCounts_default [] [] in
  if associated then (serve_loop client start events).1 else mkServing pool (mkCounts 0 queued 1) [] [].

(** ** Executions *)

(** A relay with what has happened to the datagrams: how many were offered, how many a
    task took, and how many waited in the queue of a task that ended. *)
Record Ledger := mkLedger { lg_offered : nat; lg_taken : nat; lg_abandoned : nat }.

Definition queue_length (s : RelayState) (channel : nat) : nat :=
  match rs_channels s !! channel with Some c => length (ch_queue c) | None => 0 end.

Inductive relay_step (limits : RelayLimits) : RelayState * Ledger -> RelayState * Ledger -> Prop :=
| relay_offers s l datagram due room :
    relay_step limits (s, l) (relay_datagram limits datagram due room s, mkLedger (S (lg_offered l)) (lg_taken l) (lg_abandoned l))
| relay_takes s l channel d s' :
    task_takes channel s = Some (d, s') ->
    relay_step limits (s, l) (s', mkLedger (lg_offered l) (S (lg_taken l)) (lg_abandoned l))
| relay_ends s l channel s' :
    task_ends channel s = Some s' ->
    relay_step limits (s, l) (s', mkLedger (lg_offered l) (lg_taken l) (lg_abandoned l + queue_length s channel)).

(** The tasks that run. *)
Definition running (s : RelayState) : gmap nat Channel := filter (fun kv => ch_closed kv.2 = false) (rs_channels s).

Record relay_ok (limits : RelayLimits) (s : RelayState) : Prop := {
  ro_bound : (size (rs_live s) <= rl_max_associations limits)%nat;
  ro_known : forall client channel, rs_live s !! client = Some channel ->
    exists c, rs_channels s !! channel = Some c /\ ch_client c = client;
  ro_open : forall channel c, rs_channels s !! channel = Some c -> ch_closed c = false -> rs_live s !! ch_client c = Some channel;
  ro_queue : forall channel c, rs_channels s !! channel = Some c ->
    (length (ch_queue c) <= ASSOCIATION_DEPTH)%nat /\ Forall (fun d => ob_client d = ch_client c) (ch_queue c);
  ro_next : forall channel, is_Some (rs_channels s !! channel) -> (channel < rs_next s)%nat;
}.

(** *** What waits and what was counted *)

Definition queued_in (m : gmap nat Channel) : nat := map_fold (fun _ c n => (length (ch_queue c) + n)%nat) 0%nat m.
Definition queued (s : RelayState) : nat := queued_in (rs_channels s).

Definition counted_in (c : RelayCounts) : nat := (associations_refused c + datagrams_dropped c)%nat.
Definition counted (s : RelayState) : nat :=
  (counted_in (rs_pending s) + list_sum (counted_in <$> rs_reports s) + list_sum (counted_in <$> rs_lost s))%nat.

Lemma queued_insert m channel c : m !! channel = None -> queued_in (<[channel := c]> m) = (length (ch_queue c) + queued_in m)%nat.
Proof. intros Hm. unfold queued_in. rewrite map_fold_insert_L; [done|intros; lia|done]. Qed.

Lemma queued_update m channel c c' :
  m !! channel = Some c -> (queued_in (<[channel := c']> m) + length (ch_queue c) = queued_in m + length (ch_queue c'))%nat.
Proof.
  intros Hm. assert (queued_in m = length (ch_queue c) + queued_in (delete channel m))%nat as ->.
  { rewrite <- (queued_insert _ channel) by apply lookup_delete_eq. by rewrite insert_delete_id. }
  rewrite <- insert_delete_eq, queued_insert by apply lookup_delete_eq. lia.
Qed.

Lemma list_sum_app_one l n : list_sum (l ++ [n]) = (list_sum l + n)%nat.
Proof. rewrite list_sum_app. cbn. lia. Qed.

Lemma report_counted room s : counted (report room s) = counted s.
Proof.
  unfold counted, report. destruct room; cbn [rs_pending rs_reports rs_lost]; rewrite fmap_app; cbn [fmap list_fmap];
    rewrite list_sum_app_one; unfold counted_in at 1; cbn [associations_refused datagrams_dropped RelayCounts_default]; lia.
Qed.

Lemma reap_only_closed limits client s :
  let s' := reap limits client s in
  rs_channels s' = rs_channels s /\ rs_next s' = rs_next s /\ counted s' = counted s /\ rs_live s' ⊆ rs_live s /\
  (forall k channel, rs_live s !! k = Some channel -> channel_closed s channel = false -> rs_live s' !! k = Some channel) /\
  (forall channel, rs_live s' !! client = Some channel -> channel_closed s channel = false).
Proof.
  unfold reap. set (s1 := match rs_live s !! client with Some _ => _ | None => _ end).
  assert (rs_channels s1 = rs_channels s /\ rs_next s1 = rs_next s /\ counted s1 = counted s /\ rs_live s1 ⊆ rs_live s /\
    (forall k channel, rs_live s !! k = Some channel -> channel_closed s channel = false -> rs_live s1 !! k = Some channel) /\
    (forall channel, rs_live s1 !! client = Some channel -> channel_closed s channel = false)) as (Hc & Hn & Hct & Hsub & Hkeep & Hopen).
  { unfold s1. destruct (rs_live s !! client) as [channel|] eqn:El; [|by split_and!; [..|intros ? ?; congruence]].
    destruct (channel_closed s channel) eqn:Ec; cbn.
    - split_and!; [done..|apply delete_subseteq| |].
      + intros k ch Hk Ho. rewrite lookup_delete_ne; [done|]. intros ->. congruence.
      + intros ch Hch. by rewrite lookup_delete_eq in Hch.
    - split_and!; [done..|]. intros ch Hch. congruence. }
  destruct (_ && _) eqn:E; [|by split_and!]. apply andb_true_iff in E as [Hnone%bool_decide_eq_true _].
  assert (forall ch, channel_closed s1 ch = channel_closed s ch) as Heq by (intros ch; unfold channel_closed; by rewrite Hc).
  cbn. split_and!; [done|done|done| | |].
  - etrans; [apply map_filter_subseteq|done].
  - intros k ch Hk Ho. apply map_lookup_filter_Some. split; [by apply Hkeep|]. cbn. by rewrite Heq.
  - intros ch [Hch _]%map_lookup_filter_Some. congruence.
Qed.

(** *** The invariant *)

Lemma relay_new_ok limits : relay_ok limits Relay_new.
Proof. split; cbn; try done; [rewrite map_size_empty; lia|]. by intros channel [c ?]. Qed.

(** The counts are no part of it. *)
Lemma relay_ok_counts limits s pending reports lost :
  relay_ok limits s -> relay_ok limits (mkRelay (rs_live s) (rs_channels s) (rs_next s) pending reports lost).
Proof. by intros [Hb Hk Ho Hq Hn]; split. Qed.

Lemma reap_ok limits client s : relay_ok limits s -> relay_ok limits (reap limits client s).
Proof.
  intros [Hb Hk Ho Hq Hn]. destruct (reap_only_closed limits client s) as (Hc & Hnx & _ & Hsub & Hkeep & _).
  split; rewrite ?Hc, ?Hnx; try done.
  - etrans; [by apply map_subseteq_size|done].
  - intros k channel Hl. apply (Hk k). by eapply lookup_weaken.
  - intros channel c Hch Hopen. apply Hkeep; [by apply Ho|]. unfold channel_closed. by rewrite Hch.
Qed.

Lemma open_association_ok limits client s :
  relay_ok limits s -> rs_live s !! client = None -> (size (rs_live s) < rl_max_associations limits)%nat ->
  let '(channel, s') := open_association client s in
  relay_ok limits s' /\ rs_live s' !! client = Some channel /\ queued s' = queued s /\ counted s' = counted s.
Proof.
  intros [Hb Hk Ho Hq Hn] Hnone Hroom. unfold open_association.
  assert (rs_channels s !! rs_next s = None) as Hfresh.
  { destruct (rs_channels s !! rs_next s) eqn:E; [|done]. specialize (Hn (rs_next s) ltac:(by eexists)). lia. }
  split_and!; [|cbn; by rewrite lookup_insert_eq|unfold queued; cbn; by rewrite queued_insert|done].
  split; cbn.
  - rewrite map_size_insert_None by done. lia.
  - intros k channel. destruct (decide (k = client)) as [->|Hne].
    + rewrite lookup_insert_eq. intros [= <-]. rewrite lookup_insert_eq. by eexists.
    + rewrite lookup_insert_ne by done. intros (c & Hc & Hcl)%Hk. exists c. split; [|done].
      rewrite lookup_insert_ne; [done|]. intros <-. congruence.
  - intros channel c. destruct (decide (channel = rs_next s)) as [->|Hne].
    + rewrite lookup_insert_eq. intros [= <-] _. by rewrite lookup_insert_eq.
    + rewrite lookup_insert_ne by done. intros Hc Hopen. pose proof (Ho _ _ Hc Hopen) as Hl.
      rewrite lookup_insert_ne; [done|]. intros ->. congruence.
  - intros channel c. destruct (decide (channel = rs_next s)) as [->|Hne].
    + rewrite lookup_insert_eq. intros [= <-]. cbn. split; [lia|constructor].
    + rewrite lookup_insert_ne by done. apply Hq.
  - intros channel [c Hc]. destruct (decide (channel = rs_next s)) as [->|Hne]; [lia|].
    rewrite lookup_insert_ne in Hc by done. specialize (Hn channel ltac:(by eexists)). lia.
Qed.

(** A channel given another queue, of datagrams of its client. *)
Lemma update_channel_ok limits s channel c queue closed :
  relay_ok limits s -> rs_channels s !! channel = Some c -> ch_closed c = false ->
  (length queue <= ASSOCIATION_DEPTH)%nat -> Forall (fun d => ob_client d = ch_client c) queue ->
  relay_ok limits (mkRelay (rs_live s) (<[channel := mkChannel (ch_client c) queue closed]> (rs_channels s)) (rs_next s)
    (rs_pending s) (rs_reports s) (rs_lost s)).
Proof.
  intros [Hb Hk Ho Hq Hn] Hc Hopen Hlen Hall. split; cbn; [done|..].
  - intros k ch (c' & Hc' & Hcl)%Hk. destruct (decide (ch = channel)) as [->|Hne].
    + rewrite lookup_insert_eq. eexists. split; [done|]. cbn. congruence.
    + rewrite lookup_insert_ne by done. by exists c'.
  - intros ch c'. destruct (decide (ch = channel)) as [->|Hne].
    + rewrite lookup_insert_eq. intros [= <-] _. cbn. by apply Ho.
    + rewrite lookup_insert_ne by done. apply Ho.
  - intros ch c'. destruct (decide (ch = channel)) as [->|Hne].
    + rewrite lookup_insert_eq. by intros [= <-].
    + rewrite lookup_insert_ne by done. apply Hq.
  - intros ch Hch. destruct (decide (ch = channel)) as [->|Hne]; [apply Hn; by eexists|].
    rewrite lookup_insert_ne in Hch by done. by apply Hn.
Qed.

Lemma offer_ok limits s client channel datagram :
  relay_ok limits s -> rs_live s !! client = Some channel -> ob_client datagram = client ->
  let '(sent, s') := offer channel datagram s in
  relay_ok limits s' /\ counted s' = counted s /\ queued s' = (queued s + if sent : bool then 1 else 0)%nat.
Proof.
  intros Hok Hl Hd. unfold offer. destruct (ro_known _ _ Hok _ _ Hl) as (c & Hc & Hcl). rewrite Hc.
  destruct (ch_closed c) eqn:Eo; cbn [orb]; [split_and!; [done|done|lia]|].
  destruct (_ <=? _)%nat eqn:E; reflect; [split_and!; [done|done|lia]|].
  destruct (ro_queue _ _ Hok _ _ Hc) as [_ Hall]. split_and!; [|done|].
  - apply update_channel_ok; [done..| |].
    + rewrite length_app. cbn [length]. lia.
    + apply Forall_app. split; [done|]. constructor; [congruence|constructor].
  - unfold queued. cbn. pose proof (queued_update (rs_channels s) channel c (mkChannel (ch_client c) (ch_queue c ++ [datagram]) false) Hc) as Hu.
    cbn in Hu. rewrite length_app in Hu. cbn [length] in Hu. lia.
Qed.

Lemma count_counted c s : counted (count c s) = (counted s + counted_in c)%nat.
Proof.
  assert (counted_in (RelayCounts_add (rs_pending s) c) = counted_in (rs_pending s) + counted_in c)%nat as H by (unfold counted_in; cbn; lia).
  unfold counted, count. cbn [rs_pending rs_reports rs_lost]. lia.
Qed.

(** A datagram is queued for its client, or counted, exactly once. *)
Lemma relay_datagram_ok limits datagram due room s :
  relay_ok limits s ->
  let s' := relay_datagram limits datagram due room s in
  relay_ok limits s' /\ (queued s' + counted s' = S (queued s + counted s))%nat.
Proof.
  intros Hok. unfold relay_datagram. set (client := ob_client datagram).
  destruct (reap_only_closed limits client s) as (Hc & _ & Hct & _). pose proof (reap_ok limits client s Hok) as Hok1.
  assert (queued (reap limits client s) = queued s) as Hq by (unfold queued; by rewrite Hc).
  set (s1 := reap limits client s) in *. clearbody s1.
  assert (forall channel s2, relay_ok limits s2 -> rs_live s2 !! client = Some channel -> queued s2 = queued s -> counted s2 = counted s ->
    let s' := let '(sent, s) := offer channel datagram s2 in
              let s := if sent : bool then s else count (mkCounts 0 1 0) s in if due : bool then report room s else s in
    relay_ok limits s' /\ (queued s' + counted s' = S (queued s + counted s))%nat) as Hgo.
  { intros channel s2 Hok2 Hl Hq2 Hc2. pose proof (offer_ok limits s2 client channel datagram Hok2 Hl eq_refl) as Ho.
    destruct (offer channel datagram s2) as [sent s3]. destruct Ho as (Hok3 & Hc3 & Hq3).
    set (s4 := if sent then s3 else count (mkCounts 0 1 0) s3).
    assert (relay_ok limits s4 /\ (queued s4 + counted s4 = S (queued s + counted s))%nat) as [Hok4 Hsum].
    { unfold s4. destruct sent; [split; [done|lia]|]. split; [by apply relay_ok_counts|]. rewrite count_counted. unfold counted_in. cbn.
      change (queued (count (mkCounts 0 1 0) s3)) with (queued s3). lia. }
    cbn zeta. destruct due; [|done]. split; [by apply relay_ok_counts|]. rewrite report_counted. exact Hsum. }
  cbn zeta. destruct (rs_live s1 !! client) as [channel|] eqn:El; [apply Hgo; (done || lia)|].
  destruct (_ <=? _)%nat eqn:E; reflect.
  - split; [by apply relay_ok_counts|]. rewrite count_counted. unfold counted_in. cbn.
    change (queued (count (mkCounts 1 0 0) s1)) with (queued s1). lia.
  - pose proof (open_association_ok limits client s1 Hok1 El E) as Ho. destruct (open_association client s1) as [channel s2].
    destruct Ho as (Hok2 & Hl2 & Hq2 & Hc2). apply Hgo; (done || lia).
Qed.

Lemma relay_step_ok limits st st' :
  relay_step limits st st' -> relay_ok limits st.1 /\
    lg_offered st.2 = (lg_taken st.2 + lg_abandoned st.2 + queued st.1 + counted st.1)%nat ->
  relay_ok limits st'.1 /\ lg_offered st'.2 = (lg_taken st'.2 + lg_abandoned st'.2 + queued st'.1 + counted st'.1)%nat.
Proof.
  intros Hs [Hok Hsum]. destruct Hs as [s l datagram due room|s l channel d s' Ht|s l channel s' He]; cbn [fst snd] in *.
  - destruct (relay_datagram_ok limits datagram due room s Hok) as [Hok' Hc]. split; [done|]. cbn. lia.
  - unfold task_takes in Ht. apply bind_Some in Ht as (c & Hc & Ht). destruct (ch_queue c) as [|d' queue] eqn:Eq; [done|].
    destruct (ch_closed c) eqn:Eo; [done|]. injection Ht as <- <-. destruct (ro_queue _ _ Hok _ _ Hc) as [Hl Hall]. rewrite Eq in Hl, Hall.
    apply Forall_cons in Hall as [_ Hall]. split.
    + apply update_channel_ok; [done..|cbn in Hl; lia|done].
    + pose proof (queued_update (rs_channels s) channel c (mkChannel (ch_client c) queue false) Hc) as Hu. rewrite Eq in Hu.
      unfold queued, counted in *. cbn [ch_queue length rs_channels rs_pending rs_reports rs_lost lg_offered lg_taken lg_abandoned] in *. lia.
  - unfold task_ends in He. apply bind_Some in He as (c & Hc & He). destruct (ch_closed c) eqn:Eo; [done|]. injection He as <-. split.
    + apply update_channel_ok; [done..|cbn; lia|constructor].
    + pose proof (queued_update (rs_channels s) channel c (mkChannel (ch_client c) [] true) Hc) as Hu.
      unfold queued, counted, queue_length in *. rewrite Hc.
      cbn [ch_queue length rs_channels rs_pending rs_reports rs_lost lg_offered lg_taken lg_abandoned] in *. lia.
Qed.

(** The running tasks are all in the relay's map. *)
Lemma running_bound limits s : relay_ok limits s -> (size (running s) <= size (rs_live s))%nat.
Proof.
  intros Hok. rewrite <- !length_map_to_list, <- (length_fmap fst (map_to_list (running s))), <- (length_fmap snd (map_to_list (rs_live s))).
  apply submseteq_length, NoDup_submseteq; [apply NoDup_fst_map_to_list|].
  intros channel ([k c] & -> & Hin%elem_of_map_to_list)%list_elem_of_fmap. unfold running in Hin.
  apply map_lookup_filter_Some in Hin as [Hc Hopen]. cbn in *. apply list_elem_of_fmap. exists (ch_client c, k). split; [done|].
  apply elem_of_map_to_list. by apply (ro_open _ _ Hok).
Qed.

(** What every reachable relay keeps. *)
Definition relay_inv (limits : RelayLimits) (st : RelayState * Ledger) : Prop :=
  relay_ok limits st.1 /\ lg_offered st.2 = (lg_taken st.2 + lg_abandoned st.2 + queued st.1 + counted st.1)%nat.

Lemma relay_reachable_inv limits st : rtc (relay_step limits) (Relay_new, mkLedger 0 0 0) st -> relay_inv limits st.
Proof.
  assert (relay_inv limits (Relay_new, mkLedger 0 0 0)) as H0 by (split; [apply relay_new_ok|done]). intros Hrun. revert H0.
  induction Hrun as [|x y z Hxy _ IH]; [done|]. intros Hx. apply IH. by eapply relay_step_ok.
Qed.

(** C14: the relay under any interleaving of datagrams, association tasks and their ends.
    No more associations run, and no more entries are kept, than the limit; a client has at
    most one running association, whose bounded queue holds only that client's datagrams;
    and every datagram offered is accounted for: taken by its association, waiting in
    its queue, counted as refused or dropped, or left in the queue of an association that
    ended. *)
Theorem relay_bounded limits s l :
  rtc (relay_step limits) (Relay_new, mkLedger 0 0 0) (s, l) ->
  (size (rs_live s) <= rl_max_associations limits)%nat /\ (size (running s) <= rl_max_associations limits)%nat /\
  (forall n m c c', rs_channels s !! n = Some c -> rs_channels s !! m = Some c' -> ch_closed c = false -> ch_closed c' = false ->
     ch_client c = ch_client c' -> n = m) /\
  (forall n c, rs_channels s !! n = Some c ->
     (length (ch_queue c) <= ASSOCIATION_DEPTH)%nat /\ Forall (fun d => ob_client d = ch_client c) (ch_queue c)) /\
  lg_offered l = (lg_taken l + lg_abandoned l + queued s + counted s)%nat.
Proof.
  intros [Hok Hsum]%relay_reachable_inv. cbn [fst snd] in *. split_and!; [apply Hok| | |apply Hok|done].
  - etrans; [by eapply running_bound|apply Hok].
  - intros n m c c' Hn Hm Hcn Hcm Heq. pose proof (ro_open _ _ Hok _ _ Hn Hcn). pose proof (ro_open _ _ Hok _ _ Hm Hcm). congruence.
Qed.

Lemma relay_bounded_witness :
  let s := relay_datagram (mkRelayLimits 1 0) (mkOutbound (mkEndpoint (V4 [10; 0; 0; 2]) 7) (mkEndpoint (V4 [1; 1; 1; 1]) 53) [9]) true true Relay_new in
  let l := mkLedger 1 0 0 in
  (size (rs_live s) <= 1)%nat /\ (size (running s) <= 1)%nat /\
  (forall n m c c', rs_channels s !! n = Some c -> rs_channels s !! m = Some c' -> ch_closed c = false -> ch_closed c' = false ->
     ch_client c = ch_client c' -> n = m) /\
  (forall n c, rs_channels s !! n = Some c ->
     (length (ch_queue c) <= ASSOCIATION_DEPTH)%nat /\ Forall (fun d => ob_client d = ch_client c) (ch_queue c)) /\
  lg_offered l = (lg_taken l + lg_abandoned l + queued s + counted s)%nat.
Proof.
  cbn zeta. refine (relay_bounded (mkRelayLimits 1 0) _ _ _). apply rtc_once.
  exact (relay_offers (mkRelayLimits 1 0) Relay_new (mkLedger 0 0 0) _ true true).
Defined.

(** ** What an association does with its events *)

Definition ends (e : AssociationEvent) : bool := match e with QueueGone | SourceFails | ShutDown | Idles => true | _ => false end.

(** The events before the one that ends the loop. *)
Fixpoint handled (events : list AssociationEvent) : list AssociationEvent :=
  match events with [] => [] | e :: events => if ends e then [] else e :: handled events end.

Definition taken_of (e : AssociationEvent) : option Outbound := match e with Took d true => Some d | _ => None end.

Definition reply_of (client : InternalEndpoint) (e : AssociationEvent) : option Inbound :=
  match e with Arrived payload (Ip peer) true => Some (mkInbound client peer payload) | _ => None end.

Lemma deliver_reply_spec client payload from room s slice capacity loans :
  pool_ok slice capacity (sv_pool s, loans) ->
  let s' := deliver_reply client payload from room s in
  exists ds loans', pool_ok slice capacity (sv_pool s', loans') /\ sv_sent s' = sv_sent s /\ sv_delivered s' = sv_delivered s ++ ds /\
    sublist ds (option_list (reply_of client (Arrived payload from room))) /\
    (datagrams_dropped (sv_counts s') + length ds = S (datagrams_dropped (sv_counts s)))%nat.
Proof.
  intros Hp. destruct from as [peer|host port]; cbn [deliver_reply].
  2:{ exists [], loans. cbn. rewrite app_nil_r. split_and!; [done|done|done|apply sublist_nil_l|lia]. }
  unfold BufferPool_take. pose proof (reserve_ok _ _ _ _ (length payload) Hp) as Hr.
  destruct (BufferPool_reserve (sv_pool s) (length payload)) as [[buffer|] pool]; cbn.
  - destruct Hr as (-> & Hl & _ & Hr). cbn [app]. specialize (Hr payload Hl). destruct room; cbn.
    + exists [mkInbound client peer payload], (payload :: loans). split_and!; [done..|cbn; lia].
    + exists [], loans. rewrite app_nil_r. split_and!; [|done|done|apply sublist_nil_l|cbn; lia].
      apply (pool_step_ok _ _ (pool, payload :: loans)); [|done]. exact (pool_drop pool [] payload loans).
  - destruct Hr as [_ Hr]. exists [], loans. rewrite app_nil_r. split_and!; [done|done|done|apply sublist_nil_l|cbn; lia].
Qed.

Lemma serve_loop_spec client events : forall s slice capacity loans,
  pool_ok slice capacity (sv_pool s, loans) ->
  let s' := (serve_loop client s events).1 in
  exists ds, sv_delivered s' = sv_delivered s ++ ds /\ sublist ds (omap (reply_of client) (handled events)) /\
    sv_sent s' = sv_sent s ++ omap taken_of (handled events) /\
    (datagrams_dropped (sv_counts s') + length ds + length (omap taken_of (handled events))
      = datagrams_dropped (sv_counts s) + length (handled events))%nat.
Proof.
  induction events as [|e events IH]; intros s slice capacity loans Hp; cbn [serve_loop handled].
  { exists []. rewrite !app_nil_r. split_and!; (done || lia). }
  assert (forall s1 ds1 loans1, pool_ok slice capacity (sv_pool s1, loans1) -> ends e = false ->
    sv_delivered s1 = sv_delivered s ++ ds1 -> sublist ds1 (option_list (reply_of client e)) ->
    sv_sent s1 = sv_sent s ++ option_list (taken_of e) ->
    (datagrams_dropped (sv_counts s1) + length ds1 + length (option_list (taken_of e)) = S (datagrams_dropped (sv_counts s)))%nat ->
    let s' := (serve_loop client s1 events).1 in
    exists ds, sv_delivered s' = sv_delivered s ++ ds /\ sublist ds (omap (reply_of client) (e :: handled events)) /\
      sv_sent s' = sv_sent s ++ omap taken_of (e :: handled events) /\
      (datagrams_dropped (sv_counts s') + length ds + length (omap taken_of (e :: handled events))
        = datagrams_dropped (sv_counts s) + length (e :: handled events))%nat) as Hgo.
  { intros s1 ds1 loans1 Hp1 He Hd1 Hsub1 Hs1 Hc1. destruct (IH s1 slice capacity loans1 Hp1) as (ds & Hd & Hsub & Hs & Hc).
    assert (forall B (f : AssociationEvent -> option B), omap f (e :: handled events) = option_list (f e) ++ omap f (handled events)) as Homap
      by (intros B f; cbn; by destruct (f e)).
    rewrite !Homap. exists (ds1 ++ ds). split_and!.
    - by rewrite Hd, Hd1, (assoc_L (++)).
    - by apply sublist_app.
    - by rewrite Hs, Hs1, (assoc_L (++)).
    - rewrite !length_app. cbn [length]. lia. }
  destruct e as [d []| |payload from room| | | |]; cbn [serve_event ends]; try (by exists []; rewrite ?app_nil_r; split_and!; (done || cbn; lia)).
  - apply (Hgo _ [] loans); try done; [cbn; by rewrite app_nil_r|cbn; lia].
  - apply (Hgo _ [] loans); try done; cbn; rewrite ?app_nil_r; (done || lia).
  - destruct (deliver_reply_spec client payload from room s slice capacity loans Hp) as (ds1 & loans1 & Hp1 & Hs1 & Hd1 & Hsub1 & Hc1).
    apply (Hgo _ ds1 loans1); try done; [cbn; by rewrite Hs1, app_nil_r|cbn in *; lia].
  - apply (Hgo _ [] loans); try done; cbn; rewrite ?app_nil_r; (done || lia).
Qed.

(** an association attributes replies to its own client: what it delivers are, in
    order and byte for byte, replies the proxy sent it, each under its peer's address and
    this client's mapping; what it sends are the client's datagrams in order; and every
    event it handles is a datagram sent, a reply delivered or one counted drop. *)
Theorem association_faithful client pool slice capacity loans queued_ events :
  pool_ok slice capacity (pool, loans) ->
  let s := serve_association true client queued_ pool events in
  sublist (sv_delivered s) (omap (reply_of client) (handled events)) /\
  sv_sent s = omap taken_of (handled events) /\
  (datagrams_dropped (sv_counts s) + length (sv_delivered s) + length (sv_sent s) = length (handled events))%nat.
Proof.
  intros Hp. cbn [serve_association].
  destruct (serve_loop_spec client events (mkServing pool RelayCounts_default [] []) slice capacity loans Hp) as (ds & Hd & Hsub & Hs & Hc).
  unfold serve_association. rewrite Hd, Hs. cbn [sv_delivered sv_sent app] in *. split_and!; [done|done|]. cbn in Hc |- *. lia.
Qed.

Lemma association_faithful_witness :
  let client := mkEndpoint (V4 [10; 0; 0; 2]) 7 in
  let peer := mkEndpoint (V4 [1; 1; 1; 1]) 53 in
  let events := [Took (mkOutbound client peer [9]) true; Arrived [1; 2] (Ip peer) true; Arrived [3] (Domain [120] 53) true; TooLarge;
                 Arrived [4] (Ip peer) false; SourceFails; TooLarge] in
  let s := serve_association true client 0 (BufferPool_new 16 4) events in
  sublist (sv_delivered s) [mkInbound client peer [1; 2]] /\ sv_sent s = [mkOutbound client peer [9]] /\
  (datagrams_dropped (sv_counts s) + length (sv_delivered s) + length (sv_sent s) = 5)%nat.
Proof.
  cbn zeta. refine (association_faithful (mkEndpoint (V4 [10; 0; 0; 2]) 7) (BufferPool_new 16 4) 16 4 [] 0 _ _).
  split; cbn; try done; lia.
Defined.

(** Datagrams waiting when the source fails are dropped without being counted. *)
Example queue_dropped_uncounted :
  let client := mkEndpoint (V4 [10; 0; 0; 2]) 7 in
  let d := mkOutbound client (mkEndpoint (V4 [1; 1; 1; 1]) 53) [9] in
  let s := relay_datagram (mkRelayLimits 1 0) d false true Relay_new in
  (fun s' => (queued s, counted s, queued s', counted s')) <$> task_ends 0 s = Some (1, 0, 0, 0)%nat /\
  sv_counts (serve_association true client 1 (BufferPool_new 16 4) [SourceFails]) = RelayCounts_default.
Proof. vm_compute. done. Qed.
