(* ===== verification/Telemetry.v ===== *)
(** The reactor's telemetry ([src/host/shell.rs]): observations offered to a bounded channel that
    never stalls the datapath, the losses reported through the same channel, and the counters
    folded between reports. *)

From S2P Require Import Prelude Wire Net Plan Packet Udp Path Reassembly Pool Fifo Datapath DnsName DnsMessage DnsPolicy DnsResponse.
Open Scope Z_scope.

(** ** A bounded channel *)

(** The sending half of a channel: what it took, and how often it was tried.  Whether it has
    room (and a receiver) at each try is up to the receiver. *)
Record Outbox (A : Type) := mkOutbox { ox_taken : list A; ox_tries : nat }.
Arguments mkOutbox {A}. Arguments ox_taken {A}. Arguments ox_tries {A}.

Definition Outbox_new {A} : Outbox A := mkOutbox [] 0.

Definition Outbox_try_send {A} (room : nat -> bool) (item : A) (ox : Outbox A) : bool * Outbox A :=
  if room (ox_tries ox) then (true, mkOutbox (ox_taken ox ++ [item]) (S (ox_tries ox)))
  else (false, mkOutbox (ox_taken ox) (S (ox_tries ox))).

Lemma Outbox_try_send_taken {A} room (item : A) ox :
  let '(sent, ox') := Outbox_try_send room item ox in ox_taken ox' = ox_taken ox ++ if sent : bool then [item] else [].
Proof. unfold Outbox_try_send. destruct (room _); cbn; [done|by rewrite app_nil_r]. Qed.

(** ** Observations *)

Inductive Telemetry :=
| Telemetry_Event (event : FlowEvent)
| DatagramsDropped (count : Z)
| PacketsRejected (count : Z)
| Telemetry_ReassemblyDiscarded (count : Z)
| TransmitsDropped (count : Z)
| EgressRejected (count : Z)
| Telemetry_QuicSteered (count : Z)
| PathsReported (count : Z)
| Telemetry_Resolved (resolution : Resolution)
| QueriesDropped (count : Z)
| PolicyReloaded (counts : RuleCounts)
| TerminationDropped (count : Z)
| DeviceErrors (count : Z)
| NetworkErrors (count : Z)
| Telemetry_PoolExhausted (count : Z)
| TasksPanicked (count : Z)
| Lost (count : Z).

Record TelemetrySink := mkSink { sk_channel : Outbox Telemetry; sk_lost : Z }.

Section Sink.
Context (room : nat -> bool).

(** [NonZeroU64::new(self.lost)] gates the report of what was lost. *)
Definition Sink_emit (observation : Telemetry) (sink : TelemetrySink) : TelemetrySink :=
  let '(sent, channel) := Outbox_try_send room observation (sk_channel sink) in
  if negb sent then mkSink channel (saturating_add U64_MAX (sk_lost sink) 1)
  else if sk_lost sink =? 0 then mkSink channel (sk_lost sink)
  else
  let '(told, channel) := Outbox_try_send room (Lost (sk_lost sink)) channel in
  mkSink channel (if told : bool then 0 else sk_lost sink).

Definition Sink_emits (observations : list Telemetry) (sink : TelemetrySink) : TelemetrySink :=
  foldl (fun sink observation => Sink_emit observation sink) sink observations.

(** ** Counters *)

(** [cn_panics] is the shared count of tasks that ended by unwinding; the pool's count is read
    from the pool. *)
Record Counters := mkCounters {
  cn_datagrams_dropped : Z;
  cn_packets_rejected : Z;
  cn_reassembly_discarded : Z;
  cn_transmits_dropped : Z;
  cn_egress_rejected : Z;
  cn_queries_dropped : Z;
  cn_quic_steered : Z;
  cn_paths_reported : Z;
  cn_termination_dropped : Z;
  cn_device_errors : Z;
  cn_network_errors : Z;
  cn_panics : Z;
  cn_pool_reported : Z;
}.

Definition Counters_new : Counters := mkCounters 0 0 0 0 0 0 0 0 0 0 0 0 0.

(** [report]: a non-zero count is emitted. *)
Definition report (count : Z) (into : Z -> Telemetry) (sink : TelemetrySink) : TelemetrySink :=
  if count =? 0 then sink else Sink_emit (into count) sink.

Definition Counters_flush (pool : BufferPool) (c : Counters) (sink : TelemetrySink) : Counters * TelemetrySink :=
  let sink := report (cn_datagrams_dropped c) DatagramsDropped sink in
  let sink := report (cn_packets_rejected c) PacketsRejected sink in
  let sink := report (cn_reassembly_discarded c) Telemetry_ReassemblyDiscarded sink in
  let sink := report (cn_transmits_dropped c) TransmitsDropped sink in
  let sink := report (cn_egress_rejected c) EgressRejected sink in
  let sink := report (cn_queries_dropped c) QueriesDropped sink in
  let sink := report (cn_quic_steered c) Telemetry_QuicSteered sink in
  let sink := report (cn_paths_reported c) PathsReported sink in
  let sink := report (cn_termination_dropped c) TerminationDropped sink in
  let sink := report (cn_device_errors c) DeviceErrors sink in
  let sink := report (cn_network_errors c) NetworkErrors sink in
  let fresh := saturating_sub (exhausted pool) (cn_pool_reported c) in
  let sink := report fresh Telemetry_PoolExhausted sink in
  let sink := report (cn_panics c) TasksPanicked sink in
  (mkCounters 0 0 0 0 0 0 0 0 0 0 0 0 (cn_pool_reported c + fresh), sink).

(** ** Nothing is lost unnoticed *)

Definition is_lost (t : Telemetry) : bool := match t with Lost _ => true | _ => false end.

(** What a log says was lost, and its other observations. *)
Definition losses (log : list Telemetry) : Z := foldr (fun t n => match t with Lost k => k + n | _ => n end) 0 log.
Definition told (log : list Telemetry) : list Telemetry := filter (fun t => is_lost t = false) log.

Lemma losses_app l l' : losses (l ++ l') = losses l + losses l'.
Proof. induction l as [|[] l IH]; cbn [app losses foldr]; unfold losses in *; lia. Qed.

(** The observations a flush owes, in the order of the reports. *)
Definition due_reports (pool : BufferPool) (c : Counters) : list Telemetry :=
  omap (fun '(count, into) => if count =? 0 then None else Some (into count))
    [(cn_datagrams_dropped c, DatagramsDropped); (cn_packets_rejected c, PacketsRejected);
     (cn_reassembly_discarded c, Telemetry_ReassemblyDiscarded); (cn_transmits_dropped c, TransmitsDropped);
     (cn_egress_rejected c, EgressRejected); (cn_queries_dropped c, QueriesDropped); (cn_quic_steered c, Telemetry_QuicSteered);
     (cn_paths_reported c, PathsReported); (cn_termination_dropped c, TerminationDropped); (cn_device_errors c, DeviceErrors);
     (cn_network_errors c, NetworkErrors); (saturating_sub (exhausted pool) (cn_pool_reported c), Telemetry_PoolExhausted);
     (cn_panics c, TasksPanicked)].

Lemma length_omap_le {A B} (f : A -> option B) l : (length (omap f l) <= length l)%nat.
Proof. induction l as [|a l IH]; cbn; [done|]. destruct (f a); cbn; lia. Qed.

Lemma flush_emits pool c sink :
  Counters_flush pool c sink =
    (mkCounters 0 0 0 0 0 0 0 0 0 0 0 0 (cn_pool_reported c + saturating_sub (exhausted pool) (cn_pool_reported c)), Sink_emits (due_reports pool c) sink).
Proof.
  unfold Counters_flush, due_reports. set (fresh := saturating_sub _ _). f_equal.
  assert (forall count into sink rest, Sink_emits (omap (fun '(count, into) => if count =? 0 then None else Some (into count)) ((count, into) :: rest)) sink =
    Sink_emits (omap (fun '(count, into) => if count =? 0 then None else Some (into count)) rest) (report count into sink)) as Hone.
  { intros count into sink0 rest. unfold report. cbn [omap list_omap]. by destruct (count =? 0). }
  by rewrite !Hone.
Qed.

Lemma due_reports_plain pool c : Forall (fun t => is_lost t = false) (due_reports pool c).
Proof.
  apply Forall_forall. intros t Ht. unfold due_reports in Ht. apply list_elem_of_omap in Ht as ([count into] & Hin & Ht).
  repeat (apply elem_of_cons in Hin as [[= -> ->]|Hin]; [destruct (_ =? _) in Ht; [done|by injection Ht as <-]|]).
  by apply not_elem_of_nil in Hin.
Qed.

Lemma Sink_emit_accounts observation sink :
  is_lost observation = false -> 0 <= sk_lost sink < U64_MAX ->
  let sink' := Sink_emit observation sink in
  exists new, ox_taken (sk_channel sink') = ox_taken (sk_channel sink) ++ new /\ told new `sublist_of` [observation] /\
    1 + sk_lost sink = Z.of_nat (length (told new)) + losses new + sk_lost sink' /\ 0 <= sk_lost sink' <= sk_lost sink + 1.
Proof.
  intros Ho Hl. unfold Sink_emit. pose proof (Outbox_try_send_taken room observation (sk_channel sink)) as Ht.
  destruct (Outbox_try_send room observation _) as [sent channel]. destruct sent; cbn [negb].
  2:{ exists []. cbn. rewrite Ht. unfold saturating_add. split_and!; try done; try lia. apply sublist_nil_l. }
  assert (told [observation] = [observation] /\ losses [observation] = 0) as [H1 H2] by (unfold told; cbn; rewrite Ho; by destruct observation).
  destruct (sk_lost sink =? 0) eqn:E0; reflect.
  { exists [observation]. cbn [sk_channel sk_lost]. rewrite H1, H2. split_and!; try done; cbn; lia. }
  pose proof (Outbox_try_send_taken room (Lost (sk_lost sink)) channel) as Ht2. destruct (Outbox_try_send room (Lost _) _) as [reported channel'].
  exists ([observation] ++ if reported then [Lost (sk_lost sink)] else []). cbn [sk_channel sk_lost]. rewrite Ht2, Ht, (assoc_L (++)).
  unfold told. rewrite filter_app, losses_app. fold (told [observation]). rewrite H1, H2.
  assert (filter (fun t => is_lost t = false) [Lost (sk_lost sink)] = []) as Hf by done.
  destruct reported; rewrite ?Hf; cbn; split_and!; try done; try lia.
Qed.

Lemma Sink_emits_accounts observations : forall sink,
  Forall (fun t => is_lost t = false) observations -> 0 <= sk_lost sink -> sk_lost sink + Z.of_nat (length observations) <= U64_MAX ->
  let sink' := Sink_emits observations sink in
  exists new, ox_taken (sk_channel sink') = ox_taken (sk_channel sink) ++ new /\ told new `sublist_of` observations /\
    Z.of_nat (length observations) + sk_lost sink = Z.of_nat (length (told new)) + losses new + sk_lost sink'.
Proof.
  induction observations as [|t observations IH]; intros sink Hall H0 Hmax; cbn [Sink_emits foldl].
  { exists []. rewrite app_nil_r. cbn. split_and!; [done|apply sublist_nil_l|lia]. }
  apply Forall_cons in Hall as [Ht Hall]. cbn [length] in Hmax.
  destruct (Sink_emit_accounts t sink Ht) as (new & Hnew & Hsub & Hcount & Hb); [lia|].
  destruct (IH (Sink_emit t sink) Hall) as (more & Hmore & Hsub' & Hcount'); [lia|lia|].
  exists (new ++ more). unfold Sink_emits in Hmore. rewrite Hmore, Hnew, (assoc_L (++)). unfold told. rewrite filter_app, losses_app.
  fold (told new). fold (told more). split_and!; [done|by apply (sublist_app _ [t])|].
  rewrite length_app. cbn [length]. unfold Sink_emits in Hcount'. lia.
Qed.

(** C20: no observation is lost unnoticed, whatever the receiver does.  What a run of
    observations and a flush of the counters leave in the channel, apart from the reports of
    loss, is in the order it was offered, and offered observations and earlier losses equal
    those delivered, those the delivered reports count and those still to be reported.  A
    flush offers each counter that is not zero with its exact total, resets them all, and
    reports of the pool only what it has not reported before. *)
Theorem telemetry_accounts observations pool c sink :
  Forall (fun t => is_lost t = false) observations -> 0 <= sk_lost sink ->
  sk_lost sink + Z.of_nat (length observations) + 13 <= U64_MAX ->
  let '(c', sink') := Counters_flush pool c (Sink_emits observations sink) in
  exists new, ox_taken (sk_channel sink') = ox_taken (sk_channel sink) ++ new /\ told new `sublist_of` observations ++ due_reports pool c /\
    Z.of_nat (length (observations ++ due_reports pool c)) + sk_lost sink = Z.of_nat (length (told new)) + losses new + sk_lost sink' /\
    due_reports pool c' = [] /\ cn_pool_reported c' = Z.max (exhausted pool) (cn_pool_reported c).
Proof.
  intros Hall H0 Hmax. rewrite flush_emits. unfold Sink_emits. rewrite <- foldl_app. fold (Sink_emits (observations ++ due_reports pool c) sink).
  assert (length (due_reports pool c) <= 13)%nat as H13.
  { apply length_omap_le. }
  destruct (Sink_emits_accounts (observations ++ due_reports pool c) sink) as (new & Hnew & Hsub & Hcount);
    [apply Forall_app; split; [done|apply due_reports_plain]|done|rewrite length_app; lia|].
  exists new. split_and!; [done|done|done| |unfold saturating_sub; cbn; lia].
  unfold due_reports. cbn. replace (saturating_sub _ _) with 0; [done|]. unfold saturating_sub. lia.
Qed.
End Sink.

(** A channel with room for the first and from the fourth try on. *)
Lemma telemetry_accounts_witness :
  let room := fun n => (n =? 0)%nat || (3 <=? n)%nat in
  exists new, ox_taken (sk_channel (Counters_flush room (BufferPool_new 16 2) (mkCounters 0 7 0 0 0 0 0 0 0 0 0 2 0)
      (Sink_emits room [Telemetry_Event TransmitDropped; Telemetry_Event QuicSteered; Telemetry_Event HopsExhausted] (mkSink Outbox_new 0))).2) = new /\
    new = [Telemetry_Event TransmitDropped; PacketsRejected 7; Lost 2; TasksPanicked 2] /\
    Z.of_nat 5 = Z.of_nat (length (told new)) + losses new.
Proof.
  cbv zeta. destruct (telemetry_accounts (fun n => (n =? 0)%nat || (3 <=? n)%nat)
    [Telemetry_Event TransmitDropped; Telemetry_Event QuicSteered; Telemetry_Event HopsExhausted] (BufferPool_new 16 2)
    (mkCounters 0 7 0 0 0 0 0 0 0 0 0 2 0) (mkSink Outbox_new 0)) as (new & Hnew & _ & Hcount & _).
  - repeat constructor.
  - cbn. lia.
  - vm_compute. discriminate.
  - exists new. cbn in Hnew. split; [exact Hnew|]. split; [by rewrite <- Hnew|]. rewrite <- Hnew in Hcount |- *. exact Hcount.
Defined.
