(* ===== verification/Resolver.v ===== *)
(** The resolver of the shell ([resolve] of [src/host/shell.rs]): one intercepted query from
    the datapath to the answer it gets back, over the codec, the host policy, the reply
    cache and the buffer pool.

    The upstream is what it answers.  Queries are resolved concurrently: [cache] is the
    cache when this one looks its reply up and [later] when the upstream's answer is
    admitted. *)

From S2P Require Import Prelude Wire Net Plan Packet Udp Path Reassembly Pool Fifo Datapath DnsName DnsMessage DnsPolicy DnsResponse DnsStrip DnsTotal Cache.
Open Scope Z_scope.

Definition MAX_DNS_RESPONSE : nat := 1232.
Definition MIN_DNS_RESPONSE : nat := 512.
Definition DNS_CACHE_ENTRIES : nat := 2048.
Definition MAX_INFLIGHT_QUERIES : nat := 64.

Record Answer := mkAnswer {
  an_client : InternalEndpoint;
  an_resolver : InternalEndpoint;
  an_message : Pooled;
  an_resolution : option Resolution;
  an_steered : list IpAddr;
}.

(** What a query leaves: its answer, whether the upstream was asked, the cache and the
    pool. *)
Record Resolved := mkResolved { rv_answer : option Answer; rv_asked : bool; rv_cache : DnsCache; rv_pool : BufferPool }.

(** The client's own payload size bounds the reply. *)
Definition response_limit (request : Message) : nat :=
  Z.to_nat (clamp (Z.of_nat MIN_DNS_RESPONSE) (Z.of_nat MAX_DNS_RESPONSE)
              (default (Z.of_nat MIN_DNS_RESPONSE) (Message_udp_payload_size request))).

(** The upstream's reply under the client's transaction, or a truncated one when it does
    not fit; the addresses are those inspection steers by. *)
Definition rewrite_reply (message : Pooled) (request : Message) (policy : AnswerPolicy) (age : Z) (reply : bytes) :
    Res DnsError (Pooled * Rewritten * Rcode * list IpAddr) :=
  let limit := response_limit request in
  reply ← Message_parse reply;
  steered ← (if AnswerPolicy_steers policy then answer_addresses (Message_answers reply) [] else Ok []);
  match write_response_aged (take limit message) request reply policy age with
  | Err OutputTooSmall =>
      '(out, len) ← write_truncated message request;
      Ok (out, mkRewritten len 0 EchAbsent AlpnAbsent, Message_rcode reply, [])
  | Err e => Err e
  | Panic => Panic
  | Ok (out, rewritten) => Ok (out ++ drop limit message, rewritten, Message_rcode reply, steered)
  end.

(** The whole [match plan_query(..)] of a query that is forwarded, from the reply's source:
    the message written, its length, what is reported and the addresses. *)
Definition forwarded (message : Pooled) (request : Message) (policy : AnswerPolicy) (provenance : Provenance)
    (source : option (bytes * Duration)) : Res DnsError (Pooled * nat * Resolution * list IpAddr) :=
  let question := m_question request in
  let rewritten :=
    match source with
    | Some (reply, age) => rewrite_reply message request policy (Z.min (as_secs age) U32_MAX) reply
    | None => Err Truncated
    end in
  match rewritten with
  | Ok (out, rw, rcode, steered) =>
      Ok (out, rw_len rw,
          mkResolution (q_name question) (q_qtype question) rcode (rw_answers rw) provenance None (rw_ech rw) (rw_alpn rw), steered)
  | Err _ =>
      '(out, len) ← write_failure message request;
      Ok (out, len,
          mkResolution (q_name question) (q_qtype question) ServerFailure 0 provenance None EchAbsent AlpnAbsent, [])
  | Panic => Panic
  end.

(** [.ok()?]: an error drops the query, and its buffer with it. *)
Definition finish_answer (query : DnsQuery) (message : Pooled) (asked : bool) (cache : DnsCache) (pool : BufferPool)
    (written : Res DnsError (Pooled * nat * option Resolution * list IpAddr)) : Res unit Resolved :=
  match written with
  | Ok (out, len, resolution, steered) =>
      let '(_, out) := Pooled_resize pool out len in
      Ok (mkResolved (Some (mkAnswer (dq_client query) (dq_resolver query) out resolution steered)) asked cache pool)
  | Err _ => Ok (mkResolved None asked cache (Pooled_drop pool message))
  | Panic => Panic
  end.

Definition with_resolution (r : Res DnsError (Pooled * nat * Resolution * list IpAddr)) :
    Res DnsError (Pooled * nat * option Resolution * list IpAddr) :=
  '(out, len, resolution, steered) ← r; Ok (out, len, Some resolution, steered).

Definition resolve (kind : Upstream) (pool : BufferPool) (policy : HostPolicy) (cache : DnsCache) (now : Instant)
    (query : DnsQuery) (answered : option bytes) (later : DnsCache) : Res unit Resolved :=
  match BufferPool_take_zeroed pool MAX_DNS_RESPONSE with
  | (None, pool) => Ok (mkResolved None false cache pool)
  | (Some message, pool) =>
      let malformed :=
        finish_answer query message false cache pool
          ('(out, len) ← write_format_error message (dq_payload query); Ok (out, len, None, [])) in
      match Message_parse (dq_payload query) with
      | Panic => Panic
      | Err _ => malformed
      | Ok request =>
          if is_response request then malformed else
          let question := m_question request in
          match plan_query question policy with
          | Refuse rule =>
              finish_answer query message false cache pool
                ('(out, len) ← write_refusal message request;
                 Ok (out, len,
                     Some (mkResolution (q_name question) (q_qtype question) NameError 0 Provenance_Policy (Some rule) EchAbsent AlpnAbsent), []))
          | Forward policy =>
              match DnsCache_get cache (q_name question) (q_qtype question) now with
              | Some source =>
                  finish_answer query message false cache pool
                    (with_resolution (forwarded message request policy (Provenance_Cached kind) (Some source)))
              | None =>
                  later ← match answered with
                          | Some reply => DnsCache_admit later (q_name question) (q_qtype question) reply now
                          | None => Ok later
                          end;
                  finish_answer query message true later pool
                    (with_resolution (forwarded message request policy (Provenance_Upstream kind) ((fun reply => (reply, 0)) <$> answered)))
              end
          end
      end
  end.

(** The cache [resolver_loop] hands to the next query: cleared when the policy changed. *)
Definition before_query (changed : bool) (cache : DnsCache) : DnsCache := if changed then DnsCache_clear cache else cache.

(** * Every query is answered as planned *)

Definition address_of (r : ResourceRecord) : option IpAddr :=
  match rr_rtype r with
  | RT_A => V4 <$> first_chunk 4 (rr_rdata r)
  | RT_Aaaa => V6 <$> first_chunk 16 (rr_rdata r)
  | _ => None
  end.

Lemma answer_addresses_all answers : forall out, answer_addresses (Ok <$> answers) out = Ok (out ++ omap address_of answers).
Proof.
  induction answers as [|r answers IH]; intros out; cbn [fmap list_fmap answer_addresses mbind Res_bind]; [by rewrite app_nil_r|].
  rewrite IH. f_equal. cbn. unfold address_of. destruct (rr_rtype r); cbn; try done;
    (destruct (first_chunk _ (rr_rdata r)); cbn; [by rewrite <- app_assoc|done]).
Qed.

Lemma answer_addresses_total items : forall out,
  Forall (fun item => match item with Ok r => record_ok r | Err _ => True | Panic => False end) items -> answer_addresses items out <> Panic.
Proof.
  induction items as [|[r|e|] items IH]; intros out Hall; apply Forall_cons in Hall as [Hi Hall] || clear Hall; cbn [answer_addresses mbind Res_bind]; try done.
  by apply IH.
Qed.

(** The reply carries the upstream's answers: each aged and cut as the policy asks, with the
    code, and the addresses exactly where the policy steers. *)
Definition carried (policy : AnswerPolicy) (age : Z) (upstream reply : Message) (steered : list IpAddr) : Prop :=
  exists answers rewritten,
    Message_answers upstream = Ok <$> answers /\ Message_answers reply = Ok <$> rewritten /\
    Forall2 (rewritten_as policy age) answers rewritten /\ Message_rcode reply = Message_rcode upstream /\
    steered = if AnswerPolicy_steers policy then omap address_of answers else [].

Lemma question_bytes_bound bs m : bytes_ok bs -> Message_parse bs = Ok m -> (length (m_question_bytes m) <= 259)%nat.
Proof.
  intros Hok Hp. destruct (Message_parse_ok bs m Hok Hp) as (_ & [Hlen _] & _ & _ & _ & _ & _ & _ & qname & qtype & qclass & -> & _ & _ & _ & Hq & _).
  rewrite !length_app, !length_be_bytes, Hq. unfold Name_wire_len, MAX_NAME_CHARS in *. destruct (Name_is_root _); lia.
Qed.

Lemma response_limit_range request : (MIN_DNS_RESPONSE <= response_limit request <= MAX_DNS_RESPONSE)%nat.
Proof.
  unfold response_limit. pose proof (clamp_range (Z.of_nat MIN_DNS_RESPONSE) (Z.of_nat MAX_DNS_RESPONSE)
    (default (Z.of_nat MIN_DNS_RESPONSE) (Message_udp_payload_size request)) ltac:(unfold MIN_DNS_RESPONSE, MAX_DNS_RESPONSE; lia)) as Hc.
  revert Hc. generalize (clamp (Z.of_nat MIN_DNS_RESPONSE) (Z.of_nat MAX_DNS_RESPONSE) (default (Z.of_nat MIN_DNS_RESPONSE) (Message_udp_payload_size request))).
  intros z. lia.
Qed.

Section Resolve.
Context (payload : bytes) (request : Message).
Hypotheses (Hpayload : bytes_ok payload) (Hrequest : Message_parse payload = Ok request).

(** A local reply of header and question, into a whole buffer. *)
Lemma local_written message flags :
  length message = MAX_DNS_RESPONSE ->
  exists out len, write_header_and_question message request flags = Ok (out, len) /\ length out = MAX_DNS_RESPONSE /\
    (len <= MIN_DNS_RESPONSE)%nat.
Proof.
  intros Hm. rewrite write_header_run. pose proof (question_bytes_bound _ _ Hpayload Hrequest) as Hq.
  set (w := header_bytes _ _ _ _ _ _ ++ _). assert (length w = 12 + length (m_question_bytes request))%nat as Lw
    by (unfold w; by rewrite length_app, length_header_bytes).
  unfold MAX_DNS_RESPONSE, MIN_DNS_RESPONSE in *. rewrite (proj2 (Nat.leb_le _ _)) by lia. eexists _, _. split_and!; [done| |lia].
  rewrite length_splice by lia. done.
Qed.

Lemma local_reply_ok message :
  length message = MAX_DNS_RESPONSE ->
  Forall (fun '(written, code, truncated) =>
    exists out len reply, written = Ok (out, len) /\ length out = MAX_DNS_RESPONSE /\ (len <= MIN_DNS_RESPONSE)%nat /\
      Message_parse (take len out) = Ok reply /\ echoes request reply /\ Message_rcode reply = code /\
      Message_answers reply = [] /\ is_truncated reply = truncated)
    [(write_refusal message request, NameError, false); (write_failure message request, ServerFailure, false);
     (write_truncated message request, NoError, true)].
Proof.
  intros Hm. pose proof (local_replies_echo payload request message Hpayload Hrequest) as Hall.
  eapply Forall_impl; [apply Forall_and; split; [exact Hall|]|].
  - instantiate (1 := fun '(written, _, _) => exists out len, written = Ok (out, len) /\ length out = MAX_DNS_RESPONSE /\ (len <= MIN_DNS_RESPONSE)%nat).
    unfold write_refusal, write_failure, write_truncated.
    apply Forall_cons; split; [apply local_written; exact Hm|]. apply Forall_cons; split; [apply local_written; exact Hm|].
    apply Forall_cons; split; [apply local_written; exact Hm|constructor].
  - intros [[written code] truncated] [Hw (out & len & -> & Ho & Hl)]. destruct Hw as (reply & ? & ? & ? & ? & ?).
    exists out, len, reply. by split_and!.
Qed.

(** What rewriting a reply leaves. *)
Lemma rewrite_reply_ok policy age ubs :
  bytes_ok ubs -> 0 <= age ->
  match rewrite_reply (replicate MAX_DNS_RESPONSE 0) request policy age ubs with
  | Ok (out, rw, rcode, steered) =>
      exists reply upstream, length out = MAX_DNS_RESPONSE /\ (rw_len rw <= response_limit request)%nat /\
        Message_parse (take (rw_len rw) out) = Ok reply /\ echoes request reply /\ Message_parse ubs = Ok upstream /\
        (carried policy age upstream reply steered \/
         Message_answers reply = [] /\ steered = [] /\ is_truncated reply = true /\
         forall x, write_response_aged (replicate (response_limit request) 0) request upstream policy age <> Ok x)
  | Err _ => forall upstream x, Message_parse ubs = Ok upstream ->
      write_response_aged (replicate (response_limit request) 0) request upstream policy age <> Ok x
  | Panic => False
  end.
Proof.
  intros Hu Hage. set (message := replicate MAX_DNS_RESPONSE 0). assert (length message = MAX_DNS_RESPONSE) as Hm by apply length_replicate.
  pose proof (response_limit_range request) as Hlim. assert (take (response_limit request) message = replicate (response_limit request) 0) as Htake
    by (unfold message; rewrite take_replicate; f_equal; lia).
  unfold rewrite_reply. rewrite Htake. pose proof (Message_parse_total ubs Hu) as Hnp.
  destruct (Message_parse ubs) as [upstream| |] eqn:Pu; [|done|done]. cbn [mbind Res_bind].
  pose proof (write_response_total ubs request upstream (replicate (response_limit request) 0) policy age Hu Pu Hage) as Htot.
  destruct (Message_answers_items ubs upstream Hu Pu) as (_ & _ & Hitems).
  destruct (if AnswerPolicy_steers policy then _ else _) as [steered|e|] eqn:Es; cbn [mbind Res_bind].
  2:{ intros upstream' [out rw] [= <-] Hw. destruct (response_reads_back payload ubs request upstream _ policy age out rw Hpayload Hu Hrequest Pu Hage Hw) as (answers & _ & _ & Ha & _).
      destruct (AnswerPolicy_steers policy); [|done]. by rewrite Ha, answer_addresses_all in Es. }
  2:{ destruct (AnswerPolicy_steers policy); [|done]. by apply (answer_addresses_total _ []) in Es. }
  destruct (write_response_aged _ request upstream policy age) as [[out rw]|e|] eqn:Ew; [| |done].
  - destruct (response_reads_back payload ubs request upstream _ policy age out rw Hpayload Hu Hrequest Pu Hage Ew)
      as (answers & rewritten & reply & Ha & _ & Hp & He & Hc & _ & Hr & Hf).
    destruct (write_response_bytes ubs request upstream _ policy age out rw Hu Pu Hage Ew) as (_ & _ & _ & _ & _ & Hlen & Ho & _).
    rewrite length_replicate in *. exists reply, upstream. split_and!; [|done| |done|done|left].
    + rewrite length_app, length_drop, Ho, Hm. lia.
    + by rewrite take_app_le by lia.
    + exists answers, rewritten. split_and!; [done|done|done|done|]. destruct (AnswerPolicy_steers policy); [|congruence].
      rewrite Ha, answer_addresses_all in Es. by injection Es as <-.
  - destruct e; try (by intros ? ? [= <-]; rewrite Ew).
    pose proof (local_reply_ok message Hm) as Hl. rewrite !Forall_cons in Hl. destruct Hl as (_ & _ & (out & len & reply & -> & Ho & Hl & Hp & He & _ & Ha & Ht) & _).
    cbn [mbind Res_bind rw_len]. exists reply, upstream. split_and!; [done|lia|done|done|done|right]. split_and!; [done|done|done|]. by rewrite Ew.
Qed.

(** What the client sees of a forwarded query, from the reply's source: the upstream's
    answers whenever they fit, else a truncated reply or a failure with no answers. *)
Definition outcome (policy : AnswerPolicy) (source : option (bytes * Duration)) (reply : Message) (steered : list IpAddr) : Prop :=
  match source with
  | Some (ubs, age) =>
      let age := Z.min (as_secs age) U32_MAX in
      (exists upstream, Message_parse ubs = Ok upstream /\ carried policy age upstream reply steered) \/
      Message_answers reply = [] /\ steered = [] /\ (is_truncated reply = true \/ Message_rcode reply = ServerFailure) /\
      forall upstream x, Message_parse ubs = Ok upstream ->
        write_response_aged (replicate (response_limit request) 0) request upstream policy age <> Ok x
  | None => Message_answers reply = [] /\ steered = [] /\ Message_rcode reply = ServerFailure
  end.

Lemma forwarded_ok policy provenance source :
  (forall ubs age, source = Some (ubs, age) -> bytes_ok ubs /\ 0 <= age) ->
  exists out len resolution steered reply,
    forwarded (replicate MAX_DNS_RESPONSE 0) request policy provenance source = Ok (out, len, resolution, steered) /\
    length out = MAX_DNS_RESPONSE /\ (len <= response_limit request)%nat /\ Message_parse (take len out) = Ok reply /\
    echoes request reply /\ res_name resolution = q_name (m_question request) /\ outcome policy source reply steered.
Proof.
  intros Hs. pose proof (response_limit_range request) as Hlim. unfold forwarded.
  pose proof (local_reply_ok (replicate MAX_DNS_RESPONSE 0) (length_replicate _ _)) as Hl. rewrite !Forall_cons in Hl.
  destruct Hl as (_ & (out & len & reply & Hf & Ho & Hl & Hp & He & Hc & Ha & _) & _).
  destruct source as [[ubs age]|]; cbn [outcome].
  2:{ rewrite Hf. cbn [mbind Res_bind]. eexists _, _, _, _, reply. split_and!; [done|done|lia|done|done|done|done|done|done]. }
  destruct (Hs ubs age eq_refl) as [Hu Hage]. assert (0 <= Z.min (as_secs age) U32_MAX) as Hsecs.
  { assert (0 <= as_secs age) by (apply Z.div_pos; [done|unfold NANOS; lia]). unfold U32_MAX. lia. }
  pose proof (rewrite_reply_ok policy _ ubs Hu Hsecs) as Hr.
  destruct (rewrite_reply _ request policy _ ubs) as [[[[out' rw] rcode] steered]|e|]; [| |done].
  - destruct Hr as (reply' & upstream & Ho' & Hl' & Hp' & He' & Pu & Hout). eexists _, _, _, _, reply'. split_and!; [done|done|lia|done|done|done|].
    destruct Hout as [Hcar|(Ha' & -> & Ht & Hno)]; [left; by exists upstream|right]. split_and!; [done|done|by left|].
    intros upstream' x Hu'. rewrite Pu in Hu'. injection Hu' as <-. apply Hno.
  - rewrite Hf. cbn [mbind Res_bind]. eexists _, _, _, _, reply. split_and!; [done|done|lia|done|done|done|]. right. split_and!; [done|done|by right|done].
Qed.
End Resolve.

Lemma finish_written slice capacity query message asked cache pool loans out len resolution steered :
  accounts slice capacity pool (message :: loans) -> (MAX_DNS_RESPONSE <= slice)%nat -> length out = MAX_DNS_RESPONSE -> (len <= MAX_DNS_RESPONSE)%nat ->
  finish_answer query message asked cache pool (Ok (out, len, resolution, steered)) =
    Ok (mkResolved (Some (mkAnswer (dq_client query) (dq_resolver query) (take len out) resolution steered)) asked cache pool) /\
  accounts slice capacity pool (take len out :: loans).
Proof.
  intros Hp Hsl Ho Hl. unfold finish_answer, Pooled_resize. rewrite (po_slice _ _ _ Hp : slice_size pool = slice).
  rewrite (proj2 (Nat.ltb_ge _ _)) by lia. unfold vec_resize. replace (len - length out)%nat with 0%nat by lia. rewrite app_nil_r.
  split; [done|]. eapply accounts_resized; [|exact Hp]. rewrite length_take. lia.
Qed.

Lemma take_message slice capacity pool loans :
  accounts slice capacity pool loans -> (length loans < capacity)%nat -> (MAX_DNS_RESPONSE <= slice)%nat ->
  exists pool', BufferPool_take_zeroed pool MAX_DNS_RESPONSE = (Some (replicate MAX_DNS_RESPONSE 0), pool') /\
    accounts slice capacity pool' (replicate MAX_DNS_RESPONSE 0 :: loans).
Proof.
  intros Hp Hc Hs. unfold BufferPool_take_zeroed. pose proof (reserve_ok _ _ _ _ MAX_DNS_RESPONSE Hp) as Hr.
  destruct (BufferPool_reserve pool MAX_DNS_RESPONSE) as [[b|] pool'].
  - destruct Hr as (-> & _ & _ & Hb). exists pool'. cbn [fmap option_fmap option_map]. unfold vec_resize. rewrite take_nil, Nat.sub_0_r. cbn [app].
    split; [done|]. apply Hb. by rewrite length_replicate.
  - destruct Hr as [[?|?] _]; lia.
Qed.

Lemma admit_no_panic c name qtype reply now :
  now + MAX_TTL <= INSTANT_MAX -> exists c', DnsCache_admit c name qtype reply now = Ok c'.
Proof.
  intros Hnow. unfold DnsCache_admit. destruct (_ ≫= _) as [life|] eqn:E; [|by exists c].
  assert (life <= MAX_TTL) as Hl.
  { destruct (Message_parse reply) as [m| |]; cbn in E; [|done|done]. by apply lifetime_range in E as [_ ?]. }
  unfold instant_checked_add, checked_add. rewrite (proj2 (Z.leb_le _ _)) by lia. cbn. by eexists.
Qed.

(** The source of a forwarded query's reply. *)
Definition source_of (cache : DnsCache) (now : Instant) (question : Question) (answered : option bytes) : option (bytes * Duration) :=
  match DnsCache_get cache (q_name question) (q_qtype question) now with
  | Some source => Some source
  | None => (fun reply => (reply, 0)) <$> answered
  end.

(** The header of a format error: the identifier, the response bit with the recursion bit
    of the query, code 1, and no question and no record. *)
Definition format_error (i j f : Z) : bytes := [i; j; 128 + f mod 2; 1; 0; 0; 0; 0; 0; 0; 0; 0].

(** What a payload that is no query gets: a format error as soon as its flags can be read,
    and nothing before. *)
Definition rejected (slice capacity : nat) (query : DnsQuery) (cache : DnsCache) (loans : list Pooled) (r : Resolved) : Prop :=
  rv_asked r = false /\ rv_cache r = cache /\
  match dq_payload query with
  | i :: j :: f :: _ :: _ =>
      rv_answer r = Some (mkAnswer (dq_client query) (dq_resolver query) (format_error i j f) None []) /\
      accounts slice capacity (rv_pool r) (format_error i j f :: loans)
  | _ => rv_answer r = None /\ accounts slice capacity (rv_pool r) loans
  end.

Lemma format_error_flags f g : 0 <= g < 256 ->
  be_bytes 2 (Z.lor (Z.lor (Z.land (be_value [f; g]) FLAG_RECURSION_DESIRED) FLAG_RESPONSE) (Rcode_to_wire FormatError)) = [128 + f mod 2; 1].
Proof.
  intros Hg. assert (Z.land (be_value [f; g]) FLAG_RECURSION_DESIRED = if f mod 2 =? 0 then 0 else 256) as ->.
  { change FLAG_RECURSION_DESIRED with (2 ^ 8). rewrite <- Z.shiftl_1_l, Z.land_comm. 
    assert (be_value [f; g] = g + f * 2 ^ 8) as -> by (cbn; lia). apply Z.bits_inj'. intros n Hn.
    rewrite Z.land_spec, Z.shiftl_1_l. destruct (decide (n = 8)) as [->|Hne].
    - rewrite Z.pow2_bits_true by lia. cbn [andb]. apply Z.b2z_inj. rewrite Z.testbit_spec' by lia.
      rewrite Z.div_add, (Z.div_small g) by lia. cbn [Z.add]. pose proof (Z.mod_pos_bound f 2 ltac:(lia)).
      rewrite Z.add_0_l. destruct (f mod 2 =? 0) eqn:E; reflect; [by rewrite E|]. assert (f mod 2 = 1) as -> by lia. done.
    - rewrite Z.pow2_bits_false by done. cbn [andb]. destruct (f mod 2 =? 0); [by rewrite Z.bits_0|].
      symmetry. change 256 with (2 ^ 8). by apply Z.pow2_bits_false. }
  pose proof (Z.mod_pos_bound f 2 ltac:(lia)). destruct (f mod 2 =? 0) eqn:E; reflect; [by rewrite E|].
  assert (f mod 2 = 1) as -> by lia. done.
Qed.

Lemma rejected_ok slice capacity query cache pool loans :
  accounts slice capacity pool (replicate MAX_DNS_RESPONSE 0 :: loans) -> (MAX_DNS_RESPONSE <= slice)%nat -> bytes_ok (dq_payload query) ->
  exists r, finish_answer query (replicate MAX_DNS_RESPONSE 0) false cache pool
    ('(out, len) ← write_format_error (replicate MAX_DNS_RESPONSE 0) (dq_payload query); Ok (out, len, None, [])) = Ok r /\
    rejected slice capacity query cache loans r.
Proof.
  intros Hp Hs Hb. unfold rejected. pose proof (accounts_drop _ _ _ _ _ Hp) as Hd.
  destruct (dq_payload query) as [|i [|j [|f [|g rest]]]]; [by eexists..|].
  apply Forall_cons in Hb as [_ [_ [_ [Hg _]%Forall_cons]%Forall_cons]%Forall_cons].
  unfold write_format_error, first_chunk, get_to, get_range. cbn [length Nat.leb andb ok_or mbind Res_bind take drop Nat.sub].
  rewrite take_0. unfold Bounded_at. cbn [Nat.leb ok_or mbind Res_bind]. rewrite Bounded_zeros_run. unfold Bounded_u16. rewrite (format_error_flags f g) by done.
  change (Bounded_bytes (replicate (HEADER_BYTES - 4) 0) _) with (Bounded_run [[i; j]; [128 + f mod 2; 1]; replicate (HEADER_BYTES - 4) 0] (mkBounded (replicate MAX_DNS_RESPONSE 0) 0 false)).
  rewrite Bounded_run_finish by lia. change (concat _) with (format_error i j f). rewrite length_replicate. cbn [length format_error Nat.add].
  rewrite (proj2 (Nat.leb_le _ _)) by (unfold MAX_DNS_RESPONSE; lia). cbn [ok_or mbind Res_bind].
  edestruct (finish_written slice capacity query (replicate MAX_DNS_RESPONSE 0) false cache pool loans) as [-> Hacc]; [done|done| |unfold MAX_DNS_RESPONSE; lia|].
  { rewrite length_splice; rewrite length_replicate; cbn; unfold MAX_DNS_RESPONSE; lia. }
  unfold splice in *. rewrite take_0 in *. cbn [app] in *. rewrite (take_app_length' (format_error i j f)) in * by done.
  eexists. split; [done|]. by split_and!.
Qed.
(** C4: one intercepted query, with a buffer to answer in and whatever cache and upstream.
    Resolving it always ends.  A payload that is no query goes nowhere: from four bytes on
    it is answered with the twelve bytes of a format error, which carry its identifier and
    its recursion bit, and a shorter one is dropped, its buffer back in the pool.  A query is answered with a
    message, within the payload size the client allows, that parses as the response to its
    own transaction and question.  If the policy blocks the name the upstream is not asked,
    the cache is untouched and the answer is a name error naming the rule.  Otherwise the
    upstream is asked exactly when the cache has no live reply, and the answer carries the
    records of that reply, aged and cut as the policy asks, whenever they fit, with their
    addresses where the policy steers; a reply that does not fit or does not parse becomes
    a truncated reply or a failure, with no records and no addresses.  On every
    path the pool has exactly the answer's buffer on loan more than before. *)
Theorem resolver_answers kind slice capacity pool loans policy cache now query answered later :
  accounts slice capacity pool loans -> (length loans < capacity)%nat -> (MAX_DNS_RESPONSE <= slice)%nat ->
  bytes_ok (dq_payload query) -> (forall reply, answered = Some reply -> bytes_ok reply) ->
  (forall name qtype reply age, DnsCache_get cache name qtype now = Some (reply, age) -> bytes_ok reply) -> now + MAX_TTL <= INSTANT_MAX ->
  exists r, resolve kind pool policy cache now query answered later = Ok r /\
  match Message_parse (dq_payload query) with
  | Ok request =>
      if is_response request then rejected slice capacity query cache loans r else
      exists answer resolution reply,
        rv_answer r = Some answer /\ an_client answer = dq_client query /\ an_resolver answer = dq_resolver query /\
        an_resolution answer = Some resolution /\ res_name resolution = q_name (m_question request) /\
        Message_parse (an_message answer) = Ok reply /\ echoes request reply /\
        (length (an_message answer) <= response_limit request)%nat /\
        accounts slice capacity (rv_pool r) (an_message answer :: loans) /\
        match plan_query (m_question request) policy with
        | Refuse rule =>
            rv_asked r = false /\ rv_cache r = cache /\ Message_rcode reply = NameError /\ Message_answers reply = [] /\
            an_steered answer = [] /\ res_rule resolution = Some rule
        | Forward ap =>
            rv_asked r = bool_decide (DnsCache_get cache (q_name (m_question request)) (q_qtype (m_question request)) now = None) /\
            outcome request ap (source_of cache now (m_question request) answered) reply (an_steered answer)
        end
  | _ => rejected slice capacity query cache loans r
  end.
Proof.
  intros Hp Hc Hs Hpay Hans Hcached Hnow. destruct (take_message _ _ _ _ Hp Hc Hs) as (pool' & Htake & Hp'). unfold resolve. rewrite Htake.
  pose proof (Message_parse_total _ Hpay) as Hnp. destruct (Message_parse (dq_payload query)) as [request| |] eqn:Pq; [|by apply rejected_ok|done].
  destruct (is_response request); [by apply rejected_ok|]. pose proof (response_limit_range request) as Hlim.
  destruct (plan_query (m_question request) policy) as [rule|ap].
  - pose proof (local_reply_ok _ _ Hpay Pq (replicate MAX_DNS_RESPONSE 0) (length_replicate _ _)) as Hl. rewrite !Forall_cons in Hl.
    destruct Hl as ((out & len & reply & -> & Ho & Hlen & Hr & He & Hcode & Ha & _) & _). cbn [mbind Res_bind].
    edestruct (finish_written slice capacity query (replicate MAX_DNS_RESPONSE 0) false cache pool' loans out len) as [-> Hacc]; [done|done|done|lia|].
    eexists. split; [done|]. eexists _, _, reply. cbn. split_and!; try done. cbn [an_message]. rewrite length_take. lia.
  - assert (forall asked cache' provenance source, (forall ubs age, source = Some (ubs, age) -> bytes_ok ubs /\ 0 <= age) ->
      exists r, finish_answer query (replicate MAX_DNS_RESPONSE 0) asked cache' pool' (with_resolution (forwarded (replicate MAX_DNS_RESPONSE 0) request ap provenance source)) = Ok r /\
      exists answer resolution reply, rv_answer r = Some answer /\ an_client answer = dq_client query /\ an_resolver answer = dq_resolver query /\
        an_resolution answer = Some resolution /\ res_name resolution = q_name (m_question request) /\ Message_parse (an_message answer) = Ok reply /\
        echoes request reply /\ (length (an_message answer) <= response_limit request)%nat /\ accounts slice capacity (rv_pool r) (an_message answer :: loans) /\
        rv_asked r = asked /\ outcome request ap source reply (an_steered answer)) as Hfwd.
    { intros asked cache' provenance source Hsrc. destruct (forwarded_ok _ _ Hpay Pq ap provenance source Hsrc)
        as (out & len & resolution & steered & reply & -> & Ho & Hlen & Hr & He & Hn & Hout). cbn [with_resolution mbind Res_bind].
      edestruct (finish_written slice capacity query (replicate MAX_DNS_RESPONSE 0) asked cache' pool' loans out len) as [-> Hacc]; [done|done|done|lia|].
      eexists. split; [done|]. eexists _, _, reply. cbn. split_and!; try done. cbn [an_message]. rewrite length_take. lia. }
    unfold source_of. destruct (DnsCache_get cache _ _ now) as [[cached age]|] eqn:Eg.
    + apply Hfwd. intros ubs age' [= <- <-]. split; [by eapply Hcached|]. unfold DnsCache_get in Eg.
      destruct (BoundedFifo_get _ _) as [ca|]; [|done]. cbn in Eg. unfold serve in Eg. destruct (now <? _); [|done]. injection Eg as _ <-.
      unfold saturating_duration_since, saturating_sub. lia.
    + assert (exists later', match answered with Some reply => DnsCache_admit later (q_name (m_question request)) (q_qtype (m_question request)) reply now | None => Ok later end = Ok later') as [later' ->].
      { destruct answered as [reply|]; [by apply admit_no_panic|by exists later]. }
      cbn [mbind Res_bind]. apply Hfwd. intros ubs age Heq. destruct answered as [reply|]; [|done]. cbn in Heq. injection Heq as <- <-. split; [by apply Hans|lia].
Qed.

Definition example_client : InternalEndpoint := mkEndpoint (V4 [10; 0; 0; 2]) 40000.
Definition example_resolver : InternalEndpoint := mkEndpoint (V4 [10; 0; 0; 53]) 53.

Lemma resolver_answers_witness :
  exists r answer reply,
    resolve DoH (BufferPool_new 2048 4) (mkHostPolicy ∅ ∅ {[ [97; 46; 98] ]}) (DnsCache_new 8) 0
      (mkQuery example_client example_resolver example_query) (Some example_upstream) (DnsCache_new 8) = Ok r /\
    rv_asked r = true /\ rv_answer r = Some answer /\ an_client answer = example_client /\
    Message_parse (an_message answer) = Ok reply /\ m_id reply = 0x1234 /\ (length (an_message answer) <= 512)%nat.
Proof.
  assert (Message_parse example_query = Ok (parsed example_query)) as Pq by (vm_compute; reflexivity).
  destruct (resolver_answers DoH 2048 4 (BufferPool_new 2048 4) [] (mkHostPolicy ∅ ∅ {[ [97; 46; 98] ]}) (DnsCache_new 8) 0
      (mkQuery example_client example_resolver example_query) (Some example_upstream) (DnsCache_new 8)) as (r & Hr & Hout).
  - split; cbn; try done; try lia; constructor.
  - cbn. lia.
  - unfold MAX_DNS_RESPONSE. lia.
  - repeat constructor; lia.
  - intros reply [= <-]. repeat constructor; lia.
  - intros name qtype reply age Hg. unfold DnsCache_get, BoundedFifo_get in Hg. cbn in Hg. by rewrite lookup_empty in Hg.
  - vm_compute. discriminate.
  - cbn [dq_payload] in Hout. rewrite Pq in Hout. assert (is_response (parsed example_query) = false) as Hn by (vm_compute; reflexivity). rewrite Hn in Hout.
    destruct Hout as (answer & resolution & reply & Ha & Hc & _ & _ & _ & Hp & (Hid & _) & Hl & _ & Hplan).
    assert (plan_query (m_question (parsed example_query)) (mkHostPolicy ∅ ∅ {[ [97; 46; 98] ]}) = Forward (mkAnswerPolicy EchStrip StripH3)) as Hf
      by (vm_compute; reflexivity).
    rewrite Hf in Hplan. destruct Hplan as [Hasked _].
    exists r, answer, reply. split; [exact Hr|]. split; [rewrite Hasked; vm_compute; reflexivity|]. split; [exact Ha|]. split; [exact Hc|]. split; [exact Hp|].
    split; [rewrite Hid; vm_compute; reflexivity|]. assert (response_limit (parsed example_query) = 512%nat) as He by (vm_compute; reflexivity).
    rewrite He in Hl. exact Hl.
Defined.
