(* ===== verification/Shell.v ===== *)
(** The reactor of the shell ([reactor_loop] and [drain] of [src/host/shell.rs]): one turn per
    event, over the datapath, the packet egress, the buffer pool they share and the channels to
    the resolver, the relay, the terminator and the owner.

    What the host answers is the record [World]: each reading of the clock, each send on the
    device or the network, and whether a channel has room at each try.  A turn runs to its next
    wait as one step; the other tasks run between turns. *)

From S2P Require Import Prelude Wire Net Plan Packet Udp Path Reassembly Pool Fifo Datapath DatapathPool DatapathSafety DnsName DnsMessage DnsPolicy DnsResponse Egress Masque PacketEgress Relay Telemetry Resolver.
Open Scope Z_scope.

(** ** Errors of the host *)

(** The kinds [transient] names, and the others. *)
Inductive IoKind :=
| Interrupted | WouldBlock | ConnectionRefused | ConnectionReset | HostUnreachable | NetworkUnreachable | NetworkDown | OtherIo.

Record IoError := mkIoError { io_kind : IoKind; io_os : option Z }.

(** The codes of the platform. *)
Class Libc := { ENOBUFS : Z; ENOMEM : Z; EMSGSIZE : Z }.

Definition momentary `{Libc} (error : IoError) : bool :=
  match io_os error with
  | Some code => existsb (Z.eqb code) [ENOBUFS; ENOMEM; EMSGSIZE]
  | None => false
  end.

Definition transient `{Libc} (error : IoError) : bool :=
  match io_kind error with
  | Interrupted | WouldBlock | ConnectionRefused | ConnectionReset | HostUnreachable | NetworkUnreachable | NetworkDown => true
  | OtherIo => momentary error
  end.

(** [whole]: a short write is an error of its own. *)
Definition whole (written expected : nat) : Res IoError unit :=
  if (written =? expected)%nat then Ok tt else Err (mkIoError OtherIo None).

(** A send within its budget, or not. *)
Inductive SendResult := Sends | Refuses (error : IoError) | Stalls.

Record World := mkWorld {
  w_clock : nat -> Instant;
  w_device : nat -> SendResult;
  w_network : nat -> SendResult;
  w_queries : nat -> bool;
  w_relay : nat -> bool;
  w_terminate : nat -> bool;
  w_telemetry : nat -> bool;
}.

Inductive Control := Control_PathChange (accepts : Accepts) (next : PathProperties) | Control_Shutdown.

Definition TELEMETRY_INTERVAL : Duration := 500 * (NANOS / 1000).

(** ** The reactor *)

(** [rx_reads] counts the readings of the clock.  [rx_replies] is what the terminator's
    channel holds; a session without a relay or a terminator has none of their channels. *)
Record Reactor (E : Type) := mkReactor {
  rx_datapath : Datapath;
  rx_egress : E;
  rx_emits : list EgressEmit;
  rx_slot : option Pooled;
  rx_device : list bytes;
  rx_network : list bytes;
  rx_reads : nat;
  rx_queries : Outbox DnsQuery;
  rx_relay : option (Outbox Outbound);
  rx_terminate : option (Outbox Pooled);
  rx_replies : list Pooled;
  rx_telemetry : TelemetrySink;
  rx_counters : Counters;
  rx_next_flush : Instant;
  rx_next_tick : Instant;
}.
Arguments mkReactor {E}. Arguments rx_datapath {E}. Arguments rx_egress {E}. Arguments rx_emits {E}. Arguments rx_slot {E}.
Arguments rx_device {E}. Arguments rx_network {E}. Arguments rx_reads {E}. Arguments rx_queries {E}. Arguments rx_relay {E}.
Arguments rx_terminate {E}. Arguments rx_replies {E}. Arguments rx_telemetry {E}. Arguments rx_counters {E}.
Arguments rx_next_flush {E}. Arguments rx_next_tick {E}.

(** The counters a turn may advance, each a [u64]. *)
Inductive Counted :=
| CDatagrams | CPackets | CReassembly | CTransmits | CEgress | CQueries | CQuic | CPaths | CTermination | CDevice | CNetwork.

Definition u64_succ (n : Z) : Z := (n + 1) mod 2 ^ 64.

Definition count_one (k : Counted) (c : Counters) : Counters :=
  let '(mkCounters dg pk re tx eg qu qs pa te dv nw panics reported) := c in
  match k with
  | CDatagrams => mkCounters (u64_succ dg) pk re tx eg qu qs pa te dv nw panics reported
  | CPackets => mkCounters dg (u64_succ pk) re tx eg qu qs pa te dv nw panics reported
  | CReassembly => mkCounters dg pk (u64_succ re) tx eg qu qs pa te dv nw panics reported
  | CTransmits => mkCounters dg pk re (u64_succ tx) eg qu qs pa te dv nw panics reported
  | CEgress => mkCounters dg pk re tx (u64_succ eg) qu qs pa te dv nw panics reported
  | CQueries => mkCounters dg pk re tx eg (u64_succ qu) qs pa te dv nw panics reported
  | CQuic => mkCounters dg pk re tx eg qu (u64_succ qs) pa te dv nw panics reported
  | CPaths => mkCounters dg pk re tx eg qu qs (u64_succ pa) te dv nw panics reported
  | CTermination => mkCounters dg pk re tx eg qu qs pa (u64_succ te) dv nw panics reported
  | CDevice => mkCounters dg pk re tx eg qu qs pa te (u64_succ dv) nw panics reported
  | CNetwork => mkCounters dg pk re tx eg qu qs pa te dv (u64_succ nw) panics reported
  end.

Section Setters.
Context {E : Type}.
Implicit Types r : Reactor E.

Definition set_datapath d r : Reactor E := mkReactor d (rx_egress r) (rx_emits r) (rx_slot r) (rx_device r) (rx_network r) (rx_reads r) (rx_queries r)
  (rx_relay r) (rx_terminate r) (rx_replies r) (rx_telemetry r) (rx_counters r) (rx_next_flush r) (rx_next_tick r).
Definition set_egress (e : E) r : Reactor E := mkReactor (rx_datapath r) e (rx_emits r) (rx_slot r) (rx_device r) (rx_network r) (rx_reads r) (rx_queries r)
  (rx_relay r) (rx_terminate r) (rx_replies r) (rx_telemetry r) (rx_counters r) (rx_next_flush r) (rx_next_tick r).
Definition set_emits emits r : Reactor E := mkReactor (rx_datapath r) (rx_egress r) emits (rx_slot r) (rx_device r) (rx_network r) (rx_reads r) (rx_queries r)
  (rx_relay r) (rx_terminate r) (rx_replies r) (rx_telemetry r) (rx_counters r) (rx_next_flush r) (rx_next_tick r).
Definition set_slot slot r : Reactor E := mkReactor (rx_datapath r) (rx_egress r) (rx_emits r) slot (rx_device r) (rx_network r) (rx_reads r) (rx_queries r)
  (rx_relay r) (rx_terminate r) (rx_replies r) (rx_telemetry r) (rx_counters r) (rx_next_flush r) (rx_next_tick r).
Definition set_device log r : Reactor E := mkReactor (rx_datapath r) (rx_egress r) (rx_emits r) (rx_slot r) log (rx_network r) (rx_reads r) (rx_queries r)
  (rx_relay r) (rx_terminate r) (rx_replies r) (rx_telemetry r) (rx_counters r) (rx_next_flush r) (rx_next_tick r).
Definition set_network log r : Reactor E := mkReactor (rx_datapath r) (rx_egress r) (rx_emits r) (rx_slot r) (rx_device r) log (rx_reads r) (rx_queries r)
  (rx_relay r) (rx_terminate r) (rx_replies r) (rx_telemetry r) (rx_counters r) (rx_next_flush r) (rx_next_tick r).
Definition set_reads n r : Reactor E := mkReactor (rx_datapath r) (rx_egress r) (rx_emits r) (rx_slot r) (rx_device r) (rx_network r) n (rx_queries r)
  (rx_relay r) (rx_terminate r) (rx_replies r) (rx_telemetry r) (rx_counters r) (rx_next_flush r) (rx_next_tick r).
Definition set_query_box q r : Reactor E := mkReactor (rx_datapath r) (rx_egress r) (rx_emits r) (rx_slot r) (rx_device r) (rx_network r) (rx_reads r) q
  (rx_relay r) (rx_terminate r) (rx_replies r) (rx_telemetry r) (rx_counters r) (rx_next_flush r) (rx_next_tick r).
Definition set_relay_box relay r : Reactor E := mkReactor (rx_datapath r) (rx_egress r) (rx_emits r) (rx_slot r) (rx_device r) (rx_network r) (rx_reads r) (rx_queries r)
  relay (rx_terminate r) (rx_replies r) (rx_telemetry r) (rx_counters r) (rx_next_flush r) (rx_next_tick r).
Definition set_terminate_box t r : Reactor E := mkReactor (rx_datapath r) (rx_egress r) (rx_emits r) (rx_slot r) (rx_device r) (rx_network r) (rx_reads r) (rx_queries r)
  (rx_relay r) t (rx_replies r) (rx_telemetry r) (rx_counters r) (rx_next_flush r) (rx_next_tick r).
Definition set_replies l r : Reactor E := mkReactor (rx_datapath r) (rx_egress r) (rx_emits r) (rx_slot r) (rx_device r) (rx_network r) (rx_reads r) (rx_queries r)
  (rx_relay r) (rx_terminate r) l (rx_telemetry r) (rx_counters r) (rx_next_flush r) (rx_next_tick r).
Definition set_telemetry t r : Reactor E := mkReactor (rx_datapath r) (rx_egress r) (rx_emits r) (rx_slot r) (rx_device r) (rx_network r) (rx_reads r) (rx_queries r)
  (rx_relay r) (rx_terminate r) (rx_replies r) t (rx_counters r) (rx_next_flush r) (rx_next_tick r).
Definition set_counters c r : Reactor E := mkReactor (rx_datapath r) (rx_egress r) (rx_emits r) (rx_slot r) (rx_device r) (rx_network r) (rx_reads r) (rx_queries r)
  (rx_relay r) (rx_terminate r) (rx_replies r) (rx_telemetry r) c (rx_next_flush r) (rx_next_tick r).
Definition set_next_flush t r : Reactor E := mkReactor (rx_datapath r) (rx_egress r) (rx_emits r) (rx_slot r) (rx_device r) (rx_network r) (rx_reads r) (rx_queries r)
  (rx_relay r) (rx_terminate r) (rx_replies r) (rx_telemetry r) (rx_counters r) t (rx_next_tick r).
Definition set_next_tick t r : Reactor E := mkReactor (rx_datapath r) (rx_egress r) (rx_emits r) (rx_slot r) (rx_device r) (rx_network r) (rx_reads r) (rx_queries r)
  (rx_relay r) (rx_terminate r) (rx_replies r) (rx_telemetry r) (rx_counters r) (rx_next_flush r) t.
End Setters.

(** The state and error monad of the reactor; the error is the one that ends the session. *)
Definition RM (E A : Type) : Type := Reactor E -> Res IoError A * Reactor E.

#[global] Instance RM_ret {E} : MRet (RM E) := fun _ a r => (Ok a, r).
#[global] Instance RM_bind {E} : MBind (RM E) := fun _ _ f m r =>
  match m r with
  | (Ok a, r) => f a r
  | (Err e, r) => (Err e, r)
  | (Panic, r) => (Panic, r)
  end.

Section Shell.
Context `{Etherparse} `{Libc} {W E : Type} `{PacketEgress W E} (w : World).

Definition rget : RM E (Reactor E) := fun r => (Ok r, r).
Definition rmodify (f : Reactor E -> Reactor E) : RM E unit := fun r => (Ok tt, f r).
Definition rfail {A} (e : IoError) : RM E A := fun r => (Err e, r).
Definition rpanic {A} : RM E A := fun r => (Panic, r).

(** [Instant::now()]. *)
Definition read_clock : RM E Instant := fun r => (Ok (w_clock w (rx_reads r)), set_reads (S (rx_reads r)) r).

Definition counting (k : Counted) : RM E unit := rmodify (fun r => set_counters (count_one k (rx_counters r)) r).

Definition emit_telemetry (observation : Telemetry) : RM E unit :=
  rmodify (fun r => set_telemetry (Sink_emit (w_telemetry w) observation (rx_telemetry r)) r).

(** A call of the datapath, which answers its result. *)
Definition on_datapath {A} (m : DP A) : RM E (Res DatapathError A) := fun r =>
  match m (rx_datapath r) with
  | (Panic, d) => (Panic, set_datapath d r)
  | (answer, d) => (Ok answer, set_datapath d r)
  end.

(** Polls never fail. *)
Definition poll_one {A} (m : DP (option A)) : RM E (option A) :=
  answer ← on_datapath m; mret (match answer with Ok o => o | _ => None end).

(** A slice goes out of scope. *)
Definition drop_slice (bs : Pooled) : RM E unit :=
  rmodify (fun r => set_datapath (set_pool (Pooled_drop (dp_pool (rx_datapath r)) bs) (rx_datapath r)) r).

Definition sent_as (k : Counted) (result : SendResult) : RM E unit :=
  match result with
  | Refuses error => if transient error then counting k else rfail error
  | Sends => mret tt
  | Stalls => counting k
  end.

Definition to_device (bs : bytes) : RM E unit :=
  r ← rget;
  rmodify (set_device (rx_device r ++ [bs]));;
  sent_as CDevice (w_device w (length (rx_device r))).

Definition to_network (bs : bytes) : RM E unit :=
  r ← rget;
  rmodify (set_network (rx_network r ++ [bs]));;
  sent_as CNetwork (w_network w (length (rx_network r))).

(** A handler of the egress, on the pool it shares with the datapath; a refusal is counted. *)
Definition on_egress (h : E -> BufferPool -> list EgressEmit -> Handled W E) : RM E unit := fun r =>
  let '(result, e, pool, emits) := h (rx_egress r) (dp_pool (rx_datapath r)) (rx_emits r) in
  let r := set_emits emits (set_egress e (set_datapath (set_pool pool (rx_datapath r)) r)) in
  match result with
  | Ok _ => (Ok tt, r)
  | Err _ => counting CEgress r
  | Panic => (Panic, r)
  end.

Definition rejected_if_err {A} (answer : Res DatapathError A) : RM E unit :=
  match answer with Ok _ => mret tt | _ => counting CPackets end.

(** [while let Some(item) = poll() { body }], with fuel. *)
Fixpoint while_some {A} (fuel : nat) (poll : RM E (option A)) (body : A -> RM E unit) : RM E unit :=
  match fuel with
  | O => rpanic
  | S fuel =>
      item ← poll;
      match item with
      | None => mret tt
      | Some item => body item;; while_some fuel poll body
      end
  end.

(** ** Draining *)

(** [for emit in emits.drain(..)]. *)
Fixpoint feed_emits (emits : list EgressEmit) : RM E unit :=
  match emits with
  | [] => mret tt
  | ToNetwork bs :: emits => to_network bs;; drop_slice bs;; feed_emits emits
  | ToTunnel bs :: emits =>
      now ← read_clock;
      answer ← on_datapath (on_egress_owned bs now);
      rejected_if_err answer;;
      feed_emits emits
  end.

Definition send_transmit (t : Transmit) : RM E unit :=
  match to_ t with
  | Tunnel => to_device (tx_bytes t);; drop_slice (tx_bytes t)
  | Datapath.Egress => on_egress (pe_tun (tx_bytes t));; drop_slice (tx_bytes t)
  end.

Definition drain_transmits : RM E unit :=
  r ← rget;
  while_some (S (length (dp_transmits (rx_datapath r)))) (poll_one poll_transmit) send_transmit.

(** The [loop] of [drain], with fuel. *)
Fixpoint drain_passes (fuel : nat) : RM E unit :=
  match fuel with
  | O => rpanic
  | S fuel =>
      r ← rget;
      rmodify (set_emits []);;
      feed_emits (rx_emits r);;
      drain_transmits;;
      r ← rget;
      match rx_emits r with
      | [] => mret tt
      | _ => drain_passes fuel
      end
  end.

Definition offer_query (query : DnsQuery) : RM E unit :=
  r ← rget;
  let '(sent, box) := Outbox_try_send (w_queries w) query (rx_queries r) in
  rmodify (set_query_box box);;
  if (sent : bool) then mret tt else counting CQueries;; drop_slice (dq_payload query).

Definition drain_queries : RM E unit :=
  r ← rget;
  while_some (S (length (dp_queries (rx_datapath r)))) (poll_one poll_query) offer_query.

Definition offer_datagram (datagram : Outbound) : RM E unit :=
  r ← rget;
  match rx_relay r with
  | Some box =>
      let '(sent, box) := Outbox_try_send (w_relay w) datagram box in
      rmodify (set_relay_box (Some box));;
      if (sent : bool) then mret tt else counting CDatagrams;; drop_slice (ob_payload datagram)
  | None => counting CDatagrams;; drop_slice (ob_payload datagram)
  end.

(** As many datagrams as the flows hold. *)
Definition drain_datagrams : RM E unit :=
  r ← rget;
  while_some (S (length (table_loans (flows (dp_flows (rx_datapath r)))))) (poll_one poll_datagram) offer_datagram.

Definition offer_terminate (packet : Pooled) : RM E unit :=
  r ← rget;
  match rx_terminate r with
  | Some box =>
      let '(sent, box) := Outbox_try_send (w_terminate w) packet box in
      rmodify (set_terminate_box (Some box));;
      if (sent : bool) then mret tt else counting CTermination;; drop_slice packet
  | None => counting CTermination;; drop_slice packet
  end.

Definition drain_terminate : RM E unit :=
  r ← rget;
  while_some (S (length (dp_terminate (rx_datapath r)))) (poll_one poll_terminate) offer_terminate.

(** [termination.replies.try_recv()]. *)
Definition try_recv_reply : RM E (option Pooled) :=
  r ← rget;
  match rx_terminate r, rx_replies r with
  | Some _, segment :: replies => rmodify (set_replies replies);; mret (Some segment)
  | _, _ => mret None
  end.

Definition drain_replies : RM E unit :=
  r ← rget;
  while_some (S (length (rx_replies r))) try_recv_reply (fun segment => to_device segment;; drop_slice segment).

Definition tell_event (event : FlowEvent) : RM E unit :=
  match event with
  | ReassemblyDiscarded => counting CReassembly
  | DatagramDropped _ => counting CDatagrams
  | TransmitDropped => counting CTransmits
  | QuicSteered => counting CQuic
  | PathReported _ => counting CPaths
  | HopsExhausted => counting CPackets
  | StreamOpened _ | DatagramOpened _ | Resteered _ | FlowTornDown _ => emit_telemetry (Telemetry_Event event)
  end.

Definition drain_events : RM E unit :=
  r ← rget;
  while_some (S (length (dp_events (rx_datapath r)))) (poll_one poll_event) tell_event.

(** Two passes: see [drain_settles]. *)
Definition drain : RM E unit :=
  drain_passes 2;;
  drain_queries;;
  drain_datagrams;;
  drain_terminate;;
  drain_replies;;
  drain_events.

(** ** A turn *)

(** What [select!] answers; a receive answers an error or what was read. *)
Inductive Wake :=
| Cancelled
| ControlMessage (message : option Control)
| FromRelay (inbound : Relay.Inbound)
| FromDevice (result : IoError + bytes)
| PolicyChanged (counts : RuleCounts)
| Answered (answer : Resolver.Answer)
| FromNetwork (result : IoError + bytes)
| TerminatorReply (segment : Pooled)
| Slept.

(** A packet read into the slot of the pool, or into the reactor's own buffer. *)
Definition accept_packet (bs : bytes) : RM E unit :=
  r ← rget;
  now ← read_clock;
  answer ←
    match rx_slot r with
    | Some slot =>
        rmodify (set_slot None);;
        let '(_, packet) := Pooled_resize (dp_pool (rx_datapath r)) (bs ++ drop (length bs) slot) (length bs) in
        on_datapath (on_tun_owned packet now)
    | None => on_datapath (on_tun_packet bs now)
    end;
  rejected_if_err answer.

Definition deliver_inbound (inbound : Relay.Inbound) : RM E unit :=
  now ← read_clock;
  answer ← on_datapath (deliver_datagram (ib_client inbound) (ib_peer inbound) (ib_payload inbound) now);
  drop_slice (ib_payload inbound);;
  match answer with
  | Ok Buffered => mret tt
  | Ok Dropped => counting CDatagrams
  | _ => counting CPackets
  end.

Definition deliver_answer (answer : Resolver.Answer) : RM E unit :=
  (match an_steered answer with
   | [] => mret tt
   | steered => now ← read_clock; on_datapath (inspect_addresses steered now);; mret tt
   end);;
  answered ← on_datapath (answer_dns (an_client answer) (an_resolver answer) (an_message answer));
  rejected_if_err answered;;
  (match an_resolution answer with
   | Some resolution => emit_telemetry (Telemetry_Resolved resolution)
   | None => mret tt
   end);;
  drop_slice (an_message answer).

(** The [select!]: whether the loop goes on, and the reply it leaves. *)
Definition on_wake (wake : Wake) : RM E bool :=
  match wake with
  | Cancelled | ControlMessage (Some Control_Shutdown) | ControlMessage None => mret false
  | ControlMessage (Some (Control_PathChange accepts next)) => on_datapath (on_path_change accepts next);; mret true
  | FromRelay inbound => deliver_inbound inbound;; mret true
  | FromDevice (inr bs) => accept_packet bs;; mret true
  | FromDevice (inl error) => if transient error then counting CDevice;; mret true else rfail error
  | PolicyChanged counts => emit_telemetry (PolicyReloaded counts);; mret true
  | Answered answer => deliver_answer answer;; mret true
  | FromNetwork (inr bs) => on_egress (pe_network bs);; mret true
  | FromNetwork (inl error) => if transient error then counting CNetwork;; mret true else rfail error
  | TerminatorReply segment => to_device segment;; drop_slice segment;; mret true
  | Slept => mret true
  end.

(** [egress.next_deadline()]. *)
Definition egress_deadline : RM E (option Instant) := fun r =>
  let '(deadline, reads) := pe_next_deadline (rx_egress r) (w_clock w) (rx_reads r) in (Ok deadline, set_reads reads r).

Definition due_by (deadline : option Instant) (now : Instant) : bool :=
  match deadline with Some deadline => deadline <=? now | None => false end.

(** A slice to read the next packet into, if there is none. *)
Definition refill_slot (mtu : nat) : RM E unit :=
  r ← rget;
  match rx_slot r with
  | Some _ => mret tt
  | None =>
      let '(slot, pool) := BufferPool_take_zeroed (dp_pool (rx_datapath r)) mtu in
      rmodify (fun r => set_slot slot (set_datapath (set_pool pool (rx_datapath r)) r))
  end.

(** The timers after the event, with the time they are judged by. *)
Definition run_timers (core_deadline : option Instant) : RM E Instant :=
  now ← read_clock;
  (if due_by core_deadline now then on_datapath (on_timeout now);; mret tt else mret tt);;
  deadline ← egress_deadline;
  r ← rget;
  (if (rx_next_tick r <=? now) || due_by deadline now
   then on_egress pe_tick;; rmodify (set_next_tick (now + pe_tick_interval (rx_egress r)))
   else mret tt);;
  mret now.

Definition flush_counters : RM E unit :=
  rmodify (fun r =>
    let '(counters, sink) := Counters_flush (w_telemetry w) (dp_pool (rx_datapath r)) (rx_counters r) (rx_telemetry r) in
    set_counters counters (set_telemetry sink r)).

(** When the reactor's timer is set to: the least of its deadlines. *)
Definition wake_at (core_deadline egress_deadline : option Instant) (next_flush next_tick : Instant) : Instant :=
  foldr Z.min (Z.min next_flush next_tick) (option_list core_deadline ++ option_list egress_deadline).

(** The top of the loop: the core's deadline and a slice to read into.  The wait follows. *)
Definition arm (mtu : nat) : RM E (option Instant) :=
  r ← rget;
  egress_deadline;;
  refill_slot mtu;;
  mret (poll_timeout (rx_datapath r)).

(** What follows a wait, up to the next one; it answers the deadline of the next wait, and
    nothing when the loop has ended. *)
Definition turn (mtu : nat) (core_deadline : option Instant) (wake : Wake) : RM E (option (option Instant)) :=
  going ← on_wake wake;
  if negb going then
    drain;; flush_counters;; mret None
  else
  now ← run_timers core_deadline;
  drain;;
  r ← rget;
  (if rx_next_flush r <=? now then flush_counters;; rmodify (set_next_flush (now + TELEMETRY_INTERVAL)) else mret tt);;
  core_deadline ← arm mtu;
  mret (Some core_deadline).

(** The reactor at its start, with a relay and a terminator or without. *)
Definition start (d : Datapath) (e : E) (relays terminates : bool) : Reactor E :=
  mkReactor d e [] None [] [] 2 Outbox_new (if relays then Some Outbox_new else None) (if terminates then Some Outbox_new else None) []
    (mkSink Outbox_new 0) Counters_new (w_clock w 0 + TELEMETRY_INTERVAL) (w_clock w 1 + pe_tick_interval e).
End Shell.

(** MASQUE counts its deadline from a reading of the clock that is later than the one
    [run_timers] judges it by: on a clock that moves between readings its deadline is never
    due, however long ago it passed, and the connection's timers wait for the next tick. *)
Lemma masque_deadline_never_due {Q} `{QuicheBytes Q, !QuicheLaws Q} (self : MasqueEgress Q) (clock : nat -> Instant) n :
  (forall n, clock n < clock (S n)) ->
  due_by (Masque_next_deadline self clock (S n)).1 (clock n) = false.
Proof.
  intros Hclock. unfold Masque_next_deadline. destruct (q_timeout_instant _) as [timeout|]; [|done]. cbn.
  apply Z.leb_gt. pose proof (Hclock n). pose proof (Hclock (S n)). unfold saturating_duration_since, saturating_sub. lia.
Qed.
