(* ===== verification/ShellTheory.v ===== *)
(** The reactor keeps the books: after every turn its queues are empty, every slice of the pool is
    accounted for, and only a host error that is not transient ends it. *)

From S2P Require Import Prelude Wire Net Plan Packet Udp Path Reassembly Pool Fifo Datapath DatapathPool DatapathSafety DnsName DnsMessage DnsPolicy DnsResponse Egress Masque PacketEgress Relay Telemetry Resolver Shell.
Open Scope Z_scope.

(** ** Pools *)

Lemma accounts_steps slice capacity p l p' l' :
  rtc pool_step (p, l) (p', l') -> accounts slice capacity p l -> accounts slice capacity p' l'.
Proof.
  intros Hs. remember (p, l) as s eqn:E. remember (p', l') as s' eqn:E'. revert p l E.
  induction Hs as [|s1 [p1 l1] s3 Hstep _ IH]; intros p0 l0 E Ha.
  { rewrite E in E'. by injection E' as <- <-. }
  apply (IH E' p1 l1 eq_refl). rewrite E in Hstep. by eapply accounts_step.
Qed.

Section Theory.
Context `{DatapathLaws} `{Libc} {W E : Type} `{PacketEgressLaws W E} (w : World).
Context (slice capacity max_flows mtu : nat) (timeout : Duration).
Hypotheses (Hmono : forall n, w_clock w n <= w_clock w (S n)) (Hhorizon : forall n, w_clock w n + timeout <= INSTANT_MAX).
Implicit Types (r : Reactor E) (hs : list Pooled) (c : Instant).

Definition relayed r : list Pooled := match rx_relay r with Some box => ob_payload <$> ox_taken box | None => [] end.
Definition terminated r : list Pooled := match rx_terminate r with Some box => ox_taken box | None => [] end.

(** The slices the reactor and its channels hold, beside those of the datapath. *)
Definition outside r : list Pooled :=
  (emitted <$> rx_emits r) ++ option_list (rx_slot r) ++ (dq_payload <$> ox_taken (rx_queries r)) ++ relayed r ++ terminated r ++ rx_replies r.

(** The books at the time [c], with the slices [hs] in hand. *)
Record inv c hs r : Prop := {
  iv_owns : owns slice capacity (hs ++ outside r) (rx_datapath r);
  iv_safe : safe max_flows timeout c (rx_datapath r);
  iv_time : c <= w_clock w (rx_reads r);
  iv_bytes : Forall bytes_ok (emitted <$> rx_emits r);
  iv_replies : rx_terminate r = None -> rx_replies r = [];
  iv_slot : forall slot, rx_slot r = Some slot -> length slot = mtu;
}.

#[global] Instance inv_perm c : Proper ((≡ₚ) ==> eq ==> iff) (inv c).
Proof.
  assert (forall hs hs' r, hs ≡ₚ hs' -> inv c hs r -> inv c hs' r) as Hone.
  { intros hs hs' r Hp [Ho ? ? ? ? ?]. split; try done. by rewrite <- Hp. }
  intros hs hs' Hp r _ <-. split; apply Hone; [done|by symmetry].
Qed.

(** What waits in the reactor and its datapath. *)
Record Shape := mkShape {
  sh_emits : list EgressEmit; sh_transmits : list Transmit; sh_queries : list DnsQuery; sh_ready : list FlowKey;
  sh_flows : gmap FlowKey (EntryState FlowState); sh_terminate : list Pooled; sh_replies : list Pooled; sh_events : list FlowEvent;
}.

Definition shape r : Shape :=
  let d := rx_datapath r in
  mkShape (rx_emits r) (dp_transmits d) (dp_queries d) (dp_ready d) (flows (dp_flows d)) (dp_terminate d) (rx_replies r) (dp_events d).

(** ** Triples *)

(** An error is one that is not transient, and a panic means the egress cannot count on. *)
Definition triple {A} (P : Reactor E -> Prop) (m : RM E A) (Q : A -> Reactor E -> Prop) : Prop :=
  forall r, P r ->
  match m r with
  | (Ok a, r') => Q a r'
  | (Err e, _) => transient e = false
  | (Panic, r') => pe_full (rx_egress r')
  end.

Lemma triple_ret {A} (a : A) (Q : A -> Reactor E -> Prop) : triple (Q a) (mret a) Q.
Proof. by intros r. Qed.

Lemma triple_bind {A B} P (m : RM E A) (f : A -> RM E B) M Q :
  triple P m M -> (forall a, triple (M a) (f a) Q) -> triple P (m ≫= f) Q.
Proof.
  intros Hm Hf r Hr. specialize (Hm r Hr). unfold mbind, RM_bind. destruct (m r) as [[a|e|] r']; [by apply Hf|done|done].
Qed.

Lemma triple_seq {A B} P (m : RM E A) (m' : RM E B) M Q : triple P m (fun _ => M) -> triple M m' Q -> triple P (m;; m') Q.
Proof. intros Hm Hm'. apply (triple_bind _ _ _ (fun _ => M)); [exact Hm|]. intros a. exact Hm'. Qed.

Lemma triple_weaken {A} (P P' : Reactor E -> Prop) (m : RM E A) (Q Q' : A -> Reactor E -> Prop) :
  (forall r, P' r -> P r) -> (forall a r, Q a r -> Q' a r) -> triple P m Q -> triple P' m Q'.
Proof. intros HP HQ Hm r Hr. specialize (Hm r (HP r Hr)). destruct (m r) as [[a|e|] r']; auto. Qed.

Lemma triple_get {A} P (f : Reactor E -> RM E A) Q : (forall r0, triple (fun r => P r /\ r = r0) (f r0) Q) -> triple P (rget ≫= f) Q.
Proof. intros Hf r Hr. unfold mbind, RM_bind, rget. by apply Hf. Qed.

Lemma triple_reads {A} P (f : Reactor E -> RM E A) Q : (forall r0, triple P (f r0) Q) -> triple P (rget ≫= f) Q.
Proof. intros Hf r Hr. unfold mbind, RM_bind, rget. by apply Hf. Qed.

Lemma triple_modify P f (Q : unit -> Reactor E -> Prop) : (forall r, P r -> Q tt (f r)) -> triple P (rmodify f) Q.
Proof. intros Hf r Hr. by apply Hf. Qed.

(** A state [s] at the time [c] with [hs] in hand. *)
Definition at_ c hs (s : Shape) r : Prop := inv c hs r /\ shape r = s.

Lemma triple_read hs c s : triple (at_ c hs s) (read_clock w) (fun t => at_ t hs s).
Proof.
  intros r [[Ho Hs Ht Hb Hr Hsl] Hsh]. cbn. split; [|exact Hsh]. split; try done.
  eapply safe_later; [exact Hs|]. split; [exact Ht|]. cbn [rx_datapath set_reads]. rewrite (sf_timeout _ _ _ _ Hs). apply Hhorizon.
Qed.

Lemma triple_counting k c hs s : triple (at_ c hs s) (counting k) (fun _ => at_ c hs s).
Proof. by intros r [[] ?]. Qed.

Lemma triple_tell observation c hs s : triple (at_ c hs s) (emit_telemetry w observation) (fun _ => at_ c hs s).
Proof. by intros r [[] ?]. Qed.

Lemma triple_drop bs c hs s : triple (at_ c (bs :: hs) s) (drop_slice bs) (fun _ => at_ c hs s).
Proof.
  intros r [[Ho Hs Ht Hb Hr Hsl] Hsh]. split; [|exact Hsh]. split; try done.
  - exact (moves_drop slice capacity bs (hs ++ outside r) [] _ Ho).
  - apply safe_set_pool; [apply drop_free, (sf_free _ _ _ _ Hs)|done].
Qed.

Lemma triple_sent k result c hs s : triple (at_ c hs s) (sent_as k result) (fun _ => at_ c hs s).
Proof.
  destruct result as [|e|]; [by intros r| |apply triple_counting]. cbn [sent_as].
  destruct (transient e) eqn:Et; [apply triple_counting|]. by intros r _.
Qed.

Lemma triple_to_device bs c hs s : triple (at_ c hs s) (to_device w bs) (fun _ => at_ c hs s).
Proof.
  apply triple_reads. intros r0.
  eapply triple_seq; [|apply triple_sent]. apply triple_modify. by intros r [[] ?].
Qed.

Lemma triple_to_network bs c hs s : triple (at_ c hs s) (to_network w bs) (fun _ => at_ c hs s).
Proof.
  apply triple_reads. intros r0.
  eapply triple_seq; [|apply triple_sent]. apply triple_modify. by intros r [[] ?].
Qed.
(** ** Calls *)

Lemma on_datapath_ok {A} (m : DP A) k (f : A -> list Pooled) c hs r :
  (forall d, call k d = (a ← m; mret (f a)) d) -> inv c (given k ++ hs) r -> call_typed k -> (forall t, call_time k = Some t -> t = c) ->
  exists answer d', m (rx_datapath r) = (answer, d') /\ on_datapath m r = (Ok answer, set_datapath d' r) /\
    inv c (match answer with Ok a => f a | _ => [] end ++ hs) (set_datapath d' r).
Proof.
  intros Hk [Ho Hs Ht Hb Hr Hsl] Htyped Htime. pose proof (call_safe max_flows timeout c k _ Hs Htyped Htime) as Hsafe.
  pose proof (moves_call slice capacity k (hs ++ outside r) (rx_datapath r)) as Hm. rewrite (assoc_L (++)) in Hm. specialize (Hm Ho).
  rewrite Hk in Hsafe, Hm. unfold mbind, DP_bind in Hsafe, Hm. unfold on_datapath.
  destruct (m (rx_datapath r)) as [[a|e|] d']; [| |done]; eexists _, d'; (split; [done|]); (split; [done|]);
    (split; try done; cbn [rx_datapath set_datapath]; by rewrite <- (assoc_L (++))).
Qed.

(** A call whose effect on the queues is not followed. *)
Lemma triple_on_datapath {A} (m : DP A) k (f : A -> list Pooled) c hs s :
  (forall d, call k d = (a ← m; mret (f a)) d) -> call_typed k -> (forall t, call_time k = Some t -> t = c) ->
  triple (at_ c (given k ++ hs) s) (on_datapath m)
    (fun answer r => exists s', at_ c (match answer with Ok a => f a | _ => [] end ++ hs) s' r /\
       sh_emits s' = sh_emits s /\ sh_replies s' = sh_replies s).
Proof.
  intros Hk Ht Hn r [Hr Hsh]. destruct (on_datapath_ok m k f c hs r Hk Hr Ht Hn) as (answer & d' & _ & -> & Hi).
  eexists. split; [split; [exact Hi|reflexivity]|]. by rewrite <- Hsh.
Qed.

(** A poll, by what it does to the datapath. *)
Lemma triple_poll {A} (m : DP (option A)) k (f : option A -> list Pooled) c hs s (P : option A -> Shape -> Prop) :
  (forall d, call k d = (a ← m; mret (f a)) d) -> given k = [] -> call_typed k -> call_time k = None ->
  (forall r, shape r = s -> exists o d', m (rx_datapath r) = (Ok o, d') /\ P o (shape (set_datapath d' r))) ->
  triple (at_ c hs s) (poll_one m) (fun o r => exists s', P o s' /\ at_ c (f o ++ hs) s' r).
Proof.
  intros Hk Hg Ht Hn HP r [Hr Hsh]. destruct (on_datapath_ok m k f c hs r Hk) as (answer & d' & Hm & Hd & Hi);
    [by rewrite Hg|done|by rewrite Hn|].
  destruct (HP r Hsh) as (o & d'' & Hm' & Hp). rewrite Hm in Hm'. injection Hm' as -> ->.
  unfold poll_one, mbind, RM_bind. rewrite Hd. cbn. eexists. split; [exact Hp|]. by split.
Qed.

Definition sh_set_emits emits (s : Shape) : Shape :=
  mkShape emits (sh_transmits s) (sh_queries s) (sh_ready s) (sh_flows s) (sh_terminate s) (sh_replies s) (sh_events s).
Definition sh_set_transmits t (s : Shape) : Shape :=
  mkShape (sh_emits s) t (sh_queries s) (sh_ready s) (sh_flows s) (sh_terminate s) (sh_replies s) (sh_events s).
Definition sh_set_queries q (s : Shape) : Shape :=
  mkShape (sh_emits s) (sh_transmits s) q (sh_ready s) (sh_flows s) (sh_terminate s) (sh_replies s) (sh_events s).
Definition sh_set_flows ready fl (s : Shape) : Shape :=
  mkShape (sh_emits s) (sh_transmits s) (sh_queries s) ready fl (sh_terminate s) (sh_replies s) (sh_events s).
Definition sh_set_terminate t (s : Shape) : Shape :=
  mkShape (sh_emits s) (sh_transmits s) (sh_queries s) (sh_ready s) (sh_flows s) t (sh_replies s) (sh_events s).
Definition sh_set_replies l (s : Shape) : Shape :=
  mkShape (sh_emits s) (sh_transmits s) (sh_queries s) (sh_ready s) (sh_flows s) (sh_terminate s) l (sh_events s).
Definition sh_set_events l (s : Shape) : Shape :=
  mkShape (sh_emits s) (sh_transmits s) (sh_queries s) (sh_ready s) (sh_flows s) (sh_terminate s) (sh_replies s) l.

(** Handlers of the egress. *)
Lemma triple_on_egress allowed (h : E -> BufferPool -> list EgressEmit -> Handled W E) c hs s :
  (forall e pool out, Forall (fun b => b = []) (free pool) -> handles allowed pe_full pool out (h e pool out)) ->
  triple (at_ c hs s) (on_egress h) (fun _ r => exists new, Forall allowed new /\ at_ c hs (sh_set_emits (sh_emits s ++ new) s) r).
Proof.
  intros Hh r [[Ho Hs Ht Hb Hr Hsl] Hsh]. specialize (Hh (rx_egress r) (dp_pool (rx_datapath r)) (rx_emits r) (sf_free _ _ _ _ Hs)).
  unfold on_egress. destruct (h _ _ _) as [[[result e] pool] emits]. destruct Hh as (Hp & Hf & new & -> & Hn & Hbs & Hsteps).
  set (r' := set_emits _ _). assert (exists new, Forall allowed new /\ at_ c hs (sh_set_emits (sh_emits s ++ new) s) r') as Hdone.
  { exists new. split; [done|]. split; [|by rewrite <- Hsh]. split; try done; cbn [rx_datapath rx_emits r' set_emits set_egress set_datapath].
    - unfold owns in *. specialize (Hsteps (held (rx_datapath r) ++ hs ++ outside r)). apply (accounts_steps slice capacity) in Hsteps; [|exact Ho].
      cbn [dp_pool set_pool]. change (held (set_pool pool (rx_datapath r))) with (held (rx_datapath r)).
      eapply accounts_perm; [|exact Hsteps]. unfold outside. cbn [rx_emits r' set_emits]. rewrite fmap_app, reverse_Permutation.
      change (relayed r') with (relayed r). change (terminated r') with (terminated r). cbn [r' set_emits set_egress set_datapath rx_slot rx_queries rx_replies].
      solve_Permutation.
    - by apply safe_set_pool.
    - rewrite fmap_app. by apply Forall_app. }
  destruct result as [[]|x|]; [exact Hdone| |by apply Hp]. destruct Hdone as (new' & Hn' & Hat). exact (ex_intro _ new' (conj Hn' (triple_counting CEgress _ _ _ r' Hat))).
Qed.
(** ** The loops *)

Lemma triple_exists {A X} (P : X -> Reactor E -> Prop) (m : RM E A) Q :
  (forall x, triple (P x) m Q) -> triple (fun r => exists x, P x r) m Q.
Proof. intros Hm r [x Hr]. by apply (Hm x). Qed.

Lemma triple_pure {A} (P : Prop) R (m : RM E A) Q : (P -> triple R m Q) -> triple (fun r => P /\ R r) m Q.
Proof. intros Hm r [HP Hr]. by apply Hm. Qed.

Lemma triple_rejected {A} (answer : Res DatapathError A) c hs s :
  triple (at_ c hs s) (rejected_if_err answer) (fun _ => at_ c hs s).
Proof. destruct answer; [by intros r|apply triple_counting..]. Qed.

(** Emissions on their way; [hs] holds them. *)
Lemma triple_feed emits : forall c hs s,
  Forall bytes_ok (emitted <$> emits) ->
  triple (at_ c ((emitted <$> emits) ++ hs) s) (feed_emits w emits)
    (fun _ r => exists c' s', at_ c' hs s' r /\ sh_emits s' = sh_emits s /\ sh_replies s' = sh_replies s /\
       (Forall is_to_network emits -> s' = s)).
Proof.
  induction emits as [|emit emits IH]; intros c hs s Hb; cbn [feed_emits fmap list_fmap app].
  { intros r Hr. exists c, s. by split_and!. }
  cbn [fmap list_fmap] in Hb. apply Forall_cons in Hb as [Hb Hbs]. destruct emit as [bs|bs]; cbn [emitted] in *.
  - eapply triple_seq; [apply triple_to_network|]. eapply triple_seq; [apply triple_drop|].
    eapply triple_weaken; [done| |by apply IH]. intros a r (c' & s' & Hat & He & Hr & Hsame). exists c', s'. split_and!; try done.
    intros Hall. apply Hsame. by apply Forall_cons in Hall as [_ ?].
  - eapply triple_bind; [apply triple_read|]. intros now.
    eapply triple_bind; [apply (triple_on_datapath (on_egress_owned bs now) (OnEgressOwned bs now) (fun _ => []) now)|];
      [done|done|by intros t [= ->]|]. intros answer. apply triple_exists. intros s1.
    eapply triple_seq with (M := fun r => (sh_emits s1 = sh_emits s /\ sh_replies s1 = sh_replies s) /\ at_ now ((emitted <$> emits) ++ hs) s1 r).
    + intros r (Hat & He & Hr). replace (match answer with Ok _ => [] | _ => [] end) with (@nil Pooled) in Hat by (by destruct answer).
      pose proof (triple_rejected answer _ _ _ r Hat) as Hj. destruct (rejected_if_err answer r) as [[]?]; done.
    + apply triple_pure. intros [He Hr]. eapply triple_weaken; [done| |by apply IH].
      intros a r (c' & s' & Hat & He' & Hr' & _). exists c', s'. split_and!; [done|congruence|congruence|].
      intros Hall. by apply Forall_cons in Hall as [? _].
Qed.

Lemma triple_poll_transmit c hs s :
  triple (at_ c hs s) (poll_one poll_transmit)
    (fun o r => match sh_transmits s with
                | [] => o = None /\ at_ c hs s r
                | t :: rest => o = Some t /\ at_ c (tx_bytes t :: hs) (sh_set_transmits rest s) r
                end).
Proof.
  eapply triple_weaken; [done| |apply (triple_poll poll_transmit PollTransmit (fun o => option_list (tx_bytes <$> o)) c hs s
    (fun o s' => match sh_transmits s with [] => o = None /\ s' = s | t :: rest => o = Some t /\ s' = sh_set_transmits rest s end))];
    [|done..|].
  - intros o r (s' & HP & Hat). destruct (sh_transmits s); by destruct HP as [-> ->].
  - intros r <-. cbn [sh_transmits shape]. unfold poll_transmit. destruct (dp_transmits (rx_datapath r)) as [|t rest] eqn:Et; eexists _, _; split; try done.
Qed.

Lemma triple_transmits txs : forall c hs s,
  sh_transmits s = txs ->
  triple (at_ c hs s) (while_some (S (length txs)) (poll_one poll_transmit) (send_transmit w))
    (fun _ r => exists new, (Forall is_to_network new /\ (txs = [] -> new = [])) /\
       at_ c hs (sh_set_emits (sh_emits s ++ new) (sh_set_transmits [] s)) r).
Proof.
  induction txs as [|t txs IH]; intros c hs s Hs; cbn [length]; cbn [while_some];
    (eapply triple_bind; [apply triple_poll_transmit|]; intros o; rewrite Hs).
  - apply triple_pure. intros ->. intros r Hr. exists []. split; [done|]. destruct s. cbn in *. subst. by rewrite app_nil_r.
  - apply triple_pure. intros ->.
    apply triple_seq with (M := fun r => exists new, Forall is_to_network new /\ at_ c hs (sh_set_emits (sh_emits s ++ new) (sh_set_transmits txs s)) r).
    + unfold send_transmit. destruct (to_ t).
      * eapply triple_seq; [apply triple_to_device|]. eapply triple_weaken; [done| |apply triple_drop]. intros a r Hat.
        exists []. split; [done|]. rewrite app_nil_r. by destruct s.
      * eapply triple_bind; [apply (triple_on_egress is_to_network (pe_tun (tx_bytes t))); intros e pool out; apply pe_tun_ok|].
        intros a. apply triple_exists. intros new. apply triple_pure. intros Hn. eapply triple_weaken; [done| |apply triple_drop].
        intros b r Hat. exists new. by split.
    + apply triple_exists. intros new. apply triple_pure. intros Hn. eapply triple_weaken; [done| |by apply IH].
      intros a r (more & [Hm _] & Hat). exists (new ++ more). split; [split; [by apply Forall_app|done]|]. by rewrite (assoc_L (++)).
Qed.
Lemma triple_shaped {A} c hs s (f : Reactor E -> RM E A) Q :
  (forall r0, shape r0 = s -> triple (at_ c hs s) (f r0) Q) -> triple (at_ c hs s) (rget ≫= f) Q.
Proof. intros Hf r Hr. unfold mbind, RM_bind, rget. apply Hf; [apply Hr|exact Hr]. Qed.

Lemma triple_drain_transmits c hs s :
  triple (at_ c hs s) (drain_transmits w)
    (fun _ r => exists new, (Forall is_to_network new /\ (sh_transmits s = [] -> new = [])) /\
       at_ c hs (sh_set_emits (sh_emits s ++ new) (sh_set_transmits [] s)) r).
Proof. apply triple_shaped. intros r0 Hs. rewrite <- Hs. by apply triple_transmits. Qed.

(** The emissions are taken over into the hands. *)
Lemma take_emits r c hs s : at_ c hs s r -> at_ c ((emitted <$> rx_emits r) ++ hs) (sh_set_emits [] s) (set_emits [] r).
Proof.
  intros [[Ho Hs Ht Hb Hr Hsl] <-]. split; [|done]. split; try done. cbn [rx_datapath set_emits].
  eapply (owns_perm slice capacity); [|reflexivity|exact Ho]. unfold outside. change (relayed (set_emits [] r)) with (relayed r).
  change (terminated (set_emits [] r)) with (terminated r). cbn [rx_emits set_emits fmap list_fmap rx_slot rx_queries rx_replies]. solve_Permutation.
Qed.

(** One pass: it leaves no transmit and only emissions to the network; none of them when it
    had nothing else to begin with. *)
Lemma triple_pass {A} c hs s (k : RM E A) Q :
  (forall c' s', Forall is_to_network (sh_emits s') -> sh_transmits s' = [] -> sh_replies s' = sh_replies s ->
     (Forall is_to_network (sh_emits s) -> sh_transmits s = [] -> sh_emits s' = []) -> triple (at_ c' hs s') k Q) ->
  triple (at_ c hs s) (r ← rget; rmodify (set_emits []);; feed_emits w (rx_emits r);; drain_transmits w;; k) Q.
Proof.
  intros Hk. apply triple_shaped. intros r0 Hs0. assert (rx_emits r0 = sh_emits s) as He by (by rewrite <- Hs0). rewrite He.
  apply triple_seq with (M := fun r => Forall bytes_ok (emitted <$> sh_emits s) /\ at_ c ((emitted <$> sh_emits s) ++ hs) (sh_set_emits [] s) r).
  { apply triple_modify. intros r Hr. assert (rx_emits r = sh_emits s) as Her by (destruct Hr as [_ <-]; done).
    split; [rewrite <- Her; by destruct Hr as [[] _]|]. rewrite <- Her. by apply take_emits. }
  apply triple_pure. intros Hb. eapply triple_bind; [by apply triple_feed|]. intros a. apply triple_exists. intros c1. apply triple_exists. intros s1.
  apply triple_seq with (M := fun r => exists s', (Forall is_to_network (sh_emits s') /\ sh_transmits s' = [] /\ sh_replies s' = sh_replies s /\
     (Forall is_to_network (sh_emits s) -> sh_transmits s = [] -> sh_emits s' = [])) /\ at_ c1 hs s' r).
  - intros r (Hat & He1 & Hr1 & Hsame). pose proof (triple_drain_transmits _ _ _ r Hat) as Hd.
    destruct (drain_transmits w r) as [[]?]; [|done|done]. destruct Hd as (new & [Hn Hnil] & Hat'). rewrite He1 in Hat'. cbn [sh_emits sh_set_emits app] in Hat'.
    eexists. split; [|exact Hat']. cbn. split_and!; [done|done|done|]. intros Hall Htx. apply Hnil. by rewrite (Hsame Hall).
  - apply triple_exists. intros s'. apply triple_pure. intros (Hn & Htx & Hr & Hz). by apply (Hk c1 s').
Qed.

(** Two passes are enough. *)
Lemma triple_passes c hs s :
  triple (at_ c hs s) (drain_passes w 2)
    (fun _ r => exists c' s', at_ c' hs s' r /\ sh_emits s' = [] /\ sh_transmits s' = [] /\ sh_replies s' = sh_replies s).
Proof.
  cbn [drain_passes]. apply triple_pass. intros c1 s1 Hn1 Ht1 Hr1 _. apply triple_shaped. intros r1 Hs1.
  assert (rx_emits r1 = sh_emits s1) as -> by (by rewrite <- Hs1). destruct (sh_emits s1) as [|emit emits] eqn:He1.
  { intros r Hat. by exists c1, s1. }
  apply triple_pass. intros c2 s2 Hn2 Ht2 Hr2 Hz. rewrite He1 in Hz. specialize (Hz Hn1 Ht1). apply triple_shaped. intros r2 Hs2.
  assert (rx_emits r2 = sh_emits s2) as -> by (by rewrite <- Hs2). rewrite Hz. intros r Hat. exists c2, s2. split_and!; try done. congruence.
Qed.
(** ** Channels *)

(** What moves from the hands into a channel is still outside the datapath. *)
Lemma at_outside c hs hs' s r r' :
  at_ c hs s r -> rx_datapath r' = rx_datapath r -> rx_reads r' = rx_reads r -> rx_emits r' = rx_emits r -> rx_replies r' = rx_replies r ->
  rx_slot r' = rx_slot r -> (rx_terminate r' = None -> rx_terminate r = None) ->
  hs' ++ outside r' ≡ₚ hs ++ outside r -> at_ c hs' s r'.
Proof.
  intros [[Ho Hs Ht Hb Hr Hsl] Hsh] Hd Hrd He Hrp Hslot Htm Hp. split.
  - split; rewrite ?Hd, ?Hrd, ?He, ?Hslot; try done; [by rewrite Hp|]. intros Hn. rewrite Hrp. auto.
  - unfold shape in *. by rewrite Hd, He, Hrp.
Qed.

(** A refusal is counted, and the item dropped. *)
Lemma triple_refuse k bs c hs s : triple (at_ c (bs :: hs) s) (counting k;; drop_slice bs) (fun _ => at_ c hs s).
Proof. eapply triple_seq; [apply triple_counting|apply triple_drop]. Qed.

Lemma triple_offer_query q c hs s : triple (at_ c (dq_payload q :: hs) s) (offer_query w q) (fun _ => at_ c hs s).
Proof.
  intros r0 Hr0. unfold offer_query, mbind at 1, RM_bind at 1, rget. pose proof (Outbox_try_send_taken (w_queries w) q (rx_queries r0)) as Ht.
  destruct (Outbox_try_send _ q (rx_queries r0)) as [sent box] eqn:Eb. unfold mbind at 1, RM_bind at 1, rmodify.
  assert (at_ c (if sent then hs else dq_payload q :: hs) s (set_query_box box r0)) as Hr.
  { eapply at_outside; [exact Hr0|done..|]. unfold outside. change (relayed (set_query_box box r0)) with (relayed r0).
    change (terminated (set_query_box box r0)) with (terminated r0). cbn [rx_queries set_query_box rx_emits rx_slot rx_replies]. rewrite Ht, fmap_app.
    destruct sent; cbn [fmap list_fmap]; solve_Permutation. }
  destruct sent; [exact Hr|]. exact (triple_refuse CQueries _ _ _ _ _ Hr).
Qed.

Lemma triple_offer_datagram o c hs s : triple (at_ c (ob_payload o :: hs) s) (offer_datagram w o) (fun _ => at_ c hs s).
Proof.
  intros r0 Hr0. unfold offer_datagram, mbind at 1, RM_bind at 1, rget. destruct (rx_relay r0) as [box0|] eqn:Er; [|exact (triple_refuse CDatagrams _ _ _ _ _ Hr0)].
  pose proof (Outbox_try_send_taken (w_relay w) o box0) as Ht. destruct (Outbox_try_send _ o box0) as [sent box]. unfold mbind at 1, RM_bind at 1, rmodify.
  assert (at_ c (if sent then hs else ob_payload o :: hs) s (set_relay_box (Some box) r0)) as Hr.
  { eapply at_outside; [exact Hr0|done..|]. unfold outside, relayed. rewrite Er. change (terminated (set_relay_box (Some box) r0)) with (terminated r0).
    cbn [rx_relay set_relay_box rx_queries rx_emits rx_slot rx_replies]. rewrite Ht, fmap_app. destruct sent; cbn [fmap list_fmap]; solve_Permutation. }
  destruct sent; [exact Hr|]. exact (triple_refuse CDatagrams _ _ _ _ _ Hr).
Qed.

Lemma triple_offer_terminate bs c hs s : triple (at_ c (bs :: hs) s) (offer_terminate w bs) (fun _ => at_ c hs s).
Proof.
  intros r0 Hr0. unfold offer_terminate, mbind at 1, RM_bind at 1, rget. destruct (rx_terminate r0) as [box0|] eqn:Er; [|exact (triple_refuse CTermination _ _ _ _ _ Hr0)].
  pose proof (Outbox_try_send_taken (w_terminate w) bs box0) as Ht. destruct (Outbox_try_send _ bs box0) as [sent box]. unfold mbind at 1, RM_bind at 1, rmodify.
  assert (at_ c (if sent then hs else bs :: hs) s (set_terminate_box (Some box) r0)) as Hr.
  { eapply at_outside; [exact Hr0|done..|]. unfold outside, terminated. rewrite Er. change (relayed (set_terminate_box (Some box) r0)) with (relayed r0).
    cbn [rx_terminate set_terminate_box rx_queries rx_emits rx_slot rx_replies]. rewrite Ht. destruct sent; cbn [app]; solve_Permutation. }
  destruct sent; [exact Hr|]. exact (triple_refuse CTermination _ _ _ _ _ Hr).
Qed.

(** A queue polled to its end, item by item. *)
Lemma triple_queue {A} (poll : RM E (option A)) (body : A -> RM E unit) (loan : A -> list Pooled) (queue : Shape -> list A) (set : list A -> Shape -> Shape) c hs :
  (forall s x l, set l (set x s) = set l s) -> (forall s l, queue (set l s) = l) -> (forall s, set (queue s) s = s) ->
  (forall s, triple (at_ c hs s) poll (fun o r => match queue s with
     [] => o = None /\ at_ c hs s r | x :: rest => o = Some x /\ at_ c (loan x ++ hs) (set rest s) r end)) ->
  (forall x s, triple (at_ c (loan x ++ hs) s) (body x) (fun _ => at_ c hs s)) ->
  forall s, triple (at_ c hs s) (while_some (S (length (queue s))) poll body) (fun _ => at_ c hs (set [] s)).
Proof.
  intros Hset Hget Hself Hpoll Hbody s. remember (queue s) as q eqn:Eq. revert s Eq.
  induction q as [|x q IH]; intros s Eq; cbn [length]; cbn [while_some]; (eapply triple_bind; [apply Hpoll|]; intros o; rewrite <- Eq).
  - apply triple_pure. intros ->. intros r Hr. rewrite <- (Hself s), <- Eq in Hr. exact Hr.
  - apply triple_pure. intros ->. eapply triple_seq; [apply Hbody|]. specialize (IH (set q s)). rewrite Hget in IH.
    specialize (IH eq_refl). by rewrite Hset in IH.
Qed.
Lemma triple_poll_query c hs s :
  triple (at_ c hs s) (poll_one poll_query)
    (fun o r => match sh_queries s with
                | [] => o = None /\ at_ c hs s r
                | q :: rest => o = Some q /\ at_ c ([dq_payload q] ++ hs) (sh_set_queries rest s) r
                end).
Proof.
  eapply triple_weaken; [done| |apply (triple_poll poll_query PollQuery (fun o => option_list (dq_payload <$> o)) c hs s
    (fun o s' => match sh_queries s with [] => o = None /\ s' = s | q :: rest => o = Some q /\ s' = sh_set_queries rest s end))]; [|done..|].
  - intros o r (s' & HP & Hat). destruct (sh_queries s); by destruct HP as [-> ->].
  - intros r <-. cbn [sh_queries shape]. unfold poll_query. destruct (dp_queries (rx_datapath r)) as [|q rest] eqn:Eq; eexists _, _; by split.
Qed.

Lemma triple_poll_terminate c hs s :
  triple (at_ c hs s) (poll_one poll_terminate)
    (fun o r => match sh_terminate s with
                | [] => o = None /\ at_ c hs s r
                | p :: rest => o = Some p /\ at_ c ([p] ++ hs) (sh_set_terminate rest s) r
                end).
Proof.
  eapply triple_weaken; [done| |apply (triple_poll poll_terminate PollTerminate option_list c hs s
    (fun o s' => match sh_terminate s with [] => o = None /\ s' = s | q :: rest => o = Some q /\ s' = sh_set_terminate rest s end))]; [|done..|].
  - intros o r (s' & HP & Hat). destruct (sh_terminate s); by destruct HP as [-> ->].
  - intros r <-. cbn [sh_terminate shape]. unfold poll_terminate. destruct (dp_terminate (rx_datapath r)) as [|q rest] eqn:Eq; eexists _, _; by split.
Qed.

Lemma triple_poll_event c hs s :
  triple (at_ c hs s) (poll_one poll_event)
    (fun o r => match sh_events s with
                | [] => o = None /\ at_ c hs s r
                | e :: rest => o = Some e /\ at_ c ([] ++ hs) (sh_set_events rest s) r
                end).
Proof.
  eapply triple_weaken; [done| |apply (triple_poll poll_event PollEvent (fun _ => []) c hs s
    (fun o s' => match sh_events s with [] => o = None /\ s' = s | q :: rest => o = Some q /\ s' = sh_set_events rest s end))]; [|done..|].
  - intros o r (s' & HP & Hat). destruct (sh_events s); by destruct HP as [-> ->].
  - intros r <-. cbn [sh_events shape]. unfold poll_event. destruct (dp_events (rx_datapath r)) as [|q rest] eqn:Eq; eexists _, _; by split.
Qed.

Lemma triple_recv_reply c hs s :
  triple (at_ c hs s) try_recv_reply
    (fun o r => match sh_replies s with
                | [] => o = None /\ at_ c hs s r
                | p :: rest => o = Some p /\ at_ c ([p] ++ hs) (sh_set_replies rest s) r
                end).
Proof.
  intros r Hr. unfold try_recv_reply, mbind at 1, RM_bind at 1, rget. pose proof Hr as [[Ho Hs Ht Hb Hnone Hsl] Hsh]. rewrite <- Hsh. cbn [sh_replies shape].
  assert (at_ c hs (shape r) r) as Hself by (by rewrite Hsh). destruct (rx_terminate r) as [box|] eqn:Et; [|by rewrite (Hnone eq_refl)].
  destruct (rx_replies r) as [|p rest] eqn:Er; [by split|]. cbn. split; [done|]. split; [|reflexivity]. split; try done; [|intros ?; cbn in *; congruence]. cbn [rx_datapath set_replies].
  eapply (owns_perm slice capacity); [|reflexivity|exact Ho]. unfold outside. change (relayed (set_replies rest r)) with (relayed r).
  change (terminated (set_replies rest r)) with (terminated r). cbn [rx_replies set_replies rx_emits rx_slot rx_queries]. rewrite Er. solve_Permutation.
Qed.

Lemma triple_tell_event e c hs s : triple (at_ c hs s) (tell_event w e) (fun _ => at_ c hs s).
Proof. destruct e; (apply triple_counting || apply triple_tell). Qed.

(** A datagram polled is one of those the flows hold. *)
Lemma poll_ready_spec ready d :
  let '(o, d') := poll_ready ready d in
  dp_transmits d' = dp_transmits d /\ dp_queries d' = dp_queries d /\ dp_terminate d' = dp_terminate d /\ dp_events d' = dp_events d /\
  match o with
  | Some o => table_loans (flows (dp_flows d)) ≡ₚ ob_payload o :: table_loans (flows (dp_flows d'))
  | None => dp_ready d' = [] /\ dp_flows d' = dp_flows d
  end.
Proof.
  induction ready as [|client ready IH]; cbn [poll_ready]; [done|].
  destruct (UdpFlowTable_get (dp_flows d) client) as [flow|] eqn:Eg; [|exact IH].
  unfold DatagramBuffer_recv. destruct (db_datagrams (fs_buffer flow)) as [|[target payload] rest] eqn:Eb; [exact IH|].
  match goal with |- context [mkFlow _ ?b] => set (buffer := b) end.
  pose proof (update_loans _ _ _ (fun flow => mkFlow (fs_plan flow) buffer) Eg) as Hu. split_and!; try done. cbn [dp_flows set_ready set_flows ob_payload].
  unfold flow_loans at 1 2 in Hu. cbn [fs_buffer] in Hu. rewrite Eb in Hu. cbn [buffer db_datagrams fmap list_fmap snd app] in Hu.
  rewrite Permutation_middle in Hu. by apply Permutation_app_inv_l in Hu.
Qed.

Lemma triple_datagrams n : forall c hs s,
  length (table_loans (sh_flows s)) = n ->
  triple (at_ c hs s) (while_some (S n) (poll_one poll_datagram) (offer_datagram w)) (fun _ r => exists fl, at_ c hs (sh_set_flows [] fl s) r).
Proof.
  assert (forall c hs s, triple (at_ c hs s) (poll_one poll_datagram) (fun o r => exists ready fl, match o with
      | Some o => table_loans (sh_flows s) ≡ₚ ob_payload o :: table_loans fl
      | None => ready = [] /\ fl = sh_flows s end /\ at_ c (option_list (ob_payload <$> o) ++ hs) (sh_set_flows ready fl s) r)) as Hpoll.
  { intros c hs s. eapply triple_weaken; [done| |apply (triple_poll poll_datagram PollDatagram (fun o => option_list (ob_payload <$> o)) c hs s
      (fun o s' => exists ready fl, match o with
      | Some o => table_loans (sh_flows s) ≡ₚ ob_payload o :: table_loans fl
      | None => ready = [] /\ fl = sh_flows s end /\ s' = sh_set_flows ready fl s))]; [|done..|].
    - intros o r (s' & (ready & fl & Ho & ->) & Hat). by exists ready, fl.
    - intros r <-. unfold poll_datagram. pose proof (poll_ready_spec (dp_ready (rx_datapath r)) (rx_datapath r)) as Hp.
      destruct (poll_ready _ _) as [o d']. destruct Hp as (H1' & H2' & H3 & H5 & Ho). eexists _, _. split; [done|].
      exists (dp_ready d'), (flows (dp_flows d')). split; [destruct o; [done|]; destruct Ho as [-> ->]; done|].
      unfold shape, sh_set_flows. cbn. by rewrite H1', H2', H3, H5. }
  induction n as [|n IH]; intros c hs s Hn; cbn [while_some]; (eapply triple_bind; [apply Hpoll|]; intros o; apply triple_exists; intros ready;
    apply triple_exists; intros fl; apply triple_pure; intros Ho; destruct o as [o|];
    [apply Permutation_length in Ho; cbn [length] in Ho|destruct Ho as [-> ->]; intros r Hr; by exists (sh_flows s)]); [lia|].
  eapply triple_seq; [apply triple_offer_datagram|]. eapply triple_weaken; [done| |apply IH; cbn; lia].
  intros a r [fl' Hat]. by exists fl'.
Qed.
Lemma triple_drain_queries c hs s : triple (at_ c hs s) (drain_queries w) (fun _ => at_ c hs (sh_set_queries [] s)).
Proof.
  apply triple_shaped. intros r0 <-. apply (triple_queue _ _ (fun q => [dq_payload q]) sh_queries sh_set_queries); [by intros []..|apply triple_poll_query|]. intros q s0. apply (triple_offer_query q).
Qed.

Lemma triple_drain_terminate c hs s : triple (at_ c hs s) (drain_terminate w) (fun _ => at_ c hs (sh_set_terminate [] s)).
Proof.
  apply triple_shaped. intros r0 <-. apply (triple_queue _ _ (fun p => [p]) sh_terminate sh_set_terminate); [by intros []..|apply triple_poll_terminate|]. intros q s0. apply (triple_offer_terminate q).
Qed.

Lemma triple_drain_replies c hs s : triple (at_ c hs s) (drain_replies w) (fun _ => at_ c hs (sh_set_replies [] s)).
Proof.
  apply triple_shaped. intros r0 <-. apply (triple_queue _ _ (fun p => [p]) sh_replies sh_set_replies); [by intros []..|apply triple_recv_reply|]. intros q s0. eapply triple_seq; [apply triple_to_device|apply triple_drop].
Qed.

Lemma triple_drain_events c hs s : triple (at_ c hs s) (drain_events w) (fun _ => at_ c hs (sh_set_events [] s)).
Proof.
  apply triple_shaped. intros r0 <-. apply (triple_queue _ _ (fun _ => []) sh_events sh_set_events); [by intros []..|apply triple_poll_event|]. intros q s0. apply triple_tell_event.
Qed.

Lemma triple_drain_datagrams c hs s : triple (at_ c hs s) (drain_datagrams w) (fun _ r => exists fl, at_ c hs (sh_set_flows [] fl s) r).
Proof. apply triple_shaped. intros r0 <-. by apply triple_datagrams. Qed.

(** Flows with nobody ready hold nothing. *)
Lemma idle_flows d c : safe max_flows timeout c d -> dp_ready d = [] -> table_loans (flows (dp_flows d)) = [].
Proof.
  intros Hs Hr. destruct (sf_flows _ _ _ _ Hs) as (_ & _ & Hf). rewrite Hr in Hf. unfold table_loans, entries_loans.
  apply concat_nil_Forall, Forall_fmap, Forall_forall. intros [key st] Hin. apply elem_of_map_to_list in Hin.
  destruct (Hf key st Hin) as (_ & _ & _ & Hq). cbn. unfold flow_loans. destruct (db_datagrams _); [done|]. exfalso.
  by apply (not_elem_of_nil key), Hq.
Qed.

(** Nothing waits in the reactor or its datapath. *)
Definition quiet r : Prop :=
  rx_emits r = [] /\ held (rx_datapath r) = [] /\ dp_ready (rx_datapath r) = [] /\ dp_events (rx_datapath r) = [] /\ rx_replies r = [].

Lemma triple_drain c hs s : triple (at_ c hs s) (drain w) (fun _ r => exists c', inv c' hs r /\ quiet r).
Proof.
  eapply triple_bind; [apply triple_passes|]. intros a0. apply triple_exists. intros c1. apply triple_exists. intros s1.
  apply triple_weaken with (P := fun r => (sh_emits s1 = [] /\ sh_transmits s1 = []) /\ at_ c1 hs s1 r) (Q := fun _ r => exists c', inv c' hs r /\ quiet r);
    [by intros r (? & ? & ? & _)|done|]. apply triple_pure. intros [He Ht].
  eapply triple_seq; [apply triple_drain_queries|]. eapply triple_bind; [apply triple_drain_datagrams|]. intros a1. apply triple_exists. intros fl.
  eapply triple_seq; [apply triple_drain_terminate|]. eapply triple_seq; [apply triple_drain_replies|].
  eapply triple_weaken; [done| |apply triple_drain_events].
  intros a r [Hi Hsh]. exists c1. split; [exact Hi|].
  apply (f_equal (fun s => (sh_emits s, sh_transmits s, sh_queries s, sh_ready s, sh_terminate s, sh_replies s, sh_events s))) in Hsh.
  cbn in Hsh. injection Hsh as H1' H2' H3 H5 H6 H7 H8. unfold quiet. split_and!; try done; [congruence|].
  unfold held. rewrite H2', H3, H6, Ht, (idle_flows _ c1 (iv_safe _ _ _ Hi) H5). done.
Qed.
(** ** Turns *)

(** The books balance at some time. *)
Definition balanced hs r : Prop := exists c, inv c hs r.

Lemma triple_balanced {A} hs (m : RM E A) Q : (forall c s, triple (at_ c hs s) m Q) -> triple (balanced hs) m Q.
Proof. intros Hm r [c Hr]. by apply (Hm c (shape r)). Qed.

(** A step that keeps time and hands. *)
Lemma balanced_step {A} hs (m : RM E A) : (forall c s, triple (at_ c hs s) m (fun _ => at_ c hs s)) -> triple (balanced hs) m (fun _ => balanced hs).
Proof.
  intros Hm. apply triple_balanced. intros c s. eapply triple_weaken; [done| |apply Hm]. intros a r [Hi _]. by exists c.
Qed.

Lemma balanced_counting k hs : triple (balanced hs) (counting k) (fun _ => balanced hs).
Proof. apply balanced_step. intros c s. apply triple_counting. Qed.

Lemma balanced_tell t hs : triple (balanced hs) (emit_telemetry w t) (fun _ => balanced hs).
Proof. apply balanced_step. intros c s. apply triple_tell. Qed.

Lemma balanced_drop bs hs : triple (balanced (bs :: hs)) (drop_slice bs) (fun _ => balanced hs).
Proof. apply triple_balanced. intros c s. eapply triple_weaken; [done| |apply triple_drop]. intros a r [Hi _]. by exists c. Qed.

(** A call at the time just read. *)
Lemma balanced_timed {A B} (m : Instant -> DP A) (k : Instant -> Call) (f : A -> list Pooled) hs (body : Res DatapathError A -> RM E B) Q :
  (forall t d, call (k t) d = (a ← m t; mret (f a)) d) -> (forall t, given (k t) = given (k 0)) -> (forall t, call_typed (k t)) ->
  (forall t t', call_time (k t) = Some t' -> t' = t) ->
  (forall answer, triple (balanced (match answer with Ok a => f a | _ => [] end ++ hs)) (body answer) Q) ->
  triple (balanced (given (k 0) ++ hs)) (now ← read_clock w; answer ← on_datapath (m now); body answer) Q.
Proof.
  intros Hk Hg Ht Hn Hbody. apply triple_balanced. intros c s. eapply triple_bind; [apply triple_read|]. intros now. rewrite <- (Hg now).
  eapply triple_bind; [apply (triple_on_datapath (m now) (k now) f now hs s); [apply Hk|apply Ht|apply Hn]|]. intros answer.
  eapply triple_weaken; [|done|apply Hbody]. intros r (s' & [Hi _] & _). by exists now.
Qed.

Lemma balanced_untimed {A B} (m : DP A) (k : Call) (f : A -> list Pooled) hs (body : Res DatapathError A -> RM E B) Q :
  (forall d, call k d = (a ← m; mret (f a)) d) -> call_typed k -> call_time k = None ->
  (forall answer, triple (balanced (match answer with Ok a => f a | _ => [] end ++ hs)) (body answer) Q) ->
  triple (balanced (given k ++ hs)) (answer ← on_datapath m; body answer) Q.
Proof.
  intros Hk Ht Hn Hbody. apply triple_balanced. intros c s.
  eapply triple_bind; [apply (triple_on_datapath m k f c hs s); [apply Hk|apply Ht|by rewrite Hn]|]. intros answer.
  eapply triple_weaken; [|done|apply Hbody]. intros r (s' & [Hi _] & _). by exists c.
Qed.

Lemma balanced_rejected {A} (answer : Res DatapathError A) hs : triple (balanced hs) (rejected_if_err answer) (fun _ => balanced hs).
Proof. apply balanced_step. intros c s. apply triple_rejected. Qed.

Lemma balanced_egress allowed (h : E -> BufferPool -> list EgressEmit -> Handled W E) hs :
  (forall e pool out, Forall (fun b => b = []) (free pool) -> handles allowed pe_full pool out (h e pool out)) ->
  triple (balanced hs) (on_egress h) (fun _ => balanced hs).
Proof.
  intros Hh. apply triple_balanced. intros c s. eapply triple_weaken; [done| |by apply triple_on_egress].
  intros a r (new & _ & [Hi _]). by exists c.
Qed.

(** The slices that come with an event, and what its types say of it. *)
Definition wake_loans (wake : Wake) : list Pooled :=
  match wake with
  | FromRelay inbound => [ib_payload inbound]
  | Answered answer => [an_message answer]
  | TerminatorReply segment => [segment]
  | _ => []
  end.

Definition wake_typed (wake : Wake) : Prop :=
  match wake with
  | FromRelay inbound => ip_ok (address (ib_client inbound)) /\ ip_ok (address (ib_peer inbound))
  | Answered answer => ip_ok (address (an_client answer)) /\ ip_ok (address (an_resolver answer))
  | FromDevice (inr bs) => bytes_ok bs /\ (length bs <= mtu)%nat
  | _ => True
  end.

(** The packet that was read into the slot. *)
Lemma balanced_accept bs hs : bytes_ok bs -> (length bs <= mtu)%nat -> triple (balanced hs) (accept_packet w bs) (fun _ => balanced hs).
Proof.
  intros Hb Hm. intros r [c Hr]. unfold accept_packet, mbind at 1, RM_bind at 1, rget.
  destruct (rx_slot r) as [slot|] eqn:Es.
  - pose proof (iv_slot _ _ _ Hr slot Es) as Hl. destruct Hr as [Ho Hs Ht Hbs Hrp Hsl].
    assert (length slot <= slice)%nat as Hfit.
    { pose proof (po_loans _ _ _ Ho) as Hall. rewrite Forall_forall in Hall. apply Hall. unfold outside. rewrite Es. set_solver. }
    destruct (Pooled_resize _ _ _) as [ok packet] eqn:Ep. assert (packet = bs) as ->.
    { unfold Pooled_resize in Ep. rewrite (po_slice _ _ _ Ho : slice_size (dp_pool (rx_datapath r)) = slice) in Ep.
      rewrite (proj2 (Nat.ltb_ge _ _)) in Ep by lia. injection Ep as _ <-. unfold vec_resize. rewrite length_app, length_drop.
      replace (length bs - _)%nat with 0%nat by lia. rewrite app_nil_r. by rewrite take_app_length. }
    assert (inv c (bs :: hs) (set_slot None r)) as Hr'.
    { split; try done. cbn [rx_datapath set_slot]. unfold owns. eapply accounts_perm with (y := bs :: (held (rx_datapath r) ++ hs ++ outside (set_slot None r))); [solve_Permutation|].
      apply (accounts_resized _ _ _ slot); [lia|]. eapply accounts_perm; [|exact Ho]. unfold outside. rewrite Es.
      change (relayed (set_slot None r)) with (relayed r). change (terminated (set_slot None r)) with (terminated r).
      cbn [rx_slot set_slot option_list rx_emits rx_queries rx_replies]. solve_Permutation. }
    refine (balanced_timed (fun now => on_tun_owned bs now) (fun now => OnTunOwned bs now) (fun _ => []) hs (fun answer => rejected_if_err answer)
      (fun _ => balanced hs) _ _ _ _ _ (set_slot None r) _); [done|done|done|by intros ? ? [= ->]| |by exists c].
    intros answer. destruct answer; apply balanced_rejected.
  - refine (balanced_timed (fun now => on_tun_packet bs now) (fun now => OnTunPacket bs now) (fun _ => []) hs (fun answer => rejected_if_err answer)
      (fun _ => balanced hs) _ _ _ _ _ r _); [done|done|done|by intros ? ? [= ->]| |by exists c].
    intros answer. destruct answer; apply balanced_rejected.
Qed.
Lemma balanced_inbound inbound hs :
  ip_ok (address (ib_client inbound)) -> ip_ok (address (ib_peer inbound)) ->
  triple (balanced (ib_payload inbound :: hs)) (deliver_inbound w inbound) (fun _ => balanced hs).
Proof.
  intros Hc Hp. apply (balanced_timed (deliver_datagram (ib_client inbound) (ib_peer inbound) (ib_payload inbound))
    (DeliverDatagram (ib_client inbound) (ib_peer inbound) (ib_payload inbound)) (fun _ => []) (ib_payload inbound :: hs)); [done|done|done|by intros ? ? [= ->]|].
  intros answer. replace (match answer with Ok _ => [] | _ => [] end) with (@nil Pooled) by (by destruct answer). cbn [app].
  eapply triple_seq; [apply balanced_drop|]. destruct answer as [[]| |]; [by intros r|apply balanced_counting..].
Qed.

Lemma balanced_answer answer hs :
  ip_ok (address (an_client answer)) -> ip_ok (address (an_resolver answer)) ->
  triple (balanced (an_message answer :: hs)) (deliver_answer w answer) (fun _ => balanced hs).
Proof.
  intros Hc Hr. apply triple_seq with (M := balanced (an_message answer :: hs)).
  { destruct (an_steered answer) as [|a steered]; [by intros r|].
    apply (balanced_timed (inspect_addresses (a :: steered)) (InspectAddresses (a :: steered)) (fun _ => []) (an_message answer :: hs)
      (fun _ => mret tt)); [done|done|done|by intros ? ? [= ->]|].
    intros res r Hb. by destruct res. }
  apply (balanced_untimed (answer_dns (an_client answer) (an_resolver answer) (an_message answer))
    (AnswerDns (an_client answer) (an_resolver answer) (an_message answer)) (fun _ => []) (an_message answer :: hs)); [done|done|done|].
  intros answered. replace (match answered with Ok _ => [] | _ => [] end) with (@nil Pooled) by (by destruct answered). cbn [app].
  eapply triple_seq; [apply balanced_rejected|]. apply triple_seq with (M := balanced (an_message answer :: hs)); [|apply balanced_drop].
  destruct (an_resolution answer); [apply balanced_tell|by intros r].
Qed.

Lemma balanced_to_device bs hs : triple (balanced hs) (to_device w bs) (fun _ => balanced hs).
Proof. apply balanced_step. intros c s. apply triple_to_device. Qed.

Lemma balanced_wake wake hs :
  wake_typed wake -> triple (balanced (wake_loans wake ++ hs)) (on_wake w wake) (fun _ => balanced hs).
Proof.
  assert (forall (m : RM E unit) (b : bool) hs', triple (balanced hs') m (fun _ => balanced hs) -> triple (balanced hs') (m;; mret b) (fun _ => balanced hs)) as Hthen.
  { intros m b hs' Hm. eapply triple_seq; [exact Hm|]. by intros r. }
  assert (forall k e, triple (balanced hs) (if transient e then counting k;; mret true else rfail e) (fun _ => balanced hs)) as Herr.
  { intros k e. destruct (transient e) eqn:Et; [apply Hthen, balanced_counting|]. by intros r _. }
  intros Ht. destruct wake as [|[[accepts next|]|]|inbound|[e|bs]|counts|answer|[e|bs]|segment|]; cbn [wake_loans on_wake app]; try by intros r.
  - apply (balanced_untimed (on_path_change accepts next) (OnPathChange accepts next) (fun _ => []) hs (fun _ => mret true)); [done|done|done|].
    intros res r Hb. by destruct res.
  - destruct Ht. apply Hthen. by apply balanced_inbound.
  - apply Herr.
  - destruct Ht. apply Hthen. by apply balanced_accept.
  - apply Hthen, balanced_tell.
  - destruct Ht. apply Hthen. by apply balanced_answer.
  - apply Herr.
  - apply Hthen. apply (balanced_egress (const true)). intros e pool out. apply pe_network_ok.
  - eapply triple_seq; [apply balanced_to_device|]. apply Hthen, balanced_drop.
Qed.

Lemma balanced_deadline hs : triple (balanced hs) (egress_deadline w) (fun _ => balanced hs).
Proof.
  intros r [c [Ho Hs Ht Hb Hr Hsl]]. unfold egress_deadline. pose proof (pe_clock_forward (rx_egress r) (w_clock w) (rx_reads r)) as Hf.
  destruct (pe_next_deadline _ _ _) as [deadline n]. exists c. split; try done. cbn [rx_reads set_reads snd] in *. etrans; [exact Ht|].
  induction Hf as [|n _ IH]; [done|]. etrans; [exact IH|apply Hmono].
Qed.

Lemma balanced_modify f hs : (forall r c, inv c hs r -> inv c hs (f r)) -> triple (balanced hs) (rmodify f) (fun _ => balanced hs).
Proof. intros Hf. apply triple_modify. intros r [c Hr]. exists c. by apply Hf. Qed.

Lemma balanced_timers core hs : triple (balanced hs) (run_timers w core) (fun _ => balanced hs).
Proof.
  apply triple_balanced. intros c s. eapply triple_bind; [apply triple_read|]. intros now.
  apply triple_seq with (M := balanced hs).
  { destruct (due_by core now); [|intros r [Hi _]; by exists now].
    eapply triple_bind; [apply (triple_on_datapath (on_timeout now) (OnTimeout now) (fun _ => []) now hs s); [done|done|by intros t [= ->]]|].
    intros answer r (s' & [Hi _] & _). exists now. by destruct answer. }
  eapply triple_bind; [apply balanced_deadline|]. intros deadline. apply triple_reads. intros r0.
  apply triple_seq with (M := balanced hs); [|by intros r].
  destruct (_ || _); [|by intros r]. eapply triple_seq; [apply (balanced_egress (const true)); intros e pool out; apply pe_tick_ok|].
  apply balanced_modify. by intros r c' [].
Qed.

Lemma balanced_flush hs : triple (balanced hs) (flush_counters w) (fun _ => balanced hs).
Proof. apply balanced_modify. intros r c []. by destruct (Counters_flush _ _ _ _). Qed.

Lemma balanced_refill hs : triple (balanced hs) (refill_slot mtu) (fun _ => balanced hs).
Proof.
  intros r [c Hr]. unfold refill_slot, mbind at 1, RM_bind at 1, rget. destruct (rx_slot r) as [slot|] eqn:Es; [by exists c|].
  destruct Hr as [Ho Hs Ht Hb Hr Hsl]. pose proof (moves_take_zeroed slice capacity mtu (hs ++ outside r) [] (rx_datapath r) Ho) as Hm.
  unfold pool_take_zeroed in Hm. destruct (BufferPool_take_zeroed _ mtu) as [slot pool] eqn:Et. cbn.
  exists c. split; try done; cbn [rx_datapath set_slot set_datapath rx_slot].
  - eapply (owns_perm slice capacity); [|reflexivity|exact Hm]. unfold outside. rewrite Es. set (r' := set_slot _ _). change (relayed r') with (relayed r).
    change (terminated r') with (terminated r). cbn [r' rx_slot set_slot set_datapath rx_emits rx_queries rx_replies option_list]. solve_Permutation.
  - apply safe_set_pool; [|done]. eapply (pool_step_free (dp_pool (rx_datapath r)) []); [by eapply Pool.pool_take_zeroed|apply (sf_free _ _ _ _ Hs)].
  - intros b ->. unfold BufferPool_take_zeroed in Et. destruct (BufferPool_reserve _ _) as [[b0|] p]; [|done]. cbn in Et. injection Et as <- _. apply length_vec_resize.
Qed.
(** What leaves the queues alone keeps them empty. *)
Definition settled hs r : Prop := balanced hs r /\ quiet r.

Lemma quiet_shape r r' : shape r' = shape r -> quiet r -> quiet r'.
Proof.
  intros Hsh. unfold quiet, held. unfold shape in Hsh. injection Hsh as -> -> -> -> -> -> -> ->. done.
Qed.

Lemma settled_step {A} (m : RM E A) hs :
  (forall r, shape (m r).2 = shape r) -> triple (balanced hs) m (fun _ => balanced hs) -> triple (settled hs) m (fun _ => settled hs).
Proof.
  intros Hsh Hm r [Hb Hq]. specialize (Hm r Hb). specialize (Hsh r). destruct (m r) as [[a|e|] r']; [|done|done].
  split; [exact Hm|]. by apply (quiet_shape r).
Qed.

Lemma balanced_drain hs : triple (balanced hs) (drain w) (fun _ => settled hs).
Proof.
  apply triple_balanced. intros c s. eapply triple_weaken; [done| |apply triple_drain]. intros a r (c' & Hi & Hq). split; [by exists c'|exact Hq].
Qed.

Lemma settled_flush hs : triple (settled hs) (flush_counters w) (fun _ => settled hs).
Proof. apply settled_step; [|apply balanced_flush]. intros r. unfold flush_counters, rmodify. by destruct (Counters_flush _ _ _ _). Qed.

Lemma settled_arm hs : triple (settled hs) (arm w mtu) (fun _ => settled hs).
Proof.
  apply triple_reads. intros r0. eapply triple_seq; [apply settled_step; [|apply balanced_deadline]|].
  { intros r. unfold egress_deadline. by destruct (pe_next_deadline _ _ _). }
  eapply triple_seq; [apply settled_step; [|apply balanced_refill]|by intros r].
  intros r. unfold refill_slot, mbind, RM_bind, rget. destruct (rx_slot r); [done|]. by destruct (BufferPool_take_zeroed _ _).
Qed.

Lemma triple_turn core wake hs :
  wake_typed wake -> triple (balanced (wake_loans wake ++ hs)) (turn w mtu core wake) (fun _ => settled hs).
Proof.
  intros Ht. eapply triple_bind; [by apply balanced_wake|]. intros going. destruct going; cbn [negb].
  - eapply triple_bind; [apply balanced_timers|]. intros now. eapply triple_seq; [apply balanced_drain|]. apply triple_reads. intros r0.
    apply triple_seq with (M := settled hs).
    { destruct (_ <=? now); [|by intros r]. eapply triple_seq; [apply settled_flush|]. apply settled_step; [done|].
      apply balanced_modify. by intros r c []. }
    eapply triple_bind; [apply settled_arm|]. by intros core' r.
  - eapply triple_seq; [apply balanced_drain|]. eapply triple_seq; [apply settled_flush|]. by intros r.
Qed.

(** ** Runs *)

(** The reactor as it waits, with the slices the other tasks hold. *)
Abbreviation System := (Reactor E * option Instant * list Pooled)%type.

(** A task takes the next item of its channel, and the slice with it. *)
Inductive receives : Reactor E -> Pooled -> Reactor E -> Prop :=
| receives_query r q rest :
    ox_taken (rx_queries r) = q :: rest -> receives r (dq_payload q) (set_query_box (mkOutbox rest (ox_tries (rx_queries r))) r)
| receives_datagram r box o rest :
    rx_relay r = Some box -> ox_taken box = o :: rest -> receives r (ob_payload o) (set_relay_box (Some (mkOutbox rest (ox_tries box))) r)
| receives_terminate r box bs rest :
    rx_terminate r = Some box -> ox_taken box = bs :: rest -> receives r bs (set_terminate_box (Some (mkOutbox rest (ox_tries box))) r).

(** A turn, or what the other tasks do while the reactor waits: taking from their channels,
    using the pool, and leaving the terminator's segments. *)
Inductive sys_step : System -> System -> Prop :=
| sys_turn r core others wake L core' r' :
    others ≡ₚ wake_loans wake ++ L -> wake_typed wake -> turn w mtu core wake r = (Ok (Some core'), r') ->
    sys_step (r, core, others) (r', core', L)
| sys_receive r core others bs r' :
    receives r bs r' -> sys_step (r, core, others) (r', core, bs :: others)
| sys_pool r core others pool others' :
    pool_step (dp_pool (rx_datapath r), others) (pool, others') ->
    sys_step (r, core, others) (set_datapath (set_pool pool (rx_datapath r)) r, core, others')
| sys_reply r core others segment L :
    others ≡ₚ segment :: L -> rx_terminate r <> None -> sys_step (r, core, others) (set_replies (rx_replies r ++ [segment]) r, core, L)
| sys_observe r core others t rest :
    ox_taken (sk_channel (rx_telemetry r)) = t :: rest ->
    sys_step (r, core, others) (set_telemetry (mkSink (mkOutbox rest (ox_tries (sk_channel (rx_telemetry r)))) (sk_lost (rx_telemetry r))) r, core, others).

(** Nothing waits but the terminator's segments. *)
Definition waiting r : Prop :=
  rx_emits r = [] /\ held (rx_datapath r) = [] /\ dp_ready (rx_datapath r) = [] /\ dp_events (rx_datapath r) = [].

Definition sys_ok (s : System) : Prop := balanced s.2 s.1.1 /\ waiting s.1.1.

Lemma receives_ok r bs r' others : receives r bs r' -> balanced others r -> waiting r -> balanced (bs :: others) r' /\ waiting r'.
Proof.
  intros Hrec [c Hr] Hw. assert (at_ c others (shape r) r) as Hat by done. inversion Hrec as [r0 q rest Hq|r0 box o rest Hb Hq|r0 box b rest Hb Hq]; subst; (split; [|done]); exists c;
    (eapply at_outside; [exact Hat|done..|]); unfold outside, relayed, terminated; rewrite ?Hb, ?Hq;
    cbn [rx_queries set_query_box set_relay_box set_terminate_box rx_relay rx_terminate ox_taken rx_emits rx_slot rx_replies]; rewrite ?Hb, ?Hq;
    cbn [fmap list_fmap]; solve_Permutation.
Qed.

Lemma sys_step_ok s s' : sys_step s s' -> sys_ok s -> sys_ok s'.
Proof.
  intros Hstep [Hb Hw]. destruct Hstep as [r core others wake L core' r' Hp Ht Hturn|r core others bs r' Hrec|r core others pool others' Hpool|
    r core others segment L Hp Hterm|r core others t rest Ht]; cbn [fst snd] in *.
  - assert (balanced (wake_loans wake ++ L) r) as Hb' by (destruct Hb as [c Hi]; exists c; by rewrite <- Hp).
    pose proof (triple_turn core wake L Ht r Hb') as Hd. rewrite Hturn in Hd. destruct Hd as [Hbal (H1' & H2' & H3 & H5 & _)]. done.
  - by apply (receives_ok r).
  - split; [|exact Hw]. destruct Hb as [c [Ho Hs Ht Hbs Hr Hsl]]. exists c. split; try done; cbn [rx_datapath set_datapath].
    + unfold owns in *. cbn [dp_pool set_pool]. change (held (set_pool pool (rx_datapath r))) with (held (rx_datapath r)).
      change (outside (set_datapath (set_pool pool (rx_datapath r)) r)) with (outside r).
      rewrite (Permutation_app_comm others'), (assoc_L (++)). rewrite (Permutation_app_comm others), (assoc_L (++)) in Ho.
      by eapply accounts_frame.
    + apply safe_set_pool; [by eapply pool_step_free, (sf_free _ _ _ _ Hs)|done].
  - split; [|exact Hw]. destruct Hb as [c [Ho Hs Ht Hbs Hr Hsl]]. exists c. split; try done. cbn [rx_datapath set_replies].
    eapply (owns_perm slice capacity); [|reflexivity|exact Ho]. rewrite Hp. unfold outside. set (r' := set_replies _ r). change (relayed r') with (relayed r).
    change (terminated r') with (terminated r). cbn [r' rx_replies set_replies rx_emits rx_slot rx_queries]. solve_Permutation.
  - split; [|exact Hw]. destruct Hb as [c []]. exists c. by split.
Qed.

Lemma sys_run_ok s s' : rtc sys_step s s' -> sys_ok s -> sys_ok s'.
Proof. induction 1 as [|x y z Hstep _ IH]; [done|]. intros Hs. apply IH. by eapply sys_step_ok. Qed.

Lemma start_settled filter dns accepts egress path limits t1 t2 d (e : E) relays terminates :
  Datapath_new filter dns accepts egress path limits (BufferPool_new slice capacity) t1 t2 = Ok d ->
  0 <= l_reassembly_timeout limits -> l_max_flows limits = max_flows -> l_reassembly_timeout limits = timeout ->
  settled [] (start w d e relays terminates).
Proof.
  intros Hnew Ht Hf Hto. assert (r_timeout (dp_reassembler d) = timeout) as Hrt.
  { revert Hnew. unfold Datapath_new. destruct (_ && _); [done|]. destruct (check_plans _); [|done|done]. cbn [mbind Res_bind].
    unfold UdpFlowTable_new. destruct (_ <? _); [done|]. cbn [mbind Res_bind]. by intros [= <-]. }
  assert (safe max_flows timeout (w_clock w 2) d) as Hs by (rewrite <- Hf, <- Hto; apply (new_safe _ _ _ _ _ _ _ _ _ _ _ _ Hnew Ht); rewrite Hrt; apply Hhorizon).
  pose proof (new_owns _ _ _ _ _ _ _ _ _ _ _ Hnew) as Ho.
  assert (held d = [] /\ dp_ready d = [] /\ dp_events d = []) as (H1' & H2' & H3).
  { revert Hnew. unfold Datapath_new. destruct (_ && _); [done|]. destruct (check_plans _); [|done|done]. cbn [mbind Res_bind].
    unfold UdpFlowTable_new. destruct (_ <? _); [done|]. cbn [mbind Res_bind]. intros [= <-]. by split_and!. }
  split; [|done]. exists (w_clock w 2). split; try done. cbn [rx_datapath start]. unfold outside, relayed, terminated.
  by destruct relays, terminates.
Qed.

(** C3: the reactor and everything it drives.  Start it on a fresh datapath with any packet
    egress, and let events, the other tasks and the host do as they like under a clock that
    does not go back.  Whenever it waits, nothing is left in a queue of the datapath or of
    the egress, and the pool's slices are exactly those it caches, the one to read into,
    those in the channels and those the other tasks hold; they never exceed its capacity.
    And whatever event comes next, the turn it starts drains everything again, in two passes
    between datapath and egress, unless the host answers an error that is not transient; it
    cannot panic before the egress has counted all its packets. *)
Theorem reactor_balances filter dns accepts egress path limits t1 t2 d (e : E) relays terminates core0 r0 r core others :
  Datapath_new filter dns accepts egress path limits (BufferPool_new slice capacity) t1 t2 = Ok d ->
  0 <= l_reassembly_timeout limits -> l_max_flows limits = max_flows -> l_reassembly_timeout limits = timeout ->
  arm w mtu (start w d e relays terminates) = (Ok core0, r0) -> rtc sys_step (r0, core0, []) (r, core, others) ->
  let pool := dp_pool (rx_datapath r) in
  waiting r /\
  (length (free pool) + length others + length (outside r) = live pool)%nat /\ (live pool <= capacity)%nat /\
  @BufferPool_available unit pool = Ok (capacity - length others - length (outside r))%nat /\
  (forall wake L, others ≡ₚ wake_loans wake ++ L -> wake_typed wake ->
   match turn w mtu core wake r with
   | (Ok _, r') => quiet r'
   | (Err error, _) => transient error = false
   | (Panic, r') => pe_full (rx_egress r')
   end).
Proof.
  intros Hnew Ht Hf Hto Harm Hrun. pose proof (settled_arm [] _ (start_settled _ _ _ _ _ _ _ _ _ e relays terminates Hnew Ht Hf Hto)) as Hset.
  rewrite Harm in Hset. destruct Hset as [Hb0 (Hq1 & Hq2 & Hq3 & Hq4 & _)].
  assert (sys_ok (r, core, others)) as [[c Hi] Hw].
  { eapply sys_run_ok; [exact Hrun|done]. }
  cbn [fst snd] in *. destruct (iv_owns _ _ _ Hi) as [_ Hcap Hn Hlive _ _]. cbn [fst snd] in *.
  destruct Hw as (Hw1 & Hw2 & Hw3 & Hw4). rewrite Hw2 in Hn. cbn [app] in Hn. rewrite length_app in Hn. split_and!; try done; [lia| |].
  - unfold BufferPool_available. rewrite Hcap, (proj2 (Nat.leb_le _ _)) by done. f_equal. lia.
  - intros wake L Hp Htyped. assert (balanced (wake_loans wake ++ L) r) as Hb by (exists c; by rewrite <- Hp).
    pose proof (triple_turn core wake L Htyped r Hb) as Hd. destruct (turn w mtu core wake r) as [[a|x|] r']; [|done|done]. by destruct Hd.
Qed.
End Theory.

(** A host that takes everything, on a clock that moves for a while. *)
Definition sample_world : World :=
  mkWorld (fun n => Z.min (Z.of_nat n) 1000000) (fun _ => Sends) (fun _ => Sends) (fun _ => true) (fun _ => true) (fun _ => true) (fun _ => true).

#[local] Instance sample_libc : Libc := {| ENOBUFS := 105; ENOMEM := 12; EMSGSIZE := 90 |}.

(** A client's DNS query arrives: its payload is in the channel to the resolver, and with it
    and the slice to read into two of the eight slices are out. *)
Lemma reactor_balances_witness :
  exists d core0 r0 core1 r1,
    @Datapath_new sample_etherparse InspectHttp Dns_Intercept Flows sample_path sample_mtu sample_limits (BufferPool_new 1500 8) 0 0 = Ok d /\
    arm (W := unit) sample_world 1500 (start (W := unit) sample_world d tt true true) = (Ok core0, r0) /\
    turn (H := sample_etherparse) (W := unit) sample_world 1500 core0 (FromDevice (inr sample_udp_packet)) r0 = (Ok (Some core1), r1) /\
    waiting r1 /\ length (outside r1) = 2%nat /\ @BufferPool_available unit (dp_pool (rx_datapath r1)) = Ok 6%nat.
Proof.
  destruct (@Datapath_new sample_etherparse InspectHttp Dns_Intercept Flows sample_path sample_mtu sample_limits
      (BufferPool_new 1500 8) 0 0) as [d| |] eqn:E0; [|by vm_compute in E0..].
  destruct (arm (W := unit) sample_world 1500 (start (W := unit) sample_world d tt true true)) as [a0 r0] eqn:E1.
  assert (exists core0, a0 = Ok core0) as [core0 ->] by (vm_compute in E0; injection E0 as <-; vm_compute in E1; injection E1 as <- <-; by eexists).
  destruct (turn (H := sample_etherparse) (W := unit) sample_world 1500 core0 (FromDevice (inr sample_udp_packet)) r0) as [a1 r1] eqn:E2.
  assert ((exists core1, a1 = Ok (Some core1)) /\ length (outside r1) = 2%nat) as [[core1 ->] Hout].
  { vm_compute in E0. injection E0 as <-. vm_compute in E1. injection E1 as <- <-. vm_compute in E2. injection E2 as <- <-. split; [by eexists|by vm_compute]. }
  assert (@wake_typed 1500 (FromDevice (inr sample_udp_packet))) as Hty by (split; [repeat constructor; unfold byte_ok; lia|cbn; lia]).
  assert (forall n, w_clock sample_world n <= w_clock sample_world (S n)) as Hmono by (intros n; cbn; lia).
  assert (forall n, w_clock sample_world n + from_secs 30 <= INSTANT_MAX) as Hhor by (intros n; cbn [w_clock sample_world]; unfold from_secs, INSTANT_MAX, NANOS; lia).
  assert (rtc (@sys_step sample_etherparse sample_libc unit unit _ sample_world 1500) (r0, core0, []) (r1, core1, [])) as Hrun
    by (apply rtc_once; by apply (sys_turn _ _ r0 core0 [] (FromDevice (inr sample_udp_packet)) [])).
  destruct (@reactor_balances sample_etherparse sample_datapath_laws sample_libc unit unit _ _ sample_world 1500 8 64 1500 (from_secs 30) Hmono Hhor
    InspectHttp Dns_Intercept Flows sample_path sample_mtu sample_limits 0 0 d tt true true core0 r0 r1 core1 [] E0 ltac:(vm_compute; discriminate)
    eq_refl eq_refl E1 Hrun) as (Hw & _ & _ & Ha & _).
  exists d, core0, r0, core1, r1. split; [done|]. split; [done|]. split; [done|]. split; [exact Hw|]. split; [exact Hout|]. rewrite Hout in Ha. exact Ha.
Defined.
