(* ===== verification/Exchange.v ===== *)
(** The HTTP exchange of [src/intercept/exchange.rs], after TLS is terminated on both
    legs: alternative services steered away from HTTP/3, hop-by-hop fields, the host a
    request names, and the proxy that filters, forwards and shapes each request.

    Header maps, the upstream connection and the URL filter are interfaces: [HttpHeaders]
    of the response rewriter, extended here with iteration, a filter function, and the
    answer of the upstream as an event.  A forwarded request is split where it awaits the
    upstream, so the streams of one HTTP/2 connection interleave at that point. *)

From S2P Require Import Prelude IpText Text Csp Rewrite Mirror.
Open Scope Z_scope.

(** * Alternative services *)

Definition ALT_SVC : bytes := text_of "alt-svc".
Definition ALT_SVC_CLEAR : bytes := text_of "clear".

Inductive AltSvc := Untouched | Narrowed (kept : bytes) | Cleared.

Definition BACKSLASH : Z := 92.
Definition QUOTE : Z := 34.
Definition COMMA : Z := 44.
Definition EQUALS : Z := 61.
Definition PERCENT : Z := 37.

(** The closure of the split on one character: the new [quoted] and [escaped], and
    whether the value is cut there.  A character outside ASCII is none of the cases, and
    neither is any of its bytes. *)
Definition alt_step (quoted escaped : bool) (character : Z) : bool * bool * bool :=
  if escaped then (quoted, false, false)
  else if (character =? BACKSLASH) && quoted then (quoted, true, false)
  else if character =? QUOTE then (negb quoted, false, false)
  else if character =? COMMA then (quoted, false, negb quoted)
  else (quoted, false, false).

Fixpoint alt_split (quoted escaped : bool) (bs : bytes) : list bytes :=
  match bs with
  | [] => [[]]
  | b :: rest =>
      let '(quoted, escaped, cut) := alt_step quoted escaped b in
      if cut then [] :: alt_split quoted escaped rest
      else match alt_split quoted escaped rest with piece :: pieces => (b :: piece) :: pieces | [] => [[b]] end
  end.

Definition alt_values (value : bytes) : list bytes :=
  filter (fun alternative => alternative <> []) (trim <$> alt_split false false value).

(** [u8::from_str_radix] in base 16: a plus sign is taken before other digits. *)
Fixpoint hex_digits (acc : Z) (bs : bytes) : option Z :=
  match bs with
  | [] => Some acc
  | b :: bs =>
      match digit_of 16 b with
      | Some d => let acc := acc * 16 + d in if acc <=? 255 then hex_digits acc bs else None
      | None => None
      end
  end.

Definition u8_from_hex (bs : bytes) : option Z :=
  match bs with
  | [] => None
  | 43 :: ((_ :: _) as digits) => hex_digits 0 digits
  | _ => hex_digits 0 bs
  end.

(** [String::push] of [char::from] a byte: the character of that number, in UTF-8. *)
Definition push_char (byte : Z) : bytes :=
  if byte <? 128 then [byte] else [Z.lor 0xc0 (Z.shiftr byte 6); Z.lor 0x80 (Z.land byte 0x3f)].

(** [id.get(index + 1..index + 3)] is [None] outside the text and off its characters. *)
Fixpoint percent_decode (id : bytes) : bytes :=
  match id with
  | [] => []
  | b :: rest =>
      match rest with
      | h :: l :: rest' =>
          if (b =? PERCENT) && is_char_boundary rest 0 && is_char_boundary rest 2 then
            match u8_from_hex [h; l] with
            | Some byte => push_char byte ++ percent_decode rest'
            | None => push_char b ++ percent_decode rest
            end
          else push_char b ++ percent_decode rest
      | _ => push_char b ++ percent_decode rest
      end
  end.

(** [trim_end_matches] of one character. *)
Definition trim_end_char (c : Z) (bs : bytes) : bytes := reverse (strip_leading c (reverse bs)).

Definition advertises_h3 (alternative : bytes) : bool :=
  let id := trim_matches QUOTE (trim (default [] (head (split_char EQUALS alternative)))) in
  let decoded := percent_decode id in
  eq_ignore_ascii_case decoded (text_of "h3") || starts_with (text_of "h3-") (to_ascii_lowercase <$> decoded).

(** The loops of [steer_alt_svc]: what is kept, and whether something was removed. *)
Fixpoint steer_alternatives (alternatives kept : list bytes) (removed : bool) : list bytes * bool :=
  match alternatives with
  | [] => (kept, removed)
  | alternative :: alternatives =>
      if advertises_h3 alternative then steer_alternatives alternatives kept true
      else steer_alternatives alternatives (kept ++ [alternative]) removed
  end.

Fixpoint steer_values (values kept : list bytes) (removed : bool) : list bytes * bool :=
  match values with
  | [] => (kept, removed)
  | value :: values =>
      if eq_ignore_ascii_case (trim value) ALT_SVC_CLEAR then steer_values values kept removed
      else let '(kept, removed) := steer_alternatives (alt_values value) kept removed in steer_values values kept removed
  end.

Definition steer_alt_svc (values : list bytes) : AltSvc :=
  let '(kept, removed) := steer_values values [] false in
  match removed, kept with
  | false, _ => Untouched
  | true, [] => Cleared
  | true, _ => Narrowed (join_text (text_of ", ") kept)
  end.

Example steer_narrows :
  steer_alt_svc [text_of "h3=':443'; ma=1, H3-29=':443', h2='alt:443', %68%33=':8'"; text_of "clear"] =
  Narrowed (text_of "h2='alt:443'").
Proof. vm_compute. reflexivity. Qed.

(** A comma inside a quoted string separates nothing. *)
Example quoted_comma : alt_values ([120; EQUALS; QUOTE] ++ text_of "a,h3=b" ++ [QUOTE; COMMA] ++ text_of " y=1") =
  [[120; EQUALS; QUOTE] ++ text_of "a,h3=b" ++ [QUOTE]; text_of "y=1"].
Proof. vm_compute. reflexivity. Qed.

(** ** What a value offers *)

(** The alternatives of the values that are not a withdrawal. *)
Definition alternatives (values : list bytes) : list bytes :=
  values ≫= fun value => if eq_ignore_ascii_case (trim value) ALT_SVC_CLEAR then [] else alt_values value.

Lemma steer_alternatives_spec alts : forall kept removed,
  steer_alternatives alts kept removed =
  (kept ++ filter (fun a => advertises_h3 a = false) alts, removed || existsb advertises_h3 alts).
Proof.
  induction alts as [|a alts IH]; intros kept removed; cbn [steer_alternatives existsb]; [by rewrite filter_nil, app_nil_r, orb_false_r|].
  rewrite filter_cons. destruct (advertises_h3 a); rewrite IH.
  - rewrite decide_False by done. by rewrite orb_true_r.
  - rewrite decide_True by done. by rewrite <- app_assoc.
Qed.

Lemma steer_values_spec values : forall kept removed,
  steer_values values kept removed =
  (kept ++ filter (fun a => advertises_h3 a = false) (alternatives values), removed || existsb advertises_h3 (alternatives values)).
Proof.
  induction values as [|value values IH]; intros kept removed; cbn [steer_values];
    [change (alternatives []) with (@nil bytes); by rewrite filter_nil, app_nil_r, orb_false_r|].
  unfold alternatives. rewrite bind_cons. fold (alternatives values). destruct (eq_ignore_ascii_case _ _); [by rewrite IH|].
  rewrite steer_alternatives_spec, IH, filter_app, existsb_app, app_assoc, orb_assoc. done.
Qed.

(** ** Quotes *)

(** The state after a text, when it is not cut. *)
Fixpoint alt_scan (quoted escaped : bool) (bs : bytes) : option (bool * bool) :=
  match bs with
  | [] => Some (quoted, escaped)
  | b :: bs => let '(quoted, escaped, cut) := alt_step quoted escaped b in if cut then None else alt_scan quoted escaped bs
  end.

(** The state after a text, cut or not. *)
Fixpoint alt_state (quoted escaped : bool) (bs : bytes) : bool * bool :=
  match bs with
  | [] => (quoted, escaped)
  | b :: bs => let '(quoted, escaped, _) := alt_step quoted escaped b in alt_state quoted escaped bs
  end.

(** Every quoted string of a text is closed. *)
Definition closed (value : bytes) : bool := bool_decide (alt_state false false value = (false, false)).

(** One alternative: no separator outside its quotes. *)
Abbreviation uncut := (fun piece => alt_scan false false piece = Some (false, false)).

Lemma alt_split_cons q e bs : exists piece pieces, alt_split q e bs = piece :: pieces.
Proof. destruct bs as [|b bs]; cbn; [eauto|]. destruct (alt_step q e b) as [[q' e'] []]; [eauto|]. destruct (alt_split q' e' bs); eauto. Qed.

Lemma alt_split_app a b : forall q e q' e', alt_scan q e a = Some (q', e') ->
  forall piece pieces, alt_split q' e' b = piece :: pieces -> alt_split q e (a ++ b) = (a ++ piece) :: pieces.
Proof.
  induction a as [|x a IH]; intros q e q' e' Ha piece pieces Hb; cbn [app alt_split alt_scan] in *; [congruence|].
  destruct (alt_step q e x) as [[q1 e1] []]; [done|]. by rewrite (IH _ _ _ _ Ha _ _ Hb).
Qed.

Lemma alt_step_cut q e b q' e' : alt_step q e b = (q', e', true) -> q' = false /\ e' = false.
Proof. unfold alt_step. destruct e, q; cbn; repeat case_match; intros; simplify_eq; done. Qed.

Lemma alt_split_closed bs : forall q e, alt_state q e bs = (false, false) ->
  exists piece pieces, alt_split q e bs = piece :: pieces /\ alt_scan q e piece = Some (false, false) /\ Forall uncut pieces.
Proof.
  induction bs as [|b bs IH]; intros q e Hst; cbn [alt_split alt_state] in *.
  { exists [], []. cbn. split_and!; [done|congruence|done]. }
  destruct (alt_step q e b) as [[q' e'] cut] eqn:E. destruct (IH _ _ Hst) as (piece & pieces & -> & Hp & Hps). destruct cut.
  - apply alt_step_cut in E as E'. destruct E' as [-> ->]. exists [], (piece :: pieces). cbn. split_and!; [done| |by constructor].
    unfold alt_step in E. repeat case_match; by simplify_eq.
  - exists (b :: piece), pieces. cbn. by rewrite E.
Qed.

Lemma alt_step_ws q e b : is_ws b = true -> alt_step q e b = (q, false, false).
Proof.
  unfold is_ws, alt_step. intros Hb. assert (b <> BACKSLASH /\ b <> QUOTE /\ b <> COMMA) as (H1 & H2 & H3).
  { apply orb_true_iff in Hb. unfold BACKSLASH, QUOTE, COMMA. destruct Hb as [Hb|Hb]; reflect; lia. }
  rewrite (proj2 (Z.eqb_neq _ _) H1), (proj2 (Z.eqb_neq _ _) H2), (proj2 (Z.eqb_neq _ _) H3). by destruct e.
Qed.

Lemma alt_scan_ws bs : Forall (fun b => is_ws b = true) bs -> forall q e, alt_scan q e bs = Some (q, if bs is [] then e else false).
Proof.
  induction 1 as [|b bs Hb Hbs IH]; intros q e; [done|]. cbn [alt_scan]. rewrite alt_step_ws, IH by done. by destruct bs.
Qed.

Lemma alt_scan_trim_start bs r : ascii bs -> alt_scan false false bs = Some r -> alt_scan false false (trim_start bs) = Some r.
Proof.
  induction bs as [|b bs IH]; intros Ha Hs; [done|]. rewrite trim_start_ascii by done. destruct (is_ws b) eqn:E; [|done].
  cbn [alt_scan] in Hs. rewrite alt_step_ws in Hs by done. apply Forall_cons in Ha as [_ Ha]. auto.
Qed.

Lemma alt_scan_trim_end bs : ascii bs -> forall q e, (e = true -> q = true) ->
  alt_scan q e bs = Some (false, false) -> alt_scan q e (trim_end bs) = Some (false, false).
Proof.
  induction bs as [|b bs IH]; intros Ha q e Hi Hs; [done|]. rewrite trim_end_cons. destruct (trim_start (b :: bs)) eqn:E.
  - apply trim_start_empty in E; [|done]. rewrite alt_scan_ws in Hs by done. injection Hs as ->. destruct e; [|done]. by specialize (Hi eq_refl).
  - cbn [alt_scan] in *. apply Forall_cons in Ha as [_ Ha]. destruct (alt_step q e b) as [[q' e'] []] eqn:Es; [done|].
    apply IH; [done| |done]. unfold alt_step in Es. repeat case_match; simplify_eq; try done. intros _. reflect. done.
Qed.

Lemma trim_uncut piece : ascii piece -> uncut piece -> uncut (trim piece).
Proof.
  intros Ha Hp. unfold trim. apply alt_scan_trim_end; [|done|by apply alt_scan_trim_start].
  destruct (trim_start_suffix piece Ha) as [Hs _]. destruct Hs as [pre Hs]. rewrite Hs in Ha. by apply Forall_app in Ha as [_ Ha].
Qed.

(** ** Reading back what was kept *)

Record alternative_ok (a : bytes) : Prop := {
  ao_ascii : ascii a;
  ao_trimmed : trimmed a;
  ao_nonempty : a <> [];
  ao_uncut : uncut a;
}.

Lemma alt_split_sub bs : forall q e, Forall (fun piece => forall b, b ∈ piece -> b ∈ bs) (alt_split q e bs).
Proof.
  induction bs as [|x bs IH]; intros q e; cbn [alt_split]; [by constructor|]. destruct (alt_step q e x) as [[q' e'] cut].
  assert (Forall (fun piece => forall b, b ∈ piece -> b ∈ x :: bs) (alt_split q' e' bs)) as Hs.
  { eapply Forall_impl; [apply IH|]. set_solver. }
  destruct cut; [constructor; [set_solver|done]|]. destruct (alt_split q' e' bs) as [|piece pieces]; [by constructor; set_solver|].
  apply Forall_cons in Hs as [H1 H2]. constructor; [|done]. set_solver.
Qed.

Lemma alt_values_ok value : ascii value -> closed value = true -> Forall alternative_ok (alt_values value).
Proof.
  intros Ha Hc. apply bool_decide_eq_true in Hc. apply Forall_forall. intros a [Hne Hin]%list_elem_of_filter.
  apply list_elem_of_fmap in Hin as (piece & -> & Hin). pose proof (alt_split_sub value false false) as Hs.
  rewrite Forall_forall in Hs. assert (ascii piece) as Hp by (eapply ascii_sub; [exact Ha|by apply Hs]).
  assert (uncut piece) as Hu.
  { destruct (alt_split_closed _ _ _ Hc) as (p & ps & E & H1 & H2). rewrite E in Hin.
    assert (Forall uncut (p :: ps)) as Hall by by constructor. rewrite Forall_forall in Hall. by apply Hall. }
  split; [|by apply trim_trimmed|done|by apply trim_uncut]. eapply ascii_sub; [exact Hp|]. intros b. by apply trim_sub.
Qed.

Lemma alt_scan_app a b : forall q e q' e', alt_scan q e a = Some (q', e') -> alt_scan q e (a ++ b) = alt_scan q' e' b.
Proof.
  induction a as [|x a IH]; intros q e q' e' Ha; cbn [alt_scan app] in *; [congruence|].
  destruct (alt_step q e x) as [[q1 e1] []]; [done|]. by apply IH.
Qed.

Lemma alt_split_join parts : Forall alternative_ok parts -> forall pre, uncut pre -> parts <> [] ->
  alt_split false false (pre ++ join_text (text_of ", ") parts) =
  match parts with [] => [] | part :: parts => (pre ++ part) :: ((cons 32) <$> parts) end.
Proof.
  induction 1 as [|part parts Hp Hps IH]; intros pre Hpre Hne; [done|].
  assert (uncut (pre ++ part)) as Hu by (rewrite (alt_scan_app _ _ _ _ _ _ Hpre); apply Hp).
  destruct parts as [|part' parts].
  { pose proof (alt_split_app _ [] _ _ _ _ Hu [] [] eq_refl) as E. rewrite !app_nil_r in E. done. }
  change (join_text (text_of ", ") (part :: part' :: parts)) with (part ++ COMMA :: [32] ++ join_text (text_of ", ") (part' :: parts)).
  rewrite app_assoc. erewrite alt_split_app; [|exact Hu|cbn [alt_split]; reflexivity].
  change (32 :: ?t) with ([32] ++ t). rewrite IH by done. by rewrite app_nil_r.
Qed.

Lemma alt_values_join parts : Forall alternative_ok parts -> alt_values (join_text (text_of ", ") parts) = parts.
Proof.
  intros Hp. destruct parts as [|part parts]; [reflexivity|]. unfold alt_values.
  pose proof (alt_split_join _ Hp [] eq_refl ltac:(done)) as E. cbn [app] in E. rewrite E. apply Forall_cons in Hp as [Hp Hps].
  clear E. rewrite fmap_cons, trim_of_trimmed by apply Hp. rewrite filter_cons, decide_True by apply Hp. f_equal.
  induction Hps as [|a parts Ha Hps IH]; [done|]. destruct Ha as [Ha Ht Hn _]. rewrite !fmap_cons, trim_space by done.
  rewrite filter_cons, decide_True by done. by rewrite IH.
Qed.

(** ** Spellings of a protocol identifier *)

(** RFC 7838: a character of the identifier stands for itself or for its number in
    hexadecimal after a percent sign. *)
Inductive spells : bytes -> bytes -> Prop :=
| spells_nil : spells [] []
| spells_char b id text : b <> PERCENT -> 0 <= b < 128 -> spells id text -> spells (b :: id) (b :: text)
| spells_escape b h l id text : 0 <= b < 128 -> digit_of 16 h = Some (b / 16) -> digit_of 16 l = Some (b mod 16) ->
    spells id text -> spells (b :: id) (PERCENT :: h :: l :: text).

Lemma digit_of_char c d : digit_of 16 c = Some d -> 0 <= d < 16 /\ (48 <= c <= 57 \/ 65 <= c <= 70 \/ 97 <= c <= 102).
Proof. unfold digit_of. intros Hd. repeat case_match; simplify_eq; reflect; lia. Qed.

Lemma u8_from_hex_pair h l b : 0 <= b < 128 -> digit_of 16 h = Some (b / 16) -> digit_of 16 l = Some (b mod 16) -> u8_from_hex [h; l] = Some b.
Proof.
  intros Hb Hh Hl. pose proof (digit_of_char _ _ Hh) as [_ Hr].
  assert (u8_from_hex [h; l] = hex_digits 0 [h; l]) as ->.
  { unfold u8_from_hex. repeat (case_match; try done); lia. }
  cbn [hex_digits]. rewrite Hh, Hl. cbn zeta. pose proof (Z.mod_pos_bound b 16 ltac:(lia)).
  pose proof (Z.div_mod b 16 ltac:(lia)). rewrite (proj2 (Z.leb_le _ _)) by lia. rewrite (proj2 (Z.leb_le _ _)) by lia. f_equal. lia.
Qed.

Lemma spells_front id text : spells id text -> is_char_boundary text 0 = true.
Proof.
  destruct 1 as [|b id text Hn Hb Hs|b h l id text Hb Hh Hl Hs]; [done| |done].
  unfold is_char_boundary. cbn. apply negb_true_iff, andb_false_iff. left. apply Z.leb_gt. lia.
Qed.

Lemma percent_decode_spelling id text : spells id text -> percent_decode text = id.
Proof.
  induction 1 as [|b id text Hn Hb Hs IH|b h l id text Hb Hh Hl Hs IH]; [done| |].
  - assert (percent_decode (b :: text) = push_char b ++ percent_decode text) as ->.
    { cbn [percent_decode]. rewrite (proj2 (Z.eqb_neq b PERCENT)) by done. by destruct text as [|h [|l text]]. }
    rewrite IH. unfold push_char. by rewrite (proj2 (Z.ltb_lt b 128)) by lia.
  - cbn [percent_decode]. pose proof (digit_of_char _ _ Hh) as [_ Hr].
    assert (is_char_boundary (h :: l :: text) 0 = true) as ->.
    { unfold is_char_boundary. cbn. apply negb_true_iff, andb_false_iff. left. apply Z.leb_gt. lia. }
    change (is_char_boundary (h :: l :: text) 2) with (is_char_boundary text 0). rewrite (spells_front id) by done. cbn [andb].
    change (PERCENT =? PERCENT) with true. cbn [andb].
    rewrite (u8_from_hex_pair h l b), IH by done. unfold push_char. by rewrite (proj2 (Z.ltb_lt b 128)) by lia.
Qed.

(** A visible character that neither ends nor quotes an identifier. *)
Definition id_char (b : Z) : Prop := 33 <= b < 127 /\ b <> QUOTE /\ b <> EQUALS.

(** [h3], or one of its drafts, in any case. *)
Definition h3_token (id : bytes) : bool :=
  bool_decide ((to_ascii_lowercase <$> id) = text_of "h3") || starts_with (text_of "h3-") (to_ascii_lowercase <$> id).

Lemma spells_id_char id text : Forall id_char id -> spells id text -> Forall id_char text.
Proof.
  intros Hid Hs. revert Hid. induction Hs as [|b id text Hn Hb Hs IH|b h l id text Hb Hh Hl Hs IH]; [done| |];
    intros [Hc Hid]%Forall_cons; [constructor; auto|].
  apply digit_of_char in Hh as [_ Hh]. apply digit_of_char in Hl as [_ Hl].
  assert (forall c, 48 <= c <= 57 \/ 65 <= c <= 70 \/ 97 <= c <= 102 \/ c = PERCENT -> id_char c) as Hok
    by (unfold id_char, QUOTE, EQUALS, PERCENT; lia).
  repeat constructor; try (apply Hok; tauto). auto.
Qed.

Lemma strip_leading_none c bs : c ∉ bs -> strip_leading c bs = bs.
Proof. destruct bs as [|b bs]; [done|]. intros [Hb _]%not_elem_of_cons. cbn. by rewrite (proj2 (Z.eqb_neq b c)) by congruence. Qed.

Lemma trim_matches_none c bs : c ∉ bs -> trim_matches c bs = bs.
Proof.
  intros Hc. unfold trim_matches, trim_end_char. rewrite (strip_leading_none c bs) by done.
  rewrite strip_leading_none by (by rewrite elem_of_reverse). by rewrite reverse_involutive.
Qed.

Lemma trim_end_char_prefix c bs : trim_end_char c bs `prefix_of` bs.
Proof.
  unfold trim_end_char. rewrite <- (reverse_involutive bs) at 2. generalize (reverse bs). intros l.
  induction l as [|x l IH]; [done|]. cbn [strip_leading]. destruct (x =? c); [|done]. rewrite reverse_cons. by apply prefix_app_r.
Qed.

Lemma trim_end_char_last c bs front : trim_end_char c bs <> front ++ [c].
Proof.
  unfold trim_end_char. intros E. apply (f_equal reverse) in E. rewrite reverse_involutive, reverse_app in E. cbn in E.
  revert E. generalize (reverse bs). intros l. induction l as [|x l IH]; [done|]. cbn [strip_leading].
  destruct (x =? c) eqn:Ex; [done|]. intros [= -> _]. by rewrite Z.eqb_refl in Ex.
Qed.

Lemma trim_no_ws bs : ascii bs -> Forall (fun b => is_ws b = false) bs -> trim bs = bs.
Proof.
  intros Ha Hw. unfold trim. assert (trim_start bs = bs) as ->; [|by apply trim_end_no_ws].
  destruct Hw as [|b bs Hb Hw]; [done|]. rewrite trim_start_ascii by exact Ha. by rewrite Hb.
Qed.

(** An alternative is recognised by its identifier, however that is spelled. *)
Lemma advertises_spelling id text authority : Forall id_char id -> spells id text ->
  advertises_h3 (text ++ EQUALS :: authority) = h3_token id.
Proof.
  intros Hid Hs. pose proof (spells_id_char _ _ Hid Hs) as Ht. unfold advertises_h3.
  assert (forall c, ~ id_char c -> c ∉ text) as Hn by (intros c Hc Hin; rewrite Forall_forall in Ht; auto).
  rewrite split_char_app by (apply Hn; unfold id_char; tauto). cbn [head default].
  rewrite trim_no_ws; [|by eapply Forall_impl; [exact Ht|]; unfold id_char; intros; lia|].
  - rewrite trim_matches_none by (apply Hn; unfold id_char; tauto). rewrite (percent_decode_spelling id) by done. done.
  - eapply Forall_impl; [exact Ht|]. unfold id_char, is_ws. intros b [Hb _].
    rewrite (proj2 (Z.leb_gt b 13)), (proj2 (Z.eqb_neq b 32)) by lia. by rewrite andb_false_r.
Qed.

(** * Header maps, iterated *)

(** [drain] yields a name only for the first value of a repeated field; [header_name]
    is [HeaderName::from_bytes], which folds a name to lower case. *)
Class HeaderEntries (H : Type) := {
  keys : H -> list bytes;
  drain : H -> list (option bytes * bytes);
  no_headers : H;
  header_name : bytes -> option bytes;
}.

Definition field_entries (name : bytes) (values : list bytes) : list (option bytes * bytes) :=
  match values with [] => [] | value :: values => (Some name, value) :: ((None,.) <$> values) end.

Class HeaderEntriesLaws (H : Type) `{HttpHeaders H, HeaderEntries H} : Prop := {
  keys_spec h name : name ∈ keys h <-> get_all h name <> [];
  keys_nodup h : NoDup (keys h);
  drain_spec h : drain h = keys h ≫= fun name => field_entries name (get_all h name);
  get_all_none name : get_all no_headers name = [];
}.

Definition CONNECTION : bytes := text_of "connection".
Definition UPGRADE : bytes := text_of "upgrade".
Definition HOST : bytes := text_of "host".

Definition HOP_BY_HOP : list bytes :=
  [text_of "keep-alive"; text_of "proxy-authenticate"; text_of "proxy-authorization"; text_of "te"; text_of "trailer";
   text_of "transfer-encoding"].

Inductive Handling := Ordinary | Upgrade.
#[global] Instance Handling_eq_dec : EqDecision Handling.
Proof. solve_decision. Defined.

Section Fields.
Context {H : Type} `{HttpHeaders H, HeaderEntries H}.

(** [headers.insert] after [headers.remove]. *)
Definition steer_response (headers : H) : H :=
  let replace value := append (remove headers ALT_SVC) ALT_SVC value in
  match steer_alt_svc (omap to_str (get_all headers ALT_SVC)) with
  | Untouched => headers
  | Cleared => replace ALT_SVC_CLEAR
  | Narrowed kept => replace (default ALT_SVC_CLEAR (from_str kept))
  end.

(** The tokens of the [Connection] fields. *)
Definition connection_tokens (headers : H) : list bytes := omap to_str (get_all headers CONNECTION) ≫= split_char COMMA.

Definition contains_key (headers : H) (name : bytes) : bool := bool_decide (get_all headers name <> []).

Definition handling (headers : H) : Handling :=
  if existsb (fun token => eq_ignore_ascii_case (trim token) (text_of "upgrade")) (connection_tokens headers) && contains_key headers UPGRADE
  then Upgrade else Ordinary.

(** The fields [Connection] nominates, but for the upgrade token on an upgrade. *)
Definition nominated (headers : H) (handling : Handling) : list bytes :=
  omap header_name
    (filter (fun token => handling = Ordinary \/ eq_ignore_ascii_case token (text_of "upgrade") = false) (trim <$> connection_tokens headers)).

Definition discard (headers : H) (handling : Handling) (name : bytes) : bool :=
  bool_decide (name ∈ HOP_BY_HOP) || (bool_decide (handling = Ordinary) && bool_decide (name = CONNECTION \/ name = UPGRADE)) ||
  bool_decide (name ∈ nominated headers handling).

Fixpoint strip_entries (discard : bytes -> bool) (entries : list (option bytes * bytes)) (keeping : option bytes) (kept : H) : H :=
  match entries with
  | [] => kept
  | (name, value) :: entries =>
      let keeping := match name with Some name => if discard name then None else Some name | None => keeping end in
      strip_entries discard entries keeping (match keeping with Some name => append kept name value | None => kept end)
  end.

Definition strip_hop_by_hop (headers : H) (handling : Handling) : H :=
  let discard := discard headers handling in
  if negb (existsb discard (keys headers)) then headers
  else strip_entries discard (drain headers) None no_headers.
End Fields.

(** ** Exactly the hop-by-hop fields go *)

Section Strip.
Context {H : Type} `{HttpHeaders H, HeaderEntries H, !HttpHeadersLaws H, !HeaderEntriesLaws H}.

Lemma strip_entries_field discard name values rest keeping (kept : H) :
  values <> [] ->
  exists keeping', strip_entries discard (field_entries name values ++ rest) keeping kept =
    strip_entries discard rest keeping' (if discard name then kept else foldl (fun kept value => append kept name value) kept values).
Proof.
  destruct values as [|value values]; [done|]. intros _. cbn [field_entries app strip_entries].
  destruct (discard name); cbn [foldl].
  - exists None. induction values as [|v values IH]; [done|]. done.
  - exists (Some name). generalize (append kept name value). induction values as [|v values IH]; intros kept'; [done|]. cbn. apply IH.
Qed.

Lemma strip_entries_get discard (h : H) ks name : NoDup ks -> (forall k, k ∈ ks -> get_all h k <> []) -> forall keeping kept,
  get_all (strip_entries discard (ks ≫= fun k => field_entries k (get_all h k)) keeping kept) name =
  get_all kept name ++ (if bool_decide (name ∈ ks) && negb (discard name) then get_all h name else []).
Proof.
  intros Hnd Hne. induction Hnd as [|k ks Hk Hnd IH]; intros keeping kept; [by rewrite app_nil_r|].
  rewrite bind_cons. destruct (strip_entries_field discard k (get_all h k) (ks ≫= fun k => field_entries k (get_all h k)) keeping kept) as [keeping' ->].
  { apply Hne. set_solver. }
  rewrite IH by set_solver. destruct (decide (name = k)) as [->|Hn].
  - rewrite (bool_decide_false (k ∈ ks)), (bool_decide_true (k ∈ k :: ks)) by set_solver. cbn [andb]. rewrite app_nil_r.
    destruct (discard k); [by rewrite app_nil_r|]. by rewrite get_all_appends, bool_decide_true.
  - assert (bool_decide (name ∈ k :: ks) = bool_decide (name ∈ ks)) as -> by (apply bool_decide_ext; set_solver).
    destruct (discard k); [done|]. by rewrite get_all_appends, bool_decide_false by done.
Qed.

Lemma strip_exact (h : H) handling name :
  get_all (strip_hop_by_hop h handling) name = if discard h handling name then [] else get_all h name.
Proof.
  unfold strip_hop_by_hop. cbn zeta. destruct (existsb _ _) eqn:E; cbn [negb].
  - rewrite drain_spec, strip_entries_get by (apply keys_nodup || (intros k; apply keys_spec)). rewrite get_all_none. cbn [app].
    destruct (discard h handling name); [by rewrite andb_false_r|]. rewrite andb_true_r.
    case_bool_decide as Hk; [done|]. rewrite keys_spec in Hk. destruct (get_all h name); [done|]. by destruct Hk.
  - destruct (discard h handling name) eqn:Ed; [|done]. destruct (decide (get_all h name = [])) as [|Hne]; [done|].
    apply keys_spec in Hne. assert (existsb (discard h handling) (keys h) = true); [|congruence].
    apply existsb_exists. exists name. split; [by apply list_elem_of_In|done].
Qed.
End Strip.

(** ** Steering a response *)

(** Alternatives whose quotes are closed and that name an authority. *)
Definition wellformed (value : bytes) : Prop :=
  closed value = true /\ Forall (fun alternative => EQUALS ∈ alternative) (alternatives [value]).

Lemma join_text_in sep parts part b : part ∈ parts -> b ∈ part -> b ∈ join_text sep parts.
Proof.
  induction parts as [|p parts IH]; [set_solver|]. intros [->|Hp]%elem_of_cons Hb.
  - destruct parts; cbn; set_solver.
  - destruct parts as [|p' parts]; [set_solver|].
    change (join_text sep (p :: p' :: parts)) with (p ++ sep ++ join_text sep (p' :: parts)). rewrite !elem_of_app. eauto.
Qed.

Lemma clear_has_no_equals value : ascii value -> eq_ignore_ascii_case (trim value) ALT_SVC_CLEAR = true -> EQUALS ∉ trim value.
Proof.
  intros Ha He%bool_decide_eq_true Hin. apply (list_elem_of_fmap_2 to_ascii_lowercase) in Hin. rewrite He in Hin.
  revert Hin. apply (bool_decide_unpack _). by vm_compute.
Qed.

Lemma filter_all {A} (P : A -> Prop) `{!forall x, Decision (P x)} (l : list A) : (forall x, x ∈ l -> P x) -> filter P l = l.
Proof. induction l as [|x l IH]; intros Hl; [done|]. rewrite filter_cons_True by (apply Hl; set_solver). f_equal. apply IH. set_solver. Qed.

Lemma trim_keeps value b : ascii value -> is_ws b = false -> b ∈ value -> b ∈ trim value.
Proof.
  intros Ha Hb Hin. unfold trim. assert (b ∈ trim_start value) as Hs.
  { induction value as [|x value IH]; [done|]. rewrite trim_start_ascii by done. destruct (is_ws x) eqn:E; [|done].
    apply Forall_cons in Ha as [_ Ha]. apply elem_of_cons in Hin as [->|Hin]; [congruence|auto]. }
  assert (ascii (trim_start value)) as Hta.
  { destruct (trim_start_suffix value Ha) as [[pre Hp] _]. rewrite Hp in Ha. by apply Forall_app in Ha as [_ Ha]. }
  revert Hs Hta. generalize (trim_start value). clear Hin Ha. intros bs. induction bs as [|x bs IH]; [done|]. intros Hin Ha.
  rewrite trim_end_cons. destruct (trim_start (x :: bs)) eqn:E.
  - apply trim_start_empty in E; [|done]. rewrite Forall_forall in E. apply E in Hin. congruence.
  - apply Forall_cons in Ha as [_ Ha]. apply elem_of_cons in Hin as [->|Hin]; [by left|right; auto].
Qed.

Section Steer.
Context {H : Type} `{HttpHeaders H, !HttpHeadersLaws H}.

(** What the readable [Alt-Svc] fields offer. *)
Definition offered (headers : H) : list bytes := alternatives (omap to_str (get_all headers ALT_SVC)).

Lemma readable_visible (headers : H) name value : value ∈ omap to_str (get_all headers name) -> Forall visible value.
Proof. rewrite omap_to_str. by intros [Hv _]%list_elem_of_filter. Qed.

Lemma offered_ok (headers : H) : Forall (fun value => closed value = true) (omap to_str (get_all headers ALT_SVC)) ->
  Forall alternative_ok (offered headers).
Proof.
  intros Hc. apply Forall_forall. intros a (value & Ha & Hin)%list_elem_of_bind. case_match; [by apply not_elem_of_nil in Ha|].
  rewrite Forall_forall in Hc. assert (Forall alternative_ok (alt_values value)) as Hok; [|rewrite Forall_forall in Hok; by apply Hok].
  apply alt_values_ok; [by eapply visible_ascii, readable_visible|by apply Hc].
Qed.

Lemma offered_visible (headers : H) a : a ∈ offered headers -> Forall visible a.
Proof.
  intros (value & Ha & Hin)%list_elem_of_bind. case_match; [by apply not_elem_of_nil in Ha|].
  apply list_elem_of_filter in Ha as [_ (piece & -> & Hp)%list_elem_of_fmap]. pose proof (readable_visible _ _ _ Hin) as Hv.
  pose proof (alt_split_sub value false false) as Hs. rewrite Forall_forall in Hs. rewrite Forall_forall in Hv. apply Forall_forall. intros b Hb.
  apply Hv, (Hs piece Hp). apply trim_sub; [|done]. apply visible_ascii, Forall_forall. intros c Hc. apply Hv. by apply (Hs piece).
Qed.

Lemma steer_get (headers : H) name : name <> ALT_SVC -> get_all (steer_response headers) name = get_all headers name.
Proof.
  intros Hn. unfold steer_response. cbn zeta. destruct (steer_alt_svc _); [done| |];
    rewrite get_all_append, get_all_remove, !bool_decide_false; done.
Qed.

Lemma steer_replaced (headers : H) value : Forall visible value ->
  offered (append (remove headers ALT_SVC) ALT_SVC value) = alternatives [value].
Proof.
  intros Hv. unfold offered. rewrite get_all_append, get_all_remove, !bool_decide_true by done. cbn [app omap list_omap].
  by rewrite to_str_spec, bool_decide_true.
Qed.

Lemma narrowed_visible (headers : H) kept : (forall a, a ∈ kept -> a ∈ offered headers) -> Forall visible (join_text (text_of ", ") kept).
Proof.
  intros Hk. apply Forall_forall. intros b [Hb|(a & Ha & Hb)]%join_text_sub.
  - revert b Hb. apply Forall_forall. by apply (bool_decide_unpack _); vm_compute.
  - apply Hk, offered_visible in Ha. rewrite Forall_forall in Ha. auto.
Qed.

(** The alternatives left are those that are not HTTP/3, unless what is left reads as a
    withdrawal, which offers nothing. *)
Lemma steer_offered (headers : H) : Forall (fun value => closed value = true) (omap to_str (get_all headers ALT_SVC)) ->
  offered (steer_response headers) = filter (fun a => advertises_h3 a = false) (offered headers) \/
  offered (steer_response headers) = [] /\ exists a, a ∈ offered headers /\ EQUALS ∉ a.
Proof.
  intros Hc. pose proof (offered_ok headers Hc) as Hok. unfold steer_response, steer_alt_svc. cbn zeta. rewrite steer_values_spec.
  fold (offered headers). cbn [app orb]. set (kept := filter _ _).
  destruct (existsb advertises_h3 (offered headers)) eqn:E.
  - destruct kept as [|a rest] eqn:Ek; [left; by rewrite steer_replaced by (by apply (bool_decide_unpack _); vm_compute)|].
    rewrite <- Ek. assert (Forall visible (join_text (text_of ", ") kept)) as Hv.
    { apply (narrowed_visible headers). by intros b [_ Hb]%list_elem_of_filter. }
    rewrite from_str_visible by done. cbn [default]. rewrite steer_replaced by done. unfold alternatives. cbn [mbind list_bind]. rewrite app_nil_r.
    assert (Forall alternative_ok kept) as Hkept.
    { rewrite Forall_forall in Hok. apply Forall_forall. intros b [_ Hb]%list_elem_of_filter. by apply Hok. }
    destruct (eq_ignore_ascii_case _ _) eqn:Ec; [|left; by apply alt_values_join].
    right. split; [done|]. exists a. assert (a ∈ kept) as Ha by (rewrite Ek; set_solver).
    split; [by apply list_elem_of_filter in Ha as [_ Ha]|]. intros Hin. apply visible_ascii in Hv as Hva.
    apply (clear_has_no_equals _ Hva Ec).
    pose proof (join_text_in (text_of ", ") kept a EQUALS Ha Hin) as Hj. by apply trim_keeps.
  - left. subst kept. symmetry. apply filter_all. intros a Ha. destruct (advertises_h3 a) eqn:Eh; [|done].
    assert (existsb advertises_h3 (offered headers) = true); [|congruence]. apply existsb_exists. exists a. split; [by apply list_elem_of_In|done].
Qed.
End Steer.

(** C8: Steering withdraws exactly the HTTP/3 alternatives of a response.  Where the quotes
    of every readable [Alt-Svc] field are closed and every alternative names an
    authority, the fields read back afterwards offer the alternatives that are not
    HTTP/3, in the order they had; none of them is any spelling, in any case and with any
    of its characters percent-encoded, of [h3] or one of its drafts; no other field
    changes, and a response that offers no HTTP/3 is not touched. *)
Theorem steering_exact {H : Type} `{HttpHeaders H, !HttpHeadersLaws H} (headers : H) :
  Forall wellformed (omap to_str (get_all headers ALT_SVC)) ->
  let steered := steer_response headers in
  offered steered = filter (fun alternative => advertises_h3 alternative = false) (offered headers) /\
  (forall id text authority, Forall id_char id -> spells id text -> text ++ EQUALS :: authority ∈ offered steered -> h3_token id = false) /\
  (forall name, name <> ALT_SVC -> get_all steered name = get_all headers name) /\
  ((forall alternative, alternative ∈ offered headers -> advertises_h3 alternative = false) -> steered = headers).
Proof.
  intros Hw steered.
  assert (offered steered = filter (fun a => advertises_h3 a = false) (offered headers)) as Ho.
  { destruct (steer_offered headers) as [?|(_ & a & Ha & Hn)]; [by eapply Forall_impl; [exact Hw|by intros ? []]|done|].
    destruct Hn. apply list_elem_of_bind in Ha as (value & Ha & Hv). rewrite Forall_forall in Hw. destruct (Hw _ Hv) as [_ He].
    rewrite Forall_forall in He. apply He. unfold alternatives. cbn. by rewrite app_nil_r. }
  split_and!; [done| | |].
  - intros id text authority Hid Hs. rewrite Ho. intros [Hh _]%list_elem_of_filter. by rewrite <- (advertises_spelling id text authority).
  - apply steer_get.
  - intros Hn. unfold steered, steer_response, steer_alt_svc. cbn zeta. rewrite steer_values_spec. fold (offered headers). cbn [orb app].
    destruct (existsb advertises_h3 (offered headers)) eqn:E; [|done].
    apply existsb_exists in E as (a & Ha%list_elem_of_In & Hh). rewrite Hn in Hh by done. done.
Qed.

Definition sample_alternatives : gmap bytes (list bytes) :=
  <[CONTENT_TYPE := [text_of "text/html"]]> {[ ALT_SVC := [text_of "h3=:443, h2=alt:443, %48%33-29=:8"] ]}.

Lemma steering_exact_witness :
  let steered := @steer_response _ sample_header_map sample_alternatives in
  @offered _ sample_header_map steered = [text_of "h2=alt:443"] /\
  @get_all _ sample_header_map steered CONTENT_TYPE = [text_of "text/html"].
Proof.
  destruct (@steering_exact _ sample_header_map sample_header_map_laws sample_alternatives) as (Ho & _ & Hn & _).
  - by apply (bool_decide_unpack _); vm_compute.
  - split; [rewrite Ho; by vm_compute|rewrite Hn by done; by vm_compute].
Defined.

(** Two fields of which the first leaves a quoted string open: joined into one, the
    string that held [h3] is closed before it and the alternative is offered after all.
    A client that combines the fields before reading them, as RFC 9110 lets it, saw it
    offered in the first place. *)
Example open_quotes :
  let values := [text_of "h3=1, x=" ++ [QUOTE]; text_of "y=" ++ QUOTE :: text_of ", h3=1, " ++ [QUOTE]] in
  exists kept, steer_alt_svc values = Narrowed kept /\ existsb advertises_h3 (alternatives [kept]) = true.
Proof. eexists. split; vm_compute; reflexivity. Qed.

(** * The proxy *)

(** [rsplit_once]: what is before the last separator, when there is one. *)
Definition before_last (c : Z) (bs : bytes) : bytes :=
  match byte_position c (reverse bs) with Some after => take (length bs - S after) bs | None => bs end.

(** [VersionCrossings::record]; the counter is a 64-bit word. *)
Definition record_crossing (count : Z) (client upstream : HttpWire) : bool * Z :=
  let crossed := bool_decide (client <> upstream) in
  (crossed, if crossed then wrap 64 (count + 1) else count).

Inductive FilterVerdict := Allow | Block.
#[global] Instance FilterVerdict_eq_dec : EqDecision FilterVerdict.
Proof. solve_decision. Defined.

Definition FORBIDDEN : Z := 403.
Definition BAD_GATEWAY : Z := 502.
Definition MISDIRECTED_REQUEST : Z := 421.
Definition SWITCHING_PROTOCOLS : Z := 101.

Section Proxy.
Context {H E B R : Type} `{HttpHeaders H, HeaderEntries H, Encodings E, Styling}.

(** A request: the host of its target, its headers, and the method, path and body the
    proxy passes on as they are. *)
Record HttpRequest := mkHttpRequest { hq_target : option bytes; hq_headers : H; hq_rest : R }.

Inductive ProxyBody := EmptyBody | ForwardedBody (body : B) | RewrittenBody (body : B) (rewritable : Rewritable E) (inject : bool).

(** An upstream response has a body; the client's may also be synthetic or rewritten. *)
Record HttpResponse (Body : Type) := mkHttpResponse { hs_status : Z; hs_headers : H; hs_body : Body }.

Definition synthetic (status : Z) : HttpResponse ProxyBody := mkHttpResponse _ status no_headers EmptyBody.
Definition blocked : HttpResponse ProxyBody := synthetic FORBIDDEN.
Definition bad_gateway : HttpResponse ProxyBody := synthetic BAD_GATEWAY.
Definition misdirected : HttpResponse ProxyBody := synthetic MISDIRECTED_REQUEST.

Definition requested_host (request : HttpRequest) : option bytes :=
  named ← match hq_target request with
          | Some host => Some host
          | None => value ← head (get_all (hq_headers request) HOST); to_str value
          end;
  let host :=
    match strip_prefix [91] named with
    | Some literal => default [] (head (split_char 93 literal))
    | None => before_last COLON named
    end in
  Some (trim_end_char DOT host).

(** [Rewriting]: the element-hiding rules of a host, when bodies are rewritten at all. *)
Inductive Rewriting := RewritingOff | RewritingOn (source : bytes -> option HidingRules).

Definition Rewriting_rules (r : Rewriting) (host : bytes) : option HidingRules :=
  match r with RewritingOff => None | RewritingOn source => source host end.

(** What a connection fixes ... *)
Record Proxy := mkProxy {
  px_host : bytes;
  px_filter : bytes -> HttpRequest -> FilterVerdict;
  px_wires : HttpWire * HttpWire;
  px_rewriting : Rewriting;
}.

(** ... and what its streams share: the version crossings, the upgrade a 101 left for
    after the exchange, by its stream, and whether the upstream has answered once. *)
Record Shared := mkShared { sh_crossings : Z; sh_upgrade : option nat; sh_served : bool }.

(** [forward] up to the await: an answer, or a request for the upstream. *)
Inductive Begun := Answered (response : HttpResponse ProxyBody) | Sending (handling : Handling) (request : HttpRequest).

Definition forward_begin (p : Proxy) (s : Shared) (request : HttpRequest) : Begun * Shared :=
  if match requested_host request with Some host => negb (eq_ignore_ascii_case host (px_host p)) | None => false end
  then (Answered misdirected, s)
  else if bool_decide (px_filter p (px_host p) request = Block) then (Answered blocked, s)
  else
    let handling := handling (hq_headers request) in
    let headers := strip_hop_by_hop (hq_headers request) handling in
    let '(_, crossings) := record_crossing (sh_crossings s) (px_wires p).1 (px_wires p).2 in
    (Sending handling (mkHttpRequest (hq_target request) headers (hq_rest request)), mkShared crossings (sh_upgrade s) (sh_served s)).

(** An answer to the client, or the error that closes its connection. *)
Inductive Reply := Replied (response : HttpResponse ProxyBody) | ConnectionAborted.

(** The shape of an ordinary response. *)
Definition shape_response (p : Proxy) (response : HttpResponse B) : Res Empty_set (HttpResponse ProxyBody) :=
  let headers := steer_response (strip_hop_by_hop (hs_headers _ response) Ordinary) in
  applied ← Rewriting_apply (Rewriting_rules (px_rewriting p) (px_host p)) (hs_status _ response) headers;
  Ok match applied with
     | None => mkHttpResponse _ (hs_status _ response) headers (ForwardedBody (hs_body _ response))
     | Some (headers, rewritable, inject) =>
         mkHttpResponse _ (hs_status _ response) headers (RewrittenBody (hs_body _ response) rewritable inject)
     end.

(** [forward] from the upstream's answer on; [None] is its failure. *)
Definition forward_end (p : Proxy) (s : Shared) (stream : nat) (handling : Handling) (outcome : option (HttpResponse B))
    : Res Empty_set (Reply * Shared) :=
  match outcome with
  | None => Ok (if sh_served s then ConnectionAborted else Replied bad_gateway, s)
  | Some response =>
      if bool_decide (handling = Upgrade) && (hs_status _ response =? SWITCHING_PROTOCOLS) then
        Ok (Replied (mkHttpResponse _ (hs_status _ response) (hs_headers _ response) (ForwardedBody (hs_body _ response))),
            mkShared (sh_crossings s) (Some stream) true)
      else
        reply ← shape_response p response;
        Ok (Replied reply, mkShared (sh_crossings s) (sh_upgrade s) true)
  end.

(** ** The streams of a connection *)

Inductive Event := Arrive (stream : nat) (request : HttpRequest) | Outcome (stream : nat) (outcome : option (HttpResponse B)).
Inductive Effect := ToUpstream (stream : nat) (request : HttpRequest) | ToClient (stream : nat) (reply : Reply).

(** The streams that await the upstream, with how their request is handled. *)
Record Exchange := mkExchange { ex_shared : Shared; ex_waiting : gmap nat Handling }.

Definition Exchange_new (crossings : Z) : Exchange := mkExchange (mkShared crossings None false) ∅.

Definition exchange_step (p : Proxy) (ex : Exchange) (event : Event) : Res Empty_set (list Effect * Exchange) :=
  match event with
  | Arrive stream request =>
      match forward_begin p (ex_shared ex) request with
      | (Answered response, shared) => Ok ([ToClient stream (Replied response)], mkExchange shared (ex_waiting ex))
      | (Sending handling request, shared) =>
          Ok ([ToUpstream stream request], mkExchange shared (<[stream := handling]> (ex_waiting ex)))
      end
  | Outcome stream outcome =>
      match ex_waiting ex !! stream with
      | None => Ok ([], ex)
      | Some handling =>
          '(reply, shared) ← forward_end p (ex_shared ex) stream handling outcome;
          Ok ([ToClient stream reply], mkExchange shared (delete stream (ex_waiting ex)))
      end
  end.

Fixpoint exchange_run (p : Proxy) (ex : Exchange) (events : list Event) : Res Empty_set (list Effect * Exchange) :=
  match events with
  | [] => Ok ([], ex)
  | event :: events =>
      '(effects, ex) ← exchange_step p ex event;
      '(more, ex) ← exchange_run p ex events;
      Ok (effects ++ more, ex)
  end.

(** How [run_exchange] ends once the client leg has: with the result of the leg and the
    upstream driver stopped, or with the upgraded streams spliced. *)
Inductive Ending := Finished (result : bool) | SpliceUpgrade (stream : nat).

Definition run_exchange_end (p : Proxy) (ex : Exchange) (result : bool) : Ending :=
  match (px_wires p).1 with
  | Http1 =>
      match sh_upgrade (ex_shared ex) with
      | None => Finished result
      | Some stream => if result then SpliceUpgrade stream else Finished false
      end
  | Http2 => Finished result
  end.
End Proxy.
Arguments HttpRequest : clear implicits.
Arguments HttpResponse : clear implicits.
Arguments Proxy : clear implicits.
Arguments hs_status {H Body}.
Arguments hs_headers {H Body}.
Arguments hs_body {H Body}.

(** ** What leaves the proxy *)

Section ProxyTheory.
Context {H E B R : Type} `{HttpHeaders H, HeaderEntries H, !HttpHeadersLaws H, !HeaderEntriesLaws H, Encodings E, Styling, !StylingLaws}.
Context (p : Proxy H R _).

(** The request names the host of the connection, or none. *)
Definition for_host (request : HttpRequest H R) : bool :=
  match requested_host request with Some host => eq_ignore_ascii_case host (px_host p) | None => true end.

(** A request as it is sent on: without its hop-by-hop fields, and otherwise the same. *)
Definition forwarded_as (request sent : HttpRequest H R) : Prop :=
  hq_target sent = hq_target request /\ hq_rest sent = hq_rest request /\
  forall name, get_all (hq_headers sent) name =
    if discard (hq_headers request) (handling (hq_headers request)) name then [] else get_all (hq_headers request) name.

(** A response as it is passed on: no hop-by-hop field and, where the quotes of its
    alternatives are closed, no HTTP/3; fields the rewriter does not own are the same. *)
Record shaped (upstream : HttpResponse H B) (reply : HttpResponse H (@ProxyBody E B)) : Prop := {
  sd_status : hs_status reply = hs_status upstream;
  sd_hop name : discard (hs_headers upstream) Ordinary name = true -> get_all (hs_headers reply) name = [];
  sd_h3 : Forall (fun value => closed value = true) (omap to_str (get_all (hs_headers upstream) ALT_SVC)) ->
    forall alternative, alternative ∈ offered (hs_headers reply) -> advertises_h3 alternative = false;
  sd_same name : name ∉ [ALT_SVC; CSP; CONTENT_LENGTH; CONTENT_ENCODING] -> discard (hs_headers upstream) Ordinary name = false ->
    get_all (hs_headers reply) name = get_all (hs_headers upstream) name;
}.

(** Applying the rules changes only the fields the rewriter owns, and adds none. *)
Lemma apply_headers rules status (headers : H) :
  (forall r, rules = Some r -> exists selectors, HidingRules_compile selectors = Some r) ->
  exists applied, Rewriting_apply (E := E) rules status headers = Ok applied /\
  match applied with
  | None => True
  | Some (headers', _, _) =>
      (forall name, name ∉ [CSP; CONTENT_LENGTH; CONTENT_ENCODING] -> get_all headers' name = get_all headers name) /\
      (forall name, get_all headers name = [] -> get_all headers' name = [])
  end.
Proof.
  intros Hr. destruct rules as [rules|]; [|by exists None]. destruct (Hr rules eq_refl) as [selectors Hc].
  destruct (compiled_source _ _ Hc) as (Hv & Hw & Hb). unfold Rewriting_apply.
  pose proof (rewritable_total (E := E) status headers) as Hp.
  destruct (rewritable status headers) as [rw|why|]; [|by exists None|done].
  destruct (relax_policy_spec headers (hr_source rules) Hv Hw Hb) as (inject & headers' & -> & Hother & Hnone & _).
  cbn [mbind Res_bind]. eexists. split; [done|]. cbn zeta iota.
  assert (forall name, get_all headers name = [] -> get_all headers' name = []) as He.
  { intros name Hn. destruct (decide (name = CSP)) as [->|]; [|by rewrite Hother]. destruct Hnone as [_ ->]; [|done]. by rewrite Hn. }
  split; intros name Hn; case_bool_decide; rewrite !get_all_remove; repeat case_bool_decide; subst; try done; try (by apply He);
    try (by apply Hother; set_solver); set_solver.
Qed.

Lemma shape_ok upstream : (forall r, Rewriting_rules (px_rewriting p) (px_host p) = Some r -> exists selectors, HidingRules_compile selectors = Some r) ->
  exists reply, shape_response (E := E) p upstream = Ok reply /\ shaped upstream reply.
Proof.
  intros Hr. unfold shape_response. cbn zeta. set (stripped := strip_hop_by_hop (hs_headers upstream) Ordinary).
  assert (forall name, get_all stripped name = if discard (hs_headers upstream) Ordinary name then [] else get_all (hs_headers upstream) name) as Hst
    by (intros; apply strip_exact).
  assert (forall name, get_all stripped name = [] -> get_all (steer_response stripped) name = []) as Hse.
  { intros name Hn. destruct (decide (name = ALT_SVC)) as [->|]; [|by rewrite steer_get]. unfold steer_response. by rewrite Hn. }
  assert (Forall (fun value => closed value = true) (omap to_str (get_all (hs_headers upstream) ALT_SVC)) ->
    forall a, a ∈ offered (steer_response stripped) -> advertises_h3 a = false) as Hh3.
  { intros Hc. assert (Forall (fun value => closed value = true) (omap to_str (get_all stripped ALT_SVC))) as Hc'.
    { rewrite Hst. by destruct (discard _ _ _). }
    destruct (steer_offered stripped Hc') as [->|[-> _]]; [by intros a [? _]%list_elem_of_filter|by intros a ?%not_elem_of_nil]. }
  destruct (apply_headers _ (hs_status upstream) (steer_response stripped) Hr) as (applied & -> & Hap). cbn [mbind Res_bind].
  eexists. split; [done|]. destruct applied as [[[headers' rw] inject]|]; [destruct Hap as [Hk He]|].
  - split; cbn; [done| | |].
    + intros name Hd. apply He, Hse. by rewrite Hst, Hd.
    + intros Hc a. unfold offered. rewrite Hk by (apply (bool_decide_unpack _); by vm_compute). by apply Hh3.
    + intros name Hn Hd. rewrite Hk, steer_get, Hst, Hd by set_solver. done.
  - split; cbn; [done| |done|].
    + intros name Hd. apply Hse. by rewrite Hst, Hd.
    + intros name Hn Hd. rewrite steer_get, Hst, Hd by set_solver. done.
Qed.

Abbreviation Events := (list (@Event H B R)).
Abbreviation Log := (list (@Effect H E B R)).

(** A request that may reach the upstream. *)
Definition admissible (events : Events) (stream : nat) (request : HttpRequest H R) : Prop :=
  Arrive stream request ∈ events /\ for_host request = true /\ px_filter p (px_host p) request = Allow.

(** Why the client is given a reply on a stream. *)
Inductive replies (events : Events) (stream : nat) : @Reply H E B -> Prop :=
| replies_misdirected request : Arrive stream request ∈ events -> for_host request = false -> replies events stream (Replied misdirected)
| replies_blocked request : Arrive stream request ∈ events -> px_filter p (px_host p) request = Block -> replies events stream (Replied blocked)
| replies_gateway : Outcome stream None ∈ events -> replies events stream (Replied bad_gateway)
| replies_aborted stream' upstream : Outcome stream None ∈ events -> Outcome stream' (Some upstream) ∈ events -> replies events stream ConnectionAborted
| replies_upgraded request upstream : admissible events stream request -> handling (hq_headers request) = Upgrade ->
    Outcome stream (Some upstream) ∈ events -> hs_status upstream = SWITCHING_PROTOCOLS ->
    replies events stream (Replied (mkHttpResponse _ (hs_status upstream) (hs_headers upstream) (ForwardedBody (hs_body upstream))))
| replies_shaped upstream reply : Outcome stream (Some upstream) ∈ events -> shaped upstream reply -> replies events stream (Replied reply).

Definition justified (events : Events) (effect : @Effect H E B R) : Prop :=
  match effect with
  | ToUpstream stream sent => exists request, admissible events stream request /\ forwarded_as request sent
  | ToClient stream reply => replies events stream reply
  end.

Definition arrivals (events : Events) : list nat := omap (fun e => match e with Arrive stream _ => Some stream | _ => None end) events.
Definition sent_count (log : Log) : Z := Z.of_nat (length (omap (fun e => match e with ToUpstream _ _ => Some tt | _ => None end) log)).
(** The streams replied to, in order and as often as they were. *)
Definition replied (log : Log) : list nat := omap (fun e => match e with ToClient stream _ => Some stream | _ => None end) log.

Definition crossed (log : Log) : Z := if bool_decide ((px_wires p).1 <> (px_wires p).2) then sent_count log else 0.

Record exchange_inv (crossings : Z) (ex : Exchange) (events : Events) (log : Log) : Prop := {
  xi_log : Forall (justified events) log;
  xi_waiting stream hand : ex_waiting ex !! stream = Some hand ->
    exists request, admissible events stream request /\ hand = handling (hq_headers request);
  xi_served : sh_served (ex_shared ex) = true -> exists stream upstream, Outcome stream (Some upstream) ∈ events;
  xi_upgrade stream : sh_upgrade (ex_shared ex) = Some stream -> exists request upstream, admissible events stream request /\
    handling (hq_headers request) = Upgrade /\ Outcome stream (Some upstream) ∈ events /\ hs_status upstream = SWITCHING_PROTOCOLS;
  xi_crossings : sh_crossings (ex_shared ex) = wrap 64 (crossings + crossed log);
  xi_once : NoDup (arrivals events) -> replied log ++ (map_to_list (ex_waiting ex)).*1 ≡ₚ arrivals events;
}.

Lemma admissible_mono events events' stream request : (forall e, e ∈ events -> e ∈ events') ->
  admissible events stream request -> admissible events' stream request.
Proof. unfold admissible. intros Hs (? & ? & ?). auto. Qed.

Lemma justified_mono events events' effect : (forall e, e ∈ events -> e ∈ events') -> justified events effect -> justified events' effect.
Proof.
  intros Hs. destruct effect as [stream sent|stream reply]; cbn.
  - intros (request & Ha & Hq). exists request. eauto using admissible_mono.
  - destruct 1; [eapply replies_misdirected|eapply replies_blocked|eapply replies_gateway|eapply replies_aborted|eapply replies_upgraded|
      eapply replies_shaped]; eauto using admissible_mono.
Qed.

Lemma arrivals_snoc events e : arrivals (events ++ [e]) = arrivals events ++ match e with Arrive stream _ => [stream] | _ => [] end.
Proof. unfold arrivals. rewrite omap_app. by destruct e. Qed.

Lemma sent_count_app log more : sent_count (log ++ more) = sent_count log + sent_count more.
Proof. unfold sent_count. rewrite omap_app, length_app. lia. Qed.

Lemma replied_app log more : replied (log ++ more) = replied log ++ replied more.
Proof. unfold replied. by rewrite omap_app. Qed.

Lemma crossed_quiet log more : sent_count more = 0 -> crossed (log ++ more) = crossed log.
Proof. unfold crossed. rewrite sent_count_app. case_bool_decide; lia. Qed.

Lemma arrival_in events stream : stream ∈ arrivals events <-> exists request, Arrive stream request ∈ events.
Proof.
  unfold arrivals. rewrite list_elem_of_omap. split.
  - intros ([stream' request|] & Hin & Heq); simplify_eq. eauto.
  - intros [request Hin]. by exists (Arrive stream request).
Qed.

Definition crossed_by (effects : Log) : Z := if bool_decide ((px_wires p).1 <> (px_wires p).2) then sent_count effects else 0.

(** One step keeps the invariant when its own part of it holds. *)
Lemma inv_step crossings ex events log e effects shared waiting :
  exchange_inv crossings ex events log -> Forall (justified (events ++ [e])) effects ->
  (forall stream hand, waiting !! stream = Some hand -> ex_waiting ex !! stream = Some hand \/
     exists request, admissible (events ++ [e]) stream request /\ hand = handling (hq_headers request)) ->
  (sh_served shared = true -> sh_served (ex_shared ex) = true \/ exists stream upstream, Outcome stream (Some upstream) ∈ events ++ [e]) ->
  (sh_upgrade shared = sh_upgrade (ex_shared ex) \/ exists stream request upstream, sh_upgrade shared = Some stream /\
     admissible (events ++ [e]) stream request /\ handling (hq_headers request) = Upgrade /\
     Outcome stream (Some upstream) ∈ events ++ [e] /\ hs_status upstream = SWITCHING_PROTOCOLS) ->
  sh_crossings shared = wrap 64 (sh_crossings (ex_shared ex) + crossed_by effects) ->
  (NoDup (arrivals (events ++ [e])) ->
     replied effects ++ (map_to_list waiting).*1 ≡ₚ (map_to_list (ex_waiting ex)).*1 ++ arrivals [e]) ->
  exchange_inv crossings (mkExchange shared waiting) (events ++ [e]) (log ++ effects).
Proof.
  intros [Hlog Hwait Hserved Hup Hcross Hcount] Heff Hw Hs Hu Hc Hn.
  assert (forall x, x ∈ events -> x ∈ events ++ [e]) as Hsub by set_solver. split; cbn [ex_shared ex_waiting].
  - apply Forall_app. split; [|done]. eapply Forall_impl; [exact Hlog|]. intros x. by apply justified_mono.
  - intros stream hand [Hin|?]%Hw; [|done]. destruct (Hwait _ _ Hin) as (request & Ha & ->). exists request. eauto using admissible_mono.
  - intros [Hin|?]%Hs; [|done]. destruct (Hserved Hin) as (stream & upstream & Hi). eauto.
  - intros stream Hst. destruct Hu as [Hu|(stream' & request & upstream & Hu & Hrest)]; [|assert (stream' = stream) as -> by congruence; by exists request, upstream].
    rewrite Hu in Hst. destruct (Hup _ Hst) as (request & upstream & Ha & Hh & Ho & H101). exists request, upstream.
    split_and!; [by eapply admissible_mono|done|by apply Hsub|done].
  - rewrite Hc, Hcross. unfold wrap. rewrite Zplus_mod_idemp_l. f_equal. unfold crossed, crossed_by. rewrite sent_count_app. case_bool_decide; lia.
  - intros Hnd. rewrite replied_app, <- app_assoc, (Hn Hnd), app_assoc. unfold arrivals in Hnd |- *. rewrite omap_app in Hnd |- *.
    apply NoDup_app in Hnd as [Hnd _]. by rewrite (Hcount Hnd).
Qed.

Lemma wrap_same crossings log (ex : Exchange) : sh_crossings (ex_shared ex) = wrap 64 (crossings + crossed log) ->
  sh_crossings (ex_shared ex) = wrap 64 (sh_crossings (ex_shared ex) + 0).
Proof. intros ->. unfold wrap. by rewrite Z.add_0_r, Z.mod_mod by done. Qed.

Lemma inv_arrive crossings ex events log stream request :
  exchange_inv crossings ex events log ->
  exists effects ex', exchange_step (E := E) p ex (Arrive stream request) = Ok (effects, ex') /\
    exchange_inv crossings ex' (events ++ [Arrive stream request]) (log ++ effects).
Proof.
  intros Hinv. unfold exchange_step, forward_begin. pose proof (wrap_same _ _ _ (xi_crossings _ _ _ _ Hinv)) as Hquiet.
  assert (Arrive stream request ∈ events ++ [Arrive stream request]) as Hin by set_solver.
  assert (match requested_host request with Some host => negb (eq_ignore_ascii_case host (px_host p)) | None => false end = negb (for_host request)) as ->
    by (unfold for_host; by destruct (requested_host request)).
  destruct (for_host request) eqn:Eh; cbn [negb].
  2: { eexists _, _. split; [done|]. eapply inv_step; [done|constructor; [by eapply replies_misdirected|done]|by left|by left|by left| |].
       - unfold crossed_by. case_bool_decide; done.
       - intros _. change (arrivals [Arrive stream request]) with [stream]. cbn. by rewrite Permutation_cons_append. }
  case_bool_decide as Ef.
  { eexists _, _. split; [done|]. eapply inv_step; [done|constructor; [by eapply replies_blocked|done]|by left|by left|by left| |].
    - unfold crossed_by. case_bool_decide; done.
    - intros _. change (arrivals [Arrive stream request]) with [stream]. cbn. by rewrite Permutation_cons_append. }
  assert (admissible (events ++ [Arrive stream request]) stream request) as Ha.
  { split_and!; [done|done|]. by destruct (px_filter p (px_host p) request). }
  unfold record_crossing. eexists _, _. split; [done|]. eapply inv_step; [done| | |by left|by left| |].
  - constructor; [|done]. exists request. split; [done|]. split_and!; [done|done|]. intros name. apply strip_exact.
  - intros stream' hand [[<- <-]|[Hne Hw]]%lookup_insert_Some; [right; eauto|by left].
  - cbn. unfold crossed_by. case_bool_decide; [done|exact Hquiet].
  - intros Hnd. rewrite arrivals_snoc in Hnd. apply NoDup_app in Hnd as (_ & Hfresh & _). rewrite map_to_list_insert; [cbn; by rewrite Permutation_cons_append|].
    destruct (ex_waiting ex !! stream) eqn:Ew; [|done]. destruct (xi_waiting _ _ _ _ Hinv _ _ Ew) as (request' & [Hr _] & _).
    exfalso. eapply Hfresh; [apply arrival_in; eauto|set_solver].
Qed.

Context (Hrules : forall r, Rewriting_rules (px_rewriting p) (px_host p) = Some r -> exists selectors, HidingRules_compile selectors = Some r).

Lemma inv_outcome crossings ex events log stream outcome :
  exchange_inv crossings ex events log ->
  exists effects ex', exchange_step (E := E) p ex (Outcome stream outcome) = Ok (effects, ex') /\
    exchange_inv crossings ex' (events ++ [Outcome stream outcome]) (log ++ effects).
Proof.
  intros Hinv. unfold exchange_step. pose proof (wrap_same _ _ _ (xi_crossings _ _ _ _ Hinv)) as Hquiet.
  set (e := Outcome stream outcome). assert (e ∈ events ++ [e]) as Hin by set_solver.
  destruct (ex_waiting ex !! stream) as [hand|] eqn:Ew.
  2: { exists [], ex. split; [done|]. destruct ex as [shared waiting]. eapply inv_step; [done|done|by left|by left|by left| |].
       - unfold crossed_by. case_bool_decide; done.
       - intros _. by rewrite app_nil_r. }
  destruct (xi_waiting _ _ _ _ Hinv _ _ Ew) as (request & Ha & ->).
  assert (admissible (events ++ [e]) stream request) as Ha' by (eapply admissible_mono; [|done]; set_solver).
  assert (forall shared reply, sh_crossings shared = sh_crossings (ex_shared ex) -> replies (events ++ [e]) stream reply ->
    (sh_served shared = true -> sh_served (ex_shared ex) = true \/ exists stream upstream, Outcome stream (Some upstream) ∈ events ++ [e]) ->
    (sh_upgrade shared = sh_upgrade (ex_shared ex) \/ exists stream request upstream, sh_upgrade shared = Some stream /\
       admissible (events ++ [e]) stream request /\ handling (hq_headers request) = Upgrade /\
       Outcome stream (Some upstream) ∈ events ++ [e] /\ hs_status upstream = SWITCHING_PROTOCOLS) ->
    exchange_inv crossings (mkExchange shared (delete stream (ex_waiting ex))) (events ++ [e]) (log ++ [ToClient stream reply])) as Hstep.
  { intros shared reply Hc Hr Hs Hu. eapply inv_step; [done|by constructor| |done|done| |].
    - intros stream' hand [_ Hw]%lookup_delete_Some. by left.
    - rewrite Hc. unfold crossed_by. case_bool_decide; done.
    - intros _. change (arrivals [e]) with (@nil nat). rewrite app_nil_r, <- (map_to_list_delete (ex_waiting ex) _ _ Ew). done. }
  unfold forward_end. destruct outcome as [upstream|].
  - destruct (bool_decide _ && _) eqn:Eu.
    + apply andb_true_iff in Eu as [Eh%bool_decide_eq_true E101]. reflect. cbn [mbind Res_bind]. eexists _, _. split; [done|].
      apply Hstep; [done|by eapply replies_upgraded|right; eauto|right; cbn; eauto 10].
    + destruct (shape_ok upstream Hrules) as (reply & -> & Hsh). cbn [mbind Res_bind]. eexists _, _. split; [done|].
      apply Hstep; [done|by eapply replies_shaped|right; eauto|by left].
  - cbn [mbind Res_bind]. eexists _, _. split; [done|]. apply Hstep; [done| |by left|by left].
    destruct (sh_served (ex_shared ex)) eqn:Es; [|by apply replies_gateway].
    destruct (xi_served _ _ _ _ Hinv Es) as (stream' & upstream & Ho). eapply (replies_aborted _ _ stream' upstream); [done|set_solver].
Qed.

Lemma run_inv crossings more : forall ex events log, exchange_inv crossings ex events log ->
  exists effects ex', exchange_run (E := E) p ex more = Ok (effects, ex') /\ exchange_inv crossings ex' (events ++ more) (log ++ effects).
Proof.
  induction more as [|e more IH]; intros ex events log Hinv; [exists [], ex; by rewrite !app_nil_r|].
  assert (exists effects ex', exchange_step (E := E) p ex e = Ok (effects, ex') /\ exchange_inv crossings ex' (events ++ [e]) (log ++ effects)) as (effects & ex1 & He & Hinv1)
    by (destruct e; [by apply inv_arrive|by apply inv_outcome]).
  destruct (IH _ _ _ Hinv1) as (effects' & ex2 & Hr & Hinv2). exists (effects ++ effects'), ex2. cbn [exchange_run].
  rewrite He. cbn [mbind Res_bind]. rewrite Hr. cbn [mbind Res_bind]. split; [done|]. by rewrite <- !app_assoc in Hinv2.
Qed.

Lemma inv_new crossings : 0 <= crossings < 2 ^ 64 -> exchange_inv crossings (Exchange_new crossings) [] [].
Proof.
  intros Hc. split; cbn; [done|by intros ? ? ?%lookup_empty_Some|done|done| |done].
  unfold crossed, wrap. symmetry. case_bool_decide; cbn; rewrite Z.add_0_r; by apply Z.mod_small.
Qed.
End ProxyTheory.

(** C6: The proxy of a connection contains it, for any interleaving of its streams and any
    answers of the upstream.  A run never panics, and every effect of it is justified: a
    request reaches the upstream only if it arrived on that stream, names the host of the
    connection or none, is allowed by the filter, and has lost exactly its hop-by-hop
    fields; the client is told 421 for a request of another host, 403 for a blocked one,
    502 for an upstream that failed, and is cut off only after the upstream had answered;
    a 101 is passed on as it is only to a request that offered the upgrade; any other
    response keeps its status and has lost its hop-by-hop fields, and if the quotes of
    every readable [Alt-Svc] field it came with are closed ([open_quotes] shows why) no
    readable one it leaves with offers HTTP/3.  Where no two requests share a stream, the
    streams replied to and the streams still waiting are together exactly the streams
    that arrived, each once; each request sent is a version crossing exactly
    when the wires differ, and the exchange ends in a splice only after such an upgrade. *)
Theorem exchange_contains {H E B R : Type} `{HttpHeaders H, HeaderEntries H, !HttpHeadersLaws H, !HeaderEntriesLaws H, Encodings E,
    Styling, !StylingLaws} (p : Proxy H R _) crossings (events : list (@Event H B R)) :
  (forall r, Rewriting_rules (px_rewriting p) (px_host p) = Some r -> exists selectors, HidingRules_compile selectors = Some r) ->
  0 <= crossings < 2 ^ 64 ->
  exists log ex, exchange_run (E := E) p (Exchange_new crossings) events = Ok (log, ex) /\
    Forall (justified p events) log /\
    sh_crossings (ex_shared ex) = wrap 64 (crossings + crossed p log) /\
    (NoDup (arrivals events) -> replied log ++ (map_to_list (ex_waiting ex)).*1 ≡ₚ arrivals events) /\
    (forall stream result, run_exchange_end p ex result = SpliceUpgrade stream -> exists request upstream,
       admissible p events stream request /\ handling (hq_headers request) = Upgrade /\
       Outcome stream (Some upstream) ∈ events /\ hs_status upstream = SWITCHING_PROTOCOLS).
Proof.
  intros Hr Hc. destruct (run_inv p Hr crossings events _ _ _ (inv_new p crossings Hc)) as (log & ex & Hrun & Hinv).
  exists log, ex. cbn [app] in Hinv. destruct Hinv as [Hlog _ _ Hup Hcross Hcount]. split_and!; [done..|].
  intros stream result He. apply Hup. unfold run_exchange_end in He. repeat case_match; by simplify_eq.
Qed.

(** Samples: the header map of the response rewriter, iterated. *)
Definition sample_keys (h : gmap bytes (list bytes)) : list bytes := (map_to_list (filter (fun '(_, values) => values <> []) h)).*1.

Definition sample_entries : HeaderEntries (gmap bytes (list bytes)) :=
  {| keys := sample_keys;
     drain h := sample_keys h ≫= fun name => field_entries name (default [] (h !! name));
     no_headers := ∅;
     header_name name := if bool_decide (name = []) then None else Some (to_ascii_lowercase <$> name) |}.

#[global] Instance sample_entries_laws : @HeaderEntriesLaws (gmap bytes (list bytes)) sample_header_map sample_entries.
Proof.
  split; cbn; [| |done|by intros name; rewrite lookup_empty].
  - intros h name. unfold sample_keys. rewrite list_elem_of_fmap. split.
    + intros ([name' values] & -> & Hin%elem_of_map_to_list). apply map_lookup_filter_Some in Hin as [Hl Hv]. cbn. by rewrite Hl.
    + intros Hne. destruct (h !! name) as [values|] eqn:Hl; [|done]. exists (name, values). split; [done|].
      by apply elem_of_map_to_list, map_lookup_filter_Some.
  - intros h. apply NoDup_fst_map_to_list.
Qed.

Definition sample_proxy : Proxy (gmap bytes (list bytes)) bytes sample_styling :=
  {| px_host := text_of "a.example";
     px_filter _ request := if bool_decide (hq_rest request = text_of "/ad") then Block else Allow;
     px_wires := (Http1, Http2);
     px_rewriting := RewritingOn (fun _ => Some sample_rules) |}.

Definition sample_ask (host path : bytes) (headers : gmap bytes (list bytes)) : HttpRequest (gmap bytes (list bytes)) bytes :=
  mkHttpRequest None (<[HOST := [host]]> headers) path.

Definition sample_answer : HttpResponse (gmap bytes (list bytes)) bytes :=
  mkHttpResponse _ 200 (<[CONNECTION := [text_of "close, X-Hop"]]> (<[text_of "x-hop" := [text_of "1"]]> sample_alternatives)) (text_of "body").

Definition sample_events : list (@Event (gmap bytes (list bytes)) bytes bytes) :=
  [Arrive 1 (sample_ask (text_of "A.example:443") (text_of "/") {[ text_of "te" := [text_of "trailers"] ]});
   Arrive 2 (sample_ask (text_of "b.example") (text_of "/") ∅);
   Arrive 3 (sample_ask (text_of "a.example.") (text_of "/ad") ∅);
   Arrive 4 (sample_ask (text_of "a.example") (text_of "/x") ∅);
   Outcome 1 (Some sample_answer); Outcome 4 None].

Lemma exchange_contains_witness :
  exists log ex,
    @exchange_run _ unit _ _ sample_header_map sample_entries sample_encodings sample_styling sample_proxy (Exchange_new 7) sample_events = Ok (log, ex) /\
    Forall (@justified _ unit _ _ sample_header_map sample_entries sample_styling sample_proxy sample_events) log /\
    sh_crossings (ex_shared ex) = 9 /\ replied log = [2; 3; 1; 4]%nat.
Proof.
  destruct (@exchange_contains _ unit _ _ sample_header_map sample_entries sample_header_map_laws sample_entries_laws sample_encodings
    sample_styling sample_styling_laws sample_proxy 7 sample_events) as (log & ex & Hrun & Hlog & Hc & Hn & _).
  - intros r Hr. injection Hr as <-. exists [text_of ".ad"; text_of "#x"]. vm_compute. reflexivity.
  - lia.
  - exists log, ex. assert (match @exchange_run _ unit _ _ sample_header_map sample_entries sample_encodings sample_styling sample_proxy
        (Exchange_new 7) sample_events with Ok (log, ex) => (sh_crossings (ex_shared ex), replied log) = (9, [2; 3; 1; 4]%nat) | _ => False end) as Hs
      by (vm_compute; reflexivity).
    rewrite Hrun in Hs. injection Hs as Hs1 Hs2. split_and!; [exact Hrun|exact Hlog|exact Hs1|exact Hs2].
Defined.
