(* ===== verification/Rules.v ===== *)
(** The rule engine of [src/policy/rules.rs]: the URL and the resource kind a request is
    judged by, and the memo of a host's compiled hiding rules.

    The browser engine is an interface: it is built from lists, judges a request and
    lists a page's selectors.  The engine is the URL filter and the cosmetic source of
    the HTTP exchange, and meets what the exchange relies on. *)

From S2P Require Import Prelude IpText Text Csp Rewrite Fifo Exchange.
Open Scope Z_scope.

(** [check] is [None] for a URL the engine cannot read. *)
Class BrowserEngine := {
  Index : Type;
  index_of : list bytes -> Index;
  check_request : Index -> bytes -> bytes -> bytes -> bytes -> option bool;
  hide_selectors : Index -> bytes -> list bytes;
}.

Definition COSMETIC_MEMO_HOSTS : nat := 256.

(** The parts of a request's target that are read: its scheme, its whole text, and its
    path with the query. *)
Record Target_ := mkTarget { tg_scheme : option bytes; tg_text : bytes; tg_path : option bytes }.

Definition absolute (host : bytes) (uri : Target_) : bytes :=
  match tg_scheme uri with
  | Some _ => tg_text uri
  | None => text_of "https://" ++ host ++ default (text_of "/") (tg_path uri)
  end.

Definition SEC_FETCH_DEST : bytes := text_of "sec-fetch-dest".
Definition ACCEPT : bytes := text_of "accept".
Definition REFERER : bytes := text_of "referer".

(** The arms of the match on [Sec-Fetch-Dest]. *)
Definition fetch_kinds : list (list bytes * bytes) :=
  [([text_of "document"], text_of "document");
   ([text_of "iframe"; text_of "frame"], text_of "subdocument");
   ([text_of "script"; text_of "serviceworker"; text_of "sharedworker"; text_of "worker"], text_of "script");
   ([text_of "style"], text_of "stylesheet");
   ([text_of "image"], text_of "image");
   ([text_of "font"], text_of "font");
   ([text_of "audio"; text_of "video"; text_of "track"; text_of "audioworklet"; text_of "paintworklet"], text_of "media");
   ([text_of "object"; text_of "embed"], text_of "object");
   ([text_of "report"], text_of "csp_report");
   ([text_of "empty"], text_of "xhr")].

(** The prefixes of the match on [Accept]. *)
Definition accept_kinds : list (bytes * bytes) :=
  [(text_of "text/html", text_of "document"); (text_of "text/css", text_of "stylesheet"); (text_of "image/", text_of "image");
   (text_of "font/", text_of "font"); (text_of "audio/", text_of "media"); (text_of "video/", text_of "media")].

(** The kind of the first arm that matches. *)
Definition first_kind {A : Type} (matches : A -> bool) (arms : list (A * bytes)) : bytes :=
  default (text_of "other") (snd <$> List.find (fun arm => matches arm.1) arms).

Section Verdict.
Context {H : Type} `{HttpHeaders H, BrowserEngine}.

Definition header_text (headers : H) (name : bytes) : option bytes := value ← head (get_all headers name); to_str value.

Definition destination (headers : H) : bytes :=
  match header_text headers SEC_FETCH_DEST with
  | Some dest => first_kind (fun words => bool_decide (dest ∈ words)) fetch_kinds
  | None =>
      match header_text headers ACCEPT with
      | Some accept =>
          let first := trim (default [] (head (split_char COMMA accept))) in
          first_kind (fun prefix => starts_with prefix first) accept_kinds
      | None => text_of "other"
      end
  end.

Definition verdict (index : Index) (host : bytes) (uri : Target_) (headers : H) (method : bytes) : FilterVerdict :=
  let url := absolute host uri in
  let source := default url (header_text headers REFERER) in
  match check_request index url source (destination headers) method with
  | None => Allow
  | Some should_block => if (should_block : bool) then Block else Allow
  end.
End Verdict.

(** * Hiding rules *)

Section Cosmetic.
Context `{BrowserEngine, Styling}.

Record RuleEngine := mkRuleEngine { re_index : Index; re_cosmetic : BoundedFifo bytes (option HidingRules) }.

Definition RuleEngine_from_lists (lists : list bytes) : RuleEngine := mkRuleEngine (index_of lists) (BoundedFifo_new COSMETIC_MEMO_HOSTS).

Definition lower (host : bytes) : bytes := to_ascii_lowercase <$> host.

(** What is compiled for a host. *)
Definition compiled_rules (index : Index) (host : bytes) : option HidingRules :=
  HidingRules_compile (hide_selectors index (text_of "https://" ++ host ++ text_of "/")).

(** The two lookups of [rules], each under the read lock ... *)
Definition rules_read (e : RuleEngine) (host : bytes) : option (option HidingRules) :=
  match BoundedFifo_get (re_cosmetic e) host with
  | Some cached => Some cached
  | None => BoundedFifo_get (re_cosmetic e) (lower host)
  end.

(** ... and the insertion, under the write lock, when neither found it. *)
Definition rules_write (e : RuleEngine) (host : bytes) : option HidingRules * RuleEngine :=
  let host := lower host in
  let '(answer, memo) := BoundedFifo_get_or_insert_with (re_cosmetic e) host (compiled_rules (re_index e) host) in
  (answer, mkRuleEngine (re_index e) memo).

Definition rules (e : RuleEngine) (host : bytes) : option HidingRules * RuleEngine :=
  match rules_read e host with Some cached => (cached, e) | None => rules_write e host end.

(** ** The memo is transparent *)

(** Lookups of any sessions, in any order: a lookup that found nothing writes later. *)
Inductive Lookup := LookupRead (host : bytes) | LookupWrite (host : bytes).

Definition lookup_step (e : RuleEngine) (l : Lookup) : RuleEngine :=
  match l with LookupRead _ => e | LookupWrite host => (rules_write e host).2 end.

Record memo_ok (index : Index) (e : RuleEngine) : Prop := {
  mo_index : re_index e = index;
  mo_memo : exists l, fifo_refines (re_cosmetic e) l /\ fifo_capacity (re_cosmetic e) = COSMETIC_MEMO_HOSTS /\
    Forall (fun '(host, cached) => lower host = host /\ cached = compiled_rules index host) l;
}.

Lemma lower_lower host : lower (lower host) = lower host.
Proof.
  unfold lower. rewrite <- list_fmap_compose. apply list_fmap_ext. intros i b _. apply to_ascii_lowercase_idem.
Qed.

Lemma memo_ok_get index e host cached : memo_ok index e -> BoundedFifo_get (re_cosmetic e) host = Some cached ->
  lower host = host /\ cached = compiled_rules index host.
Proof.
  intros [_ (l & Hr & _ & Hl)] Hg. unfold BoundedFifo_get in Hg. rewrite (fr_entries _ _ Hr) in Hg.
  apply elem_of_list_to_map_2 in Hg. rewrite Forall_forall in Hl. by apply (Hl _ Hg).
Qed.

Lemma memo_ok_write index e host : memo_ok index e ->
  (rules_write e host).1 = compiled_rules index (lower host) /\ memo_ok index (rules_write e host).2.
Proof.
  intros Hok. pose proof Hok as [Hi (l & Hr & Hc & Hl)]. unfold rules_write. cbn zeta.
  pose proof (fifo_refines_run _ _ (FifoMemo (lower host) (compiled_rules (re_index e) (lower host))) Hr) as [Hr' Hc'].
  cbn [fifo_run memo_run] in Hr', Hc'. destruct (BoundedFifo_get (re_cosmetic e) (lower host)) as [cached|] eqn:Eg.
  - destruct (memo_ok_get _ _ _ _ Hok Eg) as [_ ->]. unfold BoundedFifo_get_or_insert_with. unfold BoundedFifo_get in Eg. rewrite Eg. cbn.
    split; [done|]. split; [done|eauto].
  - assert (memo_find (lower host) l = None) as Hf.
    { rewrite memo_find_map, <- (fr_entries _ _ Hr). exact Eg. }
    rewrite Hf in Hr'. unfold BoundedFifo_get_or_insert_with in *. unfold BoundedFifo_get in Eg. rewrite Eg in *. cbn [fst snd] in *.
    rewrite Hi in *. split; [done|]. split; [done|]. eexists. split; [exact Hr'|]. cbn [re_cosmetic]. split; [by rewrite Hc'|].
    unfold memo_insert. rewrite Hf. apply Forall_app. split.
    + case_match; [destruct l; [done|by apply Forall_cons in Hl as [_ Hl]]|done].
    + apply Forall_singleton. split; [apply lower_lower|done].
Qed.

Lemma memo_ok_run lists lookups : memo_ok (index_of lists) (foldl lookup_step (RuleEngine_from_lists lists) lookups).
Proof.
  assert (forall e, memo_ok (index_of lists) e -> memo_ok (index_of lists) (foldl lookup_step e lookups)) as Hrun.
  { induction lookups as [|[host|host] lookups IH]; intros e He; [done|by apply IH|]. cbn. apply IH. by apply memo_ok_write. }
  apply Hrun. split; [done|]. exists []. split_and!; [apply fifo_refines_new; unfold COSMETIC_MEMO_HOSTS; lia|done|done].
Qed.

(** After any lookups of any sessions the memo holds at most its capacity, and a lookup
    answers what compiling the host afresh would, in any case the host is written in. *)
Theorem cosmetic_memo_transparent lists lookups host :
  let e := foldl lookup_step (RuleEngine_from_lists lists) lookups in
  (rules e host).1 = compiled_rules (index_of lists) (lower host) /\
  (size (fifo_entries (re_cosmetic e)) <= COSMETIC_MEMO_HOSTS)%nat.
Proof.
  intros e. pose proof (memo_ok_run lists lookups) as Hok. fold e in Hok. split.
  - unfold rules, rules_read. destruct (BoundedFifo_get (re_cosmetic e) host) as [cached|] eqn:E1.
    { destruct (memo_ok_get _ _ _ _ Hok E1) as [Hl ->]. cbn. by rewrite Hl. }
    destruct (BoundedFifo_get (re_cosmetic e) (lower host)) as [cached|] eqn:E2.
    { by destruct (memo_ok_get _ _ _ _ Hok E2) as [_ ->]. }
    by apply memo_ok_write.
  - destruct Hok as [_ (l & Hr & Hc & _)]. rewrite (fr_entries _ _ Hr), size_list_to_map by apply Hr. rewrite <- Hc. apply Hr.
Qed.

(** What the exchange asks of a cosmetic source: rules that were compiled. *)
Lemma cosmetic_source_compiled index host r : compiled_rules index host = Some r -> exists selectors, HidingRules_compile selectors = Some r.
Proof. intros Hr. by eexists. Qed.
End Cosmetic.
