(* ===== verification/Session.v ===== *)
(** Sessions of [src/intercept/session.rs]: how a connection introduces itself, the bytes
    peeked to know, and the decision to intercept it or to splice it to its server.

    The HTTP parser and the authority parser are interfaces, and so is what the network
    answers to a session: dials, handshakes, copies, exchanges and the clock.  A session
    is a function of those, of the demotion table and of the client's stream, to its
    result, the table it leaves and the actions it took in order. *)

From S2P Require Import Prelude Net Wire Egress IpText Text Csp Rewrite Mirror Demote Exchange.
Open Scope Z_scope.

(** * Introductions *)

Definition RECORD_HANDSHAKE : Z := 0x16.
Definition RECORD_MAJOR : Z := 0x03.
Definition MAX_RECORD : Z := 2 ^ 14 + 5.

(** [httparse] of a request head into 64 fields, and the host of an [Authority]. *)
Inductive Parsed := ParseComplete (fields : list (bytes * bytes)) | ParsePartial | ParseError.

Class HeadParser := {
  parse_head : bytes -> Parsed;
  authority_host : bytes -> option bytes;
}.

(** A complete head is complete whatever follows it, and a malformed one stays so. *)
Class HeadParserLaws `{HeadParser} : Prop := {
  parse_complete bs fields more : parse_head bs = ParseComplete fields -> parse_head (bs ++ more) = ParseComplete fields;
  parse_error bs more : parse_head bs = ParseError -> parse_head (bs ++ more) = ParseError;
}.

Inductive Introduction := Incomplete | TlsHello (hello : Hello) | HttpHead (host : option DomainName) | Plain.

Section Introduce.
Context `{HeadParser}.

Definition host_field (fields : list (bytes * bytes)) : option DomainName :=
  '(_, value) ← head (filter (fun '(name, _) => eq_ignore_ascii_case name (text_of "host") = true) fields);
  if utf8_ok value then host ← authority_host value; match DomainName_new host with Ok host => Some host | _ => None end else None.

Definition request_head (bs : bytes) : Introduction :=
  match parse_head bs with
  | ParseComplete fields => HttpHead (host_field fields)
  | ParsePartial => Incomplete
  | ParseError => Plain
  end.

Definition introduce (bs : bytes) : Introduction :=
  match Reader_array 3 (Reader_new bs) with
  | Some ([content; major; _], reader) =>
      if negb (content =? RECORD_HANDSHAKE) || negb (major =? RECORD_MAJOR) then request_head bs
      else match Reader_vector_u16 reader with
           | None => Incomplete
           | Some (record, _) => TlsHello (read_hello record)
           end
  | _ => Incomplete
  end.

(** ** Peeking *)

Definition PEEK_CHUNK : nat := 1024.

(** [timeout_at(deadline, stream.read(&mut chunk))]: the deadline passes after [patience]
    more polls that find nothing.  [None] is the end of the stream, its failure, or the
    deadline. *)
Fixpoint read_before (patience : nat) (s : Script) {struct s} : option bytes * nat * Script :=
  match s with
  | [] => (None, patience, [])
  | ReadPending :: s' =>
      match patience with
      | O => (None, O, s)
      | S patience => read_before patience s'
      end
  | ReadFails _ :: s' => (None, patience, s')
  | Arrives bs :: s' =>
      match take PEEK_CHUNK bs with
      | [] => (None, patience, s')
      | read => (Some read, patience, match drop PEEK_CHUNK bs with [] => s' | rest => Arrives rest :: s' end)
      end
  end.

Definition is_incomplete (i : Introduction) : bool := match i with Incomplete => true | _ => false end.

Fixpoint peek_loop (fuel : nat) (patience : nat) (s : Script) (buf : bytes) : option (Introduction * bytes * Script) :=
  match fuel with
  | O => None
  | S fuel =>
      let introduction := introduce buf in
      if is_incomplete introduction && (Z.of_nat (length buf) <? MAX_RECORD) then
        match read_before patience s with
        | (None, _, s) => Some (introduce buf, buf, s)
        | (Some read, patience, s) => peek_loop fuel patience s (buf ++ read)
        end
      else Some (introduction, buf, s)
  end.

(** A round reads a byte or returns, and none is read past [MAX_RECORD]. *)
Definition peek (patience : nat) (s : Script) : option (Introduction * bytes * Script) :=
  peek_loop (S (Z.to_nat MAX_RECORD)) patience s [].
End Introduce.

(** * Serving a session *)

Inductive SpliceReason := NotAllowlisted | Unnamed | NotTls | Undecided | DemotedHost (cause : Demotion) | OriginHandshake.

(** [Handling] of a session. *)
Inductive Served :=
| Intercepted (host : DomainName) (wire : HttpWire) (tier : InterceptedTier)
| Spliced (reason : SpliceReason)
| DemotedNow (host : DomainName) (cause : Demotion).

Inductive SessionError {W : Type} := UpstreamError (error : EgressError W) | ClientHandshake (error : option Carried) | TransferError (kind : ErrorKind).
Arguments SessionError : clear implicits.

Inductive Approach := ApproachTls (profile : ClientProfile) (alpn : list HttpWire) | Cleartext.

(** What the outside answers during one session.  A handshake that succeeds tells the
    protocol it selected; an exchange tells how many rewrites gave up. *)
Class SessionWorld (W : Type) := {
  Transport : Type;
  connect : Target -> Transport + EgressError W;
  origin_connect : DomainName -> ClientProfile -> bytes -> Transport -> option bytes + option Carried;
  terminate : Prefixed -> HttpWire -> option bytes + option Carried;
  exchange_failures : Z;
  copy_until_idle : Prefixed -> Transport -> option ErrorKind;
  standing_at : Instant;
  recorded_at : Instant;
}.

(** RFC 7301: a server that advertises one protocol selects it, or none for a client that
    offered none. *)
Class SessionWorldLaws (W : Type) `{SessionWorld W} : Prop := {
  terminate_selects client wire selected : terminate client wire = inl selected -> selected = Some (identifier wire) \/ selected = None;
}.

Section Serve.
Context {W : Type} `{HeadParser, SessionWorld W, Styling}.

Record Sessions := mkSessions {
  se_policy : InterceptPolicy;
  se_patience : nat;
  se_cosmetic : bytes -> option HidingRules;
}.

Definition Sessions_rewriting (sessions : Sessions) (tier : InterceptedTier) : Rewriting :=
  match tier with Intercepted_Rewrite => RewritingOn (se_cosmetic sessions) | Intercepted_Inspect => RewritingOff end.

Inductive Action :=
| Dial (target : Target)
| Originate (host : DomainName) (profile : ClientProfile) (alpn : bytes)
| Terminate (client : Prefixed) (wire : HttpWire)
| RunExchange (host : DomainName) (wires : HttpWire * HttpWire) (rewriting : Rewriting)
| CopyStreams (client : Prefixed).

Abbreviation Outcome := (Served + SessionError W)%type.

Definition splice_session (server : SocketAddr) (peeked : bytes) (s : Script) (reason : SpliceReason) : Outcome * list Action :=
  let target := Ip server in
  match connect target with
  | inr error => (inr (UpstreamError error), [Dial target])
  | inl upstream =>
      let client := Prefixed_new peeked s in
      (match copy_until_idle client upstream with
       | Some kind => inr (TransferError kind)
       | None => inl (Spliced reason)
       end, [Dial target; CopyStreams client])
  end.

Definition learn (table : Table) (host : DomainName) (leg : Leg) (error : option Carried) : Outcome * Table :=
  match classify leg error with
  | Some cause =>
      let '(now_standing, table) := record table host cause recorded_at in
      match Standing_permits now_standing with
      | inr cause => (inl (DemotedNow host cause), table)
      | inl _ => (inr (ClientHandshake error), table)
      end
  | None => (inr (ClientHandshake error), table)
  end.

(** The exchange of the two streams, and the demotion it may leave. *)
Definition exchanged (sessions : Sessions) (table : Table) (host : DomainName) (wires : HttpWire * HttpWire) (tier : InterceptedTier)
    : Outcome * Table * list Action :=
  (inl (Intercepted host wires.1 tier),
   if 0 <? exchange_failures then (record table host RewriteExhausted recorded_at).2 else table,
   [RunExchange host wires (Sessions_rewriting sessions tier)]).

(** The two streams of an intercepted session, once the transport is dialled. *)
Definition approach_streams (sessions : Sessions) (table : Table) (server : SocketAddr) (host : DomainName) (approach : Approach)
    (tier : InterceptedTier) (peeked : bytes) (s : Script) (transport : Transport) : Outcome * Table * list Action :=
  match approach with
  | ApproachTls profile alpn =>
      let offer := Offer_encode alpn in
      match origin_connect host profile offer transport with
      | inr error =>
          let table := match classify UpstreamLeg error with Some cause => (record table host cause recorded_at).2 | None => table end in
          let '(outcome, actions) := splice_session server peeked s OriginHandshake in
          (outcome, table, Originate host profile offer :: actions)
      | inl selected =>
          let wire := from_alpn selected in
          let replayed := Prefixed_new peeked s in
          match terminate replayed wire with
          | inr error =>
              let '(outcome, table) := learn table host ClientLeg error in
              (outcome, table, [Originate host profile offer; Terminate replayed wire])
          | inl accepted =>
              let '(outcome, table, actions) := exchanged sessions table host (from_alpn accepted, wire) tier in
              (outcome, table, Originate host profile offer :: Terminate replayed wire :: actions)
          end
      end
  | Cleartext => exchanged sessions table host (Http1, Http1) tier
  end.

(** [serve_session] once the stream is peeked. *)
Definition serve_introduced (sessions : Sessions) (table : Table) (server : SocketAddr) (introduction : Introduction) (peeked : bytes) (s : Script)
    : Outcome * Table * list Action :=
  let spliced reason := let '(outcome, actions) := splice_session server peeked s reason in (outcome, table, actions) in
  let named host approach :=
    match InterceptPolicy_decide (se_policy sessions) host with
    | SpliceHost => spliced NotAllowlisted
    | Intercept =>
        match Standing_permits (standing table host standing_at) with
        | inr cause => spliced (DemotedHost cause)
        | inl tier =>
            let target := Domain host (port server) in
            match connect target with
            | inr error => (inr (UpstreamError error), table, [Dial target])
            | inl transport =>
                let '(outcome, table, actions) := approach_streams sessions table server host approach tier peeked s transport in
                (outcome, table, Dial target :: actions)
            end
        end
    end in
  match introduction with
  | TlsHello (mkHello (Some host) profile alpn) => named host (ApproachTls profile alpn)
  | HttpHead (Some host) => named host Cleartext
  | TlsHello (mkHello None _ _) | HttpHead None => spliced Unnamed
  | Plain => spliced NotTls
  | Incomplete => spliced Undecided
  end.

Definition serve_session (sessions : Sessions) (table : Table) (server : SocketAddr) (s : Script) : option (Outcome * Table * list Action) :=
  '(introduction, peeked, s) ← peek (se_patience sessions) s;
  Some (serve_introduced sessions table server introduction peeked s).
End Serve.
Arguments Sessions : clear implicits.

(** * What is peeked *)

Section PeekTheory.
Context `{HeadParser}.

Lemma introduce_extend bs more : HeadParserLaws -> introduce bs <> Incomplete -> introduce (bs ++ more) = introduce bs.
Proof.
  intros Hl. unfold introduce. change (Reader_array 3) with (fun r => Reader_take r 3). cbn beta.
  destruct (Reader_take (Reader_new bs) 3) as [[front reader]|] eqn:Et; [|done].
  change (Reader_new (bs ++ more)) with (Reader_extend (Reader_new bs) more). rewrite (Reader_take_extend _ _ _ _ more Et).
  destruct front as [|content [|major [|minor [|]]]]; try done. destruct (_ || _).
  - unfold request_head. destruct (parse_head bs) as [fields| |] eqn:Ep; [|done|]; intros _.
    + by rewrite (parse_complete _ _ more Ep).
    + by rewrite (parse_error _ more Ep).
  - destruct (Reader_vector_u16 reader) as [[record rest]|] eqn:Ev; [|done]. intros _. by rewrite (Reader_vector_u16_extend _ _ _ more Ev).
Qed.

Definition fails (s : Script) : Prop := exists kind, ReadFails kind ∈ s.

Lemma fails_cons e s : fails s -> fails (e :: s).
Proof. intros [kind Hk]. exists kind. set_solver. Qed.

Lemma read_before_spec s : script_ok s -> forall patience r patience' s', read_before patience s = (r, patience', s') ->
  script_ok s' /\ (fails s' -> fails s) /\
  match r with
  | Some read => read <> [] /\ (length read <= PEEK_CHUNK)%nat /\ arriving s = read ++ arriving s'
  | None => arriving s = arriving s' \/ fails s
  end.
Proof.
  induction 1 as [|e s He Hs IH]; intros patience r patience' s' Hr; cbn [read_before] in Hr; [simplify_eq; split_and!; [by constructor|done|by left]|].
  destruct e as [bs| |kind].
  - pose proof (take_drop PEEK_CHUNK bs) as Htd. pose proof (length_take bs PEEK_CHUNK) as Hlen.
    destruct (take PEEK_CHUNK bs) as [|b read] eqn:Et.
    { destruct bs; [done|]. by cbn in Et. }
    destruct (drop PEEK_CHUNK bs) as [|d rest] eqn:Ed; simplify_eq; cbn [arriving]; (split_and!; [try done| |done|rewrite Hlen; lia|]).
    + apply fails_cons.
    + by rewrite app_nil_r.
    + by constructor.
    + intros [kind Hk]. exists kind. set_solver.
    + by rewrite <- app_assoc.
  - destruct patience as [|patience]; [simplify_eq; split_and!; [by constructor|done|by left]|].
    destruct (IH _ _ _ _ Hr) as (H1 & H2 & H3). split_and!; [done|intros ?; by apply fails_cons, H2|].
    destruct r; [done|]. destruct H3 as [?|?]; [by left|right; by apply fails_cons].
  - simplify_eq. split_and!; [done|apply fails_cons|]. right. exists kind. set_solver.
Qed.

Lemma peek_loop_spec fuel : forall patience s buf, script_ok s -> (0 < fuel)%nat -> MAX_RECORD < Z.of_nat (fuel + length buf) ->
  Z.of_nat (length buf) < MAX_RECORD + 1024 ->
  exists read rest, peek_loop fuel patience s buf = Some (introduce (buf ++ read), buf ++ read, rest) /\
    Z.of_nat (length (buf ++ read)) < MAX_RECORD + 1024 /\ (arriving s = read ++ arriving rest \/ fails s /\ read `prefix_of` arriving s).
Proof.
  induction fuel as [|fuel IH]; intros patience s buf Hs Hpos Hf Hlen; [lia|]. cbn [peek_loop].
  destruct (is_incomplete (introduce buf) && _) eqn:Ei; [|exists [], s; rewrite app_nil_r; split_and!; [done|done|by left]].
  apply andb_true_iff in Ei as [_ Hlt]. reflect. destruct (read_before patience s) as [[r patience'] s'] eqn:Er.
  destruct (read_before_spec s Hs _ _ _ _ Er) as (Hs' & Hfail & Hr). destruct r as [read|].
  - destruct Hr as (Hne & Hle & Harr). assert (length read <> 0%nat) by (by destruct read). unfold PEEK_CHUNK in Hle.
    destruct (IH patience' s' (buf ++ read) Hs') as (more & rest & Hp & Hl & Hrest); [lia|rewrite length_app; lia|rewrite length_app; lia|].
    exists (read ++ more), rest. rewrite app_assoc. split_and!; [done|done|]. rewrite Harr.
    destruct Hrest as [->|[Hfs Hpre]]; [left; by rewrite app_assoc|right; split; [auto|by apply prefix_app]].
  - exists [], s'. rewrite app_nil_r. split_and!; [done|done|]. destruct Hr as [->|?]; [by left|right; split; [done|apply prefix_nil]].
Qed.

(** Peeking returns, what it returns is what the peeked bytes say, and they are the front
    of the stream. *)
Lemma peek_spec patience s : script_ok s ->
  exists peeked rest, peek patience s = Some (introduce peeked, peeked, rest) /\
    Z.of_nat (length peeked) < MAX_RECORD + 1024 /\ (arriving s = peeked ++ arriving rest \/ fails s /\ peeked `prefix_of` arriving s).
Proof.
  intros Hs. destruct (peek_loop_spec (S (Z.to_nat MAX_RECORD)) patience s [] Hs) as (read & rest & H1 & H2 & H3);
    [lia|cbn [length]; unfold MAX_RECORD; lia|cbn [length]; unfold MAX_RECORD; lia|]. by exists read, rest.
Qed.

(** However a stream is cut into reads, two sessions that learn who calls learn the same. *)
Lemma peek_chunking `{!HeadParserLaws} patience patience' s s' i i' peeked peeked' rest rest' :
  script_ok s -> script_ok s' -> arriving s = arriving s' ->
  peek patience s = Some (i, peeked, rest) -> peek patience' s' = Some (i', peeked', rest') ->
  i <> Incomplete -> i' <> Incomplete -> i = i'.
Proof.
  intros Hs Hs' Ha Hp Hp'. destruct (peek_spec patience s Hs) as (b & r & E & _ & Hpre). destruct (peek_spec patience' s' Hs') as (b' & r' & E' & _ & Hpre').
  rewrite Hp in E. rewrite Hp' in E'. simplify_eq. intros Hi Hi'.
  assert (b `prefix_of` arriving s') as H1 by (rewrite <- Ha; destruct Hpre as [->|[_ ?]]; [by eexists|done]).
  assert (b' `prefix_of` arriving s') as H2 by (destruct Hpre' as [->|[_ ?]]; [by eexists|done]).
  destruct (prefix_weak_total _ _ _ H1 H2) as [[more ->]|[more ->]]; [by rewrite introduce_extend|by rewrite introduce_extend].
Qed.
End PeekTheory.

(** * What a session does *)

Definition introduced_host (i : Introduction) : option DomainName :=
  match i with TlsHello hello => h_host hello | HttpHead host => host | _ => None end.

Section ServeTheory.
Context {W : Type} `{HeadParser, SessionWorld W, !SessionWorldLaws W, Styling}.

(** The client sees a forged certificate or a proxied exchange. *)
Definition intercepts (a : Action) : bool := match a with Terminate _ _ | RunExchange _ _ _ => true | _ => false end.

(** A host this session may intercept, and the tier at which. *)
Definition may_intercept (sessions : Sessions _) (table : Table) (introduction : Introduction) (host : DomainName) (tier : InterceptedTier) : Prop :=
  introduced_host introduction = Some host /\ InterceptPolicy_decide (se_policy sessions) host = Intercept /\
  Standing_permits (standing table host standing_at) = inl tier.

(** The wires of the two legs of an exchange.  A TLS client was terminated on the
    origin's wire, and its own differs only if that handshake selected no protocol. *)
Definition legs (introduction : Introduction) (client : Prefixed) (actions : list Action) (wires : HttpWire * HttpWire) : Prop :=
  match introduction with
  | TlsHello _ => Terminate client wires.2 ∈ actions /\
      (wires.1 = wires.2 \/ wires = (Http1, Http2) /\ terminate client wires.2 = inl None)
  | _ => wires = (Http1, Http1)
  end.

Record session_ok (sessions : Sessions _) (table : Table) (server : SocketAddr) (introduction : Introduction) (client : Prefixed)
    (outcome : Served + SessionError W) (table' : Table) (actions : list Action) : Prop := {
  so_intercepts a : a ∈ actions -> intercepts a = true -> exists host tier, may_intercept sessions table introduction host tier;
  so_exchange host wires rewriting : RunExchange host wires rewriting ∈ actions ->
    exists tier, may_intercept sessions table introduction host tier /\ rewriting = Sessions_rewriting sessions tier /\
      outcome = inl (Intercepted host wires.1 tier) /\ legs introduction client actions wires;
  so_offer host profile offer : Originate host profile offer ∈ actions ->
    exists alpn, introduction = TlsHello (mkHello (Some host) profile alpn) /\ offer = (identifier <$> alpn) ≫= vec8;
  so_copy c : CopyStreams c ∈ actions -> c = client /\ Forall (fun a => intercepts a = false) actions /\
    exists before, actions = before ++ [Dial (Ip server); CopyStreams c];
  so_order c wire : Terminate c wire ∈ actions -> c = client /\ exists host profile alpn transport selected after,
    actions = Dial (Domain host (port server)) :: Originate host profile alpn :: Terminate c wire :: after /\
    connect (Domain host (port server)) = inl transport /\ origin_connect host profile alpn transport = inl selected /\
    wire = from_alpn selected;
  so_spliced reason : outcome = inl (Spliced reason) -> CopyStreams client ∈ actions;
  so_table : table' = table \/ exists host tier cause, may_intercept sessions table introduction host tier /\
    table' = (record table host cause recorded_at).2 /\
    (cause = RewriteExhausted /\ 0 < exchange_failures \/ exists leg error, classify leg error = Some cause);
}.

Lemma from_identifier_identifier wire : from_identifier (identifier wire) = Some wire.
Proof. by destruct wire. Qed.

(** How a client that introduced itself so is approached. *)
Definition approached (introduction : Introduction) (host : DomainName) (approach : Approach) : Prop :=
  introduction = match approach with
                 | ApproachTls profile alpn => TlsHello (mkHello (Some host) profile alpn)
                 | Cleartext => HttpHead (Some host)
                 end.

Definition offers_own (introduction : Introduction) (actions : list Action) : Prop :=
  forall host profile offer, Originate host profile offer ∈ actions ->
    exists alpn, introduction = TlsHello (mkHello (Some host) profile alpn) /\ offer = (identifier <$> alpn) ≫= vec8.

Lemma offers_app introduction front more : offers_own introduction front -> (forall h p o, Originate h p o ∉ more) -> offers_own introduction (front ++ more).
Proof. intros Hf Hm h p o [Hin|Hin]%elem_of_app; [by apply Hf|by destruct (Hm h p o)]. Qed.

(** Membership in an action list that is written out. *)
Ltac in_actions :=
  repeat match goal with
  | Hin : _ ∈ _ :: _ |- _ => apply elem_of_cons in Hin as [Hin|Hin]; [try discriminate Hin|]
  | Hin : _ ∈ [] |- _ => by apply not_elem_of_nil in Hin
  end.

Lemma splice_session_ok sessions table table' server introduction peeked s reason front :
  Forall (fun a => intercepts a = false) front -> (forall c, CopyStreams c ∉ front) -> offers_own introduction front ->
  (table' = table \/ exists host tier cause, may_intercept sessions table introduction host tier /\
    table' = (record table host cause recorded_at).2 /\
    (cause = RewriteExhausted /\ 0 < exchange_failures \/ exists leg error, classify leg error = Some cause)) ->
  forall outcome actions, splice_session server peeked s reason = (outcome, actions) ->
  session_ok sessions table server introduction (Prefixed_new peeked s) outcome table' (front ++ actions).
Proof.
  intros Hf Hc Hown Ht outcome actions Hs.
  assert (actions = [Dial (Ip server)] /\ (forall served, outcome <> inl served) \/
    actions = [Dial (Ip server); CopyStreams (Prefixed_new peeked s)]) as Ha.
  { unfold splice_session in Hs. destruct (connect (Ip server)); [right|left]; by simplify_eq. }
  assert (Forall (fun a => intercepts a = false) (front ++ actions)) as Hall.
  { apply Forall_app. split; [done|]. destruct Ha as [[-> _]| ->]; by repeat constructor. }
  assert (forall a, a ∈ front ++ actions -> intercepts a = true -> False) as Hno.
  { intros a Hin Hi. rewrite Forall_forall in Hall. rewrite Hall in Hi by done. done. }
  split; [intros a Hin Hi; by destruct (Hno a)|intros ? ? ? Hin; by destruct (Hno _ Hin)| | |intros ? ? Hin; by destruct (Hno _ Hin)| |done].
  - apply offers_app; [done|]. intros h p o Hin. destruct Ha as [[-> _]| ->]; in_actions.
  - intros c [Hin|Hin]%elem_of_app; [by destruct (Hc c)|]. destruct Ha as [[-> _]| ->]; in_actions. simplify_eq.
    split_and!; [done|done|]. by exists front.
  - intros reason' ->. destruct Ha as [[-> Hne]| ->]; [by destruct (Hne (Spliced reason'))|set_solver].
Qed.

Lemma exchanged_ok sessions table server introduction client host tier wires front :
  may_intercept sessions table introduction host tier -> legs introduction client front wires -> offers_own introduction front ->
  (forall c, CopyStreams c ∉ front) -> (forall h w r, RunExchange h w r ∉ front) ->
  (forall c wire, Terminate c wire ∈ front -> c = client /\ exists host profile alpn transport selected after,
    front = Dial (Domain host (port server)) :: Originate host profile alpn :: Terminate c wire :: after /\
    connect (Domain host (port server)) = inl transport /\ origin_connect host profile alpn transport = inl selected /\
    wire = from_alpn selected) ->
  forall outcome table' actions, exchanged sessions table host wires tier = (outcome, table', actions) ->
  session_ok sessions table server introduction client outcome table' (front ++ actions).
Proof.
  intros Hm Hw Hown Hc Hr Ht outcome table' actions He. unfold exchanged in He. simplify_eq. split.
  - intros a _ _. eauto.
  - intros h w r [Hin|Hin]%elem_of_app; [by destruct (Hr h w r)|]. in_actions. simplify_eq. exists tier. split_and!; [done|done|done|].
    unfold legs in *. destruct introduction; try done. destruct Hw as [Hin Hw]. split; [|done]. apply elem_of_app. by left.
  - apply offers_app; [done|]. intros ? ? ? Hin. in_actions.
  - intros c [Hin|Hin]%elem_of_app; [by destruct (Hc c)|in_actions].
  - intros c wire [Hin|Hin]%elem_of_app; [|in_actions].
    destruct (Ht c wire Hin) as (-> & h & profile & alpn & transport & selected & after & -> & Hdial & Horigin & Hwire). split; [done|].
    by exists h, profile, alpn, transport, selected, (after ++ [RunExchange host wires (Sessions_rewriting sessions tier)]).
  - done.
  - destruct (0 <? exchange_failures) eqn:Ef; [|by left]. reflect. right. exists host, tier, RewriteExhausted. split_and!; [done|done|by left].
Qed.

Lemma learn_spec table host leg error outcome table' : learn table host leg error = (outcome, table') ->
  (forall reason, outcome <> inl (Spliced reason)) /\
  (table' = table \/ exists cause, classify leg error = Some cause /\ table' = (record table host cause recorded_at).2).
Proof.
  unfold learn. destruct (classify leg error) as [cause|]; [|by intros; simplify_eq; split; [|left]].
  destruct (record table host cause recorded_at) as [st t] eqn:Er.
  destruct (Standing_permits st); intros; simplify_eq; (split; [done|right; exists cause; by rewrite Er]).
Qed.

Lemma approach_ok sessions table server introduction host approach tier peeked s transport :
  may_intercept sessions table introduction host tier -> approached introduction host approach -> connect (Domain host (port server)) = inl transport ->
  forall outcome table' actions, approach_streams sessions table server host approach tier peeked s transport = (outcome, table', actions) ->
  session_ok sessions table server introduction (Prefixed_new peeked s) outcome table' (Dial (Domain host (port server)) :: actions).
Proof.
  intros Hm Happ Hd outcome table' actions Ha. unfold approach_streams in Ha.
  assert (forall profile alpn more, approach = ApproachTls profile alpn -> (forall h p o, Originate h p o ∉ more) ->
    offers_own introduction (Dial (Domain host (port server)) :: Originate host profile (Offer_encode alpn) :: more)) as Hown.
  { intros profile alpn more Hap Hno h p o Hin. apply elem_of_cons in Hin as [Hin|[Hin|Hin]%elem_of_cons]; [done| |by destruct (Hno h p o)].
    simplify_eq. exists alpn. split; [exact Happ|apply Offer_encode_wire]. }
  destruct approach as [profile alpn|].
  2: { eapply (exchanged_ok _ _ _ _ _ host tier (Http1, Http1) [Dial (Domain host (port server))]);
         [done|by rewrite Happ|intros ? ? ? Hin; in_actions|intros ? Hin; in_actions|intros ? ? ? Hin; in_actions|intros ? ? Hin; in_actions|exact Ha]. }
  destruct (origin_connect host profile (Offer_encode alpn) transport) as [selected|error] eqn:Eo.
  - destruct (terminate (Prefixed_new peeked s) (from_alpn selected)) as [accepted|error] eqn:Et.
    + destruct (exchanged _ _ _ _ _) as [[o t] more] eqn:Ee. simplify_eq.
      eapply (exchanged_ok _ _ _ _ _ host tier _ [Dial (Domain host (port server)); Originate host profile (Offer_encode alpn); Terminate (Prefixed_new peeked s) (from_alpn selected)]);
        [done| |apply Hown; [done|intros ? ? ? Hin; in_actions]|intros ? Hin; in_actions|intros ? ? ? Hin; in_actions| |exact Ee].
      * rewrite Happ. cbn. split; [set_solver|]. destruct (terminate_selects _ _ _ Et) as [->| ->].
        { left. unfold from_alpn at 1. cbn. by rewrite from_identifier_identifier. }
        change (from_alpn None) with Http1. destruct (from_alpn selected); [by left|right; by split].
      * intros c wire Hin. in_actions. simplify_eq. split; [done|]. by eexists _, _, _, _, _, [].
    + destruct (learn table host ClientLeg error) as [o t] eqn:El. simplify_eq. apply learn_spec in El as [Hno Hlearn]. split.
      * intros a _ _. eauto.
      * intros h w r Hin. in_actions.
      * apply Hown; [done|]. intros ? ? ? Hin. in_actions.
      * intros c Hin. in_actions.
      * intros c wire Hin. in_actions. simplify_eq. split; [done|]. by eexists _, _, _, _, _, [].
      * intros reason Hout. by destruct (Hno reason).
      * destruct Hlearn as [->|(cause & Hc & ->)]; [by left|]. right. exists host, tier, cause. split_and!; [done|done|right; by exists ClientLeg, error].
  - destruct (splice_session server peeked s OriginHandshake) as [o more] eqn:Es. simplify_eq.
    eapply (splice_session_ok _ _ _ _ _ _ _ OriginHandshake [Dial (Domain host (port server)); Originate host profile (Offer_encode alpn)]);
      [by repeat constructor|intros ? Hin; in_actions|apply Hown; [done|intros ? ? ? Hin; in_actions]| |exact Es].
    destruct (classify UpstreamLeg error) as [cause|] eqn:Ec; [|by left]. right. exists host, tier, cause. split_and!; [done|done|].
    right. by exists UpstreamLeg, error.
Qed.

Lemma serve_introduced_ok sessions table server introduction peeked s outcome table' actions :
  serve_introduced sessions table server introduction peeked s = (outcome, table', actions) ->
  session_ok sessions table server introduction (Prefixed_new peeked s) outcome table' actions.
Proof.
  assert (forall reason, (let '(outcome, actions) := splice_session server peeked s reason in (outcome, table, actions)) = (outcome, table', actions) ->
    session_ok sessions table server introduction (Prefixed_new peeked s) outcome table' actions) as Hsp.
  { intros reason Hs. destruct (splice_session server peeked s reason) as [o more] eqn:Es. simplify_eq.
    apply (splice_session_ok _ _ _ _ _ _ _ reason []) with (outcome := outcome) (actions := actions); [done|set_solver|intros ? ? ? Hin; in_actions|by left|done]. }
  assert (forall host approach, introduced_host introduction = Some host -> approached introduction host approach ->
    match InterceptPolicy_decide (se_policy sessions) host with
    | SpliceHost => let '(outcome, actions) := splice_session server peeked s NotAllowlisted in (outcome, table, actions)
    | Intercept =>
        match Standing_permits (standing table host standing_at) with
        | inr cause => let '(outcome, actions) := splice_session server peeked s (DemotedHost cause) in (outcome, table, actions)
        | inl tier =>
            match connect (Domain host (port server)) with
            | inr error => (inr (UpstreamError error), table, [Dial (Domain host (port server))])
            | inl transport =>
                let '(outcome, table, actions) := approach_streams sessions table server host approach tier peeked s transport in
                (outcome, table, Dial (Domain host (port server)) :: actions)
            end
        end
    end = (outcome, table', actions) ->
    session_ok sessions table server introduction (Prefixed_new peeked s) outcome table' actions) as Hnamed.
  { intros host approach Hh Happ He. destruct (InterceptPolicy_decide _ host) eqn:Ed; [|by eapply Hsp].
    destruct (Standing_permits _) as [tier|cause] eqn:Ep; [|by eapply Hsp].
    assert (may_intercept sessions table introduction host tier) as Hm by done.
    destruct (connect _) as [transport|error] eqn:Ec.
    - destruct (approach_streams _ _ _ _ _ _ _ _ _) as [[o t] more] eqn:Ea. simplify_eq. by eapply approach_ok.
    - simplify_eq. split; [intros a ? ?; in_actions; subst; done|intros; in_actions..|done|by left]. }
  unfold serve_introduced. cbn zeta. intros He.
  destruct introduction as [|[[host|] profile alpn]|[host|]|]; [by eapply Hsp| |by eapply Hsp| |by eapply Hsp|by eapply Hsp].
  - by apply (Hnamed host (ApproachTls profile alpn)).
  - by apply (Hnamed host Cleartext).
Qed.
End ServeTheory.


(** Samples: a parser that knows one head, a network where everything answers, and a
    client whose hello arrives in two parts. *)
Definition sample_head : bytes := text_of "GET / HTTP/1.1".

Definition sample_parser : HeadParser :=
  {| parse_head bs :=
       if starts_with sample_head bs then ParseComplete [(text_of "Host", text_of "[::1]:8080")]
       else if starts_with bs sample_head then ParsePartial else ParseError;
     authority_host value :=
       match value with
       | 91 :: _ => before_literal ← head (split_char 93 value); Some (before_literal ++ [93])
       | _ => Some (before_last COLON value)
       end |}.

Lemma starts_with_spec prefix : forall bs, starts_with prefix bs = true <-> prefix `prefix_of` bs.
Proof.
  induction prefix as [|b prefix IH]; intros [|c bs]; cbn; [split; [intros _; apply prefix_nil|done]..| |].
  - split; [done|]. by intros ?%prefix_nil_inv.
  - rewrite andb_true_iff, IH, Z.eqb_eq. split; [intros [-> ?]; by apply prefix_cons|].
    intros Hp. split; [by eapply prefix_cons_inv_1|by eapply prefix_cons_inv_2].
Qed.

#[global] Instance sample_parser_laws : @HeadParserLaws sample_parser.
Proof.
  split; cbn [parse_head sample_parser].
  - intros bs fields more. destruct (starts_with sample_head bs) eqn:E; [|by intros Hp; case_match]. intros <-.
    apply starts_with_spec in E. assert (starts_with sample_head (bs ++ more) = true) as ->; [|done]. by apply starts_with_spec, prefix_app_r.
  - intros bs more. destruct (starts_with sample_head bs) eqn:E1; [done|]. destruct (starts_with bs sample_head) eqn:E2; [done|]. intros _.
    destruct (starts_with sample_head (bs ++ more)) eqn:E3.
    { apply starts_with_spec in E3. destruct (prefix_weak_total _ _ _ E3 (prefix_app_r bs bs more ltac:(done))) as [Hp|Hp];
        apply starts_with_spec in Hp; congruence. }
    destruct (starts_with (bs ++ more) sample_head) eqn:E4; [|done].
    apply starts_with_spec in E4. assert (starts_with bs sample_head = true); [|congruence].
    apply starts_with_spec. by eapply prefix_app_l.
Qed.

Definition sample_world : SessionWorld unit :=
  {| Transport := unit;
     connect _ := inl tt;
     origin_connect _ _ alpn _ := inl (if bool_decide (alpn = []) then None else Some (identifier Http2));
     terminate _ wire := inl (Some (identifier wire));
     exchange_failures := 0;
     copy_until_idle _ _ := None;
     standing_at := 5;
     recorded_at := 6 |}.

#[global] Instance sample_world_laws : @SessionWorldLaws unit sample_world.
Proof. split. cbn. intros client wire selected [= <-]. by left. Qed.

Definition sample_sessions : Sessions sample_styling :=
  @mkSessions sample_styling (InterceptPolicy_new [text_of "A.example"]) 3 (fun _ => None).

Definition sample_record : bytes := [22; 3; 1] ++ vec16 (hello_wire sample_hello).
Definition sample_client : Script := [Arrives (take 40 sample_record); ReadPending; Arrives (drop 40 sample_record ++ [9; 9])].
Definition sample_server : SocketAddr := mkEndpoint (V4 [192; 0; 2; 7]) 443.


(** ** Hosts whose requests are never served *)

(** A session keeps the brackets of an IPv6 literal, and the final dot of a name; the
    exchange takes both off the host of each request before it compares the two. *)
Lemma bracketed_host_misdirected {H R : Type} `{HttpHeaders H, Styling} (p : Proxy H R _) literal request host :
  px_host p = 91 :: literal -> 93 ∈ literal -> requested_host request = Some host -> for_host p request = false.
Proof.
  intros Hp Hin Hr. unfold for_host. rewrite Hr, Hp. destruct (eq_ignore_ascii_case _ _) eqn:E; [|done].
  apply bool_decide_eq_true in E. exfalso.
  assert (forall c x, to_ascii_lowercase c = x -> x = 91 \/ x = 93 -> c = x) as Hlow.
  { intros c x. unfold to_ascii_lowercase. destruct (_ && _) eqn:El; [|by intros ->]. reflect. lia. }
  assert (93 ∈ host) as H93.
  { assert (93 ∈ (to_ascii_lowercase <$> host)) as (c & Hc & Hin')%list_elem_of_fmap.
    { rewrite E. apply list_elem_of_fmap. exists 93. split; [done|by right]. }
    symmetry in Hc. apply Hlow in Hc as ->; [done|by right]. }
  destruct host as [|c host]; [by apply not_elem_of_nil in H93|]. injection E as Ec _.
  assert (c = 91) as -> by (apply Hlow; [exact Ec|by left]). unfold requested_host in Hr. apply bind_Some in Hr as (named & _ & Hr).
  injection Hr as Hr. assert (forall bs x, x ∈ trim_end_char DOT bs -> x ∈ bs) as Hsub.
  { intros bs x Hx. destruct (trim_end_char_prefix DOT bs) as [more Hm].
    assert (x ∈ trim_end_char DOT bs ++ more) as Hx' by set_solver. by rewrite <- Hm in Hx'. }
  destruct (strip_prefix [91] named) as [literal'|] eqn:Es.
  - assert (93 ∈ default [] (head (split_char 93 literal'))) as Hin' by (apply Hsub; by rewrite Hr).
    pose proof (split_char_pieces 93 literal') as Hs. destruct (split_char 93 literal') as [|piece pieces]; [by apply not_elem_of_nil in Hin'|].
    apply Forall_cons in Hs as [[Hno _] _]. done.
  - destruct (trim_end_char_prefix DOT (before_last COLON named)) as [more Hm]. rewrite Hr in Hm.
    assert (before_last COLON named `prefix_of` named) as [more' Hm'] by (unfold before_last; case_match; [by eexists; symmetry; apply take_drop|done]).
    rewrite Hm in Hm'. unfold strip_prefix in Es. rewrite Hm' in Es. cbn in Es. done.
Qed.

(** A name with a final dot is not met either, since the dots of a request's host go. *)
Lemma dotted_host_misdirected {H R : Type} `{HttpHeaders H, Styling} (p : Proxy H R _) name request host :
  px_host p = name ++ [DOT] -> requested_host request = Some host -> for_host p request = false.
Proof.
  intros Hp Hr. unfold for_host. rewrite Hr, Hp. destruct (eq_ignore_ascii_case _ _) eqn:E; [|done]. exfalso.
  apply bool_decide_eq_true in E. unfold requested_host in Hr. apply bind_Some in Hr as (named & _ & Hr). injection Hr as Hr.
  rewrite fmap_app in E. destruct host as [|c host _] using rev_ind; [by destruct name|]. rewrite fmap_app in E.
  apply app_inj_tail in E as [_ Ec]. assert (c = DOT) as ->.
  { revert Ec. unfold to_ascii_lowercase, DOT. destruct (_ && _) eqn:El; reflect; cbn; lia. }
  by apply (trim_end_char_last DOT _ host) in Hr.
Qed.

(** Such a host is what a cleartext client of an IPv6 literal introduces. *)
Example bracketed_introduction : @introduce sample_parser sample_head = HttpHead (Some (text_of "[::1]")).
Proof. vm_compute. reflexivity. Qed.
