(* ===== verification/Api.v ===== *)
(** The host-facing API of [src/api.rs]: the checked plan of a configuration, the tunnel
    it starts, reloading, and the events a host sees.

    Starting composes the components of this library: the datapath, the local stack, the
    sessions with their rule engine, and the host policy compiled from the lists.  What
    the platform and the certificate authority answer is a class of operations.  The
    result is the tunnel or the error, with the sockets opened and the tasks spawned on
    the way, in order. *)

From S2P Require Import Prelude Wire Net Plan Pool Packet Udp Datapath DatapathSafety DnsName DnsMessage DnsPolicy DnsResponse Filter Telemetry.
From S2P Require Import Stack StackTheory Egress WireGuard IpText Text Csp Rewrite Mirror Demote Exchange Rules Session.
Open Scope Z_scope.

(** * Configuration *)

Inductive VlessTransport := VlessPlain | VlessTls | VlessWebSocket | VlessGrpc | VlessHttpUpgrade | VlessHttp.

Inductive EgressChoice :=
| ChooseDirect (behavior : NatBehavior)
| ChooseWireGuard (peer : SocketAddr)
| ChooseSocks5
| ChooseShadowsocks
| ChooseVless (transport : VlessTransport)
| ChooseHysteria2.

Inductive UpstreamChoice :=
| ChooseDo53 (resolver : SocketAddr)
| ChooseDot (resolver : SocketAddr) (server_name : bytes)
| ChooseDoh (url : bytes) (resolver : SocketAddr)
| ChooseDoq (resolver : SocketAddr) (server_name : bytes).

Inductive ResolverChoice := Passthrough | LocalResolver (upstream : UpstreamChoice).

(** Authority material to restore, or a new one. *)
Inductive Trust := TrustGenerate | TrustRestore (material : bytes).

Record Interception := mkInterception { in_hosts : list bytes; in_trust : Trust; in_documents : option StreamBudget }.
Record Filtering := mkFiltering { fi_lists : list bytes; fi_interception : option Interception }.
Record Link := mkLink { lk_mtu : Mtu; lk_origination_ports : OriginationPorts }.

Record Ceilings := mkCeilings {
  buffer_slices : nat;
  datagrams_per_flow : nat;
  terminated_connections : nat;
  associations : nat;
  inspected_addresses : nat;
  pending_reassemblies : nat;
}.

Record TunnelConfig := mkConfig {
  tc_egress : EgressChoice;
  tc_resolver : ResolverChoice;
  tc_filtering : Filtering;
  tc_link : Link;
  tc_ceilings : Ceilings;
}.

Definition DEFAULT_ORIGINATION_PORTS : OriginationPorts := mkPorts 45000 46000.
Definition Link_default : Link := mkLink (mkMtu MIN_IPV6_MTU) DEFAULT_ORIGINATION_PORTS.
Definition Ceilings_default : Ceilings := mkCeilings 2048 32 512 256 1024 64.
Definition SLICE_HEADROOM : Z := 128.
Definition MAX_FLOWS : nat := 4096.
Definition DEFAULT_INSPECTED_PORTS : list Z := [80; 443].

(** ** The checked plan *)

Inductive ConfigError := NothingToFilter | NoHostsToIntercept | NotAHost (text : bytes) | LinkTooNarrow.

Record TunnelPlan := mkTunnelPlan {
  pl_filter : FilterPolicy;
  pl_dns : DnsPolicy;
  pl_accepts : Accepts;
  pl_terminates : bool;
  pl_relays : bool;
}.

Definition accepts_of (egress : EgressChoice) : Accepts := match egress with ChooseWireGuard _ => IpPackets | _ => Flows end.

Fixpoint check_hosts (hosts : list bytes) : Res ConfigError unit :=
  match hosts with
  | [] => Ok tt
  | host :: hosts => match DomainName_new host with Ok _ => check_hosts hosts | _ => Err (NotAHost host) end
  end.

Definition plan (config : TunnelConfig) : Res ConfigError TunnelPlan :=
  let accepts := accepts_of (tc_egress config) in
  let interception := fi_interception (tc_filtering config) in
  _ ← match interception with
      | Some i => if (length (in_hosts i) =? 0)%nat then Err NoHostsToIntercept else check_hosts (in_hosts i)
      | None => Ok tt
      end;
  let dns := match tc_resolver config with LocalResolver _ => Dns_Intercept | Passthrough => Dns_Forward end in
  let intercepts := match interception with Some _ => true | None => false end in
  let filter := if intercepts then InspectHttp else Filter_PassThrough in
  if bool_decide (filter = InspectHttp) && bool_decide (dns = Dns_Forward) && bool_decide (accepts = IpPackets) then Err NothingToFilter else
  if bool_decide (dns = Dns_Forward) && negb (length (fi_lists (tc_filtering config)) =? 0)%nat then Err NothingToFilter else
  Ok (mkTunnelPlan filter dns accepts (bool_decide (accepts = Flows) || intercepts) (bool_decide (accepts = Flows))).

(** * Starting *)

Definition compile (lists : list bytes) : HostPolicy := foldl (fun policy list_ => (extend_from_list policy list_).1) HostPolicy_new lists.

Definition limits (link : Link) (ceilings : Ceilings) (p : TunnelPlan) : Limits :=
  mkLimits (from_secs 30) (pending_reassemblies ceilings) (from_secs 120) MAX_FLOWS (datagrams_per_flow ceilings) (from_secs 60)
    (inspected_addresses ceilings) DEFAULT_INSPECTED_PORTS (if pl_terminates p then Some (lk_origination_ports link) else None).

Inductive StartError `{Etherparse} {W : Type} :=
| StartConfig (error : ConfigError)
| StartAuthority
| StartEgress (error : EgressError W)
| StartDatapath (error : DatapathError)
| StartIo (kind : ErrorKind)
| StartTermination (error : TerminationError).
Arguments StartError {_} W.

(** What starting asks of the outside: the bypass socket of a peer, the TLS side of a
    transport, the properties of a stream egress, the certificate authority, the names
    of encrypted resolvers, two readings of the clock and an interface for the stack. *)
Class StartWorld (W I : Type) := {
  bypass_udp : SocketAddr -> option ErrorKind;
  tls_transport : option (EgressError W);
  stream_properties : EgressChoice -> PathProperties;
  authority_open : Trust -> bool;
  authority_generate : bool;
  interceptor_built : bool;
  dot_name_ok : bytes -> bool;
  doh_url_ok : bytes -> bool;
  flows_clock : Instant;
  icmp_clock : Instant;
  stack_clock : Instant;
  stack_interface : I;
}.

Inductive TunnelTask := TaskTerminator | TaskSessions | TaskRelay | TaskShell.
Inductive StartAction := OpenSocket (peer : SocketAddr) | Spawn (task : TunnelTask).

Section Start.
Context {W S I : Type} `{Etherparse, Smoltcp S I, BrowserEngine, Styling, StartWorld W I}.

Record Tunnel := mkTunnel {
  tn_datapath : Datapath;
  tn_policy : HostPolicy;
  tn_termination : option (LocalStack S I * Sessions _);
  tn_relay : option nat;
  tn_upstream : option UpstreamChoice;
  tn_authority : bool;
}.

(** A step that may fail, with the actions before it. *)
Definition Starting (A : Type) : Type := list StartAction * Res (StartError W) A.

Definition done_ {A} (a : A) : Starting A := ([], Ok a).
Definition fail_ {A} (e : StartError W) : Starting A := ([], Err e).
Definition act (a : StartAction) : Starting unit := ([a], Ok tt).
Definition then_ {A B} (x : Starting A) (f : A -> Starting B) : Starting B :=
  match x with
  | (actions, Ok a) => let '(more, r) := f a in (actions ++ more, r)
  | (actions, Err e) => (actions, Err e)
  | (actions, Panic) => (actions, Panic)
  end.
Definition from_res {E A} (wrap : E -> StartError W) (r : Res E A) : Starting A :=
  match r with Ok a => done_ a | Err e => fail_ (wrap e) | Panic => ([], Panic) end.

(** The properties of the egress, once it is built. *)
Definition build_egress (choice : EgressChoice) : Starting PathProperties :=
  match choice with
  | ChooseWireGuard peer =>
      match bypass_udp peer with
      | Some kind => fail_ (StartIo kind)
      | None => then_ (act (OpenSocket peer)) (fun _ => done_ WireGuard_properties)
      end
  | ChooseVless VlessPlain => done_ (stream_properties choice)
  | ChooseVless _ => match tls_transport with Some e => fail_ (StartEgress e) | None => done_ (stream_properties choice) end
  | _ => done_ (stream_properties choice)
  end.

(** The sessions: their policy has the hosts to intercept, and the rule engine hides
    elements where documents are rewritten. *)
Definition build_sessions (patience : nat) (lists : list bytes) (intercepted : option (list bytes * option StreamBudget)) (has_authority : bool)
    : Starting (Sessions _) :=
  if negb (has_authority || authority_generate) then fail_ StartAuthority else
  if negb interceptor_built then fail_ StartAuthority else
  let hosts := match intercepted with Some (hosts, _) => hosts | None => [] end in
  let index := index_of lists in
  let cosmetic := match intercepted with Some (_, Some _) => fun host => compiled_rules index (lower host) | _ => fun _ => None end in
  done_ (mkSessions (InterceptPolicy_new hosts) patience cosmetic).

Definition start_termination (patience : nat) (filtering : Filtering) (accepts : Accepts) (link : Link) (ceilings : Ceilings) (pool : BufferPool)
    : Starting ((LocalStack S I * Sessions _) * bool) :=
  then_ (from_res StartTermination
           (LocalStack_new (lk_mtu link) DEFAULT_INSPECTED_PORTS (mkTerminationLimits (terminated_connections ceilings) 64 (64 * 1024)) pool
              stack_clock stack_interface)) (fun stack =>
  let stack := if bool_decide (accepts = Flows) then terminate_every_port stack else stack in
  then_ (act (Spawn TaskTerminator)) (fun _ =>
  match fi_interception filtering with
  | None =>
      then_ (build_sessions patience (fi_lists filtering) None false) (fun sessions =>
      then_ (act (Spawn TaskSessions)) (fun _ => done_ ((stack, sessions), false)))
  | Some interception =>
      if negb (authority_open (in_trust interception)) then fail_ StartAuthority else
      then_ (build_sessions patience (fi_lists filtering) (Some (in_hosts interception, in_documents interception)) true) (fun sessions =>
      then_ (act (Spawn TaskSessions)) (fun _ => done_ ((stack, sessions), true)))
  end)).

Definition build_upstream (upstream : UpstreamChoice) : Starting UpstreamChoice :=
  match upstream with
  | ChooseDot _ server_name => if dot_name_ok server_name then done_ upstream else fail_ (StartConfig (NotAHost server_name))
  | ChooseDoh url _ => if doh_url_ok url then done_ upstream else fail_ (StartConfig (NotAHost url))
  | _ => done_ upstream
  end.

Definition start (patience : nat) (config : TunnelConfig) : Starting Tunnel :=
  then_ (from_res StartConfig (plan config)) (fun p =>
  let '(mkConfig egress resolver filtering link ceilings) := config in
  let pool := BufferPool_new (Z.to_nat (Mtu_get (lk_mtu link) + SLICE_HEADROOM)) (buffer_slices ceilings) in
  then_ (build_egress egress) (fun properties =>
  then_ (from_res StartDatapath
           (Datapath_new (pl_filter p) (pl_dns p) (pl_accepts p) properties (lk_mtu link) (limits link ceilings p) pool flows_clock icmp_clock))
    (fun datapath =>
  let policy := compile (fi_lists filtering) in
  then_ (if pl_terminates p
         then then_ (start_termination patience filtering (pl_accepts p) link ceilings pool) (fun '(built, authority) => done_ (Some built, authority))
         else done_ (None, false)) (fun '(termination, authority) =>
  then_ (if pl_relays p then then_ (act (Spawn TaskRelay)) (fun _ => done_ (Some (associations ceilings))) else done_ None) (fun relay =>
  then_ (match resolver with
         | LocalResolver upstream => then_ (build_upstream upstream) (fun u => done_ (Some u))
         | Passthrough => done_ None
         end) (fun upstream =>
  then_ (act (Spawn TaskShell)) (fun _ =>
  done_ (mkTunnel datapath policy termination relay upstream authority)))))))).
End Start.

(** * Events *)

(** [Display] of a name: visible characters as they are, others as three digits. *)
Definition Name_text (n : Name) : bytes :=
  if Name_is_root n then text_of "."
  else n ≫= fun byte =>
    if ((0x21 <=? byte) && (byte <=? 0x5b)) || ((0x5d <=? byte) && (byte <=? 0x7e)) then [byte]
    else [92; 48 + byte / 100; 48 + byte / 10 mod 10; 48 + byte mod 10].

Record ApiCounters := mkApiCounters {
  ac_datagrams_dropped : Z;
  ac_packets_rejected : Z;
  ac_quic_steered : Z;
  ac_paths_reported : Z;
  ac_events_lost : Z;
  ac_tasks_panicked : Z;
}.

Inductive ApiEvent :=
| EventResolved (name : bytes) (blocked : bool) (rule : option bytes)
| EventReloaded (allowed blocked inspected : nat)
| EventCounted (counters : ApiCounters).

Definition event_reloaded (counts : RuleCounts) : ApiEvent := EventReloaded (rc_allowed counts) (rc_blocked counts) (rc_inspected counts).

Definition project (t : Telemetry) : option ApiEvent :=
  match t with
  | Telemetry_Resolved r =>
      Some (EventResolved (Name_text (res_name r)) (match res_provenance r with Provenance_Policy => true | _ => false end) (Name_text <$> res_rule r))
  | PolicyReloaded counts => Some (event_reloaded counts)
  | DatagramsDropped count => Some (EventCounted (mkApiCounters count 0 0 0 0 0))
  | PacketsRejected count => Some (EventCounted (mkApiCounters 0 count 0 0 0 0))
  | Telemetry_QuicSteered count => Some (EventCounted (mkApiCounters 0 0 count 0 0 0))
  | PathsReported count => Some (EventCounted (mkApiCounters 0 0 0 count 0 0))
  | Lost count => Some (EventCounted (mkApiCounters 0 0 0 0 count 0))
  | TasksPanicked count => Some (EventCounted (mkApiCounters 0 0 0 0 0 count))
  | Telemetry_Event _ | Telemetry_ReassemblyDiscarded _ | TransmitsDropped _ | EgressRejected _ | QueriesDropped _ | TerminationDropped _
  | DeviceErrors _ | NetworkErrors _ | Telemetry_PoolExhausted _ => None
  end.

(** The telemetry that waits; [None] when it ended without an event to show. *)
Fixpoint next_event (waiting : list Telemetry) : option (ApiEvent * list Telemetry) :=
  match waiting with
  | [] => None
  | t :: waiting => match project t with Some event => Some (event, waiting) | None => next_event waiting end
  end.

(** The published policy and what the caller is told. *)
Definition reload (lists : list bytes) : HostPolicy * ApiEvent := let policy := compile lists in (policy, event_reloaded (HostPolicy_len policy)).

(** ** What a host is shown *)

Fixpoint all_events (fuel : nat) (waiting : list Telemetry) : list ApiEvent :=
  match fuel with
  | O => []
  | S fuel => match next_event waiting with Some (event, waiting) => event :: all_events fuel waiting | None => [] end
  end.

Lemma next_event_shorter waiting event rest : next_event waiting = Some (event, rest) -> (length rest < length waiting)%nat.
Proof.
  induction waiting as [|t waiting IH]; [done|]. cbn. destruct (project t); [intros [= _ <-]; lia|]. intros H%IH. lia.
Qed.

(** Calling until the telemetry ends shows every event once and in order. *)
Lemma all_events_project waiting : forall fuel, (length waiting <= fuel)%nat -> all_events fuel waiting = omap project waiting.
Proof.
  induction waiting as [|t waiting IH]; intros fuel Hf; [by destruct fuel|]. destruct fuel as [|fuel]; [cbn in Hf; lia|]. cbn in Hf.
  cbn [all_events next_event omap list_omap]. destruct (project t) as [event|] eqn:E.
  - rewrite IH by lia. done.
  - specialize (IH (S fuel) ltac:(lia)). cbn [all_events] in IH. exact IH.
Qed.

(** * What a start does *)

Definition spawned (actions : list StartAction) : list TunnelTask := omap (fun a => match a with Spawn t => Some t | OpenSocket _ => None end) actions.

Lemma compile_inspected lists : hp_inspected (compile lists) = ∅.
Proof.
  unfold compile. assert (forall p, hp_inspected (foldl (fun policy list_ => (extend_from_list policy list_).1) p lists) = hp_inspected p) as ->; [|done].
  induction lists as [|l lists IH]; intros p; [done|]. cbn. rewrite IH. unfold extend_from_list.
  by destruct (apply_rules_policy (lines l ≫= hosts_names) p ListReport_default) as (_ & _ & Hi).
Qed.

(** No name is inspected, whatever the lists and the hosts to intercept: the hosts reach
    the sessions and never the policy that judges names. *)
Lemma started_policy_inspects_nothing lists name : j_verdict (HostPolicy_judge (compile lists) name) <> Inspected.
Proof.
  unfold HostPolicy_judge. assert (forall suffixes decided, (forall d, decided = Some d -> j_verdict d <> Inspected) ->
    j_verdict (judge_loop (compile lists) decided suffixes) <> Inspected) as Hloop; [|by apply Hloop].
  induction suffixes as [|suffix suffixes IH]; intros decided Hd; cbn [judge_loop].
  - destruct decided as [d|]; [by apply Hd|done].
  - case_bool_decide; [done|]. apply IH. rewrite compile_inspected. rewrite (bool_decide_false (suffix ∈ ∅)) by set_solver.
    intros d. repeat case_match; intros; simplify_eq; try done; by eapply Hd.
Qed.

Lemma check_hosts_total hosts : check_hosts hosts <> Panic.
Proof. induction hosts as [|host hosts IH]; [done|]. cbn. by destruct (DomainName_new host). Qed.

(** What a plan that passed fixes. *)
Lemma plan_spec config :
  match plan config with
  | Ok p =>
      pl_accepts p = accepts_of (tc_egress config) /\
      pl_terminates p = bool_decide (pl_accepts p = Flows) || bool_decide (is_Some (fi_interception (tc_filtering config))) /\
      pl_relays p = bool_decide (pl_accepts p = Flows) /\
      bool_decide (pl_filter p = InspectHttp) && bool_decide (pl_dns p = Dns_Forward) && bool_decide (pl_accepts p = IpPackets) = false
  | Err _ => True
  | Panic => False
  end.
Proof.
  unfold plan. destruct (fi_interception (tc_filtering config)) as [i|].
  - pose proof (check_hosts_total (in_hosts i)) as Hc. destruct (length (in_hosts i) =? 0)%nat; [done|]. destruct (check_hosts (in_hosts i)); [|done|by destruct Hc].
    cbn [mbind Res_bind]. cbn zeta. destruct (_ && _ && _) eqn:E; [done|]. destruct (_ && negb _); [done|].
    cbn [pl_accepts pl_terminates pl_relays pl_filter pl_dns]. split_and!; [done| |done|done].
    by rewrite (bool_decide_true (is_Some (Some i))).
  - cbn [mbind Res_bind]. cbn zeta. destruct (_ && _ && _) eqn:E; [done|]. destruct (_ && negb _); [done|].
    cbn [pl_accepts pl_terminates pl_relays pl_filter pl_dns]. split_and!; [done| |done|done].
    by rewrite (bool_decide_false (is_Some None)) by by intros [].
Qed.

Section StartTheory.
Context {W S I : Type} `{Etherparse, SmoltcpLaws S I, BrowserEngine, Styling, StartWorld W I}.

Lemma check_plans_spec filter accepts properties mtu :
  match check_plans (plans_for filter accepts properties mtu) with
  | Ok _ => True
  | Err e => accepts = IpPackets /\ Mtu_get mtu - overhead_bytes properties < MIN_IPV6_MTU
  | Panic => False
  end.
Proof.
  unfold plans_for. assert (forall inspections, match check_plans ((fun inspection => plan_flow filter inspection accepts properties mtu) <$> inspections) with
    | Ok _ => True | Err e => accepts = IpPackets /\ Mtu_get mtu - overhead_bytes properties < MIN_IPV6_MTU | Panic => False end) as Hall; [|apply Hall].
  induction inspections as [|inspection inspections IH]; [done|]. cbn [fmap list_fmap check_plans].
  pose proof (plan_flow_spec filter inspection accepts properties mtu) as Hp. cbn zeta in Hp.
  destruct (plan_flow filter inspection accepts properties mtu); [exact IH| |done]. destruct Hp as (_ & Ha & [[_ Hn]|[_ Hn]]); (split; [done|]); unfold MIN_IPV6_MTU in *; lia.
Qed.

(** A checked plan makes a datapath unless packets do not fit the link. *)
Lemma datapath_built p properties mtu lim pool t1 t2 :
  bool_decide (pl_filter p = InspectHttp) && bool_decide (pl_dns p = Dns_Forward) && bool_decide (pl_accepts p = IpPackets) = false ->
  l_flow_idle_timeout lim = from_secs 120 ->
  match Datapath_new (pl_filter p) (pl_dns p) (pl_accepts p) properties mtu lim pool t1 t2 with
  | Ok _ => True
  | Err _ => pl_accepts p = IpPackets /\ Mtu_get mtu - overhead_bytes properties < MIN_IPV6_MTU
  | Panic => False
  end.
Proof.
  intros Hv Ht. unfold Datapath_new. rewrite Hv. cbn zeta. pose proof (check_plans_spec (pl_filter p) (pl_accepts p) properties mtu) as Hc.
  destruct (check_plans _); [|done|done]. cbn [mbind Res_bind]. unfold UdpFlowTable_new. rewrite Ht. by rewrite Z.ltb_irrefl.
Qed.

Lemma stack_built mtu connections pool base iface :
  match LocalStack_new (S := S) mtu DEFAULT_INSPECTED_PORTS (mkTerminationLimits connections 64 (64 * 1024)) pool base iface with
  | Ok _ => True
  | Err _ => (connections < 128)%nat
  | Panic => False
  end.
Proof.
  unfold LocalStack_new. destruct (_ <? _)%nat eqn:E; [apply Nat.ltb_lt in E; cbn in E; lia|]. cbn zeta.
  set (st0 := mkStack _ _ _ _ _ _ _ _ _ _ _ _ _). assert (tables_ok [] st0) as Ht0 by (by apply fresh_tables).
  by destruct (replenish_ok (E := TerminationError) st0 Ht0) as (st1 & -> & _).
Qed.

(** The sessions a start builds, with or without interception. *)
Definition sessions_ok (filtering : Filtering) (sessions : Sessions _) : Prop :=
  (forall host, InterceptPolicy_decide (se_policy sessions) host = Intercept <->
     exists i listed, fi_interception filtering = Some i /\ listed ∈ in_hosts i /\ eq_ignore_ascii_case host listed = true) /\
  (forall host r, se_cosmetic sessions host = Some r -> exists selectors, HidingRules_compile selectors = Some r).

Lemma build_sessions_spec patience filtering intercepted authority actions r :
  intercepted = (fun i => (in_hosts i, in_documents i)) <$> fi_interception filtering ->
  build_sessions (W := W) (I := I) patience (fi_lists filtering) intercepted authority = (actions, r) ->
  actions = [] /\ match r with Ok sessions => sessions_ok filtering sessions | Err e => e = StartAuthority | Panic => False end.
Proof.
  intros Hi Hb. unfold build_sessions in Hb. destruct (negb (authority || authority_generate)); [by injection Hb as <- <-|].
  destruct (negb interceptor_built); [by injection Hb as <- <-|]. injection Hb as <- <-. split; [done|]. split; cbn [se_policy se_cosmetic].
  - intros host. rewrite decide_exact. subst intercepted. destruct (fi_interception filtering) as [i|]; cbn.
    + split; [intros (listed & Hin & He); by exists i, listed|]. intros (i' & listed & [= <-] & Hin & He). by exists listed.
    + split; [by intros (listed & ?%not_elem_of_nil & _)|by intros (i & listed & ? & _)].
  - intros host rules Hr. destruct intercepted as [[hosts [budget|]]|]; [by eapply cosmetic_source_compiled|done|done].
Qed.

(** A step ends with [Q] of its actions and value, or with an error of [F] and no shell. *)
Definition starting {A : Type} (x : Starting A) (Q : list StartAction -> A -> Prop) (F : StartError W -> Prop) : Prop :=
  match x with
  | (actions, Ok a) => Q actions a
  | (actions, Err e) => F e /\ TaskShell ∉ spawned actions
  | (_, Panic) => False
  end.

Lemma starting_then {A B} (x : Starting A) (f : A -> Starting B) Q Q' F :
  starting x Q F ->
  (forall actions a, Q actions a -> TaskShell ∉ spawned actions /\ starting (f a) (fun more b => Q' (actions ++ more) b) F) ->
  starting (then_ x f) Q' F.
Proof.
  unfold starting. destruct x as [actions [a|e|]]; cbn [then_]; [|done|done]. intros Hq Hf. destruct (Hf _ _ Hq) as [Hn Hb].
  destruct (f a) as [more [b|e|]]; [done| |done]. destruct Hb as [He Hm]. split; [done|]. unfold spawned in *. rewrite omap_app. set_solver.
Qed.

Lemma starting_weaken {A} (x : Starting A) (Q Q' : list StartAction -> A -> Prop) (F F' : StartError W -> Prop) :
  starting x Q F -> (forall actions a, Q actions a -> Q' actions a) -> (forall e, F e -> F' e) -> starting x Q' F'.
Proof. unfold starting. destruct x as [actions [a|e|]]; [intros; auto|intros [? ?] ? ?; auto|done]. Qed.

Lemma build_egress_spec choice : starting (build_egress choice)
  (fun actions properties => spawned actions = [] /\ (accepts_of choice = IpPackets -> properties = WireGuard_properties))
  (fun e => match e with StartIo _ => exists peer, choice = ChooseWireGuard peer | StartEgress _ => exists transport, choice = ChooseVless transport
            | _ => False end).
Proof.
  destruct choice as [behavior|peer| | |[]|]; cbn; try done; [destruct (bypass_udp peer); cbn; [split; [by exists peer|apply not_elem_of_nil]|done]|..];
    destruct tls_transport; cbn; try done; (split; [by eexists|apply not_elem_of_nil]).
Qed.

Lemma start_termination_spec patience filtering accepts link ceilings pool : starting (start_termination patience filtering accepts link ceilings pool)
  (fun actions built => actions = [Spawn TaskTerminator; Spawn TaskSessions] /\ sessions_ok filtering built.1.2 /\
     built.2 = bool_decide (is_Some (fi_interception filtering)))
  (fun e => match e with StartTermination _ => (terminated_connections ceilings < 128)%nat | StartAuthority => True | _ => False end).
Proof.
  unfold start_termination. eapply (starting_then _ _ (fun actions _ => actions = [])).
  { pose proof (stack_built (lk_mtu link) (terminated_connections ceilings) pool stack_clock stack_interface) as Hs.
    destruct (LocalStack_new _ _ _ _ _ _); cbn; [done|split; [done|apply not_elem_of_nil]|done]. }
  intros actions stack ->. split; [apply not_elem_of_nil|]. cbn zeta. set (stack' := if bool_decide (accepts = Flows) then _ else _).
  eapply (starting_then _ _ (fun actions _ => actions = [Spawn TaskTerminator])); [done|]. intros actions _ ->. split; [set_solver|].
  destruct (fi_interception filtering) as [i|] eqn:Ei; [destruct (negb (authority_open (in_trust i))); [cbn; split; [done|apply not_elem_of_nil]|]|].
  - eapply (starting_then _ _ (fun actions sessions => actions = [] /\ sessions_ok filtering sessions)).
    + destruct (build_sessions _ _ _ _) as [actions r] eqn:Eb. apply (build_sessions_spec _ filtering) in Eb as [-> Hr]; [|by rewrite Ei].
      destruct r; cbn; [done|by subst; split; [|apply not_elem_of_nil]|done].
    + intros actions sessions [-> Hs]. split; [apply not_elem_of_nil|]. cbn. by split_and!.
  - eapply (starting_then _ _ (fun actions sessions => actions = [] /\ sessions_ok filtering sessions)).
    + destruct (build_sessions _ _ _ _) as [actions r] eqn:Eb. apply (build_sessions_spec _ filtering) in Eb as [-> Hr]; [|by rewrite Ei].
      destruct r; cbn; [done|by subst; split; [|apply not_elem_of_nil]|done].
    + intros actions sessions [-> Hs]. split; [apply not_elem_of_nil|]. cbn. by split_and!.
Qed.

(** Why a checked configuration may still not start. *)
Definition start_failure (config : TunnelConfig) (p : TunnelPlan) (e : StartError W) : Prop :=
  match e with
  | StartConfig error => exists text upstream, error = NotAHost text /\ tc_resolver config = LocalResolver upstream
  | StartAuthority => pl_terminates p = true
  | StartEgress _ => exists transport, tc_egress config = ChooseVless transport
  | StartDatapath _ => pl_accepts p = IpPackets /\ Mtu_get (lk_mtu (tc_link config)) - WIREGUARD_OVERHEAD_BYTES < MIN_IPV6_MTU
  | StartIo _ => exists peer, tc_egress config = ChooseWireGuard peer
  | StartTermination _ => pl_terminates p = true /\ (terminated_connections (tc_ceilings config) < 128)%nat
  end.

Record started (config : TunnelConfig) (p : TunnelPlan) (actions : list StartAction) (t : Tunnel (S := S) (I := I)) : Prop := {
  sd_tasks : spawned actions =
    (if pl_terminates p then [TaskTerminator; TaskSessions] else []) ++ (if pl_relays p then [TaskRelay] else []) ++ [TaskShell];
  sd_datapath c : c + from_secs 30 <= INSTANT_MAX -> reached (limits (tc_link config) (tc_ceilings config) p) (tn_datapath t) c;
  sd_policy : tn_policy t = compile (fi_lists (tc_filtering config));
  sd_authority : tn_authority t = bool_decide (is_Some (fi_interception (tc_filtering config)));
  sd_termination : match tn_termination t with
    | Some (_, sessions) => pl_terminates p = true /\ sessions_ok (tc_filtering config) sessions
    | None => pl_terminates p = false
    end;
  sd_relay : tn_relay t = if pl_relays p then Some (associations (tc_ceilings config)) else None;
}.

Lemma build_upstream_spec upstream : starting (build_upstream upstream) (fun actions u => actions = [] /\ u = upstream)
  (fun e => match e with StartConfig error => exists text, error = NotAHost text | _ => False end).
Proof.
  destruct upstream as [resolver|resolver name|url resolver|resolver name]; cbn; [done| | |done].
  - destruct (dot_name_ok name); cbn; [done|split; [by exists name|apply not_elem_of_nil]].
  - destruct (doh_url_ok url); cbn; [done|split; [by exists url|apply not_elem_of_nil]].
Qed.

(** The part of a start after the checked plan and the egress. *)
Lemma start_assembled patience config p properties front :
  pl_terminates p = bool_decide (pl_accepts p = Flows) || bool_decide (is_Some (fi_interception (tc_filtering config))) ->
  spawned front = [] -> forall d,
  let link := tc_link config in let ceilings := tc_ceilings config in let filtering := tc_filtering config in
  let pool := BufferPool_new (Z.to_nat (Mtu_get (lk_mtu link) + SLICE_HEADROOM)) (buffer_slices ceilings) in
  Datapath_new (pl_filter p) (pl_dns p) (pl_accepts p) properties (lk_mtu link) (limits link ceilings p) pool flows_clock icmp_clock = Ok d ->
  starting (
    then_ (if pl_terminates p
           then then_ (start_termination patience filtering (pl_accepts p) link ceilings pool) (fun '(built, authority) => done_ (Some built, authority))
           else done_ (None, false)) (fun '(termination, authority) =>
    then_ (if pl_relays p then then_ (act (Spawn TaskRelay)) (fun _ => done_ (Some (associations ceilings))) else done_ None) (fun relay =>
    then_ (match tc_resolver config with
           | LocalResolver upstream => then_ (build_upstream upstream) (fun u => done_ (Some u))
           | Passthrough => done_ None
           end) (fun upstream =>
    then_ (act (Spawn TaskShell)) (fun _ =>
    done_ (mkTunnel d (compile (fi_lists filtering)) termination relay upstream authority))))))
  (fun actions t => started config p (front ++ actions) t) (start_failure config p).
Proof.
  intros Hterm Hfront d link ceilings filtering pool Hd.
  eapply (starting_then _ _ (fun actions built => spawned actions = (if pl_terminates p then [TaskTerminator; TaskSessions] else []) /\
    built.2 = bool_decide (is_Some (fi_interception filtering)) /\
    match built.1 with Some (_, sessions) => pl_terminates p = true /\ sessions_ok filtering sessions | None => pl_terminates p = false end)).
  { destruct (pl_terminates p) eqn:Et.
    - eapply starting_then; [eapply starting_weaken; [apply start_termination_spec|intros actions a Ha; exact Ha|]|].
      + intros []; cbn; [done|done|done|done|done|]. by rewrite Et.
      + intros actions [[stack sessions] authority] (-> & Hs & Ha). split; [set_solver|]. cbn. done.
    - cbn. split_and!; [done| |done]. rewrite bool_decide_false; [done|]. intros Hi. rewrite (bool_decide_true _ Hi), orb_true_r in Hterm. done. }
  intros actions [termination authority] (Hsp & Hau & Hte). split; [rewrite Hsp; destruct (pl_terminates p); set_solver|].
  eapply (starting_then _ _ (fun more relay => spawned more = (if pl_relays p then [TaskRelay] else []) /\
    relay = if pl_relays p then Some (associations ceilings) else None)); [by destruct (pl_relays p)|].
  intros more relay [Hm ->]. split; [rewrite Hm; destruct (pl_relays p); set_solver|].
  eapply (starting_then _ _ (fun last _ => last = [])).
  { destruct (tc_resolver config) as [|upstream] eqn:Er; [done|]. eapply starting_then.
    - eapply starting_weaken; [apply build_upstream_spec|intros ? ? Hq; exact Hq|]. intros []; cbn; try done. rewrite Er. intros [text ->]. eauto.
    - intros first u [-> _]. split; [apply not_elem_of_nil|done]. }
  intros last upstream ->. split; [apply not_elem_of_nil|]. cbn. split; cbn [tn_datapath tn_policy tn_authority tn_termination tn_relay].
  - unfold spawned in *. rewrite !omap_app, Hfront, Hsp, Hm. cbn. done.
  - intros c Hc. eexists _, _, _, _, _, _, _, _, _, d. split; [exact Hd|]. split; [vm_compute; discriminate|]. constructor.
    unfold Datapath_new in Hd. destruct (_ && _ && _); [done|]. cbn zeta in Hd. destruct (check_plans _); [|done|done]. cbn [mbind Res_bind] in Hd.
    destruct (UdpFlowTable_new _ _ _); cbn in Hd; [|done|done]. injection Hd as <-. exact Hc.
  - done.
  - done.
  - destruct termination as [[stack sessions]|]; done.
  - done.
Qed.
End StartTheory.

(** C5: Starting a tunnel checks first and builds what the plan says.  A start never
    panics.  A configuration the plan refuses opens no socket and spawns no task.  One it
    accepts either starts or fails for a reason outside it: the resolver's name, the
    authority, the TLS transport or the bypass socket; a packet egress whose overhead
    leaves less than the IPv6 minimum of the link; or a connection ceiling below both
    backlogs.  A failed start never runs the reactor.  A started tunnel runs the
    terminator and the sessions exactly when connections end here, the relay exactly for
    a flow egress, and the reactor last; its datapath is one the datapath theorems are
    about; its sessions intercept exactly the configured hosts, in any case, and none
    without interception; and the rules they hide with are compiled ones. *)
Theorem start_sound {W S I : Type} `{Etherparse, SmoltcpLaws S I, BrowserEngine, Styling, StartWorld W I} patience config :
  let '(actions, result) := start (W := W) (S := S) (I := I) patience config in
  match plan config with
  | Ok p =>
      match result with
      | Ok t => started config p actions t
      | Err e => start_failure config p e /\ TaskShell ∉ spawned actions
      | Panic => False
      end
  | Err e => result = Err (StartConfig e) /\ actions = []
  | Panic => False
  end.
Proof.
  pose proof (plan_spec config) as Hp. unfold start. destruct (plan config) as [p|e|]; [|done|done].
  destruct Hp as (Ha & Ht & Hr & Hv). destruct config as [egress resolver filtering link ceilings]. cbn [tc_egress tc_filtering] in *.
  cbn [from_res]. set (config := mkConfig egress resolver filtering link ceilings).
  match goal with |- let '(_, _) := ?x in _ => assert (starting x (fun actions t => started config p actions t) (start_failure config p)) as Hs end.
  { eapply (starting_then _ _ (fun actions q => actions = [] /\ q = p)); [done|]. intros actions q [-> ->]. split; [apply not_elem_of_nil|].
    eapply starting_then.
    { eapply starting_weaken; [apply build_egress_spec|intros actions properties Hq; exact Hq|].
      intros []; cbn; [done|done|done|done|done|done]. }
    intros actions properties [Hsp Hprop]. split; [rewrite Hsp; apply not_elem_of_nil|].
    eapply (starting_then _ _ (fun more d => more = [] /\ Datapath_new (pl_filter p) (pl_dns p) (pl_accepts p) properties (lk_mtu link)
      (limits link ceilings p) (BufferPool_new (Z.to_nat (Mtu_get (lk_mtu link) + SLICE_HEADROOM)) (buffer_slices ceilings)) flows_clock icmp_clock = Ok d)).
    { pose proof (datapath_built p properties (lk_mtu link) (limits link ceilings p)
        (BufferPool_new (Z.to_nat (Mtu_get (lk_mtu link) + SLICE_HEADROOM)) (buffer_slices ceilings)) flows_clock icmp_clock Hv eq_refl) as Hb.
      destruct (Datapath_new _ _ _ _ _ _ _ _ _) as [d|e|]; cbn; [done| |done]. split; [|apply not_elem_of_nil]. destruct Hb as [Hacc Hm].
      split; [done|]. rewrite Hprop in Hm by congruence. exact Hm. }
    intros more d [-> Hd]. split; [apply not_elem_of_nil|]. cbn [app]. apply (start_assembled patience config p properties actions); done. }
  unfold starting in Hs. by destruct (then_ _ _) as [actions [t|e|]].
Qed.

(** Samples: a world where everything succeeds, and an engine without rules. *)
Definition sample_engine : BrowserEngine :=
  {| Index := list bytes; index_of lists := lists; check_request _ _ _ _ _ := Some false; hide_selectors lists _ := lists |}.

Definition sample_start_world : StartWorld unit ScriptedTcp.Script :=
  {| bypass_udp _ := None;
     tls_transport := None;
     stream_properties _ := mkPath Native 0 None false EndpointIndependent;
     authority_open _ := true;
     authority_generate := true;
     interceptor_built := true;
     dot_name_ok name := bool_decide (name = text_of "dns.example");
     doh_url_ok _ := true;
     flows_clock := 0;
     icmp_clock := 0;
     stack_clock := 0;
     stack_interface := [] |}.

Definition sample_config (egress : EgressChoice) (upstream : UpstreamChoice) : TunnelConfig :=
  mkConfig egress (LocalResolver upstream)
    (mkFiltering [text_of "||ads.example^"] (Some (mkInterception [text_of "Shop.example"] TrustGenerate None))) Link_default Ceilings_default.

Definition sample_resolver : SocketAddr := mkEndpoint (V4 [198; 51; 100; 53]) 53.

Lemma start_sound_witness :
  let '(actions, result) := @start unit ScriptedTcp.Sock ScriptedTcp.Script sample_etherparse _ sample_engine sample_styling sample_start_world 3
      (sample_config (ChooseDirect EndpointIndependent) (ChooseDo53 sample_resolver)) in
  spawned actions = [TaskTerminator; TaskSessions; TaskRelay; TaskShell] /\
  match result with
  | Ok t => match tn_termination t with
            | Some (_, sessions) => InterceptPolicy_decide (se_policy sessions) (text_of "shop.example") = Intercept
            | None => False
            end
  | _ => False
  end.
Proof.
  pose proof (@start_sound unit ScriptedTcp.Sock ScriptedTcp.Script sample_etherparse _ _ sample_engine sample_styling sample_start_world 3
    (sample_config (ChooseDirect EndpointIndependent) (ChooseDo53 sample_resolver))) as Hs.
  assert (match (@start unit ScriptedTcp.Sock ScriptedTcp.Script sample_etherparse _ sample_engine sample_styling sample_start_world 3
      (sample_config (ChooseDirect EndpointIndependent) (ChooseDo53 sample_resolver))).2 with Ok _ => true | _ => false end = true) as Hok
    by (vm_compute; reflexivity).
  destruct (start _ _) as [actions [t|e|]]; [|discriminate Hok|discriminate Hok].
  destruct Hs as [Htasks _ _ _ Hterm _]. split; [rewrite Htasks; reflexivity|].
  destruct (tn_termination t) as [[stack sessions]|]; [|discriminate Hterm]. destruct Hterm as [_ [Hhost _]].
  apply Hhost. eexists _, (text_of "Shop.example"). split; [reflexivity|]. split; [by left|reflexivity].
Defined.

(** ** Starts that fail *)

(** A packet egress does not start on a link that leaves less than the IPv6 minimum. *)
Lemma narrow_link_refused {W S I : Type} `{Etherparse, SmoltcpLaws S I, BrowserEngine, Styling, StartWorld W I} patience config peer p :
  tc_egress config = ChooseWireGuard peer -> plan config = Ok p ->
  Mtu_get (lk_mtu (tc_link config)) - WIREGUARD_OVERHEAD_BYTES < MIN_IPV6_MTU ->
  forall t, (start (W := W) (S := S) (I := I) patience config).2 <> Ok t.
Proof.
  intros He Hp Hm t. pose proof (plan_spec config) as Hs. unfold start. rewrite Hp in *. destruct Hs as (Ha & _ & _ & Hv).
  destruct config as [egress resolver filtering link ceilings]. cbn [tc_egress tc_link] in *. subst egress. cbn [from_res accepts_of] in *.
  unfold build_egress. destruct (bypass_udp peer) as [kind|]; [done|]. cbn [then_ act done_].
  assert (exists e, Datapath_new (pl_filter p) (pl_dns p) (pl_accepts p) WireGuard_properties (lk_mtu link) (limits link ceilings p)
    (BufferPool_new (Z.to_nat (Mtu_get (lk_mtu link) + SLICE_HEADROOM)) (buffer_slices ceilings)) flows_clock icmp_clock = Err e) as [e Hd].
  { unfold Datapath_new. rewrite Hv. cbn zeta. unfold plans_for, Inspection_ALL. cbn [fmap list_fmap check_plans].
    pose proof (plan_flow_spec (pl_filter p) Excluded (pl_accepts p) WireGuard_properties (lk_mtu link)) as Hx. cbn zeta in Hx.
    pose proof (plan_flow_spec (pl_filter p) Candidate (pl_accepts p) WireGuard_properties (lk_mtu link)) as Hc. cbn zeta in Hc.
    assert (is_inspected (pl_filter p) Excluded = false) as Hi by (by destruct (pl_filter p)).
    rewrite Hi, Ha in Hx. rewrite Ha in *. cbn [negb andb] in Hx. rewrite (bool_decide_true (IpPackets = IpPackets)) in Hx by done.
    destruct (plan_flow (pl_filter p) Excluded IpPackets WireGuard_properties (lk_mtu link)) as [fp|pe|] eqn:Ex; [|..|done].
    { destruct Hx as (Hx & Hmin & _). rewrite Hx in Hmin. specialize (Hmin eq_refl). cbn in Hmin. lia. }
    destruct (plan_flow (pl_filter p) Candidate IpPackets WireGuard_properties (lk_mtu link)) as [fp|pe'|]; [by exists (DP_Plan pe)|by eexists|done]. }
  rewrite Hd. done.
Qed.

(** So a WireGuard tunnel never starts on the default link. *)
Lemma default_link_refuses_wireguard {W S I : Type} `{Etherparse, SmoltcpLaws S I, BrowserEngine, Styling, StartWorld W I} patience config peer :
  tc_egress config = ChooseWireGuard peer -> tc_link config = Link_default ->
  forall t, (start (W := W) (S := S) (I := I) patience config).2 <> Ok t.
Proof.
  intros He Hl t. destruct (plan config) as [p|e|] eqn:Ep; [|unfold start; rewrite Ep; done|unfold start; rewrite Ep; done].
  eapply narrow_link_refused; [done|done|rewrite Hl; by vm_compute].
Qed.

(** The name of an encrypted resolver is read after the egress socket is open and the
    other tasks run. *)
Example resolver_name_checked_last :
  let config := sample_config (ChooseWireGuard sample_resolver) (ChooseDot sample_resolver (text_of "no name")) in
  let config := mkConfig (tc_egress config) (tc_resolver config) (tc_filtering config) (mkLink (mkMtu 1500) DEFAULT_ORIGINATION_PORTS) (tc_ceilings config) in
  @start unit ScriptedTcp.Sock ScriptedTcp.Script sample_etherparse _ sample_engine sample_styling sample_start_world 3 config =
  ([OpenSocket sample_resolver; Spawn TaskTerminator; Spawn TaskSessions], Err (StartConfig (NotAHost (text_of "no name")))).
Proof. vm_compute. reflexivity. Qed.

(** No plan is refused because its link is too narrow. *)
Lemma link_never_too_narrow config : plan config <> Err LinkTooNarrow.
Proof.
  unfold plan. destruct (fi_interception (tc_filtering config)) as [i|].
  - destruct (length (in_hosts i) =? 0)%nat; [done|]. assert (check_hosts (in_hosts i) <> Err LinkTooNarrow) as Hc.
    { induction (in_hosts i) as [|host hosts IH]; [done|]. cbn. by destruct (DomainName_new host). }
    destruct (check_hosts (in_hosts i)); cbn [mbind Res_bind]; [|congruence|done]. cbn zeta. by repeat case_match.
  - cbn [mbind Res_bind]. cbn zeta. by repeat case_match.
Qed.
