(* ===== verification/Seam.v ===== *)
(** The host's device behind the C boundary ([ffi/src/seam.rs]): two blocking tasks own the
    callbacks, one per direction, joined to the reactor by bounded channels of recycled
    buffers, and the context is released when the device and both tasks are gone.

    A callback is what it answers: [recv] a code and the bytes it wrote at the front of its
    buffer, [send] a code.  A task takes one turn per wait or call, and a turn in which it has
    to wait changes nothing, so a run over any list of turns and calls covers every
    interleaving.  The log keeps the calls made to the host and what the reactor was told. *)

From S2P Require Import Prelude Plan.
Open Scope Z_scope.

(** ** Host callbacks *)

(** Which callbacks the host supplied, and the MTU. *)
Record BoreasDevice := mkOps { op_recv : bool; op_send : bool; op_close : bool; op_release : bool; op_mtu : Z }.

(** The errors of the seam: [missing], [failed] with its code, too many bytes reported, a packet
    larger than the reactor's buffer, [closed]. *)
Inductive SeamError := MissingCallback | OsError (code : Z) | ReportedTooMuch | ExceedsReceiveBuffer | ThreadsExited.

Definition ISIZE_MIN : Z := - 2 ^ 63.
Definition I32_MAX : Z := 2 ^ 31 - 1.
Definition libc_eio : Z := 5.

(** Negating the least [isize] overflows. *)
Definition failed {A} (code : Z) : Res SeamError A :=
  if code =? ISIZE_MIN then Panic else Err (OsError (if - code <=? I32_MAX then - code else libc_eio)).

(** The buffer after a callback wrote at its front, within its length. *)
Definition fill (buf written : bytes) : bytes := take (length buf) (written ++ drop (length written) buf).

Definition read_into (ops : BoreasDevice) (buf : bytes) (answer : Z * bytes) : Res SeamError nat * bytes :=
  if op_recv ops then
    let buf := fill buf answer.2 in
    (if answer.1 <? 0 then failed answer.1
     else if Z.of_nat (length buf) <? answer.1 then Err ReportedTooMuch
     else Ok (Z.to_nat answer.1), buf)
  else (Err MissingCallback, buf).

Definition write_all (ops : BoreasDevice) (code : Z) : Res SeamError unit :=
  if op_send ops then if code <? 0 then failed code else Ok tt else Err MissingCallback.

(** ** The device *)

Definition DEPTH : nat := 64.

(** [read_loop] between its turns: waiting for a buffer, in [recv], sending what it read. *)
Inductive ReadLoop := RWaiting | RReading (buf : bytes) | RSending (item : SeamError + bytes) | RDone.

(** [write_loop]: waiting for a packet, in [send], reporting a failure. *)
Inductive WriteLoop := WWaiting | WWriting (buf : bytes) | WReporting (error : SeamError) | WDone.

(** [dv_alive] while the [Device] is not dropped; [dv_unstarted] while it holds the tasks'
    halves; [dv_sending] is the packet of a [send] that waits for room; [dv_arcs] counts the
    owners of the context. *)
Record Device := mkDevice {
  dv_ops : BoreasDevice;
  dv_mtu : Mtu;
  dv_alive : bool;
  dv_unstarted : bool;
  dv_inbound : list (SeamError + bytes);
  dv_refill : list bytes;
  dv_outbound : list bytes;
  dv_spare : list bytes;
  dv_sending : option bytes;
  dv_reader : ReadLoop;
  dv_writer : WriteLoop;
  dv_arcs : nat;
}.

(** What happened: calls to the host with what they gave, and what the reactor was told. *)
Inductive SeamEvent :=
| HostRead (result : Res SeamError bytes)
| HostWrite (packet : bytes) (result : Res SeamError unit)
| HostClose
| HostRelease
| Delivered (packet : bytes)
| Discarded (packet : bytes)
| RecvFailed (error : SeamError)
| Accepted (packet : bytes)
| SendFailed.

Definition set_inbound d q := mkDevice (dv_ops d) (dv_mtu d) (dv_alive d) (dv_unstarted d) q (dv_refill d) (dv_outbound d) (dv_spare d) (dv_sending d) (dv_reader d) (dv_writer d) (dv_arcs d).
Definition set_refill d q := mkDevice (dv_ops d) (dv_mtu d) (dv_alive d) (dv_unstarted d) (dv_inbound d) q (dv_outbound d) (dv_spare d) (dv_sending d) (dv_reader d) (dv_writer d) (dv_arcs d).
Definition set_outbound d q := mkDevice (dv_ops d) (dv_mtu d) (dv_alive d) (dv_unstarted d) (dv_inbound d) (dv_refill d) q (dv_spare d) (dv_sending d) (dv_reader d) (dv_writer d) (dv_arcs d).
Definition set_spare d q := mkDevice (dv_ops d) (dv_mtu d) (dv_alive d) (dv_unstarted d) (dv_inbound d) (dv_refill d) (dv_outbound d) q (dv_sending d) (dv_reader d) (dv_writer d) (dv_arcs d).
Definition set_sending d o := mkDevice (dv_ops d) (dv_mtu d) (dv_alive d) (dv_unstarted d) (dv_inbound d) (dv_refill d) (dv_outbound d) (dv_spare d) o (dv_reader d) (dv_writer d) (dv_arcs d).
Definition set_reader d r := mkDevice (dv_ops d) (dv_mtu d) (dv_alive d) (dv_unstarted d) (dv_inbound d) (dv_refill d) (dv_outbound d) (dv_spare d) (dv_sending d) r (dv_writer d) (dv_arcs d).
Definition set_writer d w := mkDevice (dv_ops d) (dv_mtu d) (dv_alive d) (dv_unstarted d) (dv_inbound d) (dv_refill d) (dv_outbound d) (dv_spare d) (dv_sending d) (dv_reader d) w (dv_arcs d).

(** [Device::new].  A refused MTU releases the context, which a missing callback does not. *)
Definition Device_new (ops : BoreasDevice) : option Device * list SeamEvent :=
  if negb (op_recv ops) then (None, [])
  else if negb (op_send ops) then (None, [])
  else
    match Mtu_new (op_mtu ops) with
    | Ok mtu => (Some (mkDevice ops mtu true true [] (repeat [] DEPTH) [] (repeat [] DEPTH) None RDone WDone 1), [])
    | _ => (None, if op_release ops then [HostRelease] else [])
    end.

(** One owner of the context goes; the last one releases it. *)
Definition drop_arc (d : Device) : Device * list SeamEvent :=
  (mkDevice (dv_ops d) (dv_mtu d) (dv_alive d) (dv_unstarted d) (dv_inbound d) (dv_refill d) (dv_outbound d) (dv_spare d) (dv_sending d)
     (dv_reader d) (dv_writer d) (dv_arcs d - 1),
   if (dv_arcs d =? 1)%nat && op_release (dv_ops d) then [HostRelease] else []).

Definition Device_start (d : Device) : Device :=
  if dv_unstarted d then
    mkDevice (dv_ops d) (dv_mtu d) (dv_alive d) false (dv_inbound d) (dv_refill d) (dv_outbound d) (dv_spare d) (dv_sending d)
      RWaiting WWaiting (dv_arcs d + 2)
  else d.

(** ** The tasks *)

(** A task returns: the ends of the channels it holds close with it.  What is queued on a channel
    whose receiver is gone is dropped. *)
Definition end_reader (d : Device) : Device * list SeamEvent := drop_arc (set_reader (set_refill d []) RDone).
Definition end_writer (d : Device) : Device * list SeamEvent := drop_arc (set_writer (set_outbound d []) WDone).

(** The outcome of [blocking_send] on the inbound channel: it waits for room, and fails once the
    device is gone. *)
Definition inbound_send (d : Device) (item : SeamError + bytes) : option (Device * bool) :=
  if negb (dv_alive d) then Some (d, false)
  else if (length (dv_inbound d) <? DEPTH)%nat then Some (set_inbound d (dv_inbound d ++ [item]), true)
  else None.

(** One turn of [read_loop].  A read of zero asks again with the same buffer. *)
Definition read_loop (d : Device) (answer : Z * bytes) : Device * list SeamEvent :=
  match dv_reader d with
  | RWaiting =>
      match dv_refill d with
      | buf :: refill => (set_reader (set_refill d refill) (RReading (resize (Z.to_nat (Mtu_get (dv_mtu d))) 0 buf)), [])
      | [] => if dv_alive d then (d, []) else end_reader d
      end
  | RReading buf =>
      match read_into (dv_ops d) buf answer with
      | (Ok O, buf) => (set_reader d (RReading buf), [HostRead (Ok [])])
      | (Ok read, buf) => (set_reader d (RSending (inr (take read buf))), [HostRead (Ok (take read buf))])
      | (Err error, _) => (set_reader d (RSending (inl error)), [HostRead (Err error)])
      | (Panic, _) => let '(d, log) := end_reader d in (d, HostRead Panic :: log)
      end
  | RSending item =>
      match inbound_send d item with
      | Some (d, sent) => match item with inr _ => if sent then (set_reader d RWaiting, []) else end_reader d | inl _ => end_reader d end
      | None => (d, [])
      end
  | RDone => (d, [])
  end.

(** [try_send] of an emptied buffer. *)
Definition give_back (d : Device) (buf : bytes) : Device :=
  set_spare d (if dv_alive d && (length (dv_spare d) <? DEPTH)%nat then dv_spare d ++ [buf] else dv_spare d).

(** One turn of [write_loop]. *)
Definition write_loop (d : Device) (code : Z) : Device * list SeamEvent :=
  match dv_writer d with
  | WWaiting =>
      match dv_outbound d with
      | buf :: outbound => (set_writer (set_outbound d outbound) (WWriting buf), [])
      | [] => if dv_alive d then (d, []) else end_writer d
      end
  | WWriting buf =>
      match write_all (dv_ops d) code with
      | Ok tt => (set_writer (give_back d []) WWaiting, [HostWrite buf (Ok tt)])
      | Err error => (set_writer d (WReporting error), [HostWrite buf (Err error)])
      | Panic => let '(d, log) := end_writer d in (d, HostWrite buf Panic :: log)
      end
  | WReporting error =>
      match inbound_send d (inl error) with
      | Some (d, _) => end_writer d
      | None => (d, [])
      end
  | WDone => (d, [])
  end.

(** ** The reactor's side *)

Definition reader_gone (d : Device) : bool := match dv_reader d with RDone => true | _ => false end.
Definition writer_gone (d : Device) : bool := match dv_writer d with WDone => true | _ => false end.

(** [recv] into a buffer of [room] bytes, polled; [None] waits.  A packet that does not fit is not
    given back to the reader. *)
Definition recv (d : Device) (room : nat) : option (Res SeamError bytes) * Device * list SeamEvent :=
  let d := Device_start d in
  match dv_inbound d with
  | [] => if reader_gone d && writer_gone d then (Some (Err ThreadsExited), d, [RecvFailed ThreadsExited]) else (None, d, [])
  | inr packet :: inbound =>
      let d := set_inbound d inbound in
      if (room <? length packet)%nat then (Some (Err ExceedsReceiveBuffer), d, [Discarded packet; RecvFailed ExceedsReceiveBuffer])
      else
        let d := if negb (reader_gone d) && (length (dv_refill d) <? DEPTH)%nat then set_refill d (dv_refill d ++ [packet]) else d in
        (Some (Ok packet), d, [Delivered packet])
  | inl error :: inbound => (Some (Err error), set_inbound d inbound, [RecvFailed error])
  end.

(** The wait of [outbound.send], polled. *)
Definition send_poll (d : Device) : option (Res SeamError unit) * Device * list SeamEvent :=
  match dv_sending d with
  | None => (None, d, [])
  | Some owned =>
      if writer_gone d then (Some (Err ThreadsExited), set_sending d None, [SendFailed])
      else if (length (dv_outbound d) <? DEPTH)%nat then
        (Some (Ok tt), set_sending (set_outbound d (dv_outbound d ++ [owned])) None, [Accepted owned])
      else (None, d, [])
  end.

Definition send (d : Device) (packet : bytes) : option (Res SeamError unit) * Device * list SeamEvent :=
  let d := Device_start d in
  send_poll (set_sending (set_spare d (tail (dv_spare d))) (Some packet)).

(** Dropping the device: [close], then its channel ends and the halves it still holds, then its
    share of the context. *)
Definition Device_drop (d : Device) : Device * list SeamEvent :=
  let closed := if op_close (dv_ops d) then [HostClose] else [] in
  let gone := mkDevice (dv_ops d) (dv_mtu d) false false [] (if dv_unstarted d then [] else dv_refill d)
    (if dv_unstarted d then [] else dv_outbound d) [] None (dv_reader d) (dv_writer d) (dv_arcs d) in
  let '(d, log) := drop_arc gone in (d, closed ++ log).

(** ** Runs *)

(** A call that borrows the device excludes the others: while a [send] waits, only its poll, its
    cancellation or a task can go on, and a dropped device is not called. *)
Inductive SeamOp :=
| ReaderTurn (answer : Z * bytes)
| WriterTurn (code : Z)
| Recv (room : nat)
| Send (packet : bytes)
| SendPoll
| SendCancelled
| DropDevice.

Definition idle (d : Device) : bool := dv_alive d && bool_decide (dv_sending d = None).

Definition seam_step (d : Device) (op : SeamOp) : Device * list SeamEvent :=
  match op with
  | ReaderTurn answer => read_loop d answer
  | WriterTurn code => write_loop d code
  | Recv room => if idle d then let '(_, d, log) := recv d room in (d, log) else (d, [])
  | Send packet => if idle d then let '(_, d, log) := send d packet in (d, log) else (d, [])
  | SendPoll => if dv_alive d then let '(_, d, log) := send_poll d in (d, log) else (d, [])
  | SendCancelled => (set_sending d None, [])
  | DropDevice => if idle d then Device_drop d else (d, [])
  end.

Fixpoint seam_run (d : Device) (ops : list SeamOp) : Device * list SeamEvent :=
  match ops with
  | [] => (d, [])
  | op :: ops => let '(d, log) := seam_step d op in let '(d, rest) := seam_run d ops in (d, log ++ rest)
  end.

(** ** What a log says *)

(** The packets the host handed over, in order. *)
Definition packets_read : list SeamEvent -> list bytes :=
  omap (fun e => match e with HostRead (Ok (b :: packet)) => Some (b :: packet) | _ => None end).
(** The packets the reactor took from the channel. *)
Definition packets_taken : list SeamEvent -> list bytes :=
  omap (fun e => match e with Delivered packet | Discarded packet => Some packet | _ => None end).
Definition packets_discarded : list SeamEvent -> list bytes :=
  omap (fun e => match e with Discarded packet => Some packet | _ => None end).
(** The packets [send] took, and those the host was given. *)
Definition packets_accepted : list SeamEvent -> list bytes :=
  omap (fun e => match e with Accepted packet => Some packet | _ => None end).
Definition packets_written : list SeamEvent -> list bytes :=
  omap (fun e => match e with HostWrite packet _ => Some packet | _ => None end).
Definition writes_succeed (log : list SeamEvent) : bool :=
  forallb (fun e => match e with HostWrite _ (Ok _) => true | HostWrite _ _ => false | _ => true end) log.
Definition closes (log : list SeamEvent) : nat := length (omap (fun e => match e with HostClose => Some tt | _ => None end) log).

(** Where the packets of each direction are between the host and the reactor. *)
Definition queued_in (d : Device) : list bytes :=
  omap (fun item => match item with inr packet => Some packet | inl _ => None end) (dv_inbound d)
  ++ match dv_reader d with RSending (inr packet) => [packet] | _ => [] end.
Definition queued_out (d : Device) : list bytes :=
  match dv_writer d with WWriting packet => [packet] | _ => [] end ++ dv_outbound d.

(** The owners of the context. *)
Definition owners (d : Device) : nat :=
  ((if dv_alive d then 1 else 0) + (if reader_gone d then 0 else 1) + (if writer_gone d then 0 else 1))%nat.

(** ** Moves

    The step relation of the seam: what a turn or a call does, one rule per branch. *)

Inductive moves (d : Device) : list SeamEvent -> Device -> Prop :=
| take_buffer buf refill : dv_reader d = RWaiting -> dv_refill d = buf :: refill ->
    moves d [] (set_reader (set_refill d refill) (RReading (resize (Z.to_nat (Mtu_get (dv_mtu d))) 0 buf)))
| reader_dry : dv_reader d = RWaiting -> dv_refill d = [] -> dv_alive d = false -> moves d (end_reader d).2 (end_reader d).1
| read_nothing buf buf' : dv_reader d = RReading buf -> length buf' = length buf -> moves d [HostRead (Ok [])] (set_reader d (RReading buf'))
| read_packet buf b packet : dv_reader d = RReading buf -> (length (b :: packet) <= length buf)%nat ->
    moves d [HostRead (Ok (b :: packet))] (set_reader d (RSending (inr (b :: packet))))
| read_fails buf error : dv_reader d = RReading buf -> moves d [HostRead (Err error)] (set_reader d (RSending (inl error)))
| read_panics buf : dv_reader d = RReading buf -> moves d (HostRead Panic :: (end_reader d).2) (end_reader d).1
| pass_packet packet : dv_reader d = RSending (inr packet) -> dv_alive d = true -> (length (dv_inbound d) < DEPTH)%nat ->
    moves d [] (set_reader (set_inbound d (dv_inbound d ++ [inr packet])) RWaiting)
| pass_error error : dv_reader d = RSending (inl error) -> dv_alive d = true -> (length (dv_inbound d) < DEPTH)%nat ->
    moves d (end_reader (set_inbound d (dv_inbound d ++ [inl error]))).2 (end_reader (set_inbound d (dv_inbound d ++ [inl error]))).1
| pass_refused item : dv_reader d = RSending item -> dv_alive d = false -> moves d (end_reader d).2 (end_reader d).1
| take_packet buf outbound : dv_writer d = WWaiting -> dv_outbound d = buf :: outbound ->
    moves d [] (set_writer (set_outbound d outbound) (WWriting buf))
| writer_dry : dv_writer d = WWaiting -> dv_outbound d = [] -> dv_alive d = false -> moves d (end_writer d).2 (end_writer d).1
| write_done buf : dv_writer d = WWriting buf -> moves d [HostWrite buf (Ok tt)] (set_writer (give_back d []) WWaiting)
| write_fails buf error : dv_writer d = WWriting buf -> moves d [HostWrite buf (Err error)] (set_writer d (WReporting error))
| write_panics buf : dv_writer d = WWriting buf -> moves d (HostWrite buf Panic :: (end_writer d).2) (end_writer d).1
| report error : dv_writer d = WReporting error -> dv_alive d = true -> (length (dv_inbound d) < DEPTH)%nat ->
    moves d (end_writer (set_inbound d (dv_inbound d ++ [inl error]))).2 (end_writer (set_inbound d (dv_inbound d ++ [inl error]))).1
| report_refused error : dv_writer d = WReporting error -> dv_alive d = false -> moves d (end_writer d).2 (end_writer d).1
| starts : dv_unstarted d = true -> dv_alive d = true -> moves d [] (Device_start d)
| recv_closed : dv_alive d = true -> moves d [RecvFailed ThreadsExited] d
| recv_discards packet inbound : dv_alive d = true -> dv_inbound d = inr packet :: inbound ->
    moves d [Discarded packet; RecvFailed ExceedsReceiveBuffer] (set_inbound d inbound)
| recv_refills packet inbound : dv_alive d = true -> dv_inbound d = inr packet :: inbound -> reader_gone d = false -> (length (dv_refill d) < DEPTH)%nat ->
    moves d [Delivered packet] (set_refill (set_inbound d inbound) (dv_refill d ++ [packet]))
| recv_delivers packet inbound : dv_alive d = true -> dv_inbound d = inr packet :: inbound -> (reader_gone d = true \/ (DEPTH <= length (dv_refill d))%nat) ->
    moves d [Delivered packet] (set_inbound d inbound)
| recv_fails error inbound : dv_alive d = true -> dv_inbound d = inl error :: inbound -> moves d [RecvFailed error] (set_inbound d inbound)
| send_fails packet : dv_alive d = true -> dv_sending d = Some packet -> moves d [SendFailed] (set_sending d None)
| send_accepts packet : dv_alive d = true -> dv_sending d = Some packet -> writer_gone d = false -> (length (dv_outbound d) < DEPTH)%nat ->
    moves d [Accepted packet] (set_sending (set_outbound d (dv_outbound d ++ [packet])) None)
| send_begins packet : dv_alive d = true -> dv_unstarted d = false -> moves d [] (set_sending (set_spare d (tail (dv_spare d))) (Some packet))
| send_cancelled : moves d [] (set_sending d None)
| drops : dv_alive d = true -> moves d (Device_drop d).2 (Device_drop d).1.

Inductive moved : Device -> list SeamEvent -> Device -> Prop :=
| moved_nil d : moved d [] d
| moved_cons d log d' log' d'' : moves d log d' -> moved d' log' d'' -> moved d (log ++ log') d''.

Lemma moved_one (d d' : Device) (log : list SeamEvent) : moves d log d' -> moved d log d'.
Proof. intros H. rewrite <- (app_nil_r log). eapply moved_cons; [exact H | apply moved_nil]. Qed.

Lemma moved_app (d d' d'' : Device) (log log' : list SeamEvent) : moved d log d' -> moved d' log' d'' -> moved d (log ++ log') d''.
Proof. induction 1; intros H'; [exact H' |]. rewrite <- app_assoc. eapply moved_cons; eauto. Qed.

Lemma fill_length (buf written : bytes) : length (fill buf written) = length buf.
Proof. unfold fill. rewrite length_take, length_app, length_drop. lia. Qed.

Lemma read_into_room (ops : BoreasDevice) (buf : bytes) (answer : Z * bytes) :
  length (read_into ops buf answer).2 = length buf
  /\ forall n, (read_into ops buf answer).1 = Ok n -> (n <= length buf)%nat.
Proof.
  unfold read_into, failed. split; [case_match; simpl; [apply fill_length | done] |].
  intros n E. destruct (op_recv ops); simpl in E; [|discriminate E]. rewrite fill_length in E.
  destruct (answer.1 <? 0); [destruct (answer.1 =? ISIZE_MIN); discriminate E |].
  destruct (Z.ltb_spec (Z.of_nat (length buf)) answer.1); simplify_eq; lia.
Qed.

Lemma read_loop_moves (d : Device) (answer : Z * bytes) : moved d (read_loop d answer).2 (read_loop d answer).1.
Proof.
  unfold read_loop. destruct (dv_reader d) as [| buf | item |] eqn:Hr; [| | |apply moved_nil].
  - destruct (dv_refill d) eqn:Hf; [destruct (dv_alive d) eqn:Ha |].
    + apply moved_nil.
    + by apply moved_one, reader_dry.
    + by eapply moved_one, take_buffer.
  - pose proof (read_into_room (dv_ops d) buf answer) as [Hl Hn].
    destruct (read_into (dv_ops d) buf answer) as [[[|n] | e |] buf']; simpl in *.
    + by eapply moved_one, read_nothing.
    + specialize (Hn _ eq_refl). destruct buf' as [|b buf']; simpl in *; [lia |].
      eapply moved_one, read_packet; [done |]. simpl. rewrite length_take. lia.
    + by eapply moved_one, read_fails.
    + exact (moved_one _ _ _ (read_panics d _ Hr)).
  - unfold inbound_send. destruct (dv_alive d) eqn:Ha; simpl.
    + destruct (Nat.ltb_spec (length (dv_inbound d)) DEPTH); [|apply moved_nil].
      destruct item; apply moved_one; [by apply pass_error | by apply pass_packet].
    + destruct item; by eapply moved_one, pass_refused.
Qed.

Lemma write_loop_moves (d : Device) (code : Z) : moved d (write_loop d code).2 (write_loop d code).1.
Proof.
  unfold write_loop. destruct (dv_writer d) as [| buf | error |] eqn:Hw; [| | |apply moved_nil].
  - destruct (dv_outbound d) eqn:Hf; [destruct (dv_alive d) eqn:Ha |].
    + apply moved_nil.
    + by apply moved_one, writer_dry.
    + by eapply moved_one, take_packet.
  - destruct (write_all (dv_ops d) code) as [[] | e |]; apply moved_one.
    + by apply write_done.
    + by apply write_fails.
    + exact (write_panics d _ Hw).
  - unfold inbound_send. destruct (dv_alive d) eqn:Ha; simpl.
    + destruct (Nat.ltb_spec (length (dv_inbound d)) DEPTH); [|apply moved_nil]. by apply moved_one, report.
    + by eapply moved_one, report_refused.
Qed.

Lemma start_moves (d : Device) : dv_alive d = true ->
  moved d [] (Device_start d) /\ dv_alive (Device_start d) = true /\ dv_unstarted (Device_start d) = false.
Proof.
  intros Ha. destruct (dv_unstarted d) eqn:Hu.
  - split; [by apply moved_one, starts |]. unfold Device_start. by rewrite Hu.
  - unfold Device_start. rewrite Hu. split; [apply moved_nil | done].
Qed.

Lemma recv_moves (d : Device) (room : nat) : dv_alive d = true -> moved d (recv d room).2 (recv d room).1.2.
Proof.
  intros Ha. destruct (start_moves d Ha) as (Hm & Hs & _). unfold recv. set (d1 := Device_start d) in *.
  enough (forall log d', moves d1 log d' -> moved d log d') as K.
  2:{ intros log d' M. apply (moved_app d d1 d' [] log Hm), moved_one, M. }
  destruct (dv_inbound d1) as [|[error | packet] inbound] eqn:Hi; simpl.
  - destruct (reader_gone d1 && writer_gone d1); simpl; [by apply K, recv_closed | done].
  - by eapply K, recv_fails.
  - destruct (room <? length packet)%nat; simpl; [by eapply K, recv_discards |].
    apply K. change (reader_gone (set_inbound d1 inbound)) with (reader_gone d1).
    destruct (reader_gone d1) eqn:Hg; simpl; [by apply recv_delivers; auto |].
    destruct (Nat.ltb_spec (length (dv_refill d1)) DEPTH); [by apply recv_refills | by apply recv_delivers; auto].
Qed.

Lemma send_poll_moves (d : Device) : dv_alive d = true -> moved d (send_poll d).2 (send_poll d).1.2.
Proof.
  intros Ha. unfold send_poll. destruct (dv_sending d) eqn:Hs; [|apply moved_nil].
  destruct (writer_gone d) eqn:Hw; [by eapply moved_one, send_fails |].
  destruct (Nat.ltb_spec (length (dv_outbound d)) DEPTH); [by eapply moved_one, send_accepts | apply moved_nil].
Qed.

Lemma send_moves (d : Device) (packet : bytes) : dv_alive d = true -> moved d (send d packet).2 (send d packet).1.2.
Proof.
  intros Ha. destruct (start_moves d Ha) as (Hm & Hs & Hu). unfold send.
  eapply (moved_app _ _ _ [] _ Hm), (moved_cons _ [] _ _ _ (send_begins _ packet Hs Hu)), send_poll_moves, Hs.
Qed.

(** Every step of the executable model is a sequence of moves. *)
Lemma seam_step_moves (d : Device) (op : SeamOp) : moved d (seam_step d op).2 (seam_step d op).1.
Proof.
  destruct op; simpl; [apply read_loop_moves | apply write_loop_moves | | | | apply moved_one, send_cancelled |]; unfold idle;
    (destruct (dv_alive d) eqn:Ha; simpl; [|apply moved_nil]); repeat case_bool_decide; try apply moved_nil.
  - pose proof (recv_moves d room Ha). by destruct (recv d room) as [[? ?] ?].
  - pose proof (send_moves d packet Ha). by destruct (send d packet) as [[? ?] ?].
  - pose proof (send_poll_moves d Ha). by destruct (send_poll d) as [[? ?] ?].
  - by apply moved_one, drops.
Qed.

Lemma seam_run_moves (d : Device) (ops : list SeamOp) : moved d (seam_run d ops).2 (seam_run d ops).1.
Proof.
  revert d. induction ops as [|op ops IH]; intros d; simpl; [apply moved_nil |].
  pose proof (seam_step_moves d op) as M. destruct (seam_step d op) as [d1 log]. specialize (IH d1).
  destruct (seam_run d1 ops) as [d2 rest]. by eapply moved_app.
Qed.

(** An invariant of a device and its log that every move keeps. *)
Definition kept (I : Device -> list SeamEvent -> Prop) : Prop :=
  forall d log ev d', I d log -> moves d ev d' -> I d' (log ++ ev).

Lemma kept_run (I : Device -> list SeamEvent -> Prop) (d : Device) (ops : list SeamOp) :
  kept I -> I d [] -> I (seam_run d ops).1 (seam_run d ops).2.
Proof.
  intros K. enough (forall log d' ev, moved d ev d' -> I d log -> I d' (log ++ ev)) as H.
  { intros Hd. exact (H [] _ _ (seam_run_moves d ops) Hd). }
  intros log d' ev M. revert log. induction M as [d | d ev d' ev' d'' M1 M2 IH]; intros log Hd.
  - by rewrite app_nil_r.
  - rewrite app_assoc. apply IH. by eapply K.
Qed.

(** ** Ownership of the context *)

(** A log that releases the context exactly when no owner is left, and last. *)
Definition released_last (d : Device) (log : list SeamEvent) : Prop :=
  exists before, log = before ++ (if (dv_arcs d =? 0)%nat && op_release (dv_ops d) then [HostRelease] else []) /\ HostRelease ∉ before.

Record owned (d : Device) (log : list SeamEvent) : Prop := {
  owned_arcs : dv_arcs d = owners d;
  owned_unstarted : dv_unstarted d = true -> dv_alive d = true /\ dv_reader d = RDone /\ dv_writer d = WDone;
  owned_released : released_last d log;
  owned_closed : closes log = if op_close (dv_ops d) && negb (dv_alive d) then 1%nat else 0%nat;
}.

Ltac move_cases d M :=
  destruct d as [ops mtu alive unstarted inbound refill outbound spare sending reader writer arcs]; destruct M; simpl in *; subst;
  unfold end_reader, end_writer, Device_drop, drop_arc, give_back, Device_start, owners, reader_gone, writer_gone,
    set_inbound, set_refill, set_outbound, set_spare, set_sending, set_reader, set_writer in *; simpl in *.

Lemma owners_kept (d d' : Device) (ev : list SeamEvent) : moves d ev d' ->
  dv_arcs d = owners d -> (dv_unstarted d = true -> dv_alive d = true /\ dv_reader d = RDone /\ dv_writer d = WDone) ->
  dv_arcs d' = owners d' /\ (dv_unstarted d' = true -> dv_alive d' = true /\ dv_reader d' = RDone /\ dv_writer d' = WDone).
Proof.
  intros M Ha Hu. move_cases d M;
    try destruct unstarted; try (destruct Hu as (? & ? & ?); [reflexivity |]; try discriminate; subst);
    repeat case_match; simpl in *; subst; try discriminate; (split; [lia | discriminate || tauto]).
Qed.

Lemma not_release (log : list SeamEvent) (d : Device) : (0 < dv_arcs d)%nat -> released_last d log -> HostRelease ∉ log.
Proof. intros Ha (before & -> & Hn). destruct (dv_arcs d); [lia |]. simpl. by rewrite app_nil_r. Qed.

(** A move leaves the owners alone and says nothing of a release, starts the tasks, or takes one
    owner away with what that releases. *)
Inductive owner_change (d : Device) (ev : list SeamEvent) (d' : Device) : Prop :=
| owners_same : HostRelease ∉ ev -> ev = [] \/ (0 < owners d)%nat -> dv_arcs d' = dv_arcs d -> owner_change d ev d'
| owners_start : ev = [] -> (0 < owners d)%nat -> dv_arcs d' = (dv_arcs d + 2)%nat -> owner_change d ev d'
| owner_leaves before : (0 < owners d)%nat -> dv_arcs d' = (dv_arcs d - 1)%nat -> HostRelease ∉ before ->
    ev = before ++ (if (dv_arcs d =? 1)%nat && op_release (dv_ops d) then [HostRelease] else []) -> owner_change d ev d'.

Lemma reader_owns (d : Device) (r : ReadLoop) : dv_reader d = r -> r <> RDone -> (0 < owners d)%nat.
Proof. intros <- Hr. unfold owners, reader_gone. destruct (dv_reader d); [lia | lia | lia | done]. Qed.
Lemma writer_owns (d : Device) (w : WriteLoop) : dv_writer d = w -> w <> WDone -> (0 < owners d)%nat.
Proof. intros <- Hr. unfold owners, writer_gone. destruct (dv_writer d); [lia | lia | lia | done]. Qed.
Lemma alive_owns (d : Device) : dv_alive d = true -> (0 < owners d)%nat.
Proof. intros Ha. unfold owners. rewrite Ha. lia. Qed.

Ltac owns := first [by eapply alive_owns | by eapply reader_owns | by eapply writer_owns].
Ltac no_release := repeat rewrite not_elem_of_cons; repeat split; try discriminate; apply not_elem_of_nil.

Lemma move_owners (d d' : Device) (ev : list SeamEvent) : moves d ev d' -> dv_ops d' = dv_ops d /\ owner_change d ev d'.
Proof.
  intros M. destruct M;
    try (split; [reflexivity | apply owners_same; [no_release | first [by left | right; owns] | reflexivity]]);
    try (split; [reflexivity | apply (owner_leaves _ _ _ []); [owns | reflexivity | no_release | reflexivity]]).
  - split; [reflexivity |]. apply (owner_leaves _ _ _ [HostRead Panic]); [owns | reflexivity | no_release | reflexivity].
  - split; [reflexivity |]. apply (owner_leaves _ _ _ [HostWrite buf Panic]); [owns | reflexivity | no_release | reflexivity].
  - unfold Device_start. rewrite H. split; [reflexivity | apply owners_start; [done | owns | reflexivity]].
  - split; [reflexivity |].
    apply (owner_leaves _ _ _ (if op_close (dv_ops d) then [HostClose] else [])); [owns | reflexivity | destruct (op_close _); no_release | reflexivity].
Qed.

Lemma closes_app (a b : list SeamEvent) : closes (a ++ b) = (closes a + closes b)%nat.
Proof. unfold closes. by rewrite omap_app, length_app. Qed.

(** Only dropping the device closes. *)
Lemma move_closes (d d' : Device) (ev : list SeamEvent) : moves d ev d' ->
  (dv_alive d' = dv_alive d /\ closes ev = 0%nat)
  \/ (dv_alive d = true /\ dv_alive d' = false /\ closes ev = if op_close (dv_ops d) then 1%nat else 0%nat).
Proof.
  intros M. destruct M; try (left; split; [reflexivity |]; simpl; unfold closes; repeat case_match; reflexivity).
  - left. unfold Device_start. destruct (dv_unstarted d); done.
  - right. split; [done |]. split; [done |]. unfold Device_drop, drop_arc, closes. simpl.
    destruct (op_close _), (dv_arcs d =? 1)%nat, (op_release _); reflexivity.
Qed.

Lemma owned_kept : kept owned.
Proof.
  intros d log ev d' [Ha Hu Hr Hc] M. destruct (owners_kept _ _ _ M Ha Hu) as [Ha' Hu']. destruct (move_owners _ _ _ M) as [Ho K].
  split; [done | done | |].
  - destruct K as [Hn Hz Hs | -> Hz Hs | before Hz Hs Hn ->].
    + destruct Hz as [-> | Hz]; unfold released_last; rewrite Ho, Hs; [by rewrite app_nil_r |].
      rewrite <- Ha in Hz. pose proof (not_release _ _ Hz Hr). destruct (dv_arcs d); [lia |]. simpl.
      exists (log ++ ev). rewrite app_nil_r. split; [done |]. by rewrite not_elem_of_app.
    + rewrite app_nil_r. rewrite <- Ha in Hz. pose proof (not_release _ _ Hz Hr). unfold released_last. rewrite Hs.
      destruct (dv_arcs d); [lia |]. exists log. simpl. by rewrite app_nil_r.
    + rewrite <- Ha in Hz. pose proof (not_release _ _ Hz Hr). unfold released_last. rewrite Ho, Hs.
      exists (log ++ before). split; [|by rewrite not_elem_of_app].
      rewrite app_assoc. by replace (dv_arcs d - 1 =? 0)%nat with (dv_arcs d =? 1)%nat by (destruct (dv_arcs d) as [|[|n]]; [lia | done | done]).
  - rewrite closes_app, Hc, Ho. destruct (move_closes _ _ _ M) as [[-> ->] | (-> & -> & ->)]; [lia |]. by destruct (op_close _).
Qed.

(** ** Packets from the host *)

Definition inbound_packets (d : Device) : list bytes :=
  omap (fun item => match item with inr packet => Some packet | inl _ => None end) (dv_inbound d).

(** The buffer the reader holds. *)
Definition held (d : Device) : nat := match dv_reader d with RReading _ | RSending _ => 1%nat | _ => 0%nat end.

Definition fits (d : Device) (packet : bytes) : Prop := (0 < length packet <= Z.to_nat (Mtu_get (dv_mtu d)))%nat.

(** What the host hands over ([read]) is taken by the reactor in order ([taken], of which
    [discarded] did not fit), from a queue of [DEPTH]; the reader's other buffers are all in
    circulation, so that a refill always has room. *)
Record carries_in (d : Device) (read taken discarded : list bytes) : Prop := {
  ci_alive : dv_alive d = true -> read = taken ++ queued_in d;
  ci_prefix : taken `prefix_of` read;
  ci_buffer : forall buf, dv_reader d = RReading buf -> length buf = Z.to_nat (Mtu_get (dv_mtu d));
  ci_fits : Forall (fits d) read;
  ci_queue : (length (dv_inbound d) <= DEPTH)%nat;
  ci_unstarted : dv_unstarted d = true ->
    dv_alive d = true /\ dv_reader d = RDone /\ dv_writer d = WDone /\ discarded = [] /\ dv_inbound d = [] /\ length (dv_refill d) = DEPTH;
  ci_buffers : dv_alive d = true -> reader_gone d = false ->
    (length (dv_refill d) + length (inbound_packets d) + held d + length discarded = DEPTH)%nat;
}.

Lemma packets_app (a b : list SeamEvent) :
  packets_read (a ++ b) = packets_read a ++ packets_read b /\ packets_taken (a ++ b) = packets_taken a ++ packets_taken b
  /\ packets_discarded (a ++ b) = packets_discarded a ++ packets_discarded b
  /\ packets_accepted (a ++ b) = packets_accepted a ++ packets_accepted b
  /\ packets_written (a ++ b) = packets_written a ++ packets_written b /\ writes_succeed (a ++ b) = writes_succeed a && writes_succeed b.
Proof. unfold packets_read, packets_taken, packets_discarded, packets_accepted, packets_written, writes_succeed. by rewrite !omap_app, forallb_app. Qed.

(** The parts of the invariant a move leaves alone follow from it. *)
Lemma carries_in_kept : kept (fun d log => carries_in d (packets_read log) (packets_taken log) (packets_discarded log)).
Proof.
  intros d log ev d' H M. destruct (packets_app log ev) as (-> & -> & -> & _).
  revert H. generalize (packets_read log), (packets_taken log), (packets_discarded log). clear log. intros read taken discarded [H1 H2 H3 H4 H5 H6 H7].
  move_cases d M; try destruct (_ && op_release ops); (split; unfold queued_in, inbound_packets, held, fits, reader_gone in *; simpl in *; rewrite ?app_nil_r, ?omap_app in * ).
  all: try assumption.
  all: try (intros; discriminate).
  all: try (rewrite ?app_nil_r, ?length_app in *; simpl in *; lia).
  all: try (intros; destruct H6 as (? & ? & ? & ? & ? & ?); [done | subst; simpl in *; congruence || lia]).
  all: try (intros; specialize (H7 ltac:(done) ltac:(done)); rewrite ?length_app in *; simpl in *; lia).
  all: try (intros; specialize (H1 ltac:(done)); rewrite H1; by rewrite ?app_nil_r, <- ?app_assoc).
  all: try (intros; specialize (H1 ltac:(done)); rewrite H1; eexists; rewrite <- app_assoc; reflexivity).
  all: try by eauto using prefix_app_r.
  all: try (intros; simplify_eq; by rewrite ?length_resize).
  all: try (destruct (op_close ops); unfold packets_read, packets_taken; simpl; rewrite ?app_nil_r; assumption).
  - intros. simplify_eq. etransitivity; [eassumption | by apply H3].
  - rewrite Forall_app. split; [done |]. apply Forall_singleton. simpl. specialize (H3 _ eq_refl). lia.
  - intros _. destruct H6 as (? & -> & ? & ? & ? & ?); [done |]. specialize (H1 eq_refl). by rewrite app_nil_r in H1.
  - intros _ Hg. specialize (H7 eq_refl Hg). rewrite length_app. unfold omap. simpl. lia.
  - intros _ Hg. specialize (H7 eq_refl Hg). rewrite length_app. unfold omap. simpl. lia.
  - intros _ Hg. specialize (H7 eq_refl Hg). match goal with Hd : _ \/ _ |- _ => destruct Hd; [congruence | lia] end.
Qed.

(** ** Packets to the host *)

(** What [send] accepted is written in order: all of it, unless a write failed. *)
Record carries_out (d : Device) (accepted written : list bytes) (succeed : bool) : Prop := {
  co_queued : writer_gone d = false -> accepted = written ++ queued_out d;
  co_prefix : written `prefix_of` accepted;
  co_whole : writer_gone d = true -> succeed = true -> accepted = written;
  co_failed : forall error, dv_writer d = WReporting error -> succeed = false;
  co_queues : (length (dv_outbound d) <= DEPTH)%nat /\ (length (dv_spare d) <= DEPTH)%nat;
  co_unstarted : dv_unstarted d = true -> dv_writer d = WDone /\ accepted = [] /\ written = [] /\ dv_outbound d = [];
}.

Lemma carries_out_kept : kept (fun d log => carries_out d (packets_accepted log) (packets_written log) (writes_succeed log)).
Proof.
  intros d log ev d' H M. destruct (packets_app log ev) as (_ & _ & _ & -> & -> & ->).
  revert H. generalize (packets_accepted log), (packets_written log), (writes_succeed log). clear log. intros accepted written succeed [H1 H2 H3 H4 [H5 H5'] H6].
  move_cases d M; try destruct (_ && op_release ops); try destruct (op_close ops);
    (split; unfold queued_out, writer_gone, packets_accepted, packets_written, writes_succeed in *; simpl in *; rewrite ?app_nil_r, ?andb_true_r, ?andb_false_r in * ).
  all: try assumption.
  all: try (intros; discriminate).
  all: try done.
  all: try (rewrite ?app_nil_r, ?length_app in *; simpl in *; lia).
  all: try (intros; destruct H6 as (? & ? & ? & ?); [done | subst; simpl in *; congruence || lia || by auto]).
  all: try (intros; specialize (H1 ltac:(done)); rewrite H1; by rewrite ?app_nil_r, <- ?app_assoc).
  all: try (intros; specialize (H1 ltac:(done)); rewrite H1; eexists; rewrite <- app_assoc; reflexivity).
  all: try by eauto using prefix_app_r.
  all: try (intros _ Hs; specialize (H4 _ eq_refl); congruence).
  all: try (intros; congruence).
  all: try (destruct unstarted; [destruct H6 as (? & ? & ? & ?); [done | subst] |]; simpl in *; first [done | assumption | (split; [assumption || lia | lia])]).
  all: split; [assumption |]; try (destruct spare; simpl in *; lia).
  all: case_match; [|assumption]; rewrite length_app; simpl; apply andb_prop in H as [_ H%Nat.ltb_lt]; lia.
Qed.

(** ** The device over a run *)

Lemma Device_new_owned (o : BoreasDevice) (device : Device) (ev : list SeamEvent) : Device_new o = (Some device, ev) ->
  ev = [] /\ dv_ops device = o /\ owned device [] /\ carries_in device [] [] [] /\ carries_out device [] [] true.
Proof.
  unfold Device_new. destruct (op_recv o), (op_send o); try done. destruct (Mtu_new (op_mtu o)) as [mtu | |]; try done. intros E.
  injection E as <- <-. do 2 (split; [done |]). split; [|split]; split; simpl; try done; try lia.
  - exists []. split; [done | apply not_elem_of_nil].
  - by destruct (op_close o).
  - unfold DEPTH. lia.
Qed.

Lemma run_owned (o : BoreasDevice) (device : Device) (ev : list SeamEvent) (ops : list SeamOp) : Device_new o = (Some device, ev) ->
  let '(d, log) := seam_run device ops in
  owned d log /\ carries_in d (packets_read log) (packets_taken log) (packets_discarded log)
  /\ carries_out d (packets_accepted log) (packets_written log) (writes_succeed log).
Proof.
  intros E. destruct (Device_new_owned _ _ _ E) as (_ & _ & H1 & H2 & H3).
  pose proof (kept_run _ device ops owned_kept H1). pose proof (kept_run _ device ops carries_in_kept H2).
  pose proof (kept_run _ device ops carries_out_kept H3). by destruct (seam_run device ops).
Qed.

(** ** The end of the tasks *)

(** The turns each task still takes once the device is dropped. *)
Definition reader_left (d : Device) : nat := match dv_reader d with RWaiting => 3 | RReading _ => 2 | RSending _ => 1 | RDone => 0 end.
Definition writer_left (d : Device) : nat :=
  match dv_writer d with
  | WWaiting => 2 * length (dv_outbound d) + 1
  | WWriting _ => 2 * length (dv_outbound d) + 2
  | WReporting _ => 1
  | WDone => 0
  end.

(** The host does not answer a read with zero. *)
Definition answers (op : SeamOp) : Prop := match op with ReaderTurn answer => answer.1 <> 0 | _ => True end.

Lemma read_into_answers (o : BoreasDevice) (buf : bytes) (answer : Z * bytes) : answer.1 <> 0 -> (read_into o buf answer).1 <> Ok O.
Proof.
  intros Ha E. unfold read_into, failed in E. destruct (op_recv o); simpl in E; [|done].
  destruct (Z.ltb_spec answer.1 0); [by destruct (answer.1 =? ISIZE_MIN) |]. destruct (_ <? answer.1); [done |].
  injection E as E. lia.
Qed.

Ltac left_done := unfold reader_left, writer_left; simpl; repeat split; solve [done | lia].

Lemma reader_turn_left (d : Device) (answer : Z * bytes) : dv_alive d = false -> answer.1 <> 0 ->
  dv_alive (read_loop d answer).1 = false /\ writer_left (read_loop d answer).1 = writer_left d
  /\ (reader_left (read_loop d answer).1 <= reader_left d - 1)%nat.
Proof.
  intros Hd Ha. unfold read_loop, inbound_send, reader_left at 2. destruct (dv_reader d) as [| buf | item |] eqn:Hr.
  - destruct (dv_refill d); [rewrite Hd |]; left_done.
  - pose proof (read_into_answers (dv_ops d) buf answer Ha) as Hn.
    destruct (read_into (dv_ops d) buf answer) as [[[|n] | e |] buf']; [done | left_done ..].
  - rewrite Hd. simpl. destruct item; left_done.
  - unfold reader_left. simpl. rewrite Hr. left_done.
Qed.

Lemma writer_turn_left (d : Device) (code : Z) : dv_alive d = false ->
  dv_alive (write_loop d code).1 = false /\ reader_left (write_loop d code).1 = reader_left d
  /\ (writer_left (write_loop d code).1 <= writer_left d - 1)%nat.
Proof.
  intros Hd. unfold write_loop, inbound_send, writer_left at 2. destruct (dv_writer d) as [| buf | error |] eqn:Hw.
  - destruct (dv_outbound d); [rewrite Hd |]; left_done.
  - destruct (write_all (dv_ops d) code) as [[] | e |]; left_done.
  - rewrite Hd. left_done.
  - unfold writer_left. simpl. rewrite Hw. left_done.
Qed.

(** Once the device is dropped no step adds to what the tasks have left. *)
Lemma step_left (d : Device) (op : SeamOp) : dv_alive d = false -> answers op ->
  dv_alive (seam_step d op).1 = false
  /\ (reader_left (seam_step d op).1 <= reader_left d)%nat /\ (writer_left (seam_step d op).1 <= writer_left d)%nat.
Proof.
  intros Hd Ha. destruct op; unfold seam_step, idle; rewrite ?Hd; simpl; try left_done.
  - destruct (reader_turn_left d answer Hd Ha) as (-> & -> & ?). lia.
  - destruct (writer_turn_left d code Hd) as (-> & -> & ?). lia.
Qed.

(** ** Unbounded executions *)

(** The first [n] steps of an unbounded schedule. *)
Definition prefix (schedule : nat -> SeamOp) (n : nat) : list SeamOp := map schedule (seq 0 n).

(** Every task keeps getting turns. *)
Definition fair (schedule : nat -> SeamOp) : Prop :=
  (forall n, exists m answer, (n <= m)%nat /\ schedule m = ReaderTurn answer) /\ (forall n, exists m code, (n <= m)%nat /\ schedule m = WriterTurn code).

Lemma seam_run_split (d : Device) (a b : list SeamOp) :
  seam_run d (a ++ b) = ((seam_run (seam_run d a).1 b).1, (seam_run d a).2 ++ (seam_run (seam_run d a).1 b).2).
Proof.
  revert d. induction a as [|op a IH]; intros d; simpl; [by destruct (seam_run d b) |]. destruct (seam_step d op) as [d1 log]. rewrite IH.
  destruct (seam_run d1 a) as [d2 rest]. simpl. by rewrite app_assoc.
Qed.

Lemma prefix_step (d : Device) (schedule : nat -> SeamOp) (n : nat) :
  (seam_run d (prefix schedule (S n))).1 = (seam_step (seam_run d (prefix schedule n)).1 (schedule n)).1.
Proof.
  unfold prefix. rewrite seq_S, map_app, seam_run_split. simpl. by destruct (seam_step _ _).
Qed.

Section Execution.

Context (d0 : Device) (schedule : nat -> SeamOp) (Hanswers : forall n, answers (schedule n)).

Abbreviation at_ n := ((seam_run d0 (prefix schedule n)).1).

Lemma left_monotone (n m : nat) : dv_alive (at_ n) = false -> (n <= m)%nat ->
  dv_alive (at_ m) = false /\ (reader_left (at_ m) <= reader_left (at_ n))%nat /\ (writer_left (at_ m) <= writer_left (at_ n))%nat.
Proof.
  intros Hd. induction 1 as [|m _ (IHd & IHr & IHw)]; [split; [done | lia] |]. rewrite prefix_step.
  destruct (step_left _ (schedule m) IHd (Hanswers m)) as (? & ? & ?). split; [done | lia].
Qed.

Lemma reader_progress (n m : nat) (answer : Z * bytes) : dv_alive (at_ n) = false -> (n <= m)%nat -> schedule m = ReaderTurn answer ->
  (reader_left (at_ (S m)) <= reader_left (at_ n) - 1)%nat.
Proof.
  intros Hd Hm E. destruct (left_monotone n m Hd Hm) as (Hd' & Hr & _). rewrite prefix_step.
  pose proof (Hanswers m) as Ha. rewrite E in Ha |- *. destruct (reader_turn_left _ _ Hd' Ha) as (_ & _ & ?). simpl in *. lia.
Qed.

Lemma writer_progress (n m : nat) (code : Z) : dv_alive (at_ n) = false -> (n <= m)%nat -> schedule m = WriterTurn code ->
  (writer_left (at_ (S m)) <= writer_left (at_ n) - 1)%nat.
Proof.
  intros Hd Hm E. destruct (left_monotone n m Hd Hm) as (Hd' & _ & Hw). rewrite prefix_step.
  rewrite E. destruct (writer_turn_left _ code Hd') as (_ & _ & ?). simpl in *. lia.
Qed.

Lemma tasks_end (n : nat) : fair schedule -> dv_alive (at_ n) = false ->
  exists m, (n <= m)%nat /\ reader_left (at_ m) = 0%nat /\ writer_left (at_ m) = 0%nat.
Proof.
  intros [Fr Fw]. remember (reader_left (at_ n) + writer_left (at_ n))%nat as left_ eqn:El. revert n El.
  induction left_ as [left_ IH] using lt_wf_ind. intros n -> Hd.
  destruct (decide (reader_left (at_ n) + writer_left (at_ n) = 0)%nat); [exists n; lia |].
  enough (exists m, (n < m)%nat /\ (reader_left (at_ m) + writer_left (at_ m) < reader_left (at_ n) + writer_left (at_ n))%nat) as (m & Hm & Hlt).
  { destruct (left_monotone n m Hd ltac:(lia)) as (Hd' & _). destruct (IH _ Hlt m eq_refl Hd') as (k & ? & ? & ?). exists k. lia. }
  destruct (decide (reader_left (at_ n) = 0%nat)).
  - destruct (Fw n) as (m & code & Hm & E). exists (S m). pose proof (writer_progress n m code Hd Hm E).
    destruct (left_monotone n (S m) Hd ltac:(lia)) as (_ & ? & ?). lia.
  - destruct (Fr n) as (m & answer & Hm & E). exists (S m). pose proof (reader_progress n m answer Hd Hm E).
    destruct (left_monotone n (S m) Hd ltac:(lia)) as (_ & ? & ?). lia.
Qed.

End Execution.

Lemma nothing_left (d : Device) : dv_alive d = false -> reader_left d = 0%nat -> writer_left d = 0%nat -> owners d = 0%nat.
Proof.
  unfold owners, reader_left, writer_left, reader_gone, writer_gone. intros ->. destruct (dv_reader d), (dv_writer d); done || lia.
Qed.

(** ** What the seam promises *)

(** C9: over any interleaving of the tasks, the host's answers and the reactor's calls, the packets the host hands over reach the
    reactor in order, each of them non-empty and within the MTU, none lost while the device lives and none from outside its queue
    of [DEPTH]; all the reader's buffers but those of packets too large for the reactor stay in circulation.  Packets [send]
    accepted are written to the host in order, all of them by the time the writer ends unless a write failed, a dropped device
    included.  [close] is called exactly when the device is dropped, and the context released exactly when the device and
    both tasks are gone: once, and no callback after it. *)
Theorem seam_faithful (o : BoreasDevice) (device : Device) (ops : list SeamOp) : Device_new o = (Some device, []) ->
  let '(d, log) := seam_run device ops in
  (packets_taken log `prefix_of` packets_read log
   /\ (dv_alive d = true -> packets_read log = packets_taken log ++ queued_in d)
   /\ Forall (fits d) (packets_read log)
   /\ (dv_alive d = true -> reader_gone d = false ->
       (length (dv_refill d) + length (inbound_packets d) + held d + length (packets_discarded log) = DEPTH)%nat))
  /\ (packets_written log `prefix_of` packets_accepted log
      /\ (writer_gone d = false -> packets_accepted log = packets_written log ++ queued_out d)
      /\ (writer_gone d = true -> writes_succeed log = true -> packets_accepted log = packets_written log))
  /\ ((length (dv_inbound d) <= DEPTH)%nat /\ (length (dv_outbound d) <= DEPTH)%nat /\ (length (dv_spare d) <= DEPTH)%nat)
  /\ closes log = (if op_close (dv_ops d) && negb (dv_alive d) then 1%nat else 0%nat)
  /\ exists before, log = before ++ (if (owners d =? 0)%nat && op_release (dv_ops d) then [HostRelease] else []) /\ HostRelease ∉ before.
Proof.
  intros E. pose proof (run_owned o device [] ops E) as H. destruct (seam_run device ops) as [d log].
  destruct H as ([Ha _ Hr Hc] & [I1 I2 _ I4 I5 _ I7] & [O1 O2 O3 _ [O5 O6] _]). unfold released_last in Hr. rewrite Ha in Hr. tauto.
Qed.

(** C10: a dropped device is released.  However the tasks are scheduled, provided each keeps getting turns and the host does not answer
    a read with zero, there is a time after the drop at which both tasks are gone, and the last call the host saw is the
    release of its context. *)
Theorem device_released (o : BoreasDevice) (device : Device) (schedule : nat -> SeamOp) (n : nat) :
  Device_new o = (Some device, []) -> (forall k, answers (schedule k)) -> fair schedule ->
  dv_alive (seam_run device (prefix schedule n)).1 = false ->
  exists m, (n <= m)%nat
    /\ let '(d, log) := seam_run device (prefix schedule m) in
       dv_reader d = RDone /\ dv_writer d = WDone /\ dv_arcs d = 0%nat
       /\ (op_release (dv_ops d) = true -> exists before, log = before ++ [HostRelease] /\ HostRelease ∉ before).
Proof.
  intros E Ha Hf Hd. destruct (tasks_end device schedule Ha n Hf Hd) as (m & Hm & Hr & Hw). exists m. split; [done |].
  destruct (left_monotone device schedule Ha n m Hd Hm) as (Hd' & _). pose proof (run_owned o device [] (prefix schedule m) E) as H.
  destruct (seam_run device (prefix schedule m)) as [d log]. simpl in *. destruct H as ([Harcs _ (before & El & Hn) _] & _ & _).
  rewrite (nothing_left d Hd' Hr Hw) in Harcs. split; [|split].
  - unfold reader_left in Hr. by destruct (dv_reader d).
  - unfold writer_left in Hw. destruct (dv_writer d); lia || done.
  - split; [done |]. intros Ho. rewrite Harcs, Ho in El. by exists before.
Qed.

(** A device whose reads answer zero is never released: the reader asks again and does not look at
    whether the device is gone. *)
Theorem idle_device_never_released (n : nat) :
  let o := mkOps true true true true 1500 in
  exists device, Device_new o = (Some device, [])
    /\ let '(d, log) := seam_run device ([Recv 1500; ReaderTurn (0, []); WriterTurn 0; DropDevice] ++ repeat (ReaderTurn (0, [])) n) in
       dv_alive d = false /\ (exists buf, dv_reader d = RReading buf) /\ HostRelease ∉ log.
Proof.
  eexists. split; [reflexivity |].
  assert (forall d, (exists buf, dv_reader d = RReading buf) -> dv_ops d = mkOps true true true true 1500 ->
    let '(d', log) := seam_run d (repeat (ReaderTurn (0, [])) n) in
    dv_alive d' = dv_alive d /\ (exists buf, dv_reader d' = RReading buf) /\ HostRelease ∉ log) as K.
  { induction n as [|n IH]; intros d [buf Hb] Ho; simpl; [split; [done | split; [by exists buf | apply not_elem_of_nil]] |].
    unfold read_loop. rewrite Hb, Ho. unfold read_into. cbn [op_recv fst snd]. rewrite (proj2 (Z.ltb_ge 0 0)) by lia.
    rewrite (proj2 (Z.ltb_ge (Z.of_nat _) 0)) by lia. change (Z.to_nat 0) with O. cbv beta iota.
    specialize (IH (set_reader d (RReading (fill buf []))) ltac:(by eexists) Ho). cbn [snd] in *.
    destruct (seam_run (set_reader d (RReading (fill buf []))) _) as [d' log].
    destruct IH as (? & ? & ?). split; [done |]. split; [done |]. apply not_elem_of_cons. by split. }
  rewrite seam_run_split.
  match goal with |- context [seam_run ?d [Recv 1500; ReaderTurn (0, []); WriterTurn 0; DropDevice]] =>
    pose (r := seam_run d [Recv 1500; ReaderTurn (0, []); WriterTurn 0; DropDevice]); change (seam_run d _) with r end.
  assert (r.2 = [HostClose]) as -> by (vm_compute; reflexivity).
  specialize (K r.1 ltac:(eexists; vm_compute; reflexivity) ltac:(vm_compute; reflexivity)).
  assert (dv_alive r.1 = false) as Hd by (vm_compute; reflexivity). destruct (seam_run r.1 _) as [d' log]. rewrite Hd in K.
  destruct K as (? & ? & ?). split; [done |]. split; [done |]. apply not_elem_of_cons. by split.
Qed.

(** A device in which a packet comes in, one goes out, and the reactor drops it. *)
Definition sample_device : BoreasDevice := mkOps true true true true 1500.

Lemma seam_faithful_witness :
  exists device, Device_new sample_device = (Some device, [])
  /\ let '(d, log) := seam_run device
       [Recv 1500; ReaderTurn (0, []); ReaderTurn (3, [69; 1; 2]); ReaderTurn (0, []); Send [70]; WriterTurn 0; Recv 1500; DropDevice;
        WriterTurn 0; WriterTurn 0; ReaderTurn (0, []); ReaderTurn (-4, []); ReaderTurn (0, [])] in
     packets_taken log = [[69; 1; 2]] /\ packets_written log = [[70]] /\ closes log = 1%nat
     /\ exists before, log = before ++ [HostRelease] /\ HostRelease ∉ before.
Proof.
  eexists. split; [reflexivity |].
  match goal with |- context [seam_run ?d ?ops] =>
    pose proof (seam_faithful sample_device d ops eq_refl) as F;
    assert (owners (seam_run d ops).1 = 0%nat /\ op_release (dv_ops (seam_run d ops).1) = true) as [Eo Er] by (split; vm_compute; reflexivity);
    assert (packets_taken (seam_run d ops).2 = [[69; 1; 2]] /\ packets_written (seam_run d ops).2 = [[70]] /\ closes (seam_run d ops).2 = 1%nat) as Ep
      by (split; [|split]; vm_compute; reflexivity);
    revert F Eo Er Ep; generalize (seam_run d ops) end.
  intros [d log] (_ & _ & _ & _ & before & El & Hn) Eo Er (? & ? & ?). cbn [fst snd] in *. rewrite Eo, Er in El.
  split; [done |]. split; [done |]. split; [done |]. by exists before.
Defined.

(** The device is used once and dropped; the tasks then take turns, with reads that fail. *)
Definition sample_schedule (n : nat) : SeamOp :=
  match n with O => Recv 1500 | 1%nat => DropDevice | S (S k) => if Nat.even k then ReaderTurn (-4, []) else WriterTurn 0 end.

Lemma device_released_witness :
  exists device, Device_new sample_device = (Some device, [])
  /\ exists m, (2 <= m)%nat
    /\ let '(d, log) := seam_run device (prefix sample_schedule m) in
       dv_reader d = RDone /\ dv_writer d = WDone /\ dv_arcs d = 0%nat
       /\ (op_release (dv_ops d) = true -> exists before, log = before ++ [HostRelease] /\ HostRelease ∉ before).
Proof.
  eexists. split; [reflexivity |]. apply (device_released sample_device).
  - reflexivity.
  - intros [|[|k]]; simpl; [done | done |]. destruct (Nat.even k); simpl; done || lia.
  - split; intros n.
    + exists (S (S (2 * n))), (-4, []). split; [lia |]. unfold sample_schedule. by rewrite Nat.even_mul.
    + exists (S (S (2 * n + 1))), 0. split; [lia |]. unfold sample_schedule. by rewrite Nat.even_add, Nat.even_mul.
  - vm_compute. reflexivity.
Defined.
