(* ===== verification/Ffi.v ===== *)
(** The C boundary ([ffi/src/config.rs], [status.rs], [tunnel.rs]): a configuration of pointers
    becomes a [TunnelConfig], a start accounts for the contexts it was handed, the driver task
    serves commands and events, and texts are copied into the caller's buffers.

    A pointer is an option, the memory behind it its value: a C string its bytes before the
    terminator, an array its elements, a buffer its bytes.  That non-null pointers are valid is the
    caller's contract. *)

From S2P Require Import Prelude Wire Net Plan Pool Packet Udp Datapath DatapathSafety DnsName DnsMessage DnsPolicy DnsResponse Filter Telemetry.
From S2P Require Import Stack StackTheory Egress WireGuard IpText Text Csp Rewrite Mirror Demote Exchange Rules Session Api Seam.
Open Scope Z_scope.

(** * Status *)

Inductive Status :=
| StatusOk | NullArgument | NotUtf8 | StatusConfig | StatusAuthority | StatusEgress | StatusTermination | StatusDatapath | StatusIo
| Stopped | BufferTooSmall | StatusPanic | Unrecognised.

#[global] Instance Status_eq_dec : EqDecision Status.
Proof. solve_decision. Defined.

Definition Status_from {W} `{Etherparse} (error : StartError W) : Status :=
  match error with
  | StartConfig _ => StatusConfig
  | StartAuthority => StatusAuthority
  | StartEgress _ => StatusEgress
  | StartDatapath _ => StatusDatapath
  | StartIo _ => StatusIo
  | StartTermination _ => StatusTermination
  end.

(** [boundary]: a panic becomes a status. *)
Definition boundary (work : Res Empty_set Status) : Status := match work with Ok status => status | _ => StatusPanic end.

(** * Configuration *)

Inductive BoreasEgress := BoreasDirect | BoreasWireGuardTag.
Inductive BoreasNat := NatEndpointIndependent | NatAddressDependent | NatAddressAndPortDependent.

Definition NatBehavior_from (value : BoreasNat) : NatBehavior :=
  match value with
  | NatEndpointIndependent => EndpointIndependent
  | NatAddressDependent => AddressDependent
  | NatAddressAndPortDependent => AddressAndPortDependent
  end.

Record BoreasWireGuard := mkBoreasWireGuard {
  bw_endpoint : option bytes;
  bw_private_key : bytes;
  bw_peer_public_key : bytes;
  bw_preshared_key : bytes;
  bw_has_preshared_key : bool;
}.

(** What the WireGuard egress is given besides its peer. *)
Record WireGuardConfig := mkWireGuardConfig {
  wg_private_key : bytes;
  wg_peer_public_key : bytes;
  wg_preshared_key : option bytes;
  wg_persistent_keepalive : option Z;
  wg_inner_mtu : Mtu;
}.

Record BoreasCeilings := mkBoreasCeilings {
  bc_buffer_slices : nat;
  bc_datagrams_per_flow : nat;
  bc_terminated_connections : nat;
  bc_associations : nat;
  bc_inspected_addresses : nat;
  bc_pending_reassemblies : nat;
}.

Record BoreasConfig := mkBoreasConfig {
  bf_egress : BoreasEgress;
  bf_wireguard : BoreasWireGuard;
  bf_nat_behavior : BoreasNat;
  bf_resolver : option bytes;
  bf_lists : option (list (option bytes));
  bf_list_count : nat;
  bf_intercept_hosts : option (list (option bytes));
  bf_intercept_host_count : nat;
  bf_root_certificate : option bytes;
  bf_root_certificate_len : nat;
  bf_authority_keys : option bytes;
  bf_authority_keys_len : nat;
  bf_rewrite_documents : bool;
  bf_mtu : Z;
  bf_ceilings : BoreasCeilings;
}.

Definition owned_text (pointer : option bytes) : Res Status (option bytes) :=
  match pointer with
  | None => Ok None
  | Some raw => if utf8_ok raw then Ok (Some raw) else Err NotUtf8
  end.

Fixpoint collect_texts (entries : list (option bytes)) : Res Status (list bytes) :=
  match entries with
  | [] => Ok []
  | entry :: entries =>
      text ← owned_text entry;
      match text with
      | None => Err NullArgument
      | Some text => rest ← collect_texts entries; Ok (text :: rest)
      end
  end.

Definition strings (pointer : option (list (option bytes))) (count : nat) : Res Status (list bytes) :=
  if (count =? 0)%nat then Ok []
  else match pointer with None => Err NullArgument | Some entries => collect_texts (take count entries) end.

Definition bytes_of (pointer : option bytes) (len : nat) : option bytes :=
  match pointer with
  | None => None
  | Some memory => if (len =? 0)%nat then None else Some (take len memory)
  end.

Definition ceiling (value default : nat) : nat := if (value =? 0)%nat then default else value.

Definition BoreasCeilings_parse (c : BoreasCeilings) : Ceilings :=
  let d := Ceilings_default in
  mkCeilings (ceiling (bc_buffer_slices c) (buffer_slices d)) (ceiling (bc_datagrams_per_flow c) (datagrams_per_flow d))
    (ceiling (bc_terminated_connections c) (terminated_connections d)) (ceiling (bc_associations c) (associations d))
    (ceiling (bc_inspected_addresses c) (inspected_addresses d)) (ceiling (bc_pending_reassemblies c) (pending_reassemblies d)).

Definition StreamBudget_default : StreamBudget := mkStreamBudget (Z.to_nat (2 * 1024 * 1024)) (Z.to_nat (16 * 1024)).

(** Reading a socket address, the failure a status. *)
Definition parse_address (text : bytes) : Res Status SocketAddr := match parse_socket text with Some address => Ok address | None => Err StatusConfig end.
Definition parse_mtu (value : Z) : Res Status Mtu := match Mtu_new value with Ok mtu => Ok mtu | _ => Err StatusConfig end.

(** [CaMaterial::from_parts]: the stored halves, once their signature is verified. *)
Class Material := { from_parts : bytes -> bytes -> option bytes }.

Definition parse_egress (c : BoreasConfig) : Res Status (EgressChoice * option WireGuardConfig) :=
  match bf_egress c with
  | BoreasDirect => Ok (ChooseDirect (NatBehavior_from (bf_nat_behavior c)), None)
  | BoreasWireGuardTag =>
      let w := bf_wireguard c in
      text ← owned_text (bw_endpoint w);
      match text with
      | None => Err NullArgument
      | Some text =>
          endpoint ← parse_address text;
          mtu ← parse_mtu (bf_mtu c);
          Ok (ChooseWireGuard endpoint,
              Some (mkWireGuardConfig (bw_private_key w) (bw_peer_public_key w) (if bw_has_preshared_key w then Some (bw_preshared_key w) else None) (Some 25) mtu))
      end
  end.

Definition parse_resolver (c : BoreasConfig) : Res Status ResolverChoice :=
  text ← owned_text (bf_resolver c);
  match text with
  | None => Ok Passthrough
  | Some text => address ← parse_address text; Ok (LocalResolver (ChooseDo53 address))
  end.

Definition parse_interception `{Material} (c : BoreasConfig) (hosts : list bytes) : Res Status (option Interception) :=
  if (length hosts =? 0)%nat then Ok None
  else
    stored ← match bytes_of (bf_root_certificate c) (bf_root_certificate_len c), bytes_of (bf_authority_keys c) (bf_authority_keys_len c) with
             | Some certificate, Some keys => match from_parts certificate keys with Some material => Ok (TrustRestore material) | None => Err StatusAuthority end
             | None, None => Ok TrustGenerate
             | _, _ => Err StatusConfig
             end;
    Ok (Some (mkInterception hosts stored (if bf_rewrite_documents c then Some StreamBudget_default else None))).

(** [BoreasConfig::parse]; the WireGuard keys are returned beside the configuration. *)
Definition BoreasConfig_parse `{Material} (c : BoreasConfig) : Res Status (TunnelConfig * option WireGuardConfig) :=
  egress ← parse_egress c;
  resolver ← parse_resolver c;
  hosts ← strings (bf_intercept_hosts c) (bf_intercept_host_count c);
  interception ← parse_interception c hosts;
  lists ← strings (bf_lists c) (bf_list_count c);
  mtu ← parse_mtu (bf_mtu c);
  Ok (mkConfig egress.1 resolver (mkFiltering lists interception) (mkLink mtu (lk_origination_ports Link_default)) (BoreasCeilings_parse (bf_ceilings c)), egress.2).

(** * Starting *)

Record BoreasBypass := mkBypass { bp_protect : bool; bp_release : bool }.

(** What the host sees of a start: calls on its device, the release of the bypass context, the end
    of a descriptor it handed over. *)
Inductive BoundaryEvent := OnDevice (event : SeamEvent) | BypassReleased | FdClosed.

Definition Bypass_new (ops : BoreasBypass) : option BoreasBypass := if bp_protect ops then Some ops else None.
(** Dropping the [BypassGuard]. *)
Definition guard_drop (ops : BoreasBypass) : list BoundaryEvent := if bp_release ops then [BypassReleased] else [].

Section Entry.
Context {W S I : Type} `{Etherparse, Smoltcp S I, BrowserEngine, Styling, StartWorld W I, Material}.

(** A call that answers its status, the handle it wrote, and what the host saw. *)
Definition Entry : Type := Status * option (Tunnel (S := S) (I := I)) * list BoundaryEvent.

(** Everything after the device exists; what the device and the guard do when dropped is given. *)
Definition launch (patience : nat) (parsed : TunnelConfig) (device_drop : list BoundaryEvent) (bypass : BoreasBypass) : Entry :=
  match (Api.start (W := W) (S := S) (I := I) patience parsed).2 with
  | Ok tunnel => (StatusOk, Some tunnel, [])
  | Err error => (Status_from error, None, device_drop ++ guard_drop bypass)
  | Panic => (StatusPanic, None, device_drop ++ guard_drop bypass)
  end.

(** What a device that was never used does when dropped. *)
Definition device_events (device : Device) : list BoundaryEvent := OnDevice <$> (Device_drop device).2.

(** [boreas_tunnel_start]: [out] and [runtime] say whether the out-parameter is non-null and a
    runtime could be built. *)
Definition boreas_tunnel_start (patience : nat) (config : option BoreasConfig) (device : option BoreasDevice) (bypass : option BoreasBypass)
    (out runtime : bool) : Entry :=
  match config, device, bypass, out with
  | Some config, Some device_ops, Some bypass_ops, true =>
      match Device_new device_ops with
      | (None, log) => (StatusConfig, None, (OnDevice <$> log) ++ guard_drop bypass_ops)
      | (Some device, _) =>
          let refuse status := (status, None, device_events device ++ guard_drop bypass_ops) in
          match Bypass_new bypass_ops with
          | None => refuse StatusConfig
          | Some bypass =>
              match BoreasConfig_parse config with
              | Err status => refuse status
              | Panic => refuse StatusPanic
              | Ok (parsed, _) => if runtime then launch patience parsed (device_events device) bypass else refuse StatusIo
              end
          end
      end
  | _, _, _, _ => (NullArgument, None, [])
  end.

(** [boreas_tunnel_start_fd]: [nonblocking] and [registered] are the outcomes of [fcntl] and of
    registering the descriptor. *)
Definition boreas_tunnel_start_fd (patience : nat) (config : option BoreasConfig) (fd : Z) (mtu : Z) (bypass : option BoreasBypass)
    (out nonblocking runtime registered : bool) : Entry :=
  if fd <? 0 then (NullArgument, None, [])
  else
    match config, bypass, out with
    | Some config, Some bypass_ops, true =>
        let refuse status := (status, None, guard_drop bypass_ops ++ [FdClosed]) in
        match Bypass_new bypass_ops, Mtu_new mtu with
        | Some bypass, Ok _ =>
            if negb nonblocking then refuse StatusIo
            else
              match BoreasConfig_parse config with
              | Err status => refuse status
              | Panic => refuse StatusPanic
              | Ok (parsed, _) =>
                  if negb runtime then refuse StatusIo
                  else if negb registered then (StatusIo, None, FdClosed :: guard_drop bypass_ops)
                  else launch patience parsed [FdClosed] bypass
              end
        | _, _ => refuse StatusConfig
        end
    | _, _, _ => (NullArgument, None, [FdClosed])
    end.

End Entry.

(** * Texts *)

(** The greatest position at or below [at_] that starts a character. *)
Fixpoint boundary_below (text : bytes) (at_ : nat) : nat :=
  if is_char_boundary text at_ then at_ else match at_ with O => O | Datatypes.S at_ => boundary_below text at_ end.

(** [write_c_string] into a buffer of [cap] bytes: the full length, and the buffer after. *)
Definition write_c_string (text : bytes) (buf : option bytes) (cap : nat) : nat * option bytes :=
  match buf with
  | None => (length text, None)
  | Some memory =>
      if (cap =? 0)%nat then (length text, Some memory)
      else
        let taken := boundary_below text (length text `min` (cap - 1)) in
        (length text, Some (take taken text ++ [0] ++ drop (taken + 1) memory))
  end.

(** * Events *)

Inductive BoreasEventKind := KindResolved | KindReloaded | KindCounted.

Record BoreasEvent := mkBoreasEvent {
  be_kind : BoreasEventKind;
  be_blocked : bool;
  be_name_len : nat;
  be_rule_len : nat;
  be_allowed : nat;
  be_blocked_rules : nat;
  be_inspected : nat;
  be_counters : ApiCounters;
}.

Definition counters_default : ApiCounters := mkApiCounters 0 0 0 0 0 0.
Definition BoreasEvent_empty (kind : BoreasEventKind) : BoreasEvent := mkBoreasEvent kind false 0 0 0 0 0 counters_default.

Definition BoreasEvent_reloaded (event : ApiEvent) : BoreasEvent :=
  match event with
  | EventReloaded allowed blocked inspected => mkBoreasEvent KindReloaded false 0 0 allowed blocked inspected counters_default
  | _ => BoreasEvent_empty KindReloaded
  end.

(** The event of [boreas_tunnel_next_event], with the caller's name and rule buffers after it. *)
Definition flatten_event (event : ApiEvent) (name : option bytes) (name_cap : nat) (rule : option bytes) (rule_cap : nat)
    : BoreasEvent * option bytes * option bytes :=
  match event with
  | EventResolved decided blocked matched =>
      let '(name_len, name) := write_c_string decided name name_cap in
      let '(rule_len, rule) := write_c_string (match matched with Some matched => matched | None => [] end) rule rule_cap in
      (mkBoreasEvent KindResolved blocked name_len rule_len 0 0 0 counters_default, name, rule)
  | EventReloaded _ _ _ => (BoreasEvent_reloaded event, name, rule)
  | EventCounted counters => (mkBoreasEvent KindCounted false 0 0 0 0 0 counters, name, rule)
  end.

(** [boreas_tunnel_authority] once the driver answered: the status, the two lengths it reports, and
    the buffers after. *)
Definition copy_authority (material : option (bytes * bytes)) (certificate : option bytes) (certificate_cap : nat) (keys : option bytes) (keys_cap : nat)
    : Status * (nat * nat) * (option bytes * option bytes) :=
  match material with
  | None => (StatusOk, (0, 0)%nat, (certificate, keys))
  | Some (root, secret) =>
      let lens := (length root, length secret) in
      if ((certificate_cap <? length root) || (keys_cap <? length secret))%nat then (BufferTooSmall, lens, (certificate, keys))
      else
        match certificate, keys with
        | Some certificate, Some keys =>
            (StatusOk, lens, (Some (root ++ drop (length root) certificate), Some (secret ++ drop (length secret) keys)))
        | _, _ => (NullArgument, lens, (certificate, keys))
        end
  end.

(** * The driver *)

Definition EVENT_DEPTH : nat := 64.

(** A command, by the call that waits for its answer. *)
Inductive Command := CommandReload (lists : list bytes) | CommandAuthority | CommandShutdown.
Inductive Answer := AnswerReloaded (event : ApiEvent) | AnswerAuthority (material : option (bytes * bytes)) | AnswerShutdown (clean : bool).

(** The driver task and its channels: the telemetry of the tunnel that waits and whether its shell
    still runs, the event the driver is sending, events and commands queued, whether the host still
    holds its ends, and whether the task runs. *)
Record TunnelDriver := mkDriver {
  td_telemetry : list Telemetry;
  td_shell : bool;
  td_authority : option (bytes * bytes);
  td_policy : HostPolicy;
  td_sending : option ApiEvent;
  td_events : list ApiEvent;
  td_commands : list (nat * Command);
  td_host : bool;
  td_running : bool;
}.

(** What may happen next.  The driver chooses the tunnel's next event, gets room for the event it sends,
    or chooses a command; [clean] is the outcome of stopping.  The shell reports or ends; the host
    asks, reads an event, or frees the handle. *)
Inductive DriverOp :=
| DriveEvent (clean : bool)
| DriveSend (clean : bool)
| DriveCommand (clean : bool)
| Arrive (t : Telemetry)
| ShellEnds
| HostAsk (id : nat) (command : Command)
| HostNext
| HostFree.

(** What is seen of it: telemetry reported, a command handed over, answered or dropped with its reply
    channel, an event or the end shown to the host, the tunnel stopped. *)
Inductive DriverOut :=
| Reported (t : Telemetry) | Asked (id : nat) | Answered (id : nat) (answer : Answer) | Unanswered (id : nat) | Shown (event : ApiEvent) | ShownStopped | TunnelStopped (clean : bool).

Definition set_driver (d : TunnelDriver) telemetry policy sending events commands host : TunnelDriver :=
  mkDriver telemetry (td_shell d) (td_authority d) policy sending events commands host (td_running d).

(** The driver ends: commands it did not take are dropped with their callers. *)
Definition driver_end (d : TunnelDriver) (commands : list (nat * Command)) : TunnelDriver * list DriverOut :=
  (mkDriver (td_telemetry d) (td_shell d) (td_authority d) (td_policy d) None (td_events d) [] (td_host d) false, (fun c => Unanswered c.1) <$> commands).

(** The loop broke: the tunnel is stopped, and nobody is told how it went. *)
Definition driver_break (d : TunnelDriver) (clean : bool) : TunnelDriver * list DriverOut :=
  let '(d', outs) := driver_end d (td_commands d) in (d', TunnelStopped clean :: outs).

(** The branches of the [select] of [drive].  A branch runs to its end before the next is chosen, so
    that nothing else is served while an event waits for room. *)
Definition drive_event (d : TunnelDriver) (clean : bool) : TunnelDriver * list DriverOut :=
  if td_running d && bool_decide (td_sending d = None) then
    match next_event (td_telemetry d) with
    | Some (event, telemetry) => (set_driver d telemetry (td_policy d) (Some event) (td_events d) (td_commands d) (td_host d), [])
    | None => if td_shell d then (d, []) else driver_break d clean
    end
  else (d, []).

Definition drive_send (d : TunnelDriver) (clean : bool) : TunnelDriver * list DriverOut :=
  match td_sending d with
  | Some event =>
      if negb (td_host d) then driver_break d clean
      else if (length (td_events d) <? EVENT_DEPTH)%nat then
        (set_driver d (td_telemetry d) (td_policy d) None (td_events d ++ [event]) (td_commands d) (td_host d), [])
      else (d, [])
  | None => (d, [])
  end.

Definition drive_command (d : TunnelDriver) (clean : bool) : TunnelDriver * list DriverOut :=
  if td_running d && bool_decide (td_sending d = None) then
    match td_commands d with
    | (id, CommandReload lists) :: commands =>
        let '(policy, event) := reload lists in
        (set_driver d (td_telemetry d) policy None (td_events d) commands (td_host d), [Answered id (AnswerReloaded event)])
    | (id, CommandAuthority) :: commands =>
        (set_driver d (td_telemetry d) (td_policy d) None (td_events d) commands (td_host d), [Answered id (AnswerAuthority (td_authority d))])
    | (id, CommandShutdown) :: commands =>
        let '(d', outs) := driver_end d commands in (d', TunnelStopped clean :: Answered id (AnswerShutdown clean) :: outs)
    | [] => if td_host d then (d, []) else driver_break d clean
    end
  else (d, []).

(** The host's side of [ask] and of [boreas_tunnel_next_event]. *)
Definition host_ask (d : TunnelDriver) (id : nat) (command : Command) : TunnelDriver * list DriverOut :=
  if negb (td_running d) then (d, [Asked id; Unanswered id])
  else (set_driver d (td_telemetry d) (td_policy d) (td_sending d) (td_events d) (td_commands d ++ [(id, command)]) (td_host d), [Asked id]).

Definition host_next (d : TunnelDriver) : TunnelDriver * list DriverOut :=
  match td_events d with
  | event :: events => (set_driver d (td_telemetry d) (td_policy d) (td_sending d) events (td_commands d) (td_host d), [Shown event])
  | [] => if td_running d then (d, []) else (d, [ShownStopped])
  end.

(** A call waits while the command channel is full; a freed handle is not used. *)
Definition can_ask (d : TunnelDriver) : bool := td_host d && (negb (td_running d) || (length (td_commands d) <? EVENT_DEPTH)%nat).

Definition driver_step (d : TunnelDriver) (op : DriverOp) : TunnelDriver * list DriverOut :=
  match op with
  | DriveEvent clean => drive_event d clean
  | DriveSend clean => drive_send d clean
  | DriveCommand clean => drive_command d clean
  | Arrive t =>
      if td_shell d then (set_driver d (td_telemetry d ++ [t]) (td_policy d) (td_sending d) (td_events d) (td_commands d) (td_host d), [Reported t])
      else (d, [])
  | ShellEnds => (mkDriver (td_telemetry d) false (td_authority d) (td_policy d) (td_sending d) (td_events d) (td_commands d) (td_host d) (td_running d), [])
  | HostAsk id command => if can_ask d then host_ask d id command else (d, [])
  | HostNext => if td_host d then host_next d else (d, [])
  | HostFree => (set_driver d (td_telemetry d) (td_policy d) (td_sending d) [] (td_commands d) false, [])
  end.

Fixpoint driver_run (d : TunnelDriver) (ops : list DriverOp) : TunnelDriver * list DriverOut :=
  match ops with
  | [] => (d, [])
  | op :: ops => let '(d, outs) := driver_step d op in let '(d, rest) := driver_run d ops in (d, outs ++ rest)
  end.

(** The status each call makes of its answer. *)
Definition reload_status (answer : option Answer) : Status := match answer with Some (AnswerReloaded _) => StatusOk | _ => Stopped end.
Definition shutdown_status (answer : option Answer) : Status :=
  match answer with Some (AnswerShutdown true) => StatusOk | Some (AnswerShutdown false) => StatusIo | _ => StatusOk end.

(** * Theorems *)

(** ** Texts *)

Lemma boundary_below_spec (text : bytes) (n : nat) : (n <= length text)%nat -> is_char_boundary text 0 = true ->
  (boundary_below text n <= n)%nat /\ is_char_boundary text (boundary_below text n) = true
  /\ forall m, (boundary_below text n < m <= n)%nat -> is_char_boundary text m = false.
Proof.
  intros Hn H0. induction n as [|n IH]; simpl.
  - rewrite H0. split; [lia |]. split; [done | lia].
  - destruct (is_char_boundary text (S n)) eqn:E; [split; [lia |]; split; [done | lia] |].
    destruct IH as (Hle & Hb & Hm); [lia |]. split; [lia |]. split; [done |]. intros m Hr.
    destruct (decide (m = S n)) as [-> | Hne]; [done | apply Hm; lia].
Qed.

Ltac char_done a conts rest :=
  exists a, conts, rest; repeat match goal with H : _ && _ = true |- _ => apply andb_prop in H as [? ?] end;
  split; [reflexivity |]; split; [assumption |]; split; [intros r; cbn [utf8_ok app]; repeat match goal with H : ?x = _ |- context [?x] => rewrite H; clear H end; reflexivity |];
  split; [| repeat apply Forall_cons_2; try apply Forall_nil_2]; unfold is_cont, in_range in *; lia.

(** A valid text is empty or begins with a character: a byte that is not a continuation and up to three that are. *)
Lemma utf8_char (text : bytes) : utf8_ok text = true -> text = [] \/
  exists a conts rest, text = a :: conts ++ rest /\ utf8_ok rest = true /\ (forall r, utf8_ok (a :: conts ++ r) = utf8_ok r)
    /\ is_cont a = false /\ Forall (fun b => is_cont b = true) conts.
Proof.
  destruct text as [|a bs]; [by left |]. intros Hu. right. cbn [utf8_ok] in Hu.
  destruct (a <? 128) eqn:E1; [char_done a (@nil Z) bs |].
  destruct bs as [|b bs]; [discriminate Hu |]. destruct (in_range 194 223 a) eqn:E2; [char_done a [b] bs |].
  destruct bs as [|c bs]; [discriminate Hu |]. destruct (a =? 224) eqn:E3; [char_done a [b; c] bs |].
  destruct (in_range 225 236 a || in_range 238 239 a) eqn:E4; [char_done a [b; c] bs |].
  destruct (a =? 237) eqn:E5; [char_done a [b; c] bs |].
  destruct bs as [|d bs]; [discriminate Hu |]. destruct (a =? 240) eqn:E6; [char_done a [b; c; d] bs |].
  destruct (in_range 241 243 a) eqn:E7; [char_done a [b; c; d] bs |].
  destruct (a =? 244) eqn:E8; [char_done a [b; c; d] bs | discriminate Hu].
Qed.

Lemma boundary_take (text : bytes) (n : nat) : utf8_ok text = true -> is_char_boundary text n = true -> utf8_ok (take n text) = true.
Proof.
  remember (length text) as len eqn:El. revert text El n. induction len as [len IH] using lt_wf_ind. intros text -> n Hu Hb.
  destruct (utf8_char text Hu) as [-> | (a & conts & rest & -> & Hr & Hall & _ & Hc)]; [by rewrite take_nil |].
  destruct n as [|n]; [done |]. cbn [take firstn]. destruct (decide (n < length conts)%nat) as [Hlt | Hge].
  - exfalso. unfold is_char_boundary in Hb. change ((a :: conts ++ rest) !! S n) with ((conts ++ rest) !! n) in Hb. rewrite lookup_app_l in Hb by done.
    destruct (lookup_lt_is_Some_2 conts n Hlt) as [b Eb]. rewrite Eb in Hb. rewrite Forall_lookup in Hc. specialize (Hc _ _ Eb).
    unfold is_cont, in_range in Hc. lia.
  - replace n with (length conts + (n - length conts))%nat by lia. change firstn with (@take Z). rewrite take_app_add, Hall.
    apply (IH (length rest)); [simpl; rewrite length_app; lia | done | done |].
    unfold is_char_boundary in *. change ((a :: conts ++ rest) !! S n) with ((conts ++ rest) !! n) in Hb. cbn [length] in Hb. rewrite lookup_app_r, length_app in Hb by lia.
    destruct (rest !! (n - length conts)%nat); [done |]. apply Nat.eqb_eq. apply Nat.eqb_eq in Hb. lia.
Qed.

Lemma boundary_zero (text : bytes) : utf8_ok text = true -> is_char_boundary text 0 = true.
Proof.
  intros Hu. destruct (utf8_char text Hu) as [-> | (a & conts & rest & -> & _ & _ & Ha & _)]; [done |].
  unfold is_char_boundary, is_cont, in_range in *. simpl. lia.
Qed.

(** A text copied into a buffer: the buffer keeps its length, and holds the longest prefix of whole characters that leaves room for the
    terminator, the terminator, and what it held before.  The length reported is the text's, so that a text is cut exactly
    when it is reported as long as the buffer or longer. *)
Theorem write_c_string_safe (text memory : bytes) (cap : nat) : utf8_ok text = true -> length memory = cap -> (0 < cap)%nat ->
  exists taken, write_c_string text (Some memory) cap = (length text, Some (take taken text ++ [0] ++ drop (taken + 1) memory))
    /\ length (take taken text ++ [0] ++ drop (taken + 1) memory) = cap
    /\ (taken < cap)%nat /\ utf8_ok (take taken text) = true
    /\ (forall n, (taken < n < cap)%nat -> (n <= length text)%nat -> is_char_boundary text n = false)
    /\ ((length text < cap)%nat <-> take taken text = text).
Proof.
  intros Hu Hl Hc. unfold write_c_string. destruct (Nat.eqb_spec cap 0) as [|_]; [lia |].
  destruct (boundary_below_spec text (length text `min` (cap - 1)) ltac:(lia) (boundary_zero _ Hu)) as (Hle & Hb & Hm).
  set (taken := boundary_below text (length text `min` (cap - 1))) in *. exists taken. split; [done |].
  split; [rewrite !length_app, length_take, length_drop; simpl; lia |]. split; [lia |]. split; [by apply boundary_take |].
  split; [intros n Hn Ht; apply Hm; lia |]. split.
  - intros Hf. apply take_ge. destruct (decide (length text <= taken)%nat) as [|Hn]; [done |]. exfalso.
    assert (is_char_boundary text (length text) = false) as Hz by (apply Hm; lia). unfold is_char_boundary in Hz.
    rewrite (proj2 (lookup_ge_None text (length text))) in Hz by lia. apply Nat.eqb_neq in Hz. lia.
  - intros E. apply (f_equal length) in E. rewrite length_take in E. lia.
Qed.

(** Authority material is copied only into buffers that hold it, and the lengths say what they must hold. *)
Lemma copy_authority_bounded (material : option (bytes * bytes)) (certificate keys : bytes) :
  let '(status, lens, after) := copy_authority material (Some certificate) (length certificate) (Some keys) (length keys) in
  lens = match material with Some (root, secret) => (length root, length secret) | None => (0, 0)%nat end
  /\ match after with
     | (Some certificate', Some keys') => length certificate' = length certificate /\ length keys' = length keys
     | _ => False
     end
  /\ (status = StatusOk \/ status = BufferTooSmall /\ after = (Some certificate, Some keys)).
Proof.
  unfold copy_authority. destruct material as [[root secret]|]; [|by auto]. destruct (_ || _) eqn:E; [by auto |].
  apply orb_false_elim in E as [E1%Nat.ltb_ge E2%Nat.ltb_ge]. split; [done |].
  split; [rewrite !length_app, !length_drop; lia | by left].
Qed.

(** ** Configuration *)

Definition parse_refuses (r : Status) : Prop := r = NullArgument \/ r = NotUtf8 \/ r = StatusConfig \/ r = StatusAuthority.

(** An outcome that is a value with [Q], or one of the statuses of a refused configuration. *)
Definition parsed {A} (r : Res Status A) (Q : A -> Prop) : Prop := match r with Ok a => Q a | Err status => parse_refuses status | Panic => False end.

Lemma parsed_bind {A B} (r : Res Status A) (f : A -> Res Status B) (P : A -> Prop) (Q : B -> Prop) :
  parsed r P -> (forall a, r = Ok a -> P a -> parsed (f a) Q) -> parsed (r ≫= f) Q.
Proof. intros H K. destruct r as [a | status |]; simpl in *; [by apply K | done | done]. Qed.

Lemma owned_text_parsed (pointer : option bytes) : parsed (owned_text pointer) (fun o => o = pointer /\ forall text, o = Some text -> utf8_ok text = true).
Proof.
  destruct pointer as [raw|]; simpl; [|done]. destruct (utf8_ok raw) eqn:E; simpl; [|by right; left].
  split; [done | by intros text [= <-]].
Qed.

Lemma collect_texts_parsed (entries : list (option bytes)) :
  parsed (collect_texts entries) (fun texts => entries = Some <$> texts /\ Forall (fun text => utf8_ok text = true) texts).
Proof.
  induction entries as [|entry entries IH]; simpl; [done |]. eapply parsed_bind; [apply owned_text_parsed |].
  intros [text|] _ [<- Ht]; simpl; [|by left]. eapply parsed_bind; [apply IH |]. intros texts _ [-> Hf]. simpl. split; [done |].
  constructor; [by apply Ht | done].
Qed.

(** The texts of an array of pointers: as many as its count, all of them there and valid. *)
Definition texts_at (pointer : option (list (option bytes))) (count : nat) (texts : list bytes) : Prop :=
  Forall (fun text => utf8_ok text = true) texts
  /\ match pointer with Some entries => take count entries = Some <$> texts | None => count = O /\ texts = [] end.

Lemma strings_parsed (pointer : option (list (option bytes))) (count : nat) : parsed (strings pointer count) (texts_at pointer count).
Proof.
  unfold strings. destruct (Nat.eqb_spec count 0) as [-> | Hc]; simpl.
  - split; [done |]. by destruct pointer.
  - destruct pointer as [entries|]; simpl; [|by left]. pose proof (collect_texts_parsed (take count entries)) as H.
    destruct (collect_texts (take count entries)); simpl in *; [by destruct H | done | done].
Qed.

Lemma parse_address_parsed (text : bytes) : parsed (parse_address text) (fun address => parse_socket text = Some address).
Proof. unfold parse_address. destruct (parse_socket text); simpl; [done | by right; right; left]. Qed.

Lemma parse_mtu_parsed (value : Z) : parsed (parse_mtu value) (fun mtu => Mtu_get mtu = value /\ MIN_IPV6_MTU <= value).
Proof.
  unfold parse_mtu, Mtu_new. destruct (Z.leb_spec MIN_IPV6_MTU value); simpl; [done | by right; right; left].
Qed.

(** The egress of a configuration is the one its tag selects; WireGuard takes the keys as they are given, with a keepalive of
    25 seconds. *)
Definition egress_as (c : BoreasConfig) (e : EgressChoice * option WireGuardConfig) : Prop :=
  match bf_egress c with
  | BoreasDirect => e = (ChooseDirect match bf_nat_behavior c with
                                      | NatEndpointIndependent => EndpointIndependent
                                      | NatAddressDependent => AddressDependent
                                      | NatAddressAndPortDependent => AddressAndPortDependent
                                      end, None)
  | BoreasWireGuardTag => exists text address mtu, bw_endpoint (bf_wireguard c) = Some text /\ parse_socket text = Some address
      /\ Mtu_get mtu = bf_mtu c
      /\ e = (ChooseWireGuard address,
              Some (mkWireGuardConfig (bw_private_key (bf_wireguard c)) (bw_peer_public_key (bf_wireguard c))
                     (if bw_has_preshared_key (bf_wireguard c) then Some (bw_preshared_key (bf_wireguard c)) else None) (Some 25) mtu))
  end.

Lemma parse_egress_parsed (c : BoreasConfig) : parsed (parse_egress c) (egress_as c).
Proof.
  unfold parse_egress, egress_as. destruct (bf_egress c); [by destruct (bf_nat_behavior c) |].
  eapply parsed_bind; [apply owned_text_parsed |]. intros [text|] _ [E _]; simpl; [|by left].
  eapply parsed_bind; [apply parse_address_parsed |]. intros address _ Ha. eapply parsed_bind; [apply parse_mtu_parsed |].
  intros mtu _ [Hm _]. simpl. by exists text, address, mtu.
Qed.

Definition resolver_as (c : BoreasConfig) (r : ResolverChoice) : Prop :=
  match bf_resolver c with
  | None => r = Passthrough
  | Some text => exists address, parse_socket text = Some address /\ r = LocalResolver (ChooseDo53 address)
  end.

Lemma parse_resolver_parsed (c : BoreasConfig) : parsed (parse_resolver c) (resolver_as c).
Proof.
  unfold parse_resolver, resolver_as. eapply parsed_bind; [apply owned_text_parsed |]. intros o _ [-> _].
  destruct (bf_resolver c) as [text|]; simpl; [|done]. eapply parsed_bind; [apply parse_address_parsed |]. intros address _ Ha. simpl. by exists address.
Qed.

(** A buffer that is there and not empty, as bytes. *)
Definition memory_at (pointer : option bytes) (len : nat) (o : option bytes) : Prop :=
  match o with
  | Some bs => exists memory, pointer = Some memory /\ len <> O /\ bs = take len memory
  | None => pointer = None \/ len = O
  end.

Lemma bytes_of_at (pointer : option bytes) (len : nat) : memory_at pointer len (bytes_of pointer len).
Proof. unfold bytes_of. destruct pointer as [memory|]; [|by left]. destruct (Nat.eqb_spec len 0); [by right | by exists memory]. Qed.

(** Interception is asked for exactly when there are hosts, restores an authority only from two halves that fit, and rewrites
    documents, within two mebibytes, exactly when it is told to. *)
Definition interception_as `{Material} (c : BoreasConfig) (hosts : list bytes) (i : option Interception) : Prop :=
  match i with
  | None => hosts = []
  | Some i => hosts <> [] /\ in_hosts i = hosts
      /\ in_documents i = (if bf_rewrite_documents c then Some (mkStreamBudget (Z.to_nat 2097152) (Z.to_nat 16384)) else None)
      /\ match in_trust i with
         | TrustRestore material => exists certificate keys, from_parts certificate keys = Some material
             /\ memory_at (bf_root_certificate c) (bf_root_certificate_len c) (Some certificate)
             /\ memory_at (bf_authority_keys c) (bf_authority_keys_len c) (Some keys)
         | TrustGenerate => memory_at (bf_root_certificate c) (bf_root_certificate_len c) None
             /\ memory_at (bf_authority_keys c) (bf_authority_keys_len c) None
         end
  end.

Lemma parse_interception_parsed `{Material} (c : BoreasConfig) (hosts : list bytes) : parsed (parse_interception c hosts) (interception_as c hosts).
Proof.
  unfold parse_interception. destruct (Nat.eqb_spec (length hosts) 0) as [E | Hh]; simpl; [by apply length_zero_iff_nil |].
  assert (hosts <> []) by (by intros ->). unfold parse_refuses.
  pose proof (bytes_of_at (bf_root_certificate c) (bf_root_certificate_len c)) as Hc.
  pose proof (bytes_of_at (bf_authority_keys c) (bf_authority_keys_len c)) as Hk.
  destruct (bytes_of (bf_root_certificate c) _) as [certificate|] eqn:Ec, (bytes_of (bf_authority_keys c) _) as [keys|] eqn:Ek.
  - destruct (from_parts certificate keys) eqn:Ef; simpl; [|by right; right; right].
    split; [done |]. split; [done |]. split; [by destruct (bf_rewrite_documents c) |]. by exists certificate, keys.
  - by right; right; left.
  - by right; right; left.
  - simpl. split; [done |]. split; [done |]. by destruct (bf_rewrite_documents c).
Qed.

(** The ceilings, in the order of their fields. *)
Definition ceiling_list (c : Ceilings) : list nat :=
  [buffer_slices c; datagrams_per_flow c; terminated_connections c; associations c; inspected_addresses c; pending_reassemblies c].
Definition given_ceilings (c : BoreasCeilings) : list nat :=
  [bc_buffer_slices c; bc_datagrams_per_flow c; bc_terminated_connections c; bc_associations c; bc_inspected_addresses c; bc_pending_reassemblies c].

(** What a configuration that parses says, field by field. *)
Record config_as `{Material} (c : BoreasConfig) (r : TunnelConfig * option WireGuardConfig) : Prop := {
  ca_egress : egress_as c (tc_egress r.1, r.2);
  ca_resolver : resolver_as c (tc_resolver r.1);
  ca_mtu : Mtu_get (lk_mtu (tc_link r.1)) = bf_mtu c /\ MIN_IPV6_MTU <= bf_mtu c;
  ca_ports : lk_origination_ports (tc_link r.1) = mkPorts 45000 46000;
  ca_lists : texts_at (bf_lists c) (bf_list_count c) (fi_lists (tc_filtering r.1));
  ca_interception : exists hosts, texts_at (bf_intercept_hosts c) (bf_intercept_host_count c) hosts
    /\ interception_as c hosts (fi_interception (tc_filtering r.1));
  ca_ceilings : ceiling_list (tc_ceilings r.1) =
    zip_with (fun given default => if decide (given = O) then default else given) (given_ceilings (bf_ceilings c)) [2048; 32; 512; 256; 1024; 64]%nat;
}.

Lemma parse_config_parsed `{Material} (c : BoreasConfig) : parsed (BoreasConfig_parse c) (config_as c).
Proof.
  unfold BoreasConfig_parse. eapply parsed_bind; [apply parse_egress_parsed |]. intros egress _ He.
  eapply parsed_bind; [apply parse_resolver_parsed |]. intros resolver _ Hr.
  eapply parsed_bind; [apply strings_parsed |]. intros hosts _ Hh.
  eapply parsed_bind; [apply parse_interception_parsed |]. intros interception _ Hi.
  eapply parsed_bind; [apply strings_parsed |]. intros lists _ Hl.
  eapply parsed_bind; [apply parse_mtu_parsed |]. intros mtu _ Hm. simpl.
  split; simpl; [by destruct egress | done | done | done | done | by exists hosts |].
  unfold ceiling_list, given_ceilings, BoreasCeilings_parse, ceiling. cbn [buffer_slices datagrams_per_flow terminated_connections associations
    inspected_addresses pending_reassemblies Ceilings_default zip_with].
  repeat f_equal; (case_decide as E; [by rewrite E | by rewrite (proj2 (Nat.eqb_neq _ _) E)]).
Qed.

(** ** Starting *)

(** What a device that never ran sees when it is refused or dropped. *)
Definition device_refused (o : BoreasDevice) : list SeamEvent :=
  if op_recv o && op_send o then
    (if (MIN_IPV6_MTU <=? op_mtu o) && op_close o then [HostClose] else []) ++ (if op_release o then [HostRelease] else [])
  else [].

Section Accounts.
Context {W S I : Type} `{Etherparse, Smoltcp S I, BrowserEngine, Styling, StartWorld W I, Material}.

Abbreviation starts_ok patience parsed t := ((Api.start (W := W) (S := S) (I := I) patience parsed).2 = Ok t).

Lemma status_from_failure (error : StartError W) : Status_from error <> StatusOk.
Proof. by destruct error. Qed.

(** A device that exists was given both callbacks and an MTU, and its drop releases its context. *)
Lemma device_new_some (o : BoreasDevice) (device : Device) (log : list SeamEvent) : Device_new o = (Some device, log) ->
  op_recv o = true /\ op_send o = true /\ MIN_IPV6_MTU <= op_mtu o /\ (Device_drop device).2 = device_refused o.
Proof.
  unfold Device_new, Mtu_new, device_refused. destruct (op_recv o), (op_send o); try done.
  destruct (Z.leb_spec MIN_IPV6_MTU (op_mtu o)); [|done]. intros [= <- <-]. done.
Qed.

Lemma device_new_none (o : BoreasDevice) (log : list SeamEvent) : Device_new o = (None, log) -> log = device_refused o.
Proof.
  unfold Device_new, Mtu_new, device_refused. destruct (op_recv o), (op_send o); try (by intros [= <-]).
  destruct (Z.leb_spec MIN_IPV6_MTU (op_mtu o)); [done |]. by intros [= <-].
Qed.

(** C11: a start given its four pointers.  It succeeds exactly when the device has both callbacks and an MTU, the bypass can protect a
    socket, the configuration parses, a runtime could be built, and the tunnel started on that configuration, which is what
    the fields say: the egress its tag selects with its keys, the resolver, the texts of the lists and hosts, the stored
    authority or a new one, the rewriting of documents, the MTU and each ceiling; only then is a handle written, and no
    context is released.  A start that fails lets go of the device, then of the bypass, whose release is called once.  A
    device with both callbacks has its own called once, after its close unless it was refused for its MTU, when it is not
    closed.  A device refused for a missing callback is neither closed nor released, where [api/abi.md],
    [api/obligations.md] and [api/lifecycle.md] promise that both release callbacks run on any failure.  The status of a configuration that does
    not parse is one of four. *)
Theorem start_accounts (patience : nat) (c : BoreasConfig) (o : BoreasDevice) (b : BoreasBypass) (runtime : bool) :
  let '(status, handle, events) := boreas_tunnel_start (W := W) (S := S) (I := I) patience (Some c) (Some o) (Some b) true runtime in
  match handle with
  | Some t => status = StatusOk /\ events = []
      /\ op_recv o = true /\ op_send o = true /\ MIN_IPV6_MTU <= op_mtu o /\ bp_protect b = true /\ runtime = true
      /\ exists parsed keys, BoreasConfig_parse c = Ok (parsed, keys) /\ config_as c (parsed, keys) /\ starts_ok patience parsed t
  | None => status <> StatusOk /\ events = (OnDevice <$> device_refused o) ++ (if bp_release b then [BypassReleased] else [])
      /\ (forall refusal, bp_protect b = true -> MIN_IPV6_MTU <= op_mtu o -> op_recv o && op_send o = true -> BoreasConfig_parse c = Err refusal ->
          status = refusal /\ parse_refuses refusal)
      /\ forall parsed keys t, op_recv o && op_send o = true -> MIN_IPV6_MTU <= op_mtu o -> bp_protect b = true -> runtime = true ->
         BoreasConfig_parse c = Ok (parsed, keys) -> ~ starts_ok patience parsed t
  end.
Proof.
  pose proof (parse_config_parsed c) as Hp. unfold boreas_tunnel_start. destruct (Device_new o) as [[device|] log] eqn:Ed.
  - destruct (device_new_some _ _ _ Ed) as (Hr & Hs & Hm & Hd). unfold Bypass_new, device_events. rewrite Hd.
    destruct (bp_protect b) eqn:Hb; [|split; [done |]; split; [done |]; split; intros; congruence].
    destruct (BoreasConfig_parse c) as [[parsed keys] | status |] eqn:Ep; [| |done].
    + destruct runtime; [|split; [done |]; split; [done |]; split; intros; congruence]. unfold launch.
      destruct (Api.start patience parsed) as [actions [t | error |]] eqn:Es; simpl.
      * split_and!; try done. exists parsed, keys. by rewrite Es.
      * split; [apply status_from_failure |]. split; [done |]. split; [done |]. intros parsed' keys' t' _ _ _ _ [= <- <-]. by rewrite Es.
      * split; [done |]. split; [done |]. split; [done |]. intros parsed' keys' t' _ _ _ _ [= <- <-]. by rewrite Es.
    + simpl in Hp. assert (status <> StatusOk) by (by destruct Hp as [-> | [-> | [-> | ->]]]).
      split; [done |]. split; [done |]. split; [intros refusal _ _ _ [= <-]; done | done].
  - rewrite (device_new_none _ _ Ed). split; [done |]. split; [done |]. unfold Device_new, Mtu_new in Ed.
    destruct (op_recv o), (op_send o), (Z.leb_spec MIN_IPV6_MTU (op_mtu o)); simpl in *; try discriminate Ed; (split; intros; [try done; lia | try done; lia]).
Qed.

(** The descriptor of [boreas_tunnel_start_fd] is closed on every failure, and once. *)
Lemma start_fd_closes (patience : nat) (config : option BoreasConfig) (fd mtu : Z) (bypass : option BoreasBypass) (out nonblocking runtime registered : bool) :
  0 <= fd ->
  let '(status, handle, events) := boreas_tunnel_start_fd (W := W) (S := S) (I := I) patience config fd mtu bypass out nonblocking runtime registered in
  match handle with
  | Some _ => status = StatusOk /\ events = []
  | None => status <> StatusOk /\ omap (fun e => match e with FdClosed => Some tt | _ => None end) events = [tt]
  end.
Proof.
  intros Hf. unfold boreas_tunnel_start_fd. destruct (Z.ltb_spec fd 0); [lia |].
  destruct config as [c|], bypass as [b|], out; try done. pose proof (parse_config_parsed c) as Hp.
  assert (forall status, status <> StatusOk ->
    status <> StatusOk /\ omap (fun e => match e with FdClosed => Some tt | _ => None end) (guard_drop b ++ [FdClosed]) = [tt]) as Hg.
  { intros status Hs. split; [done |]. unfold guard_drop. by destruct (bp_release b). }
  unfold Bypass_new. destruct (bp_protect b), (Mtu_new mtu); try by apply Hg. destruct nonblocking; [|by apply Hg].
  destruct (BoreasConfig_parse c) as [[parsed keys] | status |]; simpl in *; [| by apply Hg; destruct Hp as [-> | [-> | [-> | ->]]] | done].
  destruct runtime; [|by apply Hg]. unfold launch, guard_drop.
  destruct registered; [|split; [done |]; by destruct (bp_release b)].
  destruct (Api.start patience parsed) as [actions [t | error |]]; simpl; [done | split; [apply status_from_failure |] | split; [done |]]; by destruct (bp_release b).
Qed.
End Accounts.

(** ** The driver *)

Definition asked : list DriverOut -> list nat := omap (fun o => match o with Asked id => Some id | _ => None end).
Definition resolved : list DriverOut -> list nat := omap (fun o => match o with Answered id _ | Unanswered id => Some id | _ => None end).
Definition shown : list DriverOut -> list ApiEvent := omap (fun o => match o with Shown event => Some event | _ => None end).
Definition reported : list DriverOut -> list ApiEvent := omap (fun o => match o with Reported t => project t | _ => None end).
Definition stops : list DriverOut -> nat := fun outs => length (omap (fun o => match o with TunnelStopped _ => Some tt | _ => None end) outs).

(** Every command is resolved once, in the order asked; events are shown in the order reported, none lost while
    the driver runs and the host reads; the tunnel is stopped once. *)
Record driver_ok (d : TunnelDriver) (a r : list nat) (s rep : list ApiEvent) (n : nat) : Prop := {
  do_asked : a = r ++ (td_commands d).*1;
  do_ended : td_running d = false -> td_commands d = [] /\ td_sending d = None;
  do_shown : td_host d = true -> td_running d = true ->
    rep = s ++ td_events d ++ match td_sending d with Some event => [event] | None => [] end ++ omap project (td_telemetry d);
  do_prefix : s ++ td_events d `prefix_of` rep;
  do_stops : n = if td_running d then 0%nat else 1%nat;
  do_queues : (length (td_events d) <= EVENT_DEPTH)%nat /\ (length (td_commands d) <= EVENT_DEPTH)%nat;
}.

Lemma next_event_project (waiting : list Telemetry) :
  match next_event waiting with
  | Some (event, rest) => omap project waiting = event :: omap project rest
  | None => omap project waiting = []
  end.
Proof.
  induction waiting as [|t waiting IH]; [done |]. simpl. unfold omap in *. simpl. destruct (project t); [done |]. exact IH.
Qed.

Abbreviation keeps d a r s rep n res :=
  (driver_ok (res.1) (a ++ asked res.2) (r ++ resolved res.2) (s ++ shown res.2) (rep ++ reported res.2) (n + stops res.2)).

Lemma end_outs (commands : list (nat * Command)) :
  asked ((fun c => Unanswered c.1) <$> commands) = [] /\ resolved ((fun c => Unanswered c.1) <$> commands) = commands.*1
  /\ shown ((fun c => Unanswered c.1) <$> commands) = [] /\ reported ((fun c => Unanswered c.1) <$> commands) = []
  /\ stops ((fun c => Unanswered c.1) <$> commands) = 0%nat.
Proof.
  induction commands as [|c commands (E1 & E2 & E3 & E4 & E5)]; [done |].
  unfold asked, resolved, shown, reported, stops, omap, fmap in *. simpl in *. by rewrite E1, E2, E3, E4, E5.
Qed.

Section Driver.
Context (d : TunnelDriver) (a r : list nat) (s rep : list ApiEvent) (n : nat) (K : driver_ok d a r s rep n).

Lemma idle_ok : keeps d a r s rep n (d, @nil DriverOut).
Proof. simpl. rewrite !app_nil_r, Nat.add_0_r. exact K. Qed.

(** The driver ends after answering the commands before [commands]. *)
Lemma end_ok (outs : list DriverOut) (commands : list (nat * Command)) : td_running d = true ->
  asked outs = [] -> shown outs = [] -> reported outs = [] -> stops outs = 1%nat -> (td_commands d).*1 = resolved outs ++ commands.*1 ->
  keeps d a r s rep n ((driver_end d commands).1, outs ++ (driver_end d commands).2).
Proof.
  intros Hr Ha Hs Hp Hn Hc. destruct K as [K1 K2 K3 K4 K5 K6]. unfold driver_end. simpl.
  destruct (end_outs commands) as (E1 & E2 & E3 & E4 & E5).
  assert (forall {B} (f : DriverOut -> option B) x y, omap f (x ++ y) = omap f x ++ omap f y) as App by (intros; apply omap_app).
  unfold asked, resolved, shown, reported, stops in *. rewrite !App, E1, E2, E3, E4, Ha, Hs, Hp, !app_nil_r, length_app, E5, Hn.
  split; simpl; try done; [by rewrite K1, Hc, app_nil_r | by rewrite K5, Hr | split; [apply K6 | lia]].
Qed.

Lemma break_ok (clean : bool) : td_running d = true -> keeps d a r s rep n (driver_break d clean).
Proof. intros Hr. exact (end_ok [TunnelStopped clean] (td_commands d) Hr eq_refl eq_refl eq_refl eq_refl eq_refl). Qed.

Lemma drive_event_ok (clean : bool) : keeps d a r s rep n (drive_event d clean).
Proof.
  unfold drive_event. destruct (td_running d) eqn:Hr; [|apply idle_ok]. destruct (bool_decide_reflect (td_sending d = None)) as [Hs|]; [|apply idle_ok].
  pose proof (next_event_project (td_telemetry d)) as Hp. destruct (next_event (td_telemetry d)) as [[event telemetry]|] eqn:E; simpl.
  - destruct K as [K1 K2 K3 K4 K5 K6]. rewrite !app_nil_r, Nat.add_0_r. split; simpl; try done; [congruence |].
    intros Hh _. rewrite (K3 Hh Hr), Hs, Hp. done.
  - destruct (td_shell d); [apply idle_ok | by apply break_ok].
Qed.

Lemma drive_send_ok (clean : bool) : keeps d a r s rep n (drive_send d clean).
Proof.
  unfold drive_send. destruct (td_sending d) as [event|] eqn:Hs; [|apply idle_ok].
  assert (td_running d = true) as Hr by (destruct (td_running d) eqn:Hr; [done |]; destruct (do_ended _ _ _ _ _ _ K Hr); congruence).
  destruct (td_host d) eqn:Hh; simpl; [|by apply break_ok].
  destruct (Nat.ltb_spec (length (td_events d)) EVENT_DEPTH); [|apply idle_ok].
  destruct K as [K1 K2 K3 K4 K5 K6]. simpl. rewrite !app_nil_r, Nat.add_0_r. specialize (K3 Hh Hr). rewrite Hs in K3. split; simpl; try done.
  - intros Hf. by destruct (K2 Hf).
  - intros _ _. by rewrite K3, <- app_assoc.
  - rewrite K3. exists (omap project (td_telemetry d)). by rewrite <- !app_assoc.
  - rewrite length_app. simpl. lia.
Qed.

Lemma drive_command_ok (clean : bool) : keeps d a r s rep n (drive_command d clean).
Proof.
  unfold drive_command. destruct (td_running d) eqn:Hr; [|apply idle_ok]. destruct (bool_decide_reflect (td_sending d = None)) as [Hs|]; [|apply idle_ok].
  destruct (td_commands d) as [|[id [lists | |]] commands] eqn:Hc; simpl.
  - destruct (td_host d); [apply idle_ok | by apply break_ok].
  - destruct K as [K1 K2 K3 K4 K5 K6]. rewrite Hc, Hs in *. simpl in *. rewrite !app_nil_r, Nat.add_0_r.
    split; simpl; try done; [by rewrite K1, <- app_assoc | congruence | lia].
  - destruct K as [K1 K2 K3 K4 K5 K6]. rewrite Hc, Hs in *. simpl in *. rewrite !app_nil_r, Nat.add_0_r.
    split; simpl; try done; [by rewrite K1, <- app_assoc | congruence | lia].
  - apply (end_ok [TunnelStopped clean; Answered id (AnswerShutdown clean)] commands Hr); try done. by rewrite Hc.
Qed.

Lemma host_ask_ok (id : nat) (command : Command) : can_ask d = true -> keeps d a r s rep n (host_ask d id command).
Proof.
  intros Hc. unfold can_ask in Hc. apply andb_prop in Hc as [_ Hc]. unfold host_ask. destruct K as [K1 K2 K3 K4 K5 K6]. destruct (td_running d) eqn:Hr; simpl.
  - apply Nat.ltb_lt in Hc. rewrite !app_nil_r, Nat.add_0_r. split; simpl; rewrite ?Hr; try done.
    + by rewrite fmap_app, K1, app_assoc.
    + rewrite length_app. simpl. lia.
  - destruct (K2 eq_refl) as [Ec Es]. rewrite !app_nil_r, Nat.add_0_r. split; rewrite ?Hr; try done.
    rewrite K1, Ec. simpl. by rewrite !app_nil_r.
Qed.

Lemma host_next_ok : keeps d a r s rep n (host_next d).
Proof.
  unfold host_next. destruct K as [K1 K2 K3 K4 K5 K6]. destruct (td_events d) as [|event events] eqn:He; simpl.
  - destruct (td_running d) eqn:Hr; simpl; rewrite !app_nil_r, Nat.add_0_r; (split; simpl; rewrite ?He, ?Hr; try done).
  - simpl. rewrite !app_nil_r, Nat.add_0_r. split; simpl in *; try done.
    + intros Hh Hr. rewrite (K3 Hh Hr), <- app_assoc. done.
    + by rewrite <- app_assoc.
    + lia.
Qed.

Lemma tunnel_driver_step_ok (op : DriverOp) : keeps d a r s rep n (driver_step d op).
Proof.
  destruct op; unfold driver_step; [apply drive_event_ok | apply drive_send_ok | apply drive_command_ok | | | | |].
  - destruct (td_shell d); [|apply idle_ok]. destruct K as [K1 K2 K3 K4 K5 K6]. simpl. unfold asked, resolved, shown, stops. simpl.
    rewrite !app_nil_r, Nat.add_0_r. replace (reported [Reported t]) with (omap project [t]) by done.
    split; simpl; try done; [|by apply prefix_app_r].
    intros Hh Hr. rewrite (K3 Hh Hr), omap_app, <- !app_assoc. done.
  - destruct K as [K1 K2 K3 K4 K5 K6]. simpl. rewrite !app_nil_r, Nat.add_0_r. by split.
  - destruct (can_ask d) eqn:Hc; [by apply host_ask_ok | apply idle_ok].
  - destruct (td_host d); [apply host_next_ok | apply idle_ok].
  - destruct K as [K1 K2 K3 K4 K5 K6]. simpl. rewrite !app_nil_r, Nat.add_0_r. split; simpl; try done; [|lia].
    rewrite app_nil_r. etransitivity; [|exact K4]. by apply prefix_app_r.
Qed.
End Driver.

(** The driver of a tunnel that just started. *)
Definition driver_new (authority : option (bytes * bytes)) (policy : HostPolicy) : TunnelDriver := mkDriver [] true authority policy None [] [] true true.

(** Over any interleaving of the driver, the tunnel and the host's calls. *)
Theorem driver_serves (authority : option (bytes * bytes)) (policy : HostPolicy) (ops : list DriverOp) :
  let '(d, outs) := driver_run (driver_new authority policy) ops in
  driver_ok d (asked outs) (resolved outs) (shown outs) (reported outs) (stops outs).
Proof.
  enough (forall d a r s rep n, driver_ok d a r s rep n -> keeps d a r s rep n (driver_run d ops)) as K.
  { specialize (K (driver_new authority policy) [] [] [] [] 0%nat). destruct (driver_run _ ops) as [d outs]. apply K.
    split; simpl; try done. lia. }
  induction ops as [|op ops IH]; intros d a r s rep n Hd; [by apply idle_ok |]. cbn [driver_run].
  pose proof (tunnel_driver_step_ok d a r s rep n Hd op) as Hs. destruct (driver_step d op) as [d1 outs]. specialize (IH _ _ _ _ _ _ Hs). cbn [fst snd] in *.
  destruct (driver_run d1 ops) as [d2 rest]. cbn [fst snd] in *.
  assert (forall {B} (f : DriverOut -> option B) x y, omap f (x ++ y) = omap f x ++ omap f y) as App by (intros; apply omap_app).
  unfold asked, resolved, shown, reported, stops in *. by rewrite !App, !app_assoc, length_app, Nat.add_assoc.
Qed.

(** While as many events wait as the channel holds and the driver has another, it serves no command: a shutdown waits until
    the host reads an event. *)
Theorem full_driver_serves_nothing (d : TunnelDriver) (ops : list DriverOp) :
  is_Some (td_sending d) -> (EVENT_DEPTH <= length (td_events d))%nat -> td_host d = true -> td_running d = true ->
  Forall (fun op => op <> HostNext /\ op <> HostFree) ops -> resolved (driver_run d ops).2 = [] /\ stops (driver_run d ops).2 = 0%nat.
Proof.
  intros Hs He Hh Hr Hf. revert d Hs He Hh Hr. induction Hf as [|op ops [Hn Hfree] _ IH]; intros d [event Hs] He Hh Hr; [done |].
  cbn [driver_run]. assert (exists d1 outs, driver_step d op = (d1, outs) /\ is_Some (td_sending d1) /\ (EVENT_DEPTH <= length (td_events d1))%nat
    /\ td_host d1 = true /\ td_running d1 = true /\ resolved outs = [] /\ stops outs = 0%nat) as (d1 & outs & -> & K1 & K2 & K3 & K4 & K5 & K6).
  { destruct op; unfold driver_step, drive_event, drive_send, drive_command, host_ask; rewrite ?Hs, ?Hr, ?Hh, ?bool_decide_false by congruence; simpl; try done.
    - by do 2 eexists.
    - destruct (Nat.ltb_spec (length (td_events d)) EVENT_DEPTH); [lia |]. by do 2 eexists.
    - by do 2 eexists.
    - destruct (td_shell d); do 2 eexists; (split; [reflexivity |]); by rewrite ?Hs.
    - do 2 eexists. split; [reflexivity |]. by simpl; rewrite ?Hs.
    - destruct (can_ask d); do 2 eexists; (split; [reflexivity |]); by rewrite ?Hs. }
  specialize (IH d1 K1 K2 K3 K4). destruct (driver_run d1 ops) as [d2 rest]. cbn [fst snd] in *.
  unfold resolved, stops in *. rewrite !omap_app, length_app, K5, K6. destruct IH as [-> ->]. done.
Qed.

(** Such a driver: sixty-five events reported, none read, and a shutdown asked. *)
Example full_driver_reached :
  let events := concat (repeat [Arrive (PacketsRejected 1); DriveEvent true; DriveSend true] 64) in
  let '(d, outs) := driver_run (driver_new None HostPolicy_new) (events ++ [Arrive (PacketsRejected 1); DriveEvent true; HostAsk 7 CommandShutdown]) in
  length (td_events d) = 64%nat /\ is_Some (td_sending d) /\ asked outs = [7%nat] /\ resolved outs = [].
Proof. vm_compute. eauto. Qed.

(** ** A start *)

#[local] Instance sample_material : Material := {| from_parts certificate keys := Some (certificate ++ keys) |}.

Definition sample_boreas_config : BoreasConfig :=
  mkBoreasConfig BoreasDirect (mkBoreasWireGuard None [] [] [] false) NatEndpointIndependent (Some (text_of "198.51.100.53:53"))
    (Some [Some (text_of "||ads.example^")]) 1 (Some [Some (text_of "Shop.example")]) 1 None 0 None 0 false 1500 (mkBoreasCeilings 0 0 0 0 0 0).

Abbreviation sample_start device bypass :=
  (@boreas_tunnel_start unit ScriptedTcp.Sock ScriptedTcp.Script sample_etherparse _ sample_engine sample_styling sample_start_world sample_material 3
     (Some sample_boreas_config) (Some device) (Some bypass) true true).

(** A start that succeeds, and one whose bypass cannot protect. *)
Lemma start_accounts_witness :
  (sample_start sample_device (mkBypass true true)).2 = []
  /\ (sample_start sample_device (mkBypass false true)).2 = [OnDevice HostClose; OnDevice HostRelease; BypassReleased].
Proof.
  split.
  - pose proof (@start_accounts unit ScriptedTcp.Sock ScriptedTcp.Script sample_etherparse _ sample_engine sample_styling sample_start_world sample_material 3
      sample_boreas_config sample_device (mkBypass true true) true) as A.
    assert (match (sample_start sample_device (mkBypass true true)).1.2 with Some _ => true | None => false end = true) as E by (vm_compute; reflexivity).
    destruct (sample_start sample_device (mkBypass true true)) as [[status [t|]] events]; [|discriminate E]. by destruct A as (_ & -> & _).
  - pose proof (@start_accounts unit ScriptedTcp.Sock ScriptedTcp.Script sample_etherparse _ sample_engine sample_styling sample_start_world sample_material 3
      sample_boreas_config sample_device (mkBypass false true) true) as A.
    destruct (sample_start sample_device (mkBypass false true)) as [[status [t|]] events]; [by destruct A as (_ & _ & _ & _ & _ & ? & _) | by destruct A as (_ & -> & _)].
Defined.

(** A device without a [send] is refused, and its context kept. *)
Example missing_callback_keeps_context :
  (sample_start (mkOps true false true true 1500) (mkBypass true true)).1.1 = StatusConfig
  /\ (sample_start (mkOps true false true true 1500) (mkBypass true true)).2 = [BypassReleased].
Proof. done. Qed.

(** A text as long as the buffer is cut. *)
Example text_as_long_as_buffer : write_c_string (text_of "abc") (Some [1; 1; 1]) 3 = (3%nat, Some [97; 98; 0]).
Proof. reflexivity. Qed.
